(* ===== verification/_CoqProject ===== *)
-Q . S2P
Prelude.v
Frame.v
Text.v
Http.v
Window.v
Upload.v
Assembler.v
Demux.v
HomeMux.v
HomeDriver.v
HomeInv.v
HomeRun.v
FlowControl.v
Crockford.v
PairLink.v
Relay.v
Identity.v
Client.v
ClientRun.v
Exchange.v
RelayLink.v
Pairing.v
HomeRelay.v
Sni.v
Dialer.v
DialerHandle.v
Bridge.v
Pop.v
Jwks.v
Lease.v
Registry.v
Routing.v
Carrier.v
CarrierInv.v
CarrierOpen.v
CarrierRun.v
Redial.v
Server.v
ServerRun.v
