(* ===== verification/Prelude.v ===== *)
(** * spl-rust, verified

    spl-rust implements SPL, the private link between a client and the owner's
    journal: framed streams over mutually authenticated TLS, on a direct
    connection or through a relay.  This library models its four crates and
    proves what they promise.  This file documents the development and holds
    the notions all others share.

    ** The program

    - spl-core is pure: the frame codec, HTTP over a stream, credit and uploads,
      the demultiplexer of a carrier, pair links, certificates and marks, relay
      URLs and tokens, the policy of the loopback bridge.
    - spl-home is the journal's side of a carrier: the acceptor of streams, the
      driver that runs it over a connection, and the pair window.
    - spl-transport is the client's side: one request at a time ([client.rs],
      [request.rs], [connection.rs]), or a loopback HTTP server
      ([journal_bridge.rs]) that keeps one carrier for many requests
      ([journal_bridge_carrier.rs]); the ceremony that pairs a device with a
      journal ([pairing.rs], [relay_pairing.rs]); and the home's attachment to a
      relay ([home_relay.rs]).
    - spl-bridge is a public relay: journals register a hostname by proof of
      possession and keep it by a lease; clients are routed to them by the name
      in their ClientHello, over the streams of a dialer connection.

    A client's request is a [WindowedUpload] whose frames cross a carrier to a
    [MuxAcceptor]; the answer comes back through a [ResponseAssembler] or a
    [CarrierDemux].  Both ends account for credit; the bridge carries opaque
    TLS between them.

    ** Files

    Every path is under [src/crates].
    - Prelude: results with panics ([res]), bytes and big-endian integers, list
      and sum lemmas, the hint databases [spl], the tactics of the library.
    - Text: the standard library's strings as the code uses them.

    spl-core
    - Frame ([frame.rs]): [Frame], [encode], [FrameDecoder], [FrameDialer].
    - Http ([http.rs]): request heads, responses, the incremental and the
      one-shot chunked decoder.
    - Window, Upload, Assembler, Demux ([mux.rs]): [RecvWindow],
      [WindowedUpload], [ResponseAssembler] and [HttpStreamAssembler],
      [CarrierDemux].
    - Crockford, PairLink ([crockford.rs], [pairlink.rs]).
    - Bridge ([bridge.rs]): request heads, authorization, header, cookie and
      redirect rewriting, bootstrap tokens.
    - Relay ([relay.rs], [jwt.rs], [relay_access.rs], [relay_window.rs]).
    - Identity ([ca.rs], [mark.rs], and spl-home's [pair_window.rs]).

    spl-home
    - HomeMux ([mux.rs], [config.rs], [error.rs]): [MuxAcceptor].
    - HomeDriver ([connection.rs]): [run_driver] and [HomeStream]; HomeInv and
      HomeRun: the invariant and the theorems on runs.
    - FlowControl: the sender and the receiver of one stream, joined.  Its two
      classes are the interface; uploads, acceptor and windows are instances.

    spl-transport
    - Client ([client.rs], [request.rs], [relay_token.rs], [observe.rs], the
      errors of [lib.rs]) and ClientRun: operations as trees of effects, then
      all their runs and interleavings.
    - Exchange ([connection.rs]): one request over one stream.
    - RelayLink ([relay.rs], [relay_http.rs], the dials of [connection.rs]): the
      byte stream over a WebSocket, dials and their errors, relay origins, the
      control request.
    - Pairing ([pairing.rs], [relay_pairing.rs], [spki_pin.rs],
      [credential.rs], the verifiers of [tls.rs]): from a link to a credential.
    - HomeRelay ([home_relay.rs]): the listen loop, tunnels, [stop].
    - Carrier ([journal_bridge_carrier.rs]), CarrierInv, CarrierOpen, CarrierRun:
      the coordinator, the writer and the users of streams; what a stream keeps
      of the request it was opened for; the theorems on runs.
    - Redial ([handshake.rs], [MuxCarrier], the status of [journal_bridge.rs]).
    - Server, ServerRun ([journal_bridge.rs]): a connection of the loopback
      server from its head to its reply.

    spl-bridge
    - Sni ([sni.rs]), Dialer and DialerHandle ([frame_dialer.rs]), Pop and Jwks
      ([pop_auth.rs]), Lease ([lease.rs]), Registry ([registry.rs]), Routing
      ([lib.rs], [routed.rs]).

    ** How code becomes definitions

    A [Result] is [res], whose third constructor is a panic: an [expect], an
    index, an assertion or an underflow that fails.  Machine integers are [Z]
    with saturation, checks and wrapping written out.  A [&mut self] method
    takes and returns its state.  A select loop is a step function over a record
    of the loop's variables and of the channels it shares with other tasks; a
    run is a list of steps of all tasks in any order.  A step is the stretch of
    one task between two points where another may run: an await, or the lock of
    something shared.  Cancellation, where the code can be dropped, is a step.
    A socket is the script of what it delivers and of how its writes end, or a
    strategy that answers each operation from those before it.  Clocks are
    arguments.

    Third-party code is a parameter: JSON, base64, Ed25519, HKDF, P-256
    ([PopPrimitives], [RelayPrimitives]), SHA-256 and Argon2 (arguments), the
    order of hash maps ([HashOrder], [StreamOrder]), tokio's
    [copy_bidirectional] ([Splicer]), key generation, signatures and PEM
    ([PairPrimitives]), a TLS client with its verifier ([PairTls]), the syntax
    checks of the WebSocket stack ([RelayStack]), its handshakes (their
    outcomes).  Theorems that need more than their types name the documented
    laws as hypotheses or class fields, and a witness instantiates them.

    ** What is proved

    - Wire: frames survive any cutting of the byte stream
      ([frame_stream_roundtrip]); the streaming response parser agrees with the
      one-shot parser ([stream_matches_one_shot]); request framing is
      unambiguous ([request_framing_unambiguous]); a ClientHello is routed the
      same however it is fragmented ([sni_routes_any_fragmentation]); pair links
      and relay URLs read back ([pairlink_roundtrip], [relay_urls_faithful]),
      relay origins are read as written ([relay_origin_read]); a WebSocket
      carries the bytes of its messages both ways ([ws_reads_exact],
      [ws_writes_exact]); a control answer does not depend on how it is cut
      ([control_answer_cut_free]);
      certificates are read correctly and without faults
      ([certificate_parts_read], [certificate_reader_total]).
    - Flow control: no credit is lost or made ([carrier_credit_balanced],
      [carrier_credit], [upload_link_safe]); neither end panics or violates the
      protocol towards the other ([home_carrier_safe], [carrier_total],
      [dialer_keeps_streams]); memory is bounded ([body_budget],
      [home_staging_bounded]); uploads never stall ([uploads_never_stall],
      [home_no_lost_wakeup]).
    - Refinement: the home's driver with its users is the acceptor
      ([home_driver_refines]); what a carrier writes is, per stream, an upload
      of the request it was opened for ([carrier_wire]); an exchange writes a prefix of its request
      ([exchange_sends_request]); a connection of the server gives one reply
      ([exchange_one_reply]).
    - Requests: written at most once where replay is forbidden
      ([request_written_once]), bounded ([request_bounded]), gated by the fence
      ([fence_gates_relay]), with one token refresh at a time
      ([token_single_flight]).
    - Pairing: the link's secret reaches only the home it pins
      ([secret_only_to_pinned_home]); a credential belongs to that home and to
      the generated key, and its device token to the relay it is kept with
      ([credential_bound_to_home]), and names its journal when
      read back ([stored_pairing_reads_back]); the certificate's label is the
      longest that fits ([cn_label_longest]).
    - Carriers: one live carrier ([one_live_carrier]), a terminal refusal is
      final ([terminal_is_final]).
    - Admission: only authorized local requests reach the journal
      ([admitted_requests_only]); proofs are sound and nonces single use
      ([pop_admission_sound], [pop_nonce_single_use]); leases end
      ([lease_unexpired]); the registry routes to live journals
      ([registry_routes_live], [registry_settles]); pair windows admit once
      ([pair_window_single_use]); expiry never blocks a renewal
      ([renewal_accepts_expired]).
    - The public side: a client meets only the end it names, a journal as the
      registry has it ([client_reaches_its_route]), and cannot tell none from a
      sleeping journal whose carrier keeps up ([refusal_indistinguishable]).
    - The home relay: [stop] is final and completes ([stop_is_final],
      [stop_completes]); the prefix guard loses no byte
      ([prefix_guard_replays]); the admission gate is exact
      ([prefix_admission_exact]).
    - Behaviour that departs from what is documented or meant:
      [refresh_before_fence], [abandoned_stop_never_returns],
      [generation_counts_connections], [array_capability_not_renewable],
      [spki_read_past_tbs], [empty_first_pem_not_read_back].

    ** Fuel and bounds

    Loops that are not structural take fuel, computed from what they consume:
    the bytes held (Frame, Http, Crockford, Sni, HomeMux, Dialer), the ready
    queue (Carrier), the head limit (Server), the frames left to send
    (Exchange, [send_fuel]), the attempts the code allows (Client,
    [RELAY_FUEL]).  Lemmas show that it never runs out: the loop equations of
    Frame and Http, [head_fuel_enough], the totality lemmas of Sni, and the
    theorems that exclude the out-of-fuel value from a run's results
    ([exchange_sends_request], [request_bounded]).  Streams are numbered by
    [u32] as in the code; sizes that the code keeps in [usize] are assumed to
    fit where a statement bounds them.

    ** Not modelled

    TLS configuration beyond the choice of a verifier ([tls.rs], the outer
    connection of [relay.rs]) and certificate requests: third-party code.
    [control_cert.rs]: loading and swapping certificates.  In spl-bridge's [lib.rs], the body of a control
    connection's task and the drain of listener tasks; [proxy_protocol.rs]
    formats its header by a third-party crate, so the header is an argument.
    The TLS accept of spl-home and its refusal linger.  Log output, display
    strings, the binaries and the crate roots. *)

From Stdlib Require Export ZArith Lia ZifyBool ZifyNat.
From Stdlib Require Import Strings.Byte.
From stdpp Require Export base option list numbers gmap strings tactics.

#[global] Open Scope Z_scope.

(** ** Outcomes of Rust functions

    [Ok]/[Err] are the two constructors of [Result]; [Panic] is a Rust panic
    (failed [expect], failed [assert!], index out of bounds, arithmetic
    underflow), which no caller of the modelled code catches. *)
Inductive res (E A : Type) : Type :=
| Ok (a : A)
| Err (e : E)
| Panic.
Arguments Ok {E A} _.
Arguments Err {E A} _.
Arguments Panic {E A}.

#[export] Instance res_ret {E} : MRet (res E) := fun _ a => Ok a.
#[export] Instance res_bind {E} : MBind (res E) := fun _ _ f m =>
  match m with Ok a => f a | Err e => Err e | Panic => Panic end.
#[export] Instance res_fmap {E} : FMap (res E) := fun _ _ f m =>
  match m with Ok a => Ok (f a) | Err e => Err e | Panic => Panic end.

(** [map_err] of a [Result]. *)
Definition map_err {E F A} (f : E -> F) (m : res E A) : res F A :=
  match m with Ok a => Ok a | Err e => Err (f e) | Panic => Panic end.

(** [Option::ok_or]. *)
Definition ok_or {E A} (o : option A) (e : E) : res E A :=
  match o with Some a => Ok a | None => Err e end.

(** [Option::expect] and [Option::unwrap]. *)
Definition expect {E A} (o : option A) : res E A :=
  match o with Some a => Ok a | None => Panic end.

(** Whether a run panicked. *)
Definition is_panic {E A} (m : res E A) : bool :=
  match m with Panic => true | _ => false end.

#[export] Instance res_eq_dec {E A} `{EqDecision E, EqDecision A} : EqDecision (res E A).
Proof. solve_decision. Defined.

(** ** Machine integers

    A [w]-bit unsigned integer is a [Z] in [[0, 2^w)].  [usize] is 64 bits
    wide on every target the crates ship to. *)
Definition in_range (w x : Z) : Prop := 0 <= x < 2 ^ w.
Abbreviation is_u8 := (in_range 8).
Abbreviation is_u16 := (in_range 16).
Abbreviation is_u32 := (in_range 32).
Abbreviation is_u64 := (in_range 64).
Abbreviation is_usize := (in_range 64).
Abbreviation usize_max := (2 ^ 64 - 1).
Abbreviation u64_max := (2 ^ 64 - 1).

(** [checked_add] at width [w]. *)
Definition checked_add (w x y : Z) : option Z :=
  if x + y <? 2 ^ w then Some (x + y) else None.

(** [checked_sub] of unsigned integers. *)
Definition checked_sub (x y : Z) : option Z :=
  if y <=? x then Some (x - y) else None.

(** [saturating_sub] and [saturating_add] of unsigned integers. *)
Definition saturating_sub (x y : Z) : Z := Z.max 0 (x - y).
Definition saturating_add (w x y : Z) : Z := Z.min (2 ^ w - 1) (x + y).

(** An unchecked [-] or [+] on unsigned integers: out of range is a panic. *)
Definition usub {E} (x y : Z) : res E Z := expect (checked_sub x y).
Definition uadd {E} (w x y : Z) : res E Z := expect (checked_add w x y).

(** Wrapping to width [w] ([wrapping_add], [as], [<<]). *)
Definition wrap (w x : Z) : Z := x mod 2 ^ w.

(** ** Bytes *)
Abbreviation byte := Corelib.Init.Byte.byte.

Definition u8 (b : byte) : Z := Z.of_N (Byte.to_N b).

(** [x as u8] *)
Definition as_u8 (z : Z) : byte :=
  default Byte.x00 (Byte.of_N (Z.to_N (z mod 256))).

#[export] Instance byte_eq_dec : EqDecision byte := Byte.byte_eq_dec.

(** [Vec::len] and friends as a machine integer. *)
Abbreviation len l := (Z.of_nat (length l)).
Abbreviation ztake n l := (take (Z.to_nat n) l).
Abbreviation zdrop n l := (drop (Z.to_nat n) l).

(** [&l[a..b]] for in-range [a <= b]. *)
Definition slice {A} (l : list A) (a b : Z) : list A := ztake (b - a) (zdrop a l).

(** [l[i]]: a panic out of range. *)
Definition index {E A} (l : list A) (i : Z) : res E A := expect (l !! Z.to_nat i).

(** [l.get(a..b)] *)
Definition get_range {A} (l : list A) (a b : Z) : option (list A) :=
  if (a <=? b) && (b <=? len l) then Some (slice l a b) else None.

(** Big-endian conversions: [to_be_bytes] of an [n]-byte integer and
    [from_be_bytes]. *)
Fixpoint be_bytes (n : nat) (x : Z) : list byte :=
  match n with
  | O => []
  | S n => as_u8 (x / 256 ^ Z.of_nat n) :: be_bytes n x
  end.

Definition be_val (l : list byte) : Z := foldl (fun acc b => acc * 256 + u8 b) 0 l.

#[global] Arguments u8 : simpl never.
#[global] Arguments as_u8 : simpl never.
#[global] Arguments be_val : simpl never.

(** Sum of an integer measure over a list. *)
Definition zsum {A} (f : A -> Z) (l : list A) : Z := foldr (fun a s => f a + s) 0 l.

(** [find_subsequence]-style search is modelled in the HTTP component; the
    prefix test it uses is shared. *)
Fixpoint starts_with {A} `{EqDecision A} (needle l : list A) : bool :=
  match needle, l with
  | [], _ => true
  | x :: n', y :: l' => bool_decide (x = y) && starts_with n' l'
  | _ :: _, [] => false
  end.

(** ** Tactics *)

(** Case split on every [if]/[match] in the goal or hypotheses whose
    scrutinee is not itself a match, closing contradictory branches. *)
Ltac split_match :=
  repeat (case_match; simplify_eq/=; try done).

(** Destruct the conjunctions and existentials among the hypotheses. *)
Ltac deconj :=
  repeat match goal with
  | H : _ /\ _ |- _ => destruct H
  | H : exists _, _ |- _ => destruct H
  end.

(** Linear arithmetic with the machine-width definitions opened. *)
Ltac width :=
  unfold in_range, checked_add, checked_sub, saturating_add, saturating_sub in *; lia.

(** ** Lemmas *)

Create HintDb spl discriminated.
#[export] Hint Constants Opaque : spl.
#[export] Hint Variables Opaque : spl.

Create Rewrite HintDb spl.

Lemma u8_range b : 0 <= u8 b < 256.
Proof.
  unfold u8. split; [lia|].
  pose proof (Byte.to_N_bounded b). lia.
Qed.

Lemma u8_as_u8 z : u8 (as_u8 z) = z mod 256.
Proof.
  unfold u8, as_u8.
  pose proof (Z.mod_pos_bound z 256 ltac:(lia)) as Hb.
  destruct (Byte.of_N (Z.to_N (z mod 256))) as [b|] eqn:E; simpl.
  - apply Byte.to_of_N in E. rewrite E. lia.
  - apply Byte.of_N_None_iff in E. lia.
Qed.

Lemma u8_inj b c : u8 b = u8 c -> b = c.
Proof.
  unfold u8. intros H%N2Z.inj.
  pose proof (Byte.of_to_N b) as Hb. pose proof (Byte.of_to_N c) as Hc.
  rewrite H in Hb. congruence.
Qed.

Lemma as_u8_u8 b : as_u8 (u8 b) = b.
Proof.
  apply u8_inj. rewrite u8_as_u8. apply Z.mod_small, u8_range.
Qed.

Lemma as_u8_mod z : as_u8 (z mod 256) = as_u8 z.
Proof. apply u8_inj. rewrite !u8_as_u8. apply Z.mod_mod. lia. Qed.

#[export] Hint Rewrite u8_as_u8 as_u8_u8 : spl.

Lemma length_be_bytes n x : length (be_bytes n x) = n.
Proof. induction n; simpl; congruence. Qed.
#[export] Hint Rewrite length_be_bytes : spl.

Lemma foldl_be_acc l a :
  foldl (fun acc b => acc * 256 + u8 b) a l = a * 256 ^ len l + be_val l.
Proof.
  unfold be_val. revert a. induction l as [|b l IH]; intros a; cbn [foldl length].
  - rewrite Z.mul_1_r. lia.
  - rewrite IH, (IH (0 * 256 + u8 b)), Nat2Z.inj_succ, Z.pow_succ_r by lia. ring.
Qed.

Lemma be_val_cons b l : be_val (b :: l) = u8 b * 256 ^ len l + be_val l.
Proof. unfold be_val at 1. cbn [foldl]. rewrite foldl_be_acc. lia. Qed.

Lemma be_val_nil : be_val [] = 0.
Proof. done. Qed.

Lemma be_val_range l : 0 <= be_val l < 256 ^ len l.
Proof.
  induction l as [|b l IH]; [rewrite be_val_nil; simpl; lia|].
  rewrite be_val_cons. cbn [length]. rewrite Nat2Z.inj_succ, Z.pow_succ_r by lia.
  pose proof (u8_range b). nia.
Qed.

Lemma be_val_be_bytes n x : be_val (be_bytes n x) = x mod 256 ^ Z.of_nat n.
Proof.
  induction n as [|n IH]; cbn [be_bytes]; [by rewrite Z.mod_1_r|].
  rewrite be_val_cons, length_be_bytes, IH, u8_as_u8.
  rewrite Nat2Z.inj_succ, Z.pow_succ_r, Z.mul_comm by lia.
  rewrite (Z.mul_comm 256), Z.rem_mul_r; [lia| |lia].
  apply Z.pow_nonzero; lia.
Qed.

Lemma be_bytes_be_val l : be_bytes (length l) (be_val l) = l.
Proof.
  assert (Hind : forall m k, be_bytes (length m) (k * 256 ^ len m + be_val m) = m).
  { induction m as [|b m IH]; intros k; [done|].
    cbn [length be_bytes]. rewrite be_val_cons, Nat2Z.inj_succ, Z.pow_succ_r by lia.
    assert (0 < 256 ^ len m) by (apply Z.pow_pos_nonneg; lia).
    pose proof (be_val_range m).
    replace (k * (256 * 256 ^ len m) + (u8 b * 256 ^ len m + be_val m))
      with ((k * 256 + u8 b) * 256 ^ len m + be_val m) by ring.
    f_equal; [|apply IH].
    rewrite Z.div_add_l, (Z.div_small (be_val m)), Z.add_0_r by lia.
    apply u8_inj. rewrite u8_as_u8, Z.add_comm, Z_mod_plus_full.
    apply Z.mod_small, u8_range. }
  specialize (Hind l 0). by rewrite Z.mul_0_l, Z.add_0_l in Hind.
Qed.

Lemma be_bytes_inj n x y :
  0 <= x < 256 ^ Z.of_nat n -> 0 <= y < 256 ^ Z.of_nat n ->
  be_bytes n x = be_bytes n y -> x = y.
Proof.
  intros Hx Hy H%(f_equal be_val). rewrite !be_val_be_bytes in H.
  by rewrite !Z.mod_small in H.
Qed.

(** *** Lists *)

Lemma zsum_cons {A} (f : A -> Z) a l : zsum f (a :: l) = f a + zsum f l.
Proof. done. Qed.
Lemma zsum_app {A} (f : A -> Z) l k : zsum f (l ++ k) = zsum f l + zsum f k.
Proof. induction l as [|a l IH]; simpl; [lia|]. rewrite IH. lia. Qed.
Lemma zsum_fmap {A B} (f : B -> Z) (g : A -> B) l : zsum f (g <$> l) = zsum (fun a => f (g a)) l.
Proof. induction l as [|a l IH]; [done|]. rewrite fmap_cons, !zsum_cons. by rewrite IH. Qed.
#[export] Hint Rewrite @zsum_app : spl.

Lemma zsum_nonneg {A} (f : A -> Z) l : Forall (fun a => 0 <= f a) l -> 0 <= zsum f l.
Proof. induction 1; simpl; lia. Qed.

Lemma zsum_elem_le {A} (f : A -> Z) l a :
  Forall (fun a => 0 <= f a) l -> a ∈ l -> f a <= zsum f l.
Proof.
  induction 1 as [|b l Hb Hl IH]; intros Ha; [by apply not_elem_of_nil in Ha|].
  simpl. apply elem_of_cons in Ha as [->|Ha]; pose proof (zsum_nonneg f l Hl); [lia|].
  specialize (IH Ha). lia.
Qed.

Lemma len_take {A} n (l : list A) : 0 <= n <= len l -> len (ztake n l) = n.
Proof. intros. rewrite length_take. lia. Qed.

Lemma len_drop {A} n (l : list A) : 0 <= n <= len l -> len (zdrop n l) = len l - n.
Proof. intros. rewrite length_drop. lia. Qed.

Lemma len_slice {A} (l : list A) a b :
  0 <= a <= b -> b <= len l -> len (slice l a b) = b - a.
Proof. intros. unfold slice. rewrite length_take, length_drop. lia. Qed.

Lemma slice_app_exact {A} (l m k : list A) :
  slice (l ++ m ++ k) (len l) (len l + len m) = m.
Proof.
  unfold slice. rewrite Nat2Z.id, drop_app_length.
  replace (Z.to_nat _) with (length m) by lia. apply take_app_length.
Qed.

Lemma starts_with_app {A} `{EqDecision A} (n l : list A) :
  starts_with n l = true <-> exists k, l = n ++ k.
Proof.
  revert l. induction n as [|x n IH]; intros l; simpl.
  - split; [by exists l|done].
  - destruct l as [|y l]; [split; [done|by intros [k ?]]|].
    rewrite andb_true_iff, bool_decide_eq_true, IH.
    split; [intros [-> [k ->]]; by exists k|intros [k ?]; simplify_eq; eauto].
Qed.

Lemma starts_with_mono {A} `{EqDecision A} (n l k : list A) :
  starts_with n l = true -> starts_with n (l ++ k) = true.
Proof.
  rewrite !starts_with_app. intros [j ->]. exists (j ++ k). by rewrite app_assoc.
Qed.

(** A prefix test is decided as soon as enough of the list is known. *)
Lemma starts_with_long {A} `{EqDecision A} (n l k : list A) :
  (length n <= length l)%nat -> starts_with n (l ++ k) = starts_with n l.
Proof.
  revert l. induction n as [|x n IH]; intros [|y l] Hl; simpl in *; [done..|lia|].
  rewrite IH by lia. done.
Qed.

#[export] Hint Resolve u8_range be_val_range zsum_nonneg : spl.

(** *** Bits *)

Lemma lor_shiftl_add a b n : 0 <= n -> 0 <= b < 2 ^ n -> Z.lor (Z.shiftl a n) b = a * 2 ^ n + b.
Proof.
  intros Hn Hb. rewrite <- Z.shiftl_mul_pow2 by done. symmetry.
  apply Z.add_nocarry_lor. apply Z.bits_inj_0. intros i. rewrite Z.land_spec.
  destruct (Z.ltb_spec i n) as [Hi|Hi].
  - destruct (Z.ltb_spec i 0).
    + by rewrite (Z.testbit_neg_r _ i).
    + by rewrite Z.shiftl_spec_low.
  - rewrite andb_comm. replace (Z.testbit b i) with false; [done|].
    destruct (Z.eq_dec b 0) as [->|]; [by rewrite Z.bits_0|].
    symmetry. apply Z.bits_above_log2; [lia|].
    apply Z.log2_lt_pow2; [lia|].
    assert (2 ^ n <= 2 ^ i) by (apply Z.pow_le_mono_r; lia). lia.
Qed.

(** A boolean property of every [u8] value is decided by running it. *)
Lemma u8_forall (P : Z -> bool) :
  forallb P (seqZ 0 256) = true -> forall x, 0 <= x < 256 -> P x = true.
Proof.
  intros H x Hx. rewrite forallb_forall in H. apply H.
  apply list_elem_of_In, elem_of_seqZ. lia.
Qed.
