(* ===== verification/Frame.v ===== *)
(** * Mux framing ([crates/spl-core/src/frame.rs])

    The eight-byte header codec, the control-frame helpers, the streaming
    decoder and the dialer's stream-id allocator. *)

From S2P Require Import Prelude.

Definition FLAG_OPEN : Z := 0x01.
Definition FLAG_DATA : Z := 0x02.
Definition FLAG_CLOSE : Z := 0x04.
Definition FLAG_RESET : Z := 0x08.
Definition FLAG_WINDOW : Z := 0x10.
Definition FLAG_PING : Z := 0x20.
Definition FLAG_PONG : Z := 0x40.
Definition FLAG_RESERVED_MASK : Z := 0x80.

Definition RESET_PROTOCOL_ERROR : Z := 0x01.
Definition RESET_FLOW_CONTROL_ERROR : Z := 0x02.
Definition RESET_STREAM_LIMIT_EXCEEDED : Z := 0x03.
Definition RESET_INTERNAL_ERROR : Z := 0x04.
Definition RESET_CANCEL : Z := 0x05.
Definition RESET_UNSPECIFIED : Z := 0xff.

Definition HEADER_LEN : Z := 8.
Definition MAX_PAYLOAD : Z := 2 ^ 24 - 1.
Definition RECOMMENDED_CHUNK : Z := 64 * 1024.
Definition CONTROL_NONCE_LEN : Z := 8.

(** [flags & m != 0] *)
Definition has (flags m : Z) : bool := negb (Z.land flags m =? 0).

Definition flags_valid (flags : Z) : bool :=
  existsb (Z.eqb flags)
    [0x01; 0x02; 0x03; 0x04; 0x05; 0x06; 0x07; 0x08; 0x10; 0x20; 0x40].

Record FrameViolation := mkFrameViolation {
  fv_stream_id : Z;
  fv_flags : Z;
  fv_length : Z
}.

Record Frame := mkFrame {
  stream_id : Z;
  flags : Z;
  payload : list byte
}.

Inductive FrameError :=
| PayloadTooLarge (n : Z)
| ReservedFlag (flags : Z).

#[export] Instance FrameViolation_eq_dec : EqDecision FrameViolation.
Proof. solve_decision. Defined.
#[export] Instance Frame_eq_dec : EqDecision Frame.
Proof. solve_decision. Defined.
#[export] Instance FrameError_eq_dec : EqDecision FrameError.
Proof. solve_decision. Defined.

(** [Frame::encode] *)
Definition encode (f : Frame) : res FrameError (list byte) :=
  if len (payload f) >? MAX_PAYLOAD then Err (PayloadTooLarge (len (payload f)))
  else if has (flags f) FLAG_RESERVED_MASK then Err (ReservedFlag (flags f))
  else
    let n := len (payload f) in
    Ok (be_bytes 4 (stream_id f)
        ++ [as_u8 (flags f); as_u8 (Z.shiftr n 16); as_u8 (Z.shiftr n 8); as_u8 n]
        ++ payload f).

(** [Frame::control_ping] *)
Definition control_ping (nonce : list byte) : Frame := mkFrame 0 FLAG_PING nonce.

(** [Frame::window] *)
Definition window (sid credit : Z) : Frame := mkFrame sid FLAG_WINDOW (be_bytes 4 credit).

(** [Frame::reset] *)
Definition reset (sid reason : Z) : Frame := mkFrame sid FLAG_RESET [as_u8 reason].

(** [Frame::control_pong] *)
Definition control_pong (f : Frame) : option Frame :=
  if (stream_id f =? 0) && (flags f =? FLAG_PING) && (len (payload f) =? CONTROL_NONCE_LEN)
  then Some (mkFrame 0 FLAG_PONG (payload f))
  else None.

(** [Frame::control_pong_nonce] *)
Definition control_pong_nonce (f : Frame) : option (list byte) :=
  if (stream_id f =? 0) && (flags f =? FLAG_PONG) && (len (payload f) =? CONTROL_NONCE_LEN)
  then Some (payload f)
  else None.

(** [Frame::window_credit] *)
Definition window_credit (f : Frame) : option Z :=
  if has (flags f) FLAG_WINDOW && (len (payload f) =? 4)
  then Some (be_val (payload f))
  else None.

(** ** The streaming decoder *)
Record FrameDecoder := mkFrameDecoder { buf : list byte }.

Definition decoder_new : FrameDecoder := mkFrameDecoder [].

(** [FrameDecoder::feed] *)
Definition decoder_feed (d : FrameDecoder) (data : list byte) : FrameDecoder :=
  mkFrameDecoder (buf d ++ data).

(** [FrameDecoder::next_frame]; the decoder is returned on every path because
    the error path leaves the buffer as it was. *)
Definition next_frame (d : FrameDecoder) : FrameDecoder * res FrameError (option Frame) :=
  match buf d with
  | b0 :: b1 :: b2 :: b3 :: b4 :: b5 :: b6 :: b7 :: _ =>
      let sid := be_val [b0; b1; b2; b3] in
      let fl := u8 b4 in
      if has fl FLAG_RESERVED_MASK then (d, Err (ReservedFlag fl))
      else
        let n := Z.lor (Z.lor (Z.shiftl (u8 b5) 16) (Z.shiftl (u8 b6) 8)) (u8 b7) in
        let end_ := HEADER_LEN + n in
        if len (buf d) <? end_ then (d, Ok None)
        else (mkFrameDecoder (zdrop end_ (buf d)),
              Ok (Some (mkFrame sid fl (slice (buf d) HEADER_LEN end_))))
  | _ => (d, Ok None)
  end.

(** The [while let] loop of [FrameDecoder::drain].  A complete frame takes at
    least eight bytes, so one unit of fuel per buffered byte is enough
    ([drain_unfold]). *)
Fixpoint drain_loop (fuel : nat) (d : FrameDecoder) (out : list Frame)
  : FrameDecoder * res FrameError (list Frame) :=
  match fuel with
  | O => (d, Ok out)
  | S fuel =>
      match next_frame d with
      | (d', Ok (Some f)) => drain_loop fuel d' (out ++ [f])
      | (d', Ok None) => (d', Ok out)
      | (d', Err e) => (d', Err e)
      | (d', Panic) => (d', Panic)
      end
  end.

(** [FrameDecoder::drain] *)
Definition drain (d : FrameDecoder) : FrameDecoder * res FrameError (list Frame) :=
  drain_loop (S (length (buf d))) d [].

(** ** Stream-id allocation *)
Record FrameDialer := mkFrameDialer { next : Z }.

Definition dialer_default : FrameDialer := mkFrameDialer 1.

(** [FrameDialer::allocate] *)
Definition allocate (s : FrameDialer) : FrameDialer * Z :=
  (mkFrameDialer (wrap 32 (next s + 2)), next s).

(** ** Lemmas *)

(** The frames the header can represent: a 32-bit id, a flag byte with the
    reserved bit clear, and a payload the three-byte length can count. *)
Definition wf_frame (f : Frame) : Prop :=
  is_u32 (stream_id f) /\ 0 <= flags f < 128 /\ len (payload f) <= MAX_PAYLOAD.

(** The wire bytes of a frame, without the error cases of [encode]. *)
Definition wire (f : Frame) : list byte :=
  be_bytes 4 (stream_id f) ++ as_u8 (flags f) :: be_bytes 3 (len (payload f)) ++ payload f.
#[global] Arguments wire : simpl never.

Lemma has_reserved fl : 0 <= fl < 256 -> has fl FLAG_RESERVED_MASK = (128 <=? fl).
Proof.
  intros H. apply eqb_prop.
  apply (u8_forall (fun fl => eqb (has fl FLAG_RESERVED_MASK) (128 <=? fl))); [done|lia].
Qed.

Lemma has_reserved_wf f : wf_frame f -> has (flags f) FLAG_RESERVED_MASK = false.
Proof. intros (_ & Hf & _). rewrite has_reserved by lia. lia. Qed.

Lemma length3_lor a b c :
  Z.lor (Z.lor (Z.shiftl (u8 a) 16) (Z.shiftl (u8 b) 8)) (u8 c) = be_val [a; b; c].
Proof.
  pose proof (u8_range a). pose proof (u8_range b). pose proof (u8_range c).
  rewrite <- (Z.shiftl_shiftl _ 8 8), <- Z.shiftl_lor, lor_shiftl_add by lia.
  rewrite lor_shiftl_add by lia. rewrite !be_val_cons, be_val_nil. cbn [length]. lia.
Qed.

Lemma encode_wire f w : encode f = Ok w -> w = wire f.
Proof.
  unfold encode, wire. split_match. intros ?. simplify_eq.
  f_equal. cbn [be_bytes app]. rewrite !Z.shiftr_div_pow2 by lia.
  change (256 ^ Z.of_nat 0) with 1. by rewrite !Z.div_1_r.
Qed.

Lemma encode_ok f : wf_frame f -> encode f = Ok (wire f).
Proof.
  intros Hf. destruct (encode f) as [w|e|] eqn:E.
  - by apply encode_wire in E as ->.
  - exfalso. revert E. unfold encode. rewrite (has_reserved_wf f Hf).
    destruct Hf as (_ & _ & Hl). destruct (Z.gtb_spec (len (payload f)) MAX_PAYLOAD); [lia|done].
  - exfalso. revert E. unfold encode. by repeat case_match.
Qed.
#[export] Hint Resolve encode_ok : spl.

Lemma len_wire f : len (wire f) = HEADER_LEN + len (payload f).
Proof. unfold wire, HEADER_LEN. repeat (rewrite length_app || cbn [length be_bytes app]). lia. Qed.

(** One [next_frame] call on a buffer that starts with a frame's wire bytes. *)
Lemma window_credit_range f c : window_credit f = Some c -> 0 <= c < 2 ^ 32.
Proof.
  unfold window_credit. destruct (_ && _) eqn:E; [|done]. intros [= <-].
  pose proof (be_val_range (payload f)) as H. apply andb_prop in E as [_ E].
  replace (len (payload f)) with 4 in H by lia. done.
Qed.

Lemma next_frame_wire f rest :
  wf_frame f ->
  next_frame (mkFrameDecoder (wire f ++ rest)) = (mkFrameDecoder rest, Ok (Some f)).
Proof.
  intros Hf. pose proof (has_reserved_wf f Hf) as Hr. destruct Hf as (Hs & Hfl & Hl).
  assert (Hb : next_frame (mkFrameDecoder (wire f ++ rest)) =
    if has (u8 (as_u8 (flags f))) FLAG_RESERVED_MASK
    then (mkFrameDecoder (wire f ++ rest), Err (ReservedFlag (u8 (as_u8 (flags f)))))
    else let end_ := HEADER_LEN + be_val (be_bytes 3 (len (payload f))) in
    if len (wire f ++ rest) <? end_ then (mkFrameDecoder (wire f ++ rest), Ok None)
    else (mkFrameDecoder (zdrop end_ (wire f ++ rest)),
          Ok (Some (mkFrame (be_val (be_bytes 4 (stream_id f))) (u8 (as_u8 (flags f)))
            (slice (wire f ++ rest) HEADER_LEN end_))))).
  { unfold next_frame. cbn [buf]. unfold wire at 1. cbn [be_bytes app].
    rewrite length3_lor. done. }
  rewrite Hb, u8_as_u8, Z.mod_small, Hr, !be_val_be_bytes by lia. cbv zeta.
  unfold MAX_PAYLOAD, in_range in *. rewrite !(Z.mod_small _ (256 ^ _)) by lia.
  pose proof (len_wire f) as Hlw.
  assert (Hgt : (len (wire f ++ rest) <? HEADER_LEN + len (payload f)) = false).
  { rewrite length_app. lia. }
  rewrite Hgt. rewrite <- Hlw. f_equal.
  - by rewrite Nat2Z.id, drop_app_length.
  - do 2 f_equal. destruct f as [sid fl pl]. cbn [stream_id flags payload] in *. f_equal.
    rewrite Hlw. unfold wire. cbn [payload stream_id flags].
    set (h := be_bytes 4 sid ++ as_u8 fl :: be_bytes 3 (len pl)).
    replace (be_bytes 4 sid ++ as_u8 fl :: be_bytes 3 (len pl) ++ pl) with (h ++ pl)
      by (unfold h; by rewrite <- app_assoc).
    rewrite <- app_assoc. change HEADER_LEN with (len h). apply slice_app_exact.
Qed.

(** The buffer is too short for the frame its header announces. *)
Definition incomplete (b : list byte) : Prop :=
  next_frame (mkFrameDecoder b) = (mkFrameDecoder b, Ok None).

(** What each outcome of [next_frame] says of the buffer. *)
Lemma next_frame_spec d :
  match next_frame d with
  | (d', Ok (Some f)) => wf_frame f /\ buf d = wire f ++ buf d'
  | (d', Ok None) => d' = d
  | (d', Err e) => d' = d /\ exists fl, e = ReservedFlag fl /\ 128 <= fl < 256
  | (_, Panic) => False
  end.
Proof.
  destruct d as [b]. unfold next_frame. cbn [buf].
  do 8 (destruct b as [|? b]; [done|]).
  rewrite has_reserved by apply u8_range.
  pose proof (u8_range b4) as Hr4.
  destruct (Z.leb_spec 128 (u8 b4)) as [Hr|Hr]; [eauto with lia|].
  cbv zeta. rewrite length3_lor.
  set (h := [b0; b1; b2; b3; b4; b5; b6; b7]).
  change (b0 :: b1 :: b2 :: b3 :: b4 :: b5 :: b6 :: b7 :: b) with (h ++ b).
  pose proof (be_val_range [b5; b6; b7]) as Hn.
  pose proof (be_val_range [b0; b1; b2; b3]) as Hs.
  set (n := be_val [b5; b6; b7]) in *. cbn [length] in Hn, Hs.
  destruct (Z.ltb_spec (len (h ++ b)) (HEADER_LEN + n)) as [Hlt|Hge]; [done|].
  rewrite length_app, Nat2Z.inj_add in Hge. change (len h) with HEADER_LEN in Hge.
  assert (Hpl : slice (h ++ b) HEADER_LEN (HEADER_LEN + n) = ztake n b).
  { unfold slice. change (Z.to_nat HEADER_LEN) with (length h). rewrite drop_app_length.
    do 2 f_equal. lia. }
  assert (Hdr : zdrop (HEADER_LEN + n) (h ++ b) = zdrop n b).
  { rewrite drop_app_ge by (cbn; unfold HEADER_LEN; lia). f_equal.
    change (length h) with (Z.to_nat HEADER_LEN). unfold HEADER_LEN. lia. }
  assert (Htl : len (ztake n b) = n).
  { apply len_take. lia. }
  rewrite Hpl, Hdr. split.
  - unfold wf_frame, in_range, MAX_PAYLOAD. cbn [stream_id flags payload]. rewrite Htl. lia.
  - unfold wire. cbn [stream_id flags payload]. rewrite Htl.
    change 4%nat with (length [b0; b1; b2; b3]). rewrite be_bytes_be_val.
    change 3%nat with (length [b5; b6; b7]). unfold n. rewrite be_bytes_be_val.
    rewrite as_u8_u8. fold n. cbn [app buf]. by rewrite take_drop.
Qed.

(** *** The drain loop *)

Lemma drain_loop_out fuel d out :
  drain_loop fuel d out =
  let '(d', r) := drain_loop fuel d [] in (d', (fun fs => out ++ fs) <$> r).
Proof.
  revert d out. induction fuel as [|fuel IH]; intros d out; simpl.
  - by rewrite app_nil_r.
  - destruct (next_frame d) as [d' [[f|]|e|]]; simpl; [|by rewrite app_nil_r|done..].
    rewrite IH, (IH d' [f]). destruct (drain_loop fuel d' []) as [d'' []]; simpl; [|done..].
    by rewrite <- app_assoc.
Qed.

Lemma next_frame_shrinks d d' f :
  next_frame d = (d', Ok (Some f)) -> (length (buf d') < length (buf d))%nat.
Proof.
  intros H. pose proof (next_frame_spec d) as Hs. rewrite H in Hs.
  destruct Hs as [_ Hb]. rewrite Hb, length_app. pose proof (len_wire f) as Hl.
  unfold HEADER_LEN in Hl. lia.
Qed.

Lemma drain_loop_fuels f1 f2 d :
  (length (buf d) < f1)%nat -> (length (buf d) < f2)%nat ->
  drain_loop f1 d [] = drain_loop f2 d [].
Proof.
  revert f2 d. induction f1 as [|f1 IH]; intros [|f2] d H1 H2; [lia..|]. simpl.
  destruct (next_frame d) as [d' [[f|]|?|]] eqn:E; [|done..].
  apply next_frame_shrinks in E.
  rewrite (drain_loop_out f1), (drain_loop_out f2), (IH f2 d') by lia. done.
Qed.

(** The loop equation of [drain]: the fuel never runs out. *)
Lemma drain_unfold d :
  drain d =
  match next_frame d with
  | (d', Ok (Some f)) => let '(d'', r) := drain d' in (d'', (fun fs => f :: fs) <$> r)
  | (d', Ok None) => (d', Ok [])
  | (d', Err e) => (d', Err e)
  | (d', Panic) => (d', Panic)
  end.
Proof.
  unfold drain at 1. cbn [drain_loop].
  destruct (next_frame d) as [d' [[f|]|?|]] eqn:E; [|done..].
  apply next_frame_shrinks in E. rewrite drain_loop_out. unfold drain.
  rewrite (drain_loop_fuels _ (S (length (buf d'))) d') by lia. done.
Qed.

(** Induction along the frames a decoder holds. *)
Lemma drain_ind (P : FrameDecoder -> Prop) :
  (forall d, (forall d' f, next_frame d = (d', Ok (Some f)) -> P d') -> P d) ->
  forall d, P d.
Proof.
  intros Hstep d. remember (length (buf d)) as n eqn:Hn. revert d Hn.
  induction (lt_wf n) as [n _ IH]. intros d ->. apply Hstep. intros d' f E.
  apply next_frame_shrinks in E. by eapply IH.
Qed.

Definition wires (fs : list Frame) : list byte := concat (wire <$> fs).
#[global] Arguments wires : simpl never.

Lemma wires_cons f fs : wires (f :: fs) = wire f ++ wires fs.
Proof. done. Qed.

Lemma wires_app fs gs : wires (fs ++ gs) = wires fs ++ wires gs.
Proof. unfold wires. by rewrite fmap_app, concat_app. Qed.
#[export] Hint Rewrite wires_app wires_cons : spl.

(** [drain] returns exactly the frames at the front of the buffer and keeps
    the bytes after them; it never panics. *)
Lemma drain_spec d :
  let '(d', r) := drain d in
  match r with
  | Ok fs => Forall wf_frame fs /\ buf d = wires fs ++ buf d' /\ incomplete (buf d')
  | Err e => exists fs, Forall wf_frame fs /\ buf d = wires fs ++ buf d' /\ next_frame d' = (d', Err e)
  | Panic => False
  end.
Proof.
  induction d as [d IH] using drain_ind. rewrite drain_unfold.
  pose proof (next_frame_spec d) as Hs.
  destruct (next_frame d) as [d' [[f|]|e|]] eqn:E; [|..|done].
  - destruct Hs as [Hf Hb]. specialize (IH d' f eq_refl).
    destruct (drain d') as [d'' [fs|e|]]; cbn; [| |done].
    + destruct IH as (Hfs & Hb' & Hi). split_and!; [by constructor| |done].
      by rewrite wires_cons, Hb, Hb', app_assoc.
    + destruct IH as (fs & Hfs & Hb' & Hi). exists (f :: fs).
      split_and!; [by constructor| |done].
      by rewrite wires_cons, Hb, Hb', app_assoc.
  - subst d'. split_and!; [done..|]. unfold incomplete. by destruct d.
  - destruct Hs as [-> _]. exists []. done.
Qed.

Lemma drain_wires fs b :
  Forall wf_frame fs ->
  drain (mkFrameDecoder (wires fs ++ b)) =
  let '(d', r) := drain (mkFrameDecoder b) in (d', (fun gs => fs ++ gs) <$> r).
Proof.
  induction 1 as [|f fs Hf Hfs IH].
  - by destruct (drain _) as [? []].
  - rewrite wires_cons, <- app_assoc.
    rewrite (drain_unfold (mkFrameDecoder (wire f ++ _))), next_frame_wire, IH by done.
    by destruct (drain (mkFrameDecoder b)) as [? []].
Qed.

Lemma drain_incomplete b : incomplete b -> drain (mkFrameDecoder b) = (mkFrameDecoder b, Ok []).
Proof. intros Hi. rewrite drain_unfold. unfold incomplete in Hi. by rewrite Hi. Qed.

(** More input never changes what an error header says. *)
Lemma next_frame_err_app d e x :
  next_frame d = (d, Err e) -> next_frame (decoder_feed d x) = (decoder_feed d x, Err e).
Proof.
  destruct d as [b]. unfold next_frame, decoder_feed. cbn [buf].
  do 8 (destruct b as [|? b]; [done|]). simpl.
  destruct (has (u8 b4) FLAG_RESERVED_MASK) eqn:Hr; simpl; rewrite ?Hr; [|by case_match].
  by intros [= <-].
Qed.

(** Draining can be interrupted and resumed at any byte. *)
Lemma drain_feed d x :
  drain (decoder_feed d x) =
  match drain d with
  | (d', Ok fs) =>
      let '(d'', r) := drain (decoder_feed d' x) in (d'', (fun gs => fs ++ gs) <$> r)
  | (d', Err e) => (decoder_feed d' x, Err e)
  | (d', Panic) => (d', Panic)
  end.
Proof.
  pose proof (drain_spec d) as Hs. destruct (drain d) as [d' [fs|e|]]; [| |done].
  - destruct Hs as (Hfs & Hb & _). unfold decoder_feed. rewrite Hb, <- app_assoc.
    by apply drain_wires.
  - destruct Hs as (fs & Hfs & Hb & He). unfold decoder_feed. rewrite Hb, <- app_assoc.
    rewrite drain_wires by done. rewrite drain_unfold.
    apply (next_frame_err_app _ _ x) in He. unfold decoder_feed in He. by rewrite He.
Qed.

(** A transport read loop: feed what each read returned, drain, stop at the
    first error.  This is how [ResponseAssembler::feed] and
    [CarrierDemux::feed] drive the decoder. *)
Fixpoint read_loop (d : FrameDecoder) (reads : list (list byte)) (out : list Frame)
  : FrameDecoder * res FrameError (list Frame) :=
  match reads with
  | [] => (d, Ok out)
  | r :: reads =>
      match drain (decoder_feed d r) with
      | (d', Ok fs) => read_loop d' reads (out ++ fs)
      | (d', Err e) => (d', Err e)
      | (d', Panic) => (d', Panic)
      end
  end.

Lemma read_loop_ok reads d out d' fs :
  incomplete (buf d) ->
  drain (decoder_feed d (concat reads)) = (d', Ok fs) ->
  read_loop d reads out = (d', Ok (out ++ fs)).
Proof.
  revert d out fs. induction reads as [|r reads IH]; intros d out fs Hi H; simpl in *.
  - unfold decoder_feed in H. rewrite app_nil_r in H.
    rewrite drain_incomplete in H by done. destruct d. simplify_eq/=. by rewrite app_nil_r.
  - assert (Hf : decoder_feed d (r ++ concat reads) =
                 decoder_feed (decoder_feed d r) (concat reads)).
    { unfold decoder_feed. simpl. by rewrite app_assoc. }
    rewrite Hf, drain_feed in H. pose proof (drain_spec (decoder_feed d r)) as Hs.
    destruct (drain (decoder_feed d r)) as [d1 [fs1|e|]]; [|done..].
    destruct Hs as (_ & _ & Hi1).
    destruct (drain (decoder_feed d1 (concat reads))) as [d2 [fs2|e|]] eqn:E2; [|done..].
    simplify_eq/=. rewrite (IH d1 _ fs2) by done. by rewrite app_assoc.
Qed.

Lemma read_loop_err reads d out d' e :
  incomplete (buf d) ->
  drain (decoder_feed d (concat reads)) = (d', Err e) ->
  exists d'', read_loop d reads out = (d'', Err e).
Proof.
  revert d out. induction reads as [|r reads IH]; intros d out Hi H; simpl in *.
  - unfold decoder_feed in H. rewrite app_nil_r in H. by rewrite drain_incomplete in H.
  - assert (Hf : decoder_feed d (r ++ concat reads) =
                 decoder_feed (decoder_feed d r) (concat reads)).
    { unfold decoder_feed. simpl. by rewrite app_assoc. }
    rewrite Hf, drain_feed in H. pose proof (drain_spec (decoder_feed d r)) as Hs.
    destruct (drain (decoder_feed d r)) as [d1 [fs1|e1|]]; [| |done].
    + destruct Hs as (_ & _ & Hi1).
      destruct (drain (decoder_feed d1 (concat reads))) as [d2 [fs2|e2|]] eqn:E2; simplify_eq/=.
      eapply IH; [done|]. eauto.
    + simplify_eq/=. eauto.
Qed.

Lemma encode_wf f w :
  is_u32 (stream_id f) -> is_u8 (flags f) -> encode f = Ok w -> wf_frame f.
Proof.
  unfold in_range. intros Hs Hf. unfold encode. rewrite has_reserved by lia.
  repeat case_match; intros ?; simplify_eq. unfold wf_frame, in_range. lia.
Qed.

Lemma encode_wires fs ws :
  Forall (fun f => is_u32 (stream_id f) /\ is_u8 (flags f)) fs ->
  Forall2 (fun f w => encode f = Ok w) fs ws ->
  Forall wf_frame fs /\ concat ws = wires fs.
Proof.
  intros Hr H. induction H as [|f w fs ws Hw H IH]; [done|].
  apply Forall_cons_1 in Hr as [[Hs Hf] Hr]. destruct (IH Hr) as [Hwf Hc].
  split; [constructor; eauto using encode_wf|].
  simpl. by rewrite Hc, (encode_wire f w Hw).
Qed.

(** *** Allocation *)

(** The ids handed out by [n] successive [allocate] calls. *)
Fixpoint allocate_n (n : nat) (s : FrameDialer) : FrameDialer * list Z :=
  match n with
  | O => (s, [])
  | S n =>
      let '(s1, id) := allocate s in
      let '(s2, ids) := allocate_n n s1 in (s2, id :: ids)
  end.

Lemma allocate_n_spec n k :
  allocate_n n (mkFrameDialer (wrap 32 (1 + 2 * k))) =
  (mkFrameDialer (wrap 32 (1 + 2 * (k + Z.of_nat n))),
   (fun i => wrap 32 (1 + 2 * i)) <$> seqZ k (Z.of_nat n)).
Proof.
  revert k. induction n as [|n IH]; intros k; cbn [allocate_n].
  - by rewrite Z.add_0_r.
  - unfold allocate. cbn [next].
    replace (wrap 32 (wrap 32 (1 + 2 * k) + 2)) with (wrap 32 (1 + 2 * (k + 1))).
    + rewrite IH, (seqZ_cons k) by lia. cbn [fmap list_fmap]. f_equal.
      * do 3 f_equal. lia.
      * do 3 f_equal; lia.
    + unfold wrap. rewrite Zplus_mod_idemp_l. f_equal. lia.
Qed.

Lemma wrap_odd i : Z.odd (wrap 32 (1 + 2 * i)) = true.
Proof.
  unfold wrap. pose proof (Z.div_mod (1 + 2 * i) (2 ^ 32) ltac:(lia)) as H.
  apply Z.odd_spec. exists (i - 2 ^ 31 * ((1 + 2 * i) / 2 ^ 32)). lia.
Qed.

(** ** Properties *)

(** C31. Framing is independent of transport read boundaries: however the
    encodings of a frame sequence (followed by an incomplete tail) are cut into
    reads, the decoder returns exactly those frames, in order, and keeps exactly
    the tail buffered. *)
Theorem frame_stream_roundtrip fs ws tail reads :
  Forall (fun f => is_u32 (stream_id f) /\ is_u8 (flags f)) fs ->
  Forall2 (fun f w => encode f = Ok w) fs ws ->
  incomplete tail ->
  concat reads = concat ws ++ tail ->
  read_loop decoder_new reads [] = (mkFrameDecoder tail, Ok fs).
Proof.
  intros Hr Hw Ht Hc. destruct (encode_wires fs ws Hr Hw) as [Hwf Hws].
  apply (read_loop_ok reads decoder_new []); [done|].
  unfold decoder_feed, decoder_new. cbn [buf app].
  rewrite Hc, Hws, drain_wires, drain_incomplete by done. cbn. by rewrite app_nil_r.
Qed.

Definition sample_frames : list Frame :=
  [mkFrame 7 (Z.lor FLAG_OPEN FLAG_DATA) [as_u8 104; as_u8 105]; window 7 524599].

Lemma frame_stream_roundtrip_witness :
  read_loop decoder_new
    [[Byte.x00; Byte.x00; Byte.x00]; [Byte.x07; Byte.x03; Byte.x00; Byte.x00; Byte.x02; Byte.x68];
     [Byte.x69; Byte.x00; Byte.x00; Byte.x00; Byte.x07; Byte.x10; Byte.x00; Byte.x00; Byte.x04];
     [Byte.x00; Byte.x08; Byte.x01; Byte.x37; Byte.x00; Byte.x00]] []
  = (mkFrameDecoder [Byte.x00; Byte.x00], Ok sample_frames).
Proof.
  eapply (frame_stream_roundtrip sample_frames).
  - repeat constructor; vm_compute; congruence.
  - repeat constructor.
  - reflexivity.
  - reflexivity.
Defined.

(** The wire form is canonical: the frames a drain returns encode, without
    error, to exactly the bytes it removed from the buffer, and what stays
    buffered is not a complete frame. *)
Theorem drain_reencodes d d' fs :
  drain d = (d', Ok fs) ->
  exists ws, Forall2 (fun f w => encode f = Ok w) fs ws /\
             buf d = concat ws ++ buf d' /\ incomplete (buf d').
Proof.
  intros H. pose proof (drain_spec d) as Hs. rewrite H in Hs.
  destruct Hs as (Hwf & Hb & Hi). exists (wire <$> fs). split_and!; [|done..].
  clear -Hwf. induction Hwf; constructor; auto using encode_ok.
Qed.

Lemma drain_reencodes_witness :
  exists ws, Forall2 (fun f w => encode f = Ok w) [mkFrame 0 FLAG_PING (replicate 8 Byte.x01)] ws /\
             [Byte.x00; Byte.x00; Byte.x00; Byte.x00; Byte.x20; Byte.x00; Byte.x00; Byte.x08]
             ++ replicate 8 Byte.x01 ++ [Byte.xff]
             = concat ws ++ [Byte.xff] /\ incomplete [Byte.xff].
Proof.
  apply (drain_reencodes
    (mkFrameDecoder ([Byte.x00; Byte.x00; Byte.x00; Byte.x00; Byte.x20; Byte.x00; Byte.x00; Byte.x08]
             ++ replicate 8 Byte.x01 ++ [Byte.xff])) (mkFrameDecoder [Byte.xff])).
  vm_compute. reflexivity.
Defined.

(** A reserved-flag header poisons the core decoder for good, and it is the
    only decoding error there is: after [drain] fails, every later [feed] and
    [drain] fails with the same error whatever bytes arrive. *)
Theorem drain_error_sticky d d' e x :
  drain d = (d', Err e) ->
  (exists fl, e = ReservedFlag fl /\ 128 <= fl < 256) /\
  drain (decoder_feed d' x) = (decoder_feed d' x, Err e).
Proof.
  intros H. pose proof (drain_spec d) as Hs. rewrite H in Hs.
  destruct Hs as (fs & _ & _ & He). split.
  - pose proof (next_frame_spec d') as Hn. rewrite He in Hn. tauto.
  - rewrite drain_unfold. by rewrite (next_frame_err_app d' e x He).
Qed.

Lemma drain_error_sticky_witness :
  (exists fl, ReservedFlag 0x82 = ReservedFlag fl /\ 128 <= fl < 256) /\
  drain (decoder_feed (mkFrameDecoder (be_bytes 4 9 ++ [as_u8 0x82; Byte.x00; Byte.x00; Byte.x00]))
                      [Byte.x41]) =
  (decoder_feed (mkFrameDecoder (be_bytes 4 9 ++ [as_u8 0x82; Byte.x00; Byte.x00; Byte.x00]))
                [Byte.x41], Err (ReservedFlag 0x82)).
Proof.
  apply (drain_error_sticky
    (mkFrameDecoder (be_bytes 4 9 ++ [as_u8 0x82; Byte.x00; Byte.x00; Byte.x00]))).
  vm_compute. reflexivity.
Defined.

(** The dialer's ids are odd [u32]s handed out in steps of two from 1, and
    no id repeats during the first [2^31] allocations (after which the counter
    wraps to 1). *)
Theorem allocate_distinct n :
  Z.of_nat n <= 2 ^ 31 ->
  let ids := snd (allocate_n n dialer_default) in
  ids = (fun i => 1 + 2 * i) <$> seqZ 0 (Z.of_nat n) /\ NoDup ids /\
  Forall (fun id => is_u32 id /\ Z.odd id = true) ids /\
  next (fst (allocate_n n dialer_default)) = wrap 32 (1 + 2 * Z.of_nat n).
Proof.
  intros Hn. change dialer_default with (mkFrameDialer (wrap 32 (1 + 2 * 0))).
  rewrite allocate_n_spec. cbn [fst snd].
  assert (Hids : ((fun i => wrap 32 (1 + 2 * i)) <$> seqZ 0 (Z.of_nat n)) =
                 ((fun i => 1 + 2 * i) <$> seqZ 0 (Z.of_nat n))).
  { apply list_fmap_ext. intros i x Hx%lookup_seqZ.
    unfold wrap. apply Z.mod_small. lia. }
  rewrite Hids. split_and!; [done| | |by rewrite Z.add_0_l].
  - apply NoDup_fmap_2; [intros ???; lia|]. apply NoDup_seqZ.
  - rewrite <- Hids. apply Forall_fmap, Forall_true. intros i. split; [|apply wrap_odd].
    unfold in_range, wrap. apply Z.mod_pos_bound. lia.
Qed.

Lemma allocate_distinct_witness :
  snd (allocate_n 3 dialer_default) = [1; 3; 5] /\ NoDup (snd (allocate_n 3 dialer_default)).
Proof.
  split; [reflexivity|].
  destruct (allocate_distinct 3 ltac:(lia)) as (_ & H & _). exact H.
Defined.
