(* ===== verification/Text.v ===== *)
(** * Rust text

    The parts of the Rust standard library's [str]/[String] API the modelled
    code calls: UTF-8 validation and lossy decoding, ASCII case folding,
    Unicode trimming, splitting, and integer parsing and printing.

    A [String] is the list of its [char]s, a [char] its scalar value. *)

From S2P Require Import Prelude.
From Stdlib Require Import Strings.Ascii.

Abbreviation str := (list Z).

(** Literals: the text or the bytes of an ASCII Rocq string. *)
Definition lit (s : string) : str :=
  (fun a => Z.of_N (N_of_ascii a)) <$> String.list_ascii_of_string s.
Definition blit (s : string) : list byte := String.list_byte_of_string s.
#[global] Arguments lit _%_string_scope.
#[global] Arguments blit _%_string_scope.

Definition CR : Z := 13.
Definition LF : Z := 10.
Definition CRLF : str := [CR; LF].

(** ** UTF-8 *)

Definition is_scalar (c : Z) : bool :=
  (0 <=? c) && (c <? 0xD800) || (0xE000 <=? c) && (c <=? 0x10FFFF).

Definition utf8_char (c : Z) : list byte :=
  if c <? 0x80 then [as_u8 c]
  else if c <? 0x800 then [as_u8 (0xC0 + c / 64); as_u8 (0x80 + c mod 64)]
  else if c <? 0x10000 then
    [as_u8 (0xE0 + c / 4096); as_u8 (0x80 + c / 64 mod 64); as_u8 (0x80 + c mod 64)]
  else
    [as_u8 (0xF0 + c / 262144); as_u8 (0x80 + c / 4096 mod 64);
     as_u8 (0x80 + c / 64 mod 64); as_u8 (0x80 + c mod 64)].

(** [String::into_bytes] / [str::as_bytes] *)
Definition into_bytes (s : str) : list byte := concat (utf8_char <$> s).

Definition between (lo x hi : Z) : bool := (lo <=? x) && (x <=? hi).

(** Second-byte ranges of three- and four-byte sequences. *)
Definition second3 (b0 b1 : Z) : bool :=
  if b0 =? 0xE0 then between 0xA0 b1 0xBF
  else if b0 =? 0xED then between 0x80 b1 0x9F
  else between 0x80 b1 0xBF.
Definition second4 (b0 b1 : Z) : bool :=
  if b0 =? 0xF0 then between 0x90 b1 0xBF
  else if b0 =? 0xF4 then between 0x80 b1 0x8F
  else between 0x80 b1 0xBF.

(** Decoding as [core::str::lossy::Utf8Chunks] does it: [Some c] for a decoded
    [char], [None] for each maximal invalid sequence. *)
Fixpoint utf8_items (l : list byte) : list (option Z) :=
  match l with
  | [] => []
  | b0 :: r =>
      let x0 := u8 b0 in
      if x0 <? 0x80 then Some x0 :: utf8_items r
      else if between 0xC2 x0 0xDF then
        match r with
        | b1 :: r1 =>
            if between 0x80 (u8 b1) 0xBF
            then Some ((x0 - 0xC0) * 64 + (u8 b1 - 0x80)) :: utf8_items r1
            else None :: utf8_items r
        | [] => [None]
        end
      else if between 0xE0 x0 0xEF then
        match r with
        | b1 :: r1 =>
            if second3 x0 (u8 b1) then
              match r1 with
              | b2 :: r2 =>
                  if between 0x80 (u8 b2) 0xBF
                  then Some ((x0 - 0xE0) * 4096 + (u8 b1 - 0x80) * 64 + (u8 b2 - 0x80))
                       :: utf8_items r2
                  else None :: utf8_items r1
              | [] => [None]
              end
            else None :: utf8_items r
        | [] => [None]
        end
      else if between 0xF0 x0 0xF4 then
        match r with
        | b1 :: r1 =>
            if second4 x0 (u8 b1) then
              match r1 with
              | b2 :: r2 =>
                  if between 0x80 (u8 b2) 0xBF then
                    match r2 with
                    | b3 :: r3 =>
                        if between 0x80 (u8 b3) 0xBF
                        then Some ((x0 - 0xF0) * 262144 + (u8 b1 - 0x80) * 4096
                                   + (u8 b2 - 0x80) * 64 + (u8 b3 - 0x80)) :: utf8_items r3
                        else None :: utf8_items r2
                    | [] => [None]
                    end
                  else None :: utf8_items r1
              | [] => [None]
              end
            else None :: utf8_items r
        | [] => [None]
        end
      else None :: utf8_items r
  end.

(** [String::from_utf8_lossy] *)
Definition from_utf8_lossy (l : list byte) : str := default 0xFFFD <$> utf8_items l.

(** [str::from_utf8] *)
Definition from_utf8 (l : list byte) : option str := mapM id (utf8_items l).

(** ** Characters and case *)

Definition to_ascii_lowercase (c : Z) : Z := if between 65 c 90 then c + 32 else c.
Definition to_ascii_uppercase (c : Z) : Z := if between 97 c 122 then c - 32 else c.
Definition lowercase (s : str) : str := to_ascii_lowercase <$> s.

(** [eq_ignore_ascii_case] *)
Definition eq_ignore_ascii_case (a b : str) : bool := bool_decide (lowercase a = lowercase b).

(** [char::is_whitespace] (the Unicode [White_Space] property) *)
Definition is_whitespace (c : Z) : bool :=
  between 9 c 13 || (c =? 32) || (c =? 0x85) || (c =? 0xA0) || (c =? 0x1680)
  || between 0x2000 c 0x200A || (c =? 0x2028) || (c =? 0x2029) || (c =? 0x202F)
  || (c =? 0x205F) || (c =? 0x3000).

Fixpoint drop_while {A} (p : A -> bool) (l : list A) : list A :=
  match l with
  | [] => []
  | x :: r => if p x then drop_while p r else l
  end.

Definition trim_start (s : str) : str := drop_while is_whitespace s.
Definition trim_end (s : str) : str := reverse (drop_while is_whitespace (reverse s)).
Definition trim (s : str) : str := trim_end (trim_start s).

(** ** Splitting *)

(** [s.split(c)] *)
Fixpoint split_char (c : Z) (s : str) : list str :=
  match s with
  | [] => [[]]
  | x :: r =>
      if x =? c then [] :: split_char c r
      else match split_char c r with
           | [] => [[x]]
           | p :: ps => (x :: p) :: ps
           end
  end.

(** [s.split("\r\n")] *)
Fixpoint split_crlf (s : str) : list str :=
  match s with
  | [] => [[]]
  | x :: r =>
      match r with
      | y :: r' =>
          if (x =? CR) && (y =? LF) then [] :: split_crlf r'
          else match split_crlf r with
               | [] => [[x]]
               | p :: ps => (x :: p) :: ps
               end
      | [] => [[x]]
      end
  end.

(** [s.split_once(c)] *)
Fixpoint split_once (c : Z) (s : str) : option (str * str) :=
  match s with
  | [] => None
  | x :: r =>
      if x =? c then Some ([], r)
      else '(a, b) ← split_once c r; Some (x :: a, b)
  end.

(** [s.split_once(pat)] for a string pattern *)
Fixpoint split_once_str (pat s : str) : option (str * str) :=
  if starts_with pat s then Some ([], drop (length pat) s)
  else match s with
       | [] => None
       | x :: r => '(a, b) ← split_once_str pat r; Some (x :: a, b)
       end.

(** [s.rsplit_once(c)] *)
Definition rsplit_once (c : Z) (s : str) : option (str * str) :=
  '(b, a) ← split_once c (reverse s); Some (reverse a, reverse b).

(** [s.split_at(s.find(pred).unwrap_or(s.len()))] *)
Fixpoint split_at_first (pred : Z -> bool) (s : str) : str * str :=
  match s with
  | [] => ([], [])
  | x :: r => if pred x then ([], s) else let '(a, b) := split_at_first pred r in (x :: a, b)
  end.

(** [s.split_whitespace()] *)
Fixpoint split_on (pred : Z -> bool) (s : str) : list str :=
  match s with
  | [] => [[]]
  | x :: r =>
      if pred x then [] :: split_on pred r
      else match split_on pred r with
           | [] => [[x]]
           | p :: ps => (x :: p) :: ps
           end
  end.
Definition split_whitespace (s : str) : list str :=
  filter (fun p => p <> []) (split_on is_whitespace s).

(** [parts.join(sep)] *)
Fixpoint join (sep : str) (parts : list str) : str :=
  match parts with
  | [] => []
  | [p] => p
  | p :: ps => p ++ sep ++ join sep ps
  end.

(** [s.trim_end_matches(c)] *)
Definition trim_end_matches (c : Z) (s : str) : str :=
  reverse (drop_while (fun x => x =? c) (reverse s)).

(** [s.strip_prefix(p)] *)
Definition strip_prefix (p s : str) : option str :=
  if starts_with p s then Some (drop (length p) s) else None.

(** [str::strip_suffix]. *)
Definition strip_suffix (p s : str) : option str :=
  if bool_decide (drop (length s - length p) s = p) then Some (take (length s - length p) s) else None.

(** [s.contains(needle)] for a string needle *)
Fixpoint contains (needle s : str) : bool :=
  starts_with needle s ||
  match s with
  | [] => false
  | _ :: r => contains needle r
  end.

(** ** Integers *)

(** [char::to_digit(radix)] *)
Definition to_digit (radix c : Z) : option Z :=
  d ← (if between 48 c 57 then Some (c - 48)
       else if between 97 c 122 then Some (c - 87)
       else if between 65 c 90 then Some (c - 55)
       else None);
  if d <? radix then Some d else None.

Definition digits_step (radix w : Z) (acc : option Z) (c : Z) : option Z :=
  a ← acc; d ← to_digit radix c;
  if a * radix + d <? 2 ^ w then Some (a * radix + d) else None.

(** [uN::from_str_radix], also [str::parse::<uN>] at radix 10: an optional
    leading [+] followed by at least one digit, and no overflow. *)
Definition parse_uint (radix w : Z) (s : str) : option Z :=
  let digits := match s with 43 :: (_ :: _) as r => r | _ => s end in
  match digits with
  | [] => None
  | _ => foldl (digits_step radix w) (Some 0) digits
  end.

(** Printing in a radix up to 16, most significant digit first. *)
Definition digit_char (d : Z) : Z := if d <? 10 then 48 + d else 87 + d.

Fixpoint radix_digits (radix : Z) (fuel : nat) (n : Z) (acc : str) : str :=
  match fuel with
  | O => acc
  | S fuel =>
      if n <? radix then digit_char n :: acc
      else radix_digits radix fuel (n / radix) (digit_char (n mod radix) :: acc)
  end.

(** [usize::to_string]; 20 digits are enough for 64 bits. *)
Definition to_string (n : Z) : str := radix_digits 10 20 n [].

(** [format!("{n:x}")]; 16 digits are enough for 64 bits. *)
Definition to_hex (n : Z) : str := radix_digits 16 16 n [].

(** Two lowercase hexadecimal digits, [{:02x}]. *)
Definition hex02 (b : byte) : str := [digit_char (u8 b / 16); digit_char (u8 b mod 16)].

Example lossy_ex : from_utf8_lossy [Byte.x41; Byte.xe2; Byte.x82; Byte.x42; Byte.xff] = [65; 0xFFFD; 66; 0xFFFD].
Proof. reflexivity. Qed.
Example parse_ex : parse_uint 16 64 (lit "+1aF") = Some 0x1af /\ parse_uint 10 16 (lit "65536") = None /\ parse_uint 10 16 (lit "+") = None.
Proof. by vm_compute. Qed.
Example dec_ex : to_string 18446744073709551615 = lit "18446744073709551615".
Proof. reflexivity. Qed.
Example split_ex : split_crlf (lit "a" ++ CRLF ++ CRLF ++ lit "b") = [lit "a"; []; lit "b"].
Proof. reflexivity. Qed.

(** ** Lemmas *)

Lemma to_digit_range radix c d : to_digit radix c = Some d -> 0 <= d < radix.
Proof.
  unfold to_digit, between. repeat (case_match; cbn); intros; simplify_eq; lia.
Qed.

Lemma digits_range radix w l a n :
  0 <= radix -> (forall x, a = Some x -> 0 <= x < 2 ^ w) ->
  foldl (digits_step radix w) a l = Some n -> 0 <= n < 2 ^ w.
Proof.
  intros Hr. revert a. induction l as [|c l IH]; intros a Ha; cbn [foldl]; [apply Ha|].
  apply IH. intros x. unfold digits_step. destruct a as [y|]; [|done].
  specialize (Ha y eq_refl). cbn. destruct (to_digit radix c) as [d|] eqn:E; [|done].
  apply to_digit_range in E. cbn. case_match; [|done]. intros. simplify_eq. nia.
Qed.

Lemma parse_uint_range radix w s n :
  parse_uint radix w s = Some n -> 0 <= radix -> 0 <= w -> 0 <= n < 2 ^ w.
Proof.
  unfold parse_uint. intros H Hr Hw.
  assert (0 < 2 ^ w) by (apply Z.pow_pos_nonneg; lia).
  assert (Hz : forall x, Some 0 = Some x -> 0 <= x < 2 ^ w) by (intros; simplify_eq; lia).
  repeat (case_match; try done); (eapply digits_range; [exact Hr|exact Hz|exact H]).
Qed.

(** *** Printing and parsing integers *)

Lemma to_digit_char radix d : 0 <= d < radix -> radix <= 16 -> to_digit radix (digit_char d) = Some d.
Proof.
  intros Hd Hr. unfold to_digit, digit_char, between.
  destruct (Z.ltb_spec d 10).
  - replace ((48 <=? 48 + d) && (48 + d <=? 57)) with true by lia. cbn.
    replace (48 + d - 48) with d by lia. by replace (d <? radix) with true by lia.
  - replace ((48 <=? 87 + d) && (87 + d <=? 57)) with false by lia.
    replace ((97 <=? 87 + d) && (87 + d <=? 122)) with true by lia. cbn.
    replace (87 + d - 87) with d by lia. by replace (d <? radix) with true by lia.
Qed.

Section radix.
Context (radix w : Z) (Hradix : 2 <= radix <= 16).

Lemma digits_step_char a d :
  0 <= d < radix -> a * radix + d < 2 ^ w ->
  digits_step radix w (Some a) (digit_char d) = Some (a * radix + d).
Proof.
  intros Hd Ha. unfold digits_step. cbn. rewrite to_digit_char by lia. cbn.
  by replace (a * radix + d <? 2 ^ w) with true by lia.
Qed.

Lemma foldl_radix_digits fuel n acc :
  0 <= n < radix ^ Z.of_nat fuel -> n < 2 ^ w ->
  foldl (digits_step radix w) (Some 0) (radix_digits radix fuel n acc) =
  foldl (digits_step radix w) (Some n) acc.
Proof.
  revert n acc. induction fuel as [|fuel IH]; intros n acc Hn Hw.
  { cbn in Hn. replace n with 0 by lia. done. }
  cbn [radix_digits]. rewrite Nat2Z.inj_succ, Z.pow_succ_r in Hn by lia.
  destruct (Z.ltb_spec n radix) as [Hlt|Hge].
  - cbn [foldl]. rewrite digits_step_char by lia. done.
  - assert (0 <= n / radix < radix ^ Z.of_nat fuel /\ n / radix <= n) as [Hq Hle].
    { split; [split; [apply Z.div_pos; lia|apply Z.div_lt_upper_bound; lia]|].
      apply Z.div_le_upper_bound; nia. }
    pose proof (Z.mod_pos_bound n radix ltac:(lia)) as Hm.
    pose proof (Z.div_mod n radix ltac:(lia)) as Hdm.
    rewrite IH by lia. cbn [foldl]. rewrite digits_step_char by lia.
    do 2 f_equal. lia.
Qed.

Lemma radix_digits_chars fuel n acc :
  0 <= n -> Forall (fun c => is_Some (to_digit radix c)) acc ->
  Forall (fun c => is_Some (to_digit radix c)) (radix_digits radix fuel n acc).
Proof.
  revert n acc. induction fuel as [|fuel IH]; intros n acc Hn Hacc; cbn [radix_digits]; [done|].
  destruct (Z.ltb_spec n radix) as [Hlt|Hge].
  - constructor; [|done]. rewrite to_digit_char by lia. by eexists.
  - apply IH; [apply Z.div_pos; lia|]. constructor; [|done].
    rewrite to_digit_char; [by eexists| |lia]. apply Z.mod_pos_bound. lia.
Qed.

Lemma radix_digits_nonempty fuel n acc : radix_digits radix (S fuel) n acc <> [].
Proof.
  revert n acc. induction fuel as [|fuel IH]; intros n acc; cbn [radix_digits].
  - by case_match.
  - case_match; [done|]. apply IH.
Qed.

Lemma parse_radix_digits fuel n :
  0 <= n < radix ^ Z.of_nat (S fuel) -> n < 2 ^ w ->
  parse_uint radix w (radix_digits radix (S fuel) n []) = Some n.
Proof.
  intros Hn Hw. unfold parse_uint.
  pose proof (radix_digits_nonempty fuel n []) as Hne.
  pose proof (radix_digits_chars (S fuel) n [] ltac:(lia) ltac:(constructor)) as Hch.
  pose proof (foldl_radix_digits (S fuel) n [] Hn Hw) as Hf.
  destruct (radix_digits radix (S fuel) n []) as [|c l]; [done|].
  apply Forall_cons_1 in Hch as [[d Hd] _].
  assert (Hc : c <> 43).
  { intros ->. unfold to_digit in Hd. cbn in Hd. done. }
  replace (match c :: l with 43 :: (_ :: _) as r => r | _ => c :: l end) with (c :: l).
  - exact Hf.
  - destruct c as [|p|p]; [done| |done].
    do 6 (destruct p as [p|p|]; [..|done]; try done).
Qed.
End radix.

Lemma parse_to_string n : 0 <= n < 2 ^ 64 -> parse_uint 10 64 (to_string n) = Some n.
Proof.
  intros. apply parse_radix_digits; [lia| |lia].
  change (10 ^ Z.of_nat 20) with 100000000000000000000. lia.
Qed.

Lemma parse_to_hex n : 0 <= n < 2 ^ 64 -> parse_uint 16 64 (to_hex n) = Some n.
Proof.
  intros. apply parse_radix_digits; [lia| |lia].
  change (16 ^ Z.of_nat 16) with 18446744073709551616. lia.
Qed.
#[export] Hint Rewrite parse_to_string parse_to_hex using lia : spl.

(** *** UTF-8 round trip *)

(** Range and recombination facts for the low six bits of [c]. *)
Ltac sextet c :=
  pose proof (Z.mod_pos_bound c 64 ltac:(lia));
  pose proof (Z.div_mod c 64 ltac:(lia)).

(** Decide a boolean test of the goal by arithmetic. *)
Ltac decide_test t b := replace t with b by lia.

Lemma utf8_items_char2 c r :
  0x80 <= c < 0x800 -> utf8_items (utf8_char c ++ r) = Some c :: utf8_items r.
Proof.
  intros Hc. unfold utf8_char. decide_test (c <? 0x80) false. decide_test (c <? 0x800) true.
  sextet c. cbn [app utf8_items]. rewrite !u8_as_u8, !(Z.mod_small _ 256) by lia.
  unfold between. set (q := c / 64) in *. set (m := c mod 64) in *.
  decide_test (192 + q <? 128) false.
  decide_test ((194 <=? 192 + q) && (192 + q <=? 223)) true.
  decide_test ((128 <=? 128 + m) && (128 + m <=? 191)) true.
  do 2 f_equal. lia.
Qed.

Lemma utf8_items_char3 c r :
  0x800 <= c < 0xD800 \/ 0xE000 <= c < 0x10000 ->
  utf8_items (utf8_char c ++ r) = Some c :: utf8_items r.
Proof.
  intros Hc. unfold utf8_char.
  decide_test (c <? 0x80) false. decide_test (c <? 0x800) false. decide_test (c <? 0x10000) true.
  sextet c. sextet (c / 64).
  assert (Hq : c / 4096 = c / 64 / 64) by (rewrite Z.div_div; done || lia).
  rewrite Hq. cbn [app utf8_items].
  set (m0 := c mod 64) in *. set (q := c / 64) in *.
  set (m1 := q mod 64) in *. set (h := q / 64) in *.
  rewrite !u8_as_u8, !(Z.mod_small _ 256) by lia. unfold between, second3, between.
  decide_test (224 + h <? 128) false.
  decide_test ((194 <=? 224 + h) && (224 + h <=? 223)) false.
  decide_test ((224 <=? 224 + h) && (224 + h <=? 239)) true.
  replace (if 224 + h =? 224 then _ else _) with true
    by (destruct (Z.eqb_spec (224 + h) 224); [lia|destruct (Z.eqb_spec (224 + h) 237); lia]).
  decide_test ((128 <=? 128 + m0) && (128 + m0 <=? 191)) true.
  do 2 f_equal. lia.
Qed.

Lemma utf8_items_char4 c r :
  0x10000 <= c <= 0x10FFFF -> utf8_items (utf8_char c ++ r) = Some c :: utf8_items r.
Proof.
  intros Hc. unfold utf8_char.
  decide_test (c <? 0x80) false. decide_test (c <? 0x800) false. decide_test (c <? 0x10000) false.
  sextet c. sextet (c / 64). sextet (c / 64 / 64).
  assert (Hq : c / 4096 = c / 64 / 64) by (rewrite Z.div_div; done || lia).
  assert (Hq2 : c / 262144 = c / 64 / 64 / 64) by (rewrite !Z.div_div; done || lia).
  rewrite Hq, Hq2. cbn [app utf8_items].
  set (m0 := c mod 64) in *. set (q := c / 64) in *.
  set (m1 := q mod 64) in *. set (q2 := q / 64) in *.
  set (m2 := q2 mod 64) in *. set (h := q2 / 64) in *.
  rewrite !u8_as_u8, !(Z.mod_small _ 256) by lia. unfold between, second4, between.
  decide_test (240 + h <? 128) false.
  decide_test ((194 <=? 240 + h) && (240 + h <=? 223)) false.
  decide_test ((224 <=? 240 + h) && (240 + h <=? 239)) false.
  decide_test ((240 <=? 240 + h) && (240 + h <=? 244)) true.
  replace (if 240 + h =? 240 then _ else _) with true
    by (destruct (Z.eqb_spec (240 + h) 240); [lia|destruct (Z.eqb_spec (240 + h) 244); lia]).
  decide_test ((128 <=? 128 + m1) && (128 + m1 <=? 191)) true.
  decide_test ((128 <=? 128 + m0) && (128 + m0 <=? 191)) true.
  do 2 f_equal. lia.
Qed.

Lemma utf8_items_char c r :
  is_scalar c = true -> utf8_items (utf8_char c ++ r) = Some c :: utf8_items r.
Proof.
  unfold is_scalar. intros Hc. destruct (Z.ltb_spec c 0x80) as [H|H].
  - unfold utf8_char. decide_test (c <? 0x80) true. cbn [app utf8_items].
    rewrite u8_as_u8, Z.mod_small by lia. by decide_test (c <? 128) true.
  - destruct (Z.ltb_spec c 0x800); [by apply utf8_items_char2|].
    destruct (Z.ltb_spec c 0x10000); [apply utf8_items_char3|apply utf8_items_char4]; lia.
Qed.

Abbreviation scalars := (Forall (fun c => is_scalar c = true)).

Lemma utf8_items_into_bytes s r :
  scalars s -> utf8_items (into_bytes s ++ r) = (Some <$> s) ++ utf8_items r.
Proof.
  induction 1 as [|c s Hc Hs IH]; [done|].
  unfold into_bytes in *. cbn [fmap list_fmap concat]. rewrite <- app_assoc.
  by rewrite utf8_items_char, IH.
Qed.

Lemma from_utf8_into_bytes s : scalars s -> from_utf8 (into_bytes s) = Some s.
Proof.
  intros Hs. unfold from_utf8. rewrite <- (app_nil_r (into_bytes s)).
  rewrite utf8_items_into_bytes by done. cbn [utf8_items]. rewrite app_nil_r.
  clear Hs. induction s as [|c s IH]; [done|]. cbn. by rewrite IH.
Qed.

Lemma from_utf8_lossy_into_bytes s : scalars s -> from_utf8_lossy (into_bytes s) = s.
Proof.
  intros Hs. unfold from_utf8_lossy. rewrite <- (app_nil_r (into_bytes s)).
  rewrite utf8_items_into_bytes by done. cbn [utf8_items]. rewrite app_nil_r, <- list_fmap_compose.
  apply list_fmap_id.
Qed.
#[export] Hint Rewrite from_utf8_into_bytes from_utf8_lossy_into_bytes using done : spl.

Lemma into_bytes_app a b : into_bytes (a ++ b) = into_bytes a ++ into_bytes b.
Proof. unfold into_bytes. by rewrite fmap_app, concat_app. Qed.

(** *** Trimming and splitting *)

Lemma drop_while_none {A} (p : A -> bool) l : Forall (fun x => p x = false) l -> drop_while p l = l.
Proof. destruct 1 as [|x l Hx Hl]; [done|]. cbn. by rewrite Hx. Qed.

Lemma trim_none s : Forall (fun c => is_whitespace c = false) s -> trim s = s.
Proof.
  intros Hs. unfold trim, trim_end, trim_start.
  rewrite (drop_while_none _ s) by done.
  rewrite drop_while_none by by apply Forall_reverse. apply reverse_involutive.
Qed.

Lemma split_char_none c s : Forall (fun x => x <> c) s -> split_char c s = [s].
Proof.
  induction 1 as [|x s Hx Hs IH]; [done|]. cbn.
  rewrite (proj2 (Z.eqb_neq x c)) by done. by rewrite IH.
Qed.

Lemma split_once_app c a b : Forall (fun x => x <> c) a -> split_once c (a ++ c :: b) = Some (a, b).
Proof.
  induction 1 as [|x a Hx Ha IH]; cbn [app split_once].
  - by rewrite Z.eqb_refl.
  - replace (x =? c) with false by lia. rewrite IH. done.
Qed.

Lemma split_once_eq c s a b : split_once c s = Some (a, b) -> s = a ++ c :: b.
Proof.
  revert a. induction s as [|x s IH]; intros a; cbn [split_once]; [done|].
  destruct (x =? c) eqn:E; [apply Z.eqb_eq in E as ->; intros; by simplify_eq|].
  destruct (split_once c s) as [[a' b']|]; [|done]. intros; simplify_eq/=. f_equal. by apply IH.
Qed.

Lemma split_at_first_eq pred s a b :
  split_at_first pred s = (a, b) ->
  s = a ++ b /\ match b with [] => True | c :: _ => pred c = true end.
Proof.
  revert a. induction s as [|x s IH]; intros a; cbn [split_at_first]; [intros; by simplify_eq|].
  destruct (pred x) eqn:E; [intros; by simplify_eq|].
  destruct (split_at_first pred s) as [a' b']. intros; simplify_eq/=.
  destruct (IH a' eq_refl) as [-> H]. done.
Qed.

Lemma strip_suffix_Some p l s : strip_suffix p s = Some l -> s = l ++ p.
Proof.
  unfold strip_suffix. case_bool_decide as Hp; intros; simplify_eq.
  rewrite <- Hp at 2. by rewrite take_drop.
Qed.

Lemma strip_prefix_Some p l s : strip_prefix p s = Some l -> s = p ++ l.
Proof.
  unfold strip_prefix. destruct (starts_with p s) eqn:Hs; intros; simplify_eq.
  revert s Hs. induction p as [|x p IH]; intros [|y s]; cbn; try done.
  rewrite andb_true_iff, bool_decide_eq_true. intros [-> Hs]. f_equal. by apply IH.
Qed.

Lemma strip_prefix_app p s : strip_prefix p (p ++ s) = Some s.
Proof. unfold strip_prefix. rewrite (proj2 (starts_with_app p (p ++ s))) by by exists s. by rewrite drop_app_length. Qed.

Lemma split_at_first_app pred a c b :
  Forall (fun x => pred x = false) a -> pred c = true -> split_at_first pred (a ++ c :: b) = (a, c :: b).
Proof.
  intros Ha Hc. induction Ha as [|x a Hx Ha IH]; cbn; [by rewrite Hc|]. by rewrite Hx, IH.
Qed.

Lemma rsplit_once_app c a b : Forall (fun x => x <> c) b -> rsplit_once c (a ++ c :: b) = Some (a, b).
Proof.
  intros Hb. unfold rsplit_once. rewrite reverse_app, reverse_cons, <- (assoc_L (++)). cbn [app].
  rewrite split_once_app by by apply Forall_reverse. cbn. by rewrite !reverse_involutive.
Qed.

Lemma parse_to_string_width w n : 0 <= n < 2 ^ w -> 0 <= w <= 64 -> parse_uint 10 w (to_string n) = Some n.
Proof.
  intros Hn Hw. assert (2 ^ w <= 2 ^ 64) by (apply Z.pow_le_mono_r; lia).
  apply parse_radix_digits; [lia| |lia].
  change (10 ^ Z.of_nat 20) with 100000000000000000000. lia.
Qed.

(** *** ASCII text *)

Definition is_ascii (c : Z) : Prop := 0 <= c < 128.

Lemma ascii_scalars s : Forall is_ascii s -> scalars s.
Proof. apply Forall_impl. intros c. unfold is_ascii, is_scalar. lia. Qed.

Lemma into_bytes_ascii s : Forall is_ascii s -> into_bytes s = as_u8 <$> s.
Proof.
  induction 1 as [|c s Hc Hs IH]; [done|]. unfold into_bytes in *. cbn [fmap list_fmap concat].
  rewrite IH. unfold utf8_char, is_ascii in *. by decide_test (c <? 128) true.
Qed.

Lemma digit_bounds radix c d : to_digit radix c = Some d -> 48 <= c <= 57 \/ 65 <= c <= 90 \/ 97 <= c <= 122.
Proof. unfold to_digit, between. repeat (case_match; cbn); intros; simplify_eq; lia. Qed.

Lemma to_hex_digits n :
  0 <= n -> Forall (fun c => 48 <= c <= 57 \/ 65 <= c <= 90 \/ 97 <= c <= 122) (to_hex n).
Proof.
  intros Hn. unfold to_hex.
  pose proof (radix_digits_chars 16 ltac:(lia) 16 n [] Hn ltac:(constructor)) as H.
  eapply Forall_impl; [|exact H]. intros c [d Hd]. by eapply digit_bounds.
Qed.

Lemma to_string_digits n :
  0 <= n -> Forall (fun c => 48 <= c <= 57 \/ 65 <= c <= 90 \/ 97 <= c <= 122) (to_string n).
Proof.
  intros Hn. unfold to_string.
  pose proof (radix_digits_chars 10 ltac:(lia) 20 n [] Hn ltac:(constructor)) as H.
  eapply Forall_impl; [|exact H]. intros c [d Hd]. by eapply digit_bounds.
Qed.
