(* ===== verification/Http.v ===== *)
(** * HTTP/1.1 over the mux ([crates/spl-core/src/http.rs])

    Request-head construction, response parsing, and the two decoders of
    [Transfer-Encoding: chunked] bodies: the one-shot [dechunk] and the
    incremental [ChunkedDecoder]. *)

From S2P Require Import Prelude Frame Text.

Abbreviation Headers := (list (str * str)).

Record HttpResponse := mkHttpResponse {
  status : Z;
  headers : Headers;
  body : list byte
}.

(** The diagnostic text of [HttpError::BadChunkedBody], by the [format!] or
    literal that builds it. *)
Inductive ChunkedMessage :=
| BadChunkSize (size_field : str)
| ChunkExceedsMax (size : Z)
| DecoderPreviouslyFailed
| MissingChunkTerminator
| MissingSizeLine
| TruncatedChunk
| MissingTerminalChunk.

Inductive HttpError :=
| MissingTerminator
| MissingStatusLine
| BadStatusLine (line : str)
| TruncatedBody
| BadChunkedBody (msg : ChunkedMessage).

#[export] Instance ChunkedMessage_eq_dec : EqDecision ChunkedMessage.
Proof. solve_decision. Defined.
#[export] Instance HttpError_eq_dec : EqDecision HttpError.
Proof. solve_decision. Defined.
#[export] Instance HttpResponse_eq_dec : EqDecision HttpResponse.
Proof. solve_decision. Defined.

(** First header whose name satisfies a test. *)
Definition find_header (p : str -> bool) (hs : Headers) : option (str * str) :=
  snd <$> list_find (fun kv => p (fst kv)) hs.

(** [HttpResponse::header] *)
Definition header (r : HttpResponse) (name : str) : option str :=
  let lower := lowercase name in
  snd <$> find_header (fun k => bool_decide (k = lower)) (headers r).

(** [HttpResponse::body_text] *)
Definition body_text (r : HttpResponse) : str := from_utf8_lossy (body r).

(** [HttpResponse::is_success] *)
Definition is_success (r : HttpResponse) : bool := (200 <=? status r) && (status r <? 300).

(** [parse_chunk_size] *)
Definition parse_chunk_size (line : str) : res HttpError Z :=
  let size_field := trim (default [] (head (split_char 59 line))) in
  match parse_uint 16 64 size_field with
  | None => Err (BadChunkedBody (BadChunkSize size_field))
  | Some size =>
      if size >? MAX_PAYLOAD then Err (BadChunkedBody (ChunkExceedsMax size)) else Ok size
  end.

(** [find_subsequence] *)
Fixpoint find_window (needle haystack : list byte) : option Z :=
  if starts_with needle haystack then Some 0
  else match haystack with
       | [] => None
       | _ :: r => Z.succ <$> find_window needle r
       end.

Definition find_subsequence (haystack needle : list byte) : option Z :=
  if (len needle =? 0) || (len haystack <? len needle) then None
  else find_window needle haystack.

Definition bCRLF : list byte := [Byte.x0d; Byte.x0a].
Definition bCRLF2 : list byte := [Byte.x0d; Byte.x0a; Byte.x0d; Byte.x0a].

(** ** The incremental decoder *)
Inductive ChunkState :=
| Size
| Data (size : Z)
| DataCrlf
| Trailer
| Done
| Failed.

#[export] Instance ChunkState_eq_dec : EqDecision ChunkState.
Proof. solve_decision. Defined.

Record ChunkedDecoder := mkChunkedDecoder { cbuf : list byte; cstate : ChunkState }.

Definition chunked_new : ChunkedDecoder := mkChunkedDecoder [] Size.

(** [ChunkedDecoder::is_complete] *)
Definition is_complete (d : ChunkedDecoder) : bool := bool_decide (cstate d = Done).

(** [ChunkedDecoder::fail] *)
Definition chunked_fail (d : ChunkedDecoder) : ChunkedDecoder := mkChunkedDecoder [] Failed.

(** One pass of the [loop] in [ChunkedDecoder::push]: leave the loop with the
    decoder as it is, take another pass after delivering some bytes, or return
    an error from the failed decoder. *)
Inductive ChunkPass :=
| PassBreak (d : ChunkedDecoder)
| PassNext (d : ChunkedDecoder) (delivered : list byte)
| PassFail (d : ChunkedDecoder) (e : HttpError).

Definition push_pass (d : ChunkedDecoder) : ChunkPass :=
  let b := cbuf d in
  match cstate d with
  | Size =>
      match find_subsequence b bCRLF with
      | None => PassBreak d
      | Some line_end =>
          match parse_chunk_size (from_utf8_lossy (ztake line_end b)) with
          | Ok size =>
              PassNext (mkChunkedDecoder (zdrop (line_end + 2) b)
                          (if size =? 0 then Trailer else Data size)) []
          | Err e => PassFail (chunked_fail d) e
          | Panic => PassBreak d
          end
      end
  | Data size =>
      if len b <? size then PassBreak d
      else PassNext (mkChunkedDecoder (zdrop size b) DataCrlf) (ztake size b)
  | DataCrlf =>
      if len b <? 2 then PassBreak d
      else if bool_decide (ztake 2 b = bCRLF)
      then PassNext (mkChunkedDecoder (zdrop 2 b) Size) []
      else PassFail (chunked_fail d) (BadChunkedBody MissingChunkTerminator)
  | Trailer =>
      if starts_with bCRLF b then PassBreak (mkChunkedDecoder [] Done)
      else match find_subsequence b bCRLF2 with
           | None => PassBreak d
           | Some _ => PassBreak (mkChunkedDecoder [] Done)
           end
  | Done | Failed => PassBreak d
  end.

(** The [loop]: every pass but the [Data] one removes a byte and a [Data] pass
    is followed by one that does, so twice the buffer is fuel enough
    ([push_loop_unfold]). *)
Fixpoint push_loop (fuel : nat) (d : ChunkedDecoder) (out : list byte)
  : ChunkedDecoder * res HttpError (list byte) :=
  match fuel with
  | O => (d, Ok out)
  | S fuel =>
      match push_pass d with
      | PassBreak d' => (d', Ok out)
      | PassNext d' delivered => push_loop fuel d' (out ++ delivered)
      | PassFail d' e => (d', Err e)
      end
  end.

(** [ChunkedDecoder::push] *)
Definition push (d : ChunkedDecoder) (bytes : list byte)
  : ChunkedDecoder * res HttpError (list byte) :=
  match cstate d with
  | Done => (d, Ok [])
  | Failed => (d, Err (BadChunkedBody DecoderPreviouslyFailed))
  | _ =>
      let d1 := mkChunkedDecoder (cbuf d ++ bytes) (cstate d) in
      push_loop (S (S (2 * length (cbuf d1)))) d1 []
  end.

(** ** Requests *)
Definition DEFAULT_HTTP_HOST : str := lit "spl.local".

(** [is_framing_owned] *)
Definition is_framing_owned (name : str) : bool :=
  eq_ignore_ascii_case name (lit "host")
  || eq_ignore_ascii_case name (lit "content-length")
  || eq_ignore_ascii_case name (lit "accept").

Definition header_line (kv : str * str) : str := fst kv ++ lit ": " ++ snd kv ++ CRLF.

(** [build_request_head_with_host] *)
Definition build_request_head_with_host
  (method path host : str) (hs : Headers) (content_length : Z) : list byte :=
  into_bytes
    (method ++ lit " " ++ path ++ lit " HTTP/1.1" ++ CRLF
     ++ lit "host: " ++ host ++ CRLF
     ++ match find_header (fun k => eq_ignore_ascii_case k (lit "accept")) hs with
        | Some kv => header_line kv
        | None => lit "accept: application/json" ++ CRLF
        end
     ++ concat (header_line <$> filter (fun kv => is_framing_owned (fst kv) = false) hs)
     ++ lit "content-length: " ++ to_string content_length ++ CRLF ++ CRLF).

(** [build_request_head] *)
Definition build_request_head (method path : str) (hs : Headers) (content_length : Z) : list byte :=
  build_request_head_with_host method path DEFAULT_HTTP_HOST hs content_length.

(** [build_request_with_host] *)
Definition build_request_with_host (method path host : str) (hs : Headers) (b : list byte)
  : list byte :=
  build_request_head_with_host method path host hs (len b) ++ b.

(** [build_request] *)
Definition build_request (method path : str) (hs : Headers) (b : list byte) : list byte :=
  build_request_with_host method path DEFAULT_HTTP_HOST hs b.

(** ** Responses *)

(** [parse_head] *)
Definition parse_header_line (line : str) : option (str * str) :=
  '(k, v) ← split_once 58 line; Some (lowercase (trim k), trim v).

Definition parse_head (head_bytes : list byte) : res HttpError (Z * Headers) :=
  match split_crlf (from_utf8_lossy head_bytes) with
  | [] => Err MissingStatusLine
  | status_line :: lines =>
      match (match split_char 32 status_line with
             | _ :: s :: _ => parse_uint 10 16 s
             | _ => None
             end) with
      | None => Err (BadStatusLine status_line)
      | Some st => Ok (st, omap parse_header_line lines)
      end
  end.

(** The [while index < raw.len()] loop of [dechunk]; [index] grows by at least
    two each time, so [len raw] units of fuel are enough ([dechunk_loop_unfold]). *)
Fixpoint dechunk_loop (fuel : nat) (raw : list byte) (idx : Z) (out : list byte)
  : res HttpError (list byte) :=
  match fuel with
  | O => Err (BadChunkedBody MissingTerminalChunk)
  | S fuel =>
      if idx <? len raw then
        match find_subsequence (zdrop idx raw) bCRLF with
        | None => Err (BadChunkedBody MissingSizeLine)
        | Some p =>
            let line_end := idx + p in
            size ← parse_chunk_size (from_utf8_lossy (slice raw idx line_end));
            let idx := line_end + 2 in
            if size =? 0 then Ok out
            else match checked_add 64 idx size with
                 | None => Err (BadChunkedBody TruncatedChunk)
                 | Some data_end =>
                     if data_end >? len raw then Err (BadChunkedBody TruncatedChunk)
                     else if (len raw - data_end <? 2)
                             || negb (bool_decide (slice raw data_end (data_end + 2) = bCRLF))
                     then Err (BadChunkedBody MissingChunkTerminator)
                     else dechunk_loop fuel raw (data_end + 2) (out ++ slice raw idx data_end)
                 end
        end
      else Err (BadChunkedBody MissingTerminalChunk)
  end.

(** [dechunk] *)
Definition dechunk (raw : list byte) : res HttpError (list byte) :=
  dechunk_loop (S (length raw)) raw 0 [].

(** The [header_lookup] closure of [parse_response]. *)
Definition header_lookup (hs : Headers) (name : str) : option str :=
  snd <$> find_header (fun k => bool_decide (k = name)) hs.

Definition is_chunked (hs : Headers) : bool :=
  match header_lookup hs (lit "transfer-encoding") with
  | Some v => eq_ignore_ascii_case v (lit "chunked")
  | None => false
  end.

(** [parse_response] *)
Definition parse_response (raw : list byte) : res HttpError HttpResponse :=
  match find_subsequence raw bCRLF2 with
  | None => Err MissingTerminator
  | Some split =>
      '(st, hs) ← parse_head (ztake split raw);
      let rest := zdrop (split + 4) raw in
      if is_chunked hs then
        b ← dechunk rest; Ok (mkHttpResponse st hs b)
      else
        match header_lookup hs (lit "content-length") ≫= parse_uint 10 64 with
        | Some n =>
            if n <? len rest then Ok (mkHttpResponse st hs (ztake n rest))
            else if n >? len rest then Err TruncatedBody
            else Ok (mkHttpResponse st hs rest)
        | None => Ok (mkHttpResponse st hs rest)
        end
  end.

Example parse_response_ex :
  parse_response (blit "HTTP/1.1 200 OK" ++ bCRLF ++ blit "Transfer-Encoding: Chunked" ++ bCRLF2
    ++ blit "3;x" ++ bCRLF ++ blit "abc" ++ bCRLF ++ blit "0" ++ bCRLF2)
  = Ok (mkHttpResponse 200 [(lit "transfer-encoding", lit "Chunked")] (blit "abc")).
Proof. reflexivity. Qed.
Example push_ex :
  snd (push chunked_new (blit "3" ++ bCRLF ++ blit "abc" ++ bCRLF ++ blit "0" ++ bCRLF)) = Ok (blit "abc").
Proof. reflexivity. Qed.
Example build_ex :
  build_request (lit "GET") (lit "/test") [(lit "X-Custom", lit "val")] [] =
  blit "GET /test HTTP/1.1" ++ bCRLF ++ blit "host: spl.local" ++ bCRLF
  ++ blit "accept: application/json" ++ bCRLF ++ blit "X-Custom: val" ++ bCRLF
  ++ blit "content-length: 0" ++ bCRLF2.
Proof. reflexivity. Qed.

(** ** Lemmas *)

(** *** Searching *)

Lemma find_window_Some n h i :
  find_window n h = Some i ->
  0 <= i /\ i + len n <= len h /\ starts_with n (zdrop i h) = true.
Proof.
  revert i. induction h as [|x h IH]; intros i; simpl.
  - destruct (starts_with n []) eqn:E; [|done]. intros [= <-].
    apply starts_with_app in E as [k Hk]. destruct n; simpl in *; [lia|done].
  - destruct (starts_with n (x :: h)) eqn:E.
    + intros [= <-]. split_and!; [lia| |done].
      apply starts_with_app in E as [k Hk%(f_equal length)].
      rewrite length_app in Hk. simpl in *. lia.
    + destruct (find_window n h) as [j|]; simpl; [|done]. intros [= <-].
      destruct (IH j eq_refl) as (H0 & H1 & H2). split_and!; [lia..|].
      by replace (Z.to_nat (Z.succ j)) with (S (Z.to_nat j)) by lia.
Qed.

Lemma find_window_mono n h x i :
  find_window n h = Some i -> find_window n (h ++ x) = Some i.
Proof.
  revert i. induction h as [|y h IH]; intros i; simpl.
  - destruct (starts_with n []) eqn:E; [|done]. intros [= <-].
    destruct n; [|done]. by destruct x.
  - destruct (starts_with n (y :: h)) eqn:E.
    + intros [= <-]. apply (starts_with_mono _ _ x) in E. simpl in E. by rewrite E.
    + destruct (find_window n h) as [j|] eqn:Ej; simpl; [|done]. intros [= <-].
      apply find_window_Some in Ej as Hj. destruct Hj as (Hj0 & Hj1 & _).
      pose proof (starts_with_long n (y :: h) x ltac:(simpl; lia)) as Hs. simpl in Hs.
      rewrite Hs, E, (IH j eq_refl). done.
Qed.

Lemma find_subsequence_Some h n i :
  find_subsequence h n = Some i ->
  0 <= i /\ i + len n <= len h /\ starts_with n (zdrop i h) = true.
Proof. unfold find_subsequence. case_match; [done|]. apply find_window_Some. Qed.

Lemma find_subsequence_mono h n x i :
  find_subsequence h n = Some i -> find_subsequence (h ++ x) n = Some i.
Proof.
  unfold find_subsequence. rewrite length_app.
  destruct (_ || _) eqn:E; [done|]. intros H.
  replace ((len n =? 0) || (_ <? len n)) with false by lia. by apply find_window_mono.
Qed.

(** A position found only after more input arrived ends in that input. *)
Lemma find_subsequence_late h n x i :
  find_subsequence h n = None -> find_subsequence (h ++ x) n = Some i -> len h < i + len n.
Proof.
  unfold find_subsequence. rewrite length_app. intros H1 H2.
  destruct ((len n =? 0) || (Z.of_nat (length h + length x) <? len n)) eqn:E2; [done|].
  destruct ((len n =? 0) || (len h <? len n)) eqn:E1.
  { apply find_window_Some in H2. lia. }
  clear E1 E2. revert i H2. induction h as [|y h IH]; intros i H2.
  { apply find_window_Some in H2. destruct n; [|simpl in *; lia]. by destruct x. }
  simpl in *. destruct (starts_with n (y :: h)) eqn:E; [done|].
  destruct (find_window n h) eqn:Eh; [done|].
  destruct (starts_with n (y :: h ++ x)) eqn:E'.
  { destruct (decide (length n <= length (y :: h))%nat) as [Hl|Hl].
    - pose proof (starts_with_long n (y :: h) x Hl) as Hs. simpl in Hs. congruence.
    - simplify_eq. simpl in Hl. lia. }
  destruct (find_window n (h ++ x)) as [j|]; [|done]. simplify_eq/=.
  specialize (IH eq_refl j eq_refl). lia.
Qed.

(** Splitting a buffer at a found needle. *)
Lemma find_subsequence_split h n i :
  find_subsequence h n = Some i -> h = ztake i h ++ n ++ zdrop (i + len n) h.
Proof.
  intros (H0 & H1 & H2)%find_subsequence_Some.
  apply starts_with_app in H2 as [k Hk].
  rewrite <- (take_drop (Z.to_nat i) h) at 1. f_equal. rewrite Hk. f_equal.
  replace (Z.to_nat (i + len n)) with (Z.to_nat i + length n)%nat by lia.
  by rewrite <- drop_drop, Hk, drop_app_length.
Qed.

(** *** The incremental chunked decoder *)

Definition more (d : ChunkedDecoder) (x : list byte) : ChunkedDecoder :=
  mkChunkedDecoder (cbuf d ++ x) (cstate d).

Definition pass_measure (d : ChunkedDecoder) : nat :=
  (2 * length (cbuf d) + match cstate d with Data _ => 1 | _ => 0 end)%nat.

Lemma push_pass_measure d d' o :
  push_pass d = PassNext d' o -> (pass_measure d' < pass_measure d)%nat.
Proof.
  destruct d as [b st]. unfold push_pass, pass_measure. cbn [cbuf cstate].
  destruct st; intros H.
  - destruct (find_subsequence b bCRLF) as [i|] eqn:E; [|done].
    apply find_subsequence_Some in E as (H0 & H1 & _).
    destruct (parse_chunk_size _); [|done..]. simplify_eq/=. rewrite length_drop.
    unfold bCRLF in H1. simpl in H1. destruct (_ =? 0); lia.
  - case_match; [done|]. simplify_eq/=. rewrite length_drop. lia.
  - destruct (Z.ltb_spec (len b) 2); [done|]. case_match; [|done]. simplify_eq/=.
    rewrite length_drop. lia.
  - by repeat case_match.
  - done.
  - done.
Qed.

Lemma push_loop_out fuel d out :
  push_loop fuel d out = let '(d', r) := push_loop fuel d [] in (d', (fun o => out ++ o) <$> r).
Proof.
  revert d out. induction fuel as [|fuel IH]; intros d out; simpl.
  - by rewrite app_nil_r.
  - destruct (push_pass d) as [d'|d' o|d' e]; simpl; [by rewrite app_nil_r| |done].
    rewrite IH, (IH d' o). destruct (push_loop fuel d' []) as [? []]; cbn; [|done..].
    by rewrite <- app_assoc.
Qed.

Lemma push_loop_fuels f1 f2 d :
  (pass_measure d < f1)%nat -> (pass_measure d < f2)%nat -> push_loop f1 d [] = push_loop f2 d [].
Proof.
  revert f2 d. induction f1 as [|f1 IH]; intros [|f2] d H1 H2; [lia..|]. simpl.
  destruct (push_pass d) as [d'|d' o|d' e] eqn:E; [done| |done].
  apply push_pass_measure in E.
  rewrite (push_loop_out f1), (push_loop_out f2), (IH f2 d') by lia. done.
Qed.

Lemma push_loop_S fuel d out :
  push_loop (S fuel) d out =
  match push_pass d with
  | PassBreak d' => (d', Ok out)
  | PassNext d' delivered => push_loop fuel d' (out ++ delivered)
  | PassFail d' e => (d', Err e)
  end.
Proof. done. Qed.

(** The loop run to its [break]. *)
Definition run (d : ChunkedDecoder) : ChunkedDecoder * res HttpError (list byte) :=
  push_loop (S (S (2 * length (cbuf d)))) d [].
#[global] Arguments run : simpl never.

Lemma push_loop_unfold d :
  run d =
  match push_pass d with
  | PassBreak d' => (d', Ok [])
  | PassNext d' o => let '(d'', r) := run d' in (d'', (fun o' => o ++ o') <$> r)
  | PassFail d' e => (d', Err e)
  end.
Proof.
  assert (Hm : forall d, (pass_measure d < S (S (2 * length (cbuf d))))%nat).
  { intros [b st]. unfold pass_measure. simpl. destruct st; lia. }
  unfold run at 1. rewrite push_loop_S.
  destruct (push_pass d) as [d'|d' o|d' e] eqn:E; [done| |done].
  apply push_pass_measure in E. rewrite push_loop_out. unfold run.
  rewrite (push_loop_fuels _ (S (S (2 * length (cbuf d')))) d'); [done| |apply Hm].
  specialize (Hm d). lia.
Qed.

Lemma run_ind (P : ChunkedDecoder -> Prop) :
  (forall d, (forall d' o, push_pass d = PassNext d' o -> P d') -> P d) -> forall d, P d.
Proof.
  intros Hstep d. remember (pass_measure d) as n eqn:Hn. revert d Hn.
  induction (lt_wf n) as [n _ IH]. intros d ->. apply Hstep. intros d' o E.
  apply push_pass_measure in E. by eapply IH.
Qed.

(** More input does not change a pass that already had enough of it. *)
Lemma push_pass_more d x :
  match push_pass d with
  | PassNext d' o => push_pass (more d x) = PassNext (more d' x) o
  | PassFail d' e => push_pass (more d x) = PassFail d' e
  | PassBreak d' =>
      d' = d \/ (d' = mkChunkedDecoder [] Done /\ push_pass (more d x) = PassBreak d')
  end.
Proof.
  destruct d as [b st]. unfold push_pass, more. cbn [cbuf cstate]. destruct st.
  - destruct (find_subsequence b bCRLF) as [i|] eqn:E; [|by left].
    apply find_subsequence_Some in E as Hi. destruct Hi as (H0 & H1 & _).
    unfold bCRLF in H1. cbn [length] in H1.
    rewrite (find_subsequence_mono _ _ x _ E), take_app_le, drop_app_le by lia.
    destruct (parse_chunk_size _); [done|done|by left].
  - destruct (Z.ltb_spec (len b) size); [by left|].
    rewrite length_app. replace (Z.of_nat _ <? size) with false by lia.
    by rewrite take_app_le, drop_app_le by lia.
  - destruct (Z.ltb_spec (len b) 2); [by left|].
    rewrite length_app. replace (Z.of_nat _ <? 2) with false by lia.
    rewrite take_app_le, drop_app_le by lia. by destruct (bool_decide (ztake 2 b = bCRLF)).
  - destruct (starts_with bCRLF b) eqn:E.
    { right. by rewrite (starts_with_mono _ _ x E). }
    destruct (find_subsequence b bCRLF2) as [i|] eqn:Ei; [|by left].
    right. rewrite (find_subsequence_mono _ _ x _ Ei). by case_match.
  - by left.
  - by left.
Qed.

Lemma run_more d x :
  run (more d x) =
  match run d with
  | (d1, Ok o) =>
      if bool_decide (cstate d1 = Done) then
        if bool_decide (cstate d = Done) then (more d x, Ok []) else (d1, Ok o)
      else let '(d2, r) := run (more d1 x) in (d2, (fun o' => o ++ o') <$> r)
  | (d1, r) => (d1, r)
  end.
Proof.
  induction d as [d IH] using run_ind. rewrite (push_loop_unfold d).
  pose proof (push_pass_more d x) as Hp.
  destruct (push_pass d) as [d'|d' o|d' e] eqn:E.
  - destruct Hp as [->|[-> Hp]].
    + destruct (bool_decide (cstate d = Done)) eqn:Ed.
      * apply bool_decide_eq_true in Ed. rewrite push_loop_unfold.
        unfold push_pass, more at 1. cbn [cstate]. by rewrite Ed.
      * by destruct (run (more d x)) as [? []].
    + rewrite push_loop_unfold, Hp. cbn.
      destruct (bool_decide (cstate d = Done)) eqn:Ed; [|done].
      apply bool_decide_eq_true in Ed. unfold push_pass in E. rewrite Ed in E.
      injection E as ->. cbn in Hp. injection Hp as ->. done.
  - rewrite push_loop_unfold, Hp, (IH d' o eq_refl).
    assert (Hd : cstate d <> Done /\ cstate d' <> Done).
    { destruct d as [b []]; unfold push_pass in E; cbn in E; repeat case_match; by simplify_eq/=. }
    destruct Hd as [Hd Hd'].
    rewrite (bool_decide_eq_false_2 _ Hd), (bool_decide_eq_false_2 _ Hd').
    destruct (run d') as [d1 [o1|e|]]; cbn; [|done..].
    destruct (bool_decide (cstate d1 = Done)); cbn; [done|].
    destruct (run (more d1 x)) as [d2 []]; cbn; [|done..]. by rewrite app_assoc.
  - by rewrite push_loop_unfold, Hp.
Qed.

Lemma run_not_failed d d1 o :
  cstate d <> Failed -> run d = (d1, Ok o) -> cstate d1 <> Failed.
Proof.
  revert d1 o. induction d as [d IH] using run_ind. intros d1 o Hd.
  rewrite push_loop_unfold. destruct (push_pass d) as [d'|d' o'|d' e] eqn:E; [| |done].
  - intros [= <- <-]. destruct d as [b []]; unfold push_pass in E; cbn in *;
      repeat case_match; by simplify_eq/=.
  - destruct (run d') as [d2 [o2|e|]] eqn:E2; cbn; [|done..]. intros [= <- <-].
    eapply (IH d' o'); [done| |done].
    destruct d as [b []]; unfold push_pass in E; cbn in *; repeat case_match; by simplify_eq/=.
Qed.

Lemma push_run d bytes :
  cstate d <> Done -> cstate d <> Failed -> push d bytes = run (more d bytes).
Proof. unfold push, run, more. by destruct (cstate d). Qed.

(** Two pushes are one push of the concatenation. *)
Lemma push_app d a b :
  push d (a ++ b) =
  match push d a with
  | (d1, Ok o1) => let '(d2, r) := push d1 b in (d2, (fun o => o1 ++ o) <$> r)
  | (d1, r) => (d1, r)
  end.
Proof.
  destruct (decide (cstate d = Done)) as [Hd|Hd].
  { unfold push. rewrite Hd. cbn. by rewrite Hd. }
  destruct (decide (cstate d = Failed)) as [Hf|Hf].
  { unfold push. by rewrite Hf. }
  rewrite !push_run by done.
  replace (more d (a ++ b)) with (more (more d a) b)
    by (unfold more; cbn; by rewrite app_assoc).
  rewrite run_more. destruct (run (more d a)) as [d1 [o1|e|]] eqn:E; [|done..].
  rewrite (bool_decide_eq_false_2 (cstate (more d a) = Done)) by done.
  case_bool_decide as H1.
  - unfold push. rewrite H1. cbn. by rewrite app_nil_r.
  - rewrite push_run; [done..|]. eapply run_not_failed; [|done]. done.
Qed.

(** Pushing a body as the transport delivers it, piece by piece. *)
Fixpoint push_all (d : ChunkedDecoder) (pieces : list (list byte)) (out : list byte)
  : ChunkedDecoder * res HttpError (list byte) :=
  match pieces with
  | [] => (d, Ok out)
  | p :: pieces =>
      match push d p with
      | (d', Ok o) => push_all d' pieces (out ++ o)
      | (d', r) => (d', r)
      end
  end.

Lemma push_all_app pieces : forall p d out,
  push_all d (p :: pieces) out =
  let '(d', r) := push d (p ++ concat pieces) in (d', (fun o => out ++ o) <$> r).
Proof.
  induction pieces as [|q pieces IH]; intros p d out.
  - cbn [push_all concat]. rewrite app_nil_r. by destruct (push d p) as [d' [o|e|]].
  - change (push_all d (p :: q :: pieces) out) with
      (match push d p with
       | (d', Ok o) => push_all d' (q :: pieces) (out ++ o)
       | (d', r) => (d', r)
       end).
    rewrite push_app. destruct (push d p) as [d' [o|e|]]; [|done..].
    rewrite IH. cbn [concat]. destruct (push d' _) as [d2 []]; cbn; [|done..].
    by rewrite app_assoc.
Qed.

(** *** Incremental against one-shot *)

Lemma dechunk_loop_S fuel raw idx out :
  dechunk_loop (S fuel) raw idx out =
  if idx <? len raw then
    match find_subsequence (zdrop idx raw) bCRLF with
    | None => Err (BadChunkedBody MissingSizeLine)
    | Some p =>
        let line_end := idx + p in
        size ← parse_chunk_size (from_utf8_lossy (slice raw idx line_end));
        let idx := line_end + 2 in
        if size =? 0 then Ok out
        else match checked_add 64 idx size with
             | None => Err (BadChunkedBody TruncatedChunk)
             | Some data_end =>
                 if data_end >? len raw then Err (BadChunkedBody TruncatedChunk)
                 else if (len raw - data_end <? 2)
                         || negb (bool_decide (slice raw data_end (data_end + 2) = bCRLF))
                 then Err (BadChunkedBody MissingChunkTerminator)
                 else dechunk_loop fuel raw (data_end + 2) (out ++ slice raw idx data_end)
             end
    end
  else Err (BadChunkedBody MissingTerminalChunk).
Proof. done. Qed.

(** What the incremental decoder, run over all of [raw] from [idx], says of the
    one-shot decoder started there. *)
Definition agrees (one_shot : res HttpError (list byte)) (out : list byte)
  (inc : ChunkedDecoder * res HttpError (list byte)) : Prop :=
  match inc with
  | (d, Ok o) =>
      match cstate d with
      | Trailer | Done => one_shot = Ok (out ++ o)
      | _ => exists m, one_shot = Err (BadChunkedBody m)
      end
  | (_, Err e) => one_shot = Err e
  | (_, Panic) => False
  end.

Lemma parse_chunk_size_range line n : parse_chunk_size line = Ok n -> 0 <= n <= MAX_PAYLOAD.
Proof.
  unfold parse_chunk_size. destruct (parse_uint 16 64 _) as [v|] eqn:E; [|done].
  apply parse_uint_range in E; [|lia..].
  destruct (Z.gtb_spec v MAX_PAYLOAD); [done|]. intros. simplify_eq. lia.
Qed.

Lemma run_trailer b :
  exists d, run (mkChunkedDecoder b Trailer) = (d, Ok []) /\ (cstate d = Trailer \/ cstate d = Done).
Proof.
  rewrite push_loop_unfold. unfold push_pass. cbn [cbuf cstate].
  repeat case_match; simplify_eq; eauto.
Qed.

(** The two passes over a chunk's data and terminator. *)
Lemma run_data b size :
  run (mkChunkedDecoder b (Data size)) =
  if len b <? size then (mkChunkedDecoder b (Data size), Ok [])
  else
    let b1 := zdrop size b in
    if len b1 <? 2 then (mkChunkedDecoder b1 DataCrlf, Ok (ztake size b))
    else if bool_decide (ztake 2 b1 = bCRLF)
    then let '(d, r) := run (mkChunkedDecoder (zdrop 2 b1) Size) in
         (d, (fun o => ztake size b ++ o) <$> r)
    else (mkChunkedDecoder [] Failed, Err (BadChunkedBody MissingChunkTerminator)).
Proof.
  rewrite push_loop_unfold. unfold push_pass. cbn [cbuf cstate].
  destruct (len b <? size); [done|].
  rewrite push_loop_unfold. unfold push_pass. cbn [cbuf cstate]. cbv zeta.
  destruct (_ <? 2); cbn; [by rewrite app_nil_r|].
  destruct (bool_decide _); [|done]. by destruct (run _) as [? []].
Qed.

Lemma slice_zdrop {A} (l : list A) i n : slice l i (i + n) = ztake n (zdrop i l).
Proof. unfold slice. do 2 f_equal. lia. Qed.

Lemma zdrop_zdrop {A} (l : list A) i j : 0 <= i -> 0 <= j -> zdrop j (zdrop i l) = zdrop (i + j) l.
Proof. intros. rewrite drop_drop. f_equal. lia. Qed.

Lemma dechunk_loop_agrees fuel raw idx out :
  0 <= idx <= len raw -> len raw - idx < Z.of_nat fuel -> len raw < 2 ^ 64 ->
  agrees (dechunk_loop fuel raw idx out) out (run (mkChunkedDecoder (zdrop idx raw) Size)).
Proof.
  revert idx out. induction fuel as [|fuel IH]; intros idx out Hi Hf Hl; [lia|].
  rewrite dechunk_loop_S, push_loop_unfold. unfold push_pass. cbn [cbuf cstate].
  destruct (Z.ltb_spec idx (len raw)) as [Hlt|Hge].
  2:{ rewrite drop_ge by lia. by eexists. }
  destruct (find_subsequence (zdrop idx raw) bCRLF) as [p|] eqn:Ep; [|by eexists].
  apply find_subsequence_Some in Ep as (Hp0 & Hp1 & _).
  rewrite length_drop in Hp1. unfold bCRLF in Hp1. cbn [length] in Hp1.
  cbv zeta. rewrite slice_zdrop.
  destruct (parse_chunk_size _) as [size|e|] eqn:Es; [|done|]; cbn [mbind res_bind].
  2:{ exfalso. revert Es. unfold parse_chunk_size. by repeat case_match. }
  apply parse_chunk_size_range in Es as Hs. unfold MAX_PAYLOAD in Hs.
  destruct (Z.eqb_spec size 0) as [->|Hs0].
  { destruct (run_trailer (zdrop (p + 2) (zdrop idx raw))) as (d & -> & Hd). cbn.
    rewrite app_nil_r. by destruct Hd as [-> | ->]. }
  rewrite zdrop_zdrop by lia. rewrite run_data.
  replace (idx + (p + 2)) with (idx + p + 2) by lia. set (i1 := idx + p + 2) in *.
  rewrite length_drop. unfold checked_add.
  destruct (Z.ltb_spec (Z.of_nat (length raw - Z.to_nat i1)) size) as [Hshort|Hlong].
  { destruct (Z.ltb_spec (i1 + size) (2 ^ 64)); [|by eexists].
    replace (i1 + size >? len raw) with true by lia. by eexists. }
  replace (i1 + size <? 2 ^ 64) with true by lia.
  replace (i1 + size >? len raw) with false by lia.
  cbv zeta. rewrite zdrop_zdrop by lia. rewrite length_drop.
  replace (Z.of_nat (length raw - Z.to_nat (i1 + size)) <? 2)
    with (len raw - (i1 + size) <? 2) by lia.
  destruct (Z.ltb_spec (len raw - (i1 + size)) 2) as [H2|H2]; [by eexists|].
  rewrite !slice_zdrop. cbn [orb].
  destruct (bool_decide (ztake 2 (zdrop (i1 + size) raw) = bCRLF)); cbn [negb]; [|done].
  rewrite zdrop_zdrop by lia.
  specialize (IH (i1 + size + 2) (out ++ ztake size (zdrop i1 raw))).
  specialize (IH ltac:(lia) ltac:(lia) Hl). unfold agrees in *.
  destruct (run _) as [d [o|e|]]; cbn; [|done..]. by rewrite app_assoc.
Qed.

Lemma dechunk_agrees raw : len raw < 2 ^ 64 -> agrees (dechunk raw) [] (push chunked_new raw).
Proof.
  intros Hl. rewrite push_run by done.
  apply (dechunk_loop_agrees (S (length raw)) raw 0 []); lia.
Qed.

(** *** A reference encoder *)

(** One chunk, and a whole body without trailers, as RFC 9112 writes them. *)
Definition encode_chunk (data : list byte) : list byte :=
  into_bytes (to_hex (len data)) ++ bCRLF ++ data ++ bCRLF.
Definition encode_chunked (chunks : list (list byte)) : list byte :=
  concat (encode_chunk <$> chunks) ++ into_bytes (to_hex 0) ++ bCRLF ++ bCRLF.

Lemma find_crlf l r :
  Forall (fun b => b <> Byte.x0d) l -> find_subsequence (l ++ bCRLF ++ r) bCRLF = Some (len l).
Proof.
  intros Hl. unfold find_subsequence.
  assert (Hw : find_window bCRLF (l ++ bCRLF ++ r) = Some (len l)).
  { induction Hl as [|b l Hb Hl IH]; [done|]. cbn [app find_window].
    assert (Hs : starts_with bCRLF (b :: l ++ bCRLF ++ r) = false).
    { cbn. by rewrite bool_decide_eq_false_2 by congruence. }
    rewrite Hs, IH. cbn [fmap option_fmap option_map]. f_equal. cbn [length]. lia. }
  rewrite Hw. unfold bCRLF. rewrite !length_app. cbn [length].
  by replace (_ || _) with false by lia.
Qed.

Lemma size_line n r :
  0 <= n <= MAX_PAYLOAD ->
  let h := into_bytes (to_hex n) in
  find_subsequence (h ++ bCRLF ++ r) bCRLF = Some (len h) /\
  parse_chunk_size (from_utf8_lossy (ztake (len h) (h ++ bCRLF ++ r))) = Ok n /\
  zdrop (len h + 2) (h ++ bCRLF ++ r) = r.
Proof.
  intros Hn h. unfold MAX_PAYLOAD in Hn.
  pose proof (to_hex_digits n ltac:(lia)) as Hd.
  assert (Hascii : Forall is_ascii (to_hex n)).
  { eapply Forall_impl; [|exact Hd]. intros c. unfold is_ascii. cbn. lia. }
  split_and!.
  - apply find_crlf. unfold h. rewrite into_bytes_ascii by done.
    apply Forall_fmap. eapply Forall_impl; [|exact Hd]. intros c Hc. cbn in *.
    intros E%(f_equal u8). rewrite u8_as_u8, Z.mod_small in E by lia.
    change (u8 Byte.x0d) with 13 in E. lia.
  - rewrite Nat2Z.id, take_app_length. unfold h.
    rewrite from_utf8_lossy_into_bytes by by apply ascii_scalars.
    unfold parse_chunk_size. rewrite split_char_none.
    2:{ eapply Forall_impl; [|exact Hd]. cbn. lia. }
    change (default [] (head [to_hex n])) with (to_hex n). rewrite trim_none.
    2:{ eapply Forall_impl; [|exact Hd]. intros c. unfold is_whitespace, between. cbn. lia. }
    rewrite parse_to_hex by lia. unfold MAX_PAYLOAD.
    by replace (n >? _) with false by lia.
  - rewrite Z2Nat.inj_add, Nat2Z.id, <- drop_drop, drop_app_length by lia. done.
Qed.

Lemma run_encode_chunk data rest :
  0 < len data <= MAX_PAYLOAD ->
  run (mkChunkedDecoder (encode_chunk data ++ rest) Size) =
  let '(d, r) := run (mkChunkedDecoder rest Size) in (d, (fun o => data ++ o) <$> r).
Proof.
  intros Hd. unfold encode_chunk. rewrite <- !app_assoc.
  destruct (size_line (len data) (data ++ bCRLF ++ rest) ltac:(lia)) as (Hf & Hp & Hz).
  rewrite push_loop_unfold. unfold push_pass. cbn [cbuf cstate].
  rewrite Hf, Hp, Hz. replace (len data =? 0) with false by lia.
  rewrite run_data. rewrite length_app.
  replace (Z.of_nat _ <? len data) with false by lia. cbv zeta.
  rewrite Nat2Z.id, take_app_length, drop_app_length.
  change (ztake 2 (bCRLF ++ rest)) with bCRLF. change (zdrop 2 (bCRLF ++ rest)) with rest.
  rewrite length_app. replace (Z.of_nat _ <? 2) with false by (cbn; lia).
  rewrite bool_decide_eq_true_2 by done. by destruct (run _) as [? []].
Qed.

Lemma run_encode_chunked chunks :
  Forall (fun c => 0 < len c <= MAX_PAYLOAD) chunks ->
  run (mkChunkedDecoder (encode_chunked chunks) Size) = (mkChunkedDecoder [] Done, Ok (concat chunks)).
Proof.
  unfold encode_chunked. induction 1 as [|c chunks Hc Hcs IH].
  - reflexivity.
  - cbn [fmap list_fmap concat]. rewrite <- app_assoc, run_encode_chunk, IH by done. done.
Qed.

(** ** Properties *)

(** Chunked decoding does not depend on how the transport cuts the body: any
    split of an encoded body into pieces decodes to the concatenation of its
    chunks and leaves the decoder complete, with nothing buffered. *)
Theorem chunked_roundtrip chunks p pieces :
  Forall (fun c => 0 < len c <= MAX_PAYLOAD) chunks ->
  concat (p :: pieces) = encode_chunked chunks ->
  push_all chunked_new (p :: pieces) [] = (mkChunkedDecoder [] Done, Ok (concat chunks)).
Proof.
  intros Hc Hp. rewrite push_all_app. cbn [concat] in Hp. rewrite Hp, push_run by done.
  unfold more, chunked_new. cbn [cbuf cstate app].
  by rewrite run_encode_chunked.
Qed.

Lemma chunked_roundtrip_witness :
  push_all chunked_new
    [blit "5"; bCRLF ++ blit "he"; blit "llo" ++ [Byte.x0d]; [Byte.x0a] ++ blit "3" ++ bCRLF;
     blit "abc" ++ bCRLF ++ blit "0" ++ bCRLF; bCRLF] []
  = (mkChunkedDecoder [] Done, Ok (concat [blit "hello"; blit "abc"])).
Proof.
  apply chunked_roundtrip.
  - repeat constructor; vm_compute; congruence.
  - reflexivity.
Defined.

(** The incremental decoder and the one-shot decoder agree on every body
    that fits in memory: when the incremental decoder reaches the trailer the
    one-shot decoder returns the same bytes; when it is still waiting for input
    the one-shot decoder reports a malformed body; when it fails the one-shot
    decoder fails with the same error. *)
Theorem dechunk_agrees_with_push raw :
  len raw < 2 ^ 64 ->
  match push chunked_new raw with
  | (d, Ok out) =>
      match cstate d with
      | Trailer | Done => dechunk raw = Ok out
      | _ => exists m, dechunk raw = Err (BadChunkedBody m)
      end
  | (_, Err e) => dechunk raw = Err e
  | (_, Panic) => False
  end.
Proof.
  exact (dechunk_agrees raw).
Qed.

Lemma dechunk_agrees_with_push_witness :
  let raw := blit "2;ext" ++ bCRLF ++ blit "ab" ++ bCRLF ++ blit "0" ++ bCRLF in
  push chunked_new raw = (mkChunkedDecoder [] Trailer, Ok (blit "ab")) /\ dechunk raw = Ok (blit "ab").
Proof.
  intros raw. split; [reflexivity|].
  exact (dechunk_agrees_with_push raw ltac:(vm_compute; congruence)).
Defined.
