(* ===== verification/Window.v ===== *)
(** * Receive credit ([RecvWindow] of [crates/spl-core/src/mux.rs])

    The receive side of one mux stream's flow control, and the error type the
    mux state machines share. *)

From S2P Require Import Prelude Frame Text Http.

Definition INITIAL_WINDOW : Z := 2 ^ 20.
Definition RECEIVE_GRANT_THRESHOLD : Z := INITIAL_WINDOW / 2.
Definition MAX_ASSEMBLED_BYTES : Z := 4 * 1024 * 1024.

Inductive MuxError :=
| MuxFrame (e : FrameError)
| StreamReset
| Incomplete
| MuxHttp (e : HttpError)
| CapExceeded
| FlowControl
| Protocol (v : FrameViolation).

#[export] Instance MuxError_eq_dec : EqDecision MuxError.
Proof. solve_decision. Defined.

Record RecvWindow := mkRecvWindow { credit : Z; unacked : Z }.

#[export] Instance RecvWindow_eq_dec : EqDecision RecvWindow.
Proof. solve_decision. Defined.

(** [RecvWindow::new] *)
Definition window_new : RecvWindow := mkRecvWindow INITIAL_WINDOW 0.

(** [RecvWindow::debit] *)
Definition debit (w : RecvWindow) (wire_len : Z) : RecvWindow * res MuxError unit :=
  if wire_len >? credit w then (w, Err FlowControl)
  else (mkRecvWindow (credit w - wire_len) (unacked w), Ok tt).

(** [RecvWindow::consume].  The two [expect]s and the [assert!] are the
    [Panic] outcomes; the [u64] additions cannot overflow because the
    assertion bounds them by [INITIAL_WINDOW]. *)
Definition consume (w : RecvWindow) (bytes : Z) : RecvWindow * res MuxError (option Z) :=
  match checked_sub INITIAL_WINDOW (credit w) ≫= (fun v => checked_sub v (unacked w)) with
  | None => (w, Panic)
  | Some outstanding =>
      if bytes <=? outstanding then
        let u := unacked w + bytes in
        if u <? RECEIVE_GRANT_THRESHOLD then (mkRecvWindow (credit w) u, Ok None)
        else if u <? 2 ^ 32 then (mkRecvWindow (credit w + u) 0, Ok (Some u))
        else (mkRecvWindow (credit w) u, Panic)
      else (w, Panic)
  end.

(** ** Lemmas *)

(** Debited bytes the local consumer still holds. *)
Definition outstanding (w : RecvWindow) : Z := INITIAL_WINDOW - credit w - unacked w.

Definition wf_window (w : RecvWindow) : Prop :=
  0 <= credit w /\ 0 <= unacked w < RECEIVE_GRANT_THRESHOLD /\ 0 <= outstanding w.

(** Bytes a [consume] outcome grants back to the peer. *)
Definition granted (g : option Z) : Z := match g with Some x => x | None => 0 end.

Ltac window_arith :=
  unfold wf_window, outstanding, granted in *;
  change RECEIVE_GRANT_THRESHOLD with 524288 in *;
  change INITIAL_WINDOW with 1048576 in *; cbn [credit unacked] in *; lia.

Lemma wf_window_new : wf_window window_new.
Proof. unfold window_new. window_arith. Qed.

Lemma debit_ok w n :
  wf_window w -> 0 <= n <= credit w ->
  exists w', debit w n = (w', Ok tt) /\ wf_window w' /\
             credit w' = credit w - n /\ outstanding w' = outstanding w + n.
Proof.
  intros Hw Hn. unfold debit. replace (n >? credit w) with false by lia.
  eexists. split; [done|]. split_and!; window_arith.
Qed.

Lemma debit_err w n : credit w < n -> debit w n = (w, Err FlowControl).
Proof. intros. unfold debit. by replace (n >? credit w) with true by lia. Qed.

Lemma consume_ok w n :
  wf_window w -> 0 <= n <= outstanding w ->
  exists w' g, consume w n = (w', Ok g) /\ wf_window w' /\
    credit w' = credit w + granted g /\ outstanding w' = outstanding w - n /\
    match g with
    | Some x => x = unacked w + n /\ RECEIVE_GRANT_THRESHOLD <= x <= INITIAL_WINDOW /\ unacked w' = 0
    | None => unacked w' = unacked w + n
    end.
Proof.
  intros Hw Hn. unfold consume, checked_sub.
  replace (credit w <=? INITIAL_WINDOW) with true by window_arith. cbn [mbind option_bind].
  replace (unacked w <=? INITIAL_WINDOW - credit w) with true by window_arith.
  replace (n <=? INITIAL_WINDOW - credit w - unacked w) with true by window_arith. cbv zeta.
  destruct (Z.ltb_spec (unacked w + n) RECEIVE_GRANT_THRESHOLD) as [Ht|Ht].
  - do 2 eexists. split; [done|]. split_and!; window_arith.
  - replace (unacked w + n <? 2 ^ 32) with true by window_arith.
    do 2 eexists. split; [done|]. split_and!; window_arith.
Qed.

(** Asking for more than was debited is the documented panic. *)
Lemma consume_panics w n :
  wf_window w -> outstanding w < n -> consume w n = (w, Panic).
Proof.
  intros Hw Hn. unfold consume, checked_sub.
  replace (credit w <=? INITIAL_WINDOW) with true by window_arith. cbn [mbind option_bind].
  replace (unacked w <=? INITIAL_WINDOW - credit w) with true by window_arith.
  by replace (n <=? INITIAL_WINDOW - credit w - unacked w) with false by window_arith.
Qed.

#[export] Hint Resolve wf_window_new : spl.

Lemma debit_cases w n :
  wf_window w -> 0 <= n ->
  match debit w n with
  | (w', Ok tt) => wf_window w' /\ outstanding w' = outstanding w + n
  | (w', Err e) => w' = w /\ e = FlowControl /\ credit w < n
  | (_, Panic) => False
  end.
Proof.
  intros Hw Hn. destruct (decide (n <= credit w)) as [Hc|Hc].
  - destruct (debit_ok w n Hw) as (w' & -> & ? & _ & ?); [lia|]. done.
  - rewrite debit_err by lia. split_and!; [done..|lia].
Qed.
