(* ===== verification/Upload.v ===== *)
(** * Request upload ([WindowedUpload] of [crates/spl-core/src/mux.rs])

    The send side of one dialer stream: a request head and an incrementally fed
    body leave as [OPEN|DATA], [DATA]... and a final [CLOSE], within the credit
    the peer has granted. *)

From S2P Require Import Prelude Frame Text Http Window.

Definition UPLOAD_BODY_STAGE_CAPACITY : Z := 256 * 1024.

Inductive UploadBodyError :=
| DeclaredLengthExceeded
| StageCapacityExceeded.

Record WindowedUpload := mkUpload {
  up_stream_id : Z;
  up_head : list byte;
  head_offset : Z;
  up_body : list byte;
  declared_body_len : Z;
  fed_body_len : Z;
  emitted_body_len : Z;
  send_credit : Z;
  opened : bool;
  up_closed : bool
}.

(** [WindowedUpload::new] *)
Definition upload_new (sid : Z) (request_head : list byte) (declared : Z) : WindowedUpload :=
  mkUpload sid request_head 0 [] declared 0 0 INITIAL_WINDOW false false.

(** [WindowedUpload::body_capacity] *)
Definition body_capacity (u : WindowedUpload) : res UploadBodyError Z :=
  stage ← usub UPLOAD_BODY_STAGE_CAPACITY (len (up_body u));
  remaining ← usub (declared_body_len u) (fed_body_len u);
  Ok (Z.min stage remaining).

(** [WindowedUpload::feed_body] *)
Definition feed_body (u : WindowedUpload) (bytes : list byte)
  : WindowedUpload * res UploadBodyError unit :=
  match usub (E := UploadBodyError) (declared_body_len u) (fed_body_len u) with
  | Ok declared_remaining =>
      if len bytes >? declared_remaining then (u, Err DeclaredLengthExceeded)
      else match usub (E := UploadBodyError) UPLOAD_BODY_STAGE_CAPACITY (len (up_body u)) with
           | Ok stage =>
               if len bytes >? stage then (u, Err StageCapacityExceeded)
               else (mkUpload (up_stream_id u) (up_head u) (head_offset u) (up_body u ++ bytes)
                       (declared_body_len u) (fed_body_len u + len bytes) (emitted_body_len u)
                       (send_credit u) (opened u) (up_closed u), Ok tt)
           | _ => (u, Panic)
           end
  | _ => (u, Panic)
  end.

(** [WindowedUpload::grant] *)
Definition grant (u : WindowedUpload) (c : Z) : WindowedUpload * res FrameViolation unit :=
  let violation := mkFrameViolation (up_stream_id u) FLAG_WINDOW 4 in
  match checked_add 64 (send_credit u) c with
  | None => (u, Err violation)
  | Some next =>
      if next >? 2 ^ 31 - 1 then (u, Err violation)
      else (mkUpload (up_stream_id u) (up_head u) (head_offset u) (up_body u)
              (declared_body_len u) (fed_body_len u) (emitted_body_len u)
              next (opened u) (up_closed u), Ok tt)
  end.

(** [WindowedUpload::poll_send] *)
Definition poll_send (u : WindowedUpload) : WindowedUpload * res FrameError (option (list byte)) :=
  match usub (E := FrameError) (len (up_head u)) (head_offset u) with
  | Ok head_remaining =>
      let available := if head_remaining >? 0 then head_remaining else len (up_body u) in
      if available >? 0 then
        if send_credit u =? 0 then (u, Ok None)
        else
          let n := Z.min (Z.min (Z.min available RECOMMENDED_CHUNK) MAX_PAYLOAD) (send_credit u) in
          let chunk :=
            if head_remaining >? 0 then slice (up_head u) (head_offset u) (head_offset u + n)
            else ztake n (up_body u) in
          let fl := if opened u then FLAG_DATA else Z.lor FLAG_OPEN FLAG_DATA in
          let u' :=
            if head_remaining >? 0
            then mkUpload (up_stream_id u) (up_head u) (head_offset u + n) (up_body u)
                   (declared_body_len u) (fed_body_len u) (emitted_body_len u)
                   (send_credit u - n) true (up_closed u)
            else mkUpload (up_stream_id u) (up_head u) (head_offset u) (zdrop n (up_body u))
                   (declared_body_len u) (fed_body_len u) (emitted_body_len u + n)
                   (send_credit u - n) true (up_closed u) in
          (u', Some <$> encode (mkFrame (up_stream_id u) fl chunk))
      else if negb (up_closed u) && (fed_body_len u =? declared_body_len u)
              && (emitted_body_len u =? declared_body_len u) then
        (mkUpload (up_stream_id u) (up_head u) (head_offset u) (up_body u)
           (declared_body_len u) (fed_body_len u) (emitted_body_len u)
           (send_credit u) (opened u) true,
         Some <$> encode (mkFrame (up_stream_id u) FLAG_CLOSE []))
      else (u, Ok None)
  | _ => (u, Panic)
  end.

(** [WindowedUpload::is_done] *)
Definition is_done (u : WindowedUpload) : bool := up_closed u.

(** [WindowedUpload::is_blocked] *)
Definition is_blocked (u : WindowedUpload) : bool :=
  negb (up_closed u) && (send_credit u =? 0)
  && ((head_offset u <? len (up_head u)) || negb (len (up_body u) =? 0)).

(** ** Runs *)

(** The calls a transport makes. *)
Inductive upload_op :=
| Feed (bytes : list byte)
| Grant (c : Z)
| Poll.

(** What a run has done so far: the frames written, the body bytes accepted and
    the credit accepted. *)
Record upload_log := mkLog {
  sent : list (list byte);
  fed : list byte;
  grants : Z
}.

Definition log_new : upload_log := mkLog [] [] 0.

(** One call; [None] when it panics or cannot encode.  A refused [feed_body]
    or [grant] leaves the run unchanged, as the callers' error paths do. *)
Definition upload_step (u : WindowedUpload) (l : upload_log) (op : upload_op)
  : option (WindowedUpload * upload_log) :=
  match op with
  | Feed bytes =>
      match feed_body u bytes with
      | (u', Ok _) => Some (u', mkLog (sent l) (fed l ++ bytes) (grants l))
      | (u', Err _) => Some (u', l)
      | (_, Panic) => None
      end
  | Grant c =>
      match grant u c with
      | (u', Ok _) => Some (u', mkLog (sent l) (fed l) (grants l + c))
      | (u', Err _) => Some (u', l)
      | (_, Panic) => None
      end
  | Poll =>
      match poll_send u with
      | (u', Ok (Some w)) => Some (u', mkLog (sent l ++ [w]) (fed l) (grants l))
      | (u', Ok None) => Some (u', l)
      | (_, _) => None
      end
  end.

Fixpoint upload_run (u : WindowedUpload) (l : upload_log) (ops : list upload_op)
  : option (WindowedUpload * upload_log) :=
  match ops with
  | [] => Some (u, l)
  | op :: ops => '(u', l') ← upload_step u l op; upload_run u' l' ops
  end.

(** ** Invariant *)

(** The flags of the DATA frames of a run: the first one opens the stream. *)
Definition data_flags (n : nat) : list Z :=
  match n with
  | O => []
  | S n => Z.lor FLAG_OPEN FLAG_DATA :: replicate n FLAG_DATA
  end.

Definition payloads (fs : list Frame) : list byte := concat (payload <$> fs).

(** [ds] are the DATA frames already sent. *)
Record upload_inv (head : list byte) (declared sid : Z)
  (u : WindowedUpload) (l : upload_log) (ds : list Frame) : Prop := {
  inv_head : up_head u = head;
  inv_sid : up_stream_id u = sid;
  inv_declared : declared_body_len u = declared;
  inv_offset : 0 <= head_offset u <= len head;
  inv_stage : len (up_body u) <= UPLOAD_BODY_STAGE_CAPACITY;
  inv_fed : fed_body_len u = len (fed l) /\ len (fed l) <= declared;
  inv_emitted : 0 <= emitted_body_len u /\ emitted_body_len u <= len (fed l);
  inv_body : up_body u = zdrop (emitted_body_len u) (fed l);
  inv_order : emitted_body_len u = 0 \/ head_offset u = len head;
  inv_payload : payloads ds = ztake (head_offset u) head ++ ztake (emitted_body_len u) (fed l);
  inv_credit : 0 <= send_credit u < 2 ^ 31 /\
               send_credit u + len (payloads ds) = INITIAL_WINDOW + grants l;
  inv_frames : Forall (fun f => wf_frame f /\ stream_id f = sid /\ 0 < len (payload f)) ds;
  inv_opened : opened u = negb (bool_decide (ds = []));
  inv_closed : up_closed u = true ->
               head_offset u = len head /\ emitted_body_len u = declared;
  inv_sent : sent l = wire <$> ds ++ (if up_closed u then [mkFrame sid FLAG_CLOSE []] else []);
  inv_flags : flags <$> ds = data_flags (length ds)
}.

Section upload.
Context (head : list byte) (declared sid : Z).
Context (Hsid : is_u32 sid) (Hdeclared : is_usize declared).

Lemma upload_inv_new : upload_inv head declared sid (upload_new sid head declared) log_new [].
Proof.
  unfold in_range in *. constructor; cbn; try done; lia.
Qed.

Lemma feed_body_inv u l ds bytes :
  upload_inv head declared sid u l ds ->
  exists u' l', upload_step u l (Feed bytes) = Some (u', l') /\
                upload_inv head declared sid u' l' ds.
Proof.
  intros I. pose proof I as []. unfold upload_step, feed_body, usub, checked_sub.
  unfold in_range in *. destruct inv_fed0 as [Hf1 Hf2].
  replace (fed_body_len u <=? declared_body_len u) with true by lia. cbn [expect].
  destruct (Z.gtb_spec (len bytes) (declared_body_len u - fed_body_len u)); [by eauto|].
  replace (len (up_body u) <=? UPLOAD_BODY_STAGE_CAPACITY) with true by lia. cbn [expect].
  destruct (Z.gtb_spec (len bytes) (UPLOAD_BODY_STAGE_CAPACITY - len (up_body u)));
    [by eauto|].
  do 2 eexists. split; [done|].
  constructor; cbn; rewrite ?length_app; try done; try lia.
  - rewrite inv_body0. by rewrite drop_app_le by lia.
  - rewrite inv_payload0. by rewrite take_app_le by lia.
Qed.

Lemma grant_inv u l ds c :
  upload_inv head declared sid u l ds -> 0 <= c ->
  exists u' l', upload_step u l (Grant c) = Some (u', l') /\
                upload_inv head declared sid u' l' ds.
Proof.
  intros I Hc. pose proof I as []. unfold upload_step, grant, checked_add.
  destruct (Z.ltb_spec (send_credit u + c) (2 ^ 64)); [|by eauto].
  destruct (Z.gtb_spec (send_credit u + c) (2 ^ 31 - 1)); [by eauto|].
  do 2 eexists. split; [done|]. constructor; cbn; try done; try lia.
Qed.

Lemma data_flags_snoc n :
  data_flags (S n) = data_flags n ++ [if decide (n = O) then Z.lor FLAG_OPEN FLAG_DATA else FLAG_DATA].
Proof.
  destruct n as [|n]; [done|]. cbn [data_flags app].
  rewrite decide_False by done. f_equal. apply replicate_S_end.
Qed.

Lemma payloads_snoc ds f : payloads (ds ++ [f]) = payloads ds ++ payload f.
Proof. unfold payloads. rewrite fmap_app, concat_app. cbn. by rewrite app_nil_r. Qed.

Lemma take_snoc_slice (l : list byte) i n :
  0 <= i -> 0 <= n -> ztake (i + n) l = ztake i l ++ slice l i (i + n).
Proof.
  intros. unfold slice. rewrite Z2Nat.inj_add by done.
  replace (Z.to_nat (i + n - i)) with (Z.to_nat n) by lia.
  symmetry. apply take_take_drop.
Qed.

Definition next_flag (u : WindowedUpload) : Z :=
  if opened u then FLAG_DATA else Z.lor FLAG_OPEN FLAG_DATA.

Lemma next_flag_ok u l ds :
  upload_inv head declared sid u l ds ->
  (flags <$> ds) ++ [next_flag u] = data_flags (S (length ds)) /\ 0 <= next_flag u < 128.
Proof.
  intros []. rewrite data_flags_snoc, inv_flags0. unfold next_flag. rewrite inv_opened0.
  destruct ds; [by vm_compute|]. rewrite bool_decide_eq_false_2, decide_False by done.
  by vm_compute.
Qed.

Lemma inv_not_closed u l ds :
  upload_inv head declared sid u l ds ->
  head_offset u < len head \/ up_body u <> [] -> up_closed u = false.
Proof.
  intros [] Hav. destruct (up_closed u) eqn:Hc; [|done].
  destruct (inv_closed0 eq_refl) as [H1 H2]. destruct Hav as [Hav|Hav]; [lia|].
  apply (f_equal length) in inv_body0. rewrite length_drop in inv_body0.
  destruct (up_body u); [done|cbn in *; lia].
Qed.

Lemma data_frame_wf u l ds chunk :
  upload_inv head declared sid u l ds -> len chunk <= MAX_PAYLOAD ->
  wf_frame (mkFrame sid (next_flag u) chunk).
Proof.
  intros I Hc. destruct (next_flag_ok u l ds I) as [_ Hf].
  unfold wf_frame. cbn. split_and!; lia || apply Hsid.
Qed.

(** The upload and the log after a DATA frame. *)
Definition after_data (u : WindowedUpload) (off : Z) (b : list byte) (em n : Z) : WindowedUpload :=
  mkUpload (up_stream_id u) (up_head u) off b (declared_body_len u) (fed_body_len u) em
    (send_credit u - n) true (up_closed u).
Definition log_data (l : upload_log) (f : Frame) : upload_log :=
  mkLog (sent l ++ [wire f]) (fed l) (grants l).

(** Whatever part of the input a frame is cut from, the invariant asks only
    that it continue the payload. *)
Lemma inv_emit u l ds off b em chunk :
  upload_inv head declared sid u l ds -> up_closed u = false ->
  0 < len chunk <= MAX_PAYLOAD -> len chunk <= send_credit u ->
  0 <= off <= len head -> 0 <= em <= len (fed l) -> em = 0 \/ off = len head ->
  len b <= UPLOAD_BODY_STAGE_CAPACITY -> b = zdrop em (fed l) ->
  payloads ds ++ chunk = ztake off head ++ ztake em (fed l) ->
  let f := mkFrame sid (next_flag u) chunk in
  upload_inv head declared sid (after_data u off b em (len chunk)) (log_data l f) (ds ++ [f]).
Proof.
  intros I Ho Hc Hcr Hoff Hem Hor Hb Hbd Hp f.
  destruct (next_flag_ok u l ds I) as [Hfl _].
  pose proof (data_frame_wf u l ds chunk I ltac:(lia)) as Hw. fold f in Hw.
  destruct I. constructor; cbn; rewrite ?payloads_snoc, ?length_app; cbn; rewrite ?Ho;
    try done; try lia.
  - apply Forall_app. split; [done|]. constructor; [|done]. split_and!; [done..|cbn; lia].
  - rewrite bool_decide_eq_false_2; [done|]. by destruct ds.
  - rewrite inv_sent0, Ho. by rewrite !app_nil_r, fmap_app.
  - rewrite fmap_app. cbn. rewrite Hfl. f_equal. lia.
Qed.

(** A poll with credit and something to send takes one frame from the head,
    or from the body once the head is out. *)
Lemma poll_data u l ds :
  upload_inv head declared sid u l ds -> send_credit u <> 0 ->
  head_offset u < len head \/ up_body u <> [] ->
  exists u' l' f, upload_step u l Poll = Some (u', l') /\
    upload_inv head declared sid u' l' (ds ++ [f]).
Proof.
  intros I Hcr Hav. pose proof (inv_not_closed u l ds I Hav) as Ho. pose proof I as [].
  unfold upload_step, poll_send, usub, checked_sub. rewrite inv_head0, inv_sid0.
  replace (head_offset u <=? len head) with true by lia. cbn [expect].
  assert (Hbl : len (up_body u) = len (fed l) - emitted_body_len u)
    by (rewrite inv_body0; apply len_drop; lia).
  assert (Hne : up_body u <> [] -> 0 < len (up_body u)) by (destruct (up_body u); cbn; [done|lia]).
  fold (next_flag u). cbv zeta.
  destruct (Z.gtb_spec (len head - head_offset u) 0) as [Hh|Hh].
  - replace (len head - head_offset u >? 0) with true by lia.
    replace (send_credit u =? 0) with false by lia.
    set (n := Z.min _ (send_credit u)).
    assert (Hn : 0 < n <= MAX_PAYLOAD /\ n <= send_credit u /\ head_offset u + n <= len head)
      by (unfold n, MAX_PAYLOAD, RECOMMENDED_CHUNK; lia). clearbody n.
    set (chunk := slice head (head_offset u) (head_offset u + n)).
    assert (Hc : len chunk = n) by (unfold chunk; rewrite len_slice; lia).
    rewrite (encode_ok _ (data_frame_wf u l ds chunk I ltac:(lia))). cbn.
    assert (R := inv_emit u l ds (head_offset u + n) (up_body u) (emitted_body_len u) chunk I Ho).
    unfold after_data in R. rewrite inv_head0, inv_sid0, Hc in R.
    do 3 eexists. split; [done|]. apply R; try done; try lia.
    destruct inv_order0 as [Hem|]; [|lia].
    rewrite inv_payload0, Hem, (take_snoc_slice head) by lia. by rewrite !app_nil_r.
  - replace (len (up_body u) >? 0) with true by (destruct Hav; lia).
    replace (send_credit u =? 0) with false by lia.
    set (n := Z.min _ (send_credit u)).
    assert (Hn : 0 < n <= MAX_PAYLOAD /\ n <= send_credit u /\ n <= len (up_body u))
      by (unfold n, MAX_PAYLOAD, RECOMMENDED_CHUNK; destruct Hav; lia). clearbody n.
    set (chunk := ztake n (up_body u)).
    assert (Hc : len chunk = n) by (unfold chunk; rewrite len_take; lia).
    rewrite (encode_ok _ (data_frame_wf u l ds chunk I ltac:(lia))). cbn.
    assert (R := inv_emit u l ds (head_offset u) (zdrop n (up_body u))
      (emitted_body_len u + n) chunk I Ho).
    unfold after_data in R. rewrite inv_head0, inv_sid0, Hc in R.
    do 3 eexists. split; [done|]. apply R; try done; try lia.
    + rewrite length_drop. lia.
    + by rewrite inv_body0, zdrop_zdrop by lia.
    + rewrite inv_payload0, <- app_assoc, (take_snoc_slice (fed l)) by lia. f_equal. f_equal.
      unfold chunk. by rewrite inv_body0, slice_zdrop.
Qed.

Lemma inv_payload_len u l ds :
  upload_inv head declared sid u l ds -> len (payloads ds) = head_offset u + emitted_body_len u.
Proof. intros []. rewrite inv_payload0, length_app, !length_take. lia. Qed.

(** With nothing left to cut, a poll closes the stream once. *)
Lemma poll_end u l ds :
  upload_inv head declared sid u l ds -> head_offset u = len head -> up_body u = [] ->
  exists u' l', upload_step u l Poll = Some (u', l') /\ upload_inv head declared sid u' l' ds /\
    up_closed u' = (len (fed l) =? declared).
Proof.
  intros I Hh Hb. pose proof I as [].
  assert (He : emitted_body_len u = len (fed l)).
  { apply (f_equal length) in inv_body0. rewrite Hb, length_drop in inv_body0. cbn in *. lia. }
  unfold upload_step, poll_send, usub, checked_sub. rewrite inv_head0, Hh, Hb.
  replace (len head <=? len head) with true by lia. cbn [expect].
  replace (len head - len head >? 0) with false by lia. cbn [length].
  replace (Z.of_nat 0 >? 0) with false by done.
  destruct (up_closed u) eqn:Hc; cbn [negb andb].
  { destruct (inv_closed0 eq_refl). do 2 eexists. split_and!; [done..|lia]. }
  destruct (Z.eqb_spec (fed_body_len u) (declared_body_len u)) as [Hd|Hd]; cbn [andb].
  - replace (emitted_body_len u =? declared_body_len u) with true by lia.
    rewrite inv_sid0, encode_ok.
    2:{ unfold wf_frame. cbn. split_and!; try apply Hsid; done. }
    cbn. do 2 eexists. split_and!; [done| |cbn; lia].
    constructor; cbn; try done; try lia; try congruence.
    rewrite inv_sent0, app_nil_r, fmap_app. done.
  - do 2 eexists. split_and!; [done..|lia].
Qed.

Lemma poll_blocked u l ds :
  upload_inv head declared sid u l ds -> send_credit u = 0 ->
  head_offset u < len head \/ up_body u <> [] -> upload_step u l Poll = Some (u, l).
Proof.
  intros [] Hcr Hav. unfold upload_step, poll_send, usub, checked_sub.
  rewrite inv_head0, Hcr. replace (head_offset u <=? len head) with true by lia. cbn [expect].
  destruct (Z.gtb_spec (len head - head_offset u) 0) as [Hh|Hh].
  - by replace (len head - head_offset u >? 0) with true by lia.
  - destruct Hav as [Hav|Hav]; [lia|]. destruct (up_body u); [done|].
    by replace (Z.of_nat (length _) >? 0) with true by (cbn; lia).
Qed.

Lemma upload_step_inv u l ds op :
  upload_inv head declared sid u l ds -> (forall c, op = Grant c -> 0 <= c) ->
  exists u' l' ds', upload_step u l op = Some (u', l') /\ upload_inv head declared sid u' l' ds'.
Proof.
  intros I Hg. destruct op as [bytes|c|].
  - destruct (feed_body_inv u l ds bytes I) as (u' & l' & ? & ?). eauto.
  - destruct (grant_inv u l ds c I (Hg c eq_refl)) as (u' & l' & ? & ?). eauto.
  - destruct (decide (head_offset u = len head /\ up_body u = [])) as [[Hh Hb]|Hn].
    + destruct (poll_end u l ds I Hh Hb) as (u' & l' & ? & ? & _). eauto.
    + assert (Hav : head_offset u < len head \/ up_body u <> []).
      { pose proof (inv_offset _ _ _ _ _ _ I). destruct (decide (up_body u = [])); [|by right].
        left. destruct (decide (head_offset u = len head)); [tauto|lia]. }
      destruct (decide (send_credit u = 0)) as [Hc|Hc].
      * rewrite (poll_blocked u l ds I Hc Hav). eauto.
      * destruct (poll_data u l ds I Hc Hav) as (u' & l' & f & ? & ?). eauto.
Qed.

Lemma upload_run_inv ops u l ds :
  upload_inv head declared sid u l ds -> Forall (fun op => forall c, op = Grant c -> 0 <= c) ops ->
  exists u' l' ds', upload_run u l ops = Some (u', l') /\ upload_inv head declared sid u' l' ds'.
Proof.
  intros I Hops. revert u l ds I. induction Hops as [|op ops Hop Hops IH]; intros u l ds I; cbn.
  - eauto.
  - destruct (upload_step_inv u l ds op I Hop) as (u1 & l1 & ds1 & -> & I1). cbn.
    by apply (IH u1 l1 ds1).
Qed.

Lemma polls_stay_closed k u l ds :
  upload_inv head declared sid u l ds -> up_closed u = true ->
  exists u' l' ds', upload_run u l (replicate k Poll) = Some (u', l') /\
    upload_inv head declared sid u' l' ds' /\ up_closed u' = true.
Proof.
  revert u l. induction k as [|k IH]; intros u l I Hc; cbn [replicate upload_run]; [by do 3 eexists|].
  pose proof I as []. destruct (inv_closed0 Hc) as [Hh He].
  assert (Hb : up_body u = []) by (rewrite inv_body0; apply drop_ge; lia).
  destruct (poll_end u l ds I Hh Hb) as (u' & l' & -> & I' & Hc'). cbn.
  apply (IH u' l' I'). rewrite Hc'. lia.
Qed.

(** Enough credit for what is left, and the whole body fed: polling reaches
    the close. *)
Lemma polls_close m u l ds :
  upload_inv head declared sid u l ds -> len (fed l) = declared ->
  len head + declared - len (payloads ds) <= Z.of_nat m ->
  len head + declared - len (payloads ds) <= send_credit u ->
  exists u' l' ds', upload_run u l (replicate (S m) Poll) = Some (u', l') /\
    upload_inv head declared sid u' l' ds' /\ up_closed u' = true.
Proof.
  revert u l ds. induction m as [|m IH]; intros u l ds I Hf Hm Hcr.
  all: pose proof (inv_payload_len u l ds I) as Hl; pose proof I as [].
  all: destruct (decide (head_offset u = len head /\ up_body u = [])) as [[Hh Hb]|Hn].
  all: cbn [replicate upload_run].
  - destruct (poll_end u l ds I Hh Hb) as (u' & l' & -> & I' & Hc). cbn.
    do 3 eexists. split_and!; [done..|]. rewrite Hc. lia.
  - exfalso. apply Hn. split; [lia|]. rewrite inv_body0. apply drop_ge. lia.
  - destruct (poll_end u l ds I Hh Hb) as (u' & l' & -> & I' & Hc). cbn.
    apply (polls_stay_closed (S m) u' l' ds I'). rewrite Hc. lia.
  - assert (Hav : head_offset u < len head \/ up_body u <> []).
    { destruct (decide (up_body u = [])); [|by right].
      left. destruct (decide (head_offset u = len head)); [tauto|lia]. }
    assert (Hrem : 0 < len head + declared - len (payloads ds)).
    { destruct Hav as [|Hav]; [lia|]. apply (f_equal length) in inv_body0.
      rewrite length_drop in inv_body0. destruct (up_body u); [done|cbn in *; lia]. }
    destruct (poll_data u l ds I ltac:(lia) Hav) as (u' & l' & f & Hs & I').
    assert (Hfed : fed l' = fed l /\ grants l' = grants l).
    { clear -Hs. unfold upload_step in Hs. repeat case_match; by simplify_eq. }
    rewrite Hs. cbn. pose proof (inv_frames _ _ _ _ _ _ I') as Hfr.
    apply Forall_app in Hfr as [_ Hfr]. apply Forall_cons_1 in Hfr as [(_ & _ & Hpl) _].
    pose proof (inv_credit _ _ _ _ _ _ I') as Hcr'. rewrite payloads_snoc, length_app in Hcr'.
    apply (IH u' l' (ds ++ [f]) I'); rewrite ?payloads_snoc, ?length_app; destruct Hfed; lia || congruence.
Qed.
End upload.

(** ** Properties *)

Definition grants_unsigned (ops : list upload_op) : Prop :=
  Forall (fun op => forall c, op = Grant c -> 0 <= c) ops.

(** Whatever a transport calls and in whatever order, an upload never
    panics and never fails to encode; what it has written is one [OPEN|DATA]
    frame, then [DATA] frames, then at most one [CLOSE], all on its stream; the
    payload is a prefix of the request head followed by the body bytes fed so
    far; and it never exceeds the initial window plus the granted credit.  The
    [CLOSE] is only out once the head and exactly the declared body are. *)
Theorem upload_frames head declared sid ops :
  is_u32 sid -> is_usize declared -> grants_unsigned ops ->
  exists u l ds,
    upload_run (upload_new sid head declared) log_new ops = Some (u, l) /\
    sent l = wire <$> ds ++ (if is_done u then [mkFrame sid FLAG_CLOSE []] else []) /\
    flags <$> ds = data_flags (length ds) /\
    Forall (fun f => stream_id f = sid /\ 0 < len (payload f)) ds /\
    payloads ds = ztake (len (payloads ds)) (head ++ fed l) /\
    len (payloads ds) <= INITIAL_WINDOW + grants l /\
    (is_done u = true -> payloads ds = head ++ fed l /\ len (fed l) = declared).
Proof.
  intros Hs Hd Hg.
  destruct (upload_run_inv head declared sid Hs Hd ops _ _ _
              (upload_inv_new head declared sid Hs Hd) Hg) as (u & l & ds & Hr & I).
  exists u, l, ds. pose proof (inv_payload_len _ _ _ _ _ _ I) as Hl. destruct I.
  assert (Hp : payloads ds = ztake (len (payloads ds)) (head ++ fed l)).
  { rewrite Hl, inv_payload0, take_app.
    destruct inv_order0 as [-> | ->].
    - rewrite Z.add_0_r. replace (_ - _)%nat with O by lia. done.
    - rewrite (take_ge head (Z.to_nat (len head + _))), (take_ge head (Z.to_nat (len head))) by lia.
      do 2 f_equal. lia. }
  split_and!; try done.
  - eapply Forall_impl; [|exact inv_frames0]. cbn. tauto.
  - lia.
  - intros Hc. destruct (inv_closed0 Hc) as [H1 H2]. split; [|lia].
    rewrite inv_payload0, !take_ge by lia. done.
Qed.

Lemma upload_frames_witness :
  exists u l ds,
    upload_run (upload_new 3 (blit "HEAD") 2) log_new
      [Poll; Feed (blit "ab"); Feed (blit "c"); Grant 7; Poll; Poll; Poll] = Some (u, l) /\
    sent l = wire <$> ds ++ (if is_done u then [mkFrame 3 FLAG_CLOSE []] else []) /\
    is_done u = true /\ payloads ds = blit "HEADab".
Proof.
  destruct (upload_frames (blit "HEAD") 2 3
    [Poll; Feed (blit "ab"); Feed (blit "c"); Grant 7; Poll; Poll; Poll])
    as (u & l & ds & Hr & Hs & _ & _ & _ & _ & Hc).
  - vm_compute; split; congruence.
  - vm_compute; split; congruence.
  - repeat constructor; intros; simplify_eq; vm_compute; congruence.
  - exists u, l, ds. split; [exact Hr|]. split; [exact Hs|].
    vm_compute in Hr. injection Hr as <- <-. split; [reflexivity|].
    destruct (Hc eq_refl) as [-> _]. reflexivity.
Defined.

(** An upload completes: from any state a transport can bring it to, once
    the whole declared body is fed and the peer's credit covers what is left,
    polling once per remaining byte plus one emits the [CLOSE]. *)
Theorem upload_completes head declared sid ops u l n :
  is_u32 sid -> is_usize declared -> grants_unsigned ops ->
  upload_run (upload_new sid head declared) log_new ops = Some (u, l) ->
  fed_body_len u = declared ->
  len head + declared - (head_offset u + emitted_body_len u) <= Z.of_nat n ->
  len head + declared - (head_offset u + emitted_body_len u) <= send_credit u ->
  exists u' l', upload_run u l (replicate (S n) Poll) = Some (u', l') /\ is_done u' = true.
Proof.
  intros Hs Hd Hg Hr Hf Hn Hc.
  destruct (upload_run_inv head declared sid Hs Hd ops _ _ _
              (upload_inv_new head declared sid Hs Hd) Hg) as (u1 & l1 & ds & Hr1 & I).
  simplify_eq. pose proof (inv_payload_len _ _ _ _ _ _ I) as Hl.
  pose proof (inv_fed _ _ _ _ _ _ I) as [Hfl _].
  destruct (polls_close head _ sid Hs n u l ds I) as (u' & l' & _ & H1 & _ & H2);
    [lia..|]. eauto.
Qed.

Lemma upload_completes_witness :
  exists u' l',
    upload_run (fst (default (upload_new 0 [] 0, log_new)
                      (upload_run (upload_new 3 (blit "HEAD") 2) log_new [Feed (blit "ab"); Poll])))
               (snd (default (upload_new 0 [] 0, log_new)
                      (upload_run (upload_new 3 (blit "HEAD") 2) log_new [Feed (blit "ab"); Poll])))
               (replicate 3 Poll) = Some (u', l') /\ is_done u' = true.
Proof.
  apply (upload_completes (blit "HEAD") 2 3 [Feed (blit "ab"); Poll]).
  - vm_compute; split; congruence.
  - vm_compute; split; congruence.
  - repeat constructor; intros; simplify_eq.
  - reflexivity.
  - reflexivity.
  - vm_compute. congruence.
  - vm_compute. congruence.
Defined.

(** The send credit is capped: a grant is accepted exactly when the
    resulting credit stays within the protocol's [2^31 - 1], and a refused grant
    changes nothing and names the stream and a four-byte WINDOW frame. *)
Theorem grant_capped u c :
  0 <= send_credit u < 2 ^ 31 -> is_u32 c ->
  if send_credit u + c <=? 2 ^ 31 - 1
  then exists u', grant u c = (u', Ok tt) /\ send_credit u' = send_credit u + c
  else grant u c = (u, Err (mkFrameViolation (up_stream_id u) FLAG_WINDOW 4)).
Proof.
  intros Hs Hc. unfold grant, checked_add, in_range in *.
  replace (send_credit u + c <? 2 ^ 64) with true by lia.
  destruct (Z.leb_spec (send_credit u + c) (2 ^ 31 - 1)).
  - replace (send_credit u + c >? 2 ^ 31 - 1) with false by lia. by eexists.
  - by replace (send_credit u + c >? 2 ^ 31 - 1) with true by lia.
Qed.

Lemma grant_capped_witness :
  grant (upload_new 5 [] 0) 2147483647 =
  (upload_new 5 [] 0, Err (mkFrameViolation 5 FLAG_WINDOW 4)).
Proof.
  exact (grant_capped (upload_new 5 [] 0) 2147483647
           ltac:(vm_compute; split; congruence) ltac:(vm_compute; split; congruence)).
Defined.
