(* ===== verification/Assembler.v ===== *)
(** * Response assembly ([ResponseAssembler] and [HttpStreamAssembler] of
    [crates/spl-core/src/mux.rs])

    The one-shot assembler collects the DATA of one stream into a complete HTTP
    response; the stream assembler turns DATA payloads into head, body and end
    events for a persistent carrier. *)

From S2P Require Import Prelude Frame Text Http Window.

(** ** One-shot assembly *)

Record FeedOutput := mkFeedOutput {
  pongs : list (list byte);
  window_grants : list Z;
  emit_frames : list (list byte);
  terminal_error : option MuxError
}.

Definition feed_output_default : FeedOutput := mkFeedOutput [] [] [] None.

Record ResponseAssembler := mkResponseAssembler {
  ra_stream_id : Z;
  cap : Z;
  ra_decoder : FrameDecoder;
  ra_body : list byte;
  recv_window : RecvWindow;
  ra_closed : bool;
  ra_reset : bool;
  flow_control_failed : bool
}.

(** [ResponseAssembler::with_cap] *)
Definition ra_with_cap (sid c : Z) : ResponseAssembler :=
  mkResponseAssembler sid c decoder_new [] window_new false false false.

(** [ResponseAssembler::new] *)
Definition ra_new (sid : Z) : ResponseAssembler := ra_with_cap sid MAX_ASSEMBLED_BYTES.

(** A [Result<_, FrameError>] under [?] in a function returning [MuxError]. *)
Definition lift_frame {A} (r : res FrameError A) : res MuxError A := map_err MuxFrame r.

(** How an iteration of the frame loop ends. *)
Inductive loop_end :=
| Continue (out : FeedOutput)
| Break (out : FeedOutput).

Definition set_window (ra : ResponseAssembler) (w : RecvWindow) : ResponseAssembler :=
  mkResponseAssembler (ra_stream_id ra) (cap ra) (ra_decoder ra) (ra_body ra) w
    (ra_closed ra) (ra_reset ra) (flow_control_failed ra).

Definition push_body (ra : ResponseAssembler) (b : list byte) : ResponseAssembler :=
  mkResponseAssembler (ra_stream_id ra) (cap ra) (ra_decoder ra) (ra_body ra ++ b)
    (recv_window ra) (ra_closed ra) (ra_reset ra) (flow_control_failed ra).

Definition set_flags (ra : ResponseAssembler) (closed reset failed : bool) : ResponseAssembler :=
  mkResponseAssembler (ra_stream_id ra) (cap ra) (ra_decoder ra) (ra_body ra) (recv_window ra)
    closed reset failed.

(** The tail of an iteration: the CLOSE bit. *)
Definition ra_close_bit (ra : ResponseAssembler) (out : FeedOutput) (f : Frame)
  : ResponseAssembler * res MuxError loop_end :=
  if has (flags f) FLAG_CLOSE
  then (set_flags ra true (ra_reset ra) (flow_control_failed ra),
        Ok (Continue (mkFeedOutput (pongs out) (window_grants out) [] (terminal_error out))))
  else (ra, Ok (Continue out)).

(** The DATA branch of an iteration. *)
Definition ra_data (ra : ResponseAssembler) (out : FeedOutput) (f : Frame)
  : ResponseAssembler * res MuxError loop_end :=
  let n := len (payload f) in
  match checked_add 64 (len (ra_body ra)) n with
  | None => (ra, Err CapExceeded)
  | Some assembled_len =>
      if assembled_len >? cap ra then (ra, Err CapExceeded)
      else
        match debit (recv_window ra) n with
        | (w, Ok _) =>
            match consume w n with
            | (w', Ok g) =>
                let ra' := push_body (set_window ra w') (payload f) in
                match g with
                | Some c =>
                    match lift_frame (encode (window (ra_stream_id ra) c)) with
                    | Ok bytes =>
                        ra_close_bit ra'
                          (mkFeedOutput (pongs out) (window_grants out)
                             (emit_frames out ++ [bytes]) (terminal_error out)) f
                    | Err e => (ra', Err e)
                    | Panic => (ra', Panic)
                    end
                | None => ra_close_bit ra' out f
                end
            | (w', Err e) => (push_body (set_window ra w') (payload f), Err e)
            | (w', Panic) => (push_body (set_window ra w') (payload f), Panic)
            end
        | (w, Err _) =>
            let ra' := set_flags (set_window ra w) true (ra_reset ra) true in
            match lift_frame (encode (reset (ra_stream_id ra) RESET_FLOW_CONTROL_ERROR)) with
            | Ok bytes =>
                (ra', Ok (Break (mkFeedOutput (pongs out) (window_grants out)
                                   (emit_frames out ++ [bytes]) (Some FlowControl))))
            | Err e => (ra', Err e)
            | Panic => (ra', Panic)
            end
        | (w, Panic) => (set_window ra w, Panic)
        end
  end.

(** One iteration of the loop in [ResponseAssembler::feed]. *)
Definition ra_frame (ra : ResponseAssembler) (out : FeedOutput) (f : Frame)
  : ResponseAssembler * res MuxError loop_end :=
  match control_pong f with
  | Some pong =>
      match lift_frame (encode pong) with
      | Ok bytes =>
          (ra, Ok (Continue (mkFeedOutput (pongs out ++ [bytes]) (window_grants out)
                               (emit_frames out) (terminal_error out))))
      | Err e => (ra, Err e)
      | Panic => (ra, Panic)
      end
  | None =>
      if negb (stream_id f =? ra_stream_id ra) then (ra, Ok (Continue out))
      else
        match window_credit f with
        | Some c =>
            (ra, Ok (Continue (mkFeedOutput (pongs out) (window_grants out ++ [c])
                                 (emit_frames out) (terminal_error out))))
        | None =>
            if has (flags f) FLAG_RESET then
              (set_flags ra true true (flow_control_failed ra),
               Ok (Continue (mkFeedOutput (pongs out) (window_grants out) [] (terminal_error out))))
            else if has (flags f) FLAG_DATA then ra_data ra out f
            else ra_close_bit ra out f
        end
  end.

Fixpoint ra_frames (ra : ResponseAssembler) (out : FeedOutput) (fs : list Frame)
  : ResponseAssembler * res MuxError FeedOutput :=
  match fs with
  | [] => (ra, Ok out)
  | f :: fs =>
      match ra_frame ra out f with
      | (ra', Ok (Continue out')) => ra_frames ra' out' fs
      | (ra', Ok (Break out')) => (ra', Ok out')
      | (ra', Err e) => (ra', Err e)
      | (ra', Panic) => (ra', Panic)
      end
  end.

Definition set_decoder (ra : ResponseAssembler) (d : FrameDecoder) : ResponseAssembler :=
  mkResponseAssembler (ra_stream_id ra) (cap ra) d (ra_body ra) (recv_window ra)
    (ra_closed ra) (ra_reset ra) (flow_control_failed ra).

(** [ResponseAssembler::feed] *)
Definition ra_feed (ra : ResponseAssembler) (data : list byte)
  : ResponseAssembler * res MuxError FeedOutput :=
  if flow_control_failed ra then (ra, Err FlowControl)
  else
    match drain (decoder_feed (ra_decoder ra) data) with
    | (d, Ok fs) => ra_frames (set_decoder ra d) feed_output_default fs
    | (d, Err e) => (set_decoder ra d, Err (MuxFrame e))
    | (d, Panic) => (set_decoder ra d, Panic)
    end.

(** [ResponseAssembler::is_closed] and [was_reset] *)
Definition ra_is_closed (ra : ResponseAssembler) : bool := ra_closed ra.
Definition was_reset (ra : ResponseAssembler) : bool := ra_reset ra.

(** [ResponseAssembler::into_response] *)
Definition into_response (ra : ResponseAssembler) : res MuxError HttpResponse :=
  if ra_reset ra then Err StreamReset
  else if flow_control_failed ra then Err FlowControl
  else if negb (ra_closed ra) then Err Incomplete
  else map_err MuxHttp (parse_response (ra_body ra)).

(** ** Stream assembly *)

Record HttpHead := mkHttpHead { hh_status : Z; hh_headers : Headers }.

Inductive ResetReason :=
| ProtocolError
| FlowControlError
| Unspecified.

(** [ResetReason::from_payload] *)
Definition from_payload (p : list byte) : ResetReason :=
  match p with
  | b :: _ =>
      if u8 b =? RESET_PROTOCOL_ERROR then ProtocolError
      else if u8 b =? RESET_FLOW_CONTROL_ERROR then FlowControlError
      else Unspecified
  | [] => Unspecified
  end.

Inductive StreamEnd :=
| EndClose
| EndReset (r : ResetReason)
| EndEof.

Inductive StreamItem :=
| ItemHead (h : HttpHead)
| ItemBody (b : list byte)
| ItemEnd (e : StreamEnd).

Record StreamEvent := mkStreamEvent { item : StreamItem; wire_cost : Z }.

(** [StreamEvent::uncosted] *)
Definition uncosted (i : StreamItem) : StreamEvent := mkStreamEvent i 0.

Record AssemblerOutput := mkAssemblerOutput {
  events : list StreamEvent;
  auto_consumed : Z
}.

Record HttpStreamAssembler := mkStreamAssembler {
  head_buf : list byte;
  head_emitted : bool;
  chunked : bool;
  chunked_decoder : ChunkedDecoder;
  pending_body_wire : Z;
  sa_closed : bool
}.

(** [HttpStreamAssembler::new] *)
Definition sa_new : HttpStreamAssembler := mkStreamAssembler [] false false chunked_new 0 false.

(** [HttpStreamAssembler::feed_body] *)
Definition sa_feed_body (sa : HttpStreamAssembler) (p : list byte) (out : AssemblerOutput)
  : HttpStreamAssembler * res MuxError AssemblerOutput :=
  if len p =? 0 then (sa, Ok out)
  else
    let pending := pending_body_wire sa + len p in
    let '(cd, r) :=
      if chunked sa then push (chunked_decoder sa) p else (chunked_decoder sa, Ok p) in
    match r with
    | Ok b =>
        if len b =? 0
        then (mkStreamAssembler (head_buf sa) (head_emitted sa) (chunked sa) cd pending (sa_closed sa),
              Ok out)
        else (mkStreamAssembler (head_buf sa) (head_emitted sa) (chunked sa) cd 0 (sa_closed sa),
              Ok (mkAssemblerOutput (events out ++ [mkStreamEvent (ItemBody b) pending])
                    (auto_consumed out)))
    | Err e =>
        (mkStreamAssembler (head_buf sa) (head_emitted sa) (chunked sa) cd pending (sa_closed sa),
         Err (MuxHttp e))
    | Panic =>
        (mkStreamAssembler (head_buf sa) (head_emitted sa) (chunked sa) cd pending (sa_closed sa),
         Panic)
    end.

(** [HttpStreamAssembler::feed_data] *)
Definition feed_data (sa : HttpStreamAssembler) (p : list byte)
  : HttpStreamAssembler * res MuxError AssemblerOutput :=
  if negb (head_emitted sa) then
    let previous_head_len := len (head_buf sa) in
    let hb := head_buf sa ++ p in
    let sa1 := mkStreamAssembler hb false (chunked sa) (chunked_decoder sa)
                 (pending_body_wire sa) (sa_closed sa) in
    match find_subsequence hb bCRLF2 with
    | None =>
        if len hb >? MAX_ASSEMBLED_BYTES then (sa1, Err CapExceeded)
        else (sa1, Ok (mkAssemblerOutput [] (len p)))
    | Some split =>
        match parse_head (ztake split hb) with
        | Ok (st, hs) =>
            let body_start := split + 4 in
            let out :=
              mkAssemblerOutput [uncosted (ItemHead (mkHttpHead st hs))]
                (Z.min (saturating_sub body_start previous_head_len) (len p)) in
            let b := zdrop body_start hb in
            let sa2 := mkStreamAssembler [] true (is_chunked hs) (chunked_decoder sa)
                         (pending_body_wire sa) (sa_closed sa) in
            if len b =? 0 then (sa2, Ok out) else sa_feed_body sa2 b out
        | Err e => (sa1, Err (MuxHttp e))
        | Panic => (sa1, Panic)
        end
    end
  else sa_feed_body sa p (mkAssemblerOutput [] 0).

Definition sa_end (sa : HttpStreamAssembler) : HttpStreamAssembler :=
  mkStreamAssembler (head_buf sa) (head_emitted sa) (chunked sa) (chunked_decoder sa) 0 true.

(** [HttpStreamAssembler::close], [reset] and [finish_eof] *)
Definition sa_close (sa : HttpStreamAssembler) : HttpStreamAssembler * StreamItem :=
  (sa_end sa, ItemEnd EndClose).
Definition sa_reset (sa : HttpStreamAssembler) (r : ResetReason) : HttpStreamAssembler * StreamItem :=
  (sa_end sa, ItemEnd (EndReset r)).
Definition finish_eof (sa : HttpStreamAssembler) : HttpStreamAssembler * StreamItem :=
  (sa_end sa, ItemEnd EndEof).

(** [HttpStreamAssembler::is_closed] *)
Definition sa_is_closed (sa : HttpStreamAssembler) : bool := sa_closed sa.

(** ** Lemmas: one-shot assembly *)

(** What the one-shot assembler does with a frame. *)
Inductive frame_role :=
| RolePing (pong : Frame)
| RoleOther
| RoleGrant (c : Z)
| RoleReset
| RoleStream (data close : bool).

Definition role (sid : Z) (f : Frame) : frame_role :=
  match control_pong f with
  | Some p => RolePing p
  | None =>
      if negb (stream_id f =? sid) then RoleOther
      else match window_credit f with
           | Some c => RoleGrant c
           | None => if has (flags f) FLAG_RESET then RoleReset
                     else RoleStream (has (flags f) FLAG_DATA) (has (flags f) FLAG_CLOSE)
           end
  end.

(** The projections of a frame sequence the assembler is responsible for. *)
Definition data_of (sid : Z) (f : Frame) : list byte :=
  match role sid f with RoleStream true _ => payload f | _ => [] end.
Definition pong_of (sid : Z) (f : Frame) : list (list byte) :=
  match role sid f with RolePing p => [wire p] | _ => [] end.
Definition grant_of (sid : Z) (f : Frame) : list Z :=
  match role sid f with RoleGrant c => [c] | _ => [] end.
Definition resets (sid : Z) (f : Frame) : bool :=
  match role sid f with RoleReset => true | _ => false end.
Definition closes (sid : Z) (f : Frame) : bool :=
  match role sid f with RoleReset | RoleStream _ true => true | _ => false end.

(** Every debited byte is consumed in the same iteration, so nothing is
    outstanding between frames. *)
Record ra_inv (ra : ResponseAssembler) : Prop := {
  ra_inv_window : wf_window (recv_window ra);
  ra_inv_drained : outstanding (recv_window ra) = 0;
  ra_inv_cap : len (ra_body ra) <= cap ra < 2 ^ 62;
  ra_inv_sid : is_u32 (ra_stream_id ra)
}.

Lemma ra_inv_new sid c : is_u32 sid -> 0 <= c < 2 ^ 62 -> ra_inv (ra_with_cap sid c).
Proof. intros. split; cbn; [apply wf_window_new|done|lia|done]. Qed.

Lemma wf_window_frame sid c : is_u32 sid -> wf_frame (window sid c).
Proof. intros. unfold wf_frame, window, MAX_PAYLOAD. cbn. done. Qed.

Lemma wf_reset_frame sid r : is_u32 sid -> wf_frame (reset sid r).
Proof. intros. unfold wf_frame, reset, MAX_PAYLOAD. cbn. done. Qed.

Lemma wf_pong f p : control_pong f = Some p -> wf_frame p.
Proof.
  unfold control_pong. destruct (_ && _) eqn:E; [|done]. intros [= <-].
  unfold wf_frame, MAX_PAYLOAD, CONTROL_NONCE_LEN in *. cbn. split_and!; [done..|lia].
Qed.
#[export] Hint Resolve wf_window_frame wf_reset_frame wf_pong ra_inv_new : spl.

(** How one iteration relates to the frame's role: [ok] says the DATA, if any,
    is within the cap and the credit. *)
Record ra_step (ra ra' : ResponseAssembler) (out out' : FeedOutput) (f : Frame) : Prop := {
  rs_inv : ra_inv ra';
  rs_const : ra_stream_id ra' = ra_stream_id ra /\ cap ra' = cap ra /\
             ra_decoder ra' = ra_decoder ra /\ flow_control_failed ra' = flow_control_failed ra;
  rs_body : ra_body ra' = ra_body ra ++ data_of (ra_stream_id ra) f;
  rs_closed : ra_closed ra' = ra_closed ra || closes (ra_stream_id ra) f;
  rs_reset : ra_reset ra' = ra_reset ra || resets (ra_stream_id ra) f;
  rs_pongs : pongs out' = pongs out ++ pong_of (ra_stream_id ra) f;
  rs_grants : window_grants out' = window_grants out ++ grant_of (ra_stream_id ra) f;
  rs_error : terminal_error out' = terminal_error out
}.

(** The flow-control failure branch of an iteration. *)
Record ra_failed (ra ra' : ResponseAssembler) (out out' : FeedOutput) (f : Frame) : Prop := {
  rf_overrun : credit (recv_window ra) < len (data_of (ra_stream_id ra) f);
  rf_flags : flow_control_failed ra' = true /\ ra_closed ra' = true;
  rf_body : ra_body ra' = ra_body ra /\ cap ra' = cap ra;
  rf_emit : list.last (emit_frames out') = Some (wire (reset (ra_stream_id ra) RESET_FLOW_CONTROL_ERROR));
  rf_error : terminal_error out' = Some FlowControl
}.

(** Splits an equality with a projection of a role into its cases. *)
Ltac role_cases E :=
  unfold data_of, pong_of, grant_of, resets, closes; rewrite ?E;
  rewrite ?app_nil_r, ?orb_false_r, ?orb_true_r; try done.

Lemma ra_close_bit_spec ra out f :
  exists ra' out', ra_close_bit ra out f = (ra', Ok (Continue out')) /\
    ra_closed ra' = ra_closed ra || has (flags f) FLAG_CLOSE /\
    ra' = set_flags ra (ra_closed ra') (ra_reset ra) (flow_control_failed ra) /\
    pongs out' = pongs out /\ window_grants out' = window_grants out /\
    terminal_error out' = terminal_error out.
Proof.
  unfold ra_close_bit. destruct (has (flags f) FLAG_CLOSE).
  - do 2 eexists. split; [done|]. cbn. by rewrite orb_true_r.
  - do 2 eexists. split; [done|]. rewrite orb_false_r. split_and!; try done. by destruct ra.
Qed.

Lemma ra_data_spec ra out f :
  ra_inv ra -> len (payload f) < 2 ^ 62 ->
  role (ra_stream_id ra) f = RoleStream true (has (flags f) FLAG_CLOSE) ->
  match ra_data ra out f with
  | (ra', Ok (Continue out')) => ra_step ra ra' out out' f
  | (ra', Ok (Break out')) => ra_failed ra ra' out out' f
  | (ra', Err e) => ra' = ra /\ e = CapExceeded /\
                    cap ra < len (ra_body ra) + len (data_of (ra_stream_id ra) f)
  | (_, Panic) => False
  end.
Proof.
  intros I Hl Hr. pose proof I as []. unfold ra_data, checked_add. cbv zeta.
  assert (Hd : data_of (ra_stream_id ra) f = payload f) by (unfold data_of; by rewrite Hr).
  replace (len (ra_body ra) + len (payload f) <? 2 ^ 64) with true by lia.
  destruct (Z.gtb_spec (len (ra_body ra) + len (payload f)) (cap ra)) as [Hc|Hc].
  { rewrite Hd. split_and!; [done..|lia]. }
  pose proof (debit_cases (recv_window ra) (len (payload f)) ra_inv_window0 ltac:(lia)) as Hdb.
  destruct (debit _ _) as [w [[]|e|]]; [| |done].
  2:{ destruct Hdb as (-> & _ & Hov). rewrite encode_ok by auto with spl. cbn.
      split; cbn; rewrite ?Hd; [lia|done..| |done]. by rewrite last_snoc. }
  destruct Hdb as [Hw Ho].
  destruct (consume_ok w (len (payload f)) Hw ltac:(lia)) as (w' & g & -> & Hw' & _ & Ho' & _).
  set (ra1 := push_body (set_window ra w') (payload f)).
  assert (Hfin : forall out1, pongs out1 = pongs out -> window_grants out1 = window_grants out ->
    terminal_error out1 = terminal_error out ->
    match ra_close_bit ra1 out1 f with
    | (ra', Ok (Continue out')) => ra_step ra ra' out out' f
    | _ => False
    end).
  { intros out1 Hp Hg Ht.
    destruct (ra_close_bit_spec ra1 out1 f) as (ra' & out' & -> & Hcl & -> & Hp' & Hg' & Ht').
    rewrite Hcl in *. clear Hcl.
    split; cbn; try congruence; role_cases Hr.
    - split; cbn; [done|lia| |done]. rewrite length_app. lia.
    - by destruct (has (flags f) FLAG_CLOSE); rewrite ?orb_false_r, ?orb_true_r.
    - congruence.
    - congruence. }
  destruct g as [c|].
  - rewrite encode_ok by auto with spl. cbn [lift_frame map_err].
    specialize (Hfin (mkFeedOutput (pongs out) (window_grants out)
      (emit_frames out ++ [wire (window (ra_stream_id ra) c)]) (terminal_error out))
      eq_refl eq_refl eq_refl).
    by destruct (ra_close_bit _ _ _) as [? [[]| |]].
  - specialize (Hfin out eq_refl eq_refl eq_refl).
    by destruct (ra_close_bit _ _ _) as [? [[]| |]].
Qed.

Lemma ra_frame_spec ra out f :
  ra_inv ra -> wf_frame f ->
  match ra_frame ra out f with
  | (ra', Ok (Continue out')) => ra_step ra ra' out out' f
  | (ra', Ok (Break out')) => ra_failed ra ra' out out' f
  | (ra', Err e) => ra' = ra /\ e = CapExceeded /\
                    cap ra < len (ra_body ra) + len (data_of (ra_stream_id ra) f)
  | (_, Panic) => False
  end.
Proof.
  intros I (_ & _ & Hl). unfold MAX_PAYLOAD in Hl. pose proof I as [].
  assert (Hr : role (ra_stream_id ra) f = role (ra_stream_id ra) f) by done.
  unfold role at 2 in Hr. unfold ra_frame.
  destruct (control_pong f) as [p|] eqn:Ep.
  { apply wf_pong in Ep. rewrite encode_ok by done. cbn. split; cbn; role_cases Hr. }
  destruct (negb _) eqn:Es; [split; role_cases Hr|].
  destruct (window_credit f) as [c|] eqn:Ec; [split; role_cases Hr|].
  destruct (has (flags f) FLAG_RESET) eqn:Er; [split; role_cases Hr|].
  destruct (has (flags f) FLAG_DATA) eqn:Ed; [apply ra_data_spec; [done|lia|done]|].
  destruct (ra_close_bit_spec ra out f) as (ra' & out' & -> & Hcl & -> & Hp' & Hg' & Ht').
  rewrite Hcl. clear Hcl.
  split; cbn; role_cases Hr; by destruct (has (flags f) FLAG_CLOSE); rewrite ?orb_false_r, ?orb_true_r.
Qed.

(** The same projections over a frame sequence. *)
Definition data_all (sid : Z) (fs : list Frame) : list byte := concat (data_of sid <$> fs).
Definition pongs_all (sid : Z) (fs : list Frame) : list (list byte) := concat (pong_of sid <$> fs).
Definition grants_all (sid : Z) (fs : list Frame) : list Z := concat (grant_of sid <$> fs).

Lemma data_all_app sid fs gs : data_all sid (fs ++ gs) = data_all sid fs ++ data_all sid gs.
Proof. unfold data_all. by rewrite fmap_app, concat_app. Qed.
Lemma pongs_all_app sid fs gs : pongs_all sid (fs ++ gs) = pongs_all sid fs ++ pongs_all sid gs.
Proof. unfold pongs_all. by rewrite fmap_app, concat_app. Qed.
Lemma grants_all_app sid fs gs : grants_all sid (fs ++ gs) = grants_all sid fs ++ grants_all sid gs.
Proof. unfold grants_all. by rewrite fmap_app, concat_app. Qed.

Record ra_steps (ra ra' : ResponseAssembler) (fs : list Frame) : Prop := {
  rss_inv : ra_inv ra';
  rss_const : ra_stream_id ra' = ra_stream_id ra /\ cap ra' = cap ra /\
              flow_control_failed ra' = flow_control_failed ra;
  rss_body : ra_body ra' = ra_body ra ++ data_all (ra_stream_id ra) fs;
  rss_closed : ra_closed ra' = ra_closed ra || existsb (closes (ra_stream_id ra)) fs;
  rss_reset : ra_reset ra' = ra_reset ra || existsb (resets (ra_stream_id ra)) fs
}.

Lemma ra_steps_trans ra1 ra2 ra3 fs gs :
  ra_steps ra1 ra2 fs -> ra_steps ra2 ra3 gs -> ra_steps ra1 ra3 (fs ++ gs).
Proof.
  intros [? (Hs & Hc & Hf) Hb Hcl Hr] [? (Hs' & Hc' & Hf') Hb' Hcl' Hr'].
  rewrite Hs in *. split; [done|by split_and!; congruence|..].
  - by rewrite Hb', Hb, data_all_app, app_assoc.
  - by rewrite Hcl', Hcl, existsb_app, orb_assoc.
  - by rewrite Hr', Hr, existsb_app, orb_assoc.
Qed.

Lemma ra_steps_refl ra : ra_inv ra -> ra_steps ra ra [].
Proof. intros. split; try done; cbn; by rewrite ?app_nil_r, ?orb_false_r. Qed.

Lemma ra_step_steps ra ra' out out' f : ra_step ra ra' out out' f -> ra_steps ra ra' [f].
Proof.
  intros [? (? & ? & ? & ?) ? ? ?]. split; [done..| | |]; unfold data_all; cbn.
  - by rewrite app_nil_r.
  - by rewrite orb_false_r.
  - by rewrite orb_false_r.
Qed.

(** Payloads within half the window never overrun the credit, because nothing
    stays outstanding. *)
Lemma ra_frames_ok fs : forall ra out,
  ra_inv ra -> Forall wf_frame fs ->
  Forall (fun f => len (data_of (ra_stream_id ra) f) <= RECEIVE_GRANT_THRESHOLD) fs ->
  len (ra_body ra) + len (data_all (ra_stream_id ra) fs) <= cap ra ->
  exists ra' out', ra_frames ra out fs = (ra', Ok out') /\ ra_steps ra ra' fs /\
    ra_decoder ra' = ra_decoder ra /\
    pongs out' = pongs out ++ pongs_all (ra_stream_id ra) fs /\
    window_grants out' = window_grants out ++ grants_all (ra_stream_id ra) fs /\
    terminal_error out' = terminal_error out.
Proof.
  induction fs as [|f fs IH]; intros ra out I Hwf Hd Hcap.
  { exists ra, out. split; [done|]. cbn. rewrite !app_nil_r. split_and!; auto using ra_steps_refl. }
  apply Forall_cons_1 in Hwf as [Hf Hwf]. apply Forall_cons_1 in Hd as [Hdf Hd].
  change (f :: fs) with ([f] ++ fs) in Hcap |- *. rewrite data_all_app, length_app in Hcap.
  unfold data_all in Hcap at 1. cbn in Hcap. rewrite app_nil_r in Hcap.
  cbn [ra_frames app]. pose proof (ra_frame_spec ra out f I Hf) as Hs.
  destruct (ra_frame ra out f) as [ra1 [[out1|out1]|e|]]; [..|done].
  - pose proof Hs as [I1 (Hsid & Hc1 & Hdec & Hfl) Hb1 _ _ Hp1 Hg1 Ht1].
    rewrite <- Hsid in Hd.
    destruct (IH ra1 out1 I1 Hwf Hd) as (ra2 & out2 & -> & Hss & Hdec2 & Hp2 & Hg2 & Ht2).
    { rewrite Hb1, Hc1, length_app, Hsid. lia. }
    exists ra2, out2. split; [done|]. rewrite Hsid in *.
    split_and!; [eapply (ra_steps_trans _ ra1 _ [f]); eauto using ra_step_steps|congruence|..|congruence].
    + rewrite Hp2, Hp1. unfold pongs_all. cbn. by rewrite <- app_assoc.
    + rewrite Hg2, Hg1. unfold grants_all. cbn. by rewrite <- app_assoc.
  - destruct Hs as [Hov _ _ _ _]. destruct I as [Hw Ho _ _]. exfalso. window_arith.
  - destruct Hs as (_ & _ & Hov). lia.
Qed.

(** Whatever the peer sends: no panic, and the buffered body stays within the cap. *)
Lemma ra_frames_safe fs : forall ra out,
  ra_inv ra -> flow_control_failed ra = false -> terminal_error out = None -> Forall wf_frame fs ->
  match ra_frames ra out fs with
  | (ra', Ok out') =>
      len (ra_body ra') <= cap ra' /\ cap ra' = cap ra /\
      ((ra_inv ra' /\ flow_control_failed ra' = false /\ terminal_error out' = None) \/
       (flow_control_failed ra' = true /\ ra_closed ra' = true /\
        terminal_error out' = Some FlowControl /\
        list.last (emit_frames out') = Some (wire (reset (ra_stream_id ra) RESET_FLOW_CONTROL_ERROR))))
  | (ra', Err e) => e = CapExceeded /\ ra_inv ra' /\ flow_control_failed ra' = false /\ cap ra' = cap ra
  | (_, Panic) => False
  end.
Proof.
  induction fs as [|f fs IH]; intros ra out I Hff Hte Hwf; cbn [ra_frames].
  { pose proof I as []. split_and!; [lia|done|auto]. }
  apply Forall_cons_1 in Hwf as [Hf Hwf]. pose proof (ra_frame_spec ra out f I Hf) as Hs.
  destruct (ra_frame ra out f) as [ra1 [[out1|out1]|e|]]; [..|done].
  - destruct Hs as [I1 (Hsid & Hc1 & Hdec & Hfl) _ _ _ _ _ Ht1].
    specialize (IH ra1 out1 I1 ltac:(congruence) ltac:(congruence) Hwf).
    by rewrite Hc1, Hsid in IH.
  - destruct Hs as [Hov [] [-> ->] ? ?]. pose proof I as []. split_and!; [lia|done|auto].
  - destruct Hs as (-> & -> & _). done.
Qed.

(** The transport's read loop over [ResponseAssembler::feed]. *)
Fixpoint ra_feed_all (ra : ResponseAssembler) (reads : list (list byte))
  : ResponseAssembler * res MuxError (list FeedOutput) :=
  match reads with
  | [] => (ra, Ok [])
  | r :: reads =>
      match ra_feed ra r with
      | (ra', Ok out) =>
          let '(ra'', rest) := ra_feed_all ra' reads in (ra'', cons out <$> rest)
      | (ra', Err e) => (ra', Err e)
      | (ra', Panic) => (ra', Panic)
      end
  end.

Lemma ra_inv_set_decoder ra d : ra_inv ra -> ra_inv (set_decoder ra d).
Proof. intros []. by split. Qed.

Lemma ra_feed_all_ok reads : forall ra d' fs,
  ra_inv ra -> flow_control_failed ra = false -> incomplete (buf (ra_decoder ra)) ->
  drain (decoder_feed (ra_decoder ra) (concat reads)) = (d', Ok fs) ->
  Forall (fun f => len (data_of (ra_stream_id ra) f) <= RECEIVE_GRANT_THRESHOLD) fs ->
  len (ra_body ra) + len (data_all (ra_stream_id ra) fs) <= cap ra ->
  exists ra' outs, ra_feed_all ra reads = (ra', Ok outs) /\ ra_steps ra ra' fs /\
    concat (pongs <$> outs) = pongs_all (ra_stream_id ra) fs /\
    concat (window_grants <$> outs) = grants_all (ra_stream_id ra) fs /\
    Forall (fun o => terminal_error o = None) outs.
Proof.
  induction reads as [|r reads IH]; intros ra d' fs I Hff Hi H Hd Hcap.
  { cbn [concat] in H. unfold decoder_feed in H. rewrite app_nil_r, drain_incomplete in H by done.
    simplify_eq. exists ra, []. split_and!; auto using ra_steps_refl. }
  assert (Hf : decoder_feed (ra_decoder ra) (r ++ concat reads) =
               decoder_feed (decoder_feed (ra_decoder ra) r) (concat reads)).
  { unfold decoder_feed. cbn. by rewrite app_assoc. }
  cbn [concat] in H. rewrite Hf, drain_feed in H.
  pose proof (drain_spec (decoder_feed (ra_decoder ra) r)) as Hs.
  cbn [ra_feed_all]. unfold ra_feed at 1. rewrite Hff.
  destruct (drain (decoder_feed (ra_decoder ra) r)) as [d1 [fs1|e|]]; [|done..].
  destruct Hs as (Hwf1 & _ & Hi1).
  destruct (drain (decoder_feed d1 (concat reads))) as [d2 [fs2|e|]] eqn:E2; [|done..].
  simplify_eq/=. apply Forall_app in Hd as [Hd1 Hd2]. rewrite data_all_app, length_app in Hcap.
  destruct (ra_frames_ok fs1 (set_decoder ra d1) feed_output_default
              (ra_inv_set_decoder _ _ I) Hwf1 Hd1 ltac:(cbn; lia))
    as (ra1 & out1 & -> & Hss & Hdec & Hp & Hg & Ht).
  pose proof Hss as [I1 (Hsid & Hc & Hfl) Hb _ _]. cbn in Hsid, Hc, Hfl, Hb, Hp, Hg, Ht, Hdec.
  rewrite <- Hsid in Hd2.
  destruct (IH ra1 d' fs2 I1 ltac:(congruence) ltac:(by rewrite Hdec) ltac:(by rewrite Hdec) Hd2)
    as (ra2 & outs & -> & Hss2 & Hp2 & Hg2 & Ht2).
  { rewrite Hb, Hc, Hsid, length_app. lia. }
  exists ra2, (out1 :: outs). cbn. rewrite Hsid in *. split_and!; [done|..].
  - pose proof (ra_steps_trans _ _ _ _ _ Hss Hss2) as []. by split.
  - by rewrite Hp, Hp2, pongs_all_app.
  - by rewrite Hg, Hg2, grants_all_app.
  - by constructor.
Qed.

(** ** Properties: one-shot assembly *)

(** A response survives the mux however the carrier cuts it: for any
    sequence of encoded frames, own and foreign streams and control frames
    interleaved, delivered in any reads, whose own DATA frames are at most half
    a window each and fit the 4 MiB cap together, every [feed] succeeds, the
    PONGs and the WINDOW grants come out in order, and [into_response] is the
    parse of the concatenated own DATA once the stream closed, [Incomplete]
    before that, and [StreamReset] after a reset. *)
Theorem response_assembled sid fs ws reads :
  is_u32 sid ->
  Forall (fun f => is_u32 (stream_id f) /\ is_u8 (flags f)) fs ->
  Forall2 (fun f w => encode f = Ok w) fs ws ->
  concat reads = concat ws ->
  Forall (fun f => len (data_of sid f) <= RECEIVE_GRANT_THRESHOLD) fs ->
  len (data_all sid fs) <= MAX_ASSEMBLED_BYTES ->
  exists ra outs, ra_feed_all (ra_new sid) reads = (ra, Ok outs) /\
    concat (pongs <$> outs) = pongs_all sid fs /\
    concat (window_grants <$> outs) = grants_all sid fs /\
    Forall (fun o => terminal_error o = None) outs /\
    into_response ra =
      (if existsb (resets sid) fs then Err StreamReset
       else if existsb (closes sid) fs
       then map_err MuxHttp (parse_response (data_all sid fs))
       else Err Incomplete).
Proof.
  intros Hsid Hr He Hc Hd Hcap. destruct (encode_wires fs ws Hr He) as [Hwf Hw].
  assert (Hdr : drain (decoder_feed decoder_new (concat reads)) = (mkFrameDecoder [], Ok fs)).
  { unfold decoder_feed. cbn [buf decoder_new app]. rewrite Hc, Hw, <- (app_nil_r (wires fs)).
    rewrite drain_wires, drain_incomplete by done. cbn. by rewrite app_nil_r. }
  destruct (ra_feed_all_ok reads (ra_new sid) _ fs (ra_inv_new sid MAX_ASSEMBLED_BYTES Hsid ltac:(done))
              eq_refl eq_refl Hdr Hd Hcap) as (ra & outs & Hf & Hss & Hp & Hg & Ht).
  exists ra, outs. split_and!; [done..|].
  destruct Hss as [_ (_ & _ & Hfl) Hb Hcl Hrs]. unfold into_response.
  rewrite Hrs, Hfl, Hcl, Hb. cbn. destruct (existsb (resets sid) fs); [done|].
  by destruct (existsb (closes sid) fs).
Qed.

Definition sample_response : list Frame :=
  [control_ping (blit "nonce123");
   mkFrame 1 FLAG_DATA (blit "HTTP/1.1 200 OK" ++ bCRLF2 ++ blit "he");
   mkFrame 3 FLAG_DATA (blit "elsewhere"); window 1 9;
   mkFrame 1 (FLAG_DATA + FLAG_CLOSE) (blit "llo")].

Lemma response_assembled_witness :
  exists ra outs,
    ra_feed_all (ra_new 1) (ztake 50 (wires sample_response) :: [zdrop 50 (wires sample_response)])
    = (ra, Ok outs) /\
    concat (window_grants <$> outs) = [9] /\
    into_response ra = Ok (mkHttpResponse 200 [] (blit "hello")).
Proof.
  destruct (response_assembled 1 sample_response (wire <$> sample_response)
    (ztake 50 (wires sample_response) :: [zdrop 50 (wires sample_response)]))
    as (ra & outs & Hf & _ & Hg & _ & Hr).
  - done.
  - by repeat constructor.
  - by repeat constructor.
  - reflexivity.
  - repeat constructor; vm_compute; congruence.
  - vm_compute; congruence.
  - exists ra, outs. by rewrite Hf, Hg, Hr.
Defined.

(** Whatever bytes the peer sends, the one-shot assembler does not panic
    and never buffers more than its cap.  An overrun of the receive window is
    reported once as a terminal error behind the encoded RESET, after which the
    stream counts as closed, [into_response] fails with the same error and
    every further [feed] is refused without touching the state. *)
Theorem response_feed_safe ra data :
  ra_inv ra -> flow_control_failed ra = false ->
  match ra_feed ra data with
  | (ra', Ok out) =>
      len (ra_body ra') <= cap ra' /\ cap ra' = cap ra /\
      match terminal_error out with
      | None => ra_inv ra' /\ flow_control_failed ra' = false
      | Some e =>
          e = FlowControl /\ ra_is_closed ra' = true /\
          list.last (emit_frames out)
            = Some (wire (reset (ra_stream_id ra) RESET_FLOW_CONTROL_ERROR)) /\
          (forall more_data, ra_feed ra' more_data = (ra', Err FlowControl)) /\
          (was_reset ra' = false -> into_response ra' = Err FlowControl)
      end
  | (ra', Err e) =>
      len (ra_body ra') <= cap ra' /\ cap ra' = cap ra /\
      (e = CapExceeded \/ exists fl, e = MuxFrame (ReservedFlag fl))
  | (_, Panic) => False
  end.
Proof.
  intros I Hff. unfold ra_feed at 1. rewrite Hff.
  pose proof (drain_spec (decoder_feed (ra_decoder ra) data)) as Hs.
  destruct (drain _) as [d [fs|e|]]; [| |done].
  - destruct Hs as (Hwf & _ & _).
    pose proof (ra_frames_safe fs (set_decoder ra d) feed_output_default
      (ra_inv_set_decoder _ _ I) Hff eq_refl Hwf) as H.
    destruct (ra_frames _ _ fs) as [ra' [out|e|]]; [| |done].
    + destruct H as (Hb & Hc & [(I' & Hf' & ->)|(Hf' & Hcl & -> & Hl)]); [by split_and!|].
      split_and!; [done..| |].
      * intros. unfold ra_feed. by rewrite Hf'.
      * unfold was_reset, into_response. intros ->. by rewrite Hf'.
    + destruct H as (-> & I' & _ & Hc). pose proof I' as []. split_and!; [lia|done|by left].
  - destruct Hs as (fs & _ & _ & He). pose proof (next_frame_spec d) as Hn. rewrite He in Hn.
    destruct Hn as (_ & fl & -> & _). pose proof I as []. cbn.
    split_and!; [lia|done|right; by eexists].
Qed.

(** A mid-stream state one DATA frame away from its next grant. *)
Lemma response_feed_safe_witness :
  let ra := mkResponseAssembler 1 100 decoder_new [] (mkRecvWindow 524289 524287) false false false in
  match ra_feed ra (wire (mkFrame 1 FLAG_DATA (blit "hello"))) with
  | (ra', Ok out) => len (ra_body ra') <= cap ra' /\ cap ra' = cap ra
  | _ => False
  end.
Proof.
  intros ra. pose proof (response_feed_safe ra (wire (mkFrame 1 FLAG_DATA (blit "hello")))) as H.
  assert (E : exists r, ra_feed ra (wire (mkFrame 1 FLAG_DATA (blit "hello"))) = (fst r, Ok (snd r)))
    by (eexists (_, _); vm_compute; reflexivity).
  destruct E as [[ra' out] E]. cbn [fst snd] in E. rewrite E in H |- *.
  destruct H as (H1 & H2 & _); [|done|by split].
  split; cbn; [split_and!; vm_compute; done|done|vm_compute; done|done].
Defined.

(** ** Lemmas: stream assembly *)

Record sa_inv (sa : HttpStreamAssembler) : Prop := {
  sa_inv_pending : 0 <= pending_body_wire sa;
  sa_inv_head : head_emitted sa = false ->
    find_subsequence (head_buf sa) bCRLF2 = None /\ pending_body_wire sa = 0 /\
    chunked_decoder sa = chunked_new
}.

Lemma sa_inv_new : sa_inv sa_new.
Proof. by split. Qed.

(** Wire bytes an output leaves for the consumer to return. *)
Definition event_cost (es : list StreamEvent) : Z := zsum wire_cost es.
#[global] Arguments event_cost : simpl never.

Lemma event_cost_app es fs : event_cost (es ++ fs) = event_cost es + event_cost fs.
Proof. apply zsum_app. Qed.
Lemma event_cost_one e : event_cost [e] = wire_cost e.
Proof. unfold event_cost. cbn. lia. Qed.

Record cost_ok (before : Z) (sa' : HttpStreamAssembler) (out : AssemblerOutput) : Prop := {
  co_inv : sa_inv sa';
  co_sum : auto_consumed out + event_cost (events out) + pending_body_wire sa' = before;
  co_auto : 0 <= auto_consumed out;
  co_events : Forall (fun e => 0 <= wire_cost e) (events out)
}.

(** The two ways a [feed_data] call may fail. *)
Definition assembly_error (e : MuxError) : Prop :=
  e = CapExceeded \/ exists h, e = MuxHttp h.

Lemma push_no_panic d p : snd (push d p) <> Panic.
Proof.
  unfold push. destruct (cstate d); try done;
  (assert (H : forall fuel d out, snd (push_loop fuel d out) <> Panic);
   [induction fuel as [|fuel IH]; intros; [done|]; rewrite push_loop_S; by case_match|apply H]).
Qed.

Lemma parse_head_no_panic b : parse_head b <> Panic.
Proof. unfold parse_head. by repeat case_match. Qed.

Lemma sa_feed_body_cost sa p out :
  sa_inv sa -> head_emitted sa = true -> 0 <= auto_consumed out ->
  Forall (fun e => 0 <= wire_cost e) (events out) ->
  match sa_feed_body sa p out with
  | (sa', Ok out') =>
      cost_ok (auto_consumed out + event_cost (events out) + pending_body_wire sa + len p) sa' out' /\
      head_emitted sa' = true
  | (_, Err e) => assembly_error e
  | (_, Panic) => False
  end.
Proof.
  intros [Hp Hh] He Ha Hev. unfold sa_feed_body.
  destruct (Z.eqb_spec (len p) 0) as [H0|H0].
  { split; [|done]. split; [by split|lia|done..]. }
  set (step := if chunked sa then _ else _).
  assert (Hnp : snd step <> Panic).
  { unfold step. destruct (chunked sa); [apply push_no_panic|done]. }
  destruct step as [cd [b|e|]]; [|right; by eexists|done].
  destruct (len b =? 0); (split; [|done]); split; cbn; try done.
  - split; cbn; [lia|]. by rewrite He.
  - lia.
  - split; cbn; [lia|]. by rewrite He.
  - rewrite event_cost_app, event_cost_one. cbn. lia.
  - apply Forall_app. split; [done|]. constructor; [cbn; lia|done].
Qed.

(** Wire-cost conservation of [feed_data]: every payload byte is consumed as
    metadata, attributed to a body event, or pending. *)
Lemma feed_data_cost sa p :
  sa_inv sa ->
  match feed_data sa p with
  | (sa', Ok out) => cost_ok (pending_body_wire sa + len p) sa' out
  | (_, Err e) => assembly_error e
  | (_, Panic) => False
  end.
Proof.
  intros I. pose proof I as [Hp Hh]. unfold feed_data. destruct (head_emitted sa) eqn:He; cbn [negb].
  { pose proof (sa_feed_body_cost sa p (mkAssemblerOutput [] 0) I He ltac:(done) ltac:(done)) as H.
    destruct (sa_feed_body _ _ _) as [sa' [out| |]]; [|done..]. apply H. }
  destruct (Hh eq_refl) as (Hn & Hp0 & Hcd). cbv zeta. rewrite Hp0.
  destruct (find_subsequence (head_buf sa ++ p) bCRLF2) as [split|] eqn:Ef.
  2:{ destruct (_ >? _); [by left|]. split; cbn; [by split|unfold event_cost; cbn; lia|lia|done]. }
  pose proof (find_subsequence_late _ _ _ _ Hn Ef) as Hlate.
  apply find_subsequence_Some in Ef as (Hs0 & Hs1 & _).
  unfold bCRLF2 in Hlate, Hs1. cbn [length] in Hlate, Hs1. rewrite length_app in Hs1.
  pose proof (parse_head_no_panic (ztake split (head_buf sa ++ p))) as Hnp.
  destruct (parse_head _) as [[st hs]|e|]; [|right; by eexists|done].
  set (out := mkAssemblerOutput _ _). set (sa2 := mkStreamAssembler [] true _ _ _ _).
  assert (Hauto : auto_consumed out = split + 4 - len (head_buf sa)).
  { unfold out, saturating_sub. cbn. lia. }
  assert (Hlb : len (zdrop (split + 4) (head_buf sa ++ p)) = len (head_buf sa) + len p - (split + 4)).
  { rewrite length_drop, length_app. lia. }
  assert (I2 : sa_inv sa2) by (split; cbn; [lia|done]).
  assert (Hev : Forall (fun e => 0 <= wire_cost e) (events out)) by (constructor; [cbn; lia|done]).
  destruct (Z.eqb_spec (len (zdrop (split + 4) (head_buf sa ++ p))) 0) as [Hb|Hb].
  { split; [done|cbn in *; rewrite event_cost_one; cbn; lia|lia|done]. }
  pose proof (sa_feed_body_cost sa2 (zdrop (split + 4) (head_buf sa ++ p)) out I2 eq_refl
    ltac:(lia) Hev) as H.
  destruct (sa_feed_body _ _ _) as [sa' [out'| |]]; [|done..]. destruct H as [[] _].
  split; try done. cbn in *. rewrite event_cost_one in *. cbn in *. lia.
Qed.

(** Feeding a response as a sequence of DATA payloads. *)
Fixpoint feed_data_all (sa : HttpStreamAssembler) (pieces : list (list byte)) (evs : list StreamEvent)
  : HttpStreamAssembler * res MuxError (list StreamEvent) :=
  match pieces with
  | [] => (sa, Ok evs)
  | p :: pieces =>
      match feed_data sa p with
      | (sa', Ok out) => feed_data_all sa' pieces (evs ++ events out)
      | (sa', Err e) => (sa', Err e)
      | (sa', Panic) => (sa', Panic)
      end
  end.

Lemma feed_data_all_snoc pieces p : forall sa evs,
  feed_data_all sa (pieces ++ [p]) evs =
  match feed_data_all sa pieces evs with
  | (sa', Ok evs') =>
      match feed_data sa' p with
      | (sa'', Ok out) => (sa'', Ok (evs' ++ events out))
      | (sa'', Err e) => (sa'', Err e)
      | (sa'', Panic) => (sa'', Panic)
      end
  | (sa', Err e) => (sa', Err e)
  | (sa', Panic) => (sa', Panic)
  end.
Proof.
  induction pieces as [|q pieces IH]; intros sa evs; cbn [app feed_data_all].
  - by destruct (feed_data sa p) as [sa' []].
  - by destruct (feed_data sa q) as [sa' []].
Qed.

(** The body bytes a run of events delivers. *)
Definition body_of (e : StreamEvent) : list byte :=
  match item e with ItemBody b => b | _ => [] end.
Definition is_body (e : StreamEvent) : Prop := exists b c, e = mkStreamEvent (ItemBody b) c.

(** Everything after the head, decoded in one go. *)
Definition decode_rest (hs : Headers) (rest : list byte) : ChunkedDecoder * res HttpError (list byte) :=
  if is_chunked hs then push chunked_new rest else (chunked_new, Ok rest).

Lemma decode_rest_nil hs : decode_rest hs [] = (chunked_new, Ok []).
Proof. unfold decode_rest. by destruct (is_chunked hs). Qed.

Lemma decode_rest_app hs a b cd o :
  decode_rest hs (a ++ b) = (cd, Ok o) ->
  exists cd1 o1, decode_rest hs a = (cd1, Ok o1) /\
    exists o2, (if is_chunked hs then push cd1 b else (cd1, Ok b)) = (cd, Ok o2) /\ o = o1 ++ o2.
Proof.
  unfold decode_rest. destruct (is_chunked hs).
  - rewrite push_app. destruct (push chunked_new a) as [cd1 [o1|e|]]; [|done..].
    destruct (push cd1 b) as [cd2 [o2|e|]] eqn:E; [|done..]. cbn. intros. simplify_eq.
    exists cd1, o1. split; [done|]. exists o2. by rewrite E.
  - intros. simplify_eq. do 2 eexists. split; [done|]. by eexists.
Qed.

(** A body pass delivers the decoder's output as at most one event. *)
Lemma sa_feed_body_events sa b out cd o :
  (if chunked sa then push (chunked_decoder sa) b else (chunked_decoder sa, Ok b)) = (cd, Ok o) ->
  exists sa' es cost, sa_feed_body sa b out = (sa', Ok (mkAssemblerOutput (events out ++ es) cost)) /\
    Forall is_body es /\ concat (body_of <$> es) = (if len b =? 0 then [] else o) /\
    head_emitted sa' = head_emitted sa /\ chunked sa' = chunked sa /\
    chunked_decoder sa' = (if len b =? 0 then chunked_decoder sa else cd).
Proof.
  intros E. unfold sa_feed_body. destruct (len b =? 0) eqn:Hb.
  { exists sa, [], (auto_consumed out). rewrite app_nil_r. split_and!; [by destruct out|done..]. }
  rewrite E. cbv zeta. destruct (Z.eqb_spec (len o) 0) as [Ho|Ho].
  - destruct o; [|cbn in Ho; lia]. eexists _, [], (auto_consumed out). rewrite app_nil_r.
    split_and!; [by destruct out|done..].
  - eexists _, [_], _. split; [done|]. cbn. rewrite app_nil_r. split; [|done].
    constructor; [|done]. by do 2 eexists.
Qed.

(** The state and events after a prefix of the response, as a function of the
    bytes alone. *)
Definition streamed (raw : list byte) (r : HttpStreamAssembler * res MuxError (list StreamEvent)) : Prop :=
  match find_subsequence raw bCRLF2 with
  | None => r = (mkStreamAssembler raw false false chunked_new 0 false, Ok [])
  | Some split =>
      forall st hs cd o,
      parse_head (ztake split raw) = Ok (st, hs) ->
      decode_rest hs (zdrop (split + 4) raw) = (cd, Ok o) ->
      exists sa es, r = (sa, Ok (uncosted (ItemHead (mkHttpHead st hs)) :: es)) /\
        Forall is_body es /\ concat (body_of <$> es) = o /\
        head_emitted sa = true /\ chunked sa = is_chunked hs /\ chunked_decoder sa = cd
  end.

(** The piece that completes the head. *)
Lemma feed_data_head raw p split st hs cd o :
  find_subsequence (raw ++ p) bCRLF2 = Some split ->
  parse_head (ztake split (raw ++ p)) = Ok (st, hs) ->
  decode_rest hs (zdrop (split + 4) (raw ++ p)) = (cd, Ok o) ->
  exists sa es cost,
    feed_data (mkStreamAssembler raw false false chunked_new 0 false) p
    = (sa, Ok (mkAssemblerOutput (uncosted (ItemHead (mkHttpHead st hs)) :: es) cost)) /\
    Forall is_body es /\ concat (body_of <$> es) = o /\
    head_emitted sa = true /\ chunked sa = is_chunked hs /\ chunked_decoder sa = cd.
Proof.
  intros Ef Eh Er. unfold feed_data. cbn [head_emitted head_buf negb]. rewrite Ef, Eh. cbv zeta.
  destruct (Z.eqb_spec (len (zdrop (split + 4) (raw ++ p))) 0) as [Hb|Hb].
  { assert (Hnil : zdrop (split + 4) (raw ++ p) = []) by (apply nil_length_inv; lia).
    rewrite Hnil, decode_rest_nil in Er. simplify_eq.
    eexists _, [], _. split; [done|]. done. }
  set (sa2 := mkStreamAssembler _ _ _ _ _ _). set (out := mkAssemblerOutput _ _).
  destruct (sa_feed_body_events sa2 (zdrop (split + 4) (raw ++ p)) out cd o Er)
    as (sa' & es & cost & -> & Hes & Hcc & Hh & Hch & Hcd).
  rewrite (proj2 (Z.eqb_neq _ _) Hb) in Hcc, Hcd.
  exists sa', es, cost. by split_and!.
Qed.

Lemma feed_data_all_streamed pieces :
  len (concat pieces) <= MAX_ASSEMBLED_BYTES ->
  streamed (concat pieces) (feed_data_all sa_new pieces []).
Proof.
  induction pieces as [|p pieces IH] using rev_ind; intros Hl; [done|].
  rewrite feed_data_all_snoc, concat_app in *. cbn [concat] in *. rewrite app_nil_r in *.
  rewrite length_app in Hl. specialize (IH ltac:(lia)). set (raw := concat pieces) in *.
  unfold streamed in *. destruct (find_subsequence raw bCRLF2) as [split|] eqn:E0.
  - rewrite (find_subsequence_mono _ _ p _ E0).
    apply find_subsequence_Some in E0 as (Hs0 & Hs1 & _).
    unfold bCRLF2 in Hs1. cbn [length] in Hs1.
    intros st hs cd o Eh Er. rewrite take_app_le in Eh by lia. rewrite drop_app_le in Er by lia.
    destruct (decode_rest_app _ _ _ _ _ Er) as (cd1 & o1 & E1 & o2 & E2 & ->).
    destruct (IH _ _ _ _ Eh E1) as (sa & es & -> & Hes & Hc & Hh & Hch & Hcd).
    unfold feed_data. rewrite Hh. cbn [negb].
    destruct (sa_feed_body_events sa p (mkAssemblerOutput [] 0) cd o2 ltac:(by rewrite Hch, Hcd))
      as (sa' & es' & cost & -> & Hes' & Hcc & Hh' & Hch' & Hcd').
    exists sa', (es ++ es'). split; [done|]. rewrite fmap_app, concat_app, Hc, Hcc.
    destruct (Z.eqb_spec (len p) 0) as [Hp|Hp].
    + destruct p; [|cbn in Hp; lia]. rewrite app_nil_r in Er. rewrite E1 in Er.
      injection Er as Hcd1 Ho.
      assert (o2 = []) as -> by (apply (app_inv_head o1); by rewrite app_nil_r).
      split_and!; [by apply Forall_app|done|congruence..].
    + split_and!; [by apply Forall_app|congruence..].
  - rewrite IH. destruct (find_subsequence (raw ++ p) bCRLF2) as [split|] eqn:E1.
    + intros st hs cd o Eh Er.
      destruct (feed_data_head raw p split st hs cd o E1 Eh Er)
        as (sa & es & cost & -> & Hrest). exists sa, es. by split.
    + unfold feed_data. cbn [head_emitted head_buf negb]. rewrite E1. cbv zeta.
      rewrite length_app. by replace (_ >? _) with false by lia.
Qed.

(** ** Properties: stream assembly *)

(** What follows the head of a response. *)
Definition after_head (raw : list byte) : list byte :=
  match find_subsequence raw bCRLF2 with Some split => zdrop (split + 4) raw | None => [] end.

(** C33. Streaming and one-shot parsing agree: when the one-shot parser accepts
    a response of at most 4 MiB, the stream assembler accepts it however it is
    cut into DATA payloads, emits the same status and headers exactly once and
    first, and then body events.  Their bytes are the parsed body if it is
    chunked; otherwise they are exactly what followed the head, of which the
    parsed body is all, or the first [content-length] bytes when that header
    has a number. *)
Theorem stream_matches_one_shot raw pieces r :
  len raw <= MAX_ASSEMBLED_BYTES ->
  concat pieces = raw ->
  parse_response raw = Ok r ->
  exists sa es,
    feed_data_all sa_new pieces []
      = (sa, Ok (uncosted (ItemHead (mkHttpHead (status r) (headers r))) :: es)) /\
    Forall is_body es /\
    (is_chunked (headers r) = true -> concat (body_of <$> es) = body r) /\
    (is_chunked (headers r) = false ->
     concat (body_of <$> es) = after_head raw /\
     match header_lookup (headers r) (lit "content-length") ≫= parse_uint 10 64 with
     | Some n => n <= len (after_head raw) /\ body r = ztake n (after_head raw)
     | None => body r = after_head raw
     end).
Proof.
  intros Hl <- Hr. pose proof (feed_data_all_streamed pieces Hl) as Hs.
  unfold streamed in Hs. unfold parse_response in Hr. unfold after_head. set (raw := concat pieces) in *.
  destruct (find_subsequence raw bCRLF2) as [split|]; [|done].
  destruct (parse_head (ztake split raw)) as [[st hs]|e|] eqn:Eh; [|done..]. cbn [mbind res_bind] in Hr.
  specialize (Hs st hs). unfold decode_rest in Hs. set (rest := zdrop (split + 4) raw) in *.
  destruct (is_chunked hs) eqn:Ec.
  - destruct (dechunk rest) as [b|e|] eqn:Ed; [|done..]. cbn in Hr. simplify_eq.
    pose proof (dechunk_agrees rest) as Ha. unfold agrees in Ha. rewrite Ed in Ha.
    assert (Hlr : len rest < 2 ^ 64).
    { unfold rest. rewrite length_drop. unfold MAX_ASSEMBLED_BYTES in Hl. lia. }
    specialize (Ha Hlr). destruct (push chunked_new rest) as [cd [o|e|]] eqn:Ep; [|done..].
    destruct (Hs cd o eq_refl eq_refl) as (sa & es & Hf & Hes & Hb & _).
    exists sa, es. cbn [status headers body]. split_and!; [done..| |congruence].
    intros _. rewrite Hb. destruct (cstate cd); deconj; by simplify_eq.
  - destruct (Hs chunked_new rest eq_refl eq_refl) as (sa & es & Hf & Hes & Hb & _).
    exists sa, es. cbv zeta in Hr.
    destruct (header_lookup hs (lit "content-length") ≫= parse_uint 10 64) as [n|] eqn:En.
    + assert (Hp : n <= len rest /\ body r = ztake n rest /\ status r = st /\ headers r = hs).
      { destruct (Z.ltb_spec n (len rest)); [simplify_eq/=; split_and!; [lia|done..]|].
        destruct (Z.gtb_spec n (len rest)); [done|]. simplify_eq/=. split_and!; [lia| |done..]. by rewrite take_ge by lia. }
      destruct Hp as (Hn & Hp & -> & ->). split_and!; [done..|congruence|]. intros _. by rewrite En.
    + simplify_eq/=. split_and!; [done..|congruence|]. intros _. by rewrite En.
Qed.

Lemma stream_matches_one_shot_witness :
  let raw := blit "HTTP/1.1 200 OK" ++ bCRLF ++ blit "content-length: 5" ++ bCRLF2 ++ blit "hello!" in
  exists sa es, feed_data_all sa_new [ztake 20 raw; slice raw 20 39; zdrop 39 raw] []
    = (sa, Ok (uncosted (ItemHead (mkHttpHead 200 [(lit "content-length", lit "5")])) :: es)) /\
    concat (body_of <$> es) = blit "hello!".
Proof.
  intros raw.
  destruct (stream_matches_one_shot raw [ztake 20 raw; slice raw 20 39; zdrop 39 raw]
    (mkHttpResponse 200 [(lit "content-length", lit "5")] (blit "hello")))
    as (sa & es & Hf & _ & _ & Hb).
  - vm_compute. congruence.
  - reflexivity.
  - reflexivity.
  - exists sa, es. split; [exact Hf|]. destruct Hb as [Hb _]; [reflexivity|]. rewrite Hb. reflexivity.
Defined.

(** Every wire byte of a response is accounted for once: for each
    payload accepted, the bytes consumed at once as metadata, the costs of the
    body events and the bytes left pending add up to the payload and the bytes
    that were pending before; a failing payload fails as a malformed response or an
    oversized head, never by a panic. *)
Theorem feed_data_conserves_wire sa p :
  sa_inv sa ->
  match feed_data sa p with
  | (sa', Ok out) =>
      sa_inv sa' /\
      auto_consumed out + event_cost (events out) + pending_body_wire sa'
        = pending_body_wire sa + len p /\
      0 <= auto_consumed out /\ Forall (fun e => 0 <= wire_cost e) (events out)
  | (_, Err e) => e = CapExceeded \/ exists h, e = MuxHttp h
  | (_, Panic) => False
  end.
Proof.
  intros I. pose proof (feed_data_cost sa p I) as H.
  destruct (feed_data sa p) as [sa' [out|e|]]; [|done..]. by destruct H.
Qed.

Lemma feed_data_conserves_wire_witness :
  match feed_data sa_new (blit "HTTP/1.1 200 OK" ++ bCRLF2 ++ blit "abc") with
  | (_, Ok out) => auto_consumed out = 19 /\ event_cost (events out) = 3
  | _ => False
  end.
Proof.
  pose proof (feed_data_conserves_wire sa_new (blit "HTTP/1.1 200 OK" ++ bCRLF2 ++ blit "abc") sa_inv_new)
    as H.
  destruct (feed_data _ _) as [sa' [out|e|]] eqn:E; vm_compute in E; [|done..].
  injection E as <- <-. destruct H as (_ & H & _). vm_compute. split; done.
Defined.
