(* ===== verification/Demux.v ===== *)
(** * The carrier demultiplexer ([CarrierDemux] of [crates/spl-core/src/mux.rs])

    One decoder and one table of live streams for a persistent carrier.  Each
    stream has an HTTP assembler and a receive window; the local consumer
    returns credit as it drains body events. *)

From S2P Require Import Prelude Frame Text Http Window Assembler.

Record DemuxOutput := mkDemuxOutput {
  dpongs : list (list byte);
  inbound_pongs : list (list byte);
  stream_events : list (Z * StreamEvent);
  dwindow_grants : list (Z * Z);
  demit_frames : list (list byte);
  violations : list FrameViolation
}.

Definition demux_output_default : DemuxOutput := mkDemuxOutput [] [] [] [] [] [].

Record CarrierStream := mkCarrierStream {
  assembler : HttpStreamAssembler;
  srecv_window : RecvWindow
}.

Record CarrierDemux := mkCarrierDemux {
  ddecoder : FrameDecoder;
  streams : gmap Z CarrierStream;
  fatal_violation : option FrameViolation
}.

(** [CarrierDemux::new] *)
Definition demux_new : CarrierDemux := mkCarrierDemux decoder_new ∅ None.

Definition set_streams (dx : CarrierDemux) (m : gmap Z CarrierStream) : CarrierDemux :=
  mkCarrierDemux (ddecoder dx) m (fatal_violation dx).

(** [CarrierDemux::open_stream] and [remove_stream] *)
Definition open_stream (dx : CarrierDemux) (sid : Z) : CarrierDemux :=
  set_streams dx (<[sid := mkCarrierStream sa_new window_new]> (streams dx)).
Definition remove_stream (dx : CarrierDemux) (sid : Z) : CarrierDemux :=
  set_streams dx (delete sid (streams dx)).

(** [CarrierDemux::consume] *)
Definition demux_consume (dx : CarrierDemux) (sid bytes : Z)
  : CarrierDemux * res MuxError (option (list byte)) :=
  match streams dx !! sid with
  | None => (dx, Ok None)
  | Some st =>
      let '(w, r) := consume (srecv_window st) bytes in
      let dx' := set_streams dx (<[sid := mkCarrierStream (assembler st) w]> (streams dx)) in
      match r with
      | Ok None => (dx', Ok None)
      | Ok (Some g) => (dx', Some <$> lift_frame (encode (window sid g)))
      | Err e => (dx', Err e)
      | Panic => (dx', Panic)
      end
  end.

(** [frame_violation] *)
Definition frame_violation (f : Frame) : FrameViolation :=
  mkFrameViolation (stream_id f) (flags f) (len (payload f)).

(** The closure of [remove_emitted_windows]: whether an encoded frame is kept. *)
Definition keep_emitted (sid : Z) (frame : list byte) : bool :=
  match frame with
  | b0 :: b1 :: b2 :: b3 :: b4 :: _ =>
      negb (be_val [b0; b1; b2; b3] =? sid) || negb (has (u8 b4) FLAG_WINDOW)
  | _ => true
  end.

(** [remove_emitted_windows] *)
Definition remove_emitted_windows (frames : list (list byte)) (sid : Z) : list (list byte) :=
  filter (fun fr => keep_emitted sid fr = true) frames.

#[global] Arguments remove_emitted_windows : simpl never.

(** Field updates of an output. *)
Definition add_pong (o : DemuxOutput) (b : list byte) : DemuxOutput :=
  mkDemuxOutput (dpongs o ++ [b]) (inbound_pongs o) (stream_events o) (dwindow_grants o)
    (demit_frames o) (violations o).
Definition add_inbound_pong (o : DemuxOutput) (b : list byte) : DemuxOutput :=
  mkDemuxOutput (dpongs o) (inbound_pongs o ++ [b]) (stream_events o) (dwindow_grants o)
    (demit_frames o) (violations o).
Definition add_events (o : DemuxOutput) (es : list (Z * StreamEvent)) : DemuxOutput :=
  mkDemuxOutput (dpongs o) (inbound_pongs o) (stream_events o ++ es) (dwindow_grants o)
    (demit_frames o) (violations o).
Definition add_grant (o : DemuxOutput) (g : Z * Z) : DemuxOutput :=
  mkDemuxOutput (dpongs o) (inbound_pongs o) (stream_events o) (dwindow_grants o ++ [g])
    (demit_frames o) (violations o).
Definition set_emit (o : DemuxOutput) (fs : list (list byte)) : DemuxOutput :=
  mkDemuxOutput (dpongs o) (inbound_pongs o) (stream_events o) (dwindow_grants o) fs (violations o).
Definition add_violation (o : DemuxOutput) (v : FrameViolation) : DemuxOutput :=
  mkDemuxOutput (dpongs o) (inbound_pongs o) (stream_events o) (dwindow_grants o)
    (demit_frames o) (violations o ++ [v]).

(** The exit shared by the terminal branches: drop this pass's WINDOWs for the
    stream, report its end and forget it. *)
Definition end_stream (dx : CarrierDemux) (o : DemuxOutput) (sid : Z) (i : StreamItem)
  : CarrierDemux * DemuxOutput :=
  (remove_stream dx sid,
   add_events (set_emit o (remove_emitted_windows (demit_frames o) sid)) [(sid, uncosted i)]).

(** [CarrierDemux::reject_attributable] *)
Definition reject_attributable (dx : CarrierDemux) (f : Frame) (o : DemuxOutput)
  : CarrierDemux * res MuxError DemuxOutput :=
  let sid := stream_id f in
  let known := bool_decide (is_Some (streams dx !! sid)) in
  let o1 := if known then set_emit o (remove_emitted_windows (demit_frames o) sid) else o in
  match lift_frame (encode (reset sid RESET_PROTOCOL_ERROR)) with
  | Ok bytes =>
      let o2 := set_emit o1 (demit_frames o1 ++ [bytes]) in
      if known
      then (remove_stream dx sid,
            Ok (add_violation (add_events o2 [(sid, uncosted (ItemEnd (EndReset ProtocolError)))])
                  (frame_violation f)))
      else (dx, Ok (add_violation o2 (frame_violation f)))
  | Err e => (dx, Err e)
  | Panic => (dx, Panic)
  end.

(** The [flags == FLAG_DATA || flags == FLAG_DATA | FLAG_CLOSE] branch of
    [feed] for the known stream [st].  The table entry is re-read between the
    steps; nothing else writes it, so the model threads the entry and stores it
    on each exit. *)
Definition demux_data (dx : CarrierDemux) (o : DemuxOutput) (f : Frame) (st : CarrierStream)
  : CarrierDemux * res MuxError DemuxOutput :=
  let sid := stream_id f in
  let store st := set_streams dx (<[sid := st]> (streams dx)) in
  match debit (srecv_window st) (len (payload f)) with
  | (w, Panic) => (store (mkCarrierStream (assembler st) w), Panic)
  | (w, Err _) =>
      let dx1 := store (mkCarrierStream (assembler st) w) in
      let emit := remove_emitted_windows (demit_frames o) sid in
      match lift_frame (encode (reset sid RESET_FLOW_CONTROL_ERROR)) with
      | Ok bytes =>
          (remove_stream dx1 sid,
           Ok (add_events (set_emit o (emit ++ [bytes]))
                 [(sid, uncosted (ItemEnd (EndReset FlowControlError)))]))
      | Err e => (dx1, Err e)
      | Panic => (dx1, Panic)
      end
  | (w, Ok _) =>
      match feed_data (assembler st) (payload f) with
      | (sa, Ok assembled) =>
          let '(w', r) := consume w (auto_consumed assembled) in
          let dx2 := store (mkCarrierStream sa w') in
          let finish o1 :=
            let o2 := add_events o1 ((fun e => (sid, e)) <$> events assembled) in
            if flags f =? Z.lor FLAG_DATA FLAG_CLOSE
            then let '(sa', i) := sa_close sa in
                 let '(dx3, o3) := end_stream (store (mkCarrierStream sa' w')) o2 sid i in (dx3, Ok o3)
            else (dx2, Ok o2) in
          match r with
          | Ok None => finish o
          | Ok (Some g) =>
              match lift_frame (encode (window sid g)) with
              | Ok bytes => finish (set_emit o (demit_frames o ++ [bytes]))
              | Err e => (dx2, Err e)
              | Panic => (dx2, Panic)
              end
          | Err e => (dx2, Err e)
          | Panic => (dx2, Panic)
          end
      | (sa, Err (MuxHttp _)) | (sa, Err CapExceeded) =>
          let '(dx2, o2) :=
            end_stream (store (mkCarrierStream sa w)) o sid (ItemEnd (EndReset Unspecified)) in
          (dx2, Ok o2)
      | (sa, Err e) => (store (mkCarrierStream sa w), Err e)
      | (sa, Panic) => (store (mkCarrierStream sa w), Panic)
      end
  end.

(** One iteration of the loop in [CarrierDemux::feed]; the [debug_assert_eq!]
    is a [Panic] outcome. *)
Definition demux_frame (dx : CarrierDemux) (o : DemuxOutput) (f : Frame)
  : CarrierDemux * res MuxError DemuxOutput :=
  let sid := stream_id f in
  if sid =? 0 then
    match control_pong f with
    | Some pong =>
        match lift_frame (encode pong) with
        | Ok bytes => (dx, Ok (add_pong o bytes))
        | Err e => (dx, Err e)
        | Panic => (dx, Panic)
        end
    | None =>
        match control_pong_nonce f with
        | Some nonce => (dx, Ok (add_inbound_pong o nonce))
        | None =>
            let v := frame_violation f in
            (mkCarrierDemux (ddecoder dx) (streams dx) (Some v), Err (Protocol v))
        end
    end
  else if negb (flags_valid (flags f)) then reject_attributable dx f o
  else if has (flags f) FLAG_OPEN then reject_attributable dx f o
  else if (flags f =? FLAG_PING) || (flags f =? FLAG_PONG) then reject_attributable dx f o
  else
    match streams dx !! sid with
    | None =>
        if has (flags f) FLAG_DATA || (flags f =? FLAG_WINDOW)
        then reject_attributable dx f o else (dx, Ok o)
    | Some st =>
        if flags f =? FLAG_RESET then
          let '(_, i) := sa_reset (assembler st) (from_payload (payload f)) in
          let '(dx', o') := end_stream dx o sid i in (dx', Ok o')
        else if flags f =? FLAG_CLOSE then
          let '(_, i) := sa_close (assembler st) in
          let '(dx', o') := end_stream dx o sid i in (dx', Ok o')
        else if (flags f =? FLAG_DATA) || (flags f =? Z.lor FLAG_DATA FLAG_CLOSE)
        then demux_data dx o f st
        else if negb (flags f =? FLAG_WINDOW) then (dx, Panic)
        else match window_credit f with
             | None => reject_attributable dx f o
             | Some c => (dx, Ok (add_grant o (sid, c)))
             end
    end.

Fixpoint demux_frames (dx : CarrierDemux) (o : DemuxOutput) (fs : list Frame)
  : CarrierDemux * res MuxError DemuxOutput :=
  match fs with
  | [] => (dx, Ok o)
  | f :: fs =>
      match demux_frame dx o f with
      | (dx', Ok o') => demux_frames dx' o' fs
      | (dx', Err e) => (dx', Err e)
      | (dx', Panic) => (dx', Panic)
      end
  end.

(** [CarrierDemux::feed] *)
Definition demux_feed (dx : CarrierDemux) (data : list byte) : CarrierDemux * res MuxError DemuxOutput :=
  match fatal_violation dx with
  | Some v => (dx, Err (Protocol v))
  | None =>
      match drain (decoder_feed (ddecoder dx) data) with
      | (d, Ok fs) =>
          demux_frames (mkCarrierDemux d (streams dx) None) demux_output_default fs
      | (d, Err e) => (mkCarrierDemux d (streams dx) None, Err (MuxFrame e))
      | (d, Panic) => (mkCarrierDemux d (streams dx) None, Panic)
      end
  end.

(** ** Abstract specification

    What one frame does to its own stream, as a function of that stream's state
    alone: the new state, the events, whether the pass's pending WINDOWs are
    dropped, the frames then emitted, the grants and the violations. *)
Record local_out := mkLocal {
  l_state : option CarrierStream;
  l_events : list StreamEvent;
  l_drop : bool;
  l_emit : list (list byte);
  l_grants : list Z;
  l_violations : list FrameViolation
}.

Definition local_end (i : StreamItem) (emit : list (list byte)) (vs : list FrameViolation) : local_out :=
  mkLocal None [uncosted i] true emit [] vs.

Definition local_reject (st : option CarrierStream) (f : Frame) : local_out :=
  let emit := [wire (reset (stream_id f) RESET_PROTOCOL_ERROR)] in
  match st with
  | Some _ => local_end (ItemEnd (EndReset ProtocolError)) emit [frame_violation f]
  | None => mkLocal None [] false emit [] [frame_violation f]
  end.

Definition local_data (st : CarrierStream) (f : Frame) : local_out :=
  match debit (srecv_window st) (len (payload f)) with
  | (w, Ok _) =>
      match feed_data (assembler st) (payload f) with
      | (sa, Ok a) =>
          match consume w (auto_consumed a) with
          | (w', Ok g) =>
              if flags f =? Z.lor FLAG_DATA FLAG_CLOSE
              then mkLocal None (events a ++ [uncosted (ItemEnd EndClose)]) true [] [] []
              else mkLocal (Some (mkCarrierStream sa w')) (events a) false
                     (match g with Some g => [wire (window (stream_id f) g)] | None => [] end) [] []
          | _ => local_end (ItemEnd EndEof) [] []
          end
      | _ => local_end (ItemEnd (EndReset Unspecified)) [] []
      end
  | _ => local_end (ItemEnd (EndReset FlowControlError))
           [wire (reset (stream_id f) RESET_FLOW_CONTROL_ERROR)] []
  end.

Definition local_step (st : option CarrierStream) (f : Frame) : local_out :=
  if negb (flags_valid (flags f)) || has (flags f) FLAG_OPEN
     || (flags f =? FLAG_PING) || (flags f =? FLAG_PONG)
  then local_reject st f
  else
    match st with
    | None =>
        if has (flags f) FLAG_DATA || (flags f =? FLAG_WINDOW)
        then local_reject None f else mkLocal None [] false [] [] []
    | Some s =>
        if flags f =? FLAG_RESET
        then local_end (ItemEnd (EndReset (from_payload (payload f)))) [] []
        else if flags f =? FLAG_CLOSE then local_end (ItemEnd EndClose) [] []
        else if has (flags f) FLAG_DATA then local_data s f
        else match window_credit f with
             | None => local_reject (Some s) f
             | Some c => mkLocal (Some s) [] false [] [c] []
             end
    end.

(** Installing a local outcome for stream [sid]. *)
Definition put_state (dx : CarrierDemux) (sid : Z) (l : local_out) : CarrierDemux :=
  set_streams dx (partial_alter (fun _ => l_state l) sid (streams dx)).

Definition put_out (o : DemuxOutput) (sid : Z) (l : local_out) : DemuxOutput :=
  mkDemuxOutput (dpongs o) (inbound_pongs o)
    (stream_events o ++ (pair sid <$> l_events l))
    (dwindow_grants o ++ (pair sid <$> l_grants l))
    ((if l_drop l then remove_emitted_windows (demit_frames o) sid else demit_frames o) ++ l_emit l)
    (violations o ++ l_violations l).

(** ** Lemmas *)

(** A live stream: the bytes pending in the assembler are debited and not yet
    consumed. *)
Record stream_ok (st : CarrierStream) : Prop := {
  so_sa : sa_inv (assembler st);
  so_window : wf_window (srecv_window st);
  so_pending : pending_body_wire (assembler st) <= outstanding (srecv_window st)
}.

Definition opt_stream_ok (st : option CarrierStream) : Prop :=
  match st with Some s => stream_ok s | None => True end.

Lemma stream_ok_new : stream_ok (mkCarrierStream sa_new window_new).
Proof. split; [apply sa_inv_new|apply wf_window_new|done]. Qed.

Lemma put_self dx sid l : l_state l = streams dx !! sid -> put_state dx sid l = dx.
Proof.
  intros Hl. unfold put_state, set_streams. rewrite Hl, partial_alter_self. by destruct dx.
Qed.

Lemma put_store dx sid s l :
  put_state (set_streams dx (<[sid := s]> (streams dx))) sid l = put_state dx sid l.
Proof.
  unfold put_state, set_streams. cbn. f_equal. apply map_eq. intros i.
  destruct (decide (sid = i)) as [<-|Hi]; [by rewrite !lookup_partial_alter_eq|].
  by rewrite !lookup_partial_alter_ne, lookup_insert_ne by done.
Qed.

Lemma keep_window sid g : is_u32 sid -> keep_emitted sid (wire (window sid g)) = false.
Proof.
  intros Hs. unfold wire, window, keep_emitted. cbn [stream_id flags payload be_bytes app].
  change [as_u8 _; _; _; _] with (be_bytes 4 sid).
  rewrite be_val_be_bytes, Z.mod_small by (unfold in_range in Hs; lia).
  by rewrite Z.eqb_refl, u8_as_u8.
Qed.

Lemma remove_emitted_app fs gs sid :
  remove_emitted_windows (fs ++ gs) sid = remove_emitted_windows fs sid ++ remove_emitted_windows gs sid.
Proof. apply list.filter_app. Qed.

Lemma remove_own_window sid g : is_u32 sid -> remove_emitted_windows [wire (window sid g)] sid = [].
Proof.
  intros Hs. unfold remove_emitted_windows. rewrite list.filter_cons_False; [done|].
  by rewrite keep_window.
Qed.

Lemma reject_local dx f o :
  is_u32 (stream_id f) ->
  let l := local_reject (streams dx !! stream_id f) f in
  reject_attributable dx f o = (put_state dx (stream_id f) l, Ok (put_out o (stream_id f) l)).
Proof.
  intros Hs l. unfold reject_attributable. rewrite encode_ok by auto with spl. cbn [lift_frame map_err].
  subst l. destruct (streams dx !! stream_id f) as [st|] eqn:E.
  - rewrite bool_decide_eq_true_2 by done. cbn. unfold put_out, put_state, add_violation, add_events.
    cbn. by rewrite app_nil_r.
  - rewrite bool_decide_eq_false_2 by by intros []. cbn. f_equal; [by rewrite put_self|].
    unfold put_out, add_violation. cbn. by rewrite !app_nil_r.
Qed.

Lemma end_local dx o sid i :
  end_stream dx o sid i = (put_state dx sid (local_end i [] []), put_out o sid (local_end i [] [])).
Proof.
  unfold end_stream, put_state, put_out, add_events. cbn. by rewrite !app_nil_r.
Qed.

(** The three accounting steps of a DATA frame on a live stream. *)
Lemma data_pass st p :
  stream_ok st ->
  match debit (srecv_window st) (len p) with
  | (w, Ok _) =>
      match feed_data (assembler st) p with
      | (sa, Ok a) =>
          exists w' g, consume w (auto_consumed a) = (w', Ok g) /\ stream_ok (mkCarrierStream sa w') /\
            outstanding w' - pending_body_wire sa
            = outstanding (srecv_window st) - pending_body_wire (assembler st) + event_cost (events a) /\
            Forall (fun e => 0 <= wire_cost e) (events a)
      | (_, Err e) => assembly_error e
      | (_, Panic) => False
      end
  | (w, Err _) => w = srecv_window st
  | (_, Panic) => False
  end.
Proof.
  intros [Hsa Hw Hp]. pose proof (debit_cases (srecv_window st) (len p) Hw ltac:(lia)) as Hd.
  destruct (debit _ _) as [w [[]|e|]]; [|by destruct Hd as [-> _]|done]. destruct Hd as [Hw1 Ho1].
  pose proof (feed_data_cost (assembler st) p Hsa) as Hf.
  destruct (feed_data _ _) as [sa [a|e|]]; [|done..]. destruct Hf as [Hsa' Hsum Ha Hev].
  assert (He : 0 <= event_cost (events a)) by (by apply zsum_nonneg).
  pose proof (sa_inv_pending _ Hsa').
  destruct (consume_ok w (auto_consumed a) Hw1 ltac:(lia)) as (w' & g & -> & Hw' & _ & Ho' & _).
  exists w', g. split_and!; [done| |lia|done]. split; cbn; [done..|lia].
Qed.

Lemma demux_data_local dx o f st :
  streams dx !! stream_id f = Some st -> stream_ok st -> is_u32 (stream_id f) ->
  demux_data dx o f st
  = (put_state dx (stream_id f) (local_data st f), Ok (put_out o (stream_id f) (local_data st f))).
Proof.
  intros Hst Hok Hs. pose proof (data_pass st (payload f) Hok) as Hp. unfold demux_data, local_data.
  destruct (debit _ _) as [w [u|e|]]; [| |done].
  2:{ rewrite encode_ok by auto with spl. cbn [lift_frame map_err]. unfold put_state, put_out, add_events.
      cbn. rewrite !app_nil_r. f_equal.
      apply (put_store dx (stream_id f) _ (local_end (ItemEnd EndEof) [] [])). }
  destruct (feed_data _ _) as [sa [a|e|]]; [| |done].
  2:{ assert (Hend : forall s, let '(dx2, o2) := end_stream (set_streams dx (<[stream_id f := s]> (streams dx)))
        o (stream_id f) (ItemEnd (EndReset Unspecified)) in
        (dx2, Ok (E:=MuxError) o2) =
        (put_state dx (stream_id f) (local_end (ItemEnd (EndReset Unspecified)) [] []),
         Ok (put_out o (stream_id f) (local_end (ItemEnd (EndReset Unspecified)) [] [])))).
      { intros s. by rewrite end_local, put_store. }
      destruct Hp as [->|[h ->]]; apply Hend. }
  destruct Hp as (w' & g & -> & _). cbv zeta.
  assert (Hfin : forall bs,
    (let o2 := add_events (set_emit o (demit_frames o ++ bs)) ((fun e => (stream_id f, e)) <$> events a) in
     if flags f =? Z.lor FLAG_DATA FLAG_CLOSE
     then let '(sa', i) := sa_close sa in
          let '(dx3, o3) := end_stream (set_streams dx
            (<[stream_id f := mkCarrierStream sa' w']> (streams dx))) o2 (stream_id f) i in
          (dx3, Ok (E:=MuxError) o3)
     else (set_streams dx (<[stream_id f := mkCarrierStream sa w']> (streams dx)), Ok o2)) =
    let l := if flags f =? Z.lor FLAG_DATA FLAG_CLOSE
             then mkLocal None (events a ++ [uncosted (ItemEnd EndClose)]) true
                    (remove_emitted_windows bs (stream_id f)) [] []
             else mkLocal (Some (mkCarrierStream sa w')) (events a) false bs [] [] in
    (put_state dx (stream_id f) l, Ok (put_out o (stream_id f) l))).
  { intros bs. cbv zeta. destruct (_ =? _).
    - cbn [sa_close]. rewrite end_local, put_store. unfold put_state, put_out, add_events, set_emit. cbn.
      rewrite fmap_app, remove_emitted_app, !app_nil_r. cbn. by rewrite app_assoc.
    - unfold put_state, put_out, set_streams, add_events, set_emit. cbn. by rewrite !app_nil_r. }
  destruct g as [g|].
  - rewrite encode_ok by auto with spl. cbn [lift_frame map_err].
    specialize (Hfin [wire (window (stream_id f) g)]). rewrite remove_own_window in Hfin by done.
    apply Hfin.
  - specialize (Hfin []). rewrite app_nil_r in Hfin. replace (set_emit o (demit_frames o)) with o in Hfin
      by (by destruct o). apply Hfin.
Qed.

(** The flag values left after the screening branches. *)
Lemma screened_flags fl :
  flags_valid fl = true -> has fl FLAG_OPEN = false -> (fl =? FLAG_PING) = false -> (fl =? FLAG_PONG) = false ->
  fl = FLAG_RESET \/ fl = FLAG_CLOSE \/ fl = FLAG_DATA \/ fl = Z.lor FLAG_DATA FLAG_CLOSE \/ fl = FLAG_WINDOW.
Proof.
  unfold flags_valid. rewrite existsb_exists. intros (x & Hx & ->%Z.eqb_eq).
  repeat (destruct Hx as [<-|Hx]; [by auto 6|]). done.
Qed.

(** Refinement: a frame of a non-control stream does to the demux exactly what
    [local_step] does to its stream. *)
Lemma demux_frame_local dx o f :
  wf_frame f -> stream_id f <> 0 -> opt_stream_ok (streams dx !! stream_id f) ->
  let l := local_step (streams dx !! stream_id f) f in
  demux_frame dx o f = (put_state dx (stream_id f) l, Ok (put_out o (stream_id f) l)).
Proof.
  intros (Hs & _ & _) H0 Hok l. unfold demux_frame. rewrite (proj2 (Z.eqb_neq _ _) H0).
  subst l. unfold local_step.
  destruct (flags_valid (flags f)) eqn:Ev; cbn [negb orb]; [|by apply reject_local].
  destruct (has (flags f) FLAG_OPEN) eqn:Eo; cbn [orb]; [by apply reject_local|].
  destruct (flags f =? FLAG_PING) eqn:Ei; cbn [orb]; [by apply reject_local|].
  destruct (flags f =? FLAG_PONG) eqn:Ep; cbn [orb]; [by apply reject_local|].
  destruct (streams dx !! stream_id f) as [st|] eqn:Est.
  2:{ destruct (_ || _); [rewrite <- Est; by apply reject_local|].
      rewrite put_self by done. unfold put_out. cbn. rewrite !app_nil_r. by destruct o. }
  destruct (screened_flags _ Ev Eo Ei Ep) as [Hf|[Hf|[Hf|[Hf|Hf]]]]; rewrite Hf; cbn.
  - apply (f_equal (fun r => (fst r, Ok (snd r))) (end_local dx o (stream_id f) _)).
  - apply (f_equal (fun r => (fst r, Ok (snd r))) (end_local dx o (stream_id f) _)).
  - by apply demux_data_local.
  - by apply demux_data_local.
  - destruct (window_credit f) as [c|]; [|etrans; [by apply reject_local|by rewrite Est]].
    rewrite put_self by done. unfold put_out, add_grant. cbn. by rewrite !app_nil_r.
Qed.

(** Local accounting: what stays outstanding is what was attributed to events
    or is pending. *)
Lemma local_step_account st f :
  opt_stream_ok st ->
  let l := local_step st f in
  match l_state l with
  | Some st' =>
      stream_ok st' /\ exists st0, st = Some st0 /\
      outstanding (srecv_window st') - pending_body_wire (assembler st')
      = outstanding (srecv_window st0) - pending_body_wire (assembler st0) + event_cost (l_events l)
  | None => True
  end /\ Forall (fun e => 0 <= wire_cost e) (l_events l).
Proof.
  intros Hok l. subst l.
  assert (Hend : forall i em vs, Forall (fun e => 0 <= wire_cost e) (l_events (local_end i em vs))).
  { intros. constructor; [cbn; lia|done]. }
  assert (Hrej : forall s, l_state (local_reject s f) = None /\
                 Forall (fun e => 0 <= wire_cost e) (l_events (local_reject s f))).
  { intros [s|]; [split; [done|apply Hend]|done]. }
  unfold local_step. destruct (_ || _ || _ || _); [by destruct (Hrej st) as [-> ?]|].
  destruct st as [s|].
  2:{ destruct (_ || _); [by destruct (Hrej None) as [-> ?]|done]. }
  destruct (flags f =? FLAG_RESET); [done|]. destruct (flags f =? FLAG_CLOSE); [done|].
  destruct (has (flags f) FLAG_DATA).
  - unfold local_data. pose proof (data_pass s (payload f) Hok) as Hp.
    destruct (debit _ _) as [w [[]|e|]]; [|done..]. destruct (feed_data _ _) as [sa [a|e|]]; [|done..].
    destruct Hp as (w' & g & -> & Hok' & Hsum & Hev). destruct (_ =? _); cbn.
    + split; [done|]. apply Forall_app. split; [done|]. constructor; [cbn; lia|done].
    + split; [|done]. split; [done|]. by eexists.
  - destruct (window_credit f); [|by destruct (Hrej (Some s)) as [-> ?]]. cbn. split; [|done].
    split; [done|]. eexists. split; [done|]. unfold event_cost. cbn. lia.
Qed.

(** Local terminal discipline: nothing is said of an unknown stream, a stream
    that stays live reports no end, and a stream that ends reports its end once
    and last, with every pending WINDOW of the pass dropped. *)
Definition is_end (e : StreamEvent) : bool := match item e with ItemEnd _ => true | _ => false end.

Lemma sa_feed_body_no_end sa p out :
  match sa_feed_body sa p out with
  | (_, Ok out') => Forall (fun e => is_end e = false) (events out) ->
                    Forall (fun e => is_end e = false) (events out')
  | _ => True
  end.
Proof.
  unfold sa_feed_body. destruct (len p =? 0); [done|]. cbv zeta.
  destruct (if chunked sa then _ else _) as [cd [b|e|]]; [|done..].
  destruct (len b =? 0); [done|]. intros H. apply Forall_app. split; [done|]. by constructor.
Qed.

Lemma feed_data_no_end sa p :
  match feed_data sa p with
  | (_, Ok out) => Forall (fun e => is_end e = false) (events out)
  | _ => True
  end.
Proof.
  unfold feed_data. destruct (negb _).
  - cbv zeta. destruct (find_subsequence _ _) as [i|]; [|by destruct (_ >? _)].
    destruct (parse_head _) as [[st hs]|e|]; [|done..].
    destruct (len _ =? 0); [by constructor|].
    pose proof (fun s o => sa_feed_body_no_end s (zdrop (i + 4) (head_buf sa ++ p)) o) as H.
    match goal with |- match sa_feed_body ?s ?b ?o with _ => _ end => specialize (H s o) end.
    destruct (sa_feed_body _ _ _) as [? []]; [|done..]. apply H. by constructor.
  - pose proof (sa_feed_body_no_end sa p (mkAssemblerOutput [] 0)) as H.
    destruct (sa_feed_body _ _ _) as [? []]; [|done..]. by apply H.
Qed.

Lemma local_step_ends st f :
  opt_stream_ok st ->
  let l := local_step st f in
  match st, l_state l with
  | None, s => s = None /\ l_events l = [] /\ Forall (fun b => exists r, b = wire (reset (stream_id f) r)) (l_emit l)
  | Some _, Some _ => Forall (fun e => is_end e = false) (l_events l) /\ l_drop l = false
  | Some _, None =>
      (exists es e, l_events l = es ++ [e] /\ Forall (fun e => is_end e = false) es /\ is_end e = true) /\
      l_drop l = true /\ Forall (fun b => exists r, b = wire (reset (stream_id f) r)) (l_emit l)
  end.
Proof.
  intros Hok l. subst l.
  assert (Hone : forall r : Z, Forall (fun b => exists r, b = wire (reset (stream_id f) r))
                                 [wire (reset (stream_id f) r)]).
  { intros r. constructor; [by eexists|done]. }
  assert (Hi : forall i, is_end (uncosted (ItemEnd i)) = true ->
    exists es e, [uncosted (ItemEnd i)] = es ++ [e] /\ Forall (fun e => is_end e = false) es /\ is_end e = true).
  { intros i _. by exists [], (uncosted (ItemEnd i)). }
  unfold local_step. destruct (_ || _ || _ || _); [destruct st; cbn; auto|].
  destruct st as [s|]; [|destruct (_ || _); cbn; auto].
  destruct (flags f =? FLAG_RESET); [cbn; auto|]. destruct (flags f =? FLAG_CLOSE); [cbn; auto|].
  destruct (has (flags f) FLAG_DATA); [|destruct (window_credit f); cbn; auto].
  unfold local_data. pose proof (data_pass s (payload f) Hok) as Hp.
  destruct (debit _ _) as [w [[]|e|]]; [|cbn; auto..].
  pose proof (feed_data_no_end (assembler s) (payload f)) as Hne.
  destruct (feed_data _ _) as [sa [a|e|]]; [|cbn; auto..].
  destruct Hp as (w' & g & -> & _). destruct (_ =? _); cbn; [|done].
  split; [|done]. by do 2 eexists.
Qed.

(** *** The frame loop *)

Definition demux_ok (dx : CarrierDemux) : Prop := map_Forall (fun _ => stream_ok) (streams dx).

Lemma demux_ok_lookup dx sid : demux_ok dx -> opt_stream_ok (streams dx !! sid).
Proof. intros H. destruct (streams dx !! sid) eqn:E; [by apply (H _ _ E)|done]. Qed.

Lemma lookup_put dx sid l i :
  streams (put_state dx sid l) !! i = if decide (sid = i) then l_state l else streams dx !! i.
Proof.
  unfold put_state. cbn. case_decide; subst;
    [by rewrite lookup_partial_alter_eq|by rewrite lookup_partial_alter_ne].
Qed.

Lemma demux_ok_put dx sid f :
  demux_ok dx -> demux_ok (put_state dx sid (local_step (streams dx !! sid) f)).
Proof.
  intros H i st. rewrite lookup_put. case_decide; [|apply H].
  pose proof (local_step_account (streams dx !! sid) f (demux_ok_lookup dx sid H)) as [Ha _].
  intros E. rewrite E in Ha. by destruct Ha.
Qed.

(** The outputs a control frame may leave: only the control lists grow. *)
Definition same_streams (o o' : DemuxOutput) : Prop :=
  stream_events o' = stream_events o /\ dwindow_grants o' = dwindow_grants o /\
  demit_frames o' = demit_frames o /\ violations o' = violations o.

Lemma demux_frame_cases dx o f :
  demux_ok dx -> wf_frame f ->
  match demux_frame dx o f with
  | (dx', Ok o') =>
      (stream_id f = 0 /\ dx' = dx /\ same_streams o o') \/
      (stream_id f <> 0 /\
       let l := local_step (streams dx !! stream_id f) f in
       dx' = put_state dx (stream_id f) l /\ o' = put_out o (stream_id f) l)
  | (dx', Err e) =>
      stream_id f = 0 /\ e = Protocol (frame_violation f) /\
      dx' = mkCarrierDemux (ddecoder dx) (streams dx) (Some (frame_violation f))
  | (_, Panic) => False
  end.
Proof.
  intros Hok Hf. destruct (decide (stream_id f = 0)) as [H0|H0].
  - unfold demux_frame. rewrite H0. cbn [Z.eqb].
    destruct (control_pong f) as [p|] eqn:Ep.
    { rewrite encode_ok by eauto with spl. cbn. by left. }
    destruct (control_pong_nonce f); [by left|done].
  - rewrite demux_frame_local by auto using demux_ok_lookup. by right.
Qed.

Lemma demux_frames_ok fs : forall dx o,
  demux_ok dx -> Forall wf_frame fs ->
  match demux_frames dx o fs with
  | (dx', Ok _) => demux_ok dx' /\ fatal_violation dx' = fatal_violation dx
  | (dx', Err e) =>
      demux_ok dx' /\ exists v, e = Protocol v /\ fv_stream_id v = 0 /\ fatal_violation dx' = Some v
  | (_, Panic) => False
  end.
Proof.
  induction fs as [|f fs IH]; intros dx o Hok Hwf; [done|].
  apply Forall_cons_1 in Hwf as [Hf Hwf]. cbn [demux_frames].
  pose proof (demux_frame_cases dx o f Hok Hf) as Hc.
  destruct (demux_frame dx o f) as [dx1 [o1|e|]]; [| |done].
  - destruct Hc as [(_ & -> & _)|(_ & -> & _)]; [by apply IH|].
    exact (IH (put_state dx (stream_id f) _) o1 (demux_ok_put dx _ f Hok) Hwf).
  - destruct Hc as (H0 & -> & ->). split; [done|]. by eexists.
Qed.

(** *** Isolation *)

(** The stream an encoded frame belongs to. *)
Definition frame_sid (b : list byte) : Z := be_val (ztake 4 b).

Definition events_for (sid : Z) (o : DemuxOutput) : list (Z * StreamEvent) :=
  filter (fun e => fst e = sid) (stream_events o).
Definition grants_for (sid : Z) (o : DemuxOutput) : list (Z * Z) :=
  filter (fun e => fst e = sid) (dwindow_grants o).
Definition emit_for (sid : Z) (o : DemuxOutput) : list (list byte) :=
  filter (fun b => frame_sid b = sid) (demit_frames o).

(** Two demux runs that agree on stream [sid]. *)
Definition agree (sid : Z) (s1 s2 : CarrierDemux * DemuxOutput) : Prop :=
  streams (fst s1) !! sid = streams (fst s2) !! sid /\
  events_for sid (snd s1) = events_for sid (snd s2) /\
  grants_for sid (snd s1) = grants_for sid (snd s2) /\
  emit_for sid (snd s1) = emit_for sid (snd s2).

Lemma frame_sid_wire f : is_u32 (stream_id f) -> frame_sid (wire f) = stream_id f.
Proof.
  intros Hs. unfold frame_sid, wire. change (ztake 4 _) with (be_bytes 4 (stream_id f)).
  rewrite be_val_be_bytes. by apply Z.mod_small.
Qed.

Lemma local_step_emit st f :
  is_u32 (stream_id f) -> Forall (fun b => frame_sid b = stream_id f) (l_emit (local_step st f)).
Proof.
  intros Hs.
  assert (Hr : forall r, frame_sid (wire (reset (stream_id f) r)) = stream_id f)
    by (intros r; by apply (frame_sid_wire (reset (stream_id f) r))).
  assert (Hw : forall g, frame_sid (wire (window (stream_id f) g)) = stream_id f)
    by (intros g; by apply (frame_sid_wire (window (stream_id f) g))).
  unfold local_step, local_data, local_reject. repeat case_match; cbn; eauto.
Qed.

Lemma filter_none {A} (P : A -> Prop) `{forall x, Decision (P x)} l :
  Forall (fun x => ~ P x) l -> filter P l = [].
Proof. induction 1; [done|]. by rewrite list.filter_cons_False. Qed.

Lemma filter_all {A} (P : A -> Prop) `{forall x, Decision (P x)} l : Forall P l -> filter P l = l.
Proof. induction 1 as [|x l Hx Hl IH]; [done|]. rewrite list.filter_cons_True, IH; done. Qed.

Lemma keep_other sid sid' b : sid <> sid' -> frame_sid b = sid -> keep_emitted sid' b = true.
Proof.
  intros Hne Hb. unfold frame_sid in Hb. unfold keep_emitted.
  do 5 (destruct b as [|? b]; [done|]).
  change (ztake 4 (b0 :: b1 :: b2 :: b3 :: b4 :: b)) with [b0; b1; b2; b3] in Hb. rewrite Hb.
  by replace (sid =? sid') with false by lia.
Qed.

Lemma filter_comm {A} (P Q : A -> Prop) `{forall x, Decision (P x)} `{forall x, Decision (Q x)} (l : list A) :
  filter P (filter Q l) = filter Q (filter P l).
Proof. rewrite !list_filter_filter. apply list_filter_iff. tauto. Qed.

Lemma filter_pair_ne {A} (sid sid' : Z) (l : list A) :
  sid <> sid' -> filter (fun e => fst e = sid) (pair sid' <$> l) = [].
Proof. intros Hne. apply filter_none, Forall_fmap, Forall_true. cbn. congruence. Qed.

Lemma put_out_ne sid o f l :
  sid <> stream_id f -> Forall (fun b => frame_sid b = stream_id f) (l_emit l) ->
  let o' := put_out o (stream_id f) l in
  events_for sid o' = events_for sid o /\ grants_for sid o' = grants_for sid o /\
  emit_for sid o' = emit_for sid o.
Proof.
  intros Hne He o'. unfold events_for, grants_for, emit_for, o', put_out. cbn.
  rewrite !list.filter_app, !filter_pair_ne, !app_nil_r by done. split_and!; [done..|].
  rewrite (filter_none _ (l_emit l)), app_nil_r by (eapply Forall_impl; [|exact He]; cbn; congruence).
  destruct (l_drop l); [|done]. unfold remove_emitted_windows. rewrite filter_comm.
  apply filter_all, list.Forall_forall. intros b [Hb _]%list_elem_of_filter. by eapply keep_other.
Qed.

Lemma put_out_agree sid o1 o2 l :
  events_for sid o1 = events_for sid o2 -> grants_for sid o1 = grants_for sid o2 ->
  emit_for sid o1 = emit_for sid o2 ->
  events_for sid (put_out o1 sid l) = events_for sid (put_out o2 sid l) /\
  grants_for sid (put_out o1 sid l) = grants_for sid (put_out o2 sid l) /\
  emit_for sid (put_out o1 sid l) = emit_for sid (put_out o2 sid l).
Proof.
  unfold events_for, grants_for, emit_for, put_out. cbn. intros H1 H2 H3.
  rewrite !list.filter_app, H1, H2. split_and!; [done..|]. f_equal.
  destruct (l_drop l); [|done]. unfold remove_emitted_windows. 
  by rewrite (filter_comm _ _ (demit_frames o1)), (filter_comm _ _ (demit_frames o2)), H3.
Qed.

Lemma isolation sid fs : forall dx1 o1 dx2 o2 dx1' o1',
  sid <> 0 -> Forall wf_frame fs -> demux_ok dx1 -> demux_ok dx2 ->
  agree sid (dx1, o1) (dx2, o2) ->
  demux_frames dx1 o1 fs = (dx1', Ok o1') ->
  exists dx2' o2',
    demux_frames dx2 o2 (filter (fun f => stream_id f = sid) fs) = (dx2', Ok o2') /\
    agree sid (dx1', o1') (dx2', o2').
Proof.
  induction fs as [|f fs IH]; intros dx1 o1 dx2 o2 dx1' o1' H0 Hwf Hok1 Hok2 Hag H.
  { cbn in *. simplify_eq. by do 2 eexists. }
  apply Forall_cons_1 in Hwf as [Hf Hwf]. cbn [demux_frames] in H.
  pose proof (demux_frame_cases dx1 o1 f Hok1 Hf) as Hc.
  destruct (demux_frame dx1 o1 f) as [dxm [om|e|]]; [|done..].
  destruct (decide (stream_id f = sid)) as [Hs|Hs].
  - rewrite list.filter_cons_True by done. cbn [demux_frames].
    destruct Hc as [(Hz & _)|(_ & -> & ->)]; [congruence|].
    rewrite (demux_frame_local dx2 o2 f Hf ltac:(congruence) (demux_ok_lookup _ _ Hok2)).
    destruct Hag as (Hl & He & Hg & Hem). cbn in Hl, He, Hg, Hem. rewrite Hs in *. rewrite <- Hl.
    refine (IH _ _ _ _ _ _ H0 Hwf (demux_ok_put dx1 sid f Hok1) _ _ H);
      [rewrite Hl; by apply demux_ok_put|].
    destruct (put_out_agree sid o1 o2 (local_step (streams dx1 !! sid) f) He Hg Hem) as (? & ? & ?).
    split_and!; cbn [fst snd]; [by rewrite !lookup_put, !decide_True|done..].
  - rewrite list.filter_cons_False by done. destruct Hag as (Hl & He & Hg & Hem).
    cbn in Hl, He, Hg, Hem. destruct Hc as [(_ & -> & He' & Hg' & Hem' & _)|(_ & -> & ->)].
    + refine (IH _ _ _ _ _ _ H0 Hwf Hok1 Hok2 _ H). unfold agree, events_for, grants_for, emit_for in *.
      cbn [fst snd]. by rewrite He', Hg', Hem'.
    + refine (IH _ _ _ _ _ _ H0 Hwf (demux_ok_put dx1 (stream_id f) f Hok1) Hok2 _ H).
      destruct (put_out_ne sid o1 f (local_step (streams dx1 !! stream_id f) f) ltac:(congruence)
        (local_step_emit _ f (proj1 Hf))) as (Ha & Hb & Hd).
      split_and!; cbn [fst snd]; [rewrite lookup_put, decide_False; done|congruence..].
Qed.

(** *** Terminal events *)

(** What an output says of stream [sid] when the table entry is [st] and the
    stream was [live] when the pass began. *)
Definition term_ok (sid : Z) (live : bool) (st : option CarrierStream) (o : DemuxOutput) : Prop :=
  match st with
  | Some _ => live = true /\ Forall (fun e => is_end (snd e) = false) (events_for sid o)
  | None =>
      (if live
       then exists es e, events_for sid o = es ++ [e] /\
              Forall (fun e => is_end (snd e) = false) es /\ is_end (snd e) = true
       else events_for sid o = []) /\
      Forall (fun b => keep_emitted sid b = true) (demit_frames o)
  end.

Lemma keep_reset sid r : is_u32 sid -> keep_emitted sid (wire (reset sid r)) = true.
Proof.
  intros Hs. unfold wire, reset, keep_emitted. cbn [stream_id flags payload be_bytes app].
  rewrite u8_as_u8. by rewrite orb_true_r.
Qed.

Lemma events_put_same sid o l :
  events_for sid (put_out o sid l) = events_for sid o ++ (pair sid <$> l_events l).
Proof.
  unfold events_for, put_out. cbn. rewrite list.filter_app. f_equal.
  apply filter_all, Forall_fmap, Forall_true. done.
Qed.

Lemma term_ok_same sid live dx o f :
  stream_id f = sid -> is_u32 sid -> demux_ok dx ->
  term_ok sid live (streams dx !! sid) o ->
  let l := local_step (streams dx !! sid) f in term_ok sid live (l_state l) (put_out o sid l).
Proof.
  intros Hs Hu Hok Ht l. pose proof (local_step_ends (streams dx !! sid) f (demux_ok_lookup _ _ Hok)) as He.
  fold l in He. rewrite Hs in He.
  assert (Hresets : Forall (fun b => exists r, b = wire (reset sid r)) (l_emit l) ->
                    Forall (fun b => keep_emitted sid b = true) (l_emit l)).
  { intros H. eapply Forall_impl; [|exact H]. intros b [r ->]. by apply keep_reset. }
  unfold term_ok in *. rewrite events_put_same.
  destruct (streams dx !! sid) as [st|].
  - destruct Ht as [-> Hev]. destruct (l_state l) as [st'|].
    + destruct He as [He _]. split; [done|]. apply Forall_app. split; [done|]. by apply Forall_fmap.
    + destruct He as ((es & e & -> & Hes & Hend) & Hdr & Hem). split.
      * exists (events_for sid o ++ (pair sid <$> es)), (sid, e). rewrite fmap_app, app_assoc.
        split; [done|]. split; [|done]. apply Forall_app. split; [done|]. by apply Forall_fmap.
      * unfold put_out. cbn. rewrite Hdr. apply Forall_app. split; [|by apply Hresets].
        unfold remove_emitted_windows. apply list.Forall_forall. by intros b [Hb _]%list_elem_of_filter.
  - destruct He as (-> & -> & Hem). destruct Ht as [Hev Hk]. cbn [fmap list_fmap]. rewrite app_nil_r.
    split; [done|]. unfold put_out. cbn. apply Forall_app. split; [|by apply Hresets].
    destruct (l_drop l); [|done]. unfold remove_emitted_windows. apply list.Forall_forall.
    by intros b [Hb _]%list_elem_of_filter.
Qed.

Lemma term_ok_other sid live st o f l :
  sid <> stream_id f -> Forall (fun b => frame_sid b = stream_id f) (l_emit l) ->
  term_ok sid live st o -> term_ok sid live st (put_out o (stream_id f) l).
Proof.
  intros Hne He. destruct (put_out_ne sid o f l Hne He) as (Hev & _ & _).
  unfold term_ok. rewrite Hev. destruct st; [done|]. intros [H1 Hk]. split; [done|].
  unfold put_out. cbn. apply Forall_app. split.
  - destruct (l_drop l); [|done]. unfold remove_emitted_windows. apply list.Forall_forall.
    intros b [_ Hb]%list_elem_of_filter. rewrite list.Forall_forall in Hk. by apply Hk.
  - eapply Forall_impl; [|exact He]. intros b Hb. cbn in Hb.
    destruct b as [|? b]; [done|]. by apply (keep_other (stream_id f)).
Qed.

Lemma demux_frames_term sid live fs : forall dx o,
  is_u32 sid -> sid <> 0 -> demux_ok dx -> Forall wf_frame fs ->
  term_ok sid live (streams dx !! sid) o ->
  match demux_frames dx o fs with
  | (dx', Ok o') => term_ok sid live (streams dx' !! sid) o'
  | _ => True
  end.
Proof.
  induction fs as [|f fs IH]; intros dx o Hu H0 Hok Hwf Ht; [done|].
  apply Forall_cons_1 in Hwf as [Hf Hwf]. cbn [demux_frames].
  pose proof (demux_frame_cases dx o f Hok Hf) as Hc.
  destruct (demux_frame dx o f) as [dx1 [o1|e|]]; [|done..].
  destruct Hc as [(_ & -> & He & _ & Hem & _)|(Hnz & -> & ->)].
  { apply IH; try done. unfold term_ok, events_for in *. by rewrite He, Hem. }
  apply (IH (put_state dx (stream_id f) _)); [done..|by apply demux_ok_put|done|].
  rewrite lookup_put. case_decide as Hs.
  - rewrite Hs. by apply term_ok_same.
  - apply term_ok_other; [congruence|apply local_step_emit, Hf|done].
Qed.

(** *** The carrier and its consumer *)

(** Operations on a carrier: the coordinator opens and removes streams and
    feeds reads; the local consumer drains the queued events, each of which
    returns its wire cost through [consume]. *)
Inductive carrier_op :=
| COpen (sid : Z)
| CRemove (sid : Z)
| CFeed (data : list byte)
| CDrain (i : nat).

Record carrier := mkCarrier { demux : CarrierDemux; queue : list (Z * StreamEvent) }.

(** One operation; [None] is a panic.  A feed error leaves the queue as it was. *)
Definition carrier_step (c : carrier) (op : carrier_op) : option carrier :=
  match op with
  | COpen sid => Some (mkCarrier (open_stream (demux c) sid) (queue c))
  | CRemove sid => Some (mkCarrier (remove_stream (demux c) sid) (queue c))
  | CFeed data =>
      match demux_feed (demux c) data with
      | (dx, Ok o) => Some (mkCarrier dx (queue c ++ stream_events o))
      | (dx, Err _) => Some (mkCarrier dx (queue c))
      | (_, Panic) => None
      end
  | CDrain i =>
      match queue c !! i with
      | None => Some c
      | Some (sid, e) =>
          match demux_consume (demux c) sid (wire_cost e) with
          | (_, Panic) => None
          | (dx, _) => Some (mkCarrier dx (delete i (queue c)))
          end
      end
  end.

Fixpoint carrier_run (c : carrier) (ops : list carrier_op) : option carrier :=
  match ops with
  | [] => Some c
  | op :: ops => carrier_step c op ≫= fun c' => carrier_run c' ops
  end.

Definition opened (ops : list carrier_op) : list Z :=
  omap (fun op => match op with COpen sid => Some sid | _ => None end) ops.

(** Undrained cost of stream [sid]. *)
Definition owed (sid : Z) (q : list (Z * StreamEvent)) : Z :=
  zsum (fun e => if decide (fst e = sid) then wire_cost (snd e) else 0) q.

(** The demux's books balance with the queue; once a fatal violation discarded
    a pass's events they can only show more debited than is owed. *)
Definition balanced (dx : CarrierDemux) (q : list (Z * StreamEvent)) : Prop :=
  map_Forall (fun sid st =>
    let held := outstanding (srecv_window st) - pending_body_wire (assembler st) in
    match fatal_violation dx with
    | Some _ => owed sid q <= held
    | None => owed sid q = held
    end) (streams dx).

Record carrier_inv (used : list Z) (c : carrier) : Prop := {
  ci_ok : demux_ok (demux c);
  ci_balanced : balanced (demux c) (queue c);
  ci_cost : Forall (fun e => 0 <= wire_cost (snd e)) (queue c);
  ci_keys : map_Forall (fun sid _ => sid ∈ used) (streams (demux c));
  ci_queue : Forall (fun e => fst e ∈ used) (queue c);
  ci_u32 : Forall is_u32 used
}.

Lemma owed_app sid q r : owed sid (q ++ r) = owed sid q + owed sid r.
Proof. apply zsum_app. Qed.

Lemma owed_cons sid e q :
  owed sid (e :: q) = (if decide (fst e = sid) then wire_cost (snd e) else 0) + owed sid q.
Proof. done. Qed.

Lemma owed_nonneg sid q : Forall (fun e => 0 <= wire_cost (snd e)) q -> 0 <= owed sid q.
Proof.
  intros H. apply zsum_nonneg. eapply Forall_impl; [|exact H]. intros e He. cbn in *.
  case_decide; lia.
Qed.

Lemma owed_tagged sid i es : owed i (pair sid <$> es) = if decide (sid = i) then event_cost es else 0.
Proof.
  induction es as [|e es IH]; [cbn; by case_decide|].
  rewrite fmap_cons, owed_cons, IH. cbn [fst snd]. by case_decide.
Qed.

Lemma owed_unused sid q : Forall (fun e => fst e <> sid) q -> owed sid q = 0.
Proof.
  induction 1 as [|e q He Hq IH]; [done|]. rewrite owed_cons, decide_False by done. lia.
Qed.

Lemma owed_delete sid q i s e :
  q !! i = Some (s, e) -> owed sid (delete i q) = owed sid q - if decide (s = sid) then wire_cost e else 0.
Proof.
  intros H. rewrite <- (take_drop_middle q i _ H) at 2. rewrite delete_take_drop, !owed_app, owed_cons.
  cbn [fst snd]. lia.
Qed.

(** One frame keeps the books, the ids and the costs in order. *)
Lemma carrier_inv_frame used dx q o f :
  fatal_violation dx = None -> wf_frame f ->
  carrier_inv used (mkCarrier dx (q ++ stream_events o)) ->
  let l := local_step (streams dx !! stream_id f) f in
  carrier_inv used (mkCarrier (put_state dx (stream_id f) l)
                      (q ++ stream_events (put_out o (stream_id f) l))).
Proof.
  intros Hfat Hf [Hok Hbal Hcost Hkeys Hq Hu] l. cbn [demux queue] in *.
  set (sid := stream_id f) in *.
  pose proof (local_step_account (streams dx !! sid) f (demux_ok_lookup _ _ Hok)) as [Hacc Hec].
  pose proof (local_step_ends (streams dx !! sid) f (demux_ok_lookup _ _ Hok)) as Hends.
  fold l in Hacc, Hec, Hends.
  assert (Hev : stream_events (put_out o sid l) = stream_events o ++ (pair sid <$> l_events l)) by done.
  split; cbn [demux queue]; rewrite ?Hev, ?app_assoc.
  - by apply demux_ok_put.
  - intros i st. rewrite lookup_put. change (fatal_violation (put_state dx sid l)) with (fatal_violation dx).
    rewrite owed_app, owed_tagged. unfold balanced in Hbal. rewrite Hfat in *. case_decide as Hi.
    + intros E. rewrite E in Hacc. destruct Hacc as (_ & st0 & E0 & Hsum). subst i.
      specialize (Hbal _ _ E0). cbn in *. lia.
    + intros E. specialize (Hbal _ _ E). cbn in *. lia.
  - apply Forall_app. split; [done|]. apply Forall_fmap. done.
  - intros i st. rewrite lookup_put. case_decide as Hi; [|by apply Hkeys].
    subst i. intros E. rewrite E in Hacc. destruct Hacc as (_ & st0 & E0 & _). by apply (Hkeys _ _ E0).
  - apply Forall_app. split; [done|]. destruct (streams dx !! sid) as [st|] eqn:E.
    + apply Forall_fmap, Forall_true. intros e. by apply (Hkeys _ _ E).
    + destruct Hends as (_ & -> & _). done.
  - done.
Qed.

Lemma carrier_inv_frames used q fs : forall dx o,
  fatal_violation dx = None -> Forall wf_frame fs ->
  carrier_inv used (mkCarrier dx (q ++ stream_events o)) ->
  match demux_frames dx o fs with
  | (dx', Ok o') => carrier_inv used (mkCarrier dx' (q ++ stream_events o'))
  | (dx', Err _) => carrier_inv used (mkCarrier dx' q)
  | (_, Panic) => False
  end.
Proof.
  induction fs as [|f fs IH]; intros dx o Hfat Hwf I; [done|].
  apply Forall_cons_1 in Hwf as [Hf Hwf]. cbn [demux_frames].
  pose proof I as [Hok Hbal Hcost Hkeys Hq Hu]. cbn [demux queue] in *.
  pose proof (demux_frame_cases dx o f Hok Hf) as Hc.
  destruct (demux_frame dx o f) as [dx1 [o1|e|]]; [| |done].
  - destruct Hc as [(_ & -> & He & _)|(_ & -> & ->)].
    + apply IH; [done..|]. by rewrite He.
    + apply (IH (put_state dx (stream_id f) _)); [done..|]. by apply carrier_inv_frame.
  - destruct Hc as (_ & _ & ->). apply Forall_app in Hcost as [Hcost Hcost'].
    apply Forall_app in Hq as [Hq Hq'].
    split; cbn [demux queue streams]; [done| |done..].
    intros i st E. cbn. unfold balanced in Hbal. specialize (Hbal _ _ E). cbn in Hbal.
    rewrite Hfat, owed_app in Hbal. pose proof (owed_nonneg i _ Hcost'). lia.
Qed.

(** What a read leaves behind, without the frame by frame detail: the books of
    the streams it keeps, that its events belong to streams that were live and
    that a stream is gone once it has reported its end, and what it emits. *)
Definition held (st : CarrierStream) : Z := outstanding (srecv_window st) - pending_body_wire (assembler st).

Definition control_frame (b : list byte) : Prop :=
  exists f, b = wire f /\ wf_frame f /\ (stream_id f = 0 \/ flags f = FLAG_WINDOW \/ flags f = FLAG_RESET).

Record read_ok (dx dx' : CarrierDemux) (o : DemuxOutput) : Prop := {
  ro_ok : demux_ok dx';
  ro_held : forall sid st', streams dx' !! sid = Some st' ->
    exists st, streams dx !! sid = Some st /\ held st' = held st + owed sid (stream_events o);
  ro_cost : Forall (fun e => 0 <= wire_cost (snd e)) (stream_events o);
  ro_known : Forall (fun e => is_Some (streams dx !! fst e)) (stream_events o);
  ro_ends : Forall (fun e => is_end (snd e) = true -> streams dx' !! fst e = None) (stream_events o);
  ro_grants : Forall (fun g => 0 <= snd g) (dwindow_grants o);
  ro_emit : Forall control_frame (demit_frames o);
  ro_pongs : Forall control_frame (dpongs o)
}.

Lemma local_step_control st f :
  wf_frame f -> Forall control_frame (l_emit (local_step st f)) /\ Forall (fun c => 0 <= c) (l_grants (local_step st f)).
Proof.
  intros [Hs _].
  assert (Hr : forall r, control_frame (wire (reset (stream_id f) r)))
    by (eexists; split_and!; [done|eauto with spl|auto]).
  assert (Hw : forall g, control_frame (wire (window (stream_id f) g)))
    by (eexists; split_and!; [done|eauto with spl|auto]).
  unfold local_step, local_data, local_reject.
  repeat case_match; cbn; split; eauto; repeat constructor.
  eapply proj1, window_credit_range; eassumption.
Qed.

Lemma local_step_keeps st f :
  opt_stream_ok st -> is_Some (l_state (local_step st f)) ->
  is_Some st /\ Forall (fun e => is_end e = false) (l_events (local_step st f)).
Proof.
  intros Hok [s' Hs]. pose proof (local_step_ends st f Hok) as He. cbn in He. rewrite Hs in He.
  destruct st; [|by destruct He]. destruct He. eauto.
Qed.

Lemma read_ok_put dx0 dx o f :
  wf_frame f -> demux_ok dx -> read_ok dx0 dx o ->
  let l := local_step (streams dx !! stream_id f) f in
  read_ok dx0 (put_state dx (stream_id f) l) (put_out o (stream_id f) l).
Proof.
  intros Hf Hdx [Hok Hheld Hcost Hknown Hends Hgrants Hemit Hpongs] l. set (sid := stream_id f) in *.
  pose proof (demux_ok_lookup dx sid Hdx) as Hst.
  pose proof (local_step_account (streams dx !! sid) f Hst) as [Hacc Hec].
  pose proof (local_step_ends (streams dx !! sid) f Hst) as Hle.
  pose proof (local_step_control (streams dx !! sid) f Hf) as [Hem Hgr]. fold l in Hacc, Hec, Hle, Hem, Hgr.
  assert (Hlive : l_events l <> [] \/ is_Some (l_state l) -> is_Some (streams dx !! sid)).
  { destruct (streams dx !! sid); [done|]. destruct Hle as (Hn & He & _).
    intros [Hx|[? Hx]]; [done|]. by rewrite Hn in Hx. }
  assert (Hbefore : forall i, is_Some (streams dx !! i) -> is_Some (streams dx0 !! i)).
  { intros i [st Hi]. destruct (Hheld _ _ Hi) as (st0 & -> & _). done. }
  split; cbn [put_out stream_events dwindow_grants demit_frames dpongs]; [..|done].
  - by apply demux_ok_put.
  - intros i st'. rewrite lookup_put, owed_app, owed_tagged. case_decide as Hi.
    + intros E. rewrite E in Hacc. destruct Hacc as (_ & st0 & E0 & Hsum). subst i.
      destruct (Hheld _ _ E0) as (st & Hst0 & Hh). exists st. split; [done|]. unfold held in *. lia.
    + intros E. destruct (Hheld _ _ E) as (st & Hst0 & Hh). exists st. split; [done|]. lia.
  - apply Forall_app. split; [done|]. by apply Forall_fmap.
  - apply Forall_app. split; [done|]. apply Forall_fmap, list.Forall_forall. intros e He. cbn.
    apply Hbefore, Hlive. left. by intros E; rewrite E in He; apply not_elem_of_nil in He.
  - apply Forall_app. split.
    + eapply Forall_impl; [|exact Hends]. intros [i e] H He. cbn [fst snd] in *. rewrite lookup_put. case_decide; [|auto].
      subst i. destruct (l_state l) eqn:E; [|done]. destruct (Hlive (or_intror (mk_is_Some _ _ eq_refl))) as [s Hs].
      by rewrite (H He) in Hs.
    + apply Forall_fmap, list.Forall_forall. intros e He Hend. unfold compose in *. cbn [fst snd] in *. rewrite lookup_put, decide_True by done.
      destruct (l_state l) eqn:E; [|done]. destruct (streams dx !! sid); [|by destruct Hle].
      destruct Hle as [Hno _]. rewrite list.Forall_forall in Hno. specialize (Hno _ He). congruence.
  - apply Forall_app. split; [done|]. by apply Forall_fmap.
  - apply Forall_app. split; [|done]. destruct (l_drop l); [|done].
    unfold remove_emitted_windows. apply list.Forall_forall. intros b [_ Hb]%list_elem_of_filter.
    rewrite list.Forall_forall in Hemit. by apply Hemit.
Qed.

Lemma demux_frame_pongs dx o f dx' o' :
  stream_id f = 0 -> demux_frame dx o f = (dx', Ok o') -> Forall control_frame (dpongs o) -> Forall control_frame (dpongs o').
Proof.
  intros H0 E Hp. unfold demux_frame in E. rewrite H0 in E. cbn [Z.eqb] in E.
  destruct (control_pong f) as [pong|] eqn:Ep.
  - assert (wf_frame pong) as Hw by eauto with spl. rewrite encode_ok in E by done.
    injection E as <- <-. cbn. apply Forall_app. split; [done|]. constructor; [|done].
    exists pong. split_and!; [done..|]. left. unfold control_pong in Ep. by case_match; simplify_eq.
  - destruct (control_pong_nonce f); [|done]. by injection E as <- <-.
Qed.

Lemma demux_frames_read dx0 fs : forall dx o,
  Forall wf_frame fs -> read_ok dx0 dx o ->
  match demux_frames dx o fs with
  | (dx', Ok o') => read_ok dx0 dx' o' /\ fatal_violation dx' = fatal_violation dx
  | (_, Err _) => True
  | (_, Panic) => False
  end.
Proof.
  induction fs as [|f fs IH]; intros dx o Hwf Hr; [done|].
  apply Forall_cons_1 in Hwf as [Hf Hwf]. cbn [demux_frames]. pose proof (ro_ok _ _ _ Hr) as Hok.
  pose proof (demux_frame_cases dx o f Hok Hf) as Hc.
  destruct (demux_frame dx o f) as [dx1 [o1|e|]] eqn:E; [|done..].
  destruct Hc as [(H0 & -> & He & Hg & Hem & _)|(Hnz & -> & ->)].
  - apply IH; [done|]. pose proof (demux_frame_pongs _ _ _ _ _ H0 E (ro_pongs _ _ _ Hr)).
    destruct Hr. split; rewrite ?He, ?Hg, ?Hem; done.
  - change (fatal_violation dx) with (fatal_violation (put_state dx (stream_id f) (local_step (streams dx !! stream_id f) f))).
    apply IH; [done|]. by apply read_ok_put.
Qed.

Lemma read_ok_start dx : demux_ok dx -> read_ok dx dx demux_output_default.
Proof.
  intros Hok. split; cbn; try done. intros sid st' H. exists st'. split; [done|]. unfold owed. cbn. lia.
Qed.

(** [CarrierDemux::feed] on a carrier without a fatal violation. *)
Lemma demux_feed_read dx data :
  demux_ok dx -> fatal_violation dx = None ->
  match demux_feed dx data with
  | (dx', Ok o) => read_ok dx dx' o /\ fatal_violation dx' = None
  | (_, Err _) => True
  | (_, Panic) => False
  end.
Proof.
  intros Hok Hfat. unfold demux_feed. rewrite Hfat.
  pose proof (drain_spec (decoder_feed (ddecoder dx) data)) as Hd.
  destruct (drain _) as [d [fs|e|]]; [|done..]. destruct Hd as (Hwf & _ & _).
  set (dx1 := mkCarrierDemux d (streams dx) None).
  pose proof (demux_frames_read dx fs dx1 demux_output_default Hwf) as H.
  destruct (demux_frames dx1 _ fs) as [dx' [o|e|]]; (apply H || destruct H; try done);
    destruct (read_ok_start dx Hok); by split.
Qed.

(** The precondition of an operation: fresh 32-bit ids, as
    [FrameDialer::allocate] hands them out. *)
Definition op_pre (used : list Z) (op : carrier_op) : Prop :=
  match op with COpen sid => (sid ∉ used) /\ is_u32 sid | _ => True end.

Definition op_used (used : list Z) (op : carrier_op) : list Z :=
  match op with COpen sid => sid :: used | _ => used end.

Lemma carrier_inv_open used c sid :
  carrier_inv used c -> sid ∉ used -> is_u32 sid ->
  carrier_inv (sid :: used) (mkCarrier (open_stream (demux c) sid) (queue c)).
Proof.
  intros [Hok Hbal Hcost Hkeys Hq Hu] Hnew Hsid. split; cbn [demux queue]; [..|by constructor].
  - apply map_Forall_insert_2; [apply stream_ok_new|done].
  - apply map_Forall_insert_2; [|done]. cbn. rewrite owed_unused; [by destruct (fatal_violation _)|].
    eapply Forall_impl; [|exact Hq]. intros e He E. cbn in *. congruence.
  - done.
  - apply map_Forall_insert_2; [by left|]. eapply map_Forall_impl; [exact Hkeys|]. by right.
  - eapply Forall_impl; [|exact Hq]. intros e He. cbn in *. by right.
Qed.

Lemma carrier_inv_remove used c sid :
  carrier_inv used c -> carrier_inv used (mkCarrier (remove_stream (demux c) sid) (queue c)).
Proof.
  intros [Hok Hbal Hcost Hkeys Hq Hu]. split; cbn [demux queue]; try done;
    by apply map_Forall_delete.
Qed.

Lemma carrier_inv_drain used c i sid e :
  carrier_inv used c -> queue c !! i = Some (sid, e) ->
  exists dx r, demux_consume (demux c) sid (wire_cost e) = (dx, Ok r) /\
    carrier_inv used (mkCarrier dx (delete i (queue c))).
Proof.
  intros [Hok Hbal Hcost Hkeys Hq Hu] Hi.
  assert (Hcost' : Forall (fun e => 0 <= wire_cost (snd e)) (delete i (queue c))) by by apply Forall_delete.
  assert (Hq' : Forall (fun e => fst e ∈ used) (delete i (queue c))) by by apply Forall_delete.
  assert (He : 0 <= wire_cost e) by apply (Forall_lookup_1 _ _ _ _ Hcost Hi).
  unfold demux_consume. destruct (streams (demux c) !! sid) as [st|] eqn:Est.
  - specialize (Hok _ _ Est) as Hst. specialize (Hbal _ _ Est) as Hb. cbn in Hb.
    pose proof (owed_delete sid _ _ _ _ Hi) as Hd. rewrite decide_True in Hd by done.
    pose proof (owed_nonneg sid _ Hcost') as Hpos. pose proof Hst as [Hsa Hw Hp].
    pose proof (sa_inv_pending _ Hsa) as Hp0.
    assert (Hle : owed sid (queue c) <= outstanding (srecv_window st) - pending_body_wire (assembler st))
      by (destruct (fatal_violation _); lia).
    destruct (consume_ok (srecv_window st) (wire_cost e) Hw ltac:(lia)) as (w' & g & -> & Hw' & _ & Ho' & _).
    set (dx' := set_streams _ _).
    assert (I : carrier_inv used (mkCarrier dx' (delete i (queue c)))).
    { split; cbn [demux queue]; [| |done| |done..].
      - apply map_Forall_insert_2; [|done]. split; cbn; [done..|lia].
      - intros j sj. cbn. rewrite (owed_delete j _ _ _ _ Hi). destruct (decide (sid = j)) as [<-|Hj].
        + rewrite lookup_insert_eq. intros [= <-]. cbn. destruct (fatal_violation _); lia.
        + rewrite lookup_insert_ne by done. intros Ej. specialize (Hbal _ _ Ej). cbn in Hbal.
          destruct (fatal_violation _); lia.
      - apply map_Forall_insert_2; [by apply (Hkeys _ _ Est)|done]. }
    destruct g as [g|]; [|by do 2 eexists].
    rewrite encode_ok; [by do 2 eexists|]. apply wf_window_frame.
    rewrite list.Forall_forall in Hu. apply Hu, (Hkeys _ _ Est).
  - do 2 eexists. split; [done|]. split; cbn [demux queue]; try done.
    intros j sj Ej. rewrite (owed_delete j _ _ _ _ Hi). rewrite decide_False by congruence.
    rewrite Z.sub_0_r. by apply (Hbal _ _ Ej).
Qed.

Lemma carrier_step_inv used c op :
  carrier_inv used c -> op_pre used op ->
  exists c', carrier_step c op = Some c' /\ carrier_inv (op_used used op) c'.
Proof.
  intros I Hpre. destruct op as [sid|sid|data|i]; cbn [carrier_step op_used].
  - destruct Hpre. eexists. split; [done|]. by apply carrier_inv_open.
  - eexists. split; [done|]. by apply carrier_inv_remove.
  - unfold demux_feed. destruct (fatal_violation (demux c)) eqn:Ef.
    { eexists. split; [done|]. by destruct c. }
    pose proof (drain_spec (decoder_feed (ddecoder (demux c)) data)) as Hd.
    assert (I' : forall d, carrier_inv used (mkCarrier (mkCarrierDemux d (streams (demux c)) None) (queue c))).
    { intros d. destruct I as [Hok Hbal ? ? ? ?]. split; try done.
      unfold balanced in *. cbn [demux queue fatal_violation streams]. by rewrite Ef in Hbal. }
    destruct (drain _) as [d [fs|e|]]; [|eexists; split; [done|apply I']|done]. destruct Hd as (Hwf & _ & _).
    pose proof (carrier_inv_frames used (queue c) fs (mkCarrierDemux d (streams (demux c)) None)
      demux_output_default eq_refl Hwf) as H. cbn [stream_events demux_output_default] in H.
    rewrite app_nil_r in H. specialize (H (I' d)).
    destruct (demux_frames _ _ fs) as [dx [o|e|]]; [by eexists..|done].
  - destruct (queue c !! i) as [[sid e]|] eqn:Ei; [|by eexists].
    destruct (carrier_inv_drain used c i sid e I Ei) as (dx & r & -> & I'). by eexists.
Qed.

Lemma carrier_run_inv ops : forall used c,
  carrier_inv used c -> NoDup (opened ops) -> Forall (fun sid => sid ∉ used) (opened ops) ->
  Forall is_u32 (opened ops) ->
  exists c' used', carrier_run c ops = Some c' /\ carrier_inv used' c'.
Proof.
  induction ops as [|op ops IH]; intros used c I Hnd Hnew Hu; [by do 2 eexists|].
  cbn [carrier_run].
  assert (Hstep : forall op', op_pre used op' -> op_used used op' = used ->
    NoDup (opened ops) -> Forall (fun sid => sid ∉ used) (opened ops) -> Forall is_u32 (opened ops) ->
    exists c' used', (carrier_step c op' ≫= fun c' => carrier_run c' ops) = Some c' /\ carrier_inv used' c').
  { intros op' Hp Hus ? ? ?. destruct (carrier_step_inv used c op' I Hp) as (c1 & -> & I1).
    rewrite Hus in I1. by eapply IH. }
  destruct op as [sid|sid|data|i]; [|by apply Hstep..].
  cbn [opened omap list_omap] in Hnd, Hnew, Hu. apply list.NoDup_cons in Hnd as [Hsid Hnd].
  apply Forall_cons_1 in Hnew as [Hn1 Hnew]. apply Forall_cons_1 in Hu as [Hu1 Hu].
  destruct (carrier_step_inv used c (COpen sid) I (conj Hn1 Hu1)) as (c1 & -> & I1). cbn [mbind option_bind].
  apply (IH (sid :: used)); [done..| |done]. apply list.Forall_forall. intros j Hj.
  rewrite list.Forall_forall in Hnew. rewrite not_elem_of_cons. split; [|by apply Hnew].
  intros ->. by apply Hsid.
Qed.

Lemma demux_feed_wires dx fs :
  fatal_violation dx = None -> buf (ddecoder dx) = [] -> Forall wf_frame fs ->
  demux_feed dx (wires fs)
  = demux_frames (mkCarrierDemux (mkFrameDecoder []) (streams dx) None) demux_output_default fs.
Proof.
  intros Hf Hb Hwf. unfold demux_feed, decoder_feed. rewrite Hf, Hb, <- (app_nil_r (wires fs)).
  cbn [app]. rewrite drain_wires, drain_incomplete by done. cbn. by rewrite app_nil_r.
Qed.

(** ** Properties *)

(** C9. Receive-credit accounting of a carrier.  From an empty demux, for every
    sequence of opens (of distinct 32-bit ids), removals, reads of arbitrary
    bytes and drains of queued events in any order, no operation panics, and
    each live stream's debited and unreturned bytes are exactly the costs of its
    undrained events plus the bytes pending in its assembler (at least those,
    after a fatal violation discarded a pass). *)
Theorem carrier_credit_balanced ops :
  NoDup (opened ops) -> Forall is_u32 (opened ops) ->
  exists c, carrier_run (mkCarrier demux_new []) ops = Some c /\
    map_Forall (fun sid st =>
      let held := INITIAL_WINDOW - credit (srecv_window st) - unacked (srecv_window st) in
      let due := owed sid (queue c) + pending_body_wire (assembler st) in
      match fatal_violation (demux c) with
      | Some _ => due <= held
      | None => due = held
      end) (streams (demux c)).
Proof.
  intros Hnd Hu.
  destruct (carrier_run_inv ops [] (mkCarrier demux_new [])) as (c & used & E & I); [|done..| |done|].
  - split; cbn; try done; apply map_Forall_empty.
  - apply Forall_true. intros. apply not_elem_of_nil.
  - exists c. split; [done|]. destruct I as [_ Hb _ _ _ _]. eapply map_Forall_impl; [exact Hb|].
    intros sid st. unfold outstanding. cbn. destruct (fatal_violation _); lia.
Qed.

Definition sample_carrier_ops : list carrier_op :=
  [COpen 1; COpen 3;
   CFeed (wires [mkFrame 1 FLAG_DATA (blit "HTTP/1.1 200 OK" ++ bCRLF2 ++ blit "abc");
                 mkFrame 3 FLAG_DATA (blit "HTTP/1.1 ")]);
   CDrain 0; CDrain 0; CFeed (wires [mkFrame 1 FLAG_CLOSE []]); CDrain 0].

Lemma carrier_credit_balanced_witness :
  exists c, carrier_run (mkCarrier demux_new []) sample_carrier_ops = Some c /\
    dom (streams (demux c)) = {[ 3 ]} /\ queue c = [] /\
    map_Forall (fun sid st => owed sid (queue c) + pending_body_wire (assembler st)
      = INITIAL_WINDOW - credit (srecv_window st) - unacked (srecv_window st)) (streams (demux c)).
Proof.
  destruct (carrier_credit_balanced sample_carrier_ops) as (c & E & H).
  - apply (bool_decide_unpack _). vm_compute. exact Logic.I.
  - by repeat constructor.
  - exists c. split; [exact E|]. vm_compute in E. injection E as <-.
    split_and!; [vm_compute; reflexivity|reflexivity|exact H].
Defined.

(** Streams of a carrier are isolated: what a read of frames does to a
    non-control stream (its table entry, its events, its grants and the frames
    emitted for it, in order) is what the read does with all frames of other
    streams taken out. *)
Theorem demux_isolates_streams dx sid fs dx' o :
  sid <> 0 -> demux_ok dx -> fatal_violation dx = None -> buf (ddecoder dx) = [] ->
  Forall wf_frame fs ->
  demux_feed dx (wires fs) = (dx', Ok o) ->
  exists dx'' o',
    demux_feed dx (wires (filter (fun f => stream_id f = sid) fs)) = (dx'', Ok o') /\
    streams dx' !! sid = streams dx'' !! sid /\
    events_for sid o = events_for sid o' /\
    grants_for sid o = grants_for sid o' /\
    emit_for sid o = emit_for sid o'.
Proof.
  intros H0 Hok Hfat Hb Hwf H. rewrite demux_feed_wires in H by done.
  set (dx0 := mkCarrierDemux _ _ _) in H.
  destruct (isolation sid fs dx0 _ dx0 demux_output_default _ _ H0 Hwf Hok Hok
    ltac:(done) H) as (dx'' & o' & E & Hag).
  exists dx'', o'. split; [|done]. rewrite demux_feed_wires; [done..|].
  apply list.Forall_forall. intros f [_ Hf]%list_elem_of_filter.
  rewrite list.Forall_forall in Hwf. by apply Hwf.
Qed.

Lemma demux_isolates_streams_witness :
  let dx := open_stream (open_stream demux_new 1) 3 in
  let fs := [mkFrame 1 FLAG_DATA (blit "HTTP/1.1 200 OK" ++ bCRLF2 ++ blit "abc");
             mkFrame 3 FLAG_OPEN []; mkFrame 1 FLAG_CLOSE []] in
  exists dx' o dx'' o',
    demux_feed dx (wires fs) = (dx', Ok o) /\
    demux_feed dx (wires [mkFrame 3 FLAG_OPEN []]) = (dx'', Ok o') /\
    events_for 3 o = events_for 3 o' /\
    events_for 3 o = [(3, uncosted (ItemEnd (EndReset ProtocolError)))].
Proof.
  intros dx fs.
  assert (E : exists r, demux_feed dx (wires fs) = (fst r, Ok (snd r)) /\
    events_for 3 (snd r) = [(3, uncosted (ItemEnd (EndReset ProtocolError)))])
    by (eexists (_, _); split; vm_compute; reflexivity).
  destruct E as ([dx' o] & E & Hev). cbn [fst snd] in E, Hev.
  destruct (demux_isolates_streams dx 3 fs dx' o) as (dx'' & o' & E2 & _ & H & _).
  - done.
  - apply map_Forall_insert_2; [apply stream_ok_new|].
    apply map_Forall_insert_2; [apply stream_ok_new|apply map_Forall_empty].
  - reflexivity.
  - reflexivity.
  - by repeat constructor.
  - exact E.
  - exists dx', o, dx'', o'. split_and!; [exact E|exact E2|exact H|exact Hev].
Defined.

(** A stream ends once.  After any read a stream that is still live has
    reported no end; one that was live and is gone reported its end exactly
    once, as its last event; one that was not live reports nothing; and no
    WINDOW frame is left to be written for a stream that is gone. *)
Theorem demux_ends_once dx data dx' o sid :
  is_u32 sid -> sid <> 0 -> demux_ok dx ->
  demux_feed dx data = (dx', Ok o) ->
  match streams dx !! sid, streams dx' !! sid with
  | Some _, Some _ => Forall (fun e => is_end (snd e) = false) (events_for sid o)
  | Some _, None =>
      (exists es e, events_for sid o = es ++ [e] /\
         Forall (fun e => is_end (snd e) = false) es /\ is_end (snd e) = true) /\
      remove_emitted_windows (demit_frames o) sid = demit_frames o
  | None, st =>
      st = None /\ events_for sid o = [] /\
      remove_emitted_windows (demit_frames o) sid = demit_frames o
  end.
Proof.
  intros Hu H0 Hok H. unfold demux_feed in H. destruct (fatal_violation dx); [done|].
  pose proof (drain_spec (decoder_feed (ddecoder dx) data)) as Hd.
  destruct (drain _) as [d [fs|e|]]; [|done..]. destruct Hd as (Hwf & _ & _).
  pose proof (demux_frames_term sid (bool_decide (is_Some (streams dx !! sid))) fs
    (mkCarrierDemux d (streams dx) None) demux_output_default Hu H0 Hok Hwf) as Ht.
  rewrite H in Ht. cbn [streams] in Ht.
  destruct (streams dx !! sid) as [st|].
  - rewrite bool_decide_eq_true_2 in Ht by done. specialize (Ht ltac:(by split)). unfold term_ok in Ht.
    destruct (streams dx' !! sid); [apply Ht|]. destruct Ht as [H1 H2]. split; [done|]. by apply filter_all.
  - rewrite bool_decide_eq_false_2 in Ht by by intros []. specialize (Ht ltac:(by split)). unfold term_ok in Ht.
    destruct (streams dx' !! sid); [by destruct Ht|]. destruct Ht as [H1 H2]. split_and!; [done..|]. by apply filter_all.
Qed.

Lemma demux_ends_once_witness :
  let dx := open_stream demux_new 1 in
  exists dx' o, demux_feed dx (wires [mkFrame 1 FLAG_CLOSE []; mkFrame 1 FLAG_CLOSE []]) = (dx', Ok o) /\
    events_for 1 o = [(1, uncosted (ItemEnd EndClose))] /\
    (exists es e, events_for 1 o = es ++ [e] /\
         Forall (fun e => is_end (snd e) = false) es /\ is_end (snd e) = true).
Proof.
  intros dx. do 2 eexists. split; [vm_compute; reflexivity|]. split; [reflexivity|].
  eapply (fun H1 H2 H3 => proj1 (demux_ends_once dx
    (wires [mkFrame 1 FLAG_CLOSE []; mkFrame 1 FLAG_CLOSE []]) _ _ 1 H1 H2 H3 ltac:(vm_compute; reflexivity))).
  - done.
  - done.
  - apply map_Forall_insert_2; [apply stream_ok_new|apply map_Forall_empty].
Defined.

(** A read on a live carrier fails only for a violation on the control
    stream or a reserved flag bit, and then for good: every later read
    fails with the same error, whatever it holds. *)
Theorem demux_failure_final dx data dx' e more_data :
  demux_ok dx -> fatal_violation dx = None ->
  demux_feed dx data = (dx', Err e) ->
  ((exists v, e = Protocol v /\ fv_stream_id v = 0) \/ exists fl, e = MuxFrame (ReservedFlag fl)) /\
  exists dx'', demux_feed dx' more_data = (dx'', Err e).
Proof.
  intros Hok Hfat H. unfold demux_feed in H. rewrite Hfat in H.
  pose proof (drain_spec (decoder_feed (ddecoder dx) data)) as Hd.
  destruct (drain _) as [d [fs|e0|]]; [| |done].
  - destruct Hd as (Hwf & _ & _).
    pose proof (demux_frames_ok fs (mkCarrierDemux d (streams dx) None) demux_output_default Hok Hwf) as Hg.
    rewrite H in Hg. destruct Hg as (_ & v & -> & Hv & Hf). split; [left; by eexists|].
    exists dx'. unfold demux_feed. by rewrite Hf.
  - destruct Hd as (fs & _ & _ & He). pose proof (next_frame_spec d) as Hn. rewrite He in Hn.
    destruct Hn as (_ & fl & -> & _). simplify_eq. split; [right; by eexists|].
    eexists. unfold demux_feed. cbn [fatal_violation ddecoder streams].
    rewrite drain_unfold, (next_frame_err_app _ _ more_data He). done.
Qed.

Lemma demux_failure_final_witness :
  exists dx', demux_feed demux_new (wires [mkFrame 0 FLAG_DATA (blit "x")])
    = (dx', Err (Protocol (mkFrameViolation 0 FLAG_DATA 1))) /\
  exists dx'', demux_feed dx' (wires [control_ping (blit "nonce123")])
    = (dx'', Err (Protocol (mkFrameViolation 0 FLAG_DATA 1))).
Proof.
  eexists. split; [vm_compute; reflexivity|].
  eapply (fun H1 H2 H3 => proj2 (demux_failure_final demux_new (wires [mkFrame 0 FLAG_DATA (blit "x")])
    _ _ _ H1 H2 H3)).
  - apply map_Forall_empty.
  - reflexivity.
  - vm_compute. reflexivity.
Defined.
