(* ===== verification/HomeMux.v ===== *)
(** * The listener-side mux ([crates/spl-home/src/mux.rs], [config.rs], [error.rs])

    [MuxAcceptor] decodes the carrier byte by byte, answers control frames,
    admits peer streams, keeps both directions' credit, and turns violations into
    per-stream RESETs. *)

From S2P Require Import Prelude Frame Text Http Window.

(** ** Errors and limits *)

Inductive ConfigError := ZeroConcurrentStreamCap | DecoderBelowMaximumFrame.

Inductive PairWindowRefusal := WrongRelayKey | Consumed | Expired.

Inductive RefusalClass := RProtocol | RStreamLimit | RFlowControl | RInternal.

Record Refusal := mkRefusal { class : RefusalClass; violation_of : option FrameViolation }.

Inductive HomeError :=
| Tls
| TlsConfig
| PairWindowCaIdentity
| PairWindowRefused (r : PairWindowRefusal)
| Config (e : ConfigError)
| HFrame (e : FrameError)
| Refused (r : Refusal)
| PeerGone
| StreamIdExhausted
| Closed.

Record MuxLimits := mkMuxLimits { max_concurrent_streams : Z; decoder_buffer_bytes : Z }.

(** [MuxLimits::validate] *)
Definition validate (l : MuxLimits) : res ConfigError unit :=
  if max_concurrent_streams l =? 0 then Err ZeroConcurrentStreamCap
  else if decoder_buffer_bytes l <? HEADER_LEN + MAX_PAYLOAD then Err DecoderBelowMaximumFrame
  else Ok tt.

(** ** Carrier status *)

Inductive CarrierClose :=
| Open
| PeerEof (truncated : bool)
| PeerReadFailed
| AcceptorRefused
| WriteFailed
| OwnerGone
| LocalClose.

(** [CarrierClose::code] *)
Definition close_code (c : CarrierClose) : Z :=
  match c with
  | Open => 0
  | PeerEof false => 1
  | PeerEof true => 2
  | PeerReadFailed => 3
  | AcceptorRefused => 4
  | WriteFailed => 5
  | OwnerGone => 6
  | LocalClose => 7
  end.

(** [CarrierClose::from_code] *)
Definition from_code (code : Z) : CarrierClose :=
  if code =? 1 then PeerEof false
  else if code =? 2 then PeerEof true
  else if code =? 3 then PeerReadFailed
  else if code =? 4 then AcceptorRefused
  else if code =? 5 then WriteFailed
  else if code =? 6 then OwnerGone
  else if code =? 7 then LocalClose
  else Open.

(** [CarrierClose::is_abnormal] *)
Definition is_abnormal (c : CarrierClose) : bool :=
  match c with
  | PeerEof true | PeerReadFailed | AcceptorRefused | WriteFailed => true
  | _ => false
  end.

(** [carrier_gaps] *)
Definition carrier_gaps (pings_answered now last_answer longest_completed : Z) : option Z * option Z :=
  if pings_answered =? 0 then (None, None)
  else
    let current := saturating_sub now last_answer in
    (Some current, Some (Z.max longest_completed current)).

Record RefusalCounts := mkRefusalCounts {
  stream_limit : Z;
  flow_control : Z;
  protocol : Z;
  internal : Z
}.

Definition refusal_counts_default : RefusalCounts := mkRefusalCounts 0 0 0 0.

(** [RefusalCounts::is_empty] *)
Definition counts_is_empty (c : RefusalCounts) : bool :=
  (stream_limit c =? 0) && (flow_control c =? 0) && (protocol c =? 0) && (internal c =? 0).

(** [RefusalCounts::record] *)
Definition record (c : RefusalCounts) (k : RefusalClass) : RefusalCounts :=
  match k with
  | RStreamLimit => mkRefusalCounts (saturating_add 64 (stream_limit c) 1) (flow_control c) (protocol c) (internal c)
  | RFlowControl => mkRefusalCounts (stream_limit c) (saturating_add 64 (flow_control c) 1) (protocol c) (internal c)
  | RProtocol => mkRefusalCounts (stream_limit c) (flow_control c) (saturating_add 64 (protocol c) 1) (internal c)
  | RInternal => mkRefusalCounts (stream_limit c) (flow_control c) (protocol c) (saturating_add 64 (internal c) 1)
  end.

(** ** Reset reasons *)

Inductive ResetReason :=
| ProtocolError
| FlowControlError
| StreamLimitExceeded
| InternalError
| Cancel
| Unspecified.

(** [ResetReason::code] *)
Definition reason_code (r : ResetReason) : Z :=
  match r with
  | ProtocolError => RESET_PROTOCOL_ERROR
  | FlowControlError => RESET_FLOW_CONTROL_ERROR
  | StreamLimitExceeded => RESET_STREAM_LIMIT_EXCEEDED
  | InternalError => RESET_INTERNAL_ERROR
  | Cancel => RESET_CANCEL
  | Unspecified => RESET_UNSPECIFIED
  end.

(** [ResetReason::from_wire] *)
Definition from_wire (code : Z) : ResetReason :=
  if code =? RESET_PROTOCOL_ERROR then ProtocolError
  else if code =? RESET_FLOW_CONTROL_ERROR then FlowControlError
  else if code =? RESET_STREAM_LIMIT_EXCEEDED then StreamLimitExceeded
  else if code =? RESET_INTERNAL_ERROR then InternalError
  else if code =? RESET_CANCEL then Cancel
  else Unspecified.

(** [ResetReason::from_class] *)
Definition from_class (c : RefusalClass) : ResetReason :=
  match c with
  | RProtocol => ProtocolError
  | RStreamLimit => StreamLimitExceeded
  | RFlowControl => FlowControlError
  | RInternal => InternalError
  end.

(** [RefusalClass::reset_code] *)
Definition reset_code (c : RefusalClass) : Z := reason_code (from_class c).

(** ** The acceptor *)

Inductive MuxEvent :=
| Opened (sid : Z)
| DataEvent (sid : Z) (bytes : list byte)
| ReadClosed (sid : Z)
| ResetEvent (sid : Z) (reason : ResetReason)
| PeerGoneEvent (truncated : bool).

Record MuxOutput := mkMuxOutput {
  frames : list Frame;
  mevents : list MuxEvent;
  orefusals : list Refusal;
  writable_streams : list Z
}.

Definition output_default : MuxOutput := mkMuxOutput [] [] [] [].

Record StreamState := mkStreamState {
  receive_window : RecvWindow;
  debited_not_consumed : Z;
  hsend_credit : Z;
  peer_closed : bool;
  local_closed : bool
}.

Record MuxAcceptor := mkMuxAcceptor {
  limits : MuxLimits;
  decoder : FrameDecoder;
  decoder_buffered_bytes : Z;
  header_buffer : list byte;
  payload_remaining : option Z;
  discarded_payload_remaining : option Z;
  peer_high_water : option Z;
  hstreams : gmap Z StreamState;
  refusals : RefusalCounts
}.

Definition MAX_SEND_CREDIT : Z := 2 ^ 31 - 1.

(** [MuxAcceptor::new] *)
Definition acceptor_new (l : MuxLimits) : res HomeError MuxAcceptor :=
  match validate l with
  | Ok _ => Ok (mkMuxAcceptor l decoder_new 0 [] None None None ∅ refusal_counts_default)
  | Err e => Err (Config e)
  | Panic => Panic
  end.

(** Field updates. *)
Definition set_hstreams (a : MuxAcceptor) (m : gmap Z StreamState) : MuxAcceptor :=
  mkMuxAcceptor (limits a) (decoder a) (decoder_buffered_bytes a) (header_buffer a)
    (payload_remaining a) (discarded_payload_remaining a) (peer_high_water a) m (refusals a).
Definition set_stream (a : MuxAcceptor) (sid : Z) (s : StreamState) : MuxAcceptor :=
  set_hstreams a (<[sid := s]> (hstreams a)).
Definition set_high_water (a : MuxAcceptor) (h : option Z) : MuxAcceptor :=
  mkMuxAcceptor (limits a) (decoder a) (decoder_buffered_bytes a) (header_buffer a)
    (payload_remaining a) (discarded_payload_remaining a) h (hstreams a) (refusals a).
Definition set_refusals (a : MuxAcceptor) (c : RefusalCounts) : MuxAcceptor :=
  mkMuxAcceptor (limits a) (decoder a) (decoder_buffered_bytes a) (header_buffer a)
    (payload_remaining a) (discarded_payload_remaining a) (peer_high_water a) (hstreams a) c.
(** The framing fields: decoder, buffered count, header, payload and discard counters. *)
Definition set_framing (a : MuxAcceptor) (d : FrameDecoder) (n : Z) (h : list byte)
  (pr dr : option Z) : MuxAcceptor :=
  mkMuxAcceptor (limits a) d n h pr dr (peer_high_water a) (hstreams a) (refusals a).

Definition push_frame (o : MuxOutput) (f : Frame) : MuxOutput :=
  mkMuxOutput (frames o ++ [f]) (mevents o) (orefusals o) (writable_streams o).
Definition push_event (o : MuxOutput) (e : MuxEvent) : MuxOutput :=
  mkMuxOutput (frames o) (mevents o ++ [e]) (orefusals o) (writable_streams o).
Definition push_refusal (o : MuxOutput) (r : Refusal) : MuxOutput :=
  mkMuxOutput (frames o) (mevents o) (orefusals o ++ [r]) (writable_streams o).
Definition push_writable (o : MuxOutput) (sid : Z) : MuxOutput :=
  mkMuxOutput (frames o) (mevents o) (orefusals o) (writable_streams o ++ [sid]).

Definition refused {A} (c : RefusalClass) (v : option FrameViolation) : res HomeError A :=
  Err (Refused (mkRefusal c v)).

(** [violation] *)
Definition violation (f : Frame) : FrameViolation :=
  mkFrameViolation (stream_id f) (flags f) (len (payload f)).

(** [MuxAcceptor::remove_stream] *)
Definition home_remove_stream (a : MuxAcceptor) (sid : Z) : MuxAcceptor :=
  set_hstreams a (delete sid (hstreams a)).

(** [MuxAcceptor::refuse_violation] *)
Definition refuse_violation (a : MuxAcceptor) (v : FrameViolation) (c : RefusalClass) (o : MuxOutput)
  : MuxAcceptor * MuxOutput :=
  let a := set_refusals a (record (refusals a) c) in
  let o := push_frame o (reset (fv_stream_id v) (reset_code c)) in
  let o := push_refusal o (mkRefusal c (Some v)) in
  if bool_decide (is_Some (hstreams a !! fv_stream_id v))
  then (home_remove_stream a (fv_stream_id v),
        push_event o (ResetEvent (fv_stream_id v) (from_class c)))
  else (a, o).

(** [MuxAcceptor::refuse] *)
Definition refuse (a : MuxAcceptor) (f : Frame) (c : RefusalClass) (o : MuxOutput)
  : MuxAcceptor * MuxOutput :=
  refuse_violation a (violation f) c o.

(** [MuxAcceptor::mark_peer_closed] *)
Definition mark_peer_closed (a : MuxAcceptor) (sid : Z) (o : MuxOutput) : MuxAcceptor * MuxOutput :=
  match hstreams a !! sid with
  | Some s =>
      let a := set_stream a sid (mkStreamState (receive_window s) (debited_not_consumed s)
                                   (hsend_credit s) true (local_closed s)) in
      let o := push_event o (ReadClosed sid) in
      if local_closed s then (home_remove_stream a sid, o) else (a, o)
  | None => (a, o)
  end.

(** [MuxAcceptor::handle_control] *)
Definition handle_control (f : Frame) (o : MuxOutput) : res HomeError MuxOutput :=
  let drop_or_refuse :=
    if (flags f =? FLAG_PONG) && (len (payload f) =? CONTROL_NONCE_LEN) then Ok o
    else refused RProtocol (Some (violation f)) in
  if (flags f =? FLAG_PING) && (len (payload f) =? CONTROL_NONCE_LEN) then
    match control_pong f with
    | Some pong => Ok (push_frame o pong)
    | None => drop_or_refuse
    end
  else drop_or_refuse.

(** The events of an admitted OPEN. *)
Definition open_events (f : Frame) (o : MuxOutput) : MuxOutput :=
  let o := push_event o (Opened (stream_id f)) in
  if negb (len (payload f) =? 0) || has (flags f) FLAG_DATA
  then push_event o (DataEvent (stream_id f) (payload f)) else o.

(** [MuxAcceptor::handle_open] *)
Definition handle_open (a : MuxAcceptor) (f : Frame) (o : MuxOutput) : MuxAcceptor * MuxOutput :=
  let sid := stream_id f in
  let valid_id := (sid mod 2 =? 1)
    && match peer_high_water a with None => true | Some highest => sid >? highest end in
  if negb valid_id then refuse a f RProtocol o
  else
    let a := set_high_water a (Some sid) in
    if Z.of_nat (size (hstreams a)) >=? max_concurrent_streams (limits a)
    then refuse a f RStreamLimit o
    else if len (payload f) >? INITIAL_WINDOW then refuse a f RFlowControl o
    else
      match debit window_new (len (payload f)) with
      | (w, Ok _) =>
          let a := set_stream a sid (mkStreamState w (len (payload f)) INITIAL_WINDOW false false) in
          let o := open_events f o in
          if has (flags f) FLAG_CLOSE then mark_peer_closed a sid o else (a, o)
      | _ => refuse a f RFlowControl o
      end.

(** [MuxAcceptor::handle_data] *)
Definition handle_data (a : MuxAcceptor) (f : Frame) (closes : bool) (o : MuxOutput)
  : MuxAcceptor * MuxOutput :=
  let sid := stream_id f in
  match hstreams a !! sid with
  | None => refuse a f RFlowControl o
  | Some s =>
      if peer_closed s then refuse a f RProtocol o
      else
        match debit (receive_window s) (len (payload f)) with
        | (w, Ok _) =>
            let s1 := mkStreamState w (debited_not_consumed s) (hsend_credit s)
                        (peer_closed s) (local_closed s) in
            match checked_add 64 (debited_not_consumed s) (len (payload f)) with
            | None => refuse (set_stream a sid s1) f RInternal o
            | Some next_debited =>
                let a := set_stream a sid (mkStreamState w next_debited (hsend_credit s)
                                             (peer_closed s) (local_closed s)) in
                let o := push_event o (DataEvent sid (payload f)) in
                if closes then mark_peer_closed a sid o else (a, o)
            end
        | _ => refuse a f RFlowControl o
        end
  end.

(** [MuxAcceptor::handle_close] *)
Definition handle_close (a : MuxAcceptor) (f : Frame) (o : MuxOutput) : MuxAcceptor * MuxOutput :=
  if negb (len (payload f) =? 0) then handle_data a f true o
  else mark_peer_closed a (stream_id f) o.

(** [MuxAcceptor::handle_reset] *)
Definition handle_reset (a : MuxAcceptor) (f : Frame) (o : MuxOutput) : MuxAcceptor * MuxOutput :=
  match payload f with
  | [b] => (home_remove_stream a (stream_id f), push_event o (ResetEvent (stream_id f) (from_wire (u8 b))))
  | _ => refuse a f RProtocol o
  end.

(** [MuxAcceptor::handle_window] *)
Definition handle_window (a : MuxAcceptor) (f : Frame) (o : MuxOutput) : MuxAcceptor * MuxOutput :=
  match window_credit f with
  | None => refuse a f RProtocol o
  | Some c =>
      match hstreams a !! stream_id f with
      | None => refuse a f RFlowControl o
      | Some s =>
          match checked_add 64 (hsend_credit s) c with
          | Some next =>
              if next >? MAX_SEND_CREDIT then refuse a f RFlowControl o
              else (set_stream a (stream_id f)
                      (mkStreamState (receive_window s) (debited_not_consumed s) next
                         (peer_closed s) (local_closed s)),
                    push_writable o (stream_id f))
          | None => refuse a f RFlowControl o
          end
      end
  end.

(** [MuxAcceptor::handle_frame] *)
Definition handle_frame (a : MuxAcceptor) (f : Frame) (o : MuxOutput)
  : MuxAcceptor * res HomeError MuxOutput :=
  let ok (r : MuxAcceptor * MuxOutput) := (fst r, Ok (snd r)) in
  if stream_id f =? 0 then (a, handle_control f o)
  else if negb (flags_valid (flags f)) then ok (refuse a f RProtocol o)
  else if has (flags f) (Z.lor FLAG_PING FLAG_PONG) then ok (refuse a f RProtocol o)
  else if has (flags f) FLAG_OPEN then ok (handle_open a f o)
  else
    let known := bool_decide (is_Some (hstreams a !! stream_id f)) in
    if negb known && has (flags f) (Z.lor FLAG_CLOSE FLAG_RESET) then (a, Ok o)
    else if negb known then ok (refuse a f RProtocol o)
    else if flags f =? Z.lor FLAG_DATA FLAG_CLOSE then ok (handle_data a f true o)
    else if flags f =? FLAG_DATA then ok (handle_data a f false o)
    else if flags f =? FLAG_CLOSE then ok (handle_close a f o)
    else if flags f =? FLAG_RESET then ok (handle_reset a f o)
    else if flags f =? FLAG_WINDOW then ok (handle_window a f o)
    else ok (refuse a f RProtocol o).

(** The [while let] loop of [MuxAcceptor::drain_decoder]; a frame takes at least
    eight buffered bytes, so one unit of fuel per byte is enough. *)
Fixpoint drain_decoder_loop (fuel : nat) (a : MuxAcceptor) (o : MuxOutput)
  : MuxAcceptor * res HomeError MuxOutput :=
  match fuel with
  | O => (a, Ok o)
  | S fuel =>
      match next_frame (decoder a) with
      | (d, Ok None) =>
          (set_framing a d (decoder_buffered_bytes a) (header_buffer a) (payload_remaining a)
             (discarded_payload_remaining a), Ok o)
      | (d, Ok (Some f)) =>
          match checked_sub (decoder_buffered_bytes a) (HEADER_LEN + len (payload f)) with
          | None =>
              (set_framing a d (decoder_buffered_bytes a) (header_buffer a) (payload_remaining a)
                 (discarded_payload_remaining a), refused RInternal None)
          | Some n =>
              match handle_frame (set_framing a d n (header_buffer a) (payload_remaining a)
                                    (discarded_payload_remaining a)) f o with
              | (a', Ok o') => drain_decoder_loop fuel a' o'
              | (a', Err e) => (a', Err e)
              | (a', Panic) => (a', Panic)
              end
          end
      | (d, Err e) =>
          (set_framing a d (decoder_buffered_bytes a) (header_buffer a) (payload_remaining a)
             (discarded_payload_remaining a), Err (HFrame e))
      | (d, Panic) => (a, Panic)
      end
  end.

(** [MuxAcceptor::drain_decoder] *)
Definition drain_decoder (a : MuxAcceptor) (o : MuxOutput) : MuxAcceptor * res HomeError MuxOutput :=
  drain_decoder_loop (S (length (buf (decoder a)))) a o.

(** [(n > 0).then_some(n)] and [(n > 1).then_some(n - 1)] *)
Definition some_positive (n : Z) : option Z := if n >? 0 then Some n else None.
Definition count_down (n : Z) : option Z := if n >? 1 then Some (n - 1) else None.

(** The header completed by the eighth byte. *)
Definition feed_header (a : MuxAcceptor) (o : MuxOutput) (h : list byte)
  : MuxAcceptor * res HomeError MuxOutput :=
  match h with
  | [b0; b1; b2; b3; b4; b5; b6; b7] =>
      let sid := be_val [b0; b1; b2; b3] in
      let fl := u8 b4 in
      let n := Z.lor (Z.lor (Z.shiftl (u8 b5) 16) (Z.shiftl (u8 b6) 8)) (u8 b7) in
      if has fl FLAG_RESERVED_MASK then
        let v := mkFrameViolation sid fl n in
        match checked_sub (decoder_buffered_bytes a) HEADER_LEN with
        | None =>
            (set_framing a (decoder a) (decoder_buffered_bytes a) [] (payload_remaining a)
               (discarded_payload_remaining a), refused RInternal None)
        | Some kept =>
            let a := set_framing a (decoder a) kept [] (payload_remaining a) (some_positive n) in
            if sid =? 0 then (a, refused RProtocol (Some v))
            else let '(a, o) := refuse_violation a v RProtocol o in (a, Ok o)
        end
      else
        drain_decoder (set_framing a (decoder_feed (decoder a) h) (decoder_buffered_bytes a) []
                         (some_positive n) (discarded_payload_remaining a)) o
  | _ => (a, Panic)
  end.

(** One iteration of the byte loop in [MuxAcceptor::feed]. *)
Definition feed_byte (a : MuxAcceptor) (o : MuxOutput) (b : byte)
  : MuxAcceptor * res HomeError MuxOutput :=
  match discarded_payload_remaining a with
  | Some remaining =>
      (set_framing a (decoder a) (decoder_buffered_bytes a) (header_buffer a) (payload_remaining a)
         (count_down remaining), Ok o)
  | None =>
      if decoder_buffered_bytes a >=? decoder_buffer_bytes (limits a) then (a, refused RFlowControl None)
      else
        match checked_add 64 (decoder_buffered_bytes a) 1 with
        | None => (a, refused RInternal None)
        | Some n =>
            match payload_remaining a with
            | None =>
                let h := header_buffer a ++ [b] in
                let a := set_framing a (decoder a) n h None None in
                if negb (len h =? HEADER_LEN) then (a, Ok o) else feed_header a o h
            | Some remaining =>
                drain_decoder (set_framing a (decoder_feed (decoder a) [b]) n (header_buffer a)
                                 (count_down remaining) None) o
            end
        end
  end.

Fixpoint feed_bytes (a : MuxAcceptor) (o : MuxOutput) (bytes : list byte)
  : MuxAcceptor * res HomeError MuxOutput :=
  match bytes with
  | [] => (a, Ok o)
  | b :: bytes =>
      match feed_byte a o b with
      | (a', Ok o') => feed_bytes a' o' bytes
      | (a', Err e) => (a', Err e)
      | (a', Panic) => (a', Panic)
      end
  end.

(** [MuxAcceptor::feed] *)
Definition home_feed (a : MuxAcceptor) (bytes : list byte) : MuxAcceptor * res HomeError MuxOutput :=
  feed_bytes a output_default bytes.

(** [MuxAcceptor::consume] *)
Definition home_consume (a : MuxAcceptor) (sid bytes : Z) : MuxAcceptor * res HomeError MuxOutput :=
  match hstreams a !! sid with
  | None => (a, Err Closed)
  | Some s =>
      if bytes >? debited_not_consumed s then (a, refused RInternal None)
      else
        let '(w, r) := consume (receive_window s) bytes in
        let store d := set_stream a sid (mkStreamState w d (hsend_credit s) (peer_closed s) (local_closed s)) in
        match r with
        | Ok g =>
            match checked_sub (debited_not_consumed s) bytes with
            | None => (store (debited_not_consumed s), refused RInternal None)
            | Some d =>
                (store d, Ok (match g with
                              | Some g => push_frame output_default (window sid g)
                              | None => output_default
                              end))
            end
        | Err _ | Panic => (store (debited_not_consumed s), Panic)
        end
  end.

(** [MuxAcceptor::try_send_data] *)
Definition try_send_data (a : MuxAcceptor) (sid : Z) (bytes : list byte)
  : MuxAcceptor * res HomeError (option MuxOutput) :=
  if len bytes >? RECOMMENDED_CHUNK then (a, refused RInternal None)
  else
    match hstreams a !! sid with
    | None => (a, Err Closed)
    | Some s =>
        if local_closed s then (a, Err Closed)
        else if len bytes >? hsend_credit s then (a, Ok None)
        else
          match checked_sub (hsend_credit s) (len bytes) with
          | None => (a, refused RInternal None)
          | Some next =>
              (set_stream a sid (mkStreamState (receive_window s) (debited_not_consumed s) next
                                   (peer_closed s) (local_closed s)),
               Ok (Some (mkMuxOutput [mkFrame sid FLAG_DATA bytes] [] [] [])))
          end
    end.

(** [MuxAcceptor::close_write] *)
Definition close_write (a : MuxAcceptor) (sid : Z) : MuxAcceptor * res HomeError MuxOutput :=
  match hstreams a !! sid with
  | None => (a, Err Closed)
  | Some s =>
      if local_closed s then (a, Err Closed)
      else
        let a := set_stream a sid (mkStreamState (receive_window s) (debited_not_consumed s)
                                     (hsend_credit s) (peer_closed s) true) in
        let o := push_frame output_default (mkFrame sid FLAG_CLOSE []) in
        if peer_closed s then (home_remove_stream a sid, Ok o) else (a, Ok o)
  end.

(** [MuxAcceptor::reset] *)
Definition home_reset (a : MuxAcceptor) (sid : Z) (r : ResetReason) : MuxAcceptor * res HomeError MuxOutput :=
  if bool_decide (is_Some (hstreams a !! sid))
  then (home_remove_stream a sid, Ok (push_frame output_default (reset sid (reason_code r))))
  else (a, Err Closed).

(** [MuxAcceptor::finish_eof] *)
Definition home_finish_eof (a : MuxAcceptor) : MuxAcceptor * MuxOutput :=
  (set_hstreams a ∅,
   push_event output_default (PeerGoneEvent (negb (decoder_buffered_bytes a =? 0)))).

(** ** Lemmas: handlers *)

Definition oapp (o d : MuxOutput) : MuxOutput :=
  mkMuxOutput (frames o ++ frames d) (mevents o ++ mevents d)
    (orefusals o ++ orefusals d) (writable_streams o ++ writable_streams d).

Lemma oapp_default o : oapp o output_default = o.
Proof. unfold oapp. cbn. rewrite !app_nil_r. by destruct o. Qed.

Lemma oapp_assoc o d e : oapp (oapp o d) e = oapp o (oapp d e).
Proof. unfold oapp. cbn. by rewrite <- !app_assoc. Qed.

(** The fields the byte loop owns. *)
Definition framing (a : MuxAcceptor) :=
  (limits a, decoder a, decoder_buffered_bytes a, header_buffer a, payload_remaining a,
   discarded_payload_remaining a).

(** What a handler may do: leave the framing fields alone and append to the output. *)
Definition well_behaved (h : MuxAcceptor -> MuxOutput -> MuxAcceptor * MuxOutput) : Prop :=
  forall a o, framing (fst (h a o)) = framing a /\
    h a o = (fst (h a output_default), oapp o (snd (h a output_default))).

(** Case analysis of a handler until its results are syntactic. *)
Ltac handler :=
  repeat case_match; cbn; simplify_eq; (split; [done|]);
  unfold push_frame, push_event, push_refusal, push_writable, oapp; cbn;
  rewrite <- ?app_assoc, ?app_nil_r; done.

Lemma refuse_violation_wb v c : well_behaved (fun a o => refuse_violation a v c o).
Proof. intros a o. unfold refuse_violation. handler. Qed.

Lemma mark_peer_closed_wb sid : well_behaved (fun a o => mark_peer_closed a sid o).
Proof.
  intros a o. unfold mark_peer_closed. destruct (hstreams a !! sid) as [s|]; [handler|].
  cbn. by rewrite oapp_default.
Qed.

Lemma handle_data_wb f c : well_behaved (fun a o => handle_data a f c o).
Proof.
  intros a o. unfold handle_data, refuse.
  destruct (hstreams a !! stream_id f) as [s|]; [|apply refuse_violation_wb].
  destruct (peer_closed s); [apply refuse_violation_wb|].
  destruct (debit _ _) as [w [[]|e|]]; [|apply refuse_violation_wb..].
  destruct (checked_add _ _ _); [|exact (refuse_violation_wb (violation f) RInternal (set_stream a _ _) o)].
  destruct c; [|handler]. set (a1 := set_stream _ _ _). set (e := DataEvent _ _).
  destruct (mark_peer_closed_wb (stream_id f) a1 (push_event o e)) as [H1 H2].
  destruct (mark_peer_closed_wb (stream_id f) a1 (push_event output_default e)) as [_ H3].
  rewrite H1, H2, H3. split; [done|]. cbn [fst snd]. rewrite <- oapp_assoc. f_equal. f_equal.
  unfold oapp, push_event. cbn. by rewrite !app_nil_r.
Qed.

Lemma handle_open_wb f : well_behaved (fun a o => handle_open a f o).
Proof.
  intros a o. unfold handle_open, refuse. cbv zeta.
  destruct (negb _); [apply refuse_violation_wb|]. set (a0 := set_high_water a _).
  destruct (_ >=? _); [exact (refuse_violation_wb (violation f) RStreamLimit a0 o)|].
  destruct (_ >? _); [exact (refuse_violation_wb (violation f) RFlowControl a0 o)|].
  destruct (debit _ _) as [w [[]|e|]]; [|exact (refuse_violation_wb (violation f) RFlowControl a0 o)..].
  set (a1 := set_stream a0 _ _).
  assert (Hev : forall o, open_events f o = oapp o (open_events f output_default)).
  { intros o'. unfold open_events. destruct (_ || _); unfold oapp, push_event; cbn; by rewrite <- ?app_assoc, !app_nil_r. }
  destruct (has (flags f) FLAG_CLOSE); [|split; [done|by rewrite Hev]].
  destruct (mark_peer_closed_wb (stream_id f) a1 (open_events f o)) as [H1 H2].
  destruct (mark_peer_closed_wb (stream_id f) a1 (open_events f output_default)) as [_ H3].
  rewrite H1, H2, H3. split; [done|]. cbn [fst snd]. rewrite Hev. by rewrite oapp_assoc.
Qed.

Lemma handle_close_wb f : well_behaved (fun a o => handle_close a f o).
Proof.
  intros a o. unfold handle_close. destruct (negb _); [apply handle_data_wb|apply mark_peer_closed_wb].
Qed.

Lemma handle_reset_wb f : well_behaved (fun a o => handle_reset a f o).
Proof.
  intros a o. unfold handle_reset, refuse.
  destruct (payload f) as [|b [|? ?]]; [apply refuse_violation_wb|handler|apply refuse_violation_wb].
Qed.

Lemma handle_window_wb f : well_behaved (fun a o => handle_window a f o).
Proof.
  intros a o. unfold handle_window, refuse.
  destruct (window_credit f); [|apply refuse_violation_wb].
  destruct (hstreams a !! _); [|apply refuse_violation_wb].
  destruct (checked_add _ _ _); [|apply refuse_violation_wb].
  destruct (_ >? _); [apply refuse_violation_wb|handler].
Qed.

(** The non-control frames, as one handler. *)
Definition handle_stream (a : MuxAcceptor) (f : Frame) (o : MuxOutput) : MuxAcceptor * MuxOutput :=
  let known := bool_decide (is_Some (hstreams a !! stream_id f)) in
  if negb (flags_valid (flags f)) || has (flags f) (Z.lor FLAG_PING FLAG_PONG) then refuse a f RProtocol o
  else if has (flags f) FLAG_OPEN then handle_open a f o
  else if negb known then
    if has (flags f) (Z.lor FLAG_CLOSE FLAG_RESET) then (a, o) else refuse a f RProtocol o
  else if flags f =? Z.lor FLAG_DATA FLAG_CLOSE then handle_data a f true o
  else if flags f =? FLAG_DATA then handle_data a f false o
  else if flags f =? FLAG_CLOSE then handle_close a f o
  else if flags f =? FLAG_RESET then handle_reset a f o
  else if flags f =? FLAG_WINDOW then handle_window a f o
  else refuse a f RProtocol o.

Lemma handle_frame_stream a f o :
  stream_id f <> 0 ->
  handle_frame a f o = (fst (handle_stream a f o), Ok (snd (handle_stream a f o))).
Proof.
  intros H0. unfold handle_frame, handle_stream. rewrite (proj2 (Z.eqb_neq _ _) H0).
  destruct (flags_valid _); cbn [negb orb]; [|done].
  destruct (has _ _); [done|]. destruct (has _ FLAG_OPEN); [done|].
  destruct (bool_decide _); cbn [negb andb]; [by repeat case_match|by case_match].
Qed.

Lemma handle_stream_wb f : well_behaved (fun a o => handle_stream a f o).
Proof.
  intros a o. unfold handle_stream, refuse.
  destruct (_ || _); [apply refuse_violation_wb|].
  destruct (has _ FLAG_OPEN); [apply handle_open_wb|].
  destruct (negb (bool_decide _)).
  { destruct (has _ _); [cbn; by rewrite oapp_default|apply refuse_violation_wb]. }
  destruct (_ =? Z.lor _ _); [apply handle_data_wb|]. destruct (_ =? FLAG_DATA); [apply handle_data_wb|].
  destruct (_ =? FLAG_CLOSE); [apply handle_close_wb|]. destruct (_ =? FLAG_RESET); [apply handle_reset_wb|].
  destruct (_ =? FLAG_WINDOW); [apply handle_window_wb|apply refuse_violation_wb].
Qed.

(** The outcome of a whole frame: the framing fields are untouched, and what is
    appended to the output does not depend on what was there. *)
Lemma handle_frame_wb a f o :
  framing (fst (handle_frame a f o)) = framing a /\
  handle_frame a f o =
  (fst (handle_frame a f output_default), oapp o <$> snd (handle_frame a f output_default)).
Proof.
  destruct (decide (stream_id f = 0)) as [H0|H0].
  - unfold handle_frame. rewrite H0. cbn [Z.eqb fst snd]. split; [done|]. f_equal.
    unfold handle_control. repeat case_match; cbn; unfold push_frame, oapp; cbn;
      by rewrite ?app_nil_r; destruct o.
  - rewrite !handle_frame_stream by done. destruct (handle_stream_wb f a o) as [H1 H2].
    cbn [fst snd]. split; [done|]. by rewrite H2.
Qed.

(** ** Lemmas: the byte loop *)

Definition limits_ok (l : MuxLimits) : Prop :=
  0 < max_concurrent_streams l /\ HEADER_LEN + MAX_PAYLOAD <= decoder_buffer_bytes l < 2 ^ 64.

(** Views of the bytes of a frame that is still arriving. *)
Definition raw_flags (raw : list byte) : Z := match raw !! 4%nat with Some b => u8 b | None => 0 end.
Definition need (raw : list byte) : Z := HEADER_LEN + be_val (slice raw 5 8).
Definition frame_of (raw : list byte) : Frame :=
  mkFrame (be_val (ztake 4 raw)) (raw_flags raw) (zdrop HEADER_LEN raw).
Definition partial (raw : list byte) : Prop :=
  len raw < HEADER_LEN \/ (len raw < need raw /\ has (raw_flags raw) FLAG_RESERVED_MASK = false).

(** The acceptor that has buffered [raw], and the one skipping [n] more bytes of
    a refused frame. *)
Definition at_raw (a : MuxAcceptor) (raw : list byte) : MuxAcceptor :=
  if len raw <? HEADER_LEN then set_framing a decoder_new (len raw) raw None None
  else set_framing a (mkFrameDecoder raw) (len raw) [] (Some (need raw - len raw)) None.
Definition discarding (a : MuxAcceptor) (n : Z) : MuxAcceptor :=
  set_framing a decoder_new 0 [] None (some_positive n).
Definition idle (a : MuxAcceptor) : MuxAcceptor := at_raw a [].

Lemma need_range raw : HEADER_LEN <= need raw <= HEADER_LEN + MAX_PAYLOAD.
Proof.
  unfold need. pose proof (be_val_range (slice raw 5 8)) as H.
  assert (Hl : len (slice raw 5 8) <= 3) by (unfold slice; rewrite length_take; lia).
  assert (256 ^ len (slice raw 5 8) <= 256 ^ 3) by (apply Z.pow_le_mono_r; lia).
  unfold MAX_PAYLOAD. lia.
Qed.

Lemma need_app raw x : HEADER_LEN <= len raw -> need (raw ++ x) = need raw.
Proof.
  unfold need, HEADER_LEN. intros H. f_equal. f_equal. unfold slice.
  rewrite drop_app_le, take_app_le; [done|rewrite length_drop; lia|lia].
Qed.

Lemma raw_flags_app raw x : HEADER_LEN <= len raw -> raw_flags (raw ++ x) = raw_flags raw.
Proof. unfold raw_flags, HEADER_LEN. intros H. by rewrite lookup_app_l by lia. Qed.

Lemma next_frame_raw raw :
  HEADER_LEN <= len raw -> has (raw_flags raw) FLAG_RESERVED_MASK = false ->
  next_frame (mkFrameDecoder raw) =
  if len raw <? need raw then (mkFrameDecoder raw, Ok None)
  else (mkFrameDecoder (zdrop (need raw) raw),
        Ok (Some (mkFrame (be_val (ztake 4 raw)) (raw_flags raw) (slice raw HEADER_LEN (need raw))))).
Proof.
  intros Hl Hr. unfold HEADER_LEN in Hl.
  do 8 (destruct raw as [|? raw]; [cbn in Hl; lia|]).
  unfold next_frame. cbn [buf]. change (raw_flags _) with (u8 b3) in *. rewrite Hr. cbv zeta.
  by rewrite length3_lor.
Qed.

Lemma set_framing_self a :
  set_framing a (decoder a) (decoder_buffered_bytes a) (header_buffer a) (payload_remaining a)
    (discarded_payload_remaining a) = a.
Proof. by destruct a. Qed.

Lemma drain_decoder_none a o :
  next_frame (decoder a) = (decoder a, Ok None) -> drain_decoder a o = (a, Ok o).
Proof. intros H. unfold drain_decoder. cbn [drain_decoder_loop]. rewrite H. by rewrite set_framing_self. Qed.

(** A decoder holding exactly one frame hands it to [handle_frame]. *)
Lemma drain_decoder_one a o f :
  next_frame (decoder a) = (decoder_new, Ok (Some f)) ->
  decoder_buffered_bytes a = HEADER_LEN + len (payload f) ->
  drain_decoder a o =
  handle_frame (set_framing a decoder_new 0 (header_buffer a) (payload_remaining a)
                  (discarded_payload_remaining a)) f o.
Proof.
  intros H Hb. unfold drain_decoder. pose proof (next_frame_shrinks _ _ _ H) as Hs.
  cbn [drain_decoder_loop]. rewrite H, Hb. unfold checked_sub.
  rewrite (proj2 (Z.leb_le _ _)), Z.sub_diag by lia.
  set (a0 := set_framing a _ _ _ _ _).
  destruct (handle_frame_wb a0 f o) as [Hf _]. destruct (handle_frame a0 f o) as [a' [o'|e|]]; [|done..].
  cbn [fst] in Hf. destruct (length (buf (decoder a))) as [|n]; [lia|]. cbn [drain_decoder_loop].
  assert (Hd : decoder a' = decoder_new) by exact (f_equal (fun x => snd (fst (fst (fst (fst x))))) Hf).
  rewrite Hd. change (next_frame decoder_new) with (decoder_new, Ok (E:=FrameError) (None (A:=Frame))).
  cbv iota. rewrite <- Hd. by rewrite set_framing_self.
Qed.

Lemma refuse_violation_framing a d n h pr dr v c o :
  refuse_violation (set_framing a d n h pr dr) v c o =
  (set_framing (fst (refuse_violation a v c o)) d n h pr dr, snd (refuse_violation a v c o)).
Proof. unfold refuse_violation. cbn. by case_bool_decide. Qed.

(** The reserved-bit branch: the frame is refused and its payload will be skipped. *)
Definition reject_reserved (a : MuxAcceptor) (v : FrameViolation) (o : MuxOutput)
  : MuxAcceptor * res HomeError MuxOutput :=
  if fv_stream_id v =? 0 then (a, refused RProtocol (Some v))
  else (fst (refuse_violation a v RProtocol o), Ok (snd (refuse_violation a v RProtocol o))).

(** One byte, in every phase. *)
Lemma feed_byte_raw a raw o b :
  limits_ok (limits a) -> partial raw ->
  let raw' := raw ++ [b] in
  feed_byte (at_raw a raw) o b =
  if len raw' <? HEADER_LEN then (at_raw a raw', Ok o)
  else if (len raw' =? HEADER_LEN) && has (raw_flags raw') FLAG_RESERVED_MASK
  then reject_reserved (discarding a (need raw' - HEADER_LEN))
         (mkFrameViolation (be_val (ztake 4 raw')) (raw_flags raw') (need raw' - HEADER_LEN)) o
  else if len raw' <? need raw' then (at_raw a raw', Ok o)
  else handle_frame (idle a) (frame_of raw') o.
Proof.
  intros [_ Hlim] Hp raw'. pose proof (need_range raw) as Hn.
  assert (Hl : len raw' = len raw + 1) by (unfold raw'; rewrite length_app; cbn; lia).
  assert (Hlen : len raw < HEADER_LEN + MAX_PAYLOAD) by (destruct Hp; unfold MAX_PAYLOAD in *; lia).
  unfold at_raw at 1. destruct (Z.ltb_spec (len raw) HEADER_LEN) as [Hh|Hh].
  - unfold feed_byte. cbn [discarded_payload_remaining set_framing decoder_buffered_bytes limits
      payload_remaining header_buffer decoder]. unfold checked_add.
    replace (len raw >=? _) with false by lia.
    replace (len raw + 1 <? 2 ^ 64) with true by (unfold HEADER_LEN in *; lia).
    fold raw'. destruct (Z.ltb_spec (len raw') HEADER_LEN) as [Hh'|Hh'].
    { replace (len raw' =? HEADER_LEN) with false by lia. cbn [negb]. unfold at_raw.
      rewrite (proj2 (Z.ltb_lt _ _) Hh'), Hl. done. }
    replace (len raw' =? HEADER_LEN) with true by lia. cbn [negb andb].
    assert (Hl8 : length raw' = 8%nat) by (unfold HEADER_LEN in *; lia).
    destruct raw' as [|b0 [|b1 [|b2 [|b3 [|b4 [|b5 [|b6 [|b7 [|]]]]]]]]] eqn:Er; try (cbn in Hl8; lia).
    unfold feed_header. cbv zeta. rewrite length3_lor.
    change (raw_flags _) with (u8 b4). change (ztake 4 _) with [b0; b1; b2; b3].
    change (need _ - HEADER_LEN) with (8 + be_val [b5; b6; b7] - 8).
    replace (8 + be_val [b5; b6; b7] - 8) with (be_val [b5; b6; b7]) by lia.
    replace (len raw + 1) with 8 by (unfold HEADER_LEN in *; lia).
    destruct (has (u8 b4) FLAG_RESERVED_MASK) eqn:Ers; cbn [decoder_buffered_bytes set_framing].
    { change (checked_sub 8 HEADER_LEN) with (Some 0). cbv iota.
      unfold reject_reserved, discarding. cbn [fv_stream_id].
      destruct (_ =? 0); [done|]. rewrite !refuse_violation_framing. done. }
    set (h := [b0; b1; b2; b3; b4; b5; b6; b7]) in *.
    assert (Hnh : need h = 8 + be_val [b5; b6; b7]) by done. pose proof (need_range h) as Hnr.
    assert (Hnf := next_frame_raw h ltac:(done) Ers).
    destruct (Z.ltb_spec (len h) (need h)) as [Hlt|Hge].
    + rewrite drain_decoder_none by exact Hnf. unfold at_raw.
      change (len h <? HEADER_LEN) with false. cbv iota. do 2 f_equal.
      unfold some_positive. change (len h) with 8 in *. replace (_ >? 0) with true by lia.
      do 2 f_equal. lia.
    + change (len h) with 8 in Hge. unfold HEADER_LEN in Hnr.
      assert (Hnn : need h = 8) by lia. rewrite Hnn in Hnf.
      rewrite (drain_decoder_one _ _ (frame_of h)); [|exact Hnf|done].
      unfold some_positive. replace (be_val [b5; b6; b7] >? 0) with false by lia. done.
  - destruct Hp as [Hp|[Hp Hr]]; [lia|].
    unfold feed_byte. cbn [discarded_payload_remaining set_framing decoder_buffered_bytes limits
      payload_remaining header_buffer decoder]. unfold checked_add.
    replace (len raw >=? _) with false by lia.
    replace (len raw + 1 <? 2 ^ 64) with true by (unfold HEADER_LEN, MAX_PAYLOAD in *; lia).
    unfold decoder_feed. cbn [buf]. fold raw'.
    replace (len raw' <? HEADER_LEN) with false by lia.
    replace (len raw' =? HEADER_LEN) with false by lia. cbn [andb].
    assert (Hn' : need raw' = need raw) by by apply need_app.
    assert (Hf' : raw_flags raw' = raw_flags raw) by by apply raw_flags_app.
    assert (Hnf := next_frame_raw raw' ltac:(lia) ltac:(by rewrite Hf')).
    destruct (Z.ltb_spec (len raw') (need raw')) as [Hlt|Hge].
    + rewrite drain_decoder_none by exact Hnf. unfold at_raw.
      replace (len raw' <? HEADER_LEN) with false by lia. cbv iota. unfold count_down.
      replace (_ >? 1) with true by lia. rewrite Hl. by replace (need raw' - (len raw + 1)) with (need raw - len raw - 1) by lia.
    + assert (Hnn : need raw' = len raw') by lia.
      assert (Hdr : zdrop (need raw') raw' = []) by (rewrite drop_ge; [done|lia]).
      assert (Hsl : slice raw' HEADER_LEN (need raw') = zdrop HEADER_LEN raw').
      { unfold slice. rewrite take_ge; [done|]. rewrite length_drop. unfold HEADER_LEN. lia. }
      rewrite Hdr, Hsl in Hnf.
      rewrite (drain_decoder_one _ _ (frame_of raw')); [|exact Hnf|].
      2:{ cbn. rewrite length_drop. unfold HEADER_LEN in *. lia. }
      unfold count_down. replace (need raw - len raw >? 1) with false by lia. done.
Qed.

(** *** Whole frames *)

(** A frame as a peer may put it on the wire: any flag byte. *)
Definition raw_frame (f : Frame) : Prop :=
  is_u32 (stream_id f) /\ is_u8 (flags f) /\ len (payload f) <= MAX_PAYLOAD.

(** What the acceptor owes a frame: a reserved flag bit is refused from the
    header alone, anything else goes through [handle_frame]. *)
Definition home_frame (a : MuxAcceptor) (f : Frame) (o : MuxOutput) : MuxAcceptor * res HomeError MuxOutput :=
  if has (flags f) FLAG_RESERVED_MASK then reject_reserved a (violation f) o else handle_frame a f o.

Fixpoint home_frames (a : MuxAcceptor) (fs : list Frame) (o : MuxOutput)
  : MuxAcceptor * res HomeError MuxOutput :=
  match fs with
  | [] => (a, Ok o)
  | f :: fs =>
      match home_frame a f o with
      | (a', Ok o') => home_frames a' fs o'
      | (a', Err e) => (a', Err e)
      | (a', Panic) => (a', Panic)
      end
  end.

Lemma feed_bytes_app x : forall a o y,
  feed_bytes a o (x ++ y) =
  match feed_bytes a o x with
  | (a', Ok o') => feed_bytes a' o' y
  | (a', Err e) => (a', Err e)
  | (a', Panic) => (a', Panic)
  end.
Proof.
  induction x as [|b x IH]; intros a o y; [done|]. cbn [app feed_bytes].
  destruct (feed_byte a o b) as [a' [o'|e|]]; [apply IH|done..].
Qed.

Lemma wire_split f :
  wire f = (be_bytes 4 (stream_id f) ++ as_u8 (flags f) :: be_bytes 3 (len (payload f))) ++ payload f.
Proof. unfold wire. by rewrite <- app_assoc. Qed.

Lemma wire_views f :
  raw_frame f ->
  raw_flags (wire f) = flags f /\ need (wire f) = HEADER_LEN + len (payload f) /\
  be_val (ztake 4 (wire f)) = stream_id f /\ zdrop HEADER_LEN (wire f) = payload f.
Proof.
  intros (Hs & Hf & Hl). unfold in_range, MAX_PAYLOAD in *. split_and!.
  - change (raw_flags (wire f)) with (u8 (as_u8 (flags f))). rewrite u8_as_u8. apply Z.mod_small. lia.
  - unfold need. change (slice (wire f) 5 8) with (be_bytes 3 (len (payload f))).
    rewrite be_val_be_bytes, Z.mod_small by lia. done.
  - change (ztake 4 (wire f)) with (be_bytes 4 (stream_id f)). rewrite be_val_be_bytes. apply Z.mod_small. lia.
  - done.
Qed.

Lemma frame_of_wire f : raw_frame f -> frame_of (wire f) = f.
Proof.
  intros Hf. destruct (wire_views f Hf) as (H1 & _ & H3 & H4). unfold frame_of.
  rewrite H1, H3, H4. by destruct f.
Qed.

Lemma feed_wire_rest a f o x : forall raw,
  limits_ok (limits a) -> raw_frame f -> has (flags f) FLAG_RESERVED_MASK = false ->
  raw ++ x = wire f -> x <> [] -> feed_bytes (at_raw a raw) o x = handle_frame (idle a) f o.
Proof.
  induction x as [|b x IH]; intros raw Hlim Hf Hr Hw Hx; [done|].
  destruct (wire_views f Hf) as (Hfl & Hn & _ & _). pose proof (len_wire f) as Hlw.
  assert (Hw' : (raw ++ [b]) ++ x = wire f) by by rewrite <- app_assoc.
  assert (Hview : forall r y, r ++ y = wire f -> HEADER_LEN <= len r ->
    need r = len (wire f) /\ raw_flags r = flags f).
  { intros r y Hry Hl. rewrite Hlw, <- Hn, <- Hfl, <- Hry, need_app, raw_flags_app by done. done. }
  assert (Hlen : len raw + 1 + len x = len (wire f)) by (rewrite <- Hw, length_app; cbn; lia).
  assert (Hp : partial raw).
  { unfold partial. destruct (decide (len raw < HEADER_LEN)) as [|Hl]; [by left|right].
    destruct (Hview raw (b :: x) Hw ltac:(lia)) as [-> ->]. split; [lia|done]. }
  cbn [feed_bytes]. rewrite feed_byte_raw by done. cbv zeta.
  assert (Hl' : len (raw ++ [b]) = len raw + 1) by (rewrite length_app; cbn; lia).
  destruct (Z.ltb_spec (len (raw ++ [b])) HEADER_LEN) as [Hh|Hh].
  { apply IH; [done..|]. intros ->. cbn in Hlen. unfold HEADER_LEN in *. lia. }
  destruct (Hview (raw ++ [b]) x Hw' Hh) as [Hn2 Hf2]. rewrite Hf2, Hr, andb_false_r, Hn2.
  destruct (Z.ltb_spec (len (raw ++ [b])) (len (wire f))) as [Hlt|Hge].
  { apply IH; [done..|]. intros ->. cbn in Hlen. lia. }
  assert (x = []) as -> by (apply nil_length_inv; lia). rewrite app_nil_r in Hw'.
  rewrite Hw', frame_of_wire by done. by destruct (handle_frame _ _ _) as [? []].
Qed.

Lemma feed_discard p : forall a o,
  feed_bytes (discarding a (len p)) o p = (idle a, Ok o).
Proof.
  induction p as [|b p IH]; intros a o; [done|].
  cbn [feed_bytes]. unfold feed_byte, discarding at 1. cbn [discarded_payload_remaining set_framing].
  unfold some_positive. replace (len (b :: p) >? 0) with true by (cbn; lia).
  cbv iota. replace (count_down (len (b :: p))) with (some_positive (len p)); [apply (IH a o)|].
  unfold count_down, some_positive. cbn [length]. destruct (Z.gtb_spec (len p) 0).
  - replace (_ >? 1) with true by lia. f_equal. lia.
  - by replace (_ >? 1) with false by lia.
Qed.

Lemma feed_header_bytes h : forall a raw o,
  limits_ok (limits a) -> len raw + len h < HEADER_LEN ->
  feed_bytes (at_raw a raw) o h = (at_raw a (raw ++ h), Ok o).
Proof.
  induction h as [|b h IH]; intros a raw o Hlim Hl; [by rewrite app_nil_r|].
  cbn [feed_bytes]. cbn [length] in Hl. rewrite feed_byte_raw; [|done|left; lia]. cbv zeta.
  rewrite (proj2 (Z.ltb_lt _ _)) by (rewrite length_app; cbn; lia).
  rewrite IH by (rewrite ?length_app; cbn; try done; lia). by rewrite <- app_assoc.
Qed.

(** Refusals read and write no framing field. *)
Lemma reject_reserved_discard a v n o :
  exists a0 r, reject_reserved (discarding a n) v o = (discarding a0 n, r) /\
    reject_reserved (idle a) v o = (idle a0, r) /\ r <> Panic.
Proof.
  unfold reject_reserved. destruct (_ =? 0); [exists a; by eexists|].
  change (idle a) with (set_framing a decoder_new 0 [] None None). unfold discarding at 1 2.
  rewrite !refuse_violation_framing. exists (fst (refuse_violation a v RProtocol o)). by eexists.
Qed.

Lemma handle_frame_no_panic a f o : snd (handle_frame a f o) <> Panic.
Proof.
  destruct (decide (stream_id f = 0)) as [H0|H0]; [|by rewrite handle_frame_stream].
  unfold handle_frame. rewrite H0. cbn. unfold handle_control. by repeat case_match.
Qed.

(** One frame on an idle acceptor. *)
Lemma feed_wire a f o :
  limits_ok (limits a) -> raw_frame f ->
  match home_frame (idle a) f o with
  | (a', Ok o') => feed_bytes (idle a) o (wire f) = (a', Ok o')
  | (_, Err e) => exists a'', feed_bytes (idle a) o (wire f) = (a'', Err e)
  | (_, Panic) => False
  end.
Proof.
  intros Hlim Hf. unfold home_frame. destruct (has (flags f) FLAG_RESERVED_MASK) eqn:Hr.
  - destruct (wire_views f Hf) as (Hfl & Hn & Hs & _).
    set (h := be_bytes 4 (stream_id f) ++ as_u8 (flags f) :: be_bytes 3 (len (payload f))).
    assert (Hw : wire f = h ++ payload f) by apply wire_split.
    assert (Hh8 : len h = HEADER_LEN) by done.
    rewrite Hw in Hfl, Hn, Hs. rewrite raw_flags_app in Hfl by lia. rewrite need_app in Hn by lia.
    change (ztake 4 (h ++ payload f)) with (ztake 4 h) in Hs.
    assert (Hhead : feed_bytes (idle a) o h = reject_reserved (discarding a (len (payload f))) (violation f) o).
    { change h with (take 7 h ++ drop 7 h). rewrite feed_bytes_app.
      rewrite (feed_header_bytes (take 7 h) a []); [|done|reflexivity].
      change (drop 7 h) with [as_u8 (len (payload f) / 256 ^ 0)]. cbn [feed_bytes].
      rewrite feed_byte_raw; [|done|left; reflexivity]. cbv zeta.
      change (([] ++ take 7 h) ++ [as_u8 (len (payload f) / 256 ^ 0)]) with h.
      rewrite Hh8, Hfl, Hr, Hs, Hn. cbn [Z.ltb Z.eqb HEADER_LEN Pos.eqb Pos.compare Pos.compare_cont andb Z.compare].
      replace (HEADER_LEN + len (payload f) - HEADER_LEN) with (len (payload f)) by lia.
      unfold violation. by destruct (reject_reserved _ _ _) as [? []]. }
    rewrite Hw, feed_bytes_app, Hhead.
    destruct (reject_reserved_discard a (violation f) (len (payload f)) o) as (a0 & r & -> & -> & Hnp).
    destruct r as [o'|e|]; [apply feed_discard|by eexists|done].
  - pose proof (feed_wire_rest a f o (wire f) [] Hlim Hf Hr eq_refl ltac:(done)) as Hw.
    fold (idle a) in Hw. rewrite Hw.
    pose proof (handle_frame_no_panic (idle a) f o).
    destruct (handle_frame _ _ _) as [? []]; [done|by eexists|done].
Qed.

(** ** Lemmas: streams and their events *)

(** A stream table entry in order: a 32-bit odd id below the high-water mark,
    books that match the receive window, credit within the protocol cap, and not
    both directions closed (such a stream is forgotten). *)
Record hstream_ok (hw : option Z) (sid : Z) (s : StreamState) : Prop := {
  hs_id : is_u32 sid /\ sid mod 2 = 1;
  hs_high : exists h, hw = Some h /\ sid <= h;
  hs_window : wf_window (receive_window s);
  hs_debited : debited_not_consumed s = outstanding (receive_window s);
  hs_credit : 0 <= hsend_credit s <= MAX_SEND_CREDIT;
  hs_open : peer_closed s && local_closed s = false
}.

Record hinv (a : MuxAcceptor) : Prop := {
  hi_limits : limits_ok (limits a);
  hi_streams : map_Forall (hstream_ok (peer_high_water a)) (hstreams a);
  hi_size : Z.of_nat (size (hstreams a)) <= max_concurrent_streams (limits a)
}.

(** A monitor of one carrier's event trace: streams are opened with odd ids in
    increasing order, deliver data only until their reader closed, and say
    nothing after their reset. *)
Inductive mphase := MOpen | MHalf | MDone.

Definition mon_step (m : gmap Z mphase) (e : MuxEvent) : option (gmap Z mphase) :=
  match e with
  | Opened sid =>
      if bool_decide (map_Forall (fun i _ => i < sid) m) && (sid mod 2 =? 1)
      then Some (<[sid := MOpen]> m) else None
  | DataEvent sid _ => match m !! sid with Some MOpen => Some m | _ => None end
  | ReadClosed sid =>
      match m !! sid with Some MOpen | Some MHalf => Some (<[sid := MHalf]> m) | _ => None end
  | ResetEvent sid _ =>
      match m !! sid with Some MOpen | Some MHalf => Some (<[sid := MDone]> m) | _ => None end
  | PeerGoneEvent _ => Some m
  end.

Fixpoint mon_run (m : gmap Z mphase) (es : list MuxEvent) : option (gmap Z mphase) :=
  match es with
  | [] => Some m
  | e :: es => mon_step m e ≫= fun m' => mon_run m' es
  end.

Lemma mon_run_app es : forall m fs, mon_run m (es ++ fs) = mon_run m es ≫= fun m' => mon_run m' fs.
Proof.
  induction es as [|e es IH]; intros m fs; [done|]. cbn. destruct (mon_step m e); cbn; [apply IH|done].
Qed.

Definition phase (s : StreamState) : mphase := if peer_closed s then MHalf else MOpen.

Record minv (a : MuxAcceptor) (m : gmap Z mphase) : Prop := {
  mi_inv : hinv a;
  mi_live : forall sid s, hstreams a !! sid = Some s -> m !! sid = Some (phase s);
  mi_high : forall sid p, m !! sid = Some p -> exists h, peer_high_water a = Some h /\ sid <= h
}.

(** A handler outcome that keeps the invariants and whose events the monitor accepts. *)
Definition good (m : gmap Z mphase) (r : MuxAcceptor * MuxOutput) : Prop :=
  exists m', mon_run m (mevents (snd r)) = Some m' /\ minv (fst r) m'.

Lemma minv_same a b m :
  limits a = limits b -> peer_high_water a = peer_high_water b -> hstreams a = hstreams b ->
  minv a m -> minv b m.
Proof.
  intros Hl Hh Hs [[? ? ?] ? ?]. split; [split|..]; rewrite <- ?Hl, <- ?Hh, <- ?Hs; done.
Qed.

Lemma minv_remove a m sid : minv a m -> minv (home_remove_stream a sid) m.
Proof.
  intros [[Hl Hs Hz] Hlive Hh]. split; [split; cbn; [done|by apply map_Forall_delete|]|..|done].
  - destruct (hstreams a !! sid) as [s|] eqn:E.
    + pose proof (map_size_delete_Some sid (hstreams a)) as H. rewrite H by done. lia.
    + rewrite map_size_delete_None by done. lia.
  - intros i s. cbn. rewrite lookup_delete_Some. intros [_ H]. by apply Hlive.
Qed.

(** Updating a known stream together with its monitor phase. *)
Lemma minv_set a m sid s p :
  minv a m -> is_Some (hstreams a !! sid) -> hstream_ok (peer_high_water a) sid s ->
  p = phase s -> minv (set_stream a sid s) (<[sid := p]> m).
Proof.
  intros [[Hl Hs Hz] Hlive Hh] [s0 E] Hok ->. split; [split; cbn; [done|by apply map_Forall_insert_2|]|..].
  - rewrite map_size_insert_Some by done. done.
  - intros i si. cbn. destruct (decide (sid = i)) as [<-|Hi].
    + rewrite !lookup_insert_eq. congruence.
    + rewrite !lookup_insert_ne by done. apply Hlive.
  - intros i pi. cbn. destruct (decide (sid = i)) as [<-|Hi].
    + intros _. by destruct Hok.
    + rewrite lookup_insert_ne by done. apply Hh.
Qed.

Lemma minv_set_same a m sid s s0 :
  minv a m -> hstreams a !! sid = Some s0 -> hstream_ok (peer_high_water a) sid s ->
  peer_closed s = peer_closed s0 -> minv (set_stream a sid s) m.
Proof.
  intros I E Hok Hp. rewrite <- (insert_id m sid (phase s)); [eapply minv_set; eauto|].
  unfold phase. rewrite Hp. by apply (mi_live _ _ I).
Qed.

Lemma good_refuse a m v c : minv a m -> good m (refuse_violation a v c output_default).
Proof.
  intros I. unfold refuse_violation, good.
  assert (I' : minv (set_refusals a (record (refusals a) c)) m) by (by eapply minv_same; [..|exact I]).
  case_bool_decide as Hk.
  - destruct Hk as [s Hs]. cbn in *. rewrite (mi_live _ _ I _ _ Hs).
    exists (<[fv_stream_id v := MDone]> m). split; [by unfold phase; destruct (peer_closed s)|].
    apply (minv_remove _ m (fv_stream_id v)) in I'. destruct I' as [? Hlive Hh]. split; [done|..].
    + intros i si Hi. cbn in Hi. apply lookup_delete_Some in Hi as [Hne Hi].
      rewrite lookup_insert_ne by done. apply (mi_live _ _ I _ _ Hi).
    + intros i p. destruct (decide (fv_stream_id v = i)) as [<-|Hne].
      * intros _. apply (Hh _ (phase s)). by apply (mi_live _ _ I).
      * rewrite lookup_insert_ne by done. apply Hh.
  - exists m. by split.
Qed.

(** Sequencing: events pushed before a handler's own. *)
Lemma good_after h m m1 a o :
  well_behaved h -> mon_run m (mevents o) = Some m1 -> good m1 (h a output_default) -> good m (h a o).
Proof.
  intros Hwb Ho (m2 & Hr & Hi). destruct (Hwb a o) as [_ ->]. exists m2. cbn [fst snd mevents oapp].
  rewrite mon_run_app, Ho. by split.
Qed.

Lemma good_mark a m sid : minv a m -> good m (mark_peer_closed a sid output_default).
Proof.
  intros I. unfold mark_peer_closed, good. destruct (hstreams a !! sid) as [s|] eqn:E; [|by exists m].
  set (s' := mkStreamState _ _ _ _ _). pose proof (mi_inv _ _ I) as [_ Hs _]. pose proof (Hs _ _ E) as Hok.
  exists (<[sid := MHalf]> m).
  assert (Hm : mon_step m (ReadClosed sid) = Some (<[sid := MHalf]> m)).
  { cbn. rewrite (mi_live _ _ I _ _ E). unfold phase. by destruct (peer_closed s). }
  destruct (local_closed s) eqn:El.
  - split; [cbn [mevents push_event snd app output_default mon_run]; by rewrite Hm|].
    pose proof (minv_remove _ _ sid I) as [Hi Hlive Hh]. destruct Hi as [Hl1 Hs1 Hz1]. split.
    + split; cbn in *; rewrite ?delete_insert_eq; done.
    + intros i si Hi. cbn in Hi. rewrite delete_insert_eq in Hi.
      apply lookup_delete_Some in Hi as [Hne Hi]. rewrite lookup_insert_ne by done. by apply (mi_live _ _ I).
    + intros i p. cbn. destruct (decide (sid = i)) as [<-|Hne].
      * intros _. by destruct Hok.
      * rewrite lookup_insert_ne by done. apply (mi_high _ _ I).
  - split; [cbn [mevents push_event snd app output_default mon_run]; by rewrite Hm|].
    apply minv_set; [done|by eexists| |done]. destruct Hok. by split.
Qed.

(** Delivering a DATA event on a stream whose monitor phase is open. *)
Lemma good_deliver a m sid s0 s b (closes : bool) :
  minv a m -> hstreams a !! sid = Some s0 -> peer_closed s0 = false ->
  hstream_ok (peer_high_water a) sid s -> peer_closed s = false ->
  let o := push_event output_default (DataEvent sid b) in
  good m (if closes then mark_peer_closed (set_stream a sid s) sid o else (set_stream a sid s, o)).
Proof.
  intros I E Hp Hok Hp' o.
  assert (I' : minv (set_stream a sid s) m) by (eapply minv_set_same; eauto; congruence).
  assert (Hm : mon_run m (mevents o) = Some m).
  { cbn. rewrite (mi_live _ _ I _ _ E). unfold phase. by rewrite Hp. }
  destruct closes; [|by exists m]. eapply (good_after (fun a o => mark_peer_closed a sid o));
    [apply mark_peer_closed_wb|exact Hm|by apply good_mark].
Qed.

Lemma good_data a m f c : minv a m -> good m (handle_data a f c output_default).
Proof.
  intros I. unfold handle_data, refuse. destruct (hstreams a !! stream_id f) as [s|] eqn:E;
    [|by apply good_refuse].
  destruct (peer_closed s) eqn:Ep; [by apply good_refuse|].
  pose proof (mi_inv _ _ I) as [_ Hs _]. pose proof (Hs _ _ E) as [Hid Hhw Hw Hd Hc Ho].
  pose proof (debit_cases (receive_window s) (len (payload f)) Hw ltac:(lia)) as Hdb.
  destruct (debit _ _) as [w [[]|e|]]; [|by apply good_refuse|done]. destruct Hdb as [Hw' Ho'].
  unfold checked_add. rewrite (proj2 (Z.ltb_lt _ _)).
  2:{ rewrite Hd, <- Ho'. clear -Hw'. window_arith. }
  apply (good_deliver a m (stream_id f) s); [done..| |done].
  split; cbn; [done..|lia|done|done].
Qed.

Lemma good_open a m f : minv a m -> wf_frame f -> good m (handle_open a f output_default).
Proof.
  intros I (Hu & _ & Hl). unfold handle_open, refuse. cbv zeta.
  destruct (negb _) eqn:Ev; [by apply good_refuse|]. apply negb_false_iff, andb_prop in Ev as [Hodd Hhw].
  assert (I0 : minv (set_high_water a (Some (stream_id f))) m).
  { assert (Hup : forall i h, peer_high_water a = Some h -> i <= h -> i <= stream_id f).
    { intros i h E Hi. rewrite E in Hhw. lia. }
    destruct I as [[Hlm Hs Hz] Hlive Hh]. split; [split; [done| |done]|done|].
    - eapply map_Forall_impl; [exact Hs|]. intros i s [? (h & E & Hi) ? ? ? ?].
      split; [done| |done..]. eexists. split; [done|]. by eapply Hup.
    - intros i p Hi. destruct (Hh _ _ Hi) as (h & E & Hle). eexists. split; [done|]. by eapply Hup. }
  set (a0 := set_high_water a _) in *.
  destruct (Z.geb_spec (Z.of_nat (size (hstreams a0))) (max_concurrent_streams (limits a0))) as [Hfull|Hroom];
    [by apply good_refuse|].
  destruct (Z.gtb_spec (len (payload f)) INITIAL_WINDOW) as [Hbig|Hfit]; [by apply good_refuse|].
  destruct (debit_ok window_new (len (payload f)) wf_window_new) as (w & -> & Hw & _ & Ho).
  { cbn. lia. }
  set (s := mkStreamState w _ _ false false). set (sid := stream_id f).
  assert (Hnew : m !! sid = None).
  { destruct (m !! sid) as [p|] eqn:E; [|done]. destruct (mi_high _ _ I _ _ E) as (h & Eh & Hle).
    rewrite Eh in Hhw. unfold sid in Hle. lia. }
  assert (Hnone : hstreams a0 !! sid = None).
  { destruct (hstreams a0 !! sid) as [s0|] eqn:E; [|done]. by rewrite (mi_live _ _ I0 _ _ E) in Hnew. }
  assert (Hok : hstream_ok (peer_high_water a0) sid s).
  { split; cbn; [split; [done|unfold sid; lia]|by exists sid|done| |unfold MAX_SEND_CREDIT; done|done].
    rewrite Ho. cbn. done. }
  assert (I1 : minv (set_stream a0 sid s) (<[sid := MOpen]> m)).
  { destruct I0 as [[Hlm Hs Hz] Hlive Hh]. split; [split; cbn; [done|by apply map_Forall_insert_2|]|..].
    - rewrite map_size_insert_None by done. cbn in Hroom. lia.
    - intros i si. cbn. destruct (decide (sid = i)) as [<-|Hi].
      + rewrite !lookup_insert_eq. by intros [= <-].
      + rewrite !lookup_insert_ne by done. apply Hlive.
    - intros i p. destruct (decide (sid = i)) as [<-|Hi]; [by exists sid|].
      rewrite lookup_insert_ne by done. apply Hh. }
  assert (Hm : mon_run m (mevents (open_events f output_default)) = Some (<[sid := MOpen]> m)).
  { assert (Hbelow : map_Forall (fun i _ => i < sid) m).
    { intros i p E. destruct (mi_high _ _ I _ _ E) as (h & Eh & Hle). rewrite Eh in Hhw. unfold sid. lia. }
    unfold open_events. fold sid. destruct (_ || _); cbn; rewrite bool_decide_eq_true_2 by done;
      rewrite (Hodd : (sid mod 2 =? 1) = true); cbn; by rewrite ?lookup_insert_eq. }
  destruct (has (flags f) FLAG_CLOSE); [|by eexists].
  eapply (good_after (fun a o => mark_peer_closed a sid o)); [apply mark_peer_closed_wb|exact Hm|by apply good_mark].
Qed.

Lemma good_reset a m f :
  minv a m -> is_Some (hstreams a !! stream_id f) -> good m (handle_reset a f output_default).
Proof.
  intros I [s E]. unfold handle_reset, refuse.
  destruct (payload f) as [|b [|? ?]]; [by apply good_refuse| |by apply good_refuse].
  exists (<[stream_id f := MDone]> m). cbn. rewrite (mi_live _ _ I _ _ E).
  split; [by unfold phase; destruct (peer_closed s)|].
  pose proof (minv_remove _ _ (stream_id f) I) as [Hi _ _]. split; [done|..].
  - intros i si Hi'. cbn in Hi'. apply lookup_delete_Some in Hi' as [Hne Hi'].
    rewrite lookup_insert_ne by done. by apply (mi_live _ _ I).
  - intros i p. cbn. destruct (decide (stream_id f = i)) as [<-|Hne].
    + intros _. eapply (mi_high _ _ I), (mi_live _ _ I), E.
    + rewrite lookup_insert_ne by done. apply (mi_high _ _ I).
Qed.

Lemma good_window a m f : minv a m -> good m (handle_window a f output_default).
Proof.
  intros I. unfold handle_window, refuse. destruct (window_credit f) as [c|] eqn:Ec; [|by apply good_refuse].
  destruct (hstreams a !! stream_id f) as [s|] eqn:E; [|by apply good_refuse].
  destruct (checked_add _ _ _) as [n|] eqn:En; [|by apply good_refuse].
  destruct (Z.gtb_spec n MAX_SEND_CREDIT) as [Hbig|Hok]; [by apply good_refuse|].
  exists m. split; [done|]. eapply minv_set_same; [done|done| |done].
  pose proof (mi_inv _ _ I) as [_ Hs _]. pose proof (Hs _ _ E) as [Hid Hhw Hw Hd Hc Ho].
  apply window_credit_range in Ec. unfold checked_add in En. destruct (_ <? _); [|done]. simplify_eq.
  split; cbn; [done..|lia|done].
Qed.

Lemma good_stream a m f : minv a m -> wf_frame f -> good m (handle_stream a f output_default).
Proof.
  intros I Hf. unfold handle_stream, refuse.
  destruct (_ || _); [by apply good_refuse|]. destruct (has _ FLAG_OPEN); [by apply good_open|].
  case_bool_decide as Hk; cbn [negb]; [|destruct (has _ _); [by exists m|by apply good_refuse]].
  destruct (_ =? Z.lor _ _); [by apply good_data|]. destruct (_ =? FLAG_DATA); [by apply good_data|].
  destruct (_ =? FLAG_CLOSE); [|destruct (_ =? FLAG_RESET); [by apply good_reset|]].
  - unfold handle_close. destruct (negb _); [by apply good_data|by apply good_mark].
  - destruct (_ =? FLAG_WINDOW); [by apply good_window|by apply good_refuse].
Qed.

(** A whole frame: accepted, or fatal because it is a bad control frame. *)
Lemma handle_frame_good a m f o :
  minv a m -> wf_frame f ->
  match handle_frame a f o with
  | (a', Ok o') => exists d, o' = oapp o d /\ good m (a', d) /\ framing a' = framing a
  | (a', Err e) => a' = a /\ stream_id f = 0 /\ e = Refused (mkRefusal RProtocol (Some (violation f)))
  | (_, Panic) => False
  end.
Proof.
  intros I Hf. destruct (decide (stream_id f = 0)) as [H0|H0].
  - unfold handle_frame. rewrite H0. cbn [Z.eqb]. unfold handle_control.
    assert (Hd : forall fr, exists d, push_frame o fr = oapp o d /\ good m (a, d) /\ framing a = framing a).
    { intros fr. exists (push_frame output_default fr). split; [|split; [by exists m|done]].
      unfold oapp, push_frame. cbn. by rewrite !app_nil_r. }
    assert (Hn : exists d, o = oapp o d /\ good m (a, d) /\ framing a = framing a).
    { exists output_default. rewrite oapp_default. split; [done|]. split; [by exists m|done]. }
    repeat case_match; unfold refused in *; simplify_eq; auto.
  - pose proof (handle_frame_wb a f o) as [Hfr Hout]. pose proof (good_stream a m f I Hf) as Hg.
    rewrite Hout in Hfr |- *. rewrite handle_frame_stream by done. cbn [fst snd fmap res_fmap] in *.
    eexists. split; [done|]. split; [by destruct (handle_stream a f output_default)|].
    rewrite handle_frame_stream in Hfr by done. done.
Qed.

(** *** Every byte *)

Definition at_phase (a : MuxAcceptor) : Prop :=
  (exists raw, partial raw /\ a = at_raw a raw) \/ (exists n, 0 < n /\ a = discarding a n).

Definition cinv (a : MuxAcceptor) (m : gmap Z mphase) : Prop := minv a m /\ at_phase a.

Lemma partial_nil : partial [].
Proof. left. done. Qed.

Lemma phase_idle a b : framing a = framing (idle b) -> at_phase a.
Proof.
  intros H. left. exists []. split; [apply partial_nil|]. destruct a. cbn in H. injection H as ? ? ? ? ? ?.
  subst. done.
Qed.

Lemma phase_raw a raw : partial raw -> at_phase (at_raw a raw).
Proof. intros H. left. exists raw. split; [done|]. unfold at_raw. by destruct (_ <? _). Qed.

Lemma phase_discard a n : 0 <= n -> at_phase (discarding a n).
Proof.
  intros H. destruct (decide (n = 0)) as [->|]; [by apply (phase_idle _ a)|].
  right. exists n. split; [lia|done].
Qed.

Lemma minv_framing a d n h pr dr m : minv a m -> minv (set_framing a d n h pr dr) m.
Proof. by apply minv_same. Qed.

Lemma minv_raw a raw m : minv a m -> minv (at_raw a raw) m.
Proof. unfold at_raw. destruct (_ <? _); apply minv_framing. Qed.

Lemma raw_flags_range raw : 0 <= raw_flags raw < 256.
Proof. unfold raw_flags. destruct (raw !! _); [apply u8_range|lia]. Qed.

Lemma be_val_4 raw : is_u32 (be_val (ztake 4 raw)).
Proof.
  pose proof (be_val_range (ztake 4 raw)) as H. unfold in_range.
  assert (len (ztake 4 raw) <= 4) by (rewrite length_take; lia).
  assert (256 ^ len (ztake 4 raw) <= 256 ^ 4) by (apply Z.pow_le_mono_r; lia). lia.
Qed.

Lemma frame_of_wf raw :
  HEADER_LEN <= len raw <= need raw -> has (raw_flags raw) FLAG_RESERVED_MASK = false -> wf_frame (frame_of raw).
Proof.
  intros Hl Hr. pose proof (need_range raw). pose proof (raw_flags_range raw).
  rewrite has_reserved in Hr by done. split_and!; cbn [stream_id flags payload frame_of].
  - apply be_val_4.
  - lia.
  - lia.
  - rewrite length_drop. unfold HEADER_LEN in *. lia.
Qed.

(** The step shared by every branch that only appends. *)
Definition accepted (a' : MuxAcceptor) (m : gmap Z mphase) (o o' : MuxOutput) : Prop :=
  exists d m', o' = oapp o d /\ mon_run m (mevents d) = Some m' /\ cinv a' m'.

Definition fatal (e : HomeError) : Prop :=
  exists v, e = Refused (mkRefusal RProtocol (Some v)) /\ fv_stream_id v = 0.

Lemma accepted_same a' m o : cinv a' m -> accepted a' m o o.
Proof. intros H. exists output_default, m. by rewrite oapp_default. Qed.

Lemma feed_byte_good a m o b :
  cinv a m ->
  match feed_byte a o b with
  | (a', Ok o') => accepted a' m o o'
  | (_, Err e) => fatal e
  | (_, Panic) => False
  end.
Proof.
  intros [I [(raw & Hp & Ha)|(n & Hn & Ha)]].
  - rewrite Ha, feed_byte_raw; [|apply I|done]. cbv zeta. set (raw' := raw ++ [b]).
    assert (Hl : len raw' = len raw + 1) by (unfold raw'; rewrite length_app; cbn; lia).
    destruct (Z.ltb_spec (len raw') HEADER_LEN) as [Hh|Hh].
    { apply accepted_same. split; [by apply minv_raw|apply phase_raw; by left]. }
    destruct ((len raw' =? HEADER_LEN) && has (raw_flags raw') FLAG_RESERVED_MASK) eqn:Er.
    { unfold reject_reserved. cbn [fv_stream_id]. destruct (Z.eqb_spec (be_val (ztake 4 raw')) 0) as [H0|H0].
      { eexists. by split. }
      set (v := mkFrameViolation _ _ _). set (a0 := discarding a _).
      pose proof (refuse_violation_wb v RProtocol a0 o) as [Hf Hout]. cbv beta in Hf, Hout.
      destruct (good_refuse a0 m v RProtocol) as (m' & Hm & I'); [by apply minv_framing|].
      rewrite Hout in Hf |- *. cbn [fst snd] in *. do 2 eexists. split_and!; [done..|]. split; [done|].
      unfold a0 in *. unfold discarding in *. rewrite refuse_violation_framing in *. cbn [fst].
      apply phase_discard. pose proof (need_range raw'). lia. }
    assert (Hr : has (raw_flags raw') FLAG_RESERVED_MASK = false).
    { destruct (Z.eqb_spec (len raw') HEADER_LEN); [done|]. destruct Hp as [|[_ Hr]]; [lia|].
      unfold raw'. rewrite raw_flags_app by lia. done. }
    destruct (Z.ltb_spec (len raw') (need raw')) as [Hlt|Hge].
    { apply accepted_same. split; [by apply minv_raw|apply phase_raw; by right]. }
    assert (Hle : len raw' <= need raw').
    { destruct (decide (HEADER_LEN <= len raw)) as [Hh0|Hh0].
      - destruct Hp as [|[Hp _]]; [lia|]. unfold raw' in *. rewrite need_app by done. lia.
      - pose proof (need_range raw'). lia. }
    pose proof (handle_frame_good (idle a) m (frame_of raw') o (minv_raw _ _ _ I)
      (frame_of_wf raw' ltac:(lia) Hr)) as Hg.
    destruct (handle_frame _ _ _) as [a' [o'|e|]]; [| |done].
    + destruct Hg as (d & -> & (m' & Hm & I') & Hf). do 2 eexists. split_and!; [done..|].
      split; [done|]. by eapply phase_idle.
    + destruct Hg as (_ & H0 & ->). eexists. split; [done|]. done.
  - rewrite Ha. unfold feed_byte, discarding. cbn [discarded_payload_remaining set_framing].
    unfold some_positive. replace (n >? 0) with true by lia. cbv iota.
    apply accepted_same. split; [exact (minv_framing a _ _ _ _ _ m I)|].
    assert (Hph : at_phase (discarding a (n - 1))) by (apply phase_discard; lia).
    unfold discarding, some_positive in Hph. unfold count_down.
    replace (n >? 1) with (n - 1 >? 0) by lia. exact Hph.
Qed.

Lemma feed_bytes_good bytes : forall a m o,
  cinv a m ->
  match feed_bytes a o bytes with
  | (a', Ok o') => accepted a' m o o'
  | (_, Err e) => fatal e
  | (_, Panic) => False
  end.
Proof.
  induction bytes as [|b bytes IH]; intros a m o I; [by apply accepted_same|].
  cbn [feed_bytes]. pose proof (feed_byte_good a m o b I) as Hg.
  destruct (feed_byte a o b) as [a1 [o1|e|]]; [|done..].
  destruct Hg as (d & m1 & -> & Hm & I1). specialize (IH a1 m1 (oapp o d) I1).
  destruct (feed_bytes a1 _ bytes) as [a2 [o2|e|]]; [|done..].
  destruct IH as (d2 & m2 & -> & Hm2 & I2). exists (oapp d d2), m2.
  split_and!; [by rewrite oapp_assoc| |done]. cbn. by rewrite mon_run_app, Hm.
Qed.

(** ** Lemmas: local operations *)

Inductive home_op :=
| HFeed (bytes : list byte)
| HConsume (sid bytes : Z)
| HSend (sid : Z) (bytes : list byte)
| HCloseWrite (sid : Z)
| HReset (sid : Z) (r : ResetReason).

Definition home_step (a : MuxAcceptor) (op : home_op) : MuxAcceptor * res HomeError MuxOutput :=
  match op with
  | HFeed bytes => home_feed a bytes
  | HConsume sid n => home_consume a sid n
  | HSend sid bytes =>
      let '(a', r) := try_send_data a sid bytes in (a', default output_default <$> r)
  | HCloseWrite sid => close_write a sid
  | HReset sid r => home_reset a sid r
  end.

(** The driver: a failed read ends the carrier, a failed local operation is
    reported to its caller. *)
Fixpoint home_run (a : MuxAcceptor) (ops : list home_op) (log : MuxOutput)
  : MuxAcceptor * MuxOutput * res HomeError unit :=
  match ops with
  | [] => (a, log, Ok tt)
  | op :: ops =>
      match home_step a op with
      | (a', Ok o) => home_run a' ops (oapp log o)
      | (a', Err e) =>
          match op with HFeed _ => (a', log, Err e) | _ => home_run a' ops log end
      | (a', Panic) => (a', log, Panic)
      end
  end.

(** [usize] arguments. *)
Definition op_ok (op : home_op) : Prop := match op with HConsume _ n => 0 <= n | _ => True end.

Lemma phase_same a a' : framing a' = framing a -> at_phase a -> at_phase a'.
Proof.
  intros Hf. destruct a, a'. unfold framing in Hf. cbn in Hf. injection Hf as ? ? ? ? ? ?. subst.
  intros [(raw & Hp & Ha)|(n & Hn & Ha)]; [left|right].
  - exists raw. split; [done|]. unfold at_raw in *. destruct (_ <? _); unfold set_framing in *; cbn in *; congruence.
  - exists n. split; [done|]. unfold discarding, set_framing in *. cbn in *. congruence.
Qed.

(** Outcome of a local operation: state in order, nothing for the event trace. *)
Definition local_good (m : gmap Z mphase) (r : MuxAcceptor * res HomeError MuxOutput) : Prop :=
  cinv (fst r) m /\ match snd r with Ok o => mevents o = [] | Err _ => True | Panic => False end.

Lemma home_consume_good a m sid n : cinv a m -> 0 <= n -> local_good m (home_consume a sid n).
Proof.
  intros [I Hph] Hn. unfold home_consume, local_good.
  destruct (hstreams a !! sid) as [s|] eqn:E; [|by split].
  destruct (Z.gtb_spec n (debited_not_consumed s)) as [Hbig|Hle]; [by split|].
  pose proof (mi_inv _ _ I) as [_ Hs _]. pose proof (Hs _ _ E) as [Hid Hhw Hw Hd Hc Ho].
  destruct (consume_ok (receive_window s) n Hw ltac:(lia)) as (w' & g & -> & Hw' & _ & Ho' & _).
  unfold checked_sub. rewrite (proj2 (Z.leb_le _ _)) by lia. cbn [fst snd].
  split; [|by destruct g]. split; [|by apply (phase_same a)].
  eapply minv_set_same; [done|done| |done]. split; cbn; [done..|lia|done|done].
Qed.

Lemma try_send_good a m sid b : cinv a m -> local_good m (home_step a (HSend sid b)).
Proof.
  intros [I Hph]. cbn [home_step]. unfold try_send_data, local_good.
  destruct (_ >? RECOMMENDED_CHUNK); [by split|].
  destruct (hstreams a !! sid) as [s|] eqn:E; [|by split].
  destruct (local_closed s) eqn:El; [by split|].
  destruct (Z.gtb_spec (len b) (hsend_credit s)) as [Hbig|Hle]; [by split|].
  unfold checked_sub. rewrite (proj2 (Z.leb_le _ _)) by lia. cbn.
  split; [|done]. split; [|by apply (phase_same a)].
  pose proof (mi_inv _ _ I) as [_ Hs _]. pose proof (Hs _ _ E) as [Hid Hhw Hw Hd Hc Ho].
  eapply minv_set_same; [done|done| |done]. split; cbn; [done..|lia|by rewrite El in Ho].
Qed.

Lemma close_write_good a m sid : cinv a m -> local_good m (close_write a sid).
Proof.
  intros [I Hph]. unfold close_write, local_good.
  destruct (hstreams a !! sid) as [s|] eqn:E; [|by split].
  destruct (local_closed s) eqn:El; [by split|]. destruct (peer_closed s) eqn:Ep; cbn [fst snd].
  - split; [|done]. split; [|by apply (phase_same a)].
    apply (minv_same (home_remove_stream a sid)); [done..| |by apply minv_remove].
    cbn. by rewrite delete_insert_eq.
  - split; [|done]. split; [|by apply (phase_same a)].
    pose proof (mi_inv _ _ I) as [_ Hs _]. pose proof (Hs _ _ E) as [Hid Hhw Hw Hd Hc Ho].
    eapply minv_set_same; [done|done| |done]. by split.
Qed.

Lemma home_reset_good a m sid r : cinv a m -> local_good m (home_reset a sid r).
Proof.
  intros [I Hph]. unfold home_reset, local_good. case_bool_decide; cbn [fst snd]; [|by split].
  split; [|done]. split; [by apply minv_remove|by apply (phase_same a)].
Qed.

Lemma home_run_good ops : forall a m log m0,
  cinv a m -> Forall op_ok ops -> mon_run m0 (mevents log) = Some m ->
  exists m', mon_run m0 (mevents (snd (fst (home_run a ops log)))) = Some m' /\
    match snd (home_run a ops log) with
    | Ok _ => cinv (fst (fst (home_run a ops log))) m'
    | Err e => fatal e
    | Panic => False
    end.
Proof.
  induction ops as [|op ops IH]; intros a m log m0 I Hok Hm; [by exists m|].
  apply Forall_cons_1 in Hok as [Hop Hok]. cbn [home_run].
  assert (Hlocal : (local_good m (home_step a op) /\ match op with HFeed _ => False | _ => True end)
                   \/ exists bytes, op = HFeed bytes).
  { destruct op as [bytes|sid n|sid b|sid|sid r]; [right; by eexists|left; split; [|done]..].
    - by apply home_consume_good.
    - by apply try_send_good.
    - by apply close_write_good.
    - by apply home_reset_good. }
  destruct Hlocal as [[[I' Hev] Hnf]|[bytes ->]].
  - destruct (home_step a op) as [a' [o|e|]]; cbn [fst snd] in *; [| |done].
    + apply (IH a' m); [done..|]. cbn. by rewrite Hev, app_nil_r.
    + destruct op; [done|by apply (IH a' m)..].
  - cbn [home_step]. unfold home_feed. pose proof (feed_bytes_good bytes a m output_default I) as Hg.
    destruct (feed_bytes a output_default bytes) as [a' [o|e|]]; cbn [fst snd]; [| |done].
    + destruct Hg as (d & m1 & -> & Hm1 & I1). apply (IH a' m1); [done..|].
      cbn. by rewrite mon_run_app, Hm.
    + by exists m.
Qed.

(** *** Reads and frames *)

Lemma feed_byte_out a m o b :
  cinv a m ->
  feed_byte a o b = (fst (feed_byte a output_default b), oapp o <$> snd (feed_byte a output_default b)).
Proof.
  intros [I [(raw & Hp & Ha)|(n & Hn & Ha)]].
  - rewrite Ha, !feed_byte_raw by (done || apply I). cbv zeta.
    destruct (_ <? HEADER_LEN); [cbn; by rewrite oapp_default|].
    destruct (_ && _).
    { unfold reject_reserved. destruct (_ =? 0); [done|].
      match goal with |- (fst (refuse_violation ?a0 ?v ?c o), _) = _ =>
        destruct (refuse_violation_wb v c a0 o) as [_ H] end. cbv beta in H. by rewrite H. }
    destruct (_ <? need _); [cbn; by rewrite oapp_default|].
    apply handle_frame_wb.
  - rewrite Ha. unfold feed_byte, discarding. cbn [discarded_payload_remaining set_framing].
    unfold some_positive. replace (n >? 0) with true by lia. cbn. by rewrite oapp_default.
Qed.

Lemma feed_bytes_out bytes : forall a m o,
  cinv a m ->
  feed_bytes a o bytes =
  (fst (feed_bytes a output_default bytes), oapp o <$> snd (feed_bytes a output_default bytes)).
Proof.
  induction bytes as [|b bytes IH]; intros a m o I; [cbn; by rewrite oapp_default|].
  cbn [feed_bytes]. rewrite (feed_byte_out a m o b I).
  pose proof (feed_byte_good a m output_default b I) as Hg.
  destruct (feed_byte a output_default b) as [a1 [o1|e|]]; [|done..]. cbn [fst snd fmap res_fmap].
  destruct Hg as (d & m1 & _ & _ & I1). rewrite (IH a1 m1 (oapp o o1) I1), (IH a1 m1 o1 I1). cbn [fst snd].
  f_equal. destruct (snd (feed_bytes a1 output_default bytes)); cbn; [|done..]. by rewrite oapp_assoc.
Qed.

Lemma run_reads reads : forall a m log,
  cinv a m ->
  match feed_bytes a log (concat reads) with
  | (a', Ok o) => home_run a (HFeed <$> reads) log = (a', o, Ok tt)
  | (_, Err e) => snd (home_run a (HFeed <$> reads) log) = Err e
  | (_, Panic) => False
  end.
Proof.
  induction reads as [|r reads IH]; intros a m log I; [done|].
  cbn [concat fmap list_fmap home_run home_step]. rewrite feed_bytes_app, (feed_bytes_out r a m log I).
  unfold home_feed. pose proof (feed_bytes_good r a m output_default I) as Hg.
  destruct (feed_bytes a output_default r) as [a1 [o1|e|]]; cbn [fst snd fmap res_fmap]; [|done..].
  destruct Hg as (d & m1 & _ & _ & I1). by apply (IH a1 m1).
Qed.

Lemma home_frame_idle a f o a' o' :
  a = idle a -> home_frame a f o = (a', Ok o') -> a' = idle a'.
Proof.
  intros Ha. unfold home_frame. destruct (has _ _).
  - rewrite Ha. destruct (reject_reserved_discard a (violation f) 0 o) as (a0 & r & _ & -> & _).
    intros. by simplify_eq.
  - destruct (handle_frame_wb a f o) as [Hf _]. intros E. rewrite E in Hf. cbn [fst] in Hf.
    rewrite Ha in Hf. destruct a'. cbn in Hf. injection Hf as ? ? ? ? ? ?. by subst.
Qed.

Lemma feed_frames fs : forall a m o,
  cinv a m -> a = idle a -> Forall raw_frame fs ->
  match home_frames a fs o with
  | (a', Ok o') => feed_bytes a o (wires fs) = (a', Ok o')
  | (_, Err e) => exists a'', feed_bytes a o (wires fs) = (a'', Err e)
  | (_, Panic) => False
  end.
Proof.
  induction fs as [|f fs IH]; intros a m o I Ha Hfs; [done|].
  apply Forall_cons_1 in Hfs as [Hf Hfs]. cbn [home_frames]. rewrite wires_cons, feed_bytes_app.
  pose proof (feed_wire a f o ltac:(apply I) Hf) as Hw. rewrite <- Ha in Hw.
  pose proof (feed_bytes_good (wire f) a m o I) as Hg.
  destruct (home_frame a f o) as [a1 [o1|e|]] eqn:E; [| |done].
  - rewrite Hw in Hg |- *. destruct Hg as (d & m1 & _ & _ & I1).
    apply (IH a1 m1); [done|by eapply home_frame_idle|done].
  - destruct Hw as [a'' ->]. by eexists.
Qed.

(** *** Refusal counters *)

Definition counted (a a' : MuxAcceptor) (d : MuxOutput) : Prop :=
  refusals a' = foldl record (refusals a) (class <$> orefusals d).

Lemma counted_refuse a v c :
  let '(a', d) := refuse_violation a v c output_default in counted a a' d.
Proof. unfold refuse_violation. by case_bool_decide. Qed.

Lemma counted_mark a sid o a0 :
  counted a0 a o -> counted a0 (fst (mark_peer_closed a sid o)) (snd (mark_peer_closed a sid o)).
Proof. unfold mark_peer_closed. by repeat case_match. Qed.

Lemma counted_stream a f :
  counted a (fst (handle_stream a f output_default)) (snd (handle_stream a f output_default)).
Proof.
  assert (Hr : forall a0 c, refusals a0 = refusals a ->
    counted a (fst (refuse_violation a0 (violation f) c output_default))
      (snd (refuse_violation a0 (violation f) c output_default))).
  { intros a0 c Ha. unfold counted. rewrite <- Ha. pose proof (counted_refuse a0 (violation f) c) as H.
    by destruct (refuse_violation _ _ _ _). }
  assert (Hd : forall c, counted a (fst (handle_data a f c output_default)) (snd (handle_data a f c output_default))).
  { intros c. unfold handle_data, refuse. repeat case_match; try (apply Hr; done); [by apply counted_mark|done]. }
  assert (Ho : counted a (fst (handle_open a f output_default)) (snd (handle_open a f output_default))).
  { unfold handle_open, refuse, open_events. cbv zeta.
    repeat case_match; try (apply Hr; done); try (by apply counted_mark); done. }
  assert (Hc : counted a (fst (handle_close a f output_default)) (snd (handle_close a f output_default))).
  { unfold handle_close. case_match; [apply Hd|by apply counted_mark]. }
  assert (Hs : counted a (fst (handle_reset a f output_default)) (snd (handle_reset a f output_default))).
  { unfold handle_reset, refuse. repeat case_match; try (apply Hr; done). done. }
  assert (Hw : counted a (fst (handle_window a f output_default)) (snd (handle_window a f output_default))).
  { unfold handle_window, refuse. repeat case_match; try (apply Hr; done). done. }
  unfold handle_stream, refuse.
  repeat match goal with |- context [if ?c then _ else _] => destruct c end; auto. done.
Qed.

Lemma counted_trans a b c d e : counted a b d -> counted b c e -> counted a c (oapp d e).
Proof.
  unfold counted. intros H1 H2. cbn. by rewrite fmap_app, foldl_app, <- H1.
Qed.

Lemma feed_byte_counted a m b a' o :
  cinv a m -> feed_byte a output_default b = (a', Ok o) -> counted a a' o.
Proof.
  intros [I [(raw & Hp & Ha)|(n & Hn & Ha)]].
  - rewrite Ha at 1. rewrite feed_byte_raw by (done || apply I). cbv zeta.
    assert (Hsame : forall r, counted a (at_raw a r) output_default).
    { intros r. unfold at_raw. by destruct (_ <? _). }
    destruct (_ <? HEADER_LEN); [intros [= <- <-]; apply Hsame|]. destruct (_ && _).
    { unfold reject_reserved. destruct (_ =? 0); [done|]. intros [= <- <-].
      match goal with |- counted a (fst (refuse_violation ?a0 ?v ?c _)) _ =>
        pose proof (counted_refuse a0 v c) as H; by destruct (refuse_violation a0 v c output_default) end. }
    destruct (_ <? need _); [intros [= <- <-]; apply Hsame|].
    set (f := frame_of _). destruct (decide (stream_id f = 0)) as [H0|H0].
    + unfold handle_frame. rewrite H0. cbn. unfold handle_control, refused.
      repeat case_match; intros; simplify_eq; try done.
    + rewrite handle_frame_stream by done. intros [= <- <-]. apply (counted_stream (idle a) f).
  - rewrite Ha at 1. unfold feed_byte, discarding. cbn [discarded_payload_remaining set_framing].
    unfold some_positive. replace (n >? 0) with true by lia. by intros [= <- <-].
Qed.

Lemma feed_bytes_counted bytes : forall a m a' o,
  cinv a m -> feed_bytes a output_default bytes = (a', Ok o) -> counted a a' o.
Proof.
  induction bytes as [|b bytes IH]; intros a m a' o I H; [by injection H as <- <-|].
  cbn [feed_bytes] in H. pose proof (feed_byte_good a m output_default b I) as Hg.
  destruct (feed_byte a output_default b) as [a1 [o1|e|]] eqn:E; [|done..].
  apply (feed_byte_counted a m) in E as Hc; [|done]. destruct Hg as (d & m1 & _ & _ & I1).
  rewrite (feed_bytes_out bytes a1 m1 o1 I1) in H.
  destruct (feed_bytes a1 output_default bytes) as [a2 [o2|e|]] eqn:E2; [|done..].
  cbn in H. injection H as <- <-. eapply counted_trans; [done|]. by eapply IH.
Qed.

(** Events, frames and refusals of an output that concern one stream; a fresh
    acceptor in order. *)
Lemma cinv_new l a : acceptor_new l = Ok a -> 0 <= max_concurrent_streams l -> decoder_buffer_bytes l < 2 ^ 64 -> cinv a ∅.
Proof.
  unfold acceptor_new, validate. destruct (Z.eqb_spec (max_concurrent_streams l) 0); [done|].
  destruct (Z.ltb_spec (decoder_buffer_bytes l) (HEADER_LEN + MAX_PAYLOAD)); [done|]. intros [= <-] H1 H2.
  split; [split; [split; cbn|..]|].
  - split; cbn; lia.
  - apply map_Forall_empty.
  - rewrite map_size_empty. lia.
  - done.
  - done.
  - by apply (phase_idle _ (mkMuxAcceptor l decoder_new 0 [] None None None ∅ refusal_counts_default)).
Qed.

Definition limits_sized (l : MuxLimits) : Prop := is_usize (max_concurrent_streams l) /\ is_usize (decoder_buffer_bytes l).

(** ** Properties *)

(** The acceptor sees frames, not reads.  However a peer's bytes are cut
    into reads, feeding the wire form of any frame sequence to a fresh acceptor
    is handling the frames one by one: a frame with the reserved bit is refused
    from its header alone and its payload skipped, so the next frame is decoded
    where it starts; any other frame goes to [handle_frame]; and the outputs of
    the reads add up to the output of the frames, a fatal frame's error included. *)
Theorem home_feed_frames l a fs reads :
  acceptor_new l = Ok a -> limits_sized l ->
  Forall raw_frame fs -> concat reads = wires fs ->
  match home_frames a fs output_default with
  | (a', Ok o) => home_run a (HFeed <$> reads) output_default = (a', o, Ok tt)
  | (_, Err e) => snd (home_run a (HFeed <$> reads) output_default) = Err e
  | (_, Panic) => False
  end.
Proof.
  intros Hn [[H1 _] [_ H2]] Hfs Hr. pose proof (cinv_new l a Hn H1 H2) as I.
  assert (Ha : a = idle a).
  { unfold acceptor_new in Hn. destruct (validate l); [|done..]. by injection Hn as <-. }
  pose proof (feed_frames fs a ∅ output_default I Ha Hfs) as Hff.
  pose proof (run_reads reads a ∅ output_default I) as Hrr. rewrite Hr in Hrr.
  destruct (home_frames a fs output_default) as [a' [o|e|]]; [|destruct Hff as [a'' Hff]|done];
    by rewrite Hff in Hrr.
Qed.

Definition sample_limits : MuxLimits := mkMuxLimits 2 (HEADER_LEN + MAX_PAYLOAD).
Definition sample_acceptor : MuxAcceptor :=
  mkMuxAcceptor sample_limits decoder_new 0 [] None None None ∅ refusal_counts_default.
(** OPEN with data; a reserved-bit frame for stream 1; OPEN of stream 5. *)
Definition sample_home_frames : list Frame :=
  [mkFrame 1 0x03 (blit "GET /"); mkFrame 1 0x82 (blit "skipped"); mkFrame 5 0x01 []].

Lemma home_feed_frames_witness :
  exists a' o, home_run sample_acceptor
      [HFeed (ztake 17 (wires sample_home_frames)); HFeed (zdrop 17 (wires sample_home_frames))] output_default
    = (a', o, Ok tt) /\
    mevents o = [Opened 1; DataEvent 1 (blit "GET /"); ResetEvent 1 ProtocolError; Opened 5].
Proof.
  pose proof (home_feed_frames sample_limits sample_acceptor sample_home_frames
    [ztake 17 (wires sample_home_frames); zdrop 17 (wires sample_home_frames)]) as H.
  assert (E : exists r, home_frames sample_acceptor sample_home_frames output_default = (fst r, Ok (snd r)) /\
    mevents (snd r) = [Opened 1; DataEvent 1 (blit "GET /"); ResetEvent 1 ProtocolError; Opened 5])
    by (eexists (_, _); split; vm_compute; reflexivity).
  destruct E as ([a' o] & E & Hev). cbn [fst snd] in E, Hev. rewrite E in H.
  exists a', o. split; [|exact Hev]. clear E Hev. apply H; clear H.
  - vm_compute. reflexivity.
  - repeat split; vm_compute; congruence.
  - by repeat constructor.
  - vm_compute. reflexivity.
Defined.

(** C8. The listener survives its peer.  With validated limits, for every
    sequence of reads of arbitrary bytes and local operations, nothing panics
    and no internal or buffer-ceiling refusal is reachable from a read: the only
    error that ends a carrier is a protocol refusal of a frame on stream zero.
    While it runs, at most the configured number of streams is live, each with
    an odd id at most the high-water mark, receive books that match its window,
    and send credit within 2^31 - 1. *)
Theorem home_carrier_safe l a ops :
  acceptor_new l = Ok a -> limits_sized l -> Forall op_ok ops ->
  match home_run a ops output_default with
  | (a', _, Ok _) =>
      Z.of_nat (size (hstreams a')) <= max_concurrent_streams (limits a') /\
      map_Forall (fun sid s =>
        sid mod 2 = 1 /\ (exists h, peer_high_water a' = Some h /\ sid <= h) /\
        debited_not_consumed s
          = INITIAL_WINDOW - credit (receive_window s) - unacked (receive_window s) /\
        0 <= hsend_credit s <= MAX_SEND_CREDIT /\
        peer_closed s && local_closed s = false) (hstreams a')
  | (_, _, Err e) => exists v, e = Refused (mkRefusal RProtocol (Some v)) /\ fv_stream_id v = 0
  | (_, _, Panic) => False
  end.
Proof.
  intros Hn [[H1 _] [_ H2]] Hok.
  destruct (home_run_good ops a ∅ output_default ∅ (cinv_new l a Hn H1 H2) Hok eq_refl) as (m & _ & Hg).
  destruct (home_run a ops output_default) as [[a' log] [[]|e|]]; cbn [fst snd] in Hg; [|done..].
  destruct Hg as [[[_ Hs Hz] _ _] _]. split; [done|].
  eapply map_Forall_impl; [exact Hs|]. intros sid s [[_ ?] ? ? Hd ? ?].
  split; [done|]. split; [done|]. split; [exact Hd|]. by split.
Qed.

Definition sample_home_ops : list home_op :=
  [HFeed (wires sample_home_frames); HSend 5 (blit "pong"); HConsume 5 0; HConsume 5 1; HCloseWrite 5;
   HFeed (wires [mkFrame 5 FLAG_CLOSE []])].

Lemma home_carrier_safe_witness :
  match home_run sample_acceptor sample_home_ops output_default with
  | (a', log, Ok _) => size (hstreams a') = 0%nat /\ Z.of_nat (size (hstreams a')) <= 2
  | _ => False
  end.
Proof.
  pose proof (home_carrier_safe sample_limits sample_acceptor sample_home_ops) as H.
  assert (E : exists r, home_run sample_acceptor sample_home_ops output_default = (r, Ok tt) /\
    size (hstreams (fst r)) = 0%nat /\ max_concurrent_streams (limits (fst r)) = 2)
    by (eexists (_, _); split_and!; vm_compute; reflexivity).
  destruct E as ([a' log] & E & Hz & Hm). cbn [fst] in Hz, Hm. rewrite E in H |- *.
  split; [exact Hz|]. rewrite <- Hm. apply H; clear.
  - vm_compute. reflexivity.
  - repeat split; vm_compute; congruence.
  - repeat constructor; vm_compute; congruence.
Defined.

(** Stream lifecycle as the application sees it.  The events of any run,
    fatal end or not, pass the monitor: [Opened] ids are odd and strictly
    increasing, [Data] comes only between a stream's [Opened] and its
    [ReadClosed], and nothing about a stream follows its [Reset]. *)
Theorem home_events_well_formed l a ops a' log r :
  acceptor_new l = Ok a -> limits_sized l -> Forall op_ok ops ->
  home_run a ops output_default = (a', log, r) ->
  is_Some (mon_run ∅ (mevents log)).
Proof.
  intros Hn [[H1 _] [_ H2]] Hok E.
  destruct (home_run_good ops a ∅ output_default ∅ (cinv_new l a Hn H1 H2) Hok eq_refl) as (m & Hm & _).
  rewrite E in Hm. by exists m.
Qed.

Lemma home_events_well_formed_witness :
  exists a' log r, home_run sample_acceptor sample_home_ops output_default = (a', log, r) /\
    mevents log = [Opened 1; DataEvent 1 (blit "GET /"); ResetEvent 1 ProtocolError; Opened 5; ReadClosed 5] /\
    is_Some (mon_run ∅ (mevents log)).
Proof.
  assert (E : exists r, home_run sample_acceptor sample_home_ops output_default = r /\
    mevents (snd (fst r)) =
      [Opened 1; DataEvent 1 (blit "GET /"); ResetEvent 1 ProtocolError; Opened 5; ReadClosed 5])
    by (eexists (_, _, _); split; vm_compute; reflexivity).
  destruct E as ([[a' log] r] & E & Hev). cbn [fst snd] in Hev. exists a', log, r.
  split; [exact E|]. split; [exact Hev|].
  apply (home_events_well_formed sample_limits sample_acceptor sample_home_ops a' log r); [..|exact E]; clear.
  - vm_compute. reflexivity.
  - repeat split; vm_compute; congruence.
  - repeat constructor; vm_compute; congruence.
Defined.

(** Every refusal is counted: after a read, the counters are the ones
    before it with each refusal the read reported recorded under its class, in
    order, and nothing else. *)
Theorem home_refusals_counted a m bytes a' o :
  cinv a m ->
  home_feed a bytes = (a', Ok o) ->
  refusals a' = foldl record (refusals a) (class <$> orefusals o).
Proof. intros I H. by apply (feed_bytes_counted bytes a m). Qed.

Lemma cinv_sample : cinv sample_acceptor ∅.
Proof. by apply (cinv_new sample_limits). Qed.

Lemma home_refusals_counted_witness :
  exists a' o, home_feed sample_acceptor (wires sample_home_frames) = (a', Ok o) /\
    refusals a' = mkRefusalCounts 0 0 1 0 /\
    refusals a' = foldl record (refusals sample_acceptor) (class <$> orefusals o).
Proof.
  assert (E : exists r, home_feed sample_acceptor (wires sample_home_frames) = (fst r, Ok (snd r)) /\
    refusals (fst r) = mkRefusalCounts 0 0 1 0)
    by (eexists (_, _); split; vm_compute; reflexivity).
  destruct E as ([a' o] & E & Hc). cbn [fst snd] in E, Hc. exists a', o. split; [exact E|]. split; [exact Hc|].
  exact (home_refusals_counted sample_acceptor ∅ (wires sample_home_frames) a' o cinv_sample E).
Defined.

(** Codes survive the wire: a reset reason decodes to itself, every other
    byte decodes to [Unspecified], and a carrier-close code published as a byte
    reads back as the same close. *)
Theorem home_codes_roundtrip :
  (forall r, is_u8 (reason_code r) /\ from_wire (reason_code r) = r) /\
  (forall code, from_wire code = Unspecified \/ code = reason_code (from_wire code)) /\
  (forall c, is_u8 (close_code c) /\ from_code (close_code c) = c) /\
  (forall c d, reset_code c = reset_code d -> c = d).
Proof.
  split_and!.
  - by intros [].
  - intros code. unfold from_wire.
    repeat (case_match; [right; by apply Z.eqb_eq|]). by left.
  - by intros [|[]| | | | |].
  - by intros [] [].
Qed.
