(* ===== verification/HomeDriver.v ===== *)
(** * The home's carrier driver ([crates/spl-home/src/connection.rs])

    One accepted carrier: the driver task that moves bytes between the TLS
    connection and the acceptor of [HomeMux], and the [HomeStream] handles of
    its users, which reach the driver through an unbounded command channel and
    are reached through per-stream signal channels and a shared status.  A turn
    of the driver's loop and a poll of a handle are single steps; any
    interleaving of them is a run. *)

From S2P Require Import Prelude Frame Text Http Window HomeMux.

Definition MAX_STAGED_WRITE_BYTES_PER_STREAM : Z := INITIAL_WINDOW.
Definition READ_CHUNK : Z := 8192.

Inductive DriverCommand :=
| CWrite (sid : Z) (bytes : list byte)
| CConsumed (sid : Z) (bytes : Z)
| CClose (sid : Z)
| CCancel (sid : Z)
| CReset (sid : Z) (reason : ResetReason)
| CWake
| CCloseConnection.

Inductive StreamSignal :=
| SData (bytes : list byte)
| SReadEof
| SReset
| SGone.

(** [STREAM_LIVE], [STREAM_RESET] and [STREAM_GONE]. *)
Inductive StreamCode := STREAM_LIVE | STREAM_RESET | STREAM_GONE.
#[export] Instance StreamCode_eq_dec : EqDecision StreamCode.
Proof. solve_decision. Defined.

(** A stream as its user and the driver share it: the [StreamStatus], the signal
    channel, and the fields of the [HomeStream].  [got] and [put] are the bytes
    the user has been given and has handed over. *)
Record HomeStream := mkHomeStream {
  signals : list StreamSignal;
  code : StreamCode;
  staged_bytes : Z;
  write_waker : bool;
  read_buffer : list byte;
  read_eof : bool;
  write_shutdown : bool;
  dropped : bool;
  got : list byte;
  put : list byte
}.

Definition home_stream_new : HomeStream := mkHomeStream [] STREAM_LIVE 0 false [] false false false [] [].

(** [CarrierTally], with the clock of its owner as an argument. *)
Record CarrierTally := mkTally {
  pings_answered : Z;
  last_answer_elapsed_ms : Z;
  longest_completed_gap_ms : Z;
  close_reason : Z
}.

Definition tally_new : CarrierTally := mkTally 0 0 0 (close_code Open).

(** [CarrierTally::record_answers] *)
Definition record_answers (answered now_ms : Z) (t : CarrierTally) : CarrierTally :=
  if answered =? 0 then t
  else
    mkTally (wrap 64 (pings_answered t + answered)) now_ms
      (if 0 <? pings_answered t
       then Z.max (longest_completed_gap_ms t) (saturating_sub now_ms (last_answer_elapsed_ms t))
       else longest_completed_gap_ms t)
      (close_reason t).

(** [CarrierTally::close]: the first reason wins. *)
Definition tally_close (r : CarrierClose) (t : CarrierTally) : CarrierTally :=
  if close_reason t =? close_code Open
  then mkTally (pings_answered t) (last_answer_elapsed_ms t) (longest_completed_gap_ms t) (close_code r)
  else t.

(** [CarrierTally::snapshot] *)
Definition carrier_counts (now_ms : Z) (t : CarrierTally) : Z * (option Z * option Z) * CarrierClose :=
  (pings_answered t,
   carrier_gaps (pings_answered t) now_ms (last_answer_elapsed_ms t) (longest_completed_gap_ms t),
   from_code (close_reason t)).

(** The carrier: the driver's own state, its channels, what it wrote, and how
    its coming writes go ([false] fails). *)
Record Home := mkHome {
  acceptor : MuxAcceptor;
  streams : gmap Z HomeStream;
  pending : gmap Z (list byte);
  ready : list Z;
  closing : gset Z;
  commands : list DriverCommand;
  accepts : list Z;
  owner : bool;
  wire : list Frame;
  write_fates : list bool;
  tally : CarrierTally;
  running : bool
}.

Definition home_new (a : MuxAcceptor) (fates : list bool) : Home :=
  mkHome a ∅ ∅ [] ∅ [] [] true [] fates tally_new true.

Definition set_acceptor (a : MuxAcceptor) (h : Home) : Home :=
  mkHome a (streams h) (pending h) (ready h) (closing h) (commands h) (accepts h) (owner h) (wire h) (write_fates h) (tally h) (running h).
Definition set_streams (m : gmap Z HomeStream) (h : Home) : Home :=
  mkHome (acceptor h) m (pending h) (ready h) (closing h) (commands h) (accepts h) (owner h) (wire h) (write_fates h) (tally h) (running h).
Definition set_queues (p : gmap Z (list byte)) (r : list Z) (c : gset Z) (h : Home) : Home :=
  mkHome (acceptor h) (streams h) p r c (commands h) (accepts h) (owner h) (wire h) (write_fates h) (tally h) (running h).
Definition set_commands (c : list DriverCommand) (h : Home) : Home :=
  mkHome (acceptor h) (streams h) (pending h) (ready h) (closing h) c (accepts h) (owner h) (wire h) (write_fates h) (tally h) (running h).
Definition set_accepts (l : list Z) (o : bool) (h : Home) : Home :=
  mkHome (acceptor h) (streams h) (pending h) (ready h) (closing h) (commands h) l o (wire h) (write_fates h) (tally h) (running h).
Definition set_wire (w : list Frame) (f : list bool) (h : Home) : Home :=
  mkHome (acceptor h) (streams h) (pending h) (ready h) (closing h) (commands h) (accepts h) (owner h) w f (tally h) (running h).
Definition set_tally (t : CarrierTally) (h : Home) : Home :=
  mkHome (acceptor h) (streams h) (pending h) (ready h) (closing h) (commands h) (accepts h) (owner h) (wire h) (write_fates h) t (running h).
Definition set_running (b : bool) (h : Home) : Home :=
  mkHome (acceptor h) (streams h) (pending h) (ready h) (closing h) (commands h) (accepts h) (owner h) (wire h) (write_fates h) (tally h) b.

Definition on_stream (sid : Z) (f : HomeStream -> HomeStream) (h : Home) : Home :=
  set_streams (alter f sid (streams h)) h.

Definition push_signal (s : StreamSignal) (x : HomeStream) : HomeStream :=
  mkHomeStream (signals x ++ [s]) (code x) (staged_bytes x) (write_waker x) (read_buffer x) (read_eof x)
    (write_shutdown x) (dropped x) (got x) (put x).
Definition set_code (c : StreamCode) (x : HomeStream) : HomeStream :=
  mkHomeStream (signals x) c (staged_bytes x) (write_waker x) (read_buffer x) (read_eof x)
    (write_shutdown x) (dropped x) (got x) (put x).
Definition set_staged (n : Z) (w : bool) (x : HomeStream) : HomeStream :=
  mkHomeStream (signals x) (code x) n w (read_buffer x) (read_eof x) (write_shutdown x) (dropped x) (got x) (put x).

(** [StreamStatus::release_staging] *)
Definition release_staging (n : Z) (x : HomeStream) : HomeStream :=
  set_staged (saturating_sub (staged_bytes x) n) false x.

(** [StreamStatus::reserve_staging]: what is granted, and the waker left behind
    when nothing is. *)
Definition reserve_staging (requested : Z) (x : HomeStream) : HomeStream * Z :=
  let available := saturating_sub MAX_STAGED_WRITE_BYTES_PER_STREAM (staged_bytes x) in
  if available =? 0 then (set_staged (staged_bytes x) true x, 0)
  else
    let granted := Z.min requested available in
    (set_staged (staged_bytes x + granted) (write_waker x) x, granted).

(** ** The driver *)

(** One write to the carrier. *)
Definition write_ok (h : Home) : Home * bool :=
  match write_fates h with
  | [] => (h, true)
  | b :: f => (set_wire (wire h) f h, b)
  end.

(** The first loop of [deliver_output]: the frames written, and the answers
    among them. *)
Fixpoint write_frames (fs : list Frame) (answered : Z) (h : Home) : Home * option Z :=
  match fs with
  | [] => (h, Some answered)
  | f :: fs =>
      match encode f with
      | Ok _ =>
          let '(h, ok) := write_ok h in
          if ok then
            write_frames fs (if (stream_id f =? 0) && (flags f =? FLAG_PONG) then answered + 1 else answered)
              (set_wire (wire h ++ [f]) (write_fates h) h)
          else (h, None)
      | _ => (h, None)
      end
  end.

(** The second loop of [deliver_output], over one event. *)
Definition deliver_event (e : MuxEvent) (h : Home) : Home * bool :=
  match e with
  | Opened sid =>
      let h := set_streams (<[sid := home_stream_new]> (streams h)) h in
      if owner h then (set_accepts (accepts h ++ [sid]) true h, true)
      else (set_tally (tally_close OwnerGone (tally h)) h, false)
  | DataEvent sid bytes => (on_stream sid (push_signal (SData bytes)) h, true)
  | ReadClosed sid => (on_stream sid (push_signal SReadEof) h, true)
  | ResetEvent sid _ => (on_stream sid (fun x => push_signal SReset (set_code STREAM_RESET x)) h, true)
  | PeerGoneEvent _ => (h, true)
  end.

Fixpoint deliver_events (es : list MuxEvent) (h : Home) : Home * bool :=
  match es with
  | [] => (h, true)
  | e :: es => let '(h, ok) := deliver_event e h in if ok then deliver_events es h else (h, false)
  end.

(** [deliver_output] *)
Definition deliver_output (now_ms : Z) (o : MuxOutput) (h : Home) : Home * bool :=
  match write_frames (frames o) 0 h with
  | (h, None) => (h, false)
  | (h, Some answered) =>
      let '(h, flushed) := match frames o with [] => (h, true) | _ => write_ok h end in
      if negb flushed then (h, false)
      else deliver_events (mevents o) (set_tally (record_answers answered now_ms (tally h)) h)
  end.

(** [mark_writable_streams] *)
Definition mark_writable_streams (o : MuxOutput) (h : Home) : Home :=
  set_queues (pending h)
    (foldl (fun r sid => if bool_decide (is_Some (pending h !! sid)) && negb (bool_decide (sid ∈ r)) then r ++ [sid] else r)
       (ready h) (writable_streams o))
    (closing h) h.

(** [discard_pending_stream] *)
Definition discard_pending_stream (sid : Z) (h : Home) : Home :=
  let h := match pending h !! sid with
           | Some queue => on_stream sid (release_staging (len queue)) h
           | None => h
           end in
  set_queues (delete sid (pending h)) (filter (fun i => i <> sid) (ready h)) (closing h ∖ {[sid]}) h.

Definition push_ready (sid : Z) (h : Home) : Home :=
  if bool_decide (sid ∈ ready h) then h
  else set_queues (pending h) (ready h ++ [sid]) (closing h) h.

Definition is_live (sid : Z) (h : Home) : bool :=
  match streams h !! sid with Some x => bool_decide (code x = STREAM_LIVE) | None => true end.

(** Sending the CLOSE of a stream whose writes are all sent. *)
Definition finish_close (now_ms sid : Z) (h : Home) : Home * bool :=
  if bool_decide (sid ∈ closing h) then
    let h := set_queues (pending h) (ready h) (closing h ∖ {[sid]}) h in
    match close_write (acceptor h) sid with
    | (a, Ok o) => deliver_output now_ms o (set_acceptor a h)
    | (a, Err Closed) => (set_acceptor a h, true)
    | (a, _) => (set_acceptor a h, false)
    end
  else (h, true).

(** One round of [flush_ready] for the stream [sid]: the home, whether the
    driver goes on, and whether data was sent. *)
Definition flush_round (now_ms sid : Z) (h : Home) : Home * bool * bool :=
  if negb (is_live sid h) then (discard_pending_stream sid h, true, false)
  else
    match pending h !! sid with
    | None => let '(h, ok) := finish_close now_ms sid h in (h, ok, false)
    | Some [] =>
        let '(h, ok) := finish_close now_ms sid (set_queues (delete sid (pending h)) (ready h) (closing h) h) in
        (h, ok, false)
    | Some queue =>
        let count := Z.min (len queue) RECOMMENDED_CHUNK in
        let bytes := ztake count queue in
        let rest := zdrop count queue in
        let drained a := set_acceptor a (set_queues (<[sid := rest]> (pending h)) (ready h) (closing h) h) in
        match try_send_data (acceptor h) sid bytes with
        | (a, Ok (Some o)) =>
            let '(h, ok) := deliver_output now_ms o (drained a) in
            if negb ok then (h, false, false)
            else
              let h := on_stream sid (release_staging (len bytes)) h in
              match rest with
              | [] =>
                  let '(h, ok) := finish_close now_ms sid (set_queues (delete sid (pending h)) (ready h) (closing h) h) in
                  (h, ok, true)
              | _ => (set_queues (pending h) (ready h ++ [sid]) (closing h) h, true, true)
              end
        | (a, Ok None) => (set_acceptor a h, true, false)
        | (a, Err Closed) => (discard_pending_stream sid (drained a), true, false)
        | (a, _) => (drained a, false, false)
        end
    end.

Fixpoint flush_rounds (now_ms : Z) (rounds : nat) (progress : bool) (h : Home) : Home * bool * bool :=
  match rounds with
  | O => (h, true, progress)
  | S rounds =>
      match ready h with
      | [] => (h, true, progress)
      | sid :: rest =>
          let '(h, ok, sent) := flush_round now_ms sid (set_queues (pending h) rest (closing h) h) in
          if ok then flush_rounds now_ms rounds (progress || sent) h else (h, false, progress)
      end
  end.

(** [flush_ready] *)
Definition flush_ready (now_ms : Z) (h : Home) : Home * bool :=
  let '(h, ok, progress) := flush_rounds now_ms (length (ready h)) false h in
  if negb ok then (h, false)
  else if progress && negb (bool_decide (ready h = [])) then (set_commands (commands h ++ [CWake]) h, true)
  else (h, true).

(** The end of [run_driver]: every stream is told. *)
Definition stop_driver (h : Home) : Home :=
  set_running false
    (set_streams ((fun x => push_signal SGone (set_code STREAM_GONE x)) <$> streams h) h).

Definition stop_with (r : CarrierClose) (h : Home) : Home := stop_driver (set_tally (tally_close r (tally h)) h).

(** The end of a turn of the loop. *)
Definition end_turn (now_ms : Z) (h : Home) : Home :=
  let '(h, ok) := flush_ready now_ms h in
  if ok then h else stop_with WriteFailed h.

(** What the reader of the carrier returns. *)
Inductive CarrierRead := RBytes (bytes : list byte) | REof | RFailed.

Definition truncated_eof (o : MuxOutput) : bool :=
  existsb (fun e => match e with PeerGoneEvent true => true | _ => false end) (mevents o).

(** The arm of the loop that reads the carrier. *)
Definition driver_read (r : CarrierRead) (now_ms : Z) (h : Home) : res unit Home :=
  match r with
  | RFailed => Ok (stop_with PeerReadFailed h)
  | REof =>
      let '(a, o) := home_finish_eof (acceptor h) in
      let h := set_tally (tally_close (PeerEof (truncated_eof o)) (tally h)) (set_acceptor a h) in
      Ok (stop_driver (fst (deliver_output now_ms o (mark_writable_streams o h))))
  | RBytes bytes =>
      match home_feed (acceptor h) bytes with
      | (a, Ok o) =>
          let '(h, ok) := deliver_output now_ms o (mark_writable_streams o (set_acceptor a h)) in
          Ok (if ok then end_turn now_ms h else stop_with WriteFailed h)
      | (a, Err _) => Ok (stop_with AcceptorRefused (set_acceptor a h))
      | (_, Panic) => Panic
      end
  end.

(** The answer of the acceptor to a local operation, delivered. *)
Definition local_output (now_ms : Z) (r : MuxAcceptor * res HomeError MuxOutput) (marks : bool) (skips : bool) (h : Home)
  : res unit Home :=
  match r with
  | (a, Ok o) =>
      let h := set_acceptor a h in
      let '(h, ok) := deliver_output now_ms o (if marks then mark_writable_streams o h else h) in
      Ok (if ok then end_turn now_ms h else stop_with WriteFailed h)
  | (a, Err Closed) => Ok (if skips then set_acceptor a h else end_turn now_ms (set_acceptor a h))
  | (a, Err _) => Ok (stop_with AcceptorRefused (set_acceptor a h))
  | (_, Panic) => Panic
  end.

(** The arm of the loop that takes a command. *)
Definition driver_command (now_ms : Z) (h : Home) : res unit (option Home) :=
  match commands h with
  | [] => Ok None
  | cmd :: rest =>
      let h := set_commands rest h in
      Some <$> match cmd with
      | CWrite sid bytes =>
          Ok (end_turn now_ms (push_ready sid (set_queues (<[sid := default [] (pending h !! sid) ++ bytes]> (pending h)) (ready h) (closing h) h)))
      | CConsumed sid n => local_output now_ms (home_consume (acceptor h) sid n) true true h
      | CClose sid => Ok (end_turn now_ms (push_ready sid (set_queues (pending h) (ready h) ({[sid]} ∪ closing h) h)))
      | CCancel sid =>
          let h := discard_pending_stream sid h in
          local_output now_ms (home_reset (acceptor h) sid Cancel) false false h
      | CReset sid reason =>
          let h := discard_pending_stream sid h in
          local_output now_ms (home_reset (acceptor h) sid reason) false false h
      | CWake => Ok (end_turn now_ms h)
      | CCloseConnection => Ok (stop_with LocalClose h)
      end
  end.

(** ** The users' side *)

(** What a poll returns: not yet, an [io::Error], or a value. *)
Inductive Polled (A : Type) :=
| Pending
| Failed
| Ready (a : A).
Arguments Pending {A}.
Arguments Failed {A}.
Arguments Ready {A} _.

Definition set_read (sigs : list StreamSignal) (c : StreamCode) (buf : list byte) (eof : bool) (g : list byte) (x : HomeStream) : HomeStream :=
  mkHomeStream sigs c (staged_bytes x) (write_waker x) buf eof (write_shutdown x) (dropped x) g (put x).

(** The loop of [HomeStream::poll_read] on a buffer with room for [n] bytes;
    the last component is what it reports as consumed. *)
Fixpoint read_loop (sigs : list StreamSignal) (n : Z) (running : bool) (x : HomeStream)
  : HomeStream * Polled (list byte) * option Z :=
  match code x with
  | STREAM_RESET | STREAM_GONE => (set_read sigs (code x) [] (read_eof x) (got x) x, Failed, None)
  | STREAM_LIVE =>
      match read_buffer x with
      | _ :: _ =>
          let count := Z.min n (len (read_buffer x)) in
          let bytes := ztake count (read_buffer x) in
          if running
          then (set_read sigs (code x) (zdrop count (read_buffer x)) (read_eof x) (got x ++ bytes) x, Ready bytes, Some count)
          else (set_read sigs (code x) (zdrop count (read_buffer x)) (read_eof x) (got x) x, Failed, None)
      | [] =>
          if read_eof x then (set_read sigs (code x) [] true (got x) x, Ready [], None)
          else
            match sigs with
            | [] =>
                if running then (set_read [] (code x) [] false (got x) x, Pending, None)
                else (set_read [] STREAM_GONE [] false (got x) x, Failed, None)
            | SData bytes :: sigs => read_loop sigs n running (set_read sigs (code x) bytes false (got x) x)
            | SReadEof :: sigs => read_loop sigs n running (set_read sigs (code x) [] true (got x) x)
            | SReset :: sigs => (set_read sigs STREAM_RESET [] false (got x) x, Failed, None)
            | SGone :: sigs => (set_read sigs STREAM_GONE [] false (got x) x, Failed, None)
            end
      end
  end.

Definition poll_read (sid n : Z) (h : Home) : Home * Polled (list byte) :=
  match streams h !! sid with
  | None => (h, Failed)
  | Some x =>
      let '(x', r, consumed) := read_loop (signals x) n (running h) x in
      let h := set_streams (<[sid := x']> (streams h)) h in
      match consumed with
      | Some count => (set_commands (commands h ++ [CConsumed sid count]) h, r)
      | None => (h, r)
      end
  end.

Definition set_write (staged : Z) (w shut : bool) (p : list byte) (x : HomeStream) : HomeStream :=
  mkHomeStream (signals x) (code x) staged w (read_buffer x) (read_eof x) shut (dropped x) (got x) p.

(** [HomeStream::poll_write] *)
Definition poll_write (sid : Z) (bytes : list byte) (h : Home) : Home * Polled Z :=
  match streams h !! sid with
  | None => (h, Failed)
  | Some x =>
      if negb (bool_decide (code x = STREAM_LIVE)) || write_shutdown x then (h, Failed)
      else if bool_decide (bytes = []) then (h, Ready 0)
      else
        let '(x', staged) := reserve_staging (len bytes) x in
        if staged =? 0 then (set_streams (<[sid := x']> (streams h)) h, Pending)
        else if running h then
          let sent := ztake staged bytes in
          (set_commands (commands h ++ [CWrite sid sent])
             (set_streams (<[sid := set_write (staged_bytes x') (write_waker x') false (put x ++ sent) x']> (streams h)) h),
           Ready staged)
        else (set_streams (<[sid := release_staging staged x']> (streams h)) h, Failed)
  end.

(** [HomeStream::poll_shutdown] *)
Definition poll_shutdown (sid : Z) (h : Home) : Home * Polled unit :=
  match streams h !! sid with
  | None => (h, Failed)
  | Some x =>
      if negb (bool_decide (code x = STREAM_LIVE)) then (h, Failed)
      else if write_shutdown x then (h, Ready tt)
      else if running h then
        (set_commands (commands h ++ [CClose sid])
           (set_streams (<[sid := set_write (staged_bytes x) (write_waker x) true (put x) x]> (streams h)) h), Ready tt)
      else (h, Failed)
  end.

(** [HomeStream::poll_flush] *)
Definition poll_flush (sid : Z) (h : Home) : Polled unit :=
  match streams h !! sid with
  | Some x => if bool_decide (code x = STREAM_LIVE) then Ready tt else Failed
  | None => Failed
  end.

(** [HomeStream::reset] *)
Definition stream_reset (sid : Z) (reason : ResetReason) (h : Home) : Home * bool :=
  match streams h !! sid with
  | None => (h, false)
  | Some x =>
      if negb (bool_decide (code x = STREAM_LIVE)) then (h, false)
      else if running h then
        (set_commands (commands h ++ [CReset sid reason])
           (set_streams (<[sid := set_write (staged_bytes x) (write_waker x) true (put x) x]> (streams h)) h), true)
      else (h, false)
  end.

Definition set_dropped (x : HomeStream) : HomeStream :=
  mkHomeStream (signals x) (code x) (staged_bytes x) (write_waker x) (read_buffer x) (read_eof x) (write_shutdown x) true (got x) (put x).

(** The drop of a [HomeStream]: one whose writer is open is cancelled. *)
Definition drop_home_stream (sid : Z) (h : Home) : Home :=
  match streams h !! sid with
  | None => h
  | Some x =>
      let h := set_streams (<[sid := set_dropped x]> (streams h)) h in
      if negb (write_shutdown x) && running h then set_commands (commands h ++ [CCancel sid]) h else h
  end.

(** [HomeConnection::accept_stream], [close], and its drop, which drops the
    streams nobody accepted. *)
Definition accept_stream (h : Home) : Home * Polled Z :=
  match accepts h with
  | sid :: rest => (set_accepts rest (owner h) h, Ready sid)
  | [] => if running h then (h, Pending) else (h, Failed)
  end.

Definition close_connection (h : Home) : Home * bool :=
  if running h then (set_commands (commands h ++ [CCloseConnection]) h, true) else (h, false).

Definition drop_connection (h : Home) : Home :=
  set_accepts [] false (foldl (fun h sid => drop_home_stream sid h) h (accepts h)).

(** ** Runs *)

Inductive home_event :=
| DriverReads (r : CarrierRead) (now_ms : Z)
| DriverTakes (now_ms : Z)
| UserAccepts
| UserReads (sid n : Z)
| UserWrites (sid : Z) (bytes : list byte)
| UserShuts (sid : Z)
| UserResets (sid : Z) (reason : ResetReason)
| UserDrops (sid : Z)
| OwnerCloses
| OwnerDrops.

(** A handle is used only by its owner, after it was accepted and before it is
    dropped. *)
Definition in_hand (sid : Z) (h : Home) : bool :=
  match streams h !! sid with Some x => negb (dropped x) && negb (bool_decide (sid ∈ accepts h)) | None => false end.

Definition home_turn (e : home_event) (h : Home) : option (res unit Home) :=
  match e with
  | DriverReads r now => if running h then Some (driver_read r now h) else None
  | DriverTakes now =>
      if running h then
        match driver_command now h with
        | Ok (Some h) => Some (Ok h)
        | Ok None => None
        | Err e => Some (Err e)
        | Panic => Some Panic
        end
      else None
  | UserAccepts => if owner h then Some (Ok (fst (accept_stream h))) else None
  | UserReads sid n => if in_hand sid h then Some (Ok (fst (poll_read sid n h))) else None
  | UserWrites sid bytes => if in_hand sid h then Some (Ok (fst (poll_write sid bytes h))) else None
  | UserShuts sid => if in_hand sid h then Some (Ok (fst (poll_shutdown sid h))) else None
  | UserResets sid reason => if in_hand sid h then Some (Ok (fst (stream_reset sid reason h))) else None
  | UserDrops sid => if in_hand sid h then Some (Ok (drop_home_stream sid h)) else None
  | OwnerCloses => if owner h then Some (Ok (fst (close_connection h))) else None
  | OwnerDrops => if owner h then Some (Ok (drop_connection h)) else None
  end.

Fixpoint home_events (es : list home_event) (h : Home) : option (res unit Home) :=
  match es with
  | [] => Some (Ok h)
  | e :: es =>
      match home_turn e h with
      | Some (Ok h) => home_events es h
      | r => r
      end
  end.
