(* ===== verification/HomeInv.v ===== *)
(** * The invariant of the home's carrier driver

    What a read or a local operation of the acceptor does to its streams, what
    is in flight for a stream between the acceptor, the driver and the user, the
    invariant that relates them, and that the steps of the users of
    [HomeDriver] keep it.  The driver's own steps are in [HomeRun]. *)

From S2P Require Import Prelude Frame Text Http Window HomeMux HomeDriver.

(** ** What an operation of the acceptor does to its streams *)

Definition is_data (f : Frame) : bool := flags f =? FLAG_DATA.
Definition is_close (f : Frame) : bool := flags f =? FLAG_CLOSE.
Definition is_pong (f : Frame) : bool := (stream_id f =? 0) && (flags f =? FLAG_PONG).

(** A frame the acceptor sends by itself: no DATA, no CLOSE, and encodable. *)
Definition control_frame (f : Frame) : Prop :=
  is_data f = false /\ is_close f = false /\ exists b, encode f = Ok b.

(** What each stream was sent and its reader has not consumed, event by event. *)
Definition owe (t : gmap Z Z) (e : MuxEvent) : gmap Z Z :=
  match e with
  | Opened sid => <[sid := 0]> t
  | DataEvent sid b => alter (fun n => n + len b) sid t
  | _ => t
  end.

Definition owes (a : MuxAcceptor) (t : gmap Z Z) : Prop :=
  forall sid s, hstreams a !! sid = Some s -> t !! sid = Some (debited_not_consumed s).

(** The effect of a read on the streams the monitor knows: their writing side is
    untouched, their credit changes only with a mark. *)
Record fed (m : gmap Z mphase) (a : MuxAcceptor) (d : MuxOutput) (a' : MuxAcceptor) : Prop := {
  fed_control : Forall control_frame (frames d);
  fed_kept : forall sid s', is_Some (m !! sid) -> hstreams a' !! sid = Some s' ->
    exists s, hstreams a !! sid = Some s /\ local_closed s' = local_closed s /\
      (hsend_credit s' = hsend_credit s \/ sid ∈ writable_streams d);
  fed_owed : forall t, owes a t -> owes a' (foldl owe t (mevents d));
  fed_local : forall sid s', hstreams a' !! sid = Some s' -> local_closed s' = true ->
    exists s, hstreams a !! sid = Some s /\ local_closed s = true
}.

Lemma fed_same m a a' : hstreams a' = hstreams a -> fed m a output_default a'.
Proof.
  intros E. split; [constructor|intros sid s' _; rewrite E; eauto|intros t Ht sid s; rewrite E; apply Ht|].
  intros sid s'. rewrite E. eauto.
Qed.

Lemma fed_from m a b d a' : hstreams b = hstreams a -> fed m a d a' -> fed m b d a'.
Proof.
  intros E [Hc Hk Ho Hl]. split; [done|..].
  - intros sid s'. rewrite E. apply Hk.
  - intros t Ht. apply Ho. intros sid s. rewrite <- E. apply Ht.
  - rewrite E. apply Hl.
Qed.

Lemma control_reset sid c : control_frame (reset sid c).
Proof. repeat split. by eexists. Qed.

Lemma fed_refuse m a v c :
  fed m a (snd (refuse_violation a v c output_default)) (fst (refuse_violation a v c output_default)).
Proof.
  unfold refuse_violation. case_bool_decide; cbn; (split; cbn; [by repeat constructor; apply control_reset|..]).
  - intros sid s' _. rewrite lookup_delete_Some. intros [_ ?]. eauto.
  - intros t Ht sid s. cbn. rewrite lookup_delete_Some. intros [_ ?]. by apply Ht.
  - intros sid s'. rewrite lookup_delete_Some. intros [_ ?]. eauto.
  - eauto.
  - intros t Ht sid s. apply Ht.
  - eauto.
Qed.

(** Closing the peer's direction after an update that keeps the writing side. *)
Lemma owes_mark a sid o t : owes a t -> owes (fst (mark_peer_closed a sid o)) t.
Proof.
  intros Ht i s. unfold mark_peer_closed. destruct (hstreams a !! sid) as [s0|] eqn:E; [|apply Ht].
  assert (Hs : hstreams (set_stream a sid (mkStreamState (receive_window s0) (debited_not_consumed s0) (hsend_credit s0)
                true (local_closed s0))) !! i = Some s -> t !! i = Some (debited_not_consumed s)).
  { cbn. destruct (decide (sid = i)) as [<-|Hne]; [rewrite lookup_insert_eq|by rewrite lookup_insert_ne by done; apply Ht].
    intros [= <-]. exact (Ht _ _ E). }
  destruct (local_closed s0); [|done]. cbn. rewrite lookup_delete_Some. by intros [_ ?%Hs].
Qed.

Lemma mark_same a sid o :
  frames (snd (mark_peer_closed a sid o)) = frames o /\
  writable_streams (snd (mark_peer_closed a sid o)) = writable_streams o /\
  (forall t, foldl owe t (mevents (snd (mark_peer_closed a sid o))) = foldl owe t (mevents o)) /\
  forall i s', hstreams (fst (mark_peer_closed a sid o)) !! i = Some s' ->
    exists s, hstreams a !! i = Some s /\ local_closed s' = local_closed s /\ hsend_credit s' = hsend_credit s.
Proof.
  unfold mark_peer_closed. destruct (hstreams a !! sid) as [s0|] eqn:E; [|split_and!; eauto].
  assert (Hs : forall i s', hstreams (set_stream a sid (mkStreamState (receive_window s0) (debited_not_consumed s0)
                (hsend_credit s0) true (local_closed s0))) !! i = Some s' ->
    exists s, hstreams a !! i = Some s /\ local_closed s' = local_closed s /\ hsend_credit s' = hsend_credit s).
  { intros i s'. cbn. destruct (decide (sid = i)) as [<-|Hne];
      [rewrite lookup_insert_eq; intros [= <-]; eauto|rewrite lookup_insert_ne by done; eauto]. }
  assert (Ht : forall t, foldl owe t (mevents (push_event o (ReadClosed sid))) = foldl owe t (mevents o)).
  { intros t. cbn. by rewrite foldl_app. }
  destruct (local_closed s0); (split_and!; [done|done|exact Ht|]); [|exact Hs].
  intros i s'. cbn. rewrite lookup_delete_Some. intros [_ ?]. by apply Hs.
Qed.

Lemma fed_mark m a d b sid :
  fed m a d b -> fed m a (snd (mark_peer_closed b sid d)) (fst (mark_peer_closed b sid d)).
Proof.
  intros [Hc Hk Ho Hl]. destruct (mark_same b sid d) as (Hf & Hw & He & Hs). split.
  - by rewrite Hf.
  - intros i s' Hi (s1 & E1 & L1 & C1)%Hs. destruct (Hk _ _ Hi E1) as (s & E & L & C). exists s.
    rewrite Hw, L1, C1. done.
  - intros t Ht. rewrite He. by apply owes_mark, Ho.
  - intros i s' (s1 & E1 & -> & _)%Hs. by apply Hl.
Qed.

(** An update of one stream the monitor knows. *)
Lemma fed_set m a d sid s0 s :
  hstreams a !! sid = Some s0 -> local_closed s = local_closed s0 ->
  (hsend_credit s = hsend_credit s0 \/ sid ∈ writable_streams d) ->
  Forall control_frame (frames d) ->
  (forall t, t !! sid = Some (debited_not_consumed s0) ->
     foldl owe t (mevents d) = <[sid := debited_not_consumed s]> t) ->
  fed m a d (set_stream a sid s).
Proof.
  intros E Hl Hc Hf Ho. split; [done|..].
  - intros i s' _. cbn. destruct (decide (sid = i)) as [<-|Hne].
    + rewrite lookup_insert_eq. intros [= <-]. eauto.
    + rewrite lookup_insert_ne by done. eauto.
  - intros t Ht i s'. rewrite Ho by by apply Ht. cbn. destruct (decide (sid = i)) as [<-|Hne].
    + rewrite !lookup_insert_eq. by intros [= <-].
    + rewrite !lookup_insert_ne by done. apply Ht.
  - intros i s'. cbn. destruct (decide (sid = i)) as [<-|Hne].
    + rewrite lookup_insert_eq. intros [= <-]. rewrite Hl. eauto.
    + rewrite lookup_insert_ne by done. eauto.
Qed.

Lemma fed_data m a f c : fed m a (snd (handle_data a f c output_default)) (fst (handle_data a f c output_default)).
Proof.
  unfold handle_data, refuse. destruct (hstreams a !! stream_id f) as [s|] eqn:E; [|apply fed_refuse].
  destruct (peer_closed s) eqn:Ep; [apply fed_refuse|]. rewrite <- Ep. destruct (debit _ _) as [w [[]|e|]]; [|apply fed_refuse..].
  set (d := push_event _ _).
  assert (Hset : forall n, n = debited_not_consumed s + len (payload f) ->
    fed m a d (set_stream a (stream_id f) (mkStreamState w n (hsend_credit s) (peer_closed s) (local_closed s)))).
  { intros n ->. eapply fed_set; [done|done|by left|constructor|]. intros t Ht. cbn. apply map_eq. intros i.
    destruct (decide (stream_id f = i)) as [<-|Hne]; [by rewrite lookup_alter_eq, Ht, lookup_insert_eq|].
    by rewrite lookup_alter_ne, lookup_insert_ne. }
  unfold checked_add. destruct (_ <? _).
  - destruct c; [apply fed_mark|]; by apply Hset.
  - split.
    + apply (fed_refuse m).
    + intros i s' Hi H. pose proof (fed_kept _ _ _ _ (fed_refuse m (set_stream a (stream_id f)
        (mkStreamState w (debited_not_consumed s) (hsend_credit s) (peer_closed s) (local_closed s))) (violation f) RInternal) i s' Hi H)
        as (s1 & E1 & L1 & C1). cbn in E1. destruct (decide (stream_id f = i)) as [<-|Hne].
      * rewrite lookup_insert_eq in E1. simplify_eq/=. eauto.
      * rewrite lookup_insert_ne in E1 by done. eauto.
    + intros t Ht. apply (fed_refuse m). intros i s'. cbn. destruct (decide (stream_id f = i)) as [<-|Hne].
      * rewrite lookup_insert_eq. intros [= <-]. exact (Ht _ _ E).
      * rewrite lookup_insert_ne by done. apply Ht.
    + intros i s' H Hs'. destruct (fed_local _ _ _ _ (fed_refuse m _ _ _) _ _ H Hs') as (s1 & E1 & L1). revert L1. cbn in E1.
      destruct (decide (stream_id f = i)) as [<-|Hne]; revert E1.
      * rewrite lookup_insert_eq. intros [= <-]. eauto.
      * rewrite lookup_insert_ne by done. eauto.
Qed.

Lemma fed_open m a f :
  minv a m -> fed m a (snd (handle_open a f output_default)) (fst (handle_open a f output_default)).
Proof.
  intros I. unfold handle_open, refuse. cbv zeta.
  destruct (negb _) eqn:Ev; [apply fed_refuse|]. apply negb_false_iff, andb_prop in Ev as [_ Hhw].
  set (sid := stream_id f) in *. set (a0 := set_high_water a _).
  assert (Hr : forall c, fed m a (snd (refuse_violation a0 (violation f) c output_default))
                 (fst (refuse_violation a0 (violation f) c output_default))).
  { intros c. apply (fed_from m a0); [done|apply fed_refuse]. }
  destruct (_ >=? _); [apply Hr|]. destruct (_ >? _); [apply Hr|].
  destruct (debit _ _) as [w [[]|e|]]; [|apply Hr..].
  assert (Hnew : m !! sid = None).
  { destruct (m !! sid) as [p|] eqn:E; [|done]. destruct (mi_high _ _ I _ _ E) as (h & Eh & Hle).
    rewrite Eh in Hhw. lia. }
  set (s := mkStreamState _ _ _ _ _).
  assert (Hset : fed m a (open_events f output_default) (set_stream a0 sid s)).
  { split.
    - unfold open_events. destruct (_ || _); constructor.
    - intros i s' [p Hp]. cbn. destruct (decide (sid = i)) as [<-|Hne]; [congruence|].
      rewrite lookup_insert_ne by done. eauto.
    - intros t Ht i s'. cbn. unfold open_events. fold sid. destruct (decide (sid = i)) as [<-|Hne].
      + rewrite lookup_insert_eq. intros [= <-]. destruct (_ || _) eqn:Eb; cbn.
        * rewrite lookup_alter_eq, lookup_insert_eq. done.
        * rewrite lookup_insert_eq. f_equal. apply orb_false_iff in Eb as [Eb _]. lia.
      + rewrite lookup_insert_ne by done. intros H%Ht. destruct (_ || _); cbn;
          rewrite ?lookup_alter_ne, lookup_insert_ne; done.
    - intros i s'. cbn. destruct (decide (sid = i)) as [<-|Hne].
      + rewrite lookup_insert_eq. by intros [= <-].
      + rewrite lookup_insert_ne by done. eauto. }
  destruct (has _ _); [by apply fed_mark|done].
Qed.

Lemma fed_stream m a f :
  minv a m -> fed m a (snd (handle_stream a f output_default)) (fst (handle_stream a f output_default)).
Proof.
  intros I. unfold handle_stream, refuse.
  destruct (_ || _); [apply fed_refuse|]. destruct (has _ FLAG_OPEN); [by apply fed_open|].
  destruct (negb (bool_decide _)); [destruct (has _ _); [by apply fed_same|apply fed_refuse]|].
  destruct (_ =? Z.lor _ _); [apply fed_data|]. destruct (_ =? FLAG_DATA); [apply fed_data|].
  destruct (_ =? FLAG_CLOSE).
  { unfold handle_close. destruct (negb _); [apply fed_data|apply fed_mark; by apply fed_same]. }
  destruct (_ =? FLAG_RESET).
  { unfold handle_reset, refuse. destruct (payload f) as [|b [|? ?]]; [apply fed_refuse| |apply fed_refuse].
    split; [constructor|..]; cbn.
    - intros i s' _. rewrite lookup_delete_Some. intros [_ ?]. eauto.
    - intros t Ht i s'. cbn. rewrite lookup_delete_Some. intros [_ ?]. by apply Ht.
    - intros i s'. rewrite lookup_delete_Some. intros [_ ?]. eauto. }
  destruct (_ =? FLAG_WINDOW); [|apply fed_refuse]. unfold handle_window, refuse.
  destruct (window_credit f); [|apply fed_refuse]. destruct (hstreams a !! _) as [s|] eqn:E; [|apply fed_refuse].
  destruct (checked_add _ _ _); [|apply fed_refuse]. destruct (_ >? _); [apply fed_refuse|].
  eapply fed_set; [done|done|right; cbn; set_solver|constructor|]. intros t Ht. cbn. by rewrite insert_id.
Qed.

(** Reads compose: the monitor only learns streams. *)
Lemma mon_grows es : forall m m' sid, mon_run m es = Some m' -> is_Some (m !! sid) -> is_Some (m' !! sid).
Proof.
  induction es as [|e es IH]; intros m m' sid; cbn; [by intros [= <-]|].
  destruct (mon_step m e) as [m1|] eqn:E; [|done]. cbn. intros H Hs. apply (IH m1); [done|].
  assert (Hi : forall i p, is_Some (<[i := p]> m !! sid)) by (intros; rewrite lookup_insert; case_decide; eauto).
  destruct e; cbn in E; repeat case_match; simplify_eq; auto.
Qed.

Lemma fed_trans m m1 a d a1 e a2 :
  fed m a d a1 -> mon_run m (mevents d) = Some m1 -> fed m1 a1 e a2 -> fed m a (oapp d e) a2.
Proof.
  intros [Hc Hk Ho Hl] Hm [Hc' Hk' Ho' Hl']. split; cbn.
  - by apply list.Forall_app.
  - intros sid s2 Hs H2. destruct (Hk' _ _ (mon_grows _ _ _ _ Hm Hs) H2) as (s1 & H1 & L1 & C1).
    destruct (Hk _ _ Hs H1) as (s0 & H0 & L0 & C0). exists s0. split_and!; [done|congruence|].
    rewrite elem_of_app. destruct C1 as [->|?]; [destruct C0; auto|auto].
  - intros t Ht. rewrite foldl_app. auto.
  - intros i s' Hi Hs. destruct (Hl' _ _ Hi Hs) as (s1 & ? & ?). by eapply Hl.
Qed.

Lemma fed_control_frame m a f o :
  stream_id f = 0 -> handle_control f output_default = Ok o -> fed m a o a.
Proof.
  intros H0. unfold handle_control. destruct (_ && _) eqn:E.
  - unfold control_pong. rewrite H0. cbn [Z.eqb andb]. rewrite E. intros [= <-]. split; cbn; [|eauto|done|eauto].
    constructor; [|constructor]. apply andb_prop in E as [_ E]. repeat split. eexists. unfold encode. cbn.
    apply Z.eqb_eq in E. rewrite E. reflexivity.
  - clear E. destruct (_ && _); [|done]. intros [= <-]. by apply fed_same.
Qed.

Lemma feed_byte_fed a m b a' o :
  cinv a m -> feed_byte a output_default b = (a', Ok o) -> fed m a o a'.
Proof.
  intros [I [(raw & Hp & Ha)|(n & Hn & Ha)]].
  - rewrite Ha at 1. rewrite feed_byte_raw by (done || apply I). cbv zeta.
    assert (Hsame : forall r, fed m a output_default (at_raw a r)).
    { intros r. apply fed_same. unfold at_raw. by destruct (_ <? _). }
    destruct (_ <? HEADER_LEN); [intros [= <- <-]; apply Hsame|]. destruct (_ && _).
    { unfold reject_reserved. destruct (_ =? 0); [done|]. intros [= <- <-].
      eapply fed_from; [|apply fed_refuse]. done. }
    destruct (_ <? need _); [intros [= <- <-]; apply Hsame|].
    set (f := frame_of _). apply (fun H => minv_raw a [] m H) in I. fold (idle a) in I.
    destruct (decide (stream_id f = 0)) as [H0|H0].
    + unfold handle_frame. rewrite H0. cbn [Z.eqb]. intros [= <- E].
      eapply (fed_from m (idle a)); [done|]. by eapply fed_control_frame.
    + rewrite handle_frame_stream by done. intros [= <- <-]. eapply (fed_from m (idle a)); [done|].
      by apply fed_stream.
  - rewrite Ha at 1. unfold feed_byte, discarding. cbn [discarded_payload_remaining set_framing].
    unfold some_positive. replace (n >? 0) with true by lia. intros [= <- <-]. by apply fed_same.
Qed.

Lemma feed_bytes_fed bytes : forall a m a' o,
  cinv a m -> feed_bytes a output_default bytes = (a', Ok o) -> fed m a o a'.
Proof.
  induction bytes as [|b bytes IH]; intros a m a' o I H; [injection H as <- <-; by apply fed_same|].
  cbn [feed_bytes] in H. pose proof (feed_byte_good a m output_default b I) as Hg.
  destruct (feed_byte a output_default b) as [a1 [o1|e|]] eqn:E; [|done..].
  pose proof (feed_byte_fed a m b a1 o1 I E) as Hf. destruct Hg as (d & m1 & Hd & Hm & I1).
  rewrite (feed_bytes_out bytes a1 m1 o1 I1) in H.
  destruct (feed_bytes a1 output_default bytes) as [a2 [o2|e|]] eqn:E2; [|done..].
  cbn in H. injection H as <- <-. assert (o1 = d) as -> by (by destruct d).
  eapply fed_trans; [done|done|]. by apply IH.
Qed.

(** ** What is in flight for a stream *)

Definition data_of (sid : Z) (es : list MuxEvent) : list byte :=
  concat (omap (fun e => match e with DataEvent i b => if i =? sid then Some b else None | _ => None end) es).
Definition sdata (sigs : list StreamSignal) : list byte :=
  concat (omap (fun s => match s with SData b => Some b | _ => None end) sigs).
Definition queued (sid : Z) (cmds : list DriverCommand) : list byte :=
  concat (omap (fun c => match c with CWrite i b => if i =? sid then Some b else None | _ => None end) cmds).
Definition eaten (sid : Z) (cmds : list DriverCommand) : Z :=
  zsum (fun c => match c with CConsumed i n => if i =? sid then n else 0 | _ => 0 end) cmds.
Definition sent (sid : Z) (w : list Frame) : list byte :=
  concat (omap (fun f => if (stream_id f =? sid) && is_data f then Some (payload f) else None) w).
Definition close_sent (sid : Z) (w : list Frame) : bool := existsb (fun f => (stream_id f =? sid) && is_close f) w.
Definition pongs (w : list Frame) : Z := zsum (fun f => if is_pong f then 1 else 0) w.
Definition bytes_read (ops : list home_op) : list byte :=
  concat (omap (fun o => match o with HFeed b => Some b | _ => None end) ops).

#[global] Arguments data_of : simpl never.
#[global] Arguments sdata : simpl never.
#[global] Arguments queued : simpl never.
#[global] Arguments eaten : simpl never.
#[global] Arguments sent : simpl never.
#[global] Arguments close_sent : simpl never.
#[global] Arguments pongs : simpl never.

Definition cmd_sid (c : DriverCommand) : option Z :=
  match c with
  | CWrite i _ | CConsumed i _ | CClose i | CCancel i | CReset i _ => Some i
  | CWake | CCloseConnection => None
  end.

Definition cmd_ok (c : DriverCommand) : Prop := match c with CConsumed _ n => 0 <= n | CWrite _ b => b <> [] | _ => True end.

(** No write of the stream is queued behind its close. *)
Fixpoint ordered (sid : Z) (cmds : list DriverCommand) : Prop :=
  match cmds with
  | [] => True
  | CClose i :: r => (i = sid -> queued sid r = []) /\ ordered sid r
  | _ :: r => ordered sid r
  end.

(** No data behind an end of the stream; whether its end was signalled. *)
Fixpoint tail_ok (eof : bool) (sigs : list StreamSignal) : bool :=
  match sigs with
  | [] => true
  | SData _ :: r => negb eof && tail_ok eof r
  | SReadEof :: r => tail_ok true r
  | _ :: r => tail_ok eof r
  end.
Definition ends (eof : bool) (sigs : list StreamSignal) : bool :=
  eof || existsb (fun s => match s with SReadEof => true | _ => false end) sigs.
Definition plain (s : StreamSignal) : Prop := match s with SData _ | SReadEof => True | _ => False end.

Lemma concat_omap_app {A B} (f : A -> option (list B)) l k : concat (omap f (l ++ k)) = concat (omap f l) ++ concat (omap f k).
Proof. by rewrite omap_app, concat_app. Qed.

Lemma data_of_app sid l k : data_of sid (l ++ k) = data_of sid l ++ data_of sid k.
Proof. apply concat_omap_app. Qed.
Lemma sdata_app l k : sdata (l ++ k) = sdata l ++ sdata k.
Proof. apply concat_omap_app. Qed.
Lemma queued_app sid l k : queued sid (l ++ k) = queued sid l ++ queued sid k.
Proof. apply concat_omap_app. Qed.
Lemma sent_app sid l k : sent sid (l ++ k) = sent sid l ++ sent sid k.
Proof. apply concat_omap_app. Qed.
Lemma bytes_read_app l k : bytes_read (l ++ k) = bytes_read l ++ bytes_read k.
Proof. apply concat_omap_app. Qed.
Lemma eaten_app sid l k : eaten sid (l ++ k) = eaten sid l + eaten sid k.
Proof. unfold eaten. by rewrite zsum_app. Qed.
Lemma close_sent_app sid l k : close_sent sid (l ++ k) = close_sent sid l || close_sent sid k.
Proof. apply existsb_app. Qed.
Lemma pongs_app l k : pongs (l ++ k) = pongs l + pongs k.
Proof. unfold pongs. by rewrite zsum_app. Qed.
Lemma ends_app eof l k : ends eof (l ++ k) = ends (ends eof l) k.
Proof. unfold ends. by rewrite existsb_app, orb_assoc. Qed.

Lemma eaten_one sid n : eaten sid [CConsumed sid n] = n.
Proof. unfold eaten. cbn. rewrite Z.eqb_refl. lia. Qed.
Lemma queued_one sid b : queued sid [CWrite sid b] = b.
Proof. unfold queued. cbn. rewrite Z.eqb_refl. cbn. apply app_nil_r. Qed.
Lemma sdata_cons b l : sdata (SData b :: l) = b ++ sdata l.
Proof. done. Qed.

(** Commands of other streams. *)
Definition others (sid : Z) (cs : list DriverCommand) : Prop := Forall (fun c => cmd_sid c <> Some sid) cs.

Lemma others_queued sid cs : others sid cs -> queued sid cs = [].
Proof.
  induction 1 as [|c cs Hc _ IH]; [done|]. change (queued sid ([c] ++ cs) = []). rewrite queued_app, IH.
  destruct c; try done. cbn. unfold queued. cbn. destruct (Z.eqb_spec sid0 sid); [cbn in Hc; congruence|done].
Qed.

Lemma others_eaten sid cs : others sid cs -> eaten sid cs = 0.
Proof.
  induction 1 as [|c cs Hc _ IH]; [done|]. change (eaten sid ([c] ++ cs) = 0). rewrite eaten_app, IH.
  destruct c; try done. unfold eaten. cbn. destruct (Z.eqb_spec sid0 sid); [cbn in Hc; congruence|done].
Qed.

Lemma others_close sid cs : others sid cs -> CClose sid ∉ cs.
Proof. intros H Hin. by apply (proj1 (list.Forall_forall _ _) H _ Hin). Qed.

Lemma others_ordered sid cs : others sid cs -> ordered sid cs.
Proof. induction 1 as [|c cs Hc _ IH]; [done|]. destruct c; try done. split; [|done]. cbn in Hc. congruence. Qed.

Lemma ordered_app sid l k :
  ordered sid l -> ordered sid k -> (CClose sid ∈ l -> queued sid k = []) -> ordered sid (l ++ k).
Proof.
  induction l as [|c l IH]; [done|]. intros Hl Hk Hc.
  assert (Hc' : CClose sid ∈ l -> queued sid k = []) by (intros; apply Hc; set_solver).
  destruct c; cbn in *; auto. destruct Hl as [Hq Hl]. split; [|auto]. intros ->. rewrite queued_app, Hq by done.
  cbn. apply Hc. set_solver.
Qed.

Lemma ordered_cons sid c l : ordered sid (c :: l) -> ordered sid l.
Proof. destruct c; cbn; tauto. Qed.

Lemma tail_ok_app eof l k : tail_ok eof (l ++ k) = tail_ok eof l && tail_ok (ends eof l) k.
Proof.
  revert eof. induction l as [|s l IH]; intros eof; [by unfold ends; cbn; rewrite orb_false_r|].
  destruct s; cbn [app tail_ok]; rewrite IH; unfold ends; cbn; rewrite ?orb_true_r, ?andb_assoc; done.
Qed.

Lemma tail_ok_eof l : tail_ok true l = true -> sdata l = [].
Proof. induction l as [|s l IH]; [done|]. destruct s; cbn; auto; discriminate. Qed.

(** ** The invariant *)

(** The reading side of a stream: [t] is what the acceptor believes is not
    consumed, [evs] the events of the acceptor so far. *)
Record in_ok (m : gmap Z mphase) (t : gmap Z Z) (evs : list MuxEvent) (cmds : list DriverCommand) (sid : Z) (x : HomeStream)
  : Prop := {
  in_code : code x = STREAM_LIVE \/ code x = STREAM_RESET /\ m !! sid = Some MDone;
  in_prefix : got x `prefix_of` data_of sid evs;
  in_all : code x = STREAM_LIVE -> got x ++ read_buffer x ++ sdata (signals x) = data_of sid evs;
  in_owed : code x = STREAM_LIVE -> t !! sid = Some (len (read_buffer x) + len (sdata (signals x)) + eaten sid cmds);
  in_plain : code x = STREAM_LIVE -> Forall plain (signals x);
  in_tail : tail_ok (read_eof x) (signals x) = true;
  in_open : m !! sid = Some MOpen -> ends (read_eof x) (signals x) = false;
  in_closed : ends (read_eof x) (signals x) = true -> ReadClosed sid ∈ evs
}.

Record inbound (strs : gmap Z HomeStream) (m : gmap Z mphase) (t : gmap Z Z) (evs : list MuxEvent) (cmds : list DriverCommand)
  : Prop := {
  ib_dom : forall sid, is_Some (strs !! sid) <-> is_Some (m !! sid);
  ib_cmds : Forall (fun c => cmd_ok c /\ match cmd_sid c with Some sid => is_Some (strs !! sid) | None => True end) cmds;
  ib_ok : map_Forall (in_ok m t evs cmds) strs
}.

(** The writing side of a stream: what is on the wire, pending and queued. *)
Record out_ok (a : MuxAcceptor) (pend : gmap Z (list byte)) (rdy : list Z) (clo : gset Z) (w : list Frame)
  (cmds : list DriverCommand) (sid : Z) (x : HomeStream) : Prop := {
  o_stage : len (default [] (pend !! sid)) + len (queued sid cmds) <= staged_bytes x <= MAX_STAGED_WRITE_BYTES_PER_STREAM;
  o_waker : write_waker x = true -> staged_bytes x = MAX_STAGED_WRITE_BYTES_PER_STREAM;
  o_prefix : sent sid w `prefix_of` put x;
  o_whole : is_Some (hstreams a !! sid) -> sent sid w ++ default [] (pend !! sid) ++ queued sid cmds = put x;
  o_close : close_sent sid w = true ->
    sent sid w = put x /\ write_shutdown x = true /\ forall s, hstreams a !! sid = Some s -> local_closed s = true;
  o_open : write_shutdown x = false -> CClose sid ∉ cmds /\ sid ∉ clo;
  o_local : forall s, hstreams a !! sid = Some s -> local_closed s = true ->
    write_shutdown x = true /\ pend !! sid = None /\ queued sid cmds = [];
  o_closing : sid ∈ clo -> queued sid cmds = [];
  o_order : ordered sid cmds;
  o_wake : forall q, pend !! sid = Some q -> sid ∈ rdy \/
    forall s, hstreams a !! sid = Some s -> hsend_credit s < Z.min (len q) RECOMMENDED_CHUNK;
  o_ends : sid ∈ clo -> sid ∈ rdy \/ is_Some (pend !! sid)
}.

Record keyed (strs : gmap Z HomeStream) (pend : gmap Z (list byte)) (rdy : list Z) (clo : gset Z) (w : list Frame) : Prop := {
  k_pend : forall sid, is_Some (pend !! sid) -> is_Some (strs !! sid);
  k_ready : forall sid, sid ∈ rdy -> is_Some (strs !! sid);
  k_clo : forall sid, sid ∈ clo -> is_Some (strs !! sid);
  k_wire : forall sid, strs !! sid = None -> sent sid w = [] /\ close_sent sid w = false
}.

Definition outbound (h : Home) : Prop :=
  keyed (streams h) (pending h) (ready h) (closing h) (wire h) /\
  map_Forall (out_ok (acceptor h) (pending h) (ready h) (closing h) (wire h) (commands h)) (streams h).

(** The carrier while its driver runs: [log] is everything the acceptor
    answered, [reads] everything it was fed. *)
Record home_inv (a0 : MuxAcceptor) (reads : list byte) (h : Home) (log : MuxOutput) (m : gmap Z mphase) (t : gmap Z Z) : Prop := {
  hv_run : exists ops, Forall op_ok ops /\ home_run a0 ops output_default = (acceptor h, log, Ok tt) /\ bytes_read ops = reads;
  hv_mon : mon_run ∅ (mevents log) = Some m;
  hv_cinv : cinv (acceptor h) m;
  hv_owes : owes (acceptor h) t;
  hv_wire : wire h = frames log;
  hv_pings : pings_answered (tally h) = wrap 64 (pongs (wire h));
  hv_reason : close_reason (tally h) = close_code Open;
  hv_in : inbound (streams h) m t (mevents log) (commands h);
  hv_out : outbound h;
  hv_running : running h = true
}.

(** ** Users *)

(** Commands that read nothing and write nothing. *)
Lemma out_ok_app a p r c w cmds cs sid x :
  queued sid cs = [] -> ordered sid cs -> CClose sid ∉ cs -> out_ok a p r c w cmds sid x -> out_ok a p r c w (cmds ++ cs) sid x.
Proof.
  intros Hq Ho Hc []. split; rewrite ?queued_app, ?Hq, ?app_nil_r; try done.
  - intros H. destruct (o_open0 H) as [? ?]. split; [|done]. rewrite elem_of_app. tauto.
  - by apply ordered_app.
Qed.

Lemma in_ok_app m t evs cmds cs sid x : eaten sid cs = 0 -> in_ok m t evs cmds sid x -> in_ok m t evs (cmds ++ cs) sid x.
Proof. intros H []. split; try done. intros. rewrite eaten_app, H, Z.add_0_r. auto. Qed.

Lemma in_ok_others m t evs cmds cs sid x : others sid cs -> in_ok m t evs cmds sid x -> in_ok m t evs (cmds ++ cs) sid x.
Proof. intros Ho. by apply in_ok_app, others_eaten. Qed.

Lemma out_ok_others a p r c w cmds cs sid x :
  others sid cs -> out_ok a p r c w cmds sid x -> out_ok a p r c w (cmds ++ cs) sid x.
Proof. intros Ho. apply out_ok_app; [by apply others_queued|by apply others_ordered|by apply others_close]. Qed.

(** A step of one stream's user: the stream changes and commands about it are
    queued. *)
Lemma user_inv a0 reads h log m t sid x x' cs :
  home_inv a0 reads h log m t -> streams h !! sid = Some x ->
  Forall (fun c => cmd_ok c /\ cmd_sid c = Some sid) cs ->
  in_ok m t (mevents log) (commands h ++ cs) sid x' ->
  out_ok (acceptor h) (pending h) (ready h) (closing h) (wire h) (commands h ++ cs) sid x' ->
  home_inv a0 reads (set_commands (commands h ++ cs) (set_streams (<[sid := x']> (streams h)) h)) log m t.
Proof.
  intros [Hr Hm Hc Ho Hw Hp Hcl [Hd Hcm Hin] [[K1 K2 K3 K4] Hout] Hrun] E Hcs Hin' Hout'.
  assert (Hdom : forall i, is_Some (<[sid := x']> (streams h) !! i) <-> is_Some (streams h !! i)).
  { intros i. rewrite lookup_insert. case_decide; [subst; rewrite E|done]. split; eauto. }
  assert (Hoth : forall i, sid <> i -> others i cs).
  { intros i Hne. eapply list.Forall_impl; [exact Hcs|]. intros c [_ ->]. congruence. }
  split; try done; cbn.
  - split.
    + intros i. rewrite Hdom. apply Hd.
    + apply list.Forall_app. split; (eapply list.Forall_impl; [eassumption|]); cbn; intros c.
      * destruct (cmd_sid c); [|done]. by rewrite Hdom.
      * intros [? ->]. rewrite Hdom. eauto.
    + intros i y. rewrite lookup_insert. case_decide; [by intros; simplify_eq|]. intros Hi. apply in_ok_others; auto.
  - split; [split; cbn|]; try done.
    + intros i. rewrite Hdom. apply K1.
    + intros i. rewrite Hdom. apply K2.
    + intros i. rewrite Hdom. apply K3.
    + intros i Hi. apply K4. apply eq_None_not_Some. rewrite <- Hdom, Hi. by intros [? ?].
    + intros i y. cbn. rewrite lookup_insert. case_decide; [by intros; simplify_eq|]. intros Hi. apply out_ok_others; auto.
Qed.

(** The same when nothing is queued. *)
Lemma user_inv_quiet a0 reads h log m t sid x x' :
  home_inv a0 reads h log m t -> streams h !! sid = Some x ->
  in_ok m t (mevents log) (commands h) sid x' ->
  out_ok (acceptor h) (pending h) (ready h) (closing h) (wire h) (commands h) sid x' ->
  home_inv a0 reads (set_streams (<[sid := x']> (streams h)) h) log m t.
Proof.
  intros I E Hi Ho. pose proof (user_inv a0 reads h log m t sid x x' [] I E) as H. rewrite app_nil_r in H.
  specialize (H (Forall_nil_2 _) Hi Ho). by destruct H.
Qed.

(** Both sides of a stream of a running carrier. *)
Lemma inv_stream a0 reads h log m t sid x :
  home_inv a0 reads h log m t -> streams h !! sid = Some x ->
  in_ok m t (mevents log) (commands h) sid x /\
  out_ok (acceptor h) (pending h) (ready h) (closing h) (wire h) (commands h) sid x.
Proof. intros I E. split; [by apply (ib_ok _ _ _ _ _ (hv_in _ _ _ _ _ _ I))|by apply (hv_out _ _ _ _ _ _ I)]. Qed.

(** The writing side does not look at the reading side, and conversely. *)
Lemma out_ok_same a p r c w cmds sid x y :
  staged_bytes y = staged_bytes x -> write_waker y = write_waker x -> put y = put x -> write_shutdown y = write_shutdown x ->
  out_ok a p r c w cmds sid x -> out_ok a p r c w cmds sid y.
Proof. intros E1 E2 E3 E4 []. split; rewrite ?E1, ?E2, ?E3, ?E4; done. Qed.

Lemma in_ok_same m t evs cmds sid x y :
  code y = code x -> got y = got x -> read_buffer y = read_buffer x -> signals y = signals x -> read_eof y = read_eof x ->
  in_ok m t evs cmds sid x -> in_ok m t evs cmds sid y.
Proof. intros E1 E2 E3 E4 E5 []. split; rewrite ?E1, ?E2, ?E3, ?E4, ?E5; done. Qed.


(** A poll of a reader: what it returns is the next of the stream's bytes, what
    it reports as consumed is what it returns, and an end of the stream means
    that nothing is left. *)
Record read_ok (m : gmap Z mphase) (t : gmap Z Z) (evs : list MuxEvent) (cmds : list DriverCommand) (sid n : Z) (x x' : HomeStream)
  (r : Polled (list byte)) (c : option Z) : Prop := {
  rd_in : in_ok m t evs (cmds ++ match c with Some k => [CConsumed sid k] | None => [] end) sid x';
  rd_same : staged_bytes x' = staged_bytes x /\ write_waker x' = write_waker x /\ put x' = put x /\
            write_shutdown x' = write_shutdown x;
  rd_bytes : forall b, r = Ready b -> got x' = got x ++ b;
  rd_eof : r = Ready [] -> 0 < n -> got x' = data_of sid evs /\ ReadClosed sid ∈ evs;
  rd_count : match c with Some k => 0 <= k | None => True end
}.

(** Taking from the read buffer. *)
Lemma read_take_ok m t evs cmds sid n x :
  0 <= n -> code x = STREAM_LIVE -> read_buffer x <> [] -> in_ok m t evs cmds sid x ->
  let count := Z.min n (len (read_buffer x)) in
  let bytes := ztake count (read_buffer x) in
  read_ok m t evs cmds sid n x (set_read (signals x) (code x) (zdrop count (read_buffer x)) (read_eof x) (got x ++ bytes) x)
    (Ready bytes) (Some count).
Proof.
  intros Hn Hl Hb I. cbv zeta. set (count := Z.min _ _).
  assert (Hc : 0 <= count <= len (read_buffer x)) by (unfold count; lia).
  assert (Hlen : len (zdrop count (read_buffer x)) = len (read_buffer x) - count) by (rewrite length_drop; lia).
  destruct I as [Hcode Hp Ha Ho Hpl Ht Hop Hcl]. specialize (Ha Hl). specialize (Ho Hl).
  split; [split; cbn|..]; try done.
  - rewrite <- Ha. rewrite <- (take_drop (Z.to_nat count) (read_buffer x)) at 2.
    rewrite <- !app_assoc, app_assoc. by apply prefix_app_r.
  - intros _. rewrite <- app_assoc, (app_assoc (ztake _ _)), take_drop. done.
  - intros _. rewrite Ho, Hlen, eaten_app, eaten_one. f_equal. lia.
  - by intros b [= <-].
  - intros [= H] Hpos. apply (f_equal length) in H. rewrite length_take in H. cbn in H.
    destruct (read_buffer x); [done|]. cbn in *. lia.
  - lia.
Qed.

(** A poll that reports nothing and changes only how the stream is read. *)
Lemma read_none_ok m t evs cmds sid n x sigs c b e r :
  in_ok m t evs cmds sid (set_read sigs c b e (got x) x) ->
  (forall bs, r = Ready bs -> bs = []) ->
  (r = Ready [] -> 0 < n -> got x = data_of sid evs /\ ReadClosed sid ∈ evs) ->
  read_ok m t evs cmds sid n x (set_read sigs c b e (got x) x) r None.
Proof.
  intros I Hr He. split; rewrite ?app_nil_r; try done. intros bs ->. cbn. by rewrite (Hr bs), app_nil_r.
Qed.

(** A stream that is not live. *)
Lemma in_ok_dead m t evs cmds sid x :
  in_ok m t evs cmds sid x -> code x <> STREAM_LIVE ->
  in_ok m t evs cmds sid (set_read (signals x) (code x) [] (read_eof x) (got x) x).
Proof. intros [] Hd. by split. Qed.

(** A signal taken by the reader of a live stream with an empty buffer. *)
Lemma in_ok_signal m t evs cmds sid x s sigs :
  in_ok m t evs cmds sid x -> code x = STREAM_LIVE -> read_buffer x = [] -> read_eof x = false -> signals x = s :: sigs ->
  match s with
  | SData bytes => in_ok m t evs cmds sid (set_read sigs (code x) bytes false (got x) x)
  | SReadEof => in_ok m t evs cmds sid (set_read sigs (code x) [] true (got x) x)
  | _ => False
  end.
Proof.
  intros [Hcode Hp Ha Ho Hpl Ht Hop Hcl] Hl Hb He Hs. specialize (Ha Hl). specialize (Ho Hl). specialize (Hpl Hl).
  rewrite He, Hs in Ht, Hop, Hcl. rewrite Hb, Hs in Ha, Ho. rewrite Hs in Hpl. apply Forall_cons_1 in Hpl as [Hplain Hpl].
  destruct s as [bytes| | |]; [| |done..]; (split; cbn; try done).
  - intros _. rewrite Ho. f_equal. rewrite sdata_cons, length_app. cbn. lia.
Qed.

Lemma poll_loop_ok m t evs cmds sid n sigs : forall x,
  0 <= n -> signals x = sigs -> in_ok m t evs cmds sid x ->
  read_ok m t evs cmds sid n x (fst (fst (read_loop sigs n true x))) (snd (fst (read_loop sigs n true x)))
    (snd (read_loop sigs n true x)).
Proof.
  induction sigs as [|s sigs IH]; intros x Hn Hs I.
  all: cbn [read_loop]; destruct (code x) eqn:Ec;
    [|rewrite <- Hs, <- Ec; apply read_none_ok; [apply in_ok_dead; [done|congruence]|done|done]..].
  all: rewrite <- Ec; destruct (read_buffer x) as [|b0 bs] eqn:Eb;
    [|rewrite <- Hs, <- Eb; apply read_take_ok; [done|done|congruence|done]].
  all: destruct (read_eof x) eqn:Ee;
    [cbn; rewrite <- Hs, <- Eb, <- Ee at 1; apply read_none_ok; [by destruct I; split|by intros ? [= <-]|]|].
  1,3: intros _ _; destruct I as [_ _ Ha _ _ Ht _ Hcl]; specialize (Ha Ec); rewrite Ee in Ht, Hcl;
    rewrite Eb, (tail_ok_eof _ Ht), !app_nil_r in Ha; auto.
  - cbn. apply read_none_ok; [|done|done]. destruct I. split; cbn; rewrite ?Hs, ?Ee, ?Eb in *; done.
  - pose proof (in_ok_signal m t evs cmds sid x s sigs I Ec Eb Ee Hs) as Hsig.
    assert (Hgo : forall y, signals y = sigs -> in_ok m t evs cmds sid y ->
      staged_bytes y = staged_bytes x /\ write_waker y = write_waker x /\ put y = put x /\
        write_shutdown y = write_shutdown x -> got y = got x ->
      read_ok m t evs cmds sid n x (fst (fst (read_loop sigs n true y))) (snd (fst (read_loop sigs n true y)))
        (snd (read_loop sigs n true y))).
    { intros y Hy Iy (E1 & E2 & E3 & E4) Hg. destruct (IH y Hn Hy Iy) as [R1 (F1 & F2 & F3 & F4) R3 R4 R5].
      split; [done| |by rewrite <- Hg|done|done]. by rewrite F1, F2, F3, F4. }
    destruct s; [| |done..]; by apply Hgo.
Qed.

(** A user's step keeps the invariant. *)
Lemma poll_read_inv a0 reads h log m t sid n :
  home_inv a0 reads h log m t -> 0 <= n -> home_inv a0 reads (fst (poll_read sid n h)) log m t.
Proof.
  intros I Hn. unfold poll_read. destruct (streams h !! sid) as [x|] eqn:E; [|done].
  destruct (inv_stream _ _ _ _ _ _ _ _ I E) as [Hi Ho]. rewrite (hv_running _ _ _ _ _ _ I).
  pose proof (poll_loop_ok m t (mevents log) (commands h) sid n (signals x) x Hn eq_refl Hi) as [R1 (F1 & F2 & F3 & F4) _ _ Hk].
  destruct (read_loop (signals x) n true x) as [[x' r] c]. cbn [fst snd] in *. destruct c as [k|]; cbn [fst commands set_streams].
  - eapply user_inv; [done|done|by constructor; [split|]|done|]. apply out_ok_app; [done..| |by eapply out_ok_same].
    by intros ?%list_elem_of_singleton.
  - rewrite app_nil_r in R1. eapply user_inv_quiet; [done|done|done|]. by eapply out_ok_same.
Qed.

Lemma reserve_ok h sid x (bytes : list byte) :
  out_ok (acceptor h) (pending h) (ready h) (closing h) (wire h) (commands h) sid x -> bytes <> [] ->
  let '(x', k) := reserve_staging (len bytes) x in
  if k =? 0 then x' = set_staged (staged_bytes x) true x /\ staged_bytes x = MAX_STAGED_WRITE_BYTES_PER_STREAM
  else x' = set_staged (staged_bytes x + k) (write_waker x) x /\ 0 < k <= len bytes /\
       staged_bytes x + k <= MAX_STAGED_WRITE_BYTES_PER_STREAM /\ write_waker x = false.
Proof.
  intros [Hst Hwk _ _ _ _ _ _ _ _ _] Hb. unfold reserve_staging. set (M := MAX_STAGED_WRITE_BYTES_PER_STREAM) in *.
  assert (0 < len bytes) by (destruct bytes; cbn; [done|lia]). unfold saturating_sub.
  destruct (Z.eqb_spec (Z.max 0 (M - staged_bytes x)) 0) as [H0|H0].
  - cbn. split; [done|lia].
  - rewrite (proj2 (Z.eqb_neq _ _)) by lia. split_and!; [done|lia|lia|lia|].
    destruct (write_waker x) eqn:Ew; [|done]. specialize (Hwk eq_refl). lia.
Qed.

Lemma poll_write_inv a0 reads h log m t sid bytes :
  home_inv a0 reads h log m t -> home_inv a0 reads (fst (poll_write sid bytes h)) log m t.
Proof.
  intros I. unfold poll_write. destruct (streams h !! sid) as [x|] eqn:E; [|done].
  destruct (inv_stream _ _ _ _ _ _ _ _ I E) as [Hi Ho].
  case_bool_decide as Hl; cbn [negb orb]; [|done]. destruct (write_shutdown x) eqn:Ews; [done|].
  case_bool_decide as Hb; [done|]. pose proof (reserve_ok h sid x bytes Ho Hb) as Hr.
  destruct (reserve_staging (len bytes) x) as [x' k]. destruct (Z.eqb_spec k 0) as [H0|H0].
  - destruct Hr as [-> Hm]. cbn [fst]. eapply user_inv_quiet; [done|done|by eapply in_ok_same; [..|exact Hi]|].
    destruct Ho. by split.
  - destruct Hr as (-> & Hk & Hm & Hwk). rewrite (hv_running _ _ _ _ _ _ I). cbn [fst commands set_streams].
    eapply user_inv; [done|done|constructor; [split; [|done]|done]|apply in_ok_app; [done|by eapply in_ok_same; [..|exact Hi]]|].
    { cbn. intros H. apply (f_equal length) in H. rewrite length_take in H. cbn in H. lia. }
    assert (Hlen : len (ztake k bytes) = k) by (rewrite length_take; lia).
    destruct Ho as [Hst Hwak Hpre Hwh Hcl Hop Hloc Hcg Hord Hwake Hends]. destruct (Hop Ews) as [Hnc Hnclo].
    split; cbn; rewrite ?queued_app, ?queued_one, ?length_app; try done.
    + lia.
    + congruence.
    + by apply prefix_app_r.
    + intros Hs. rewrite <- (Hwh Hs). by rewrite !app_assoc.
    + intros Hc. destruct (Hcl Hc) as (_ & ? & _). congruence.
    + intros _. split; [|done]. rewrite elem_of_app, list_elem_of_singleton. by intros [?|?].
    + intros s Hs Hls. destruct (Hloc s Hs Hls). congruence.
    + apply ordered_app; [done|done|]. by intros ?%Hnc.
Qed.

Lemma poll_shutdown_inv a0 reads h log m t sid :
  home_inv a0 reads h log m t -> home_inv a0 reads (fst (poll_shutdown sid h)) log m t.
Proof.
  intros I. unfold poll_shutdown. destruct (streams h !! sid) as [x|] eqn:E; [|done].
  destruct (inv_stream _ _ _ _ _ _ _ _ I E) as [Hi Ho].
  case_bool_decide as Hl; cbn [negb]; [|done]. destruct (write_shutdown x) eqn:Ews; [done|].
  rewrite (hv_running _ _ _ _ _ _ I). cbn [fst commands set_streams].
  eapply user_inv; [done|done|by repeat constructor|apply in_ok_app; [done|by eapply in_ok_same; [..|exact Hi]]|].
  destruct Ho as [Hst Hwak Hpre Hwh Hcl Hop Hloc Hcg Hord Hwake Hends]. destruct (Hop Ews) as [Hnc Hnclo].
  split; cbn; rewrite ?queued_app, ?app_nil_r; try done.
  - intros Hc. by destruct (Hcl Hc) as (? & _ & ?).
  - intros s Hs Hls. by destruct (Hloc s Hs Hls) as (_ & ? & ?).
  - by apply ordered_app.
Qed.

Lemma stream_reset_inv a0 reads h log m t sid r :
  home_inv a0 reads h log m t -> home_inv a0 reads (fst (stream_reset sid r h)) log m t.
Proof.
  intros I. unfold stream_reset. destruct (streams h !! sid) as [x|] eqn:E; [|done].
  destruct (inv_stream _ _ _ _ _ _ _ _ I E) as [Hi Ho].
  case_bool_decide as Hl; cbn [negb]; [|done].
  rewrite (hv_running _ _ _ _ _ _ I). cbn [fst commands set_streams].
  eapply user_inv; [done|done|by repeat constructor|apply in_ok_app; [done|by eapply in_ok_same; [..|exact Hi]]|].
  apply out_ok_app; [done|done|by intros ?%list_elem_of_singleton|].
  destruct Ho as [Hst Hwak Hpre Hwh Hcl Hop Hloc Hcg Hord Hwake Hends]. split; cbn; try done.
  - intros Hc. by destruct (Hcl Hc) as (? & _ & ?).
  - intros s Hs Hls. by destruct (Hloc s Hs Hls) as (_ & ? & ?).
Qed.

Lemma drop_stream_inv a0 reads h log m t sid :
  home_inv a0 reads h log m t -> home_inv a0 reads (drop_home_stream sid h) log m t.
Proof.
  intros I. unfold drop_home_stream. destruct (streams h !! sid) as [x|] eqn:E; [|done].
  destruct (inv_stream _ _ _ _ _ _ _ _ I E) as [Hi Ho].
  assert (Hi' : in_ok m t (mevents log) (commands h) sid (set_dropped x)) by (by eapply in_ok_same; [..|exact Hi]).
  assert (Ho' : out_ok (acceptor h) (pending h) (ready h) (closing h) (wire h) (commands h) sid (set_dropped x))
    by (by eapply out_ok_same; [..|exact Ho]).
  cbn [running set_streams commands]. destruct (negb (write_shutdown x) && running h); [|by eapply user_inv_quiet].
  eapply user_inv; [done|done|by repeat constructor|by apply in_ok_app|].
  apply out_ok_app; [done|done|by intros ?%list_elem_of_singleton|done].
Qed.

(** What the owner of the connection does concerns no stream. *)
Lemma set_accepts_inv a0 reads h log m t l o :
  home_inv a0 reads h log m t -> home_inv a0 reads (set_accepts l o h) log m t.
Proof. by intros []. Qed.

Lemma set_commands_inv a0 reads h log m t cs :
  home_inv a0 reads h log m t -> Forall (fun c => cmd_sid c = None) cs ->
  home_inv a0 reads (set_commands (commands h ++ cs) h) log m t.
Proof.
  intros [Hr Hm Hc Ho Hw Hp Hcl [Hd Hcm Hin] [HK Hout] Hrun] Hcs.
  assert (Hoth : forall i, others i cs) by (intros i; eapply list.Forall_impl; [exact Hcs|]; by intros c ->).
  split; try done; cbn.
  - split; [done|..].
    + apply list.Forall_app. split; [done|]. eapply list.Forall_impl; [exact Hcs|]. intros c Hn. rewrite Hn. by destruct c.
    + intros i x Hi. apply in_ok_others; auto.
  - split; [done|]. intros i x Hi. apply out_ok_others; auto.
Qed.

Lemma close_connection_inv a0 reads h log m t :
  home_inv a0 reads h log m t -> home_inv a0 reads (fst (close_connection h)) log m t.
Proof. intros I. unfold close_connection. destruct (running h); [|done]. apply set_commands_inv; [done|by repeat constructor]. Qed.

Lemma accept_stream_inv a0 reads h log m t :
  home_inv a0 reads h log m t -> home_inv a0 reads (fst (accept_stream h)) log m t.
Proof. intros I. unfold accept_stream. destruct (accepts h); [by destruct (running h)|]. by apply set_accepts_inv. Qed.

Lemma drop_connection_inv a0 reads h log m t :
  home_inv a0 reads h log m t -> home_inv a0 reads (drop_connection h) log m t.
Proof.
  intros I. unfold drop_connection. apply set_accepts_inv. generalize (accepts h). intros l. revert h I.
  induction l as [|sid l IH]; intros h I; [done|]. cbn. apply IH. by apply drop_stream_inv.
Qed.
