(* ===== verification/HomeRun.v ===== *)
(** * Runs of the home's carrier driver

    Any interleaving of the driver of [HomeDriver] with the users of its
    streams is a run of the acceptor of [HomeMux]: the frames on the wire are
    the acceptor's, in order, the reader of a stream sees the bytes of its DATA
    events, the writer's bytes reach the wire in order and before the CLOSE,
    nothing a user does makes the acceptor refuse, and bytes wait only for
    credit. *)

From S2P Require Import Prelude Frame Text Http Window HomeMux HomeDriver HomeInv.

(** ** Runs of the acceptor *)

Lemma home_run_snoc ops : forall a log a1 log1 op,
  home_run a ops log = (a1, log1, Ok tt) ->
  home_run a (ops ++ [op]) log = home_run a1 [op] log1.
Proof.
  induction ops as [|o ops IH]; intros a log a1 log1 op; [by intros [= <- <-]|]. cbn [app home_run].
  destruct (home_step a o) as [a' [out|e|]]; [by apply IH| |done]. destruct o; try done; by apply IH.
Qed.

(** ** Writing *)

Definition encodable (f : Frame) : Prop := exists b, encode f = Ok b.

(** What a delivery may leave behind: some of the frames are on the wire. *)
Record wrote (fs : list Frame) (h h' : Home) (ok : bool) : Prop := {
  wr_home : exists w f, h' = set_wire (wire h ++ w) f h /\ w `prefix_of` fs /\ f ⊆ write_fates h /\ (ok = true -> w = fs);
  wr_cause : ok = false -> Forall encodable fs -> false ∈ write_fates h
}.

Lemma write_ok_spec h h' ok : write_ok h = (h', ok) ->
  exists f, h' = set_wire (wire h) f h /\ f ⊆ write_fates h /\ (ok = false -> false ∈ write_fates h).
Proof.
  unfold write_ok. destruct (write_fates h) as [|b f] eqn:E; intros [= <- <-].
  - exists []. destruct h; cbn in *. subst. by split_and!.
  - exists f. split_and!; [done|set_solver|]. intros ->. set_solver.
Qed.

Lemma write_frames_spec fs : forall k h h' r, write_frames fs k h = (h', r) ->
  wrote fs h h' (if r then true else false) /\ forall n, r = Some n -> n = k + pongs fs.
Proof.
  induction fs as [|f fs IH]; intros k h h' r.
  { intros [= <- <-]. split.
    - split; [|done]. exists [], (write_fates h). rewrite app_nil_r. by destruct h.
    - intros n [= <-]. unfold pongs. cbn. lia. }
  cbn [write_frames]. destruct (encode f) as [b|e|] eqn:Ee.
  2,3: intros [= <- <-]; split; [|done]; split;
    [exists [], (write_fates h); rewrite app_nil_r; split_and!; [by destruct h|apply prefix_nil|done|done]
    |intros _ [[b Hb] _]%Forall_cons_1; congruence].
  destruct (write_ok h) as [h1 ok] eqn:Ew. apply write_ok_spec in Ew as (f1 & -> & Hf1 & Hc1). destruct ok.
  - intros H. cbn [wire write_fates set_wire] in H. apply IH in H as [[(w & f2 & -> & Hw & Hf2 & Hok) Hc2] Hn].
    cbn [set_wire wire write_fates] in *. split; [split|].
    + exists (f :: w), f2. rewrite <- app_assoc. split_and!; [done|by apply prefix_cons|set_solver|].
      intros H. by rewrite (Hok H).
    + intros Hr [_ He]%Forall_cons_1. apply Hf1. auto.
    + intros n Hr. rewrite (Hn n Hr). change (f :: fs) with ([f] ++ fs). rewrite pongs_app. unfold pongs at 2. cbn.
      unfold is_pong. destruct (_ && _); lia.
  - intros [= <- <-]. split; [|done]. split; [|auto].
    exists [], f1. rewrite app_nil_r. split_and!; [done|apply prefix_nil|done|done].
Qed.

(** [deliver_output] up to its events: the answers are counted when all the
    frames are out. *)
Lemma deliver_output_spec now o h h' ok : deliver_output now o h = (h', ok) ->
  (ok = false /\ wrote (frames o) h h' false) \/
  exists h1, wrote (frames o) h h1 true /\
    deliver_events (mevents o) (set_tally (record_answers (pongs (frames o)) now (tally h1)) h1) = (h', ok).
Proof.
  unfold deliver_output. destruct (write_frames (frames o) 0 h) as [h1 r] eqn:Ef.
  apply write_frames_spec in Ef as [Hw Hn]. destruct r as [n|]; [|by intros [= <- <-]; left].
  rewrite (Hn n eq_refl), Z.add_0_l.
  assert (Hfl : exists h2 fl, (match frames o with [] => (h1, true) | _ => write_ok h1 end) = (h2, fl) /\
    wrote (frames o) h h2 fl).
  { destruct Hw as [(w & f & -> & Hw & Hf & Hok) Hc]. specialize (Hok eq_refl) as ->.
    destruct (frames o) as [|f0 fs] eqn:Efr.
    - eexists _, true. split; [done|]. split; [|done]. by exists [], f.
    - destruct (write_ok _) as [h2 fl] eqn:E. apply write_ok_spec in E as (f2 & -> & Hf2 & Hc2). cbn in *.
      exists (set_wire (wire h ++ f0 :: fs) f2 h), fl. split; [done|]. split.
      + exists (f0 :: fs), f2. split_and!; [done|done|set_solver|done].
      + intros Hfl _. apply Hf, Hc2, Hfl. }
  destruct Hfl as (h2 & fl & -> & Hw2). destruct fl; cbn [negb].
  - intros H. right. eauto.
  - intros [= <- <-]. by left.
Qed.

Lemma set_tally_self h : set_tally (tally h) h = h.
Proof. by destruct h. Qed.

(** An output with no event and no answer only writes. *)
Lemma deliver_local now o h h' ok :
  mevents o = [] -> pongs (frames o) = 0 -> deliver_output now o h = (h', ok) -> wrote (frames o) h h' ok.
Proof.
  intros He Hp H. apply deliver_output_spec in H as [[-> H]|(h1 & Hw & H)]; [done|].
  rewrite He, Hp in H. unfold record_answers in H. cbn in H. rewrite set_tally_self in H. by injection H as <- <-.
Qed.

(** ** What survives a failed write *)

Record weak (h : Home) (evs : list MuxEvent) : Prop := {
  wk_in : forall sid x, streams h !! sid = Some x -> got x `prefix_of` data_of sid evs;
  wk_staged : forall sid x, streams h !! sid = Some x -> staged_bytes x <= MAX_STAGED_WRITE_BYTES_PER_STREAM;
  wk_out : forall sid x, streams h !! sid = Some x -> sent sid (wire h) `prefix_of` put x;
  wk_close : forall sid x, streams h !! sid = Some x -> close_sent sid (wire h) = true ->
    sent sid (wire h) = put x /\ write_shutdown x = true;
  wk_pings : exists k, pings_answered (tally h) = wrap 64 k /\ 0 <= k <= pongs (wire h)
}.

Lemma pongs_nonneg w : 0 <= pongs w.
Proof.
  induction w as [|f w IH]; [done|]. change (f :: w) with ([f] ++ w). rewrite pongs_app. unfold pongs at 1. cbn.
  destruct (is_pong f); lia.
Qed.

Lemma weak_inv a0 reads h log m t : home_inv a0 reads h log m t -> weak h (mevents log).
Proof.
  intros I. split; try (intros sid x Hx; destruct (inv_stream _ _ _ _ _ _ _ _ I Hx) as [Hi Ho]).
  - apply Hi.
  - apply Ho.
  - apply Ho.
  - intros Hc. by destruct (o_close _ _ _ _ _ _ _ _ Ho Hc) as (? & ? & _).
  - exists (pongs (wire h)). pose proof (pongs_nonneg (wire h)). split; [apply I|lia].
Qed.

(** Control frames say nothing about a stream's bytes. *)
Lemma control_sent w : Forall control_frame w -> forall sid, sent sid w = [] /\ close_sent sid w = false.
Proof.
  induction 1 as [|f w (Hd & Hc & _) _ IH]; intros sid; [done|]. destruct (IH sid) as [I1 I2].
  change (f :: w) with ([f] ++ w). rewrite sent_app, close_sent_app, I1, I2. unfold sent, close_sent. cbn.
  by rewrite Hd, Hc, !andb_false_r.
Qed.

Lemma control_encodable w : Forall control_frame w -> Forall encodable w.
Proof. intros H. eapply list.Forall_impl; [exact H|]. by intros f (_ & _ & ?). Qed.

Lemma prefix_Forall {A} (P : A -> Prop) l k : l `prefix_of` k -> Forall P k -> Forall P l.
Proof. by intros [r ->] [? _]%list.Forall_app. Qed.

(** Frames that keep the claims about the wire. *)
Definition wire_ext (strs : gmap Z HomeStream) (w0 w : list Frame) : Prop :=
  forall sid x, strs !! sid = Some x ->
    sent sid (w0 ++ w) `prefix_of` put x /\
    (close_sent sid (w0 ++ w) = true -> sent sid (w0 ++ w) = put x /\ write_shutdown x = true).

Lemma weak_ext h h' evs w :
  weak h evs -> wire_ext (streams h) (wire h) w ->
  streams h' = streams h -> wire h' = wire h ++ w -> tally h' = tally h -> weak h' evs.
Proof.
  intros [H1 H2 H3 H4 (k & Hk & Hk2)] Hx Es Ew Et. split; rewrite ?Es, ?Ew, ?Et; try done.
  - intros sid x E. by apply Hx.
  - intros sid x E. by apply Hx.
  - exists k. rewrite pongs_app. pose proof (pongs_nonneg w). split; [done|lia].
Qed.

Lemma wire_ext_control a0 reads h log m t w : home_inv a0 reads h log m t -> Forall control_frame w -> wire_ext (streams h) (wire h) w.
Proof.
  intros I Hc sid x Hx. destruct (control_sent w Hc sid) as [E1 E2].
  rewrite sent_app, close_sent_app, E1, E2, app_nil_r, orb_false_r. apply weak_inv in I as []. eauto.
Qed.

(** The carrier after its driver stopped. *)
Record ended (h : Home) (evs : list MuxEvent) : Prop := {
  en_weak : weak h evs;
  en_running : running h = false;
  en_gone : map_Forall (fun _ x => code x = STREAM_GONE) (streams h);
  en_reason : close_reason (tally h) <> close_code Open
}.

Lemma weak_stop h evs : weak h evs -> weak (stop_driver h) evs.
Proof.
  intros [H1 H2 H3 H4 H5]. split; [..|done]; cbn.
  all: intros sid x; rewrite lookup_fmap_Some; intros (y & <- & Hy); cbn; eauto.
Qed.

Lemma ended_stop h evs : weak h evs -> close_reason (tally h) <> close_code Open -> ended (stop_driver h) evs.
Proof.
  intros H Hr. split; [by apply weak_stop|done| |done]. intros sid x. cbn. rewrite lookup_fmap_Some. by intros (y & <- & _).
Qed.

Lemma tally_close_open r t : close_reason t = close_code Open -> close_reason (tally_close r t) = close_code r.
Proof. intros H. unfold tally_close. by rewrite H, Z.eqb_refl. Qed.

Lemma close_code_open r : r <> Open -> close_code r <> close_code Open.
Proof. by destruct r as [|[]| | | | |]. Qed.

Lemma ended_with r h evs :
  weak h evs -> close_reason (tally h) = close_code Open -> r <> Open ->
  ended (stop_with r h) evs /\ close_reason (tally (stop_with r h)) = close_code r.
Proof.
  intros H Ho Hr. assert (Hc : close_reason (tally (stop_with r h)) = close_code r) by (by apply tally_close_open).
  split; [|done]. apply ended_stop.
  - destruct H as [? ? ? ? (k & Hk & ?)]. split; try done. exists k. cbn. split; [|done].
    unfold tally_close. by destruct (_ =? _).
  - cbn. rewrite tally_close_open by done. by apply close_code_open.
Qed.

(** ** Local operations of the acceptor *)

Lemma acceptor_live a0 reads h log m t sid s :
  home_inv a0 reads h log m t -> hstreams (acceptor h) !! sid = Some s ->
  exists x, streams h !! sid = Some x /\ code x = STREAM_LIVE.
Proof.
  intros I Hs. destruct (hv_cinv _ _ _ _ _ _ I) as [Hc _]. apply (mi_live _ _ Hc) in Hs.
  destruct (proj2 (ib_dom _ _ _ _ _ (hv_in _ _ _ _ _ _ I) sid)) as [x Hx]; [by rewrite Hs|]. exists x. split; [done|].
  destruct (inv_stream _ _ _ _ _ _ _ _ I Hx) as [[[?|[_ Hd]] _ _ _ _ _ _ _] _]; [done|]. rewrite Hs in Hd.
  unfold phase in Hd. by destruct (peer_closed s).
Qed.

Lemma not_live_absent a0 reads h log m t sid x :
  home_inv a0 reads h log m t -> streams h !! sid = Some x -> code x <> STREAM_LIVE -> hstreams (acceptor h) !! sid = None.
Proof.
  intros I Hx Hl. destruct (hstreams (acceptor h) !! sid) as [s|] eqn:E; [|done].
  destruct (acceptor_live _ _ _ _ _ _ _ _ I E) as (y & Hy & ?). congruence.
Qed.

(** The invariant after a local operation, from its two sides. *)
Lemma local_step a0 reads h log m t op a' o h' t' :
  home_inv a0 reads h log m t -> op_ok op -> match op with HFeed _ => False | _ => True end ->
  home_step (acceptor h) op = (a', Ok o) -> mevents o = [] -> pongs (frames o) = 0 ->
  cinv a' m -> acceptor h' = a' -> wire h' = wire h ++ frames o -> tally h' = tally h -> running h' = true ->
  owes a' t' -> inbound (streams h') m t' (mevents log) (commands h') -> outbound h' ->
  home_inv a0 reads h' (oapp log o) m t'.
Proof.
  intros [(ops & Hop & Hrun & Hb) Hm _ _ Hw Hp Hcl _ _ _] Hok Hnf Hst He Hpo Hc' Ea Ew Et Hr Ho Hin Hout.
  split; try done.
  - exists (ops ++ [op]). rewrite (home_run_snoc ops _ _ _ _ op Hrun). split_and!.
    + apply list.Forall_app. by repeat constructor.
    + cbn [home_run]. rewrite Hst. cbn. by rewrite Ea.
    + rewrite bytes_read_app, Hb. destruct op; [done|..]; apply app_nil_r.
  - cbn. by rewrite He, app_nil_r.
  - by rewrite Ea.
  - by rewrite Ea.
  - rewrite Ew. cbn. by rewrite Hw.
  - by rewrite Et, Ew, pongs_app, Hpo, Z.add_0_r.
  - by rewrite Et.
  - cbn. by rewrite He, app_nil_r.
Qed.

(** The writing side of a stream whose acceptor entry and frames are the same. *)
Lemma out_ok_acceptor a a' p r c w w' cmds sid x :
  (forall s', hstreams a' !! sid = Some s' -> exists s, hstreams a !! sid = Some s /\
     local_closed s' = local_closed s /\ hsend_credit s' = hsend_credit s) ->
  sent sid w = [] -> close_sent sid w = false ->
  out_ok a p r c w' cmds sid x -> out_ok a' p r c (w' ++ w) cmds sid x.
Proof.
  intros Ha Hs Hc [Hst Hwak Hpre Hwh Hcl Hop Hloc Hcg Hord Hwake Hends].
  split; rewrite ?sent_app, ?close_sent_app, ?Hs, ?Hc, ?app_nil_r, ?orb_false_r; try done.
  - intros [s' (s & E & _)%Ha]. apply Hwh. by rewrite E.
  - intros H. destruct (Hcl H) as (? & ? & Hl). split_and!; [done..|]. intros s' (s & E & -> & _)%Ha. eauto.
  - intros s' (s & E & -> & _)%Ha. eauto.
  - intros q Hq. destruct (Hwake q Hq) as [?|Hb]; [by left|right]. intros s' (s & E & _ & ->)%Ha. eauto.
Qed.

Lemma keyed_wire strs p r c w w' : keyed strs p r c w -> (forall sid, strs !! sid = None -> sent sid w' = [] /\ close_sent sid w' = false) ->
  keyed strs p r c (w ++ w').
Proof.
  intros [H1 H2 H3 H4] Hw. split; try done. intros sid Hs. destruct (H4 sid Hs) as [E1 E2]. destruct (Hw sid Hs) as [F1 F2].
  by rewrite sent_app, close_sent_app, E1, E2, F1, F2.
Qed.

(** Taking a command off the queue. *)
Lemma in_ok_pop m t evs c rest sid x : eaten sid [c] = 0 -> in_ok m t evs (c :: rest) sid x -> in_ok m t evs rest sid x.
Proof. intros He []. split; try done. intros Hl. rewrite (in_owed Hl). change (c :: rest) with ([c] ++ rest). rewrite eaten_app, He. done. Qed.

Lemma out_ok_pop a p r cl w c rest sid x : queued sid [c] = [] -> out_ok a p r cl w (c :: rest) sid x -> out_ok a p r cl w rest sid x.
Proof.
  intros Hq. assert (E : queued sid (c :: rest) = queued sid rest) by (change (c :: rest) with ([c] ++ rest); by rewrite queued_app, Hq).
  intros []. split; rewrite <- ?E; try done.
  - intros H. destruct (o_open H) as [Hn ?]. split; [|done]. rewrite elem_of_cons in Hn. tauto.
  - by eapply ordered_cons.
Qed.

Lemma inbound_pop strs m t evs c rest : (forall sid, eaten sid [c] = 0) -> inbound strs m t evs (c :: rest) -> inbound strs m t evs rest.
Proof.
  intros He [Hd Hc Hi]. split; [done|by apply Forall_cons_1 in Hc as [_ ?]|]. intros sid x Hx. eapply in_ok_pop; [apply He|]. by apply Hi.
Qed.

Lemma pop_inv a0 reads h log m t c rest :
  home_inv a0 reads h log m t -> commands h = c :: rest -> (forall sid, eaten sid [c] = 0) -> (forall sid, queued sid [c] = []) ->
  home_inv a0 reads (set_commands rest h) log m t.
Proof.
  intros [] Ec He Hq. destruct hv_out as [HK Ho]. split; try done; cbn.
  - eapply inbound_pop; [done|]. by rewrite <- Ec.
  - split; [done|]. intros sid x Hx. eapply (out_ok_pop _ _ _ _ _ c rest); [apply Hq|]. rewrite <- Ec. by apply Ho.
Qed.

(** [consume]: what the reader reports is covered by what it was sent. *)
Lemma home_consume_spec a m t sid n s :
  cinv a m -> owes a t -> hstreams a !! sid = Some s -> 0 <= n <= debited_not_consumed s ->
  exists a' o, home_consume a sid n = (a', Ok o) /\ cinv a' m /\ mevents o = [] /\ writable_streams o = [] /\
    Forall control_frame (frames o) /\ pongs (frames o) = 0 /\
    owes a' (<[sid := debited_not_consumed s - n]> t) /\
    forall i s', hstreams a' !! i = Some s' -> exists s0, hstreams a !! i = Some s0 /\
      local_closed s' = local_closed s0 /\ hsend_credit s' = hsend_credit s0.
Proof.
  intros Hc Ht E Hn. pose proof (home_consume_good a m sid n Hc ltac:(lia)) as [Hc' He]. revert Hc' He.
  unfold home_consume. rewrite E. replace (n >? debited_not_consumed s) with false by lia.
  destruct Hc as [I _]. pose proof (mi_inv _ _ I) as [_ Hs _]. pose proof (Hs _ _ E) as [_ _ Hw Hd _ _].
  destruct (consume_ok (receive_window s) n Hw ltac:(lia)) as (w' & g & -> & _).
  unfold checked_sub. rewrite (proj2 (Z.leb_le _ _)) by lia. cbn [fst snd]. intros Hc' He.
  eexists _, _. split; [done|]. split_and!; [done|done|by destruct g| | | |].
  - destruct g as [g|]; [|constructor]. cbn. constructor; [|constructor]. repeat split. by eexists.
  - destruct g as [g|]; [|done]. unfold pongs. cbn. unfold is_pong. cbn. by rewrite andb_false_r.
  - intros i s'. cbn. destruct (decide (sid = i)) as [<-|Hne].
    + rewrite !lookup_insert_eq. by intros [= <-].
    + rewrite !lookup_insert_ne by done. apply Ht.
  - intros i s'. cbn. destruct (decide (sid = i)) as [<-|Hne].
    + rewrite lookup_insert_eq. intros [= <-]. eauto.
    + rewrite lookup_insert_ne by done. eauto.
Qed.

(** ** Inside a turn *)

Definition logged (a0 : MuxAcceptor) (reads : list byte) (log : MuxOutput) : Prop :=
  exists ops a', Forall op_ok ops /\ home_run a0 ops output_default = (a', log, Ok tt) /\ bytes_read ops `prefix_of` reads.

(** After a delivery: the invariant, or what a failed write leaves.  [fates] are
    the writes to come when the turn began. *)
Definition mid (a0 : MuxAcceptor) (reads : list byte) (fates : list bool) (h : Home) (ok : bool) : Prop :=
  if ok then exists log m t, home_inv a0 reads h log m t /\ write_fates h ⊆ fates
  else exists log, logged a0 reads log /\ weak h (mevents log) /\
    (close_reason (tally h) = close_code OwnerGone \/ close_reason (tally h) = close_code Open /\ false ∈ fates).

Lemma logged_inv a0 reads h log m t : home_inv a0 reads h log m t -> logged a0 reads log.
Proof. intros [(ops & ? & ? & <-) _ _ _ _ _ _ _ _ _]. by exists ops, (acceptor h). Qed.

Lemma logged_step a0 reads h log m t op a' o :
  home_inv a0 reads h log m t -> op_ok op -> match op with HFeed _ => False | _ => True end ->
  home_step (acceptor h) op = (a', Ok o) -> logged a0 reads (oapp log o).
Proof.
  intros [(ops & Hop & Hrun & <-) _ _ _ _ _ _ _ _ _] Hok Hnf Hst. exists (ops ++ [op]), a'. split_and!.
  - apply list.Forall_app. by repeat constructor.
  - rewrite (home_run_snoc ops _ _ _ _ op Hrun). cbn [home_run]. by rewrite Hst.
  - rewrite bytes_read_app. destruct op; [done|..]; by rewrite app_nil_r.
Qed.

(** A local operation and its delivery: [k] is the home before the delivery, [h]
    the one the invariant is about. *)
Lemma local_mid a0 reads h log m t op a' o k now h' ok t' :
  home_inv a0 reads h log m t -> op_ok op -> match op with HFeed _ => False | _ => True end ->
  home_step (acceptor h) op = (a', Ok o) -> mevents o = [] -> pongs (frames o) = 0 -> Forall encodable (frames o) ->
  deliver_output now o k = (h', ok) ->
  wire k = wire h -> tally k = tally h -> write_fates k = write_fates h ->
  (forall w, w `prefix_of` frames o -> wire_ext (streams k) (wire h) w) ->
  weak k (mevents log) ->
  (forall f, home_inv a0 reads (set_wire (wire k ++ frames o) f k) (oapp log o) m t') ->
  mid a0 reads (write_fates h) h' ok.
Proof.
  intros I Hop Hnf Hst He Hp Henc Hd Ew Et Ef Hx Hk Hinv.
  apply deliver_local in Hd as [(w & f & -> & Hw & Hf & Hok) Hc]; [|done..]. destruct ok.
  - exists (oapp log o), m, t'. rewrite (Hok eq_refl). split; [apply Hinv|]. cbn. by rewrite <- Ef.
  - exists (oapp log o). split; [by eapply logged_step|]. split; [|right].
    + cbn. rewrite He, app_nil_r. eapply (weak_ext k _ _ w); [done|rewrite Ew; auto|done..].
    + cbn. rewrite Et. split; [apply I|]. rewrite <- Ef. auto.
Qed.

Lemma eaten_nonneg (P : DriverCommand -> Prop) cmds sid : Forall (fun c => cmd_ok c /\ P c) cmds -> 0 <= eaten sid cmds.
Proof.
  induction 1 as [|c cs [Hc _] _ IH]; [done|]. change (c :: cs) with ([c] ++ cs). rewrite eaten_app.
  assert (0 <= eaten sid [c]); [|lia]. unfold eaten. destruct c; try done. cbn. destruct (_ =? _); [|done]. cbn in Hc. lia.
Qed.

Lemma others_one sid c : cmd_sid c <> Some sid -> others sid [c].
Proof. by repeat constructor. Qed.

(** The reading sides once the consumed bytes are booked. *)
Lemma consumed_inbound strs m t t' evs sid n rest :
  inbound strs m t evs (CConsumed sid n :: rest) ->
  (forall v, t !! sid = Some v -> t' !! sid = Some (v - n)) -> (forall i, sid <> i -> t' !! i = t !! i) ->
  inbound strs m t' evs rest.
Proof.
  intros [Hd Hc Hi] Ht Hne. split; [done|by apply Forall_cons_1 in Hc as [_ ?]|]. intros i x Hx.
  pose proof (Hi i x Hx) as [C1 C2 C3 C4 C5 C6 C7 C8]. split; try done. intros Hl. specialize (C4 Hl).
  change (CConsumed sid n :: rest) with ([CConsumed sid n] ++ rest) in C4. rewrite eaten_app in C4.
  destruct (decide (sid = i)) as [<-|Hn].
  - rewrite eaten_one in C4. rewrite (Ht _ C4). f_equal. lia.
  - rewrite others_eaten in C4 by (apply others_one; cbn; congruence). by rewrite Hne.
Qed.

Lemma mark_writable_none o h : writable_streams o = [] -> mark_writable_streams o h = h.
Proof. intros H. unfold mark_writable_streams. rewrite H. by destruct h. Qed.

Lemma consume_mid a0 reads h log m t sid n rest now :
  home_inv a0 reads h log m t -> commands h = CConsumed sid n :: rest ->
  match home_consume (acceptor h) sid n with
  | (a', Ok o) => forall h' ok,
      deliver_output now o (mark_writable_streams o (set_acceptor a' (set_commands rest h))) = (h', ok) ->
      mid a0 reads (write_fates h) h' ok
  | (a', Err Closed) => exists t', home_inv a0 reads (set_acceptor a' (set_commands rest h)) log m t'
  | _ => False
  end.
Proof.
  intros I Ec. pose proof (hv_in _ _ _ _ _ _ I) as Hin. rewrite Ec in Hin.
  pose proof (ib_cmds _ _ _ _ _ Hin) as [[Hn _] Hrest]%Forall_cons_1. cbn in Hn.
  assert (Hq : forall i, queued i [CConsumed sid n] = []) by done.
  destruct (hstreams (acceptor h) !! sid) as [s|] eqn:Es.
  - destruct (acceptor_live _ _ _ _ _ _ _ _ I Es) as (x & Hx & Hl).
    pose proof (in_owed _ _ _ _ _ _ (proj1 (inv_stream _ _ _ _ _ _ _ _ I Hx)) Hl) as Ho.
    pose proof (hv_owes _ _ _ _ _ _ I sid s Es) as Hs. rewrite Ho, Ec in Hs. injection Hs as Hs.
    change (CConsumed sid n :: rest) with ([CConsumed sid n] ++ rest) in Hs. rewrite eaten_app, eaten_one in Hs.
    pose proof (eaten_nonneg _ _ sid Hrest) as He.
    destruct (home_consume_spec _ m t sid n s (hv_cinv _ _ _ _ _ _ I) (hv_owes _ _ _ _ _ _ I) Es ltac:(lia))
      as (a' & o & Hco & Hc' & Hev & Hwr & Hctl & Hpo & Howes & Hsame).
    rewrite Hco. intros h' ok Hd. rewrite mark_writable_none in Hd by done.
    eapply (local_mid a0 reads h log m t (HConsume sid n)); [done|done|done|done|done|done|by apply control_encodable|done|done..| | |].
    + intros w Hw. apply (wire_ext_control a0 reads h log m t); [done|]. by eapply prefix_Forall.
    + apply weak_inv in I. by destruct I.
    + intros f. eapply (local_step a0 reads h log m t (HConsume sid n)); [done|done|done|done|done|done|done|done|done|done|apply I|done| |].
      * eapply consumed_inbound; [done| |].
        -- intros v Hv. rewrite lookup_insert_eq. cbn. f_equal. rewrite Ho in Hv. injection Hv as Hv. rewrite <- Hv, Ec.
           change (CConsumed sid n :: rest) with ([CConsumed sid n] ++ rest). rewrite eaten_app, eaten_one. lia.
        -- intros i Hne. by rewrite lookup_insert_ne.
      * destruct (hv_out _ _ _ _ _ _ I) as [HK Hout]. split; cbn.
        -- apply keyed_wire; [done|]. intros i _. by apply control_sent.
        -- intros i y Hy. destruct (control_sent _ Hctl i) as [E1 E2]. apply (out_ok_acceptor (acceptor h)); [by apply Hsame|done|done|].
           eapply out_ok_pop; [apply Hq|]. rewrite <- Ec. by apply Hout.
  - unfold home_consume. rewrite Es. exists (alter (fun v => v - n) sid t).
    destruct I as [J1 J2 J3 J4 J5 J6 J7 _ [HK Hout] J10]. split; try done; cbn.
    + intros i s Hi. rewrite lookup_alter_ne by congruence. by apply J4.
    + eapply consumed_inbound; [done| |].
      * intros v Hv. by rewrite lookup_alter_eq, Hv.
      * intros i Hne. by rewrite lookup_alter_ne.
    + split; [done|]. intros i y Hy. cbn. eapply out_ok_pop; [apply Hq|]. rewrite <- Ec. by apply Hout.
Qed.

(** *** Discarding what a stream still had to send *)

#[local] Arguments discard_pending_stream : simpl never.

Lemma discard_streams sid h i :
  streams (discard_pending_stream sid h) !! i =
  (fun x => if decide (i = sid) then match pending h !! sid with Some q => release_staging (len q) x | None => x end else x)
  <$> streams h !! i.
Proof.
  unfold discard_pending_stream. destruct (pending h !! sid) as [q|]; cbn [streams set_queues on_stream set_streams].
  - case_decide as E; [subst; by rewrite lookup_alter_eq|]. rewrite lookup_alter_ne by done. by destruct (streams h !! i).
  - case_decide; by destruct (streams h !! i).
Qed.

Lemma discard_same sid h :
  acceptor (discard_pending_stream sid h) = acceptor h /\ commands (discard_pending_stream sid h) = commands h /\
  wire (discard_pending_stream sid h) = wire h /\ tally (discard_pending_stream sid h) = tally h /\
  running (discard_pending_stream sid h) = running h /\ write_fates (discard_pending_stream sid h) = write_fates h /\
  pending (discard_pending_stream sid h) = delete sid (pending h) /\
  ready (discard_pending_stream sid h) = filter (fun i => i <> sid) (ready h) /\
  closing (discard_pending_stream sid h) = closing h ∖ {[sid]}.
Proof. unfold discard_pending_stream. by destruct (pending h !! sid). Qed.

Lemma discard_dom sid h i : is_Some (streams (discard_pending_stream sid h) !! i) <-> is_Some (streams h !! i).
Proof. rewrite discard_streams. apply fmap_is_Some. Qed.

Lemma discard_inbound sid h m t evs cmds :
  inbound (streams h) m t evs cmds -> inbound (streams (discard_pending_stream sid h)) m t evs cmds.
Proof.
  intros [Hd Hc Hi]. split.
  - intros i. rewrite discard_dom. apply Hd.
  - eapply list.Forall_impl; [exact Hc|]. intros c [? ?]. split; [done|]. destruct (cmd_sid c); [|done]. by rewrite discard_dom.
  - intros i x. rewrite discard_streams. destruct (streams h !! i) as [y|] eqn:E; [|done]. cbn. intros [= <-].
    pose proof (Hi i y E) as H. case_decide; [|done]. destruct (pending h !! sid); [by eapply in_ok_same; [..|exact H]|done].
Qed.

Lemma out_ok_discard sid h a' w x :
  hstreams a' !! sid = None ->
  out_ok (acceptor h) (pending h) (ready h) (closing h) (wire h) (commands h) sid x ->
  sent sid w = [] -> close_sent sid w = false ->
  out_ok a' (delete sid (pending h)) (filter (fun i => i <> sid) (ready h)) (closing h ∖ {[sid]}) (wire h ++ w) (commands h) sid
    match pending h !! sid with Some q => release_staging (len q) x | None => x end.
Proof.
  intros Hn [Hst Hwak Hpre Hwh Hcl Hop Hloc Hcg Hord Hwake Hends] Hs Hc.
  set (x' := match pending h !! sid with Some q => release_staging (len q) x | None => x end).
  assert (Hx' : put x' = put x /\ write_shutdown x' = write_shutdown x /\
    len (queued sid (commands h)) <= staged_bytes x' <= MAX_STAGED_WRITE_BYTES_PER_STREAM /\
    (write_waker x' = true -> staged_bytes x' = MAX_STAGED_WRITE_BYTES_PER_STREAM)).
  { unfold x'. destruct (pending h !! sid) as [q|]; cbn in Hst |- *; [unfold saturating_sub|]; split_and!; try done; lia. }
  destruct Hx' as (E1 & E2 & Hst' & Hwak').
  split; rewrite ?sent_app, ?close_sent_app, ?Hs, ?Hc, ?app_nil_r, ?orb_false_r, ?E1, ?E2, ?lookup_delete_eq, ?Hn; try done.
  - intros H. destruct (Hcl H) as (? & ? & _). by split_and!.
  - intros H. destruct (Hop H). split; [done|set_solver].
  - set_solver.
  - set_solver.
Qed.

Lemma discard_outbound sid h a' w f :
  outbound h -> hstreams a' = delete sid (hstreams (acceptor h)) -> Forall control_frame w ->
  outbound (set_wire (wire h ++ w) f (set_acceptor a' (discard_pending_stream sid h))).
Proof.
  intros [[K1 K2 K3 K4] Hout] Ha Hw. destruct (discard_same sid h) as (_ & Ec & _ & _ & _ & _ & Ep & Er & Ecl).
  split; cbn; rewrite ?Ec, ?Ep, ?Er, ?Ecl.
  - split.
    + intros i. rewrite discard_dom, lookup_delete_is_Some. intros [_ ?]. by apply K1.
    + intros i. rewrite discard_dom, list_elem_of_filter. intros [_ ?]. by apply K2.
    + intros i. rewrite discard_dom, elem_of_difference. intros [? _]. by apply K3.
    + intros i Hi. destruct (control_sent w Hw i) as [E1 E2].
      rewrite sent_app, close_sent_app, E1, E2, app_nil_r, orb_false_r. apply K4.
      apply eq_None_not_Some. rewrite <- (discard_dom sid h), Hi. by intros [? ?].
  - intros i x. rewrite discard_streams. destruct (streams h !! i) as [y|] eqn:E; [|done]. cbn. intros [= <-].
    destruct (control_sent w Hw i) as [E1 E2]. pose proof (Hout i y E) as Ho. case_decide as Hne.
    + subst i. apply out_ok_discard; [by rewrite Ha, lookup_delete_eq|done..].
    + apply (out_ok_acceptor (acceptor h)); [|done|done|].
      * rewrite Ha. intros s'. rewrite lookup_delete_ne by done. eauto.
      * destruct Ho as [Hst Hwak Hpre Hwh Hcl Hop Hloc Hcg Hord Hwake Hends].
        split; rewrite ?lookup_delete_ne by done; try done.
        -- intros H. destruct (Hop H). split; [done|set_solver].
        -- set_solver.
        -- intros q Hq. destruct (Hwake q Hq); [left; by apply list_elem_of_filter|by right].
        -- intros Hi. destruct (Hends ltac:(set_solver)); [left; by apply list_elem_of_filter|by right].
Qed.

Lemma pongs_one f : flags f <> FLAG_PONG -> pongs [f] = 0.
Proof. intros H. unfold pongs. cbn. unfold is_pong. rewrite (proj2 (Z.eqb_neq _ _) H), andb_false_r. done. Qed.

Lemma set_wire_self h : set_wire (wire h) (write_fates h) h = h.
Proof. by destruct h. Qed.

Lemma set_acceptor_self h : set_acceptor (acceptor h) h = h.
Proof. by destruct h. Qed.

(** A stream the acceptor no longer has. *)
Lemma discard_inv a0 reads h log m t sid :
  home_inv a0 reads h log m t -> hstreams (acceptor h) !! sid = None ->
  home_inv a0 reads (discard_pending_stream sid h) log m t.
Proof.
  intros I Hn. destruct (discard_same sid h) as (Ea & Ec & Ew & Et & Er & Ef & _).
  pose proof (discard_outbound sid h (acceptor h) [] (write_fates h) (hv_out _ _ _ _ _ _ I)
    (eq_sym (delete_id _ _ Hn)) (Forall_nil_2 _)) as Ho.
  rewrite app_nil_r in Ho. rewrite <- Ea in Ho at 1. rewrite set_acceptor_self in Ho.
  rewrite <- Ew, <- Ef, set_wire_self in Ho.
  destruct I. split; rewrite ?Ea, ?Ec, ?Ew, ?Et, ?Er; try done. by apply discard_inbound.
Qed.

Lemma weak_discard h evs sid : weak h evs -> weak (discard_pending_stream sid h) evs.
Proof.
  destruct (discard_same sid h) as (_ & _ & Ew & Et & _).
  intros [H1 H2 H3 H4 H5]. split; rewrite ?Ew, ?Et; try done.
  all: intros i x; rewrite discard_streams; destruct (streams h !! i) as [y|] eqn:E; [|done]; cbn; intros [= <-].
  all: pose proof (H1 i y E); pose proof (H2 i y E); pose proof (H3 i y E); pose proof (H4 i y E).
  all: case_decide; [|done]; destruct (pending h !! sid); [|done]; try done.
  cbn. unfold saturating_sub. unfold MAX_STAGED_WRITE_BYTES_PER_STREAM, INITIAL_WINDOW in *. lia.
Qed.

Lemma reset_mid a0 reads h log m t sid r now :
  home_inv a0 reads h log m t ->
  match home_reset (acceptor h) sid r with
  | (a', Ok o) => forall h' ok, deliver_output now o (set_acceptor a' (discard_pending_stream sid h)) = (h', ok) ->
      mid a0 reads (write_fates h) h' ok
  | (a', Err Closed) => home_inv a0 reads (set_acceptor a' (discard_pending_stream sid h)) log m t
  | _ => False
  end.
Proof.
  intros I. pose proof (home_reset_good (acceptor h) m sid r (hv_cinv _ _ _ _ _ _ I)) as Hg.
  pose proof (discard_same sid h) as (Ea & Ec & Ew & Et & Er & Ef & _).
  destruct (home_reset (acceptor h) sid r) as [a' res] eqn:Hr. unfold home_reset in Hr. case_bool_decide as Hs; injection Hr as <- <-.
  - destruct Hg as [Hc' _]. cbn [fst] in Hc'. intros h' ok Hd.
    assert (Hctl : Forall control_frame [reset sid (reason_code r)]) by (repeat constructor; apply control_reset).
    assert (Hst : home_step (acceptor h) (HReset sid r) =
      (home_remove_stream (acceptor h) sid, Ok (push_frame output_default (reset sid (reason_code r)))))
      by (cbn [home_step]; unfold home_reset; by rewrite bool_decide_eq_true_2).
    eapply (local_mid a0 reads h log m t (HReset sid r)); [done|done|done|done|done|by apply pongs_one|by apply control_encodable|done|done..| | |].
    + intros w Hw i x Hx. destruct (control_sent w (prefix_Forall _ _ _ Hw Hctl) i) as [E1 E2].
      rewrite sent_app, close_sent_app, E1, E2, app_nil_r, orb_false_r. rewrite <- Ew.
      pose proof (weak_discard h _ sid (weak_inv _ _ _ _ _ _ I)) as []. eauto.
    + pose proof (weak_discard h _ sid (weak_inv _ _ _ _ _ _ I)) as []. by split.
    + intros f. eapply (local_step a0 reads h log m t (HReset sid r)); [done|done|done|done|done|by apply pongs_one|done|done| | | | | |].
      * cbn. by rewrite Ew.
      * done.
      * cbn. rewrite Er. apply I.
      * intros i s. cbn. rewrite lookup_delete_Some. intros [_ ?]. by apply I.
      * cbn. rewrite Ec. apply discard_inbound. apply I.
      * cbn. rewrite Ew. apply discard_outbound; [apply I|done|done].
  - rewrite <- Ea, set_acceptor_self. apply discard_inv; [done|]. by apply eq_None_not_Some.
Qed.

(** *** Flushing *)

Lemma queues_inv a0 reads h log m t p r c :
  home_inv a0 reads h log m t -> keyed (streams h) p r c (wire h) ->
  (forall i x, streams h !! i = Some x ->
     out_ok (acceptor h) (pending h) (ready h) (closing h) (wire h) (commands h) i x ->
     out_ok (acceptor h) p r c (wire h) (commands h) i x) ->
  home_inv a0 reads (set_queues p r c h) log m t.
Proof. intros [] HK Ho. destruct hv_out as [_ Hout]. split; try done. split; [done|]. intros i x Hx. cbn. auto. Qed.

(** The head of the ready queue, with nothing pending and no close to send. *)
Lemma unready_inv a0 reads h log m t sid :
  home_inv a0 reads (set_queues (pending h) (sid :: ready h) (closing h) h) log m t ->
  pending h !! sid = None ->
  home_inv a0 reads (set_queues (pending h) (ready h) (closing h ∖ {[sid]}) h) log m t.
Proof.
  intros I Hp. pose proof (queues_inv _ _ _ _ _ _ (pending h) (ready h) (closing h ∖ {[sid]}) I) as H. apply H; cbn.
  - destruct (hv_out _ _ _ _ _ _ I) as [[K1 K2 K3 K4] _]. split; try done; set_solver.
  - intros i x _ [Hst Hwak Hpre Hwh Hcl Hop Hloc Hcg Hord Hwake Hends]. split; try done.
    + intros Hw. destruct (Hop Hw). split; [done|set_solver].
    + set_solver.
    + intros q Hq. destruct (Hwake q Hq) as [Hi|?]; [|by right]. left. apply elem_of_cons in Hi as [->|?]; [congruence|done].
    + intros Hi. destruct (Hends ltac:(set_solver)) as [Hr|?]; [|by right]. left. set_solver.
Qed.

Lemma close_write_spec a m sid :
  cinv a m ->
  match close_write a sid with
  | (a', Ok o) => exists s, hstreams a !! sid = Some s /\ o = push_frame output_default (mkFrame sid FLAG_CLOSE []) /\ cinv a' m /\
      (forall i, i <> sid -> hstreams a' !! i = hstreams a !! i) /\
      (forall s', hstreams a' !! sid = Some s' -> local_closed s' = true /\ debited_not_consumed s' = debited_not_consumed s)
  | (a', Err Closed) => a' = a
  | _ => False
  end.
Proof.
  intros Hc. pose proof (close_write_good a m sid Hc) as [Hc' _]. revert Hc'. unfold close_write.
  destruct (hstreams a !! sid) as [s|] eqn:E; [|done]. destruct (local_closed s) eqn:El; [done|].
  destruct (peer_closed s) eqn:Ep; cbn [fst]; intros Hc'; exists s; split_and!; try done; cbn.
  - intros i Hi. by rewrite delete_insert_eq, lookup_delete_ne.
  - intros s'. by rewrite lookup_delete_eq.
  - intros i Hi. by rewrite lookup_insert_ne.
  - intros s'. rewrite lookup_insert_eq. by intros [= <-].
Qed.

Lemma sent_close sid i : sent i [mkFrame sid FLAG_CLOSE []] = [].
Proof. unfold sent. cbn. by rewrite andb_false_r. Qed.

Lemma close_sent_one sid i : close_sent i [mkFrame sid FLAG_CLOSE []] = (sid =? i).
Proof. unfold close_sent. cbn. by rewrite andb_true_r, orb_false_r. Qed.

(** A stream closed after all its bytes: the wire and the acceptor agree. *)
Lemma out_ok_closed a a' p r c w cmds sid x s :
  hstreams a !! sid = Some s -> sid ∈ c -> p !! sid = None ->
  (forall s', hstreams a' !! sid = Some s' -> local_closed s' = true) ->
  out_ok a p (sid :: r) c w cmds sid x ->
  out_ok a' p r (c ∖ {[sid]}) (w ++ [mkFrame sid FLAG_CLOSE []]) cmds sid x.
Proof.
  intros Hs Hin Hp Ha' [Hst Hwak Hpre Hwh Hcl Hop Hloc Hcg Hord Hwake Hends].
  specialize (Hwh ltac:(by rewrite Hs)). rewrite Hp, (Hcg Hin) in Hwh. cbn in Hwh. rewrite app_nil_r in Hwh.
  assert (Hshut : write_shutdown x = true) by (destruct (write_shutdown x) eqn:E; [done|]; by destruct (Hop eq_refl)).
  split; rewrite ?sent_app, ?sent_close, ?app_nil_r, ?Hp, ?(Hcg Hin), ?app_nil_r; try done.
  - rewrite Hp, (Hcg Hin) in Hst. done.
  - congruence.
  - set_solver.
Qed.

Lemma finish_close_mid a0 reads h log m t sid now h' ok :
  home_inv a0 reads (set_queues (pending h) (sid :: ready h) (closing h) h) log m t ->
  pending h !! sid = None -> finish_close now sid h = (h', ok) -> mid a0 reads (write_fates h) h' ok.
Proof.
  intros I Hp. pose proof (unready_inv _ _ _ _ _ _ _ I Hp) as J. unfold finish_close. case_bool_decide as Hin.
  2:{ intros [= <- <-]. exists log, m, t. split; [|done]. replace (closing h ∖ {[sid]}) with (closing h) in J by set_solver.
      by destruct h. }
  set (k := set_queues (pending h) (ready h) (closing h ∖ {[sid]}) h) in *.
  pose proof (close_write_spec (acceptor k) m sid (hv_cinv _ _ _ _ _ _ J)) as Hs.
  destruct (close_write (acceptor k) sid) as [a' [o|[]|]] eqn:Ecw; try done.
  2:{ subst a'. intros [= <- <-]. replace (set_acceptor _ _) with k by (by destruct h). by exists log, m, t. }
  destruct Hs as (s & Es & -> & Hc' & Hoth & Hloc). intros Hd.
  set (o := push_frame output_default (mkFrame sid FLAG_CLOSE [])) in *.
  destruct (hv_out _ _ _ _ _ _ I) as [[K1 K2 K3 K4] Hout]. cbn in K1, K2, K3, K4, Hout.
  assert (Hcl : forall i x, streams h !! i = Some x ->
    out_ok a' (pending h) (ready h) (closing h ∖ {[sid]}) (wire h ++ frames o) (commands h) i x).
  { intros i x Hx. destruct (decide (i = sid)) as [->|Hne].
    - eapply out_ok_closed; [exact Es|done|done|by intros s' []%Hloc|by apply Hout].
    - apply (out_ok_acceptor (acceptor k)); [rewrite (Hoth i Hne); eauto|apply sent_close| |].
      + change (close_sent i [mkFrame sid FLAG_CLOSE []] = false). rewrite close_sent_one. lia.
      + by apply (hv_out _ _ _ _ _ _ J). }
  eapply (local_mid a0 reads k log m t (HCloseWrite sid)); [done|done|done|done|done|by apply pongs_one| |exact Hd|done..| | |].
  - repeat constructor. by eexists.
  - intros w Hw i x Hx. destruct Hw as [w' Hw].
    destruct w as [|f [|]]; [rewrite app_nil_r; apply weak_inv in J as []; eauto| |destruct w'; discriminate Hw].
    injection Hw as <- Hw. destruct w'; [|discriminate Hw]. pose proof (Hcl i x Hx) as [_ _ ? _ H _ _ _ _ _ _].
    split; [done|]. intros Hcs. by destruct (H Hcs) as (? & ? & _).
  - apply weak_inv in J as []. by split.
  - intros f. eapply (local_step a0 reads k log m t (HCloseWrite sid)); [done|done|done|done|done|by apply pongs_one|done|done|done|done|apply J| |apply J|].
    + intros i s' Hi. destruct (decide (i = sid)) as [->|Hne].
      * destruct (Hloc _ Hi) as [_ ->]. by apply J.
      * rewrite (Hoth i Hne) in Hi. by apply J.
    + split; [|exact Hcl]. cbn. apply keyed_wire; [apply J|]. intros i Hi.
      change (sent i [mkFrame sid FLAG_CLOSE []] = [] /\ close_sent i [mkFrame sid FLAG_CLOSE []] = false).
      rewrite sent_close, close_sent_one. split; [done|].
      destruct (Z.eqb_spec sid i) as [<-|]; [|done]. destruct (K3 sid Hin) as [? ?]. congruence.
Qed.

Lemma mid_mono a0 reads fates fates' h ok : fates ⊆ fates' -> mid a0 reads fates h ok -> mid a0 reads fates' h ok.
Proof.
  intros Hs. destruct ok; cbn.
  - intros (log & m & t & I & Hf). exists log, m, t. split; [done|set_solver].
  - intros (log & Hl & Hw & H). exists log. split_and!; [done..|]. destruct H as [?|[? ?]]; [by left|right; split; [done|set_solver]].
Qed.

Lemma try_send_spec a m sid bytes :
  cinv a m -> len bytes <= RECOMMENDED_CHUNK ->
  match try_send_data a sid bytes with
  | (a', Ok (Some o)) => exists s, hstreams a !! sid = Some s /\ local_closed s = false /\
      o = mkMuxOutput [mkFrame sid FLAG_DATA bytes] [] [] [] /\ cinv a' m /\
      (forall i, i <> sid -> hstreams a' !! i = hstreams a !! i) /\
      (forall s', hstreams a' !! sid = Some s' -> local_closed s' = false /\ debited_not_consumed s' = debited_not_consumed s)
  | (a', Ok None) => a' = a /\ exists s, hstreams a !! sid = Some s /\ hsend_credit s < len bytes
  | (a', Err Closed) => a' = a /\ forall s, hstreams a !! sid = Some s -> local_closed s = true
  | _ => False
  end.
Proof.
  intros Hc Hl. pose proof (try_send_good a m sid bytes Hc) as [Hc' _]. revert Hc'. cbn [home_step]. unfold try_send_data.
  replace (len bytes >? RECOMMENDED_CHUNK) with false by lia.
  destruct (hstreams a !! sid) as [s|] eqn:E; [|by intros _; split; [|intros s; congruence]].
  destruct (local_closed s) eqn:El; [intros _; split; [done|intros s'; congruence]|].
  destruct (Z.gtb_spec (len bytes) (hsend_credit s)) as [Hb|Hb]; [by intros _; split; [|exists s]|].
  unfold checked_sub. rewrite (proj2 (Z.leb_le _ _)) by lia. cbn [fst]. intros Hc'. exists s. split_and!; try done; cbn.
  - intros i Hi. by rewrite lookup_insert_ne.
  - intros s'. rewrite lookup_insert_eq. by intros [= <-].
Qed.

Lemma discard_ready sid p r c h :
  discard_pending_stream sid (set_queues p (sid :: r) c h) = discard_pending_stream sid (set_queues p r c h).
Proof.
  unfold discard_pending_stream. cbn [pending set_queues]. destruct (p !! sid); cbn [pending ready closing set_queues on_stream set_streams streams].
  all: by rewrite list.filter_cons, decide_False by (intros H; by apply H).
Qed.

(** The queue of a ready stream replaced by what is left of it. *)
Lemma requeue_inv a0 reads h log m t sid q q' :
  home_inv a0 reads (set_queues (pending h) (sid :: ready h) (closing h) h) log m t ->
  pending h !! sid = Some q -> (q = [] /\ q' = None \/ hstreams (acceptor h) !! sid = None /\ len (default [] q') <= len q) ->
  home_inv a0 reads (set_queues (partial_alter (fun _ => q') sid (pending h)) (sid :: ready h) (closing h) h) log m t.
Proof.
  intros I Hp Hq. pose proof (queues_inv _ _ _ _ _ _ (partial_alter (fun _ => q') sid (pending h)) (sid :: ready h) (closing h) I) as H.
  apply H; cbn.
  - destruct (hv_out _ _ _ _ _ _ I) as [[K1 K2 K3 K4] _]. split; try done. cbn in *. intros i.
    destruct (decide (sid = i)) as [<-|Hne]; [|rewrite lookup_partial_alter_ne by done; apply K1].
    intros _. apply K1. by rewrite Hp.
  - intros i x _ [Hst Hwak Hpre Hwh Hcl Hop Hloc Hcg Hord Hwake Hends].
    destruct (decide (sid = i)) as [<-|Hne]; [|by split; rewrite ?lookup_partial_alter_ne by done].
    rewrite Hp in Hst. split; rewrite ?lookup_partial_alter_eq; try done; try (by intros; left; left).
    + cbn in Hst. destruct Hq as [[-> ->]|[_ ?]]; cbn in *; lia.
    + intros Hs. destruct Hq as [[-> ->]|[Hn _]]; [|rewrite Hn in Hs; by destruct Hs].
      specialize (Hwh Hs). by rewrite Hp in Hwh.
    + intros s Hs Hl. destruct (Hloc s Hs Hl) as (_ & ? & _). congruence.
Qed.

Lemma ready_inv a0 reads h log m t r :
  home_inv a0 reads h log m t -> (forall i, i ∈ ready h <-> i ∈ r) -> home_inv a0 reads (set_queues (pending h) r (closing h) h) log m t.
Proof.
  intros I Hr. apply queues_inv; [done|..].
  - destruct (hv_out _ _ _ _ _ _ I) as [[K1 K2 K3 K4] _]. split; try done. intros i Hi. by apply K2, Hr.
  - intros i x _ []. split; try done.
    + intros q Hq. rewrite <- Hr. auto.
    + intros Hi. rewrite <- Hr. auto.
Qed.

Lemma sent_data sid bytes i : sent i [mkFrame sid FLAG_DATA bytes] = if sid =? i then bytes else [].
Proof. unfold sent. cbn. rewrite andb_true_r. destruct (sid =? i); [cbn; apply app_nil_r|done]. Qed.

Lemma close_sent_data sid bytes i : close_sent i [mkFrame sid FLAG_DATA bytes] = false.
Proof. unfold close_sent. cbn. by rewrite andb_false_r. Qed.

(** A chunk moved from the queue to the wire, its staging released. *)
Lemma out_ok_sent a a' p r c w cmds sid x s bytes rest :
  hstreams a !! sid = Some s -> local_closed s = false -> p !! sid = Some (bytes ++ rest) ->
  (forall s', hstreams a' !! sid = Some s' -> local_closed s' = false) ->
  out_ok a p r c w cmds sid x -> sid ∈ r ->
  let w' := w ++ [mkFrame sid FLAG_DATA bytes] in
  sent sid w' `prefix_of` put x /\ close_sent sid w' = false /\
  out_ok a' (<[sid := rest]> p) r c w' cmds sid (release_staging (len bytes) x).
Proof.
  intros Hs Hnl Hp Ha' [Hst Hwak Hpre Hwh Hcl Hop Hloc Hcg Hord Hwake Hends] Hr. cbv zeta.
  specialize (Hwh ltac:(by rewrite Hs)). rewrite Hp in Hwh, Hst. cbn in Hwh, Hst. rewrite length_app in Hst.
  assert (Hnc : close_sent sid w = false).
  { destruct (close_sent sid w) eqn:E; [|done]. destruct (Hcl eq_refl) as (_ & _ & H). rewrite (H s Hs) in Hnl. done. }
  rewrite sent_app, sent_data, Z.eqb_refl, close_sent_app, close_sent_data, Hnc. split_and!; [|done|].
  { rewrite <- Hwh. exists (rest ++ queued sid cmds). by rewrite <- !app_assoc. }
  split; rewrite ?sent_app, ?sent_data, ?Z.eqb_refl, ?close_sent_app, ?close_sent_data, ?Hnc, ?lookup_insert_eq; cbn; try done; auto.
  - unfold saturating_sub. lia.
  - rewrite <- Hwh. exists (rest ++ queued sid cmds). by rewrite <- !app_assoc.
  - intros _. by rewrite <- Hwh, !app_assoc.
  - intros s' E. rewrite (Ha' s' E). done.
Qed.

Lemma data_chunk (q : list byte) :
  let count := Z.min (len q) RECOMMENDED_CHUNK in
  ztake count q ++ zdrop count q = q /\ len (ztake count q) = count /\ len (ztake count q) <= RECOMMENDED_CHUNK.
Proof. cbv zeta. split; [apply take_drop|]. rewrite length_take. unfold RECOMMENDED_CHUNK. lia. Qed.

Lemma send_inv a0 reads h log m t sid bytes rest a' f :
  home_inv a0 reads (set_queues (pending h) (sid :: ready h) (closing h) h) log m t ->
  pending h !! sid = Some (bytes ++ rest) -> len bytes <= RECOMMENDED_CHUNK ->
  let o := mkMuxOutput [mkFrame sid FLAG_DATA bytes] [] [] [] in
  let k := set_acceptor a' (set_queues (<[sid := rest]> (pending h)) (ready h) (closing h) h) in
  try_send_data (acceptor h) sid bytes = (a', Ok (Some o)) ->
  logged a0 reads (oapp log o) /\
  (forall w, w `prefix_of` frames o -> wire_ext (streams h) (wire h) w) /\
  let h2 := on_stream sid (release_staging (len bytes)) (set_wire (wire h ++ frames o) f k) in
  home_inv a0 reads (set_queues (pending h2) (sid :: ready h2) (closing h2) h2) (oapp log o) m t.
Proof.
  intros I Hp Hl o k Hts. set (hh := set_queues _ _ _ h) in I.
  pose proof (try_send_spec (acceptor h) m sid bytes (hv_cinv _ _ _ _ _ _ I) Hl) as Hs. rewrite Hts in Hs.
  destruct Hs as (s & Es & Hnl & _ & Hc' & Hoth & Hloc).
  assert (Hst : home_step (acceptor hh) (HSend sid bytes) = (a', Ok o)) by (cbn [home_step]; change (acceptor hh) with (acceptor h); by rewrite Hts).
  destruct (hv_out _ _ _ _ _ _ I) as [[K1 K2 K3 K4] Hout].
  assert (Hx : forall i x, streams h !! i = Some x -> let x' := if decide (sid = i) then release_staging (len bytes) x else x in
    sent i (wire h ++ frames o) `prefix_of` put x /\
    (close_sent i (wire h ++ frames o) = true -> sent i (wire h ++ frames o) = put x /\ write_shutdown x = true) /\
    out_ok a' (<[sid := rest]> (pending h)) (sid :: ready h) (closing h) (wire h ++ frames o) (commands h) i x').
  { intros i x Hi. pose proof (Hout i x Hi) as Ho. cbn in Ho. cbv zeta. case_decide as E.
    - subst i. destruct (out_ok_sent (acceptor h) a' (pending h) (sid :: ready h) (closing h) (wire h) (commands h) sid x s bytes rest)
        as (H1 & H2 & H3); [done|done|done|by intros s' []%Hloc|done|by left|]. split_and!; [done| |done]. change (frames o) with [mkFrame sid FLAG_DATA bytes]. rewrite H2. done.
    - assert (E1 : sent i (frames o) = []) by (unfold o; cbn; rewrite sent_data; by rewrite (proj2 (Z.eqb_neq _ _) E)).
      assert (E2 : close_sent i (frames o) = false) by apply close_sent_data.
      assert (Ho' : out_ok a' (<[sid := rest]> (pending h)) (sid :: ready h) (closing h) (wire h ++ frames o) (commands h) i x).
      { apply (out_ok_acceptor (acceptor h)); [rewrite Hoth by done; eauto|done|done|].
        destruct Ho. by split; rewrite ?lookup_insert_ne by done. }
      split_and!; [apply Ho'|intros Hc; by destruct (o_close _ _ _ _ _ _ _ _ Ho' Hc) as (? & ? & _)|done]. }
  split; [by eapply (logged_step _ _ _ _ _ _ (HSend sid bytes))|]. split.
  - intros w [w' Hw] i x Hi. destruct w as [|f0 [|]]; [rewrite app_nil_r; apply weak_inv in I as []; cbn in *; eauto| |destruct w'; discriminate Hw].
    injection Hw as <- Hw. destruct w'; [|discriminate Hw]. destruct (Hx i x Hi) as (? & ? & _). done.
  - cbv zeta.
    assert (Hdom : forall i, is_Some (alter (release_staging (len bytes)) sid (streams h) !! i) <-> is_Some (streams h !! i))
      by (intros i; apply lookup_alter_is_Some).
    eapply (local_step a0 reads hh log m t (HSend sid bytes)); [done|done|done|done|done|by apply pongs_one|done|done|done|done|apply I| | |].
    + intros i s' Hi. destruct (decide (i = sid)) as [->|Hne].
      * destruct (Hloc _ Hi) as [_ ->]. by apply I.
      * rewrite (Hoth i Hne) in Hi. by apply I.
    + destruct (hv_in _ _ _ _ _ _ I) as [Hd Hcm Hin]. cbn in Hd, Hcm, Hin. split; cbn.
      * intros i. rewrite Hdom. apply Hd.
      * eapply list.Forall_impl; [exact Hcm|]. intros c [? ?]. split; [done|]. destruct (cmd_sid c); [|done]. by rewrite Hdom.
      * intros i x. rewrite lookup_alter_Some. intros [(-> & y & Hy & ->)|[_ Hy]]; [|by apply Hin].
        by eapply in_ok_same; [..|apply (Hin _ _ Hy)].
    + split; cbn.
      * split.
        -- intros i. rewrite Hdom. destruct (decide (sid = i)) as [<-|Hne]; [|rewrite lookup_insert_ne by done; apply K1].
           intros _. apply K1. cbn. by rewrite Hp.
        -- intros i. rewrite Hdom. apply K2.
        -- intros i. rewrite Hdom. apply K3.
        -- intros i Hi. assert (Hn : streams h !! i = None) by (apply eq_None_not_Some; rewrite <- Hdom, Hi; by intros [? ?]).
           destruct (K4 i Hn) as [E1 E2]. cbn in E1, E2.
           rewrite sent_app, close_sent_app, E1, E2, sent_data, close_sent_data. destruct (Z.eqb_spec sid i) as [<-|]; [|done].
           destruct (K1 sid) as [? ?]; [cbn; by rewrite Hp|]. cbn in *. congruence.
      * intros i x. rewrite lookup_alter_Some. intros [(<- & y & Hy & ->)|[Hne Hy]]; destruct (Hx _ _ Hy) as (_ & _ & H).
        -- by rewrite decide_True in H.
        -- by rewrite decide_False in H.
Qed.

Lemma flush_send_mid a0 reads h log m t sid q now h' ok s :
  home_inv a0 reads (set_queues (pending h) (sid :: ready h) (closing h) h) log m t ->
  pending h !! sid = Some q -> is_live sid h = true -> q <> [] ->
  flush_round now sid h = (h', ok, s) -> mid a0 reads (write_fates h) h' ok.
Proof.
  intros I Hp Hl Hq. unfold flush_round. rewrite Hl, Hp. cbn [negb]. destruct (data_chunk q) as (Eq & Elen & Hch).
  set (bytes := ztake _ q) in *. set (rest := zdrop _ q) in *.
  pose proof (hv_cinv _ _ _ _ _ _ I) as Hc. pose proof (try_send_spec (acceptor h) m sid bytes Hc Hch) as Hs.
  destruct q as [|q0 qs]; [done|].
  destruct (try_send_data (acceptor h) sid bytes) as [a' [[o|]|[]|]] eqn:Ets; try done.
  - destruct Hs as (s0 & Es & Hnl & -> & _). rewrite <- Eq in Hp.
    pose proof (fun f => send_inv a0 reads h log m t sid bytes rest a' f I Hp Hch Ets) as Hsend.
    destruct (deliver_output _ _ _) as [h1 ok1] eqn:Hd.
    apply deliver_local in Hd as [(w & f & -> & Hw & Hf & Hok) Hcause]; [|done|by apply pongs_one].
    destruct (Hsend f) as (Hlog & Hext & Hinv). destruct ok1; cbn [negb].
    + rewrite (Hok eq_refl) in *. clear Hsend Hok Hcause. set (h2 := on_stream _ _ _) in *. cbv zeta in Hinv.
      assert (Hf2 : write_fates h2 ⊆ write_fates h) by done.
      assert (Hp2 : pending h2 !! sid = Some rest) by (cbn; apply lookup_insert_eq).
      destruct rest as [|r0 rs] eqn:Er.
      * destruct (finish_close _ _ _) as [h3 ok3] eqn:Hfc. intros [= <- <- <-]. eapply mid_mono; [exact Hf2|].
        refine (finish_close_mid a0 reads _ (oapp log _) m t _ _ _ _ _ _ Hfc); [|apply lookup_delete_eq].
        apply (requeue_inv _ _ h2 _ _ _ sid [] None Hinv Hp2). by left.
      * intros [= <- <- <-]. exists (oapp log (mkMuxOutput [mkFrame sid FLAG_DATA bytes] [] [] [])), m, t. split; [|done].
        apply (ready_inv _ _ _ _ _ _ (ready h2 ++ [sid])) in Hinv; [exact Hinv|]. intros i. cbn. set_solver.
    + intros [= <- <- <-]. eexists. split; [exact Hlog|]. split; [|right; split; [apply I|]].
      * cbn. rewrite app_nil_r. eapply (weak_ext h _ _ w); [by apply weak_inv in I as []|by apply Hext|done..].
      * apply Hcause; [done|]. constructor; [|constructor]. unfold encodable, encode. cbn.
        replace (len bytes >? MAX_PAYLOAD) with false by (unfold MAX_PAYLOAD, RECOMMENDED_CHUNK in *; lia). by eexists.
  - destruct Hs as [-> (s0 & Es & Hb)]. rewrite set_acceptor_self. intros [= <- <- <-]. exists log, m, t. split; [|done].
    pose proof (queues_inv _ _ _ _ _ _ (pending h) (ready h) (closing h) I) as H.
    replace (set_queues _ _ _ (set_queues _ _ _ h)) with h in H by (by destruct h). apply H; cbn.
    + destruct (hv_out _ _ _ _ _ _ I) as [[K1 K2 K3 K4] _]. split; try done. set_solver.
    + intros i x _ []. split; try done.
      * intros q' Hq'. destruct (decide (i = sid)) as [->|Hne]; [|destruct (o_wake q' Hq'); [left; set_solver|by right]].
        right. intros s' Hs'. rewrite Hp in Hq'. injection Hq' as <-. rewrite Es in Hs'. injection Hs' as <-. lia.
      * intros Hi. destruct (decide (i = sid)) as [->|Hne]; [right; by rewrite Hp|]. destruct (o_ends Hi); [left; set_solver|by right].
  - destruct Hs as [-> Hcl]. intros [= <- <- <-]. exists log, m, t. split; [|by rewrite (proj1 (proj2 (proj2 (proj2 (proj2 (proj2 (discard_same sid _)))))))].
    assert (Hn : hstreams (acceptor h) !! sid = None).
    { destruct (hstreams (acceptor h) !! sid) as [s0|] eqn:Es; [|done]. destruct (acceptor_live _ _ _ _ _ _ _ _ I Es) as (x & Hx & _).
      destruct (inv_stream _ _ _ _ _ _ _ _ I Hx) as [_ Ho]. destruct (o_local _ _ _ _ _ _ _ _ Ho s0 Es (Hcl s0 eq_refl)) as (_ & Hn & _).
      cbn in Hn. congruence. }
    replace (set_acceptor (acceptor h) _) with (set_queues (<[sid := rest]> (pending h)) (ready h) (closing h) h) by (by destruct h).
    rewrite <- discard_ready. apply discard_inv; [|done].
    apply (requeue_inv _ _ h _ _ _ sid (q0 :: qs) (Some rest) I Hp). right. split; [done|].
    change (len rest <= len (q0 :: qs)). rewrite <- Eq, length_app. lia.
Qed.

Lemma flush_round_mid a0 reads h log m t sid now h' ok s :
  home_inv a0 reads (set_queues (pending h) (sid :: ready h) (closing h) h) log m t ->
  flush_round now sid h = (h', ok, s) -> mid a0 reads (write_fates h) h' ok.
Proof.
  intros I H. destruct (is_live sid h) eqn:Hl.
  - destruct (pending h !! sid) as [[|q0 qs]|] eqn:Hp.
    + unfold flush_round in H. rewrite Hl, Hp in H. cbn [negb] in H.
      destruct (finish_close _ _ _) as [h1 ok1] eqn:Hfc. injection H as <- <- <-.
      refine (finish_close_mid a0 reads _ log m t _ _ _ _ _ _ Hfc); [|apply lookup_delete_eq].
      apply (requeue_inv _ _ h _ _ _ sid [] None I Hp). by left.
    + by eapply flush_send_mid.
    + unfold flush_round in H. rewrite Hl, Hp in H. cbn [negb] in H.
      destruct (finish_close now sid h) as [h1 ok1] eqn:Hfc. injection H as <- <- <-. by eapply finish_close_mid.
  - unfold flush_round in H. rewrite Hl in H. cbn [negb] in H. injection H as <- <- <-. exists log, m, t.
    split; [|by rewrite (proj1 (proj2 (proj2 (proj2 (proj2 (proj2 (discard_same sid h)))))))].
    unfold is_live in Hl. destruct (streams h !! sid) as [x|] eqn:Hx; [|done]. apply bool_decide_eq_false in Hl.
    assert (Hd : discard_pending_stream sid h = discard_pending_stream sid (set_queues (pending h) (sid :: ready h) (closing h) h)).
    { rewrite discard_ready. f_equal. by destruct h. }
    rewrite Hd. apply discard_inv; [done|]. by eapply not_live_absent.
Qed.

(** A round with nothing sent leaves one stream fewer to flush. *)
Lemma deliver_events_ready es : forall h, ready (fst (deliver_events es h)) = ready h.
Proof.
  induction es as [|e es IH]; intros h; [done|]. cbn [deliver_events].
  assert (Hr : ready (fst (deliver_event e h)) = ready h) by (destruct e; cbn; try done; by destruct (owner h)).
  destruct (deliver_event e h) as [h1 []]; cbn [fst] in *; [by rewrite IH|done].
Qed.

Lemma deliver_output_ready now o h : ready (fst (deliver_output now o h)) = ready h.
Proof.
  destruct (deliver_output now o h) as [h' ok] eqn:Hd. apply deliver_output_spec in Hd as [[_ [(w & f & -> & _) _]]|(h1 & [(w & f & -> & _) _] & Hd)].
  - done.
  - apply (f_equal fst) in Hd. cbn [fst] in Hd. cbn [fst]. by rewrite <- Hd, deliver_events_ready.
Qed.

Lemma discard_ready_le sid h : (length (ready (discard_pending_stream sid h)) <= length (ready h))%nat.
Proof. destruct (discard_same sid h) as (_ & _ & _ & _ & _ & _ & _ & -> & _). apply length_filter. Qed.

Lemma finish_close_ready now sid h : ready (fst (finish_close now sid h)) = ready h.
Proof.
  unfold finish_close. case_bool_decide; [|done]. destruct (close_write _ _) as [a' [o|[]|]]; cbn; try done.
  by rewrite deliver_output_ready.
Qed.

Lemma flush_round_ready now sid h h' ok : flush_round now sid h = (h', ok, false) -> (length (ready h') <= length (ready h))%nat.
Proof.
  unfold flush_round. destruct (is_live sid h); cbn [negb]; [|intros [= <- _]; apply discard_ready_le].
  destruct (pending h !! sid) as [[|q0 qs]|].
  - destruct (finish_close _ _ _) as [h1 ok1] eqn:E. apply (f_equal fst) in E. intros [= <- _]. cbn [fst] in E. by rewrite <- E, finish_close_ready.
  - destruct (try_send_data _ _ _) as [a' [[o|]|[]|]]; try (by intros [= <- _]).
    + destruct (deliver_output _ _ _) as [h1 []] eqn:E; apply (f_equal fst) in E; cbn [fst negb] in E |- *.
      * case_match; [|done]. destruct (finish_close _ _ _). done.
      * intros [= <- _]. by rewrite <- E, deliver_output_ready.
    + intros [= <- _]. etrans; [apply discard_ready_le|done].
  - destruct (finish_close _ _ _) as [h1 ok1] eqn:E. apply (f_equal fst) in E. intros [= <- _]. cbn [fst] in E. by rewrite <- E, finish_close_ready.
Qed.

Lemma flush_rounds_idle now n : forall p h h' ok,
  flush_rounds now n p h = (h', ok, false) -> ok = true -> (length (ready h) <= n)%nat -> ready h' = [].
Proof.
  induction n as [|n IH]; intros p h h' ok; cbn [flush_rounds].
  - intros [= <- _ _] _ H. by destruct (ready h); [|cbn in H; lia].
  - destruct (ready h) as [|sid rest] eqn:Er; [by intros [= <- _ _]|].
    destruct (flush_round _ _ _) as [[h1 ok1] s] eqn:Ef. destruct ok1; [|by intros [= _ <- _]].
    intros H -> Hl. destruct s.
    + rewrite orb_true_r in H. exfalso. revert H. clear. generalize h1. induction n as [|n IH]; intros h2; cbn [flush_rounds]; [done|].
      destruct (ready h2); [done|]. destruct (flush_round _ _ _) as [[h3 []] s]; [apply IH|done].
    + apply flush_round_ready in Ef. cbn in Ef, Hl. eapply IH; [exact H|done|lia].
Qed.

Lemma flush_rounds_mid a0 reads now n : forall p h log m t h' ok p',
  home_inv a0 reads h log m t -> flush_rounds now n p h = (h', ok, p') -> mid a0 reads (write_fates h) h' ok.
Proof.
  induction n as [|n IH]; intros p h log m t h' ok p' I; cbn [flush_rounds]; [intros [= <- <- <-]; by exists log, m, t|].
  destruct (ready h) as [|sid rest] eqn:Er; [intros [= <- <- <-]; by exists log, m, t|].
  destruct (flush_round _ _ _) as [[h1 ok1] s] eqn:Ef.
  apply (flush_round_mid a0 reads _ log m t) in Ef; [|cbn; rewrite <- Er; by destruct h]. cbn [write_fates set_queues] in Ef.
  destruct ok1; [|by intros [= <- <- <-]]. destruct Ef as (log1 & m1 & t1 & I1 & Hf). intros H. eapply mid_mono; [exact Hf|]. by eapply IH.
Qed.

(** ** Turns *)

Definition awake (h : Home) : Prop := ready h = [] \/ CWake ∈ commands h.

(** What a turn of the driver ends in; [fates] are the writes to come when it
    began and [allowed] the reasons it may stop for. *)
Inductive turn_ok (a0 : MuxAcceptor) (reads : list byte) (fates : list bool) (allowed : CarrierClose -> Prop) (h : Home) : Prop :=
| turn_alive log m t : home_inv a0 reads h log m t -> awake h -> write_fates h ⊆ fates -> turn_ok a0 reads fates allowed h
| turn_dead log r : logged a0 reads log -> ended h (mevents log) -> close_reason (tally h) = close_code r -> allowed r ->
    (r = WriteFailed -> false ∈ fates) -> turn_ok a0 reads fates allowed h.

Definition by_write (r : CarrierClose) : Prop := r = WriteFailed \/ r = OwnerGone.

Lemma stop_write_turn a0 reads fates h :
  mid a0 reads fates h false -> turn_ok a0 reads fates by_write (stop_with WriteFailed h).
Proof.
  intros (log & Hl & Hw & Hr). destruct Hr as [Hr|[Hr Hf]].
  - assert (Hk : tally_close WriteFailed (tally h) = tally h) by (unfold tally_close; by rewrite Hr).
    apply (turn_dead _ _ _ _ _ log OwnerGone); [done| |unfold stop_with; by rewrite Hk|by right|done].
    unfold stop_with. rewrite Hk, set_tally_self. apply ended_stop; [done|]. by rewrite Hr.
  - destruct (ended_with WriteFailed h (mevents log) Hw Hr ltac:(done)) as [He Hc].
    apply (turn_dead _ _ _ _ _ log WriteFailed); [done|done|done|by left|done].
Qed.

Lemma end_turn_ok a0 reads h log m t now :
  home_inv a0 reads h log m t -> turn_ok a0 reads (write_fates h) by_write (end_turn now h).
Proof.
  intros I. unfold end_turn, flush_ready. destruct (flush_rounds _ _ _ _) as [[h1 ok] p] eqn:Ef.
  pose proof (flush_rounds_mid _ _ _ _ _ _ _ _ _ _ _ _ I Ef) as Hm. destruct ok; cbn [negb].
  - destruct Hm as (log1 & m1 & t1 & I1 & Hf). destruct p; cbn [andb].
    + case_bool_decide as Hr; cbn [negb].
      * eapply turn_alive; [done|by left|done].
      * eapply turn_alive; [apply set_commands_inv; [done|by repeat constructor]|right; cbn; set_solver|done].
    + eapply turn_alive; [done|left; by eapply flush_rounds_idle|done].
  - by apply stop_write_turn.
Qed.

Lemma turn_mono a0 reads f f' (P Q : CarrierClose -> Prop) h :
  f ⊆ f' -> (forall r, P r -> Q r) -> turn_ok a0 reads f P h -> turn_ok a0 reads f' Q h.
Proof.
  intros Hf HP [log m t|log r]; [eapply turn_alive; [done|done|set_solver]|eapply turn_dead; [done|done|done|auto|]].
  intros Hr. set_solver.
Qed.

(** The end of a turn after a delivery. *)
Lemma delivered_turn a0 reads fates h ok now :
  mid a0 reads fates h ok ->
  turn_ok a0 reads fates by_write (if ok then end_turn now h else stop_with WriteFailed h).
Proof.
  destruct ok; [|apply stop_write_turn]. intros (log & m & t & I & Hf). eapply turn_mono; [exact Hf|done|]. by eapply end_turn_ok.
Qed.

(** *** Commands *)

Lemma push_ready_spec sid h :
  exists r, push_ready sid h = set_queues (pending h) r (closing h) h /\ forall i, i ∈ r <-> i ∈ ready h \/ i = sid.
Proof.
  unfold push_ready. case_bool_decide.
  - exists (ready h). split; [by destruct h|]. set_solver.
  - exists (ready h ++ [sid]). split; [done|]. set_solver.
Qed.

(** A queued write moved to the stream's pending bytes. *)
Lemma write_inv a0 reads h log m t sid bytes rest :
  home_inv a0 reads h log m t -> commands h = CWrite sid bytes :: rest ->
  home_inv a0 reads (push_ready sid (set_queues (<[sid := default [] (pending h !! sid) ++ bytes]> (pending h)) (ready h) (closing h)
    (set_commands rest h))) log m t.
Proof.
  intros I Ec. destruct (push_ready_spec sid (set_queues (<[sid := default [] (pending h !! sid) ++ bytes]> (pending h)) (ready h)
    (closing h) (set_commands rest h))) as (r & -> & Hr). cbn in Hr.
  pose proof (hv_in _ _ _ _ _ _ I) as Hin. rewrite Ec in Hin.
  pose proof (ib_cmds _ _ _ _ _ Hin) as [[Hne [x0 Hx0]] _]%Forall_cons_1. cbn in Hne, Hx0.
  destruct (hv_out _ _ _ _ _ _ I) as [[K1 K2 K3 K4] Hout].
  destruct I as [J1 J2 J3 J4 J5 J6 J7 _ _ J10]. split; try done; cbn.
  - by eapply inbound_pop; [|exact Hin].
  - split; cbn.
    + split; try done.
      * intros i. destruct (decide (sid = i)) as [<-|Hn]; [by rewrite Hx0|rewrite lookup_insert_ne by done; apply K1].
      * intros i [?| ->]%Hr; [by apply K2|by rewrite Hx0].
    + intros i x Hx. pose proof (Hout i x Hx) as Ho. rewrite Ec in Ho. destruct (decide (sid = i)) as [<-|Hn].
      * destruct Ho as [Hst Hwak Hpre Hwh Hcl Hop Hloc Hcg Hord Hwake Hends].
        change (CWrite sid bytes :: rest) with ([CWrite sid bytes] ++ rest) in *. rewrite queued_app, queued_one in *.
        split; rewrite ?lookup_insert_eq; try done.
        -- cbn. rewrite !length_app in *. lia.
        -- intros Hs. rewrite <- (Hwh Hs). cbn. by rewrite <- app_assoc.
        -- intros H. destruct (Hop H) as [Hn ?]. split; [|done]. set_solver.
        -- intros s Hs Hl. destruct (Hloc s Hs Hl) as (_ & _ & Hb). by destruct bytes.
        -- intros Hc. specialize (Hcg Hc). by destruct bytes.
        -- intros q _. left. apply Hr. by right.
        -- intros _. left. apply Hr. by right.
      * apply out_ok_pop in Ho; [|apply others_queued, others_one; cbn; congruence]. destruct Ho.
        split; rewrite ?lookup_insert_ne by done; try done.
        -- intros q Hq. destruct (o_wake q Hq); [left; apply Hr; by left|by right].
        -- intros Hc. destruct (o_ends Hc); [left; apply Hr; by left|by right].
Qed.

(** A queued close: the stream is closed once its pending bytes are out. *)
Lemma close_inv a0 reads h log m t sid rest :
  home_inv a0 reads h log m t -> commands h = CClose sid :: rest ->
  home_inv a0 reads (push_ready sid (set_queues (pending h) (ready h) ({[sid]} ∪ closing h) (set_commands rest h))) log m t.
Proof.
  intros I Ec. destruct (push_ready_spec sid (set_queues (pending h) (ready h) ({[sid]} ∪ closing h) (set_commands rest h))) as (r & -> & Hr).
  cbn in Hr. pose proof (hv_in _ _ _ _ _ _ I) as Hin. rewrite Ec in Hin.
  pose proof (ib_cmds _ _ _ _ _ Hin) as [[_ [x0 Hx0]] _]%Forall_cons_1. cbn in Hx0.
  destruct (hv_out _ _ _ _ _ _ I) as [[K1 K2 K3 K4] Hout].
  destruct I as [J1 J2 J3 J4 J5 J6 J7 _ _ J10]. split; try done; cbn.
  - by eapply inbound_pop; [|exact Hin].
  - split; cbn.
    + split; try done.
      * intros i [?| ->]%Hr; [by apply K2|by rewrite Hx0].
      * intros i [->%elem_of_singleton|?]%elem_of_union; [by rewrite Hx0|by apply K3].
    + intros i x Hx. pose proof (Hout i x Hx) as Ho. rewrite Ec in Ho.
      assert (Hq : sid = i -> queued i rest = [] /\ write_shutdown x = true).
      { intros <-. destruct Ho as [_ _ _ _ _ Hop _ _ Hord _ _]. cbn in Hord. split; [by apply Hord|].
        destruct (write_shutdown x); [done|]. destruct (Hop eq_refl) as [Hn _]. set_solver. }
      apply out_ok_pop in Ho; [|done]. destruct Ho as [Hst Hwak Hpre Hwh Hcl Hop Hloc Hcg Hord Hwake Hends]. split; try done.
      * intros H. destruct (Hop H) as [? ?]. split; [done|]. rewrite elem_of_union, elem_of_singleton. intros [->|?]; [|done].
        destruct (Hq eq_refl). congruence.
      * intros [->%elem_of_singleton|?]%elem_of_union; [by apply Hq|auto].
      * intros q Hqq. destruct (Hwake q Hqq); [left; apply Hr; by left|by right].
      * intros [->%elem_of_singleton|Hc]%elem_of_union; [left; apply Hr; by right|].
        destruct (Hends Hc); [left; apply Hr; by left|by right].
Qed.

Definition command_reasons (h : Home) (r : CarrierClose) : Prop :=
  by_write r \/ r = LocalClose /\ head (commands h) = Some CCloseConnection.

Lemma driver_command_ok a0 reads h log m t now :
  home_inv a0 reads h log m t -> awake h ->
  match driver_command now h with
  | Ok (Some h') => turn_ok a0 reads (write_fates h) (command_reasons h) h'
  | Ok None => commands h = []
  | _ => False
  end.
Proof.
  intros I Haw. unfold driver_command. destruct (commands h) as [|cmd rest] eqn:Ec; [done|].
  assert (Hmono : forall h', turn_ok a0 reads (write_fates h) by_write h' -> turn_ok a0 reads (write_fates h) (command_reasons h) h').
  { intros h'. apply turn_mono; [done|]. intros r Hw. by left. }
  assert (Hpop : (forall sid, eaten sid [cmd] = 0) -> (forall sid, queued sid [cmd] = []) -> home_inv a0 reads (set_commands rest h) log m t).
  { intros. by eapply pop_inv. }
  assert (Hreset : (forall sid, eaten sid [cmd] = 0) -> (forall sid, queued sid [cmd] = []) -> forall sid r,
    match local_output now (home_reset (acceptor (discard_pending_stream sid (set_commands rest h))) sid r) false false
      (discard_pending_stream sid (set_commands rest h)) with
    | Ok h' => turn_ok a0 reads (write_fates h) (command_reasons h) h' | _ => False end).
  { intros He Hq sid r. pose proof (reset_mid a0 reads _ log m t sid r now (Hpop He Hq)) as Hm. unfold local_output.
    destruct (discard_same sid (set_commands rest h)) as (-> & _). cbn [acceptor set_commands] in *.
    destruct (home_reset (acceptor h) sid r) as [a' [o|[]|]]; try done.
    - destruct (deliver_output _ _ _) as [h1 ok] eqn:Hd. apply Hmono, delivered_turn. by eapply Hm.
    - apply Hmono. eapply turn_mono; [|done|by eapply end_turn_ok]. cbn.
      by rewrite (proj1 (proj2 (proj2 (proj2 (proj2 (proj2 (discard_same sid (set_commands rest h)))))))). }
  destruct cmd as [sid bytes|sid n|sid|sid|sid r| |].
  - cbn. apply Hmono. pose proof (write_inv _ _ _ _ _ _ _ _ _ I Ec) as J. eapply turn_mono; [|done|by eapply end_turn_ok].
    unfold push_ready. by case_bool_decide.
  - pose proof (consume_mid _ _ _ _ _ _ _ _ _ now I Ec) as Hm. unfold local_output. cbn [acceptor set_commands].
    destruct (home_consume (acceptor h) sid n) as [a' [o|[]|]]; try done.
    + destruct (deliver_output _ _ _) as [h1 ok] eqn:Hd. cbn. apply Hmono, delivered_turn. by eapply Hm.
    + destruct Hm as [t' J]. cbn. eapply turn_alive; [exact J| |done]. destruct Haw as [?|Hw]; [by left|right].
      rewrite Ec in Hw. cbn. set_solver.
  - cbn. apply Hmono. pose proof (close_inv _ _ _ _ _ _ _ _ I Ec) as J. eapply turn_mono; [|done|by eapply end_turn_ok].
    unfold push_ready. by case_bool_decide.
  - cbn -[local_output]. specialize (Hreset ltac:(done) ltac:(done) sid Cancel). by destruct (local_output _ _ _ _ _).
  - cbn -[local_output]. specialize (Hreset ltac:(done) ltac:(done) sid r). by destruct (local_output _ _ _ _ _).
  - cbn. apply Hmono. exact (end_turn_ok _ _ _ _ _ _ now (Hpop ltac:(done) ltac:(done))).
  - cbn. destruct (ended_with LocalClose (set_commands rest h) (mevents log)) as [He Hc]; [|apply I|done|].
    + by apply weak_inv in I as [].
    + eapply turn_dead; [by eapply logged_inv|exact He|exact Hc|right; split; [done|by rewrite Ec]|done].
Qed.

(** *** Events *)

Definition wside (x : HomeStream) := (staged_bytes x, write_waker x, put x, write_shutdown x).

(** Events touch the reading side only; a new stream starts empty. *)
Definition grown (strs strs' : gmap Z HomeStream) : Prop :=
  forall i x', strs' !! i = Some x' ->
    match strs !! i with Some x => wside x' = wside x | None => wside x' = wside home_stream_new end.

(** A delivery of events changes the streams, the accept queue and, when the
    owner is gone, the tally. *)
Record announced (h h' : Home) (ok : bool) : Prop := {
  an_same : acceptor h' = acceptor h /\ pending h' = pending h /\ ready h' = ready h /\ closing h' = closing h /\
    commands h' = commands h /\ wire h' = wire h /\ write_fates h' = write_fates h /\ running h' = running h;
  an_tally : tally h' = if ok then tally h else tally_close OwnerGone (tally h);
  an_grown : grown (streams h) (streams h');
  an_dom : forall i, is_Some (streams h !! i) -> is_Some (streams h' !! i)
}.

Lemma in_ok_evs m m' t t' evs e cmds sid x :
  m' !! sid = m !! sid -> t' !! sid = t !! sid -> data_of sid [e] = [] ->
  in_ok m t evs cmds sid x -> in_ok m' t' (evs ++ [e]) cmds sid x.
Proof.
  intros Em Et Ed []. split; rewrite ?Em, ?Et, ?data_of_app, ?Ed, ?app_nil_r; try done. intros H. rewrite elem_of_app. auto.
Qed.

Lemma data_of_other sid i b : sid <> i -> data_of i [DataEvent sid b] = [].
Proof. intros H. unfold data_of. cbn. by rewrite (proj2 (Z.eqb_neq _ _) H). Qed.

Lemma data_of_self sid b : data_of sid [DataEvent sid b] = b.
Proof. unfold data_of. cbn. rewrite Z.eqb_refl. cbn. apply app_nil_r. Qed.

(** Events of one stream, as its reading side sees them. *)
Lemma in_ok_data m t evs cmds sid x b :
  m !! sid = Some MOpen -> in_ok m t evs cmds sid x ->
  in_ok m (owe t (DataEvent sid b)) (evs ++ [DataEvent sid b]) cmds sid (push_signal (SData b) x).
Proof.
  intros Hm [Hc Hp Ha Ho Hpl Ht Hop Hcl].
  assert (Hl : code x = STREAM_LIVE) by (destruct Hc as [?|[_ ?]]; congruence). specialize (Hop Hm).
  split; cbn; rewrite ?data_of_app, ?data_of_self, ?sdata_app, ?sdata_cons, ?length_app; try done.
  - by apply prefix_app_r.
  - intros _. rewrite <- (Ha Hl), !app_assoc. cbn. by rewrite app_nil_r.
  - intros _. rewrite lookup_alter_eq, (Ho Hl). cbn [fmap option_fmap option_map]. f_equal.
    change (length (sdata [])) with 0%nat. lia.
  - intros _. apply list.Forall_app. split; [auto|by repeat constructor].
  - rewrite tail_ok_app, Ht, Hop. done.
  - intros _. rewrite ends_app, Hop. done.
  - rewrite ends_app, Hop. done.
Qed.

Lemma in_ok_eof m t evs cmds sid x :
  (m !! sid = Some MOpen \/ m !! sid = Some MHalf) -> in_ok m t evs cmds sid x ->
  in_ok (<[sid := MHalf]> m) t (evs ++ [ReadClosed sid]) cmds sid (push_signal SReadEof x).
Proof.
  intros Hm [Hc Hp Ha Ho Hpl Ht Hop Hcl].
  assert (Hl : code x = STREAM_LIVE) by (destruct Hc as [?|[_ ?]], Hm; congruence).
  assert (E1 : data_of sid [ReadClosed sid] = []) by done. assert (E2 : sdata [SReadEof] = []) by done.
  split; cbn; rewrite ?data_of_app, ?sdata_app, ?E1, ?E2, ?app_nil_r, ?lookup_insert_eq; try done; auto.
  - intros _. apply list.Forall_app. split; [auto|by repeat constructor].
  - by rewrite tail_ok_app, Ht.
  - intros _. set_solver.
Qed.

Lemma in_ok_reset m t evs cmds sid x r :
  in_ok m t evs cmds sid x ->
  in_ok (<[sid := MDone]> m) t (evs ++ [ResetEvent sid r]) cmds sid (push_signal SReset (set_code STREAM_RESET x)).
Proof.
  intros [Hc Hp Ha Ho Hpl Ht Hop Hcl]. assert (E1 : data_of sid [ResetEvent sid r] = []) by done.
  split; cbn; rewrite ?data_of_app, ?E1, ?app_nil_r, ?lookup_insert_eq; try done; auto.
  - by rewrite tail_ok_app, Ht.
  - rewrite ends_app. unfold ends at 1. cbn. rewrite orb_false_r. intros H. apply elem_of_app. auto.
Qed.

Lemma in_ok_new m t evs cmds sid :
  m !! sid = Some MOpen -> t !! sid = Some 0 -> data_of sid evs = [] -> eaten sid cmds = 0 ->
  in_ok m t evs cmds sid home_stream_new.
Proof. intros Hm Ht Hd He. split; cbn; rewrite ?Hd, ?He; try done. by left. Qed.

(** No event of a stream precedes its opening. *)
Lemma data_of_fresh evs : forall m m' sid, mon_run m evs = Some m' -> m' !! sid = None -> data_of sid evs = [].
Proof.
  induction evs as [|e evs IH]; intros m m' sid; [done|]. cbn [mon_run]. destruct (mon_step m e) as [m1|] eqn:E; [|done].
  cbn. intros Hr Hn. change (e :: evs) with ([e] ++ evs). rewrite data_of_app, (IH m1 m' sid Hr Hn), app_nil_r.
  destruct e as [|i b| | |]; try done. destruct (decide (i = sid)) as [->|Hne]; [|by apply data_of_other].
  cbn in E. destruct (m !! sid) as [[]|] eqn:Em; try done. injection E as <-.
  destruct (mon_grows _ _ _ sid Hr) as [? ?]; [by rewrite Em|congruence].
Qed.

(** An event about the stream [sid] that [f] shows to its reader. *)
Lemma event_inbound h m m' t t' evs e sid f :
  inbound (streams h) m t evs (commands h) -> is_Some (m !! sid) ->
  (forall i, i <> sid -> m' !! i = m !! i) -> is_Some (m' !! sid) -> (forall i, i <> sid -> t' !! i = t !! i) ->
  (forall i, i <> sid -> data_of i [e] = []) ->
  (forall x, wside (f x) = wside x) ->
  (forall x, in_ok m t evs (commands h) sid x -> in_ok m' t' (evs ++ [e]) (commands h) sid (f x)) ->
  inbound (streams (on_stream sid f h)) m' t' (evs ++ [e]) (commands h) /\ announced h (on_stream sid f h) true.
Proof.
  intros [Hd Hc Hi] Hs Hm Hm' Ht He Hw Hf. cbn [streams on_stream set_streams].
  assert (Hdom : forall i, is_Some (alter f sid (streams h) !! i) <-> is_Some (streams h !! i)) by (intros i; apply lookup_alter_is_Some).
  split; [split|split]; cbn.
  - intros i. rewrite Hdom, Hd. destruct (decide (i = sid)) as [->|Hne]; [done|by rewrite Hm].
  - eapply list.Forall_impl; [exact Hc|]. intros c [? ?]. split; [done|]. destruct (cmd_sid c); [|done]. by rewrite Hdom.
  - intros i x. rewrite lookup_alter_Some. intros [(<- & y & Hy & ->)|[Hne Hy]]; [by apply Hf, Hi|].
    eapply (in_ok_evs m); [by apply Hm|by apply Ht|by apply He|by apply Hi].
  - done.
  - done.
  - intros i x. cbn. rewrite lookup_alter_Some. intros [(<- & y & Hy & ->)|[Hne Hy]]; by rewrite Hy.
  - intros i. by rewrite Hdom.
Qed.

Lemma announced_refl h : announced h h true.
Proof. split; [done|done| |done]. intros i x ->. done. Qed.

Lemma announced_trans h h1 h2 ok : announced h h1 true -> announced h1 h2 ok -> announced h h2 ok.
Proof.
  intros [(A1 & A2 & A3 & A4 & A5 & A6 & A7 & A8) T1 G1 D1] [(B1 & B2 & B3 & B4 & B5 & B6 & B7 & B8) T2 G2 D2].
  split; [split_and!; congruence|by rewrite T2, T1| |auto].
  intros i x Hx. specialize (G2 i x Hx). destruct (streams h1 !! i) as [y|] eqn:Ey.
  - rewrite G2. by apply G1.
  - destruct (streams h !! i) as [z|] eqn:Ez; [|done]. destruct (D1 i) as [? ?]; [by rewrite Ez|congruence].
Qed.

Lemma deliver_event_ok e h m m' m0 t evs h' ok :
  mon_run m0 evs = Some m -> inbound (streams h) m t evs (commands h) -> mon_step m e = Some m' ->
  deliver_event e h = (h', ok) ->
  inbound (streams h') m' (owe t e) (evs ++ [e]) (commands h') /\ announced h h' ok.
Proof.
  intros Hrun Hin Hm. pose proof Hin as [Hd Hc Hi].
  assert (Hq : forall p, is_Some (m !! p) -> (m !! p = Some MOpen \/ m !! p = Some MHalf) \/ m !! p = Some MDone)
    by (intros p [[] ->]; auto).
  destruct e as [sid|sid b|sid|sid r|tr]; cbn in Hm |- *.
  - destruct (bool_decide _) eqn:Eb; [|done]. cbn in Hm. destruct (_ =? 1) eqn:Eo; [|done]. injection Hm as <-.
    apply bool_decide_eq_true in Eb.
    assert (Hn : m !! sid = None) by (destruct (m !! sid) as [p|] eqn:E; [|done]; specialize (Eb _ _ E); cbn in Eb; lia).
    assert (Hs : streams h !! sid = None) by (apply eq_None_not_Some; rewrite Hd, Hn; by intros [? ?]).
    assert (Hoth : others sid (commands h)).
    { eapply list.Forall_impl; [exact Hc|]. intros c [_ H] E. rewrite E, Hs in H. by destruct H. }
    assert (Hin' : inbound (<[sid := home_stream_new]> (streams h)) (<[sid := MOpen]> m) (<[sid := 0]> t) (evs ++ [Opened sid]) (commands h)).
    { split.
      - intros i. rewrite !lookup_insert. case_decide; [done|apply Hd].
      - eapply list.Forall_impl; [exact Hc|]. intros c [? H]. split; [done|]. destruct (cmd_sid c); [|done].
        rewrite lookup_insert. by case_decide.
      - intros i x. rewrite lookup_insert. case_decide as E; [subst i; intros [= <-]|].
        + apply in_ok_new; [by rewrite lookup_insert_eq|by rewrite lookup_insert_eq| |by apply others_eaten].
          rewrite data_of_app, (data_of_fresh evs m0 m sid Hrun Hn). done.
        + intros Hx. eapply (in_ok_evs m); [by rewrite lookup_insert_ne|by rewrite lookup_insert_ne|done|by apply Hi]. }
    assert (Hg : grown (streams h) (<[sid := home_stream_new]> (streams h)) /\
      forall i, is_Some (streams h !! i) -> is_Some (<[sid := home_stream_new]> (streams h) !! i)).
    { split; intros i; rewrite lookup_insert; case_decide as E; [subst i| | |]; try done.
      - intros x [= <-]. by rewrite Hs.
      - intros x ->. done. }
    destruct (owner h); intros [= <- <-]; (split; [exact Hin'|]); split; try done; apply Hg.
  - destruct (m !! sid) as [[]|] eqn:E; try done. injection Hm as <-. intros [= <- <-].
    apply (event_inbound h m m t); [done|by rewrite E|done|by rewrite E| |intros; by apply data_of_other|done|].
    + intros i Hi'. cbn. by rewrite lookup_alter_ne.
    + intros x. by apply in_ok_data.
  - intros [= <- <-]. apply (event_inbound h m _ t); [done| | | |done|done|done|].
    + by destruct (m !! sid).
    + destruct (m !! sid) as [[]|]; try done; injection Hm as <-; intros i Hne; by rewrite lookup_insert_ne.
    + destruct (m !! sid) as [[]|]; try done; injection Hm as <-; by rewrite lookup_insert_eq.
    + intros x. destruct (m !! sid) as [[]|] eqn:E; try done; injection Hm as <-; apply in_ok_eof; auto.
  - intros [= <- <-]. apply (event_inbound h m _ t); [done| | | |done|done|done|].
    + by destruct (m !! sid).
    + destruct (m !! sid) as [[]|]; try done; injection Hm as <-; intros i Hne; by rewrite lookup_insert_ne.
    + destruct (m !! sid) as [[]|]; try done; injection Hm as <-; by rewrite lookup_insert_eq.
    + intros x. destruct (m !! sid) as [[]|] eqn:E; try done; injection Hm as <-; by apply in_ok_reset.
  - injection Hm as <-. intros [= <- <-]. split; [|apply announced_refl]. split; [done|done|].
    intros i x Hx. eapply (in_ok_evs m); [done|done|done|by apply Hi].
Qed.

Lemma deliver_events_ok es : forall h m m' m0 t evs h' ok,
  mon_run m0 evs = Some m -> inbound (streams h) m t evs (commands h) -> mon_run m es = Some m' ->
  deliver_events es h = (h', ok) ->
  exists es1 m1, es1 `prefix_of` es /\ (ok = true -> es1 = es /\ m1 = m') /\
    inbound (streams h') m1 (foldl owe t es1) (evs ++ es1) (commands h') /\ announced h h' ok.
Proof.
  induction es as [|e es IH]; intros h m m' m0 t evs h' ok Hrun Hin Hm.
  - injection Hm as <-. intros [= <- <-]. exists [], m. rewrite app_nil_r. split_and!; [done|done|done|apply announced_refl].
  - cbn [mon_run] in Hm. destruct (mon_step m e) as [m1|] eqn:E; [|done]. cbn in Hm. cbn [deliver_events].
    destruct (deliver_event e h) as [h1 ok1] eqn:Ed. destruct (deliver_event_ok e h m m1 m0 t evs h1 ok1 Hrun Hin E Ed) as [Hin1 Han1].
    destruct ok1.
    + intros Hes. assert (Hrun1 : mon_run m0 (evs ++ [e]) = Some m1) by (rewrite mon_run_app, Hrun; cbn; by rewrite E).
      destruct (IH h1 m1 m' m0 _ _ h' ok Hrun1 Hin1 Hm Hes) as (es1 & m2 & Hp & Hok & Hin2 & Han2).
      exists (e :: es1), m2. split_and!; [by apply prefix_cons| |by rewrite <- app_assoc in Hin2|by eapply announced_trans].
      intros H. destruct (Hok H) as [-> ->]. done.
    + intros [= <- <-]. exists [e], m1. split_and!; [apply (prefix_app_r [e] [e] es (reflexivity _))|done|done|done].
Qed.

(** *** Reads *)

Lemma mark_writable_ready o h i :
  i ∈ ready (mark_writable_streams o h) <-> i ∈ ready h \/ i ∈ writable_streams o /\ is_Some (pending h !! i).
Proof.
  cbn. generalize (ready h). induction (writable_streams o) as [|j l IH]; intros r; [set_solver|]. cbn [foldl]. rewrite IH.
  rewrite elem_of_cons. destruct (bool_decide_reflect (is_Some (pending h !! j))) as [Hj|Hj]; cbn [andb].
  - destruct (bool_decide_reflect (j ∈ r)) as [Hr|Hr]; cbn [negb].
    + split; [tauto|]. intros [?|[[->|?] ?]]; tauto.
    + rewrite elem_of_app, list_elem_of_singleton. split; [intros [[?| ->]|?]; tauto|]. intros [?|[[->|?] ?]]; tauto.
  - split; [tauto|]. intros [?|[[->|?] ?]]; tauto.
Qed.

(** The writing sides after a read. *)
Lemma feed_outbound h m a' o strs' :
  outbound h -> (forall i, is_Some (streams h !! i) <-> is_Some (m !! i)) -> minv (acceptor h) m -> fed m (acceptor h) o a' ->
  Forall (fun c => cmd_ok c /\ match cmd_sid c with Some sid => is_Some (streams h !! sid) | None => True end) (commands h) ->
  grown (streams h) strs' -> (forall i, is_Some (streams h !! i) -> is_Some (strs' !! i)) ->
  keyed strs' (pending h) (ready (mark_writable_streams o h)) (closing h) (wire h ++ frames o) /\
  map_Forall (out_ok a' (pending h) (ready (mark_writable_streams o h)) (closing h) (wire h ++ frames o) (commands h)) strs'.
Proof.
  intros [[K1 K2 K3 K4] Hout] Hdom Hmi [Fc Fk _ Fl] Hcmds Hg Hd. split.
  - split.
    + intros i Hi. by apply Hd, K1.
    + intros i [?|[_ ?]]%mark_writable_ready; [by apply Hd, K2|by apply Hd, K1].
    + intros i Hi. by apply Hd, K3.
    + intros i Hi. destruct (control_sent _ Fc i) as [E1 E2]. rewrite sent_app, close_sent_app, E1, E2, app_nil_r, orb_false_r.
      apply K4. apply eq_None_not_Some. intros [? ?]%Hd. congruence.
  - intros i x' Hx'. specialize (Hg i x' Hx'). destruct (control_sent _ Fc i) as [E1 E2].
    destruct (streams h !! i) as [x|] eqn:Ex.
    + injection Hg as G1 G2 G3 G4. eapply (out_ok_same _ _ _ _ _ _ _ x); [done..|].
      assert (Him : is_Some (m !! i)) by (apply Hdom; by rewrite Ex).
      destruct (Hout i x Ex) as [Hst Hwak Hpre Hwh Hcl Hop Hloc Hcg Hord Hwake Hends].
      split; rewrite ?sent_app, ?close_sent_app, ?E1, ?E2, ?app_nil_r, ?orb_false_r; try done.
      * intros [s' Hs']. destruct (Fk i s' Him Hs') as (s & Es & _). apply Hwh. by rewrite Es.
      * intros Hc. destruct (Hcl Hc) as (? & ? & Hl). split_and!; [done..|]. intros s' Hs'.
        destruct (Fk i s' Him Hs') as (s & Es & -> & _). eauto.
      * intros s' Hs'. destruct (Fk i s' Him Hs') as (s & Es & -> & _). eauto.
      * intros q Hq. rewrite mark_writable_ready. destruct (Hwake q Hq) as [?|Hb]; [by left; left|].
        destruct (decide (i ∈ writable_streams o)) as [Hw|Hw]; [left; right; split; [done|by rewrite Hq]|right].
        intros s' Hs'. destruct (Fk i s' Him Hs') as (s & Es & _ & [->|?]); [by apply Hb|done].
      * intros Hc. rewrite mark_writable_ready. destruct (Hends Hc); auto.
    + injection Hg as G1 G2 G3 G4.
      assert (Hp : pending h !! i = None) by (apply eq_None_not_Some; intros [? ?]%K1; congruence).
      assert (Hoth : others i (commands h)).
      { eapply list.Forall_impl; [exact Hcmds|]. intros c [_ H] E. rewrite E, Ex in H. by destruct H. }
      assert (Hncl : i ∉ closing h) by (intros [? ?]%K3; congruence).
      destruct (K4 i Ex) as [W1 W2]. pose proof (others_queued _ _ Hoth) as Hq.
      split; rewrite ?sent_app, ?close_sent_app, ?E1, ?E2, ?W1, ?W2, ?Hp, ?Hq, ?G1, ?G2, ?G3, ?G4; try done.
      * intros _. split; [by apply others_close|done].
      * intros s' Hs' Hl. destruct (Fl i s' Hs' Hl) as (s & Es & _). apply (mi_live _ _ Hmi) in Es.
        assert (is_Some (streams h !! i)) as [? ?] by (apply Hdom; by rewrite Es). congruence.
      * by apply others_ordered.
Qed.

Lemma record_answers_pings k now t : 0 <= k ->
  pings_answered (record_answers k now t) = wrap 64 (pings_answered t + k) \/ k = 0 /\ record_answers k now t = t.
Proof. intros Hk. unfold record_answers. destruct (Z.eqb_spec k 0); [by right|by left]. Qed.

Lemma record_answers_reason k now t : close_reason (record_answers k now t) = close_reason t.
Proof. unfold record_answers. by destruct (_ =? 0). Qed.

Lemma data_of_prefix sid l k : l `prefix_of` k -> data_of sid l `prefix_of` data_of sid k.
Proof. intros [r ->]. rewrite data_of_app. by apply prefix_app_r. Qed.

Lemma weak_evs h evs evs' : evs `prefix_of` evs' -> weak h evs -> weak h evs'.
Proof. intros Hp []. split; try done. intros sid x Hx. transitivity (data_of sid evs); [auto|by apply data_of_prefix]. Qed.

Lemma pings_after k now t w w' :
  pings_answered t = wrap 64 (pongs w) -> k = pongs w' -> pings_answered (record_answers k now t) = wrap 64 (pongs (w ++ w')).
Proof.
  intros Ht ->. rewrite pongs_app. destruct (record_answers_pings (pongs w') now t (pongs_nonneg w')) as [->|[E ->]].
  - rewrite Ht. unfold wrap. by rewrite Zplus_mod_idemp_l.
  - by rewrite E, Z.add_0_r.
Qed.

Lemma feed_mid a0 reads h log m t bytes a' o now h' ok :
  home_inv a0 reads h log m t -> home_feed (acceptor h) bytes = (a', Ok o) ->
  deliver_output now o (mark_writable_streams o (set_acceptor a' h)) = (h', ok) ->
  mid a0 (reads ++ bytes) (write_fates h) h' ok.
Proof.
  intros I Hf Hd. pose proof (hv_cinv _ _ _ _ _ _ I) as Hc. unfold home_feed in Hf.
  pose proof (feed_bytes_good bytes _ m output_default Hc) as Hg. rewrite Hf in Hg. destruct Hg as (d & m' & Eo & Hm' & Hc').
  assert (o = d) as <- by (rewrite Eo; by destruct d). clear Eo.
  pose proof (feed_bytes_fed bytes _ m a' o Hc Hf) as Hfed.
  assert (Hlog : logged a0 (reads ++ bytes) (oapp log o) /\ exists ops, Forall op_ok ops /\
    home_run a0 ops output_default = (a', oapp log o, Ok tt) /\ bytes_read ops = reads ++ bytes).
  { destruct (hv_run _ _ _ _ _ _ I) as (ops & Hop & Hrun & Hb).
    assert (Hr : Forall op_ok (ops ++ [HFeed bytes]) /\ home_run a0 (ops ++ [HFeed bytes]) output_default = (a', oapp log o, Ok tt) /\
      bytes_read (ops ++ [HFeed bytes]) = reads ++ bytes).
    { split_and!; [apply list.Forall_app; by repeat constructor| |].
      - rewrite (home_run_snoc ops _ _ _ _ (HFeed bytes) Hrun). cbn [home_run home_step]. unfold home_feed. by rewrite Hf.
      - rewrite bytes_read_app, Hb. cbn. by rewrite app_nil_r. }
    split; [|by eexists]. exists (ops ++ [HFeed bytes]), a'. destruct Hr as (? & ? & ->). done. }
  destruct Hlog as [Hlog Hrun']. set (k := mark_writable_streams o (set_acceptor a' h)) in Hd.
  pose proof (fed_control _ _ _ _ Hfed) as Hctl. pose proof (weak_inv _ _ _ _ _ _ I) as Hweak.
  pose proof (hv_in _ _ _ _ _ _ I) as [Hdom Hcmds _].
  apply deliver_output_spec in Hd as [[-> [(w & f & -> & Hw & _ & _) Hcause]]|(h1 & [(w & f & -> & _ & Hf1 & Hok) _] & Hd)].
  - exists (oapp log o). split; [done|]. split; [|right; split; [apply I|]].
    + apply (weak_evs _ (mevents log)); [by apply prefix_app_r|].
      apply (weak_ext h _ _ w); [done| |done..]. apply (wire_ext_control a0 reads h log m t); [done|]. by eapply prefix_Forall.
    + apply Hcause; [done|]. by apply control_encodable.
  - rewrite (Hok eq_refl) in Hd. clear w Hok. set (h1 := set_wire _ f k) in Hd.
    destruct (deliver_events_ok (mevents o) (set_tally (record_answers (pongs (frames o)) now (tally h1)) h1) m m' ∅ t (mevents log) h' ok
      (hv_mon _ _ _ _ _ _ I) (hv_in _ _ _ _ _ _ I) Hm' Hd)
      as (es1 & m1 & Hes1 & Hok & Hin' & [(A1 & A2 & A3 & A4 & A5 & A6 & A7 & A8) At Ag Ad]).
    destruct (feed_outbound h m a' o (streams h') (hv_out _ _ _ _ _ _ I) Hdom (proj1 Hc) Hfed Hcmds Ag Ad) as [HK' Hout'].
    assert (Hpings : pings_answered (record_answers (pongs (frames o)) now (tally h)) = wrap 64 (pongs (wire h ++ frames o))).
    { apply pings_after; [apply I|done]. }
    destruct ok.
    + destruct (Hok eq_refl) as [-> ->]. exists (oapp log o), m', (foldl owe t (mevents o)). split; [|by rewrite A7].
      split; rewrite ?A1, ?A5, ?A6, ?A8, ?At.
      * done.
      * cbn. by rewrite mon_run_app, (hv_mon _ _ _ _ _ _ I).
      * done.
      * by apply Hfed, I.
      * cbn. by rewrite (hv_wire _ _ _ _ _ _ I).
      * exact Hpings.
      * cbn. rewrite record_answers_reason. apply I.
      * rewrite A5 in Hin'. exact Hin'.
      * unfold outbound. rewrite A1, A2, A3, A4, A5, A6. split; [exact HK'|exact Hout'].
      * apply I.
    + exists (oapp log o). split; [done|]. split; [|left; rewrite At; apply tally_close_open; cbn; rewrite record_answers_reason; apply I].
      split.
      * intros i x Hx. etrans; [apply (in_prefix _ _ _ _ _ _ (ib_ok _ _ _ _ _ Hin' i x Hx))|]. apply data_of_prefix, prefix_app. done.
      * intros i x Hx. apply (Hout' i x Hx).
      * intros i x Hx. rewrite A6. apply (Hout' i x Hx).
      * intros i x Hx. rewrite A6. intros Hcs. by destruct (o_close _ _ _ _ _ _ _ _ (Hout' i x Hx) Hcs) as (? & ? & _).
      * exists (pongs (wire h ++ frames o)). rewrite At, A6. cbn. pose proof (pongs_nonneg (wire h ++ frames o)).
        split; [|lia]. rewrite <- Hpings. unfold tally_close. by destruct (_ =? _).
Qed.

Definition read_reasons (r : CarrierRead) (x : CarrierClose) : Prop :=
  match r with
  | RFailed => x = PeerReadFailed
  | REof => exists b, x = PeerEof b
  | RBytes _ => x = AcceptorRefused \/ by_write x
  end.

Definition read_of (r : CarrierRead) : list byte := match r with RBytes b => b | _ => [] end.

Lemma driver_read_ok a0 reads h log m t r now :
  home_inv a0 reads h log m t ->
  exists h', driver_read r now h = Ok h' /\ turn_ok a0 (reads ++ read_of r) (write_fates h) (read_reasons r) h'.
Proof.
  intros I. destruct r as [bytes| |]; cbn [driver_read read_of].
  - pose proof (feed_bytes_good bytes _ m output_default (hv_cinv _ _ _ _ _ _ I)) as Hg. unfold home_feed.
    destruct (feed_bytes (acceptor h) output_default bytes) as [a' [o|e|]] eqn:Hf; [| |done].
    + destruct (deliver_output _ _ _) as [h1 ok] eqn:Hd. eexists. split; [done|].
      eapply turn_mono; [done| |apply delivered_turn; by eapply (feed_mid _ _ _ _ _ _ bytes)]. by right.
    + eexists. split; [done|]. destruct (ended_with AcceptorRefused (set_acceptor a' h) (mevents log)) as [He Hc]; [|apply I|done|].
      * by apply weak_inv in I as [].
      * apply (turn_dead _ _ _ _ _ log AcceptorRefused); [|done|done|by left|done].
        destruct (hv_run _ _ _ _ _ _ I) as (ops & ? & ? & Hb). exists ops, (acceptor h). split_and!; [done..|]. rewrite Hb. by apply prefix_app_r.
  - eexists. split; [done|]. rewrite app_nil_r. cbn [fst]. set (o := push_event _ _).
    rewrite mark_writable_none by done. set (k := set_tally _ _).
    assert (deliver_output now o k = (k, true)) as -> by (by destruct h). cbn [fst].
    destruct (ended_with (PeerEof (truncated_eof o)) (set_acceptor (set_hstreams (acceptor h) ∅) h) (mevents log)) as [He Hc]; [|apply I|done|].
    + by apply weak_inv in I as [].
    + apply (turn_dead _ _ _ _ _ log (PeerEof (truncated_eof o))); [by eapply logged_inv|done|done|by eexists|done].
  - eexists. split; [done|]. rewrite app_nil_r. destruct (ended_with PeerReadFailed h (mevents log)) as [He Hc]; [by eapply weak_inv|apply I|done|].
    apply (turn_dead _ _ _ _ _ log PeerReadFailed); [by eapply logged_inv|done|done|done|done].
Qed.

(** ** Runs *)

Lemma home_inv_new a fates : cinv a ∅ -> hstreams a = ∅ -> home_inv a [] (home_new a fates) output_default ∅ ∅.
Proof.
  intros Hc Hs. split; try done.
  - by exists [].
  - intros sid s. cbn. by rewrite Hs.
  - split; [|constructor|apply map_Forall_empty]. intros sid. cbn. by rewrite !lookup_empty.
  - split; [|apply map_Forall_empty]. split; cbn; [by intros ? [? ?]|set_solver|set_solver|done].
Qed.

(** A user's step on a stopped carrier. *)
Lemma ended_update h evs sid x x' :
  ended h evs -> streams h !! sid = Some x -> code x' = STREAM_GONE -> got x' = got x -> wside x' = wside x ->
  ended (set_streams (<[sid := x']> (streams h)) h) evs.
Proof.
  intros [[W1 W2 W3 W4 W5] Hr Hg Hc] E Ec Eg [= E1 E2 E3 E4].
  split; [split|done| |done]; try done; cbn; intros i y; rewrite lookup_insert; case_decide as D; try (subst i; intros [= <-]); eauto.
  - rewrite Eg. eauto.
  - rewrite E1. eauto.
  - rewrite E3. eauto.
  - rewrite E3, E4. eauto.
Qed.

Lemma ended_accepts h evs l o : ended h evs -> ended (set_accepts l o h) evs.
Proof. by intros [[] ? ? ?]. Qed.

Lemma ended_drop h evs sid : ended h evs -> ended (drop_home_stream sid h) evs.
Proof.
  intros He. unfold drop_home_stream. destruct (streams h !! sid) as [x|] eqn:E; [|done]. cbn [running set_streams].
  rewrite (en_running _ _ He), andb_false_r. eapply ended_update; [done|done|exact (en_gone _ _ He sid x E)|done|done].
Qed.

Definition by_user (e : home_event) : bool := match e with DriverReads _ _ | DriverTakes _ => false | _ => true end.
Definition event_ok (e : home_event) : Prop := match e with UserReads _ n => 0 <= n | _ => True end.
Definition reads_of (es : list home_event) : list byte :=
  concat ((fun e => match e with DriverReads r _ => read_of r | _ => [] end) <$> es).

Lemma drop_quiet sid h : tally (drop_home_stream sid h) = tally h /\ wire (drop_home_stream sid h) = wire h.
Proof. unfold drop_home_stream. by repeat case_match. Qed.

Lemma ended_user e h evs r : ended h evs -> by_user e = true -> home_turn e h = Some r -> exists h', r = Ok h' /\ ended h' evs /\ tally h' = tally h /\ wire h' = wire h.
Proof.
  intros He Hu. pose proof (en_running _ _ He) as Hr. pose proof (en_gone _ _ He) as Hg.
  destruct e as [| | |sid n|sid bytes|sid|sid reason|sid| |]; try done; cbn [home_turn].
  - destruct (owner h); [|done]. intros [= <-]. eexists. split; [done|]. unfold accept_stream. destruct (accepts h); cbn; [by rewrite Hr|].
    split; [by apply ended_accepts|done].
  - destruct (in_hand sid h); [|done]. intros [= <-]. eexists. split; [done|]. unfold poll_read. destruct (streams h !! sid) as [x|] eqn:E; [|done].
    specialize (Hg _ _ E). cbn in Hg.
    assert (read_loop (signals x) n (running h) x = (set_read (signals x) (code x) [] (read_eof x) (got x) x, Failed, None)) as ->
      by (destruct (signals x); cbn; by rewrite Hg).
    cbn. split; [by eapply ended_update|done].
  - destruct (in_hand sid h); [|done]. intros [= <-]. eexists. split; [done|]. unfold poll_write. destruct (streams h !! sid) as [x|] eqn:E; [|done].
    specialize (Hg _ _ E). cbn in Hg. by rewrite Hg.
  - destruct (in_hand sid h); [|done]. intros [= <-]. eexists. split; [done|]. unfold poll_shutdown. destruct (streams h !! sid) as [x|] eqn:E; [|done].
    specialize (Hg _ _ E). cbn in Hg. by rewrite Hg.
  - destruct (in_hand sid h); [|done]. intros [= <-]. eexists. split; [done|]. unfold stream_reset. destruct (streams h !! sid) as [x|] eqn:E; [|done].
    specialize (Hg _ _ E). cbn in Hg. by rewrite Hg.
  - destruct (in_hand sid h); [|done]. intros [= <-]. eexists. split; [done|]. split; [by apply ended_drop|apply drop_quiet].
  - destruct (owner h); [|done]. intros [= <-]. eexists. split; [done|]. unfold close_connection. by rewrite Hr.
  - destruct (owner h); [|done]. intros [= <-]. eexists. split; [done|]. unfold drop_connection.
    assert (H : ended (foldl (fun h sid => drop_home_stream sid h) h (accepts h)) evs /\
      tally (foldl (fun h sid => drop_home_stream sid h) h (accepts h)) = tally h /\
      wire (foldl (fun h sid => drop_home_stream sid h) h (accepts h)) = wire h).
    { generalize (accepts h). intros l. clear Hr Hg. revert h He. induction l as [|s l IH]; intros h He; [done|]. cbn [foldl].
      destruct (drop_quiet s h) as [<- <-]. by apply IH, ended_drop. }
    destruct H as (? & ? & ?). split; [by apply ended_accepts|done].
Qed.

(** A user's step on a running carrier queues commands and flushes nothing. *)
Definition queues_more (h h' : Home) : Prop :=
  ready h' = ready h /\ write_fates h' = write_fates h /\ forall c, c ∈ commands h -> c ∈ commands h'.

Lemma drop_queues_more sid h : queues_more h (drop_home_stream sid h).
Proof. unfold drop_home_stream. repeat case_match; repeat split; cbn; set_solver. Qed.

Lemma queues_more_trans h h1 h2 : queues_more h h1 -> queues_more h1 h2 -> queues_more h h2.
Proof. intros (E1 & E2 & E3) (F1 & F2 & F3). split_and!; [congruence..|auto]. Qed.

Lemma user_turn e h a0 reads log m t r :
  home_inv a0 reads h log m t -> event_ok e -> by_user e = true -> home_turn e h = Some r ->
  exists h', r = Ok h' /\ home_inv a0 reads h' log m t /\ queues_more h h'.
Proof.
  intros I Hok Hu. destruct e as [| | |sid n|sid bytes|sid|sid reason|sid| |]; try done; cbn [home_turn].
  - destruct (owner h); [|done]. intros [= <-]. eexists. split; [done|]. split; [by apply accept_stream_inv|].
    unfold accept_stream. repeat case_match; by repeat split.
  - destruct (in_hand sid h); [|done]. intros [= <-]. eexists. split; [done|]. split; [by apply poll_read_inv|].
    unfold poll_read. destruct (streams h !! sid); [|by repeat split]. destruct (read_loop _ _ _ _) as [[x' p] [c|]]; repeat split; cbn; set_solver.
  - destruct (in_hand sid h); [|done]. intros [= <-]. eexists. split; [done|]. split; [by apply poll_write_inv|].
    unfold poll_write. repeat case_match; repeat split; cbn; set_solver.
  - destruct (in_hand sid h); [|done]. intros [= <-]. eexists. split; [done|]. split; [by apply poll_shutdown_inv|].
    unfold poll_shutdown. repeat case_match; repeat split; cbn; set_solver.
  - destruct (in_hand sid h); [|done]. intros [= <-]. eexists. split; [done|]. split; [by apply stream_reset_inv|].
    unfold stream_reset. repeat case_match; repeat split; cbn; set_solver.
  - destruct (in_hand sid h); [|done]. intros [= <-]. eexists. split; [done|]. split; [by apply drop_stream_inv|]. apply drop_queues_more.
  - destruct (owner h); [|done]. intros [= <-]. eexists. split; [done|]. split; [by apply close_connection_inv|].
    unfold close_connection. repeat case_match; repeat split; cbn; set_solver.
  - destruct (owner h); [|done]. intros [= <-]. eexists. split; [done|]. split; [by apply drop_connection_inv|].
    unfold drop_connection. apply (queues_more_trans _ (foldl (fun h sid => drop_home_stream sid h) h (accepts h))); [|by repeat split].
    generalize (accepts h). intros l. clear I. revert h. induction l as [|s l IH]; intros h; cbn; [by repeat split|].
    eapply queues_more_trans; [apply drop_queues_more|apply IH].
Qed.

(** Every reached state, and nothing else can happen. *)
Abbreviation steady a0 reads fates h := (turn_ok a0 reads fates (fun _ => True) h).

Lemma logged_more a0 reads more log : logged a0 reads log -> logged a0 (reads ++ more) log.
Proof. intros (ops & a' & ? & ? & ?). exists ops, a'. split_and!; [done..|]. by apply prefix_app_r. Qed.

Lemma turn_step a0 reads fates e h r :
  steady a0 reads fates h -> event_ok e -> home_turn e h = Some r ->
  exists h', r = Ok h' /\ steady a0 (reads ++ reads_of [e]) fates h'.
Proof.
  intros [log m t I Haw Hf|log rs Hlog He Hc _ Hw] Hok Ht.
  - destruct (by_user e) eqn:Hu.
    + destruct (user_turn e h a0 reads log m t r I Hok Hu Ht) as (h' & -> & I' & (E1 & E2 & E3)). exists h'. split; [done|].
      assert (reads_of [e] = []) as -> by (by destruct e). rewrite app_nil_r. eapply turn_alive; [done| |by rewrite E2].
      unfold awake. rewrite E1. destruct Haw; auto.
    + destruct e as [rd now|now| | | | | | | |]; try done; cbn [home_turn] in Ht; rewrite (hv_running _ _ _ _ _ _ I) in Ht.
      * destruct (driver_read_ok a0 reads h log m t rd now I) as (h' & E & Hturn). rewrite E in Ht. injection Ht as <-.
        exists h'. split; [done|]. assert (reads_of [DriverReads rd now] = read_of rd) as -> by apply app_nil_r. by eapply turn_mono.
      * pose proof (driver_command_ok a0 reads h log m t now I Haw) as Hd. destruct (driver_command now h) as [[h'|]| |]; try done.
        injection Ht as <-. exists h'. split; [done|]. cbn. rewrite app_nil_r. by eapply turn_mono.
  - destruct (by_user e) eqn:Hu.
    + destruct (ended_user e h _ r He Hu Ht) as (h' & -> & He' & Et & _). exists h'. split; [done|].
      eapply (turn_dead _ _ _ _ _ log rs); [by apply logged_more|done|by rewrite Et|done|done].
    + destruct e; try done; cbn [home_turn] in Ht; by rewrite (en_running _ _ He) in Ht.
Qed.

Lemma run_ok a0 fates es : forall reads h r,
  steady a0 reads fates h -> Forall event_ok es -> home_events es h = Some r ->
  exists h', r = Ok h' /\ steady a0 (reads ++ reads_of es) fates h'.
Proof.
  induction es as [|e es IH]; intros reads h r Hs Hok.
  { intros [= <-]. exists h. unfold reads_of. cbn. by rewrite app_nil_r. }
  apply Forall_cons_1 in Hok as [He Hok]. cbn [home_events]. destruct (home_turn e h) as [r1|] eqn:Et; [|done].
  destruct (turn_step a0 reads fates e h r1 Hs He Et) as (h1 & -> & Hs1). intros Hr.
  destruct (IH _ _ _ Hs1 Hok Hr) as (h' & -> & Hs'). exists h'. split; [done|].
  replace (reads ++ reads_of (e :: es)) with ((reads ++ reads_of [e]) ++ reads_of es); [done|].
  unfold reads_of. cbn. by rewrite app_nil_r, <- app_assoc.
Qed.

(** A run of a fresh carrier. *)
Lemma carrier_ok l a fates es r :
  acceptor_new l = Ok a -> limits_sized l -> Forall event_ok es -> home_events es (home_new a fates) = Some r ->
  exists h, r = Ok h /\ steady a (reads_of es) fates h.
Proof.
  intros Hn [[H1 _] [_ H2]] Hok Hr. pose proof (cinv_new l a Hn H1 H2) as Hc.
  assert (Hs : hstreams a = ∅).
  { unfold acceptor_new in Hn. destruct (validate l); [|done..]. by injection Hn as <-. }
  apply (run_ok a fates es [] (home_new a fates) r); [|done|done].
  eapply turn_alive; [by apply home_inv_new|by left|done].
Qed.

(** ** Theorems *)

(** C1. Every run of the driver with its users is a run of the acceptor.  For
    any interleaving of reads of arbitrary bytes, commands, and polls, resets
    and drops of the handles, nothing panics, and some sequence of acceptor
    operations fed with the bytes read explains the state: while the driver
    runs, the acceptor is the one they end in, the frames on the wire are
    exactly its output and every PONG among them is counted, and a live reader
    has in hand, in its buffer and in its channel exactly the bytes of its
    stream's DATA events.  After the driver stopped, a reader has still been
    given a prefix of them. *)
Theorem home_driver_refines l a fates es r :
  acceptor_new l = Ok a -> limits_sized l -> Forall event_ok es ->
  home_events es (home_new a fates) = Some r ->
  exists h ops log a', r = Ok h /\ Forall op_ok ops /\ home_run a ops output_default = (a', log, Ok tt) /\
    bytes_read ops `prefix_of` reads_of es /\
    (running h = true ->
       acceptor h = a' /\ bytes_read ops = reads_of es /\ wire h = frames log /\
       pings_answered (tally h) = wrap 64 (pongs (wire h))) /\
    forall sid x, streams h !! sid = Some x ->
      got x `prefix_of` data_of sid (mevents log) /\
      (running h = true -> code x = STREAM_LIVE -> got x ++ read_buffer x ++ sdata (signals x) = data_of sid (mevents log)).
Proof.
  intros Hn Hl Hok Hr. destruct (carrier_ok l a fates es r Hn Hl Hok Hr) as (h & -> & [log m t I _ _|log rs (ops & a' & Ho & Hrun & Hb) He _ _ _]).
  - destruct (hv_run _ _ _ _ _ _ I) as (ops & Ho & Hrun & Hb). exists h, ops, log, (acceptor h).
    split_and!; [done|done|done|by rewrite Hb| |].
    + intros _. split_and!; [done|done|apply I|apply I].
    + intros sid x Hx. destruct (inv_stream _ _ _ _ _ _ _ _ I Hx) as [Hi _]. split; [apply Hi|]. intros _. apply Hi.
  - exists h, ops, log, a'. pose proof (en_running _ _ He) as Hnr. split_and!; [done..|by rewrite Hnr|].
    intros sid x Hx. split; [by eapply (wk_in _ _ (en_weak _ _ He))|by rewrite Hnr].
Qed.

(** An end of file is the end.  When a read with room returns no bytes, the
    peer has closed its direction and the reader has been given every byte of
    the stream's DATA events, in order. *)
Theorem home_eof_is_complete l a fates es h sid n h' :
  acceptor_new l = Ok a -> limits_sized l -> Forall event_ok es ->
  home_events es (home_new a fates) = Some (Ok h) -> 0 < n -> poll_read sid n h = (h', Ready []) ->
  exists ops log x, home_run a ops output_default = (acceptor h, log, Ok tt) /\ bytes_read ops = reads_of es /\
    streams h' !! sid = Some x /\ got x = data_of sid (mevents log) /\ ReadClosed sid ∈ mevents log.
Proof.
  intros Hn Hl Hok Hr Hpos Hp. destruct (carrier_ok l a fates es _ Hn Hl Hok Hr) as (h0 & [= <-] & [log m t I _ _|log rs _ He _ _ _]).
  - destruct (hv_run _ _ _ _ _ _ I) as (ops & _ & Hrun & Hb). unfold poll_read in Hp.
    destruct (streams h !! sid) as [x|] eqn:Hx; [|done]. rewrite (hv_running _ _ _ _ _ _ I) in Hp.
    destruct (inv_stream _ _ _ _ _ _ _ _ I Hx) as [Hi _].
    pose proof (poll_loop_ok m t (mevents log) (commands h) sid n (signals x) x ltac:(lia) eq_refl Hi) as [_ _ _ R4 _].
    destruct (read_loop (signals x) n true x) as [[x' p] c]. cbn [fst snd] in R4. exists ops, log, x'.
    assert (p = Ready [] /\ streams h' !! sid = Some x') as [-> Hx'].
    { destruct c; injection Hp as <- <-; (split; [done|]); cbn; apply lookup_insert_eq. }
    destruct (R4 eq_refl Hpos) as [Hg Hrc]. by split_and!.
  - unfold poll_read in Hp. destruct (streams h !! sid) as [x|] eqn:Hx; [|done]. pose proof (en_gone _ _ He sid x Hx) as Hg. cbn in Hg.
    destruct (signals x); cbn in Hp; by rewrite Hg in Hp.
Qed.

(** What a user wrote reaches the wire in order, and the CLOSE comes last.
    In every reached state the DATA on the wire for a stream is a prefix of the
    bytes its writer handed over; once a CLOSE for it is on the wire, the writer
    had shut down and all of its bytes were sent before. *)
Theorem home_writes_in_order l a fates es h sid x :
  acceptor_new l = Ok a -> limits_sized l -> Forall event_ok es ->
  home_events es (home_new a fates) = Some (Ok h) -> streams h !! sid = Some x ->
  sent sid (wire h) `prefix_of` put x /\
  (close_sent sid (wire h) = true -> sent sid (wire h) = put x /\ write_shutdown x = true).
Proof.
  intros Hn Hl Hok Hr Hx. destruct (carrier_ok l a fates es _ Hn Hl Hok Hr) as (h0 & [= <-] & [log m t I _ _|log rs _ He _ _ _]).
  - apply weak_inv in I as []. eauto.
  - destruct (en_weak _ _ He). eauto.
Qed.

(** Staging is bounded.  No stream ever has more than the staging limit
    reserved; while the driver runs, what it holds for a stream, pending or
    still in the command queue, is covered by the stream's reservation, and a
    writer is left waiting only when the whole limit is reserved. *)
Theorem home_staging_bounded l a fates es h sid x :
  acceptor_new l = Ok a -> limits_sized l -> Forall event_ok es ->
  home_events es (home_new a fates) = Some (Ok h) -> streams h !! sid = Some x ->
  staged_bytes x <= MAX_STAGED_WRITE_BYTES_PER_STREAM /\
  (running h = true ->
     len (default [] (pending h !! sid)) + len (queued sid (commands h)) <= staged_bytes x /\
     (write_waker x = true -> staged_bytes x = MAX_STAGED_WRITE_BYTES_PER_STREAM)).
Proof.
  intros Hn Hl Hok Hr Hx. destruct (carrier_ok l a fates es _ Hn Hl Hok Hr) as (h0 & [= <-] & [log m t I _ _|log rs _ He _ _ _]).
  - destruct (inv_stream _ _ _ _ _ _ _ _ I Hx) as [_ [[] ? _ _ _ _ _ _ _ _ _]]. by split_and!.
  - split; [by eapply (wk_staged _ _ (en_weak _ _ He))|]. by rewrite (en_running _ _ He).
Qed.

(** C37. A carrier stops for a reason outside its users' reach.  A step that
    stops the driver latches one reason: a failed or ended read says so, bytes
    of the peer stop it only by an acceptor refusal, and a command stops it only
    when it is the owner's close; otherwise a write to the peer really failed or
    the owner dropped the connection while the peer opened a stream.  Reads,
    writes, resets and drops by the users stop nothing.  From then on every
    stream is gone and every poll of it fails. *)
Theorem home_stop_reasons l a fates es h e h' :
  acceptor_new l = Ok a -> limits_sized l -> Forall event_ok es ->
  home_events es (home_new a fates) = Some (Ok h) -> running h = true ->
  event_ok e -> home_turn e h = Some (Ok h') -> running h' = false ->
  exists reason, close_reason (tally h') = close_code reason /\
    match e with
    | DriverReads r _ => read_reasons r reason
    | DriverTakes _ => by_write reason \/ reason = LocalClose /\ head (commands h) = Some CCloseConnection
    | _ => False
    end /\
    (reason = WriteFailed -> false ∈ fates) /\
    forall sid n bytes, snd (poll_read sid n h') = Failed /\ snd (poll_write sid bytes h') = Failed /\ poll_flush sid h' = Failed.
Proof.
  intros Hn Hl Hok Hr Hrun Hev Ht Hst.
  destruct (carrier_ok l a fates es _ Hn Hl Hok Hr) as (h0 & [= <-] & [log m t I Haw Hf|log rs _ He _ _ _]); [|by rewrite (en_running _ _ He) in Hrun].
  assert (Hfail : forall evs, ended h' evs -> forall sid n bytes,
    snd (poll_read sid n h') = Failed /\ snd (poll_write sid bytes h') = Failed /\ poll_flush sid h' = Failed).
  { intros evs He sid n bytes. unfold poll_read, poll_write, poll_flush. destruct (streams h' !! sid) as [x|] eqn:Hx; [|done].
    pose proof (en_gone _ _ He sid x Hx) as Hg. cbn in Hg. rewrite Hg. split_and!; [|done|done]. by destruct (signals x); cbn; rewrite Hg. }
  assert (Hdead : forall reads P, turn_ok a reads (write_fates h) P h' -> exists reason, close_reason (tally h') = close_code reason /\ P reason /\
    (reason = WriteFailed -> false ∈ fates) /\ forall sid n bytes,
    snd (poll_read sid n h') = Failed /\ snd (poll_write sid bytes h') = Failed /\ poll_flush sid h' = Failed).
  { intros reads P [log1 m1 t1 I1 _ _|log1 rs1 _ He Hc HP Hw]; [by rewrite (hv_running _ _ _ _ _ _ I1) in Hst|].
    exists rs1. split_and!; [done|done|set_solver|by eapply Hfail]. }
  destruct (by_user e) eqn:Hu.
  - destruct (user_turn e h _ _ _ _ _ _ I Hev Hu Ht) as (h1 & [= <-] & I1 & _). by rewrite (hv_running _ _ _ _ _ _ I1) in Hst.
  - destruct e as [rd now|now| | | | | | | |]; try done; cbn [home_turn] in Ht; rewrite Hrun in Ht.
    + destruct (driver_read_ok a _ h log m t rd now I) as (h1 & E & Hturn). rewrite E in Ht. injection Ht as ->. by apply (Hdead _ _ Hturn).
    + pose proof (driver_command_ok a _ h log m t now I Haw) as Hd. destruct (driver_command now h) as [[h1|]| |]; try done.
      injection Ht as ->. by apply (Hdead _ _ Hd).
Qed.

(** No write is forgotten.  Between turns of a running driver, a stream with
    bytes to send is either queued for flushing, with a wake-up in the command
    queue, or waits for the peer's credit, which does not cover its next chunk;
    and a stream to be closed is queued the same way or still has bytes to
    send. *)
Theorem home_no_lost_wakeup l a fates es h sid :
  acceptor_new l = Ok a -> limits_sized l -> Forall event_ok es ->
  home_events es (home_new a fates) = Some (Ok h) -> running h = true ->
  (forall q, pending h !! sid = Some q ->
     sid ∈ ready h /\ CWake ∈ commands h \/
     forall s, hstreams (acceptor h) !! sid = Some s -> hsend_credit s < Z.min (len q) RECOMMENDED_CHUNK) /\
  (sid ∈ closing h -> sid ∈ ready h /\ CWake ∈ commands h \/ is_Some (pending h !! sid)).
Proof.
  intros Hn Hl Hok Hr Hrun.
  destruct (carrier_ok l a fates es _ Hn Hl Hok Hr) as (h0 & [= <-] & [log m t I Haw _|log rs _ He _ _ _]); [|by rewrite (en_running _ _ He) in Hrun].
  assert (Hready : sid ∈ ready h -> sid ∈ ready h /\ CWake ∈ commands h).
  { intros Hs. split; [done|]. destruct Haw as [E|?]; [|done]. rewrite E in Hs. by apply not_elem_of_nil in Hs. }
  destruct (hv_out _ _ _ _ _ _ I) as [[K1 K2 K3 K4] Hout]. split.
  - intros q Hq. destruct (K1 sid) as [x Hx]; [by rewrite Hq|]. destruct (o_wake _ _ _ _ _ _ _ _ (Hout sid x Hx) q Hq); auto.
  - intros Hc. destruct (K3 sid Hc) as [x Hx]. destruct (o_ends _ _ _ _ _ _ _ _ (Hout sid x Hx) Hc); auto.
Qed.

(** ** Witnesses *)

(** A peer opens a stream with a request and closes its direction, the user
    reads it all, answers and shuts down. *)
Definition ex_home_open : list home_event :=
  [DriverReads (RBytes (wires [mkFrame 1 (Z.lor FLAG_OPEN FLAG_DATA) (blit "GET"); mkFrame 1 FLAG_CLOSE []])) 5; UserAccepts].
Definition ex_home_read : list home_event := ex_home_open ++ [UserReads 1 2; UserReads 1 9; DriverTakes 6; DriverTakes 6].
Definition ex_home_write : list home_event := ex_home_read ++ [UserWrites 1 (blit "pong")].
Definition ex_home_done : list home_event := ex_home_write ++ [UserShuts 1; DriverTakes 7; DriverTakes 7].
Definition ex_home (es : list home_event) : Home :=
  match home_events es (home_new sample_acceptor []) with Some (Ok h) => h | _ => home_new sample_acceptor [] end.
Definition ex_stream (es : list home_event) : HomeStream := default home_stream_new (streams (ex_home es) !! 1).

Lemma ex_home_spec es :
  match home_events es (home_new sample_acceptor []) with Some (Ok _) => true | _ => false end = true ->
  home_events es (home_new sample_acceptor []) = Some (Ok (ex_home es)).
Proof. unfold ex_home. by repeat case_match. Qed.

Lemma ex_home_ok : acceptor_new sample_limits = Ok sample_acceptor /\ limits_sized sample_limits /\ Forall event_ok ex_home_done.
Proof. split_and!; [vm_compute; reflexivity|repeat split; vm_compute; congruence|repeat constructor; cbn; lia]. Qed.

Example ex_home_runs : home_events ex_home_done (home_new sample_acceptor []) = Some (Ok (ex_home ex_home_done)).
Proof. vm_compute. reflexivity. Qed.

Lemma home_driver_refines_witness :
  home_events ex_home_done (home_new sample_acceptor []) = Some (Ok (ex_home ex_home_done)) /\
  got (ex_stream ex_home_done) = blit "GET" /\
  exists h ops log a', Ok (E := unit) (ex_home ex_home_done) = Ok h /\ Forall op_ok ops /\
    home_run sample_acceptor ops output_default = (a', log, Ok tt) /\ bytes_read ops `prefix_of` reads_of ex_home_done /\
    (running h = true -> acceptor h = a' /\ bytes_read ops = reads_of ex_home_done /\ wire h = frames log /\
       pings_answered (tally h) = wrap 64 (pongs (wire h))) /\
    forall sid x, streams h !! sid = Some x ->
      got x `prefix_of` data_of sid (mevents log) /\
      (running h = true -> code x = STREAM_LIVE -> got x ++ read_buffer x ++ sdata (signals x) = data_of sid (mevents log)).
Proof.
  assert (Hr : home_events ex_home_done (home_new sample_acceptor []) = Some (Ok (ex_home ex_home_done))) by (vm_compute; reflexivity).
  split; [exact Hr|]. split; [vm_compute; reflexivity|]. destruct ex_home_ok as (Hn & Hl & Hok).
  exact (home_driver_refines sample_limits sample_acceptor [] ex_home_done _ Hn Hl Hok Hr).
Defined.

Lemma home_eof_is_complete_witness :
  exists ops log x, home_run sample_acceptor ops output_default = (acceptor (ex_home ex_home_read), log, Ok tt) /\
    bytes_read ops = reads_of ex_home_read /\ streams (fst (poll_read 1 9 (ex_home ex_home_read))) !! 1 = Some x /\
    got x = data_of 1 (mevents log) /\ ReadClosed 1 ∈ mevents log.
Proof.
  assert (Hr : home_events ex_home_read (home_new sample_acceptor []) = Some (Ok (ex_home ex_home_read))) by (vm_compute; reflexivity).
  assert (Hp : poll_read 1 9 (ex_home ex_home_read) = (fst (poll_read 1 9 (ex_home ex_home_read)), Ready [])) by (vm_compute; reflexivity).
  destruct ex_home_ok as (Hn & Hl & _). assert (Hok : Forall event_ok ex_home_read) by (repeat constructor; cbn; lia).
  assert (H9 : 0 < 9) by lia.
  exact (home_eof_is_complete sample_limits sample_acceptor [] ex_home_read _ 1 9 _ Hn Hl Hok Hr H9 Hp).
Defined.

Lemma home_writes_in_order_witness :
  close_sent 1 (wire (ex_home ex_home_done)) = true /\
  sent 1 (wire (ex_home ex_home_done)) `prefix_of` put (ex_stream ex_home_done) /\
  (close_sent 1 (wire (ex_home ex_home_done)) = true ->
   sent 1 (wire (ex_home ex_home_done)) = put (ex_stream ex_home_done) /\ write_shutdown (ex_stream ex_home_done) = true).
Proof.
  assert (Hr : home_events ex_home_done (home_new sample_acceptor []) = Some (Ok (ex_home ex_home_done))) by (vm_compute; reflexivity).
  assert (Hx : streams (ex_home ex_home_done) !! 1 = Some (ex_stream ex_home_done)) by (vm_compute; reflexivity).
  split; [vm_compute; reflexivity|]. destruct ex_home_ok as (Hn & Hl & Hok).
  exact (home_writes_in_order sample_limits sample_acceptor [] ex_home_done _ 1 _ Hn Hl Hok Hr Hx).
Defined.

Lemma home_staging_bounded_witness :
  staged_bytes (ex_stream ex_home_write) = 4 /\
  staged_bytes (ex_stream ex_home_write) <= MAX_STAGED_WRITE_BYTES_PER_STREAM /\
  (running (ex_home ex_home_write) = true ->
   len (default [] (pending (ex_home ex_home_write) !! 1)) + len (queued 1 (commands (ex_home ex_home_write))) <= staged_bytes (ex_stream ex_home_write) /\
   (write_waker (ex_stream ex_home_write) = true -> staged_bytes (ex_stream ex_home_write) = MAX_STAGED_WRITE_BYTES_PER_STREAM)).
Proof.
  assert (Hr : home_events ex_home_write (home_new sample_acceptor []) = Some (Ok (ex_home ex_home_write))) by (vm_compute; reflexivity).
  assert (Hx : streams (ex_home ex_home_write) !! 1 = Some (ex_stream ex_home_write)) by (vm_compute; reflexivity).
  split; [vm_compute; reflexivity|]. destruct ex_home_ok as (Hn & Hl & _).
  assert (Hok : Forall event_ok ex_home_write) by (repeat constructor; cbn; lia).
  exact (home_staging_bounded sample_limits sample_acceptor [] ex_home_write _ 1 _ Hn Hl Hok Hr Hx).
Defined.

Definition ex_bad_control : home_event := DriverReads (RBytes (wires [mkFrame 0 FLAG_OPEN []])) 8.
Definition ex_home_stopped : Home :=
  match home_turn ex_bad_control (ex_home ex_home_write) with Some (Ok h) => h | _ => ex_home ex_home_write end.

Lemma home_stop_reasons_witness :
  exists reason, close_reason (tally ex_home_stopped) = close_code reason /\
    read_reasons (RBytes (wires [mkFrame 0 FLAG_OPEN []])) reason /\ (reason = WriteFailed -> false ∈ @nil bool) /\
    forall sid n bytes, snd (poll_read sid n ex_home_stopped) = Failed /\ snd (poll_write sid bytes ex_home_stopped) = Failed /\
      poll_flush sid ex_home_stopped = Failed.
Proof.
  assert (Hr : home_events ex_home_write (home_new sample_acceptor []) = Some (Ok (ex_home ex_home_write))) by (vm_compute; reflexivity).
  assert (Ht : home_turn ex_bad_control (ex_home ex_home_write) = Some (Ok ex_home_stopped)) by (vm_compute; reflexivity).
  assert (H1 : running (ex_home ex_home_write) = true) by (vm_compute; reflexivity).
  assert (H2 : running ex_home_stopped = false) by (vm_compute; reflexivity).
  destruct ex_home_ok as (Hn & Hl & _). assert (Hok : Forall event_ok ex_home_write) by (repeat constructor; cbn; lia).
  exact (home_stop_reasons sample_limits sample_acceptor [] ex_home_write _ ex_bad_control _ Hn Hl Hok Hr H1 I Ht H2).
Defined.

(** A writer with more than a chunk: after the first turn one byte is left, the
    stream is queued again, and the driver has woken itself. *)
Definition ex_home_big : list home_event :=
  ex_home_open ++ [UserWrites 1 (repeat Byte.x61 (Z.to_nat (RECOMMENDED_CHUNK + 1))); DriverTakes 9].

Lemma home_no_lost_wakeup_witness :
  pending (ex_home ex_home_big) !! 1 = Some [Byte.x61] /\ commands (ex_home ex_home_big) = [CWake] /\
  (forall q, pending (ex_home ex_home_big) !! 1 = Some q ->
     1 ∈ ready (ex_home ex_home_big) /\ CWake ∈ commands (ex_home ex_home_big) \/
     forall s, hstreams (acceptor (ex_home ex_home_big)) !! 1 = Some s -> hsend_credit s < Z.min (len q) RECOMMENDED_CHUNK) /\
  (1 ∈ closing (ex_home ex_home_big) ->
     1 ∈ ready (ex_home ex_home_big) /\ CWake ∈ commands (ex_home ex_home_big) \/ is_Some (pending (ex_home ex_home_big) !! 1)).
Proof.
  pose proof (ex_home_spec ex_home_big) as Hr.
  assert (H0 : match home_events ex_home_big (home_new sample_acceptor []) with Some (Ok _) => true | _ => false end = true)
    by (vm_compute; reflexivity).
  assert (H1 : running (ex_home ex_home_big) = true) by (vm_compute; reflexivity).
  split; [vm_compute; reflexivity|]. split; [vm_compute; reflexivity|]. destruct ex_home_ok as (Hn & Hl & _).
  assert (Hok : Forall event_ok ex_home_big) by (clear; unfold ex_home_big; repeat constructor).
  exact (home_no_lost_wakeup sample_limits sample_acceptor [] ex_home_big (ex_home ex_home_big) 1 Hn Hl Hok (Hr H0) H1).
Defined.
