(* ===== verification/FlowControl.v ===== *)
(** * Credit across a link

    The two ends of one stream direction, composed.  What a sender and a
    receiver promise each other is stated as two classes; a link is a sender, the
    payloads and grants in flight, and a receiver.  The theorems are proved
    against the classes and hold for every pair of implementations: the dialer's
    [WindowedUpload], either direction of the listener's [MuxAcceptor], and the
    [RecvWindow] both of the dialer's response paths embed. *)

From stdpp Require Import relations.
From S2P Require Import Prelude Frame Text Http Window Upload HomeMux.

(** The promise of a sending end: it never sends beyond its credit, accepts
    any grant that keeps the credit within 2^31 - 1, and neither gains nor loses
    credit when its application stages bytes. *)
Class CreditSender (S : Type) := {
  sc_credit : S -> Z;
  sc_ok : S -> Prop;
  sc_stage : S -> list byte -> S -> Prop;
  sc_send : S -> list byte -> S -> Prop;
  sc_grant : S -> Z -> S -> Prop;
  sc_credit_nonneg s : sc_ok s -> 0 <= sc_credit s;
  sc_stage_law s b s' : sc_ok s -> sc_stage s b s' -> sc_credit s' = sc_credit s /\ sc_ok s';
  sc_send_law s p s' : sc_ok s -> sc_send s p s' ->
    len p <= sc_credit s /\ sc_credit s' = sc_credit s - len p /\ sc_ok s';
  sc_grant_total s g : sc_ok s -> 0 <= g < 2 ^ 32 -> sc_credit s + g <= MAX_SEND_CREDIT ->
    exists s', sc_grant s g s';
  sc_grant_law s g s' : sc_ok s -> 0 <= g < 2 ^ 32 -> sc_grant s g s' ->
    sc_credit s' = sc_credit s + g /\ sc_ok s'
}.

(** The promise of a receiving end: it accepts any payload within its credit,
    and returns everything consumed once half a window has accumulated. *)
Class CreditReceiver (R : Type) := {
  rc_credit : R -> Z;
  rc_held : R -> Z;
  rc_ok : R -> Prop;
  rc_deliver : R -> list byte -> R -> Prop;
  rc_consume : R -> Z -> R -> option Z -> Prop;
  rc_bounds r : rc_ok r -> 0 <= rc_credit r /\ 0 <= rc_held r /\
    INITIAL_WINDOW - RECEIVE_GRANT_THRESHOLD < rc_credit r + rc_held r <= INITIAL_WINDOW;
  rc_deliver_total r p : rc_ok r -> len p <= rc_credit r -> exists r', rc_deliver r p r';
  rc_deliver_law r p r' : rc_ok r -> rc_deliver r p r' ->
    rc_credit r' = rc_credit r - len p /\ rc_held r' = rc_held r + len p /\ rc_ok r';
  rc_consume_total r n : rc_ok r -> 0 <= n <= rc_held r -> exists r' g, rc_consume r n r' g;
  rc_consume_law r n r' g : rc_ok r -> 0 <= n -> rc_consume r n r' g ->
    rc_credit r' = rc_credit r + granted g /\ rc_held r' = rc_held r - n /\ rc_ok r' /\
    0 <= granted g < 2 ^ 32
}.

Section link.
Context {S R : Type} `{CreditSender S} `{CreditReceiver R}.

(** A link; both channels are ordered. *)
Record link := mkLink {
  sender : S;
  data_in_flight : list (list byte);
  grants_in_flight : list Z;
  receiver : R
}.

Inductive link_step : link -> link -> Prop :=
| step_stage s b s' ds gs r :
    sc_stage s b s' -> link_step (mkLink s ds gs r) (mkLink s' ds gs r)
| step_send s p s' ds gs r :
    sc_send s p s' -> link_step (mkLink s ds gs r) (mkLink s' (ds ++ [p]) gs r)
| step_deliver s p ds gs r r' :
    rc_deliver r p r' -> link_step (mkLink s (p :: ds) gs r) (mkLink s ds gs r')
| step_consume s ds gs r n r' g :
    0 <= n -> rc_consume r n r' g ->
    link_step (mkLink s ds gs r)
      (mkLink s ds (gs ++ match g with Some x => [x] | None => [] end) r')
| step_grant s g s' ds gs r :
    sc_grant s g s' -> link_step (mkLink s ds (g :: gs) r) (mkLink s' ds gs r).

(** The conservation law: credit is at the sender, in flight as data, or in
    flight as a grant, and together it is what the receiver expects. *)
Record link_ok (k : link) : Prop := {
  lk_sender : sc_ok (sender k);
  lk_receiver : rc_ok (receiver k);
  lk_grants : Forall (fun g => 0 <= g < 2 ^ 32) (grants_in_flight k);
  lk_balance : sc_credit (sender k) + zsum (fun p => len p) (data_in_flight k)
               + zsum id (grants_in_flight k) = rc_credit (receiver k)
}.

Ltac view := cbn [sender receiver data_in_flight grants_in_flight] in *.

Lemma link_ok_step k k' : link_step k k' -> link_ok k -> link_ok k'.
Proof.
  intros Hs [Hsd Hrc Hg Hb]. destruct Hs as [s b s' ds gs r Hst|s p s' ds gs r Hsend|s p ds gs r r' Hdel
    |s ds gs r n r' g Hn Hcon|s g s' ds gs r Hgr]; view.
  - destruct (sc_stage_law s b s' Hsd Hst) as [Hc Hok]. split; view; [done..|]. lia.
  - destruct (sc_send_law s p s' Hsd Hsend) as (Hle & Hc & Hok). split; view; [done..|].
    rewrite zsum_app, !zsum_cons. cbn. lia.
  - destruct (rc_deliver_law r p r' Hrc Hdel) as (Hc & Hh & Hok). rewrite zsum_cons in Hb.
    split; view; [done..|]. lia.
  - destruct (rc_consume_law r n r' g Hrc Hn Hcon) as (Hc & Hh & Hok & Hr). split; view; [done..| |].
    + apply Forall_app. split; [done|]. destruct g; [by constructor|done].
    + rewrite zsum_app. destruct g as [x|]; unfold granted in Hc;
        [rewrite zsum_cons; change (id x) with x|]; change (zsum id []) with 0; lia.
  - apply Forall_cons_1 in Hg as [Hg1 Hg2]. rewrite zsum_cons in Hb. unfold id at 1 in Hb.
    destruct (sc_grant_law s g s' Hsd Hg1 Hgr) as [Hc Hok]. split; view; [done..|]. lia.
Qed.

Lemma link_ok_reachable k k' : link_ok k -> rtc link_step k k' -> link_ok k'.
Proof. intros Hk. induction 1; eauto using link_ok_step. Qed.

(** What the conservation law buys. *)
Lemma link_ok_safe k :
  link_ok k ->
  (forall p, head (data_in_flight k) = Some p -> exists r', rc_deliver (receiver k) p r') /\
  (forall g, head (grants_in_flight k) = Some g -> exists s', sc_grant (sender k) g s') /\
  (data_in_flight k = [] -> grants_in_flight k = [] -> rc_held (receiver k) = 0 ->
   INITIAL_WINDOW - RECEIVE_GRANT_THRESHOLD < sc_credit (sender k)).
Proof.
  intros [Hsd Hrc Hg Hb]. destruct k as [s ds gs r]. view.
  pose proof (rc_bounds r Hrc) as (Hc0 & Hh0 & Hlo & Hhi). pose proof (sc_credit_nonneg s Hsd) as Hs0.
  assert (Hds : 0 <= zsum (fun p => len p) ds) by (apply zsum_nonneg, Forall_true; lia).
  assert (Hgs : 0 <= zsum id gs).
  { apply zsum_nonneg. eapply Forall_impl; [|exact Hg]. unfold id. cbn. lia. }
  split_and!.
  - intros p Hp. destruct ds as [|q ds]; [done|]. injection Hp as ->. apply rc_deliver_total; [done|].
    rewrite zsum_cons in Hb. assert (0 <= zsum (fun p => len p) ds) by (apply zsum_nonneg, Forall_true; lia). lia.
  - intros g Hp. destruct gs as [|x gs]; [done|]. injection Hp as ->.
    apply Forall_cons_1 in Hg as [Hg1 Hg2]. apply sc_grant_total; [done..|].
    assert (0 <= zsum id gs).
    { apply zsum_nonneg. eapply Forall_impl; [|exact Hg2]. unfold id. cbn. lia. }
    change INITIAL_WINDOW with 1048576 in *. unfold MAX_SEND_CREDIT.
    rewrite zsum_cons in Hb. unfold id at 1 in Hb. lia.
  - intros -> -> Hh. cbn in Hb. lia.
Qed.
End link.

Arguments link : clear implicits.

(** ** Implementations *)

(** The dialer's receive window. *)
#[export] Program Instance window_receiver : CreditReceiver RecvWindow := {|
  rc_credit := credit;
  rc_held := outstanding;
  rc_ok := wf_window;
  rc_deliver w p w' := debit w (len p) = (w', Ok tt);
  rc_consume w n w' g := consume w n = (w', Ok g)
|}.
Next Obligation. intros r H. window_arith. Qed.
Next Obligation. intros r p Hr Hp. destruct (debit_ok r (len p) Hr ltac:(lia)) as (r' & E & _). by exists r'. Qed.
Next Obligation.
  cbv beta. intros r p r' Hr E. destruct (decide (len p <= credit r)) as [Hle|Hgt].
  - destruct (debit_ok r (len p) Hr ltac:(lia)) as (r2 & E2 & ? & ? & ?).
    rewrite E2 in E. by simplify_eq.
  - by rewrite debit_err in E by lia.
Qed.
Next Obligation. intros r n Hr Hn. destruct (consume_ok r n Hr Hn) as (r' & g & E & _). by exists r', g. Qed.
Next Obligation.
  cbv beta. intros r n r' g Hr Hn E. destruct (decide (n <= outstanding r)) as [Hle|Hgt].
  - destruct (consume_ok r n Hr ltac:(lia)) as (r2 & g2 & E2 & ? & ? & ? & Hg). rewrite E2 in E. simplify_eq.
    split_and!; [done..| |]; destruct g as [x|]; cbn; try lia; change INITIAL_WINDOW with 1048576 in *;
      change RECEIVE_GRANT_THRESHOLD with 524288 in *; lia.
  - rewrite consume_panics in E by (done || lia). done.
Qed.

(** The dialer's upload, once its opening frame is sent. *)
Definition upload_ok (u : WindowedUpload) : Prop :=
  is_u32 (up_stream_id u) /\ 0 <= head_offset u <= len (up_head u) /\ 0 <= send_credit u < 2 ^ 31 /\
  opened u = true.

Lemma wire_inj f g : wf_frame f -> wf_frame g -> wire f = wire g -> f = g.
Proof.
  intros Hf Hg E. pose proof (next_frame_wire f [] Hf) as H1. pose proof (next_frame_wire g [] Hg) as H2.
  rewrite E, H2 in H1. congruence.
Qed.

(** A [poll_send] that emits a DATA frame spends exactly its payload. *)
Lemma poll_send_spends u p w u' :
  upload_ok u -> poll_send u = (u', Ok (Some w)) ->
  encode (mkFrame (up_stream_id u) FLAG_DATA p) = Ok w ->
  len p <= send_credit u /\ send_credit u' = send_credit u - len p /\ upload_ok u'.
Proof.
  intros (Hs & Ho & Hc & Hop) Hp He. unfold poll_send, usub, checked_sub in Hp. rewrite Hop in Hp.
  rewrite (proj2 (Z.leb_le _ _)) in Hp by lia. cbn [expect] in Hp. cbv zeta in Hp.
  assert (Hwf : wf_frame (mkFrame (up_stream_id u) FLAG_DATA p)) by (by eapply encode_wf).
  apply encode_wire in He.
  set (avail := if len (up_head u) - head_offset u >? 0 then _ else _) in Hp.
  destruct (Z.gtb_spec avail 0) as [Ha|Ha].
  2:{ destruct (_ && _); [|done]. exfalso.
      assert (Hcl : wf_frame (mkFrame (up_stream_id u) FLAG_CLOSE [])) by (split_and!; done).
      rewrite (encode_ok _ Hcl), He in Hp. cbn [fmap res_fmap] in Hp. by injection Hp. }
  destruct (Z.eqb_spec (send_credit u) 0) as [|Hc0]; [done|].
  set (n := Z.min _ _) in Hp. set (chunk := if _ >? 0 then slice _ _ _ else _) in Hp.
  assert (Hn : 0 < n <= send_credit u /\ n <= avail /\ n <= MAX_PAYLOAD).
  { unfold n, RECOMMENDED_CHUNK, MAX_PAYLOAD in *. lia. }
  assert (Hlen : len chunk = n).
  { unfold chunk. unfold avail in Hn. destruct (_ >? 0).
    - rewrite len_slice by lia. lia.
    - rewrite len_take by lia. done. }
  destruct (encode (mkFrame _ _ chunk)) as [w'|e|] eqn:Ew; [|done..]. cbn in Hp. injection Hp as <- <-.
  apply encode_wire in Ew. rewrite He in Ew. apply wire_inj in Ew; [|done|].
  2:{ unfold wf_frame. cbn. rewrite Hlen. split; [done|]. split; [done|lia]. }
  injection Ew as ->. rewrite Hlen. unfold avail in Hn. clearbody n.
  destruct (_ >? 0); unfold upload_ok; cbn; (split; [lia|]); (split; [lia|]); (split; [done|]); lia.
Qed.

#[export] Program Instance upload_sender : CreditSender WindowedUpload := {|
  sc_credit := send_credit;
  sc_ok := upload_ok;
  sc_stage u b u' := feed_body u b = (u', Ok tt);
  sc_send u p u' := exists w, poll_send u = (u', Ok (Some w)) /\
    encode (mkFrame (up_stream_id u) FLAG_DATA p) = Ok w;
  sc_grant u g u' := grant u g = (u', Ok tt)
|}.
Next Obligation. cbv beta. intros u (_ & _ & H & _). lia. Qed.
Next Obligation.
  cbv beta. intros u b u' Hu E. unfold feed_body in E. repeat case_match; simplify_eq/=; done.
Qed.
Next Obligation. cbv beta. intros u p u' Hu (w & Hp & He). by eapply poll_send_spends. Qed.
Next Obligation.
  cbv beta. intros u g (_ & _ & Hc & _) Hg Hle. unfold grant, checked_add, MAX_SEND_CREDIT in *.
  rewrite (proj2 (Z.ltb_lt _ _)) by lia. replace (_ >? _) with false by lia. by eexists.
Qed.
Next Obligation.
  cbv beta. intros u g u' (Hs & Ho & Hc & Hop) Hg E. unfold grant, checked_add in E. destruct (_ <? _); [|done].
  destruct (Z.gtb_spec (send_credit u + g) (2 ^ 31 - 1)); [done|]. injection E as <-.
  unfold upload_ok. cbn. split; [done|]. split; [done|]. split; [done|]. split; [lia|done].
Qed.

(** One stream of the listener, as both ends.  It stages nothing: what cannot be
    sent stays with the application. *)
Definition home_end (sid : Z) : Type := MuxAcceptor.

Definition home_stream (sid : Z) (a : home_end sid) : StreamState :=
  default (mkStreamState window_new 0 0 true true) (hstreams a !! sid).

(** The stream is live, with the given direction still open. *)
Definition home_live (sid : Z) (closed : StreamState -> bool) (a : home_end sid) : Prop :=
  (exists m, cinv a m) /\ exists s, hstreams a !! sid = Some s /\ closed s = false.

Lemma home_live_stream sid c (a : home_end sid) :
  home_live sid c a ->
  hstreams a !! sid = Some (home_stream sid a) /\ c (home_stream sid a) = false /\
  hstream_ok (peer_high_water a) sid (home_stream sid a).
Proof.
  intros [[m [[[_ Hs _] _ _] _]] (s & E & Hc)]. unfold home_stream. rewrite E. cbn.
  split_and!; [done..|]. by apply (Hs _ _ E).
Qed.

Lemma odd_nonzero sid : sid mod 2 = 1 -> sid <> 0.
Proof. intros H ->. done. Qed.

(** Replacing the stream's record keeps the acceptor in order. *)
Lemma home_live_set sid c (a : home_end sid) s :
  home_live sid c a -> hstream_ok (peer_high_water a) sid s -> c s = false ->
  peer_closed s = peer_closed (home_stream sid a) -> home_live sid c (set_stream a sid s).
Proof.
  intros Hl Hok Hc Hp. destruct (home_live_stream _ _ _ Hl) as (E & _ & _).
  destruct Hl as [[m [I Hph]] _]. split.
  - exists m. split; [by eapply minv_set_same|by apply (phase_same a)].
  - exists s. cbn. by rewrite lookup_insert_eq.
Qed.

Lemma home_stream_set sid (a : home_end sid) s : home_stream sid (set_stream a sid s) = s.
Proof. unfold home_stream. cbn. by rewrite lookup_insert_eq. Qed.

Definition with_window (s : StreamState) (w : RecvWindow) (d : Z) : StreamState :=
  mkStreamState w d (hsend_credit s) (peer_closed s) (local_closed s).
Definition with_credit (s : StreamState) (c : Z) : StreamState :=
  mkStreamState (receive_window s) (debited_not_consumed s) c (peer_closed s) (local_closed s).

(** A DATA frame on a live stream. *)
Lemma home_data_frame sid (a : home_end sid) p :
  home_live sid peer_closed a ->
  let s := home_stream sid a in
  if len p <=? credit (receive_window s)
  then exists w, debit (receive_window s) (len p) = (w, Ok tt) /\
    handle_frame a (mkFrame sid FLAG_DATA p) output_default
    = (set_stream a sid (with_window s w (debited_not_consumed s + len p)),
       Ok (push_event output_default (DataEvent sid p)))
  else exists a' o, handle_frame a (mkFrame sid FLAG_DATA p) output_default = (a', Ok o) /\ orefusals o <> [].
Proof.
  intros Hl s. destruct (home_live_stream _ _ _ Hl) as (E & Hc & [[Hu Hodd] _ Hw Hd _ _]). fold s in E, Hc, Hw, Hd.
  unfold handle_frame. cbn [stream_id flags]. rewrite (proj2 (Z.eqb_neq _ _) (odd_nonzero _ Hodd)).
  rewrite bool_decide_eq_true_2 by (rewrite E; by eexists). cbn.
  unfold handle_data, refuse. cbn [stream_id payload]. rewrite E, Hc.
  destruct (Z.leb_spec (len p) (credit (receive_window s))) as [Hle|Hgt].
  - destruct (debit_ok (receive_window s) (len p) Hw ltac:(lia)) as (w & -> & Hw' & _ & Ho').
    exists w. split; [done|]. unfold checked_add. rewrite (proj2 (Z.ltb_lt _ _)).
    2:{ rewrite Hd, <- Ho'. clear -Hw'. window_arith. }
    unfold with_window. by rewrite Hc.
  - rewrite debit_err by lia. do 2 eexists. split; [done|]. unfold refuse_violation. by case_bool_decide.
Qed.

(** A WINDOW frame on a live stream. *)
Lemma home_window_frame sid (a : home_end sid) g :
  home_live sid local_closed a -> 0 <= g < 2 ^ 32 ->
  let s := home_stream sid a in
  if hsend_credit s + g <=? MAX_SEND_CREDIT
  then handle_frame a (window sid g) output_default
    = (set_stream a sid (with_credit s (hsend_credit s + g)), Ok (push_writable output_default sid))
  else exists a' o, handle_frame a (window sid g) output_default = (a', Ok o) /\ orefusals o <> [].
Proof.
  intros Hl Hg s. destruct (home_live_stream _ _ _ Hl) as (E & Hc & [[Hu Hodd] _ _ _ Hcr _]). fold s in E, Hc, Hcr.
  unfold handle_frame. cbn [stream_id flags window]. rewrite (proj2 (Z.eqb_neq _ _) (odd_nonzero _ Hodd)).
  rewrite bool_decide_eq_true_2 by (rewrite E; by eexists). cbn.
  unfold handle_window, refuse. change (window_credit _) with (Some (be_val (be_bytes 4 g))).
  rewrite be_val_be_bytes, Z.mod_small by (change (256 ^ Z.of_nat 4) with (2 ^ 32); lia).
  change (stream_id (window sid g)) with sid. rewrite E. unfold checked_add, MAX_SEND_CREDIT in *.
  rewrite (proj2 (Z.ltb_lt _ _)) by lia.
  destruct (Z.leb_spec (hsend_credit s + g) (2 ^ 31 - 1)) as [Hle|Hgt].
  - by replace (_ >? _) with false by lia.
  - replace (_ >? _) with true by lia. do 2 eexists. split; [done|]. unfold refuse_violation. by case_bool_decide.
Qed.

#[export] Program Instance home_sender (sid : Z) : CreditSender (home_end sid) := {|
  sc_credit a := hsend_credit (home_stream sid a);
  sc_ok := home_live sid local_closed;
  sc_stage _ _ _ := False;
  sc_send a p a' := exists o, try_send_data a sid p = (a', Ok (Some o));
  sc_grant a g a' := exists o, handle_frame a (window sid g) output_default = (a', Ok o) /\ orefusals o = []
|}.
Next Obligation. cbv beta. intros sid a Hl. destruct (home_live_stream _ _ _ Hl) as (_ & _ & []). lia. Qed.
Next Obligation. done. Qed.
Next Obligation.
  cbv beta. intros sid a p a' Hl (o & H). destruct (home_live_stream _ _ _ Hl) as (E & Hc & Hok).
  unfold try_send_data in H. destruct (_ >? RECOMMENDED_CHUNK); [done|]. rewrite E, Hc in H.
  destruct (Z.gtb_spec (len p) (hsend_credit (home_stream sid a))) as [|Hle]; [done|].
  unfold checked_sub in H. rewrite (proj2 (Z.leb_le _ _)) in H by lia. injection H as <- _.
  rewrite home_stream_set. cbn. split_and!; [lia|done|]. apply home_live_set; [done| |done..].
  destruct Hok. split; cbn; [done..|lia|]. by rewrite Hc in *.
Qed.
Next Obligation.
  cbv beta. intros sid a g Hl Hg Hle. pose proof (home_window_frame sid a g Hl Hg) as H. cbv zeta in H.
  rewrite (proj2 (Z.leb_le _ _) Hle) in H. rewrite H. by do 2 eexists.
Qed.
Next Obligation.
  cbv beta. intros sid a g a' Hl Hg (o & H & Hr). pose proof (home_window_frame sid a g Hl Hg) as Hf. cbv zeta in Hf.
  destruct (home_live_stream _ _ _ Hl) as (E & Hc & Hok).
  destruct (Z.leb_spec (hsend_credit (home_stream sid a) + g) MAX_SEND_CREDIT) as [Hle|Hgt].
  - rewrite Hf in H. injection H as <- _. rewrite home_stream_set. cbn. split; [done|].
    apply home_live_set; [done| |done..]. destruct Hok. split; cbn; [done..|lia|done].
  - destruct Hf as (a2 & o2 & Hf & Hne). rewrite Hf in H. by simplify_eq.
Qed.

(** [home_consume] within what the application holds. *)
Lemma home_consume_live sid (a : home_end sid) n :
  home_live sid peer_closed a -> 0 <= n <= debited_not_consumed (home_stream sid a) ->
  let s := home_stream sid a in
  exists w g, credit w = credit (receive_window s) + granted g /\
    home_consume a sid n
    = (set_stream a sid (with_window s w (debited_not_consumed s - n)),
       Ok (match g with Some x => push_frame output_default (window sid x) | None => output_default end)) /\
    0 <= granted g < 2 ^ 32 /\
    hstream_ok (peer_high_water a) sid (with_window s w (debited_not_consumed s - n)) /\
    peer_closed s = false.
Proof.
  intros Hl Hn s. destruct (home_live_stream _ _ _ Hl) as (E & Hc & [? ? Hw Hd ? ?]).
  fold s in E, Hc, Hw, Hd, Hn. unfold home_consume. rewrite E.
  replace (n >? debited_not_consumed s) with false by lia.
  destruct (consume_ok (receive_window s) n Hw ltac:(lia)) as (w & g & -> & Hw' & Hcr & Ho & Hg).
  exists w, g. unfold checked_sub. rewrite (proj2 (Z.leb_le _ _)) by lia. split; [done|].
  split; [by destruct g|]. split; [|split; [|done]].
  - destruct g; cbn; [|lia]. change INITIAL_WINDOW with 1048576 in Hg.
    change RECEIVE_GRANT_THRESHOLD with 524288 in Hg. lia.
  - split; cbn; [done..|lia|done|done].
Qed.

#[export] Program Instance home_receiver (sid : Z) : CreditReceiver (home_end sid) := {|
  rc_credit a := credit (receive_window (home_stream sid a));
  rc_held a := debited_not_consumed (home_stream sid a);
  rc_ok := home_live sid peer_closed;
  rc_deliver a p a' := exists o, handle_frame a (mkFrame sid FLAG_DATA p) output_default = (a', Ok o) /\
    orefusals o = [] /\ mevents o = [DataEvent sid p];
  rc_consume a n a' g := exists o, home_consume a sid n = (a', Ok o) /\
    frames o = match g with Some x => [window sid x] | None => [] end /\ 0 <= granted g < 2 ^ 32
|}.
Next Obligation.
  cbv beta. intros sid a Hl. destruct (home_live_stream _ _ _ Hl) as (_ & _ & [_ _ Hw Hd _ _]).
  rewrite Hd. clear Hd. window_arith.
Qed.
Next Obligation.
  cbv beta. intros sid a p Hl Hp. pose proof (home_data_frame sid a p Hl) as H. cbv zeta in H.
  rewrite (proj2 (Z.leb_le _ _) Hp) in H. destruct H as (w & _ & H). rewrite H. by do 2 eexists.
Qed.
Next Obligation.
  cbv beta. intros sid a p a' Hl (o & H & Hr & _). pose proof (home_data_frame sid a p Hl) as Hf. cbv zeta in Hf.
  destruct (home_live_stream _ _ _ Hl) as (E & Hc & Hok).
  destruct (Z.leb_spec (len p) (credit (receive_window (home_stream sid a)))) as [Hle|Hgt].
  - destruct Hf as (w & Hw & Hf). rewrite Hf in H. injection H as <- _. rewrite home_stream_set. cbn.
    destruct Hok as [? ? Hwf Hd ? ?].
    destruct (debit_ok _ _ Hwf (conj (Zle_0_nat (length p)) Hle)) as (w2 & Hw2 & Hwf2 & Hcr & Ho).
    rewrite Hw in Hw2. injection Hw2 as <-. split_and!; [done..|].
    apply home_live_set; [done| |done..]. split; cbn; [done..|lia|done|done].
  - destruct Hf as (a2 & o2 & Hf & Hne). rewrite Hf in H. by simplify_eq.
Qed.
Next Obligation.
  cbv beta. intros sid a n Hl Hn. destruct (home_consume_live sid a n Hl Hn) as (w & g & _ & H & Hg & _).
  rewrite H. do 3 eexists. split; [done|]. split; [|exact Hg]. by destruct g.
Qed.
Next Obligation.
  cbv beta. intros sid a n a' g Hl Hn (o & H & Hfr & Hg).
  destruct (home_live_stream _ _ _ Hl) as (E & Hc & Hok).
  destruct (decide (n <= debited_not_consumed (home_stream sid a))) as [Hle|Hgt].
  2:{ unfold home_consume in H. rewrite E in H. by replace (n >? _) with true in H by lia. }
  destruct (home_consume_live sid a n Hl (conj Hn Hle)) as (w & g' & Hcr & H' & Hg' & Hd & Hs).
  rewrite H in H'. injection H' as -> ->. rewrite home_stream_set.
  assert (g = g') as <-.
  { destruct g as [x|], g' as [y|]; cbn in Hfr; try done. injection Hfr as Hw. f_equal.
    apply (be_bytes_inj 4); [exact Hg|exact Hg'|]. cbn. congruence. }
  cbn. split_and!; [done..| |lia|lia]. apply home_live_set; done.
Qed.

(** ** Properties *)

(** C14. Uploads do not trip over flow control.  Take an upload and a listener
    whose stream agree on the remaining credit, and let them run: body bytes are
    fed to the upload, DATA frames leave, arrive and are consumed, grants travel
    back, in any interleaving and with any amount in flight.  Then the next DATA frame to arrive is accepted,
    not refused, whatever its bytes; the next grant to arrive is accepted; and
    when nothing is in flight and the application has consumed everything, the
    upload holds more than half a window, so it is never stuck. *)
Theorem upload_link_safe sid (u : WindowedUpload) (a : home_end sid) (k : link WindowedUpload (home_end sid)) :
  upload_ok u -> home_live sid peer_closed a ->
  send_credit u = credit (receive_window (home_stream sid a)) ->
  rtc link_step (mkLink u [] [] a) k ->
  (forall p rest, data_in_flight k = p :: rest ->
     exists a' o, handle_frame (receiver k) (mkFrame sid FLAG_DATA p) output_default = (a', Ok o) /\
       orefusals o = [] /\ mevents o = [DataEvent sid p]) /\
  (forall g rest, grants_in_flight k = g :: rest -> exists u', grant (sender k) g = (u', Ok tt)) /\
  (data_in_flight k = [] -> grants_in_flight k = [] ->
   debited_not_consumed (home_stream sid (receiver k)) = 0 ->
   INITIAL_WINDOW - RECEIVE_GRANT_THRESHOLD < send_credit (sender k)).
Proof.
  intros Hu Ha Hcr Hk.
  assert (H0 : link_ok (mkLink u [] [] a)).
  { split; cbn [sender receiver data_in_flight grants_in_flight]; [done..|]. cbn. lia. }
  destruct (link_ok_safe k (link_ok_reachable _ _ H0 Hk)) as (H1 & H2 & H3).
  split; [|split; [|exact H3]].
  - intros p rest Hd. destruct (H1 p) as (a' & o & Hf); [by rewrite Hd|]. by exists a', o.
  - intros g rest Hg. apply H2. by rewrite Hg.
Qed.

(** Responses do not trip over flow control: the same for the listener as
    the sender and the dialer's receive window, in the other direction. *)
Theorem download_link_safe sid (a : home_end sid) (w : RecvWindow) (k : link (home_end sid) RecvWindow) :
  home_live sid local_closed a -> wf_window w ->
  hsend_credit (home_stream sid a) = credit w ->
  rtc link_step (mkLink a [] [] w) k ->
  (forall p rest, data_in_flight k = p :: rest -> exists w', debit (receiver k) (len p) = (w', Ok tt)) /\
  (forall g rest, grants_in_flight k = g :: rest ->
     exists a' o, handle_frame (sender k) (window sid g) output_default = (a', Ok o) /\ orefusals o = []) /\
  (data_in_flight k = [] -> grants_in_flight k = [] -> outstanding (receiver k) = 0 ->
   INITIAL_WINDOW - RECEIVE_GRANT_THRESHOLD < hsend_credit (home_stream sid (sender k))).
Proof.
  intros Ha Hw Hcr Hk.
  assert (H0 : link_ok (mkLink a [] [] w)).
  { split; cbn [sender receiver data_in_flight grants_in_flight]; [done..|]. cbn. lia. }
  destruct (link_ok_safe k (link_ok_reachable _ _ H0 Hk)) as (H1 & H2 & H3).
  split; [|split; [|exact H3]].
  - intros p rest Hd. apply H1. by rewrite Hd.
  - intros g rest Hg. apply H2. by rewrite Hg.
Qed.

Lemma cinv_feed a m bytes a' o : cinv a m -> home_feed a bytes = (a', Ok o) -> exists m', cinv a' m'.
Proof.
  intros I H. pose proof (feed_bytes_good bytes a m output_default I) as Hg.
  unfold home_feed in H. rewrite H in Hg. destruct Hg as (d & m' & _ & _ & I'). by exists m'.
Qed.

(** The listener after the opening frame of stream 1, and the upload that sent it. *)
Definition opened_acceptor : MuxAcceptor :=
  set_high_water (set_stream sample_acceptor 1
    (mkStreamState (mkRecvWindow (INITIAL_WINDOW - 5) 0) 5 INITIAL_WINDOW false false)) (Some 1).

Lemma opened_acceptor_live c : (forall s, c s = peer_closed s \/ c s = local_closed s) -> home_live 1 c opened_acceptor.
Proof.
  intros Hc. split.
  - apply (cinv_feed sample_acceptor ∅ (wire (mkFrame 1 0x03 (blit "GET /"))) _
      (mkMuxOutput [] [Opened 1; DataEvent 1 (blit "GET /")] [] []) cinv_sample).
    vm_compute. reflexivity.
  - eexists. split; [reflexivity|]. by destruct (Hc (mkStreamState (mkRecvWindow (INITIAL_WINDOW - 5) 0) 5
      INITIAL_WINDOW false false)) as [-> | ->].
Qed.

Definition opened_upload : WindowedUpload :=
  mkUpload 1 (blit "GET /") 5 (blit "abc") 6 3 0 (INITIAL_WINDOW - 5) true false.

Lemma opened_upload_poll :
  fst (poll_send (fst (feed_body (upload_new 1 (blit "GET /") 6) (blit "abc")))) = opened_upload.
Proof. vm_compute. reflexivity. Qed.

Lemma upload_link_safe_witness :
  exists k : link WindowedUpload (home_end 1),
    rtc link_step (mkLink opened_upload [] [] (opened_acceptor : home_end 1)) k /\
    data_in_flight k = [blit "abc"; blit "def"] /\
    exists a' o, handle_frame (receiver k) (mkFrame 1 FLAG_DATA (blit "abc")) output_default = (a', Ok o) /\
       orefusals o = [] /\ mevents o = [DataEvent 1 (blit "abc")].
Proof.
  set (u1 := fst (poll_send opened_upload)). set (u2 := fst (feed_body u1 (blit "def"))).
  set (k := mkLink (fst (poll_send u2)) (([] ++ [blit "abc"]) ++ [blit "def"]) [] (opened_acceptor : home_end 1)).
  assert (Hk : rtc link_step (mkLink opened_upload [] [] (opened_acceptor : home_end 1)) k).
  { eapply rtc_l; [apply (step_send _ (blit "abc") u1)|eapply rtc_l; [apply (step_stage _ (blit "def") u2)|
      eapply rtc_l; [apply (step_send _ (blit "def") (fst (poll_send u2)))|apply rtc_refl]]].
    - exists (wire (mkFrame 1 FLAG_DATA (blit "abc"))). split; vm_compute; reflexivity.
    - vm_compute. reflexivity.
    - exists (wire (mkFrame 1 FLAG_DATA (blit "def"))). split; vm_compute; reflexivity. }
  exists k. split; [exact Hk|]. split; [reflexivity|].
  apply (proj1 (upload_link_safe 1 opened_upload opened_acceptor k
    ltac:(repeat split; vm_compute; congruence)
    (opened_acceptor_live peer_closed (fun s => or_introl eq_refl)) eq_refl Hk) (blit "abc") [blit "def"]).
  reflexivity.
Defined.

Lemma download_link_safe_witness :
  exists k : link (home_end 1) RecvWindow,
    rtc link_step (mkLink (opened_acceptor : home_end 1) [] [] window_new) k /\
    data_in_flight k = [blit "HTTP/1.1 200 OK"] /\
    exists w', debit (receiver k) 15 = (w', Ok tt).
Proof.
  set (p := blit "HTTP/1.1 200 OK").
  set (k := mkLink (fst (try_send_data opened_acceptor 1 p) : home_end 1) ([] ++ [p]) [] window_new).
  assert (Hk : rtc link_step (mkLink (opened_acceptor : home_end 1) [] [] window_new) k).
  { eapply rtc_l; [|apply rtc_refl]. apply step_send.
    exists (mkMuxOutput [mkFrame 1 FLAG_DATA p] [] [] []). vm_compute. reflexivity. }
  exists k. split; [exact Hk|]. split; [reflexivity|].
  apply (proj1 (download_link_safe 1 opened_acceptor window_new k
    (opened_acceptor_live local_closed (fun s => or_intror eq_refl)) wf_window_new eq_refl Hk) p []).
  reflexivity.
Defined.
