(* ===== verification/Crockford.v ===== *)
(** * Crockford base32 ([crates/spl-core/src/crockford.rs])

    The pair-link fragment encoding: five bits per symbol, most significant
    first, with a 32-bit accumulator. *)

From S2P Require Import Prelude Text.

Definition ALPHABET : str := lit "0123456789ABCDEFGHJKMNPQRSTVWXYZ".

Inductive CrockfordError :=
| InvalidSymbol (c : Z)
| NonZeroPadding.

#[export] Instance CrockfordError_eq_dec : EqDecision CrockfordError.
Proof. solve_decision. Defined.

(** [Iterator::position] *)
Fixpoint position (p : Z -> bool) (l : str) : option Z :=
  match l with
  | [] => None
  | x :: l => if p x then Some 0 else Z.succ <$> position p l
  end.

(** [symbol_value] *)
Definition symbol_value (c : Z) : res CrockfordError Z :=
  let upper := to_ascii_uppercase c in
  let normalized :=
    if (upper =? 73) || (upper =? 76) then 49 else if upper =? 79 then 48 else upper in
  ok_or (position (fun a => a =? normalized) ALPHABET) (InvalidSymbol c).

(** The loop variables of [decode]: the [u32] buffer, the bit count and the output. *)
Record dec_state := mkDec { dbuffer : Z; dbits : Z; dout : list byte }.

(** One symbol in [decode]; [<<] on [u32] drops the bits shifted out. *)
Definition decode_symbol (st : dec_state) (value : Z) : dec_state :=
  let buffer := Z.lor (wrap 32 (Z.shiftl (dbuffer st) 5)) value in
  let bits := dbits st + 5 in
  if bits >=? 8
  then mkDec buffer (bits - 8) (dout st ++ [as_u8 (Z.shiftr buffer (bits - 8))])
  else mkDec buffer bits (dout st).

Fixpoint decode_loop (st : dec_state) (input : str) : res CrockfordError dec_state :=
  match input with
  | [] => Ok st
  | c :: input =>
      if c =? 45 then decode_loop st input
      else value ← symbol_value c; decode_loop (decode_symbol st value) input
  end.

(** [decode] *)
Definition decode (input : str) : res CrockfordError (list byte) :=
  st ← decode_loop (mkDec 0 0 []) input;
  if (dbits st >? 0) && negb (Z.land (dbuffer st) (Z.shiftl 1 (dbits st) - 1) =? 0)
  then Err NonZeroPadding
  else Ok (dout st).

(** The loop variables of [encode]; the output as the indices into [ALPHABET]. *)
Record enc_state := mkEnc { ebuffer : Z; ebits : Z; eout : list Z }.

(** The [while bits >= 5] loop; at most twelve bits are buffered, so three
    rounds are enough ([emit_symbols_done]). *)
Fixpoint emit_symbols (fuel : nat) (st : enc_state) : enc_state :=
  match fuel with
  | O => st
  | S fuel =>
      if ebits st >=? 5 then
        let bits := ebits st - 5 in
        emit_symbols fuel (mkEnc (ebuffer st) bits
                             (eout st ++ [Z.land (Z.shiftr (ebuffer st) bits) 0x1f]))
      else st
  end.

Definition encode_byte (st : enc_state) (b : byte) : enc_state :=
  emit_symbols 3 (mkEnc (Z.lor (wrap 32 (Z.shiftl (ebuffer st) 8)) (u8 b)) (ebits st + 8) (eout st)).

(** [ALPHABET[index]] *)
Definition alphabet_at (i : Z) : Z := default 0 (ALPHABET !! Z.to_nat i).

(** [encode] *)
Definition encode (bytes : list byte) : str :=
  let st := foldl encode_byte (mkEnc 0 0 []) bytes in
  let out :=
    if ebits st >? 0
    then eout st ++ [Z.land (wrap 32 (Z.shiftl (ebuffer st) (5 - ebits st))) 0x1f]
    else eout st in
  alphabet_at <$> out.

Example encode_ex : encode (blit "spl") = lit "EDR6R".
Proof. reflexivity. Qed.
Example decode_ex : decode (lit "ed-r6r") = Ok (blit "spl").
Proof. reflexivity. Qed.
Example decode_padding_ex : decode (lit "EDR6S") = Err NonZeroPadding.
Proof. reflexivity. Qed.

(** ** Lemmas *)

(** The number a list of five-bit symbols stands for. *)
Definition val32 (l : list Z) : Z := foldl (fun acc d => acc * 32 + d) 0 l.

Lemma val32_snoc l d : val32 (l ++ [d]) = val32 l * 32 + d.
Proof. unfold val32. by rewrite foldl_app. Qed.

Lemma be_val_snoc l b : be_val (l ++ [b]) = be_val l * 256 + u8 b.
Proof. unfold be_val. by rewrite foldl_app. Qed.

Lemma be_bytes_snoc n x : be_bytes (S n) x = be_bytes n (x / 256) ++ [as_u8 x].
Proof.
  revert x. induction n as [|n IH]; intros x.
  - cbn. by rewrite Z.div_1_r.
  - cbn [be_bytes app]. rewrite <- IH. cbn [be_bytes]. f_equal.
    rewrite Z.div_div by lia. do 2 f_equal. rewrite Nat2Z.inj_succ, Z.pow_succ_r; lia.
Qed.

Lemma shift_or buffer v k n :
  0 <= k -> 0 <= v < 2 ^ k -> 0 <= n <= 32 ->
  0 <= Z.lor (wrap 32 (Z.shiftl buffer k)) v /\
  Z.lor (wrap 32 (Z.shiftl buffer k)) v mod 2 ^ n = (buffer * 2 ^ k + v) mod 2 ^ n.
Proof.
  intros Hk Hv Hn. unfold wrap. rewrite Z.shiftl_mul_pow2 by done.
  assert (Hor : Z.lor ((buffer * 2 ^ k) mod 2 ^ 32) v = (buffer * 2 ^ k) mod 2 ^ 32 + v).
  { destruct (decide (k <= 32)) as [Hle|Hgt].
    - replace (2 ^ 32) with (2 ^ (32 - k) * 2 ^ k) by (rewrite <- Z.pow_add_r by lia; f_equal; lia).
      rewrite Zmult_mod_distr_r, <- Z.shiftl_mul_pow2 by done. rewrite lor_shiftl_add by lia.
      by rewrite Z.shiftl_mul_pow2 by done.
    - replace (2 ^ k) with (2 ^ (k - 32) * 2 ^ 32) by (rewrite <- Z.pow_add_r by lia; f_equal; lia).
      by rewrite Z.mul_assoc, Z_mod_mult. }
  rewrite Hor. pose proof (Z.mod_pos_bound (buffer * 2 ^ k) (2 ^ 32) ltac:(lia)). split; [lia|].
  rewrite (Z.add_mod _ v), (Z.add_mod (buffer * 2 ^ k) v) by (apply Z.pow_nonzero; lia).
  f_equal. f_equal. replace (2 ^ 32) with (2 ^ n * 2 ^ (32 - n)) by (rewrite <- Z.pow_add_r by lia; f_equal; lia).
  rewrite Z.rem_mul_r by (try apply Z.pow_nonzero; lia).
  rewrite (Z.mul_comm (2 ^ n)), Z_mod_plus_full. apply Z.mod_mod. apply Z.pow_nonzero; lia.
Qed.

(** Reading [k] bits from position [b] sees only the low [k + b] bits. *)
Lemma shiftr_window x b k : 0 <= b -> 0 <= k ->
  Z.shiftr x b mod 2 ^ k = (x mod 2 ^ (k + b)) / 2 ^ b.
Proof.
  intros Hb Hk. rewrite Z.shiftr_div_pow2 by done.
  rewrite Z.add_comm, Z.pow_add_r, Z.rem_mul_r by (try apply Z.pow_nonzero; lia).
  rewrite (Z.mul_comm (2 ^ b)), Z.div_add by (apply Z.pow_nonzero; lia).
  rewrite (Z.div_small (x mod 2 ^ b)) by (apply Z.mod_pos_bound, Z.pow_pos_nonneg; lia). lia.
Qed.

(** [decode]'s state after the symbols [vs]: the bytes are the whole octets of
    the number read so far, and the buffer agrees with it on the bits left over. *)
Record dec_inv (vs : list Z) (st : dec_state) : Prop := {
  di_bits : 0 <= dbits st < 8;
  di_count : 5 * len vs = 8 * len (dout st) + dbits st;
  di_out : dout st = be_bytes (length (dout st)) (val32 vs / 2 ^ dbits st);
  di_buffer : dbuffer st mod 2 ^ dbits st = val32 vs mod 2 ^ dbits st
}.

Lemma mod_scale a b k v n :
  0 <= n -> 0 <= k -> a mod 2 ^ n = b mod 2 ^ n -> (a * 2 ^ k + v) mod 2 ^ (n + k) = (b * 2 ^ k + v) mod 2 ^ (n + k).
Proof.
  intros Hn Hk H. rewrite (Z.add_mod (a * _)), (Z.add_mod (b * _)) by (apply Z.pow_nonzero; lia).
  do 2 f_equal. rewrite Z.pow_add_r, !Zmult_mod_distr_r by lia. by rewrite H.
Qed.

Lemma decode_symbol_inv vs st v :
  dec_inv vs st -> 0 <= v < 32 -> dec_inv (vs ++ [v]) (decode_symbol st v).
Proof.
  intros [Hb Hc Ho Hm] Hv. unfold decode_symbol. set (bits := dbits st + 5).
  set (buffer := Z.lor _ v).
  assert (Hbuf : buffer mod 2 ^ bits = val32 (vs ++ [v]) mod 2 ^ bits).
  { unfold buffer, bits. destruct (shift_or (dbuffer st) v 5 (dbits st + 5)) as [_ ->]; [lia..|].
    rewrite val32_snoc. change 32 with (2 ^ 5). apply mod_scale; [lia..|done]. }
  assert (Hdiv : val32 (vs ++ [v]) / 2 ^ bits = val32 vs / 2 ^ dbits st).
  { unfold bits. rewrite val32_snoc, Z.pow_add_r, (Z.mul_comm (2 ^ dbits st)) by lia.
    rewrite <- Z.div_div by (try apply Z.pow_nonzero; lia). f_equal.
    change (2 ^ 5) with 32. rewrite Z.div_add_l, (Z.div_small v) by lia. lia. }
  destruct (Z.geb_spec bits 8) as [H8|H8].
  - split; cbn [dbits dout dbuffer]; unfold bits in *.
    + lia.
    + clear -Hc. rewrite !length_app. cbn. lia.
    + rewrite length_app. cbn [length]. rewrite Nat.add_1_r, be_bytes_snoc. f_equal.
      * rewrite Ho at 1. f_equal. rewrite <- Hdiv, Z.div_div by (try apply Z.pow_nonzero; lia).
        f_equal. change 256 with (2 ^ 8). rewrite <- Z.pow_add_r by lia. f_equal. lia.
      * f_equal. apply u8_inj. rewrite !u8_as_u8. change 256 with (2 ^ 8).
        rewrite shiftr_window, Z.add_comm, Z.sub_add by lia. rewrite Hbuf.
        rewrite <- Z.shiftr_div_pow2 by lia. symmetry.
        replace (val32 (vs ++ [v]) / 2 ^ (dbits st + 5 - 8)) with (Z.shiftr (val32 (vs ++ [v])) (dbits st + 5 - 8))
          by (rewrite Z.shiftr_div_pow2 by lia; done).
        rewrite shiftr_window by lia. rewrite Z.shiftr_div_pow2 by lia. do 3 f_equal. lia.
    + assert (Hsub : forall x, x mod 2 ^ (dbits st + 5 - 8) = (x mod 2 ^ (dbits st + 5)) mod 2 ^ (dbits st + 5 - 8)).
      { intros x. replace (dbits st + 5) with (dbits st + 5 - 8 + 8) at 2 by lia.
        rewrite Z.pow_add_r, Z.rem_mul_r by (try apply Z.pow_nonzero; lia).
        rewrite (Z.mul_comm (2 ^ _)), Z_mod_plus_full. symmetry. apply Z.mod_mod, Z.pow_nonzero; lia. }
      rewrite Hsub, (Hsub (val32 _)). by rewrite Hbuf.
  - split; cbn [dbits dout dbuffer]; unfold bits in *; [lia| | |done].
    + clear -Hc. rewrite length_app. cbn. lia.
    + by rewrite Hdiv.
Qed.

Lemma symbol_value_alphabet i : 0 <= i < 32 -> alphabet_at i <> 45 /\ symbol_value (alphabet_at i) = Ok i.
Proof.
  intros H.
  assert (Hc : forallb (fun i => negb (alphabet_at i =? 45) &&
    bool_decide (symbol_value (alphabet_at i) = Ok i)) (seqZ 0 32) = true) by (vm_compute; reflexivity).
  rewrite forallb_forall in Hc. specialize (Hc i).
  assert (Hin : In i (seqZ 0 32)) by (apply list_elem_of_In, elem_of_seqZ; lia).
  apply Hc, andb_prop in Hin as [H1 H2]. split; [|by apply bool_decide_eq_true in H2].
  intros E. rewrite E in H1. done.
Qed.

Lemma decode_loop_symbols vs : forall ps st,
  Forall (fun v => 0 <= v < 32) vs -> dec_inv ps st ->
  exists st', decode_loop st (alphabet_at <$> vs) = Ok st' /\ dec_inv (ps ++ vs) st'.
Proof.
  induction vs as [|v vs IH]; intros ps st Hvs I.
  - exists st. by rewrite app_nil_r.
  - apply Forall_cons_1 in Hvs as [Hv Hvs]. cbn [fmap list_fmap decode_loop].
    destruct (symbol_value_alphabet v Hv) as [Hne ->]. rewrite (proj2 (Z.eqb_neq _ _) Hne). cbn [mbind res_bind].
    destruct (IH (ps ++ [v]) (decode_symbol st v) Hvs (decode_symbol_inv _ _ _ I Hv)) as (st' & E & I').
    exists st'. rewrite <- app_assoc in I'. done.
Qed.

(** [encode]'s state after the bytes [bs]. *)
Record enc_inv (bs : list byte) (extra : Z) (st : enc_state) : Prop := {
  ei_bits : 0 <= ebits st < extra;
  ei_count : 8 * len bs = 5 * len (eout st) + ebits st;
  ei_range : Forall (fun v => 0 <= v < 32) (eout st);
  ei_out : val32 (eout st) = be_val bs / 2 ^ ebits st;
  ei_buffer : ebuffer st mod 2 ^ ebits st = be_val bs mod 2 ^ ebits st
}.

Lemma land_31 x : Z.land x 0x1f = x mod 2 ^ 5.
Proof. change 0x1f with (Z.ones 5). by rewrite Z.land_ones by lia. Qed.

Lemma div_step V b : 0 <= b -> V / 2 ^ (b + 5) * 32 + V / 2 ^ b mod 32 = V / 2 ^ b.
Proof.
  intros Hb. rewrite Z.pow_add_r, <- Z.div_div by (try apply Z.pow_nonzero; lia).
  change (2 ^ 5) with 32. pose proof (Z.div_mod (V / 2 ^ b) 32 ltac:(lia)). lia.
Qed.

Lemma mod_low x y b k : 0 <= b -> 0 <= k -> x mod 2 ^ (b + k) = y mod 2 ^ (b + k) -> x mod 2 ^ b = y mod 2 ^ b.
Proof.
  intros Hb Hk H.
  assert (Hsub : forall z, z mod 2 ^ b = (z mod 2 ^ (b + k)) mod 2 ^ b).
  { intros z. rewrite Z.pow_add_r, Z.rem_mul_r by (try apply Z.pow_nonzero; lia).
    rewrite (Z.mul_comm (2 ^ _)), Z_mod_plus_full. symmetry. apply Z.mod_mod, Z.pow_nonzero; lia. }
  rewrite Hsub, (Hsub y). by rewrite H.
Qed.

Lemma emit_one bs extra st :
  enc_inv bs extra st -> 5 <= ebits st ->
  enc_inv bs (extra - 5)
    (mkEnc (ebuffer st) (ebits st - 5) (eout st ++ [Z.land (Z.shiftr (ebuffer st) (ebits st - 5)) 0x1f])).
Proof.
  intros [Hb Hc Hr Ho Hm] H5. set (b := ebits st - 5). replace (ebits st) with (b + 5) in * by lia.
  assert (Hd : Z.land (Z.shiftr (ebuffer st) b) 0x1f = be_val bs / 2 ^ b mod 32).
  { rewrite land_31, shiftr_window, Z.add_comm, Hm by lia.
    rewrite <- (Z.shiftr_div_pow2 (be_val bs)) by lia. change 32 with (2 ^ 5).
    rewrite shiftr_window by lia. by rewrite (Z.add_comm 5). }
  rewrite Hd. split; cbn [ebits eout ebuffer].
  - lia.
  - clear -Hc. rewrite length_app. cbn. lia.
  - apply Forall_app. split; [done|]. constructor; [apply Z.mod_pos_bound; lia|done].
  - rewrite val32_snoc, Ho. apply div_step. lia.
  - apply (mod_low _ _ b 5); [lia..|done].
Qed.

(** The inner loop stops below five bits. *)
Lemma emit_symbols_done fuel bs : forall st,
  enc_inv bs (5 * Z.of_nat fuel) st -> enc_inv bs 5 (emit_symbols fuel st).
Proof.
  induction fuel as [|fuel IH]; intros st I; [destruct I; lia|]. cbn [emit_symbols].
  destruct (Z.geb_spec (ebits st) 5) as [H5|H5].
  - apply IH. replace (5 * Z.of_nat fuel) with (5 * Z.of_nat (S fuel) - 5) by lia. by apply emit_one.
  - destruct I. split; [lia|done..].
Qed.

Lemma encode_byte_inv bs st b : enc_inv bs 5 st -> enc_inv (bs ++ [b]) 5 (encode_byte st b).
Proof.
  intros [Hb Hc Hr Ho Hm]. apply emit_symbols_done. pose proof (u8_range b) as Hu.
  split; cbn [ebits eout ebuffer].
  - lia.
  - clear -Hc. rewrite length_app. cbn. lia.
  - done.
  - rewrite Ho, be_val_snoc, Z.pow_add_r, (Z.mul_comm (2 ^ ebits st)) by lia.
    rewrite <- Z.div_div by (try apply Z.pow_nonzero; lia). f_equal.
    change (2 ^ 8) with 256. rewrite Z.div_add_l, (Z.div_small (u8 b)) by lia. lia.
  - destruct (shift_or (ebuffer st) (u8 b) 8 (ebits st + 8)) as [_ ->]; [lia..|].
    rewrite be_val_snoc. change 256 with (2 ^ 8). apply mod_scale; [lia..|done].
Qed.

Lemma encode_bytes_inv bytes : forall bs st,
  enc_inv bs 5 st -> enc_inv (bs ++ bytes) 5 (foldl encode_byte st bytes).
Proof.
  induction bytes as [|b bytes IH]; intros bs st I; [by rewrite app_nil_r|].
  cbn [foldl]. replace (bs ++ b :: bytes) with ((bs ++ [b]) ++ bytes) by by rewrite <- app_assoc.
  by apply IH, encode_byte_inv.
Qed.

(** The symbols of an encoding: the bytes' number, padded with zero bits to a
    whole number of symbols. *)
Lemma encode_symbols bytes :
  exists vs pad, encode bytes = alphabet_at <$> vs /\ Forall (fun v => 0 <= v < 32) vs /\
    0 <= pad < 5 /\ 5 * len vs = 8 * len bytes + pad /\ val32 vs = be_val bytes * 2 ^ pad.
Proof.
  pose proof (encode_bytes_inv bytes [] (mkEnc 0 0 [])) as I. cbn [app] in I.
  destruct I as [Hb Hc Hr Ho Hm]; [by split|]. unfold encode. set (st := foldl _ _ bytes) in *.
  destruct (Z.gtb_spec (ebits st) 0) as [H0|H0].
  - set (d := Z.land _ _). exists (eout st ++ [d]), (5 - ebits st).
    assert (Hd : d = be_val bytes mod 2 ^ ebits st * 2 ^ (5 - ebits st)).
    { unfold d. rewrite land_31. destruct (shift_or (ebuffer st) 0 (5 - ebits st) 5) as [_ H]; [lia..|].
      rewrite Z.lor_0_r, Z.add_0_r in H. rewrite H, <- Hm.
      replace 5 with (ebits st + (5 - ebits st)) at 2 by lia.
      rewrite Z.pow_add_r, Zmult_mod_distr_r by lia. done. }
    assert (Hpos : 0 < 2 ^ (5 - ebits st)) by (apply Z.pow_pos_nonneg; lia).
    assert (H32 : 2 ^ ebits st * 2 ^ (5 - ebits st) = 32).
    { rewrite <- Z.pow_add_r by lia. replace (ebits st + (5 - ebits st)) with 5 by lia. done. }
    pose proof (Z.mod_pos_bound (be_val bytes) (2 ^ ebits st) ltac:(apply Z.pow_pos_nonneg; lia)) as Hmb.
    split_and!; [done| |lia|lia| |].
    + apply Forall_app. split; [done|]. constructor; [|done]. rewrite Hd. clear -Hpos H32 Hmb. nia.
    + clear -Hc. rewrite length_app. cbn. lia.
    + rewrite val32_snoc, Ho, Hd.
      pose proof (Z.div_mod (be_val bytes) (2 ^ ebits st) ltac:(apply Z.pow_nonzero; lia)) as Hdm.
      rewrite Hdm at 3. rewrite <- H32. ring.
  - assert (Hz : ebits st = 0) by lia. rewrite Hz in *. exists (eout st), 0.
    split_and!; [done..|lia|lia|clear -Hc; lia|]. rewrite Ho, Z.pow_0_r, Z.div_1_r. lia.
Qed.

Lemma decode_encode bytes : decode (encode bytes) = Ok bytes.
Proof.
  destruct (encode_symbols bytes) as (vs & pad & -> & Hvs & Hp & Hc & Hv).
  destruct (decode_loop_symbols vs [] (mkDec 0 0 []) Hvs ltac:(by split)) as (st & Hst & [Hb Hn Ho Hm]).
  cbn [app] in Hn, Ho, Hm. unfold decode. rewrite Hst. cbn [mbind res_bind].
  assert (Hbits : dbits st = pad /\ len (dout st) = len bytes) by (clear -Hb Hn Hp Hc; lia).
  destruct Hbits as [Hbits Hlen]. rewrite Hbits in *.
  assert (Hzero : Z.land (dbuffer st) (Z.shiftl 1 pad - 1) = 0).
  { rewrite Z.shiftl_1_l, Z.sub_1_r, <- Z.ones_equiv, Z.land_ones by lia.
    rewrite Hm, Hv. apply Z_mod_mult. }
  rewrite Hzero. cbn [Z.eqb negb]. rewrite andb_false_r. f_equal.
  rewrite Ho, Hv, Z.div_mul by (apply Z.pow_nonzero; lia).
  replace (length (dout st)) with (length bytes) by lia. apply be_bytes_be_val.
Qed.

(** Decoding sees only the symbol values of the characters that are not hyphens. *)
Lemma decode_loop_alike s t : forall st,
  Forall2 (fun c d => symbol_value c = symbol_value d) (filter (fun c => c <> 45) s) t ->
  Forall (fun d => d <> 45) t -> decode_loop st s = decode_loop st t.
Proof.
  revert t. induction s as [|c s IH]; intros t st H Ht.
  - inversion H. done.
  - cbn [decode_loop]. destruct (Z.eqb_spec c 45) as [->|Hc].
    + rewrite list.filter_cons_False in H by naive_solver. by apply IH.
    + rewrite list.filter_cons_True in H by done. inversion H as [|? d ? t' Hcd H' E1 E2]. subst.
      apply Forall_cons_1 in Ht as [Hd Ht]. cbn [decode_loop].
      rewrite (proj2 (Z.eqb_neq _ _) Hd), Hcd. destruct (symbol_value d); cbn; [by apply IH|done..].
Qed.

(** ** Properties *)

(** The fragment encoding round-trips, as people retype it: any text that
    is the encoding of [bytes] up to hyphens, letter case and the folded
    confusables (any change that keeps the symbol values) decodes to [bytes], for
    every byte string, with no loss in the 32-bit accumulator and nothing left in
    the padding. *)
Theorem crockford_roundtrip bytes text :
  Forall2 (fun c d => symbol_value c = symbol_value d) (filter (fun c => c <> 45) text) (encode bytes) ->
  decode text = Ok bytes.
Proof.
  intros H. rewrite <- (decode_encode bytes). unfold decode. rewrite (decode_loop_alike text (encode bytes)); [done..|].
  destruct (encode_symbols bytes) as (vs & pad & -> & Hvs & _). apply Forall_fmap.
  eapply Forall_impl; [|exact Hvs]. intros v Hv. by apply symbol_value_alphabet.
Qed.

Lemma crockford_roundtrip_witness : decode (lit "ed-R6-r") = Ok (blit "spl").
Proof. apply crockford_roundtrip. repeat constructor. Defined.
