(* ===== verification/PairLink.v ===== *)
(** * Pair links ([crates/spl-core/src/pairlink.rs])

    Parsing of the link a journal shows for pairing: a URL fragment in Crockford
    base32 over one of three small binary forms. *)

From S2P Require Import Prelude Text.
From S2P Require Import Crockford.

Definition DEFAULT_DIRECT_PORT : Z := 7657.
Definition DEFAULT_RELAY_ORIGIN : str := lit "https://link.solstone.app".

Record Endpoint := mkEndpoint { host : str; port : Z }.

#[export] Instance Endpoint_eq_dec : EqDecision Endpoint.
Proof. solve_decision. Defined.

(** [PairLink] *)
Record DirectLink := mkDirectLink {
  candidates : list Endpoint;
  nonce_hex : str;
  ca_fp_prefix : list byte
}.

Record RelayPairLink := mkRelayPairLink {
  relay_s : list byte;
  ca_fp_spki : list byte;
  relay_origin : str
}.

Inductive ParsedPairLink :=
| Direct (l : DirectLink)
| Relay (l : RelayPairLink).

Inductive PairLinkError :=
| MissingFragment
| CrockfordErr (e : Crockford.CrockfordError)
| UnsupportedVersion (v : Z)
| UnsupportedAddressType (t : Z)
| UnknownCaFpTag (t : Z)
| BadRelayOrigin
| Truncated (expected got : Z)
| LengthMismatch (expected got : Z)
| DisallowedDirectIpv4 (address : str)
| InvalidCandidateCount (count : Z).

Definition ADDR_TYPE_IPV4 : Z := 0x01.
Definition NONCE_LEN : Z := 16.
Definition CA_FP_LEN : Z := 16.
Definition MAX_DIRECT_CANDIDATES : Z := 4.
Definition RELAY_CA_FP_TAG_SPKI_SHA256 : Z := 0x01.
Definition RELAY_WINDOW_BASE_LEN : Z := 27.

(** [hex_lower] *)
Definition hex_lower (bytes : list byte) : str := concat (hex02 <$> bytes).

(** [ipv4_string], on the four octets. *)
Definition ipv4_string (o : list byte) : str :=
  match o with
  | [a; b; c; d] =>
      to_string (u8 a) ++ [46] ++ to_string (u8 b) ++ [46] ++ to_string (u8 c) ++ [46] ++ to_string (u8 d)
  | _ => []
  end.

(** [uuid_string]: the slices panic on fewer than sixteen bytes. *)
Definition uuid_string (raw : list byte) : res PairLinkError str :=
  let h := hex_lower raw in
  if len h <? 32 then Panic
  else Ok (slice h 0 8 ++ [45] ++ slice h 8 12 ++ [45] ++ slice h 12 16 ++ [45]
           ++ slice h 16 20 ++ [45] ++ slice h 20 32).

(** [is_allowed_direct_ipv4] *)
Definition is_allowed_direct_ipv4 (o : list byte) : bool :=
  match o with
  | a :: _ => negb (u8 a =? 0) && (u8 a <? 224)
  | [] => false
  end.

(** [normalize_port] *)
Definition normalize_port (raw : Z) : Z := if raw =? 0 then DEFAULT_DIRECT_PORT else raw.

(** [require] and [require_exact] *)
Definition require (blob : list byte) (end_ : Z) : res PairLinkError unit :=
  if len blob <? end_ then Err (Truncated end_ (len blob)) else Ok tt.
Definition require_exact (blob : list byte) (expected : Z) : res PairLinkError unit :=
  _ ← require blob expected;
  if negb (len blob =? expected) then Err (LengthMismatch expected (len blob)) else Ok tt.

(** [blob[i]], and [&blob[a..b]]: a panic out of range. *)
Definition at_ (blob : list byte) (i : Z) : res PairLinkError byte := index blob i.
Definition range (blob : list byte) (a b : Z) : res PairLinkError (list byte) :=
  expect (get_range blob a b).

(** [parse_v06] *)
Definition parse_v06 (blob : list byte) : res PairLinkError RelayPairLink :=
  _ ← require blob RELAY_WINDOW_BASE_LEN;
  tag ← at_ blob 9;
  if negb (u8 tag =? RELAY_CA_FP_TAG_SPKI_SHA256) then Err (UnknownCaFpTag (u8 tag))
  else
    sel ← at_ blob 26;
    let selector := u8 sel in
    origin ←
      (if selector =? 0 then
         _ ← require_exact blob RELAY_WINDOW_BASE_LEN; Ok DEFAULT_RELAY_ORIGIN
       else
         let expected := RELAY_WINDOW_BASE_LEN + selector in
         _ ← require_exact blob expected;
         raw ← range blob RELAY_WINDOW_BASE_LEN expected;
         ok_or (from_utf8 raw) BadRelayOrigin);
    s ← range blob 1 9;
    fp ← range blob 10 26;
    Ok (mkRelayPairLink s fp origin).

(** [parse_v04] *)
Definition parse_v04 (blob : list byte) : res PairLinkError DirectLink :=
  _ ← require blob 40;
  ty ← at_ blob 1;
  if negb (u8 ty =? ADDR_TYPE_IPV4) then Err (UnsupportedAddressType (u8 ty))
  else
    octets ← range blob 2 6;
    p ← range blob 6 8;
    nonce ← range blob 8 (8 + NONCE_LEN);
    fp ← range blob 24 (24 + CA_FP_LEN);
    if negb (is_allowed_direct_ipv4 octets) then Err (DisallowedDirectIpv4 (ipv4_string octets))
    else Ok (mkDirectLink [mkEndpoint (ipv4_string octets) (normalize_port (be_val p))] (hex_lower nonce) fp).

(** The admission loop of [parse_v05] over [i] in [0..count]. *)
Fixpoint check_addrs (blob : list byte) (offset : Z) (count : nat) : res PairLinkError unit :=
  match count with
  | O => Ok tt
  | S count =>
      octets ← range blob offset (offset + 4);
      if negb (is_allowed_direct_ipv4 octets) then Err (DisallowedDirectIpv4 (ipv4_string octets))
      else check_addrs blob (offset + 4) count
  end.

(** The collection loop of [parse_v05]. *)
Fixpoint collect_addrs (blob : list byte) (offset : Z) (count : nat) (p : Z) (out : list Endpoint)
  : res PairLinkError (list Endpoint) :=
  match count with
  | O => Ok out
  | S count =>
      octets ← range blob offset (offset + 4);
      let h := ipv4_string octets in
      let out := if existsb (fun c => bool_decide (host c = h) && (port c =? p)) out
                 then out else out ++ [mkEndpoint h p] in
      collect_addrs blob (offset + 4) count p out
  end.

(** [parse_v05] *)
Definition parse_v05 (blob : list byte) : res PairLinkError DirectLink :=
  _ ← require blob 3;
  ty ← at_ blob 1;
  if negb (u8 ty =? ADDR_TYPE_IPV4) then Err (UnsupportedAddressType (u8 ty))
  else
    rc ← at_ blob 2;
    let count := u8 rc in
    if (count =? 0) || (count >? MAX_DIRECT_CANDIDATES) then Err (InvalidCandidateCount count)
    else
      _ ← require blob 5;
      praw ← range blob 3 5;
      let p := normalize_port (be_val praw) in
      let addrs_end := 5 + 4 * count in
      let nonce_end := addrs_end + NONCE_LEN in
      let total := nonce_end + CA_FP_LEN in
      _ ← require blob total;
      _ ← check_addrs blob 5 (Z.to_nat count);
      cs ← collect_addrs blob 5 (Z.to_nat count) p [];
      nonce ← range blob addrs_end nonce_end;
      fp ← range blob nonce_end total;
      Ok (mkDirectLink cs (hex_lower nonce) fp).

(** [parse_blob] *)
Definition parse_blob (blob : list byte) : res PairLinkError ParsedPairLink :=
  match blob with
  | [] => Err (Truncated 1 0)
  | v :: _ =>
      if u8 v =? 0x04 then Direct <$> parse_v04 blob
      else if u8 v =? 0x05 then Direct <$> parse_v05 blob
      else if u8 v =? 0x06 then Relay <$> parse_v06 blob
      else Err (UnsupportedVersion (u8 v))
  end.

(** [parse] *)
Definition parse (link : str) : res PairLinkError ParsedPairLink :=
  fragment ←
    match split_once 35 link with
    | Some (_, frag) => Ok frag
    | None => if negb (contains (lit "://") link) && negb (contains (lit "/") link) then Ok link
              else Err MissingFragment
    end;
  blob ← map_err CrockfordErr (Crockford.decode fragment);
  parse_blob blob.

(** ** Lemmas *)

Lemma range_ok blob a b : 0 <= a <= b -> b <= len blob -> range blob a b = Ok (slice blob a b).
Proof.
  intros Ha Hb. unfold range, get_range. by replace ((a <=? b) && (b <=? len blob)) with true by lia.
Qed.

Lemma at_ok blob i : 0 <= i < len blob -> exists b, at_ blob i = Ok b /\ blob !! Z.to_nat i = Some b.
Proof.
  intros Hi. destruct (lookup_lt_is_Some_2 blob (Z.to_nat i) ltac:(lia)) as [b Hb]. exists b.
  unfold at_, index. by rewrite Hb.
Qed.

Lemma require_cases blob n : require blob n = Ok tt /\ n <= len blob \/ require blob n = Err (Truncated n (len blob)).
Proof. unfold require. destruct (Z.ltb_spec (len blob) n); auto. Qed.

(** An endpoint as admission leaves it. *)
Definition admitted (e : Endpoint) : Prop :=
  exists o, length o = 4%nat /\ is_allowed_direct_ipv4 o = true /\ host e = ipv4_string o /\ 0 < port e < 2 ^ 16.

Definition add_candidate (p : Z) (out : list Endpoint) (o : list byte) : list Endpoint :=
  if existsb (fun c => bool_decide (host c = ipv4_string o) && (port c =? p)) out
  then out else out ++ [mkEndpoint (ipv4_string o) p].

(** The address field cut into octet quadruples. *)
Fixpoint quads (blob : list byte) (offset : Z) (count : nat) : list (list byte) :=
  match count with
  | O => []
  | S count => slice blob offset (offset + 4) :: quads blob (offset + 4) count
  end.

Lemma quads_length blob offset count :
  0 <= offset -> offset + 4 * Z.of_nat count <= len blob ->
  Forall (fun o => length o = 4%nat) (quads blob offset count).
Proof.
  revert offset. induction count as [|n IH]; intros offset H0 Hl; [done|]. cbn [quads]. constructor.
  - pose proof (len_slice blob offset (offset + 4)). lia.
  - apply IH; lia.
Qed.

Lemma check_addrs_spec blob count : forall offset,
  0 <= offset -> offset + 4 * Z.of_nat count <= len blob ->
  check_addrs blob offset count =
  match List.find (fun o => negb (is_allowed_direct_ipv4 o)) (quads blob offset count) with
  | Some o => Err (DisallowedDirectIpv4 (ipv4_string o))
  | None => Ok tt
  end.
Proof.
  induction count as [|n IH]; intros offset H0 Hl; [done|]. cbn [check_addrs quads List.find].
  rewrite range_ok by lia. cbn [mbind res_bind]. destruct (negb _); [done|]. apply IH; lia.
Qed.

Lemma collect_addrs_spec blob p count : forall offset out,
  0 <= offset -> offset + 4 * Z.of_nat count <= len blob ->
  collect_addrs blob offset count p out = Ok (foldl (add_candidate p) out (quads blob offset count)).
Proof.
  induction count as [|n IH]; intros offset out H0 Hl; [done|]. cbn [collect_addrs quads foldl].
  rewrite range_ok by lia. cbn [mbind res_bind]. rewrite IH by lia. done.
Qed.

Lemma existsb_endpoint o p out :
  existsb (fun c => bool_decide (host c = ipv4_string o) && (port c =? p)) out = true <->
  mkEndpoint (ipv4_string o) p ∈ out.
Proof.
  rewrite existsb_exists. split.
  - intros (e & He & [H1%bool_decide_eq_true H2%Z.eqb_eq]%andb_prop). destruct e. cbn in *. subst.
    by apply list_elem_of_In.
  - intros He. eexists. split; [by apply list_elem_of_In|]. cbn. rewrite bool_decide_eq_true_2, Z.eqb_refl; done.
Qed.

Lemma add_candidates_props p os : forall out,
  NoDup out -> Forall (fun o => length o = 4%nat /\ is_allowed_direct_ipv4 o = true) os -> 0 < p < 2 ^ 16 ->
  Forall admitted out ->
  let cs := foldl (add_candidate p) out os in
  NoDup cs /\ Forall admitted cs /\ (length out <= length cs <= length out + length os)%nat /\
  (os <> [] -> (1 <= length cs)%nat).
Proof.
  induction os as [|o os IH]; intros out Hnd Hos Hp Had cs; [cbn in *; split_and!; try done; lia|].
  apply Forall_cons_1 in Hos as [[Hl Ha] Hos]. cbn [foldl] in cs.
  destruct (existsb (fun c => bool_decide (host c = ipv4_string o) && (port c =? p)) out) eqn:Ex.
  - assert (E : add_candidate p out o = out) by (unfold add_candidate; by rewrite Ex).
    unfold cs. rewrite E. destruct (IH out Hnd Hos Hp Had) as (? & ? & ? & ?). split_and!; try done; cbn; try lia.
    intros _. apply existsb_endpoint in Ex. destruct out; [by apply not_elem_of_nil in Ex|cbn in *; lia].
  - assert (E : add_candidate p out o = out ++ [mkEndpoint (ipv4_string o) p])
      by (unfold add_candidate; by rewrite Ex).
    unfold cs. rewrite E. destruct (IH (out ++ [mkEndpoint (ipv4_string o) p])) as (? & ? & Hlen & ?).
    + apply list.NoDup_app. split; [done|]. split; [|apply NoDup_singleton].
      intros e He ->%list_elem_of_singleton. apply existsb_endpoint in He. congruence.
    + done.
    + done.
    + apply Forall_app. split; [done|]. constructor; [|done]. by exists o.
    + rewrite length_app in Hlen. cbn in *. split_and!; try done; lia.
Qed.

Lemma length_hex_lower bs : length (hex_lower bs) = (2 * length bs)%nat.
Proof. induction bs as [|b bs IH]; [done|]. unfold hex_lower in *. cbn. lia. Qed.

Lemma normalize_port_range raw : 0 <= raw < 2 ^ 16 -> 0 < normalize_port raw < 2 ^ 16.
Proof. unfold normalize_port, DEFAULT_DIRECT_PORT. intros H. destruct (Z.eqb_spec raw 0); lia. Qed.

Lemma port_range blob a : 0 < normalize_port (be_val (slice blob a (a + 2))) < 2 ^ 16.
Proof.
  apply normalize_port_range. pose proof (be_val_range (slice blob a (a + 2))) as H.
  assert (len (slice blob a (a + 2)) <= 2) by (unfold slice; rewrite length_take; lia).
  assert (256 ^ len (slice blob a (a + 2)) <= 256 ^ 2) by (apply Z.pow_le_mono_r; lia). lia.
Qed.

(** What a successfully parsed link promises. *)
Definition link_ok (l : ParsedPairLink) : Prop :=
  match l with
  | Direct d =>
      (1 <= length (candidates d) <= 4)%nat /\ NoDup (candidates d) /\ Forall admitted (candidates d) /\
      length (nonce_hex d) = 32%nat /\ length (ca_fp_prefix d) = 16%nat
  | Relay r => length (relay_s r) = 8%nat /\ length (ca_fp_spki r) = 16%nat
  end.

(** No panic, and a result in order. *)
Definition sound (r : res PairLinkError ParsedPairLink) : Prop :=
  match r with Ok l => link_ok l | Err _ => True | Panic => False end.

Ltac in_range_ok := repeat (rewrite range_ok by lia); cbn [mbind res_bind].

Lemma parse_v04_sound blob : sound (Direct <$> parse_v04 blob).
Proof.
  unfold parse_v04. destruct (require_cases blob 40) as [[-> Hl]| ->]; [|done]. cbn [mbind res_bind].
  destruct (at_ok blob 1 ltac:(lia)) as (ty & -> & _). cbn [mbind res_bind]. destruct (negb _); [done|].
  unfold NONCE_LEN, CA_FP_LEN. in_range_ok.
  destruct (is_allowed_direct_ipv4 _) eqn:Ea; [|done]. cbn [negb fmap res_fmap sound link_ok candidates nonce_hex ca_fp_prefix].
  split_and!; cbn [length]; try lia.
  - apply NoDup_singleton.
  - constructor; [|done]. exists (slice blob 2 6). cbn. pose proof (len_slice blob 2 6).
    pose proof (port_range blob 6). split_and!; [lia|done|done|apply H0..].
  - rewrite length_hex_lower. pose proof (len_slice blob 8 (8 + 16)). lia.
  - pose proof (len_slice blob 24 (24 + 16)). lia.
Qed.

Lemma parse_v05_sound blob : sound (Direct <$> parse_v05 blob).
Proof.
  unfold parse_v05. destruct (require_cases blob 3) as [[-> Hl]| ->]; [|done]. cbn [mbind res_bind].
  destruct (at_ok blob 1 ltac:(lia)) as (ty & -> & _). cbn [mbind res_bind]. destruct (negb _); [done|].
  destruct (at_ok blob 2 ltac:(lia)) as (rc & -> & _). cbn [mbind res_bind]. set (count := u8 rc).
  unfold MAX_DIRECT_CANDIDATES. destruct ((count =? 0) || (count >? 4)) eqn:Ec; [done|].
  pose proof (u8_range rc) as Hrc. fold count in Hrc.
  destruct (require_cases blob 5) as [[-> Hl5]| ->]; [|done]. cbn [mbind res_bind].
  rewrite (range_ok blob 3 5) by lia. cbn [mbind res_bind]. set (p := normalize_port _).
  assert (Hp : 0 < p < 2 ^ 16) by apply (port_range blob 3). unfold NONCE_LEN, CA_FP_LEN.
  destruct (require_cases blob (5 + 4 * count + 16 + 16)) as [[-> Hlt]| ->]; [|done]. cbn [mbind res_bind].
  rewrite check_addrs_spec, collect_addrs_spec by lia.
  destruct (List.find _ _) as [o|] eqn:Ef; [done|]. cbn [mbind res_bind]. in_range_ok.
  cbn [fmap res_fmap sound link_ok candidates nonce_hex ca_fp_prefix].
  assert (Hq : Forall (fun o => length o = 4%nat /\ is_allowed_direct_ipv4 o = true) (quads blob 5 (Z.to_nat count))).
  { pose proof (quads_length blob 5 (Z.to_nat count) ltac:(lia) ltac:(lia)) as Hq4.
    apply list.Forall_forall. intros o Ho. rewrite list.Forall_forall in Hq4. split; [by apply Hq4|].
    apply negb_false_iff. by apply (List.find_none _ _ Ef), list_elem_of_In. }
  assert (Hlen : forall n off, length (quads blob off n) = n).
  { induction n as [|n IH]; intros off; cbn; [done|]. by rewrite IH. }
  destruct (add_candidates_props p (quads blob 5 (Z.to_nat count)) [] ltac:(apply NoDup_nil_2) Hq Hp ltac:(done))
    as (H1 & H2 & H3 & H4).
  rewrite Hlen in H3. cbn [length] in H3. split_and!; [| |done|done| |].
  - apply H4. intros E. pose proof (Hlen (Z.to_nat count) 5) as Hz. rewrite E in Hz. cbn in Hz. lia.
  - lia.
  - rewrite length_hex_lower. pose proof (len_slice blob (5 + 4 * count) (5 + 4 * count + 16)). lia.
  - pose proof (len_slice blob (5 + 4 * count + 16) (5 + 4 * count + 16 + 16)). lia.
Qed.

Lemma parse_v06_sound blob : sound (Relay <$> parse_v06 blob).
Proof.
  unfold parse_v06, RELAY_WINDOW_BASE_LEN.
  destruct (require_cases blob 27) as [[-> Hl]| ->]; [|done]. cbn [mbind res_bind].
  destruct (at_ok blob 9 ltac:(lia)) as (tag & -> & _). cbn [mbind res_bind]. destruct (negb _); [done|].
  destruct (at_ok blob 26 ltac:(lia)) as (sel & -> & _). cbn [mbind res_bind].
  set (origin := if u8 sel =? 0 then _ else _). pose proof (u8_range sel) as Hs.
  assert (Ho : origin <> Panic).
  { unfold origin, require_exact. destruct (u8 sel =? 0).
    - destruct (require_cases blob 27) as [[-> _]| ->]; [|done]. cbn. by destruct (negb _).
    - destruct (require_cases blob (27 + u8 sel)) as [[-> Hle]| ->]; [|done]. cbn. destruct (negb _); [done|].
      cbn. rewrite range_ok by lia. cbn. by destruct (from_utf8 _). }
  destruct origin as [o|e|]; [|done..]. cbn [mbind res_bind]. in_range_ok.
  cbn. pose proof (len_slice blob 1 9). pose proof (len_slice blob 10 26). split; lia.
Qed.

Lemma parse_blob_sound blob : sound (parse_blob blob).
Proof.
  unfold parse_blob. destruct blob as [|v blob]; [done|].
  destruct (_ =? _); [apply parse_v04_sound|]. destruct (_ =? _); [apply parse_v05_sound|].
  destruct (_ =? _); [apply parse_v06_sound|done].
Qed.

Lemma decode_no_panic s : decode s <> Panic.
Proof.
  assert (Hl : forall s st, decode_loop st s <> Panic).
  { clear. induction s as [|c s IH]; intros st; [done|]. cbn. destruct (_ =? _); [apply IH|].
    unfold symbol_value. destruct (position _ _); cbn; [apply IH|done]. }
  unfold decode. specialize (Hl s (mkDec 0 0 [])). destruct (decode_loop _ s); [|done..]. cbn. by destruct (_ && _).
Qed.

(** *** Building links *)

(** The three forms of the pairing protocol, as a journal fills them in. *)
Inductive link_form :=
| FormV04 (octets : list byte) (p : Z) (nonce fp : list byte)
| FormV05 (addrs : list (list byte)) (p : Z) (nonce fp : list byte)
| FormV06 (s fp : list byte) (origin : option str).

Definition addr_ok (o : list byte) : Prop := length o = 4%nat /\ is_allowed_direct_ipv4 o = true.

Definition form_ok (l : link_form) : Prop :=
  match l with
  | FormV04 o p nonce fp => addr_ok o /\ is_u16 p /\ length nonce = 16%nat /\ length fp = 16%nat
  | FormV05 os p nonce fp =>
      Forall addr_ok os /\ (1 <= length os <= 4)%nat /\ is_u16 p /\ length nonce = 16%nat /\ length fp = 16%nat
  | FormV06 s fp origin =>
      length s = 8%nat /\ length fp = 16%nat /\
      match origin with Some o => scalars o /\ 0 < len (into_bytes o) < 256 | None => True end
  end.

Definition origin_field (origin : option str) : list byte :=
  match origin with
  | None => [as_u8 0]
  | Some o => as_u8 (len (into_bytes o)) :: into_bytes o
  end.

Definition blob_of (l : link_form) : list byte :=
  match l with
  | FormV04 o p nonce fp => [as_u8 4; as_u8 1] ++ o ++ be_bytes 2 p ++ nonce ++ fp
  | FormV05 os p nonce fp =>
      [as_u8 5; as_u8 1; as_u8 (len os)] ++ be_bytes 2 p ++ concat os ++ nonce ++ fp
  | FormV06 s fp origin => [as_u8 6] ++ s ++ [as_u8 1] ++ fp ++ origin_field origin
  end.

(** Duplicates dropped, first occurrences kept in order. *)
Fixpoint first_seen (l : list Endpoint) : list Endpoint :=
  match l with
  | [] => []
  | e :: l => e :: filter (fun e' => e' <> e) (first_seen l)
  end.

Definition meaning (l : link_form) : ParsedPairLink :=
  match l with
  | FormV04 o p nonce fp =>
      Direct (mkDirectLink [mkEndpoint (ipv4_string o) (normalize_port p)] (hex_lower nonce) fp)
  | FormV05 os p nonce fp =>
      Direct (mkDirectLink (first_seen ((fun o => mkEndpoint (ipv4_string o) (normalize_port p)) <$> os))
                (hex_lower nonce) fp)
  | FormV06 s fp origin => Relay (mkRelayPairLink s fp (default DEFAULT_RELAY_ORIGIN origin))
  end.

Lemma range_app pre m post a b :
  len pre = a -> b = a + len m -> range (pre ++ m ++ post) a b = Ok m.
Proof.
  intros <- ->. rewrite range_ok; [|lia|rewrite !length_app; lia]. by rewrite slice_app_exact.
Qed.

Lemma filter_all_true {A} (P : A -> Prop) `{forall x, Decision (P x)} (l : list A) :
  (forall x, P x) -> filter P l = l.
Proof. intros HP. induction l as [|x l IH]; [done|]. by rewrite list.filter_cons_True, IH by apply HP. Qed.

Lemma range_app_end pre m a b : len pre = a -> b = a + len m -> range (pre ++ m) a b = Ok m.
Proof. intros Ha Hb. pose proof (range_app pre m [] a b Ha Hb) as H. by rewrite app_nil_r in H. Qed.

Lemma add_candidates_first_seen p os : forall out,
  foldl (add_candidate p) out os =
  out ++ filter (fun e => e ∉ out) (first_seen ((fun o => mkEndpoint (ipv4_string o) p) <$> os)).
Proof.
  induction os as [|o os IH]; intros out; [cbn; by rewrite app_nil_r|].
  cbn [foldl fmap list_fmap first_seen]. rewrite IH. unfold add_candidate. set (e := mkEndpoint (ipv4_string o) p).
  set (rest := first_seen _).
  destruct (existsb _ out) eqn:Ex.
  - apply existsb_endpoint in Ex. fold e in Ex. rewrite list.filter_cons_False by (by intros H).
    f_equal. rewrite list_filter_filter. apply list_filter_iff. intros x. split; [|tauto].
    intros Hx. split; [done|]. by intros ->.
  - assert (Hne : e ∉ out) by (intros H; apply existsb_endpoint in H; congruence).
    rewrite list.filter_cons_True by done. rewrite <- app_assoc. f_equal. cbn [app]. f_equal.
    rewrite list_filter_filter. apply list_filter_iff. intros x. rewrite not_elem_of_app, list_elem_of_singleton. tauto.
Qed.

Lemma quads_concat os : forall pre post,
  Forall addr_ok os -> quads (pre ++ concat os ++ post) (len pre) (length os) = os.
Proof.
  induction os as [|o os IH]; intros pre post Hos; [done|].
  apply Forall_cons_1 in Hos as [[Hl _] Hos]. cbn [length quads concat].
  replace (len pre + 4) with (len pre + len o) by lia. rewrite <- app_assoc, slice_app_exact. f_equal.
  replace (len pre + len o) with (len (pre ++ o)) by (rewrite length_app; lia).
  rewrite app_assoc. by apply IH.
Qed.

Lemma length_concat4 os : Forall addr_ok os -> length (concat os) = (4 * length os)%nat.
Proof.
  induction 1 as [|o os [Hl _] Hos IH]; [done|]. cbn. rewrite length_app. lia.
Qed.

Lemma parse_v04_form o p nonce fp :
  form_ok (FormV04 o p nonce fp) -> parse_blob (blob_of (FormV04 o p nonce fp)) = Ok (meaning (FormV04 o p nonce fp)).
Proof.
  intros ([Ho Ha] & Hp & Hn & Hf). unfold in_range in Hp. change (parse_blob (blob_of _)) with
    (Direct <$> parse_v04 ([as_u8 4; as_u8 1] ++ o ++ be_bytes 2 p ++ nonce ++ fp)).
  unfold parse_v04, NONCE_LEN, CA_FP_LEN.
  set (blob := [as_u8 4; as_u8 1] ++ o ++ be_bytes 2 p ++ nonce ++ fp).
  assert (Hl : len blob = 40) by (unfold blob; rewrite !length_app, length_be_bytes; cbn [length]; lia).
  unfold require. rewrite Hl. cbn [Z.ltb Z.compare Pos.compare Pos.compare_cont mbind res_bind].
  change (at_ blob 1) with (Ok (E:=PairLinkError) (as_u8 1)). cbn [mbind res_bind].
  change (negb (u8 (as_u8 1) =? ADDR_TYPE_IPV4)) with false. cbv iota.
  assert (E1 : range blob 2 6 = Ok o) by (apply range_app; [done|lia]).
  assert (E2 : range blob 6 8 = Ok (be_bytes 2 p)).
  { unfold blob. rewrite app_assoc. apply range_app; rewrite ?length_app, ?length_be_bytes; cbn [length]; lia. }
  assert (E3 : range blob 8 (8 + 16) = Ok nonce).
  { unfold blob. rewrite !app_assoc, <- (app_assoc _ nonce).
    apply range_app; rewrite ?length_app, ?length_be_bytes; cbn [length]; lia. }
  assert (E4 : range blob 24 (24 + 16) = Ok fp).
  { unfold blob. rewrite !app_assoc.
    apply range_app_end; rewrite ?length_app, ?length_be_bytes; cbn [length]; lia. }
  rewrite E1, E2, E3, E4. cbn [mbind res_bind]. rewrite Ha. cbn [negb]. cbv iota.
  rewrite be_val_be_bytes, Z.mod_small by (change (256 ^ Z.of_nat 2) with (2 ^ 16); lia). done.
Qed.

Lemma parse_v05_form os p nonce fp :
  form_ok (FormV05 os p nonce fp) -> parse_blob (blob_of (FormV05 os p nonce fp)) = Ok (meaning (FormV05 os p nonce fp)).
Proof.
  intros (Hos & Hc & Hp & Hn & Hf). unfold in_range in Hp.
  pose proof (length_concat4 os Hos) as Hlc.
  change (parse_blob (blob_of _)) with
    (Direct <$> parse_v05 ([as_u8 5; as_u8 1; as_u8 (len os)] ++ be_bytes 2 p ++ concat os ++ nonce ++ fp)).
  set (blob := [as_u8 5; as_u8 1; as_u8 (len os)] ++ be_bytes 2 p ++ concat os ++ nonce ++ fp).
  assert (Hl : len blob = 5 + 4 * len os + 16 + 16)
    by (unfold blob; rewrite !length_app, length_be_bytes; cbn [length]; lia).
  unfold parse_v05, NONCE_LEN, CA_FP_LEN, MAX_DIRECT_CANDIDATES, require. rewrite Hl.
  replace (5 + 4 * len os + 16 + 16 <? 3) with false by lia.
  replace (5 + 4 * len os + 16 + 16 <? 5) with false by lia. cbn [mbind res_bind].
  change (at_ blob 1) with (Ok (E:=PairLinkError) (as_u8 1)). cbn [mbind res_bind].
  change (negb (u8 (as_u8 1) =? ADDR_TYPE_IPV4)) with false. cbv iota.
  change (at_ blob 2) with (Ok (E:=PairLinkError) (as_u8 (len os))). cbn [mbind res_bind].
  rewrite u8_as_u8, Z.mod_small by lia.
  replace ((len os =? 0) || (len os >? 4)) with false by lia. cbv iota.
  assert (E1 : range blob 3 5 = Ok (be_bytes 2 p)) by (apply range_app; [done|rewrite length_be_bytes; lia]).
  rewrite E1. cbn [mbind res_bind]. rewrite Z.ltb_irrefl. cbn [mbind res_bind].
  rewrite be_val_be_bytes, Z.mod_small by (change (256 ^ Z.of_nat 2) with (2 ^ 16); lia).
  rewrite check_addrs_spec, collect_addrs_spec by lia. rewrite Nat2Z.id.
  assert (Hq : quads blob 5 (length os) = os).
  { unfold blob. rewrite app_assoc. apply (quads_concat os ([as_u8 5; as_u8 1; as_u8 (len os)] ++ be_bytes 2 p)
      (nonce ++ fp) Hos). }
  rewrite Hq. assert (Hfind : List.find (fun o => negb (is_allowed_direct_ipv4 o)) os = None).
  { clear -Hos. induction Hos as [|o os [_ Ha] Hos IH]; [done|]. cbn. by rewrite Ha. }
  rewrite Hfind. cbn [mbind res_bind].
  assert (E2 : range blob (5 + 4 * len os) (5 + 4 * len os + 16) = Ok nonce).
  { unfold blob. rewrite !app_assoc, <- (app_assoc _ nonce).
    apply range_app; rewrite ?length_app, ?length_be_bytes; cbn [length]; lia. }
  assert (E3 : range blob (5 + 4 * len os + 16) (5 + 4 * len os + 16 + 16) = Ok fp).
  { unfold blob. rewrite !app_assoc.
    apply range_app_end; rewrite ?length_app, ?length_be_bytes; cbn [length]; lia. }
  rewrite E2, E3. cbn [mbind res_bind fmap res_fmap meaning]. rewrite add_candidates_first_seen. cbn [app].
  do 3 f_equal. apply filter_all_true. intros e. apply not_elem_of_nil.
Qed.

Lemma parse_v06_form s fp origin :
  form_ok (FormV06 s fp origin) -> parse_blob (blob_of (FormV06 s fp origin)) = Ok (meaning (FormV06 s fp origin)).
Proof.
  intros (Hs & Hf & Ho).
  change (parse_blob (blob_of _)) with
    (Relay <$> parse_v06 ([as_u8 6] ++ s ++ [as_u8 1] ++ fp ++ origin_field origin)).
  set (blob := [as_u8 6] ++ s ++ [as_u8 1] ++ fp ++ origin_field origin).
  set (n := match origin with Some o => len (into_bytes o) | None => 0 end).
  assert (Hl : len blob = 27 + n).
  { unfold blob, n. rewrite !length_app. destruct origin; cbn [length origin_field]; lia. }
  assert (Hn : 0 <= n < 256) by (unfold n; destruct origin; lia).
  assert (Ht : at_ blob 9 = Ok (as_u8 1)).
  { unfold at_, index, blob. rewrite lookup_app_r by (cbn; lia). cbn [length].
    rewrite lookup_app_r by lia. replace (Z.to_nat 9 - 1 - length s)%nat with O by lia. done. }
  assert (Hsel : at_ blob 26 = Ok (as_u8 n)).
  { unfold at_, index, blob, n. rewrite !app_assoc, lookup_app_r by (rewrite !length_app; cbn; lia).
    rewrite !length_app. cbn [length]. replace (Z.to_nat 26 - _)%nat with O by lia. by destruct origin. }
  unfold parse_v06, RELAY_WINDOW_BASE_LEN, require_exact, require. rewrite Hl.
  replace (27 + n <? 27) with false by lia. rewrite Ht. cbn [mbind res_bind].
  change (negb (u8 (as_u8 1) =? RELAY_CA_FP_TAG_SPKI_SHA256)) with false. cbv iota. rewrite Hsel. cbn [mbind res_bind].
  rewrite u8_as_u8, Z.mod_small by lia.
  assert (E1 : range blob 1 9 = Ok s) by (apply range_app; [done|lia]).
  assert (E2 : range blob 10 26 = Ok fp).
  { unfold blob. rewrite !app_assoc, <- (app_assoc _ fp). apply range_app; rewrite ?length_app; cbn [length]; lia. }
  rewrite E1, E2. rewrite Z.ltb_irrefl, Z.eqb_refl.
  destruct origin as [o|]; cbn [n] in *; unfold n in *.
  - destruct Ho as [Hsc Hlen]. rewrite (proj2 (Z.eqb_neq _ _)) by lia. cbn [mbind res_bind negb].
    assert (E3 : range blob 27 (27 + len (into_bytes o)) = Ok (into_bytes o)).
    { unfold blob. cbn [origin_field]. change (as_u8 (len (into_bytes o)) :: into_bytes o)
        with ([as_u8 (len (into_bytes o))] ++ into_bytes o). rewrite !app_assoc.
      apply range_app_end; rewrite ?length_app; cbn [length]; lia. }
    rewrite E3. cbn [mbind res_bind]. rewrite from_utf8_into_bytes by done. done.
  - done.
Qed.

Lemma split_once_prefix c pre frag :
  Forall (fun x => x <> c) pre -> split_once c (pre ++ [c] ++ frag) = Some (pre, frag).
Proof.
  induction 1 as [|x pre Hx Hpre IH]; cbn [app split_once].
  - by rewrite Z.eqb_refl.
  - rewrite (proj2 (Z.eqb_neq _ _) Hx). cbn [app] in IH. by rewrite IH.
Qed.

(** ** Properties *)

(** C39. A well-filled pair link parses to its meaning: for each of the three
    forms, the link built from any admissible fields (one to four allowed
    addresses, any port, a custom or the default relay origin) behind any URL
    prefix is parsed to exactly those fields, with port 0 read as the default
    port and duplicate endpoints coalesced in first-occurrence order. *)
Theorem pairlink_roundtrip form prefix :
  form_ok form -> Forall (fun c => c <> 35) prefix ->
  parse (prefix ++ [35] ++ encode (blob_of form)) = Ok (meaning form).
Proof.
  intros Hf Hp. unfold parse. rewrite split_once_prefix by done. cbn [mbind res_bind].
  rewrite decode_encode. cbn [map_err mbind res_bind].
  destruct form; [by apply parse_v04_form|by apply parse_v05_form|by apply parse_v06_form].
Qed.

Definition sample_form : link_form :=
  FormV05 [[as_u8 192; as_u8 168; as_u8 1; as_u8 9]; [as_u8 10; as_u8 0; as_u8 0; as_u8 2];
           [as_u8 192; as_u8 168; as_u8 1; as_u8 9]] 0 (replicate 16 (as_u8 7)) (replicate 16 (as_u8 9)).

Lemma pairlink_roundtrip_witness :
  exists d, parse (lit "https://go.solstone.app/p" ++ [35] ++ encode (blob_of sample_form)) = Ok (Direct d) /\
    candidates d = [mkEndpoint (lit "192.168.1.9") 7657; mkEndpoint (lit "10.0.0.2") 7657].
Proof.
  eexists. split.
  - apply (pairlink_roundtrip sample_form).
    + split; [|split_and!; vm_compute; try done; lia]. repeat (apply Forall_cons_2; [by split|]). apply Forall_nil_2.
    + repeat (apply Forall_cons_2; [vm_compute; congruence|]). apply Forall_nil_2.
  - reflexivity.
Defined.

(** No link crashes the parser, and an accepted link is in order: a direct
    link has one to four distinct candidates, each a dotted address admitted by
    the range policy with a non-zero 16-bit port, a 32-digit nonce and a 16-byte
    pin; a relay link has an 8-byte secret and a 16-byte pin. *)
Theorem pairlink_accepts_only_sound link :
  match parse link with Ok l => link_ok l | Err _ => True | Panic => False end.
Proof.
  unfold parse. destruct (split_once 35 link) as [[? frag]|]; cbn [mbind res_bind].
  - pose proof (decode_no_panic frag) as Hd. destruct (decode frag) as [b|e|]; [|done..].
    cbn. apply parse_blob_sound.
  - destruct (_ && _); [|done]. cbn [mbind res_bind].
    pose proof (decode_no_panic link) as Hd. destruct (decode link) as [b|e|]; [|done..].
    cbn. apply parse_blob_sound.
Qed.
