(* ===== verification/Relay.v ===== *)
(** * Relay URLs, listen controls and dial capabilities

    The pure relay helpers of spl-core: [crates/spl-core/src/relay.rs] (dial,
    listen and tunnel URLs, the listen control message), [jwt.rs] (token
    lifetimes), [relay_access.rs] (instance and legacy capability checks) and
    [relay_window.rs] (pair-window key and journal identity).

    JSON text, base64, RFC 3339, HKDF and the P-256 SPKI codec are third-party
    code: they are the fields of [RelayPrimitives].  A [serde_json::Value] is
    the data type [json]; the derived [Deserialize] of [InstanceClaims] is
    written out on it. *)

From S2P Require Import Prelude Text PairLink.

(** ** URLs *)

Inductive DialUrlError := UnsupportedScheme.

Definition is_unreserved (b : Z) : bool :=
  between 48 b 57 || between 65 b 90 || between 97 b 122 ||
  (b =? 45) || (b =? 46) || (b =? 95) || (b =? 126).

(** [unreachable!] outside the sixteen nibbles. *)
Definition hex (nibble : Z) : res DialUrlError Z :=
  if between 0 nibble 9 then Ok (48 + nibble)
  else if between 10 nibble 15 then Ok (65 + (nibble - 10))
  else Panic.

Definition encode_url_byte (out : res DialUrlError str) (b : byte) : res DialUrlError str :=
  out ← out;
  if is_unreserved (u8 b) then Ok (out ++ [u8 b])
  else
    hi ← hex (Z.shiftr (u8 b) 4);
    lo ← hex (Z.land (u8 b) 0x0F);
    Ok (out ++ [37; hi; lo]).

Definition percent_encode (value : str) : res DialUrlError str :=
  foldl encode_url_byte (Ok []) (into_bytes value).

Definition ws_origin (relay_origin : str) : res DialUrlError str :=
  rewritten ← match strip_prefix (lit "https://") relay_origin with
              | Some rest => Ok (lit "wss://" ++ rest)
              | None =>
                  match strip_prefix (lit "http://") relay_origin with
                  | Some rest => Ok (lit "ws://" ++ rest)
                  | None => Err UnsupportedScheme
                  end
              end;
  Ok (default rewritten (strip_suffix [47] rewritten)).

Definition relay_url (relay_origin path instance_id : str) : res DialUrlError str :=
  origin ← ws_origin relay_origin;
  instance ← percent_encode instance_id;
  Ok (origin ++ path ++ lit "?instance=" ++ instance).

Definition dial_url (relay_origin instance_id : str) : res DialUrlError str :=
  relay_url relay_origin (lit "/session/dial") instance_id.

Definition pair_dial_url (relay_origin : str) : res DialUrlError str :=
  origin ← ws_origin relay_origin; Ok (origin ++ lit "/session/pair-dial").

Definition listen_url (relay_origin : str) : res DialUrlError str :=
  origin ← ws_origin relay_origin; Ok (origin ++ lit "/session/listen").

Definition tunnel_url (relay_origin tunnel_id : str) : res DialUrlError str :=
  origin ← ws_origin relay_origin;
  id ← percent_encode tunnel_id;
  Ok (origin ++ lit "/tunnel/" ++ id).

Example dial_url_ex :
  dial_url (lit "https://link.solstone.app/") (lit "inst one/two")
  = Ok (lit "wss://link.solstone.app/session/dial?instance=inst%20one%2Ftwo") /\
  dial_url (lit "wss://link.solstone.app") (lit "inst") = Err UnsupportedScheme.
Proof. by vm_compute. Qed.

(** ** JSON values *)

(** [serde_json::Number]: an integer that fits [u64] or [i64], or a float. *)
Inductive number := NInt (z : Z) | NFloat.

Inductive json :=
| JNull
| JBool (b : bool)
| JNumber (n : number)
| JString (s : str)
| JArray (l : list json)
| JObject (m : list (str * json)).

Definition fits_i64 (z : Z) : bool := (- 2 ^ 63 <=? z) && (z <? 2 ^ 63).
Definition fits_u64 (z : Z) : bool := (0 <=? z) && (z <? 2 ^ 64).

Definition as_i64 (j : json) : option Z :=
  match j with JNumber (NInt z) => if fits_i64 z then Some z else None | _ => None end.
Definition as_u64 (j : json) : option Z :=
  match j with JNumber (NInt z) => if fits_u64 z then Some z else None | _ => None end.
Definition as_str (j : json) : option str := match j with JString s => Some s | _ => None end.
Definition as_object (j : json) : option (list (str * json)) :=
  match j with JObject m => Some m | _ => None end.

(** [Map::get]: the keys of a map are distinct. *)
Fixpoint get (k : str) (m : list (str * json)) : option json :=
  match m with
  | [] => None
  | (k', v) :: m => if bool_decide (k = k') then Some v else get k m
  end.
(** [Value::get] with a string index: [None] on anything but an object. *)
Definition value_get (k : str) (j : json) : option json := m ← as_object j; get k m.

(** [i64::to_string] and [u64::to_string]. *)
Definition signed_to_string (z : Z) : str := if z <? 0 then 45 :: to_string (- z) else to_string z.

(** [i64::saturating_add]; [i64::checked_add], [checked_sub], [checked_mul]. *)
Definition i64_saturating_add (a b : Z) : Z := Z.max (- 2 ^ 63) (Z.min (2 ^ 63 - 1) (a + b)).
Definition i64_checked (z : Z) : option Z := if fits_i64 z then Some z else None.

(** ** Third-party decoders *)

Class RelayPrimitives := {
  json_value : list byte -> option json;
  json_lifetimes : list byte -> option (Z * Z);
  url_safe_decode : str -> option (list byte);
  rfc3339 : str -> option (Z * Z);
  hkdf_sha256 : option (list byte) -> list byte -> list byte -> nat -> list byte;
  P256 : Type;
  spki_from_der : list byte -> option (option (list byte));
  p256_from_spki : list byte -> res bool P256;
  to_public_key_der : P256 -> list byte
}.

(** ** The listen control message *)

Inductive ListenControl :=
| Incoming (tunnel_id : str)
| Ignore
| Invalid.

Section Relay.
Context {R : RelayPrimitives}.

Definition parse_listen_control (text : str) : ListenControl :=
  match json_value (into_bytes text) with
  | None => Invalid
  | Some value =>
      match as_object value with
      | None => Invalid
      | Some object =>
          match get (lit "type") object ≫= as_str with
          | None => Invalid
          | Some t =>
              if bool_decide (t = lit "incoming") then
                let tunnel_id :=
                  match get (lit "tunnel_id") object with
                  | Some (JString value) => if bool_decide (value = []) then None else Some value
                  | Some (JNumber value) =>
                      match as_i64 (JNumber value) with
                      | Some z => Some (signed_to_string z)
                      | None => signed_to_string <$> as_u64 (JNumber value)
                      end
                  | _ => None
                  end in
                match tunnel_id with Some tunnel_id => Incoming tunnel_id | None => Invalid end
              else Ignore
          end
      end
  end.

(** ** Token lifetimes *)

Record JwtClaims := mkJwt { jwt_iat : Z; jwt_exp : Z }.

(** The derived [Deserialize] of the private [RawClaims] is [json_lifetimes]. *)
Definition decode_unverified_claims (token : str) : option JwtClaims :=
  match split_char 46 token with
  | [_; payload; _] =>
      decoded ← url_safe_decode payload;
      '(iat, exp) ← json_lifetimes decoded;
      Some (mkJwt iat exp)
  | _ => None
  end.

Definition should_refresh (claims : JwtClaims) (now_secs : Z) : bool :=
  match i64_checked (jwt_exp claims - jwt_iat claims) with
  | None => false
  | Some ttl =>
      if ttl <=? 0 then false
      else
        match i64_checked (ttl * 4) with
        | None => false
        | Some scaled_ttl =>
            match i64_checked (jwt_iat claims + scaled_ttl ÷ 5) with
            | None => false
            | Some refresh_at => now_secs >? refresh_at
            end
        end
  end.

(** ** Dial capabilities *)

Record RelayAccess := mkAccess {
  protocol_version : Z; access_status : str; access_origin : str;
  access_instance : str; device_token : str; access_expires_at : str
}.

Record InstanceClaims := mkInstance {
  ic_iss : str; ic_sub : str; ic_aud : str; ic_scope : str; ic_ver : Z;
  ic_instance_id : str; ic_iat : Z; ic_exp : Z; ic_jti : str
}.

Definition instance_fields : list str :=
  lit <$> ["iss"; "sub"; "aud"; "scope"; "ver"; "instance_id"; "iat"; "exp"; "jti"]%string.

Definition as_u8_field (j : json) : option Z :=
  z ← as_u64 j; if z <=? 255 then Some z else None.

(** One field each, in declaration order. *)
Definition instance_of (fields : list json) : option InstanceClaims :=
  match fields with
  | [iss; sub; aud; scope; ver; inst; iat; exp; jti] =>
      iss ← as_str iss; sub ← as_str sub; aud ← as_str aud; scope ← as_str scope;
      ver ← as_u8_field ver; inst ← as_str inst; iat ← as_i64 iat; exp ← as_i64 exp;
      jti ← as_str jti;
      Some (mkInstance iss sub aud scope ver inst iat exp jti)
  | _ => None
  end.

(** [serde_json::from_value::<InstanceClaims>]: a derived struct is read from
    an object with exactly its fields, or from an array of them in order. *)
Definition instance_from_value (j : json) : option InstanceClaims :=
  match j with
  | JObject m =>
      if forallb (fun e => bool_decide (fst e ∈ instance_fields)) m
      then fields ← mapM (fun k => get k m) instance_fields; instance_of fields
      else None
  | JArray l => instance_of l
  | _ => None
  end.

Definition unverified_payload (token : str) : option json :=
  match split_char 46 token with
  | [header; payload; signature] =>
      if bool_decide (header = []) || bool_decide (signature = []) then None
      else decoded ← url_safe_decode payload; json_value decoded
  | _ => None
  end.

Definition lifetime_refused (iat exp now : Z) : bool :=
  (exp <=? now) || (exp <=? iat) || (iat >? i64_saturating_add now 60).

Definition instance_claims (token instance_id : str) (now : Z) : option JwtClaims :=
  payload ← unverified_payload token;
  claims ← instance_from_value payload;
  if negb (ic_ver claims =? 2)
     || negb (bool_decide (ic_aud claims = lit "spl-relay"))
     || negb (bool_decide (ic_scope claims = lit "session.dial"))
     || negb (bool_decide (ic_instance_id claims = instance_id))
     || negb (bool_decide (ic_sub claims = lit "instance:" ++ instance_id))
     || bool_decide (ic_iss claims = [])
     || bool_decide (ic_jti claims = [])
     || lifetime_refused (ic_iat claims) (ic_exp claims) now
  then None
  else Some (mkJwt (ic_iat claims) (ic_exp claims)).

Definition is_ascii_hexdigit (c : Z) : bool := between 48 c 57 || between 65 c 70 || between 97 c 102.

(** [object.get(k)?.as_str()?] and [object.contains_key(k)]. *)
Definition get_str (k : string) (m : list (str * json)) : option str :=
  match get (lit k) m with Some j => as_str j | None => None end.
Definition contains_key (k : string) (m : list (str * json)) : bool :=
  match get (lit k) m with Some _ => true | None => false end.

Definition legacy_claims (token instance_id : str) (now : Z) : option JwtClaims :=
  payload ← unverified_payload token;
  object ← as_object payload;
  sub ← get_str "sub" object ≫= strip_prefix (lit "device:");
  fp ← get_str "device_fp" object ≫= strip_prefix (lit "sha256:");
  claims ← decode_unverified_claims token;
  if contains_key "ver" object then None
  else if bool_decide (sub = ([] : str)) then None
  else if negb (len (into_bytes fp) =? 64) then None
  else if negb (forallb (fun b => is_ascii_hexdigit (u8 b)) (into_bytes fp)) then None
  else
    inst ← get_str "instance_id" object;
    if negb (bool_decide (inst = instance_id)) then None
    else
      aud ← get_str "aud" object;
      if negb (bool_decide (aud = lit "spl-relay")) then None
      else
        scope ← get_str "scope" object;
        if negb (bool_decide (scope = lit "session.dial")) then None
        else
          iss ← get_str "iss" object;
          if bool_decide (iss = ([] : str)) then None
          else
            jti ← get_str "jti" object;
            if bool_decide (jti = ([] : str)) || lifetime_refused (jwt_iat claims) (jwt_exp claims) now
            then None
            else Some claims.

Definition token_renewal_identity (token : str) (now : Z) : option (str * bool) :=
  payload ← unverified_payload token;
  inst ← value_get (lit "instance_id") payload ≫= as_str;
  exp ← value_get (lit "exp") payload ≫= as_i64;
  iat ← value_get (lit "iat") payload ≫= as_i64;
  if iat >? i64_saturating_add now 60 then None
  else
    before ← i64_checked (exp - 1);
    let shape_time := Z.min now before in
    v2 ← match value_get (lit "ver") payload with
         | Some version =>
             if bool_decide (as_u64 version = Some 2)
             then _ ← instance_claims token inst shape_time; Some true
             else None
         | None => _ ← legacy_claims token inst shape_time; Some false
         end;
    Some (inst, v2).

Definition negotiated_claims (version : Z) (token expires_at instance_id : str) (now : Z) : option JwtClaims :=
  if negb (version =? 2) then None
  else
    claims ← instance_claims token instance_id now;
    '(unix_timestamp, nanosecond) ← rfc3339 expires_at;
    if negb (unix_timestamp =? jwt_exp claims) || negb (nanosecond =? 0) then None
    else Some claims.

Definition access_claims (a : RelayAccess) (instance_id : str) (now : Z) : option JwtClaims :=
  if negb (bool_decide (access_status a = lit "ready")) || negb (bool_decide (access_instance a = instance_id))
  then None
  else negotiated_claims (protocol_version a) (device_token a) (access_expires_at a) instance_id now.

(** ** Pair windows *)

Inductive JidError := NotP256 | InvalidPoint | MalformedSpki.

Definition hkdf16 (ikm : list byte) (salt : option (list byte)) (info : list byte) : list byte :=
  hkdf_sha256 salt ikm info 16.

Definition derive_rk (s : list byte) : list byte := hkdf16 s None (blit "spl-pair-window-v1").

(** [raw[i] = f(raw[i])]; an index out of range panics. *)
Definition set_byte (i : nat) (f : Z -> Z) (raw : list byte) : option (list byte) :=
  b ← raw !! i; Some (<[i := as_u8 (f (u8 b))]> raw).

Definition jid_from_public_key (k : P256) : res PairLinkError str :=
  let raw := hkdf16 (to_public_key_der k) (Some (blit "solstone/journal/v1")) (blit "solstone/jid/uuidv8/v1") in
  raw ← expect (set_byte 6 (fun b => Z.lor (Z.land b 0x0f) 0x80) raw);
  raw ← expect (set_byte 8 (fun b => Z.lor (Z.land b 0x3f) 0x80) raw);
  uuid_string raw.

(** [spki_from_der] gives the octets of the key bit string, or [None] when it
    is not a whole number of octets; [p256_from_spki] fails with [true] on an
    unknown algorithm. *)
Definition jid_from_spki (spki_der : list byte) : res JidError str :=
  match spki_from_der spki_der with
  | None | Some None => Err MalformedSpki
  | Some (Some _) =>
      match p256_from_spki spki_der with
      | Err true => Err NotP256
      | Err false => Err InvalidPoint
      | Panic => Panic
      | Ok k => match jid_from_public_key k with Ok s => Ok s | Err _ | Panic => Panic end
      end
  end.

End Relay.

(** ** URL components

    [encode1] is what [percent_encode] writes for one byte, [percent_decode] is
    the decoder of RFC 3986. *)

Definition nibble_char (n : Z) : Z := if n <? 10 then 48 + n else 55 + n.
Definition encode1 (b : byte) : str :=
  if is_unreserved (u8 b) then [u8 b] else [37; nibble_char (u8 b / 16); nibble_char (u8 b mod 16)].

Fixpoint percent_decode (s : str) : option (list byte) :=
  match s with
  | [] => Some []
  | c :: r =>
      if c =? 37 then
        match r with
        | h :: l :: r =>
            h ← to_digit 16 h; l ← to_digit 16 l;
            cons (as_u8 (16 * h + l)) <$> percent_decode r
        | _ => None
        end
      else cons (as_u8 c) <$> percent_decode r
  end.

(** No delimiter of a URL (slash, question mark, hash, ampersand, space) and
    nothing outside ASCII. *)
Definition segment_char (c : Z) : bool := is_unreserved c || (c =? 37).

Lemma encode_url_byte_pure out b : encode_url_byte (Ok out) b = Ok (out ++ encode1 b).
Proof.
  pose proof (u8_range b) as Hb. unfold encode_url_byte, encode1. cbn.
  destruct (is_unreserved (u8 b)); [done|].
  rewrite Z.shiftr_div_pow2 by lia. change (2 ^ 4) with 16.
  change 0x0F with (Z.ones 4). rewrite Z.land_ones by lia. change (2 ^ 4) with 16.
  assert (0 <= u8 b / 16 < 16) by (split; [apply Z.div_pos; lia | apply Z.div_lt_upper_bound; lia]).
  pose proof (Z.mod_pos_bound (u8 b) 16).
  assert (Hhex : forall n, 0 <= n < 16 -> hex n = Ok (nibble_char n)).
  { intros n Hn. unfold hex, nibble_char, between.
    destruct (n <? 10) eqn:E; repeat (case_match; try lia); f_equal; lia. }
  rewrite !Hhex by lia. done.
Qed.

Lemma percent_encode_pure v : percent_encode v = Ok (concat (encode1 <$> into_bytes v)).
Proof.
  unfold percent_encode. change (Ok [] : res DialUrlError str) with (Ok ([] ++ []) : res DialUrlError str).
  enough (H : forall l out, foldl encode_url_byte (Ok out) l = Ok (out ++ concat (encode1 <$> l))) by apply (H _ []).
  induction l as [|b l IH]; intros out; cbn [foldl]; [by rewrite app_nil_r|].
  rewrite encode_url_byte_pure, IH, <- app_assoc. done.
Qed.

Lemma nibble_digit n : 0 <= n < 16 -> to_digit 16 (nibble_char n) = Some n.
Proof.
  intros Hn.
  assert (Hall : forallb (fun k => bool_decide (to_digit 16 (nibble_char k) = Some k)) (seqZ 0 16) = true) by done.
  rewrite forallb_forall in Hall. eapply bool_decide_eq_true_1, Hall, list_elem_of_In, elem_of_seqZ. lia.
Qed.

Lemma percent_decode_encode1 b s : percent_decode (encode1 b ++ s) = cons b <$> percent_decode s.
Proof.
  pose proof (u8_range b) as Hb. unfold encode1. destruct (is_unreserved (u8 b)) eqn:Hu.
  - cbn. destruct (u8 b =? 37) eqn:E; [|by rewrite as_u8_u8].
    apply Z.eqb_eq in E. rewrite E in Hu. done.
  - cbn. rewrite !nibble_digit; cycle 1.
    + split; [apply Z.div_pos; lia | apply Z.div_lt_upper_bound; lia].
    + by apply Z.mod_pos_bound.
    + cbn. rewrite <- Z.div_mod by lia. by rewrite as_u8_u8.
Qed.

Lemma percent_decode_encode l : percent_decode (concat (encode1 <$> l)) = Some l.
Proof. induction l as [|b l IH]; [done|]. cbn [fmap list_fmap concat]. by rewrite percent_decode_encode1, IH. Qed.

Definition segment_byte (z : Z) : bool :=
  forallb segment_char (if is_unreserved z then [z] else [37; nibble_char (z / 16); nibble_char (z mod 16)]).

Lemma encode_segment l : Forall (fun c => segment_char c = true) (concat (encode1 <$> l)).
Proof.
  induction l as [|b l IH]; [constructor|]. cbn [fmap list_fmap concat]. apply list.Forall_app. split; [|done].
  apply list.Forall_forall. intros c Hc.
  assert (Hs : segment_byte (u8 b) = true) by (apply u8_forall; [by vm_compute | apply u8_range]).
  unfold segment_byte in Hs. rewrite forallb_forall in Hs. apply Hs, list_elem_of_In, Hc.
Qed.

(** What every relay URL carries of an identifier: a component [e] of safe
    characters that decodes to the identifier. *)
Lemma percent_encode_spec v : scalars v ->
  exists e, percent_encode v = Ok e /\ Forall (fun c => segment_char c = true) e /\
    percent_decode e ≫= from_utf8 = Some v.
Proof.
  intros Hv. exists (concat (encode1 <$> into_bytes v)).
  rewrite percent_encode_pure, percent_decode_encode. split_and!; [done | apply encode_segment |].
  by apply from_utf8_into_bytes.
Qed.

Lemma ws_origin_total origin : ws_origin origin <> Panic.
Proof. unfold ws_origin. by repeat case_match. Qed.

(** The tunnel URL and the dial URL of an identifier exist whenever the
    origin is HTTP or HTTPS, and are refused with [UnsupportedScheme]
    otherwise; they never panic.  The identifier occupies one component of
    unreserved characters and escapes, so that it can add no path segment,
    query or fragment, and that component decodes to the identifier: two
    tunnels never share a URL. *)
Theorem relay_urls_faithful origin id :
  scalars id ->
  match ws_origin origin with
  | Panic => False
  | Err e => tunnel_url origin id = Err UnsupportedScheme /\ dial_url origin id = Err UnsupportedScheme
  | Ok o =>
      exists e, Forall (fun c => segment_char c = true) e /\
        percent_decode e ≫= from_utf8 = Some id /\
        tunnel_url origin id = Ok (o ++ lit "/tunnel/" ++ e) /\
        dial_url origin id = Ok (o ++ lit "/session/dial" ++ lit "?instance=" ++ e)
  end.
Proof.
  intros Hid. destruct (percent_encode_spec id Hid) as (e & He & Hs & Hd).
  pose proof (ws_origin_total origin).
  unfold tunnel_url, dial_url, relay_url. destruct (ws_origin origin) as [o|[]|]; [|done|done].
  exists e. cbn. by rewrite He.
Qed.

Lemma relay_urls_faithful_witness :
  exists e, Forall (fun c => segment_char c = true) e /\
    percent_decode e ≫= from_utf8 = Some (lit "a/../b?c") /\
    tunnel_url (lit "https://r/") (lit "a/../b?c") = Ok (lit "wss://r" ++ lit "/tunnel/" ++ e) /\
    dial_url (lit "https://r/") (lit "a/../b?c") = Ok (lit "wss://r" ++ lit "/session/dial" ++ lit "?instance=" ++ e).
Proof.
  refine (relay_urls_faithful (lit "https://r/") (lit "a/../b?c") _).
  apply ascii_scalars. apply (bool_decide_unpack _). by vm_compute.
Defined.

(** ** Capabilities and their renewal *)

Section Capabilities.
Context {R : RelayPrimitives}.

(** What a capability must be apart from its lifetime. *)
Definition instance_shape (token inst : str) (c : JwtClaims) : Prop :=
  exists j ic, unverified_payload token = Some j /\ instance_from_value j = Some ic /\
    ic_ver ic = 2 /\ ic_aud ic = lit "spl-relay" /\ ic_scope ic = lit "session.dial" /\
    ic_instance_id ic = inst /\ ic_sub ic = lit "instance:" ++ inst /\
    ic_iss ic <> [] /\ ic_jti ic <> [] /\ c = mkJwt (ic_iat ic) (ic_exp ic).

Definition legacy_shape (token inst : str) (c : JwtClaims) : Prop :=
  exists m sub fp iss jti, unverified_payload token = Some (JObject m) /\
    get_str "sub" m = Some (lit "device:" ++ sub) /\ sub <> [] /\
    get_str "device_fp" m = Some (lit "sha256:" ++ fp) /\
    len (into_bytes fp) = 64 /\ forallb (fun b => is_ascii_hexdigit (u8 b)) (into_bytes fp) = true /\
    decode_unverified_claims token = Some c /\ get (lit "ver") m = None /\
    get_str "instance_id" m = Some inst /\ get_str "aud" m = Some (lit "spl-relay") /\
    get_str "scope" m = Some (lit "session.dial") /\
    get_str "iss" m = Some iss /\ iss <> [] /\ get_str "jti" m = Some jti /\ jti <> [].

Definition alive (c : JwtClaims) (now : Z) : Prop := lifetime_refused (jwt_iat c) (jwt_exp c) now = false.

Lemma instance_claims_spec token inst now c :
  instance_claims token inst now = Some c <-> instance_shape token inst c /\ alive c now.
Proof.
  unfold instance_claims, instance_shape, alive. split.
  - intros H. destruct (unverified_payload token) as [j|] eqn:Hj; [|done]. cbn in H.
    destruct (instance_from_value j) as [ic|] eqn:Hi; [|done]. cbn in H. case_match; [done|]. simplify_eq.
    rewrite !orb_false_iff, !negb_false_iff, !bool_decide_eq_true, !bool_decide_eq_false, Z.eqb_eq in *.
    destruct_and!. split; [|done]. by exists j, ic.
  - intros [(j & ic & -> & Hi & Hver & Haud & Hscope & <- & Hsub & Hiss & Hjti & ->) Ha]. cbn. rewrite Hi. cbn.
    cbn in Ha. rewrite Ha, Hver, Haud, Hscope, Hsub, !bool_decide_eq_true_2 by done.
    by rewrite !bool_decide_eq_false_2 by done.
Qed.

Lemma legacy_claims_spec token inst now c :
  legacy_claims token inst now = Some c <-> legacy_shape token inst c /\ alive c now.
Proof.
  unfold legacy_claims, legacy_shape, alive, contains_key. split.
  - intros H.
    repeat match type of H with
    | mbind _ ?o = Some _ => destruct o as [?|] eqn:?; [cbn [mbind option_bind] in H | done]
    | (if ?b then _ else _) = Some _ => destruct b eqn:?; [done|]
    | (match ?o with Some _ => _ | None => _ end) = _ => destruct o eqn:?; [done|]
    end.
    destruct j; try done. cbn [as_object] in *.
    repeat match goal with
    | H : mbind _ ?o = Some _ |- _ => destruct o eqn:?; [cbn [mbind option_bind] in H | done]
    end.
    rewrite ?negb_false_iff, ?bool_decide_eq_true, ?bool_decide_eq_false, ?Z.eqb_eq in *.
    simplify_eq.
    repeat match goal with H : strip_prefix _ _ = Some _ |- _ => apply strip_prefix_Some in H; subst end.
    rewrite orb_false_iff, bool_decide_eq_false in *. destruct_and!. split; [|done].
    do 5 eexists. split_and!; eauto. by destruct (get (lit "ver") _).
  - intros [(m & sub & fp & iss & jti & -> & Hsub & Hsub0 & Hfp & Hl & Hx & Hc & Hv & Hi & Ha & Hsc & Hiss & Hiss0 & Hjti & Hjti0) Hal].
    cbn [mbind option_bind as_object]. rewrite Hsub, Hfp. cbn [mbind option_bind]. rewrite !strip_prefix_app. cbn [mbind option_bind].
    rewrite Hc. cbn [mbind option_bind]. rewrite Hv, Hl, Hx, Hi, Hal, bool_decide_eq_false_2 by done.
    cbn [mbind option_bind negb]. rewrite Ha, Hsc, Hiss, Hjti, bool_decide_eq_true_2 by done.
    cbn [mbind option_bind negb]. by rewrite !bool_decide_eq_true_2, !bool_decide_eq_false_2 by done.
Qed.

(** A derived struct read from an object has the object's fields. *)
Lemma instance_object m ic :
  instance_from_value (JObject m) = Some ic ->
  get_str "instance_id" m = Some (ic_instance_id ic) /\
  get (lit "iat") m ≫= as_i64 = Some (ic_iat ic) /\
  get (lit "exp") m ≫= as_i64 = Some (ic_exp ic) /\
  exists v, get (lit "ver") m = Some v /\ as_u64 v = Some (ic_ver ic).
Proof.
  cbn [instance_from_value]. case_match; [|done]. unfold instance_fields. cbn [mapM fmap list_fmap]. intros H'.
  unfold get_str.
  repeat match type of H' with
  | mbind _ ?o = Some _ => destruct o as [?|] eqn:?; [cbn [mbind option_bind] in H' | done]
  end.
  repeat match goal with
  | H : mbind _ ?o = Some _ |- _ => destruct o as [?|] eqn:?; [cbn [mbind option_bind] in H | done]
  end.
  unfold mret, option_ret in *. simplify_eq. cbn [instance_of] in H'.
  repeat match type of H' with
  | mbind _ ?o = Some _ => destruct o as [?|] eqn:?; [cbn [mbind option_bind] in H' | done]
  end.
  simplify_eq. cbn [ic_instance_id ic_iat ic_exp ic_ver mbind option_bind].
  split_and!; try done. eexists; split; [done|].
  unfold as_u8_field in *. destruct (as_u64 j3) as [w|] eqn:Hw; [|done]. cbn in *. case_match; by simplify_eq.
Qed.

Definition lifetimes_agree : Prop :=
  forall b m iat exp, json_value b = Some (JObject m) -> json_lifetimes b = Some (iat, exp) ->
    get (lit "iat") m ≫= as_i64 = Some iat /\ get (lit "exp") m ≫= as_i64 = Some exp.

Definition accepted (v2 : bool) (token inst : str) (now : Z) : option JwtClaims :=
  if v2 then instance_claims token inst now else legacy_claims token inst now.

(** The object a capability's claims are read from. *)
Definition claims_object (m : list (str * json)) (v2 : bool) (inst : str) (c : JwtClaims) : Prop :=
  get_str "instance_id" m = Some inst /\
  get (lit "iat") m ≫= as_i64 = Some (jwt_iat c) /\ get (lit "exp") m ≫= as_i64 = Some (jwt_exp c) /\
  (if v2 then exists v, get (lit "ver") m = Some v /\ as_u64 v = Some 2 else get (lit "ver") m = None).

Lemma accepted_object v2 token inst now m c :
  lifetimes_agree -> unverified_payload token = Some (JObject m) ->
  accepted v2 token inst now = Some c -> claims_object m v2 inst c.
Proof.
  intros Hag Hp. destruct v2; cbn [accepted].
  - rewrite instance_claims_spec. intros [(j & ic & Hj & Hi & Hver & _ & _ & Hinst & _ & _ & _ & ->) _].
    rewrite Hp in Hj. simplify_eq. destruct (instance_object _ _ Hi) as (? & ? & ? & v & ? & Hv).
    split_and!; try done. exists v. by rewrite Hv, Hver.
  - rewrite legacy_claims_spec.
    intros [(m' & sub & fp & iss & jti & Hj & _ & _ & _ & _ & _ & Hd & Hv & Hi & _) _].
    rewrite Hp in Hj. simplify_eq. unfold decode_unverified_claims in Hd.
    unfold unverified_payload in Hp. do 4 (case_match; try done). case_match; [done|].
    destruct (url_safe_decode _) as [b|]; [|done]. cbn [mbind option_bind] in Hd, Hp.
    destruct (json_lifetimes b) as [[iat exp]|] eqn:Hl; [|done]. cbn [mbind option_bind] in Hd. simplify_eq.
    destruct (Hag _ _ _ _ Hp Hl). by split_and!.
Qed.

Lemma accepted_alive v2 token inst t now c :
  accepted v2 token inst t = Some c -> alive c now -> accepted v2 token inst now = Some c.
Proof.
  destruct v2; cbn [accepted]; rewrite ?instance_claims_spec, ?legacy_claims_spec; by intros [].
Qed.

Lemma as_i64_fits j z : as_i64 j = Some z -> - 2 ^ 63 <= z < 2 ^ 63.
Proof. unfold as_i64, fits_i64. repeat case_match; intros; simplify_eq; lia. Qed.

Lemma token_renewal_object token m now :
  unverified_payload token = Some (JObject m) ->
  token_renewal_identity token now =
    (inst ← get_str "instance_id" m;
     exp ← get (lit "exp") m ≫= as_i64; iat ← get (lit "iat") m ≫= as_i64;
     if iat >? i64_saturating_add now 60 then None
     else
       before ← i64_checked (exp - 1);
       v2 ← match get (lit "ver") m with
            | Some v => if bool_decide (as_u64 v = Some 2) then Some true else None
            | None => Some false
            end;
       _ ← accepted v2 token inst (Z.min now before); Some (inst, v2)).
Proof.
  intros Hp. unfold token_renewal_identity. rewrite Hp. unfold value_get, get_str.
  cbn [mbind option_bind as_object].
  destruct (get (lit "instance_id") m) as [j|]; [|done]. cbn [mbind option_bind].
  destruct (as_str j) as [inst|]; [|done]. cbn [mbind option_bind].
  destruct (get (lit "exp") m) as [je|]; [|done]. cbn [mbind option_bind].
  destruct (as_i64 je) as [exp|]; [|done]. cbn [mbind option_bind].
  destruct (get (lit "iat") m) as [ji|]; [|done]. cbn [mbind option_bind].
  destruct (as_i64 ji) as [iat|]; [|done]. cbn [mbind option_bind].
  destruct (iat >? _); [done|]. destruct (i64_checked _) as [before|]; [|done]. cbn [mbind option_bind].
  destruct (get (lit "ver") m) as [v|]; [|cbn; by destruct (legacy_claims _ _ _)].
  case_match; [|done]. cbn. by destruct (instance_claims _ _ _).
Qed.

(** [token_renewal_identity] accepts, under the paired home and the generation
    (instance capability or legacy device token), exactly the tokens that were
    an acceptable capability for that home at some time and are not issued more
    than a minute into the future: expiry alone never blocks a renewal, and
    nothing that was never acceptable is renewed.  [lifetimes_agree] is what
    the two JSON readings of one payload have in common. *)
Theorem renewal_accepts_expired token now inst v2 :
  lifetimes_agree -> fits_i64 now = true ->
  token_renewal_identity token now = Some (inst, v2) <->
  exists m t c, unverified_payload token = Some (JObject m) /\ fits_i64 t = true /\
    accepted v2 token inst t = Some c /\ jwt_iat c <= i64_saturating_add now 60.
Proof.
  intros Hag Hnow. split.
  - intros H. destruct (unverified_payload token) as [j|] eqn:Hp; [|by unfold token_renewal_identity in H; rewrite Hp in H].
    assert (exists m, j = JObject m) as [m ->].
    { destruct j; try by unfold token_renewal_identity in H; rewrite Hp in H. by eexists. }
    rewrite (token_renewal_object _ _ _ Hp) in H.
    destruct (get_str "instance_id" m) as [i|] eqn:Hi; [cbn [mbind option_bind] in H | done].
    destruct (get (lit "exp") m ≫= as_i64) as [exp|] eqn:He; [cbn [mbind option_bind] in H | done].
    destruct (get (lit "iat") m ≫= as_i64) as [iat|] eqn:Ht; [cbn [mbind option_bind] in H | done].
    destruct (iat >? _) eqn:Hfut; [done|].
    destruct (i64_checked (exp - 1)) as [before|] eqn:Hb; [cbn [mbind option_bind] in H | done].
    destruct (match get (lit "ver") m with Some _ => _ | None => _ end) as [v|]; [cbn [mbind option_bind] in H | done].
    destruct (accepted v token i (Z.min now before)) as [c|] eqn:Ha; [cbn [mbind option_bind] in H | done]. simplify_eq.
    destruct (accepted_object _ _ _ _ _ _ Hag Hp Ha) as (_ & Hiat & _). exists m, (Z.min now before), c.
    split_and!; [done | | done | simplify_eq; lia].
    unfold i64_checked, fits_i64 in *. case_match; simplify_eq; lia.
  - intros (m & t & c & Hp & _ & Ha & Hi). rewrite (token_renewal_object _ _ _ Hp).
    destruct (accepted_object _ _ _ _ _ _ Hag Hp Ha) as (-> & Hiat & Hexp & Hver).
    rewrite Hiat, Hexp. cbn [mbind option_bind].
    assert (Hr : - 2 ^ 63 <= jwt_iat c /\ jwt_exp c < 2 ^ 63).
    { destruct (get (lit "iat") m), (get (lit "exp") m); try done.
      apply as_i64_fits in Hiat, Hexp. lia. }
    assert (Hal : jwt_iat c < jwt_exp c).
    { destruct v2; cbn [accepted] in Ha; rewrite ?instance_claims_spec, ?legacy_claims_spec in Ha;
        destruct Ha as [_ Ha]; unfold alive, lifetime_refused in Ha; lia. }
    destruct (jwt_iat c >? _) eqn:Hfut; [lia|].
    assert (Hf : fits_i64 (jwt_exp c - 1) = true) by (unfold fits_i64; lia).
    unfold i64_checked. rewrite Hf.
    cbn [mbind option_bind].
    assert (Ha' : accepted v2 token inst (Z.min now (jwt_exp c - 1)) = Some c).
    { eapply accepted_alive; [done|]. unfold alive, lifetime_refused, i64_saturating_add, fits_i64 in *. lia. }
    destruct v2; [destruct Hver as (v & -> & Hv); rewrite Hv, bool_decide_eq_true_2 by done | rewrite Hver];
      cbn [mbind option_bind]; by rewrite Ha'.
Qed.

(** An instance capability whose payload is a JSON array of the nine claims in
    declaration order passes [instance_claims], although the claim shape is
    documented as exact, and then [token_renewal_identity] refuses it at every time. *)
Theorem array_capability_not_renewable token inst iss iat exp jti now :
  unverified_payload token = Some (JArray [JString iss; JString (lit "instance:" ++ inst);
    JString (lit "spl-relay"); JString (lit "session.dial"); JNumber (NInt 2); JString inst;
    JNumber (NInt iat); JNumber (NInt exp); JString jti]) ->
  iss <> [] -> jti <> [] -> fits_i64 iat = true -> fits_i64 exp = true ->
  lifetime_refused iat exp now = false ->
  instance_claims token inst now = Some (mkJwt iat exp) /\ forall t, token_renewal_identity token t = None.
Proof.
  intros Hp Hiss Hjti Hi He Hl. split; [|intros t; unfold token_renewal_identity; by rewrite Hp].
  apply instance_claims_spec. split; [|done]. do 2 eexists. split; [done|].
  split; [cbn [instance_from_value instance_of as_str as_u8_field as_u64 as_i64 fits_u64]; cbn -[fits_i64 lit]|].
  { rewrite Hi. cbn -[fits_i64 lit]. rewrite He. reflexivity. }
  by cbn -[lit].
Qed.

End Capabilities.

(** [should_refresh] is total on every pair of [i64] timestamps: no arithmetic
    overflows, a lifetime of at least one second that can be scaled asks for a
    refresh exactly when more than four fifths of it have passed, and one that
    cannot be scaled never does. *)
Theorem refresh_after_four_fifths iat exp now :
  fits_i64 iat = true -> fits_i64 exp = true ->
  should_refresh (mkJwt iat exp) now = true <->
  0 < exp - iat /\ 4 * (exp - iat) < 2 ^ 63 /\ 4 * (exp - iat) / 5 < now - iat.
Proof.
  unfold should_refresh, i64_checked. cbn [jwt_iat jwt_exp]. intros Hi He. unfold fits_i64 in Hi, He.
  destruct (fits_i64 (exp - iat)) eqn:Hf; unfold fits_i64 in Hf; cycle 1.
  { split; [done|]. lia. }
  destruct (exp - iat <=? 0) eqn:Hp; [split; [done|lia]|].
  destruct (fits_i64 ((exp - iat) * 4)) eqn:Hf4; unfold fits_i64 in Hf4; [|split; [done|lia]].
  rewrite Z.quot_div_nonneg, (Z.mul_comm (exp - iat) 4) by lia.
  assert (0 <= 4 * (exp - iat) / 5) by (apply Z.div_pos; lia).
  assert (4 * (exp - iat) / 5 <= exp - iat) by (apply Z.div_le_upper_bound; lia).
  assert (Hf5 : fits_i64 (iat + 4 * (exp - iat) / 5) = true) by (unfold fits_i64; lia).
  rewrite Hf5. lia.
Qed.

Lemma refresh_after_four_fifths_witness :
  should_refresh (mkJwt 100 200) 181 = true <->
  0 < 200 - 100 /\ 4 * (200 - 100) < 2 ^ 63 /\ 4 * (200 - 100) / 5 < 181 - 100.
Proof. refine (refresh_after_four_fifths 100 200 181 _ _); reflexivity. Defined.

(** A sample of the third-party decoders: base64 is the identity on ASCII and
    two payloads are known to the JSON reader. *)
Definition sample_object : list (str * json) :=
  [(lit "iss", JString (lit "i")); (lit "sub", JString (lit "instance:home"));
   (lit "aud", JString (lit "spl-relay")); (lit "scope", JString (lit "session.dial"));
   (lit "ver", JNumber (NInt 2)); (lit "instance_id", JString (lit "home"));
   (lit "iat", JNumber (NInt 100)); (lit "exp", JNumber (NInt 200)); (lit "jti", JString (lit "j"))].
Definition sample_array : list json :=
  [JString (lit "i"); JString (lit "instance:home"); JString (lit "spl-relay");
   JString (lit "session.dial"); JNumber (NInt 2); JString (lit "home");
   JNumber (NInt 100); JNumber (NInt 200); JString (lit "j")].
#[local] Instance sample_relay : RelayPrimitives := {|
  json_value b :=
    if bool_decide (b = blit "object") then Some (JObject sample_object)
    else if bool_decide (b = blit "array") then Some (JArray sample_array) else None;
  json_lifetimes b := if bool_decide (b = blit "object") then Some (100, 200) else None;
  url_safe_decode s := Some (into_bytes s);
  rfc3339 _ := Some (200, 0);
  hkdf_sha256 _ _ _ n := replicate n Byte.x00;
  P256 := unit;
  spki_from_der _ := None;
  p256_from_spki _ := Err true;
  to_public_key_der _ := []
|}.

Lemma sample_agrees : lifetimes_agree.
Proof.
  intros b m iat exp. cbn [json_value json_lifetimes sample_relay]. intros Hv Hl.
  destruct (bool_decide (b = blit "object")); [|done].
  injection Hl as <- <-. injection Hv as <-. split; reflexivity.
Qed.

(** The sample capability expired at 200 and is still renewable at 5000. *)
Lemma renewal_accepts_expired_witness :
  token_renewal_identity (lit "h.object.s") 5000 = Some (lit "home", true).
Proof.
  apply (renewal_accepts_expired (lit "h.object.s") 5000 (lit "home") true sample_agrees); [reflexivity|].
  exists sample_object, 150, (mkJwt 100 200). split_and!; [by vm_compute .. |]. by vm_compute.
Defined.

Lemma array_capability_not_renewable_witness :
  instance_claims (lit "h.array.s") (lit "home") 150 = Some (mkJwt 100 200) /\
  forall t, token_renewal_identity (lit "h.array.s") t = None.
Proof.
  refine (array_capability_not_renewable (lit "h.array.s") (lit "home") (lit "i") 100 200 (lit "j") 150 _ _ _ _ _ _);
    by vm_compute.
Defined.
