(* ===== verification/Identity.v ===== *)
(** * Certificates, marks and pair windows

    [crates/spl-core/src/ca.rs] (the bounded DER reader and the pin checks),
    [crates/spl-core/src/mark.rs] (the journal mark) and
    [crates/spl-home/src/pair_window.rs] (single-use pairing admission).
    SHA-256, Argon2id and the TLS accept are third-party code and appear as
    arguments; the asset tables are arguments of the size [MarkAssets::load]
    checks. *)

From S2P Require Import Prelude Text HomeMux PairLink Relay.

(** ** DER *)

Inductive CaError := MalformedDer.

Record DerElement := mkDer { full_start : Z; content_start : Z; full_end : Z }.

(** [input.get(pos)] *)
Definition byte_at (input : list byte) (pos : Z) : res CaError Z :=
  match input !! Z.to_nat pos with Some b => Ok (u8 b) | None => Err MalformedDer end.

(** The length octets of the long form. *)
Fixpoint read_length (input : list byte) (count : nat) (len pos : Z) : res CaError (Z * Z) :=
  match count with
  | O => Ok (len, pos)
  | S count => b ← byte_at input pos; read_length input count (Z.lor (Z.shiftl len 8) b) (pos + 1)
  end.

Definition read_element_any (input : list byte) (pos : Z) : res CaError (DerElement * Z) :=
  tag ← byte_at input pos;
  if Z.land tag 0x1f =? 0x1f then Err MalformedDer
  else
    first_len ← byte_at input (pos + 1);
    '(n, p) ← (if Z.land first_len 0x80 =? 0 then Ok (first_len, pos + 2)
               else
                 let count := Z.land first_len 0x7f in
                 if (count =? 0) || (count >? 4) then Err MalformedDer
                 else read_length input (Z.to_nat count) 0 (pos + 2));
    full_end ← ok_or (checked_add 64 p n) MalformedDer;
    if full_end >? len input then Err MalformedDer
    else Ok (mkDer pos p full_end, full_end).

(** The index of [input[elem.full_start]] panics out of range. *)
Definition read_element (input : list byte) (pos : Z) (tag : Z) : res CaError (DerElement * Z) :=
  '(elem, pos) ← read_element_any input pos;
  match input !! Z.to_nat (full_start elem) with
  | Some b => if u8 b =? tag then Ok (elem, pos) else Err MalformedDer
  | None => Panic
  end.

Definition expect_element (input : list byte) (tag : Z) : res CaError DerElement :=
  '(elem, pos) ← read_element input 0 tag;
  if pos =? len input then Ok elem else Err MalformedDer.

Definition skip_any (input : list byte) (pos : Z) : res CaError Z := snd <$> read_element_any input pos.

(** [DerElement::full] and [content]; a slice out of range panics. *)
Definition sub (input : list byte) (a b : Z) : res CaError (list byte) :=
  if (a <=? b) && (b <=? len input) then Ok (slice input a b) else Panic.
Definition full (e : DerElement) (input : list byte) : res CaError (list byte) := sub input (full_start e) (full_end e).
Definition content (e : DerElement) (input : list byte) : res CaError (list byte) := sub input (content_start e) (full_end e).

Definition extract_spki_der (cert_der : list byte) : res CaError (list byte) :=
  cert ← expect_element cert_der 0x30;
  '(tbs, _) ← read_element cert_der (content_start cert) 0x30;
  let pos := content_start tbs in
  pos ← (match byte_at cert_der pos with
         | Ok b => if b =? 0xa0 then skip_any cert_der pos else Ok pos
         | _ => Ok pos
         end);
  '(_, pos) ← read_element cert_der pos 0x02;
  '(_, pos) ← read_element cert_der pos 0x30;
  '(_, pos) ← read_element cert_der pos 0x30;
  '(_, pos) ← read_element cert_der pos 0x30;
  '(_, pos) ← read_element cert_der pos 0x30;
  '(spki, _) ← read_element cert_der pos 0x30;
  full spki cert_der.

Definition OID_EC_PUBLIC_KEY : list byte := as_u8 <$> [0x06; 0x07; 0x2a; 0x86; 0x48; 0xce; 0x3d; 0x02; 0x01].
Definition OID_PRIME256V1 : list byte := as_u8 <$> [0x06; 0x08; 0x2a; 0x86; 0x48; 0xce; 0x3d; 0x03; 0x01; 0x07].

(** An error is [false]; a panic stays one. *)
Definition or_false (m : res CaError bool) : res CaError bool :=
  match m with Err _ => Ok false | r => r end.

Definition is_ec_p256_spki (spki_der : list byte) : res CaError bool :=
  or_false (
    spki ← expect_element spki_der 0x30;
    '(alg_id, _) ← read_element spki_der (content_start spki) 0x30;
    '(alg_oid, pos) ← read_element spki_der (content_start alg_id) 0x06;
    '(curve_oid, pos) ← read_element spki_der pos 0x06;
    if pos =? full_end alg_id then
      a ← full alg_oid spki_der;
      if bool_decide (a = OID_EC_PUBLIC_KEY) then
        c ← full curve_oid spki_der; Ok (bool_decide (c = OID_PRIME256V1))
      else Ok false
    else Ok false).

Definition extract_tbs_and_signature (cert_der : list byte) : res CaError (list byte * list byte) :=
  cert ← expect_element cert_der 0x30;
  '(tbs, pos) ← read_element cert_der (content_start cert) 0x30;
  '(_, pos) ← read_element cert_der pos 0x30;
  '(signature, pos) ← read_element cert_der pos 0x03;
  signature_content ← content signature cert_der;
  match signature_content with
  | b :: rest =>
      if negb (u8 b =? 0) then Err MalformedDer
      else if negb (pos =? full_end cert) then Err MalformedDer
      else t ← full tbs cert_der; Ok (t, rest)
  | [] => Err MalformedDer
  end.

(** ** Pins *)

Section Pins.
Variable sha256 : list byte -> list byte.

Definition digest_matches (bytes prefix : list byte) : bool :=
  bool_decide (ztake (len prefix) (sha256 bytes) = prefix).

Definition cert_matches_prefix (cert_der prefix : list byte) : bool :=
  if bool_decide (prefix = []) || (len prefix >? 32) then false else digest_matches cert_der prefix.

Definition chain_matches_prefix (chain : list (list byte)) (prefix : list byte) : bool :=
  existsb (fun cert => cert_matches_prefix cert prefix) chain.

Definition spki_matches_prefix (cert_der prefix : list byte) : bool :=
  if bool_decide (prefix = []) || (len prefix >? 32) then false
  else match extract_spki_der cert_der with Ok spki => digest_matches spki prefix | _ => false end.

Definition chain_spki_matches_prefix (chain : list (list byte)) (prefix : list byte) : bool :=
  existsb (fun cert => spki_matches_prefix cert prefix) chain.

End Pins.

(** ** Marks *)

Inductive MarkError := Asset | Argon2 | InvalidJid.

Record MarkColor := mkColor { color_name : str; color_hex : str }.
Record MarkIconSpec := mkIcon { icon_name : str; icon_svg : str; icon_color : MarkColor; icon_rot : Z }.
Record Mark := mkMark { icon1 : MarkIconSpec; icon2 : MarkIconSpec; mark_words : str * str }.
Record MarkAssets := mkAssets { glyphs : list (str * str); colors : list MarkColor; asset_words : list str }.

Definition ICON_COUNT : Z := 60.
Definition COLOR_COUNT : Z := 16.
Definition WORD_COUNT : Z := 7776.

(** [MarkAssets::load], on what the three tables decode to. *)
Definition load_assets (g : option (list (str * str))) (c : option (list (str * str))) (w : option (list str)) : res MarkError MarkAssets :=
  g ← ok_or g Asset;
  if negb (len g =? ICON_COUNT) then Err Asset
  else
    c ← ok_or c Asset;
    if negb (len c =? COLOR_COUNT) then Err Asset
    else
      w ← ok_or w Asset;
      if negb (len w =? WORD_COUNT) then Err Asset
      else Ok (mkAssets g ((fun e => mkColor (fst e) (snd e)) <$> c) w).

Definition nibble (b : Z) : res MarkError Z :=
  if between 48 b 57 then Ok (b - 48)
  else if between 97 b 102 then Ok (b - 97 + 10)
  else if between 65 b 70 then Ok (b - 65 + 10)
  else Err InvalidJid.
Definition hex_byte (high low : Z) : res MarkError byte :=
  h ← nibble high; l ← nibble low; Ok (as_u8 (Z.lor (Z.shiftl h 4) l)).

(** The loop of [parse_jid_bytes]; [bytes[output] = ..] panics past the sixteenth. *)
Fixpoint jid_loop (input : list byte) (out : list byte) : res MarkError (list byte) :=
  match input with
  | [] => Ok out
  | high :: rest =>
      if u8 high =? 45 then jid_loop rest out
      else
        match rest with
        | [] => Err InvalidJid
        | low :: rest =>
            b ← hex_byte (u8 high) (u8 low);
            if len out <? 16 then jid_loop rest (out ++ [b]) else Panic
        end
  end.

Definition hyphen_at (bytes : list byte) (i : nat) : bool :=
  match bytes !! i with Some b => u8 b =? 45 | None => false end.

Definition parse_jid_bytes (jid : str) : res MarkError (list byte) :=
  let bytes := into_bytes jid in
  if negb (len bytes =? 36) || negb (hyphen_at bytes 8) || negb (hyphen_at bytes 13)
     || negb (hyphen_at bytes 18) || negb (hyphen_at bytes 23)
  then Err InvalidJid
  else
    out ← jid_loop bytes [];
    if negb (len out =? 16) then Err InvalidJid else Ok out.

(** Seven big-endian words of the digest. *)
Definition digest_word (digest : list byte) (i : nat) : Z := be_val (take 4 (drop (i * 4) digest)).

(** Division by zero panics. *)
Definition pick (word count : Z) : res MarkError Z := if count =? 0 then Panic else Ok (word mod count).
Definition pick_distinct (word count excluded : Z) : res MarkError Z :=
  if count - 1 <=? 0 then Panic
  else let index := word mod (count - 1) in Ok (if index >=? excluded then index + 1 else index).

Definition at_index {A} (l : list A) (i : Z) : res MarkError A := expect (l !! Z.to_nat i).

(** [argon2] gives the digest of the sixteen bytes, or fails. *)
Definition derive_mark (argon2 : list byte -> option (list byte)) (jid : list byte) (a : MarkAssets) : res MarkError Mark :=
  digest ← ok_or (argon2 jid) Argon2;
  let word := digest_word digest in
  icon1_index ← pick (word 0%nat) (len (glyphs a));
  icon2_index ← pick_distinct (word 1%nat) (len (glyphs a)) icon1_index;
  color1_index ← pick (word 2%nat) (len (colors a));
  color2_index ← pick_distinct (word 3%nat) (len (colors a)) color1_index;
  word1_index ← pick (word 4%nat) (len (asset_words a));
  word2_index ← pick_distinct (word 5%nat) (len (asset_words a)) word1_index;
  '(icon1_name, icon1_svg) ← at_index (glyphs a) icon1_index;
  '(icon2_name, icon2_svg) ← at_index (glyphs a) icon2_index;
  color1 ← at_index (colors a) color1_index;
  color2 ← at_index (colors a) color2_index;
  word1 ← at_index (asset_words a) word1_index;
  word2 ← at_index (asset_words a) word2_index;
  Ok (mkMark
        (mkIcon icon1_name icon1_svg color1 (if Z.land (word 6%nat) 1 =? 0 then 0 else 45))
        (mkIcon icon2_name icon2_svg color2 (if Z.land (Z.shiftr (word 6%nat) 1) 1 =? 0 then 0 else 45))
        (word1, word2)).

Definition mark_from_jid (argon2 : list byte -> option (list byte)) (assets : res MarkError MarkAssets) (jid : str)
  : res MarkError Mark :=
  a ← assets; bytes ← parse_jid_bytes jid; derive_mark argon2 bytes a.

(** ** Pair windows *)

Section PairWindow.
Context {R : RelayPrimitives}.

Record PairWindow := mkWindow {
  relay_key : str;
  window_expires_at : Z;
  consumed : bool;
  window_instance : str
}.

Definition hex_lower_key (bytes : list byte) : str := concat (hex02 <$> bytes).

(** [open], on the configured CA certificate. *)
Definition open_window (secret : list byte) (expires_at : Z) (ca_certificate : list byte) : res HomeError PairWindow :=
  spki ← map_err (fun _ => PairWindowCaIdentity) (extract_spki_der ca_certificate);
  instance_id ← map_err (fun _ => PairWindowCaIdentity) (jid_from_spki spki);
  Ok (mkWindow (hex_lower_key (derive_rk secret)) expires_at false instance_id).

(** The comparison touches every expected byte; [usize] is 64 bits. *)
Fixpoint key_difference (presented expected : list byte) (difference : Z) : Z :=
  match expected with
  | [] => difference
  | e :: expected =>
      let received := match presented with b :: _ => u8 b | [] => 0 end in
      key_difference (tail presented) expected (Z.lor difference (Z.lxor received (u8 e)))
  end.
Definition relay_key_matches (presented expected : str) : bool :=
  let p := into_bytes presented in
  let e := into_bytes expected in
  key_difference p e (Z.lxor (len p) (len e)) =? 0.

(** [PairWindow::admit]; [setup] is what the TLS accept and the mux set-up come to. *)
Definition admit_stream (presented_rk : str) (now : Z) (setup : res HomeError unit) (w : PairWindow) : PairWindow * res HomeError unit :=
  if negb (relay_key_matches presented_rk (relay_key w)) then (w, Err (PairWindowRefused WrongRelayKey))
  else if window_expires_at w <=? now then (w, Err (PairWindowRefused Expired))
  else if consumed w then (w, Err (PairWindowRefused Consumed))
  else match setup with
       | Ok _ => (mkWindow (relay_key w) (window_expires_at w) true (window_instance w), Ok tt)
       | r => (w, r)
       end.

End PairWindow.

(** ** The DER reader never leaves its input *)

(** What a successful read says of its element. *)
Record der_ok (input : list byte) (pos : Z) (e : DerElement) (next : Z) : Prop := {
  der_start : full_start e = pos;
  der_next : full_end e = next;
  der_in : 0 <= pos < content_start e /\ content_start e <= full_end e <= len input
}.

Lemma byte_at_spec input pos : 0 <= pos ->
  (exists b, input !! Z.to_nat pos = Some b /\ pos < len input /\ byte_at input pos = Ok (u8 b)) \/ byte_at input pos = Err MalformedDer.
Proof.
  intros Hp. unfold byte_at. destruct (input !! Z.to_nat pos) as [b|] eqn:E; [left|by right].
  exists b. apply lookup_lt_Some in E as Hl. split_and!; try done. lia.
Qed.

Lemma read_length_spec input count n pos :
  0 <= pos -> 0 <= n ->
  (exists m p, read_length input count n pos = Ok (m, p) /\ 0 <= m /\ pos <= p) \/
  read_length input count n pos = Err MalformedDer.
Proof.
  revert n pos. induction count as [|count IH]; intros n pos Hp Hn; cbn [read_length]; [left; by exists n, pos; split_and!|].
  destruct (byte_at_spec input pos Hp) as [(b & _ & _ & ->)| ->]; [|by right]. cbn [mbind res_bind].
  pose proof (u8_range b).
  destruct (IH (Z.lor (Z.shiftl n 8) (u8 b)) (pos + 1)) as [(m & p & -> & ? & ?)| ->]; [lia | | |by right].
  - apply Z.lor_nonneg. split; [by apply Z.shiftl_nonneg | lia].
  - left. exists m, p. split_and!; [done|done|lia].
Qed.

Lemma read_element_any_spec input pos :
  0 <= pos ->
  (exists e p b, read_element_any input pos = Ok (e, p) /\ der_ok input pos e p /\ input !! Z.to_nat pos = Some b) \/
  read_element_any input pos = Err MalformedDer.
Proof.
  intros Hp. unfold read_element_any.
  destruct (byte_at_spec input pos Hp) as [(b & Hb & _ & ->)| ->]; [|by right]. cbn [mbind res_bind].
  case_match; [by right|].
  destruct (byte_at_spec input (pos + 1) ltac:(lia)) as [(b2 & _ & _ & ->)| ->]; [|by right]. cbn [mbind res_bind].
  set (m := (if Z.land (u8 b2) 128 =? 0 then _ else _) : res CaError (Z * Z)).
  assert (Hm : (exists n p, m = Ok (n, p) /\ 0 <= n /\ pos + 2 <= p) \/ m = Err MalformedDer).
  { unfold m. pose proof (u8_range b2). case_match; [left; exists (u8 b2), (pos + 2); split_and!; [done|lia|lia]|].
    case_match; [by right|]. apply read_length_spec; lia. }
  destruct Hm as [(n & p & -> & Hn & Hpp)| ->]; [|by right]. cbn [mbind res_bind].
  unfold checked_add. case_match; [|by right]. cbn [ok_or mbind res_bind].
  case_match; [by right|]. left. exists (mkDer pos p (p + n)), (p + n), b. split_and!; [done| |done].
  split; cbn; try done. lia.
Qed.

Lemma read_element_spec input pos tag :
  0 <= pos ->
  (exists e p, read_element input pos tag = Ok (e, p) /\ der_ok input pos e p /\ 0 <= p) \/
  read_element input pos tag = Err MalformedDer.
Proof.
  intros Hp. unfold read_element.
  destruct (read_element_any_spec input pos Hp) as [(e & p & b & -> & He & Hb)| ->]; [|by right].
  cbn [mbind res_bind]. rewrite (der_start _ _ _ _ He), Hb. case_match; [|by right].
  left. exists e, p. split_and!; try done. destruct He as [_ <- ?]. lia.
Qed.

(** ** Elements written in DER *)

Definition length_octets (n : Z) : list byte :=
  if n <? 128 then [as_u8 n]
  else if n <? 256 then as_u8 0x81 :: be_bytes 1 n
  else if n <? 256 ^ 2 then as_u8 0x82 :: be_bytes 2 n
  else if n <? 256 ^ 3 then as_u8 0x83 :: be_bytes 3 n
  else as_u8 0x84 :: be_bytes 4 n.
Definition der (tag : Z) (body : list byte) : list byte := as_u8 tag :: length_octets (len body) ++ body.
Definition low_tag (tag : Z) : Prop := 0 <= tag < 256 /\ Z.land tag 0x1f <> 0x1f.

Lemma lookup_at {A} (pre post : list A) x : (pre ++ x :: post) !! Z.to_nat (len pre) = Some x.
Proof. rewrite Nat2Z.id, lookup_app_r by lia. by rewrite Nat.sub_diag. Qed.

Lemma byte_at_app pre b post : byte_at (pre ++ b :: post) (len pre) = Ok (u8 b).
Proof. unfold byte_at. by rewrite lookup_at. Qed.

Lemma read_length_app l pre post n :
  0 <= n -> read_length (pre ++ l ++ post) (length l) n (len pre) = Ok (n * 256 ^ len l + be_val l, len pre + len l).
Proof.
  revert pre n. induction l as [|b l IH]; intros pre n Hn; cbn [length read_length].
  { rewrite be_val_nil. f_equal. f_equal; lia. }
  cbn [app]. rewrite byte_at_app. cbn [mbind res_bind]. pose proof (u8_range b).
  rewrite lor_shiftl_add by (cbn; lia).
  replace (pre ++ b :: l ++ post) with ((pre ++ [b]) ++ l ++ post) by by rewrite <- app_assoc.
  replace (len pre + 1) with (len (pre ++ [b])) by (rewrite length_app; cbn; lia).
  rewrite IH by lia. rewrite be_val_cons, length_app. cbn [length].
  rewrite Nat2Z.inj_succ, Z.pow_succ_r by lia. f_equal. f_equal; [|lia].
  change (2 ^ 8) with 256. ring.
Qed.

(** The length octets are read back. *)
Lemma octets_read n pre post :
  0 <= n < 2 ^ 32 ->
  exists b rest, length_octets n = b :: rest /\
    (if Z.land (u8 b) 0x80 =? 0 then Ok (u8 b, len pre + 1)
     else if (Z.land (u8 b) 0x7f =? 0) || (Z.land (u8 b) 0x7f >? 4) then Err MalformedDer
       else read_length (pre ++ length_octets n ++ post) (Z.to_nat (Z.land (u8 b) 0x7f)) 0 (len pre + 1))
    = Ok (n, len pre + len (length_octets n)).
Proof.
  intros Hn. assert (Hlong : forall k, (1 <= k <= 4)%nat -> n < 256 ^ Z.of_nat k ->
    read_length (pre ++ (as_u8 (0x80 + Z.of_nat k) :: be_bytes k n) ++ post) k 0 (len pre + 1) = Ok (n, len pre + 1 + Z.of_nat k)).
  { intros k Hk Hlt. set (b := as_u8 _).
    replace (pre ++ (b :: be_bytes k n) ++ post) with ((pre ++ [b]) ++ be_bytes k n ++ post) by by rewrite <- app_assoc.
    replace (len pre + 1) with (len (pre ++ [b])) by (rewrite length_app; cbn; lia).
    rewrite <- (length_be_bytes k n) at 2. rewrite read_length_app by lia.
    rewrite be_val_be_bytes, length_be_bytes, Z.mod_small by lia. done. }
  unfold length_octets.
  destruct (n <? 128) eqn:E1.
  { exists (as_u8 n), []. split; [done|]. rewrite u8_as_u8, Z.mod_small by lia.
    assert (Hz : Z.land n 128 = 0).
    { assert (H : forallb (fun z => Z.land z 128 =? 0) (seqZ 0 128) = true) by by vm_compute.
      rewrite forallb_forall in H. apply Z.eqb_eq, H, list_elem_of_In, elem_of_seqZ. lia. }
    by rewrite Hz. }
  destruct (n <? 256) eqn:E2; [|destruct (n <? 256 ^ 2) eqn:E3; [|destruct (n <? 256 ^ 3) eqn:E4]].
  all: eexists _, _; split; [done|]; rewrite u8_as_u8; cbn [length]; rewrite length_be_bytes.
  - refine (eq_trans (Hlong 1%nat _ _) _); [lia | lia | do 2 f_equal; lia].
  - refine (eq_trans (Hlong 2%nat _ _) _); [lia | lia | do 2 f_equal; lia].
  - refine (eq_trans (Hlong 3%nat _ _) _); [lia | lia | do 2 f_equal; lia].
  - refine (eq_trans (Hlong 4%nat _ _) _); [lia | lia | do 2 f_equal; lia].
Qed.

(** An element is read back with its bounds, wherever it stands. *)
Lemma read_der tag body pre post :
  low_tag tag -> len body < 2 ^ 32 -> len (pre ++ der tag body ++ post) < 2 ^ 64 ->
  read_element (pre ++ der tag body ++ post) (len pre) tag =
    Ok (mkDer (len pre) (len pre + 1 + len (length_octets (len body))) (len pre + len (der tag body)),
        len pre + len (der tag body)).
Proof.
  intros [Ht Hlow] Hb Hfit. set (input := pre ++ der tag body ++ post) in *.
  assert (Htag : u8 (as_u8 tag) = tag) by (rewrite u8_as_u8; apply Z.mod_small; lia).
  assert (Hat : input !! Z.to_nat (len pre) = Some (as_u8 tag)) by apply lookup_at.
  assert (H0 : byte_at input (len pre) = Ok tag) by (unfold byte_at; by rewrite Hat, Htag).
  set (o := length_octets (len body)).
  assert (Hin : input = (pre ++ [as_u8 tag]) ++ o ++ (body ++ post)).
  { unfold input, der. cbn. by rewrite <- !app_assoc. }
  assert (Hlen : exists b rest, o = b :: rest /\
    (if Z.land (u8 b) 0x80 =? 0 then Ok (u8 b, len pre + 2)
     else if (Z.land (u8 b) 0x7f =? 0) || (Z.land (u8 b) 0x7f >? 4) then Err MalformedDer
       else read_length input (Z.to_nat (Z.land (u8 b) 0x7f)) 0 (len pre + 2)) = Ok (len body, len pre + 1 + len o)).
  { destruct (octets_read (len body) (pre ++ [as_u8 tag]) (body ++ post)) as (b & rest & Ho & Hr); [lia|].
    exists b, rest. split; [done|]. fold o in Hr. rewrite <- Hin in Hr. rewrite length_app in Hr. cbn [length] in Hr.
    replace (len pre + 2) with (Z.of_nat (length pre + 1) + 1) by lia. rewrite Hr. f_equal. f_equal; lia. }
  destruct Hlen as (b & rest & Ho & Hlen).
  assert (H1 : byte_at input (len pre + 1) = Ok (u8 b)).
  { rewrite Hin, Ho. replace (len pre + 1) with (len (pre ++ [as_u8 tag])) by (rewrite length_app; cbn; lia). apply byte_at_app. }
  assert (Hd : len (der tag body) = 1 + len o + len body) by (unfold der; cbn [length]; rewrite length_app; unfold o; lia).
  assert (Htot : len pre + len (der tag body) <= len input) by (unfold input; rewrite !length_app; lia).
  unfold read_element, read_element_any. rewrite H0. cbn [mbind res_bind].
  destruct (Z.land tag 31 =? 31) eqn:E; [lia|]. rewrite H1. cbn [mbind res_bind]. rewrite Hlen. cbn [mbind res_bind].
  unfold checked_add. destruct (len pre + 1 + len o + len body <? 2 ^ 64) eqn:E2; cbn [ok_or mbind res_bind]; [|lia].
  destruct (len pre + 1 + len o + len body >? len input) eqn:E3; [lia|].
  cbn [mbind res_bind full_start]. rewrite Hat, Htag, Z.eqb_refl, Hd. do 2 f_equal; [f_equal|]; lia.
Qed.

(** The octets before the contents. *)
Definition der_head (tag : Z) (body : list byte) : list byte := as_u8 tag :: length_octets (len body).
Lemma der_split tag body : der tag body = der_head tag body ++ body.
Proof. done. Qed.

(** Positions as lengths of prefixes, so that reads chain by rewriting. *)
Lemma read_at input pre tag body post :
  input = pre ++ der tag body ++ post -> low_tag tag -> len input < 2 ^ 32 ->
  read_element input (len pre) tag =
    Ok (mkDer (len pre) (len (pre ++ der_head tag body)) (len (pre ++ der tag body)), len (pre ++ der tag body)).
Proof.
  intros -> Ht Hfit. assert (Hb : len body < 2 ^ 32).
  { rewrite der_split, !length_app in Hfit. lia. }
  rewrite read_der by (done || lia). unfold der_head. rewrite !length_app. cbn [length].
  do 2 f_equal; [f_equal|]; lia.
Qed.

Lemma sub_app (a d post : list byte) : sub (a ++ d ++ post) (len a) (len (a ++ d)) = Ok d.
Proof.
  unfold sub. rewrite !length_app.
  destruct (_ && _) eqn:E; [|lia]. unfold slice.
  rewrite drop_app_length' by lia. rewrite take_app_length' by lia. done.
Qed.

(** A certificate with its fields in the order X.509 gives them; [version] is
    empty or an explicitly tagged element, [extra] whatever follows the key. *)
Record cert_fields := mkCert {
  cf_version : option (list byte);
  cf_serial : list byte; cf_alg : list byte; cf_issuer : list byte; cf_validity : list byte; cf_subject : list byte;
  cf_spki : list byte; cf_extra : list byte;
  cf_outer_alg : list byte; cf_signature : list byte
}.
Definition version_der (v : option (list byte)) : list byte := match v with Some v => der 0xa0 v | None => [] end.
Definition tbs_body (c : cert_fields) : list byte :=
  version_der (cf_version c) ++ der 0x02 (cf_serial c) ++ der 0x30 (cf_alg c) ++ der 0x30 (cf_issuer c) ++
  der 0x30 (cf_validity c) ++ der 0x30 (cf_subject c) ++ der 0x30 (cf_spki c) ++ cf_extra c.
Definition signed_body (c : cert_fields) : list byte :=
  der 0x30 (tbs_body c) ++ der 0x30 (cf_outer_alg c) ++ der 0x03 (as_u8 0 :: cf_signature c).
Definition certificate (c : cert_fields) : list byte := der 0x30 (signed_body c).

Lemma low_seq : low_tag 0x30. Proof. by vm_compute. Qed.
Lemma low_int : low_tag 0x02. Proof. by vm_compute. Qed.
Lemma low_bits : low_tag 0x03. Proof. by vm_compute. Qed.
Lemma low_version : low_tag 0xa0. Proof. by vm_compute. Qed.
#[local] Hint Resolve low_seq low_int low_bits low_version : core.

Lemma read_element_any_of input pos tag r : read_element input pos tag = Ok r -> read_element_any input pos = Ok r.
Proof.
  unfold read_element. destruct (read_element_any input pos) as [[e p]| |]; cbn [mbind res_bind]; [|done..].
  destruct (input !! _); [|done]. by destruct (_ =? _).
Qed.

Lemma expect_der input tag body :
  input = der tag body -> low_tag tag -> len input < 2 ^ 32 ->
  expect_element input tag = Ok (mkDer 0 (len (der_head tag body)) (len (der tag body))).
Proof.
  intros -> Ht Hfit. unfold expect_element.
  rewrite (read_at _ [] tag body []) by (cbn [app]; rewrite ?app_nil_r; done).
  cbn [mbind res_bind app]. by rewrite Z.eqb_refl.
Qed.

Lemma version_skipped input pre v serial rest :
  input = pre ++ version_der v ++ der 0x02 serial ++ rest -> len input < 2 ^ 32 ->
  match byte_at input (len pre) with
  | Ok b => if b =? 0xa0 then skip_any input (len pre) else Ok (len pre)
  | _ => Ok (len pre)
  end = Ok (len (pre ++ version_der v)).
Proof.
  intros Hflat Hfit. destruct v as [v|]; cbn [version_der] in *.
  - assert (Hr := read_at _ pre 0xa0 v _ Hflat low_version Hfit).
    replace (byte_at input (len pre)) with (Ok 0xa0 : res CaError Z); [cbn [Z.eqb Pos.eqb]|].
    + unfold skip_any. by rewrite (read_element_any_of _ _ _ _ Hr).
    + rewrite Hflat. unfold der. cbn [app]. by rewrite byte_at_app.
  - rewrite Hflat. unfold der at 1. cbn [app]. rewrite byte_at_app, app_nil_r. done.
Qed.

(** From the serial number on: five fields are passed over and the sixth,
    wherever it lies, is the one returned. *)
Lemma six_fields input p serial alg issuer validity subject sixth rest :
  input = p ++ der 0x02 serial ++ der 0x30 alg ++ der 0x30 issuer ++ der 0x30 validity ++ der 0x30 subject ++ der 0x30 sixth ++ rest ->
  len input < 2 ^ 32 ->
  ('(_, pos) ← read_element input (len p) 0x02;
   '(_, pos) ← read_element input pos 0x30;
   '(_, pos) ← read_element input pos 0x30;
   '(_, pos) ← read_element input pos 0x30;
   '(_, pos) ← read_element input pos 0x30;
   '(spki, _) ← read_element input pos 0x30;
   full spki input) = Ok (der 0x30 sixth).
Proof.
  intros Hflat Hfit.
  rewrite (read_at _ _ 0x02 _ _ Hflat) by done. cbn [mbind res_bind]. rewrite app_assoc in Hflat.
  do 4 (rewrite (read_at _ _ 0x30 _ _ Hflat) by done; cbn [mbind res_bind]; rewrite app_assoc in Hflat).
  rewrite (read_at _ _ 0x30 _ _ Hflat) by done. cbn [mbind res_bind].
  unfold full. cbn [full_start full_end]. rewrite Hflat. apply sub_app.
Qed.

Section Certificate.
Variable c : cert_fields.
Hypothesis Hfit : len (certificate c) < 2 ^ 32.

Lemma certificate_flat :
  certificate c = der_head 0x30 (signed_body c) ++ der 0x30 (tbs_body c) ++
    der 0x30 (cf_outer_alg c) ++ der 0x03 (as_u8 0 :: cf_signature c).
Proof. done. Qed.

Lemma tbs_flat :
  exists rest, certificate c = (der_head 0x30 (signed_body c) ++ der_head 0x30 (tbs_body c)) ++ version_der (cf_version c) ++
    der 0x02 (cf_serial c) ++ der 0x30 (cf_alg c) ++ der 0x30 (cf_issuer c) ++
    der 0x30 (cf_validity c) ++ der 0x30 (cf_subject c) ++ der 0x30 (cf_spki c) ++ rest.
Proof.
  exists (cf_extra c ++ der 0x30 (cf_outer_alg c) ++ der 0x03 (as_u8 0 :: cf_signature c)).
  rewrite certificate_flat, (der_split 0x30 (tbs_body c)), <- !app_assoc. do 2 f_equal.
  unfold tbs_body. by rewrite <- !app_assoc.
Qed.

Lemma spki_read : extract_spki_der (certificate c) = Ok (der 0x30 (cf_spki c)).
Proof.
  destruct tbs_flat as [rest Hflat]. unfold extract_spki_der.
  rewrite (expect_der _ 0x30 (signed_body c)) by done. cbn [mbind res_bind content_start].
  rewrite (read_at _ _ 0x30 (tbs_body c) _ (certificate_flat)) by done. cbn [mbind res_bind content_start].
  set (pre := der_head 0x30 (signed_body c) ++ der_head 0x30 (tbs_body c)) in *.
  rewrite (version_skipped _ pre (cf_version c) _ _ Hflat Hfit). cbn [mbind res_bind].
  rewrite app_assoc in Hflat. set (p0 := pre ++ version_der _) in *. rewrite (six_fields _ _ _ _ _ _ _ _ _ Hflat Hfit). done.
Qed.

Lemma tbs_and_signature_read :
  extract_tbs_and_signature (certificate c) = Ok (der 0x30 (tbs_body c), cf_signature c).
Proof.
  pose proof certificate_flat as Hflat. unfold extract_tbs_and_signature.
  rewrite (expect_der _ 0x30 (signed_body c)) by done. cbn [mbind res_bind content_start].
  rewrite (read_at _ _ 0x30 _ _ Hflat) by done. cbn [mbind res_bind]. pose proof Hflat as Htbs. rewrite app_assoc in Hflat.
  rewrite (read_at _ _ 0x30 _ _ Hflat) by done. cbn [mbind res_bind]. rewrite app_assoc in Hflat.
  set (p := (_ ++ _) ++ der 0x30 (cf_outer_alg c)) in *.
  rewrite <- (app_nil_r (der 0x03 _)) in Hflat.
  rewrite (read_at _ p 0x03 _ [] Hflat) by done. cbn [mbind res_bind].
  set (bits := as_u8 0 :: cf_signature c) in *.
  assert (Hend : certificate c = (p ++ der_head 0x03 bits) ++ bits ++ []) by (rewrite Hflat, (der_split 0x03), <- !app_assoc; done).
  unfold content. cbn [content_start full_end].
  rewrite (der_split 0x03), (app_assoc p). rewrite Hend at 1. rewrite sub_app. cbn [mbind res_bind]. rewrite app_nil_r in Hend.
  rewrite <- Hend. unfold bits. change (negb (u8 (as_u8 0) =? 0)) with false. cbn iota.
  change (der 0x30 (signed_body c)) with (certificate c). rewrite Z.eqb_refl. cbn [negb].
  unfold full. cbn [full_start full_end]. rewrite Htbs at 1. by rewrite sub_app.
Qed.

End Certificate.

(** ** Totality of the reader *)

Lemma sub_ok input a b : 0 <= a <= b -> b <= len input -> sub input a b = Ok (slice input a b).
Proof. intros. unfold sub. destruct (_ && _) eqn:E; [done|lia]. Qed.

(** A part of the input, or the one error. *)
Definition part_or_error {A} (input : list byte) (part : A -> list byte -> Prop) (r : res CaError A) : Prop :=
  match r with
  | Ok x => exists a b, 0 <= a <= b /\ b <= len input /\ part x (slice input a b)
  | Err e => e = MalformedDer
  | Panic => False
  end.

Lemma expect_element_spec input tag :
  (exists e, expect_element input tag = Ok e /\ 0 <= content_start e <= len input /\ full_end e = len input) \/
  expect_element input tag = Err MalformedDer.
Proof.
  unfold expect_element. destruct (read_element_spec input 0 tag) as [(e & p & -> & [_ ? ?] & _)| ->]; [lia| |by right].
  cbn [mbind res_bind]. destruct (p =? len input) eqn:E; [left|by right].
  exists e. split_and!; [done|lia|lia|lia].
Qed.

(** Step through a read: it errs, or its element lies in the input. *)
Ltac read_step :=
  match goal with
  | |- context [expect_element ?i ?t] =>
      let e := fresh "e" in
      destruct (expect_element_spec i t) as [(e & -> & ? & ?)| ->]; [|done]; cbn [mbind res_bind]
  | |- context [read_element ?i ?p ?t] =>
      let e := fresh "e" in let q := fresh "p" in
      destruct (read_element_spec i p t ltac:(lia)) as [(e & q & -> & [? ? ?] & ?)| ->]; [|done]; cbn [mbind res_bind]
  end.

Lemma spki_total input : part_or_error input eq (extract_spki_der input).
Proof.
  unfold extract_spki_der. do 2 read_step.
  set (m := match byte_at input (content_start e0) with Ok b => _ | _ => _ end).
  assert (Hm : (exists p, m = Ok p /\ 0 <= p) \/ m = Err MalformedDer).
  { unfold m. destruct (byte_at _ _); [|by left; eexists; split; [done|lia]..].
    case_match; [|by left; eexists; split; [done|lia]]. unfold skip_any.
    destruct (read_element_any_spec input (content_start e0) ltac:(lia)) as [(x & q & b & -> & [? ? ?] & _)| ->]; [|by right].
    left. exists q. cbn. split; [done|lia]. }
  destruct Hm as [(q & -> & Hq)| ->]; [|done]. cbn [mbind res_bind].
  do 6 read_step. unfold full. rewrite sub_ok by lia. exists (full_start e6), (full_end e6). split_and!; [lia..|done].
Qed.

Lemma tbs_total input :
  part_or_error input (fun r t => fst r = t /\ exists a b, 0 <= a <= b /\ b <= len input /\ snd r = slice input a b)
    (extract_tbs_and_signature input).
Proof.
  unfold extract_tbs_and_signature. do 4 read_step. unfold content, full.
  rewrite (sub_ok _ (content_start e2)) by lia. cbn [mbind res_bind].
  destruct (slice input (content_start e2) (full_end e2)) as [|b rest] eqn:Es; [done|].
  case_match; [done|]. case_match; [done|]. rewrite sub_ok by lia. cbn [mbind res_bind].
  exists (full_start e0), (full_end e0). split_and!; [lia..| done|].
  assert (Hl : 0 < len (slice input (content_start e2) (full_end e2))) by (rewrite Es; cbn; lia).
  rewrite len_slice in Hl by lia.
  exists (content_start e2 + 1), (full_end e2). split_and!; [lia..|]. cbn [snd].
  change rest with (drop 1 (b :: rest)). rewrite <- Es. unfold slice. rewrite skipn_firstn_comm, drop_drop.
  f_equal; [|f_equal]; lia.
Qed.

Lemma is_ec_total input : exists b, is_ec_p256_spki input = Ok b.
Proof.
  unfold is_ec_p256_spki. destruct (expect_element_spec input 0x30) as [(e & -> & ? & ?)| ->]; [|by eexists].
  cbn [mbind res_bind].
  destruct (read_element_spec input (content_start e) 0x30 ltac:(lia)) as [(e1 & p1 & -> & [? ? ?] & ?)| ->]; [|by eexists].
  cbn [mbind res_bind].
  destruct (read_element_spec input (content_start e1) 0x06 ltac:(lia)) as [(e2 & p2 & -> & [? ? ?] & ?)| ->]; [|by eexists].
  cbn [mbind res_bind].
  destruct (read_element_spec input p2 0x06 ltac:(lia)) as [(e3 & p3 & -> & [? ? ?] & ?)| ->]; [|by eexists].
  cbn [mbind res_bind]. case_match; [|by eexists]. unfold full. rewrite !sub_ok by lia. cbn [mbind res_bind].
  case_match; by eexists.
Qed.

(** ** Parsing journal identities *)

Lemma nibble_of_digit d : 0 <= d < 16 -> nibble (u8 (as_u8 (digit_char d))) = Ok d.
Proof.
  intros Hd.
  assert (H : forallb (fun d => match nibble (u8 (as_u8 (digit_char d))) with Ok n => n =? d | _ => false end) (seqZ 0 16) = true)
    by by vm_compute.
  rewrite forallb_forall in H. specialize (H d). destruct (nibble _); [f_equal; apply Z.eqb_eq|exfalso..].
  2-3: assert (Hf : false = true); [|done].
  all: apply H, list_elem_of_In, elem_of_seqZ; lia.
Qed.

Lemma digit_not_hyphen d : 0 <= d < 16 -> u8 (as_u8 (digit_char d)) =? 45 = false.
Proof.
  intros Hd. assert (H : forallb (fun d => negb (u8 (as_u8 (digit_char d)) =? 45)) (seqZ 0 16) = true) by by vm_compute.
  rewrite forallb_forall in H. apply negb_true_iff, H, list_elem_of_In, elem_of_seqZ. lia.
Qed.

Lemma hex_byte_digits b :
  hex_byte (u8 (as_u8 (digit_char (u8 b / 16)))) (u8 (as_u8 (digit_char (u8 b mod 16)))) = Ok b.
Proof.
  pose proof (u8_range b). unfold hex_byte. rewrite !nibble_of_digit by lia. cbn [mbind res_bind].
  rewrite lor_shiftl_add by lia. change (2 ^ 4) with 16.
  replace (u8 b / 16 * 16 + u8 b mod 16) with (u8 b) by lia. by rewrite as_u8_u8.
Qed.

(** A run of printed bytes is read back onto the output. *)
Lemma jid_loop_hex l rest out :
  len out + len l <= 16 -> jid_loop ((as_u8 <$> hex_lower l) ++ rest) out = jid_loop rest (out ++ l).
Proof.
  revert out. induction l as [|b l IH]; intros out Hl; [by rewrite app_nil_r|].
  unfold hex_lower in *. cbn [fmap list_fmap concat app hex02 jid_loop length] in *. pose proof (u8_range b).
  rewrite digit_not_hyphen by lia. rewrite hex_byte_digits. cbn [mbind res_bind].
  destruct (len out <? 16) eqn:E; [|lia]. rewrite IH by (rewrite length_app; cbn; lia). by rewrite <- app_assoc.
Qed.

(** Bytes other than a hyphen. *)
Definition digits_in (l : list byte) : nat := length (filter (fun b => u8 b <> 45) l).

(** The loop writes one byte per two digits, so it stays inside the array. *)
Lemma jid_loop_total n input out :
  (length input <= n)%nat -> (2 * length out + digits_in input <= 32)%nat -> jid_loop input out <> Panic.
Proof.
  revert input out. induction n as [|n IH]; intros [|high rest] out Hn Hd; cbn [length] in *; try done; [lia|].
  cbn [jid_loop]. unfold digits_in in Hd. rewrite list.filter_cons in Hd.
  destruct (u8 high =? 45) eqn:Eh.
  { rewrite decide_False in Hd by lia. apply IH; [lia|done]. }
  rewrite decide_True in Hd by lia. destruct rest as [|low rest]; [done|].
  cbn [length] in *. rewrite list.filter_cons in Hd.
  destruct (decide (u8 low <> 45)) as [Hlow|Hlow].
  - cbn [length] in Hd. destruct (hex_byte _ _) as [b|e|] eqn:Eb; cbn [mbind res_bind]; [|done|].
    + destruct (len out <? 16) eqn:E; [|lia]. apply IH; [lia|]. unfold digits_in. rewrite length_app. cbn. lia.
    + exfalso. revert Eb. unfold hex_byte, nibble. repeat case_match; done.
  - replace (hex_byte (u8 high) (u8 low)) with (Err InvalidJid : res MarkError byte); [done|].
    assert (u8 low = 45) as -> by lia. unfold hex_byte, nibble. by repeat case_match.
Qed.

Lemma hyphen_split (l : list byte) i : hyphen_at l i = true ->
  exists b, l = take i l ++ b :: drop (S i) l /\ u8 b = 45.
Proof.
  unfold hyphen_at. destruct (l !! i) as [b|] eqn:E; [|done]. intros Hb. exists b. split; [|lia].
  by rewrite <- (take_drop_middle l i b E) at 1.
Qed.

Lemma digits_in_app a b : digits_in (a ++ b) = (digits_in a + digits_in b)%nat.
Proof. unfold digits_in. by rewrite list.filter_app, length_app. Qed.
Lemma digits_in_le l : (digits_in l <= length l)%nat.
Proof. unfold digits_in. apply length_filter. Qed.
Lemma digits_in_hyphen b l : u8 b = 45 -> digits_in (b :: l) = digits_in l.
Proof. intros Hb. unfold digits_in. rewrite list.filter_cons, decide_False by (intros H; by apply H). done. Qed.

(** A hyphen at index [i] of the list is one byte that is no digit. *)
Lemma digits_in_cut l i : hyphen_at l i = true ->
  (digits_in l <= i + digits_in (drop (S i) l))%nat.
Proof.
  intros H. destruct (hyphen_split l i H) as (b & Hl & Hb). rewrite Hl at 1.
  rewrite digits_in_app, digits_in_hyphen by done. pose proof (digits_in_le (take i l)). rewrite length_take in *. lia.
Qed.

Lemma hyphen_at_drop l i n : hyphen_at (drop n l) i = hyphen_at l (n + i).
Proof. unfold hyphen_at. by rewrite lookup_drop. Qed.

Lemma parse_jid_total jid : parse_jid_bytes jid <> Panic.
Proof.
  unfold parse_jid_bytes. set (l := into_bytes jid). destruct (_ || _) eqn:E; [done|].
  rewrite !orb_false_iff, !negb_false_iff in E. destruct E as ((((Hl & H8) & H13) & H18) & H23).
  assert (Hloop : jid_loop l [] <> Panic).
  { apply (jid_loop_total (length l)); [done|]. cbn [length].
    pose proof (digits_in_cut l 8 H8) as D1.
    pose proof (digits_in_cut (drop 9 l) 4) as D2. rewrite hyphen_at_drop, drop_drop in D2. specialize (D2 H13).
    pose proof (digits_in_cut (drop 14 l) 4) as D3. rewrite hyphen_at_drop, drop_drop in D3. specialize (D3 H18).
    pose proof (digits_in_cut (drop 19 l) 4) as D4. rewrite hyphen_at_drop, drop_drop in D4. specialize (D4 H23).
    cbn [Nat.add] in *. pose proof (digits_in_le (drop 24 l)). rewrite length_drop in *. lia. }
  destruct (jid_loop l []); cbn [mbind res_bind]; [|done..]. by case_match.
Qed.

Lemma hex_lower_app a b : hex_lower (a ++ b) = hex_lower a ++ hex_lower b.
Proof. unfold hex_lower. by rewrite fmap_app, concat_app. Qed.
Lemma len_hex_lower l : len (hex_lower l) = 2 * len l.
Proof. induction l as [|b l IH]; [done|]. unfold hex_lower in *. cbn [fmap list_fmap concat hex02 app length] in *. lia. Qed.

Lemma hex_slice raw a b :
  0 <= a <= b -> b <= len raw -> slice (hex_lower raw) (2 * a) (2 * b) = hex_lower (slice raw a b).
Proof.
  intros Hab Hb. unfold slice. rewrite <- (take_drop (Z.to_nat a) raw) at 1. rewrite hex_lower_app.
  rewrite drop_app_length' by (pose proof (len_hex_lower (ztake a raw)) as H; rewrite length_take in H; lia).
  set (m := drop _ raw). rewrite <- (take_drop (Z.to_nat (b - a)) m) at 1. rewrite hex_lower_app.
  rewrite take_app_length'; [done|].
  pose proof (len_hex_lower (ztake (b - a) m)) as H. unfold m in *. rewrite length_take, length_drop in H. lia.
Qed.

Lemma hex_lower_ascii l : Forall is_ascii (hex_lower l).
Proof.
  induction l as [|b l IH]; [constructor|]. unfold hex_lower in *. cbn [fmap list_fmap concat hex02 app].
  pose proof (u8_range b). apply List.Forall_cons; [|apply List.Forall_cons; [|exact IH]]; unfold is_ascii, digit_char; case_match; lia.
Qed.

(** A printed identity is read back to its sixteen bytes. *)
Lemma parse_uuid raw s : length raw = 16%nat -> uuid_string raw = Ok s -> parse_jid_bytes s = Ok raw.
Proof.
  intros Hl. unfold uuid_string. pose proof (len_hex_lower raw). destruct (_ <? _) eqn:E; [done|]. intros [= <-].
  assert (H0 : slice (hex_lower raw) 0 8 = hex_lower (slice raw 0 4)) by (apply (hex_slice raw 0 4); lia).
  assert (H4 : slice (hex_lower raw) 8 12 = hex_lower (slice raw 4 6)) by (apply (hex_slice raw 4 6); lia).
  assert (H6 : slice (hex_lower raw) 12 16 = hex_lower (slice raw 6 8)) by (apply (hex_slice raw 6 8); lia).
  assert (H8 : slice (hex_lower raw) 16 20 = hex_lower (slice raw 8 10)) by (apply (hex_slice raw 8 10); lia).
  assert (H10 : slice (hex_lower raw) 20 32 = hex_lower (slice raw 10 16)) by (apply (hex_slice raw 10 16); lia).
  rewrite H0, H4, H6, H8, H10. clear E H H0 H4 H6 H8 H10.
  do 17 (destruct raw as [|? raw]; try done). clear Hl.
  change (slice _ 0 4) with [b; b0; b1; b2]. change (slice _ 4 6) with [b3; b4].
  change (slice _ 6 8) with [b5; b6]. change (slice _ 8 10) with [b7; b8].
  change (slice _ 10 16) with [b9; b10; b11; b12; b13; b14].
  unfold parse_jid_bytes. rewrite into_bytes_ascii.
  2: { repeat first [apply hex_lower_ascii | apply List.Forall_nil | apply List.Forall_cons; [unfold is_ascii; lia|]
                    | apply list.Forall_app; split]. }
  repeat (rewrite fmap_app || rewrite fmap_cons).
  match goal with |- context [if ?c then _ else _] => change c with false end. cbn iota.
  assert (Hh : forall rest out, jid_loop (as_u8 45 :: rest) out = jid_loop rest out) by done.
  rewrite jid_loop_hex, Hh by (cbn; lia). rewrite jid_loop_hex, Hh by (cbn; lia).
  rewrite jid_loop_hex, Hh by (cbn; lia). rewrite jid_loop_hex, Hh by (cbn; lia).
  match goal with |- context [jid_loop ?l _] => rewrite <- (app_nil_r l) end. rewrite jid_loop_hex by (cbn; lia). done.
Qed.

(** ** Picking *)

Lemma digest_word_nonneg d i : 0 <= digest_word d i.
Proof. unfold digest_word. pose proof (be_val_range (take 4 (drop (i * 4) d))). lia. Qed.

Lemma pick_spec w n : 0 < n -> exists i, pick w n = Ok i /\ 0 <= i < n.
Proof. intros Hn. unfold pick. case_match; [lia|]. eexists. split; [done|]. apply Z.mod_pos_bound. lia. Qed.

Lemma pick_distinct_spec w n x : 1 < n -> 0 <= x < n -> exists i, pick_distinct w n x = Ok i /\ 0 <= i < n /\ i <> x.
Proof.
  intros Hn Hx. unfold pick_distinct. case_match; [lia|].
  pose proof (Z.mod_pos_bound w (n - 1) ltac:(lia)). eexists. split; [done|]. case_match; lia.
Qed.

Lemma at_index_spec {A} (l : list A) i : 0 <= i < len l -> exists x, at_index l i = Ok x /\ l !! Z.to_nat i = Some x.
Proof.
  intros Hi. destruct (lookup_lt_is_Some_2 l (Z.to_nat i)) as [x Hx]; [lia|]. exists x. unfold at_index. by rewrite Hx.
Qed.

(** Two different entries of a table. *)
Definition two_entries {A} (l : list A) (x y : A) : Prop := exists i j : nat, i <> j /\ l !! i = Some x /\ l !! j = Some y.

Record mark_ok (a : MarkAssets) (m : Mark) : Prop := {
  mark_icons : two_entries (glyphs a) (icon_name (icon1 m), icon_svg (icon1 m)) (icon_name (icon2 m), icon_svg (icon2 m));
  mark_colors : two_entries (colors a) (icon_color (icon1 m)) (icon_color (icon2 m));
  mark_two_words : two_entries (asset_words a) (fst (mark_words m)) (snd (mark_words m));
  mark_rotations : (icon_rot (icon1 m) = 0 \/ icon_rot (icon1 m) = 45) /\ (icon_rot (icon2 m) = 0 \/ icon_rot (icon2 m) = 45)
}.

Lemma load_assets_sizes g c w a : load_assets g c w = Ok a ->
  len (glyphs a) = ICON_COUNT /\ len (colors a) = COLOR_COUNT /\ len (asset_words a) = WORD_COUNT.
Proof.
  unfold load_assets, ok_or. intros H.
  repeat (case_match; cbn [mbind res_bind] in H; try discriminate H; simplify_eq). cbn. rewrite length_fmap.
  repeat match goal with E : negb _ = false |- _ => apply negb_false_iff, Z.eqb_eq in E end. done.
Qed.

Lemma derive_mark_spec argon2 jid a :
  len (glyphs a) = ICON_COUNT -> len (colors a) = COLOR_COUNT -> len (asset_words a) = WORD_COUNT ->
  match argon2 jid with
  | None => derive_mark argon2 jid a = Err Argon2
  | Some _ => exists m, derive_mark argon2 jid a = Ok m /\ mark_ok a m
  end.
Proof.
  intros Hg Hc Hw. unfold derive_mark. destruct (argon2 jid) as [d|]; [|done]. cbn [ok_or mbind res_bind].
  destruct (pick_spec (digest_word d 0) (len (glyphs a))) as (i1 & -> & ?); [by rewrite Hg|]. cbn [mbind res_bind].
  destruct (pick_distinct_spec (digest_word d 1) (len (glyphs a)) i1) as (i2 & -> & ? & ?); [by rewrite Hg|done|]. cbn [mbind res_bind].
  destruct (pick_spec (digest_word d 2) (len (colors a))) as (c1 & -> & ?); [by rewrite Hc|]. cbn [mbind res_bind].
  destruct (pick_distinct_spec (digest_word d 3) (len (colors a)) c1) as (c2 & -> & ? & ?); [by rewrite Hc|done|]. cbn [mbind res_bind].
  destruct (pick_spec (digest_word d 4) (len (asset_words a))) as (w1 & -> & ?); [by rewrite Hw|]. cbn [mbind res_bind].
  destruct (pick_distinct_spec (digest_word d 5) (len (asset_words a)) w1) as (w2 & -> & ? & ?); [by rewrite Hw|done|]. cbn [mbind res_bind].
  destruct (at_index_spec (glyphs a) i1) as ([n1 s1] & -> & ?); [done|]. cbn [mbind res_bind].
  destruct (at_index_spec (glyphs a) i2) as ([n2 s2] & -> & ?); [done|]. cbn [mbind res_bind].
  destruct (at_index_spec (colors a) c1) as (k1 & -> & ?); [done|]. cbn [mbind res_bind].
  destruct (at_index_spec (colors a) c2) as (k2 & -> & ?); [done|]. cbn [mbind res_bind].
  destruct (at_index_spec (asset_words a) w1) as (x1 & -> & ?); [done|]. cbn [mbind res_bind].
  destruct (at_index_spec (asset_words a) w2) as (x2 & -> & ?); [done|]. cbn [mbind res_bind].
  eexists. split; [done|]. split; cbn.
  - exists (Z.to_nat i1), (Z.to_nat i2). split_and!; [lia|done..].
  - exists (Z.to_nat c1), (Z.to_nat c2). split_and!; [lia|done..].
  - exists (Z.to_nat w1), (Z.to_nat w2). split_and!; [lia|done..].
  - split; case_match; auto.
Qed.

(** ** Pair windows: the comparison and the one admission *)

Lemma lor_zero a b : 0 <= a -> 0 <= b -> Z.lor a b = 0 <-> a = 0 /\ b = 0.
Proof. intros. rewrite Z.lor_eq_0_iff. done. Qed.

Lemma key_difference_zero presented expected d :
  length presented = length expected -> 0 <= d ->
  key_difference presented expected d = 0 <-> d = 0 /\ presented = expected.
Proof.
  revert presented d. induction expected as [|e expected IH]; intros [|b presented] d Hl Hd; try done; cbn [key_difference tail].
  { naive_solver. }
  pose proof (u8_range b). pose proof (u8_range e).
  assert (Hx : 0 <= Z.lxor (u8 b) (u8 e)) by (apply Z.lxor_nonneg; lia).
  rewrite IH; [| naive_solver | apply Z.lor_nonneg; lia]. rewrite lor_zero, Z.lxor_eq_0_iff by done.
  split; [intros [[? Hbe] ->]; split; [done|]; f_equal; by apply u8_inj | intros [-> [= -> ->]]; naive_solver].
Qed.

Lemma key_difference_acc presented expected d : 0 <= d -> key_difference presented expected d = 0 -> d = 0.
Proof.
  revert presented d. induction expected as [|e expected IH]; intros presented d Hd; cbn [key_difference]; [done|].
  intros H. apply IH in H.
  - apply Z.lor_eq_0_iff in H. tauto.
  - pose proof (u8_range e). apply Z.lor_nonneg. split; [done|]. apply Z.lxor_nonneg.
    destruct presented as [|b ?]; [lia|]. pose proof (u8_range b). lia.
Qed.

Lemma relay_key_matches_spec presented expected :
  relay_key_matches presented expected = true <-> into_bytes presented = into_bytes expected.
Proof.
  unfold relay_key_matches. rewrite Z.eqb_eq. set (p := into_bytes presented). set (e := into_bytes expected).
  assert (Hd : 0 <= Z.lxor (len p) (len e)) by (apply Z.lxor_nonneg; lia). split.
  - intros H. pose proof (key_difference_acc _ _ _ Hd H) as Hl. apply Z.lxor_eq in Hl.
    apply key_difference_zero in H; [tauto|lia|done].
  - intros Hpe. rewrite Hpe, Z.lxor_nilpotent. by apply key_difference_zero.
Qed.

Definition is_ok {A E} (r : res E A) : bool := match r with Ok _ => true | _ => false end.

(** The attempts on one window, in the order [&mut self] serialises them. *)
Fixpoint admissions (w : PairWindow) (attempts : list (str * Z * res HomeError unit)) : list (res HomeError unit) :=
  match attempts with
  | [] => []
  | (rk, now, setup) :: attempts => let '(w, r) := admit_stream rk now setup w in r :: admissions w attempts
  end.

(** An attempt the window should admit if it is still unused. *)
Definition eligible (w : PairWindow) (a : str * Z * res HomeError unit) : Prop :=
  into_bytes (fst (fst a)) = into_bytes (relay_key w) /\ snd (fst a) < window_expires_at w /\ snd a = Ok tt.

Lemma admit_spec rk now setup w :
  (snd (admit_stream rk now setup w) = Ok tt <-> consumed w = false /\ eligible w (rk, now, setup)) /\
  fst (admit_stream rk now setup w) =
    mkWindow (relay_key w) (window_expires_at w)
      (consumed w || is_ok (snd (admit_stream rk now setup w))) (window_instance w).
Proof.
  unfold eligible. cbn [fst snd]. pose proof (relay_key_matches_spec rk (relay_key w)) as Hk. destruct w as [key exp used ins].
  unfold admit_stream. cbn [relay_key window_expires_at consumed window_instance] in *.
  destruct (relay_key_matches rk key); cbn [negb].
  2: { cbn [fst snd is_ok]. rewrite orb_false_r. split; [|done]. split; [done|].
       intros (_ & H & _). apply Hk in H. done. }
  destruct (exp <=? now) eqn:Ee; [|destruct used; [|destruct setup as [[]| |]]]; cbn [fst snd is_ok].
  all: rewrite ?orb_false_r, ?orb_true_r; split; [|done]; split; [try done|].
  - intros (_ & _ & ? & _). lia.
  - naive_solver.
  - intros _. split_and!; [done|by apply Hk|lia|done].
  - naive_solver.
  - naive_solver.
  - naive_solver.
Qed.

Lemma is_ok_unit {E} (r : res E unit) : is_ok r = false <-> r <> Ok tt.
Proof. destruct r as [[]| |]; naive_solver. Qed.

Lemma admissions_spec attempts w i :
  admissions w attempts !! i = Some (Ok tt) <->
  consumed w = false /\ (exists a, attempts !! i = Some a /\ eligible w a) /\
  (forall j a, (j < i)%nat -> attempts !! j = Some a -> ~ eligible w a).
Proof.
  revert w i. induction attempts as [|[[rk now] setup] attempts IH]; intros w i; cbn [admissions].
  { rewrite !lookup_nil. naive_solver. }
  destruct (admit_spec rk now setup w) as [Hok Hw]. destruct (admit_stream rk now setup w) as [w' r]. cbn [fst snd] in *.
  destruct i as [|i]; cbn [lookup list_lookup].
  { split.
    - intros [= ->]. destruct (proj1 Hok eq_refl) as [Hc He]. split_and!; [done|by eexists|lia].
    - intros (Hc & (a & [= <-] & He) & _). f_equal. by apply Hok. }
  rewrite IH. rewrite Hw. unfold eligible. cbn [consumed relay_key window_expires_at]. fold (eligible w).
  rewrite orb_false_iff, is_ok_unit, Hok. fold (eligible w). split.
  - intros ((Hc & Hn) & Ha & Hj). split_and!; [done|done|].
    intros [|j] a Hlt; cbn [lookup list_lookup]; [intros [= <-] He; by apply Hn | intros Hl; apply (Hj j); [lia|done]].
  - intros (Hc & Ha & Hj). split_and!; [done| |done|].
    + intros [_ He]. by apply (Hj 0%nat (rk, now, setup)); [lia|done|].
    + intros j a Hlt Hl. apply (Hj (S j)); [lia|done].
Qed.

(** A certificate whose signed part stops after the subject. *)
Definition keyless_certificate (c : cert_fields) : list byte :=
  der 0x30 (der 0x30 (version_der (cf_version c) ++ der 0x02 (cf_serial c) ++ der 0x30 (cf_alg c) ++ der 0x30 (cf_issuer c) ++
                      der 0x30 (cf_validity c) ++ der 0x30 (cf_subject c)) ++
            der 0x30 (cf_outer_alg c) ++ der 0x03 (as_u8 0 :: cf_signature c)).

Lemma keyless_spki c :
  len (keyless_certificate c) < 2 ^ 32 -> extract_spki_der (keyless_certificate c) = Ok (der 0x30 (cf_outer_alg c)).
Proof.
  intros Hfit. unfold keyless_certificate in *.
  set (tb := version_der _ ++ _) in *. set (body := der 0x30 tb ++ _) in *.
  assert (Hflat : der 0x30 body = der_head 0x30 body ++ der 0x30 tb ++ der 0x30 (cf_outer_alg c) ++ der 0x03 (as_u8 0 :: cf_signature c)) by done.
  unfold extract_spki_der. rewrite (expect_der _ 0x30 body) by done. cbn [mbind res_bind content_start].
  rewrite (read_at _ _ 0x30 tb _ Hflat) by done. cbn [mbind res_bind content_start].
  rewrite (der_split 0x30 tb) in Hflat. rewrite <- app_assoc in Hflat. rewrite app_assoc in Hflat. unfold tb at 2 in Hflat.
  rewrite <- (app_assoc (version_der (cf_version c))) in Hflat.
  rewrite <- (app_assoc (der 0x02 (cf_serial c))) in Hflat.
  rewrite (version_skipped _ _ _ _ _ Hflat Hfit). cbn [mbind res_bind].
  apply (six_fields _ _ (cf_serial c) (cf_alg c) (cf_issuer c) (cf_validity c) (cf_subject c) _ (der 0x03 (as_u8 0 :: cf_signature c))); [|done].
  rewrite Hflat, <- !app_assoc. done.
Qed.

Lemma load_assets_cases g c w : (exists a, load_assets g c w = Ok a) \/ load_assets g c w = Err Asset.
Proof. unfold load_assets, ok_or. repeat (case_match; cbn [mbind res_bind]); first [by right | left; by eexists]. Qed.

(** Only digits are mistyped: the parser has one error. *)
Lemma jid_loop_error n input out e : (length input <= n)%nat -> jid_loop input out = Err e -> e = InvalidJid.
Proof.
  revert input out. induction n as [|n IH]; intros [|high rest] out Hn; cbn [length] in *; try done; [lia|].
  cbn [jid_loop]. case_match; [apply IH; lia|]. destruct rest as [|low rest]; [by intros [=]|]. cbn [length] in *.
  destruct (hex_byte _ _) as [b|e'|] eqn:Eb; cbn [mbind res_bind]; [|intros [= <-]|done].
  - case_match; [apply IH; lia|done].
  - revert Eb. unfold hex_byte, nibble. repeat (case_match; cbn [mbind res_bind]); congruence.
Qed.

Lemma parse_jid_error jid e : parse_jid_bytes jid = Err e -> e = InvalidJid.
Proof.
  unfold parse_jid_bytes. case_match; [by intros [=]|].
  destruct (jid_loop _ _) as [out|e'|] eqn:E; cbn [mbind res_bind]; [|intros [= <-]|done].
  - case_match; [by intros [=]|done].
  - by eapply jid_loop_error.
Qed.

(** ** Properties *)

(** C35. Certificate fields are found: for every certificate laid out as X.509
    lays it out, with or without a version and with anything after the key,
    [extract_spki_der] returns exactly its subject public key info and
    [extract_tbs_and_signature] exactly its signed part and signature; so a
    pin is checked against the key of the certificate and nothing else. *)
Theorem certificate_parts_read (c : cert_fields) (sha256 : list byte -> list byte) (prefix : list byte) :
  len (certificate c) < 2 ^ 32 ->
  extract_spki_der (certificate c) = Ok (der 0x30 (cf_spki c)) /\
  extract_tbs_and_signature (certificate c) = Ok (der 0x30 (tbs_body c), cf_signature c) /\
  spki_matches_prefix sha256 (certificate c) prefix =
    (0 <? len prefix) && (len prefix <=? 32) && bool_decide (ztake (len prefix) (sha256 (der 0x30 (cf_spki c))) = prefix).
Proof.
  intros Hfit. split_and!; [by apply spki_read|by apply tbs_and_signature_read|].
  unfold spki_matches_prefix. rewrite (spki_read c Hfit). unfold digest_matches.
  destruct prefix as [|b prefix]; [done|]. rewrite bool_decide_eq_false_2 by done. cbn [orb].
  destruct (len (b :: prefix) >? 32) eqn:E; destruct (_ <=? 32) eqn:E2; try lia; cbn [length]; by rewrite ?andb_false_r.
Qed.

(** Whatever the bytes, reading a certificate or a key never indexes out
    of range: it answers [MalformedDer], or contiguous parts of the input,
    and the P-256 test answers yes or no. *)
Theorem certificate_reader_total (input : list byte) :
  part_or_error input eq (extract_spki_der input) /\
  part_or_error input (fun r t => fst r = t /\ exists a b, 0 <= a <= b /\ b <= len input /\ snd r = slice input a b)
    (extract_tbs_and_signature input) /\
  (exists b, is_ec_p256_spki input = Ok b).
Proof. split_and!; [apply spki_total|apply tbs_total|apply is_ec_total]. Qed.

(** The key of [extract_spki_der] need not lie in the signed part: the
    fields are bounded by the whole certificate only, so from a certificate
    whose signed part ends after the subject the outer, unsigned signature
    algorithm is returned as the key, not [MalformedDer]. *)
Theorem spki_read_past_tbs (c : cert_fields) :
  len (keyless_certificate c) < 2 ^ 32 ->
  extract_spki_der (keyless_certificate c) = Ok (der 0x30 (cf_outer_alg c)).
Proof. apply keyless_spki. Qed.

(** C40. [mark_from_jid] never indexes out of range. With tables of the locked
    sizes it gives, for every identity that parses and whose hash is
    computed, two different icons, two different colours and two different
    words of the tables and rotations of 0 or 45 degrees; its errors are a
    wrong table, a bad identity or the hash's failure; and a printed journal
    identity parses back to its sixteen bytes. *)
Theorem mark_total_and_distinct (argon2 : list byte -> option (list byte)) g c w jid :
  match load_assets g c w, parse_jid_bytes jid with
  | Ok a, Ok bytes =>
      match argon2 bytes with
      | Some _ => exists m, mark_from_jid argon2 (load_assets g c w) jid = Ok m /\ mark_ok a m
      | None => mark_from_jid argon2 (load_assets g c w) jid = Err Argon2
      end
  | Ok a, Err _ => mark_from_jid argon2 (load_assets g c w) jid = Err InvalidJid
  | Err _, _ => mark_from_jid argon2 (load_assets g c w) jid = Err Asset
  | _, _ => False
  end /\
  (forall raw, length raw = 16%nat -> uuid_string raw = Ok jid -> parse_jid_bytes jid = Ok raw).
Proof.
  split; [|intros raw; apply parse_uuid]. unfold mark_from_jid.
  destruct (load_assets_cases g c w) as [[a Ha]|Ha]; rewrite Ha; [|done]. cbn [mbind res_bind].
  destruct (load_assets_sizes _ _ _ _ Ha) as (Hg & Hc & Hw). pose proof (parse_jid_total jid).
  destruct (parse_jid_bytes jid) as [bytes|e|] eqn:Ep; [|by rewrite (parse_jid_error _ _ Ep)|done]. cbn [mbind res_bind].
  by apply derive_mark_spec.
Qed.

(** C36. A pair window admits once: on a window just opened, an attempt
    succeeds exactly when it presents the window's relay key byte for byte,
    before expiry, completes its set-up, and no attempt before it did all
    three; attempts that fail leave the window usable. *)
Theorem pair_window_single_use `{RelayPrimitives} secret expires_at ca w attempts i :
  open_window secret expires_at ca = Ok w ->
  relay_key w = hex_lower_key (derive_rk secret) /\
  (admissions w attempts !! i = Some (Ok tt) <->
   (exists a, attempts !! i = Some a /\ eligible w a) /\
   (forall j a, (j < i)%nat -> attempts !! j = Some a -> ~ eligible w a)).
Proof.
  unfold open_window. intros Ho.
  destruct (extract_spki_der ca) as [spki| |]; cbn [map_err mbind res_bind] in Ho; [|done..].
  destruct (jid_from_spki spki) as [jid| |]; cbn [map_err mbind res_bind] in Ho; [|done..].
  injection Ho as <-. split; [done|]. rewrite admissions_spec. cbn [consumed]. tauto.
Qed.

(** ** Witnesses *)

Definition sample_cert : cert_fields := mkCert (Some [Byte.x02; Byte.x01; Byte.x02]) [Byte.x05] [] [] [] [] [Byte.x06; Byte.x00] [] [] [Byte.x09].
#[local] Instance sample_window : RelayPrimitives := {|
  json_value _ := None; json_lifetimes _ := None; url_safe_decode _ := None; rfc3339 _ := None;
  hkdf_sha256 _ _ _ n := replicate n Byte.x0a;
  P256 := unit; spki_from_der _ := Some (Some []); p256_from_spki _ := Ok tt; to_public_key_der _ := []
|}.

Lemma certificate_parts_read_witness :
  extract_spki_der (certificate sample_cert) = Ok [Byte.x30; Byte.x02; Byte.x06; Byte.x00].
Proof. exact (proj1 (certificate_parts_read sample_cert (fun b => b) [] ltac:(by vm_compute))). Defined.

Lemma spki_read_past_tbs_witness :
  extract_spki_der (keyless_certificate sample_cert) = Ok [Byte.x30; Byte.x00].
Proof. exact (spki_read_past_tbs sample_cert ltac:(by vm_compute)). Defined.

Lemma mark_total_and_distinct_witness :
  parse_jid_bytes (lit "0a0a0a0a-0a0a-0a0a-0a0a-0a0a0a0a0a0a") = Ok (replicate 16 Byte.x0a).
Proof. apply (mark_total_and_distinct (fun _ => None) None None None _); by vm_compute. Defined.

(** The second attempt wins: the first presents the key in upper case. *)
Lemma pair_window_single_use_witness :
  exists w, open_window [] 100 (certificate sample_cert) = Ok w /\
    admissions w [(lit "0A0A0A0A0A0A0A0A0A0A0A0A0A0A0A0A", 10, Ok tt); (lit "0a0a0a0a0a0a0a0a0a0a0a0a0a0a0a0a", 20, Ok tt)] !! 1%nat
      = Some (Ok tt).
Proof.
  eexists. split; [vm_compute; reflexivity|].
  apply (pair_window_single_use [] 100 (certificate sample_cert)); [vm_compute; reflexivity|]. split.
  - eexists. split; [reflexivity|]. split_and!; [by vm_compute..|reflexivity].
  - intros [|[|j]] a Hj; [|lia..]. intros [= <-] (Hk & _). vm_compute in Hk. discriminate Hk.
Defined.
