(* ===== verification/Client.v ===== *)
(** * The transport client: requests, carriers and token refresh

    [crates/spl-transport/src/client.rs], [request.rs], [relay_token.rs],
    [observe.rs] and the error types of [lib.rs].

    Everything the client awaits or asks of its surroundings is an [action]:
    dialing, exchanging a request, sleeping, the clock, the consumer's fence and
    storage, the shared token and its lock.  An operation is a finite tree of
    actions ([prog]), so a theorem about all its runs is a theorem about all
    answers the surroundings can give; [ClientRun.v] runs many such trees over one
    shared state. *)

From S2P Require Import Prelude Text Frame Http Window Relay.

(** ** Errors ([lib.rs]) *)

Inductive RelayError :=
| HomeOffline | Unauthorized | Unpaid | UnknownInstance | PairWindowClosed | Overflow | AbnormalClose
| UpgradeRejected | Stalled | HomeListenConnection | HomeRelayConfiguration | HomeTunnelRejected (status : Z).

Definition is_transient (e : RelayError) : bool :=
  match e with HomeOffline | Overflow | AbnormalClose | Stalled => true | _ => false end.

Inductive RelayControlEndpoint := EnrollDevice | TokenRefresh.

Record UnknownJournal := mkUnknown { uj_address : option str; uj_jid : option str }.

(** The kinds of [io::Error] the code tells apart. *)
Inductive IoKind := InvalidInput | OtherIo.

(** Messages are not kept. *)
Inductive TransportError :=
| Io (kind : IoKind)
| Tls
| TlsAccessDenied
| TlsCertificateUnknown
| TlsRefused
| UnknownJournalAt (u : UnknownJournal)
| Crypto
| MuxFailed (e : MuxError)
| HttpFailed (e : HttpError)
| Json
| PairLinkFailed
| Pairing
| Rejected (status : Z)
| RelayFailed (e : RelayError)
| RelayControlRejected (endpoint : RelayControlEndpoint) (status : Z)
| NoEndpoint
| NotPaired
| LocalOffset.

(** [rank] and [prefer_refusal] *)
Definition rank (e : TransportError) : Z :=
  match e with
  | Io _ | Tls | NoEndpoint => 0
  | UnknownJournalAt _ => 1
  | TlsRefused => 2
  | _ => 3
  end.
Definition prefer_refusal (previous : option TransportError) (next : TransportError) : TransportError :=
  match previous with
  | Some previous => if rank previous >? rank next then previous else next
  | None => next
  end.

Definition endpoint_address (host : str) (port : Z) : str :=
  if existsb (Z.eqb 58) host && negb (match host with 91 :: _ => true | _ => false end)
  then [91] ++ host ++ [93; 58] ++ to_string port
  else host ++ [58] ++ to_string port.

(** [relay_fault_is_transient_err] *)
Definition relay_fault_is_transient_err (e : TransportError) : bool :=
  match e with RelayFailed r => is_transient r | _ => false end.

(** ** Observation ([observe.rs]) *)

Inductive SelectedPath := Direct | Relayed.

Inductive Note :=
| NoteDialAttempt | NoteDirectSuccess | NoteRelaySuccess | NoteRequestBytes (n : Z) | NoteCloseCompleted
| NoteSelectedPath (p : SelectedPath).

Record OperationObserver := mkObserver {
  dial_attempts : Z; direct_successes : Z; relay_successes : Z; request_bytes_sent : Z;
  close_completed : bool; selected_path : option SelectedPath
}.
Definition observer_new : OperationObserver := mkObserver 0 0 0 0 false None.

Definition saturating_inc (v : Z) : Z := saturating_add 64 v 1.
Definition record_note (o : OperationObserver) (n : Note) : OperationObserver :=
  let '(mkObserver d s r b c p) := o in
  match n with
  | NoteDialAttempt => mkObserver (saturating_inc d) s r b c p
  | NoteDirectSuccess => mkObserver d (saturating_inc s) r b c p
  | NoteRelaySuccess => mkObserver d s (saturating_inc r) b c p
  | NoteRequestBytes n => mkObserver d s r (Z.max b n) c p
  | NoteCloseCompleted => mkObserver d s r b true p
  | NoteSelectedPath path => mkObserver d s r b c (Some path)
  end.

(** ** Fence, storage and refresh outcomes *)

Inductive RelayPermit := Allow | Disabled | Retired.
#[export] Instance RelayPermit_eq_dec : EqDecision RelayPermit.
Proof. solve_decision. Defined.

Inductive TokenCommit := Committed (generation : Z) | Unchanged | Indeterminate.

Record TokenCommitContext := mkCommitContext {
  commit_token : str; commit_expires_at : Z; previous_token : str; commit_incarnation : Z
}.

(** The consumer's fence and storage themselves answer actions; the record
    says whether there is a fence. *)
Record TokenPublication := mkPublication { has_fence : bool; incarnation : Z }.

Inductive RefreshAction :=
| RaRedial | RaTerminal | RaTransient | RaRejected | RaIndeterminate | RaFenceDenied (p : RelayPermit).

Inductive RefreshOutcome :=
| Refreshed (device_token : str) (expires_at : Z)
| ReconnectNeeded
| TransientError.

(** ** The client *)

Record EndpointAddr := mkEndpoint { ep_host : str; ep_port : Z }.
#[export] Instance EndpointAddr_eq_dec : EqDecision EndpointAddr.
Proof. solve_decision. Defined.
Record Credential := mkCredential {
  cred_instance_id : str;
  cred_endpoints : list EndpointAddr;
  cred_relay_origin : option str;
  cred_device_token : option str
}.

Record TransportClient := mkClient {
  credential : Credential;
  publication : option TokenPublication;
  token_persist : bool
}.

(** [build]: [tls] is what parsing the certificate, the key and the pin gives. *)
Definition build (tls : res TransportError unit) (c : Credential) (persist : bool) (p : option TokenPublication)
  : res TransportError TransportClient :=
  _ ← tls; Ok (mkClient c p persist).

Definition relay_without_lan (c : Credential) : bool :=
  match cred_relay_origin c, cred_endpoints c with Some _, [] => true | _, _ => false end.

Definition client_new (tls : res TransportError unit) (c : Credential) (persist : bool) : res TransportError TransportClient :=
  if relay_without_lan c then Err Pairing else build tls c persist None.
Definition new_with_publication (tls : res TransportError unit) (c : Credential) (p : TokenPublication)
  : res TransportError TransportClient :=
  if relay_without_lan c then Err Pairing else build tls c false (Some p).

(** [matches!(o.as_deref(), Some(s) if !s.is_empty())] *)
Definition nonempty (o : option str) : bool := match o with Some (_ :: _) => true | _ => false end.

Definition relay_only_checks (c : Credential) : res TransportError unit :=
  match cred_endpoints c with
  | _ :: _ => Err Pairing
  | [] =>
      if negb (nonempty (cred_relay_origin c)) then Err Pairing
      else if negb (nonempty (cred_device_token c)) then Err Pairing
      else Ok tt
  end.
Definition new_relay_only (tls : res TransportError unit) (c : Credential) (persist : bool) : res TransportError TransportClient :=
  _ ← relay_only_checks c; build tls c persist None.
Definition new_relay_only_with_publication (tls : res TransportError unit) (c : Credential) (p : TokenPublication)
  : res TransportError TransportClient :=
  _ ← relay_only_checks c; build tls c false (Some p).

(** [note_dial] on the list of sightings. *)
Fixpoint replace_sighting (u : UnknownJournal) (l : list UnknownJournal) : list UnknownJournal :=
  match l with
  | [] => [u]
  | seen :: l => if bool_decide (uj_address seen = uj_address u) then u :: l else seen :: replace_sighting u l
  end.
Definition note_dial (address : option str) (failure : option TransportError) (sightings : list UnknownJournal)
  : list UnknownJournal :=
  match failure with
  | Some (UnknownJournalAt unknown) => replace_sighting unknown sightings
  | None => filter (fun seen => uj_address seen <> address) sightings
  | Some _ => sightings
  end.

(** ** Programs *)

Inductive action :=
| ADial (e : EndpointAddr)                 (* [dial_tls] *)
| ADialRelay (origin token : str)          (* [dial_relay_carrier] *)
| ARun                                     (* [run_request_over_stream_with_options] *)
| ATermination                             (* [RelayTerminationHandle::current_error] *)
| ANoteDial (address : option str) (failure : option TransportError)
| ASleep (millis : Z)
| ANote (n : Note)
| ANow                                     (* the wall clock, in seconds *)
| APermit (incarnation : Z)                (* [RelayFence::permit] *)
| AIneligible                              (* [relay_ineligible.load] *)
| AGetToken                                (* the live token, under its mutex *)
| ALock                                    (* [refresh_lock.lock_owned] *)
| AUnlock                                  (* dropping its guard *)
| APost (origin token : str)               (* [relay_https_post_json] to /token/refresh *)
| ABlock                                   (* the publication task takes over, with the guard *)
| ACommit (ctx : TokenCommitContext)       (* [TokenTransaction::commit]; [None] when it panics *)
| ASetToken (token : str)
| ALatch                                   (* [relay_ineligible.store(true)] *)
| APersist (token : str) (expires_at : Z)  (* the persist hook *)
| AUnblock.                                (* the publication task ends, dropping the guard *)

(** A dial answers its failure, if any; an exchange or a POST its response or
    failure, the exchange also whether a write had begun. *)
Definition result (a : action) : Type :=
  match a with
  | ADial _ | ADialRelay _ _ => option TransportError
  | ARun => (HttpResponse + TransportError) * bool
  | ATermination => option RelayError
  | ANow => Z
  | APermit _ => RelayPermit
  | AIneligible => bool
  | AGetToken => str
  | APost _ _ => HttpResponse + TransportError
  | ACommit _ => option TokenCommit
  | _ => unit
  end.

Inductive prog (A : Type) : Type :=
| Ret (x : A)
| Act (a : action) (k : result a -> prog A).
Arguments Ret {A} _.
Arguments Act {A} _ _.

Fixpoint prog_bind_ {A B} (f : A -> prog B) (p : prog A) : prog B :=
  match p with
  | Ret x => f x
  | Act a k => Act a (fun r => prog_bind_ f (k r))
  end.
#[export] Instance prog_ret : MRet prog := @Ret.
#[export] Instance prog_bind : MBind prog := @prog_bind_.

Definition do (a : action) : prog (result a) := Act a Ret.

(** ** The fence, eligibility and the live token *)

Definition relay_fence_permit (p : option TokenPublication) : prog (option RelayPermit) :=
  match p with
  | Some p =>
      if has_fence p then
        permit ← do (APermit (incarnation p));
        Ret (if bool_decide (permit = Allow) then None else Some permit)
      else Ret None
  | None => Ret None
  end.

Definition relay_eligible (c : TransportClient) : prog bool :=
  match cred_relay_origin (credential c), cred_device_token (credential c) with
  | Some _, Some _ => ineligible ← do AIneligible; Ret (negb ineligible)
  | _, _ => Ret false
  end.

(** [current_token]: without a device token its [expect] panics. *)
Definition current_token {E} (c : TransportClient) : prog (res E str) :=
  match cred_device_token (credential c) with
  | Some _ => token ← do AGetToken; Ret (Ok token)
  | None => Ret Panic
  end.

(** ** Refreshing the device token ([relay_token.rs]) *)

Section Refresh.
Context {R : RelayPrimitives}.
(** serde's reading of [RefreshResponse]: token, version, expiry. *)
Variable refresh_response : list byte -> option (str * option Z * option str).

Definition expired_reason (body : list byte) : bool :=
  match json_value body with
  | Some v => match value_get (lit "reason") v with
              | Some r => match as_str r with Some s => bool_decide (s = lit "expired") | None => false end
              | None => false
              end
  | None => false
  end.

(** The claims of a refreshed token. *)
Definition refreshed_claims (version : option Z) (token : str) (expiry : option str) (instance_id : str) (current_is_v2 : bool) (now : Z)
  : option JwtClaims :=
  match version with
  | Some v =>
      if v =? 2 then e ← expiry; negotiated_claims 2 token e instance_id now else None
  | None => if current_is_v2 then None else legacy_claims token instance_id now
  end.

Definition refresh_device_token_inner (origin current : str) : prog (res TransportError RefreshOutcome) :=
  now ← do ANow;
  match token_renewal_identity current now with
  | None => Ret (Err Pairing)
  | Some (instance_id, current_is_v2) =>
      response ← do (APost origin current);
      match response with
      | inr e => Ret (Err e)
      | inl response =>
          if is_success response then
            match refresh_response (body response) with
            | None => Ret (Err Pairing)
            | Some (token, version, expiry) =>
                now ← do ANow;
                match refreshed_claims version token expiry instance_id current_is_v2 now with
                | None => Ret (Err Pairing)
                | Some claims => Ret (Ok (Refreshed token (jwt_exp claims)))
                end
            end
          else if (status response =? 401) && expired_reason (body response) then Ret (Ok ReconnectNeeded)
          else if (status response =? 403) || (status response =? 404) then Ret (Ok ReconnectNeeded)
          else Ret (Ok TransientError)
      end
  end.

Definition refresh_device_token (origin current : str) : prog RefreshOutcome :=
  r ← refresh_device_token_inner origin current;
  Ret (match r with Ok outcome => outcome | _ => TransientError end).

(** The body the fence runs; a panicking commit unwinds to the join error. *)
Definition publish_token (p : TokenPublication) (token : str) (expires_at : Z) (old : str) : prog RefreshAction :=
  permit ← (if has_fence p then do (APermit (incarnation p)) else Ret Allow);
  if negb (bool_decide (permit = Allow)) then Ret (RaFenceDenied permit)
  else
    commit ← do (ACommit (mkCommitContext token expires_at old (incarnation p)));
    match commit with
    | Some Unchanged => Ret RaRejected
    | Some Indeterminate => _ ← do ALatch; Ret RaIndeterminate
    | Some (Committed _) => _ ← do (ASetToken token); Ret RaRedial
    | None => Ret RaIndeterminate
    end.

Definition refresh_if_current (c : TransportClient) (origin expected : str) : prog RefreshAction :=
  match cred_device_token (credential c) with
  | None => Ret RaTerminal
  | Some _ =>
      _ ← do ALock;
      live ← do AGetToken;
      if negb (bool_decide (live = expected)) then _ ← do AUnlock; Ret RaRedial
      else
        refresh ← refresh_device_token origin expected;
        match refresh with
        | Refreshed token expires_at =>
            match publication c with
            | Some p =>
                _ ← do ABlock;
                action ← publish_token p token expires_at expected;
                _ ← do AUnblock;
                Ret action
            | None =>
                _ ← do (ASetToken token);
                _ ← (if token_persist c then do (APersist token expires_at) else Ret tt);
                _ ← do AUnlock;
                Ret RaRedial
            end
        | ReconnectNeeded => _ ← do AUnlock; Ret RaTerminal
        | TransientError => _ ← do AUnlock; Ret RaTransient
        end
  end.

Definition token_should_refresh (token : str) (now_secs : Z) : bool :=
  match decode_unverified_claims token with Some claims => should_refresh claims now_secs | None => false end.

(** ** Opening a carrier *)

Inductive CarrierOpenError :=
| CoRelayDisabled | CoRelayRetired | CoPublicationRejected | CoPublicationIndeterminate
| CoTransport (e : TransportError).
Inductive CarrierPolicy := Legacy | Fenced.
Inductive CarrierKind := Lan | ViaRelay.

Definition MAX_ATTEMPTS : nat := 5.
Definition RELAY_MAX_TRANSIENT_ATTEMPTS : Z := 5.

(** [map_fence_permit]: its [unreachable!] panics. *)
Definition map_fence_permit {A} (permit : RelayPermit) : res CarrierOpenError A :=
  match permit with Disabled => Err CoRelayDisabled | Retired => Err CoRelayRetired | Allow => Panic end.

(** What an unsuccessful direct round leaves to retry: [Tls], [UnknownJournal], [Io]. *)
Definition lan_retryable (last : option TransportError) : bool :=
  match last with Some (Tls | UnknownJournalAt _ | Io _) => true | _ => false end.
Definition lan_unreachable (e : TransportError) : bool :=
  match e with Tls | UnknownJournalAt _ | Io _ | NoEndpoint => true | _ => false end.

Definition dial_endpoint (e : EndpointAddr) : prog (option TransportError) :=
  _ ← do (ANote NoteDialAttempt);
  dialed ← do (ADial e);
  _ ← do (ANoteDial (Some (endpoint_address (ep_host e) (ep_port e))) dialed);
  Ret dialed.

(** One pass over the endpoints: [inl] a carrier, or the last error. *)
Fixpoint carrier_endpoints (eps : list EndpointAddr) (last : option TransportError) : prog (CarrierKind + option TransportError) :=
  match eps with
  | [] => Ret (inr last)
  | e :: eps =>
      dialed ← dial_endpoint e;
      match dialed with
      | None =>
          _ ← do (ANote NoteDirectSuccess);
          _ ← do (ANote (NoteSelectedPath Direct));
          Ret (inl Lan)
      | Some error => carrier_endpoints eps (Some (prefer_refusal last error))
      end
  end.

(** The attempts [attempt ..]; the last one sleeps too. *)
Fixpoint carrier_lan (c : TransportClient) (n : nat) (attempt : Z) (last : option TransportError)
  : prog (CarrierKind + option TransportError) :=
  match n with
  | O => Ret (inr last)
  | S n =>
      r ← carrier_endpoints (cred_endpoints (credential c)) last;
      match r with
      | inl k => Ret (inl k)
      | inr last =>
          if lan_retryable last then
            _ ← do (ASleep (250 * (attempt + 1))); carrier_lan c n (attempt + 1) last
          else Ret (inr last)
      end
  end.

(** The refresh outcomes that end a relay dial, by policy; [None] goes on. *)
Definition carrier_proactive (policy : CarrierPolicy) (refresh : RefreshAction) : option (res CarrierOpenError CarrierKind) :=
  match policy, refresh with
  | _, RaTerminal => Some (Err (CoTransport (RelayFailed Unauthorized)))
  | Legacy, _ => None
  | Fenced, (RaRedial | RaTransient) => None
  | Fenced, RaRejected => Some (Err CoPublicationRejected)
  | Fenced, RaIndeterminate => Some (Err CoPublicationIndeterminate)
  | Fenced, RaFenceDenied permit => Some (map_fence_permit permit)
  end.
Definition carrier_reactive (policy : CarrierPolicy) (refresh : RefreshAction) : option (res CarrierOpenError CarrierKind) :=
  match policy, refresh with
  | _, RaRedial => None
  | Legacy, _ | Fenced, (RaTerminal | RaTransient) => Some (Err (CoTransport (RelayFailed Unauthorized)))
  | Fenced, RaRejected => Some (Err CoPublicationRejected)
  | Fenced, RaIndeterminate => Some (Err CoPublicationIndeterminate)
  | Fenced, RaFenceDenied permit => Some (map_fence_permit permit)
  end.

(** The fence as the carrier loop reads it: under [Legacy] it is not asked. *)
Definition carrier_fence (c : TransportClient) (policy : CarrierPolicy) : prog (res CarrierOpenError unit) :=
  match policy with
  | Legacy => Ret (Ok tt)
  | Fenced =>
      denied ← relay_fence_permit (publication c);
      Ret (match denied with Some permit => map_fence_permit permit | None => Ok tt end)
  end.

(** The loop of [dial_carrier_over_relay]; [fuel] bounds it. *)
Fixpoint carrier_relay_loop (c : TransportClient) (policy : CarrierPolicy) (origin : str) (fuel : nat)
  (reactive_refreshed : bool) (transient_attempt : Z) : prog (option (res CarrierOpenError CarrierKind)) :=
  match fuel with
  | O => Ret None
  | S fuel =>
      fence ← carrier_fence c policy;
      match fence with
      | Err e => Ret (Some (Err e))
      | Panic => Ret (Some Panic)
      | Ok _ =>
          _ ← do (ANote NoteDialAttempt);
          token ← current_token (E := TransportError) c;
          match token with
          | Err e => Ret (Some (Err (CoTransport e)))
          | Panic => Ret (Some Panic)
          | Ok token =>
              dialed ← do (ADialRelay origin token);
              _ ← do (ANoteDial None dialed);
              match dialed with
              | None =>
                  _ ← do (ANote NoteRelaySuccess);
                  _ ← do (ANote (NoteSelectedPath Relayed));
                  Ret (Some (Ok ViaRelay))
              | Some (RelayFailed Unauthorized) =>
                  if reactive_refreshed then Ret (Some (Err (CoTransport (RelayFailed Unauthorized))))
                  else
                    refresh ← refresh_if_current c origin token;
                    match carrier_reactive policy refresh with
                    | Some stop => Ret (Some stop)
                    | None => carrier_relay_loop c policy origin fuel true transient_attempt
                    end
              | Some error =>
                  if relay_fault_is_transient_err error then
                    let transient_attempt := transient_attempt + 1 in
                    if RELAY_MAX_TRANSIENT_ATTEMPTS <=? transient_attempt then Ret (Some (Err (CoTransport error)))
                    else
                      _ ← do (ASleep (250 * transient_attempt));
                      carrier_relay_loop c policy origin fuel reactive_refreshed transient_attempt
                  else Ret (Some (Err (CoTransport error)))
              end
          end
      end
  end.

(** Five transient dials and one after a refresh are the most it makes. *)
Definition RELAY_FUEL : nat := 6.

Definition dial_carrier_over_relay (c : TransportClient) (policy : CarrierPolicy) : prog (option (res CarrierOpenError CarrierKind)) :=
  match cred_relay_origin (credential c) with
  | None => Ret (Some (Err (CoTransport NoEndpoint)))
  | Some origin =>
      current ← current_token (E := TransportError) c;
      match current with
      | Err e => Ret (Some (Err (CoTransport e)))
      | Panic => Ret (Some Panic)
      | Ok current =>
          now ← do ANow;
          stop ← (if token_should_refresh current now
                  then refresh ← refresh_if_current c origin current; Ret (carrier_proactive policy refresh)
                  else Ret None);
          match stop with
          | Some stop => Ret (Some stop)
          | None => carrier_relay_loop c policy origin RELAY_FUEL false 0
          end
      end
  end.

Definition establish_carrier (c : TransportClient) (policy : CarrierPolicy) : prog (option (res CarrierOpenError CarrierKind)) :=
  lan ← carrier_lan c MAX_ATTEMPTS 0 None;
  match lan with
  | inl k => Ret (Some (Ok k))
  | inr last =>
      let lan_err := default NoEndpoint last in
      if negb (lan_unreachable lan_err) then Ret (Some (Err (CoTransport lan_err)))
      else
        ineligible ← do AIneligible;
        if (ineligible : bool) then
          Ret (Some (Err (match policy with Fenced => CoPublicationIndeterminate | Legacy => CoTransport lan_err end)))
        else
          eligible ← relay_eligible c;
          if (eligible : bool) then
            fence ← carrier_fence c policy;
            match fence with
            | Ok _ => dial_carrier_over_relay c policy
            | Err e => Ret (Some (Err e))
            | Panic => Ret (Some Panic)
            end
          else Ret (Some (Err (CoTransport lan_err)))
  end.

Definition open_carrier (c : TransportClient) : prog (option (res CarrierOpenError CarrierKind)) := establish_carrier c Fenced.

(** [dial_carrier]: the classified errors are its [unreachable!]. *)
Definition dial_carrier (c : TransportClient) : prog (option (res TransportError CarrierKind)) :=
  r ← establish_carrier c Legacy;
  Ret (match r with
       | Some (Ok k) => Some (Ok k)
       | Some (Err (CoTransport e)) => Some (Err e)
       | Some (Err _) | Some Panic => Some Panic
       | None => None
       end).

(** ** Requests ([request.rs]) *)

Inductive ReplayPolicy := ForbidAfterWrite | ReplaySafe.

Record RequestOutcome := mkOutcome { outcome_response : HttpResponse; outcome_path : SelectedPath; outcome_attempts : Z }.

Inductive RequestError :=
| ReqTransport (e : TransportError)
| ReplayUnsafe (e : TransportError)
| RelayDisabled
| RelayRetired
| PublicationRejected
| PublicationIndeterminate.

Definition relay_close_first (error : TransportError) (relay : option RelayError) : TransportError :=
  match error, relay with
  | (TlsAccessDenied | TlsCertificateUnknown | TlsRefused), Some relay => RelayFailed relay
  | _, _ => error
  end.

Definition transport_error (e : RequestError) : option TransportError :=
  match e with ReqTransport error | ReplayUnsafe error => Some error | _ => None end.

Definition end_on_refusal (error : TransportError) (write_started : bool) : res RequestError TransportError :=
  match error with
  | TlsRefused => Err (if write_started then ReplayUnsafe error else ReqTransport error)
  | MuxFailed CapExceeded | TlsAccessDenied | TlsCertificateUnknown => Err (ReqTransport error)
  | other => Ok other
  end.

Definition check_fence (p : option TokenPublication) : prog (option RequestError) :=
  denied ← relay_fence_permit p;
  Ret (match denied with
       | None | Some Allow => None
       | Some Disabled => Some RelayDisabled
       | Some Retired => Some RelayRetired
       end).

(** Whether a begun write forbids another attempt. *)
Definition write_started (replay : ReplayPolicy) (write_initiated : bool) : bool :=
  write_initiated && match replay with ForbidAfterWrite => true | ReplaySafe => false end.

(** One pass over the endpoints: an answer, or the attempts and the last error. *)
Fixpoint request_endpoints (replay : ReplayPolicy) (eps : list EndpointAddr) (attempts : Z) (last : option TransportError)
  : prog (res RequestError RequestOutcome + Z * option TransportError) :=
  match eps with
  | [] => Ret (inr (attempts, last))
  | e :: eps =>
      let attempts := attempts + 1 in
      dialed ← dial_endpoint e;
      match dialed with
      | Some error => request_endpoints replay eps attempts (Some (prefer_refusal last error))
      | None =>
          '(run, write_initiated) ← do ARun;
          match run with
          | inl response =>
              _ ← do (ANote NoteDirectSuccess);
              _ ← do (ANote (NoteSelectedPath Direct));
              Ret (inl (Ok (mkOutcome response Direct attempts)))
          | inr error =>
              let started := write_started replay write_initiated in
              match end_on_refusal error started with
              | Err stop => Ret (inl (Err stop))
              | Panic => Ret (inl Panic)
              | Ok error =>
                  if started then Ret (inl (Err (ReplayUnsafe error)))
                  else request_endpoints replay eps attempts (Some (prefer_refusal last error))
              end
          end
      end
  end.

Fixpoint request_lan (c : TransportClient) (replay : ReplayPolicy) (n : nat) (attempt attempts : Z) (last : option TransportError)
  : prog (res RequestError RequestOutcome + Z * option TransportError) :=
  match n with
  | O => Ret (inr (attempts, last))
  | S n =>
      r ← request_endpoints replay (cred_endpoints (credential c)) attempts last;
      match r with
      | inl done => Ret (inl done)
      | inr (attempts, last) =>
          if lan_retryable last then
            _ ← (if attempt + 1 <? Z.of_nat MAX_ATTEMPTS then do (ASleep (250 * (attempt + 1))) else Ret tt);
            request_lan c replay n (attempt + 1) attempts last
          else Ret (inr (attempts, last))
      end
  end.

(** The refresh outcomes that end a request. *)
Definition refresh_stops (reactive : bool) (refresh : RefreshAction) : option RequestError :=
  match refresh with
  | RaRedial | RaFenceDenied Allow => None
  | RaTransient => if reactive then Some (ReqTransport (RelayFailed Unauthorized)) else None
  | RaTerminal => Some (ReqTransport (RelayFailed Unauthorized))
  | RaRejected => Some PublicationRejected
  | RaIndeterminate => Some PublicationIndeterminate
  | RaFenceDenied Disabled => Some RelayDisabled
  | RaFenceDenied Retired => Some RelayRetired
  end.

(** What a failed exchange over the relay retries. *)
Definition relay_run_retryable (replay : ReplayPolicy) (error : TransportError) : bool :=
  relay_fault_is_transient_err error ||
  match error, replay with Io _, ReplaySafe => true | _, _ => false end.

Fixpoint request_relay_loop (c : TransportClient) (replay : ReplayPolicy) (origin : str) (fuel : nat)
  (attempts : Z) (reactive_refreshed : bool) (transient_attempt : Z) : prog (option (res RequestError RequestOutcome)) :=
  match fuel with
  | O => Ret None
  | S fuel =>
      fence ← check_fence (publication c);
      match fence with
      | Some e => Ret (Some (Err e))
      | None =>
          token ← current_token (E := RequestError) c;
          match token with
          | Err e => Ret (Some (Err e))
          | Panic => Ret (Some Panic)
          | Ok token =>
              let attempts := attempts + 1 in
              _ ← do (ANote NoteDialAttempt);
              dialed ← do (ADialRelay origin token);
              _ ← do (ANoteDial None dialed);
              match dialed with
              | None =>
                  '(run, write_initiated) ← do ARun;
                  match run with
                  | inl response =>
                      _ ← do (ANote NoteRelaySuccess);
                      _ ← do (ANote (NoteSelectedPath Relayed));
                      Ret (Some (Ok (mkOutcome response Relayed attempts)))
                  | inr error =>
                      termination ← do ATermination;
                      let error := relay_close_first error termination in
                      let started := write_started replay write_initiated in
                      match end_on_refusal error started with
                      | Err stop => Ret (Some (Err stop))
                      | Panic => Ret (Some Panic)
                      | Ok error =>
                          if started then Ret (Some (Err (ReplayUnsafe error)))
                          else if relay_run_retryable replay error then
                            let transient_attempt := transient_attempt + 1 in
                            if RELAY_MAX_TRANSIENT_ATTEMPTS <=? transient_attempt then Ret (Some (Err (ReqTransport error)))
                            else
                              _ ← do (ASleep (250 * transient_attempt));
                              request_relay_loop c replay origin fuel attempts reactive_refreshed transient_attempt
                          else Ret (Some (Err (ReqTransport error)))
                      end
                  end
              | Some (RelayFailed Unauthorized) =>
                  if reactive_refreshed then Ret (Some (Err (ReqTransport (RelayFailed Unauthorized))))
                  else
                    refresh ← refresh_if_current c origin token;
                    match refresh_stops true refresh with
                    | Some stop => Ret (Some (Err stop))
                    | None => request_relay_loop c replay origin fuel attempts true transient_attempt
                    end
              | Some error =>
                  if relay_fault_is_transient_err error then
                    let transient_attempt := transient_attempt + 1 in
                    if RELAY_MAX_TRANSIENT_ATTEMPTS <=? transient_attempt then Ret (Some (Err (ReqTransport error)))
                    else
                      _ ← do (ASleep (250 * transient_attempt));
                      request_relay_loop c replay origin fuel attempts reactive_refreshed transient_attempt
                  else Ret (Some (Err (ReqTransport error)))
              end
          end
      end
  end.

(** The relay fallback of [request]. *)
Definition request_over_relay (c : TransportClient) (replay : ReplayPolicy) (attempts : Z)
  : prog (option (res RequestError RequestOutcome)) :=
  match cred_relay_origin (credential c) with
  | None => Ret (Some (Err (ReqTransport NoEndpoint)))
  | Some origin =>
      current ← current_token (E := RequestError) c;
      match current with
      | Err e => Ret (Some (Err e))
      | Panic => Ret (Some Panic)
      | Ok current =>
          now ← do ANow;
          stop ← (if token_should_refresh current now
                  then refresh ← refresh_if_current c origin current; Ret (refresh_stops false refresh)
                  else Ret None);
          match stop with
          | Some stop => Ret (Some (Err stop))
          | None => request_relay_loop c replay origin RELAY_FUEL attempts false 0
          end
      end
  end.

Definition request (c : TransportClient) (replay : ReplayPolicy) : prog (option (res RequestError RequestOutcome)) :=
  lan ← request_lan c replay MAX_ATTEMPTS 0 0 None;
  match lan with
  | inl done => Ret (Some done)
  | inr (attempts, last) =>
      let lan_err := default NoEndpoint last in
      if negb (lan_unreachable lan_err) then Ret (Some (Err (ReqTransport lan_err)))
      else
        ineligible ← do AIneligible;
        if (ineligible : bool) then Ret (Some (Err PublicationIndeterminate))
        else
          eligible ← relay_eligible c;
          if (eligible : bool) then request_over_relay c replay attempts
          else Ret (Some (Err (ReqTransport lan_err)))
  end.

End Refresh.
