(* ===== verification/ClientRun.v ===== *)
(** * The transport client: what its operations do

    Every run of the trees of [Client.v], whatever the surroundings answer: how
    often a request is written, how many dials and how much sleeping an operation
    costs, when the relay may be used; then many operations over one shared token,
    lock and eligibility latch, with cancellation. *)

From S2P Require Import Prelude Text Frame Http Window Relay Client.

(** ** Runs *)

Inductive event := Ev (a : action) (r : result a).

(** [does p tr x]: with some answers, [p] performs [tr] and returns [x]. *)
Fixpoint does {A} (p : prog A) (tr : list event) (x : A) : Prop :=
  match p with
  | Ret y => tr = [] /\ x = y
  | Act a k => exists r rest, tr = Ev a r :: rest /\ does (k r) rest x
  end.

(** The run against surroundings that answer from the history. *)
Definition strategy := forall (history : list event) (a : action), result a.
Fixpoint run {A} (env : strategy) (p : prog A) (history : list event) : list event * A :=
  match p with
  | Ret x => ([], x)
  | Act a k =>
      let r := env history a in
      let '(tr, x) := run env (k r) (history ++ [Ev a r]) in
      (Ev a r :: tr, x)
  end.

Lemma run_does {A} env (p : prog A) history : does p (fst (run env p history)) (snd (run env p history)).
Proof.
  revert history. induction p as [x|a k IH]; intros history; cbn [run does]; [done|].
  specialize (IH (env history a) (history ++ [Ev a (env history a)])).
  destruct (run _ _ _) as [tr x]. eexists _, _. split; [done|exact IH].
Qed.

Lemma does_bind {A B} (p : prog A) (f : A -> prog B) tr y :
  does (p ≫= f) tr y <-> exists t1 t2 x, tr = t1 ++ t2 /\ does p t1 x /\ does (f x) t2 y.
Proof.
  unfold mbind, prog_bind. revert tr. induction p as [x|a k IH]; intros tr; cbn [prog_bind_ does].
  - split; [intros H; by exists [], tr, x | by intros (? & ? & ? & -> & [-> ->] & ?)].
  - split.
    + intros (r & rest & -> & H). apply IH in H as (t1 & t2 & x & -> & ? & ?).
      exists (Ev a r :: t1), t2, x. split_and!; [done| |done]. eauto.
    + intros (t1 & t2 & x & -> & (r & rest & -> & ?) & ?). exists r, (rest ++ t2). split; [done|]. apply IH. eauto 6.
Qed.

Lemma does_then {A B} (p : prog A) (f : A -> prog B) t1 t2 x y :
  does p t1 x -> does (f x) t2 y -> does (p ≫= f) (t1 ++ t2) y.
Proof. intros. apply does_bind. eauto 6. Qed.
Lemma does_act {B} a r (f : result a -> prog B) rest y :
  does (f r) rest y -> does (do a ≫= f) (Ev a r :: rest) y.
Proof. intros H. by exists r, rest. Qed.

Lemma does_do a (tr : list event) (x : result a) : does (do a) tr x <-> tr = [Ev a x].
Proof. cbn. split; [by intros (r & rest & -> & -> & ->)|intros ->; by exists x, []]. Qed.

Lemma does_do_bind {B} a (f : result a -> prog B) tr y :
  does (do a ≫= f) tr y <-> exists r rest, tr = Ev a r :: rest /\ does (f r) rest y.
Proof. done. Qed.

(** ** Programs that perform only certain actions *)

Fixpoint only {A} (P : action -> Prop) (p : prog A) : Prop :=
  match p with
  | Ret _ => True
  | Act a k => P a /\ forall r, only P (k r)
  end.

Lemma only_bind {A B} P (p : prog A) (f : A -> prog B) : only P p -> (forall x, only P (f x)) -> only P (p ≫= f).
Proof.
  unfold mbind, prog_bind. induction p as [x|a k IH]; cbn [prog_bind_ only]; [naive_solver|].
  intros [Ha Hk] Hf. split; [done|]. intros r. by apply IH.
Qed.

Lemma only_do_bind {B} P a (f : result a -> prog B) : P a -> (forall r, only P (f r)) -> only P (do a ≫= f).
Proof. done. Qed.

Definition act_of (e : event) : action := let 'Ev a _ := e in a.

Lemma only_does {A} P (p : prog A) tr x : only P p -> does p tr x -> Forall (fun e => P (act_of e)) tr.
Proof.
  revert tr. induction p as [y|a k IH]; intros tr; cbn [only does].
  - intros _ [-> _]. constructor.
  - intros [Ha Hk] (r & rest & -> & H). constructor; [done|]. by eapply IH.
Qed.

(** Walk a program whose branches are all of the same kind. *)
Ltac only_step :=
  match goal with
  | |- only _ (Ret _) => exact I
  | |- only _ (do _) => split; [done|intros; exact I]
  | |- only _ (do _ ≫= _) => apply only_do_bind; [done|intros ?]
  | |- only _ (_ ≫= _) => apply only_bind; [|intros ?]
  | |- only _ (if ?b then _ else _) => destruct b
  | |- only _ (match ?x with _ => _ end) => destruct x
  end.
Ltac only_all := repeat only_step.

(** ** What is counted *)

Definition is_dial (e : event) : bool := match e with Ev (ADial _) _ | Ev (ADialRelay _ _) _ => true | _ => false end.
Definition is_run (e : event) : bool := match e with Ev ARun _ => true | _ => false end.
(** An exchange in which a request frame began to be written. *)
Definition wrote (e : event) : bool := match e with Ev ARun r => snd r | _ => false end.
Definition slept (e : event) : Z := match e with Ev (ASleep m) _ => m | _ => 0 end.
Definition noted (e : event) : bool := match e with Ev (ANote NoteDialAttempt) _ => true | _ => false end.

Definition tally (f : event -> bool) (tr : list event) : Z := zsum (fun e => if f e then 1 else 0) tr.
Definition dials := tally is_dial.
Definition sleep_total (tr : list event) : Z := zsum slept tr.

Lemma tally_app f a b : tally f (a ++ b) = tally f a + tally f b.
Proof. unfold tally. apply zsum_app. Qed.
Lemma tally_cons f e a : tally f (e :: a) = (if f e then 1 else 0) + tally f a.
Proof. done. Qed.
Lemma sleep_app a b : sleep_total (a ++ b) = sleep_total a + sleep_total b.
Proof. unfold sleep_total. apply zsum_app. Qed.
Lemma tally_none f tr : Forall (fun e => f e = false) tr -> tally f tr = 0.
Proof. induction 1 as [|e tr He _ IH]; [done|]. rewrite tally_cons, He, IH. done. Qed.

(** The three measures of an operation's cost. *)
Record costs (tr : list event) (d s : Z) : Prop := {
  cost_dials : dials tr = d; cost_noted : tally noted tr = d; cost_sleep : sleep_total tr = s
}.
Lemma costs_app a b d s d' s' : costs a d s -> costs b d' s' -> costs (a ++ b) (d + d') (s + s').
Proof.
  intros [? ? ?] [? ? ?]. split; unfold dials in *; rewrite ?tally_app, ?sleep_app; lia.
Qed.
Lemma costs_nil : costs [] 0 0. Proof. done. Qed.

(** Actions that neither dial, exchange, sleep nor note a dial. *)
Definition aside (a : action) : Prop :=
  match a with ADial _ | ADialRelay _ _ | ARun | ASleep _ | ANote NoteDialAttempt => False | _ => True end.
Abbreviation all_aside := (Forall (fun e => aside (act_of e))).

Lemma aside_costs tr : all_aside tr -> costs tr 0 0.
Proof.
  intros H. split; unfold dials, sleep_total.
  - apply tally_none. eapply list.Forall_impl; [exact H|]. by intros [[] ?].
  - apply tally_none. eapply list.Forall_impl; [exact H|]. intros [[| | | | | |[]| | | | | | | | | | | | |] ?]; done.
  - induction H as [|[[] ?] tr He _ IH]; try done; cbn in *; lia.
Qed.
Lemma aside_unwritten tr : all_aside tr -> Forall (fun e => wrote e = false) tr.
Proof. intros H. eapply list.Forall_impl; [exact H|]. by intros [[] ?]. Qed.
Lemma aside_quiet tr : all_aside tr -> Forall (fun e => is_dial e = false /\ is_run e = false) tr.
Proof. intros H. eapply list.Forall_impl; [exact H|]. by intros [[] ?]. Qed.

(** ** Read a run off its tree *)

Ltac does_inv :=
  repeat first
    [ progress cbn [ok_or] in *
    | match goal with
      | H : does (do _ ≫= _) _ _ |- _ => apply (proj1 (does_do_bind _ _ _ _)) in H; destruct H as (? & ? & -> & H); cbv beta in H
      | H : does (do _) _ _ |- _ => apply (proj1 (does_do _ _ _)) in H; subst
      | H : does (_ ≫= _) _ _ |- _ => apply (proj1 (does_bind _ _ _ _)) in H; destruct H as (? & ? & ? & -> & ? & H); cbv beta in H
      | H : does (Ret _) _ _ |- _ => destruct H as [-> H]; subst
      | H : does (if ?b then _ else _) _ _ |- _ => destruct b eqn:?
      | H : does (match ?x with _ => _ end) _ _ |- _ => destruct x eqn:?
      end ].

Section Operations.
Context {R : RelayPrimitives}.
Variable refresh_response : list byte -> option (str * option Z * option str).
Variable c : TransportClient.
Abbreviation refresh_if_current := (refresh_if_current refresh_response).

Lemma fence_aside p : only aside (relay_fence_permit p).
Proof. unfold relay_fence_permit. only_all. Qed.
Lemma current_aside E : only aside (current_token (E := E) c).
Proof. unfold current_token. only_all. Qed.
Lemma refresh_aside origin expected : only aside (refresh_if_current c origin expected).
Proof.
  unfold Client.refresh_if_current, refresh_device_token, refresh_device_token_inner, publish_token. only_all.
Qed.
Lemma eligible_aside : only aside (relay_eligible c).
Proof. unfold relay_eligible. only_all. Qed.
Lemma check_fence_aside p : only aside (check_fence p).
Proof. unfold check_fence. apply only_bind; [apply fence_aside|]. intros. only_all. Qed.
Lemma carrier_fence_aside policy : only aside (carrier_fence c policy).
Proof. unfold carrier_fence. destruct policy; [only_all|]. apply only_bind; [apply fence_aside|]. intros. only_all. Qed.

Lemma dial_endpoint_does e tr r :
  does (dial_endpoint e) tr r ->
  tr = [Ev (ANote NoteDialAttempt) tt; Ev (ADial e) r; Ev (ANoteDial (Some (endpoint_address (ep_host e) (ep_port e))) r) tt].
Proof. unfold dial_endpoint. intros H. does_inv. by repeat match goal with x : result (ANote _) |- _ => destruct x | x : result (ANoteDial _ _) |- _ => destruct x end. Qed.
(** ** Written at most once *)

Definition unwritten (tr : list event) : Prop := Forall (fun e => wrote e = false) tr.

(** How an exchange that wrote may end the request. *)
Definition ends_with (o : HttpResponse + TransportError) (r : res RequestError RequestOutcome) : Prop :=
  match o, r with
  | inl response, Ok out => outcome_response out = response
  | inr _, Err (ReplayUnsafe _) => True
  | inr e, Err (ReqTransport e') => e' = e /\ (e = TlsAccessDenied \/ e = TlsCertificateUnknown \/ e = MuxFailed CapExceeded)
  | _, _ => False
  end.

(** The one exchange that wrote is the last thing dialed or exchanged. *)
Definition final_write (tr : list event) (r : res RequestError RequestOutcome) : Prop :=
  exists pre o post, tr = pre ++ Ev ARun (o, true) :: post /\ unwritten pre /\
    Forall (fun e => is_dial e = false /\ is_run e = false) post /\ ends_with o r.

Definition written_once (tr : list event) (r : res RequestError RequestOutcome) : Prop := unwritten tr \/ final_write tr r.

Lemma written_once_app a b r : unwritten a -> written_once b r -> written_once (a ++ b) r.
Proof.
  intros Ha [Hb|(pre & o & post & -> & Hp & Hq & He)].
  - left. by apply list.Forall_app.
  - right. exists (a ++ pre), o, post. split_and!; [by rewrite app_assoc|by apply list.Forall_app|done|done].
Qed.

Lemma written_last o flag post r :
  Forall (fun e => is_dial e = false /\ is_run e = false) post -> (flag = true -> ends_with o r) ->
  written_once (Ev ARun (o, flag) :: post) r.
Proof.
  intros Hp He. destruct flag.
  - right. exists [], o, post. split_and!; [done|constructor|done|by apply He].
  - left. apply List.Forall_cons; [done|]. eapply list.Forall_impl; [exact Hp|]. intros [[] ?] [? ?]; done.
Qed.

Lemma end_on_refusal_err error started stop :
  end_on_refusal error started = Err stop ->
  (stop = ReplayUnsafe error /\ started = true) \/
  (stop = ReqTransport error /\ (started = true -> error = TlsAccessDenied \/ error = TlsCertificateUnknown \/ error = MuxFailed CapExceeded)).
Proof.
  destruct error as [| | | | | | |[]| | | | | | | | | |]; cbn; try done; intros [= <-]; destruct started; naive_solver.
Qed.
Lemma end_on_refusal_ok error started e : end_on_refusal error started = Ok e -> e = error.
Proof. destruct error as [| | | | | | |[]| | | | | | | | | |]; cbn; congruence. Qed.
Lemma end_on_refusal_total error started : end_on_refusal error started <> Panic.
Proof. by destruct error as [| | | | | | |[]| | | | | | | | | |]. Qed.

(** What a pass over the direct endpoints comes to, from [attempts] on. *)
Definition lan_spec (replay : ReplayPolicy) (attempts : Z) (tr : list event) (d s : Z)
  (r : res RequestError RequestOutcome + Z * option TransportError) : Prop :=
  exists n m, costs tr n m /\ 0 <= n <= d /\ 0 <= m <= s /\
  match r with
  | inl done =>
      (replay = ForbidAfterWrite -> written_once tr done) /\ done <> Panic /\
      (forall o, done = Ok o -> outcome_attempts o = attempts + n)
  | inr (attempts', _) => attempts' = attempts + n /\ (replay = ForbidAfterWrite -> unwritten tr)
  end.

Lemma lan_spec_app replay attempts attempts' t1 t2 n d d' s m s' r :
  costs t1 n m -> 0 <= n <= d -> 0 <= m <= s -> attempts' = attempts + n -> (replay = ForbidAfterWrite -> unwritten t1) ->
  lan_spec replay attempts' t2 d' s' r -> lan_spec replay attempts (t1 ++ t2) (d + d') (s + s') r.
Proof.
  intros Hc Hn Hm -> Hu (n' & m' & Hc' & Hn' & Hm' & H). exists (n + n'), (m + m').
  split_and!; [by apply costs_app|lia..|]. destruct r as [done|[a' last]].
  - destruct H as (Hw & Hp & Ho). split_and!; [|done|intros o Hd; rewrite (Ho o Hd); lia].
    intros Hf. apply written_once_app; [by apply Hu|by apply Hw].
  - destruct H as [-> Hw]. split; [lia|]. intros Hf. apply list.Forall_app. split; [by apply Hu|by apply Hw].
Qed.

Lemma request_endpoints_spec replay eps attempts last tr r :
  does (request_endpoints replay eps attempts last) tr r -> lan_spec replay attempts tr (len eps) 0 r.
Proof.
  revert attempts last tr. induction eps as [|e eps IH]; intros attempts last tr H; cbn [request_endpoints] in H.
  { destruct H as [-> ->]. exists 0, 0. split_and!; [done|lia..|]. intros _. constructor. }
  apply does_bind in H as (t1 & t2 & dialed & -> & Hd & H). apply dial_endpoint_does in Hd as ->.
  replace (len (e :: eps)) with (1 + len eps) by (cbn [length]; lia).
  assert (Hnext : forall t last, (replay = ForbidAfterWrite -> unwritten t) -> costs t 1 0 -> forall t', does (request_endpoints replay eps (attempts + 1) last) t' r ->
    lan_spec replay attempts (t ++ t') (1 + len eps) 0 r).
  { intros t l Hu Hc t' Ht'. change 0 with (0 + 0). by eapply lan_spec_app; [done|lia|lia|done|exact Hu|apply (IH _ _ _ Ht')]. }
  destruct dialed as [error|].
  { eapply Hnext; [|done|exact H]. intros _. repeat (apply List.Forall_cons; [done|]). constructor. }
  apply (proj1 (does_do_bind _ _ _ _)) in H as ([o flag] & t3 & -> & H).
  set (head := [_; _; _]). assert (Hh : unwritten head) by (repeat (apply List.Forall_cons; [done|]); constructor).
  assert (Hstop : forall t done, Forall (fun e => is_dial e = false /\ is_run e = false) t -> costs t 0 0 ->
    (replay = ForbidAfterWrite -> flag = true -> ends_with o done) -> done <> Panic ->
    (forall x, done = Ok x -> outcome_attempts x = attempts + 1) ->
    lan_spec replay attempts (head ++ Ev ARun (o, flag) :: t) (1 + len eps) 0 (inl done)).
  { intros t done Ht Hc He Hp Ho. exists 1, 0. split_and!; [|lia..| |done|done].
    - apply (costs_app head (Ev ARun (o, flag) :: t) 1 0 0 0); [done|]. by apply (costs_app [_] t 0 0 0 0).
    - intros Hf. apply written_once_app; [done|]. apply written_last; [done|]. by apply He. }
  destruct o as [response|error].
  - does_inv. apply Hstop; [|done| |done|by intros ? [= <-]]; [repeat (apply List.Forall_cons; [done|]); constructor|done].
  - pose proof (end_on_refusal_total error (write_started replay flag)) as Hnp.
    destruct (end_on_refusal error (write_started replay flag)) as [e'|stop|] eqn:Ee; [|does_inv|done].
    + apply end_on_refusal_ok in Ee as ->. destruct (write_started replay flag) eqn:Ew.
      * does_inv. apply Hstop; [constructor|done|done|done|done].
      * change (head ++ Ev ARun (inr error, flag) :: t3) with (head ++ [Ev ARun (inr error, flag)] ++ t3).
        rewrite app_assoc. eapply Hnext; [|done|exact H].
        intros ->. apply list.Forall_app. split; [done|]. apply List.Forall_cons; [|constructor].
        by destruct flag.
    + apply Hstop; [constructor|done| |done|done]. intros -> ->. cbn in Ee.
      apply end_on_refusal_err in Ee as [[-> _]|[-> He]]; [done|]. split; [done|]. by apply He.
Qed.

(** The sleeps of the direct attempts from [attempt] on. *)
Fixpoint lan_sleep (n : nat) (attempt : Z) : Z :=
  match n with
  | O => 0
  | S n => (if attempt + 1 <? Z.of_nat MAX_ATTEMPTS then 250 * (attempt + 1) else 0) + lan_sleep n (attempt + 1)
  end.
Lemma lan_sleep_nonneg n attempt : 0 <= attempt -> 0 <= lan_sleep n attempt.
Proof. revert attempt. induction n as [|n IH]; intros a Ha; cbn [lan_sleep]; [lia|]. specialize (IH (a + 1)). case_match; lia. Qed.

Lemma lan_spec_mono replay attempts tr d s d' s' r :
  lan_spec replay attempts tr d s r -> d <= d' -> s <= s' -> lan_spec replay attempts tr d' s' r.
Proof. intros (n & m & ? & ? & ? & H) ? ?. exists n, m. split_and!; [done|lia..|done]. Qed.

Lemma request_lan_spec replay n attempt attempts last tr r :
  0 <= attempt -> does (request_lan c replay n attempt attempts last) tr r ->
  lan_spec replay attempts tr (Z.of_nat n * len (cred_endpoints (credential c))) (lan_sleep n attempt) r.
Proof.
  set (k := len (cred_endpoints (credential c))). assert (Hk : 0 <= k) by lia.
  revert attempt attempts last tr. induction n as [|n IH]; intros attempt attempts last tr Ha H; cbn [request_lan lan_sleep] in *.
  { destruct H as [-> ->]. exists 0, 0. split_and!; [done|lia..|]. intros _. constructor. }
  apply does_bind in H as (t1 & t2 & x & -> & Hx & H). apply request_endpoints_spec in Hx. fold k in Hx.
  pose proof (lan_sleep_nonneg n (attempt + 1) ltac:(lia)).
  destruct x as [done|[attempts' last']].
  { destruct H as [-> ->]. rewrite app_nil_r. eapply lan_spec_mono; [exact Hx|nia|case_match; lia]. }
  destruct Hx as (d & s & Hc & Hd & Hs & -> & Hu). destruct (lan_retryable last').
  2: { destruct H as [-> ->]. rewrite app_nil_r. exists d, s. split_and!; [done|lia|nia|lia|case_match; lia|done|done]. }
  replace (Z.of_nat (S n) * k) with (k + Z.of_nat n * k) by lia.
  apply does_bind in H as (t2' & t3 & [] & -> & Hsl & H). apply IH in H; [|lia].
  set (pause := if attempt + 1 <? Z.of_nat MAX_ATTEMPTS then _ else 0) in *.
  assert (Hp : costs t2' 0 pause /\ unwritten t2' /\ 0 <= pause).
  { unfold pause. destruct (attempt + 1 <? Z.of_nat MAX_ATTEMPTS); [apply (proj1 (does_do _ _ _)) in Hsl as -> | destruct Hsl as [-> _]].
    - split_and!; [|repeat constructor|lia]. split; [done|done|]. unfold sleep_total. rewrite zsum_cons. cbn [slept zsum foldr]. lia.
    - split_and!; [done|constructor|lia]. }
  destruct Hp as (Hp & Hpu & Hpp). rewrite app_assoc.
  eapply (lan_spec_app _ _ (attempts + d) _ _ d); [ | |  |lia| |exact H].
  - pose proof (costs_app _ _ _ _ _ _ Hc Hp) as Hcp. by rewrite Z.add_0_r in Hcp.
  - lia.
  - lia.
  - intros Hf. apply list.Forall_app. split; [by apply Hu|done].
Qed.

(** The sleeps of the relay loop once [k] transient failures have counted. *)
Definition relay_sleep (k : Z) : Z := zsum (fun i => 250 * i) (seqZ (k + 1) (4 - k)).
Lemma relay_sleep_step k : 0 <= k < 4 -> relay_sleep k = 250 * (k + 1) + relay_sleep (k + 1).
Proof.
  intros Hk. unfold relay_sleep. rewrite (seqZ_cons (k + 1)) by lia. rewrite zsum_cons.
  replace (Z.succ (k + 1)) with (k + 1 + 1) by lia. by replace (Z.pred (4 - k)) with (4 - (k + 1)) by lia.
Qed.
Lemma relay_sleep_nonneg k : 0 <= k -> 0 <= relay_sleep k.
Proof. intros Hk. apply zsum_nonneg, list.Forall_forall. intros i Hi. apply elem_of_seqZ in Hi. lia. Qed.

(** What is left of the relay loop comes to. *)
Definition relay_spec (replay : ReplayPolicy) (attempts : Z) (tr : list event) (d s : Z)
  (r : option (res RequestError RequestOutcome)) : Prop :=
  exists done, r = Some done /\ lan_spec replay attempts tr d s (inl done).

Lemma relay_spec_app replay attempts attempts' t1 t2 n d d' s m s' r :
  costs t1 n m -> 0 <= n <= d -> 0 <= m <= s -> attempts' = attempts + n -> (replay = ForbidAfterWrite -> unwritten t1) ->
  relay_spec replay attempts' t2 d' s' r -> relay_spec replay attempts (t1 ++ t2) (d + d') (s + s') r.
Proof. intros ? ? ? ? ? (done & -> & H). exists done. split; [done|]. by eapply lan_spec_app. Qed.

Lemma relay_stop replay attempts tr n s done :
  costs tr n 0 -> 0 <= n -> 0 <= s -> (replay = ForbidAfterWrite -> written_once tr done) -> done <> Panic ->
  (forall o, done = Ok o -> outcome_attempts o = attempts + n) -> relay_spec replay attempts tr n s (Some done).
Proof. intros ? ? ? ? ? ?. exists done. split; [done|]. exists n, 0. split_and!; [done|lia..|done|done|done]. Qed.

Lemma relay_spec_mono replay attempts tr d s d' s' r :
  relay_spec replay attempts tr d s r -> d <= d' -> s <= s' -> relay_spec replay attempts tr d' s' r.
Proof. intros (done & -> & H) ? ?. exists done. split; [done|]. by eapply lan_spec_mono. Qed.

Section WithToken.
Hypothesis Htoken : is_Some (cred_device_token (credential c)).

Lemma current_does {E} tr r :
  does (current_token (E := E) c) tr r -> exists t, r = Ok t /\ tr = [Ev AGetToken t].
Proof. unfold current_token. destruct Htoken as [? ->]. intros H. does_inv. by eexists. Qed.

Lemma aside_facts tr : all_aside tr -> costs tr 0 0 /\ unwritten tr /\ Forall (fun e => is_dial e = false /\ is_run e = false) tr.
Proof. intros H. split_and!; [by apply aside_costs|by apply aside_unwritten|by apply aside_quiet]. Qed.

Lemma sleep_costs m : costs [Ev (ASleep m) tt] 0 m.
Proof. split; [done|done|]. unfold sleep_total. rewrite zsum_cons. cbn [slept zsum foldr]. lia. Qed.

(** *** One turn of the relay loop

    [head] is what a turn performs up to the outcome of its dial, and [rest] what
    the remaining turns promise. *)
Section Turn.
Variables (replay : ReplayPolicy) (attempts k : Z) (reactive : bool) (head : list event) (r : option (res RequestError RequestOutcome)).
Variable rest : Z -> bool -> Z -> prog (option (res RequestError RequestOutcome)).
Definition turn_budget (reactive : bool) (k : Z) : Z := 5 - k + (if reactive then 0 else 1).
Hypothesis Hk : 0 <= k <= 4.
Hypothesis Hcosts : costs head 1 0.
Hypothesis Hunwritten : unwritten head.
Hypothesis Hrest : forall reactive' k' t, 0 <= k' <= 4 -> 1 + turn_budget reactive' k' <= turn_budget reactive k ->
  does (rest (attempts + 1) reactive' k') t r -> relay_spec replay (attempts + 1) t (turn_budget reactive' k') (relay_sleep k') r.
Abbreviation turn_spec tr r := (relay_spec replay attempts tr (turn_budget reactive k) (relay_sleep k) r).

Lemma turn_stop t done :
  costs t 0 0 -> (replay = ForbidAfterWrite -> written_once t done) -> done <> Panic ->
  (forall o, done = Ok o -> outcome_attempts o = attempts + 1) -> turn_spec (head ++ t) (Some done).
Proof using Hk Hcosts Hunwritten.
  clear Hrest rest r.
  intros Ht Hw Hp Ho. pose proof (relay_sleep_nonneg k ltac:(lia)).
  eapply relay_spec_mono; [apply (relay_stop _ _ _ 1 0)|unfold turn_budget; case_match; lia|done]; [|lia|lia| |done|done].
  - by apply (costs_app head t 1 0 0 0).
  - intros Hf. apply written_once_app; [done|by apply Hw].
Qed.

Lemma turn_stop_error t e : costs t 0 0 -> (replay = ForbidAfterWrite -> unwritten t) -> turn_spec (head ++ t) (Some (Err e)).
Proof using Hk Hcosts Hunwritten. clear Hrest rest r. intros Ht Hu. apply turn_stop; [done| |done|done]. intros Hf. left. by apply Hu. Qed.

Lemma turn_go t t' reactive' k' m :
  costs t 0 m -> 0 <= m -> (replay = ForbidAfterWrite -> unwritten t) ->
  0 <= k' <= 4 -> 1 + turn_budget reactive' k' <= turn_budget reactive k -> m + relay_sleep k' <= relay_sleep k ->
  does (rest (attempts + 1) reactive' k') t' r -> turn_spec (head ++ t ++ t') r.
Proof.
  intros Ht Hm Hu Hk' Hb Hsl Hd. apply Hrest in Hd; [|done|done].
  rewrite app_assoc. eapply relay_spec_mono; [eapply (relay_spec_app _ _ (attempts + 1) _ _ 1 1 _ m m)|exact Hb|exact Hsl]; [|lia|lia|done| |exact Hd].
  - by apply (costs_app head t 1 0 0 m).
  - intros Hf. apply list.Forall_app. split; [done|by apply Hu].
Qed.

(** A transient failure ends the loop or sleeps and goes on. *)
Lemma turn_retry t error t' :
  costs t 0 0 -> (replay = ForbidAfterWrite -> unwritten t) ->
  does (if RELAY_MAX_TRANSIENT_ATTEMPTS <=? k + 1 then Ret (Some (Err (ReqTransport error)))
        else _ ← do (ASleep (250 * (k + 1))); rest (attempts + 1) reactive (k + 1)) t' r ->
  turn_spec (head ++ t ++ t') r.
Proof.
  intros Ht Hu Hd. destruct (RELAY_MAX_TRANSIENT_ATTEMPTS <=? k + 1) eqn:Ek; unfold RELAY_MAX_TRANSIENT_ATTEMPTS in Ek.
  - destruct Hd as [-> ->]. rewrite app_nil_r. by apply turn_stop_error.
  - apply (proj1 (does_do_bind _ _ _ _)) in Hd as ([] & t8 & -> & Hd).
    change (t ++ Ev (ASleep (250 * (k + 1))) () :: t8) with (t ++ [Ev (ASleep (250 * (k + 1))) ()] ++ t8). rewrite (app_assoc t).
    eapply (turn_go _ _ reactive (k + 1) (250 * (k + 1))); [|lia| |lia|unfold turn_budget; lia| |exact Hd].
    + apply (costs_app t _ 0 0 0); [done|apply sleep_costs].
    + intros Hf. apply list.Forall_app. split; [by apply Hu|by repeat constructor].
    + rewrite (relay_sleep_step k) by lia. lia.
Qed.

(** The exchange failed. *)
Lemma turn_failed_run error flag term t9 :
  does (match end_on_refusal (relay_close_first error term) (write_started replay flag) with
        | Err stop => Ret (Some (Err stop))
        | Panic => Ret (Some Panic)
        | Ok e =>
            if write_started replay flag then Ret (Some (Err (ReplayUnsafe e)))
            else if relay_run_retryable replay e then
              (if RELAY_MAX_TRANSIENT_ATTEMPTS <=? k + 1 then Ret (Some (Err (ReqTransport e)))
               else _ ← do (ASleep (250 * (k + 1))); rest (attempts + 1) reactive (k + 1))
            else Ret (Some (Err (ReqTransport e)))
        end) t9 r ->
  turn_spec (head ++ Ev ARun (inr error, flag) :: Ev ATermination term :: t9) r.
Proof.
  set (e' := relay_close_first error term). intros H. pose proof (end_on_refusal_total e' (write_started replay flag)) as Hnp.
  assert (Hran : forall done, (replay = ForbidAfterWrite -> flag = true -> ends_with (inr error) done) ->
    replay = ForbidAfterWrite -> written_once [Ev ARun (inr error, flag); Ev ATermination term] done).
  { intros done He Hf. apply written_last; [by repeat constructor|by apply He]. }
  destruct (end_on_refusal e' (write_started replay flag)) as [e|stop|] eqn:Ee; [|does_inv|done].
  - destruct (write_started replay flag) eqn:Ew.
    { does_inv. apply turn_stop; [done| |done|done]. by apply Hran. }
    destruct (relay_run_retryable replay e).
    { apply (turn_retry [Ev ARun (inr error, flag); Ev ATermination term] e t9); [done| |exact H].
      intros Hf. repeat (apply List.Forall_cons; [by destruct replay, flag|]). constructor. }
    destruct H as [-> ->]. apply turn_stop; [done| |done|done]. apply Hran. intros Hf ->. by rewrite Hf in Ew.
  - apply turn_stop; [done| |done|done]. apply Hran. intros Hf ->. rewrite Hf in Ee.
    apply end_on_refusal_err in Ee as [[-> _]|[-> He]]; [done|]. specialize (He eq_refl).
    assert (e' = error) as Heq by (unfold e', relay_close_first in *; destruct error, term; naive_solver).
    rewrite Heq in *. by split.
Qed.

End Turn.

Lemma request_relay_loop_spec replay origin fuel attempts reactive k tr r :
  0 <= k <= 4 -> turn_budget reactive k <= Z.of_nat fuel ->
  does (request_relay_loop refresh_response c replay origin fuel attempts reactive k) tr r ->
  relay_spec replay attempts tr (turn_budget reactive k) (relay_sleep k) r.
Proof.
  revert attempts reactive k tr. induction fuel as [|fuel IH]; intros attempts reactive k tr Hk Hf H; cbn [request_relay_loop] in H.
  { unfold turn_budget in *. destruct reactive; lia. }
  pose proof (relay_sleep_nonneg k ltac:(lia)) as Hs0.
  apply does_bind in H as (t1 & t2 & fence & -> & Hfe & H).
  pose proof (aside_facts _ (only_does _ _ _ _ (check_fence_aside (publication c)) Hfe)) as (Hc1 & Hu1 & Hq1).
  destruct fence as [e|].
  { destruct H as [-> ->]. rewrite app_nil_r.
    eapply relay_spec_mono; [apply (relay_stop _ _ _ 0 0)|unfold turn_budget; destruct reactive; lia|lia]; try done. intros _. by left. }
  apply does_bind in H as (t3 & t4 & token & -> & Hto & H). apply current_does in Hto as (tok & -> & ->).
  apply (proj1 (does_do_bind _ _ _ _)) in H as ([] & t5 & -> & H).
  apply (proj1 (does_do_bind _ _ _ _)) in H as (dialed & t6 & -> & H).
  apply (proj1 (does_do_bind _ _ _ _)) in H as ([] & t7 & -> & H).
  set (head := t1 ++ [Ev AGetToken tok; Ev (ANote NoteDialAttempt) tt; Ev (ADialRelay origin tok) dialed; Ev (ANoteDial None dialed) tt]).
  replace (t1 ++ _) with (head ++ t7) by (unfold head; rewrite <- app_assoc; done).
  assert (Hch : costs head 1 0) by (by apply (costs_app t1 _ 0 0 1 0)).
  assert (Huh : unwritten head) by (apply list.Forall_app; split; [done|]; repeat (apply List.Forall_cons; [done|]); constructor).
  assert (Hrest : forall reactive' k' t, 0 <= k' <= 4 -> 1 + turn_budget reactive' k' <= turn_budget reactive k ->
    does (request_relay_loop refresh_response c replay origin fuel (attempts + 1) reactive' k') t r ->
    relay_spec replay (attempts + 1) t (turn_budget reactive' k') (relay_sleep k') r) by (intros; apply IH; [done|lia|done]).
  set (rest := request_relay_loop refresh_response c replay origin fuel) in *.
  destruct dialed as [error|].
  - assert (Hcase : error = RelayFailed Unauthorized \/
      does (if relay_fault_is_transient_err error then
              (if RELAY_MAX_TRANSIENT_ATTEMPTS <=? k + 1 then Ret (Some (Err (ReqTransport error)))
               else _ ← do (ASleep (250 * (k + 1))); rest (attempts + 1) reactive (k + 1))
            else Ret (Some (Err (ReqTransport error)))) t7 r)
      by (destruct error as [| | | | | | | | | | | | |[]| | | |]; (right; exact H) || by left).
    destruct Hcase as [->|Hd].
    + destruct reactive; [destruct H as [-> ->]; apply turn_stop_error; [done..|constructor]|].
      apply does_bind in H as (t8 & t9 & refresh & -> & Hre & H).
      pose proof (aside_facts _ (only_does _ _ _ _ (refresh_aside _ _) Hre)) as (Hc8 & Hu8 & Hq8).
      destruct (refresh_stops true refresh) as [stop|].
      * destruct H as [-> ->]. rewrite app_nil_r. by apply turn_stop_error.
      * eapply (turn_go _ _ _ _ _ _ rest Hch Huh Hrest _ _ true k 0); [done|lia|done|lia|unfold turn_budget; lia|lia|exact H].
    + destruct (relay_fault_is_transient_err error).
      * apply (turn_retry _ _ _ _ _ _ rest Hk Hch Huh Hrest [] error t7); [done|constructor|exact Hd].
      * destruct Hd as [-> ->]. apply turn_stop_error; [done..|constructor].
  - apply (proj1 (does_do_bind _ _ _ _)) in H as ([o flag] & t8 & -> & H). destruct o as [response|error].
    + does_inv. apply turn_stop; [done..| |done|by intros ? [= <-]]. intros _. apply written_last; [|done].
      repeat (apply List.Forall_cons; [done|]). constructor.
    + apply (proj1 (does_do_bind _ _ _ _)) in H as (term & t9 & -> & H).
      by apply (turn_failed_run _ _ _ _ _ _ rest Hk Hch Huh Hrest).
Qed.

Lemma request_over_relay_spec replay attempts tr r :
  does (request_over_relay refresh_response c replay attempts) tr r -> relay_spec replay attempts tr 6 2500 r.
Proof.
  unfold request_over_relay. intros H.
  assert (Hearly : forall t e, all_aside t -> relay_spec replay attempts t 6 2500 (Some (Err e))).
  { intros t e Ht. destruct (aside_facts _ Ht) as (? & ? & ?).
    eapply relay_spec_mono; [apply (relay_stop _ _ _ 0 0)|lia|lia]; try done. intros _. by left. }
  destruct (cred_relay_origin (credential c)) as [origin|]; [|destruct H as [-> ->]; apply Hearly; constructor].
  apply does_bind in H as (t1 & t2 & cur & -> & Hcur & H). apply current_does in Hcur as (tok & -> & ->).
  apply (proj1 (does_do_bind _ _ _ _)) in H as (now & t3 & -> & H).
  apply does_bind in H as (t4 & t5 & stop & -> & Hst & H).
  assert (Ha : all_aside ([Ev AGetToken tok; Ev ANow now] ++ t4)).
  { apply list.Forall_app. split; [by repeat constructor|]. eapply only_does; [|exact Hst].
    destruct (token_should_refresh tok now); [apply only_bind; [apply refresh_aside|intros; exact I]|exact I]. }
  change ([Ev AGetToken tok] ++ Ev ANow now :: t4 ++ t5) with ([Ev AGetToken tok; Ev ANow now] ++ t4 ++ t5). rewrite app_assoc.
  destruct stop as [stop|]; [destruct H as [-> ->]; rewrite app_nil_r; by apply Hearly|].
  destruct (aside_facts _ Ha) as (Hc & Hu & _). apply request_relay_loop_spec in H; [|lia|done].
  by apply (relay_spec_app _ _ (attempts + 0) _ _ 0 0 6 0 0 2500); [done|lia|lia|done|done|rewrite Z.add_0_r].
Qed.

End WithToken.

(** What [request] does once the direct attempts are over. *)
Definition after_lan (replay : ReplayPolicy) (attempts : Z) (last : option TransportError)
  : prog (option (res RequestError RequestOutcome)) :=
  if negb (lan_unreachable (default NoEndpoint last)) then Ret (Some (Err (ReqTransport (default NoEndpoint last))))
  else
    ineligible ← do AIneligible;
    if (ineligible : bool) then Ret (Some (Err PublicationIndeterminate))
    else
      eligible ← relay_eligible c;
      if (eligible : bool) then request_over_relay refresh_response c replay attempts
      else Ret (Some (Err (ReqTransport (default NoEndpoint last)))).

Lemma request_does replay tr r :
  does (request refresh_response c replay) tr r ->
  exists t1 t2 lan, tr = t1 ++ t2 /\ does (request_lan c replay MAX_ATTEMPTS 0 0 None) t1 lan /\
    match lan with inl done => t2 = [] /\ r = Some done | inr (attempts, last) => does (after_lan replay attempts last) t2 r end.
Proof.
  unfold request. intros H. apply does_bind in H as (t1 & t2 & lan & -> & Hl & H). exists t1, t2, lan. split_and!; [done..|].
  by destruct lan as [done|[attempts last]].
Qed.

Lemma after_lan_spec replay attempts last tr r :
  does (after_lan replay attempts last) tr r -> relay_spec replay attempts tr 6 2500 r.
Proof.
  unfold after_lan. intros H.
  assert (Hearly : forall t e, all_aside t -> relay_spec replay attempts t 6 2500 (Some (Err e))).
  { intros t e Ht. destruct (aside_facts _ Ht) as (? & ? & ?).
    eapply relay_spec_mono; [apply (relay_stop _ _ _ 0 0)|lia|lia]; try done. intros _. by left. }
  destruct (negb (lan_unreachable (default NoEndpoint last))); [destruct H as [-> ->]; apply Hearly; constructor|].
  apply (proj1 (does_do_bind _ _ _ _)) in H as (inel & t3 & -> & H).
  destruct inel; [destruct H as [-> ->]; apply Hearly; by repeat constructor|].
  apply does_bind in H as (t4 & t5 & el & -> & Hel & H).
  assert (Ha : all_aside ([Ev AIneligible false] ++ t4)).
  { apply list.Forall_app. split; [by repeat constructor|]. eapply only_does; [apply eligible_aside|exact Hel]. }
  change (Ev AIneligible false :: t4 ++ t5) with ([Ev AIneligible false] ++ t4 ++ t5). rewrite app_assoc.
  destruct el; [|destruct H as [-> ->]; rewrite app_nil_r; by apply Hearly].
  destruct (aside_facts _ Ha) as (Hca & Hua & _).
  apply request_over_relay_spec in H.
  - by apply (relay_spec_app _ _ (attempts + 0) _ _ 0 0 6 0 0 2500); [done|lia|lia|done|done|rewrite Z.add_0_r].
  - unfold relay_eligible in Hel. repeat case_match; [by eexists|..]; by destruct Hel.
Qed.

Lemma request_spec replay tr r :
  does (request refresh_response c replay) tr r ->
  relay_spec replay 0 tr (5 * len (cred_endpoints (credential c)) + 6) 5000 r.
Proof.
  intros H. apply request_does in H as (t1 & t2 & lan & -> & Hl & H).
  apply request_lan_spec in Hl; [|lia]. change (lan_sleep MAX_ATTEMPTS 0) with 2500 in Hl. change (Z.of_nat MAX_ATTEMPTS) with 5 in Hl.
  set (n := len (cred_endpoints (credential c))) in *. assert (Hn : 0 <= n) by lia.
  destruct lan as [done|[attempts last]].
  { destruct H as [-> ->]. rewrite app_nil_r. exists done. split; [done|]. eapply lan_spec_mono; [exact Hl|lia|lia]. }
  destruct Hl as (d & s & Hc & Hd & Hs & -> & Hu). apply after_lan_spec in H.
  eapply relay_spec_mono; [eapply (relay_spec_app _ _ (0 + d) _ _ d (5 * n) 6 2500 s 2500)|lia|lia]; [done|lia|lia|done|done|done].
Qed.

(** *** Who is dialed *)

Definition dials_endpoint (e : EndpointAddr) (x : event) : bool :=
  match x with Ev (ADial e') _ => bool_decide (e' = e) | _ => false end.
Definition dials_relay (x : event) : bool := match x with Ev (ADialRelay _ _) _ => true | _ => false end.
Definition occurrences (e : EndpointAddr) (eps : list EndpointAddr) : Z :=
  zsum (fun e' => if bool_decide (e' = e) then 1 else 0) eps.

Definition not_relay_dial (a : action) : Prop := match a with ADialRelay _ _ => False | _ => True end.
Definition not_direct_dial (a : action) : Prop := match a with ADial _ => False | _ => True end.

Lemma occurrences_nonneg e eps : 0 <= occurrences e eps.
Proof. apply zsum_nonneg, list.Forall_forall. intros x _. by case_bool_decide. Qed.

Lemma request_endpoints_dials e replay eps attempts last tr r :
  does (request_endpoints replay eps attempts last) tr r -> tally (dials_endpoint e) tr <= occurrences e eps.
Proof.
  revert attempts last tr. induction eps as [|e' eps IH]; intros attempts last tr H; cbn [request_endpoints] in H.
  { by destruct H as [-> ->]. }
  apply does_bind in H as (t1 & t2 & dialed & -> & Hd & H). apply dial_endpoint_does in Hd as ->.
  unfold occurrences. rewrite zsum_cons. fold (occurrences e eps). rewrite tally_app, !tally_cons. cbn [dials_endpoint].
  pose proof (occurrences_nonneg e eps). cut (tally (dials_endpoint e) t2 <= occurrences e eps); [cbn; lia|].
  destruct dialed as [error|]; [by eapply IH|].
  apply (proj1 (does_do_bind _ _ _ _)) in H as ([o flag] & t3 & -> & H). rewrite tally_cons. cbn [dials_endpoint].
  destruct o as [response|error]; [does_inv; cbn; lia|].
  destruct (end_on_refusal _ _) as [e2|stop|]; [|destruct H as [-> ->]; cbn; lia..].
  destruct (write_started _ _); [destruct H as [-> ->]; cbn; lia|]. apply IH in H. lia.
Qed.

Lemma request_lan_dials e replay n attempt attempts last tr r :
  does (request_lan c replay n attempt attempts last) tr r ->
  tally (dials_endpoint e) tr <= Z.of_nat n * occurrences e (cred_endpoints (credential c)).
Proof.
  pose proof (occurrences_nonneg e (cred_endpoints (credential c))) as Hk.
  revert attempt attempts last tr. induction n as [|n IH]; intros attempt attempts last tr H; cbn [request_lan] in *.
  { by destruct H as [-> ->]. }
  apply does_bind in H as (t1 & t2 & x & -> & Hx & H). apply (request_endpoints_dials e) in Hx. rewrite tally_app.
  replace (Z.of_nat (S n)) with (1 + Z.of_nat n) by lia.
  cut (tally (dials_endpoint e) t2 <= Z.of_nat n * occurrences e (cred_endpoints (credential c))); [lia|].
  destruct x as [done|[attempts' last']]; [destruct H as [-> ->]; cbn; lia|].
  destruct (lan_retryable last'); [|destruct H as [-> ->]; cbn; lia].
  apply does_bind in H as (t3 & t4 & [] & -> & Hsl & H). apply IH in H. rewrite tally_app.
  assert (tally (dials_endpoint e) t3 = 0) as ->; [|lia].
  destruct (_ <? _); [apply (proj1 (does_do _ _ _)) in Hsl as ->|destruct Hsl as [-> _]]; done.
Qed.

Lemma request_endpoints_direct replay eps attempts last : only not_relay_dial (request_endpoints replay eps attempts last).
Proof.
  revert attempts last. induction eps as [|e eps IH]; intros attempts last; cbn [request_endpoints]; [exact I|].
  unfold dial_endpoint. only_all; apply IH.
Qed.
Lemma request_lan_direct replay n attempt attempts last : only not_relay_dial (request_lan c replay n attempt attempts last).
Proof.
  revert attempt attempts last. induction n as [|n IH]; intros attempt attempts last; cbn [request_lan]; [exact I|].
  apply only_bind; [apply request_endpoints_direct|]. intros x. only_all; apply IH.
Qed.

Lemma only_mono {A} (P P' : action -> Prop) (p : prog A) : only P p -> (forall a, P a -> P' a) -> only P' p.
Proof. intros H HP. induction p as [x|a k IH]; [done|]. destruct H as [Ha Hk]. split; [by apply HP|]. intros r. by apply IH. Qed.
Lemma aside_not_direct {A} (p : prog A) : only aside p -> only not_direct_dial p.
Proof. intros H. eapply only_mono; [exact H|]. by intros []. Qed.

Lemma request_relay_loop_relay replay origin fuel attempts reactive k :
  only not_direct_dial (request_relay_loop refresh_response c replay origin fuel attempts reactive k).
Proof.
  revert attempts reactive k. induction fuel as [|fuel IH]; intros attempts reactive k; cbn [request_relay_loop]; [exact I|].
  apply only_bind; [apply aside_not_direct, check_fence_aside|]. intros [e|]; [exact I|].
  apply only_bind; [apply aside_not_direct, current_aside|]. intros [token|e|]; [|exact I..].
  apply only_do_bind; [done|]. intros ?. apply only_do_bind; [done|]. intros dialed. apply only_do_bind; [done|]. intros ?.
  assert (Hrefresh : forall tok, only not_direct_dial (refresh_if_current c origin tok)) by (intros; apply aside_not_direct, refresh_aside).
  destruct dialed as [error|].
  - destruct error as [| | | | | | | | | | | | |[]| | | |]; cbn [relay_fault_is_transient_err];
      only_all; try apply IH; try apply Hrefresh.
  - only_all; apply IH.
Qed.

Lemma after_lan_relay replay attempts last : only not_direct_dial (after_lan replay attempts last).
Proof.
  unfold after_lan, request_over_relay. repeat first [exact I|apply request_relay_loop_relay|apply (aside_not_direct _ (refresh_aside _ _))|only_step].
  all: first [exact (aside_not_direct _ eligible_aside)|exact (aside_not_direct _ (current_aside _))].
Qed.

Lemma tally_le f g tr : (forall e, f e = true -> g e = true) -> tally f tr <= tally g tr.
Proof.
  intros H. induction tr as [|e tr IH]; [done|]. rewrite !tally_cons. specialize (H e). destruct (f e), (g e); lia || by discriminate H.
Qed.

(** No endpoint is dialed more than five times for each time it is listed, the
    relay no more than six times, and never before the direct attempts are over. *)
Lemma request_dials replay tr r :
  does (request refresh_response c replay) tr r ->
  (forall e, tally (dials_endpoint e) tr <= 5 * occurrences e (cred_endpoints (credential c))) /\
  tally dials_relay tr <= 6 /\
  exists t1 t2, tr = t1 ++ t2 /\ tally dials_relay t1 = 0 /\ forall e, tally (dials_endpoint e) t2 = 0.
Proof.
  intros H. apply request_does in H as (t1 & t2 & lan & -> & Hl & H).
  assert (Hr1 : tally dials_relay t1 = 0).
  { apply tally_none. eapply list.Forall_impl; [exact (only_does _ _ _ _ (request_lan_direct _ _ _ _ _) Hl)|]. by intros [[] ?]. }
  assert (H2 : tally dials_relay t2 <= 6 /\ forall e, tally (dials_endpoint e) t2 = 0).
  { destruct lan as [x|[attempts last]]; [destruct H as [-> ->]; done|]. split.
    - apply after_lan_spec in H as (done & -> & n & m & [Hd _ _] & Hn & _).
      pose proof (tally_le dials_relay is_dial t2 ltac:(by intros [[] ?])). unfold dials in Hd. lia.
    - intros e. apply tally_none. eapply list.Forall_impl; [exact (only_does _ _ _ _ (after_lan_relay _ _ _) H)|]. by intros [[] ?]. }
  destruct H2 as [Hr2 Hd2]. split_and!.
  - intros e. apply (request_lan_dials e) in Hl. change (Z.of_nat MAX_ATTEMPTS) with 5 in Hl. rewrite tally_app, Hd2. lia.
  - rewrite tally_app. lia.
  - by exists t1, t2.
Qed.

End Operations.

(** ** The fence *)

(** What has happened since the fence last answered: it did not allow or
    something was awaited ([FenceStale]), nothing was awaited ([FenceFresh]), or
    only the lock of the client's own live token was, once, to read it
    ([FenceTokenRead]).  Reading the clock and the eligibility flag, telling the
    observer and the commit itself do not await. *)
Inductive FenceAge := FenceStale | FenceFresh | FenceTokenRead.
#[export] Instance FenceAge_eq_dec : EqDecision FenceAge.
Proof. solve_decision. Defined.

Definition permit_step (v : FenceAge) (e : event) : FenceAge :=
  match e with
  | Ev (APermit _) r => if bool_decide (r = Allow) then FenceFresh else FenceStale
  | Ev AGetToken _ => match v with FenceFresh => FenceTokenRead | _ => FenceStale end
  | Ev (ANow | AIneligible | ANote _ | ANoteDial _ _ | ACommit _) _ => v
  | _ => FenceStale
  end.
Definition fence_age (tr : list event) : FenceAge := fold_left permit_step tr FenceStale.

(** What a fence gates: publishing a token, and dialing the relay. *)
Definition fence_open_for (v : FenceAge) (a : action) : bool :=
  match a with
  | ACommit _ | ASetToken _ => bool_decide (v = FenceFresh)
  | ADialRelay _ _ => negb (bool_decide (v = FenceStale))
  | _ => true
  end.

(** Every gated action of [p] finds the fence open, from [v] on. *)
Fixpoint guards {A} (p : prog A) (v : FenceAge) (Q : A -> FenceAge -> Prop) : Prop :=
  match p with
  | Ret x => Q x v
  | Act a k => fence_open_for v a = true /\ forall r, guards (k r) (permit_step v (Ev a r)) Q
  end.

Lemma guards_mono {A} (p : prog A) ok (Q Q' : A -> FenceAge -> Prop) :
  guards p ok Q -> (forall x ok, Q x ok -> Q' x ok) -> guards p ok Q'.
Proof. revert ok. induction p as [x|a k IH]; cbn [guards]; [naive_solver|]. intros ok [Ha Hk] HQ. split; [done|]. intros r. by eapply IH. Qed.

Lemma guards_bind {A B} (p : prog A) (f : A -> prog B) ok Q :
  guards p ok (fun x ok => guards (f x) ok Q) -> guards (p ≫= f) ok Q.
Proof.
  unfold mbind, prog_bind. revert ok. induction p as [x|a k IH]; intros ok; cbn [guards prog_bind_]; [done|].
  intros [Ha Hk]. split; [done|]. intros r. by apply IH.
Qed.
Lemma guards_do_bind {B} a (f : result a -> prog B) ok Q :
  fence_open_for ok a = true -> (forall r, guards (f r) (permit_step ok (Ev a r)) Q) -> guards (do a ≫= f) ok Q.
Proof. done. Qed.

Lemma guards_does {A} (p : prog A) ok Q pre a r post x :
  guards p ok Q -> does p (pre ++ Ev a r :: post) x -> fence_open_for (fold_left permit_step pre ok) a = true.
Proof.
  revert ok pre. induction p as [y|b k IH]; intros ok pre; cbn [guards does].
  { intros _ [Hn _]. by destruct pre. }
  intros [Hb Hk] (r' & rest & Heq & Hd). destruct pre as [|e pre].
  - injection Heq as -> _. exact Hb.
  - injection Heq as -> Heq. subst rest. cbn [fold_left]. by eapply IH.
Qed.

(** Any state of the monitor will do for what follows. *)
Abbreviation free p := (forall ok, guards p ok (fun _ _ => True)).

Ltac guards_step :=
  match goal with
  | |- guards (Ret _) _ _ => exact I
  | |- guards (do _) _ _ => split; [try done|intros ?; exact I]
  | |- guards (do _ ≫= _) _ _ => apply guards_do_bind; [try done|intros ?]
  | |- guards (if ?b then _ else _) _ _ => destruct b eqn:?
  | |- guards (match ?x with _ => _ end) _ _ => destruct x eqn:?
  | |- guards (_ ≫= _) _ _ => apply guards_bind
  end.
Ltac guards_all := repeat guards_step.

Section Fence.
Context {R : RelayPrimitives}.
Variable refresh_response : list byte -> option (str * option Z * option str).
Variables (c : TransportClient) (p : TokenPublication).
Hypothesis Hp : publication c = Some p.
Hypothesis Hfence : has_fence p = true.

Lemma guards_fence ok (Q : option RelayPermit -> FenceAge -> Prop) :
  Q None FenceFresh -> (forall permit, permit <> Allow -> Q (Some permit) FenceStale) -> guards (relay_fence_permit (publication c)) ok Q.
Proof.
  intros Hn Hs. unfold relay_fence_permit. rewrite Hp, Hfence. apply guards_do_bind; [done|].
  intros permit. cbn [guards permit_step]. change (result (APermit (incarnation p))) with RelayPermit in permit.
  case_bool_decide; [by rewrite bool_decide_eq_true_2|]. rewrite bool_decide_eq_false_2 by done. by apply Hs.
Qed.

Lemma guards_current {E} (Q : res E str -> FenceAge -> Prop) ok :
  (forall x, Q (Ok x) (match ok with FenceFresh => FenceTokenRead | _ => FenceStale end)) -> Q Panic ok ->
  guards (current_token c) ok Q.
Proof. intros HQ HP. unfold current_token. destruct (cred_device_token _); [apply guards_do_bind; [done|]; intros r; apply HQ|apply HP]. Qed.

Lemma guards_free_bind {A B} (q : prog A) (f : A -> prog B) ok : free q -> (forall x, free (f x)) -> guards (q ≫= f) ok (fun _ _ => True).
Proof. intros Hq Hf. apply guards_bind. eapply guards_mono; [apply Hq|]. intros x ok' _. apply Hf. Qed.

Lemma publish_token_free token expires old : free (publish_token p token expires old).
Proof.
  intros ok. unfold publish_token. rewrite Hfence. apply guards_do_bind; [done|]. intros permit. cbn [permit_step].
  change (result (APermit (incarnation p))) with RelayPermit in *.
  destruct (bool_decide (permit = Allow)) eqn:E; cbn [negb]; [|exact I]. guards_all.
Qed.
Lemma refresh_token_free origin current : free (refresh_device_token refresh_response origin current).
Proof. intros ok. unfold refresh_device_token, refresh_device_token_inner. guards_all. Qed.
Lemma refresh_free origin expected : free (refresh_if_current refresh_response c origin expected).
Proof.
  intros ok. unfold refresh_if_current. rewrite Hp. case_match; [|exact I].
  apply guards_do_bind; [done|]. intros ?. apply guards_do_bind; [done|]. intros ?. case_match; [guards_all|].
  apply guards_free_bind; [apply refresh_token_free|]. intros [token expires| |] ok'; [|guards_all..].
  apply guards_do_bind; [done|]. intros ?. apply guards_free_bind; [apply publish_token_free|]. intros action ok''. guards_all.
Qed.
Lemma dial_endpoint_free e : free (dial_endpoint e).
Proof. intros ok. unfold dial_endpoint. guards_all. Qed.
Lemma eligible_free : free (relay_eligible c).
Proof. intros ok. unfold relay_eligible. guards_all. Qed.
Lemma request_endpoints_free replay eps attempts last : free (request_endpoints replay eps attempts last).
Proof.
  revert attempts last. induction eps as [|e eps IH]; intros attempts last ok; cbn [request_endpoints]; [exact I|].
  apply guards_free_bind; [apply dial_endpoint_free|]. intros [error|] ok'; [apply IH|].
  apply guards_do_bind; [done|]. intros [[response|error] flag]; [guards_all|]. cbn [permit_step].
  destruct (end_on_refusal _ _); [|exact I..]. case_match; [exact I|apply IH].
Qed.
Lemma request_lan_free replay n attempt attempts last : free (request_lan c replay n attempt attempts last).
Proof.
  revert attempt attempts last. induction n as [|n IH]; intros attempt attempts last ok; cbn [request_lan]; [exact I|].
  apply guards_free_bind; [apply request_endpoints_free|]. intros [d|[a l]] ok'; [exact I|].
  case_match; [|exact I]. apply guards_free_bind; [intros ?; guards_all|]. intros _ ok''. apply IH.
Qed.
Lemma carrier_endpoints_free eps last : free (carrier_endpoints eps last).
Proof.
  revert last. induction eps as [|e eps IH]; intros last ok; cbn [carrier_endpoints]; [exact I|].
  apply guards_free_bind; [apply dial_endpoint_free|]. intros [error|] ok'; [apply IH|guards_all].
Qed.
Lemma carrier_lan_free n attempt last : free (carrier_lan c n attempt last).
Proof.
  revert attempt last. induction n as [|n IH]; intros attempt last ok; cbn [carrier_lan]; [exact I|].
  apply guards_free_bind; [apply carrier_endpoints_free|]. intros [k|l] ok'; [exact I|].
  case_match; [|exact I]. apply guards_do_bind; [done|]. intros ?. apply IH.
Qed.

Lemma request_relay_loop_free replay origin fuel attempts reactive k :
  free (request_relay_loop refresh_response c replay origin fuel attempts reactive k).
Proof.
  revert attempts reactive k. induction fuel as [|fuel IH]; intros attempts reactive k ok; cbn [request_relay_loop]; [exact I|].
  apply guards_bind. unfold check_fence. apply guards_bind. apply guards_fence; [|intros [] ?; exact I || done].
  cbn [guards]. apply guards_bind, guards_current; [intros token|exact I].
  apply guards_do_bind; [done|]. intros ?. apply guards_do_bind; [done|]. intros dialed. apply guards_do_bind; [done|]. intros ?.
  destruct dialed as [error|].
  - assert (Hretry : forall ok', guards (if relay_fault_is_transient_err error then
        (if RELAY_MAX_TRANSIENT_ATTEMPTS <=? k + 1 then Ret (Some (Err (ReqTransport error)))
         else _ ← do (ASleep (250 * (k + 1))); request_relay_loop refresh_response c replay origin fuel (attempts + 1) reactive (k + 1))
        else Ret (Some (Err (ReqTransport error)))) ok' (fun _ _ => True)).
    { intros ok'. case_match; [|exact I]. case_match; [exact I|]. apply guards_do_bind; [done|]. intros ?. apply IH. }
    destruct error as [| | | | | | | | | | | | |[]| | | |]; try apply Hretry.
    destruct reactive; [exact I|]. apply guards_free_bind; [apply refresh_free|]. intros refresh ok'.
    destruct (refresh_stops true refresh); [exact I|apply IH].
  - apply guards_do_bind; [done|]. intros [[response|error] flag]; [guards_all|].
    apply guards_do_bind; [done|]. intros term. destruct (end_on_refusal _ _); [|exact I..]. case_match; [exact I|].
    case_match; [|exact I]. case_match; [exact I|]. apply guards_do_bind; [done|]. intros ?. apply IH.
Qed.
Lemma request_free replay : free (request refresh_response c replay).
Proof.
  intros ok. unfold request. apply guards_free_bind; [apply request_lan_free|]. intros [d|[a l]] ok'; [exact I|].
  case_match; [exact I|]. apply guards_do_bind; [done|]. intros [|]; [exact I|].
  apply guards_free_bind; [apply eligible_free|]. intros [|] ok''; [|exact I]. unfold request_over_relay.
  case_match; [|exact I]. apply guards_bind, guards_current; [intros current|exact I].
  apply guards_do_bind; [done|]. intros now. apply guards_free_bind.
  - intros ok3. case_match; [|exact I]. apply guards_free_bind; [apply refresh_free|]. intros ? ?. exact I.
  - intros [stop|] ok3; [exact I|apply request_relay_loop_free].
Qed.

Lemma carrier_relay_loop_free origin fuel reactive k : free (carrier_relay_loop refresh_response c Fenced origin fuel reactive k).
Proof.
  revert reactive k. induction fuel as [|fuel IH]; intros reactive k ok; cbn [carrier_relay_loop]; [exact I|].
  apply guards_bind. unfold carrier_fence. apply guards_bind. apply guards_fence; [|intros [] ?; exact I || done].
  cbn [guards]. apply guards_do_bind; [done|]. intros ?. apply guards_bind, guards_current; [intros token|exact I].
  apply guards_do_bind; [done|]. intros dialed. apply guards_do_bind; [done|]. intros ?.
  destruct dialed as [error|]; [|guards_all].
  assert (Hretry : forall ok', guards (if relay_fault_is_transient_err error then
      (if RELAY_MAX_TRANSIENT_ATTEMPTS <=? k + 1 then Ret (Some (Err (CoTransport error)))
       else _ ← do (ASleep (250 * (k + 1))); carrier_relay_loop refresh_response c Fenced origin fuel reactive (k + 1))
      else Ret (Some (Err (CoTransport error)))) ok' (fun _ _ => True)).
  { intros ok'. case_match; [|exact I]. case_match; [exact I|]. apply guards_do_bind; [done|]. intros ?. apply IH. }
  destruct error as [| | | | | | | | | | | | |[]| | | |]; try apply Hretry.
  destruct reactive; [exact I|]. apply guards_free_bind; [apply refresh_free|]. intros refresh ok'.
  destruct (carrier_reactive Fenced refresh); [exact I|apply IH].
Qed.
Lemma open_carrier_free : free (open_carrier refresh_response c).
Proof.
  intros ok. unfold open_carrier, establish_carrier. apply guards_free_bind; [apply carrier_lan_free|]. intros [d|l] ok'; [exact I|].
  case_match; [exact I|]. apply guards_do_bind; [done|]. intros [|]; [exact I|].
  apply guards_free_bind; [apply eligible_free|]. intros [|] ok''; [|exact I].
  apply guards_free_bind; [intros ok3; unfold carrier_fence; apply guards_bind, guards_fence; [exact I|intros; exact I]|].
  intros [?|e|] ok3; [|exact I..]. unfold dial_carrier_over_relay.
  case_match; [|exact I]. apply guards_bind, guards_current; [intros current|exact I].
  apply guards_do_bind; [done|]. intros now. apply guards_free_bind.
  - intros ok4. case_match; [|exact I]. apply guards_free_bind; [apply refresh_free|]. intros ? ?. exact I.
  - intros [stop|] ok4; [exact I|apply carrier_relay_loop_free].
Qed.

End Fence.

(** ** Many operations over one client

    Operations interleave action by action.  The live token, the eligibility
    latch and the refresh lock answer from the shared state; everything else
    answers as the surroundings please.  An operation may be dropped wherever it
    waits: outside the publication task that frees the lock, inside it the task
    runs on by itself. *)

Record Shared := mkShared { live : str; latched : bool; holder : option nat }.
Record Task := mkTask { code : prog unit; blocking : bool; detached : bool }.
Record Pool := mkPool { shared : Shared; tasks : list Task }.

(** The answer of an action that reads the shared state. *)
Definition answer (s : Shared) (a : action) : result a -> result a :=
  match a return result a -> result a with
  | AGetToken => fun _ => live s
  | AIneligible => fun _ => latched s
  | _ => fun r => r
  end.

Definition can_act (s : Shared) (a : action) : bool :=
  match a, holder s with ALock, Some _ => false | _, _ => true end.

Definition effect (i : nat) (a : action) (s : Shared) : Shared :=
  match a with
  | ALock => mkShared (live s) (latched s) (Some i)
  | AUnlock | AUnblock => mkShared (live s) (latched s) None
  | ASetToken token => mkShared token (latched s) (holder s)
  | ALatch => mkShared (live s) true (holder s)
  | _ => s
  end.

Definition task_after (a : action) (t : Task) (rest : prog unit) : Task :=
  match a with
  | ABlock => mkTask rest true (detached t)
  | AUnblock => if detached t then mkTask (Ret tt) false false else mkTask rest false false
  | _ => mkTask rest (blocking t) (detached t)
  end.

Inductive pool_event := PAct (i : nat) (ans : forall a, result a) | PDrop (i : nat).

Definition act (i : nat) (ans : forall a, result a) (p : Pool) : Pool :=
  match tasks p !! i with
  | Some t =>
      match code t with
      | Act a k =>
          if can_act (shared p) a
          then mkPool (effect i a (shared p)) (<[i := task_after a t (k (answer (shared p) a (ans a)))]> (tasks p))
          else p
      | Ret _ => p
      end
  | None => p
  end.

Definition drop_task (i : nat) (p : Pool) : Pool :=
  match tasks p !! i with
  | Some t =>
      if blocking t then mkPool (shared p) (<[i := mkTask (code t) true true]> (tasks p))
      else mkPool (if bool_decide (holder (shared p) = Some i) then mkShared (live (shared p)) (latched (shared p)) None else shared p)
                  (<[i := mkTask (Ret tt) false false]> (tasks p))
  | None => p
  end.

Definition pool_step (p : Pool) (e : pool_event) : Pool :=
  match e with PAct i ans => act i ans p | PDrop i => drop_task i p end.
Definition pool_run (p : Pool) (l : list pool_event) : Pool := fold_left pool_step l p.

(** The operation about to act, and on what. *)
Definition next_action (p : Pool) (i : nat) : option action :=
  match tasks p !! i with Some t => match code t with Act a _ => Some a | Ret _ => None end | None => None end.

(** Several operations of one client, none of which has begun. *)
Definition operation (q : prog unit) : Task := mkTask q false false.
Definition pool_new (token : str) (ops : list (prog unit)) : Pool := mkPool (mkShared token false None) (operation <$> ops).

(** *** The discipline of the lock

    [None]: not holding it; [Some (seen, granted)]: holding it, having read the
    live token [seen] and had [granted] committed.  [pub]: whether tokens are
    published through storage. *)
Abbreviation hold := (option (option str * option str)).
Definition after_commit (ctx : TokenCommitContext) (r : option TokenCommit) (h : hold) : hold :=
  match h, r with
  | Some (seen, _), Some (Committed _) => Some (seen, Some (commit_token ctx))
  | _, _ => h
  end.

Fixpoint tidy {A} (pub : bool) (h : hold) (p : prog A) (Q : A -> hold -> Prop) : Prop :=
  match p with
  | Ret x => Q x h
  | Act a k =>
      match a as a return (result a -> prog A) -> Prop with
      | ALock => fun k => h = None /\ forall r, tidy pub (Some (None, None)) (k r) Q
      | AUnlock | AUnblock => fun k => is_Some h /\ forall r, tidy pub None (k r) Q
      | AGetToken => fun k => forall r, tidy pub (match h with Some (_, g) => Some (Some r, g) | None => None end) (k r) Q
      | APost _ t => fun k => (exists g, h = Some (Some t, g)) /\ forall r, tidy pub h (k r) Q
      | ACommit ctx => fun k => (exists g, h = Some (Some (previous_token ctx), g)) /\ forall r, tidy pub (after_commit ctx r h) (k r) Q
      | ASetToken t => fun k => (exists old g, h = Some (Some old, g) /\ (pub = true -> g = Some t)) /\ forall r, tidy pub (Some (Some t, None)) (k r) Q
      | _ => fun k => forall r, tidy pub h (k r) Q
      end k
  end.

Lemma tidy_mono {A} pub h (p : prog A) (Q Q' : A -> hold -> Prop) :
  tidy pub h p Q -> (forall x h, Q x h -> Q' x h) -> tidy pub h p Q'.
Proof.
  intros Hp HQ. revert h Hp. induction p as [x|a k IH]; intros h Hp; cbn [tidy] in *; [by apply HQ|].
  destruct a; cbn [result] in *; naive_solver.
Qed.
Lemma tidy_bind {A B} pub h (p : prog A) (f : A -> prog B) Q :
  tidy pub h p (fun x h => tidy pub h (f x) Q) -> tidy pub h (p ≫= f) Q.
Proof.
  unfold mbind, prog_bind. intros Hp. revert h Hp. induction p as [x|a k IH]; intros h Hp; cbn [tidy prog_bind_] in *; [done|].
  destruct a; cbn [result] in *; naive_solver.
Qed.

(** Idle before and after. *)
Abbreviation idle pub p := (tidy pub None p (fun _ h => h = None)).
Lemma idle_bind {A B} pub (p : prog A) (f : A -> prog B) : idle pub p -> (forall x, idle pub (f x)) -> idle pub (p ≫= f).
Proof. intros Hp Hf. apply tidy_bind. eapply tidy_mono; [exact Hp|]. intros x h ->. apply Hf. Qed.

(** Actions that the discipline does not restrict outside the lock. *)
Definition loose (a : action) : Prop :=
  match a with ALock | AUnlock | AUnblock | APost _ _ | ACommit _ | ASetToken _ => False | _ => True end.
Lemma loose_idle {A} pub (p : prog A) : only loose p -> idle pub p.
Proof.
  induction p as [x|a k IH]; cbn [only tidy]; [done|]. intros [Ha Hk].
  destruct a; cbn in Ha; try done; intros r; apply IH, Hk.
Qed.

Section Tidy.
Context {R : RelayPrimitives}.
Variable refresh_response : list byte -> option (str * option Z * option str).
Variable c : TransportClient.
Definition publishes : bool := match publication c with Some _ => true | None => false end.

Lemma refresh_token_tidy pub origin t :
  tidy pub (Some (Some t, None)) (refresh_device_token refresh_response origin t) (fun _ h => h = Some (Some t, None)).
Proof.
  unfold refresh_device_token, refresh_device_token_inner. apply tidy_bind. cbn [mbind prog_bind do prog_bind_ tidy]. intros now.
  destruct (token_renewal_identity t now) as [[instance_id v2]|]; [|done].
  cbn [prog_bind_ tidy]. split; [by eexists|]. intros [response|e]; [|done].
  repeat (case_match; try done). all: intros now'; case_match; done.
Qed.

Lemma publish_tidy pub p token expires old :
  tidy pub (Some (Some old, None)) (publish_token p token expires old) (fun _ h => is_Some h).
Proof.
  unfold publish_token. apply tidy_bind. assert (Hc : forall permit : RelayPermit, tidy pub (Some (Some old, None))
    (if negb (bool_decide (permit = Allow)) then Ret (RaFenceDenied permit)
     else commit ← do (ACommit (mkCommitContext token expires old (incarnation p)));
       match commit with
       | Some Unchanged => Ret RaRejected
       | Some Indeterminate => _ ← do ALatch; Ret RaIndeterminate
       | Some (Committed _) => _ ← do (ASetToken token); Ret RaRedial
       | None => Ret RaIndeterminate
       end) (fun _ h => is_Some h)).
  { intros permit. case_match; [by eexists|]. cbn [mbind prog_bind do prog_bind_ tidy]. split; [by eexists|].
    intros [[g| |]|]; cbn; try (intros; by eexists). split; [|intros; by eexists]. by exists old, (Some token). }
  destruct (has_fence p); [|apply Hc]. cbn [mbind prog_bind do prog_bind_ tidy]. intros permit. apply Hc.
Qed.

Lemma refresh_idle origin expected : idle publishes (refresh_if_current refresh_response c origin expected).
Proof.
  unfold refresh_if_current. case_match; [|done]. cbn [mbind prog_bind do prog_bind_ tidy]. split; [done|]. intros _ live.
  case_bool_decide as E; cbn [negb]; [subst live|by cbn; split; [eexists|]].
  apply tidy_bind. eapply tidy_mono; [apply refresh_token_tidy|]. intros refresh h ->.
  destruct refresh as [token expires| |]; [|by cbn; split; [eexists|]..].
  unfold publishes. destruct (publication c) as [p|].
  - cbn [mbind prog_bind do prog_bind_ tidy]. intros _. apply (tidy_bind _ _ (publish_token p token expires expected)).
    eapply tidy_mono; [apply publish_tidy|]. intros action h Hh. cbn. by split.
  - cbn [mbind prog_bind do prog_bind_ tidy]. split; [by exists expected, None|]. intros _.
    destruct (token_persist c); cbn; [intros _|]; by split; [eexists|].
Qed.

Ltac idle_step :=
  match goal with
  | |- idle _ (do _ ≫= _) => apply idle_bind; [apply loose_idle; by split|intros ?]
  | |- idle _ (refresh_if_current _ _ _ _ ≫= _) => apply idle_bind; [apply refresh_idle|intros ?]
  | |- idle _ (_ ≫= _) => apply idle_bind; [apply loose_idle|intros ?]
  | |- idle _ (Ret _) => reflexivity
  | |- idle _ (if ?b then _ else _) => destruct b
  | |- idle _ (match ?x with _ => _ end) => destruct x
  end.

Lemma fence_loose p : only loose (relay_fence_permit p).
Proof. unfold relay_fence_permit. only_all. Qed.
Lemma check_fence_loose p : only loose (check_fence p).
Proof. unfold check_fence. apply only_bind; [apply fence_loose|]. intros. only_all. Qed.
Lemma carrier_fence_loose policy : only loose (carrier_fence c policy).
Proof. unfold carrier_fence. destruct policy; [only_all|]. apply only_bind; [apply fence_loose|]. intros. only_all. Qed.
Lemma current_loose E : only loose (current_token (E := E) c).
Proof. unfold current_token. only_all. Qed.
Lemma eligible_loose : only loose (relay_eligible c).
Proof. unfold relay_eligible. only_all. Qed.
Lemma dial_endpoint_loose e : only loose (dial_endpoint e).
Proof. unfold dial_endpoint. only_all. Qed.

Lemma request_relay_loop_idle replay origin fuel attempts reactive k :
  idle publishes (request_relay_loop refresh_response c replay origin fuel attempts reactive k).
Proof.
  revert attempts reactive k. induction fuel as [|fuel IH]; intros attempts reactive k; cbn [request_relay_loop]; [done|].
  repeat first [apply IH | apply check_fence_loose | apply current_loose | idle_step].
Qed.
Lemma carrier_relay_loop_idle policy origin fuel reactive k :
  idle publishes (carrier_relay_loop refresh_response c policy origin fuel reactive k).
Proof.
  revert reactive k. induction fuel as [|fuel IH]; intros reactive k; cbn [carrier_relay_loop]; [done|].
  repeat first [apply IH | apply carrier_fence_loose | apply current_loose | idle_step].
Qed.
Lemma request_endpoints_loose replay eps attempts last : only loose (request_endpoints replay eps attempts last).
Proof.
  revert attempts last. induction eps as [|e eps IH]; intros attempts last; cbn [request_endpoints]; [done|].
  apply only_bind; [apply dial_endpoint_loose|]. intros [error|]; [apply IH|].
  repeat first [apply IH | only_step].
Qed.
Lemma request_lan_loose replay n attempt attempts last : only loose (request_lan c replay n attempt attempts last).
Proof.
  revert attempt attempts last. induction n as [|n IH]; intros attempt attempts last; cbn [request_lan]; [done|].
  apply only_bind; [apply request_endpoints_loose|]. intros [d|[a l]]; [done|].
  repeat first [apply IH | only_step].
Qed.
Lemma carrier_endpoints_loose eps last : only loose (carrier_endpoints eps last).
Proof.
  revert last. induction eps as [|e eps IH]; intros last; cbn [carrier_endpoints]; [done|].
  apply only_bind; [apply dial_endpoint_loose|]. intros [error|]; [apply IH|only_all].
Qed.
Lemma carrier_lan_loose n attempt last : only loose (carrier_lan c n attempt last).
Proof.
  revert attempt last. induction n as [|n IH]; intros attempt last; cbn [carrier_lan]; [done|].
  apply only_bind; [apply carrier_endpoints_loose|]. intros [k|l]; [done|].
  repeat first [apply IH | only_step].
Qed.

Lemma request_idle replay : idle publishes (request refresh_response c replay).
Proof.
  unfold request. apply idle_bind; [apply loose_idle, request_lan_loose|]. intros [d|[a l]]; [done|].
  case_match; [done|]. apply idle_bind; [apply loose_idle; by split|]. intros [|]; [done|].
  apply idle_bind; [apply loose_idle, eligible_loose|]. intros [|]; [|done].
  unfold request_over_relay. case_match; [|done]. apply idle_bind; [apply loose_idle, current_loose|]. intros [cur|e|]; [|done..].
  apply idle_bind; [apply loose_idle; by split|]. intros now. apply idle_bind.
  - case_match; [apply idle_bind; [apply refresh_idle|done]|done].
  - intros [stop|]; [done|apply request_relay_loop_idle].
Qed.
Lemma establish_idle policy : idle publishes (establish_carrier refresh_response c policy).
Proof.
  unfold establish_carrier. apply idle_bind; [apply loose_idle, carrier_lan_loose|]. intros [d|l]; [done|].
  case_match; [done|]. apply idle_bind; [apply loose_idle; by split|]. intros [|]; [done|].
  apply idle_bind; [apply loose_idle, eligible_loose|]. intros [|]; [|done].
  apply idle_bind; [apply loose_idle, carrier_fence_loose|]. intros [?|e|]; [|done..].
  unfold dial_carrier_over_relay. case_match; [|done]. apply idle_bind; [apply loose_idle, current_loose|]. intros [cur|e|]; [|done..].
  apply idle_bind; [apply loose_idle; by split|]. intros now. apply idle_bind.
  - case_match; [apply idle_bind; [apply refresh_idle|done]|done].
  - intros [stop|]; [done|apply carrier_relay_loop_idle].
Qed.

(** The operations a consumer can have in flight. *)
Inductive client_op : prog unit -> Prop :=
| op_request replay : client_op (_ ← request refresh_response c replay; Ret tt)
| op_open : client_op (_ ← open_carrier refresh_response c; Ret tt)
| op_dial : client_op (_ ← dial_carrier refresh_response c; Ret tt).

Lemma client_op_idle q : client_op q -> idle publishes q.
Proof.
  destruct 1; (apply idle_bind; [|done]); [apply request_idle|apply establish_idle|].
  unfold dial_carrier. apply idle_bind; [apply establish_idle|done].
Qed.

(** *** The pool keeps the discipline *)

(** What task [i] holds: nothing, or the lock with a reading of the live token that is still true. *)
Definition holds_ok (s : Shared) (i : nat) (h : hold) : Prop :=
  match h with
  | None => holder s <> Some i
  | Some (seen, _) => holder s = Some i /\ (seen = None \/ seen = Some (live s))
  end.

Record pool_ok (p : Pool) : Prop := {
  pool_tidy : forall i t, tasks p !! i = Some t ->
    exists h, holds_ok (shared p) i h /\ tidy publishes h (code t) (fun _ h => h = None);
  pool_holder : forall i, holder (shared p) = Some i -> is_Some (tasks p !! i)
}.

Lemma pool_new_ok token ops : Forall client_op ops -> pool_ok (pool_new token ops).
Proof.
  intros Hops. split; cbn; [|done]. intros i t. rewrite list_lookup_fmap. intros Ht.
  destruct (ops !! i) as [q|] eqn:Eq; [|done]. injection Ht as <-. exists None. split; [done|].
  apply client_op_idle. rewrite Forall_lookup in Hops. by eapply Hops.
Qed.

Lemma effect_self {A} s i h a (k : result a -> prog A) r Q :
  tidy publishes h (Act a k) Q -> holds_ok s i h -> can_act s a = true ->
  exists h', holds_ok (effect i a s) i h' /\ tidy publishes h' (k (answer s a r)) Q.
Proof.
  intros Ht Hh Hc. destruct a; cbn [tidy answer effect result] in *; try (exists h; split; [exact Hh|apply Ht]).
  - exists (match h with Some (_, g) => Some (Some (live s), g) | None => None end). split; [|apply Ht].
    destruct h as [[seen g]|]; [|done]. destruct Hh as [Hi _]. split; [done|by right].
  - destruct Ht as [-> Ht]. exists (Some (None, None)). split; [by split; [|left]|apply Ht].
  - destruct Ht as [_ Ht]. exists None. split; [done|apply Ht].
  - destruct Ht as [(g & ->) Ht]. exists (after_commit ctx r (Some (Some (previous_token ctx), g))). split; [|apply Ht].
    destruct r as [[]|]; exact Hh.
  - destruct Ht as [(old & g & -> & _) Ht]. exists (Some (Some token, None)). split; [|apply Ht]. split; [apply Hh|by right].
  - destruct Ht as [_ Ht]. exists None. split; [done|apply Ht].
Qed.

(** A task in the lock excludes the others, and only it changes what they rely on. *)
Lemma effect_other {A} s i h a (k : result a -> prog A) Q j hj :
  tidy publishes h (Act a k) Q -> holds_ok s i h -> can_act s a = true -> i <> j ->
  holds_ok s j hj -> holds_ok (effect i a s) j hj.
Proof.
  intros Ht Hh Hc Hij Hj. assert (Hex : is_Some h -> hj = None).
  { intros [[seen g] ->]. destruct hj as [[? ?]|]; [|done]. destruct Hh as [Hi _], Hj as [Hj _]. congruence. }
  destruct a; cbn [tidy effect result] in *; try exact Hj.
  - destruct hj as [[seen g]|]; cbn; [|by intros [= ->]]. unfold can_act in Hc. destruct Hj as [Hj _]. by rewrite Hj in Hc.
  - rewrite Hex by apply Ht. done.
  - destruct Ht as [(old & g & -> & _) _]. rewrite Hex in * by by eexists. exact Hj.
  - rewrite Hex by apply Ht. done.
Qed.

Lemma tidy_ret Q : Q tt None -> tidy (A := unit) publishes None (Ret tt) Q. Proof. done. Qed.

Lemma act_ok i ans p : pool_ok p -> pool_ok (act i ans p).
Proof.
  intros [Ht Hh]. unfold act. destruct (tasks p !! i) as [t|] eqn:Ei; [|done].
  destruct (code t) as [x|a k] eqn:Ec; [done|]. destruct (can_act (shared p) a) eqn:Ea; [|done].
  destruct (Ht i t Ei) as (h & Hho & Hti). rewrite Ec in Hti.
  assert (Hlt := lookup_lt_Some _ _ _ Ei). split; cbn [shared tasks].
  - intros j tj Hj. destruct (decide (i = j)) as [<-|Hne].
    + rewrite list_lookup_insert_eq in Hj by done. injection Hj as <-.
      destruct (effect_self _ i h a k (ans a) _ Hti Hho Ea) as (h' & Hho' & Hti').
      destruct a; try (by exists h'). cbn [task_after]. destruct (detached t); [|by exists h'].
      exists None. split; [|done]. by cbn.
    + rewrite list_lookup_insert_ne in Hj by done. destruct (Ht j tj Hj) as (hj & Hhj & Htj). exists hj. split; [|done].
      by eapply effect_other.
  - intros j Hj. rewrite list_lookup_insert_is_Some. destruct (decide (i = j)) as [<-|Hne]; [by rewrite Ei|].
    apply Hh. revert Hj. destruct a; cbn; congruence.
Qed.

Lemma drop_ok i p : pool_ok p -> pool_ok (drop_task i p).
Proof.
  intros [Ht Hh]. unfold drop_task. destruct (tasks p !! i) as [t|] eqn:Ei; [|done].
  assert (Hlt := lookup_lt_Some _ _ _ Ei).
  destruct (blocking t); split; cbn [shared tasks].
  - intros j tj Hj. destruct (decide (i = j)) as [<-|Hne].
    + rewrite list_lookup_insert_eq in Hj by done. injection Hj as <-. by apply (Ht i t).
    + rewrite list_lookup_insert_ne in Hj by done. by apply (Ht j tj).
  - intros j Hj. apply Hh in Hj. by rewrite list_lookup_insert_is_Some.
  - intros j tj Hj. destruct (decide (i = j)) as [<-|Hne].
    + rewrite list_lookup_insert_eq in Hj by done. injection Hj as <-. exists None. split; [|done].
      cbn. case_bool_decide; done.
    + rewrite list_lookup_insert_ne in Hj by done. destruct (Ht j tj Hj) as (hj & Hhj & Htj). exists hj. split; [|done].
      case_bool_decide; [|done]. destruct hj as [[seen g]|]; [|done]. destruct Hhj. congruence.
  - intros j Hj. rewrite list_lookup_insert_is_Some. destruct (decide (i = j)) as [<-|Hne]; [by rewrite Ei|].
    apply Hh. revert Hj. case_bool_decide; cbn; congruence.
Qed.

Lemma pool_run_ok p l : pool_ok p -> pool_ok (pool_run p l).
Proof.
  revert p. induction l as [|e l IH]; intros p Hp; [done|]. cbn [pool_run fold_left]. apply IH.
  destruct e; [by apply act_ok|by apply drop_ok].
Qed.

End Tidy.

(** A denying fence ends the relay loop. *)
Lemma relay_loop_denied {R : RelayPrimitives} refresh_response c replay origin fuel attempts reactive k tr e :
  does (check_fence (publication c)) tr (Some e) ->
  does (request_relay_loop refresh_response c replay origin (S fuel) attempts reactive k) tr (Some (Err e)).
Proof. intros H. cbn [request_relay_loop]. rewrite <- (app_nil_r tr). by eapply does_then. Qed.

(** ** Properties *)

Section Claims.
Context {R : RelayPrimitives}.
Variable refresh_response : list byte -> option (str * option Z * option str).
Variable c : TransportClient.

(** C2. Under [ForbidAfterWrite] a request reaches the wire at most once:
    whatever endpoints, relay, fence and refreshes answer, in every run at
    most one exchange begins to write; after it nothing is dialed or
    exchanged again, and the request ends with that exchange's response, with
    [ReplayUnsafe], or with the journal's refusal of the certificate or an
    over-cap response. *)
Theorem request_written_once tr r :
  does (request refresh_response c ForbidAfterWrite) tr r ->
  exists done, r = Some done /\ written_once tr done.
Proof.
  intros H. apply request_spec in H as (done & -> & n & m & _ & _ & _ & Hw & _). exists done. split; [done|]. by apply Hw.
Qed.

(** C27. A request always ends.  It dials each direct endpoint at most five
    times (for each time it is listed) and then the relay at most six, and
    backs off for at most five seconds; it never panics, its [attempts] is the
    number of dials it made, and the observer is told of each of them. *)
Theorem request_bounded replay tr r :
  does (request refresh_response c replay) tr r ->
  (forall e, tally (dials_endpoint e) tr <= 5 * occurrences e (cred_endpoints (credential c))) /\
  tally dials_relay tr <= 6 /\
  (exists t1 t2, tr = t1 ++ t2 /\ tally dials_relay t1 = 0 /\ forall e, tally (dials_endpoint e) t2 = 0) /\
  dials tr <= 5 * len (cred_endpoints (credential c)) + 6 /\ sleep_total tr <= 5000 /\ tally noted tr = dials tr /\
  exists done, r = Some done /\ done <> Panic /\ (forall o, done = Ok o -> outcome_attempts o = dials tr).
Proof.
  intros H. destruct (request_dials _ _ _ _ _ H) as (He & Hr & Hs). split; [done|]. split; [done|]. split; [done|].
  apply request_spec in H as (done & -> & n & m & [Hd Hn Hm] & ? & ? & _ & Hp & Ho).
  split_and!; [lia..|]. exists done. split_and!; [done|done|]. intros o Ho'. rewrite (Ho o Ho'). lia.
Qed.

(** C21. With a fence, in every request and every carrier opened under it: a
    token is committed or made live only when the fence has just answered
    [Allow], with nothing awaited in between; and the relay is dialed only when
    its last answer was [Allow] and nothing was awaited since but, once, the
    lock of the client's own live token, to read it. *)
Theorem fence_gates_relay p replay pre a r post :
  publication c = Some p -> has_fence p = true ->
  (exists x, does (request refresh_response c replay) (pre ++ Ev a r :: post) x) \/
  (exists x, does (open_carrier refresh_response c) (pre ++ Ev a r :: post) x) ->
  fence_open_for (fence_age pre) a = true.
Proof.
  intros Hp Hf [[x H]|[x H]]; eapply guards_does; try exact H.
  - by apply (request_free refresh_response c p Hp Hf).
  - by apply (open_carrier_free refresh_response c p Hp Hf).
Qed.

(** The fence does not hold back a refresh: when the live token is due
    for renewal, a request whose fence answers [Disabled] has already sent
    that token to the relay before it asks the fence at all. *)
Theorem refresh_before_fence p replay origin token now id v2 e :
  publication c = Some p -> has_fence p = true ->
  cred_endpoints (credential c) = [] -> cred_relay_origin (credential c) = Some origin ->
  is_Some (cred_device_token (credential c)) ->
  token_should_refresh token now = true -> token_renewal_identity token now = Some (id, v2) ->
  does (request refresh_response c replay)
    [Ev AIneligible false; Ev AIneligible false; Ev AGetToken token; Ev ANow now; Ev ALock tt; Ev AGetToken token; Ev ANow now;
     Ev (APost origin token) (inr e); Ev AUnlock tt; Ev (APermit (incarnation p)) Disabled]
    (Some (Err RelayDisabled)).
Proof.
  intros Hp Hf He Ho [tok Ht] Hs Hid. unfold request.
  apply (does_then _ _ [] _ (inr (0, None))); [by unfold request_lan, MAX_ATTEMPTS; rewrite He|]. cbn [default lan_unreachable negb].
  apply does_act. apply (does_then _ _ [_] _ true); [unfold relay_eligible; rewrite Ho, Ht; by apply does_act|].
  unfold request_over_relay. rewrite Ho.
  apply (does_then _ _ [_] _ (Ok token)); [unfold current_token; rewrite Ht; by apply does_act|].
  apply does_act. rewrite Hs.
  apply (does_then _ _ [Ev ALock tt; Ev AGetToken token; Ev ANow now; Ev (APost origin token) (inr e); Ev AUnlock tt]
           [Ev (APermit (incarnation p)) Disabled] None).
  - rewrite <- (app_nil_r [_; _; _; _; _]). apply (does_then _ _ _ _ RaTransient); [|done].
    unfold refresh_if_current. rewrite Ht. apply does_act, does_act. rewrite bool_decide_eq_true_2 by done. cbn [negb].
    apply (does_then _ _ [Ev ANow now; Ev (APost origin token) (inr e)] _ TransientError); [|by apply does_act].
    unfold refresh_device_token. rewrite <- (app_nil_r [_; _]). apply (does_then _ _ _ _ (Err e)); [|done].
    unfold refresh_device_token_inner. apply does_act. rewrite Hid. by apply does_act.
  - change RELAY_FUEL with (S 5). apply relay_loop_denied.
    unfold check_fence, relay_fence_permit. rewrite Hp, Hf. by apply (does_act (APermit (incarnation p)) Disabled).
Qed.

(** C11. One refresh at a time and none lost: in every interleaving of
    requests and carrier dials on one client, with any of them dropped
    anywhere, an operation that sends a token for refresh, commits a
    successor or replaces the live token holds the refresh lock, what it
    sends and what it names as the previous token is the live token at that
    moment, and whoever holds the lock can take its next step. *)
Theorem token_single_flight token ops l :
  Forall (client_op refresh_response c) ops ->
  let p := pool_run (pool_new token ops) l in
  (forall i a, next_action p i = Some a ->
    match a with
    | APost _ t => holder (shared p) = Some i /\ t = live (shared p)
    | ACommit ctx => holder (shared p) = Some i /\ previous_token ctx = live (shared p)
    | ASetToken _ => holder (shared p) = Some i
    | _ => True
    end) /\
  (forall i, holder (shared p) = Some i -> exists a, next_action p i = Some a /\ can_act (shared p) a = true).
Proof.
  intros Hops p. assert (Hp : pool_ok c p) by (apply pool_run_ok; by eapply pool_new_ok). destruct Hp as [Ht Hh].
  unfold next_action. split.
  - intros i a Ha. destruct (tasks p !! i) as [t|] eqn:Ei; [|done]. destruct (Ht i t Ei) as (h & Hho & Hti).
    destruct (code t) as [|b k]; [done|]. injection Ha as ->. destruct a; try done; cbn [tidy] in Hti.
    + destruct Hti as [[g ->] _]. destruct Hho as [? [?|[= ->]]]; done.
    + destruct Hti as [[g ->] _]. destruct Hho as [? [?|[= ?]]]; done.
    + destruct Hti as [(old & g & -> & _) _]. by destruct Hho.
  - intros i Hi. destruct (Hh i Hi) as [t Ei]. rewrite Ei. destruct (Ht i t Ei) as (h & Hho & Hti).
    assert (Hs : is_Some h) by (destruct h; [by eexists|]; by cbn in Hho).
    destruct (code t) as [x|a k]; cbn in Hti; [subst h; by destruct Hs|]. exists a. split; [done|].
    destruct a; try done. destruct Hti as [-> _]. by destruct Hs.
Qed.

End Claims.

(** ** Witnesses *)

Definition sample_credential : Credential := mkCredential (lit "home") [] (Some (lit "https://relay")) (Some (lit "h.object.s")).
Definition sample_client : TransportClient := mkClient sample_credential (Some (mkPublication true 1)) false.
Definition sample_refresh (b : list byte) : option (str * option Z * option str) := None.
Definition sample_answers (a : action) : result a :=
  match a return result a with
  | ADial _ | ADialRelay _ _ => None
  | ARun => (inr TlsRefused, true)
  | ATermination => None
  | ANow => 5000
  | APermit _ => Allow
  | AIneligible => false
  | AGetToken => lit "h.object.s"
  | APost _ _ => inr Json
  | ACommit _ => Some Unchanged
  | _ => tt
  end.
#[local] Instance sample_primitives : RelayPrimitives := Relay.sample_relay.

(** The relay carries the request, which is written and then refused. *)
Definition sample_run := run (fun _ => sample_answers) (request sample_refresh sample_client ForbidAfterWrite) [].
Lemma sample_does : does (request sample_refresh sample_client ForbidAfterWrite) (fst sample_run) (snd sample_run).
Proof. apply run_does. Qed.

Lemma request_written_once_witness :
  exists done, snd sample_run = Some done /\ written_once (fst sample_run) done.
Proof. exact (request_written_once sample_refresh sample_client _ _ sample_does). Defined.

Lemma request_bounded_witness : tally dials_relay (fst sample_run) <= 6 /\ snd sample_run = Some (Err (ReplayUnsafe TlsRefused)).
Proof.
  split; [|by vm_compute]. pose proof (request_bounded sample_refresh sample_client ForbidAfterWrite _ _ sample_does) as (_ & H & _).
  exact H.
Defined.

(** The relay is dialed after ten actions of the sample run. *)
Lemma fence_gates_relay_witness :
  exists a r post, fst sample_run = take 12 (fst sample_run) ++ Ev a r :: post /\ a <> AGetToken /\ fence_open_for (fence_age (take 12 (fst sample_run))) a = true.
Proof.
  pose proof sample_does as H.
  exists (ADialRelay (lit "https://relay") (lit "h.object.s")), None, (drop 13 (fst sample_run)).
  split; [by vm_compute|]. split; [done|].
  apply (fence_gates_relay sample_refresh sample_client (mkPublication true 1) ForbidAfterWrite _
           (ADialRelay (lit "https://relay") (lit "h.object.s")) None (drop 13 (fst sample_run))); [done|done|].
  left. exists (snd sample_run). replace (_ ++ _) with (fst sample_run) by by vm_compute. exact H.
Defined.

Lemma refresh_before_fence_witness :
  exists tr, does (request sample_refresh sample_client ForbidAfterWrite) tr (Some (Err RelayDisabled)) /\
    In (Ev (APost (lit "https://relay") (lit "h.object.s")) (inr Json)) tr.
Proof.
  eexists. split.
  - apply (refresh_before_fence sample_refresh sample_client (mkPublication true 1) ForbidAfterWrite (lit "https://relay")
             (lit "h.object.s") 5000 (lit "home") true Json); first [done | by eexists | by vm_compute].
  - cbn. tauto.
Defined.

(** Two requests at once: the second waits for the first's refresh. *)
Definition sample_ops : list (prog unit) :=
  [_ ← request sample_refresh sample_client ForbidAfterWrite; Ret tt; _ ← request sample_refresh sample_client ForbidAfterWrite; Ret tt].
Definition sample_schedule : list pool_event := replicate 7 (PAct 0 sample_answers) ++ replicate 7 (PAct 1 sample_answers).

Lemma token_single_flight_witness :
  let p := pool_run (pool_new (lit "h.object.s") sample_ops) sample_schedule in
  holder (shared p) = Some 0%nat /\ next_action p 0 = Some (APost (lit "https://relay") (lit "h.object.s")).
Proof.
  intros p. assert (Hn : next_action p 0 = Some (APost (lit "https://relay") (lit "h.object.s"))) by by vm_compute.
  split; [|exact Hn].
  refine (proj1 (proj1 (token_single_flight sample_refresh sample_client (lit "h.object.s") sample_ops sample_schedule _) 0%nat _ Hn)).
  repeat constructor.
Defined.
