(* ===== verification/Exchange.v ===== *)
(** * One request over one stream

    [crates/spl-transport/src/connection.rs],
    [run_request_over_stream_with_options]: the upload paced by the peer's
    credit, the answers to control frames, the assembled response, and the
    journal's verdict read after a failure.  [Client.v] performs this exchange as
    the action [ARun].  A stream is the script of what its reads give and what its
    writes and flushes come to; what is written is recorded in order. *)

From S2P Require Import Prelude Text Frame Http Window Upload Assembler Relay Client.

(** ** The stream *)

(** The TLS alert a failed operation carries, if any. *)
Inductive Alert := AlertAccessDenied | AlertCertificateUnknown | AlertOther.
Inductive ReadOutcome := RData (bytes : list byte) | RError (alert : option Alert) | RTimeout.
Inductive WriteOutcome := WDone | WError (alert : option Alert) | WTimeout.

(** A write is a request frame or anything else; a failed one is recorded too,
    since part of it may have gone out. *)
Record Stream := mkStream {
  reads : list ReadOutcome;
  outcomes : list WriteOutcome;
  writes : list (bool * list byte)
}.

Inductive RefusalNaming := BeforeFirstData | Never.

(** [classify_tls_refusal] *)
Definition classify_tls_refusal (alert : option Alert) : option TransportError :=
  match alert with
  | Some AlertAccessDenied => Some TlsAccessDenied
  | Some AlertCertificateUnknown => Some TlsCertificateUnknown
  | Some AlertOther => Some TlsRefused
  | None => None
  end.

Definition stream_error (alert : option Alert) (accepted : bool) : TransportError :=
  if accepted then Io OtherIo else default (Io OtherIo) (classify_tls_refusal alert).

(** The next outcome of a write or a flush; a script that ends goes on well. *)
Definition take_outcome (s : Stream) : Stream * WriteOutcome :=
  match outcomes s with
  | o :: rest => (mkStream (reads s) rest (writes s), o)
  | [] => (s, WDone)
  end.
Definition write_result (o : WriteOutcome) (accepted : bool) : option TransportError :=
  match o with
  | WDone => None
  | WError alert => Some (stream_error alert accepted)
  | WTimeout => Some (Io OtherIo)
  end.

Definition write_all_with_timeout (request : bool) (bytes : list byte) (accepted : bool) (s : Stream) : Stream * option TransportError :=
  let '(s, o) := take_outcome s in
  (mkStream (reads s) (outcomes s) (writes s ++ [(request, bytes)]), write_result o accepted).
Definition flush_with_timeout (accepted : bool) (s : Stream) : Stream * option TransportError :=
  let '(s, o) := take_outcome s in (s, write_result o accepted).

(** The next read; a script that ends is a peer that says nothing more. *)
Definition next_read (s : Stream) : Stream * ReadOutcome :=
  match reads s with
  | r :: rest => (mkStream rest (outcomes s) (writes s), r)
  | [] => (s, RTimeout)
  end.

(** ** The exchange *)

Record Exchange := mkExchange {
  upload : WindowedUpload;
  body_offset : Z;
  assembler : ResponseAssembler;
  xaccepted : bool;
  stream : Stream;
  write_initiated : bool;
  sent_data_payload_bytes : Z;
  notes : list Note
}.

Definition with_upload (x : Exchange) (u : WindowedUpload) (offset : Z) : Exchange :=
  mkExchange u offset (assembler x) (xaccepted x) (stream x) (write_initiated x) (sent_data_payload_bytes x) (notes x).
Definition with_stream (x : Exchange) (s : Stream) : Exchange :=
  mkExchange (upload x) (body_offset x) (assembler x) (xaccepted x) s (write_initiated x) (sent_data_payload_bytes x) (notes x).
Definition with_assembler (x : Exchange) (ra : ResponseAssembler) (accepted : bool) : Exchange :=
  mkExchange (upload x) (body_offset x) ra accepted (stream x) (write_initiated x) (sent_data_payload_bytes x) (notes x).
Definition initiate (x : Exchange) : Exchange :=
  mkExchange (upload x) (body_offset x) (assembler x) (xaccepted x) (stream x) true (sent_data_payload_bytes x) (notes x).
(** [note_request_bytes] once a frame with payload is out. *)
Definition note_payload (payload_len : Z) (x : Exchange) : Exchange :=
  if payload_len >? 0 then
    let total := sent_data_payload_bytes x + payload_len in
    mkExchange (upload x) (body_offset x) (assembler x) (xaccepted x) (stream x) (write_initiated x) total (notes x ++ [NoteRequestBytes total])
  else x.

(** [frame[4]] is read only past the header's length. *)
Definition payload_len_of (frame : list byte) : Z :=
  if (len frame >? HEADER_LEN) && match frame !! 4%nat with Some b => has (u8 b) FLAG_DATA | None => false end
  then len frame - HEADER_LEN else 0.

Definition send_frames (fs : list (list byte)) (x : Exchange) : Exchange * option TransportError :=
  (fix go fs s := match fs with
     | [] => (with_stream x s, None)
     | f :: fs =>
         match write_all_with_timeout false f (xaccepted x) s with
         | (s, None) => go fs s
         | (s, Some e) => (with_stream x s, Some e)
         end
     end) fs (stream x).

Definition flush (x : Exchange) : Exchange * option TransportError :=
  let '(s, e) := flush_with_timeout (xaccepted x) (stream x) in (with_stream x s, e).

(** How a stage ends: it goes on with a value, fails, panics, or its fuel is out. *)
Inductive stage (A : Type) := Next (a : A) | Fail (e : TransportError) | Crash | Fuel.
Arguments Next {A} _.
Arguments Fail {A} _.
Arguments Crash {A}.
Arguments Fuel {A}.

(** Stage as much of the body as the upload has room for. *)
Definition feed_stage (body : list byte) (x : Exchange) : Exchange * stage unit :=
  match body_capacity (upload x) with
  | Ok capacity =>
      if (capacity >? 0) && (body_offset x <? len body) then
        let end_ := Z.min (body_offset x + capacity) (len body) in
        match feed_body (upload x) (slice body (body_offset x) end_) with
        | (u, Ok _) => (with_upload x u end_, Next tt)
        | (u, Err _) => (with_upload x u (body_offset x), Fail (Io InvalidInput))
        | (u, Panic) => (with_upload x u (body_offset x), Crash)
        end
      else (x, Next tt)
  | _ => (x, Crash)
  end.

(** The send loop; its value is whether anything was written. *)
Fixpoint send_loop (fuel : nat) (body : list byte) (wrote : bool) (x : Exchange) : Exchange * stage bool :=
  match fuel with
  | O => (x, Fuel)
  | S fuel =>
      match feed_stage body x with
      | (x, Fail e) => (x, Fail e)
      | (x, Crash) => (x, Crash)
      | (x, Fuel) => (x, Fuel)
      | (x, Next _) =>
          match poll_send (upload x) with
          | (u, Ok None) => (with_upload x u (body_offset x), Next wrote)
          | (u, Ok (Some frame)) =>
              let x := initiate (with_upload x u (body_offset x)) in
              match write_all_with_timeout true frame (xaccepted x) (stream x) with
              | (s, None) => send_loop fuel body true (note_payload (payload_len_of frame) (with_stream x s))
              | (s, Some e) => (with_stream x s, Fail e)
              end
          | (u, Err e) => (with_upload x u (body_offset x), Fail (MuxFailed (MuxFrame e)))
          | (u, Panic) => (with_upload x u (body_offset x), Crash)
          end
      end
  end.

(** Send what the window permits, unless the peer has closed the stream. *)
Definition send_stage (fuel : nat) (body : list byte) (x : Exchange) : Exchange * stage unit :=
  if ra_is_closed (assembler x) then (x, Next tt)
  else
    match send_loop fuel body false x with
    | (x, Next true) => match flush x with (x, None) => (x, Next tt) | (x, Some e) => (x, Fail e) end
    | (x, Next false) => (x, Next tt)
    | (x, Fail e) => (x, Fail e)
    | (x, Crash) => (x, Crash)
    | (x, Fuel) => (x, Fuel)
    end.

(** Credit from the peer; an overflow is answered and ends the exchange. *)
Fixpoint apply_grants (stream_id : Z) (grants : list Z) (x : Exchange) : Exchange * stage unit :=
  match grants with
  | [] => (x, Next tt)
  | credit :: grants =>
      match grant (upload x) credit with
      | (u, Ok _) => apply_grants stream_id grants (with_upload x u (body_offset x))
      | (u, Err _) =>
          let x := with_upload x u (body_offset x) in
          match encode (reset stream_id RESET_FLOW_CONTROL_ERROR) with
          | Ok bytes =>
              match send_frames [bytes] x with
              | (x, Some e) => (x, Fail e)
              | (x, None) => match flush x with (x, Some e) => (x, Fail e) | (x, None) => (x, Fail (MuxFailed FlowControl)) end
              end
          | Err e => (x, Fail (MuxFailed (MuxFrame e)))
          | Panic => (x, Crash)
          end
      | (u, Panic) => (with_upload x u (body_offset x), Crash)
      end
  end.

(** What one read brings. *)
Definition receive_stage (stream_id : Z) (bytes : list byte) (x : Exchange) : Exchange * stage unit :=
  match ra_feed (assembler x) bytes with
  | (ra, Err e) => (with_assembler x ra true, Fail (MuxFailed e))
  | (ra, Panic) => (with_assembler x ra true, Crash)
  | (ra, Ok out) =>
      match apply_grants stream_id (window_grants out) (with_assembler x ra true) with
      | (x, Next _) =>
          match send_frames (pongs out ++ emit_frames out) x with
          | (x, Some e) => (x, Fail e)
          | (x, None) =>
              match (if bool_decide (pongs out ++ emit_frames out = []) then (x, None) else flush x) with
              | (x, Some e) => (x, Fail e)
              | (x, None) => match terminal_error out with Some e => (x, Fail (MuxFailed e)) | None => (x, Next tt) end
              end
          end
      | r => r
      end
  end.

(** The loop, once per read. *)
Fixpoint exchange_loop (fuel : nat) (stream_id : Z) (body : list byte) (script : list ReadOutcome) (x : Exchange) : Exchange * stage unit :=
  match send_stage fuel body x with
  | (x, Next _) =>
      if ra_is_closed (assembler x) then (x, Next tt)
      else
        match script with
        | [] => (x, Fail (Io OtherIo))
        | r :: script =>
            let x := with_stream x (fst (next_read (stream x))) in
            match r with
            | RTimeout => (x, Fail (Io OtherIo))
            | RError alert => (x, Fail (stream_error alert (xaccepted x)))
            | RData [] => (x, Next tt)
            | RData bytes =>
                match receive_stage stream_id bytes x with
                | (x, Next _) => exchange_loop fuel stream_id body script x
                | r => r
                end
            end
        end
  | r => r
  end.

(** [read_verdict] *)
Definition read_verdict (x : Exchange) : option TransportError :=
  if xaccepted x then None
  else match snd (next_read (stream x)) with RError alert => classify_tls_refusal alert | _ => None end.

(** Every frame takes at least one byte of the request, or is its CLOSE. *)
Definition send_fuel (head body : list byte) : nat := length head + length body + 3.

Definition stream_id_of : Z := snd (allocate dialer_default).

Definition exchange_new (head body : list byte) (response_cap : Z) (naming : RefusalNaming) (s : Stream) : Exchange :=
  mkExchange (upload_new stream_id_of head (len body)) 0 (ra_with_cap stream_id_of response_cap)
    (match naming with Never => true | BeforeFirstData => false end) s false 0 [].

Definition run_request_over_stream_with_options (head body : list byte) (response_cap : Z) (naming : RefusalNaming) (s : Stream)
  : Exchange * stage HttpResponse :=
  let x := exchange_new head body response_cap naming s in
  match exchange_loop (send_fuel head body) stream_id_of body (reads s) x with
  | (x, Fail (Io OtherIo)) => (x, Fail (default (Io OtherIo) (read_verdict x)))
  | (x, Fail e) => (x, Fail e)
  | (x, Crash) => (x, Crash)
  | (x, Fuel) => (x, Fuel)
  | (x, Next _) =>
      match into_response (assembler x) with
      | Ok response =>
          (if is_done (upload x)
           then mkExchange (upload x) (body_offset x) (assembler x) (xaccepted x) (stream x) (write_initiated x)
                  (sent_data_payload_bytes x) (notes x ++ [NoteCloseCompleted])
           else x, Next response)
      | Err e => (x, Fail (MuxFailed e))
      | Panic => (x, Crash)
      end
  end.

(** The whole request: [http::build_request_head] gives its head. *)
Definition run_request (method path : str) (headers : Headers) (body : list byte) (response_cap : Z) (naming : RefusalNaming) (s : Stream) :=
  run_request_over_stream_with_options (build_request_head method path headers (len body)) body response_cap naming s.

(** ** The request frames of a stream *)

Definition requests (ws : list (bool * list byte)) : list (list byte) := concat ((fun w : bool * list byte => if fst w then [snd w] else []) <$> ws).
Lemma requests_app a b : requests (a ++ b) = requests a ++ requests b.
Proof. unfold requests. by rewrite fmap_app, concat_app. Qed.

Definition is_refusal (e : TransportError) : bool :=
  match e with TlsAccessDenied | TlsCertificateUnknown | TlsRefused => true | _ => false end.
Lemma stream_error_refusal alert accepted : is_refusal (stream_error alert accepted) = true -> accepted = false.
Proof. unfold stream_error. by destruct accepted. Qed.
Lemma write_result_refusal o accepted e : write_result o accepted = Some e -> is_refusal e = true -> accepted = false.
Proof. destruct o; [done| |]; intros [= <-]; [apply stream_error_refusal|done]. Qed.

Lemma take_outcome_writes s s' o : take_outcome s = (s', o) -> reads s' = reads s /\ writes s' = writes s.
Proof. unfold take_outcome. destruct (outcomes s); by intros [= <- <-]. Qed.

Lemma write_all_spec request bytes accepted s s' r :
  write_all_with_timeout request bytes accepted s = (s', r) ->
  reads s' = reads s /\ writes s' = writes s ++ [(request, bytes)] /\
  (forall e, r = Some e -> is_refusal e = true -> accepted = false).
Proof.
  unfold write_all_with_timeout. destruct (take_outcome s) as [s1 o] eqn:E. apply take_outcome_writes in E as [Hr Hw].
  intros [= <- <-]. cbn. rewrite Hr, Hw. split_and!; [done..|]. intros e. apply write_result_refusal.
Qed.

(** What stays while frames other than the request's are written. *)
Record same_but_stream (x x' : Exchange) : Prop := {
  same_upload : upload x' = upload x; same_offset : body_offset x' = body_offset x;
  same_assembler : assembler x' = assembler x; same_accepted : xaccepted x' = xaccepted x;
  same_initiated : write_initiated x' = write_initiated x;
  same_reads : reads (stream x') = reads (stream x);
  same_requests : requests (writes (stream x')) = requests (writes (stream x))
}.
Lemma same_refl x : same_but_stream x x. Proof. done. Qed.
Lemma same_trans x y z : same_but_stream x y -> same_but_stream y z -> same_but_stream x z.
Proof. intros [] []. split; congruence. Qed.

Lemma flush_spec x x' r :
  flush x = (x', r) -> same_but_stream x x' /\ (forall e, r = Some e -> is_refusal e = true -> xaccepted x = false).
Proof.
  unfold flush, flush_with_timeout. destruct (take_outcome (stream x)) as [s o] eqn:E. apply take_outcome_writes in E as [Hr Hw].
  intros [= <- <-]. split; [split; cbn; congruence|]. intros e. apply write_result_refusal.
Qed.

Lemma send_frames_spec fs x x' r :
  send_frames fs x = (x', r) -> same_but_stream x x' /\ (forall e, r = Some e -> is_refusal e = true -> xaccepted x = false).
Proof.
  unfold send_frames. assert (H : forall s, reads s = reads (stream x) -> requests (writes s) = requests (writes (stream x)) ->
    (fix go fs s := match fs with
     | [] => (with_stream x s, None)
     | f :: fs => match write_all_with_timeout false f (xaccepted x) s with
                  | (s, None) => go fs s
                  | (s, Some e) => (with_stream x s, Some e)
                  end
     end) fs s = (x', r) ->
    same_but_stream x x' /\ (forall e, r = Some e -> is_refusal e = true -> xaccepted x = false)); [|by apply H].
  induction fs as [|f fs IH]; intros s Hr Hw.
  { intros [= <- <-]. by split. }
  destruct (write_all_with_timeout false f (xaccepted x) s) as [s1 [e|]] eqn:E; apply write_all_spec in E as (Hr1 & Hw1 & He).
  - intros [= <- <-]. split; [split; cbn; try done; [congruence|]|].
    + rewrite Hw1, requests_app. cbn. by rewrite app_nil_r.
    + intros e' [= <-]. by apply He.
  - apply IH; [congruence|]. rewrite Hw1, requests_app. cbn. by rewrite app_nil_r.
Qed.

(** Grants the assembler passes on are unsigned. *)
Abbreviation unsigned_grants out := (Forall (fun g => 0 <= g) (window_grants out)).
Lemma close_bit_grants ra out f ra' o : ra_close_bit ra out f = (ra', Ok (Continue o)) -> window_grants o = window_grants out.
Proof. unfold ra_close_bit. case_match; by intros [= <- <-]. Qed.
Lemma ra_frame_grants ra out f ra' e :
  unsigned_grants out -> ra_frame ra out f = (ra', Ok e) -> match e with Continue o | Break o => unsigned_grants o end.
Proof.
  intros Ho H. assert (Hgoal : forall o, e = Continue o \/ e = Break o -> unsigned_grants o); [|destruct e; apply Hgoal; auto].
  intros o Heo. unfold ra_frame in H. destruct (control_pong f); [repeat case_match; naive_solver|].
  destruct (negb (stream_id f =? ra_stream_id ra)); [naive_solver|]. destruct (window_credit f) as [c|] eqn:Ew.
  { destruct Heo as [->| ->]; [|done]. injection H as <- <-. cbn. apply list.Forall_app. split; [done|].
    constructor; [|constructor]. apply window_credit_range in Ew. lia. }
  assert (Hc : forall ra0 o', window_grants o' = window_grants out -> ra_close_bit ra0 o' f = (ra', Ok e) -> unsigned_grants o).
  { intros ra0 o' Hw. unfold ra_close_bit. destruct (has (flags f) FLAG_CLOSE); intros Hx; destruct Heo as [->| ->]; simplify_eq; cbn; by rewrite ?Hw. }
  destruct (has (flags f) FLAG_RESET); [naive_solver|].
  destruct (has (flags f) FLAG_DATA); [|by eapply Hc; [|exact H]]. unfold ra_data in H.
  repeat case_match; try discriminate; try (eapply Hc; [|exact H]; done). naive_solver.
Qed.
Lemma ra_frames_grants fs ra out ra' o :
  unsigned_grants out -> ra_frames ra out fs = (ra', Ok o) -> unsigned_grants o.
Proof.
  revert ra out. induction fs as [|f fs IH]; intros ra out Ho; cbn [ra_frames]; [by intros [= <- <-]|].
  destruct (ra_frame ra out f) as [ra1 [e| |]] eqn:Ef; [|done..]. pose proof (ra_frame_grants _ _ _ _ _ Ho Ef) as He.
  destruct e as [o1|o1]; [by apply IH|]. by intros [= <- <-].
Qed.
Lemma ra_feed_grants ra data ra' o : ra_feed ra data = (ra', Ok o) -> unsigned_grants o.
Proof.
  unfold ra_feed. case_match; [done|]. destruct (drain _) as [d [fs| |]]; [|done..]. apply ra_frames_grants. constructor.
Qed.

(** ** What the send loop keeps *)

Section Sending.
Variables (head body : list byte).
Hypothesis Hbody : len body < 2 ^ 64.
Abbreviation sid := stream_id_of.

Lemma sid_u32 : is_u32 sid. Proof. done. Qed.
Lemma body_usize : is_usize (len body). Proof. split; lia. Qed.

(** The upload has been fed the body up to the offset, and its frames are the
    request frames written. *)
Definition uploads (x : Exchange) (l : upload_log) (ds : list Frame) : Prop :=
  upload_inv head (len body) sid (upload x) l ds /\ fed l = ztake (body_offset x) body /\
  0 <= body_offset x <= len body /\ sent l = requests (writes (stream x)).

(** Bytes and the CLOSE still to send. *)
Definition to_send (u : WindowedUpload) : Z :=
  (len head - head_offset u) + (len body - emitted_body_len u) + (if up_closed u then 0 else 1).

Lemma poll_decreases l ds u u' w :
  upload_inv head (len body) sid u l ds -> poll_send u = (u', Ok (Some w)) -> to_send u' < to_send u.
Proof.
  intros I H. pose proof I as []. unfold poll_send, usub, checked_sub in H. rewrite inv_head in H.
  destruct (head_offset u <=? len head) eqn:E; cbn [expect] in H; [|lia]. unfold to_send.
  destruct (len head - head_offset u >? 0) eqn:Eh.
  - replace (len head - head_offset u >? 0) with true in H by lia. destruct (send_credit u =? 0) eqn:Ec; [done|].
    injection H as <- _. cbn. unfold RECOMMENDED_CHUNK, MAX_PAYLOAD. destruct (up_closed u); lia.
  - destruct (len (up_body u) >? 0) eqn:Eb.
    + destruct (send_credit u =? 0) eqn:Ec; [done|]. injection H as <- _. cbn. unfold RECOMMENDED_CHUNK, MAX_PAYLOAD.
      destruct (up_closed u); lia.
    + destruct (_ && _) eqn:Ecl; [|done]. injection H as <- _. cbn. destruct (up_closed u); [done|lia].
Qed.

Lemma to_send_nonneg u l ds : upload_inv head (len body) sid u l ds -> 0 <= to_send u.
Proof. intros I. pose proof I as []. unfold to_send. destruct inv_fed. case_match; lia. Qed.

(** A poll writes one more frame of the upload, or none. *)
Lemma poll_cases x l ds :
  uploads x l ds ->
  exists u' o l' ds', poll_send (upload x) = (u', Ok o) /\
    upload_inv head (len body) sid u' l' ds' /\ fed l' = fed l /\ sent l' = sent l ++ match o with Some w => [w] | None => [] end.
Proof.
  intros (I & _). destruct (upload_step_inv head (len body) sid sid_u32 body_usize _ l ds Poll I) as (u' & l' & ds' & Hs & I'); [done|].
  unfold upload_step in Hs. destruct (poll_send (upload x)) as [u1 [[w|]|e|]]; [| |done..]; injection Hs as -> <-.
  - by exists u', (Some w), (mkLog (sent l ++ [w]) (fed l) (grants l)), ds'.
  - exists u', None, l, ds'. split_and!; [done..|]. by rewrite app_nil_r.
Qed.
Lemma feed_stage_spec x l ds :
  uploads x l ds ->
  exists x' l', feed_stage body x = (x', Next tt) /\ uploads x' l' ds /\ to_send (upload x') = to_send (upload x) /\
    assembler x' = assembler x /\ xaccepted x' = xaccepted x /\ stream x' = stream x /\ write_initiated x' = write_initiated x.
Proof.
  intros U. pose proof U as (I & Hf & Ho & Hs). pose proof I as []. destruct inv_fed as [Hfl Hfd].
  unfold feed_stage, body_capacity, usub, checked_sub.
  destruct (len (up_body (upload x)) <=? UPLOAD_BODY_STAGE_CAPACITY) eqn:E1; [|lia]. cbn [expect mbind res_bind].
  destruct (fed_body_len (upload x) <=? declared_body_len (upload x)) eqn:E2; [|lia]. cbn [expect mbind res_bind].
  set (room := Z.min _ _). destruct ((room >? 0) && (body_offset x <? len body)) eqn:E3; [|by exists x, l; split_and!].
  set (end_ := Z.min (body_offset x + room) (len body)). set (bytes := slice body (body_offset x) end_).
  assert (Hlen : len bytes = end_ - body_offset x) by (unfold bytes; apply len_slice; lia).
  destruct (feed_body_inv head (len body) sid sid_u32 body_usize _ l ds bytes I) as (u' & l' & Hstep & I').
  assert (Hfb : feed_body (upload x) bytes = (u', Ok tt) /\ l' = mkLog (sent l) (fed l ++ bytes) (grants l) /\
                to_send u' = to_send (upload x)).
  { unfold upload_step, feed_body, usub, checked_sub in *. rewrite E1, E2 in *. cbn [expect] in *.
    destruct (len bytes >? declared_body_len (upload x) - fed_body_len (upload x)) eqn:E4; [lia|].
    destruct (len bytes >? UPLOAD_BODY_STAGE_CAPACITY - len (up_body (upload x))) eqn:E5; [lia|].
    injection Hstep as <- <-. done. }
  destruct Hfb as (-> & -> & Hts). exists (with_upload x u' end_), (mkLog (sent l) (fed l ++ bytes) (grants l)).
  split; [done|]. split; [|done]. split_and!; [done| |cbn; lia|cbn; lia|done]. cbn [fed body_offset with_upload].
  pose proof (take_snoc_slice body (body_offset x) (end_ - body_offset x) ltac:(lia) ltac:(lia)) as Ht.
  rewrite Zplus_minus in Ht. by rewrite Ht, Hf.
Qed.

(** What sending leaves alone, and how its flag follows its writes. *)
Record keeps (x x' : Exchange) : Prop := {
  keeps_assembler : assembler x' = assembler x; keeps_accepted : xaccepted x' = xaccepted x;
  keeps_reads : reads (stream x') = reads (stream x);
  keeps_flag : write_initiated x = true -> write_initiated x' = true;
  keeps_unwritten : write_initiated x' = false -> requests (writes (stream x')) = requests (writes (stream x))
}.
Lemma keeps_refl x : keeps x x. Proof. done. Qed.
Lemma keeps_trans x y z : keeps x y -> keeps y z -> keeps x z.
Proof.
  intros [A1 B1 C1 D1 E1] [A2 B2 C2 D2 E2]. split; try congruence; [tauto|].
  intros Hz. rewrite E2 by done. apply E1. destruct (write_initiated y); [by rewrite D2 in Hz|done].
Qed.
Lemma keeps_of_same x x' : same_but_stream x x' -> keeps x x'.
Proof. intros [_ _ A B C D E]. split; congruence. Qed.
Lemma keeps_initiated x x' : assembler x' = assembler x -> xaccepted x' = xaccepted x -> reads (stream x') = reads (stream x) ->
  write_initiated x' = true -> keeps x x'.
Proof. intros. split; congruence. Qed.

Lemma note_payload_same n x : uploads x = uploads (note_payload n x) /\ upload (note_payload n x) = upload x /\ same_but_stream x (note_payload n x).
Proof. unfold note_payload. by case_match. Qed.

(** How a stage may end: going on, or failing with a refusal only before the
    peer was accepted. *)
Definition ends_well {A} (accepted : bool) (r : stage A) : Prop :=
  match r with Next _ => True | Fail e => is_refusal e = true -> accepted = false | Crash | Fuel => False end.

Lemma send_loop_spec fuel wrote x l ds :
  uploads x l ds -> to_send (upload x) < Z.of_nat fuel ->
  exists x' r l' ds', send_loop fuel body wrote x = (x', r) /\ uploads x' l' ds' /\ keeps x x' /\ ends_well (xaccepted x) r.
Proof.
  revert wrote x l ds. induction fuel as [|fuel IH]; intros wrote x l ds U Hfuel; cbn [send_loop].
  { pose proof (to_send_nonneg _ _ _ (proj1 U)). lia. }
  destruct (feed_stage_spec x l ds U) as (x1 & l1 & -> & U1 & Hts & Ha & Hac & Hst & Hin).
  destruct (poll_cases x1 l1 ds U1) as (u' & o & l2 & ds2 & Hp & I2 & Hfed & Hsent). rewrite Hp.
  destruct U1 as (I1 & Hf1 & Ho1 & Hs1). destruct o as [frame|].
  - set (x2 := initiate (with_upload x1 u' (body_offset x1))).
    destruct (write_all_with_timeout true frame (xaccepted x2) (stream x2)) as [s e] eqn:Ew.
    apply write_all_spec in Ew as (Hr & Hw & He).
    assert (U2 : uploads (with_stream x2 s) l2 ds2).
    { split_and!; [done|by rewrite Hfed|apply Ho1|apply Ho1|]. cbn. rewrite Hw, requests_app, Hsent, Hs1. done. }
    assert (K2 : keeps x (with_stream x2 s)).
    { apply keeps_initiated; [done|done| |done]. cbn. cbn in Hr. by rewrite Hr, Hst. }
    destruct e as [e|].
    + exists (with_stream x2 s), (Fail e), l2, ds2. split_and!; [done..|]. cbn. cbn in He. rewrite Hac in He. intros Hre. by apply (He e).
    + destruct (note_payload_same (payload_len_of frame) (with_stream x2 s)) as (Hu & Hup & Hsame).
      set (x3 := note_payload (payload_len_of frame) (with_stream x2 s)) in *.
      rewrite Hu in U2. destruct (IH true x3 l2 ds2 U2) as (x' & r & l' & ds' & Hrun & U' & K' & E').
      { rewrite Hup. cbn. pose proof (poll_decreases _ _ _ _ _ I1 Hp). lia. }
      exists x', r, l', ds'. split_and!; [done|done| |].
      * eapply keeps_trans; [exact K2|]. eapply keeps_trans; [apply keeps_of_same, Hsame|done].
      * rewrite (same_accepted _ _ Hsame) in E'. cbn in E'. by rewrite Hac in E'.
  - exists (with_upload x1 u' (body_offset x1)), (Next wrote), l2, ds2. split_and!; [done| | |done].
    + split_and!; [done|by rewrite Hfed|apply Ho1|apply Ho1|]. cbn. by rewrite Hsent, app_nil_r, Hs1.
    + split; cbn; congruence.
Qed.

Lemma uploads_same x x' l ds : same_but_stream x x' -> uploads x l ds -> uploads x' l ds.
Proof. intros [A B _ _ _ _ C] (I & Hf & Ho & Hs). unfold uploads. rewrite A, B, C. done. Qed.

Lemma send_stage_spec fuel x l ds :
  uploads x l ds -> to_send (upload x) < Z.of_nat fuel ->
  exists x' r l' ds', send_stage fuel body x = (x', r) /\ uploads x' l' ds' /\ keeps x x' /\ ends_well (xaccepted x) r.
Proof.
  intros U Hfuel. unfold send_stage. destruct (ra_is_closed (assembler x)).
  { exists x, (Next tt), l, ds. split_and!; [done|done|apply keeps_refl|done]. }
  destruct (send_loop_spec fuel false x l ds U Hfuel) as (x1 & r & l1 & ds1 & -> & U1 & K1 & E1).
  destruct r as [[|]|e| |]; [|by exists x1, (Next tt), l1, ds1|by exists x1, (Fail e), l1, ds1|done..].
  destruct (flush x1) as [x2 [e|]] eqn:Ef; apply flush_spec in Ef as [Hs He].
  - exists x2, (Fail e), l1, ds1. split_and!; [done|by eapply uploads_same|eapply keeps_trans; [done|by apply keeps_of_same]|].
    cbn. rewrite (keeps_accepted _ _ K1) in He. by apply He.
  - exists x2, (Next tt), l1, ds1. split_and!; [done|by eapply uploads_same|eapply keeps_trans; [done|by apply keeps_of_same]|done].
Qed.

Lemma apply_grants_spec gs x l ds :
  uploads x l ds -> Forall (fun g => 0 <= g) gs ->
  exists x' r l', apply_grants sid gs x = (x', r) /\ uploads x' l' ds /\ keeps x x' /\ ends_well (xaccepted x) r.
Proof.
  intros U Hg. revert x l U. induction Hg as [|g gs Hg Hgs IH]; intros x l U; cbn [apply_grants].
  { exists x, (Next tt), l. split_and!; [done|done|apply keeps_refl|done]. }
  destruct U as (I & Hf & Ho & Hs).
  destruct (grant_inv head (len body) sid (upload x) l ds g I Hg) as (u' & l' & Hstep & I').
  assert (Hl : fed l' = fed l /\ sent l' = sent l /\ exists r, grant (upload x) g = (u', r) /\ r <> Panic).
  { unfold upload_step in Hstep. destruct (grant (upload x) g) as [u1 [[]|v|]]; [| |done]; injection Hstep as <- <-; eauto 6. }
  destruct Hl as (Hf' & Hs' & r & -> & Hr).
  assert (U' : uploads (with_upload x u' (body_offset x)) l' ds) by (unfold uploads; rewrite Hf', Hs'; done).
  assert (K' : keeps x (with_upload x u' (body_offset x))) by done. destruct r as [[]|v|]; [| |done].
  - destruct (IH _ _ U') as (x2 & r & l2 & -> & U2 & K2 & E2). exists x2, r, l2.
    split_and!; [done|done|by eapply keeps_trans|exact E2].
  - rewrite (encode_ok _ (wf_reset_frame sid _ sid_u32)). set (x1 := with_upload x u' (body_offset x)) in *.
    destruct (send_frames [_] x1) as [x2 [e|]] eqn:Ew; apply send_frames_spec in Ew as [Hs2 He2].
    { exists x2, (Fail e), l'. split_and!; [done|by eapply uploads_same|eapply keeps_trans; [done|by apply keeps_of_same]|]. exact (He2 e eq_refl). }
    destruct (flush x2) as [x3 [e|]] eqn:Ef; apply flush_spec in Ef as [Hs3 He3].
    all: pose proof (same_trans _ _ _ Hs2 Hs3) as Hs13.
    + exists x3, (Fail e), l'. split_and!; [done|by eapply uploads_same|eapply keeps_trans; [done|by apply keeps_of_same]|].
      cbn. rewrite (same_accepted _ _ Hs2) in He3. exact (He3 e eq_refl).
    + exists x3, (Fail (MuxFailed FlowControl)), l'. split_and!; [done|by eapply uploads_same|eapply keeps_trans; [done|by apply keeps_of_same]|done].
Qed.

(** One read: the assembler has been fed, and everything else is as sending leaves it. *)
Lemma receive_stage_spec bytes x l ds :
  uploads x l ds -> ra_inv (assembler x) -> flow_control_failed (assembler x) = false ->
  exists x' r l', receive_stage sid bytes x = (x', r) /\ uploads x' l' ds /\
    xaccepted x' = true /\ reads (stream x') = reads (stream x) /\
    (write_initiated x = true -> write_initiated x' = true) /\
    (write_initiated x' = false -> requests (writes (stream x')) = requests (writes (stream x))) /\
    match r with
    | Next _ => exists out, ra_feed (assembler x) bytes = (assembler x', Ok out) /\ ra_inv (assembler x') /\ flow_control_failed (assembler x') = false
    | Fail e => is_refusal e = false
    | _ => False
    end.
Proof.
  intros U I Hff. unfold receive_stage. pose proof (response_feed_safe (assembler x) bytes I Hff) as Hsafe.
  destruct (ra_feed (assembler x) bytes) as [ra [out|e|]] eqn:Efeed; [| |done].
  2: { exists (with_assembler x ra true), (Fail (MuxFailed e)), l. by split_and!. }
  set (x1 := with_assembler x ra true). assert (U1 : uploads x1 l ds) by done.
  destruct (apply_grants_spec (window_grants out) x1 l ds U1 (ra_feed_grants _ _ _ _ Efeed)) as (x2 & r & l2 & -> & U2 & K2 & E2).
  assert (Hfail : forall e, (is_refusal e = true -> xaccepted x1 = false) -> is_refusal e = false).
  { intros e He. destruct (is_refusal e); [by specialize (He eq_refl)|done]. }
  assert (Hkeep : forall x3, keeps x1 x3 -> xaccepted x3 = true /\ reads (stream x3) = reads (stream x) /\
    (write_initiated x = true -> write_initiated x3 = true) /\
    (write_initiated x3 = false -> requests (writes (stream x3)) = requests (writes (stream x)))).
  { intros x3 [A B C D E]. split_and!; [by rewrite B|by rewrite C|exact D|exact E]. }
  destruct r as [[]|e| |]; [| |done..].
  2: { exists x2, (Fail e), l2. destruct (Hkeep _ K2) as (? & ? & ? & ?). split_and!; try done. by apply Hfail. }
  destruct (send_frames (pongs out ++ emit_frames out) x2) as [x3 o] eqn:Ew. apply send_frames_spec in Ew as [Hs3 He3].
  rewrite (keeps_accepted _ _ K2) in He3.
  assert (U3 : uploads x3 l2 ds) by (by eapply uploads_same). assert (K3 : keeps x1 x3) by (eapply keeps_trans; [done|by apply keeps_of_same]).
  destruct o as [e|].
  { exists x3, (Fail e), l2. destruct (Hkeep _ K3) as (? & ? & ? & ?). split_and!; try done. by apply Hfail, He3. }
  set (fl := if bool_decide (pongs out ++ emit_frames out = []) then (x3, None) else flush x3).
  assert (Hfl : exists x4 o, fl = (x4, o) /\ same_but_stream x3 x4 /\ (forall e, o = Some e -> is_refusal e = true -> xaccepted x1 = false)).
  { unfold fl. case_bool_decide; [by exists x3, None|]. destruct (flush x3) as [x4 o] eqn:Ef.
    apply flush_spec in Ef as [? He]. rewrite (keeps_accepted _ _ K3) in He. by exists x4, o. }
  destruct Hfl as (x4 & o & -> & Hs4 & He4).
  assert (U4 : uploads x4 l2 ds) by (by eapply uploads_same). assert (K4 : keeps x1 x4) by (eapply keeps_trans; [done|by apply keeps_of_same]).
  destruct (Hkeep _ K4) as (? & ? & ? & ?). destruct o as [e|].
  { exists x4, (Fail e), l2. split_and!; try done. by apply Hfail, He4. }
  destruct Hsafe as (_ & _ & Hsafe). destruct (terminal_error out) as [e|].
  - exists x4, (Fail (MuxFailed e)), l2. by split_and!.
  - exists x4, (Next tt), l2. split_and!; try done. exists out. rewrite (keeps_assembler _ _ K4). by destruct Hsafe.
Qed.

Lemma ra_feed_all_snoc rs : forall ra ra1 ra2 outs out b,
  ra_feed_all ra rs = (ra1, Ok outs) -> ra_feed ra1 b = (ra2, Ok out) -> ra_feed_all ra (rs ++ [b]) = (ra2, Ok (outs ++ [out])).
Proof.
  induction rs as [|r rs IH]; intros ra ra1 ra2 outs out b; cbn [ra_feed_all app].
  { intros [= <- <-] ->. done. }
  destruct (ra_feed ra r) as [ra' [o|e|]]; [|done..]. destruct (ra_feed_all ra' rs) as [ra'' [os|e|]] eqn:E; [|done..].
  intros [= <- <-] Hb. by rewrite (IH _ _ _ _ _ _ E Hb).
Qed.

(** *** The loop

    [consumed] are the reads that brought data, [total] the whole script. *)
Variables (response_cap : Z) (naming : RefusalNaming) (total : list ReadOutcome).

Record xok (consumed : list (list byte)) (x : Exchange) : Prop := {
  xok_upload : exists l ds, uploads x l ds;
  xok_flag : write_initiated x = false -> requests (writes (stream x)) = [];
  xok_accepted : xaccepted x = false -> naming = BeforeFirstData /\ consumed = [];
  xok_script : exists last, total = (RData <$> consumed) ++ last ++ reads (stream x) /\
    (last = [] \/ exists o, last = [o] /\ forall b bytes, o <> RData (b :: bytes))
}.
Record xlive (consumed : list (list byte)) (script : list ReadOutcome) (x : Exchange) : Prop := {
  xlive_ok : xok consumed x;
  xlive_inv : ra_inv (assembler x) /\ flow_control_failed (assembler x) = false;
  xlive_fed : exists outs, ra_feed_all (ra_with_cap sid response_cap) consumed = (assembler x, Ok outs);
  xlive_script : total = (RData <$> consumed) ++ script /\ reads (stream x) = script
}.

(** How the loop ends. *)
Definition loop_post (consumed : list (list byte)) (x : Exchange) (r : stage unit) : Prop :=
  xok consumed x /\
  match r with
  | Next _ => exists outs, ra_feed_all (ra_with_cap sid response_cap) consumed = (assembler x, Ok outs)
  | Fail e => is_refusal e = true -> naming = BeforeFirstData /\ consumed = []
  | _ => False
  end.

Lemma xok_keeps consumed x x' l ds : xok consumed x -> uploads x' l ds -> keeps x x' -> xok consumed x'.
Proof.
  intros [A B C D] U [K1 K2 K3 K4 K5]. split; [eauto| |by rewrite K2|by rewrite K3].
  intros Hf. rewrite K5 by done. apply B. destruct (write_initiated x); [by rewrite K4 in Hf|done].
Qed.

Lemma to_send_bound x l ds : uploads x l ds -> to_send (upload x) <= len head + len body + 1.
Proof. intros (I & _). pose proof I as []. unfold to_send. destruct inv_fed. case_match; lia. Qed.

Lemma exchange_loop_spec script x consumed :
  xlive consumed script x ->
  exists x' r consumed', exchange_loop (send_fuel head body) sid body script x = (x', r) /\ loop_post consumed' x' r.
Proof.
  revert x consumed. induction script as [|r0 script IH]; intros x consumed [X [Ii If] [outs Hfed] [Hscript Hreads]].
  all: cbn [exchange_loop]; destruct (xok_upload _ _ X) as (l & ds & U).
  all: destruct (send_stage_spec (send_fuel head body) x l ds U) as (x1 & r & l1 & ds1 & -> & U1 & K1 & E1);
    [pose proof (to_send_bound _ _ _ U); unfold send_fuel; lia|].
  all: pose proof (xok_keeps _ _ _ _ _ X U1 K1) as X1.
  all: destruct r as [[]|e| |]; [|exists x1, (Fail e), consumed; split; [done|]; split; [done|]; intros He;
    apply (xok_accepted _ _ X); by apply E1|done..].
  all: destruct (ra_is_closed (assembler x1));
    [exists x1, (Next tt), consumed; split; [done|]; split; [done|]; exists outs; by rewrite (keeps_assembler _ _ K1)|].
  { by exists x1, (Fail (Io OtherIo)), consumed. }
  set (x2 := with_stream x1 (fst (next_read (stream x1)))).
  rewrite <- (keeps_reads _ _ K1) in Hreads.
  assert (Hs2 : writes (stream x2) = writes (stream x1) /\ reads (stream x2) = script) by (unfold x2, next_read; cbn; by rewrite Hreads).
  destruct Hs2 as [Hs2 Hr2].
  assert (U2 : uploads x2 l1 ds1) by (unfold uploads; by rewrite Hs2).
  assert (Hf2 : write_initiated x2 = false -> requests (writes (stream x2)) = []) by (rewrite Hs2; apply (xok_flag _ _ X1)).
  assert (X2 : (forall b bytes, r0 <> RData (b :: bytes)) -> xok consumed x2).
  { intros Hr0. destruct X1 as [A B C D]. split; [eauto|done|done|]. exists [r0]. rewrite Hr2. split; [done|]. right. by exists r0. }
  destruct r0 as [[|b bytes]|alert|].
  - exists x2, (Next tt), consumed. split; [done|]. split; [by apply X2|]. exists outs. unfold x2. cbn. by rewrite (keeps_assembler _ _ K1).
  - assert (Ha2 : assembler x2 = assembler x) by (unfold x2; cbn; apply (keeps_assembler _ _ K1)).
    destruct (receive_stage_spec (b :: bytes) x2 l1 ds1 U2) as (x3 & r & l3 & -> & U3 & Hac & Hrd & Hfl & Hun & Hr); [by rewrite Ha2..|].
    assert (X3 : xok (consumed ++ [b :: bytes]) x3).
    { split; [eauto| |by rewrite Hac|].
      - intros Hf. rewrite (Hun Hf). apply Hf2. destruct (write_initiated x2); [by rewrite Hfl in Hf|done].
      - exists []. rewrite Hrd, Hr2, Hscript, fmap_app, <- app_assoc. split; [done|by left]. }
    destruct r as [[]|e| |]; [| |done..].
    + destruct Hr as (out & Hfeed & Hi3 & Hf3). rewrite Ha2 in Hfeed. apply (IH x3 (consumed ++ [b :: bytes])).
      split; [done|done| |rewrite Hscript, fmap_app, <- app_assoc, Hrd, Hr2; done].
      exists (outs ++ [out]). by eapply ra_feed_all_snoc.
    + exists x3, (Fail e), (consumed ++ [b :: bytes]). split; [done|]. split; [done|]. intros He. by rewrite Hr in He.
  - exists x2, (Fail (stream_error alert (xaccepted x2))), consumed. split; [done|]. split; [by apply X2|]. intros He.
    apply (xok_accepted _ _ (X2 ltac:(done))). by apply stream_error_refusal in He.
  - exists x2, (Fail (Io OtherIo)), consumed. split; [done|]. split; [by apply X2|done].
Qed.

End Sending.

(** ** The response parser does not panic *)

Lemma chunk_size_no_panic line : parse_chunk_size line <> Panic.
Proof. unfold parse_chunk_size. by repeat case_match. Qed.
Lemma dechunk_no_panic l : dechunk l <> Panic.
Proof.
  unfold dechunk. generalize (@nil byte), 0. generalize (S (length l)). intros fuel.
  induction fuel as [|fuel IH]; intros out idx; cbn [dechunk_loop]; [done|].
  destruct (idx <? len l); [|done]. destruct (find_subsequence _ _) as [p|]; [|done].
  pose proof (chunk_size_no_panic (from_utf8_lossy (slice l idx (idx + p)))).
  destruct (parse_chunk_size _); cbn [mbind res_bind]; [|done..].
  repeat first [apply IH | case_match | done].
Qed.
Lemma parse_response_no_panic raw : parse_response raw <> Panic.
Proof.
  unfold parse_response. case_match; [|done]. pose proof (parse_head_no_panic (ztake z raw)) as Hh.
  destruct (parse_head (ztake z raw)) as [[st hs]| |]; cbn [mbind res_bind]; [|done..]. case_match.
  - pose proof (dechunk_no_panic (zdrop (z + 4) raw)). by destruct (dechunk _).
  - by repeat case_match.
Qed.

(** ** Properties *)

(** The frames of an upload, as the peer must see them. *)
Definition request_frames (head body : list byte) (closed : bool) (frames : list (list byte)) : Prop :=
  exists ds, frames = wire <$> ds ++ (if closed then [mkFrame stream_id_of FLAG_CLOSE []] else []) /\
    flags <$> ds = data_flags (length ds) /\
    Forall (fun f => stream_id f = stream_id_of /\ 0 < len (payload f)) ds /\
    payloads ds `prefix_of` head ++ body /\ (closed = true -> payloads ds = head ++ body).

Lemma uploads_frames head body x l ds :
  uploads head body x l ds -> request_frames head body (is_done (upload x)) (requests (writes (stream x))).
Proof.
  intros (I & Hf & Ho & Hs). pose proof I as []. exists ds. destruct inv_fed as [Hfl Hfd]. split_and!.
  - by rewrite <- Hs.
  - done.
  - eapply list.Forall_impl; [exact inv_frames|]. cbn. tauto.
  - rewrite inv_payload, Hf. destruct inv_order as [-> | ->].
    + change (ztake 0 _) with (@nil byte). rewrite app_nil_r. apply prefix_app_r, prefix_take.
    + rewrite (take_ge head) by lia. apply prefix_app. etrans; apply prefix_take.
  - intros Hc. destruct (inv_closed Hc) as [H1 H2]. rewrite Hf in *. rewrite length_take in *.
    rewrite inv_payload, H1, H2, !take_ge by (rewrite ?length_take; lia). done.
Qed.

Lemma exchange_new_live head body cap naming s :
  len body < 2 ^ 64 -> 0 <= cap < 2 ^ 62 -> writes s = [] ->
  xlive head body cap naming (reads s) [] (reads s) (exchange_new head body cap naming s).
Proof.
  intros Hb Hc Hw. split; [split|split; [by apply ra_inv_new|done]|by exists []|done].
  - exists log_new, []. split_and!; [apply upload_inv_new; [done|split; lia]|done|cbn; lia|cbn; lia|cbn; by rewrite Hw].
  - cbn. by rewrite Hw.
  - by destruct naming.
  - exists []. split; [done|by left].
Qed.

Section Claims.
Variables (head body : list byte) (response_cap : Z) (naming : RefusalNaming) (s : Stream).
Hypothesis Hbody : len body < 2 ^ 64.
Hypothesis Hcap : 0 <= response_cap < 2 ^ 62.
Hypothesis Hfresh : writes s = [].
Abbreviation x_end := (fst (run_request_over_stream_with_options head body response_cap naming s)).
Abbreviation r_end := (snd (run_request_over_stream_with_options head body response_cap naming s)).

(** C15. However the peer reads, answers, stalls or drops the connection, one
    request exchange ends without a panic; the request frames it wrote, the
    one it failed on included, are one [OPEN|DATA], then [DATA], then at most
    one [CLOSE], all on its stream; their payload is a prefix of the request
    head and body, and the whole of both once [CLOSE] is out; and no request
    frame was written unless the flag the client's replay rule reads is set. *)
Theorem exchange_sends_request :
  request_frames head body (is_done (upload x_end)) (requests (writes (stream x_end))) /\
  (write_initiated x_end = false -> requests (writes (stream x_end)) = []) /\
  match r_end with Next _ | Fail _ => True | Crash | Fuel => False end.
Proof.
  destruct (exchange_loop_spec head body Hbody response_cap naming (reads s) (reads s) _ []
              (exchange_new_live head body response_cap naming s Hbody Hcap Hfresh)) as (x & r & consumed & Hrun & X & Hr).
  destruct (xok_upload _ _ _ _ _ _ X) as (l & ds & U). apply uploads_frames in U. pose proof (xok_flag _ _ _ _ _ _ X) as Hflag.
  unfold run_request_over_stream_with_options. rewrite Hrun. destruct r as [[]|e| |]; [| |done..].
  - destruct (into_response (assembler x)) as [response|e|] eqn:Er; cbn [fst snd].
    + destruct (is_done (upload x)) eqn:Ed; cbn; rewrite ?Ed; by split_and!.
    + by split_and!.
    + exfalso. revert Er. unfold into_response. repeat case_match; try done. destruct (parse_response _) eqn:Ep; try done.
      by apply parse_response_no_panic in Ep.
  - destruct e as [[]| | | | | | | | | | | | | | | | |]; cbn [fst snd]; by split_and!.
Qed.

(** What an exchange returns is the peer's: a response is the parse of
    what the assembler made of exactly the reads taken from the stream; and
    an error that names the journal's refusal is returned only where the peer
    has proved the paired identity and before it sent any data. *)
Theorem exchange_answers :
  exists consumed last, reads s = (RData <$> consumed) ++ last ++ reads (stream x_end) /\
  (last = [] \/ exists o, last = [o] /\ forall b bytes, o <> RData (b :: bytes)) /\
  match r_end with
  | Next response => exists outs, ra_feed_all (ra_with_cap stream_id_of response_cap) consumed = (assembler x_end, Ok outs) /\
      into_response (assembler x_end) = Ok response
  | Fail e => is_refusal e = true -> naming = BeforeFirstData /\ consumed = []
  | _ => False
  end.
Proof.
  destruct (exchange_loop_spec head body Hbody response_cap naming (reads s) (reads s) _ []
              (exchange_new_live head body response_cap naming s Hbody Hcap Hfresh)) as (x & r & consumed & Hrun & X & Hr).
  destruct (xok_script _ _ _ _ _ _ X) as (last & Hs & Hlast). exists consumed, last.
  unfold run_request_over_stream_with_options. rewrite Hrun. destruct r as [[]|e| |]; [| |done..].
  - destruct Hr as [outs Hfed]. destruct (into_response (assembler x)) as [response|e|] eqn:Er; cbn [fst snd].
    + destruct (is_done (upload x)); cbn; split_and!; try done; by exists outs.
    + split_and!; done.
    + exfalso. revert Er. unfold into_response. repeat case_match; try done. destruct (parse_response _) eqn:Ep; try done.
      by apply parse_response_no_panic in Ep.
  - destruct e as [[]| | | | | | | | | | | | | | | | |]; cbn [fst snd]; split_and!; try done.
    intros He. apply (xok_accepted _ _ _ _ _ _ X). unfold read_verdict in He. by destruct (xaccepted x).
Qed.

End Claims.

(** ** Witnesses *)

Definition sample_head : list byte := build_request_head (lit "GET") (lit "/") [] 2.
Definition sample_stream : Stream := mkStream [RData (wires sample_response)] [] [].
Definition sample_refused : Stream := mkStream [RError (Some AlertAccessDenied)] [] [].

Lemma exchange_sends_request_witness :
  let x := fst (run_request_over_stream_with_options sample_head (blit "hi") 1024 BeforeFirstData sample_stream) in
  request_frames sample_head (blit "hi") true (requests (writes (stream x))).
Proof.
  intros x. pose proof (exchange_sends_request sample_head (blit "hi") 1024 BeforeFirstData sample_stream) as H.
  destruct H as (H & _); [by vm_compute|by vm_compute|done|].
  replace true with (is_done (upload x)) by by vm_compute. exact H.
Defined.

(** The response the sample frames carry, and a journal that refuses the device. *)
Lemma exchange_answers_witness :
  snd (run_request_over_stream_with_options sample_head (blit "hi") 1024 BeforeFirstData sample_stream)
    = Next (mkHttpResponse 200 [] (blit "hello")) /\
  snd (run_request_over_stream_with_options sample_head (blit "hi") 1024 BeforeFirstData sample_refused) = Fail TlsAccessDenied /\
  exists consumed last, reads sample_refused = (RData <$> consumed) ++ last ++ [] /\ consumed = [].
Proof.
  split; [by vm_compute|]. split; [by vm_compute|].
  destruct (exchange_answers sample_head (blit "hi") 1024 BeforeFirstData sample_refused) as (consumed & last & Hr & _ & He);
    [by vm_compute|by vm_compute|done|].
  exists consumed, last. split; [exact Hr|].
  replace (snd (run_request_over_stream_with_options sample_head (blit "hi") 1024 BeforeFirstData sample_refused))
    with (Fail (A := HttpResponse) TlsAccessDenied) in He by by vm_compute. by apply He.
Defined.
