(* ===== verification/RelayLink.v ===== *)
(** * The client's relay link ([crates/spl-transport/src/relay.rs],
    [relay_http.rs], and the dial of [connection.rs])

    Two ways to a relay.  The carrier is a WebSocket whose binary messages are
    read and written as one byte stream ([WsByteDuplex]), over which the inner
    TLS session with the journal runs; what ended the WebSocket is kept for
    whoever has to explain a failure.  The control plane is a plain HTTP POST
    to the relay's origin.

    WebSocket, TLS and TCP are third-party code: a WebSocket is the script of
    what its polls deliver, a handshake and a connect are their outcomes, and
    the syntax checks of their crates are the fields of [RelayStack]. *)

From S2P Require Import Prelude Text Window Assembler Http Relay Client Exchange.

(** ** Why a relay connection ended *)

Inductive WsTermination := WsClosed (code : Z) | WsAbnormal.

Definition relay_error_from_close (code : Z) : RelayError :=
  if code =? 4401 then Unauthorized
  else if code =? 4402 then Unpaid
  else if code =? 1009 then Overflow
  else AbnormalClose.

Definition relay_error_from_upgrade_status (status : Z) : RelayError :=
  if status =? 503 then HomeOffline
  else if status =? 401 then Unauthorized
  else if status =? 402 then Unpaid
  else if status =? 404 then UnknownInstance
  else UpgradeRejected.

Definition relay_error_from_pair_upgrade_status (status : Z) : RelayError :=
  if status =? 401 then PairWindowClosed else UpgradeRejected.

Definition relay_error_from_termination (t : WsTermination) : RelayError :=
  match t with WsClosed code => relay_error_from_close code | WsAbnormal => AbnormalClose end.

(** The first termination recorded is kept. *)
Definition record_termination (current : option WsTermination) (value : WsTermination) : option WsTermination :=
  match current with None => Some value | Some t => Some t end.

(** ** The byte stream over a WebSocket *)

(** What [Stream::poll_next] of the WebSocket delivers. *)
Inductive ws_event :=
| WsBinary (bytes : list byte)
| WsPing
| WsPong
| WsClose (code : option Z)
| WsText
| WsRawFrame
| WsFails
| WsEnds
| WsPending.

Record WsByteDuplex := mkDuplex {
  ws_in : list ws_event;
  ws_out : list (list byte);
  read_tail : list byte;
  read_pos : Z;
  termination : option WsTermination
}.

Definition duplex_new (script : list ws_event) : WsByteDuplex := mkDuplex script [] [] 0 None.

Definition set_in (script : list ws_event) (d : WsByteDuplex) : WsByteDuplex :=
  mkDuplex script (ws_out d) (read_tail d) (read_pos d) (termination d).
Definition set_tail (tail : list byte) (pos : Z) (d : WsByteDuplex) : WsByteDuplex :=
  mkDuplex (ws_in d) (ws_out d) tail pos (termination d).
Definition terminate (t : WsTermination) (d : WsByteDuplex) : WsByteDuplex :=
  mkDuplex (ws_in d) (ws_out d) (read_tail d) (read_pos d) (record_termination (termination d) t).

(** [copy_tail] into a buffer with [n] bytes left: whether the tail answered,
    and the bytes put. *)
Definition copy_tail (n : Z) (d : WsByteDuplex) : WsByteDuplex * (bool * list byte) :=
  if read_pos d >=? len (read_tail d) then (set_tail [] 0 d, (false, []))
  else
    let k := Z.min n (Z.max 0 (len (read_tail d) - read_pos d)) in
    if k =? 0 then (d, (true, []))
    else
      let put := slice (read_tail d) (read_pos d) (read_pos d + k) in
      let pos := read_pos d + k in
      (if pos =? len (read_tail d) then set_tail [] 0 d else set_tail (read_tail d) pos d, (true, put)).

Inductive ReadPoll := ReadPending | ReadBytes (bytes : list byte) | ReadFails.

(** The loop of [poll_read]; a script that ends is a silent peer. *)
Fixpoint read_events (n : Z) (script : list ws_event) (d : WsByteDuplex) : WsByteDuplex * ReadPoll :=
  match script with
  | [] => (set_in [] d, ReadPending)
  | WsBinary [] :: script | WsPing :: script | WsPong :: script => read_events n script d
  | WsBinary bytes :: script =>
      let '(d, (_, put)) := copy_tail n (set_tail bytes 0 (set_in script d)) in (d, ReadBytes put)
  | WsClose code :: script => (terminate (WsClosed (default 1000 code)) (set_in script d), ReadBytes [])
  | WsText :: script | WsRawFrame :: script | WsFails :: script => (terminate WsAbnormal (set_in script d), ReadFails)
  | WsEnds :: script => (set_in script d, ReadBytes [])
  | WsPending :: script => (set_in script d, ReadPending)
  end.

Definition ws_poll_read (n : Z) (d : WsByteDuplex) : WsByteDuplex * ReadPoll :=
  if n =? 0 then (d, ReadBytes [])
  else
    match copy_tail n d with
    | (d, (true, put)) => (d, ReadBytes put)
    | (d, (false, _)) => read_events n (ws_in d) d
    end.

Definition MAX_WS_CHUNK_BYTES : Z := 64 * 1024.

(** What the WebSocket's sink says. *)
Inductive sink_poll := SinkReady | SinkFails | SinkPending.
Inductive WritePoll := WritePending | Written (n : Z) | WriteFails.

Definition ws_poll_write (ready : sink_poll) (sends : bool) (buf : list byte) (d : WsByteDuplex) : WsByteDuplex * WritePoll :=
  if bool_decide (buf = []) then (d, Written 0)
  else
    match ready with
    | SinkReady =>
        let n := Z.min (len buf) MAX_WS_CHUNK_BYTES in
        if sends
        then (mkDuplex (ws_in d) (ws_out d ++ [ztake n buf]) (read_tail d) (read_pos d) (termination d), Written n)
        else (d, WriteFails)
    | SinkFails => (d, WriteFails)
    | SinkPending => (d, WritePending)
    end.

(** ** Dialing *)

Class RelayStack := {
  client_request_ok : str -> bool;
  header_value_ok : str -> bool;
  server_name_ok : str -> bool
}.

(** How the outer dial ends, within its ten seconds. *)
Inductive UpgradeOutcome := UpgradeTimedOut | Upgraded (ws : list ws_event) | UpgradeRefused (status : Z) | UpgradeFailed.

(** What a failed inner handshake carries out of the TLS library: the peer the
    session verifier or the pairing verifier refused (tls.rs), or something else. *)
Inductive TlsFailure := PeerMismatch (jid : option str) | PinRejected | OtherTls.

(** An inner handshake within its time: it ran over the carrier. *)
Inductive Handshake := HandshakeTimedOut | HandshakeDone (peer_leaf : option (list byte)) (tls : Stream) | HandshakeFailed (e : TlsFailure).

Definition classify_dial_refusal (e : TlsFailure) (address : option str) : option TransportError :=
  match e with PeerMismatch jid => Some (UnknownJournalAt (mkUnknown address jid)) | _ => None end.

Definition inner_handshake_error (t : option WsTermination) (e : TlsFailure) : TransportError :=
  match t with
  | Some t => RelayFailed (relay_error_from_termination t)
  | None => default Tls (classify_dial_refusal e None)
  end.

Definition relay_pairing_pin_refusal (e : TlsFailure) : option TransportError :=
  match e with PinRejected => Some Pairing | _ => None end.

Section Link.
Context {K : RelayStack}.

Definition upgrade_result (refused : Z -> RelayError) (o : UpgradeOutcome) : res TransportError (list ws_event) :=
  match o with
  | UpgradeTimedOut => Err (Io OtherIo)
  | Upgraded ws => Ok ws
  | UpgradeRefused status => Err (RelayFailed (refused status))
  | UpgradeFailed => Err Tls
  end.

Definition dial_relay_ws (url device_token : str) (o : UpgradeOutcome) : res TransportError (list ws_event) :=
  if negb (client_request_ok url) then Err Tls
  else if negb (header_value_ok (lit "Bearer " ++ device_token)) then Err Tls
  else upgrade_result relay_error_from_upgrade_status o.

Definition build_pair_dial_request (url rk_hex : str) : res TransportError unit :=
  if negb (client_request_ok url) then Err Tls else if negb (header_value_ok rk_hex) then Err Tls else Ok tt.

Definition dial_pair_relay_ws (url rk_hex : str) (o : UpgradeOutcome) : res TransportError (list ws_event) :=
  _ ← build_pair_dial_request url rk_hex; upgrade_result relay_error_from_pair_upgrade_status o.

(** [connect] is the inner handshake over the carrier. *)
Definition dial_relay_carrier (connect : WsByteDuplex -> WsByteDuplex * Handshake)
  (relay_origin instance_id device_token : str) (o : UpgradeOutcome) : res TransportError (WsByteDuplex * Stream) :=
  match dial_url relay_origin instance_id with
  | Err _ => Err PairLinkFailed
  | Panic => Panic
  | Ok url =>
      ws ← dial_relay_ws url device_token o;
      match connect (duplex_new ws) with
      | (_, HandshakeTimedOut) => Err (RelayFailed Stalled)
      | (d, HandshakeDone _ tls) => Ok (d, tls)
      | (d, HandshakeFailed e) => Err (inner_handshake_error (termination d) e)
      end
  end.

(** [dial_tls] and [handshake_tls]; [tcp] is whether the connect succeeded in time. *)
Definition dial_tls (host : str) (port : Z) (tcp : bool) (h : Handshake) : res TransportError Stream :=
  if negb tcp then Err (Io OtherIo)
  else
    match h with
    | HandshakeTimedOut => Err (Io OtherIo)
    | HandshakeDone _ tls => Ok tls
    | HandshakeFailed e => Err (default Tls (classify_dial_refusal e (Some (endpoint_address host port))))
    end.

(** ** One request over a carrier *)

(** [run_request_over_stream]: no refusal is named, the response is capped. *)
Definition run_request_over_stream (method path : str) (headers : Headers) (body : list byte) (tls : Stream) : stage HttpResponse :=
  snd (run_request method path headers body MAX_ASSEMBLED_BYTES Never tls).

Definition request_once_over_stream_with_peer_leaf (h : Handshake) (method path : str) (headers : Headers) (body : list byte)
  : stage (HttpResponse * option (list byte)) :=
  match h with
  | HandshakeTimedOut => Fail (RelayFailed Stalled)
  | HandshakeFailed e => Fail (default Tls (relay_pairing_pin_refusal e))
  | HandshakeDone peer_leaf tls =>
      match run_request_over_stream method path headers body tls with
      | Next response => Next (response, peer_leaf)
      | Fail e => Fail e
      | Crash => Crash
      | Fuel => Fuel
      end
  end.

(** [ended] is what ended the WebSocket, once the request is over. *)
Definition request_once_over_ws (h : Handshake) (ended : option WsTermination) (method path : str) (headers : Headers) (body : list byte)
  : stage HttpResponse :=
  match request_once_over_stream_with_peer_leaf h method path headers body with
  | Next (response, _) => Next response
  | Fail e => Fail (match ended with Some t => RelayFailed (relay_error_from_termination t) | None => e end)
  | Crash => Crash
  | Fuel => Fuel
  end.

(** ** Relay origins *)

Inductive RelayScheme := SchemeHttp | SchemeHttps.
#[export] Instance RelayScheme_eq_dec : EqDecision RelayScheme.
Proof. solve_decision. Defined.

Record RelayOrigin := mkOrigin { origin_scheme : RelayScheme; origin_host : str; origin_port : Z; origin_authority : str }.

(** [char::is_control] *)
Definition is_control (c : Z) : bool := between 0 c 31 || between 127 c 159.
Definition has_char (c : Z) (s : str) : bool := existsb (Z.eqb c) s.

(** [Ipv6Addr::from_str], as the standard library reads it. *)
Fixpoint take_digits (radix : Z) (s : str) : list Z * str :=
  match s with
  | c :: r => match to_digit radix c with
              | Some d => let '(ds, r) := take_digits radix r in (d :: ds, r)
              | None => ([], s)
              end
  | [] => ([], [])
  end.
Definition read_number (radix max_digits width : Z) (allow_zero_prefix : bool) (s : str) : option str :=
  let '(ds, rest) := take_digits radix s in
  if (len ds =? 0) || (len ds >? max_digits) || (negb allow_zero_prefix && bool_decide (head ds = Some 0) && (len ds >? 1))
     || (foldl (fun v d => v * radix + d) 0 ds >=? 2 ^ width)
  then None else Some rest.
Definition given_char (c : Z) (s : str) : option str :=
  match s with c' :: r => if c =? c' then Some r else None | [] => None end.
Definition read_separated (sep i : Z) (s : str) : option str := if i >? 0 then given_char sep s else Some s.
Definition read_ipv4 (s : str) : option str :=
  s ← read_number 10 3 8 false s; s ← given_char 46 s;
  s ← read_number 10 3 8 false s; s ← given_char 46 s;
  s ← read_number 10 3 8 false s; s ← given_char 46 s;
  read_number 10 3 8 false s.
(** The groups read, whether they end in an IPv4 address, and what is left. *)
Fixpoint read_groups (room : nat) (i : Z) (s : str) : Z * bool * str :=
  match room with
  | O => (i, false, s)
  | S room =>
      match (if (0 <? Z.of_nat room) then s ← read_separated 58 i s; read_ipv4 s else None) with
      | Some rest => (i + 2, true, rest)
      | None =>
          match (s ← read_separated 58 i s; read_number 16 4 16 true s) with
          | Some rest => read_groups room (i + 1) rest
          | None => (i, false, s)
          end
      end
  end.
Definition is_ipv6 (s : str) : bool :=
  let '(n, v4, rest) := read_groups 8 0 s in
  if n =? 8 then bool_decide (rest = [])
  else if v4 then false
  else match rest with
       | 58 :: 58 :: rest => let '(_, _, rest) := read_groups (Z.to_nat (8 - (n + 1))) 0 rest in bool_decide (rest = [])
       | _ => false
       end.

Definition parse_origin_port (port : str) : res TransportError Z :=
  match parse_uint 10 16 port with
  | None => Err PairLinkFailed
  | Some port => if port =? 0 then Err PairLinkFailed else Ok port
  end.

Definition parse_origin_authority (authority : str) (default_port : Z) : res TransportError (str * Z) :=
  match strip_prefix [91] authority with
  | Some rest =>
      match split_once 93 rest with
      | None => Err PairLinkFailed
      | Some (host, after) =>
          if negb (is_ipv6 host) then Err PairLinkFailed
          else
            match strip_prefix [58] after with
            | Some port => port ← parse_origin_port port; Ok (host, port)
            | None => if bool_decide (after = []) then Ok (host, default_port) else Err PairLinkFailed
            end
      end
  | None =>
      '(host, port) ← match rsplit_once 58 authority with
                      | Some (host, port) =>
                          if has_char 58 host then Ok (authority, default_port)
                          else port ← parse_origin_port port; Ok (host, port)
                      | None => Ok (authority, default_port)
                      end;
      if bool_decide (host = []) || has_char 58 host || has_char 91 host || has_char 93 host then Err PairLinkFailed
      else if negb (server_name_ok host) then Err PairLinkFailed
      else Ok (host, port)
  end.

Definition parse_relay_origin (origin : str) : res TransportError RelayOrigin :=
  match (match strip_prefix (lit "https://") origin with
         | Some rest => Some (SchemeHttps, rest, 443)
         | None => match strip_prefix (lit "http://") origin with
                   | Some rest => Some (SchemeHttp, rest, 80)
                   | None => None
                   end
         end) with
  | None => Err PairLinkFailed
  | Some (scheme, rest, default_port) =>
      let authority := default rest (strip_suffix [47] rest) in
      if bool_decide (authority = []) || has_char 47 authority || has_char 63 authority || has_char 35 authority || has_char 64 authority
         || existsb (fun c => is_whitespace c || is_control c) authority
      then Err PairLinkFailed
      else '(host, port) ← parse_origin_authority authority default_port; Ok (mkOrigin scheme host port authority)
  end.

Definition validate_relay_origin (origin : str) : res TransportError unit := (fun _ => tt) <$> parse_relay_origin origin.

Definition same_relay_origin (left right : str) : res TransportError bool :=
  l ← parse_relay_origin left;
  r ← parse_relay_origin right;
  Ok (bool_decide (origin_scheme l = origin_scheme r) && eq_ignore_ascii_case (origin_host l) (origin_host r)
      && (origin_port l =? origin_port r)).

(** ** Control requests *)

Inductive control_read := CtBytes (bytes : list byte) | CtTimeout | CtUnexpectedEof | CtError.

Definition CONTROL_RESPONSE_LIMIT : Z := 64 * 1024.

Definition build_control_request (authority path_and_query : str) (body : list byte) : list byte :=
  into_bytes (lit "POST " ++ path_and_query ++ lit " HTTP/1.1" ++ CRLF
    ++ lit "host: " ++ authority ++ CRLF
    ++ lit "accept: application/json" ++ CRLF
    ++ lit "content-type: application/json" ++ CRLF
    ++ lit "content-length: " ++ to_string (len body) ++ CRLF
    ++ lit "connection: close" ++ CRLF ++ CRLF) ++ body.

Definition chunked_header (r : HttpResponse) : bool :=
  match header r (lit "transfer-encoding") with Some v => eq_ignore_ascii_case v (lit "chunked") | None => false end.

Definition response_is_complete (r : HttpResponse) (raw : list byte) : bool :=
  if chunked_header r then
    match find_subsequence raw bCRLF2 with
    | None => false
    | Some split =>
        match push chunked_new (zdrop (split + 4) raw) with
        | (d, Ok _) => is_complete d
        | _ => false
        end
    end
  else
    match header r (lit "content-length") ≫= parse_uint 10 64 with
    | Some n => len (body r) >=? n
    | None => false
    end.

(** The read loop: a complete answer, or what had arrived at the end. *)
Fixpoint control_read_loop (script : list control_read) (raw : list byte) : res TransportError (HttpResponse + list byte) :=
  match script with
  | [] | CtTimeout :: _ | CtError :: _ => Err (Io OtherIo)
  | CtBytes [] :: _ | CtUnexpectedEof :: _ => Ok (inr raw)
  | CtBytes bytes :: script =>
      if len raw + len bytes >? CONTROL_RESPONSE_LIMIT then Err Pairing
      else
        let raw := raw ++ bytes in
        match parse_response raw with
        | Ok response => if response_is_complete response raw then Ok (inl response) else control_read_loop script raw
        | Err _ => control_read_loop script raw
        | Panic => Panic
        end
  end.

(** The answer of a peer that has closed after [raw]. *)
Definition closed_answer (raw : list byte) : res TransportError HttpResponse :=
  match parse_response raw with
  | Ok response => if chunked_header response && negb (response_is_complete response raw) then Err Pairing else Ok response
  | Err _ => Err Pairing
  | Panic => Panic
  end.

(** [sent] is whether the request was written and flushed. *)
Definition post_json_over_stream (sent : bool) (script : list control_read) : res TransportError HttpResponse :=
  if negb sent then Err (Io OtherIo)
  else
    done ← control_read_loop script [];
    match done with inl response => Ok response | inr raw => closed_answer raw end.

(** A control connection: whether TCP connects in time, how TLS ends ([None] is
    its timeout), whether the request is written, and what is read. *)
Record control_dial := mkControlDial { cd_tcp : bool; cd_tls : option bool; cd_sent : bool; cd_script : list control_read }.

(** [in_time] is whether the whole stays within [control_deadline]. *)
Definition relay_https_post_json (relay_origin path_and_query : str) (in_time : bool) (c : control_dial)
  : res TransportError HttpResponse :=
  if negb in_time then Err (Io OtherIo)
  else if negb (match path_and_query with 47 :: _ => true | _ => false end) then Err PairLinkFailed
  else
    origin ← parse_relay_origin relay_origin;
    if negb (cd_tcp c) then Err (Io OtherIo)
    else
      match origin_scheme origin with
      | SchemeHttp => post_json_over_stream (cd_sent c) (cd_script c)
      | SchemeHttps =>
          if negb (server_name_ok (origin_host origin)) then Err Tls
          else
            match cd_tls c with
            | None => Err (Io OtherIo)
            | Some false => Err Tls
            | Some true => post_json_over_stream (cd_sent c) (cd_script c)
            end
      end.

End Link.

Example origin_ex :
  is_ipv6 (lit "::1") = true /\ is_ipv6 (lit "1:2:3:4:5:6:7:8") = true /\ is_ipv6 (lit "::ffff:10.0.0.1") = true /\
  is_ipv6 (lit "1:2:3:4:5:6:7::") = true /\ is_ipv6 (lit "1:2:3:4:5:6:7:8:9") = false /\ is_ipv6 (lit ":::") = false /\ is_ipv6 [] = false.
Proof. repeat split. Qed.

(** ** Reading the byte stream *)

(** The bytes a script still brings, up to what ends it. *)
Fixpoint carried (script : list ws_event) : list byte :=
  match script with
  | WsBinary bytes :: script => bytes ++ carried script
  | (WsPing | WsPong | WsPending) :: script => carried script
  | _ => []
  end.
(** What ends it: the reason recorded, and whether the read reports an error;
    [None] is a script that does not end. *)
Fixpoint script_ending (script : list ws_event) : option (option WsTermination * bool) :=
  match script with
  | (WsBinary _ | WsPing | WsPong | WsPending) :: script => script_ending script
  | WsClose code :: _ => Some (Some (WsClosed (default 1000 code)), false)
  | (WsText | WsRawFrame | WsFails) :: _ => Some (Some WsAbnormal, true)
  | WsEnds :: _ => Some (None, false)
  | [] => None
  end.
Definition unread (d : WsByteDuplex) : list byte := zdrop (read_pos d) (read_tail d) ++ carried (ws_in d).
Definition duplex_ok (d : WsByteDuplex) : Prop := 0 <= read_pos d <= len (read_tail d).

(** How a series of reads stands: it goes on, or an empty read or an error has
    ended it. *)
Inductive stream_end := Ended (error : bool).
Fixpoint read_series (sizes : list Z) (d : WsByteDuplex) : list byte * WsByteDuplex * option stream_end :=
  match sizes with
  | [] => ([], d, None)
  | n :: sizes =>
      match ws_poll_read n d with
      | (d, ReadPending) => read_series sizes d
      | (d, ReadBytes []) => ([], d, Some (Ended false))
      | (d, ReadBytes bytes) => let '(more, d, e) := read_series sizes d in (bytes ++ more, d, e)
      | (d, ReadFails) => ([], d, Some (Ended true))
      end
  end.

Lemma copy_tail_spec n d :
  0 < n -> duplex_ok d ->
  let '(d', (answered, put)) := copy_tail n d in
  duplex_ok d' /\ ws_in d' = ws_in d /\ ws_out d' = ws_out d /\ termination d' = termination d /\
  zdrop (read_pos d) (read_tail d) = put ++ zdrop (read_pos d') (read_tail d') /\
  (if answered then put <> [] else zdrop (read_pos d) (read_tail d) = [] /\ read_tail d' = [] /\ read_pos d' = 0).
Proof.
  intros Hn [H0 H1]. unfold copy_tail.
  destruct (Z.geb_spec (read_pos d) (len (read_tail d))) as [Hge|Hlt].
  - cbn. rewrite drop_ge by lia. repeat split; try done; lia.
  - set (k := Z.min n (Z.max 0 (len (read_tail d) - read_pos d))). assert (Hk : 0 < k <= len (read_tail d) - read_pos d) by lia.
    replace (k =? 0) with false by lia.
    assert (Hs : slice (read_tail d) (read_pos d) (read_pos d + k) <> []).
    { intros E. apply (f_equal (fun l : list byte => len l)) in E. rewrite len_slice in E by lia. cbn in E. lia. }
    assert (Hd : zdrop (read_pos d) (read_tail d) = slice (read_tail d) (read_pos d) (read_pos d + k) ++ zdrop (read_pos d + k) (read_tail d)).
    { rewrite slice_zdrop. rewrite <- zdrop_zdrop by lia. by rewrite take_drop. }
    destruct (Z.eqb_spec (read_pos d + k) (len (read_tail d))) as [Ee|Ene]; cbn; (split; [unfold duplex_ok; cbn; lia|]); repeat split; try done.
    rewrite Hd at 1. f_equal. rewrite drop_ge by lia. done.
Qed.

Lemma read_events_spec n script : forall d,
  0 < n -> read_tail d = [] -> read_pos d = 0 ->
  let '(d', p) := read_events n script d in
  duplex_ok d' /\ ws_out d' = ws_out d /\
  match p with
  | ReadPending => carried script = unread d' /\ script_ending script = script_ending (ws_in d') /\ termination d' = termination d
  | ReadBytes (b :: bytes) => carried script = (b :: bytes) ++ unread d' /\ script_ending script = script_ending (ws_in d') /\ termination d' = termination d
  | ReadBytes [] => carried script = [] /\ exists t, script_ending script = Some (t, false) /\
      termination d' = match t with Some t => record_termination (termination d) t | None => termination d end
  | ReadFails => carried script = [] /\ script_ending script = Some (Some WsAbnormal, true) /\
      termination d' = record_termination (termination d) WsAbnormal
  end.
Proof.
  intros d Hn. revert d. induction script as [|e script IH]; intros d Ht Hp.
  { cbn. unfold duplex_ok, unread. cbn. rewrite Ht, Hp. done. }
  assert (Hok : forall s, duplex_ok (set_in s d)) by (intros s; unfold duplex_ok; cbn; rewrite Ht, Hp; done).
  assert (Hun : forall s, unread (set_in s d) = carried s) by (intros s; unfold unread; cbn; by rewrite Ht, Hp).
  destruct e as [[|b bytes]| | |code| | | | |]; cbn [read_events carried script_ending].
  1,3,4: apply IH; done.
  2: split; [apply Hok|split; [done|split; [done|by eexists]]].
  2,3,4: split; [apply Hok|done].
  2: split; [apply Hok|split; [done|split; [done|by exists None]]].
  2: split; [apply Hok|rewrite Hun; done].
  pose proof (copy_tail_spec n (set_tail (b :: bytes) 0 (set_in script d)) Hn) as Hc.
  destruct (copy_tail _ _) as [d' [answered put]]. cbn [read_pos read_tail set_tail set_in ws_in ws_out termination] in Hc.
  destruct Hc as (H1 & H2 & H3 & H4 & H5 & H6); [unfold duplex_ok; cbn; lia|]. cbn in H5.
  destruct answered; [|destruct H6 as [H6 _]; done].
  split; [done|]. split; [done|]. destruct put as [|b' put]; [done|]. unfold unread. rewrite H2, app_assoc, <- H5. done.
Qed.

Lemma ws_poll_read_spec n d :
  0 < n -> duplex_ok d ->
  let '(d', p) := ws_poll_read n d in
  duplex_ok d' /\ ws_out d' = ws_out d /\
  match p with
  | ReadPending => unread d = unread d' /\ script_ending (ws_in d) = script_ending (ws_in d') /\ termination d' = termination d
  | ReadBytes (b :: bytes) => unread d = (b :: bytes) ++ unread d' /\ script_ending (ws_in d) = script_ending (ws_in d') /\ termination d' = termination d
  | ReadBytes [] => unread d = [] /\ exists t, script_ending (ws_in d) = Some (t, false) /\
      termination d' = match t with Some t => record_termination (termination d) t | None => termination d end
  | ReadFails => unread d = [] /\ script_ending (ws_in d) = Some (Some WsAbnormal, true) /\
      termination d' = record_termination (termination d) WsAbnormal
  end.
Proof.
  intros Hn Hd. unfold ws_poll_read. replace (n =? 0) with false by lia.
  pose proof (copy_tail_spec n d Hn Hd) as Hc. destruct (copy_tail n d) as [d1 [answered put]].
  destruct Hc as (H1 & H2 & H3 & H4 & H5 & H6). destruct answered.
  - split; [done|]. split; [done|]. destruct put as [|b put]; [done|].
    unfold unread. rewrite H2, H5, <- app_assoc. done.
  - destruct H6 as (H6 & Ht & Hp). pose proof (read_events_spec n (ws_in d1) d1 Hn Ht Hp) as Hr.
    assert (Hu : unread d = carried (ws_in d1)) by (unfold unread; by rewrite H6, H2).
    destruct (read_events _ _ _) as [d' p]. rewrite H3, H4, <- H2 in *. rewrite Hu. done.
Qed.

(** What the reads of a carrier amount to, from the state before the first. *)
Lemma read_series_spec sizes : forall d,
  Forall (fun n => 0 < n) sizes -> duplex_ok d ->
  let '(bytes, d', e) := read_series sizes d in
  duplex_ok d' /\ ws_out d' = ws_out d /\
  match e with
  | None => bytes ++ unread d' = unread d /\ termination d' = termination d
  | Some (Ended error) => bytes = unread d /\ exists t, script_ending (ws_in d) = Some (t, error) /\
      termination d' = match t with Some t => record_termination (termination d) t | None => termination d end
  end.
Proof.
  induction sizes as [|n sizes IH]; intros d Hs Hd; [done|].
  inversion Hs as [|? ? Hn Hs']; subst. cbn [read_series].
  pose proof (ws_poll_read_spec n d Hn Hd) as Hp. destruct (ws_poll_read n d) as [d1 p]. destruct Hp as (H1 & H2 & Hp).
  destruct p as [|[|b bytes]|].
  - specialize (IH d1 Hs' H1). destruct (read_series sizes d1) as [[more d'] e].
    destruct Hp as (Hu & He & Ht). rewrite <- Hu, <- He, Ht, H2 in IH. done.
  - destruct Hp as [Hu Ht]. by rewrite Hu.
  - specialize (IH d1 Hs' H1). destruct (read_series sizes d1) as [[more d'] e].
    destruct Hp as (Hu & He & Ht). rewrite He, Ht, H2, Hu in *. destruct IH as (I1 & I2 & I3).
    split; [done|]. split; [done|]. destruct e as [[error]|].
    + destruct I3 as [-> I3]. done.
    + destruct I3 as [<- I3]. by rewrite app_assoc.
  - destruct Hp as (Hu & He & Ht). rewrite Hu. split; [done|]. split; [done|]. split; [done|]. by exists (Some WsAbnormal).
Qed.

(** C25. A relay carrier is the byte stream its binary messages spell: whatever
    the sizes of the reads and however the relay cuts the bytes into messages,
    with pings, pongs, empty messages and waits between them, the reads return
    the bytes in order, none lost, none twice and none invented; a read is
    empty only when the relay has closed or the connection has ended, and fails
    only on a message that is not binary or a broken connection, with every
    byte before it delivered; and the reason recorded is the first one that
    occurred and stays. *)
Theorem ws_reads_exact script sizes :
  Forall (fun n => 0 < n) sizes ->
  let '(bytes, d, e) := read_series sizes (duplex_new script) in
  match e with
  | None => (exists later, bytes ++ later = carried script) /\ termination d = None
  | Some (Ended error) => bytes = carried script /\ exists t, script_ending script = Some (t, error) /\ termination d = t
  end /\
  (forall t sizes', termination d = Some t -> Forall (fun n => 0 < n) sizes' ->
     termination (snd (fst (read_series sizes' d))) = Some t).
Proof.
  intros Hs. pose proof (read_series_spec sizes (duplex_new script) Hs) as H.
  destruct (read_series _ _) as [[bytes d] e]. destruct H as (Hok & _ & H); [unfold duplex_ok; cbn; lia|].
  split; [|intros t sizes' Ht Hs'; pose proof (read_series_spec sizes' d Hs' Hok) as H'; destruct (read_series sizes' d) as [[more d'] e'];
           cbn; destruct H' as (_ & _ & H'), e' as [[]|]; [destruct H' as (_ & u & _ & ->); rewrite Ht; by destruct u|by destruct H' as [_ ->]]].
  destruct e as [[error]|].
  - destruct H as (-> & t & He & Ht). split; [done|]. exists t. split; [done|]. by destruct t.
  - destruct H as [H Ht]. split; [|done]. exists (unread d). done.
Qed.

Lemma ws_reads_exact_witness :
  let script := [WsPing; WsBinary (blit "ab"); WsBinary []; WsPending; WsBinary (blit "cde"); WsClose (Some 4401)] in
  read_series [1; 4; 4; 2; 8; 8] (duplex_new script) = (blit "abcde", mkDuplex [] [] [] 0 (Some (WsClosed 4401)), Some (Ended false)) /\
  carried script = blit "abcde".
Proof.
  cbv zeta. pose proof (ws_reads_exact [WsPing; WsBinary (blit "ab"); WsBinary []; WsPending; WsBinary (blit "cde"); WsClose (Some 4401)]
    [1; 4; 4; 2; 8; 8] ltac:(repeat constructor; lia)) as H.
  split; [vm_compute; reflexivity|]. vm_compute in H. by destruct H as [[H _] _].
Defined.

(** Writes: what the sink was given is what the writer was told was taken. *)
Fixpoint write_series (bufs : list (sink_poll * bool * list byte)) (d : WsByteDuplex) : list byte * WsByteDuplex :=
  match bufs with
  | [] => ([], d)
  | (ready, sends, buf) :: bufs =>
      match ws_poll_write ready sends buf d with
      | (d, Written n) => let '(taken, d) := write_series bufs d in (ztake n buf ++ taken, d)
      | (d, _) => write_series bufs d
      end
  end.

(** The messages of a carrier are, in order, exactly the bytes its writes
    accepted, none empty and none above the message limit. *)
Theorem ws_writes_exact bufs : forall d,
  let '(taken, d') := write_series bufs d in
  exists messages, ws_out d' = ws_out d ++ messages /\ concat messages = taken /\
    Forall (fun m => 0 < len m <= MAX_WS_CHUNK_BYTES) messages.
Proof.
  induction bufs as [|[[ready sends] buf] bufs IH]; intros d; cbn [write_series].
  { exists []. by rewrite app_nil_r. }
  unfold ws_poll_write. case_bool_decide as Hb.
  - subst buf. specialize (IH d). destruct (write_series bufs d) as [taken d']. by rewrite take_nil.
  - destruct ready, sends; try apply IH.
    set (d1 := mkDuplex _ _ _ _ _). specialize (IH d1). destruct (write_series bufs d1) as [taken d'].
    destruct IH as (ms & Ho & Hc & Hf). cbn in Ho. exists (ztake (Z.min (len buf) MAX_WS_CHUNK_BYTES) buf :: ms).
    rewrite Ho, <- app_assoc. split; [done|]. split; [cbn; by rewrite Hc|]. constructor; [|done].
    assert (0 < len buf) by (destruct buf; [done|cbn; lia]). rewrite len_take; unfold MAX_WS_CHUNK_BYTES; lia.
Qed.

(** ** Control answers *)

Lemma parse_response_head raw split :
  find_subsequence raw bCRLF2 = Some split -> 0 <= split /\ split + 4 <= len raw.
Proof. intros E. apply find_subsequence_Some in E. cbn in E. lia. Qed.

Lemma push_complete a x d o :
  push chunked_new a = (d, Ok o) -> is_complete d = true -> push chunked_new (a ++ x) = (d, Ok o).
Proof.
  intros E Hd. rewrite push_app, E. unfold is_complete in Hd. apply bool_decide_eq_true in Hd.
  unfold push. rewrite Hd. cbn. by rewrite app_nil_r.
Qed.

Lemma dechunk_complete a d o : len a < 2 ^ 64 -> push chunked_new a = (d, Ok o) -> is_complete d = true -> dechunk a = Ok o.
Proof.
  intros Hl E Hd. pose proof (dechunk_agrees a Hl) as H. rewrite E in H. unfold is_complete in Hd.
  apply bool_decide_eq_true in Hd. cbn in H. by rewrite Hd in H.
Qed.

Lemma header_lookup_header st hs b name : header (mkHttpResponse st hs b) (lit name) = header_lookup hs (lowercase (lit name)).
Proof. done. Qed.

(** A complete answer does not change with what follows it. *)
Lemma complete_stable p x r :
  len (p ++ x) < 2 ^ 64 -> parse_response p = Ok r -> response_is_complete r p = true ->
  parse_response (p ++ x) = Ok r /\ response_is_complete r (p ++ x) = true.
Proof.
  intros Hl. rewrite length_app in Hl. unfold parse_response.
  destruct (find_subsequence p bCRLF2) as [split|] eqn:Es; [|done].
  rewrite (find_subsequence_mono _ _ x _ Es). destruct (parse_response_head _ _ Es) as [H0 H1].
  rewrite take_app_le, drop_app_le by lia.
  destruct (parse_head (ztake split p)) as [[st hs]|e|]; [|done..]. cbn [mbind res_bind].
  assert (Hdrop : len (zdrop (split + 4) p) + len x < 2 ^ 64) by (rewrite len_drop by lia; lia).
  set (rest := zdrop (split + 4) p) in *.
  unfold response_is_complete, chunked_header. rewrite (find_subsequence_mono _ _ x _ Es), Es, drop_app_le by lia. fold rest.
  destruct (is_chunked hs) eqn:Ec.
  - destruct (dechunk rest) as [b|e|] eqn:Ed; [|done..]. intros [= <-]. rewrite header_lookup_header.
    change (header_lookup hs (lowercase (lit "transfer-encoding"))) with (header_lookup hs (lit "transfer-encoding")).
    unfold is_chunked in Ec. destruct (header_lookup hs (lit "transfer-encoding")); [|done]. rewrite Ec.
    destruct (push chunked_new rest) as [d [o|e|]] eqn:Ep; [|done..]. intros Hd.
    rewrite (push_complete _ x _ _ Ep Hd). split; [|done].
    rewrite (dechunk_complete rest d o ltac:(lia) Ep Hd) in Ed. injection Ed as <-.
    by rewrite (dechunk_complete (rest ++ x) d o ltac:(rewrite length_app; lia) (push_complete _ x _ _ Ep Hd) Hd).
  - assert (Hnc : forall b, match header (mkHttpResponse st hs b) (lit "transfer-encoding") with
                            | Some v => eq_ignore_ascii_case v (lit "chunked") | None => false end = false) by (intros b; exact Ec).
    destruct (header_lookup hs (lit "content-length") ≫= parse_uint 10 64) as [n|] eqn:En.
    + assert (Hn : 0 <= n).
      { destruct (header_lookup hs (lit "content-length")) as [v|]; [|done]. cbn in En. apply parse_uint_range in En; lia. }
      assert (Hcl : forall b, header (mkHttpResponse st hs b) (lit "content-length") ≫= parse_uint 10 64 = Some n) by (intros b; exact En).
      destruct (Z.ltb_spec n (len rest)); [|destruct (Z.gtb_spec n (len rest)); [done|]]; intros [= <-]; rewrite !Hnc, !Hcl; cbn [body].
      * intros Hb. rewrite length_app. replace (n <? _) with true by lia. rewrite take_app_le by lia. rewrite ?Hnc, ?Hcl. done.
      * intros Hb. rewrite length_app. assert (n = len rest) as -> by lia.
        destruct (Z.ltb_spec (len rest) (Z.of_nat (length rest + length x))).
        { rewrite take_app_le, take_ge by lia. rewrite ?Hnc, ?Hcl. done. }
        destruct x; [|cbn in *; lia]. rewrite app_nil_r in *. replace (_ >? _) with false by lia. rewrite ?Hnc, ?Hcl. done.
    + intros [= <-]. rewrite !Hnc. change (header (mkHttpResponse st hs rest) (lit "content-length")) with (header_lookup hs (lit "content-length")).
      rewrite En. done.
Qed.

Lemma parse_response_total raw : len raw < 2 ^ 64 -> parse_response raw <> Panic.
Proof.
  intros Hl. unfold parse_response. destruct (find_subsequence raw bCRLF2) as [split|] eqn:Es; [|done].
  destruct (parse_response_head _ _ Es) as [H0 H1].
  assert (Hh : parse_head (ztake split raw) <> Panic) by (unfold parse_head; by repeat case_match).
  destruct (parse_head _) as [[st hs]|e|]; [|done..]. cbn [mbind res_bind].
  assert (Hd : dechunk (zdrop (split + 4) raw) <> Panic).
  { pose proof (dechunk_agrees (zdrop (split + 4) raw) ltac:(rewrite len_drop by lia; lia)) as H. unfold agrees in H.
    destruct (push _ _) as [d [o|e|]]; [|congruence|done]. destruct (cstate d); first [by rewrite H|destruct H as [m H]; by rewrite H]. }
  case_match; [|by repeat case_match]. by destruct (dechunk _).
Qed.

(** The answer that is already there in [raw]. *)
Definition complete_answer (raw : list byte) : option HttpResponse :=
  match parse_response raw with
  | Ok r => if response_is_complete r raw then Some r else None
  | _ => None
  end.

Lemma complete_answer_app p x r : len (p ++ x) < 2 ^ 64 -> complete_answer p = Some r -> complete_answer (p ++ x) = Some r.
Proof.
  intros Hl. unfold complete_answer. destruct (parse_response p) as [r'| |] eqn:Ep; [|done..].
  destruct (response_is_complete r' p) eqn:Ec; [|done]. intros [= <-].
  destruct (complete_stable p x r' Hl Ep Ec) as [-> ->]. done.
Qed.

Lemma control_read_loop_cut tail chunks : forall raw,
  Forall (fun c => c <> []) chunks -> len (raw ++ concat chunks) <= CONTROL_RESPONSE_LIMIT -> complete_answer raw = None ->
  control_read_loop ((CtBytes <$> chunks) ++ tail) raw =
  match complete_answer (raw ++ concat chunks) with
  | Some r => Ok (inl r)
  | None => control_read_loop tail (raw ++ concat chunks)
  end.
Proof.
  induction chunks as [|c chunks IH]; intros raw Hc Hl Hr.
  { cbn [concat fmap list_fmap app]. rewrite app_nil_r, Hr. done. }
  inversion Hc as [|? ? Hne Hc']; subst. cbn [concat] in Hl |- *. rewrite app_assoc in Hl |- *.
  assert (Hl' : len (raw ++ c) <= CONTROL_RESPONSE_LIMIT) by (rewrite length_app in Hl; lia).
  destruct c as [|b c]; [done|]. cbn [fmap list_fmap app control_read_loop].
  replace (len raw + len (b :: c) >? CONTROL_RESPONSE_LIMIT) with false by (rewrite length_app in Hl'; lia).
  unfold CONTROL_RESPONSE_LIMIT in *.
  pose proof (parse_response_total (raw ++ b :: c) ltac:(lia)) as Hp.
  pose proof (complete_answer_app (raw ++ b :: c) (concat chunks)) as Hs.
  specialize (IH (raw ++ b :: c) Hc' Hl). unfold complete_answer at 1 in IH. unfold complete_answer at 1 in Hs.
  destruct (parse_response (raw ++ b :: c)) as [r|e|]; [|by apply IH|done].
  destruct (response_is_complete r _); [|by apply IH].
  rewrite (Hs r); [done|lia|done].
Qed.

(** C26. The answer to a control request does not depend on how the network cuts
    it: for every division of up to 64 KiB into reads, an answer that is
    complete (by its length or its last chunk) is returned as soon as it has
    arrived, whatever comes after it, and if the relay closes the connection
    the outcome is that of reading all the bytes at once. *)
Theorem control_answer_cut_free chunks tail :
  Forall (fun c => c <> []) chunks -> len (concat chunks) <= CONTROL_RESPONSE_LIMIT ->
  (forall r, complete_answer (concat chunks) = Some r -> post_json_over_stream true ((CtBytes <$> chunks) ++ tail) = Ok r) /\
  post_json_over_stream true ((CtBytes <$> chunks) ++ [CtBytes []]) = closed_answer (concat chunks) /\
  closed_answer (concat chunks) <> Panic.
Proof.
  intros Hc Hl. unfold post_json_over_stream. cbn [negb].
  pose proof (fun t => control_read_loop_cut t chunks [] Hc Hl eq_refl) as H. cbn [app] in H.
  assert (Hp : closed_answer (concat chunks) <> Panic).
  { pose proof (parse_response_total (concat chunks) ltac:(unfold CONTROL_RESPONSE_LIMIT in *; lia)) as Ht.
    unfold closed_answer. destruct (parse_response _) as [r|e|]; [|done..]. by destruct (_ && _). }
  split; [|split; [|done]].
  - intros r Hr. by rewrite H, Hr.
  - rewrite H. unfold complete_answer, closed_answer. destruct (parse_response (concat chunks)) as [r|e|] eqn:Ep; cbn; [|by rewrite Ep..].
    destruct (response_is_complete r (concat chunks)) eqn:Ec; cbn; [by rewrite andb_false_r|]. by rewrite Ep, Ec.
Qed.

Lemma control_answer_cut_free_witness :
  let chunks := [blit "HTTP/1.1 200 OK"; bCRLF; blit "content-length: 2"; bCRLF2 ++ blit "o"; blit "k?"] in
  post_json_over_stream true ((CtBytes <$> chunks) ++ [CtTimeout]) =
    Ok (mkHttpResponse 200 [(lit "content-length", lit "2")] (blit "ok")).
Proof.
  cbv zeta.
  destruct (control_answer_cut_free [blit "HTTP/1.1 200 OK"; bCRLF; blit "content-length: 2"; bCRLF2 ++ blit "o"; blit "k?"] [CtTimeout])
    as [H _]; [repeat (apply List.Forall_cons; [vm_compute; discriminate|]); apply List.Forall_nil|vm_compute; discriminate|]. apply H. vm_compute. reflexivity.
Defined.

(** ** Relay origins, printed and read *)

Definition plain_char (c : Z) : bool :=
  negb (existsb (Z.eqb c) [47; 63; 35; 64; 58; 91; 93] || is_whitespace c || is_control c).
Definition plain_host (host : str) : bool := negb (bool_decide (host = [])) && forallb plain_char host.

Definition scheme_prefix (s : RelayScheme) : str := match s with SchemeHttps => lit "https://" | SchemeHttp => lit "http://" end.
Definition scheme_port (s : RelayScheme) : Z := match s with SchemeHttps => 443 | SchemeHttp => 80 end.
Definition origin_text (s : RelayScheme) (host : str) (port : option Z) (slash : bool) : str :=
  scheme_prefix s ++ host ++ match port with Some p => 58 :: to_string p | None => [] end ++ (if slash then [47] else []).

Lemma has_char_false c s : Forall (fun x => x <> c) s -> has_char c s = false.
Proof. intros H. apply not_true_is_false. intros E. apply existsb_exists in E as (x & Hx & E). rewrite List.Forall_forall in H. apply (H x Hx). lia. Qed.

(** The characters of a host and of a printed port. *)
Definition authority_char (c : Z) : Prop := plain_char c = true \/ c = 58.
Lemma plain_char_not c d : plain_char c = true -> d ∈ [47; 63; 35; 64; 58; 91; 93] -> c <> d.
Proof. intros H Hd ->. rewrite !elem_of_cons in Hd. destruct_or!; subst; try done. by apply not_elem_of_nil in Hd. Qed.

Lemma port_chars p : 0 <= p -> Forall (fun c => plain_char c = true) (to_string p).
Proof.
  intros Hp. eapply list.Forall_impl; [exact (to_string_digits p Hp)|]. cbn. intros c Hc.
  unfold plain_char, is_whitespace, is_control, between. cbn [existsb]. lia.
Qed.

Lemma strip_suffix_app p l : strip_suffix p (l ++ p) = Some l.
Proof.
  unfold strip_suffix. rewrite length_app, Nat.add_sub, drop_app_length, take_app_length. by rewrite bool_decide_eq_true_2.
Qed.

Section Origins.
Context {K : RelayStack}.
Variables (host : str) (port : option Z).
Hypothesis (Hhost : plain_host host = true) (Hname : server_name_ok host = true).
Hypothesis (Hport : match port with Some p => 0 < p < 2 ^ 16 | None => True end).

Definition authority_text : str := host ++ match port with Some p => 58 :: to_string p | None => [] end.

Lemma host_chars : Forall (fun c => plain_char c = true) host.
Proof. unfold plain_host in Hhost. apply andb_prop in Hhost as [_ H]. by apply List.Forall_forall, forallb_forall. Qed.

Lemma host_not d : d ∈ [47; 63; 35; 64; 58; 91; 93] -> Forall (fun c => c <> d) host.
Proof. intros Hd. eapply list.Forall_impl; [exact host_chars|]. cbn. intros c Hc. by apply plain_char_not. Qed.

Lemma authority_chars : Forall authority_char authority_text.
Proof.
  apply list.Forall_app. split; [eapply list.Forall_impl; [exact host_chars|by left]|].
  destruct port as [p|]; constructor; [by right|]. eapply list.Forall_impl; [apply port_chars; lia|by left].
Qed.

Lemma authority_not d : d ∈ [47; 63; 35; 64; 91; 93] -> Forall (fun c => c <> d) authority_text.
Proof.
  intros Hd. eapply list.Forall_impl; [exact authority_chars|]. cbn. intros c [Hc| ->].
  - apply plain_char_not; [done|]. rewrite !elem_of_cons in *. tauto.
  - intros <-. rewrite !elem_of_cons in Hd. destruct_or!; try done. by apply not_elem_of_nil in Hd.
Qed.

Lemma not_in_list d (l : str) a b : Forall (fun c => c <> d) l -> l = a ++ d :: b -> False.
Proof. intros H ->. apply list.Forall_app in H as [_ H]. by inversion H. Qed.

Lemma parse_origin_authority_text default_port : parse_origin_authority authority_text default_port = Ok (host, default default_port port).
Proof.
  unfold parse_origin_authority.
  destruct (strip_prefix [91] authority_text) as [r|] eqn:E.
  { exfalso. apply strip_prefix_Some in E. eapply (not_in_list 91 _ []); [apply authority_not; set_solver|exact E]. }
  assert (Hh : (bool_decide (host = []) || has_char 58 host || has_char 91 host || has_char 93 host) = false).
  { rewrite !has_char_false by (apply host_not; set_solver). unfold plain_host in Hhost. by destruct (bool_decide (host = [])). }
  unfold authority_text. destruct port as [p|]; cbn [default].
  - rewrite rsplit_once_app by (eapply list.Forall_impl; [apply port_chars; lia|]; cbn; intros c Hc; apply plain_char_not; [done|set_solver]).
    rewrite (has_char_false 58) by (apply host_not; set_solver). unfold parse_origin_port.
    rewrite (parse_to_string_width 16) by lia. replace (p =? 0) with false by lia. cbn. rewrite Hh, Hname. done.
  - rewrite app_nil_r. assert (Hr : rsplit_once 58 host = None).
    { unfold rsplit_once. destruct (split_once 58 (reverse host)) as [[a b]|] eqn:Es; [|done]. exfalso.
      apply split_once_eq in Es. apply (f_equal reverse) in Es. rewrite reverse_involutive, reverse_app, reverse_cons, <- app_assoc in Es.
      eapply not_in_list; [apply (host_not 58); set_solver|exact Es]. }
    rewrite Hr. cbn. rewrite Hh, Hname. done.
Qed.

(** An origin written from a scheme, a host name, an optional port and an
    optional slash is read back as that scheme, host and port. *)
Theorem relay_origin_read s slash :
  parse_relay_origin (origin_text s host port slash) = Ok (mkOrigin s host (default (scheme_port s) port) authority_text).
Proof.
  unfold parse_relay_origin, origin_text. rewrite (app_assoc host). fold authority_text.
  set (rest := authority_text ++ (if slash then [47] else [])).
  assert (Hp : match strip_prefix (lit "https://") (scheme_prefix s ++ rest) with
               | Some rest => Some (SchemeHttps, rest, 443)
               | None => match strip_prefix (lit "http://") (scheme_prefix s ++ rest) with
                         | Some rest => Some (SchemeHttp, rest, 80) | None => None end
               end = Some (s, rest, scheme_port s)) by (destruct s; [done|cbn [scheme_prefix]; by rewrite strip_prefix_app]).
  rewrite Hp.
  assert (Ha : default rest (strip_suffix [47] rest) = authority_text).
  { unfold rest. destruct slash; [by rewrite strip_suffix_app|]. rewrite app_nil_r.
    destruct (strip_suffix [47] authority_text) as [l|] eqn:E; [|done]. exfalso. apply strip_suffix_Some in E.
    eapply not_in_list; [apply (authority_not 47); set_solver|exact E]. }
  rewrite Ha.
  assert (Hc : (bool_decide (authority_text = []) || has_char 47 authority_text || has_char 63 authority_text || has_char 35 authority_text
     || has_char 64 authority_text || existsb (fun c => is_whitespace c || is_control c) authority_text) = false).
  { rewrite !has_char_false by (apply authority_not; set_solver).
    assert (He : existsb (fun c => is_whitespace c || is_control c) authority_text = false).
    { apply not_true_is_false. intros E. apply existsb_exists in E as (c & Hc & E). pose proof authority_chars as H.
      rewrite List.Forall_forall in H. destruct (H c Hc) as [H1| ->]; [|done]. unfold plain_char in H1. lia. }
    rewrite He. rewrite bool_decide_eq_false_2; [done|]. unfold authority_text. intros E. apply app_eq_nil in E as [E _].
    rewrite E in Hhost. done. }
  rewrite Hc, parse_origin_authority_text. done.
Qed.

End Origins.

Definition sample_stack : RelayStack := {| client_request_ok := fun _ => true; header_value_ok := fun _ => true; server_name_ok := fun _ => true |}.

Lemma relay_origin_read_witness :
  same_relay_origin (K := sample_stack) (lit "https://link.Solstone.app:443/") (lit "https://link.solstone.app") = Ok true.
Proof.
  unfold same_relay_origin.
  pose proof (relay_origin_read (K := sample_stack) (lit "link.Solstone.app") (Some 443) eq_refl eq_refl ltac:(cbn; lia) SchemeHttps true) as H1.
  pose proof (relay_origin_read (K := sample_stack) (lit "link.solstone.app") None eq_refl eq_refl I SchemeHttps false) as H2.
  change (origin_text SchemeHttps (lit "link.Solstone.app") (Some 443) true) with (lit "https://link.Solstone.app:443/") in H1.
  change (origin_text SchemeHttps (lit "link.solstone.app") None false) with (lit "https://link.solstone.app") in H2.
  rewrite H1, H2. reflexivity.
Defined.
