(* ===== verification/Pairing.v ===== *)
(** * Pairing ([crates/spl-transport/src/pairing.rs], [relay_pairing.rs],
    [spki_pin.rs], [credential.rs], and the verifiers of [tls.rs])

    How a device comes by its credential: the pin of a pair link is checked in
    the TLS handshake, the secret of the link and a fresh certificate request go
    to the home that passed it, and the answer is bound to that home before it
    is kept.  A direct link is tried endpoint by endpoint, a relay link through
    the relay's pairing tunnel; the same verifier as for direct pairing guards
    every later session.

    Certificates are byte strings read by [Identity].  Signatures, PEM, key
    generation and JSON are third-party code ([PairPrimitives]); so is the TLS
    handshake, of which the ceremony relies on one thing, stated as a law: it
    completes only if the configured verifier accepted the chain the peer
    presented ([PairTls]). *)

From S2P Require Import Prelude Text Frame Window Upload Assembler Http Crockford PairLink Relay Identity Client Exchange RelayLink.

Abbreviation cert := (list byte).

(** ** Data *)

Record GeneratedKey := mkKey { key_pem : str; csr_pem : str; public_key_spki_der : list byte }.

Record PairRequest := mkPairRequest { pq_csr : str; pq_device_label : str; pq_additional : list (str * json) }.

Record PairResponse := mkPairResponse {
  pr_client_cert : str; pr_ca_chain : list str; pr_instance_id : str; pr_home_label : str; pr_fingerprint : str;
  pr_home_attestation : option str; pr_local_endpoints : option json; pr_relay_access : option json
}.

Record EnrollResponse := mkEnroll { er_device_token : str; er_protocol_version : option Z; er_expires_at : option str }.

Record PairCredential := mkPaired {
  pc_client_key_pem : str; pc_client_cert_pem : str; pc_ca_chain_pem : list str; pc_ca_fp_prefix : list byte;
  pc_instance_id : str; pc_home_label : str; pc_endpoints : list EndpointAddr; pc_home_attestation : option str;
  pc_local_endpoints : option json; pc_relay_origin : option str; pc_device_token : option str;
  pc_device_token_expires_at : option Z
}.

Record PairingMaterial := mkMaterial { pm_client_key_pem : str; pm_pair : PairResponse; pm_pinned_ca : cert }.

Class PairPrimitives := {
  sha256 : list byte -> list byte;
  verify_signature : list byte -> list byte -> list byte -> bool;
  verify_server_usage : Z -> cert -> cert -> bool;
  pem_certs : str -> option (list cert);
  generate_key : str -> option GeneratedKey;
  pair_request_json : PairRequest -> option (list byte);
  pair_response_from : list byte -> option PairResponse;
  relay_access_from : json -> option RelayAccess;
  enroll_response_from : list byte -> option EnrollResponse;
  tls_setup_ok : bool
}.

(** A certificate verifier: the clock of the call, the leaf and the rest of the
    chain. *)
Definition Verifier : Type := Z -> cert -> list cert -> res TlsFailure unit.

(** A TLS peer: the chain it presents, leaf first, and the clock when the
    handshake with it asks the verifier. *)
Class PairTls := {
  TlsPeer : Type;
  presented : TlsPeer -> cert * list cert;
  asked_at : TlsPeer -> Z;
  tls_connect : Verifier -> TlsPeer -> Handshake;
  handshake_verified : forall verify peer leaf tls,
    tls_connect verify peer = HandshakeDone leaf tls ->
    verify (asked_at peer) (fst (presented peer)) (snd (presented peer)) = Ok tt /\ (leaf = None \/ leaf = Some (fst (presented peer)))
}.

(** What a ceremony does, in order: observer notes, dials, control posts, and
    the pairing request with the path that carries the secret. *)
Inductive pair_event (Peer : Type) :=
| PNote (n : Note)
| PEnrollment
| PLegacyPossible
| PLegacyCleared
| PRequest (peer : Peer) (path : str) (body : list byte)
| PPost (origin instance_id home_attestation : str).
Arguments PNote {Peer} _.
Arguments PEnrollment {Peer}.
Arguments PLegacyPossible {Peer}.
Arguments PLegacyCleared {Peer}.
Arguments PRequest {Peer} _ _ _.
Arguments PPost {Peer} _ _ _.

(** The ceremony's effects: a trace and a result. *)
Definition W (Peer A : Type) : Type := list (pair_event Peer) * stage A.
#[export] Instance W_ret {Peer} : MRet (W Peer) := fun _ a => ([], Next a).
#[export] Instance W_bind {Peer} : MBind (W Peer) := fun _ _ f m =>
  match m with
  | (t, Next a) => let '(t', r) := f a in (t ++ t', r)
  | (t, Fail e) => (t, Fail e)
  | (t, Crash) => (t, Crash)
  | (t, Fuel) => (t, Fuel)
  end.
Definition tell {Peer} (e : pair_event Peer) : W Peer unit := ([e], Next tt).
Definition lift {Peer A} (r : res TransportError A) : W Peer A :=
  ([], match r with Ok a => Next a | Err e => Fail e | Panic => Crash end).
Definition lift_stage {Peer A} (r : stage A) : W Peer A := ([], r).

Section Pairing.
Context {R : RelayPrimitives} {Q : PairPrimitives}.

(** ** Signatures ([spki_pin.rs]) *)

Definition signed_by (c ca : cert) : bool :=
  match extract_tbs_and_signature c, extract_spki_der ca with
  | Ok (tbs, signature), Ok spki => verify_signature spki tbs signature
  | _, _ => false
  end.

Definition verify_ca_self_signed (pinned_ca : cert) : bool := signed_by pinned_ca pinned_ca.

(** [now] is the clock the verification reads. *)
Definition verify_live_peer_binding (now : Z) (peer_leaf pinned_ca : cert) : bool := verify_server_usage now peer_leaf pinned_ca.

(** ** Verifiers ([tls.rs]) *)

Definition responding_jid (end_entity : cert) (intermediates : list cert) : option str :=
  ca ← snd <$> list_find (fun c => verify_ca_self_signed c = true) (reverse (end_entity :: intermediates));
  match extract_spki_der ca with
  | Ok spki => match jid_from_spki spki with Ok jid => Some jid | _ => None end
  | _ => None
  end.

(** [CaFpPinVerifier::verify_server_cert]; the certificate the paired journal's
    dates or usage disqualify is [OtherTls]. *)
Definition session_verify (prefix : list byte) (now : Z) (end_entity : cert) (intermediates : list cert) : res TlsFailure unit :=
  match snd <$> list_find (fun c => cert_matches_prefix sha256 c prefix = true) (end_entity :: intermediates) with
  | None => Err (PeerMismatch (responding_jid end_entity intermediates))
  | Some pinned_ca =>
      if negb (verify_ca_self_signed pinned_ca) || negb (signed_by end_entity pinned_ca) then Err (PeerMismatch None)
      else if negb (verify_live_peer_binding now end_entity pinned_ca) then Err OtherTls
      else Ok tt
  end.

(** [CaSpkiPinVerifier::verify_server_cert] *)
Definition pairing_verify (prefix : list byte) (now : Z) (end_entity : cert) (intermediates : list cert) : res TlsFailure unit :=
  match snd <$> list_find (fun c => spki_matches_prefix sha256 c prefix = true) (end_entity :: intermediates) with
  | None => Err PinRejected
  | Some pinned_ca =>
      if negb (verify_ca_self_signed pinned_ca) then Err PinRejected
      else if negb (verify_live_peer_binding now end_entity pinned_ca) then Err PinRejected
      else Ok tt
  end.

(** [pairing_config] and [relay_pairing_config], by their verifier. *)
Definition pairing_config (prefix : list byte) : res TransportError Verifier :=
  if tls_setup_ok then Ok (session_verify prefix) else Err Tls.
Definition RELAY_PIN_MIN_BYTES : Z := 16.
Definition relay_pairing_config (pin : list byte) : res TransportError Verifier :=
  if len pin <? RELAY_PIN_MIN_BYTES then Err PairLinkFailed
  else if tls_setup_ok then Ok (pairing_verify pin) else Err Tls.

Definition parse_certs (pem : str) : res TransportError (list cert) := ok_or (pem_certs pem) Tls.

(** [mtls_config], by its verifier; [client_auth] is whether the certificate and
    key of the device are accepted.  No session is ever resumed, so every one
    runs the verifier. *)
Definition mtls_config (prefix : list byte) (client_auth : bool) : res TransportError Verifier :=
  if tls_setup_ok && client_auth then Ok (session_verify prefix) else Err Tls.

(** The journal a stored pairing names. *)
Definition pinned_ca_jid (ca_chain_pem : list str) (prefix : list byte) : option str :=
  pem ← head ca_chain_pem;
  match parse_certs pem with
  | Ok (ca :: _) =>
      if negb (cert_matches_prefix sha256 ca prefix) then None
      else if negb (verify_ca_self_signed ca) then None
      else
        match extract_spki_der ca with
        | Ok spki => match jid_from_spki spki with Ok jid => Some jid | _ => None end
        | _ => None
        end
  | _ => None
  end.

(** ** Credentials ([credential.rs]) *)

Definition endpoint_of (entry : json) : option EndpointAddr :=
  object ← as_object entry;
  host ← get (lit "ip") object ≫= as_str;
  port ← get (lit "port") object ≫= as_u64;
  if (port >? 65535) || (port =? 0) then None else Some (Client.mkEndpoint host port).
Definition endpoint_addrs_from_local_endpoints (value : option json) : list EndpointAddr :=
  match value with Some (JArray entries) => omap endpoint_of entries | _ => [] end.

(** [str::is_char_boundary]; [truncate_cn_label] walks back to one. *)
Definition is_char_boundary (s : str) (i : Z) : bool :=
  existsb (fun k => len (into_bytes (take k s)) =? i) (seq 0 (S (length s))).
Fixpoint boundary_below (fuel : nat) (s : str) (end_ : Z) : Z :=
  match fuel with
  | O => end_
  | S fuel => if is_char_boundary s end_ then end_ else boundary_below fuel s (end_ - 1)
  end.
Definition truncate_cn_label (device_label : str) : str :=
  let end_ := boundary_below 65 device_label (Z.min (len (into_bytes device_label)) 64) in
  from_utf8_lossy (ztake end_ (into_bytes device_label)).

Definition generate_csr (device_label : str) : res TransportError GeneratedKey :=
  ok_or (generate_key (truncate_cn_label device_label)) Crypto.

(** ** Checks on the answer *)

Definition PAIR_PATH : str := lit "/app/network/pair".

Definition build_pair_request (csr device_label : str) (additional : list (str * json)) : res TransportError PairRequest :=
  if contains_key "csr" additional || contains_key "device_label" additional then Err Pairing
  else Ok (mkPairRequest csr device_label additional).

Definition verify_client_cert_key_binding (cert_der generated_public_key_spki_der : list byte) : res TransportError unit :=
  match extract_spki_der cert_der with
  | Ok spki => if bool_decide (spki = generated_public_key_spki_der) then Ok tt else Err Pairing
  | _ => Err Pairing
  end.

Definition fingerprint_of (c : cert) : str := lit "sha256:" ++ hex_lower (sha256 c).

(** Every certificate of every PEM of a chain, in order. *)
Fixpoint parse_chain (chain : list str) : res TransportError (list cert) :=
  match chain with
  | [] => Ok []
  | pem :: chain => certs ← parse_certs pem; rest ← parse_chain chain; Ok (certs ++ rest)
  end.

Definition verify_instance_binds_pinned_ca (answer : PairResponse) (prefix : list byte) : res TransportError unit :=
  chain ← parse_chain (pr_ca_chain answer);
  match head chain with
  | Some pinned_ca =>
      if negb (cert_matches_prefix sha256 pinned_ca prefix) then Err Pairing
      else if negb (verify_ca_self_signed pinned_ca) then Err Pairing
      else
        match extract_spki_der pinned_ca with
        | Ok spki =>
            match jid_from_spki spki with
            | Ok expected => if bool_decide (pr_instance_id answer = expected) then Ok tt else Err Pairing
            | Err _ => Err Pairing
            | Panic => Panic
            end
        | Err _ => Err Pairing
        | Panic => Panic
        end
  | None => Err Pairing
  end.

(** The client certificate of an answer, once its fingerprint and key are checked. *)
Definition checked_client_cert (answer : PairResponse) (generated : GeneratedKey) : res TransportError cert :=
  certs ← parse_certs (pr_client_cert answer);
  match certs with
  | [] => Err Pairing
  | cert_der :: _ =>
      if negb (bool_decide (pr_fingerprint answer = fingerprint_of cert_der)) then Err Pairing
      else _ ← verify_client_cert_key_binding cert_der (public_key_spki_der generated); Ok cert_der
  end.

Context {K : RelayStack}.

(** The relay access a direct answer may carry. *)
Definition direct_access (answer : PairResponse) (now : Z) : option (str * str * Z) :=
  raw ← pr_relay_access answer;
  access ← relay_access_from raw;
  match validate_relay_origin (access_origin access) with
  | Ok _ => claims ← access_claims access (pr_instance_id answer) now; Some (access_origin access, device_token access, jwt_exp claims)
  | _ => None
  end.

Definition endpoint_addr (e : Endpoint) : EndpointAddr := Client.mkEndpoint (host e) (port e).

Definition credential_from_direct_pair_response (response : HttpResponse) (generated : GeneratedKey) (prefix : list byte)
  (all_endpoints : list Endpoint) (now : Z) : res TransportError PairCredential :=
  if negb (is_success response) then Err (Rejected (status response))
  else
    match pair_response_from (body response) with
    | None => Err Pairing
    | Some answer =>
        _ ← verify_instance_binds_pinned_ca answer prefix;
        _ ← checked_client_cert answer generated;
        let access := direct_access answer now in
        Ok (mkPaired (key_pem generated) (pr_client_cert answer) (pr_ca_chain answer) prefix (pr_instance_id answer)
              (pr_home_label answer) (endpoint_addr <$> all_endpoints) (pr_home_attestation answer) (pr_local_endpoints answer)
              ((fun a => fst (fst a)) <$> access) ((fun a => snd (fst a)) <$> access) (snd <$> access))
    end.

(** ** Pairing over a direct link ([pairing.rs]) *)

(** What a request over a prepared connection comes to. *)
Definition Connection : Type := str -> str -> Headers -> list byte -> stage HttpResponse.
(** A [DirectPairingSeam]: the connection, or the failure, of the [n]-th
    preparation, for the verifier and the endpoint it is given; with the peer
    it is connected to. *)
Definition Seam (Peer : Type) : Type := nat -> Verifier -> Endpoint -> res TransportError (Peer * Connection).

Definition json_headers : Headers := [(lit "Content-Type", lit "application/json")].

(** The loop over the candidates; [last_err] is the last failed preparation. *)
Fixpoint pair_candidates {Peer} (seam : Seam Peer) (verify : Verifier) (path : str) (request : list byte)
  (generated : GeneratedKey) (prefix : list byte) (all : list Endpoint) (now : Z) (n : nat) (endpoints : list Endpoint)
  (last_err : option TransportError) : W Peer PairCredential :=
  match endpoints with
  | [] => match last_err with Some e => lift (Err e) | None => lift Panic end
  | endpoint :: endpoints =>
      _ ← tell (PNote NoteDialAttempt);
      match seam n verify endpoint with
      | Ok (peer, connection) =>
          _ ← tell (PNote NoteDirectSuccess);
          _ ← tell (PRequest peer path request);
          response ← lift_stage (connection (lit "POST") path json_headers request);
          cred ← lift (credential_from_direct_pair_response response generated prefix all now);
          _ ← tell (PNote (NoteSelectedPath Client.Direct));
          mret cred
      | Err e => pair_candidates seam verify path request generated prefix all now (S n) endpoints (Some e)
      | Panic => lift Panic
      end
  end.

Definition pair_with_seam_observed {Peer} (endpoints : list Endpoint) (nonce : str) (prefix : list byte) (device_label : str)
  (seam : Seam Peer) (additional : list (str * json)) (now : Z) : W Peer PairCredential :=
  match endpoints with
  | [] => lift (Err NoEndpoint)
  | _ =>
      verify ← lift (pairing_config prefix);
      let path := PAIR_PATH ++ lit "?token=" ++ nonce in
      generated ← lift (generate_csr device_label);
      request ← lift (build_pair_request (csr_pem generated) device_label additional);
      bytes ← lift (ok_or (pair_request_json request) Json);
      pair_candidates seam verify path bytes generated prefix endpoints now 0 endpoints None
  end.

(** ** Pairing through a relay ([relay_pairing.rs]) *)

Context {T : PairTls}.

(** [RealDirectPairingSeam]: [net] is whether TCP connects at the [n]-th dial,
    and the peer found there. *)
Definition real_seam (net : nat -> Endpoint -> bool * TlsPeer) : Seam TlsPeer := fun n verify endpoint =>
  let '(tcp, peer) := net n endpoint in
  tls ← dial_tls (host endpoint) (port endpoint) tcp (tls_connect verify peer);
  Ok (peer, fun method path headers request => run_request_over_stream method path headers request tls).

Definition parse_ca_chain (chain : list str) : res TransportError (list cert) :=
  out ← parse_chain chain;
  match out with [] => Err Pairing | _ => Ok out end.

(** The checks on a relay answer, with the leaf the peer presented. *)
Definition verify_relay_answer (answer : PairResponse) (peer_leaf : cert) (pin : list byte) (generated : GeneratedKey) (now : Z)
  : res TransportError cert :=
  chain ← parse_ca_chain (pr_ca_chain answer);
  match head chain with
  | Some pinned_ca =>
      if negb (spki_matches_prefix sha256 pinned_ca pin) then Err Pairing
      else if negb (verify_live_peer_binding now peer_leaf pinned_ca) then Err Pairing
      else if negb (verify_ca_self_signed pinned_ca) then Err Pairing
      else
        match extract_spki_der pinned_ca with
        | Ok spki =>
            match jid_from_spki spki with
            | Ok expected =>
                if negb (bool_decide (pr_instance_id answer = expected)) then Err Pairing
                else _ ← checked_client_cert answer generated; Ok pinned_ca
            | Err _ => Err Pairing
            | Panic => Panic
            end
        | Err _ => Err Pairing
        | Panic => Panic
        end
  | None => Err Pairing
  end.

Definition pair_over_carrier_observed (peer : TlsPeer) (link : RelayPairLink) (device_label : str) (additional : list (str * json)) (checked_at : Z)
  : W TlsPeer PairingMaterial :=
  generated ← lift (generate_csr device_label);
  request ← lift (build_pair_request (csr_pem generated) device_label additional);
  bytes ← lift (ok_or (pair_request_json request) Json);
  let path := PAIR_PATH ++ lit "?token=" ++ hex_lower (relay_s link) in
  verify ← lift (relay_pairing_config (ca_fp_spki link));
  let h := tls_connect verify peer in
  _ ← match h with HandshakeDone _ _ => tell (PRequest peer path bytes) | _ => mret tt end;
  '(response, peer_leaf) ← lift_stage (request_once_over_stream_with_peer_leaf h (lit "POST") path json_headers bytes);
  _ ← tell (PNote NoteRelaySuccess);
  peer_leaf ← lift (ok_or peer_leaf Pairing);
  if negb (is_success response) then lift (Err (Rejected (status response)))
  else
    answer ← lift (ok_or (pair_response_from (body response)) Pairing);
    pinned_ca ← lift (verify_relay_answer answer peer_leaf (ca_fp_spki link) generated checked_at);
    mret (mkMaterial (key_pem generated) answer pinned_ca).

(** [enroll_device_observed]; [post] is what the control request comes to. *)
Definition enroll_valid (parsed : EnrollResponse) (instance_id : str) (now : Z) : bool :=
  match er_protocol_version parsed with
  | Some 2 =>
      match er_expires_at parsed with
      | Some expires_at => bool_decide (is_Some (negotiated_claims 2 (er_device_token parsed) expires_at instance_id now))
      | None => false
      end
  | None => bool_decide (is_Some (legacy_claims (er_device_token parsed) instance_id now))
  | Some _ => false
  end.
Definition enroll_device_observed (origin instance_id home_attestation : str) (post : res TransportError HttpResponse) (now : Z) : W TlsPeer str :=
  _ ← tell (PNote NoteDialAttempt);
  _ ← tell PLegacyPossible;
  _ ← tell (PPost origin instance_id home_attestation);
  response ← lift post;
  _ ← tell (PNote NoteRelaySuccess);
  if negb (is_success response) then lift (Err (RelayControlRejected EnrollDevice (status response)))
  else
    parsed ← lift (ok_or (enroll_response_from (body response)) Pairing);
    if negb (enroll_valid parsed instance_id now) then lift (Err Pairing)
    else
      _ ← (if bool_decide (er_protocol_version parsed = Some 2) then tell PLegacyCleared else mret tt);
      mret (er_device_token parsed).

(** [Result::ok] of a ceremony's part. *)
Definition ok_of {Peer A} (m : W Peer A) : W Peer (option A) :=
  match m with
  | (t, Next a) => (t, Next (Some a))
  | (t, Fail _) => (t, Next None)
  | (t, Crash) => (t, Crash)
  | (t, Fuel) => (t, Fuel)
  end.

(** The device token of a relay pairing. *)
Definition relay_device_token (link : RelayPairLink) (answer : PairResponse) (post : res TransportError HttpResponse) (now : Z)
  : W TlsPeer (option str) :=
  match pr_relay_access answer with
  | Some raw =>
      access ← lift (ok_or (relay_access_from raw) Pairing);
      _ ← lift (validate_relay_origin (access_origin access));
      same ← lift (same_relay_origin (access_origin access) (relay_origin link));
      if negb (same : bool) || negb (bool_decide (is_Some (access_claims access (pr_instance_id answer) now)))
      then lift (Err Pairing) else mret (Some (device_token access))
  | None =>
      match pr_home_attestation answer with
      | Some home_attestation =>
          _ ← tell PEnrollment;
          ok_of (enroll_device_observed (relay_origin link) (pr_instance_id answer) home_attestation post now)
      | None => mret None
      end
  end.

(** [upgrade] is the outcome of the pairing dial, [ended] what ended the tunnel
    by the time the ceremony over it is done; [checked_at] and [now] are the
    clock when the answer is checked and when the device token is. *)
Definition pair_over_relay_observed (link : RelayPairLink) (device_label : str) (additional : list (str * json))
  (upgrade : UpgradeOutcome) (peer : TlsPeer) (ended : option WsTermination) (post : res TransportError HttpResponse) (checked_at now : Z)
  : W TlsPeer PairCredential :=
  url ← lift (match pair_dial_url (relay_origin link) with Ok url => Ok url | Err _ => Err PairLinkFailed | Panic => Panic end);
  _ ← tell (PNote NoteDialAttempt);
  _ ← lift (dial_pair_relay_ws url (hex_lower (derive_rk (relay_s link))) upgrade);
  _ ← tell (PNote NoteDialAttempt);
  material ← match pair_over_carrier_observed peer link device_label additional checked_at with
             | (t, Fail e) => (t, Fail (match ended with Some w => RelayFailed (relay_error_from_termination w) | None => e end))
             | other => other
             end;
  let answer := pm_pair material in
  token ← relay_device_token link answer post now;
  _ ← tell (PNote (NoteSelectedPath Relayed));
  mret (mkPaired (pm_client_key_pem material) (pr_client_cert answer) (pr_ca_chain answer)
          (ztake 16 (sha256 (pm_pinned_ca material))) (pr_instance_id answer) (pr_home_label answer)
          (endpoint_addrs_from_local_endpoints (pr_local_endpoints answer)) (pr_home_attestation answer)
          (pr_local_endpoints answer) ((fun _ => relay_origin link) <$> token) token
          (token ≫= fun t => jwt_exp <$> decode_unverified_claims t)).

(** ** A pair link *)

(** Everything around the ceremony: the network of a direct link, or the relay
    tunnel and the home behind it, and the clock where it is read. *)
Record Surroundings := mkSurroundings {
  su_net : nat -> Endpoint -> bool * TlsPeer;
  su_upgrade : UpgradeOutcome;
  su_home : TlsPeer;
  su_ended : option WsTermination;
  su_post : res TransportError HttpResponse;
  su_checked_at : Z;
  su_token_at : Z
}.

Definition pair_from_link (link device_label : str) (additional : list (str * json)) (u : Surroundings) : W TlsPeer PairCredential :=
  parsed ← lift (match parse link with Ok p => Ok p | Err _ => Err PairLinkFailed | Panic => Panic end);
  match parsed with
  | PairLink.Direct pl =>
      pair_with_seam_observed (candidates pl) (nonce_hex pl) (ca_fp_prefix pl) device_label (real_seam (su_net u)) additional (su_token_at u)
  | PairLink.Relay rl => pair_over_relay_observed rl device_label additional (su_upgrade u) (su_home u) (su_ended u) (su_post u) (su_checked_at u) (su_token_at u)
  end.

End Pairing.

(** ** What a ceremony asks and returns *)

Section Traces.
Context {Peer : Type}.

Fixpoint requests_of (t : list (pair_event Peer)) : list (Peer * str * list byte) :=
  match t with
  | [] => []
  | PRequest peer path request :: t => (peer, path, request) :: requests_of t
  | _ :: t => requests_of t
  end.

Lemma requests_of_app a b : requests_of (a ++ b) = requests_of a ++ requests_of b.
Proof. induction a as [|[] a IH]; cbn; by rewrite ?IH. Qed.

(** A part that sends no pairing request; a part that sends at most one, [ok]. *)
Definition asks_nothing {A} (m : W Peer A) : Prop := requests_of (fst m) = [].
Definition single (ok : Peer * str * list byte -> Prop) {A} (m : W Peer A) : Prop :=
  asks_nothing m \/ exists x, requests_of (fst m) = [x] /\ ok x.
(** Every value a part returns, with the trace it leaves. *)
Definition gives {A} (P : list (pair_event Peer) -> A -> Prop) (m : W Peer A) : Prop := forall a, snd m = Next a -> P (fst m) a.

Lemma W_bind_fst {A B} (m : W Peer A) (f : A -> W Peer B) :
  fst (m ≫= f) = fst m ++ match snd m with Next a => fst (f a) | _ => [] end.
Proof. destruct m as [t [a| | |]]; cbn; rewrite ?app_nil_r; [|done..]. by destruct (f a). Qed.
Lemma W_bind_snd {A B} (m : W Peer A) (f : A -> W Peer B) b :
  snd (m ≫= f) = Next b -> exists a, snd m = Next a /\ snd (f a) = Next b.
Proof. destruct m as [t [a| | |]]; cbn; [|done..]. destruct (f a) as [t' r] eqn:E. cbn. intros ->. exists a. by rewrite E. Qed.

Lemma asks_nothing_bind {A B} (m : W Peer A) (f : A -> W Peer B) :
  asks_nothing m -> (forall a, snd m = Next a -> asks_nothing (f a)) -> asks_nothing (m ≫= f).
Proof.
  unfold asks_nothing. intros Hm Hf. rewrite W_bind_fst, requests_of_app, Hm. destruct (snd m) as [a| | |]; [|done..]. by rewrite (Hf a).
Qed.
Lemma single_after ok {A B} (m : W Peer A) (f : A -> W Peer B) :
  asks_nothing m -> (forall a, snd m = Next a -> single ok (f a)) -> single ok (m ≫= f).
Proof.
  unfold single, asks_nothing. intros Hm Hf. rewrite W_bind_fst, requests_of_app, Hm. destruct (snd m) as [a| | |]; [|by left..]. exact (Hf a eq_refl).
Qed.
Lemma single_before ok {A B} (m : W Peer A) (f : A -> W Peer B) :
  single ok m -> (forall a, snd m = Next a -> asks_nothing (f a)) -> single ok (m ≫= f).
Proof.
  unfold single, asks_nothing. intros Hm Hf. rewrite W_bind_fst, requests_of_app.
  assert (Hr : requests_of (match snd m with Next a => fst (f a) | _ => [] end) = []) by (destruct (snd m); [by apply Hf|done..]).
  by rewrite Hr, app_nil_r.
Qed.
Lemma gives_bind {A B} (P : list (pair_event Peer) -> B -> Prop) (m : W Peer A) (f : A -> W Peer B) :
  (forall a, snd m = Next a -> gives (fun t => P (fst m ++ t)) (f a)) -> gives P (m ≫= f).
Proof. intros H b Hb. apply W_bind_snd in Hb as (a & Ha & Hb). rewrite W_bind_fst, Ha. by apply H. Qed.
Lemma asks_nothing_lift {A} (r : res TransportError A) : asks_nothing (lift r). Proof. done. Qed.
Lemma asks_nothing_stage {A} (r : stage A) : asks_nothing (lift_stage r). Proof. done. Qed.
Lemma asks_nothing_ret {A} (a : A) : asks_nothing (mret a). Proof. done. Qed.
Lemma lift_gives {A} (r : res TransportError A) a : snd (lift (Peer := Peer) r) = Next a -> r = Ok a.
Proof. destruct r; cbn; congruence. Qed.
End Traces.

(** Walk through a part that sends nothing. *)
Ltac quietly :=
  repeat first
    [ apply asks_nothing_lift | apply asks_nothing_stage | apply asks_nothing_ret | done
    | apply asks_nothing_bind; [|intros]
    | case_match ].

Section Claims.
Context {R : RelayPrimitives} {Q : PairPrimitives} {K : RelayStack} {T : PairTls}.

(** The peer a direct link, or a relay link, names. *)
Definition direct_peer (prefix : list byte) (peer : TlsPeer) : Prop :=
  exists ca, ca ∈ fst (presented peer) :: snd (presented peer) /\ cert_matches_prefix sha256 ca prefix = true /\
    verify_ca_self_signed ca = true /\ signed_by (fst (presented peer)) ca = true /\ verify_server_usage (asked_at peer) (fst (presented peer)) ca = true.
Definition relay_peer (pin : list byte) (peer : TlsPeer) : Prop :=
  RELAY_PIN_MIN_BYTES <= len pin /\
  exists ca, ca ∈ fst (presented peer) :: snd (presented peer) /\ spki_matches_prefix sha256 ca pin = true /\
    verify_ca_self_signed ca = true /\ verify_server_usage (asked_at peer) (fst (presented peer)) ca = true.

Lemma session_verify_ok prefix peer :
  session_verify prefix (asked_at peer) (fst (presented peer)) (snd (presented peer)) = Ok tt -> direct_peer prefix peer.
Proof.
  unfold session_verify, direct_peer, verify_live_peer_binding.
  destruct (list_find _ _) as [[i ca]|] eqn:E; cbn; [|done].
  apply list_find_Some in E as (Hi & Hc & _). apply list_elem_of_lookup_2 in Hi.
  destruct (verify_ca_self_signed ca) eqn:E1, (signed_by _ ca) eqn:E2; cbn; try done.
  destruct (verify_server_usage _ _ _) eqn:E3; [|done]. intros _. by exists ca.
Qed.

Lemma pairing_verify_ok pin peer :
  pairing_verify pin (asked_at peer) (fst (presented peer)) (snd (presented peer)) = Ok tt -> RELAY_PIN_MIN_BYTES <= len pin -> relay_peer pin peer.
Proof.
  unfold pairing_verify, relay_peer, verify_live_peer_binding.
  destruct (list_find _ _) as [[i ca]|] eqn:E; cbn; [|done].
  apply list_find_Some in E as (Hi & Hc & _). apply list_elem_of_lookup_2 in Hi.
  destruct (verify_ca_self_signed ca) eqn:E1; cbn; try done.
  destruct (verify_server_usage _ _ _) eqn:E3; [|done]. intros _ Hl. split; [done|]. by exists ca.
Qed.

Definition asks_direct (prefix : list byte) (nonce : str) (x : TlsPeer * str * list byte) : Prop :=
  direct_peer prefix (fst (fst x)) /\ snd (fst x) = PAIR_PATH ++ lit "?token=" ++ nonce.
Definition asks_relay (link : RelayPairLink) (x : TlsPeer * str * list byte) : Prop :=
  relay_peer (ca_fp_spki link) (fst (fst x)) /\ snd (fst x) = PAIR_PATH ++ lit "?token=" ++ hex_lower (relay_s link).

Lemma real_seam_peer net prefix n endpoint peer connection :
  real_seam net n (session_verify prefix) endpoint = Ok (peer, connection) -> direct_peer prefix peer.
Proof.
  unfold real_seam. destruct (net n endpoint) as [tcp p]. unfold dial_tls. destruct tcp; [|done]. cbn [negb].
  destruct (tls_connect _ p) as [|leaf tls|e] eqn:Ht; cbn; [done| |done]. intros [= <- _].
  apply handshake_verified in Ht as [Ht _]. by apply session_verify_ok.
Qed.

Lemma candidates_single {Peer} (seam : Seam Peer) (ok : Peer -> Prop) verify path request generated prefix all now endpoints : forall n last,
  (forall n e peer connection, seam n verify e = Ok (peer, connection) -> ok peer) ->
  single (fun x => ok (fst (fst x)) /\ snd (fst x) = path) (pair_candidates seam verify path request generated prefix all now n endpoints last).
Proof.
  induction endpoints as [|e endpoints IH]; intros n last Hs; cbn [pair_candidates]; [left; by destruct last|].
  apply single_after; [done|]. intros _ _. destruct (seam n verify e) as [[peer connection]|err|] eqn:E; [|by apply IH|by left].
  apply single_after; [done|]. intros _ _. apply single_before; [right; eexists; split; [reflexivity|]; cbn; split; [by eapply Hs|done]|].
  intros _ _. quietly.
Qed.

Lemma direct_single net endpoints nonce prefix label additional now :
  single (asks_direct prefix nonce) (pair_with_seam_observed endpoints nonce prefix label (real_seam net) additional now).
Proof.
  unfold pair_with_seam_observed. destruct endpoints as [|e endpoints]; [by left|].
  apply single_after; [done|]. intros verify Hv. apply lift_gives in Hv. unfold pairing_config in Hv.
  destruct tls_setup_ok; [|done]. injection Hv as <-.
  do 3 (apply single_after; [done|]; intros ? _).
  apply (candidates_single _ (direct_peer prefix)). intros. by eapply real_seam_peer.
Qed.

Lemma carrier_single peer link label additional now :
  single (asks_relay link) (pair_over_carrier_observed peer link label additional now).
Proof.
  unfold pair_over_carrier_observed. do 3 (apply single_after; [done|]; intros ? _).
  apply single_after; [done|]. intros verify Hv. apply lift_gives in Hv. unfold relay_pairing_config in Hv.
  destruct (Z.ltb_spec (len (ca_fp_spki link)) RELAY_PIN_MIN_BYTES); [done|]. destruct tls_setup_ok; [|done]. injection Hv as <-.
  apply single_before.
  - destruct (tls_connect _ peer) as [|leaf tls|e] eqn:Ht; [by left| |by left].
    right. eexists. split; [reflexivity|]. split; [|done]. apply handshake_verified in Ht as [Ht _]. by apply pairing_verify_ok.
  - intros _ _. quietly.
Qed.

Lemma token_quiet link answer post now : asks_nothing (relay_device_token link answer post now).
Proof.
  unfold relay_device_token. case_match; [quietly|]. case_match; [|quietly]. apply asks_nothing_bind; [done|]. intros _ _.
  match goal with |- asks_nothing (ok_of ?m) => assert (Hq : asks_nothing m) by (unfold enroll_device_observed; quietly) end.
  unfold asks_nothing, ok_of in *. by destruct (enroll_device_observed _ _ _ _ _) as [t []].
Qed.

Lemma relay_single link label additional upgrade peer ended post checked_at now :
  single (asks_relay link) (pair_over_relay_observed link label additional upgrade peer ended post checked_at now).
Proof.
  unfold pair_over_relay_observed. do 4 (apply single_after; [done|]; intros ? _).
  apply single_before.
  - pose proof (carrier_single peer link label additional checked_at) as H. unfold single, asks_nothing in *.
    by destruct (pair_over_carrier_observed _ _ _ _ _) as [t []].
  - intros m _. apply asks_nothing_bind; [apply token_quiet|]. intros. quietly.
Qed.

(** C4. The secret of a pair link reaches nobody but the home the link names,
    and at most once: whatever the network, the relay and every peer met do, a
    ceremony sends at most one pairing request, its path is the one with the
    link's secret, and the peer it goes to has presented, in the handshake
    before it, a self-signed CA with the link's pin and a leaf valid for a
    server under that CA; a link that does not parse sends nothing. *)
Theorem secret_only_to_pinned_home link label additional u :
  match parse link with
  | Ok (PairLink.Direct pl) => single (asks_direct (ca_fp_prefix pl) (nonce_hex pl)) (pair_from_link link label additional u)
  | Ok (PairLink.Relay rl) => single (asks_relay rl) (pair_from_link link label additional u)
  | _ => fst (pair_from_link link label additional u) = []
  end.
Proof.
  unfold pair_from_link. destruct (parse link) as [[pl|rl]|e|]; [| |done..].
  - apply single_after; [done|]. intros p Hp. injection Hp as <-. apply direct_single.
  - apply single_after; [done|]. intros p Hp. injection Hp as <-. apply relay_single.
Qed.

(** ** What a credential is bound to *)

(** The head of the stored chain is a self-signed CA that [pinned] names, the
    stored instance is the journal identity of its key, and the stored client
    certificate is for the key made for this ceremony. *)
Definition identity_bound (pinned : cert -> Prop) (label : str) (c : PairCredential) : Prop :=
  exists ca rest spki leaf others generated,
    parse_chain (pc_ca_chain_pem c) = Ok (ca :: rest) /\ pinned ca /\ verify_ca_self_signed ca = true /\
    extract_spki_der ca = Ok spki /\ jid_from_spki spki = Ok (pc_instance_id c) /\
    parse_certs (pc_client_cert_pem c) = Ok (leaf :: others) /\
    generate_csr label = Ok generated /\ pc_client_key_pem c = key_pem generated /\
    extract_spki_der leaf = Ok (public_key_spki_der generated).

(** [answer] is the successful response of a peer that was sent the pairing
    request, over the handshake that [verify] let through. *)
Definition answered (verify : Verifier) (t : list (pair_event TlsPeer)) (answer : PairResponse) : Prop :=
  exists peer path request leaf tls response,
    PRequest peer path request ∈ t /\ tls_connect verify peer = HandshakeDone leaf tls /\
    run_request_over_stream (lit "POST") path json_headers request tls = Next response /\
    is_success response = true /\ pair_response_from (body response) = Some answer.

(** What a credential keeps of the answer it was made from. *)
Definition kept_from (answer : PairResponse) (c : PairCredential) : Prop :=
  pc_client_cert_pem c = pr_client_cert answer /\ pc_ca_chain_pem c = pr_ca_chain answer /\
  pc_instance_id c = pr_instance_id answer /\ pc_home_label c = pr_home_label answer /\
  pc_home_attestation c = pr_home_attestation answer /\ pc_local_endpoints c = pr_local_endpoints answer.

(** The answer carries relay access for its own instance: [token], issued for
    the relay at [origin], and acceptable at [now]. *)
Definition access_for (answer : PairResponse) (now : Z) (origin token : str) : Prop :=
  exists raw access, pr_relay_access answer = Some raw /\ relay_access_from raw = Some access /\
    access_origin access = origin /\ device_token access = token /\
    validate_relay_origin origin = Ok tt /\ is_Some (access_claims access (pr_instance_id answer) now).

(** The relay at [origin] was sent the answer's instance and attestation, and its
    successful reply [post] holds [token], acceptable for that instance at [now]. *)
Definition enrolled_at (origin : str) (answer : PairResponse) (post : res TransportError HttpResponse) (now : Z)
  (t : list (pair_event TlsPeer)) (token : str) : Prop :=
  exists attestation response parsed,
    pr_home_attestation answer = Some attestation /\ PPost origin (pr_instance_id answer) attestation ∈ t /\
    post = Ok response /\ is_success response = true /\ enroll_response_from (body response) = Some parsed /\
    er_device_token parsed = token /\ enroll_valid parsed (pr_instance_id answer) now = true.

(** The relay access a credential stores: for a direct link, exactly what the
    answer carries; for a relay link, a token for the link's own relay, out of
    the answer or, if that carries no access, by enrollment at that relay. *)
Definition direct_relay (answer : PairResponse) (now : Z) (c : PairCredential) : Prop :=
  match pc_relay_origin c, pc_device_token c with
  | Some origin, Some token => access_for answer now origin token
  | None, None => forall origin token, ~ access_for answer now origin token
  | _, _ => False
  end.
Definition link_relay (link : RelayPairLink) (answer : PairResponse) (post : res TransportError HttpResponse) (now : Z)
  (t : list (pair_event TlsPeer)) (stored : option str) : Prop :=
  match stored with
  | Some token =>
      (exists origin, access_for answer now origin token /\ same_relay_origin origin (relay_origin link) = Ok true) \/
      (pr_relay_access answer = None /\ enrolled_at (relay_origin link) answer post now t token)
  | None => pr_relay_access answer = None
  end.

Lemma direct_access_spec answer now origin token :
  (exists x, direct_access answer now = Some (origin, token, x)) <-> access_for answer now origin token.
Proof.
  unfold direct_access, access_for. split.
  - intros [x Hx]. destruct (pr_relay_access answer) as [raw|]; [|done]. cbn in Hx.
    destruct (relay_access_from raw) as [access|] eqn:Hr; [|done]. cbn in Hx.
    destruct (validate_relay_origin _) as [[]|e|] eqn:Hv; [|done..].
    destruct (access_claims _ _ _) as [claims|] eqn:Hc; [|done]. cbn in Hx. injection Hx as <- <- _.
    exists raw, access. rewrite Hc. by split_and!.
  - intros (raw & access & -> & Hr & <- & <- & Hv & [claims Hc]). cbn. rewrite Hr. cbn. rewrite Hv, Hc. cbn. eauto.
Qed.

Lemma checked_client_cert_ok answer generated leaf :
  checked_client_cert answer generated = Ok leaf ->
  exists others, parse_certs (pr_client_cert answer) = Ok (leaf :: others) /\ extract_spki_der leaf = Ok (public_key_spki_der generated).
Proof.
  unfold checked_client_cert. destruct (parse_certs _) as [[|c others]|e|]; cbn; [done| |done..].
  destruct (negb _); [done|]. unfold verify_client_cert_key_binding. destruct (extract_spki_der c) as [spki|e|] eqn:E; cbn; [|done..].
  case_bool_decide as Hs; cbn; [|done]. intros [= <-]. exists others. by rewrite E, Hs.
Qed.

Lemma direct_credential response generated label prefix endpoints now c :
  generate_csr label = Ok generated ->
  credential_from_direct_pair_response response generated prefix endpoints now = Ok c ->
  identity_bound (fun ca => cert_matches_prefix sha256 ca prefix = true) label c /\ pc_ca_fp_prefix c = prefix /\
  exists answer, is_success response = true /\ pair_response_from (body response) = Some answer /\
    kept_from answer c /\ direct_relay answer now c.
Proof.
  intros Hg. unfold credential_from_direct_pair_response. destruct (is_success response); [|done]. cbn [negb].
  destruct (pair_response_from _) as [answer|]; [|done].
  destruct (verify_instance_binds_pinned_ca answer prefix) as [[]|e|] eqn:Hv; [|done..].
  destruct (checked_client_cert answer generated) as [leaf|e|] eqn:Hc; [|done..]. cbn. intros [= <-].
  apply checked_client_cert_ok in Hc as (others & Hp & Hk).
  split; [|split; [done|]].
  - unfold verify_instance_binds_pinned_ca in Hv. destruct (parse_chain _) as [chain|e|] eqn:Hch; [|done..]. cbn in Hv.
    destruct chain as [|ca rest]; [done|]. cbn in Hv.
    destruct (cert_matches_prefix sha256 ca prefix) eqn:Hm; [|done]. destruct (verify_ca_self_signed ca) eqn:Hs; [|done]. cbn in Hv.
    destruct (extract_spki_der ca) as [spki|e|] eqn:He; [|done..]. destruct (jid_from_spki spki) as [jid|e|] eqn:Hj; [|done..].
    case_bool_decide as Hi; [|done]. exists ca, rest, spki, leaf, others, generated. cbn. rewrite Hi. done.
  - exists answer. do 2 (split; [done|]). split; [done|]. unfold direct_relay. cbn [pc_relay_origin pc_device_token].
    destruct (direct_access answer now) as [[[o t] x]|] eqn:Ha; cbn; [apply direct_access_spec; eauto|].
    intros o t Hf. apply direct_access_spec in Hf as [x Hx]. congruence.
Qed.

(** What a direct, and a relay, ceremony returns. *)
Definition direct_outcome (prefix : list byte) (label : str) (now : Z) (t : list (pair_event TlsPeer)) (c : PairCredential) : Prop :=
  identity_bound (fun ca => cert_matches_prefix sha256 ca prefix = true) label c /\ pc_ca_fp_prefix c = prefix /\
  exists answer, answered (session_verify prefix) t answer /\ kept_from answer c /\ direct_relay answer now c.
Definition relay_outcome (link : RelayPairLink) (label : str) (peer : TlsPeer) (post : res TransportError HttpResponse) (checked_at now : Z)
  (t : list (pair_event TlsPeer)) (c : PairCredential) : Prop :=
  identity_bound (fun ca => spki_matches_prefix sha256 ca (ca_fp_spki link) = true /\
    verify_server_usage checked_at (fst (presented peer)) ca = true /\ pc_ca_fp_prefix c = ztake 16 (sha256 ca)) label c /\
  exists answer, answered (pairing_verify (ca_fp_spki link)) t answer /\ kept_from answer c /\
    link_relay link answer post now t (pc_device_token c) /\ pc_relay_origin c = (fun _ => relay_origin link) <$> pc_device_token c.

Lemma direct_outcome_more prefix label now s t c : direct_outcome prefix label now t c -> direct_outcome prefix label now (s ++ t) c.
Proof.
  intros (H1 & H2 & answer & (p & path & rq & leaf & tls & rs & Hp & Ha) & H3). do 2 (split; [done|]). exists answer. split; [|done].
  exists p, path, rq, leaf, tls, rs. split; [by apply elem_of_app; right|done].
Qed.

Lemma candidates_gives net path request generated label prefix all now endpoints : forall n last,
  generate_csr label = Ok generated ->
  gives (direct_outcome prefix label now)
    (pair_candidates (real_seam net) (session_verify prefix) path request generated prefix all now n endpoints last).
Proof.
  induction endpoints as [|e endpoints IH]; intros n last Hg; cbn [pair_candidates]; [intros c; by destruct last|].
  apply gives_bind. intros _ _. destruct (real_seam net n (session_verify prefix) e) as [[peer connection]|err|] eqn:Hs; [| |done].
  2: { intros c Hc. apply direct_outcome_more. by eapply IH. }
  do 2 (apply gives_bind; intros _ _). apply gives_bind. intros response Hr. apply gives_bind. intros c Hc. apply lift_gives in Hc.
  apply gives_bind. intros _ _ c' [= <-].
  apply (direct_credential _ _ label) in Hc as (H1 & H2 & answer & H3 & H4 & H5 & H6); [|done].
  split; [done|]. split; [done|]. exists answer. split; [|done].
  unfold real_seam in Hs. destruct (net n e) as [tcp p]. unfold dial_tls in Hs. destruct tcp; [|done]. cbn [negb] in Hs.
  destruct (tls_connect _ p) as [|leaf tls|err] eqn:Ht; cbn in Hs; [done| |done]. injection Hs as <- <-.
  exists p, path, request, leaf, tls, response. split_and!; try done. cbn. set_solver.
Qed.

(** What the checks on a relay answer establish. *)
Definition answer_bound (pin : list byte) (now : Z) (peer_leaf : cert) (generated : GeneratedKey) (answer : PairResponse) (ca : cert) : Prop :=
  exists rest spki leaf others,
    parse_chain (pr_ca_chain answer) = Ok (ca :: rest) /\ spki_matches_prefix sha256 ca pin = true /\ verify_ca_self_signed ca = true /\
    verify_server_usage now peer_leaf ca = true /\ extract_spki_der ca = Ok spki /\ jid_from_spki spki = Ok (pr_instance_id answer) /\
    parse_certs (pr_client_cert answer) = Ok (leaf :: others) /\ extract_spki_der leaf = Ok (public_key_spki_der generated).

Lemma relay_answer_ok answer peer_leaf pin generated now ca :
  verify_relay_answer answer peer_leaf pin generated now = Ok ca -> answer_bound pin now peer_leaf generated answer ca.
Proof.
  unfold verify_relay_answer, parse_ca_chain, verify_live_peer_binding.
  destruct (parse_chain _) as [[|ca' rest]|e|] eqn:Hch; cbn; [done| |done..].
  destruct (spki_matches_prefix sha256 ca' pin) eqn:Hm; [|done]. destruct (verify_server_usage now peer_leaf ca') eqn:Hu; [|done].
  destruct (verify_ca_self_signed ca') eqn:Hs; [|done]. cbn.
  destruct (extract_spki_der ca') as [spki|e|] eqn:He; [|done..]. destruct (jid_from_spki spki) as [jid|e|] eqn:Hj; [|done..].
  case_bool_decide as Hi; [|done]. cbn. destruct (checked_client_cert answer generated) as [leaf|e|] eqn:Hc; [|done..]. cbn.
  intros [= <-]. apply checked_client_cert_ok in Hc as (others & Hp & Hk). exists rest, spki, leaf, others. by rewrite Hi.
Qed.

Lemma peer_leaf_presented verify peer method path headers request response leaf :
  request_once_over_stream_with_peer_leaf (tls_connect verify peer) method path headers request = Next (response, Some leaf) ->
  leaf = fst (presented peer).
Proof.
  unfold request_once_over_stream_with_peer_leaf. destruct (tls_connect verify peer) as [|l tls|e] eqn:Ht; [done| |done].
  destruct (run_request_over_stream _ _ _ _ _); [|done..]. intros [= _ ->].
  apply handshake_verified in Ht as [_ [Ht|Ht]]; congruence.
Qed.

Lemma carrier_gives peer link label additional checked_at :
  gives (fun t m => exists generated, generate_csr label = Ok generated /\ pm_client_key_pem m = key_pem generated /\
                  answer_bound (ca_fp_spki link) checked_at (fst (presented peer)) generated (pm_pair m) (pm_pinned_ca m) /\
                  answered (pairing_verify (ca_fp_spki link)) t (pm_pair m))
    (pair_over_carrier_observed peer link label additional checked_at).
Proof.
  unfold pair_over_carrier_observed. apply gives_bind. intros generated Hg. apply lift_gives in Hg.
  do 2 (apply gives_bind; intros ? _). apply gives_bind. intros verify Hv. apply lift_gives in Hv. unfold relay_pairing_config in Hv.
  destruct (len (ca_fp_spki link) <? RELAY_PIN_MIN_BYTES); [done|]. destruct tls_setup_ok; [|done]. injection Hv as <-.
  apply gives_bind. intros _ _. apply gives_bind. intros [response leaf] Hr. cbn [lift_stage snd] in Hr.
  apply gives_bind. intros _ _. apply gives_bind. intros peer_leaf Hl. apply lift_gives in Hl.
  destruct leaf as [leaf|]; [|done]. injection Hl as ->. pose proof Hr as Hpl. apply peer_leaf_presented in Hpl as ->.
  destruct (is_success response) eqn:Hok; [|done]. apply gives_bind. intros answer Ha. apply lift_gives in Ha.
  destruct (pair_response_from (body response)) as [answer'|] eqn:Hf; [|done]. injection Ha as ->.
  apply gives_bind. intros ca Hca. apply lift_gives, relay_answer_ok in Hca. intros m [= <-]. exists generated. do 3 (split; [done|]).
  unfold request_once_over_stream_with_peer_leaf in Hr. destruct (tls_connect _ peer) as [|l tls|e] eqn:Ht; [done| |done].
  destruct (run_request_over_stream _ _ _ _ tls) as [response'| | |] eqn:Hs; [|done..]. injection Hr as -> ->.
  eexists peer, _, _, _, tls, response. split_and!; [|exact Ht|exact Hs|done|done]. cbn. set_solver.
Qed.

Lemma enroll_gives origin answer attestation post now :
  pr_home_attestation answer = Some attestation ->
  gives (enrolled_at origin answer post now) (enroll_device_observed origin (pr_instance_id answer) attestation post now).
Proof.
  intros Hat. unfold enroll_device_observed. do 3 (apply gives_bind; intros ? _). apply gives_bind. intros response Hp. apply lift_gives in Hp.
  apply gives_bind. intros _ _. destruct (is_success response) eqn:Hok; [|done]. cbn [negb].
  apply gives_bind. intros parsed Hf. apply lift_gives in Hf. destruct (enroll_response_from _) as [parsed'|] eqn:Hp'; [|done]. injection Hf as ->.
  destruct (enroll_valid parsed (pr_instance_id answer) now) eqn:Hv; [|done]. cbn [negb].
  apply gives_bind. intros _ _ token [= <-]. exists attestation, response, parsed. split_and!; try done. cbn. set_solver.
Qed.

Lemma token_gives link answer post now : gives (link_relay link answer post now) (relay_device_token link answer post now).
Proof.
  unfold relay_device_token, link_relay. destruct (pr_relay_access answer) as [raw|] eqn:Hraw.
  - apply gives_bind. intros access Ha. apply gives_bind. intros [] Hv. apply gives_bind. intros same Hs. apply lift_gives in Ha, Hv, Hs.
    destruct (relay_access_from raw) as [access'|] eqn:Hr; [|done]. injection Ha as ->.
    destruct same, (bool_decide (is_Some (access_claims access (pr_instance_id answer) now))) eqn:Hb; try done.
    apply bool_decide_eq_true in Hb. intros token [= <-]. left. exists (access_origin access). split; [|done]. by exists raw, access.
  - destruct (pr_home_attestation answer) as [attestation|] eqn:Hat; [|by intros token [= <-]]. apply gives_bind. intros _ _ token.
    pose proof (enroll_gives (relay_origin link) answer attestation post now Hat) as He. unfold ok_of.
    destruct (enroll_device_observed _ _ _ _ _) as [t [a| | |]]; cbn; try done; intros [= <-]; [|done]. right. split; [done|].
    destruct (He a eq_refl) as (att & rs & parsed & H1 & H2 & H3). exists att, rs, parsed. split; [done|]. split; [|done]. cbn in H2. set_solver.
Qed.

Lemma link_relay_more link answer post now s t r stored :
  link_relay link answer post now t stored -> link_relay link answer post now (s ++ t ++ r) stored.
Proof.
  destruct stored as [token|]; [|done]. intros [H|[Hn (att & rs & parsed & H1 & H2 & H3)]]; [by left|]. right. split; [done|].
  exists att, rs, parsed. split; [done|]. split; [set_solver|done].
Qed.

Lemma answered_more verify s t r answer : answered verify t answer -> answered verify (s ++ t ++ r) answer.
Proof. intros (p & path & rq & leaf & tls & rs & Hp & Ha). exists p, path, rq, leaf, tls, rs. split; [set_solver|done]. Qed.

Lemma relay_gives link label additional upgrade peer ended post checked_at now :
  gives (relay_outcome link label peer post checked_at now) (pair_over_relay_observed link label additional upgrade peer ended post checked_at now).
Proof.
  unfold pair_over_relay_observed. do 4 (apply gives_bind; intros ? _). apply gives_bind. intros m Hm.
  assert (Hb := carrier_gives peer link label additional checked_at m).
  destruct (pair_over_carrier_observed _ _ _ _ _) as [t [m'| | |]]; try done.
  destruct (Hb Hm) as (generated & Hg & Hk & (rest & spki & leaf & others & H1 & H2 & H3 & H4 & H5 & H6 & H7 & H8) & Hans).
  apply gives_bind. intros token Ht. pose proof (token_gives link (pm_pair m) post now token Ht) as Htok.
  apply gives_bind. intros _ _ c [= <-]. split; [by exists (pm_pinned_ca m), rest, spki, leaf, others, generated|].
  exists (pm_pair m). cbn [fst pc_device_token pc_relay_origin] in *. split; [|split; [done|split; [|done]]].
  - rewrite !(app_assoc _ _ (t ++ _)). by apply answered_more.
  - rewrite !(app_assoc _ _ (fst (relay_device_token link (pm_pair m) post now) ++ _)). by apply link_relay_more.
Qed.

Lemma direct_gives net endpoints nonce prefix label additional now :
  gives (direct_outcome prefix label now) (pair_with_seam_observed endpoints nonce prefix label (real_seam net) additional now).
Proof.
  unfold pair_with_seam_observed. destruct endpoints as [|e endpoints]; [done|].
  apply gives_bind. intros verify Hv. apply lift_gives in Hv. unfold pairing_config in Hv. destruct tls_setup_ok; [|done]. injection Hv as <-.
  apply gives_bind. intros generated Hg. apply lift_gives in Hg.
  do 2 (apply gives_bind; intros ? _). intros c Hc. cbn [lift fst app]. by eapply candidates_gives.
Qed.

(** C5. A credential is bound to the home the link names: whatever the network,
    the relay and the peers do, a ceremony that returns a credential has
    checked that the head of the stored chain is a self-signed CA with the
    link's pin (which, through a relay, also certified the peer of this very
    handshake), that the stored instance is the journal identity of that CA's
    key, and that the stored certificate is for the key generated here.  All of
    it is out of the answer of a peer the pairing request went to.  Over a direct
    link a stored device token and its relay are the pair that answer carries,
    and none is stored only if it carries no acceptable one; over a relay link a
    stored token is kept with the link's relay, and is the one the answer
    carries for that same relay or, if it carries no access, the one that relay
    returned when sent the answer's attestation.  A stored token was acceptable
    for the stored instance when it was checked. *)
Theorem credential_bound_to_home link label additional u c :
  snd (pair_from_link link label additional u) = Next c ->
  match parse link with
  | Ok (PairLink.Direct pl) => direct_outcome (ca_fp_prefix pl) label (su_token_at u) (fst (pair_from_link link label additional u)) c
  | Ok (PairLink.Relay rl) =>
      relay_outcome rl label (su_home u) (su_post u) (su_checked_at u) (su_token_at u) (fst (pair_from_link link label additional u)) c
  | _ => False
  end.
Proof.
  unfold pair_from_link. rewrite W_bind_fst. intros Hc. apply W_bind_snd in Hc as (parsed & Hp & Hc). rewrite Hp. apply lift_gives in Hp.
  destruct (parse link) as [p|e|]; [|done..]. injection Hp as ->. destruct parsed as [pl|rl]; cbn [lift fst app].
  - by apply direct_gives.
  - by eapply relay_gives.
Qed.

(** ** The stored pairing, read back *)

Lemma identity_read_back (pinned : cert -> Prop) label prefix pem pems c :
  identity_bound pinned label c -> (forall ca, pinned ca -> cert_matches_prefix sha256 ca prefix = true) ->
  pc_ca_chain_pem c = pem :: pems -> parse_certs pem <> Ok [] ->
  pinned_ca_jid (pc_ca_chain_pem c) prefix = Some (pc_instance_id c).
Proof.
  intros (ca & rest & spki & leaf & others & g & Hch & Hp & Hs & He & Hj & _) Hm Hc Hne. rewrite Hc in Hch |- *. cbn in Hch |- *.
  destruct (parse_certs pem) as [[|ca' certs]|e|]; [done| |done..]. cbn in Hch.
  destruct (parse_chain pems) as [chain|e|]; [|done..]. injection Hch as -> _.
  by rewrite (Hm _ Hp), Hs, He, Hj.
Qed.

(** C38. A stored pairing names the journal it was made with: the instance of the
    credential a ceremony returns is the one every later reading of the stored
    chain and pin gives, provided the first PEM of the chain holds a
    certificate; so what a session checks is the home that was paired. *)
Theorem stored_pairing_reads_back link label additional u c pem pems :
  snd (pair_from_link link label additional u) = Next c ->
  (forall b, len (sha256 b) = 32) -> pc_ca_chain_pem c = pem :: pems -> parse_certs pem <> Ok [] ->
  pinned_ca_jid (pc_ca_chain_pem c) (pc_ca_fp_prefix c) = Some (pc_instance_id c).
Proof.
  intros Hc Hlen Hchain Hne. unfold pair_from_link in Hc. apply W_bind_snd in Hc as (parsed & _ & Hc). destruct parsed as [pl|rl].
  - apply direct_gives in Hc as (H & -> & _). by eapply identity_read_back.
  - apply relay_gives in Hc as [H _]. eapply identity_read_back; [exact H| |done|done].
    intros ca (_ & _ & ->). unfold cert_matches_prefix, digest_matches. specialize (Hlen ca).
    assert (Hz : ztake 16 (sha256 ca) <> []).
    { intros E. apply (f_equal (fun l : list byte => len l)) in E. rewrite len_take in E by lia. done. }
    rewrite (bool_decide_eq_false_2 (_ = [])) by done. rewrite len_take by lia. by rewrite bool_decide_eq_true_2.
Qed.

(** A first PEM without a certificate is skipped when the answer is checked but
    not when the stored chain is read, so such a pairing succeeds and then names
    no journal. *)
Theorem empty_first_pem_not_read_back answer pem pems prefix :
  pr_ca_chain answer = pem :: pems -> parse_certs pem = Ok [] ->
  verify_instance_binds_pinned_ca answer prefix =
    verify_instance_binds_pinned_ca (mkPairResponse (pr_client_cert answer) pems (pr_instance_id answer) (pr_home_label answer)
      (pr_fingerprint answer) (pr_home_attestation answer) (pr_local_endpoints answer) (pr_relay_access answer)) prefix /\
  pinned_ca_jid (pr_ca_chain answer) prefix = None.
Proof.
  intros Hc Hp. unfold verify_instance_binds_pinned_ca, pinned_ca_jid. rewrite Hc. cbn. rewrite Hp. cbn.
  split; [|done]. by destruct (parse_chain pems).
Qed.
End Claims.

(** ** Labels and candidates *)

Lemma is_char_boundary_spec s i :
  is_char_boundary s i = true <-> exists k, (k <= length s)%nat /\ len (into_bytes (take k s)) = i.
Proof.
  unfold is_char_boundary. rewrite existsb_exists. split.
  - intros (k & Hk & E). apply in_seq in Hk. exists k. split; [lia|]. by apply Z.eqb_eq.
  - intros (k & Hk & E). exists k. split; [apply in_seq; lia|]. by apply Z.eqb_eq.
Qed.

Lemma boundary_below_spec s fuel : forall end_,
  0 <= end_ < Z.of_nat fuel ->
  let b := boundary_below fuel s end_ in
  is_char_boundary s b = true /\ b <= end_ /\ forall i, b < i <= end_ -> is_char_boundary s i = false.
Proof.
  induction fuel as [|fuel IH]; intros end_ He; [lia|]. cbn [boundary_below].
  destruct (is_char_boundary s end_) eqn:Eb; [repeat split; [done|lia|lia]|].
  destruct (decide (end_ = 0)) as [->|Hne].
  { exfalso. assert (Hz : is_char_boundary s 0 = true) by (apply is_char_boundary_spec; exists 0%nat; split; [lia|done]). congruence. }
  destruct (IH (end_ - 1)) as (H1 & H2 & H3); [lia|]. repeat split; [done|lia|]. intros i Hi.
  destruct (decide (i = end_)) as [->|]; [done|]. apply H3. lia.
Qed.

Lemma utf8_char_length c : 1 <= len (utf8_char c).
Proof. unfold utf8_char. repeat case_match; cbn; lia. Qed.

(** The subject of a certificate request is the longest prefix of whole
    characters of the device label that takes at most 64 bytes. *)
Theorem cn_label_longest label :
  scalars label ->
  exists k, truncate_cn_label label = take k label /\ len (into_bytes (take k label)) <= 64 /\
    ((length label <= k)%nat \/ 64 < len (into_bytes (take (S k) label))).
Proof.
  intros Hs. unfold truncate_cn_label. set (n := len (into_bytes label)).
  destruct (boundary_below_spec label 65 (Z.min n 64)) as (Hb & Hle & Hno); [lia|].
  set (b := boundary_below 65 label (Z.min n 64)) in *. apply is_char_boundary_spec in Hb as (k & Hk & Hb).
  exists k. split; [|split; [lia|]].
  - assert (E : ztake b (into_bytes label) = into_bytes (take k label)).
    { rewrite <- (take_drop k label) at 1. rewrite into_bytes_app. rewrite <- Hb. rewrite Nat2Z.id. apply take_app_length. }
    rewrite E. apply from_utf8_lossy_into_bytes. by apply Forall_take.
  - destruct (decide (length label <= k)%nat) as [|Hlt]; [by left|]. right.
    destruct (lookup_lt_is_Some_2 label k) as [c Hc]; [lia|].
    pose proof (utf8_char_length c) as Hc1.
    assert (Ht : len (into_bytes (take (S k) label)) = b + len (utf8_char c)).
    { rewrite (take_S_r _ _ _ Hc), into_bytes_app, length_app, Nat2Z.inj_add, Hb. f_equal. unfold into_bytes. cbn. by rewrite app_nil_r. }
    assert (Hn : len (into_bytes (take (S k) label)) <= n).
    { unfold n. rewrite <- (take_drop (S k) label) at 2. rewrite into_bytes_app, length_app. lia. }
    destruct (decide (len (into_bytes (take (S k) label)) <= 64)) as [Hsm|]; [|lia]. exfalso.
    assert (Hf : is_char_boundary label (len (into_bytes (take (S k) label))) = false) by (apply Hno; lia).
    assert (Ht2 : is_char_boundary label (len (into_bytes (take (S k) label))) = true) by (apply is_char_boundary_spec; exists (S k); split; [lia|done]).
    congruence.
Qed.

Lemma cn_label_longest_witness : truncate_cn_label (replicate 70 0xe9) = replicate 32 0xe9.
Proof.
  destruct (cn_label_longest (replicate 70 0xe9)) as (k & Ht & Hl & Hr); [by apply Forall_replicate|].
  vm_compute. reflexivity.
Defined.

(** ** A ceremony that succeeds *)

(** A home whose CA and device certificates are laid out as X.509 lays them
    out, with stand-ins for the cryptography. *)
Definition sample_ca : cert := certificate sample_cert.
Definition sample_device : cert := certificate (mkCert None [Byte.x07] [] [] [] [] [Byte.x06; Byte.x01] [] [] [Byte.x0a]).
Definition sample_jid : str := lit "0a0a0a0a-0a0a-8a0a-8a0a-0a0a0a0a0a0a".

(** The device token's payload, and the relay access that carries it. *)
Definition sample_capability : list (str * json) :=
  [(lit "iss", JString (lit "relay")); (lit "sub", JString (lit "instance:" ++ sample_jid));
   (lit "aud", JString (lit "spl-relay")); (lit "scope", JString (lit "session.dial"));
   (lit "ver", JNumber (NInt 2)); (lit "instance_id", JString sample_jid);
   (lit "iat", JNumber (NInt 900)); (lit "exp", JNumber (NInt 2000)); (lit "jti", JString (lit "j"))].
Definition sample_token : str := lit "h.capability.s".
Definition sample_access (origin : str) : RelayAccess := mkAccess 2 (lit "ready") origin sample_jid sample_token (lit "later").

Definition sample_identity : RelayPrimitives := {|
  json_value b := if bool_decide (b = blit "capability") then Some (JObject sample_capability) else None;
  json_lifetimes b := if bool_decide (b = blit "capability") then Some (900, 2000) else None;
  url_safe_decode s := Some (into_bytes s); rfc3339 _ := Some (2000, 0);
  hkdf_sha256 _ _ _ n := replicate n Byte.x0a;
  P256 := unit; spki_from_der _ := Some (Some []); p256_from_spki _ := Ok tt; to_public_key_der _ := []
|}.
Definition sample_digest (b : list byte) : list byte := replicate 32 (default Byte.x00 (head (reverse b))).
(** The home's answer, with the attestation and the relay access it carries. *)
Definition sample_answer (attestation : option str) (access : option json) : PairResponse :=
  mkPairResponse (lit "device pem") [lit "ca pem"] sample_jid (lit "two words")
    (lit "sha256:" ++ hex_lower (sample_digest sample_device)) attestation None access.
Definition sample_pairing (attestation : option str) (access : option json) : PairPrimitives := {|
  sha256 := sample_digest;
  verify_signature spki tbs signature := bool_decide (spki = der 0x30 (cf_spki sample_cert));
  verify_server_usage now leaf ca := bool_decide (ca = sample_ca);
  pem_certs pem :=
    if bool_decide (pem = lit "ca pem") then Some [sample_ca]
    else if bool_decide (pem = lit "device pem") then Some [sample_device] else None;
  generate_key _ := Some (mkKey (lit "key pem") (lit "csr") [Byte.x30; Byte.x02; Byte.x06; Byte.x01]);
  pair_request_json _ := Some (blit "request");
  pair_response_from b := if bool_decide (b = blit "hello") then Some (sample_answer attestation access) else None;
  relay_access_from j := match j with JString origin => Some (sample_access origin) | _ => None end;
  enroll_response_from b := if bool_decide (b = blit "enrolled") then Some (mkEnroll sample_token (Some 2) (Some (lit "later"))) else None;
  tls_setup_ok := true
|}.

(** A handshake that asks the verifier and then goes on. *)
Definition sample_connect (verify : Verifier) (peer : cert * list cert * Stream) : Handshake :=
  match verify 1000 (fst (fst peer)) (snd (fst peer)) with
  | Ok tt => HandshakeDone (Some (fst (fst peer))) (snd peer)
  | Err e => HandshakeFailed e
  | Panic => HandshakeFailed OtherTls
  end.
Lemma sample_connect_verified verify peer leaf tls :
  sample_connect verify peer = HandshakeDone leaf tls ->
  verify 1000 (fst (fst peer)) (snd (fst peer)) = Ok tt /\ (leaf = None \/ leaf = Some (fst (fst peer))).
Proof. unfold sample_connect. destruct (verify _ _ _) as [[]|e|]; [|done..]. intros [= <- <-]. eauto. Qed.
Definition sample_tls : PairTls := {|
  TlsPeer := cert * list cert * Stream; presented := fst; asked_at _ := 1000; tls_connect := sample_connect; handshake_verified := sample_connect_verified
|}.

Definition sample_paired_home : cert * list cert * Stream := (sample_device, [sample_ca], sample_stream).
Definition sample_relay_link : str :=
  lit "https://go.solstone.app/p" ++ [35] ++ Crockford.encode (blob_of (FormV06 (replicate 8 Byte.x01) (replicate 16 Byte.x00) None)).
Definition sample_link : RelayPairLink := mkRelayPairLink (replicate 8 Byte.x01) (replicate 16 Byte.x00) DEFAULT_RELAY_ORIGIN.
Definition sample_surroundings : Surroundings (T := sample_tls) :=
  mkSurroundings (T := sample_tls) (fun _ _ => (true, sample_paired_home)) (Upgraded []) sample_paired_home None
    (Ok (mkHttpResponse 200 [] (blit "enrolled"))) 1000 1001.
Definition sample_ceremony (attestation : option str) (access : option json) :=
  pair_from_link (R := sample_identity) (Q := sample_pairing attestation access) (K := sample_stack) (T := sample_tls)
    sample_relay_link (lit "my laptop") [] sample_surroundings.

Lemma sample_link_parses : parse sample_relay_link = Ok (PairLink.Relay sample_link).
Proof. vm_compute. reflexivity. Qed.

Lemma secret_only_to_pinned_home_witness :
  requests_of (fst (sample_ceremony None None)) = [(sample_paired_home, lit "/app/network/pair?token=0101010101010101", blit "request")] /\
  relay_peer (Q := sample_pairing None None) (T := sample_tls) (replicate 16 Byte.x00) sample_paired_home.
Proof.
  split; [vm_compute; reflexivity|].
  pose proof (secret_only_to_pinned_home (R := sample_identity) (Q := sample_pairing None None) (K := sample_stack) (T := sample_tls)
    sample_relay_link (lit "my laptop") [] sample_surroundings) as H.
  rewrite sample_link_parses in H. destruct H as [H|(x & Hx & H)]; [vm_compute in H; discriminate|].
  replace (requests_of _) with [(sample_paired_home, lit "/app/network/pair?token=0101010101010101", blit "request")] in Hx by (vm_compute; reflexivity).
  injection Hx as <-. exact (proj1 H).
Defined.

(** Two pairings that store a device token: the home's answer carries access for
    the link's relay, written another way, or only the attestation to enroll
    with; access for another relay ends the ceremony. *)
Lemma credential_bound_to_home_witness :
  (exists c, snd (sample_ceremony None (Some (JString (lit "https://LINK.solstone.app:443/")))) = Next c /\
    pc_device_token c = Some sample_token /\ pc_relay_origin c = Some DEFAULT_RELAY_ORIGIN /\
    relay_outcome (R := sample_identity) (Q := sample_pairing None (Some (JString (lit "https://LINK.solstone.app:443/")))) (K := sample_stack)
      (T := sample_tls) sample_link (lit "my laptop") sample_paired_home (Ok (mkHttpResponse 200 [] (blit "enrolled"))) 1000 1001
      (fst (sample_ceremony None (Some (JString (lit "https://LINK.solstone.app:443/"))))) c) /\
  (exists c, snd (sample_ceremony (Some (lit "attested")) None) = Next c /\
    pc_device_token c = Some sample_token /\ pc_relay_origin c = Some DEFAULT_RELAY_ORIGIN /\
    relay_outcome (R := sample_identity) (Q := sample_pairing (Some (lit "attested")) None) (K := sample_stack)
      (T := sample_tls) sample_link (lit "my laptop") sample_paired_home (Ok (mkHttpResponse 200 [] (blit "enrolled"))) 1000 1001
      (fst (sample_ceremony (Some (lit "attested")) None)) c) /\
  snd (sample_ceremony None (Some (JString (lit "https://elsewhere.example")))) = Fail Pairing.
Proof.
  split; [|split; [|vm_compute; reflexivity]].
  - eexists. split; [vm_compute; reflexivity|]. do 2 (split; [reflexivity|]).
    pose proof (credential_bound_to_home (R := sample_identity) (Q := sample_pairing None (Some (JString (lit "https://LINK.solstone.app:443/"))))
      (K := sample_stack) (T := sample_tls) sample_relay_link (lit "my laptop") [] sample_surroundings) as H.
    rewrite sample_link_parses in H. apply H. vm_compute. reflexivity.
  - eexists. split; [vm_compute; reflexivity|]. do 2 (split; [reflexivity|]).
    pose proof (credential_bound_to_home (R := sample_identity) (Q := sample_pairing (Some (lit "attested")) None)
      (K := sample_stack) (T := sample_tls) sample_relay_link (lit "my laptop") [] sample_surroundings) as H.
    rewrite sample_link_parses in H. apply H. vm_compute. reflexivity.
Defined.

Lemma stored_pairing_reads_back_witness :
  exists c, snd (sample_ceremony None None) = Next c /\
    pinned_ca_jid (R := sample_identity) (Q := sample_pairing None None) (pc_ca_chain_pem c) (pc_ca_fp_prefix c) = Some sample_jid.
Proof.
  eexists. split; [vm_compute; reflexivity|].
  eapply (stored_pairing_reads_back (R := sample_identity) (Q := sample_pairing None None) (K := sample_stack) (T := sample_tls)
    sample_relay_link (lit "my laptop") [] sample_surroundings); [vm_compute; reflexivity|reflexivity|reflexivity|vm_compute; discriminate].
Defined.
