(* ===== verification/HomeRelay.v ===== *)
(** * The home relay client ([crates/spl-transport/src/home_relay.rs])

    The home's attachment to a relay: the supervised listen loop with its
    reconnect schedule, the tunnel tasks it spawns and the stream tasks they
    spawn, the admission gate on tunnels whose first bytes are being read, the
    health record, and [stop], which aborts and awaits every task.

    The client is shared by the listen task, the tunnel and stream tasks and
    the callers of [stop]; a step of the model is a stretch of one of them
    between two points at which another may run (an await, or a lock of the
    shared task table, the admission counter or the health record).  WebSocket,
    TCP and TLS appear as the outcomes of their calls, the clock as the
    arguments of the steps that read it.  The event sink is the list of
    everything emitted. *)

From Stdlib Require Import SpecFloat.
From S2P Require Import Prelude Text Relay.

(** ** Reconnect schedule

    A [Duration] is a number of nanoseconds, an [f64] is a [spec_float] of
    precision 53 and exponent bound 1024. *)

Definition from_secs (n : Z) : Z := n * 1000000000.
Definition minute : Z := from_secs 60.

Definition f64_of_Z (z : Z) : spec_float := binary_normalize 53 1024 z 0 false.
Definition f64_mul : spec_float -> spec_float -> spec_float := SFmul 53 1024.
Definition f64_add : spec_float -> spec_float -> spec_float := SFadd 53 1024.
(** 0.0, 0.5, 0.75 and 1.0. *)
Definition f64_zero : spec_float := S754_zero false.
Definition f64_half : spec_float := binary_normalize 53 1024 1 (-1) false.
Definition f64_three_quarters : spec_float := binary_normalize 53 1024 3 (-2) false.
Definition f64_one : spec_float := binary_normalize 53 1024 1 0 false.
Definition is_finite (x : spec_float) : bool :=
  match x with S754_zero _ | S754_finite _ _ _ => true | _ => false end.

(** [f.round() as u64]: to the nearest integer, halves away from zero, then a
    saturating cast. *)
Definition round_u64 (x : spec_float) : Z :=
  match x with
  | S754_finite false m e =>
      Z.min u64_max
        (if 0 <=? e then Z.pos m * 2 ^ e else (Z.pos m + 2 ^ (- e - 1)) / 2 ^ (- e))
  | S754_infinity false => u64_max
  | _ => 0
  end.

Definition clamp (x lo hi : Z) : Z := Z.min hi (Z.max lo x).

(** The next base and the delay. *)
Definition schedule_reconnect (current_base : Z) (jitter : spec_float) : option (Z * Z) :=
  if negb (is_finite jitter) || negb (SFleb f64_zero jitter && SFleb jitter f64_one) then None
  else
    let base := clamp current_base (from_secs 1) minute in
    let delay := round_u64 (f64_mul (f64_of_Z base)
                   (f64_add f64_three_quarters (f64_mul jitter f64_half))) in
    Some (Z.min (base * 2) minute, delay).

Definition base_after_connection (current_base established_for : Z) : Z :=
  if minute <=? established_for then 0 else current_base.

(** ** Errors, health and events *)

(** The variants of [TransportError] this client builds. *)
Inductive RelayFailure :=
| HomeRelayConfiguration
| HomeListenConnection
| HomeTunnelRejected (status : Z)
| Abnormal.

Inductive RelayHealthState := Connecting | Connected | Reconnecting.

Inductive RelayTunnelFailure :=
| HomeMissingMobile
| ServiceTokenRejected
| RelayTunnelRejected (status : Z)
| RelayTunnelUnreachable
| LocalPrivateListenerUnreachable.

Inductive RelayTunnelPhase := DialPhase | PrefixPhase | InnerHandshakePhase | LocalSocketPhase.

Definition failure_status (f : RelayTunnelFailure) : option Z :=
  match f with RelayTunnelRejected status => Some status | _ => None end.

Record RelayHealth := mkHealth {
  health_state : RelayHealthState;
  listen_generation : Z;
  last_successful_tunnel_at_ms : option Z;
  last_failure : option RelayTunnelFailure;
  last_failure_at_ms : option Z;
  admission_saturated_count : Z
}.

Definition health_new : RelayHealth := mkHealth Connecting 0 None None None 0.

Inductive RelayEvent :=
| EConnecting
| EConnected
| EDisconnected
| EConfigurationFailure
| EAdmissionSaturated (count : Z)
| ETunnelUnknownPrefix
| ETunnelPaired (tunnel_id : str)
| ETunnelClosed (tunnel_id : str)
| ETunnelFailure (phase : RelayTunnelPhase) (failure : RelayTunnelFailure)
| EHealth (h : RelayHealth).

Record TunnelProcessingFailure := mkTunnelFailure { tf_phase : RelayTunnelPhase; tf_failure : RelayTunnelFailure }.

Definition classify_dial (e : RelayFailure) : RelayTunnelFailure :=
  match e with
  | HomeTunnelRejected status =>
      if status =? 404 then HomeMissingMobile
      else if (status =? 401) || (status =? 403) then ServiceTokenRejected
      else RelayTunnelRejected status
  | _ => RelayTunnelUnreachable
  end.

(** What the WebSocket library makes of an authenticated dial: the request or
    its header cannot be built, the socket opens, the relay answers with an
    HTTP status, anything else fails, or ten seconds pass. *)
Inductive ws_outcome :=
| WsBadRequest
| WsBadHeader
| WsOpened
| WsHttp (status : Z)
| WsFailed
| WsTimedOut.

Definition dial_home_ws (o : ws_outcome) : res RelayFailure unit :=
  match o with
  | WsBadRequest | WsBadHeader => Err HomeListenConnection
  | WsOpened => Ok tt
  | WsHttp status => Err (HomeTunnelRejected status)
  | WsFailed | WsTimedOut => Err HomeListenConnection
  end.

(** ** Prefix replay *)

(** [PrefixIo]: [inner] is what reads of the tunnel deliver, one entry per
    read; an entry of no bytes is end of stream, and so is an empty script. *)
Record PrefixIo := mkPrefixIo {
  inner : list (list byte);
  prefix : list byte;
  position : Z
}.

Definition prefix_new (script : list (list byte)) : PrefixIo := mkPrefixIo script [] 0.
Definition replay (p : list byte) (io : PrefixIo) : PrefixIo := mkPrefixIo (inner io) p 0.

(** A read of the tunnel into a buffer with [n] free bytes; what does not fit
    stays for the next read. *)
Definition inner_read (n : Z) (script : list (list byte)) : list byte * list (list byte) :=
  match script with
  | [] => ([], [])
  | chunk :: rest => if len chunk <=? n then (chunk, rest) else (ztake n chunk, zdrop n chunk :: rest)
  end.

Definition prefix_poll_read (n : Z) (io : PrefixIo) : list byte * PrefixIo :=
  if position io <? len (prefix io) then
    let count := Z.min n (len (prefix io) - position io) in
    (slice (prefix io) (position io) (position io + count),
     mkPrefixIo (inner io) (prefix io) (position io + count))
  else
    let '(bytes, script) := inner_read n (inner io) in
    (bytes, mkPrefixIo script (prefix io) (position io)).

(** [read_exact] of [n] bytes: reads until it has them; a read of nothing is
    [UnexpectedEof]. Every other read takes at least a byte, so [n] reads are enough. *)
Fixpoint read_exact (fuel : nat) (n : Z) (io : PrefixIo) : option (list byte) * PrefixIo :=
  if n <=? 0 then (Some [], io)
  else
    match fuel with
    | O => (None, io)
    | S fuel =>
        let '(bytes, io) := prefix_poll_read n io in
        if bool_decide (bytes = []) then (None, io)
        else
          let '(rest, io) := read_exact fuel (n - len bytes) io in
          ((fun rest => bytes ++ rest) <$> rest, io)
    end.

Inductive PrefixGuard := Tls (io : PrefixIo) | UnknownPrefix.

(** [in_time] is false when the deadline passes first. *)
Definition guard_tls_prefix (in_time : bool) (io : PrefixIo) : res RelayTunnelFailure PrefixGuard :=
  if in_time then
    match read_exact 4 4 io with
    | (Some p, io) =>
        match p with
        | b :: _ => if u8 b =? 0x16 then Ok (Tls (replay p io)) else Ok UnknownPrefix
        | [] => Panic
        end
    | (None, _) => Err RelayTunnelUnreachable
    end
  else Err RelayTunnelUnreachable.

(** ** The client *)

(** A tunnel task by the point it has reached: dialling, refused by the gate,
    reading the prefix, shaking hands, serving streams, about to record a
    failure, about to report its end; a stream task pumps, or is about to
    record its failure. *)
Inductive RelayTask :=
| Dialing (tunnel_id : str)
| Saturated (tunnel_id : str)
| Peeking (tunnel_id : str)
| Handshaking (tunnel_id : str)
| Serving (tunnel_id : str)
| Failing (tunnel_id : str) (f : TunnelProcessingFailure)
| Closing (tunnel_id : str)
| Piping
| PipeFailing (f : RelayTunnelFailure).

(** A call of [stop]: the leader with the handles it still awaits, a follower
    with whether its sender has fired, returned, or dropped by its caller. *)
Inductive StopCall :=
| Leader (handles : list nat)
| Follower (fired : bool)
| StopReturned
| LeaderDropped
| FollowerDropped.

(** The listen task: not started, dialling, listening, between the acceptance
    check and the spawn of a tunnel, about to emit, sleeping, returned with an
    error, or dropped by its supervisor. *)
Inductive ListenState :=
| ListenIdle
| ListenDialing
| Listening
| Spawning (tunnel_id : str)
| Emitting (e : RelayEvent)
| Sleeping (delay : Z)
| ListenReturned (e : RelayFailure)
| ListenDropped.

Record HomeRelay := mkHomeRelay {
  admission : Z * Z;                 (* prefix-peeking tunnels, refusals *)
  health : RelayHealth;
  handles : list nat;                (* [TunnelTasks::tasks] *)
  stopping : bool;
  stopped : bool;
  stop_waiters : list nat;           (* calls whose senders are stored *)
  accepting_tunnels : bool;
  listen : ListenState;
  base : Z;
  live : gmap nat RelayTask;         (* spawned and unfinished *)
  aborted : gset nat;
  next_task : nat;
  stops : gmap nat StopCall;
  next_stop : nat;
  emitted : list RelayEvent
}.

Definition relay_new : HomeRelay :=
  mkHomeRelay (0, 0) health_new [] false false [] true ListenIdle 0 ∅ ∅ 0 ∅ 0 [].

Definition set_admission (a : Z * Z) (s : HomeRelay) : HomeRelay :=
  mkHomeRelay a (health s) (handles s) (stopping s) (stopped s) (stop_waiters s) (accepting_tunnels s) (listen s) (base s)
    (live s) (aborted s) (next_task s) (stops s) (next_stop s) (emitted s).
Definition set_health (h : RelayHealth) (s : HomeRelay) : HomeRelay :=
  mkHomeRelay (admission s) h (handles s) (stopping s) (stopped s) (stop_waiters s) (accepting_tunnels s) (listen s) (base s)
    (live s) (aborted s) (next_task s) (stops s) (next_stop s) (emitted s).
Definition set_handles (l : list nat) (s : HomeRelay) : HomeRelay :=
  mkHomeRelay (admission s) (health s) l (stopping s) (stopped s) (stop_waiters s) (accepting_tunnels s) (listen s) (base s)
    (live s) (aborted s) (next_task s) (stops s) (next_stop s) (emitted s).
Definition set_stop_flags (going done : bool) (waiters : list nat) (accepting : bool) (s : HomeRelay) : HomeRelay :=
  mkHomeRelay (admission s) (health s) (handles s) going done waiters accepting (listen s) (base s)
    (live s) (aborted s) (next_task s) (stops s) (next_stop s) (emitted s).
Definition set_listen (l : ListenState) (b : Z) (s : HomeRelay) : HomeRelay :=
  mkHomeRelay (admission s) (health s) (handles s) (stopping s) (stopped s) (stop_waiters s) (accepting_tunnels s) l b
    (live s) (aborted s) (next_task s) (stops s) (next_stop s) (emitted s).
Definition set_live (m : gmap nat RelayTask) (a : gset nat) (n : nat) (s : HomeRelay) : HomeRelay :=
  mkHomeRelay (admission s) (health s) (handles s) (stopping s) (stopped s) (stop_waiters s) (accepting_tunnels s) (listen s) (base s)
    m a n (stops s) (next_stop s) (emitted s).
Definition set_stops (m : gmap nat StopCall) (n : nat) (s : HomeRelay) : HomeRelay :=
  mkHomeRelay (admission s) (health s) (handles s) (stopping s) (stopped s) (stop_waiters s) (accepting_tunnels s) (listen s) (base s)
    (live s) (aborted s) (next_task s) m n (emitted s).
Definition emit (e : RelayEvent) (s : HomeRelay) : HomeRelay :=
  mkHomeRelay (admission s) (health s) (handles s) (stopping s) (stopped s) (stop_waiters s) (accepting_tunnels s) (listen s) (base s)
    (live s) (aborted s) (next_task s) (stops s) (next_stop s) (emitted s ++ [e]).

(** *** Admission *)

Definition acquire (ceiling : Z) (s : HomeRelay) : HomeRelay * bool :=
  let '(n, refused) := admission s in
  if n <? ceiling then (set_admission (n + 1, refused) s, true)
  else (set_admission (n, Z.min u64_max (refused + 1)) s, false).
Definition release_place (s : HomeRelay) : HomeRelay :=
  let '(n, refused) := admission s in set_admission (Z.max 0 (n - 1), refused) s.
Definition saturated (s : HomeRelay) : Z := snd (admission s).

(** *** Health *)

Definition update_health (f : RelayHealth -> RelayHealth) (s : HomeRelay) : HomeRelay :=
  emit (EHealth (f (health s))) (set_health (f (health s)) s).
Definition record_success (now_ms : Z) : HomeRelay -> HomeRelay :=
  update_health (fun h => mkHealth (health_state h) (listen_generation h) (Some now_ms) None (last_failure_at_ms h)
                            (admission_saturated_count h)).
Definition record_connected : HomeRelay -> HomeRelay :=
  update_health (fun h => mkHealth Connected (Z.min u64_max (listen_generation h + 1)) (last_successful_tunnel_at_ms h)
                            (last_failure h) (last_failure_at_ms h) (admission_saturated_count h)).
Definition record_reconnecting : HomeRelay -> HomeRelay :=
  update_health (fun h => mkHealth Reconnecting (listen_generation h) (last_successful_tunnel_at_ms h)
                            (last_failure h) (last_failure_at_ms h) (admission_saturated_count h)).
Definition record_saturation (count : Z) (s : HomeRelay) : HomeRelay :=
  update_health (fun h => mkHealth (health_state h) (listen_generation h) (last_successful_tunnel_at_ms h)
                            (last_failure h) (last_failure_at_ms h) (Z.max (admission_saturated_count h) count))
    (emit (EAdmissionSaturated count) s).
Definition record_failure (failure : RelayTunnelFailure) (now_ms : Z) (s : HomeRelay) : HomeRelay :=
  let count := saturated s in
  update_health (fun h => mkHealth (health_state h) (listen_generation h) (last_successful_tunnel_at_ms h)
                            (Some failure) (Some now_ms) (Z.max (admission_saturated_count h) count)) s.
Definition record_tunnel_failure (phase : RelayTunnelPhase) (failure : RelayTunnelFailure) (now_ms : Z) (s : HomeRelay)
  : HomeRelay :=
  emit (ETunnelFailure phase failure) (record_failure failure now_ms s).

(** *** The task table *)

Definition set_task (i : nat) (t : RelayTask) (s : HomeRelay) : HomeRelay :=
  set_live (<[i := t]> (live s)) (aborted s) (next_task s) s.
Definition finish_task (i : nat) (s : HomeRelay) : HomeRelay :=
  set_live (delete i (live s)) (aborted s) (next_task s) s.
Definition is_finished (i : nat) (s : HomeRelay) : bool := bool_decide (live s !! i = None).

Definition spawn_tunnel_task (t : RelayTask) (s : HomeRelay) : HomeRelay * bool :=
  let s := set_handles (filter (fun i => is_finished i s = false) (handles s)) s in
  if stopped s || negb (accepting_tunnels s) then (s, false)
  else
    (set_handles (handles s ++ [next_task s])
       (set_live (<[next_task s := t]> (live s)) (aborted s) (S (next_task s)) s), true).

(** *** [stop] *)

(** The call up to its first await. *)
Definition stop_call (s : HomeRelay) : HomeRelay :=
  let k := next_stop s in
  if stopped s then set_stops (<[k := StopReturned]> (stops s)) (S k) s
  else if stopping s then
    set_stops (<[k := Follower false]> (stops s)) (S k)
      (set_stop_flags (stopping s) (stopped s) (stop_waiters s ++ [k]) (accepting_tunnels s) s)
  else
    let tasks := handles s in
    let s := set_handles [] (set_stop_flags true (stopped s) (stop_waiters s) false s) in
    set_stops (<[k := Leader tasks]> (stops s)) (S k)
      (set_live (live s) (aborted s ∪ list_to_set tasks) (next_task s) s).

(** [waiter.send(())]: lost when the receiver is gone. *)
Definition fire (k : nat) (m : gmap nat StopCall) : gmap nat StopCall :=
  match m !! k with Some (Follower _) => <[k := Follower true]> m | _ => m end.

(** A poll of a pending call: the leader awaits its handles in order, and then
    finishes for everybody. *)
Definition stop_poll (k : nat) (s : HomeRelay) : option HomeRelay :=
  match stops s !! k with
  | Some (Leader (i :: rest)) =>
      if is_finished i s then Some (set_stops (<[k := Leader rest]> (stops s)) (next_stop s) s) else None
  | Some (Leader []) =>
      let waiters := stop_waiters s in
      let s := set_stop_flags false true [] (accepting_tunnels s) s in
      Some (emit EDisconnected (set_stops (<[k := StopReturned]> (foldr fire (stops s) waiters)) (next_stop s) s))
  | Some (Follower true) => Some (set_stops (<[k := StopReturned]> (stops s)) (next_stop s) s)
  | _ => None
  end.

(** The caller drops the future; the leader's handles are detached. *)
Definition stop_drop (k : nat) (s : HomeRelay) : option HomeRelay :=
  match stops s !! k with
  | Some (Leader _) => Some (set_stops (<[k := LeaderDropped]> (stops s)) (next_stop s) s)
  | Some (Follower _) => Some (set_stops (<[k := FollowerDropped]> (stops s)) (next_stop s) s)
  | _ => None
  end.

(** What [stop] and its callers own. *)
Definition same_stop (s s' : HomeRelay) : Prop :=
  stopping s' = stopping s /\ stopped s' = stopped s /\ stop_waiters s' = stop_waiters s /\
  accepting_tunnels s' = accepting_tunnels s /\ aborted s' = aborted s /\ stops s' = stops s /\
  next_stop s' = next_stop s.

Ltac effect := eauto; try done; unfold same_stop; cbn; split_and?; try done; try lia.

(** *** The tunnel and stream tasks *)

Section Client.
Context {R : RelayPrimitives}.

(** [relay_origin] and the admission ceiling of the configuration. *)
Variable origin : str.
Variable ceiling : Z.

(** What a task waits for: the dial, the guarded prefix, the inner handshake
    within its 30 seconds, the next accepted stream, the end of the pump. *)
Inductive TaskInput :=
| TunnelDialed (o : ws_outcome)
| PrefixRead (in_time : bool) (script : list (list byte))
| HandshakeDone (ok : bool)
| StreamAccepted (ok : bool)
| PipeEnded (r : option RelayTunnelFailure)
| Proceed.

Definition unreachable (phase : RelayTunnelPhase) : TunnelProcessingFailure :=
  mkTunnelFailure phase RelayTunnelUnreachable.

(** One step of task [i]: [handle_tunnel], [handle_tunnel_inner], and the
    closure of a stream task. *)
Definition task_turn (i : nat) (x : TaskInput) (now_ms : Z) (s : HomeRelay) : option HomeRelay :=
  t ← live s !! i;
  match t, x with
  | Dialing id, TunnelDialed o =>
      match tunnel_url origin id with
      | Ok _ =>
          match dial_home_ws o with
          | Ok _ =>
              let '(s, ok) := acquire ceiling s in
              Some (set_task i (if ok then Peeking id else Saturated id) s)
          | Err e => Some (set_task i (Failing id (mkTunnelFailure DialPhase (classify_dial e))) s)
          | Panic => None
          end
      | Err _ => Some (set_task i (Failing id (unreachable DialPhase)) s)
      | Panic => None
      end
  | Saturated id, Proceed => Some (set_task i (Closing id) (record_saturation (saturated s) s))
  | Peeking id, PrefixRead in_time script =>
      match guard_tls_prefix in_time (prefix_new script) with
      | Ok (Tls _) => Some (set_task i (Handshaking id) (release_place s))
      | Ok UnknownPrefix => Some (set_task i (Closing id) (emit ETunnelUnknownPrefix (release_place s)))
      | Err f => Some (set_task i (Failing id (mkTunnelFailure PrefixPhase f)) (release_place s))
      | Panic => None
      end
  | Handshaking id, HandshakeDone ok =>
      if ok then Some (set_task i (Serving id) (record_success now_ms s))
      else Some (set_task i (Failing id (unreachable InnerHandshakePhase)) s)
  | Serving id, StreamAccepted ok =>
      if ok then
        let '(s, spawned) := spawn_tunnel_task Piping s in
        Some (if spawned then s else set_task i (Closing id) s)
      else Some (set_task i (Closing id) s)
  | Failing id f, Proceed => Some (set_task i (Closing id) (record_tunnel_failure (tf_phase f) (tf_failure f) now_ms s))
  | Closing id, Proceed => Some (finish_task i (emit (ETunnelClosed id) s))
  | Piping, PipeEnded None => Some (finish_task i s)
  | Piping, PipeEnded (Some f) => Some (set_task i (PipeFailing f) s)
  | PipeFailing f, Proceed => Some (finish_task i (record_tunnel_failure LocalSocketPhase f now_ms s))
  | _, _ => None
  end.

(** An aborted task is dropped by the runtime where it awaits. *)
Definition at_await (t : RelayTask) : bool :=
  match t with
  | Dialing _ | Peeking _ | Handshaking _ | Serving _ | Piping => true
  | Saturated _ | Failing _ _ | Closing _ | PipeFailing _ => false
  end.
Definition cancel_task (i : nat) (s : HomeRelay) : option HomeRelay :=
  t ← live s !! i;
  if at_await t && bool_decide (i ∈ aborted s) then Some (finish_task i s) else None.

(** *** The listen task *)

(** A message of the listen socket, the end of its stream included. *)
Inductive ListenMessage :=
| MText (text : str)
| MOther
| MClose
| MError
| MEnd.

Inductive ListenInput :=
| ListenDialed (o : ws_outcome)
| ListenGot (m : ListenMessage)
| ListenGoes.

(** The rest of the loop body of [run] after an attempt that ended with [e]. *)
Definition attempt_ended (e : RelayFailure) (elapsed : Z) (jitter : spec_float) (s : HomeRelay) : HomeRelay :=
  let s := emit EDisconnected s in
  match e with
  | HomeRelayConfiguration => set_listen (ListenReturned e) (base s) (emit EConfigurationFailure s)
  | _ =>
      let s := record_reconnecting s in
      let b := base_after_connection (base s) elapsed in
      match schedule_reconnect b jitter with
      | None => set_listen (ListenReturned Abnormal) b s
      | Some (next, delay) => set_listen (Sleeping delay) next s
      end
  end.

(** One step of [run] and [run_once]; [elapsed] is the time since the attempt
    started and [jitter] the sample taken when it ends. *)
Definition listen_turn (x : ListenInput) (elapsed : Z) (jitter : spec_float) (s : HomeRelay) : option HomeRelay :=
  match listen s, x with
  | (ListenIdle | Sleeping _), ListenGoes =>
      let s := emit EConnecting s in
      match listen_url origin with
      | Ok _ => Some (set_listen ListenDialing (base s) s)
      | Err _ => Some (attempt_ended HomeRelayConfiguration elapsed jitter s)
      | Panic => None
      end
  | ListenDialing, ListenDialed o =>
      match dial_home_ws o with
      | Ok _ => Some (set_listen Listening (base s) (emit EConnected (record_connected s)))
      | Err e => Some (attempt_ended e elapsed jitter s)
      | Panic => None
      end
  | Listening, ListenGot m =>
      match m with
      | MText text =>
          match parse_listen_control text with
          | Incoming id =>
              if accepting_tunnels s then Some (set_listen (Spawning id) (base s) s)
              else Some (emit (ETunnelClosed id) s)
          | Ignore | Invalid => Some s
          end
      | MOther => Some s
      | MClose | MError | MEnd => Some (attempt_ended HomeListenConnection elapsed jitter s)
      end
  | Spawning id, ListenGoes =>
      let '(s, spawned) := spawn_tunnel_task (Dialing id) s in
      Some (set_listen (Emitting (if spawned then ETunnelPaired id else ETunnelClosed id)) (base s) s)
  | Emitting e, ListenGoes => Some (set_listen Listening (base s) (emit e s))
  | _, _ => None
  end.

(** *** Runs *)

Inductive RelayInput :=
| TaskRuns (i : nat) (x : TaskInput) (now_ms : Z)
| TaskDropped (i : nat)
| ListenRuns (x : ListenInput) (elapsed : Z) (jitter : spec_float)
| ListenIsDropped
| StopCalled
| StopPolled (k : nat)
| StopDropped (k : nat).

Definition relay_turn (x : RelayInput) (s : HomeRelay) : option HomeRelay :=
  match x with
  | TaskRuns i x now => task_turn i x now s
  | TaskDropped i => cancel_task i s
  | ListenRuns x elapsed jitter => listen_turn x elapsed jitter s
  | ListenIsDropped => Some (set_listen ListenDropped (base s) s)
  | StopCalled => Some (stop_call s)
  | StopPolled k => stop_poll k s
  | StopDropped k => stop_drop k s
  end.

Fixpoint relay_run (xs : list RelayInput) (s : HomeRelay) : option HomeRelay :=
  match xs with
  | [] => Some s
  | x :: xs => s ← relay_turn x s; relay_run xs s
  end.

Definition relay_reach (s s' : HomeRelay) : Prop := exists xs, relay_run xs s = Some s'.

(** ** Invariant *)

Definition is_peeking (t : RelayTask) : bool := match t with Peeking _ => true | _ => false end.
Definition peekers (m : gmap nat RelayTask) : Z :=
  Z.of_nat (size (filter (fun e : nat * RelayTask => is_peeking e.2 = true) m)).
Definition peeking (s : HomeRelay) : Z := peekers (live s).

(** The life of the task table: open, draining under the leader [k], orphaned
    by the drop of the leader, stopped. *)
Record open (s : HomeRelay) : Prop := mkOpen {
  open_accepting : accepting_tunnels s = true;
  open_flags : stopping s = false /\ stopped s = false;
  open_stops : stops s = ∅ /\ stop_waiters s = [] /\ aborted s = ∅;
  open_tracked : forall i, is_Some (live s !! i) -> i ∈ handles s;
  open_count : fst (admission s) = peeking s
}.
Definition follower_in (s : HomeRelay) (k : nat) (c : StopCall) : Prop :=
  (c = Follower false /\ k ∈ stop_waiters s) \/ c = FollowerDropped.
Record draining (k : nat) (c : StopCall) (s : HomeRelay) : Prop := mkDraining {
  drain_closed : accepting_tunnels s = false;
  drain_flags : stopping s = true /\ stopped s = false;
  drain_handles : handles s = [];
  drain_leader : stops s !! k = Some c;
  drain_aborted : forall i, is_Some (live s !! i) -> i ∈ aborted s;
  drain_others : forall k' c', stops s !! k' = Some c' -> k' <> k -> follower_in s k' c';
  drain_waiters : forall w, w ∈ stop_waiters s -> w <> k
}.
Record settled_stop (s : HomeRelay) : Prop := mkSettled {
  stop_closed : accepting_tunnels s = false;
  stop_flags : stopping s = false /\ stopped s = true;
  stop_empty : live s = ∅;
  stop_calls : forall k c, stops s !! k = Some c -> c = Follower true \/ c = StopReturned \/ c = FollowerDropped
}.
Inductive stop_phase (s : HomeRelay) : Prop :=
| PhaseOpen (H : open s)
| PhaseDraining k hs (H : draining k (Leader hs) s) (Hhs : forall i, is_Some (live s !! i) -> i ∈ hs)
| PhaseOrphaned k (H : draining k LeaderDropped s)
| PhaseStopped (H : settled_stop s).

Record relay_inv (s : HomeRelay) : Prop := mkRelayInv {
  inv_gate : peeking s <= fst (admission s) <= ceiling;
  inv_tasks : forall i, is_Some (live s !! i) -> (i < next_task s)%nat;
  inv_calls : forall k, is_Some (stops s !! k) -> (k < next_stop s)%nat;
  inv_waiting : forall w, w ∈ stop_waiters s -> (w < next_stop s)%nat;
  inv_phase : stop_phase s
}.

(** *** What a step of a task or of the listen loop does to the table *)

Definition retained (s : HomeRelay) : list nat := filter (fun i => is_finished i s = false) (handles s).

Record task_effect (s s' : HomeRelay) : Prop := mkEffect {
  te_stop : same_stop s s';
  te_gate : peeking s <= fst (admission s) <= ceiling -> peeking s' <= fst (admission s') <= ceiling;
  te_exact : aborted s = ∅ -> fst (admission s) <= ceiling -> fst (admission s) = peeking s ->
    fst (admission s') = peeking s';
  te_live : forall i, is_Some (live s' !! i) ->
    is_Some (live s !! i) \/ (accepting_tunnels s = true /\ i = next_task s /\ i ∈ handles s');
  te_kept : forall i, is_Some (live s !! i) -> i ∈ handles s -> i ∈ handles s';
  te_nil : accepting_tunnels s = false -> handles s = [] -> handles s' = [];
  te_next : next_task s' = next_task s \/ next_task s' = S (next_task s);
  te_fresh : forall i, is_Some (live s' !! i) -> is_Some (live s !! i) \/ (i < next_task s')%nat
}.

Lemma retained_live s i : is_Some (live s !! i) -> i ∈ handles s -> i ∈ retained s.
Proof.
  intros [t Ht] Hi. apply list_elem_of_filter. split; [|done]. unfold is_finished. by rewrite Ht.
Qed.

Lemma peekers_put m i t :
  m !! i = None -> peekers (<[i := t]> m) = peekers m + Z.b2z (is_peeking t).
Proof.
  intros Hi. unfold peekers. destruct (is_peeking t) eqn:Ht.
  - rewrite map_filter_insert_True by done. rewrite map_size_insert_None; [cbn; lia|].
    apply map_lookup_filter_None. by left.
  - rewrite map_filter_insert_False by (cbn; congruence). rewrite delete_id by done. cbn. lia.
Qed.

Lemma peekers_delete m i t0 : m !! i = Some t0 -> peekers (delete i m) = peekers m - Z.b2z (is_peeking t0).
Proof.
  intros Hi. pose proof (peekers_put (delete i m) i t0 (lookup_delete_eq _ _)) as H.
  rewrite insert_delete_id in H by done. lia.
Qed.

Lemma peekers_insert m i t0 t :
  m !! i = Some t0 -> peekers (<[i := t]> m) = peekers m - Z.b2z (is_peeking t0) + Z.b2z (is_peeking t).
Proof.
  intros Hi. rewrite <- insert_delete_eq, peekers_put by apply lookup_delete_eq. by rewrite (peekers_delete _ _ _ Hi).
Qed.

Lemma peekers_nonneg m : 0 <= peekers m.
Proof. unfold peekers. lia. Qed.

(** A task moves on: the gate counts it while it peeks. *)
Lemma effect_set s s' i t0 t :
  live s !! i = Some t0 -> live s' = <[i := t]> (live s) -> same_stop s s' -> next_task s' = next_task s ->
  (handles s' = handles s \/ handles s' = retained s) ->
  (peeking s <= fst (admission s) <= ceiling ->
     fst (admission s') = fst (admission s) - Z.b2z (is_peeking t0) + Z.b2z (is_peeking t) /\
     fst (admission s') <= ceiling) ->
  task_effect s s'.
Proof.
  intros Hi Hl Hs Hn Hh Hg. pose proof (peekers_insert _ _ _ t Hi) as Hp. unfold peeking in *.
  assert (Hdom : forall j, is_Some (live s' !! j) -> is_Some (live s !! j)).
  { rewrite Hl. intros j. destruct (decide (j = i)) as [->|]; [by rewrite Hi | by rewrite lookup_insert_ne]. }
  split; try done.
  - intros Hin. destruct (Hg Hin). unfold peeking in *. rewrite Hl, Hp. lia.
  - intros _ Hc He. unfold peeking in *. destruct (Hg ltac:(lia)). rewrite Hl, Hp. lia.
  - intros j Hj. left. by apply Hdom.
  - intros j Hj Hin. destruct Hh as [-> | ->]; [done|]. by apply retained_live.
  - intros _ Hn0. destruct Hh as [-> | ->]; [done|]. unfold retained. by rewrite Hn0.
  - by left.
  - intros j Hj. left. by apply Hdom.
Qed.

(** A task ends: normally when it holds no place in the gate, or because it was
    aborted. *)
Lemma effect_end s s' i t0 :
  live s !! i = Some t0 -> live s' = delete i (live s) -> same_stop s s' -> next_task s' = next_task s ->
  handles s' = handles s -> admission s' = admission s -> (is_peeking t0 = false \/ i ∈ aborted s) ->
  task_effect s s'.
Proof.
  intros Hi Hl Hs Hn Hh Ha Ht. pose proof (peekers_delete _ _ _ Hi) as Hp. unfold peeking in *.
  assert (Hdom : forall j, is_Some (live s' !! j) -> is_Some (live s !! j)).
  { rewrite Hl. intros j. rewrite lookup_delete_is_Some. tauto. }
  split; try done.
  - unfold peeking. rewrite Hl, Hp, Ha. destruct (is_peeking t0); cbn; lia.
  - intros Hab _ He. unfold peeking in *. rewrite Hl, Hp, Ha. destruct Ht as [->|Ht]; [cbn; lia|]. rewrite Hab in Ht. set_solver.
  - intros j Hj. left. by apply Hdom.
  - intros j Hj. by rewrite Hh.
  - by rewrite Hh.
  - by left.
  - intros j Hj. left. by apply Hdom.
Qed.

(** Nothing of the table changes, or finished handles are dropped. *)
Lemma effect_same s s' :
  live s' = live s -> admission s' = admission s -> same_stop s s' -> next_task s' = next_task s ->
  (handles s' = handles s \/ handles s' = retained s) -> task_effect s s'.
Proof.
  intros Hl Ha Hs Hn Hh. split; try done; unfold peeking; rewrite ?Hl, ?Ha; try done; auto.
  - intros j Hj Hin. destruct Hh as [-> | ->]; [done|]. by apply retained_live.
  - intros _ Hn0. destruct Hh as [-> | ->]; [done|]. unfold retained. by rewrite Hn0.
Qed.

(** A new task is tracked from its first moment. *)
Lemma effect_spawn s s' t :
  (forall i, is_Some (live s !! i) -> (i < next_task s)%nat) ->
  accepting_tunnels s = true -> is_peeking t = false ->
  live s' = <[next_task s := t]> (live s) -> admission s' = admission s -> same_stop s s' ->
  next_task s' = S (next_task s) -> handles s' = retained s ++ [next_task s] ->
  task_effect s s'.
Proof.
  intros Hlt Hacc Ht Hl Ha Hs Hn Hh.
  assert (Hf : live s !! next_task s = None).
  { apply eq_None_not_Some. intros H. apply Hlt in H. lia. }
  pose proof (peekers_put _ _ t Hf) as Hp. rewrite Ht in Hp. unfold peeking in *.
  assert (Hdom : forall j, is_Some (live s' !! j) -> is_Some (live s !! j) \/ j = next_task s).
  { rewrite Hl. intros j. destruct (decide (j = next_task s)) as [->|]; [by right|]. rewrite lookup_insert_ne by done. by left. }
  split; try done; unfold peeking; rewrite ?Ha, ?Hl, ?Hp; cbn; try lia.
  - intros j Hj. destruct (Hdom j) as [?| ->]; [by rewrite Hl | by left |]. right. split_and!; try done. rewrite Hh. set_solver.
  - intros j Hj Hin. rewrite Hh. apply elem_of_app. left. by apply retained_live.
  - intros j Hj. destruct (Hdom j) as [?| ->]; [by rewrite Hl | by left |]. right. lia.
Qed.

Lemma spawn_effect t s s' b :
  (forall i, is_Some (live s !! i) -> (i < next_task s)%nat) -> is_peeking t = false ->
  spawn_tunnel_task t s = (s', b) ->
  if b then task_effect s s' else s' = set_handles (retained s) s.
Proof.
  intros Hlt Ht H. unfold spawn_tunnel_task in H. cbn in H. fold (retained s) in H.
  destruct (stopped s || negb (accepting_tunnels s)) eqn:E; simplify_eq; [done|].
  apply orb_false_iff in E as [_ E]. apply negb_false_iff in E.
  eapply effect_spawn; effect.
Qed.

Lemma task_turn_effect i x now s s' :
  (forall i, is_Some (live s !! i) -> (i < next_task s)%nat) ->
  task_turn i x now s = Some s' -> task_effect s s'.
Proof.
  intros Hlt H. unfold task_turn in H. destruct (live s !! i) as [t|] eqn:Hi; [cbn [mbind option_bind] in H | done].
  assert (Hpk : is_peeking t = true -> 1 <= peeking s).
  { intros Ht. pose proof (peekers_delete _ _ _ Hi) as Hp. rewrite Ht in Hp. cbn in Hp.
    pose proof (peekers_nonneg (delete i (live s))). unfold peeking. lia. }
  destruct t, x; try done; cbn [is_peeking] in Hpk.
  - destruct (tunnel_url origin tunnel_id); [|simplify_eq; eapply effect_set; effect|done].
    destruct (dial_home_ws o); [|simplify_eq; eapply effect_set; effect|done].
    unfold acquire in H. destruct (admission s) as [n refused] eqn:Ha.
    destruct (n <? ceiling) eqn:E; simplify_eq; eapply effect_set; try rewrite Ha; effect.
  - simplify_eq. eapply effect_set; effect.
  - destruct (guard_tls_prefix _ _) as [[|]|e|]; simplify_eq; (eapply effect_set; [done|..]; unfold release_place; destruct (admission s) as [n refused]; effect).
  - destruct ok; simplify_eq; eapply effect_set; effect.
  - destruct ok; [|simplify_eq; eapply effect_set; effect].
    destruct (spawn_tunnel_task Piping s) as [s1 b] eqn:Hs. pose proof (spawn_effect _ _ _ _ Hlt (eq_refl : is_peeking Piping = false) Hs) as He.
    destruct b; simplify_eq; [done|]. eapply effect_set; effect.
  - simplify_eq. eapply effect_set; effect.
  - simplify_eq. eapply effect_end; effect.
  - destruct r; simplify_eq; [eapply effect_set; effect | eapply effect_end; effect].
  - simplify_eq. eapply effect_end; effect.
Qed.

Lemma cancel_task_effect i s s' : cancel_task i s = Some s' -> task_effect s s'.
Proof.
  unfold cancel_task. destruct (live s !! i) as [t|] eqn:Hi; [cbn [mbind option_bind] | done].
  destruct (at_await t && bool_decide (i ∈ aborted s)) eqn:E; [|done]. intros. simplify_eq.
  apply andb_true_iff in E as [_ E]. apply bool_decide_eq_true in E. eapply effect_end; effect.
Qed.

Lemma attempt_ended_effect e elapsed jitter s s0 :
  task_effect s s0 -> live s = live s0 -> task_effect s (attempt_ended e elapsed jitter s0) .
Proof.
  intros He Hl. destruct He. unfold attempt_ended. 
  destruct e; cbn; try destruct (schedule_reconnect _ _) as [[]|]; by split.
Qed.

Lemma listen_turn_effect x elapsed jitter s s' :
  (forall i, is_Some (live s !! i) -> (i < next_task s)%nat) ->
  listen_turn x elapsed jitter s = Some s' -> task_effect s s'.
Proof.
  intros Hlt H. unfold listen_turn in H.
  assert (Hid : task_effect s s) by (apply effect_same; effect).
  destruct (listen s), x; try done.
  - destruct (listen_url origin); [| |done]; simplify_eq.
    + apply effect_same; effect.
    + apply attempt_ended_effect; [|done]. apply effect_same; effect.
  - destruct (dial_home_ws o); [| |done]; simplify_eq; [apply effect_same; effect|].
    by apply attempt_ended_effect.
  - destruct m; simplify_eq; try done; try by apply attempt_ended_effect.
    destruct (parse_listen_control text); simplify_eq; try done.
    destruct (accepting_tunnels s) eqn:E; simplify_eq; apply effect_same; effect.
  - destruct (spawn_tunnel_task (Dialing tunnel_id) s) as [s1 b] eqn:Hs.
    pose proof (spawn_effect _ _ _ _ Hlt (eq_refl : is_peeking (Dialing tunnel_id) = false) Hs) as He. simplify_eq.
    destruct b; [|subst s1; apply effect_same; effect]. destruct He. by split.
  - simplify_eq. apply effect_same; effect.
  - destruct (listen_url origin); [| |done]; simplify_eq.
    + apply effect_same; effect.
    + apply attempt_ended_effect; [|done]. apply effect_same; effect.
Qed.

Lemma effect_draining s s' k c :
  task_effect s s' -> draining k c s ->
  draining k c s' /\ forall i, is_Some (live s' !! i) -> is_Some (live s !! i).
Proof.
  intros [(E1 & E2 & E3 & E4 & E5 & E6 & E7) _ _ Hlive _ Hnil _ _] [Hc [Hg Hd] Hh Hl Hab Ho Hw].
  assert (Hdom : forall i, is_Some (live s' !! i) -> is_Some (live s !! i)).
  { intros i Hi. destruct (Hlive i Hi) as [?|(Ha & _)]; [done|]. by rewrite Hc in Ha. }
  split; [|done]. unfold follower_in in *.
  split; unfold follower_in; rewrite ?E1, ?E2, ?E3, ?E4, ?E5, ?E6; auto.
Qed.

Lemma effect_inv s s' : task_effect s s' -> relay_inv s -> relay_inv s'.
Proof.
  intros He [Hg Ht Hk Hw Hp]. pose proof He as [(E1 & E2 & E3 & E4 & E5 & E6 & E7) Hgate Hexact Hlive Hkept Hnil Hnext Hfresh].
  split.
  - auto.
  - intros i Hi. destruct (Hfresh i Hi) as [Hi'|]; [|done]. apply Ht in Hi'. destruct Hnext; lia.
  - rewrite E6, E7. done.
  - rewrite E3, E7. done.
  - destruct Hp as [Ho | k hs Hd Hhs | k Hd | Hs].
    + apply PhaseOpen. destruct Ho as [Ha [Hf1 Hf2] (Hs & Hws & Hab) Htr Hc].
      split; rewrite ?E1, ?E2, ?E3, ?E4, ?E5, ?E6; try done.
      * intros i Hi. destruct (Hlive i Hi) as [Hi'|(_ & _ & ?)]; [|done]. auto.
      * apply Hexact; [done | lia | done].
    + destruct (effect_draining _ _ _ _ He Hd). eapply PhaseDraining; eauto.
    + destruct (effect_draining _ _ _ _ He Hd). by eapply PhaseOrphaned.
    + apply PhaseStopped. destruct Hs as [Ha [Hf1 Hf2] Hempty Hcalls].
      split; rewrite ?E1, ?E2, ?E3, ?E4, ?E5, ?E6; try done.
      apply map_empty. intros i. apply eq_None_not_Some. intros Hi.
      destruct (Hlive i Hi) as [Hi'|(Hx & _)]; [rewrite Hempty in Hi'; by destruct Hi' | congruence].
Qed.

(** A call that finds a leader follows it. *)
Lemma follow_draining s k c :
  (forall w, w ∈ stop_waiters s -> (w < next_stop s)%nat) -> stops s !! next_stop s = None ->
  draining k c s ->
  draining k c (stop_call s) /\ live (stop_call s) = live s /\ admission (stop_call s) = admission s /\
  next_task (stop_call s) = next_task s /\ stop_waiters (stop_call s) = stop_waiters s ++ [next_stop s] /\
  stops (stop_call s) = <[next_stop s := Follower false]> (stops s) /\ next_stop (stop_call s) = S (next_stop s).
Proof.
  intros Hw Hnew [Hc [Hf1 Hf2] Hh Hl Hab Ho Hws]. unfold stop_call. rewrite Hf1, Hf2.
  assert (k <> next_stop s) by (intros ->; congruence).
  split_and!; try done. split; cbn; try done.
  - by rewrite lookup_insert_ne.
  - intros k' c'. rewrite lookup_insert_Some. unfold follower_in; cbn. intros [[<- <-] | [? Hc']] Hne.
    + left. set_solver.
    + destruct (Ho _ _ Hc' Hne) as [[-> ?] | ->]; [left; set_solver | by right].
  - intros w. rewrite elem_of_app, list_elem_of_singleton. intros [Hin| ->]; auto.
Qed.

Lemma stop_call_inv s : relay_inv s -> relay_inv (stop_call s).
Proof.
  intros [Hg Ht Hk Hw Hp].
  assert (Hnew : stops s !! next_stop s = None).
  { apply eq_None_not_Some. intros H. apply Hk in H. lia. }
  assert (Hdom : forall c j, is_Some (<[next_stop s := c]> (stops s) !! j) -> (j < S (next_stop s))%nat).
  { intros c j. rewrite lookup_insert_is_Some. intros [->|[_ Hj]]; [lia | apply Hk in Hj; lia]. }
  assert (Hfollow : forall k c, draining k c s ->
    (draining k c (stop_call s) -> live (stop_call s) = live s -> stop_phase (stop_call s)) -> relay_inv (stop_call s)).
  { intros k c Hd Hph. destruct (follow_draining _ _ _ Hw Hnew Hd) as (Hd' & El & Ea & En & Ew & Es & Ek).
    split; unfold peeking; rewrite ?El, ?Ea, ?En, ?Ew, ?Es, ?Ek; eauto.
    intros w. rewrite elem_of_app, list_elem_of_singleton. intros [Hin| ->]; [apply Hw in Hin|]; lia. }
  destruct Hp as [Ho | k hs Hd Hhs | k Hd | Hs].
  - destruct Ho as [Ha [Hf1 Hf2] (Hs & Hws & Hab) Htr Hc]. unfold stop_call. rewrite Hf1, Hf2.
    split; cbn; eauto; [intros w Hin; apply Hw in Hin; lia|].
    apply (PhaseDraining _ (next_stop s) (handles s)); [|done].
    split; cbn; try done.
    + apply lookup_insert_eq.
    + intros j Hj. apply Htr in Hj. set_solver.
    + intros k' c'. rewrite lookup_insert_Some, Hs. by intros [[] | []].
    + intros w Hin. apply Hw in Hin. lia.
  - apply (Hfollow _ _ Hd). intros Hd' El. eapply PhaseDraining; [done|]. by rewrite El.
  - apply (Hfollow _ _ Hd). intros Hd' El. by eapply PhaseOrphaned.
  - destruct Hs as [Ha [Hf1 Hf2] Hempty Hcalls]. unfold stop_call. rewrite Hf2.
    split; cbn; eauto; [intros w Hin; apply Hw in Hin; lia|]. apply PhaseStopped. split; cbn; try done.
    intros k c. rewrite lookup_insert_Some. intros [[<- <-] | [_ Hc]]; [by right; left | eauto].
Qed.

Lemma fire_one w m k :
  fire w m !! k =
    match m !! k with Some (Follower b) => Some (Follower (b || bool_decide (k = w))) | c => c end.
Proof.
  unfold fire. destruct (decide (k = w)) as [->|Hne].
  - destruct (m !! w) as [[]|] eqn:Hm; rewrite ?Hm; try done.
    by rewrite lookup_insert_eq, bool_decide_eq_true_2, orb_true_r.
  - rewrite bool_decide_eq_false_2 by done.
    destruct (m !! w) as [[]|]; rewrite ?lookup_insert_ne by done; destruct (m !! k) as [[]|]; by rewrite ?orb_false_r.
Qed.

Lemma fire_lookup ws m k :
  foldr fire m ws !! k =
    match m !! k with
    | Some (Follower b) => Some (Follower (b || bool_decide (k ∈ ws)))
    | c => c
    end.
Proof.
  induction ws as [|w ws IH]; cbn [foldr].
  { rewrite (bool_decide_eq_false_2 (k ∈ [])) by set_solver.
    destruct (m !! k) as [[]|]; try done. by rewrite orb_false_r. }
  rewrite fire_one, IH. destruct (m !! k) as [[]|]; try done. do 2 f_equal.
  rewrite <- orb_assoc. f_equal. rewrite <- bool_decide_or. apply bool_decide_ext. set_solver.
Qed.

(** Who may be polled: only a draining table has a leader, and only a stopped
    one a fired follower. *)
Lemma leader_draining s k hs :
  stop_phase s -> stops s !! k = Some (Leader hs) ->
  draining k (Leader hs) s /\ forall i, is_Some (live s !! i) -> i ∈ hs.
Proof.
  intros [Ho | k' hs' Hd Hhs | k' Hd | Hs] Hk.
  - destruct (open_stops _ Ho) as (He & _). by rewrite He in Hk.
  - destruct (decide (k = k')) as [->|Hne].
    + pose proof (drain_leader _ _ _ Hd). by simplify_eq.
    + by destruct (drain_others _ _ _ Hd _ _ Hk Hne) as [[? _]|].
  - destruct (decide (k = k')) as [->|Hne].
    + pose proof (drain_leader _ _ _ Hd). by simplify_eq.
    + by destruct (drain_others _ _ _ Hd _ _ Hk Hne) as [[? _]|].
  - by destruct (stop_calls _ Hs _ _ Hk) as [|[]].
Qed.

Lemma returned_stopped s k c :
  stop_phase s -> stops s !! k = Some c -> c = StopReturned \/ c = Follower true -> settled_stop s.
Proof.
  intros [Ho | k' hs' Hd Hhs | k' Hd | Hs] Hk Hc; [| | |done]; exfalso.
  - destruct (open_stops _ Ho) as (He & _). by rewrite He in Hk.
  - destruct (decide (k = k')) as [->|Hne].
    + pose proof (drain_leader _ _ _ Hd). simplify_eq. by destruct Hc.
    + destruct (drain_others _ _ _ Hd _ _ Hk Hne) as [[-> _]| ->]; by destruct Hc.
  - destruct (decide (k = k')) as [->|Hne].
    + pose proof (drain_leader _ _ _ Hd). simplify_eq. by destruct Hc.
    + destruct (drain_others _ _ _ Hd _ _ Hk Hne) as [[-> _]| ->]; by destruct Hc.
Qed.

Lemma settled_returns s k m n :
  settled_stop s -> (forall j c, m !! j = Some c -> j <> k -> stops s !! j = Some c) -> m !! k = Some StopReturned ->
  settled_stop (set_stops m n s).
Proof.
  intros [Ha Hf He Hc] Hm Hk. split; cbn; try done. intros j c Hj.
  destruct (decide (j = k)) as [->|Hne]; [simplify_eq; by right; left | eauto].
Qed.

Lemma stop_poll_inv k s s' : stop_poll k s = Some s' -> relay_inv s -> relay_inv s'.
Proof.
  intros H [Hg Ht Hk Hw Hp]. unfold stop_poll in H.
  assert (Hin : forall c j, is_Some (stops s !! k) -> is_Some (<[k := c]> (stops s) !! j) -> (j < next_stop s)%nat).
  { intros c j Hs. rewrite lookup_insert_is_Some. intros [<-|[_ Hj]]; auto. }
  destruct (stops s !! k) as [[[|i hs]|[|]| | |]|] eqn:Hc; try done.
  - destruct (leader_draining _ _ _ Hp Hc) as [Hd Hhs]. simplify_eq.
    destruct Hd as [Ha [Hf1 Hf2] Hh Hl Hab Ho Hws]. split; cbn; eauto.
    + intros j. rewrite lookup_insert_is_Some. intros [<-|[_ Hj]]; [by apply Hk|]. rewrite fire_lookup in Hj.
      apply Hk. destruct (stops s !! j) as [[]|]; by destruct Hj.
    + set_solver.
    + apply PhaseStopped. split; cbn; try done.
      * apply map_empty. intros j. apply eq_None_not_Some. intros Hj. apply Hhs in Hj. set_solver.
      * intros j c. rewrite lookup_insert_Some. intros [[_ <-]|[Hne Hj]]; [by right; left|].
        rewrite fire_lookup in Hj. destruct (stops s !! j) as [cj|] eqn:Ej; [|done].
        destruct (Ho _ _ Ej ltac:(done)) as [[-> Hjw]| ->]; simplify_eq; [|by right; right].
        rewrite bool_decide_eq_true_2 by done. by left.
  - destruct (leader_draining _ _ _ Hp Hc) as [Hd Hhs].
    destruct (is_finished i s) eqn:Hfin; simplify_eq.
    destruct Hd as [Ha [Hf1 Hf2] Hh Hl Hab Ho Hws]. split; cbn; eauto.
    apply (PhaseDraining _ k hs).
    + split; cbn; try done; [apply lookup_insert_eq|].
      intros k' c' Hk' Hne. rewrite lookup_insert_ne in Hk' by done. by apply Ho.
    + cbn. intros j Hj. pose proof (Hhs _ Hj) as Hx. apply elem_of_cons in Hx as [Hx|Hx]; [|done]. subst j.
      apply bool_decide_eq_true in Hfin. rewrite Hfin in Hj. by destruct Hj.
  - simplify_eq. pose proof (returned_stopped _ _ _ Hp Hc ltac:(by right)) as Hs.
    split; cbn; eauto. apply PhaseStopped. apply (settled_returns _ k); [done| |apply lookup_insert_eq].
    intros j c Hj Hne. by rewrite lookup_insert_ne in Hj by done.
Qed.

Lemma stop_drop_inv k s s' : stop_drop k s = Some s' -> relay_inv s -> relay_inv s'.
Proof.
  intros H [Hg Ht Hk Hw Hp]. unfold stop_drop in H.
  assert (Hin : forall c j, is_Some (stops s !! k) -> is_Some (<[k := c]> (stops s) !! j) -> (j < next_stop s)%nat).
  { intros c j Hs. rewrite lookup_insert_is_Some. intros [<-|[_ Hj]]; auto. }
  destruct (stops s !! k) as [[hs|b| | |]|] eqn:Hc; simplify_eq.
  - destruct (leader_draining _ _ _ Hp Hc) as [[Ha [Hf1 Hf2] Hh Hl Hab Ho Hws] Hhs]. split; cbn; eauto.
    apply (PhaseOrphaned _ k). split; cbn; try done; [apply lookup_insert_eq|].
    intros k' c' Hk' Hne. rewrite lookup_insert_ne in Hk' by done. by apply Ho.
  - assert (Hdr : forall k0 c0, draining k0 c0 s -> (forall b, c0 <> Follower b) ->
      draining k0 c0 (set_stops (<[k := FollowerDropped]> (stops s)) (next_stop s) s)).
    { intros k0 c0 [Ha [Hf1 Hf2] Hh Hl Hab Ho Hws] Hc0.
      assert (k <> k0) by (intros ->; rewrite Hc in Hl; simplify_eq; by eapply Hc0).
      split; cbn; try done; [by rewrite lookup_insert_ne|].
      intros k' c'. rewrite lookup_insert_Some. intros [[<- <-]|[? Hk']] Hne; [by right|].
      destruct (Ho _ _ Hk' Hne); [by left | by right]. }
    split; cbn; eauto. destruct Hp as [Ho | k0 hs Hd Hhs | k0 Hd | Hs].
    + destruct (open_stops _ Ho) as (He & _). by rewrite He in Hc.
    + eapply PhaseDraining; [by apply Hdr | done].
    + eapply PhaseOrphaned. by apply Hdr.
    + apply PhaseStopped. destruct Hs as [Ha [Hf1 Hf2] Hempty Hcalls]. split; cbn; try done.
      intros j c. rewrite lookup_insert_Some. intros [[<- <-] | [_ Hj]]; [by right; right | eauto].
Qed.

Lemma relay_turn_inv x s s' : relay_turn x s = Some s' -> relay_inv s -> relay_inv s'.
Proof.
  intros H Hi. destruct x; cbn [relay_turn] in H.
  - eapply effect_inv; [|done]. eapply task_turn_effect; [apply Hi | done].
  - eapply effect_inv; [|done]. by eapply cancel_task_effect.
  - eapply effect_inv; [|done]. eapply listen_turn_effect; [apply Hi | done].
  - simplify_eq. eapply effect_inv; [|done]. apply effect_same; effect.
  - simplify_eq. by apply stop_call_inv.
  - by eapply stop_poll_inv.
  - by eapply stop_drop_inv.
Qed.

Lemma relay_new_inv : 0 <= ceiling -> relay_inv relay_new.
Proof.
  intros Hc. split; cbn; try done; try set_solver.
  - intros i. rewrite lookup_empty. by intros [].
  - intros i. rewrite lookup_empty. by intros [].
  - apply PhaseOpen. split; try done. intros i. cbn. rewrite lookup_empty. by intros [].
Qed.

Lemma relay_reach_inv s s' : relay_reach s s' -> relay_inv s -> relay_inv s'.
Proof.
  intros [xs H]. revert s H. induction xs as [|x xs IH]; intros s H Hi; cbn [relay_run] in H; [by simplify_eq|].
  destruct (relay_turn x s) as [s1|] eqn:Ht; [cbn [mbind option_bind] in H | done]. eauto using relay_turn_inv.
Qed.

(** ** What never changes back *)

Lemma relay_turn_frame x s s' :
  relay_inv s -> relay_turn x s = Some s' ->
  (stopped s = true -> stopped s' = true) /\
  (forall k, stops s !! k = Some LeaderDropped -> stops s' !! k = Some LeaderDropped).
Proof.
  intros Hi H.
  assert (Heff : task_effect s s' -> (stopped s = true -> stopped s' = true) /\
    (forall k, stops s !! k = Some LeaderDropped -> stops s' !! k = Some LeaderDropped)).
  { intros [(_ & -> & _ & _ & _ & -> & _) _ _ _ _ _ _ _]. done. }
  destruct x; cbn [relay_turn] in H.
  - apply Heff. eapply task_turn_effect; [apply Hi | done].
  - apply Heff. by eapply cancel_task_effect.
  - apply Heff. eapply listen_turn_effect; [apply Hi | done].
  - by simplify_eq.
  - simplify_eq. unfold stop_call. split; [intros Hst; by rewrite Hst|]. intros k Hk.
    assert (next_stop s <> k). { intros <-. pose proof (inv_calls _ Hi _ (mk_is_Some _ _ Hk)). lia. }
    repeat case_match; cbn; by rewrite lookup_insert_ne.
  - unfold stop_poll in H. destruct (stops s !! k) as [[[|i hs]|[|]| | |]|] eqn:Hc; simplify_eq; cbn.
    + split; [done|]. intros j Hj. rewrite lookup_insert_ne, fire_lookup, Hj by congruence. done.
    + case_match; simplify_eq. cbn. split; [done|]. intros j Hj. by rewrite lookup_insert_ne by congruence.
    + split; [done|]. intros j Hj. by rewrite lookup_insert_ne by congruence.
  - unfold stop_drop in H. destruct (stops s !! k) as [[| | | |]|] eqn:Hc; simplify_eq; cbn;
      (split; [done|]; intros j Hj; rewrite lookup_insert_ne by congruence; done).
Qed.

Lemma relay_reach_frame s s' :
  relay_inv s -> relay_reach s s' ->
  (stopped s = true -> stopped s' = true) /\
  (forall k, stops s !! k = Some LeaderDropped -> stops s' !! k = Some LeaderDropped).
Proof.
  intros Hi [xs H]. revert s Hi H. induction xs as [|x xs IH]; intros s Hi H; cbn [relay_run] in H; [by simplify_eq|].
  destruct (relay_turn x s) as [s1|] eqn:Ht; [cbn [mbind option_bind] in H | done].
  destruct (relay_turn_frame _ _ _ Hi Ht) as [H1 H2].
  destruct (IH _ (relay_turn_inv _ _ _ Ht Hi) H) as [H3 H4]. split; eauto.
Qed.

Lemma stopped_settled s : stop_phase s -> stopped s = true -> settled_stop s.
Proof.
  intros [Ho | k hs Hd _ | k Hd | Hs] Hst; [| | |done]; exfalso.
  - destruct (open_flags _ Ho). congruence.
  - destruct (drain_flags _ _ _ Hd). congruence.
  - destruct (drain_flags _ _ _ Hd). congruence.
Qed.

Lemma dropped_orphaned s k :
  stop_phase s -> stops s !! k = Some LeaderDropped -> draining k LeaderDropped s.
Proof.
  intros [Ho | k' hs Hd _ | k' Hd | Hs] Hk.
  - destruct (open_stops _ Ho) as (He & _). by rewrite He in Hk.
  - destruct (decide (k = k')) as [->|Hne].
    + pose proof (drain_leader _ _ _ Hd). congruence.
    + by destruct (drain_others _ _ _ Hd _ _ Hk Hne) as [[? _]|].
  - destruct (decide (k = k')) as [->|Hne]; [done|].
    by destruct (drain_others _ _ _ Hd _ _ Hk Hne) as [[? _]|].
  - by destruct (stop_calls _ Hs _ _ Hk) as [|[]].
Qed.

End Client.

(** ** A stop makes progress by itself

    Steps that wait for nothing outside the process: a task past its last
    await, the runtime dropping an aborted task, and polls of [stop]. *)

Section Progress.
Context {R : RelayPrimitives}.
Variable origin : str.
Variable ceiling : Z.

Definition internal (x : RelayInput) : bool :=
  match x with TaskRuns _ Proceed _ | TaskDropped _ | StopPolled _ => true | _ => false end.
Definition settles (s s' : HomeRelay) : Prop :=
  exists xs, forallb internal xs = true /\ relay_run origin ceiling xs s = Some s'.

Lemma relay_run_app xs ys s :
  relay_run origin ceiling (xs ++ ys) s = s ← relay_run origin ceiling xs s; relay_run origin ceiling ys s.
Proof.
  revert s. induction xs as [|x xs IH]; intros s; [done|]. cbn [app relay_run].
  destruct (relay_turn origin ceiling x s); [apply IH | done].
Qed.

Lemma settles_refl s : settles s s.
Proof. by exists []. Qed.

Lemma settles_trans a b c : settles a b -> settles b c -> settles a c.
Proof.
  intros (xs & Hx & Ha) (ys & Hy & Hb). exists (xs ++ ys). split; [by rewrite forallb_app, Hx|].
  by rewrite relay_run_app, Ha.
Qed.

Lemma settles_step x s s' : internal x = true -> relay_turn origin ceiling x s = Some s' -> settles s s'.
Proof. intros Hx Ht. exists [x]. cbn. by rewrite Hx, Ht. Qed.

Lemma settles_reach s s' : settles s s' -> relay_reach origin ceiling s s'.
Proof. intros (xs & _ & H). by exists xs. Qed.

(** The task that is about to report its end reports it. *)
Lemma closing_ends i id s :
  live s !! i = Some (Closing id) -> exists s', settles s s' /\ live s' = delete i (live s) /\ same_stop s s'.
Proof.
  intros Hi. eexists. split; [eapply (settles_step (TaskRuns i Proceed 0)); [done|]; cbn; unfold task_turn; by rewrite Hi|].
  split; [done|]. effect.
Qed.

Lemma set_closing_ends i id s s1 s0 :
  live s !! i = Some s0 -> settles s s1 -> live s1 = <[i := Closing id]> (live s) -> same_stop s s1 ->
  exists s', settles s s' /\ live s' = delete i (live s) /\ same_stop s s'.
Proof.
  intros Hi Hs Hl Hsame.
  destruct (closing_ends i id s1) as (s' & Hs' & Hl' & Hsame'); [by rewrite Hl, lookup_insert_eq|].
  exists s'. split; [by eapply settles_trans|]. split; [by rewrite Hl', Hl, delete_insert_eq|].
  unfold same_stop in *. destruct_and!. split_and!; congruence.
Qed.

Lemma aborted_task_ends i t s :
  live s !! i = Some t -> i ∈ aborted s -> exists s', settles s s' /\ live s' = delete i (live s) /\ same_stop s s'.
Proof.
  intros Hi Hab. destruct (at_await t) eqn:Hw.
  - eexists. split.
    + eapply (settles_step (TaskDropped i)); [done|]. cbn [relay_turn]. unfold cancel_task. rewrite Hi.
      cbn [mbind option_bind]. by rewrite Hw, bool_decide_eq_true_2.
    + split; [done|]. effect.
  - destruct t; try done.
    + eapply (set_closing_ends i tunnel_id); [done | | |].
      * eapply (settles_step (TaskRuns i Proceed 0)); [done|]. cbn. unfold task_turn. by rewrite Hi.
      * done.
      * effect.
    + eapply (set_closing_ends i tunnel_id); [done | | |].
      * eapply (settles_step (TaskRuns i Proceed 0)); [done|]. cbn. unfold task_turn. by rewrite Hi.
      * done.
      * effect.
    + by eapply closing_ends.
    + eexists. split; [eapply (settles_step (TaskRuns i Proceed 0)); [done|]; cbn; unfold task_turn; by rewrite Hi|].
      split; [done|]. effect.
Qed.

Lemma aborted_tasks_end s :
  (forall i, is_Some (live s !! i) -> i ∈ aborted s) ->
  exists s', settles s s' /\ live s' = ∅ /\ same_stop s s'.
Proof.
  remember (size (live s)) as n eqn:Hn. revert s Hn. induction n as [|n IH]; intros s Hn Hab.
  - exists s. split; [apply settles_refl|]. split; [by apply map_size_empty_inv | effect].
  - assert (Hne : live s <> ∅) by (intros He; by rewrite He, map_size_empty in Hn).
    destruct (map_choose _ Hne) as (i & t & Hi).
    destruct (aborted_task_ends i t s Hi) as (s1 & Hs1 & Hl1 & Hsame1); [by apply Hab|].
    destruct (IH s1) as (s' & Hs' & Hl' & Hsame').
    + rewrite Hl1, map_size_delete_Some by done. lia.
    + intros j. rewrite Hl1, lookup_delete_is_Some. intros [_ Hj]. destruct Hsame1 as (_ & _ & _ & _ & -> & _). auto.
    + exists s'. split; [by eapply settles_trans|]. split; [done|].
      unfold same_stop in *. destruct_and!. split_and!; congruence.
Qed.

(** How a call's entry may change: it stays, and it is not dropped. *)
Definition advances (m m' : gmap nat StopCall) : Prop :=
  forall k, is_Some (m !! k) -> is_Some (m' !! k) /\ (m' !! k = Some FollowerDropped -> m !! k = Some FollowerDropped).

Lemma calls_advance_trans a b c : advances a b -> advances b c -> advances a c.
Proof. intros H1 H2 k Hk. destruct (H1 k Hk) as [Hb Hd]. destruct (H2 k Hb). split; auto. Qed.

Lemma calls_advance_insert m k c : c <> FollowerDropped -> advances m (<[k := c]> m).
Proof.
  intros Hc j Hj. rewrite lookup_insert_is_Some. destruct (decide (k = j)) as [->|Hne].
  - split; [by left|]. rewrite lookup_insert_eq. congruence.
  - split; [by right|]. by rewrite lookup_insert_ne.
Qed.

Lemma calls_advance_fire m ws : advances m (foldr fire m ws).
Proof. intros j [c Hj]. rewrite fire_lookup, Hj. destruct c; split; done. Qed.

Lemma leader_finishes k hs s :
  live s = ∅ -> stops s !! k = Some (Leader hs) ->
  exists s', settles s s' /\ stopped s' = true /\ advances (stops s) (stops s').
Proof.
  revert s. induction hs as [|i hs IH]; intros s Hl Hk.
  - eexists. split; [eapply (settles_step (StopPolled k)); [done|]; cbn; unfold stop_poll; by rewrite Hk|].
    split; [done|]. cbn. eapply calls_advance_trans; [apply calls_advance_fire | by apply calls_advance_insert].
  - destruct (IH (set_stops (<[k := Leader hs]> (stops s)) (next_stop s) s)) as (s' & Hs' & Hst & Hadv);
      [done | apply lookup_insert_eq |].
    exists s'. split; [|split; [done|]].
    + eapply settles_trans; [|exact Hs']. eapply (settles_step (StopPolled k)); [done|]. cbn. unfold stop_poll.
      rewrite Hk. unfold is_finished. rewrite Hl. done.
    + eapply calls_advance_trans; [|exact Hadv]. by apply calls_advance_insert.
Qed.

Lemma followers_return (ks : list nat) s :
  exists s', settles s s' /\ advances (stops s) (stops s') /\
    forall k, k ∈ ks \/ stops s !! k <> Some (Follower true) -> stops s' !! k <> Some (Follower true).
Proof.
  induction ks as [|k ks IH].
  { exists s. split; [apply settles_refl|]. split; [done|]. intros k [Hk|]; [set_solver|done]. }
  destruct IH as (s1 & Hs1 & Hadv1 & Hdone1).
  assert (Hk : stops s1 !! k = Some (Follower true) \/ stops s1 !! k <> Some (Follower true))
    by (destruct (stops s1 !! k) as [[|[]| | |]|]; by (left + right)).
  destruct Hk as [Hk|Hno].
  - exists (set_stops (<[k := StopReturned]> (stops s1)) (next_stop s1) s1). split; [|split].
    + eapply settles_trans; [exact Hs1|]. eapply (settles_step (StopPolled k)); [done|]. cbn. unfold stop_poll. by rewrite Hk.
    + eapply calls_advance_trans; [exact Hadv1|]. by apply calls_advance_insert.
    + intros j Hj. cbn. destruct (decide (k = j)) as [->|Hne]; [by rewrite lookup_insert_eq|].
      rewrite lookup_insert_ne by done. apply Hdone1. set_solver.
  - exists s1. split; [done|]. split; [done|]. intros j Hj.
    destruct (decide (j = k)) as [->|Hne]; [done|]. apply Hdone1. set_solver.
Qed.

End Progress.

(** ** Properties *)

(** However tunnels, streams and calls of [stop] interleave, the gate counts
    at least the tunnels whose prefix is being read and never more than the
    configured ceiling; while the client accepts tunnels it counts exactly
    them, so that a tunnel whose dial succeeded is admitted if and only if
    fewer than the ceiling are reading, and no place is lost on any path. *)
Theorem prefix_admission_exact `{R : RelayPrimitives} origin ceiling s :
  0 <= ceiling -> relay_reach origin ceiling relay_new s ->
  peeking s <= fst (admission s) <= ceiling /\
  (accepting_tunnels s = true ->
     fst (admission s) = peeking s /\
     forall i id url now s', live s !! i = Some (Dialing id) -> tunnel_url origin id = Ok url ->
       task_turn origin ceiling i (TunnelDialed WsOpened) now s = Some s' ->
       (live s' !! i = Some (Peeking id) <-> peeking s < ceiling)).
Proof.
  intros Hc Hr. pose proof (relay_reach_inv _ _ _ _ Hr (relay_new_inv _ Hc)) as [Hg _ _ _ Hp].
  split; [done|]. intros Hacc.
  assert (Ho : open s) by (destruct Hp as [|? ? []|? []|[]]; [done|congruence..]).
  split; [apply Ho|]. intros i id url now s' Hi Hu H. unfold task_turn in H. rewrite Hi in H. cbn [mbind option_bind] in H.
  rewrite Hu in H. cbn [dial_home_ws] in H. unfold acquire in H. pose proof (open_count _ Ho) as Hn.
  destruct (admission s) as [n refused]. cbn in Hn. subst n.
  destruct (peeking s <? ceiling) eqn:E; simplify_eq; cbn; rewrite lookup_insert_eq.
  - split; [lia|done].
  - split; [done|lia].
Qed.

(** C23. Once any call of [stop] has returned, no tunnel or stream task is running,
    and none runs or can be spawned in any later state, whatever the relay,
    the tunnels and other callers of [stop] do. *)
Theorem stop_is_final `{R : RelayPrimitives} origin ceiling s s' k :
  0 <= ceiling -> relay_reach origin ceiling relay_new s -> stops s !! k = Some StopReturned ->
  relay_reach origin ceiling s s' ->
  live s' = ∅ /\ forall t, snd (spawn_tunnel_task t s') = false.
Proof.
  intros Hc Hr Hk Hr'. pose proof (relay_reach_inv _ _ _ _ Hr (relay_new_inv _ Hc)) as Hi.
  pose proof (returned_stopped _ _ _ (inv_phase _ _ Hi) Hk ltac:(by left)) as Hs.
  destruct (relay_reach_frame _ _ _ _ Hi Hr') as [Hst _].
  pose proof (relay_reach_inv _ _ _ _ Hr' Hi) as Hi'.
  pose proof (stopped_settled _ (inv_phase _ _ Hi') (Hst (proj2 (stop_flags _ Hs)))) as Hs'.
  split; [apply Hs'|]. intros t. unfold spawn_tunnel_task. cbn. by rewrite (proj2 (stop_flags _ Hs')).
Qed.

(** A caller that drops its [stop] future while it is the one awaiting the
    tasks leaves the client unable to stop: from then on no call of [stop],
    earlier or later, ever returns. *)
Theorem abandoned_stop_never_returns `{R : RelayPrimitives} origin ceiling s s' k :
  0 <= ceiling -> relay_reach origin ceiling relay_new s -> stops s !! k = Some LeaderDropped ->
  relay_reach origin ceiling s s' ->
  stopped s' = false /\ forall j, stops s' !! j <> Some StopReturned.
Proof.
  intros Hc Hr Hk Hr'. pose proof (relay_reach_inv _ _ _ _ Hr (relay_new_inv _ Hc)) as Hi.
  destruct (relay_reach_frame _ _ _ _ Hi Hr') as [_ Hd].
  pose proof (relay_reach_inv _ _ _ _ Hr' Hi) as Hi'.
  pose proof (dropped_orphaned _ _ (inv_phase _ _ Hi') (Hd _ Hk)) as Ho.
  split; [apply Ho|]. intros j Hj. destruct (decide (j = k)) as [->|Hne].
  - pose proof (drain_leader _ _ _ Ho). congruence.
  - by destruct (drain_others _ _ _ Ho _ _ Hj Hne) as [[? _]|].
Qed.

(** C24. A stop always completes as long as no caller abandons it: from every
    reachable state in which the leader was not dropped, the runtime dropping
    the aborted tasks, the tasks past their last await and the polls of [stop]
    lead, without any message, timer or socket outside the process, to a state
    in which every call of [stop] whose future is still held has returned. *)
Theorem stop_completes `{R : RelayPrimitives} origin ceiling s :
  0 <= ceiling -> relay_reach origin ceiling relay_new s ->
  (forall k, stops s !! k <> Some LeaderDropped) ->
  exists s', settles origin ceiling s s' /\
    forall k c, stops s !! k = Some c -> c <> FollowerDropped -> stops s' !! k = Some StopReturned.
Proof.
  intros Hc Hr Hnd. pose proof (relay_reach_inv _ _ _ _ Hr (relay_new_inv _ Hc)) as Hi.
  assert (Hst : stops s = ∅ \/ exists s1, settles origin ceiling s s1 /\ stopped s1 = true /\ advances (stops s) (stops s1)).
  { destruct (inv_phase _ _ Hi) as [Ho | k hs Hd Hhs | k Hd | Hs].
    - left. apply Ho.
    - right. destruct (aborted_tasks_end origin ceiling s (drain_aborted _ _ _ Hd)) as (s0 & Hs0 & Hl0 & Hsame).
      destruct (leader_finishes origin ceiling k hs s0 Hl0) as (s1 & Hs1 & Hst1 & Hadv).
      { destruct Hsame as (_ & _ & _ & _ & _ & -> & _). apply Hd. }
      exists s1. split; [by eapply settles_trans|]. split; [done|].
      by destruct Hsame as (_ & _ & _ & _ & _ & <- & _).
    - destruct (Hnd k). apply Hd.
    - right. exists s. split; [apply settles_refl|]. split; [apply Hs | done]. }
  destruct Hst as [He|(s1 & Hs1 & Hst1 & Hadv1)].
  { exists s. split; [apply settles_refl|]. intros k c. by rewrite He. }
  destruct (followers_return origin ceiling (fst <$> map_to_list (stops s1)) s1) as (s2 & Hs2 & Hadv2 & Hdone).
  pose proof (settles_trans _ _ _ _ _ Hs1 Hs2) as Hs12. exists s2. split; [done|].
  pose proof (relay_reach_inv _ _ _ _ (settles_reach _ _ _ _ Hs12) Hi) as Hi2.
  pose proof (relay_reach_inv _ _ _ _ (settles_reach _ _ _ _ Hs1) Hi) as Hi1.
  destruct (relay_reach_frame _ _ _ _ Hi1 (settles_reach _ _ _ _ Hs2)) as [Hst2 _].
  pose proof (stopped_settled _ (inv_phase _ _ Hi2) (Hst2 Hst1)) as Hset.
  intros k c Hk Hnf. destruct (calls_advance_trans _ _ _ Hadv1 Hadv2 k ltac:(by eexists)) as [[c' Hc'] Hfd].
  destruct (stop_calls _ Hset _ _ Hc') as [-> |[-> | ->]]; [|done|].
  - exfalso. refine (Hdone k _ Hc'). left. destruct (Hadv1 k ltac:(by eexists)) as [[c1 Hc1] _].
    apply list_elem_of_fmap. exists (k, c1). split; [done|]. by apply elem_of_map_to_list.
  - rewrite Hfd in Hk by done. by simplify_eq.
Qed.

(** ** Prefix replay *)

(** What reads of a [PrefixIo] have still to deliver. *)
Definition io_bytes (io : PrefixIo) : list byte := zdrop (position io) (prefix io) ++ concat (inner io).
Definition io_wf (io : PrefixIo) : Prop :=
  0 <= position io <= len (prefix io) /\ Forall (fun c => c <> []) (inner io).

Fixpoint read_all (sizes : list Z) (io : PrefixIo) : list byte * PrefixIo :=
  match sizes with
  | [] => ([], io)
  | n :: sizes =>
      let '(bytes, io) := prefix_poll_read n io in
      let '(rest, io) := read_all sizes io in (bytes ++ rest, io)
  end.

Lemma inner_read_spec n script bytes rest :
  0 < n -> Forall (fun c => c <> []) script -> inner_read n script = (bytes, rest) ->
  bytes ++ concat rest = concat script /\ Forall (fun c => c <> []) rest /\ len bytes <= n /\
  (bytes = [] -> script = []).
Proof.
  intros Hn Hs H. destruct script as [|c script]; cbn in H; simplify_eq.
  { split_and!; [done | constructor | cbn; lia | done]. }
  apply Forall_cons_1 in Hs as [Hc Hs]. destruct (len c <=? n) eqn:E; simplify_eq.
  - split_and!; [done | done | lia | done].
  - split_and!.
    + cbn. rewrite app_assoc, take_drop. done.
    + constructor; [|done]. intros Hd. apply (f_equal length) in Hd. rewrite length_drop in Hd. cbn in Hd. lia.
    + rewrite length_take. lia.
    + intros Ht. apply (f_equal length) in Ht. rewrite length_take in Ht. cbn in Ht. lia.
Qed.

Lemma prefix_poll_read_spec n io bytes io' :
  0 < n -> io_wf io -> prefix_poll_read n io = (bytes, io') ->
  bytes ++ io_bytes io' = io_bytes io /\ io_wf io' /\ prefix io' = prefix io /\ len bytes <= n /\ (bytes = [] -> io_bytes io = []).
Proof.
  intros Hn [Hp Hi] H. unfold prefix_poll_read in H. unfold io_bytes, io_wf.
  destruct (position io <? len (prefix io)) eqn:E; simplify_eq; cbn [position prefix inner].
  - set (c := Z.min n (len (prefix io) - position io)).
    assert (Hc : 0 < c <= len (prefix io) - position io) by (unfold c; lia).
    assert (Hl : len (slice (prefix io) (position io) (position io + c)) = c)
      by (rewrite len_slice; lia).
    split_and!; try done; try lia.
    + rewrite app_assoc. f_equal. unfold slice.
      replace (Z.to_nat (position io + c)) with (Z.to_nat (position io) + Z.to_nat c)%nat by lia.
      rewrite <- drop_drop. replace (position io + c - position io) with c by lia. apply take_drop.
    + intros Hs. rewrite Hs in Hl. cbn in Hl. lia.
  - destruct (inner_read n (inner io)) as [b rest] eqn:Hr. simplify_eq. cbn [position prefix inner].
    destruct (inner_read_spec _ _ _ _ Hn Hi Hr) as (Hb & Hf & Hlen & He).
    assert (Hd : zdrop (position io) (prefix io) = []) by (apply drop_ge; lia).
    rewrite Hd. split_and!; try done; try lia. intros Hx. by rewrite (He Hx).
Qed.

Lemma read_all_spec sizes io bytes io' :
  Forall (fun n => 0 < n) sizes -> io_wf io -> read_all sizes io = (bytes, io') -> bytes ++ io_bytes io' = io_bytes io.
Proof.
  revert io bytes. induction sizes as [|n sizes IH]; intros io bytes Hs Hw H; cbn in H; [by simplify_eq|].
  apply Forall_cons_1 in Hs as [Hn Hs]. destruct (prefix_poll_read n io) as [b io1] eqn:Hr.
  destruct (read_all sizes io1) as [r io2] eqn:Ha. simplify_eq.
  destruct (prefix_poll_read_spec _ _ _ _ Hn Hw Hr) as (Hb & Hw' & _). rewrite <- app_assoc, <- Hb.
  f_equal. by eapply IH.
Qed.

Lemma read_exact_spec fuel n io r io' :
  0 <= n <= Z.of_nat fuel -> io_wf io -> read_exact fuel n io = (r, io') ->
  io_wf io' /\ prefix io' = prefix io /\
  match r with
  | Some p => len p = n /\ p ++ io_bytes io' = io_bytes io
  | None => len (io_bytes io) < n
  end.
Proof.
  revert n io r. induction fuel as [|fuel IH]; intros n io r Hn Hw H; cbn [read_exact] in H.
  { destruct (n <=? 0) eqn:E; [|lia]. simplify_eq. split_and!; [done | done | cbn; lia | done]. }
  destruct (n <=? 0) eqn:E; [simplify_eq; split_and!; [done | done | cbn; lia | done]|].
  destruct (prefix_poll_read n io) as [b io1] eqn:Hr.
  destruct (prefix_poll_read_spec n io b io1 ltac:(lia) Hw Hr) as (Hb & Hw' & Hpre & Hl & He).
  case_bool_decide as Hb0.
  { simplify_eq. split_and!; [done | done |]. rewrite He by done. cbn. lia. }
  destruct (read_exact fuel (n - len b) io1) as [rest io2] eqn:Hx. simplify_eq.
  assert (0 < len b) by (destruct b; [done | cbn; lia]).
  assert (Hn' : 0 <= n - len b <= Z.of_nat fuel) by lia.
  destruct (IH _ _ _ Hn' Hw' Hx) as (Hw2 & Hpre2 & Hr2). split_and!; [done | congruence |]. rewrite <- Hb.
  destruct rest as [p|]; cbn [fmap option_fmap option_map].
  - destruct Hr2 as [Hp Hq]. rewrite length_app, <- app_assoc, Hq. split; [lia|done].
  - rewrite length_app. lia.
Qed.

(** The prefix guard decides on the first four bytes of the tunnel and
    consumes none of them: with fewer than four bytes it fails, it rejects a
    first byte other than a TLS handshake record, and what it lets through
    reads back, for every sequence of buffer sizes, as exactly the bytes of
    the tunnel from the first one on, however they were cut into reads. *)
Theorem prefix_guard_replays script sizes :
  Forall (fun c => c <> []) script -> Forall (fun n => 0 < n) sizes ->
  match guard_tls_prefix true (prefix_new script) with
  | Panic => False
  | Err _ => len (concat script) < 4
  | Ok UnknownPrefix => 4 <= len (concat script) /\ exists b, head (concat script) = Some b /\ u8 b <> 0x16
  | Ok (Tls io) =>
      4 <= len (concat script) /\ (exists b, head (concat script) = Some b /\ u8 b = 0x16) /\
      let '(bytes, io) := read_all sizes io in bytes ++ io_bytes io = concat script
  end.
Proof.
  intros Hs Hn. unfold guard_tls_prefix. destruct (read_exact 4 4 (prefix_new script)) as [r io] eqn:Hr.
  assert (Hw : io_wf (prefix_new script)) by (split; [cbn; lia | done]).
  destruct (read_exact_spec 4 4 _ _ _ ltac:(lia) Hw Hr) as ([_ Hi] & Hpre & Hp).
  change (io_bytes (prefix_new script)) with (concat script) in Hp.
  destruct r as [[|b p]|]; [destruct Hp as [Hp _]; cbn in Hp; lia | | done].
  destruct Hp as [Hl Hp].
  assert (H4 : 4 <= len (concat script)) by (rewrite <- Hp, length_app; lia).
  assert (Hh : head (concat script) = Some b) by (by rewrite <- Hp).
  destruct (u8 b =? 0x16) eqn:E; [|split; [done|]; exists b; split; [done|lia]].
  split_and!; [done | exists b; split; [done|lia] |].
  destruct (read_all sizes (replay (b :: p) io)) as [bytes io2] eqn:Ha.
  rewrite (read_all_spec sizes (replay (b :: p) io) bytes io2 Hn); [| |done].
  - unfold io_bytes in *. rewrite Hpre in Hp. cbn [prefix_new prefix replay position inner] in *. rewrite drop_nil in Hp. by rewrite <- Hp.
  - split; [cbn; lia | done].
Qed.

Lemma prefix_guard_replays_witness :
  let script := [[Byte.x16]; [Byte.x03; Byte.x01]; [Byte.x00; Byte.x01; Byte.x02]] in
  match guard_tls_prefix true (prefix_new script) with
  | Panic => False
  | Err _ => len (concat script) < 4
  | Ok UnknownPrefix => 4 <= len (concat script) /\ exists b, head (concat script) = Some b /\ u8 b <> 0x16
  | Ok (Tls io) =>
      4 <= len (concat script) /\ (exists b, head (concat script) = Some b /\ u8 b = 0x16) /\
      let '(bytes, io) := read_all [3; 2; 1] io in bytes ++ io_bytes io = concat script
  end.
Proof.
  intros script. refine (prefix_guard_replays script [3; 2; 1] _ _).
  - repeat constructor; done.
  - repeat constructor; lia.
Defined.

(** ** Reconnect bases *)

(** The base after a sequence of attempts, each with the time it lasted and the
    jitter sampled at its end. *)
Definition reconnect_step (b : option Z) (a : Z * spec_float) : option Z :=
  b ← b; fst <$> schedule_reconnect (base_after_connection b (fst a)) (snd a).
Definition unit_jitter (j : spec_float) : bool := is_finite j && SFleb f64_zero j && SFleb j f64_one.

(** Attempts that each last less than a minute double the base from one second
    up to a minute, whatever the jitter. *)
Lemma reconnect_bases attempts :
  Forall (fun a => 0 <= fst a < minute /\ unit_jitter (snd a) = true) attempts -> attempts <> [] ->
  foldl reconnect_step (Some 0) attempts = Some (Z.min minute (2 ^ len attempts * from_secs 1)).
Proof.
  induction attempts as [|[e j] l IH] using rev_ind; [done|].
  intros [Hl Ha]%list.Forall_app _. apply Forall_cons_1 in Ha as [[He Hj] _]. cbn [fst snd] in *.
  rewrite foldl_app. cbn [foldl].
  assert (Hstep : forall b, reconnect_step (Some b) (e, j) = Some (Z.min (clamp b (from_secs 1) minute * 2) minute)).
  { intros b. unfold reconnect_step, base_after_connection, schedule_reconnect, unit_jitter in *. cbn [mbind option_bind fst snd].
    destruct (minute <=? e) eqn:E; [lia|].
    apply andb_true_iff in Hj as [[Hf Hz]%andb_true_iff Ho]. by rewrite Hf, Hz, Ho. }
  rewrite length_app. cbn [length]. rewrite Nat2Z.inj_add. change (Z.of_nat 1) with 1.
  rewrite Z.pow_add_r by lia. change (2 ^ 1) with 2.
  destruct l as [|a l]; [cbn [foldl]; by rewrite Hstep|]. rewrite IH by done. rewrite Hstep. f_equal.
  assert (2 <= 2 ^ len (a :: l)).
  { change 2 with (2 ^ 1) at 1. apply Z.pow_le_mono_r; cbn; lia. }
  unfold clamp, minute, from_secs. lia.
Qed.

Example reconnect_delays :
  schedule_reconnect 0 f64_zero = Some (from_secs 2, 750000000) /\
  schedule_reconnect (from_secs 2) f64_half = Some (from_secs 4, 2000000000) /\
  schedule_reconnect (from_secs 60) f64_one = Some (from_secs 60, 75000000000) /\
  schedule_reconnect 0 S754_nan = None /\ schedule_reconnect 0 (f64_add f64_one f64_half) = None.
Proof. by vm_compute. Qed.

(** ** The listen generation *)

Definition is_connected (e : RelayEvent) : bool := match e with EConnected => true | _ => false end.
Definition connections (s : HomeRelay) : Z := len (filter (fun e => is_connected e = true) (emitted s)).
Definition generation_ok (s : HomeRelay) : Prop :=
  listen_generation (health s) = Z.min u64_max (connections s) /\
  forall e, listen s = Emitting e -> is_connected e = false.

Section Generation.
Context {R : RelayPrimitives}.
Variable origin : str.
Variable ceiling : Z.

(** A step that emits no [Connected] and leaves the generation. *)
Definition quiet (s s' : HomeRelay) : Prop :=
  listen_generation (health s') = listen_generation (health s) /\
  exists es, emitted s' = emitted s ++ es /\ Forall (fun e => is_connected e = false) es.

Lemma quiet_refl s s' : health s' = health s -> emitted s' = emitted s -> quiet s s'.
Proof. intros Hh He. split; [by rewrite Hh|]. exists []. by rewrite app_nil_r. Qed.

Lemma quiet_trans a b c : quiet a b -> quiet b c -> quiet a c.
Proof.
  intros [H1 (e1 & E1 & F1)] [H2 (e2 & E2 & F2)]. split; [congruence|].
  exists (e1 ++ e2). rewrite E2, E1, app_assoc. split; [done|]. by apply list.Forall_app.
Qed.

Lemma quiet_emit s e : is_connected e = false -> quiet s (emit e s).
Proof. intros He. split; [done|]. exists [e]. split; [done|]. by constructor. Qed.

Lemma quiet_update s f :
  (forall h, listen_generation (f h) = listen_generation h) -> quiet s (update_health f s).
Proof. intros Hf. split; [apply Hf|]. eexists [_]. split; [done|]. by constructor. Qed.

Lemma quiet_connections s s' : quiet s s' -> connections s' = connections s.
Proof.
  intros [_ (es & E & F)]. unfold connections. rewrite E, list.filter_app, length_app.
  assert (filter (fun e => is_connected e = true) es = []) as ->.
  { clear E. induction F as [|e es Hf F IH]; [done|]. rewrite list.filter_cons, decide_False by congruence. done. }
  cbn. lia.
Qed.

Ltac quietly :=
  repeat first
    [ apply quiet_refl; reflexivity
    | match goal with
      | |- quiet _ (set_task _ _ ?s) => apply (quiet_trans _ s); [|apply quiet_refl; reflexivity]
      | |- quiet _ (finish_task _ ?s) => apply (quiet_trans _ s); [|apply quiet_refl; reflexivity]
      | |- quiet _ (set_listen _ _ ?s) => apply (quiet_trans _ s); [|apply quiet_refl; reflexivity]
      | |- quiet _ (emit _ ?s) => apply (quiet_trans _ s); [|by apply quiet_emit]
      | |- quiet _ (update_health _ ?s) => apply (quiet_trans _ s); [|by apply quiet_update]
      end ].

Lemma quiet_task_turn i x now s s' :
  task_turn origin ceiling i x now s = Some s' -> quiet s s' /\ listen s' = listen s.
Proof.
  intros H. unfold task_turn in H. destruct (live s !! i) as [t|]; [cbn [mbind option_bind] in H | done].
  destruct t, x; try done;
    unfold acquire, release_place, spawn_tunnel_task, record_saturation, record_success, record_tunnel_failure, record_failure in H;
    repeat case_match; simplify_eq; split; try done; quietly.
Qed.

Lemma attempt_ended_ok e elapsed jitter s :
  quiet s (attempt_ended e elapsed jitter s) /\
  forall ev, listen (attempt_ended e elapsed jitter s) <> Emitting ev.
Proof. unfold attempt_ended, record_reconnecting. split; [|intros ev]; repeat case_match; try done; quietly. Qed.

Lemma generation_step s s' :
  quiet s s' -> (forall e, listen s' = Emitting e -> is_connected e = false) -> generation_ok s -> generation_ok s'.
Proof. intros Hq Hl [Hg _]. split; [|done]. rewrite (quiet_connections _ _ Hq). destruct Hq as [-> _]. done. Qed.

Lemma connected_snoc (l : list RelayEvent) e :
  len (filter (fun e => is_connected e = true) (l ++ [e])) =
  len (filter (fun e => is_connected e = true) l) + Z.b2z (is_connected e).
Proof.
  rewrite list.filter_app, length_app, list.filter_cons.
  destruct (is_connected e); [rewrite decide_True by done | rewrite decide_False by done]; cbn; lia.
Qed.

Lemma spawned_quiet t s s' b : spawn_tunnel_task t s = (s', b) -> quiet s s'.
Proof. unfold spawn_tunnel_task. repeat case_match; intros; simplify_eq; quietly. Qed.

Lemma generation_turn x s s' : relay_turn origin ceiling x s = Some s' -> generation_ok s -> generation_ok s'.
Proof.
  intros H Hg. destruct x; cbn [relay_turn] in H.
  - destruct (quiet_task_turn _ _ _ _ _ H) as [Hq Hl]. eapply generation_step; eauto. rewrite Hl. apply Hg.
  - unfold cancel_task in H. destruct (live s !! i); [cbn [mbind option_bind] in H | done]. case_match; simplify_eq. apply Hg.
  - unfold listen_turn in H.
    assert (Hend : forall e s0, quiet s s0 -> generation_ok (attempt_ended e elapsed jitter s0)).
    { intros e s0 Hq. destruct (attempt_ended_ok e elapsed jitter s0) as [Hq' Hl].
      eapply (generation_step s); [by eapply quiet_trans | | done]. intros ev Hev. by destruct (Hl ev). }
    destruct (listen s) eqn:El, x; try done; repeat case_match; simplify_eq; try done;
      try (apply Hend; quietly; fail);
      try (apply (generation_step s); [quietly; fail | done | done]).
    + destruct Hg as [Hg _]. split; [|done]. unfold connections in *.
      change (emitted _) with ((emitted s ++ [EHealth (health (record_connected s))]) ++ [EConnected]).
      change (listen_generation _) with (Z.min u64_max (listen_generation (health s) + 1)).
      rewrite !connected_snoc, Hg. cbn [is_connected Z.b2z]. lia.
    + apply (generation_step s); [quietly | cbn; rewrite El; done | done].
    + match goal with H : spawn_tunnel_task _ _ = _ |- _ => pose proof (spawned_quiet _ _ _ _ H) end.
      apply (generation_step s); [by quietly | by intros e [= <-] | done].
    + match goal with H : spawn_tunnel_task _ _ = _ |- _ => pose proof (spawned_quiet _ _ _ _ H) end.
      apply (generation_step s); [by quietly | by intros e [= <-] | done].
    + apply (generation_step s); [|done|done]. pose proof (proj2 Hg _ El). quietly.
  - simplify_eq. split; [apply Hg | done].
  - simplify_eq. unfold stop_call. repeat case_match; apply Hg.
  - unfold stop_poll in H. repeat case_match; simplify_eq; try apply Hg.
    apply (generation_step s); [quietly | apply Hg | done].
  - unfold stop_drop in H. repeat case_match; simplify_eq; apply Hg.
Qed.

End Generation.

(** The reported listen generation is the number of listen connections that
    were established (saturating at the largest [u64]); an attempt whose dial
    fails does not count, although the accessor is documented as the number of
    started attempts. *)
Theorem generation_counts_connections `{R : RelayPrimitives} origin ceiling s :
  relay_reach origin ceiling relay_new s ->
  listen_generation (health s) = Z.min u64_max (connections s).
Proof.
  intros [xs H]. enough (generation_ok s) as [? _] by done.
  assert (Hn : generation_ok relay_new) by (split; [reflexivity|]; done). revert H Hn. generalize relay_new.
  induction xs as [|x xs IH]; intros s0 H Hn; cbn [relay_run] in H; [by simplify_eq|].
  destruct (relay_turn origin ceiling x s0) as [s1|] eqn:Ht; [cbn [mbind option_bind] in H | done].
  eauto using generation_turn.
Qed.

(** ** Witnesses *)

(** The relay offers two tunnels through one listen connection. *)
#[local] Instance sample_home : RelayPrimitives := {|
  json_value b := Some (JObject [(lit "type", JString (lit "incoming"));
                                 (lit "tunnel_id", JString (if bool_decide (b = blit "1") then lit "one" else lit "two"))]);
  json_lifetimes _ := None;
  url_safe_decode _ := None;
  rfc3339 _ := None;
  hkdf_sha256 _ _ _ _ := [];
  P256 := unit;
  spki_from_der _ := None;
  p256_from_spki _ := Err true;
  to_public_key_der _ := []
|}.
Definition ex_origin : str := lit "https://relay".
Definition listen_goes : RelayInput := ListenRuns ListenGoes 0 f64_half.
Definition offered (t : string) : list RelayInput :=
  [ListenRuns (ListenGot (MText (lit t))) 0 f64_half; listen_goes; listen_goes].
Definition ex_two_tunnels : list RelayInput :=
  [listen_goes; ListenRuns (ListenDialed WsFailed) 0 f64_half; listen_goes; ListenRuns (ListenDialed WsOpened) 0 f64_half]
  ++ offered "1" ++ offered "2" ++ [TaskRuns 0 (TunnelDialed WsOpened) 7].
Definition ex_at (xs : list RelayInput) : HomeRelay := default relay_new (relay_run ex_origin 1 xs relay_new).

Lemma ex_reach xs : bool_decide (is_Some (relay_run ex_origin 1 xs relay_new)) = true ->
  relay_reach ex_origin 1 relay_new (ex_at xs).
Proof. rewrite bool_decide_eq_true. intros [s Hs]. exists xs. unfold ex_at. by rewrite Hs. Qed.

Lemma ex_step xs ys : bool_decide (is_Some (relay_run ex_origin 1 (xs ++ ys) relay_new)) = true ->
  relay_reach ex_origin 1 (ex_at xs) (ex_at (xs ++ ys)).
Proof.
  rewrite bool_decide_eq_true. intros [s Hs]. exists ys. unfold ex_at. rewrite Hs. rewrite relay_run_app in Hs.
  destruct (relay_run ex_origin 1 xs relay_new); [exact Hs | done].
Qed.

Lemma prefix_admission_exact_witness :
  peeking (ex_at ex_two_tunnels) <= fst (admission (ex_at ex_two_tunnels)) <= 1 /\
  fst (admission (ex_at ex_two_tunnels)) = peeking (ex_at ex_two_tunnels).
Proof.
  assert (Hr : relay_reach ex_origin 1 relay_new (ex_at ex_two_tunnels)) by (apply ex_reach; by vm_compute).
  destruct (prefix_admission_exact ex_origin 1 _ ltac:(lia) Hr) as [H1 H2]. split; [done|].
  apply H2. by vm_compute.
Defined.

(** Two callers stop the client with two tunnels running; the first call awaits
    both tasks. *)
Definition ex_stopping : list RelayInput := ex_two_tunnels ++ [StopCalled; StopCalled].
Definition ex_stopped : list RelayInput :=
  ex_stopping ++ [TaskDropped 1; TaskDropped 0; StopPolled 0; StopPolled 0; StopPolled 0; StopPolled 1].

Lemma stop_is_final_witness :
  live (ex_at (ex_stopped ++ [StopCalled])) = ∅ /\
  forall t, snd (spawn_tunnel_task t (ex_at (ex_stopped ++ [StopCalled]))) = false.
Proof.
  apply (stop_is_final ex_origin 1 (ex_at ex_stopped) _ 1); [lia | apply ex_reach; by vm_compute | by vm_compute |].
  apply ex_step. by vm_compute.
Defined.

Lemma stop_completes_witness :
  exists s', settles ex_origin 1 (ex_at ex_stopping) s' /\
    forall k c, stops (ex_at ex_stopping) !! k = Some c -> c <> FollowerDropped -> stops s' !! k = Some StopReturned.
Proof.
  apply (stop_completes ex_origin 1 (ex_at ex_stopping)); [lia | apply ex_reach; by vm_compute |].
  intros k Hk. assert (Hd : forallb (fun e : nat * StopCall => match e.2 with LeaderDropped => false | _ => true end)
    (map_to_list (stops (ex_at ex_stopping))) = true) by by vm_compute.
  rewrite forallb_forall in Hd. apply elem_of_map_to_list, list_elem_of_In, Hd in Hk. done.
Defined.

Lemma abandoned_stop_never_returns_witness :
  stopped (ex_at ((ex_stopping ++ [StopDropped 0]) ++ [TaskDropped 1; TaskDropped 0; StopCalled])) = false /\
  forall j, stops (ex_at ((ex_stopping ++ [StopDropped 0]) ++ [TaskDropped 1; TaskDropped 0; StopCalled])) !! j
            <> Some StopReturned.
Proof.
  apply (abandoned_stop_never_returns ex_origin 1 (ex_at (ex_stopping ++ [StopDropped 0])) _ 0);
    [lia | apply ex_reach; by vm_compute | by vm_compute |].
  apply ex_step. by vm_compute.
Defined.

Lemma generation_counts_connections_witness :
  listen_generation (health (ex_at ex_two_tunnels)) = Z.min u64_max (connections (ex_at ex_two_tunnels)).
Proof. apply (generation_counts_connections ex_origin 1). apply ex_reach. by vm_compute. Defined.

(** Two attempts were started, one connection was established. *)
Example ex_generation : listen_generation (health (ex_at ex_two_tunnels)) = 1.
Proof. by vm_compute. Qed.
