(* ===== verification/Sni.v ===== *)
(** * TLS routing metadata ([crates/spl-bridge/src/sni.rs])

    Bounded extraction of the SNI host name and the [acme-tls/1] ALPN offer from
    a peeked TLS ClientHello, reassembled across TLS records.

    Loops carry fuel one larger than the bytes they walk; running out of it is
    [Panic], so the theorem that no input panics also says the fuel is enough. *)

From S2P Require Import Prelude Text.

Definition INITIAL_PEEK_BYTES : Z := 4 * 1024.
Definition TLS_HANDSHAKE : Z := 0x16.
Definition CLIENT_HELLO : Z := 0x01.
Definition SERVER_NAME_EXTENSION : Z := 0.
Definition ALPN_EXTENSION : Z := 16.
Definition HOST_NAME : Z := 0.

Record ClientHelloRouting := mkRouting { hostname : str; acme_tls_alpn : bool }.

Record ClientHelloLimits := mkLimits {
  handshake_message_bytes : Z;
  record_payload_bytes : Z;
  limit_record_count : Z;
  encoded_wire_bytes : Z
}.

Definition CLIENT_HELLO_LIMITS : ClientHelloLimits := mkLimits 32768 16384 32768 196608.

Inductive SniError :=
| Timeout
| MalformedClientHello
| NoServerName
| Io.

#[export] Instance SniError_eq_dec : EqDecision SniError.
Proof. solve_decision. Defined.
#[export] Instance ClientHelloRouting_eq_dec : EqDecision ClientHelloRouting.
Proof. solve_decision. Defined.

Inductive ParseOutcome :=
| Complete (r : ClientHelloRouting)
| IncompleteHello.

#[export] Instance ParseOutcome_eq_dec : EqDecision ParseOutcome.
Proof. solve_decision. Defined.

(** ** Cursor *)

Record Cursor := mkCursor { cbytes : list byte; position : Z }.

(** [Cursor::new] and [is_empty] *)
Definition cursor_new (b : list byte) : Cursor := mkCursor b 0.
Definition cursor_is_empty (c : Cursor) : bool := position c =? len (cbytes c).

(** A method of [Cursor] that may fail: the cursor is threaded. *)
Definition reader (A : Type) : Type := Cursor -> res SniError (A * Cursor).
#[export] Instance reader_ret : MRet reader := fun _ a c => Ok (a, c).
#[export] Instance reader_bind : MBind reader := fun _ _ f m c =>
  match m c with Ok (a, c') => f a c' | Err e => Err e | Panic => Panic end.

(** [Cursor::take] *)
Definition ctake (n : Z) : reader (list byte) := fun c =>
  match checked_add 64 (position c) n with
  | None => Err MalformedClientHello
  | Some end_ =>
      match get_range (cbytes c) (position c) end_ with
      | None => Err MalformedClientHello
      | Some b => Ok (b, mkCursor (cbytes c) end_)
      end
  end.

(** [Cursor::skip], [u8] and [u16] *)
Definition cskip (n : Z) : reader unit := ctake n ≫= fun _ => mret tt.
Definition cu8 : reader Z := fun c =>
  match ctake 1 c with
  | Ok (b :: _, c') => Ok (u8 b, c')
  | Ok ([], _) => Err MalformedClientHello
  | Err e => Err e
  | Panic => Panic
  end.
Definition cu16 : reader Z := fun c =>
  match ctake 2 c with
  | Ok ([a; b], c') => Ok (be_val [a; b], c')
  | Ok (_, _) => Err MalformedClientHello
  | Err e => Err e
  | Panic => Panic
  end.

(** The field sequences the parsers read: a 16-bit length and that many bytes,
    an entry of a server name list, an ALPN protocol, an extension, and the
    fixed part of a ClientHello down to its extension block. *)
Definition read_list : reader (list byte) := n ← cu16; ctake n.
Definition read_name : reader (Z * list byte) := t ← cu8; n ← cu16; name ← ctake n; mret (t, name).
Definition read_proto : reader (list byte) := n ← cu8; ctake n.
Definition read_extension : reader (Z * list byte) :=
  ty ← cu16; n ← cu16; data ← ctake n; mret (ty, data).
Definition read_hello : reader (list byte) :=
  _ ← cskip 2; _ ← cskip 32;
  session ← cu8; _ ← cskip session;
  ciphers ← cu16; _ ← cskip ciphers;
  compression ← cu8; _ ← cskip compression;
  exts ← cu16; ctake exts.

(** ** Extensions *)

(** The [while !names.is_empty()] loop of [parse_server_name]; each round takes
    at least three bytes. *)
Fixpoint server_name_loop (fuel : nat) (found : option str) (c : Cursor) : res SniError (option str) :=
  match fuel with
  | O => Panic
  | S fuel =>
      if cursor_is_empty c then Ok found
      else
        match read_name c with
        | Ok ((t, name), c') =>
            if (t =? HOST_NAME) && bool_decide (found = None) then
              if len name =? 0 then Err MalformedClientHello
              else match from_utf8 name with
                   | None => Err MalformedClientHello
                   | Some h => server_name_loop fuel (Some h) c'
                   end
            else server_name_loop fuel found c'
        | Err e => Err e
        | Panic => Panic
        end
  end.

(** [parse_server_name] *)
Definition parse_server_name (data : list byte) : res SniError str :=
  match read_list (cursor_new data) with
  | Ok (names, c) =>
      if negb (cursor_is_empty c) then Err MalformedClientHello
      else
        found ← server_name_loop (S (length names)) None (cursor_new names);
        ok_or found NoServerName
  | Err e => Err e
  | Panic => Panic
  end.

Definition ACME_TLS_1 : list byte := blit "acme-tls/1".

(** The [while !protocols.is_empty()] loop of [parse_alpn_for_acme]. *)
Fixpoint alpn_loop (fuel : nat) (has_acme : bool) (c : Cursor) : res SniError bool :=
  match fuel with
  | O => Panic
  | S fuel =>
      if cursor_is_empty c then Ok has_acme
      else
        match read_proto c with
        | Ok (proto, c') => alpn_loop fuel (has_acme || bool_decide (proto = ACME_TLS_1)) c'
        | Err e => Err e
        | Panic => Panic
        end
  end.

(** [parse_alpn_for_acme] *)
Definition parse_alpn_for_acme (data : list byte) : res SniError bool :=
  match read_list (cursor_new data) with
  | Ok (protocols, c) =>
      if negb (cursor_is_empty c) then Err MalformedClientHello
      else alpn_loop (S (length protocols)) false (cursor_new protocols)
  | Err e => Err e
  | Panic => Panic
  end.

(** The loop variables over the extensions. *)
Record ext_state := mkExt { ext_host : option str; seen_sni : bool; seen_alpn : bool; ext_acme : bool }.

(** One extension. *)
Definition extension_step (st : ext_state) (ty : Z) (data : list byte) : res SniError ext_state :=
  if ty =? SERVER_NAME_EXTENSION then
    if seen_sni st then Err MalformedClientHello
    else h ← parse_server_name data; Ok (mkExt (Some h) true (seen_alpn st) (ext_acme st))
  else if ty =? ALPN_EXTENSION then
    if seen_alpn st then Err MalformedClientHello
    else a ← parse_alpn_for_acme data; Ok (mkExt (ext_host st) (seen_sni st) true a)
  else Ok st.

(** The [while !extensions.is_empty()] loop; each round takes at least four bytes. *)
Fixpoint extensions_loop (fuel : nat) (st : ext_state) (c : Cursor) : res SniError ext_state :=
  match fuel with
  | O => Panic
  | S fuel =>
      if cursor_is_empty c then Ok st
      else
        match read_extension c with
        | Ok ((ty, data), c') => st' ← extension_step st ty data; extensions_loop fuel st' c'
        | Err e => Err e
        | Panic => Panic
        end
  end.

(** [parse_client_hello_body] *)
Definition parse_client_hello_body (body : list byte) : res SniError ClientHelloRouting :=
  match read_hello (cursor_new body) with
  | Ok (extensions, c) =>
      if negb (cursor_is_empty c) then Err MalformedClientHello
      else
        st ← extensions_loop (S (length extensions)) (mkExt None false false false) (cursor_new extensions);
        h ← ok_or (ext_host st) NoServerName;
        Ok (mkRouting h (ext_acme st))
  | Err e => Err e
  | Panic => Panic
  end.

(** ** Records *)

(** What the byte loop over one record's payload leaves. *)
Inductive payload_end :=
| More (handshake : list byte) (handshake_length : option Z)
| Finished (handshake : list byte).

(** [if handshake.len() == 4]: the message length its header announces. *)
Definition announced_length (lim : ClientHelloLimits) (hs : list byte) (hl : option Z)
  : res SniError (option Z) :=
  if len hs =? 4 then
    match hs with
    | [_; h1; h2; h3] =>
        let body_length := Z.lor (Z.lor (Z.shiftl (u8 h1) 16) (Z.shiftl (u8 h2) 8)) (u8 h3) in
        match checked_add 64 4 body_length with
        | None => Err MalformedClientHello
        | Some total =>
            if total >? handshake_message_bytes lim then Err MalformedClientHello
            else Ok (Some total)
        end
    | _ => Panic
    end
  else Ok hl.

(** The [for (index, byte)] loop; [index + 1 != payload.len()] is that bytes remain. *)
Fixpoint payload_loop (lim : ClientHelloLimits) (payload handshake : list byte) (hl : option Z)
  : res SniError payload_end :=
  match payload with
  | [] => Ok (More handshake hl)
  | b :: rest =>
      if len handshake =? handshake_message_bytes lim then Err MalformedClientHello
      else
        let hs := handshake ++ [b] in
        if (len hs =? 1) && negb (u8 b =? CLIENT_HELLO) then Err MalformedClientHello
        else
          hl ← announced_length lim hs hl;
          if bool_decide (hl = Some (len hs)) then
            if negb (len rest =? 0) then Err MalformedClientHello else Ok (Finished hs)
          else payload_loop lim rest hs hl
  end.

(** The record loop of [parse_client_hello_with_limits]; a record takes at least
    five bytes. *)
Fixpoint record_loop (fuel : nat) (lim : ClientHelloLimits) (input : list byte)
  (cursor count wire : Z) (handshake : list byte) (hl : option Z) : res SniError ParseOutcome :=
  match fuel with
  | O => Panic
  | S fuel =>
      if cursor =? len input then Ok IncompleteHello
      else if count =? limit_record_count lim then Err MalformedClientHello
      else
        match get_range input cursor (cursor + 5) with
        | Some [r0; _; _; r3; r4] =>
            if negb (u8 r0 =? TLS_HANDSHAKE) then Err MalformedClientHello
            else
              let n := be_val [r3; r4] in
              if n >? record_payload_bytes lim then Err MalformedClientHello
              else
                match checked_add 64 5 n with
                | None => Err MalformedClientHello
                | Some enc =>
                    match checked_add 64 wire enc with
                    | None => Err MalformedClientHello
                    | Some wire' =>
                        if wire' >? encoded_wire_bytes lim then Err MalformedClientHello
                        else
                          match checked_add 64 cursor enc with
                          | None => Err MalformedClientHello
                          | Some record_end =>
                              match get_range input (cursor + 5) record_end with
                              | None => Ok IncompleteHello
                              | Some payload =>
                                  e ← payload_loop lim payload handshake hl;
                                  match e with
                                  | Finished hs => Complete <$> parse_client_hello_body (drop 4 hs)
                                  | More hs hl' =>
                                      record_loop fuel lim input record_end (count + 1) wire' hs hl'
                                  end
                              end
                          end
                    end
                end
        | _ => Ok IncompleteHello
        end
  end.

(** [parse_client_hello_with_limits] *)
Definition parse_client_hello_with_limits (input : list byte) (lim : ClientHelloLimits)
  : res SniError ParseOutcome :=
  record_loop (S (length input)) lim input 0 0 0 [] None.

(** [parse_client_hello] *)
Definition parse_client_hello (input : list byte) : res SniError ParseOutcome :=
  parse_client_hello_with_limits input CLIENT_HELLO_LIMITS.

(** [extract_sni_inner].  [stream] is what the client will send and [arrived]
    the number of its bytes the kernel holds at each successive peek; a peek
    copies at most [capacity] of them.  [None] is a loop still waiting when the
    listed peeks are used up, which [extract_sni]'s deadline turns into
    [Timeout]. *)
Fixpoint extract_sni_inner (capacity : Z) (stream : list byte) (arrived : list Z)
  : option (res SniError ClientHelloRouting) :=
  match arrived with
  | [] => None
  | n :: arrived =>
      let bytes := ztake (Z.min capacity n) stream in
      if len bytes =? 0 then Some (Err MalformedClientHello)
      else
        match parse_client_hello bytes with
        | Ok (Complete routing) => Some (Ok routing)
        | Ok IncompleteHello =>
            if capacity =? encoded_wire_bytes CLIENT_HELLO_LIMITS
            then Some (Err MalformedClientHello)
            else if len bytes =? capacity
            then extract_sni_inner (Z.min (capacity * 2) (encoded_wire_bytes CLIENT_HELLO_LIMITS))
                   stream arrived
            else extract_sni_inner capacity stream arrived
        | Err e => Some (Err e)
        | Panic => Some Panic
        end
  end.

(** ** No panic, enough fuel *)

Definition cursor_ok (c : Cursor) : Prop := 0 <= position c <= len (cbytes c).

(** A reader that starts inside its buffer keeps the buffer, consumes at least
    [k] bytes, stays inside, and yields a value satisfying [P]. *)
Definition reads {A} (k : Z) (P : A -> Prop) (m : reader A) : Prop :=
  forall c, cursor_ok c ->
  match m c with
  | Ok (a, c') => P a /\ cbytes c' = cbytes c /\ position c + k <= position c' /\ cursor_ok c'
  | Err _ => True
  | Panic => False
  end.

Lemma reads_ctake n : 0 <= n -> reads n (fun b => len b = n) (ctake n).
Proof.
  intros Hn c Hc. unfold ctake, get_range, checked_add, cursor_ok in *.
  destruct (position c + n <? 2 ^ 64); [|done].
  destruct ((position c <=? position c + n) && (position c + n <=? len (cbytes c))) eqn:E; [|done].
  apply andb_true_iff in E. rewrite len_slice by lia. cbn. repeat split; lia.
Qed.

Lemma reads_bind {A B} k j P (Q : B -> Prop) (m : reader A) (f : A -> reader B) :
  reads k P m -> (forall a, P a -> reads j Q (f a)) -> reads (k + j) Q (m ≫= f).
Proof.
  intros Hm Hf c Hc. unfold mbind, reader_bind. specialize (Hm c Hc).
  destruct (m c) as [[a c1]|e|]; [|done..]. destruct Hm as (Ha&Hb&Hp&Hok).
  specialize (Hf a Ha c1 Hok). destruct (f a c1) as [[b c2]|e|]; [|done..].
  rewrite Hb in Hf. destruct Hf as (?&?&?&?). repeat (split; [first [done|lia]|]). done.
Qed.

Lemma reads_ret {A} (P : A -> Prop) (a : A) : P a -> reads 0 P (mret a).
Proof. intros Ha c Hc. cbn. repeat (split; [first [done|lia]|]). done. Qed.

Lemma reads_weaken {A} k j (P Q : A -> Prop) m :
  reads k P m -> j <= k -> (forall a, P a -> Q a) -> reads j Q m.
Proof.
  intros Hm Hj HPQ c Hc. specialize (Hm c Hc). destruct (m c) as [[a c1]|e|]; [|done..].
  destruct Hm as (?&?&?&?). split; [by apply HPQ|]. repeat (split; [first [done|lia]|]). done.
Qed.

Lemma reads_cskip n : 0 <= n -> reads n (fun _ => True) (cskip n).
Proof.
  intros Hn. replace n with (n + 0) at 1 by lia.
  eapply reads_bind; [by apply reads_ctake|]. intros. by apply reads_ret.
Qed.

Lemma reads_cu8 : reads 1 (fun n => 0 <= n < 256) cu8.
Proof.
  intros c Hc. unfold cu8. pose proof (reads_ctake 1 ltac:(lia) c Hc) as H.
  destruct (ctake 1 c) as [[[|b l] c1]|e|]; [done| |done..].
  destruct H as (_&H). split; [apply u8_range|done].
Qed.

Lemma reads_cu16 : reads 2 (fun n => 0 <= n < 65536) cu16.
Proof.
  intros c Hc. unfold cu16. pose proof (reads_ctake 2 ltac:(lia) c Hc) as H.
  destruct (ctake 2 c) as [[[|a [|b [|]]] c1]|e|]; [done..| |done|done|done].
  destruct H as (_&H). split; [apply (be_val_range [a; b])|done].
Qed.

Lemma reads_ctake0 n : 0 <= n -> reads 0 (fun b => len b = n) (ctake n).
Proof. intros Hn. eapply reads_weaken; [by apply reads_ctake|lia|done]. Qed.

Lemma reads_ctake_any n : 0 <= n -> reads 0 (fun _ => True) (ctake n).
Proof. intros Hn. eapply reads_weaken; [by apply reads_ctake|lia|done]. Qed.

Lemma reads_cskip0 n : 0 <= n -> reads 0 (fun _ => True) (cskip n).
Proof. intros Hn. eapply reads_weaken; [by apply reads_cskip|lia|done]. Qed.

(** Peel a sequence of cursor reads. *)
Ltac read_steps :=
  eapply (reads_weaken _ _ (fun _ => True));
  [repeat (eapply reads_bind;
     [first [apply reads_cu8|apply reads_cu16|apply reads_cskip0; lia|apply reads_ctake0; lia]
     |intros ? ?; cbv beta in *]);
   first [apply reads_ret; exact I|apply reads_ctake_any; lia]
  |try lia
  |done].

Lemma reads_name : reads 3 (fun _ => True) read_name.
Proof. read_steps. Qed.

Lemma reads_extension : reads 4 (fun _ => True) read_extension.
Proof. read_steps. Qed.

Lemma reads_proto : reads 1 (fun _ => True) read_proto.
Proof. read_steps. Qed.

Lemma reads_list : reads 2 (fun _ => True) read_list.
Proof. read_steps. Qed.

Lemma server_name_loop_total fuel found c :
  cursor_ok c -> len (cbytes c) - position c < Z.of_nat fuel -> server_name_loop fuel found c <> Panic.
Proof.
  revert found c. induction fuel as [|fuel IH]; intros found c Hc Hf; [unfold cursor_ok in Hc; lia|].
  cbn [server_name_loop]. destruct (cursor_is_empty c); [done|].
  pose proof (reads_name c Hc) as H.
  destruct (read_name c) as [[[t name] c1]|e|]; [|done..]. destruct H as (_&E&?&?).
  assert (forall f, server_name_loop fuel f c1 <> Panic) by (intros; apply IH; [done|rewrite E; lia]).
  destruct (_ && _); [|done]. destruct (len name =? 0); [done|]. by destruct (from_utf8 name).
Qed.

Lemma alpn_loop_total fuel a c :
  cursor_ok c -> len (cbytes c) - position c < Z.of_nat fuel -> alpn_loop fuel a c <> Panic.
Proof.
  revert a c. induction fuel as [|fuel IH]; intros a c Hc Hf; [unfold cursor_ok in Hc; lia|].
  cbn [alpn_loop]. destruct (cursor_is_empty c); [done|].
  pose proof (reads_proto c Hc) as H.
  destruct (read_proto c) as [[proto c1]|e|]; [|done..]. destruct H as (_&E&?&?).
  apply IH; [done|rewrite E; lia].
Qed.

Lemma cursor_new_ok b : cursor_ok (cursor_new b).
Proof. unfold cursor_ok. cbn. lia. Qed.
#[local] Hint Resolve cursor_new_ok : core.

Lemma parse_server_name_total data : parse_server_name data <> Panic.
Proof.
  unfold parse_server_name. pose proof (reads_list (cursor_new data) ltac:(auto)) as H.
  destruct (read_list (cursor_new data)) as [[names c]|e|]; [|done..].
  destruct (negb _); [done|].
  pose proof (server_name_loop_total (S (length names)) None (cursor_new names)
    ltac:(auto) ltac:(cbn; lia)) as Hs.
  by destruct (server_name_loop _ _ _) as [[h|]|e|].
Qed.

Lemma parse_alpn_for_acme_total data : parse_alpn_for_acme data <> Panic.
Proof.
  unfold parse_alpn_for_acme. pose proof (reads_list (cursor_new data) ltac:(auto)) as H.
  destruct (read_list (cursor_new data)) as [[protos c]|e|]; [|done..].
  destruct (negb _); [done|]. apply alpn_loop_total; [auto|cbn; lia].
Qed.

Lemma extension_step_total st ty data : extension_step st ty data <> Panic.
Proof.
  unfold extension_step.
  pose proof (parse_server_name_total data). pose proof (parse_alpn_for_acme_total data).
  destruct (ty =? SERVER_NAME_EXTENSION), (seen_sni st); [done| | |].
  - by destruct (parse_server_name data).
  - destruct (ty =? _), (seen_alpn st); [done| |done..]. by destruct (parse_alpn_for_acme data).
  - destruct (ty =? _), (seen_alpn st); [done| |done..]. by destruct (parse_alpn_for_acme data).
Qed.

Lemma extensions_loop_total fuel st c :
  cursor_ok c -> len (cbytes c) - position c < Z.of_nat fuel -> extensions_loop fuel st c <> Panic.
Proof.
  revert st c. induction fuel as [|fuel IH]; intros st c Hc Hf; [unfold cursor_ok in Hc; lia|].
  cbn [extensions_loop]. destruct (cursor_is_empty c); [done|].
  pose proof (reads_extension c Hc) as H.
  destruct (read_extension c) as [[[t data] c1]|e|]; [|done..]. destruct H as (_&E&?&?).
  pose proof (extension_step_total st t data) as Hs.
  destruct (extension_step st t data) as [st'| |]; [|done..]. cbn.
  apply IH; [done|rewrite E; lia].
Qed.

Lemma reads_hello : reads 0 (fun _ => True) read_hello.
Proof. read_steps. Qed.

Lemma parse_client_hello_body_total body : parse_client_hello_body body <> Panic.
Proof.
  unfold parse_client_hello_body.
  pose proof (reads_hello (cursor_new body) ltac:(auto)) as H.
  destruct (read_hello (cursor_new body)) as [[exts c]|e|]; [|done..].
  destruct (negb _); [done|].
  pose proof (extensions_loop_total (S (length exts)) (mkExt None false false false) (cursor_new exts)
    ltac:(auto) ltac:(cbn; lia)) as Hs.
  destruct (extensions_loop _ _ _) as [st|e|]; [|done..]. cbn. by destruct (ext_host st).
Qed.

Lemma announced_length_total lim hs hl : announced_length lim hs hl <> Panic.
Proof.
  unfold announced_length. destruct (len hs =? 4) eqn:E; [|done].
  destruct hs as [|h0 [|h1 [|h2 [|h3 [|]]]]]; cbn [length] in E; try lia.
  cbv zeta. destruct (checked_add _ _ _); [|done]. by destruct (_ >? _).
Qed.

Lemma payload_loop_total lim payload hs hl : payload_loop lim payload hs hl <> Panic.
Proof.
  revert hs hl. induction payload as [|b rest IH]; intros hs hl; [done|]. cbn [payload_loop].
  destruct (len hs =? _); [done|]. cbv zeta. destruct (_ && _); [done|].
  pose proof (announced_length_total lim (hs ++ [b]) hl) as Ha.
  destruct (announced_length lim (hs ++ [b]) hl) as [hl'| |]; [|done..]. cbn [mbind res_bind].
  destruct (bool_decide _); [by destruct (negb _)|apply IH].
Qed.

Lemma get_range_Some {A} (l : list A) a b s :
  get_range l a b = Some s -> a <= b <= len l /\ s = slice l a b.
Proof. unfold get_range. intros. case_match; simplify_eq. split; [lia|done]. Qed.

Lemma get_range_app {A} (l k : list A) a b s :
  0 <= a -> get_range l a b = Some s -> get_range (l ++ k) a b = Some s.
Proof.
  intros Ha [Hb ->]%get_range_Some. unfold get_range. rewrite length_app.
  destruct (_ && _) eqn:E; [|lia]. f_equal. unfold slice.
  rewrite drop_app_le, take_app_le; [done|rewrite length_drop|]; lia.
Qed.

(** One round of the record loop, as an equation. *)
Inductive record_round :=
| RStop (r : res SniError ParseOutcome)
| RNext (cursor wire : Z) (handshake : list byte) (hl : option Z).

Definition record_step (lim : ClientHelloLimits) (input : list byte)
  (cursor count wire : Z) (handshake : list byte) (hl : option Z) : record_round :=
  if cursor =? len input then RStop (Ok IncompleteHello)
  else if count =? limit_record_count lim then RStop (Err MalformedClientHello)
  else
    match get_range input cursor (cursor + 5) with
    | Some [r0; _; _; r3; r4] =>
        if negb (u8 r0 =? TLS_HANDSHAKE) then RStop (Err MalformedClientHello)
        else
          let n := be_val [r3; r4] in
          if n >? record_payload_bytes lim then RStop (Err MalformedClientHello)
          else
            match checked_add 64 5 n, checked_add 64 wire (5 + n), checked_add 64 cursor (5 + n) with
            | Some _, Some wire', Some record_end =>
                if wire' >? encoded_wire_bytes lim then RStop (Err MalformedClientHello)
                else
                  match get_range input (cursor + 5) record_end with
                  | None => RStop (Ok IncompleteHello)
                  | Some payload =>
                      match payload_loop lim payload handshake hl with
                      | Ok (Finished hs) => RStop (Complete <$> parse_client_hello_body (drop 4 hs))
                      | Ok (More hs hl') => RNext record_end wire' hs hl'
                      | Err e => RStop (Err e)
                      | Panic => RStop Panic
                      end
                  end
            | _, _, _ => RStop (Err MalformedClientHello)
            end
    | _ => RStop (Ok IncompleteHello)
    end.

Lemma record_loop_step fuel lim input cursor count wire hs hl :
  record_loop (S fuel) lim input cursor count wire hs hl =
  match record_step lim input cursor count wire hs hl with
  | RStop r => r
  | RNext cursor' wire' hs' hl' => record_loop fuel lim input cursor' (count + 1) wire' hs' hl'
  end.
Proof.
  cbn [record_loop]. unfold record_step.
  destruct (cursor =? _); [done|]. destruct (count =? _); [done|].
  destruct (get_range input cursor (cursor + 5)) as [[|r0 [|? [|? [|r3 [|r4 [|]]]]]]|]; try done.
  destruct (negb _); [done|]. cbv zeta. destruct (_ >? record_payload_bytes lim); [done|].
  pose proof (be_val_range [r3; r4]) as Hr. cbn in Hr.
  replace (checked_add 64 5 (be_val [r3; r4])) with (Some (5 + be_val [r3; r4]))
    by (unfold checked_add; case_match; [done|lia]).
  destruct (checked_add 64 wire _) as [w'|]; [|done].
  destruct (checked_add 64 cursor _) as [e|]; destruct (w' >? _); try done.
  destruct (get_range input (cursor + 5) e) as [payload|]; [|done].
  by destruct (payload_loop lim payload hs hl) as [[|]| |].
Qed.

(** A round that goes on has moved at least five bytes and stayed inside. *)
Lemma record_step_next lim input cursor count wire hs hl cursor' wire' hs' hl' :
  record_step lim input cursor count wire hs hl = RNext cursor' wire' hs' hl' ->
  cursor + 5 <= cursor' <= len input.
Proof.
  unfold record_step. intros H.
  destruct (cursor =? _); [done|]. destruct (count =? _); [done|].
  destruct (get_range input cursor (cursor + 5)) as [[|r0 [|? [|? [|r3 [|r4 [|]]]]]]|]; try done.
  destruct (negb _); [done|]. cbv zeta in H. destruct (_ >? record_payload_bytes lim); [done|].
  destruct (checked_add 64 5 _); [|done].
  destruct (checked_add 64 wire _) as [w'|]; [|done].
  destruct (checked_add 64 cursor _) as [e|]; [|done]. destruct (w' >? _); [done|].
  destruct (get_range input (cursor + 5) e) as [payload|] eqn:E; [|done].
  apply get_range_Some in E.
  destruct (payload_loop lim payload hs hl) as [[|]| |]; simplify_eq. lia.
Qed.

(** What a round decides, it decides the same with more input behind it. *)
Lemma record_step_app lim input q cursor count wire hs hl :
  0 <= cursor <= len input ->
  record_step lim input cursor count wire hs hl <> RStop (Ok IncompleteHello) ->
  record_step lim (input ++ q) cursor count wire hs hl = record_step lim input cursor count wire hs hl.
Proof.
  intros Hc Hn. unfold record_step in *. rewrite length_app.
  destruct (cursor =? len input) eqn:E; [done|].
  replace (cursor =? Z.of_nat (length input + length q)) with false by lia.
  destruct (count =? _); [done|].
  destruct (get_range input cursor (cursor + 5)) as [h|] eqn:Eh; [|done].
  rewrite (get_range_app _ q _ _ _ (proj1 Hc) Eh).
  destruct h as [|r0 [|? [|? [|r3 [|r4 [|]]]]]]; try done.
  destruct (negb _); [done|]. cbv zeta in *. destruct (_ >? record_payload_bytes lim); [done|].
  destruct (checked_add 64 5 _); [|done].
  destruct (checked_add 64 wire _) as [w'|]; [|done].
  destruct (checked_add 64 cursor _) as [e|]; [|done]. destruct (w' >? _); [done|].
  destruct (get_range input (cursor + 5) e) as [payload|] eqn:Ep; [|done].
  rewrite (get_range_app _ q (cursor + 5) e payload); [done|lia|done].
Qed.

Lemma record_step_total lim input cursor count wire hs hl :
  record_step lim input cursor count wire hs hl <> RStop Panic.
Proof.
  unfold record_step.
  destruct (cursor =? _); [done|]. destruct (count =? _); [done|].
  destruct (get_range input cursor (cursor + 5)) as [[|r0 [|? [|? [|r3 [|r4 [|]]]]]]|]; try done.
  destruct (negb _); [done|]. cbv zeta. destruct (_ >? record_payload_bytes lim); [done|].
  destruct (checked_add 64 5 _); [|done].
  destruct (checked_add 64 wire _) as [w'|]; [|done].
  destruct (checked_add 64 cursor _) as [e|]; [|done]. destruct (w' >? _); [done|].
  destruct (get_range input (cursor + 5) e) as [payload|] eqn:E; [|done].
  pose proof (payload_loop_total lim payload hs hl).
  destruct (payload_loop lim payload hs hl) as [[|hs']| |]; [done| |done..].
  pose proof (parse_client_hello_body_total (drop 4 hs')).
  by destruct (parse_client_hello_body (drop 4 hs')).
Qed.

Lemma record_loop_total fuel lim input cursor count wire hs hl :
  0 <= cursor <= len input -> len input - cursor < Z.of_nat fuel ->
  record_loop fuel lim input cursor count wire hs hl <> Panic.
Proof.
  revert cursor count wire hs hl. induction fuel as [|fuel IH]; intros cursor count wire hs hl Hc Hf; [lia|].
  rewrite record_loop_step. pose proof (record_step_total lim input cursor count wire hs hl).
  destruct (record_step _ _ _ _ _ _ _) as [r|] eqn:E; [congruence|].
  apply record_step_next in E. apply IH; lia.
Qed.

Lemma record_loop_app fuel fuel' lim input q cursor count wire hs hl :
  0 <= cursor <= len input -> (fuel <= fuel')%nat ->
  record_loop fuel lim input cursor count wire hs hl <> Panic ->
  record_loop fuel lim input cursor count wire hs hl <> Ok IncompleteHello ->
  record_loop fuel' lim (input ++ q) cursor count wire hs hl
  = record_loop fuel lim input cursor count wire hs hl.
Proof.
  revert fuel' cursor count wire hs hl.
  induction fuel as [|fuel IH]; intros fuel' cursor count wire hs hl Hc Hf Hp Hi; [done|].
  destruct fuel' as [|fuel']; [lia|]. rewrite !record_loop_step in *.
  rewrite record_step_app; [|done|by intros E; rewrite E in Hi].
  destruct (record_step lim input _ _ _ _ _) as [r|] eqn:E; [done|].
  apply record_step_next in E. apply IH; [lia|lia|done|done].
Qed.

Lemma parse_client_hello_app input q :
  parse_client_hello input <> Ok IncompleteHello ->
  parse_client_hello (input ++ q) = parse_client_hello input.
Proof.
  intros H. apply record_loop_app; [lia|rewrite length_app; lia| |done].
  apply record_loop_total; lia.
Qed.

(** ** Reassembly *)

(** RFC 8446 encodings: a handshake record and a ClientHello message. *)
Definition tls_record (version : byte * byte) (payload : list byte) : list byte :=
  as_u8 TLS_HANDSHAKE :: fst version :: snd version :: be_bytes 2 (len payload) ++ payload.
Definition hello_message (body : list byte) : list byte :=
  as_u8 CLIENT_HELLO :: be_bytes 3 (len body) ++ body.

(** The [handshake_length] once [h] of message [m] has been reassembled. *)
Definition known_length (m h : list byte) : option Z :=
  if 4 <=? len h then Some (len m) else None.

Lemma len_hello_message body : len (hello_message body) = 4 + len body.
Proof. cbn [hello_message length]. rewrite length_app, length_be_bytes. lia. Qed.

Lemma length_field h1 h2 h3 :
  Z.lor (Z.lor (Z.shiftl (u8 h1) 16) (Z.shiftl (u8 h2) 8)) (u8 h3) = be_val [h1; h2; h3].
Proof.
  pose proof (u8_range h1). pose proof (u8_range h2). pose proof (u8_range h3).
  rewrite !be_val_cons, be_val_nil. cbn [length].
  rewrite Z.shiftl_mul_pow2, <- Z.shiftl_mul_pow2 by lia.
  rewrite (lor_shiftl_add (u8 h1) (Z.shiftl (u8 h2) 8) 16);
    [|lia|rewrite Z.shiftl_mul_pow2; lia].
  replace (u8 h1 * 2 ^ 16 + Z.shiftl (u8 h2) 8) with (Z.shiftl (u8 h1 * 256 + u8 h2) 8)
    by (rewrite !Z.shiftl_mul_pow2 by lia; lia).
  rewrite lor_shiftl_add by lia. lia.
Qed.

(** After four bytes of the message the announced length is the message's. *)
Lemma header_known body h0 h1 h2 h3 k :
  len body < 2 ^ 24 -> [h0; h1; h2; h3] ++ k = hello_message body ->
  4 + Z.lor (Z.lor (Z.shiftl (u8 h1) 16) (Z.shiftl (u8 h2) 8)) (u8 h3) = len (hello_message body).
Proof.
  intros Hb E. rewrite length_field, len_hello_message.
  assert ([h1; h2; h3] = be_bytes 3 (len body)) as ->.
  { unfold hello_message in E. cbn [be_bytes app] in *. by simplify_eq. }
  rewrite be_val_be_bytes, Z.mod_small; [done|]. change (256 ^ Z.of_nat 3) with (2 ^ 24). lia.
Qed.

Lemma announced_length_message lim body h b k :
  (h ++ [b]) ++ k = hello_message body ->
  len (hello_message body) <= handshake_message_bytes lim -> len body < 2 ^ 24 ->
  announced_length lim (h ++ [b]) (known_length (hello_message body) h)
  = Ok (known_length (hello_message body) (h ++ [b])).
Proof.
  intros Em Hlim Hb. unfold announced_length, known_length.
  destruct (len (h ++ [b]) =? 4) eqn:E4; rewrite length_app in *; cbn [length] in *.
  - destruct h as [|h0 [|h1 [|h2 [|h3 [|]]]]]; cbn in E4; try lia. cbn [app] in *.
    assert (Ht := header_known body h0 h1 h2 b k Hb Em).
    unfold checked_add. cbv zeta. rewrite Ht.
    replace (_ <? 2 ^ 64) with true by (rewrite len_hello_message; lia).
    by replace (_ >? _) with false by lia.
  - by replace (4 <=? len h) with (4 <=? Z.of_nat (length h + 1)) by lia.
Qed.

Lemma payload_loop_message lim body p h q :
  h ++ p ++ q = hello_message body -> p ++ q <> [] ->
  len (hello_message body) <= handshake_message_bytes lim -> len body < 2 ^ 24 ->
  payload_loop lim p h (known_length (hello_message body) h) =
  match q with
  | [] => Ok (Finished (hello_message body))
  | _ => Ok (More (h ++ p) (known_length (hello_message body) (h ++ p)))
  end.
Proof.
  revert h. induction p as [|b rest IH]; intros h Em Hne Hlim Hb.
  { rewrite app_nil_r. by destruct q. }
  assert (Em' : (h ++ [b]) ++ rest ++ q = hello_message body) by (by rewrite <- app_assoc).
  pose proof (f_equal length Em) as Hlen. rewrite !length_app in Hlen. cbn [length] in Hlen.
  cbn [payload_loop]. replace (len h =? _) with false by lia. cbv zeta.
  replace (_ && negb _) with false; cycle 1.
  { destruct h as [|h0 h]; cbn [app length].
    - replace b with (as_u8 CLIENT_HELLO) by (unfold hello_message in Em; cbn in Em; congruence).
      done.
    - rewrite length_app. cbn [length]. lia. }
  rewrite (announced_length_message lim body h b (rest ++ q)) by done.
  cbn [mbind res_bind]. pose proof (len_hello_message body) as Hm.
  destruct (rest ++ q) as [|c l] eqn:Erq.
  - apply app_eq_nil in Erq as [-> ->]. rewrite app_nil_r in Em'. rewrite Em'.
    rewrite bool_decide_true; [done|]. unfold known_length. by replace (4 <=? _) with true by lia.
  - rewrite bool_decide_false.
    + rewrite (IH (h ++ [b]) Em'); [destruct q; by rewrite <- ?app_assoc|done..].
    + unfold known_length. destruct (4 <=? _); [|done]. intros E%(inj Some).
      apply (f_equal length) in Erq. rewrite length_app in Erq, E. cbn [length] in Erq, E. lia.
Qed.

Lemma len_tls_record v p : len (tls_record v p) = 5 + len p.
Proof. cbn [tls_record length]. rewrite length_app, length_be_bytes. lia. Qed.

(** A record's header and payload, read back at any point of the stream. *)
Lemma tls_record_ranges v pre p post :
  exists n1 n0, be_bytes 2 (len p) = [n1; n0] /\
  get_range (pre ++ tls_record v p ++ post) (len pre) (len pre + 5)
    = Some [as_u8 TLS_HANDSHAKE; fst v; snd v; n1; n0] /\
  get_range (pre ++ tls_record v p ++ post) (len pre + 5) (len pre + (5 + len p)) = Some p.
Proof.
  eexists _, _. split; [reflexivity|].
  set (hd := [as_u8 TLS_HANDSHAKE; fst v; snd v; _; _]).
  assert (Er : pre ++ tls_record v p ++ post = pre ++ hd ++ p ++ post) by done.
  pose proof (f_equal length Er) as Hl. rewrite !length_app in Hl.
  assert (Hh : len hd = 5) by done.
  unfold get_range. rewrite Er, !length_app.
  split; (destruct (_ && _) eqn:E; [|lia]); f_equal.
  - rewrite <- Hh at 1. apply slice_app_exact.
  - pose proof (slice_app_exact (pre ++ hd) p post) as Hs. rewrite <- app_assoc, length_app in Hs.
    by replace (Z.of_nat (length pre + length hd)) with (len pre + 5) in Hs by lia;
      replace (len pre + 5 + len p) with (len pre + (5 + len p)) in Hs by lia.
Qed.

(** One complete record of the message, at any point of the stream. *)
Lemma record_step_message lim v body pre p h q post count wire :
  h ++ p ++ q = hello_message body -> p ++ q <> [] ->
  len (hello_message body) <= handshake_message_bytes lim -> len body < 2 ^ 24 ->
  len p <= record_payload_bytes lim -> record_payload_bytes lim < 2 ^ 16 ->
  count <> limit_record_count lim ->
  0 <= wire -> wire + 5 + len p <= encoded_wire_bytes lim -> encoded_wire_bytes lim < 2 ^ 63 ->
  len pre < 2 ^ 63 ->
  record_step lim (pre ++ tls_record v p ++ post) (len pre) count wire h
    (known_length (hello_message body) h) =
  match q with
  | [] => RStop (Complete <$> parse_client_hello_body body)
  | _ => RNext (len (pre ++ tls_record v p)) (wire + 5 + len p) (h ++ p)
           (known_length (hello_message body) (h ++ p))
  end.
Proof.
  intros Em Hne Hm Hb Hp Hpl Hc Hw Hwl Hwm Hpre. unfold record_step.
  pose proof (len_tls_record v p) as Hr.
  destruct (tls_record_ranges v pre p post) as (n1&n0&En&E5&Ep).
  rewrite E5, <- En, be_val_be_bytes. change (256 ^ Z.of_nat 2) with (2 ^ 16).
  rewrite Z.mod_small by lia. cbv zeta.
  rewrite !length_app. replace (len pre =? _) with false by lia.
  replace (count =? _) with false by lia. replace (negb _) with false by done.
  replace (len p >? _) with false by lia.
  unfold checked_add. replace (5 + len p <? 2 ^ 64) with true by lia.
  replace (wire + (5 + len p) <? 2 ^ 64) with true by lia.
  replace (len pre + (5 + len p) <? 2 ^ 64) with true by lia.
  replace (wire + (5 + len p) >? _) with false by lia.
  rewrite Ep, (payload_loop_message lim body p h q) by done.
  destruct q as [|x q].
  - do 2 f_equal.
  - replace (len pre + (5 + len p)) with (Z.of_nat (length pre + length (tls_record v p))) by lia.
    by replace (wire + (5 + len p)) with (wire + 5 + len p) by lia.
Qed.

(** A stream of handshake records: version bytes and payload of each. *)
Definition records (rs : list ((byte * byte) * list byte)) : list byte :=
  concat ((fun r => tls_record (fst r) (snd r)) <$> rs).
Definition payloads (rs : list ((byte * byte) * list byte)) : list byte := concat (snd <$> rs).

Lemma record_loop_message lim body rs pre h post count wire fuel :
  rs <> [] -> Forall (fun r => snd r <> [] /\ len (snd r) <= record_payload_bytes lim) rs ->
  h ++ payloads rs = hello_message body ->
  len (hello_message body) <= handshake_message_bytes lim -> len body < 2 ^ 24 ->
  record_payload_bytes lim < 2 ^ 16 -> encoded_wire_bytes lim < 2 ^ 63 ->
  0 <= count -> count + len rs <= limit_record_count lim ->
  0 <= wire -> wire + 5 * len rs + len (payloads rs) <= encoded_wire_bytes lim ->
  len pre <= wire -> (length rs <= fuel)%nat ->
  record_loop fuel lim (pre ++ records rs ++ post) (len pre) count wire h
    (known_length (hello_message body) h) = Complete <$> parse_client_hello_body body.
Proof.
  intros Hne Hrs Em Hm Hb Hpl Hwm Hc Hcl Hw Hwl Hpre Hf.
  revert pre h count wire fuel Hne Em Hc Hcl Hw Hwl Hpre Hf.
  induction Hrs as [|[v p] rs [Hp Hpn] Hrs IH]; intros pre h count wire fuel Hne Em Hc Hcl Hw Hwl Hpre Hf; [done|].
  destruct fuel as [|fuel]; [cbn in Hf; lia|]. rewrite record_loop_step. clear Hne.
  unfold payloads, records in *. cbn [fmap list_fmap concat fst snd length] in *.
  fold (payloads rs) (records rs) in *. rewrite length_app in Hwl.
  rewrite <- app_assoc, (record_step_message lim v body pre p h (payloads rs)); try done; try lia;
    [|by destruct p].
  destruct (payloads rs) as [|x q] eqn:Eq.
  - done.
  - rewrite (app_assoc pre).
    pose proof (len_tls_record v p) as Hr.
    apply (IH (pre ++ tls_record v p) (h ++ p) (count + 1) (wire + 5 + len p)).
    + intros ->. done.
    + rewrite <- app_assoc. done.
    + lia.
    + lia.
    + lia.
    + lia.
    + rewrite length_app. lia.
    + lia.
Qed.

Lemma payloads_count rs : Forall (fun r => snd r <> []) rs -> len rs <= len (payloads rs).
Proof.
  unfold payloads. induction 1 as [|[v p] rs Hp Hrs IH]; [done|].
  cbn [fmap list_fmap concat length fst snd] in *. rewrite length_app.
  destruct p; [done|]. cbn [length]. lia.
Qed.

Lemma len_records rs : len (records rs) = 5 * len rs + len (payloads rs).
Proof.
  unfold records, payloads. induction rs as [|[v p] rs IH]; [done|].
  cbn [fmap list_fmap concat fst snd length]. rewrite !length_app.
  pose proof (len_tls_record v p). lia.
Qed.

Lemma parse_client_hello_records rs body post :
  Forall (fun r => snd r <> [] /\ len (snd r) <= record_payload_bytes CLIENT_HELLO_LIMITS) rs ->
  payloads rs = hello_message body ->
  len (hello_message body) <= handshake_message_bytes CLIENT_HELLO_LIMITS ->
  parse_client_hello (records rs ++ post) = Complete <$> parse_client_hello_body body.
Proof.
  intros Hrs Em Hm. pose proof (len_hello_message body) as Hl.
  assert (Hc : len rs <= len (payloads rs)).
  { apply payloads_count. eapply Forall_impl; [|exact Hrs]. by intros ? [? _]. }
  pose proof (len_records rs) as Hw.
  rewrite Em in Hc. unfold parse_client_hello, parse_client_hello_with_limits.
  cbn [CLIENT_HELLO_LIMITS handshake_message_bytes] in Hm.
  apply (record_loop_message CLIENT_HELLO_LIMITS body rs [] [] post 0 0);
    cbn [CLIENT_HELLO_LIMITS handshake_message_bytes record_payload_bytes encoded_wire_bytes
         limit_record_count] in *; try done; try lia.
  - intros ->. done.
  - rewrite Em. lia.
  - rewrite length_app. lia.
Qed.

(** Whole records that stop short of the message leave it incomplete. *)
Lemma record_loop_short lim body rs pre h q count wire fuel :
  Forall (fun r => snd r <> [] /\ len (snd r) <= record_payload_bytes lim) rs ->
  h ++ payloads rs ++ q = hello_message body -> q <> [] ->
  len (hello_message body) <= handshake_message_bytes lim -> len body < 2 ^ 24 ->
  record_payload_bytes lim < 2 ^ 16 -> encoded_wire_bytes lim < 2 ^ 63 ->
  0 <= count -> count + len rs <= limit_record_count lim ->
  0 <= wire -> wire + 5 * len rs + len (payloads rs) <= encoded_wire_bytes lim ->
  len pre <= wire -> (length rs < fuel)%nat ->
  record_loop fuel lim (pre ++ records rs) (len pre) count wire h
    (known_length (hello_message body) h) = Ok IncompleteHello.
Proof.
  intros Hrs Em Hq Hm Hb Hpl Hwm Hc Hcl Hw Hwl Hpre Hf.
  revert pre h count wire fuel Em Hc Hcl Hw Hwl Hpre Hf.
  induction Hrs as [|[v p] rs [Hp Hpn] Hrs IH]; intros pre h count wire fuel Em Hc Hcl Hw Hwl Hpre Hf;
    (destruct fuel as [|fuel]; [cbn in Hf; lia|]); rewrite record_loop_step.
  { unfold record_step, records. cbn [fmap list_fmap concat]. rewrite app_nil_r.
    by replace (len pre =? len pre) with true by lia. }
  unfold payloads, records in *. cbn [fmap list_fmap concat fst snd length] in *.
  fold (payloads rs) (records rs) in *. rewrite length_app in Hwl. rewrite <- app_assoc in Em.
  rewrite (record_step_message lim v body pre p h (payloads rs ++ q)); try done; try lia;
    [|by destruct p].
  destruct (payloads rs ++ q) as [|x l] eqn:Eq; [by apply app_eq_nil in Eq as [_ ?]|].
  rewrite (app_assoc pre). pose proof (len_tls_record v p) as Hr.
  apply (IH (pre ++ tls_record v p) (h ++ p) (count + 1) (wire + 5 + len p)); try lia.
  - by rewrite <- app_assoc.
  - rewrite length_app. lia.
Qed.

Lemma parse_client_hello_short rs body q :
  Forall (fun r => snd r <> [] /\ len (snd r) <= record_payload_bytes CLIENT_HELLO_LIMITS) rs ->
  payloads rs ++ q = hello_message body -> q <> [] ->
  len (hello_message body) <= handshake_message_bytes CLIENT_HELLO_LIMITS ->
  parse_client_hello (records rs) = Ok IncompleteHello.
Proof.
  intros Hrs Em Hq Hm. pose proof (len_hello_message body) as Hl.
  assert (Hc : len rs <= len (payloads rs)).
  { apply payloads_count. eapply Forall_impl; [|exact Hrs]. by intros ? [? _]. }
  pose proof (f_equal length Em) as He. rewrite length_app in He. pose proof (len_records rs) as Hw.
  cbn [CLIENT_HELLO_LIMITS handshake_message_bytes] in Hm.
  apply (record_loop_short CLIENT_HELLO_LIMITS body rs [] [] q 0 0);
    cbn [CLIENT_HELLO_LIMITS handshake_message_bytes record_payload_bytes encoded_wire_bytes
         limit_record_count] in *; try done; try lia.
Qed.

(** ** Encoded ClientHellos *)

(** What a client sends: a server name list (name type and bytes), an ALPN
    protocol list, or an extension the bridge ignores. *)
Inductive extension :=
| ServerNames (names : list (Z * list byte))
| Protocols (protos : list (list byte))
| OtherExtension (ty : Z) (data : list byte).

Definition enc16 (b : list byte) : list byte := be_bytes 2 (len b) ++ b.
Definition enc8 (b : list byte) : list byte := be_bytes 1 (len b) ++ b.

Definition enc_name (n : Z * list byte) : list byte := be_bytes 1 (fst n) ++ enc16 (snd n).
Definition enc_names (l : list (Z * list byte)) : list byte := concat (enc_name <$> l).
Definition enc_protos (l : list (list byte)) : list byte := concat (enc8 <$> l).

Definition ext_type (e : extension) : Z :=
  match e with
  | ServerNames _ => SERVER_NAME_EXTENSION
  | Protocols _ => ALPN_EXTENSION
  | OtherExtension ty _ => ty
  end.
Definition ext_data (e : extension) : list byte :=
  match e with
  | ServerNames l => enc16 (enc_names l)
  | Protocols l => enc16 (enc_protos l)
  | OtherExtension _ data => data
  end.
Definition enc_extension (e : extension) : list byte :=
  be_bytes 2 (ext_type e) ++ enc16 (ext_data e).

Record Hello := mkHello {
  hello_version : list byte;
  hello_random : list byte;
  session_id : list byte;
  cipher_suites : list byte;
  compression_methods : list byte;
  hello_extensions : list extension
}.

Definition enc_extensions (l : list extension) : list byte := concat (enc_extension <$> l).
Definition enc_hello (h : Hello) : list byte :=
  hello_version h ++ hello_random h ++ enc8 (session_id h) ++ enc16 (cipher_suites h)
  ++ enc8 (compression_methods h) ++ enc16 (enc_extensions (hello_extensions h)).

(** Every length fits the field that carries it. *)
Definition name_fits (n : Z * list byte) : Prop := is_u8 (fst n) /\ len (snd n) < 2 ^ 16.
Definition ext_fits (e : extension) : Prop :=
  len (ext_data e) < 2 ^ 16 /\
  match e with
  | ServerNames l => Forall name_fits l
  | Protocols l => Forall (fun p => len p < 2 ^ 8) l
  | OtherExtension ty _ => is_u16 ty /\ ty <> SERVER_NAME_EXTENSION /\ ty <> ALPN_EXTENSION
  end.
Definition hello_fits (h : Hello) : Prop :=
  len (hello_version h) = 2 /\ len (hello_random h) = 32 /\
  len (session_id h) < 2 ^ 8 /\ len (cipher_suites h) < 2 ^ 16 /\
  len (compression_methods h) < 2 ^ 8 /\
  len (enc_extensions (hello_extensions h)) < 2 ^ 16 /\
  Forall ext_fits (hello_extensions h).

(** The routing decision on the decoded message: the first [host_name] entry of
    the one server name list, and whether the one ALPN list offers
    [acme-tls/1]; a repeated list is refused where it appears. *)
Definition first_host (names : list (Z * list byte)) : res SniError str :=
  match list_find (fun n => fst n = HOST_NAME) names with
  | None => Err NoServerName
  | Some (_, (_, name)) =>
      match name, from_utf8 name with
      | _ :: _, Some h => Ok h
      | _, _ => Err MalformedClientHello
      end
  end.

Fixpoint routing_of (host : option str) (alpn : option bool) (l : list extension)
  : res SniError ClientHelloRouting :=
  match l with
  | [] => h ← ok_or host NoServerName; Ok (mkRouting h (default false alpn))
  | ServerNames names :: l =>
      match host with
      | Some _ => Err MalformedClientHello
      | None => h ← first_host names; routing_of (Some h) alpn l
      end
  | Protocols protos :: l =>
      match alpn with
      | Some _ => Err MalformedClientHello
      | None => routing_of host (Some (bool_decide (ACME_TLS_1 ∈ protos))) l
      end
  | OtherExtension _ _ :: l => routing_of host alpn l
  end.

(** A cursor over [pre ++ rest], standing at [rest]. *)
Definition cur (pre rest : list byte) : Cursor := mkCursor (pre ++ rest) (len pre).

Lemma cur_is_empty pre rest : cursor_is_empty (cur pre rest) = (len rest =? 0).
Proof. unfold cursor_is_empty, cur. cbn. rewrite length_app. lia. Qed.

Lemma ctake_cur pre x rest :
  len (pre ++ x ++ rest) < 2 ^ 64 ->
  ctake (len x) (cur pre (x ++ rest)) = Ok (x, cur (pre ++ x) rest).
Proof.
  intros H. rewrite !length_app in H. unfold ctake, cur, checked_add, get_range. cbn [position cbytes].
  replace (_ <? 2 ^ 64) with true by lia. rewrite !length_app.
  destruct (_ && _) eqn:E; [|lia]. rewrite slice_app_exact, <- app_assoc.
  by replace (Z.of_nat (length pre + length x)) with (len pre + len x) by lia.
Qed.

Lemma cu8_cur pre n rest :
  len (pre ++ be_bytes 1 n ++ rest) < 2 ^ 64 -> is_u8 n ->
  cu8 (cur pre (be_bytes 1 n ++ rest)) = Ok (n, cur (pre ++ be_bytes 1 n) rest).
Proof.
  intros H Hn. unfold cu8. change 1 with (len (be_bytes 1 n)). rewrite ctake_cur by done.
  cbn [be_bytes]. rewrite u8_as_u8. change (256 ^ Z.of_nat 0) with 1.
  rewrite Z.div_1_r, Z.mod_small; [done|]. unfold in_range in Hn. lia.
Qed.

Lemma cu16_cur pre n rest :
  len (pre ++ be_bytes 2 n ++ rest) < 2 ^ 64 -> is_u16 n ->
  cu16 (cur pre (be_bytes 2 n ++ rest)) = Ok (n, cur (pre ++ be_bytes 2 n) rest).
Proof.
  intros H Hn. unfold cu16. change 2 with (len (be_bytes 2 n)) at 1. rewrite ctake_cur by done.
  pose proof (be_val_be_bytes 2 n) as Hv. rewrite Z.mod_small in Hv by (unfold in_range in Hn; done).
  cbn [be_bytes] in *. by rewrite Hv.
Qed.

(** Read one length-prefixed field after another. *)
Ltac read_cur :=
  unfold mbind, reader_bind, mret, reader_ret;
  repeat first
    [rewrite cu8_cur by (rewrite ?length_app, ?length_nil in *; first [lia|width|assumption])
    |rewrite cu16_cur by (rewrite ?length_app, ?length_nil in *; first [lia|width|assumption])
    |rewrite ctake_cur by (rewrite ?length_app, ?length_nil in *; lia)].

Lemma read_list_cur pre b rest :
  len (pre ++ enc16 b ++ rest) < 2 ^ 64 -> len b < 2 ^ 16 ->
  read_list (cur pre (enc16 b ++ rest)) = Ok (b, cur (pre ++ enc16 b) rest).
Proof.
  intros H Hb. unfold read_list, enc16 in *. rewrite <- !app_assoc in *. read_cur.
  by rewrite <- app_assoc.
Qed.

Lemma read_proto_cur pre b rest :
  len (pre ++ enc8 b ++ rest) < 2 ^ 64 -> len b < 2 ^ 8 ->
  read_proto (cur pre (enc8 b ++ rest)) = Ok (b, cur (pre ++ enc8 b) rest).
Proof.
  intros H Hb. unfold read_proto, enc8 in *. rewrite <- !app_assoc in *. read_cur.
  by rewrite <- app_assoc.
Qed.

Lemma read_name_cur pre n rest :
  len (pre ++ enc_name n ++ rest) < 2 ^ 64 -> name_fits n ->
  read_name (cur pre (enc_name n ++ rest)) = Ok (n, cur (pre ++ enc_name n) rest).
Proof.
  intros H [Hn Hl]. unfold read_name, enc_name, enc16 in *. rewrite <- !app_assoc in *. read_cur.
  destruct n. by rewrite <- !app_assoc.
Qed.

Lemma read_extension_cur pre e rest :
  len (pre ++ enc_extension e ++ rest) < 2 ^ 64 -> ext_fits e ->
  read_extension (cur pre (enc_extension e ++ rest))
  = Ok ((ext_type e, ext_data e), cur (pre ++ enc_extension e) rest).
Proof.
  intros H [Hl He]. assert (is_u16 (ext_type e)) by (destruct e; cbn; [unfold SERVER_NAME_EXTENSION; width|unfold ALPN_EXTENSION; width|apply He]).
  unfold read_extension, enc_extension, enc16 in *. rewrite <- !app_assoc in *. read_cur.
  by rewrite <- !app_assoc.
Qed.

Lemma read_hello_cur h :
  hello_fits h ->
  read_hello (cursor_new (enc_hello h))
  = Ok (enc_extensions (hello_extensions h), cur (enc_hello h) []).
Proof.
  intros (Hv&Hr&Hs&Hc&Hm&He&_). change (cursor_new (enc_hello h)) with (cur [] (enc_hello h)).
  unfold read_hello, cskip, enc_hello, enc8, enc16. rewrite <- !app_assoc.
  assert (length (be_bytes 1 (len (session_id h))) = 1%nat /\
    length (be_bytes 2 (len (cipher_suites h))) = 2%nat /\
    length (be_bytes 1 (len (compression_methods h))) = 1%nat /\
    length (be_bytes 2 (len (enc_extensions (hello_extensions h)))) = 2%nat) as (?&?&?&?)
    by (by rewrite !length_be_bytes).
  set (exts := enc_extensions (hello_extensions h)) in *. clearbody exts.
  replace (be_bytes 2 (len exts) ++ exts) with (be_bytes 2 (len exts) ++ exts ++ []) by (by rewrite app_nil_r).
  rewrite <- Hv, <- Hr. read_cur. by rewrite app_nil_l, app_nil_r, <- !app_assoc.
Qed.

Lemma server_name_loop_enc l found pre fuel :
  len (pre ++ enc_names l) < 2 ^ 64 -> Forall name_fits l -> (length l < fuel)%nat ->
  server_name_loop fuel found (cur pre (enc_names l)) =
  match found, first_host l with
  | Some h, _ => Ok (Some h)
  | None, Err NoServerName => Ok None
  | None, r => Some <$> r
  end.
Proof.
  intros Hl Hn. revert found pre fuel Hl. induction Hn as [|[t name] l Hn Hns IH]; intros found pre fuel Hl Hf;
    (destruct fuel as [|fuel]; [cbn in Hf; lia|]); cbn [server_name_loop]; rewrite cur_is_empty.
  { by destruct found. }
  unfold enc_names in *. cbn [fmap list_fmap concat length] in *. fold (enc_names l) in *.
  replace (len (enc_name (t, name) ++ enc_names l) =? 0) with false; cycle 1.
  { unfold enc_name. rewrite !length_app, length_be_bytes. lia. }
  rewrite read_name_cur by done. rewrite (app_assoc pre) in Hl.
  assert (IH' : forall f, server_name_loop fuel f (cur (pre ++ enc_name (t, name)) (enc_names l)) = _)
    by (intros f; apply IH; [done|lia]).
  unfold first_host. cbn [list_find fst snd]. destruct (t =? HOST_NAME) eqn:Et.
  - rewrite decide_True by (cbn; lia). destruct found as [h|]; cbn [andb bool_decide decide].
    + rewrite bool_decide_false by done. apply IH'.
    + rewrite bool_decide_true by done. destruct name as [|b name]; [done|].
      replace (len (b :: name) =? 0) with false by (cbn [length]; lia).
      destruct (from_utf8 (b :: name)); [|done]. apply IH'.
  - rewrite decide_False by (cbn; lia). cbn [andb]. rewrite IH'. destruct found; [done|].
    unfold first_host. by destruct (list_find _ l) as [[i [? ?]]|].
Qed.

Lemma count_enc_names l : (length l <= length (enc_names l))%nat.
Proof.
  unfold enc_names. induction l as [|n l IH]; cbn [fmap list_fmap concat length]; [done|].
  unfold enc_name at 1. rewrite !length_app, length_be_bytes. lia.
Qed.

Lemma parse_server_name_enc l :
  len (enc16 (enc_names l)) < 2 ^ 16 -> Forall name_fits l ->
  parse_server_name (enc16 (enc_names l)) = first_host l.
Proof.
  intros Hl Hn. unfold parse_server_name.
  assert (len (enc_names l) < 2 ^ 16) by (unfold enc16 in Hl; rewrite length_app in Hl; lia).
  change (cursor_new ?b) with (cur [] b).
  pose proof (read_list_cur [] (enc_names l) []) as Hr. rewrite app_nil_r in Hr.
  rewrite Hr by (cbn [app]; lia). rewrite cur_is_empty. cbn [length negb Z.of_nat Z.eqb].
  change (cursor_new ?b) with (cur [] b).
  pose proof (count_enc_names l). rewrite server_name_loop_enc; [|cbn [app]; lia|done|lia].
  unfold first_host. destruct (list_find _ l) as [[i [t [|b name]]]|]; [done| |done].
  by destruct (from_utf8 (b :: name)).
Qed.

Lemma alpn_loop_enc l a pre fuel :
  len (pre ++ enc_protos l) < 2 ^ 64 -> Forall (fun p => len p < 2 ^ 8) l -> (length l < fuel)%nat ->
  alpn_loop fuel a (cur pre (enc_protos l)) = Ok (a || bool_decide (ACME_TLS_1 ∈ l)).
Proof.
  intros Hl Hn. revert a pre fuel Hl. induction Hn as [|p l Hn Hns IH]; intros a pre fuel Hl Hf;
    (destruct fuel as [|fuel]; [cbn in Hf; lia|]); cbn [alpn_loop]; rewrite cur_is_empty.
  { rewrite bool_decide_false by apply not_elem_of_nil. by rewrite orb_false_r. }
  unfold enc_protos in *. cbn [fmap list_fmap concat length] in *. fold (enc_protos l) in *.
  replace (len (enc8 p ++ enc_protos l) =? 0) with false; cycle 1.
  { unfold enc8. rewrite !length_app, length_be_bytes. lia. }
  rewrite read_proto_cur by done. rewrite (app_assoc pre) in Hl.
  rewrite IH; [|done|lia]. rewrite <- orb_assoc. do 2 f_equal.
  rewrite <- bool_decide_or. apply bool_decide_ext. rewrite elem_of_cons.
  split; (intros [?|?]; [left; congruence|by right]).
Qed.

Lemma parse_alpn_enc l :
  len (enc16 (enc_protos l)) < 2 ^ 16 -> Forall (fun p => len p < 2 ^ 8) l ->
  parse_alpn_for_acme (enc16 (enc_protos l)) = Ok (bool_decide (ACME_TLS_1 ∈ l)).
Proof.
  intros Hl Hn. unfold parse_alpn_for_acme.
  assert (len (enc_protos l) < 2 ^ 16) by (unfold enc16 in Hl; rewrite length_app in Hl; lia).
  change (cursor_new ?b) with (cur [] b).
  pose proof (read_list_cur [] (enc_protos l) []) as Hr. rewrite app_nil_r in Hr.
  rewrite Hr by (cbn [app]; lia). rewrite cur_is_empty. cbn [length negb Z.of_nat Z.eqb].
  change (cursor_new ?b) with (cur [] b).
  assert (length l <= length (enc_protos l))%nat.
  { clear. unfold enc_protos. induction l as [|p l IH]; cbn [fmap list_fmap concat length]; [done|].
    unfold enc8 at 1. rewrite !length_app, length_be_bytes. lia. }
  rewrite alpn_loop_enc; [done|cbn [app]; lia|done|lia].
Qed.

(** The loop state as the specification sees it. *)
Definition ext_of (host : option str) (alpn : option bool) : ext_state :=
  mkExt host (bool_decide (is_Some host)) (bool_decide (is_Some alpn)) (default false alpn).

Lemma extensions_loop_enc l host alpn pre fuel :
  len (pre ++ enc_extensions l) < 2 ^ 64 -> Forall ext_fits l -> (length l < fuel)%nat ->
  (st ← extensions_loop fuel (ext_of host alpn) (cur pre (enc_extensions l));
   h ← ok_or (ext_host st) NoServerName; Ok (mkRouting h (ext_acme st)))
  = routing_of host alpn l.
Proof.
  intros Hl Hn. revert host alpn pre fuel Hl.
  induction Hn as [|e l Hn Hns IH]; intros host alpn pre fuel Hl Hf;
    (destruct fuel as [|fuel]; [cbn in Hf; lia|]); cbn [extensions_loop]; rewrite cur_is_empty; [done|].
  unfold enc_extensions in *. cbn [fmap list_fmap concat length] in *. fold (enc_extensions l) in *.
  replace (len (enc_extension e ++ enc_extensions l) =? 0) with false; cycle 1.
  { unfold enc_extension. rewrite !length_app, length_be_bytes. lia. }
  rewrite read_extension_cur by done. rewrite (app_assoc pre) in Hl.
  assert (IH' : forall host alpn, (st ← extensions_loop fuel (ext_of host alpn)
      (cur (pre ++ enc_extension e) (enc_extensions l));
    h ← ok_or (ext_host st) NoServerName; Ok (mkRouting h (ext_acme st))) = routing_of host alpn l)
    by (intros; apply IH; [done|lia]).
  destruct Hn as [Hd He]. unfold extension_step.
  destruct e as [names|protos|ty data]; cbn [ext_type ext_data ext_of seen_sni seen_alpn] in *.
  - cbn [Z.eqb SERVER_NAME_EXTENSION]. rewrite parse_server_name_enc by done.
    destruct host; [done|]. cbn [routing_of]. destruct (first_host names) as [h| |]; [|done..].
    apply (IH' (Some h) alpn).
  - cbn [Z.eqb SERVER_NAME_EXTENSION ALPN_EXTENSION Pos.eqb]. rewrite parse_alpn_enc by done.
    destruct alpn; [done|]. apply (IH' host (Some _)).
  - replace (ty =? SERVER_NAME_EXTENSION) with false by lia.
    replace (ty =? ALPN_EXTENSION) with false by lia. apply IH'.
Qed.

Lemma parse_client_hello_body_enc h :
  hello_fits h -> parse_client_hello_body (enc_hello h) = routing_of None None (hello_extensions h).
Proof.
  intros Hh. unfold parse_client_hello_body. rewrite read_hello_cur by done.
  rewrite cur_is_empty. cbn [length Z.of_nat Z.eqb negb].
  destruct Hh as (_&_&_&_&_&He&Hf).
  change (cursor_new ?b) with (cur [] b).
  change (mkExt None false false false) with (ext_of None None).
  apply extensions_loop_enc; [cbn [app]; lia|done|].
  assert (length (hello_extensions h) <= length (enc_extensions (hello_extensions h)))%nat; [|lia].
  clear. unfold enc_extensions. induction (hello_extensions h) as [|e l IH];
    cbn [fmap list_fmap concat length]; [done|].
  unfold enc_extension at 1. rewrite !length_app, length_be_bytes. lia.
Qed.

(** ** The peek loop *)

(** A peek is decided by the parse of a prefix; what a longer prefix decides, a
    shorter one decides or leaves open. *)
Lemma parse_peek stream n r :
  parse_client_hello stream = Ok (Complete r) ->
  parse_client_hello (take n stream) = Ok (Complete r) \/
  parse_client_hello (take n stream) = Ok IncompleteHello.
Proof.
  intros H. pose proof (parse_client_hello_app (take n stream) (drop n stream)) as Ha.
  rewrite take_drop, H in Ha.
  destruct (parse_client_hello (take n stream)) as [[r'|]|e|];
    [left; symmetry; by apply Ha|by right|by specialize (Ha ltac:(done))..].
Qed.

Section peek.
Context (hello rest : list byte) (r : ClientHelloRouting).
Hypothesis hello_ok : parse_client_hello hello = Ok (Complete r).
Hypothesis hello_short : len hello <= 131072.

Let stream := hello ++ rest.

Lemma hello_nonempty : 0 < len hello.
Proof using All. destruct hello; [done|cbn; lia]. Qed.

Lemma peek_cases n :
  parse_client_hello (ztake n stream) = Ok (Complete r) \/
  parse_client_hello (ztake n stream) = Ok IncompleteHello /\ n < len hello.
Proof using All.
  assert (Hs : parse_client_hello stream = Ok (Complete r))
    by (unfold stream; rewrite parse_client_hello_app, hello_ok; [done|by rewrite hello_ok]).
  destruct (parse_peek stream (Z.to_nat n) r Hs) as [H|H]; [by left|].
  right. split; [done|]. destruct (Z.ltb_spec n (len hello)); [done|]. exfalso.
  unfold stream in H. rewrite take_app_ge in H by lia.
  rewrite parse_client_hello_app, hello_ok in H; [done|by rewrite hello_ok].
Qed.

Lemma len_peek capacity n :
  1 <= capacity -> 1 <= n -> 1 <= len (ztake (Z.min capacity n) stream) <= Z.min capacity n.
Proof using All. intros. unfold stream. rewrite length_take, length_app. pose proof hello_nonempty. lia. Qed.

(** One peek: decided, or the loop goes on with a window below the maximum. *)
Lemma extract_step k n arrived :
  0 <= k <= 5 -> 1 <= n ->
  extract_sni_inner (4096 * 2 ^ k) stream (n :: arrived) = Some (Ok r) \/
  exists j, k <= j <= 5 /\ (len hello <= n -> k < j) /\
    extract_sni_inner (4096 * 2 ^ k) stream (n :: arrived)
    = extract_sni_inner (4096 * 2 ^ j) stream arrived.
Proof using All.
  intros Hk Hn. cbn [extract_sni_inner]. set (cap := 4096 * 2 ^ k).
  assert (Hc : 1 <= cap /\ (k < 5 -> cap <= 65536) /\ (k = 5 -> cap = 131072)).
  { unfold cap. assert (2 ^ 0 <= 2 ^ k) by (apply Z.pow_le_mono_r; lia).
    repeat split; [lia| |by intros ->]. intros. assert (2 ^ k <= 2 ^ 4) by (apply Z.pow_le_mono_r; lia). lia. }
  pose proof (len_peek cap n ltac:(lia) Hn) as Hl. replace (_ =? 0) with false by lia.
  destruct (peek_cases (Z.min cap n)) as [->|[-> Hs]]; [by left|]. right.
  cbn [encoded_wire_bytes CLIENT_HELLO_LIMITS].
  replace (cap =? 196608) with false by (destruct (Z.eq_dec k 5); lia).
  destruct (len (ztake (Z.min cap n) stream) =? cap) eqn:E.
  - assert (k < 5) by (destruct (Z.eq_dec k 5); lia).
    exists (k + 1). split; [lia|]. split; [lia|].
    rewrite Z.min_l by lia. unfold cap. by rewrite Z.pow_add_r, (Z.mul_assoc 4096) by lia.
  - exists k. split; [lia|]. split; [|done]. intros Hge.
    rewrite length_take in E. unfold stream in E. rewrite length_app in E. lia.
Qed.

Lemma extract_safe k arrived :
  0 <= k <= 5 -> Forall (fun n => 1 <= n) arrived ->
  extract_sni_inner (4096 * 2 ^ k) stream arrived = None \/
  extract_sni_inner (4096 * 2 ^ k) stream arrived = Some (Ok r).
Proof using All.
  intros Hk Ha. revert k Hk. induction Ha as [|n arrived Hn Ha IH]; intros k Hk; [by left|].
  destruct (extract_step k n arrived Hk Hn) as [->|(j&Hj&_&->)]; [by right|]. apply IH. lia.
Qed.

Lemma extract_live k early late :
  0 <= k <= 5 -> Forall (fun n => 1 <= n) early -> Forall (fun n => len hello <= n) late ->
  6 - k <= len late ->
  extract_sni_inner (4096 * 2 ^ k) stream (early ++ late) = Some (Ok r).
Proof using All.
  intros Hk He Hl Hn. revert k Hk Hn. induction He as [|n early Hn He IH]; intros k Hk Hc; cbn [app].
  - pose proof hello_nonempty. revert k Hk Hc.
    induction Hl as [|n late Hn Hl IHl]; intros k Hk Hc; [cbn in Hc; lia|].
    destruct (extract_step k n late Hk ltac:(lia)) as [->|(j&Hj&Hlt&->)]; [done|].
    specialize (Hlt Hn). cbn [length] in Hc. apply IHl; lia.
  - destruct (extract_step k n (early ++ late) Hk Hn) as [->|(j&Hj&_&->)]; [done|].
    apply IH; lia.
Qed.
End peek.

(** A shorter peek than an incomplete one is incomplete. *)
Lemma parse_incomplete_shorter stream m n :
  m <= n -> parse_client_hello (ztake n stream) = Ok IncompleteHello ->
  parse_client_hello (ztake m stream) = Ok IncompleteHello.
Proof.
  intros Hm Hn.
  destruct (decide (parse_client_hello (ztake m stream) = Ok IncompleteHello)) as [|Hd]; [done|].
  apply (parse_client_hello_app _ (drop (Z.to_nat m) (ztake n stream))) in Hd.
  replace (ztake m stream) with (take (Z.to_nat m) (ztake n stream)) in Hd
    by (rewrite take_take; f_equal; lia).
  rewrite take_drop, Hn in Hd. rewrite take_take, Nat.min_l in Hd by lia. by symmetry.
Qed.

(** A full incomplete window below the maximum doubles. *)
Lemma extract_grows capacity stream k arrived :
  1 <= capacity <= k -> capacity <= len stream -> capacity < 196608 ->
  parse_client_hello (ztake capacity stream) = Ok IncompleteHello ->
  extract_sni_inner capacity stream (k :: arrived)
  = extract_sni_inner (Z.min (capacity * 2) 196608) stream arrived.
Proof.
  intros Hk Hl Hc Hi. cbn [extract_sni_inner]. rewrite (Z.min_l capacity k) by lia.
  rewrite len_take by lia. replace (capacity =? 0) with false by lia. rewrite Hi.
  cbn [encoded_wire_bytes CLIENT_HELLO_LIMITS].
  replace (capacity =? 196608) with false by lia. by replace (capacity =? capacity) with true by lia.
Qed.

(** One record per byte. *)
Definition single_bytes (m : list byte) : list ((byte * byte) * list byte) :=
  (fun b => ((Byte.x03, Byte.x03), [b])) <$> m.

Lemma payloads_single m : payloads (single_bytes m) = m.
Proof. unfold payloads, single_bytes. induction m as [|b m IH]; [done|]. cbn in *. by rewrite IH. Qed.

Lemma single_bytes_ok lim m :
  1 <= record_payload_bytes lim ->
  Forall (fun r => snd r <> [] /\ len (snd r) <= record_payload_bytes lim) (single_bytes m).
Proof. intros. unfold single_bytes. induction m; constructor; [split; [done|cbn; lia]|done]. Qed.

(** The message cut in one-byte records is incomplete until its last record. *)
Lemma single_bytes_incomplete body n :
  len (hello_message body) <= handshake_message_bytes CLIENT_HELLO_LIMITS ->
  0 <= n <= 6 * (len (hello_message body) - 1) ->
  parse_client_hello (ztake n (records (single_bytes (hello_message body)))) = Ok IncompleteHello.
Proof.
  intros Hm Hn. set (m := hello_message body) in *.
  assert (Hne : m <> []) by done. destruct (exists_last Hne) as (m0&b&Eb).
  assert (Hs : parse_client_hello (records (single_bytes m0)) = Ok IncompleteHello).
  { apply (parse_client_hello_short (single_bytes m0) body [b]); [by apply single_bytes_ok| |done|done].
    by rewrite payloads_single. }
  assert (Hr : records (single_bytes m)
    = records (single_bytes m0) ++ tls_record (Byte.x03, Byte.x03) [b]).
  { rewrite Eb. unfold single_bytes, records. rewrite !fmap_app, concat_app. cbn. done. }
  assert (Hl : len (records (single_bytes m0)) = 6 * (len m - 1)).
  { rewrite len_records, payloads_single. unfold single_bytes. rewrite length_fmap, Eb, length_app.
    cbn [length]. lia. }
  rewrite Hr, take_app_le by lia.
  eapply parse_incomplete_shorter; [|rewrite (take_ge _ (Z.to_nat (6 * (len m - 1)))); [exact Hs|lia]]. lia.
Qed.

(** ** Claims *)

(** C32. Routing is read off a ClientHello however its bytes are cut into TLS
    records: any cut into non-empty records within the record limit, with any
    version bytes and anything following, yields the routing decision of the
    decoded message: the first host name and whether [acme-tls/1] is offered,
    or the error of the first offending extension.  The record-count and wire
    limits never refuse a message the handshake limit admits. *)
Theorem sni_routes_any_fragmentation (h : Hello) (rs : list ((byte * byte) * list byte)) (rest : list byte) :
  hello_fits h ->
  4 + len (enc_hello h) <= handshake_message_bytes CLIENT_HELLO_LIMITS ->
  Forall (fun r => snd r <> [] /\ len (snd r) <= record_payload_bytes CLIENT_HELLO_LIMITS) rs ->
  payloads rs = hello_message (enc_hello h) ->
  parse_client_hello (records rs ++ rest) = Complete <$> routing_of None None (hello_extensions h).
Proof.
  intros Hh Hm Hrs Hp. rewrite (parse_client_hello_records rs (enc_hello h)); [|done..|].
  - by rewrite parse_client_hello_body_enc.
  - by rewrite len_hello_message.
Qed.

(** A client offering two protocols, cut in three records. *)
Definition sample_hello : Hello :=
  mkHello (be_bytes 2 0x0303) (replicate 32 Byte.x07) [] (be_bytes 2 0x1301) [Byte.x00]
    [OtherExtension 43 (be_bytes 3 0x020304);
     ServerNames [(1, [Byte.x01]); (HOST_NAME, blit "home.example")];
     Protocols [blit "h2"; ACME_TLS_1]].
Definition sample_records : list ((byte * byte) * list byte) :=
  let m := hello_message (enc_hello sample_hello) in
  [((Byte.x03, Byte.x01), take 2 m); ((Byte.x03, Byte.x03), take 60 (drop 2 m));
   ((Byte.x03, Byte.x03), drop 62 m)].

Lemma sample_hello_fits : hello_fits sample_hello.
Proof.
  repeat split; try (vm_compute; congruence).
  repeat constructor; cbn [fst snd]; vm_compute; congruence.
Qed.

Lemma sni_routes_any_fragmentation_witness :
  parse_client_hello (records sample_records ++ [Byte.x17])
  = Ok (Complete (mkRouting (lit "home.example") true)).
Proof.
  rewrite (sni_routes_any_fragmentation sample_hello sample_records [Byte.x17]).
  - vm_compute. reflexivity.
  - apply sample_hello_fits.
  - vm_compute. congruence.
  - repeat constructor; vm_compute; congruence.
  - vm_compute. reflexivity.
Defined.

(** Every decision on a peeked prefix is final and none panics: a parse
    that completes or fails gives the same answer with any further bytes, so
    waiting for more can only help an incomplete one. *)
Theorem sni_decision_final (input more : list byte) :
  parse_client_hello input <> Panic /\
  (parse_client_hello input <> Ok IncompleteHello ->
   parse_client_hello (input ++ more) = parse_client_hello input).
Proof. split; [apply record_loop_total; lia|apply parse_client_hello_app]. Qed.

Lemma sni_decision_final_witness :
  parse_client_hello (records sample_records ++ blit "tail")
  = parse_client_hello (records sample_records).
Proof.
  apply (proj2 (sni_decision_final (records sample_records) (blit "tail"))).
  vm_compute. congruence.
Defined.

(** For a ClientHello of at most 131,072 wire bytes the peek loop's answer
    does not depend on how the bytes arrive: whatever was there at each peek,
    it is still waiting or has returned the routing; and six peeks with the
    whole hello available are enough to return it from any earlier point. *)
Theorem sni_peek_any_arrival (hello rest : list byte) (r : ClientHelloRouting) :
  parse_client_hello hello = Ok (Complete r) -> len hello <= 131072 ->
  (forall arrived, Forall (fun n => 1 <= n) arrived ->
     extract_sni_inner INITIAL_PEEK_BYTES (hello ++ rest) arrived = None \/
     extract_sni_inner INITIAL_PEEK_BYTES (hello ++ rest) arrived = Some (Ok r)) /\
  (forall early late, Forall (fun n => 1 <= n) early -> Forall (fun n => len hello <= n) late ->
     6 <= len late ->
     extract_sni_inner INITIAL_PEEK_BYTES (hello ++ rest) (early ++ late) = Some (Ok r)).
Proof.
  intros Hok Hs. split; intros.
  - apply (extract_safe hello rest r Hok Hs 0); [lia|done].
  - apply (extract_live hello rest r Hok Hs 0); [lia|done..|lia].
Qed.

Lemma sni_peek_any_arrival_witness :
  extract_sni_inner INITIAL_PEEK_BYTES (records sample_records ++ blit "more")
    ([1; 7; 50] ++ replicate 6 200) = Some (Ok (mkRouting (lit "home.example") true)).
Proof.
  apply (proj2 (sni_peek_any_arrival (records sample_records) (blit "more")
    (mkRouting (lit "home.example") true) ltac:(vm_compute; reflexivity) ltac:(vm_compute; congruence))).
  - repeat constructor; lia.
  - repeat constructor; vm_compute; congruence.
  - vm_compute. congruence.
Defined.

(** A hello as long as the handshake limit allows. *)
Definition long_hello : Hello :=
  mkHello (be_bytes 2 0x0303) (replicate 32 Byte.x07) [] (be_bytes 2 0x1301) [Byte.x00]
    [ServerNames [(HOST_NAME, blit "home.example")];
     OtherExtension 21 (replicate 32696 Byte.x00)].

(** The peek window reaches its maximum before a hello of more than
    131,072 wire bytes is complete, and the loop then refuses the first
    incomplete peek although bytes are still arriving: the same hello, within
    every limit and routed when it arrives in one piece, is refused when the
    seventh peek finds it unfinished. *)
Theorem sni_max_window_gives_up (hello : list byte) (r : ClientHelloRouting) (n : Z) :
  parse_client_hello hello = Ok (Complete r) ->
  len hello <= 196608 ->
  131072 < n -> parse_client_hello (ztake n hello) = Ok IncompleteHello ->
  extract_sni_inner INITIAL_PEEK_BYTES hello (replicate 7 (len hello)) = Some (Ok r) /\
  extract_sni_inner INITIAL_PEEK_BYTES hello [4096; 8192; 16384; 32768; 65536; 131072; n]
  = Some (Err MalformedClientHello).
Proof.
  intros Hok Hw Hn Hi.
  assert (n < len hello) by (destruct (Z.ltb_spec n (len hello)); [done|]; rewrite take_ge in Hi by lia; congruence).
  assert (Hg : forall c k arrived, 1 <= c <= k -> c <= 131072 ->
    extract_sni_inner c hello (k :: arrived) = extract_sni_inner (Z.min (c * 2) 196608) hello arrived).
  { intros. apply extract_grows; try lia. eapply parse_incomplete_shorter; [|exact Hi]. lia. }
  unfold INITIAL_PEEK_BYTES. cbn [replicate].
  split; (do 6 (rewrite Hg by lia; cbn [Z.mul Z.min Z.compare Pos.compare Pos.compare_cont Pos.mul]));
    cbn [extract_sni_inner].
  - rewrite Z.min_r, take_ge by lia. replace (len hello =? 0) with false by lia. by rewrite Hok.
  - rewrite Z.min_r, len_take by lia. replace (n =? 0) with false by lia. rewrite Hi. done.
Qed.

Lemma sni_max_window_gives_up_witness :
  extract_sni_inner INITIAL_PEEK_BYTES (records (single_bytes (hello_message (enc_hello long_hello))))
    [4096; 8192; 16384; 32768; 65536; 131072; 196602] = Some (Err MalformedClientHello).
Proof.
  assert (Hl : len (hello_message (enc_hello long_hello)) = 32768) by (vm_compute; reflexivity).
  assert (Hf : hello_fits long_hello).
  { repeat split; try (vm_compute; congruence).
    repeat constructor; cbn [fst snd]; vm_compute; congruence. }
  assert (Hb : parse_client_hello_body (enc_hello long_hello) = Ok (mkRouting (lit "home.example") false)).
  { rewrite parse_client_hello_body_enc by done. vm_compute. reflexivity. }
  generalize dependent (enc_hello long_hello). intros body Hl Hb.
  assert (Hr : len (records (single_bytes (hello_message body))) = 196608).
  { rewrite len_records, payloads_single. unfold single_bytes. rewrite length_fmap. lia. }
  apply (proj2 (sni_max_window_gives_up (records (single_bytes (hello_message body)))
    (mkRouting (lit "home.example") false) 196602
    ltac:(rewrite <- (app_nil_r (records _)), (parse_client_hello_records _ body);
          [by rewrite Hb|apply single_bytes_ok; vm_compute; congruence
          |apply payloads_single|rewrite Hl; vm_compute; congruence])
    ltac:(lia) ltac:(lia)
    ltac:(apply single_bytes_incomplete; [rewrite Hl; vm_compute; congruence|lia]))).
Defined.
