(* ===== verification/Dialer.v ===== *)
(** * The bridge's dialer connection ([crates/spl-bridge/src/frame_dialer.rs])

    The coordinator that runs many flow-controlled streams over one carrier:
    [Driver], and [run_connection]'s handling of each event it selects.  The
    tasks around it (carrier reader and writer, flush waiters, stream handles)
    are its environment: they appear as the events it receives and the effects
    it produces, in any order. *)

From S2P Require Import Prelude Frame Window.

Definition MAX_SEND_CREDIT : Z := 2 ^ 31 - 1.

Inductive ConnectionState := Live | Gone.

Inductive StreamEnd :=
| Closed
| Reset (reason : Z)
| ConnectionGone.

Inductive DialerError :=
| ConnectionClosed
| Retired
| StreamClosed
| StreamIdExhausted
| SendCreditExceeded
| ReceiveConsumptionExceeded
| FramingFailed (e : FrameError).

Inductive InboundEvent :=
| DataIn (bytes : list byte)
| EndIn (e : StreamEnd).

(** ** Streams *)

Record StreamSendState := mkSend { send_credit : Z; credit_flag : bool }.

(** [StreamSendState::new], [debit] and [grant] *)
Definition send_new : StreamSendState := mkSend INITIAL_WINDOW true.
Definition send_debit (s : StreamSendState) (bytes : Z) : res DialerError StreamSendState :=
  if bytes >? send_credit s then Err SendCreditExceeded
  else let c := send_credit s - bytes in Ok (mkSend c (negb (c =? 0))).
Definition send_grant (s : StreamSendState) (credit : Z) : res DialerError StreamSendState :=
  match checked_add 64 (send_credit s) credit with
  | Some next => if next <=? MAX_SEND_CREDIT then Ok (mkSend next true) else Err SendCreditExceeded
  | None => Err SendCreditExceeded
  end.

(** [inbound_open] is whether the stream handle still holds the receiving end of
    [inbound]; a pending write carries the id of its reply channel. *)
Record StreamState := mkStream {
  send : StreamSendState;
  receive : RecvWindow;
  received_unconsumed : Z;
  inbound_open : bool;
  pending_writes : list (list byte * Z);
  peer_closed : bool;
  local_closed : bool
}.

(** [StreamState::new] *)
Definition stream_new : StreamState := mkStream send_new window_new 0 true [] false false.

Definition set_send (s : StreamState) (x : StreamSendState) : StreamState :=
  mkStream x (receive s) (received_unconsumed s) (inbound_open s) (pending_writes s) (peer_closed s) (local_closed s).
Definition set_receive (s : StreamState) (w : RecvWindow) (n : Z) : StreamState :=
  mkStream (send s) w n (inbound_open s) (pending_writes s) (peer_closed s) (local_closed s).
Definition set_pending (s : StreamState) (l : list (list byte * Z)) : StreamState :=
  mkStream (send s) (receive s) (received_unconsumed s) (inbound_open s) l (peer_closed s) (local_closed s).
Definition set_closed (s : StreamState) (p l : bool) : StreamState :=
  mkStream (send s) (receive s) (received_unconsumed s) (inbound_open s) (pending_writes s) p l.
Definition drop_inbound (s : StreamState) : StreamState :=
  mkStream (send s) (receive s) (received_unconsumed s) false (pending_writes s) (peer_closed s) (local_closed s).

(** [StreamState::debit_received] *)
Definition debit_received (s : StreamState) (bytes : Z) : StreamState * res MuxError unit :=
  match debit (receive s) bytes with
  | (w, Ok _) =>
      match checked_add 64 (received_unconsumed s) bytes with
      | Some n => (set_receive s w n, Ok tt)
      | None => (set_receive s w (received_unconsumed s), Err FlowControl)
      end
  | (w, r) => (set_receive s w (received_unconsumed s), r)
  end.

(** [StreamState::consume_received]; [RecvWindow::consume] has no error, only
    panics. *)
Definition consume_received (s : StreamState) (bytes : Z) : StreamState * res DialerError (option Z) :=
  if bytes >? received_unconsumed s then (s, Err ReceiveConsumptionExceeded)
  else
    match consume (receive s) bytes with
    | (w, Ok g) => (set_receive s w (received_unconsumed s - bytes), Ok g)
    | (w, _) => (set_receive s w (received_unconsumed s - bytes), Panic)
    end.

(** ** The driver *)

(** [writer_open] is whether the writer task still holds its end of the channel,
    [retired] the flag shared with the handles. *)
Record Driver := mkDriver {
  ids : FrameDialer;
  decoder : FrameDecoder;
  streams : gmap Z StreamState;
  writer_open : bool;
  retired : bool
}.

Definition driver_new : Driver := mkDriver dialer_default decoder_new ∅ true false.

Definition set_streams (d : Driver) (m : gmap Z StreamState) : Driver :=
  mkDriver (ids d) (decoder d) m (writer_open d) (retired d).
Definition put (d : Driver) (sid : Z) (s : StreamState) : Driver := set_streams d (<[sid := s]> (streams d)).
Definition remove (d : Driver) (sid : Z) : Driver := set_streams d (delete sid (streams d)).

(** What leaves the driver: frames and flushes to the writer, events to a
    stream's inbound channel (with whether its handle is still there), and
    answers to reply channels. *)
Inductive effect :=
| Queued (f : Frame)
| Flush (reply : Z)
| Inbound (sid : Z) (e : InboundEvent) (delivered : bool)
| WriteReply (reply : Z) (r : res DialerError Z)
| OpenReply (reply : Z) (r : res DialerError Z)
| BoolReply (reply : Z) (ok : bool).

(** Methods of the driver: state, effects so far, and a result. *)
Definition M (A : Type) : Type := Driver -> Driver * list effect * res DialerError A.
#[export] Instance M_ret : MRet M := fun _ a d => (d, [], Ok a).
#[export] Instance M_bind : MBind M := fun _ _ f m d =>
  match m d with
  | (d1, e1, Ok a) => let '(d2, e2, r) := f a d1 in (d2, e1 ++ e2, r)
  | (d1, e1, Err e) => (d1, e1, Err e)
  | (d1, e1, Panic) => (d1, e1, Panic)
  end.

Definition emit (e : effect) : M unit := fun d => (d, [e], Ok tt).
Definition fail {A} (e : DialerError) : M A := fun d => (d, [], Err e).
Definition panic {A} : M A := fun d => (d, [], Panic).
Definition modify (f : Driver -> Driver) : M unit := fun d => (f d, [], Ok tt).
Definition stream_of (sid : Z) : M (option StreamState) := fun d => (d, [], Ok (streams d !! sid)).
(** [result.is_ok()] *)
Definition is_ok (m : M unit) : M bool := fun d =>
  match m d with
  | (d1, e1, Ok _) => (d1, e1, Ok true)
  | (d1, e1, Err _) => (d1, e1, Ok false)
  | (d1, e1, Panic) => (d1, e1, Panic)
  end.
Definition to_inbound (sid : Z) (s : StreamState) (e : InboundEvent) : M unit :=
  emit (Inbound sid e (inbound_open s)).

(** [Driver::queue_frame] *)
Definition queue_frame (f : Frame) : M unit := fun d =>
  match encode f with
  | Ok _ => if writer_open d then (d, [Queued f], Ok tt) else (d, [], Err ConnectionClosed)
  | Err e => (d, [], Err (FramingFailed e))
  | Panic => (d, [], Panic)
  end.

(** [Driver::open] *)
Definition open : M Z := fun d =>
  if retired d then (d, [], Err Retired)
  else
    let '(ids', stream_id) := allocate (ids d) in
    let d := mkDriver ids' (decoder d) (streams d) (writer_open d) (retired d) in
    if (stream_id =? 0) || bool_decide (is_Some (streams d !! stream_id)) then (d, [], Err StreamIdExhausted)
    else
      (_ ← queue_frame (mkFrame stream_id FLAG_OPEN []);
       _ ← modify (fun d => put d stream_id stream_new);
       mret stream_id) d.

(** [Driver::write] *)
Definition write (sid : Z) (bytes : list byte) (reply : Z) : M bool :=
  o ← stream_of sid;
  match o with
  | None => _ ← emit (WriteReply reply (Err StreamClosed)); mret true
  | Some s =>
      if local_closed s then _ ← emit (WriteReply reply (Err StreamClosed)); mret true
      else
        match send_debit (send s) (len bytes) with
        | Ok snd' =>
            _ ← modify (fun d => put d sid (set_send s snd'));
            ok ← is_ok (queue_frame (mkFrame sid FLAG_DATA bytes));
            if ok : bool then _ ← emit (WriteReply reply (Ok (len bytes))); mret true
            else _ ← emit (WriteReply reply (Err ConnectionClosed)); mret false
        | _ =>
            _ ← modify (fun d => put d sid (set_pending s (pending_writes s ++ [(bytes, reply)])));
            mret true
        end
  end.

(** [Driver::drain_pending_writes]; each round takes a pending write. *)
Fixpoint drain_pending_writes (fuel : nat) (sid : Z) : M bool :=
  match fuel with
  | O => panic
  | S fuel =>
      o ← stream_of sid;
      match o with
      | None => mret true
      | Some s =>
          match pending_writes s with
          | [] => mret true
          | (bytes, reply) :: rest =>
              match send_debit (send s) (len bytes) with
              | Ok snd' =>
                  _ ← modify (fun d => put d sid (set_pending (set_send s snd') rest));
                  ok ← is_ok (queue_frame (mkFrame sid FLAG_DATA bytes));
                  if ok : bool
                  then _ ← emit (WriteReply reply (Ok (len bytes))); drain_pending_writes fuel sid
                  else _ ← emit (WriteReply reply (Err ConnectionClosed)); mret false
              | _ => mret true
              end
          end
      end
  end.
Definition pending_fuel (sid : Z) : M nat := fun d =>
  (d, [], Ok (S (match streams d !! sid with Some s => length (pending_writes s) | None => 0%nat end))).

(** [Driver::reset_stream] *)
Definition reset_stream (sid reason : Z) : M bool :=
  o ← stream_of sid;
  match o with
  | None => mret true
  | Some s =>
      _ ← modify (fun d => remove d sid);
      _ ← to_inbound sid s (EndIn (Reset reason));
      is_ok (queue_frame (reset sid reason))
  end.

(** [Driver::consume] *)
Definition driver_consume (sid bytes : Z) : M bool :=
  o ← stream_of sid;
  match o with
  | None => mret true
  | Some s =>
      match consume_received s bytes with
      | (s', Ok grant) =>
          _ ← modify (fun d => put d sid s');
          match grant with
          | Some g => is_ok (queue_frame (window sid g))
          | None => mret true
          end
      | (s', Err _) => _ ← modify (fun d => put d sid s'); reset_stream sid RESET_PROTOCOL_ERROR
      | (_, Panic) => panic
      end
  end.

(** [Driver::close] *)
Definition close (sid : Z) : M bool :=
  o ← stream_of sid;
  match o with
  | None => mret true
  | Some s =>
      if local_closed s then mret true
      else
        _ ← modify (fun d => put d sid (set_closed s (peer_closed s) true));
        ok ← is_ok (queue_frame (mkFrame sid FLAG_CLOSE []));
        if ok : bool then
          _ ← (if peer_closed s then modify (fun d => remove d sid) else mret tt);
          mret true
        else mret false
  end.

(** The WINDOW branch of [Driver::receive]. *)
Definition receive_window (f : Frame) : M bool :=
  match window_credit f with
  | None => reset_stream (stream_id f) RESET_PROTOCOL_ERROR
  | Some credit =>
      o ← stream_of (stream_id f);
      match o with
      | None => fuel ← pending_fuel (stream_id f); drain_pending_writes fuel (stream_id f)
      | Some s =>
          match send_grant (send s) credit with
          | Ok snd' =>
              _ ← modify (fun d => put d (stream_id f) (set_send s snd'));
              fuel ← pending_fuel (stream_id f); drain_pending_writes fuel (stream_id f)
          | _ => reset_stream (stream_id f) RESET_FLOW_CONTROL_ERROR
          end
      end
  end.

(** The DATA part: [None] goes on to the CLOSE part. *)
Definition receive_data (f : Frame) : M (option bool) :=
  o ← stream_of (stream_id f);
  match o with
  | None => b ← reset_stream (stream_id f) RESET_PROTOCOL_ERROR; mret (Some b)
  | Some s =>
      if peer_closed s
      then b ← reset_stream (stream_id f) RESET_FLOW_CONTROL_ERROR; mret (Some b)
      else
        match debit_received s (len (payload f)) with
        | (s', Ok _) =>
            _ ← modify (fun d => put d (stream_id f) s');
            _ ← to_inbound (stream_id f) s (DataIn (payload f));
            if inbound_open s then mret None
            else b ← reset_stream (stream_id f) RESET_CANCEL; mret (Some b)
        | (s', _) =>
            _ ← modify (fun d => put d (stream_id f) s');
            b ← reset_stream (stream_id f) RESET_FLOW_CONTROL_ERROR; mret (Some b)
        end
  end.

(** The CLOSE part. *)
Definition receive_close (f : Frame) : M bool :=
  o ← stream_of (stream_id f);
  match o with
  | None => reset_stream (stream_id f) RESET_PROTOCOL_ERROR
  | Some s =>
      _ ← modify (fun d => put d (stream_id f) (set_closed s true (local_closed s)));
      _ ← to_inbound (stream_id f) s (EndIn Closed);
      _ ← (if local_closed s then modify (fun d => remove d (stream_id f)) else mret tt);
      mret true
  end.

(** [Driver::receive] *)
Definition receive_frame (f : Frame) : M bool :=
  if stream_id f =? 0 then
    match control_pong f with
    | Some pong => is_ok (queue_frame pong)
    | None => mret true
    end
  else if negb (flags_valid (flags f)) || has (flags f) FLAG_OPEN
  then reset_stream (stream_id f) RESET_PROTOCOL_ERROR
  else if flags f =? FLAG_WINDOW then receive_window f
  else if has (flags f) FLAG_RESET then
    o ← stream_of (stream_id f);
    match o with
    | None => mret true
    | Some s =>
        _ ← modify (fun d => remove d (stream_id f));
        _ ← to_inbound (stream_id f) s
              (EndIn (Reset (match payload f with b :: _ => u8 b | [] => 0xff end)));
        mret true
    end
  else
    r ← (if has (flags f) FLAG_DATA then receive_data f else mret None);
    match r with
    | Some b => mret b
    | None => if has (flags f) FLAG_CLOSE then receive_close f else mret true
    end.

(** [Driver::read_bytes]: every frame takes at least a header. *)
Fixpoint read_frames (fuel : nat) : M bool :=
  match fuel with
  | O => panic
  | S fuel => fun d =>
      let '(dec, r) := next_frame (decoder d) in
      let d := mkDriver (ids d) dec (streams d) (writer_open d) (retired d) in
      match r with
      | Ok (Some f) => (ok ← receive_frame f; if ok : bool then read_frames fuel else mret false) d
      | Ok None => (d, [], Ok true)
      | Err _ => (d, [], Ok false)
      | Panic => (d, [], Panic)
      end
  end.
Definition read_bytes (bytes : list byte) : M bool := fun d =>
  let d := mkDriver (ids d) (decoder_feed (decoder d) bytes) (streams d) (writer_open d) (retired d) in
  read_frames (S (length (buf (decoder d)))) d.

(** [Driver::finish]; the order of the drained streams is not specified. *)
Definition finish : M unit := fun d =>
  (set_streams d ∅,
   (fun p => Inbound (fst p) (EndIn ConnectionGone) (inbound_open (snd p))) <$> map_to_list (streams d),
   Ok tt).

(** ** [run_connection] *)

(** What the coordinator selects: commands of the handles, the carrier reader,
    the completion of an OPEN's flush ([alive]: its requester still waits), and
    the connection state published by the writer. *)
Inductive conn_event :=
| Open (reply : Z)
| Write (sid : Z) (bytes : list byte) (reply : Z)
| Consumed (sid bytes : Z)
| Close (sid reply : Z)
| ResetCmd (sid reason : Z)
| FlushCmd (reply : Z)
| Shutdown
| Bytes (b : list byte)
| ReaderGone
| OpenFlush (sid reply : Z) (flushed alive : bool)
| StateGone.

(** [writer.send(..).is_err()] for a flush. *)
Definition send_flush (reply : Z) : M bool := fun d =>
  if writer_open d then (d, [Flush reply], Ok true) else (d, [], Ok false).

(** One turn of the [select!]: the new [running]. *)
Definition conn_step (e : conn_event) : M bool :=
  match e with
  | Open reply => fun d =>
      match open d with
      | (d1, e1, Ok sid) =>
          if writer_open d1 then (d1, e1 ++ [Flush reply], Ok true)
          else (d1, e1 ++ [OpenReply reply (Err ConnectionClosed)], Ok false)
      | (d1, e1, Err err) =>
          (d1, e1 ++ [OpenReply reply (Err err)],
           Ok (match err with ConnectionClosed => false | _ => true end))
      | (d1, e1, Panic) => (d1, e1, Panic)
      end
  | Write sid bytes reply => write sid bytes reply
  | Consumed sid bytes => driver_consume sid bytes
  | Close sid reply =>
      keep_running ← close sid;
      if keep_running : bool then
        sent ← send_flush reply;
        if sent : bool then mret true else _ ← emit (BoolReply reply false); mret false
      else _ ← emit (BoolReply reply false); mret true
  | ResetCmd sid reason => reset_stream sid reason
  | FlushCmd reply => send_flush reply
  | Shutdown => mret false
  | Bytes b => read_bytes b
  | ReaderGone => mret false
  | OpenFlush sid reply flushed alive =>
      if flushed then
        if alive then _ ← emit (OpenReply reply (Ok sid)); mret true
        else reset_stream sid RESET_CANCEL
      else _ ← emit (OpenReply reply (Err ConnectionClosed)); reset_stream sid RESET_CANCEL
  | StateGone => mret false
  end.

(** What happens around the coordinator between two turns. *)
Inductive env_event :=
| Retire
| WriterGone
| HandleDropped (sid : Z).

Definition env_step (e : env_event) (d : Driver) : Driver :=
  match e with
  | Retire => mkDriver (ids d) (decoder d) (streams d) (writer_open d) true
  | WriterGone => mkDriver (ids d) (decoder d) (streams d) false (retired d)
  | HandleDropped sid => set_streams d (alter drop_inbound sid (streams d))
  end.

Inductive event := Conn (e : conn_event) | Env (e : env_event).

(** [run_connection]: turns until one stops it, then [finish]. *)
Fixpoint run_connection (evs : list event) : M bool :=
  match evs with
  | [] => mret true
  | Env e :: evs => _ ← modify (env_step e); run_connection evs
  | Conn e :: evs =>
      running ← conn_step e;
      if running : bool then run_connection evs else _ ← finish; mret false
  end.

(** ** Lifecycle of a stream, as its two sides see it *)

(** Whether the peer and the local side have closed; [None] is no stream. *)
Definition phase : Type := option (bool * bool).

Definition about (e : effect) : option Z :=
  match e with
  | Queued f => if stream_id f =? 0 then None else Some (stream_id f)
  | Inbound sid _ _ => Some sid
  | _ => None
  end.

(** The monitor: a stream's OPEN comes first and while there is none; DATA leaves
    only before the local CLOSE, WINDOW only while the stream lives, RESET only
    after it ended; data is delivered only before the peer's close, the end by
    close once both sides know it, and nothing follows a reset or the end of the
    connection. *)
Definition mon (x : phase) (e : effect) : option phase :=
  match e, x with
  | Queued f, None =>
      if flags f =? FLAG_OPEN then Some (Some (false, false))
      else if flags f =? FLAG_RESET then Some None else None
  | Queued f, Some (p, l) =>
      if flags f =? FLAG_WINDOW then Some x
      else if l then None
      else if flags f =? FLAG_DATA then Some x
      else if flags f =? FLAG_CLOSE then Some (if p then None else Some (p, true))
      else None
  | Inbound _ (DataIn _) _, Some (false, l) => Some x
  | Inbound _ (EndIn Closed) _, Some (p, l) => Some (if l then None else Some (true, l))
  | Inbound _ (EndIn (Reset _)) _, Some _ => Some None
  | Inbound _ (EndIn ConnectionGone) _, Some _ => Some None
  | Inbound _ _ _, _ => None
  | _, _ => Some x
  end.

Fixpoint mon_run (sid : Z) (x : phase) (es : list effect) : option phase :=
  match es with
  | [] => Some x
  | e :: es => if decide (about e = Some sid) then x' ← mon x e; mon_run sid x' es else mon_run sid x es
  end.

Lemma dmon_run_app sid x es es' :
  mon_run sid x (es ++ es') = x' ← mon_run sid x es; mon_run sid x' es'.
Proof.
  revert x. induction es as [|e es IH]; intros x; [done|]. cbn [app mon_run].
  case_decide; [|apply IH]. destruct (mon x e); [apply IH|done].
Qed.

(** The monitor's view of a stream; once the writer is gone the peer can not see
    a local close any more. *)
Definition agrees (w : bool) (o : option StreamState) (x : phase) : Prop :=
  match o, x with
  | Some s, Some (p, l) =>
      p = peer_closed s /\ (l = true -> local_closed s = true) /\ (w = true -> l = local_closed s)
  | Some _, None => False
  | None, Some _ => w = false
  | None, None => True
  end.

Definition stream_ok (w : bool) (sid : Z) (s : StreamState) : Prop :=
  is_u32 sid /\ sid <> 0 /\ wf_window (receive s) /\
  received_unconsumed s = outstanding (receive s) /\
  0 <= send_credit (send s) <= MAX_SEND_CREDIT /\
  Forall (fun p => len (fst p) <= RECOMMENDED_CHUNK) (pending_writes s) /\
  (w = true -> match pending_writes s with p :: _ => send_credit (send s) < len (fst p) | [] => True end) /\
  (pending_writes s <> [] -> local_closed s = false).

Record dinv (d : Driver) : Prop := {
  di_ids : is_u32 (next (ids d));
  di_streams : forall sid s, streams d !! sid = Some s -> stream_ok (writer_open d) sid s
}.

(** A run of effects between two states keeps every stream's monitor going. *)
Definition follows (d : Driver) (es : list effect) (d' : Driver) : Prop :=
  forall sid x, agrees (writer_open d) (streams d !! sid) x ->
  exists x', mon_run sid x es = Some x' /\ agrees (writer_open d') (streams d' !! sid) x'.

Lemma follows_trans d1 d2 d3 es es' :
  follows d1 es d2 -> follows d2 es' d3 -> follows d1 (es ++ es') d3.
Proof.
  intros H1 H2 sid x Hx. destruct (H1 sid x Hx) as (x1&E1&Hx1). destruct (H2 sid x1 Hx1) as (x2&E2&Hx2).
  exists x2. split; [|done]. by rewrite dmon_run_app, E1.
Qed.

(** Effects about one stream only touch that stream. *)
Lemma follows_one d es d' sid :
  writer_open d' = writer_open d ->
  (forall k, k <> sid -> streams d' !! k = streams d !! k) ->
  Forall (fun e => about e = Some sid \/ about e = None) es ->
  (forall x, agrees (writer_open d) (streams d !! sid) x ->
     exists x', mon_run sid x es = Some x' /\ agrees (writer_open d) (streams d' !! sid) x') ->
  follows d es d'.
Proof.
  intros Hw Ho He Hs k x Hx. rewrite Hw. destruct (decide (k = sid)) as [->|Hk]; [by apply Hs|].
  exists x. split; [|by rewrite Ho]. clear -He Hk. revert x. induction He as [|e es [Hab|Hab] He IH]; intros x; [done|..];
    cbn [mon_run]; rewrite Hab; rewrite decide_False by congruence; apply IH.
Qed.

(** What a method owes: no panic, no error, the invariant, the monitors. *)
Definition spec {A} (m : M A) (d : Driver) : Prop :=
  let '(d', es, r) := m d in
  (exists a, r = Ok a) /\ dinv d' /\ follows d es d' /\ writer_open d' = writer_open d.

Lemma spec_bind {A B} (m : M A) (f : A -> M B) d :
  spec m d -> (forall a d', dinv d' -> writer_open d' = writer_open d -> spec (f a) d') -> spec (m ≫= f) d.
Proof.
  unfold spec, mbind, M_bind. destruct (m d) as [[d1 e1] r1]. intros ([a ->]&Hi&Hf&Hw) Hk.
  specialize (Hk a d1 Hi Hw). destruct (f a d1) as [[d2 e2] r2]. destruct Hk as (Hr&Hi2&Hf2&Hw2).
  split; [done|]. split; [done|]. split; [by eapply follows_trans|congruence].
Qed.

Lemma spec_ret {A} (a : A) d : dinv d -> spec (mret a) d.
Proof. intros Hi. split; [by exists a|]. split; [done|]. split; [|done]. intros sid x Hx. by exists x. Qed.

(** Answers are not about a stream. *)
Lemma spec_emit e d : dinv d -> about e = None -> spec (emit e) d.
Proof.
  intros Hi He. split; [by exists tt|]. split; [done|]. split; [|done].
  intros sid x Hx. exists x. split; [|done]. cbn [mon_run]. by rewrite He.
Qed.

Lemma queue_frame_eval f d :
  wf_frame f ->
  queue_frame f d = if writer_open d then (d, [Queued f], Ok tt) else (d, [], Err ConnectionClosed).
Proof. intros Hf. unfold queue_frame. by rewrite encode_ok. Qed.

Lemma is_ok_queue_eval f d :
  wf_frame f ->
  is_ok (queue_frame f) d = (d, if writer_open d then [Queued f] else [], Ok (writer_open d)).
Proof. intros Hf. unfold is_ok. rewrite queue_frame_eval by done. by destruct (writer_open d). Qed.

Lemma dinv_put d sid s :
  dinv d -> stream_ok (writer_open d) sid s -> dinv (put d sid s).
Proof.
  intros [Hi Hs] Hok. split; [done|]. cbn. intros k t. rewrite lookup_insert_Some.
  intros [[<- <-]|[_ Hk]]; [done|by apply Hs].
Qed.

Lemma dinv_remove d sid : dinv d -> dinv (remove d sid).
Proof.
  intros [Hi Hs]. split; [done|]. cbn. intros k t. rewrite lookup_delete_Some. intros [_ Hk]. by apply Hs.
Qed.

Lemma small_frame sid fl p :
  is_u32 sid -> 0 <= fl < 128 -> len p <= RECOMMENDED_CHUNK -> wf_frame (mkFrame sid fl p).
Proof.
  intros Hs Hf Hp. unfold wf_frame, MAX_PAYLOAD, RECOMMENDED_CHUNK in *. cbn [stream_id flags payload].
  split; [done|]. lia.
Qed.

Ltac frame_ok := apply small_frame; [assumption|vm_compute; split; congruence
                                    |first [vm_compute; congruence|cbn [length be_bytes]; unfold RECOMMENDED_CHUNK; lia]].

(** Run the monitor of the stream an effect list is about. *)
Ltac run_mon :=
  cbn [mon_run about stream_id reset window app];
  repeat first
    [rewrite decide_True by (first [done|by rewrite (proj2 (Z.eqb_neq _ _))])
    |progress cbn [mon_run mon mbind option_bind app]].

(** The stream is unknown: nothing happens. *)
Lemma reset_stream_absent sid reason d :
  streams d !! sid = None -> reset_stream sid reason d = (d, [], Ok true).
Proof. intros E. unfold reset_stream, stream_of, mbind, M_bind. by rewrite E. Qed.

Lemma reset_stream_eval sid reason d s :
  is_u32 sid -> streams d !! sid = Some s ->
  reset_stream sid reason d =
  (remove d sid, Inbound sid (EndIn (Reset reason)) (inbound_open s) ::
                 (if writer_open d then [Queued (reset sid reason)] else []), Ok (writer_open d)).
Proof.
  intros Hs E. unfold reset_stream, stream_of, mbind at 1, M_bind at 1. rewrite E.
  unfold mbind, M_bind, modify, to_inbound, emit.
  rewrite is_ok_queue_eval by (unfold reset; frame_ok). done.
Qed.

Lemma reset_stream_spec sid reason d : dinv d -> spec (reset_stream sid reason) d.
Proof.
  intros Hi. destruct (streams d !! sid) as [s|] eqn:E.
  2:{ unfold spec. rewrite reset_stream_absent by done. apply (spec_ret true d Hi). }
  destruct (di_streams d Hi sid s E) as (Hu&H0&_). unfold spec. rewrite (reset_stream_eval sid reason d s) by done.
  split; [by eexists|]. split; [by apply dinv_remove|]. split; [|done].
  apply (follows_one d _ _ sid); [done| | |].
  - intros k Hk. cbn. by rewrite lookup_delete_ne.
  - constructor; [by left|]. destruct (writer_open d); [|constructor]. constructor; [|constructor].
    left. cbn. by rewrite (proj2 (Z.eqb_neq _ _)).
  - intros x Hx. rewrite E in Hx. cbn in Hx. destruct x as [[p l]|]; [|done].
    exists None. cbn [mon_run about]. rewrite decide_True by done. cbn [mon mbind option_bind].
    cbn [streams remove set_streams]. rewrite lookup_delete_eq. split; [|done].
    destruct (writer_open d); [|done]. cbn [mon_run about reset stream_id].
    rewrite (proj2 (Z.eqb_neq _ _)) by done. by rewrite decide_True.
Qed.

Definition same_closed (s s' : StreamState) : Prop :=
  peer_closed s' = peer_closed s /\ local_closed s' = local_closed s.

Lemma agrees_same w s s' x : same_closed s s' -> agrees w (Some s) x -> agrees w (Some s') x.
Proof. intros [Hp Hl]. unfold agrees. by rewrite Hp, Hl. Qed.

(** A stream's record changes, its closed bits do not, and nothing or one DATA
    or WINDOW frame leaves. *)
Lemma follows_put d sid s s' :
  streams d !! sid = Some s -> same_closed s s' -> follows d [] (put d sid s').
Proof.
  intros E Hc. apply (follows_one d _ _ sid); [done| |constructor|].
  - intros k Hk. cbn. by rewrite lookup_insert_ne.
  - intros x Hx. exists x. split; [done|]. cbn. rewrite lookup_insert_eq. rewrite E in Hx. by eapply agrees_same.
Qed.

Lemma follows_frame d sid s s' fl p :
  sid <> 0 -> streams d !! sid = Some s -> same_closed s s' ->
  (fl = FLAG_DATA /\ local_closed s = false \/ fl = FLAG_WINDOW) ->
  follows d (if writer_open d then [Queued (mkFrame sid fl p)] else []) (put d sid s').
Proof.
  intros H0 E Hc Hfl. destruct (writer_open d) eqn:Hw; [|by eapply follows_put].
  apply (follows_one d _ _ sid); [done| | |].
  - intros k Hk. cbn. by rewrite lookup_insert_ne.
  - constructor; [|constructor]. left. cbn. by rewrite (proj2 (Z.eqb_neq _ _)).
  - intros x Hx. exists x. split.
    + rewrite E, Hw in Hx. destruct x as [[q l]|]; [|done]. destruct Hx as (_&_&Hl). specialize (Hl eq_refl).
      cbn [mon_run about stream_id]. rewrite (proj2 (Z.eqb_neq _ _)) by done. rewrite decide_True by done.
      cbn [mon flags]. destruct Hfl as [[-> Hcl]| ->]; [|done]. by rewrite Hl, Hcl.
    + cbn. rewrite lookup_insert_eq. rewrite E in Hx. by eapply agrees_same.
Qed.

(** An answer after the fact. *)
Lemma follows_answer d es d' e : follows d es d' -> about e = None -> follows d (es ++ [e]) d'.
Proof.
  intros H He. eapply follows_trans; [done|]. intros sid x Hx. exists x. split; [|done]. cbn [mon_run]. by rewrite He.
Qed.

Lemma send_debit_cases s n :
  0 <= n ->
  (n <= send_credit s /\ exists s', send_debit s n = Ok s' /\ send_credit s' = send_credit s - n) \/
  (send_credit s < n /\ send_debit s n = Err SendCreditExceeded).
Proof.
  intros Hn. unfold send_debit. destruct (Z.gtb_spec n (send_credit s)); [right; done|left].
  split; [lia|]. by eexists.
Qed.

(** The driver after a write was taken from the queue or sent at once. *)
Lemma send_write_eval {A} d sid s' b (k : bool -> M A) :
  is_u32 sid -> len b <= RECOMMENDED_CHUNK ->
  (_ ← modify (fun d => put d sid s'); ok ← is_ok (queue_frame (mkFrame sid FLAG_DATA b)); k ok) d =
  let '(d2, e2, r) := k (writer_open d) (put d sid s') in
  (d2, (if writer_open d then [Queued (mkFrame sid FLAG_DATA b)] else []) ++ e2, r).
Proof.
  intros Hs Hb. unfold mbind, M_bind, modify.
  rewrite is_ok_queue_eval by (by apply small_frame; [|vm_compute; split; congruence|]).
  cbn [writer_open put set_streams]. by destruct (k (writer_open d) (put d sid s')) as [[d2 e2] r].
Qed.

Lemma bind_stream_of {A} sid (f : option StreamState -> M A) d :
  (stream_of sid ≫= f) d = f (streams d !! sid) d.
Proof. unfold mbind, M_bind, stream_of. by destruct (f (streams d !! sid) d) as [[d2 e2] r]. Qed.

Lemma spec_stream_of {A} sid (f : option StreamState -> M A) d :
  spec (f (streams d !! sid)) d -> spec (stream_of sid ≫= f) d.
Proof. unfold spec. by rewrite bind_stream_of. Qed.

Lemma spec_answer {A} e (m : M A) d : about e = None -> spec m d -> spec (_ ← emit e; m) d.
Proof.
  intros He Hm. unfold spec, mbind, M_bind, emit in *. destruct (m d) as [[d2 e2] r].
  destruct Hm as (Hr&Hi2&Hf&Hw). split; [done|]. split; [done|]. split; [|done].
  eapply (follows_trans d d); [|exact Hf]. intros sid x Hx. exists x. split; [|done]. cbn [mon_run]. by rewrite He.
Qed.

(** The rest of a method, after effects that led to [d1]. *)
Lemma spec_prefix {A} (m : M A) d es d1 :
  follows d es d1 -> writer_open d1 = writer_open d -> spec m d1 ->
  let '(d2, e2, r) := m d1 in
  (exists a, r = Ok a) /\ dinv d2 /\ follows d (es ++ e2) d2 /\ writer_open d2 = writer_open d.
Proof.
  intros Hf Hw Hs. unfold spec in Hs. destruct (m d1) as [[d2 e2] r]. destruct Hs as (?&?&?&?).
  split; [done|]. split; [done|]. split; [by eapply follows_trans|congruence].
Qed.

Lemma spec_frame_first {A} d sid s s' b (k : bool -> M A) :
  is_u32 sid -> sid <> 0 -> len b <= RECOMMENDED_CHUNK -> streams d !! sid = Some s -> same_closed s s' ->
  local_closed s = false -> spec (k (writer_open d)) (put d sid s') ->
  spec (_ ← modify (fun d => put d sid s'); ok ← is_ok (queue_frame (mkFrame sid FLAG_DATA b)); k ok) d.
Proof.
  intros Hu H0 Hb E Hc Hl Hk. unfold spec. rewrite send_write_eval by done.
  pose proof (spec_prefix (k (writer_open d)) d _ (put d sid s')
    (follows_frame d sid s s' FLAG_DATA b H0 E Hc ltac:(by left)) eq_refl Hk) as H.
  by destruct (k (writer_open d) (put d sid s')) as [[d2 e2] r].
Qed.

Lemma stream_ok_send w sid s c l :
  stream_ok w sid s -> 0 <= send_credit c <= MAX_SEND_CREDIT ->
  Forall (fun p => len (fst p) <= RECOMMENDED_CHUNK) l ->
  (w = true -> match l with p :: _ => send_credit c < len (fst p) | [] => True end) ->
  (l <> [] -> local_closed s = false) ->
  stream_ok w sid (set_pending (set_send s c) l).
Proof.
  intros (?&?&?&?&?&?&?&?) ????. unfold stream_ok.
  cbn [set_pending set_send receive received_unconsumed send pending_writes local_closed]. tauto.
Qed.

Lemma write_spec sid b reply d : dinv d -> len b <= RECOMMENDED_CHUNK -> spec (write sid b reply) d.
Proof.
  intros Hi Hb. apply spec_stream_of. destruct (streams d !! sid) as [s|] eqn:E;
    [|apply spec_answer; [done|by apply spec_ret]].
  destruct (local_closed s) eqn:El; [apply spec_answer; [done|by apply spec_ret]|].
  pose proof (di_streams d Hi sid s E) as Hok. pose proof Hok as (Hu&H0&Hw&Hr&Hc&Hp&Hh&Hl).
  destruct (send_debit_cases (send s) (len b) ltac:(lia)) as [(Hle&c&->&Hc')|(Hgt&->)].
  - apply (spec_frame_first d sid s); [done..|].
    assert (Hi' : dinv (put d sid (set_send s c))).
    { apply dinv_put; [done|]. apply (stream_ok_send _ sid s c (pending_writes s)); [done|lia|done| |done].
      intros Hwr. specialize (Hh Hwr). destruct (pending_writes s); [done|lia]. }
    destruct (writer_open d); (apply spec_answer; [done|by apply spec_ret]).
  - unfold spec, mbind, M_bind, modify, mret, M_ret. split; [by eexists|]. split; [|split; [|done]].
    + apply dinv_put; [done|]. apply (stream_ok_send _ sid s (send s)); [done..| | |done].
      * apply list.Forall_app. split; [done|]. by repeat constructor.
      * intros Hwr. specialize (Hh Hwr). by destruct (pending_writes s).
    + by apply (follows_put d sid s).
Qed.

(** Draining restores that no waiting write fits: the invariant may be broken in
    that one respect before. *)
Definition drained (s : StreamState) : StreamState := set_pending s [].

Lemma set_pending_nil s : pending_writes s = [] -> set_pending s [] = s.
Proof. destruct s. cbn. by intros ->. Qed.

Lemma drain_pending_writes_spec sid fuel : forall d s,
  dinv (put d sid (drained s)) -> streams d !! sid = Some s ->
  (Forall (fun p => len (fst p) <= RECOMMENDED_CHUNK) (pending_writes s)) ->
  (pending_writes s <> [] -> local_closed s = false) ->
  (length (pending_writes s) < fuel)%nat ->
  spec (drain_pending_writes fuel sid) d.
Proof.
  induction fuel as [|fuel IH]; intros d s Hi E Hp Hl Hf; [lia|]. cbn [drain_pending_writes].
  apply spec_stream_of. rewrite E.
  assert (Hok : stream_ok (writer_open d) sid (drained s)) by (apply (di_streams _ Hi); cbn; apply lookup_insert_eq).
  assert (Hput : forall t, stream_ok (writer_open d) sid t -> dinv (put d sid t)).
  { intros t Ht. apply (dinv_put (put d sid (drained s)) sid t Hi) in Ht.
    unfold put, set_streams in *. cbn in Ht. by rewrite insert_insert_eq in Ht. }
  assert (Hself : put d sid s = d) by (unfold put, set_streams; rewrite insert_id by done; by destruct d).
  pose proof Hok as (Hu&H0&Hw&Hr&Hc&_&_&_). cbn [drained set_pending send receive received_unconsumed] in *.
  destruct (pending_writes s) as [|[b reply] rest] eqn:Ep.
  { apply spec_ret. rewrite <- Hself. apply Hput. by rewrite <- (set_pending_nil s Ep). }
  apply Forall_cons_1 in Hp as [Hb Hp]. cbn [fst] in Hb. specialize (Hl ltac:(done)).
  destruct (send_debit_cases (send s) (len b) ltac:(lia)) as [(Hle&c&->&Hc')|(Hgt&->)].
  - assert (Hok' : stream_ok (writer_open d) sid (drained (set_send s c))).
    { apply (stream_ok_send _ sid (drained s) c []); [done|lia|constructor|done|done]. }
    set (s1 := set_pending (set_send s c) rest).
    assert (Hi1 : dinv (put (put d sid s1) sid (drained s1))).
    { unfold put, set_streams. cbn. rewrite insert_insert_eq. apply (Hput (drained s1)). done. }
    assert (E1 : streams (put d sid s1) !! sid = Some s1) by apply lookup_insert_eq.
    apply (spec_frame_first d sid s); [done..|]. fold s1. destruct (writer_open d) eqn:Hwo.
    + apply spec_answer; [done|]. apply (IH _ s1); [done..|]. cbn [length] in Hf. cbn. lia.
    + apply spec_answer; [done|]. apply spec_ret. apply Hput. unfold s1.
      apply (stream_ok_send _ sid (drained s) c rest); [done|lia|done|done|done].
  - apply spec_ret. rewrite <- Hself. apply Hput. unfold stream_ok. rewrite Ep. cbn [fst].
    assert (Forall (fun p : list byte * Z => len (fst p) <= RECOMMENDED_CHUNK) ((b, reply) :: rest)) by (by constructor).
    tauto.
Qed.

Lemma spec_put {A} d sid s s' (m : M A) :
  streams d !! sid = Some s -> same_closed s s' -> spec m (put d sid s') ->
  spec (_ ← modify (fun d => put d sid s'); m) d.
Proof.
  intros E Hc Hm.
  pose proof (spec_prefix m d [] (put d sid s') (follows_put d sid s s' E Hc) eq_refl Hm) as H.
  unfold spec, mbind, M_bind, modify. by destruct (m (put d sid s')) as [[d2 e2] r].
Qed.

Lemma spec_window d sid s g :
  dinv d -> streams d !! sid = Some s -> spec (is_ok (queue_frame (window sid g))) d.
Proof.
  intros Hi E. destruct (di_streams d Hi sid s E) as (Hu&H0&_).
  assert (Hself : put d sid s = d) by (unfold put, set_streams; rewrite insert_id by done; by destruct d).
  pose proof (follows_frame d sid s s FLAG_WINDOW (be_bytes 4 g) H0 E ltac:(done) ltac:(by right)) as Hf.
  rewrite Hself in Hf. unfold spec. rewrite is_ok_queue_eval by (unfold window; frame_ok).
  split; [by eexists|]. done.
Qed.

Lemma driver_consume_spec sid n d : dinv d -> 0 <= n -> spec (driver_consume sid n) d.
Proof.
  intros Hi Hn. apply spec_stream_of. destruct (streams d !! sid) as [s|] eqn:E; [|by apply spec_ret].
  pose proof (di_streams d Hi sid s E) as Hok. pose proof Hok as (Hu&H0&Hw&Hr&Hc&Hp&Hh&Hl).
  unfold consume_received. destruct (Z.gtb_spec n (received_unconsumed s)) as [Hgt|Hle].
  { apply (spec_put d sid s); [done..|]. apply reset_stream_spec. by apply dinv_put. }
  destruct (consume_ok (receive s) n Hw ltac:(lia)) as (w'&g&->&Hw'&_&Ho&_).
  apply (spec_put d sid s); [done..|].
  assert (Hi' : dinv (put d sid (set_receive s w' (received_unconsumed s - n)))).
  { apply dinv_put; [done|]. unfold stream_ok. cbn [set_receive receive received_unconsumed send pending_writes local_closed].
    rewrite Ho, Hr. tauto. }
  destruct g as [g|]; [|by apply spec_ret].
  eapply spec_window; [done|]. apply lookup_insert_eq.
Qed.

Lemma send_close_eval d sid s' (p : bool) :
  is_u32 sid ->
  (_ ← modify (fun d => put d sid s');
   ok ← is_ok (queue_frame (mkFrame sid FLAG_CLOSE []));
   if ok : bool then _ ← (if p then modify (fun d => remove d sid) else mret tt); mret true
   else mret false) d
  = (if writer_open d && p then remove (put d sid s') sid else put d sid s',
     if writer_open d then [Queued (mkFrame sid FLAG_CLOSE [])] else [], Ok (writer_open d)).
Proof.
  intros Hs. unfold mbind, M_bind, modify. rewrite is_ok_queue_eval by frame_ok.
  cbn [writer_open put set_streams]. by destruct (writer_open d), p.
Qed.

Lemma close_spec sid d :
  dinv d -> (forall s, streams d !! sid = Some s -> pending_writes s = []) -> spec (close sid) d.
Proof.
  intros Hi Hpend. apply spec_stream_of. destruct (streams d !! sid) as [s|] eqn:E; [|by apply spec_ret].
  specialize (Hpend s eq_refl). destruct (local_closed s) eqn:El; [by apply spec_ret|].
  pose proof (di_streams d Hi sid s E) as Hok. pose proof Hok as (Hu&H0&Hw&Hr&Hc&Hp&Hh&Hl).
  set (s' := set_closed s (peer_closed s) true).
  assert (Hok' : stream_ok (writer_open d) sid s').
  { unfold stream_ok, s'. cbn [set_closed receive received_unconsumed send pending_writes local_closed]. by rewrite Hpend. }
  unfold spec. rewrite (send_close_eval d sid s' (peer_closed s)) by done.
  split; [by eexists|]. split; [|split; [|by destruct (_ && _)]].
  { destruct (writer_open d && peer_closed s); [by apply dinv_remove, dinv_put|by apply dinv_put]. }
  apply (follows_one d _ _ sid).
  - by destruct (_ && _).
  - intros k Hk. destruct (_ && _); cbn; rewrite ?lookup_delete_ne, lookup_insert_ne by done; done.
  - destruct (writer_open d); [|constructor]. constructor; [|constructor]. left. cbn.
    by rewrite (proj2 (Z.eqb_neq _ _)).
  - intros x Hx. rewrite E in Hx. destruct x as [[p l]|]; [|done]. destruct Hx as (->&Hx1&Hx2).
    destruct (writer_open d) eqn:Hwo; cbn [andb].
    + rewrite El in Hx2. rewrite (Hx2 eq_refl) in *. clear Hx2.
      cbn [mon_run about stream_id]. rewrite (proj2 (Z.eqb_neq _ _)) by done. rewrite decide_True by done.
      eexists. split; [reflexivity|]. destruct (peer_closed s) eqn:Epc; cbn.
      * by rewrite lookup_delete_eq.
      * rewrite lookup_insert_eq. by split_and!.
    + exists (Some (peer_closed s, l)). split; [done|]. cbn. rewrite lookup_insert_eq. by split_and!.
Qed.

Lemma bind_pending_fuel {A} sid (f : nat -> M A) d :
  (pending_fuel sid ≫= f) d =
  f (S (match streams d !! sid with Some s => length (pending_writes s) | None => 0%nat end)) d.
Proof.
  unfold mbind, M_bind, pending_fuel.
  by destruct (f (S (match streams d !! sid with Some s => length (pending_writes s) | None => 0%nat end)) d)
    as [[d2 e2] r].
Qed.

Lemma receive_window_spec f d : dinv d -> spec (receive_window f) d.
Proof.
  intros Hi. unfold receive_window. destruct (window_credit f) as [c|] eqn:Ec; [|by apply reset_stream_spec].
  apply window_credit_range in Ec. set (sid := stream_id f).
  apply spec_stream_of. destruct (streams d !! sid) as [s|] eqn:E.
  2:{ unfold spec. rewrite bind_pending_fuel, E. cbn [drain_pending_writes]. rewrite bind_stream_of, E.
      apply (spec_ret true d Hi). }
  pose proof (di_streams d Hi sid s E) as Hok. pose proof Hok as (Hu&H0&Hw&Hr&Hc&Hp&Hh&Hl).
  unfold send_grant, checked_add, MAX_SEND_CREDIT in *. replace (_ <? 2 ^ 64) with true by lia.
  destruct (Z.leb_spec (send_credit (send s) + c) (2 ^ 31 - 1)) as [Hle|Hgt]; [|by apply reset_stream_spec].
  set (s' := set_send s (mkSend (send_credit (send s) + c) true)).
  apply (spec_put d sid s); [done..|]. unfold spec. rewrite bind_pending_fuel.
  assert (E' : streams (put d sid s') !! sid = Some s') by apply lookup_insert_eq. rewrite E'.
  apply (drain_pending_writes_spec sid _ (put d sid s') s'); [|done..|cbn; lia].
  unfold put, set_streams. cbn [streams ids decoder writer_open retired]. rewrite insert_insert_eq.
  apply (dinv_put d sid (drained s')); [done|]. 
  apply (stream_ok_send _ sid s (mkSend (send_credit (send s) + c) true) []);
    [done|cbn; unfold MAX_SEND_CREDIT; lia|constructor|done|done].
Qed.

(** The stream ends without a frame from here: a RESET from the peer. *)
Lemma peer_reset_spec sid s reason d :
  dinv d -> streams d !! sid = Some s ->
  spec (_ ← modify (fun d => remove d sid); _ ← to_inbound sid s (EndIn (Reset reason)); mret true) d.
Proof.
  intros Hi E. unfold spec, mbind, M_bind, modify, to_inbound, emit, mret, M_ret. cbn [app].
  split; [by eexists|]. split; [by apply dinv_remove|]. split; [|done].
  apply (follows_one d _ _ sid); [done| | |].
  - intros k Hk. cbn. by rewrite lookup_delete_ne.
  - repeat constructor.
  - intros x Hx. rewrite E in Hx. destruct x as [[p l]|]; [|done]. exists None.
    cbn [mon_run about]. rewrite decide_True by done. split; [done|]. cbn. by rewrite lookup_delete_eq.
Qed.

Lemma receive_close_spec f d : dinv d -> spec (receive_close f) d.
Proof.
  intros Hi. set (sid := stream_id f). apply spec_stream_of. fold sid.
  destruct (streams d !! sid) as [s|] eqn:E; [|by apply reset_stream_spec].
  pose proof (di_streams d Hi sid s E) as Hok.
  assert (Hi' : dinv (put d sid (set_closed s true (local_closed s)))) by (by apply dinv_put).
  assert (Hev : (_ ← modify (fun d => put d sid (set_closed s true (local_closed s)));
     _ ← to_inbound sid s (EndIn Closed);
     _ ← (if local_closed s then modify (fun d => remove d sid) else mret tt); mret true : M bool) d
    = (if local_closed s then remove (put d sid (set_closed s true (local_closed s))) sid
       else put d sid (set_closed s true (local_closed s)), [Inbound sid (EndIn Closed) (inbound_open s)], Ok true)).
  { unfold mbind, M_bind, modify, to_inbound, emit, mret, M_ret. by destruct (local_closed s). }
  unfold spec. rewrite Hev. split; [by eexists|].
  split; [destruct (local_closed s); [by apply dinv_remove|done]|]. split; [|by destruct (local_closed s)].
  apply (follows_one d _ _ sid); [by destruct (local_closed s)| |by repeat constructor|].
  - intros k Hk. destruct (local_closed s); cbn; rewrite ?lookup_delete_ne, lookup_insert_ne by done; done.
  - intros x Hx. rewrite E in Hx. destruct x as [[p l]|]; [|done]. destruct Hx as (->&Hx1&Hx2).
    cbn [mon_run about]. rewrite decide_True by done. eexists. split; [reflexivity|].
    destruct l.
    + rewrite (Hx1 eq_refl). cbn. by rewrite lookup_delete_eq.
    + destruct (local_closed s) eqn:El; cbn.
      * rewrite lookup_delete_eq. destruct (writer_open d); [|done]. by specialize (Hx2 eq_refl).
      * by rewrite lookup_insert_eq.
Qed.

Lemma spec_deliver {A} d sid s s' b (m : M A) :
  streams d !! sid = Some s -> same_closed s s' -> peer_closed s = false -> spec m (put d sid s') ->
  spec (_ ← modify (fun d => put d sid s'); _ ← to_inbound sid s (DataIn b); m) d.
Proof.
  intros E Hc Ep Hm.
  assert (Hf : follows d [Inbound sid (DataIn b) (inbound_open s)] (put d sid s')).
  { apply (follows_one d _ _ sid); [done| |by repeat constructor|].
    - intros k Hk. cbn. by rewrite lookup_insert_ne.
    - intros x Hx. exists x. rewrite E in Hx. split.
      + destruct x as [[p l]|]; [|done]. destruct Hx as (->&_). rewrite Ep.
        cbn [mon_run about]. by rewrite decide_True.
      + cbn. rewrite lookup_insert_eq. by apply (agrees_same _ s). }
  pose proof (spec_prefix m d _ (put d sid s') Hf eq_refl Hm) as H.
  unfold spec, mbind, M_bind, modify, to_inbound, emit. by destruct (m (put d sid s')) as [[d2 e2] r].
Qed.

Lemma receive_data_spec f d : dinv d -> spec (receive_data f) d.
Proof.
  intros Hi. set (sid := stream_id f). apply spec_stream_of. fold sid.
  assert (Hreset : forall d' reason, dinv d' ->
    spec (b ← reset_stream sid reason; mret (Some b) : M (option bool)) d').
  { intros. apply spec_bind; [by apply reset_stream_spec|]. intros. by apply spec_ret. }
  destruct (streams d !! sid) as [s|] eqn:E; [|by apply Hreset].
  destruct (peer_closed s) eqn:Ep; [by apply Hreset|].
  pose proof (di_streams d Hi sid s E) as Hok. pose proof Hok as (Hu&H0&Hw&Hr&Hc&Hp&Hh&Hl).
  unfold debit_received. destruct (decide (len (payload f) <= credit (receive s))) as [Hle|Hgt].
  2:{ rewrite debit_err by lia. apply (spec_put d sid s); [done..|]. apply Hreset. by apply dinv_put. }
  destruct (debit_ok (receive s) (len (payload f)) Hw ltac:(lia)) as (w'&->&Hw'&_&Ho).
  unfold checked_add. replace (_ <? 2 ^ 64) with true; cycle 1.
  { rewrite Hr, <- Ho. clear -Hw'. symmetry. apply Z.ltb_lt. window_arith. }
  set (s' := set_receive s w' (received_unconsumed s + len (payload f))).
  assert (Hi' : dinv (put d sid s')).
  { apply dinv_put; [done|]. unfold stream_ok, s'.
    cbn [set_receive receive received_unconsumed send pending_writes local_closed]. rewrite Ho, Hr. tauto. }
  apply spec_deliver; [done..|]. destruct (inbound_open s); [by apply spec_ret|by apply Hreset].
Qed.

Lemma receive_frame_spec f d : wf_frame f -> dinv d -> spec (receive_frame f) d.
Proof.
  intros Hf Hi. unfold receive_frame. destruct (stream_id f =? 0) eqn:E0.
  { unfold control_pong. destruct (_ && _) eqn:Ec; [|by apply spec_ret].
    unfold spec. rewrite is_ok_queue_eval.
    - split; [by eexists|]. split; [done|]. split; [|done]. intros sid x Hx. exists x. split; [|done].
      by destruct (writer_open d).
    - destruct Hf as (_&_&Hl). by split_and!. }
  destruct (_ || _); [by apply reset_stream_spec|].
  destruct (flags f =? FLAG_WINDOW); [by apply receive_window_spec|].
  destruct (has (flags f) FLAG_RESET).
  { apply spec_stream_of. destruct (streams d !! stream_id f) as [s|] eqn:E; [|by apply spec_ret].
    by apply peer_reset_spec. }
  apply spec_bind.
  - destruct (has (flags f) FLAG_DATA); [by apply receive_data_spec|by apply spec_ret].
  - intros [b|] d' Hi' _; [by apply spec_ret|].
    destruct (has (flags f) FLAG_CLOSE); [by apply receive_close_spec|by apply spec_ret].
Qed.

(** Handling a frame leaves the read buffer alone. *)
Definition keeps {A} (m : M A) : Prop := forall d, decoder (fst (fst (m d))) = decoder d.

Lemma keeps_bind {A B} (m : M A) (f : A -> M B) : keeps m -> (forall a, keeps (f a)) -> keeps (m ≫= f).
Proof.
  intros Hm Hf d. unfold mbind, M_bind. specialize (Hm d). destruct (m d) as [[d1 e1] [a| |]]; [|done..].
  specialize (Hf a d1). destruct (f a d1) as [[d2 e2] r]. cbn in *. congruence.
Qed.

Lemma keeps_is_ok m : keeps m -> keeps (is_ok m).
Proof. intros Hm d. unfold is_ok. specialize (Hm d). by destruct (m d) as [[d1 e1] [| |]]. Qed.

Lemma keeps_queue f : keeps (queue_frame f).
Proof. intros d. unfold queue_frame. destruct (encode f); [|done..]. by destruct (writer_open d). Qed.

Lemma keeps_stream_of sid : keeps (stream_of sid).
Proof. done. Qed.

Ltac keep :=
  repeat first
    [progress intros
    |apply keeps_bind
    |apply keeps_is_ok
    |apply keeps_queue
    |apply keeps_stream_of
    |match goal with |- keeps (match ?x with _ => _ end) => destruct x end
    |done].

Lemma keeps_reset_stream sid reason : keeps (reset_stream sid reason).
Proof. unfold reset_stream, to_inbound. keep. Qed.

Lemma keeps_drain fuel sid : keeps (drain_pending_writes fuel sid).
Proof. induction fuel as [|fuel IH]; [done|]. cbn [drain_pending_writes]. keep. Qed.

Lemma keeps_receive_frame f : keeps (receive_frame f).
Proof.
  pose proof (keeps_reset_stream (stream_id f)). pose proof (fun n => keeps_drain n (stream_id f)).
  unfold receive_frame, receive_window, receive_data, receive_close, to_inbound. keep; auto.
Qed.

Lemma set_decoder_spec {A} d dec (m : M A) :
  dinv d ->
  let d1 := mkDriver (ids d) dec (streams d) (writer_open d) (retired d) in
  (dinv d1 -> spec m d1) ->
  let '(d2, es, r) := m d1 in
  (exists a, r = Ok a) /\ dinv d2 /\ follows d es d2 /\ writer_open d2 = writer_open d.
Proof. intros [Hn Hs] d1 Hm. apply Hm. by split. Qed.

Lemma read_frames_spec fuel : forall d,
  dinv d -> (length (buf (decoder d)) < fuel)%nat -> spec (read_frames fuel) d.
Proof.
  induction fuel as [|fuel IH]; intros d Hi Hf; [lia|]. unfold spec. cbn [read_frames].
  pose proof (next_frame_spec (decoder d)) as Hn.
  destruct (next_frame (decoder d)) as [dec [[f|]|e|]] eqn:E; [|subst dec|destruct Hn as [-> _]|done].
  - destruct Hn as [Hwf Hb].
    apply (set_decoder_spec d dec (ok ← receive_frame f; if ok : bool then read_frames fuel else mret false)); [done|].
    intros Hi1.
    pose proof (receive_frame_spec f _ Hwf Hi1) as Hr. unfold spec in Hr |- *. unfold mbind, M_bind.
    set (d1 := mkDriver (ids d) dec (streams d) (writer_open d) (retired d)) in *.
    pose proof (keeps_receive_frame f d1) as Hdec.
    destruct (receive_frame f d1) as [[d2 e2] r2]. destruct Hr as ([b ->]&Hi2&Hf2&Hw2). cbn [fst] in Hdec.
    assert (Hs : spec (if b then read_frames fuel else mret false) d2).
    { destruct b; [|by apply spec_ret]. apply IH; [done|]. rewrite Hdec. cbn.
      rewrite Hb, length_app in Hf. pose proof (len_wire f) as Hlw. unfold HEADER_LEN in Hlw. lia. }
    pose proof (spec_prefix _ d1 e2 d2 Hf2 Hw2 Hs) as H. cbv beta in H.
    by destruct ((if b then read_frames fuel else mret false) d2) as [[d3 e3] r3].
  - exact (set_decoder_spec d (decoder d) (mret true) Hi (spec_ret true _)).
  - exact (set_decoder_spec d (decoder d) (mret false) Hi (spec_ret false _)).
Qed.

Lemma read_bytes_spec b d : dinv d -> spec (read_bytes b) d.
Proof.
  intros Hi. unfold spec, read_bytes.
  apply (set_decoder_spec d _ (read_frames _) Hi). intros Hi1. apply read_frames_spec; [done|]. lia.
Qed.

Lemma open_spec reply d : dinv d -> spec (conn_step (Open reply)) d.
Proof.
  intros Hi. unfold spec. cbn [conn_step]. unfold open. destruct (retired d).
  { split; [by eexists|]. split; [done|]. split; [|done]. intros sid x Hx. by exists x. }
  unfold allocate. set (sid := next (ids d)).
  set (d1 := mkDriver (mkFrameDialer (wrap 32 (next (ids d) + 2))) (decoder d) (streams d) (writer_open d) false).
  destruct Hi as [Hn Hs].
  assert (Hi1 : dinv d1) by (split; [apply Z.mod_pos_bound; lia|done]).
  assert (Hsame : follows d [] d1) by (intros k x Hx; by exists x).
  cbn [streams d1]. destruct (_ || _) eqn:Eb.
  { split; [by eexists|]. split; [done|]. split; [|done]. by apply (follows_answer d []). }
  apply orb_false_iff in Eb as [H0 Hd]. apply Z.eqb_neq in H0. apply bool_decide_eq_false in Hd.
  rewrite <- eq_None_not_Some in Hd.
  unfold mbind, M_bind. rewrite queue_frame_eval by frame_ok. cbn [writer_open d1].
  destruct (writer_open d) eqn:Hw.
  - unfold modify, mret, M_ret. cbn [app writer_open put set_streams]. cbn [writer_open d1].
    split; [by eexists|]. split; [|split; [|done]].
    + apply dinv_put; [done|]. cbn [writer_open d1]. split_and!; try done; unfold MAX_SEND_CREDIT; cbn; try done; lia.
    + apply (follows_answer d [_]); [|done]. apply (follows_one d _ _ sid); [by cbn; rewrite Hw| | |].
      * intros k Hk. cbn. by rewrite lookup_insert_ne.
      * constructor; [|constructor]. left. cbn. by rewrite (proj2 (Z.eqb_neq _ _)).
      * intros x Hx. rewrite Hd in Hx. destruct x as [[p l]|]; [cbn in Hx; congruence|].
        exists (Some (false, false)). cbn [mon_run about stream_id].
        rewrite (proj2 (Z.eqb_neq _ _)) by done. rewrite decide_True by done. split; [done|].
        cbn. by rewrite lookup_insert_eq.
  - split; [by eexists|]. split; [done|]. split; [|done]. by apply (follows_answer d []).
Qed.

Lemma send_flush_spec reply d : dinv d -> spec (send_flush reply) d.
Proof.
  intros Hi. unfold spec, send_flush. destruct (writer_open d) eqn:Hw; (split; [by eexists|]); (split; [done|]);
    (split; [|done]); intros sid x Hx; exists x; by split.
Qed.

(** What the handles may ask: chunks as [poll_write] cuts them, counts and codes
    in range, and no close over a write that still waits for credit. *)
Definition event_ok (d : Driver) (e : conn_event) : Prop :=
  match e with
  | Write _ b _ => len b <= RECOMMENDED_CHUNK
  | Consumed _ n => 0 <= n
  | Close sid _ => forall s, streams d !! sid = Some s -> pending_writes s = []
  | _ => True
  end.

Lemma conn_step_spec e d : dinv d -> event_ok d e -> spec (conn_step e) d.
Proof.
  intros Hi He. destruct e as [reply|sid b reply|sid n|sid reply|sid reason|reply| |b| |sid reply flushed alive|];
    cbn [event_ok] in He; [by apply open_spec|cbn [conn_step]..].
  - by apply write_spec.
  - by apply driver_consume_spec.
  - apply spec_bind; [by apply close_spec|]. intros [|] d' Hi' _.
    + apply spec_bind; [by apply send_flush_spec|]. intros [|] d2 Hi2 _; [by apply spec_ret|].
      apply spec_answer; [done|by apply spec_ret].
    + apply spec_answer; [done|by apply spec_ret].
  - by apply reset_stream_spec.
  - by apply send_flush_spec.
  - by apply spec_ret.
  - by apply read_bytes_spec.
  - by apply spec_ret.
  - destruct flushed; [destruct alive|].
    + apply spec_answer; [done|by apply spec_ret].
    + by apply reset_stream_spec.
    + apply spec_answer; [done|by apply reset_stream_spec].
  - by apply spec_ret.
Qed.

Lemma mon_run_gone sid (l : list (Z * StreamState)) x :
  NoDup (fst <$> l) ->
  mon_run sid x ((fun p => Inbound (fst p) (EndIn ConnectionGone) (inbound_open (snd p))) <$> l)
  = if decide (sid ∈ (fst <$> l)) then match x with Some _ => Some None | None => None end else Some x.
Proof.
  intros Hnd. revert x. induction l as [|[k s] l IH]; intros x; cbn [fmap list_fmap mon_run about fst snd].
  { rewrite decide_False; [done|apply not_elem_of_nil]. }
  cbn [fmap list_fmap fst] in Hnd. apply list.NoDup_cons in Hnd as [Hk Hnd]. specialize (IH Hnd).
  destruct (decide (k = sid)) as [->|Hne].
  - rewrite decide_True by done. rewrite (decide_True (P := sid ∈ sid :: _)) by left.
    destruct x as [[p q]|]; [|done]. cbn [mon mbind option_bind]. rewrite IH. by rewrite decide_False.
  - rewrite decide_False by congruence. rewrite IH. destruct (decide (sid ∈ (fst <$> l))) as [Hin|Hin].
    + rewrite decide_True; [done|by right].
    + rewrite decide_False; [done|]. by intros [?|?]%elem_of_cons.
Qed.

Lemma finish_spec d : dinv d -> spec finish d.
Proof.
  intros [Hn Hs]. unfold spec, finish. split; [by eexists|]. split; [|split; [|done]].
  { split; [done|]. cbn. intros sid s. by rewrite lookup_empty. }
  intros sid x Hx. rewrite mon_run_gone by apply NoDup_fst_map_to_list. cbn. rewrite lookup_empty.
  destruct (streams d !! sid) as [s|] eqn:E.
  - rewrite decide_True; [destruct x; [by exists None|done]|].
    apply list_elem_of_fmap. exists (sid, s). split; [done|]. by apply elem_of_map_to_list.
  - rewrite decide_False; [by exists x|].
    intros ([k s]&->&Hk)%list_elem_of_fmap. apply elem_of_map_to_list in Hk. cbn in E. congruence.
Qed.

Lemma env_step_inv e d : dinv d -> dinv (env_step e d) /\ follows d [] (env_step e d).
Proof.
  intros [Hn Hs]. destruct e as [| |sid]; (split; [split; [done|]|]); cbn.
  - done.
  - intros k x Hx. by exists x.
  - intros k s Hk. destruct (Hs k s Hk) as (?&?&?&?&?&?&_&?). split_and!; try done; lia.
  - intros k x Hx. exists x. split; [done|]. cbn. destruct (streams d !! k), x as [[p l]|]; cbn in *; try done.
    by destruct Hx as (?&?&_).
  - intros k s. rewrite lookup_alter_Some. intros [(<-&t&Ht&->)|[_ Hk]]; [|by apply Hs]. by apply (Hs sid t).
  - intros k x Hx. exists x. split; [done|]. cbn. destruct (decide (k = sid)) as [->|Hne].
    + rewrite lookup_alter_eq. by destruct (streams d !! sid).
    + by rewrite lookup_alter_ne.
Qed.

(** A run in which the handles keep to [event_ok]. *)
Fixpoint clean (evs : list event) (d : Driver) : Prop :=
  match evs with
  | [] => True
  | Env e :: evs => clean evs (env_step e d)
  | Conn e :: evs => event_ok d e /\
      match conn_step e d with (d', _, Ok true) => clean evs d' | _ => True end
  end.

Lemma run_connection_spec evs : forall d,
  dinv d -> clean evs d ->
  exists d' es b, run_connection evs d = (d', es, Ok b) /\ dinv d' /\ follows d es d' /\
    (b = false -> streams d' = ∅).
Proof.
  induction evs as [|[e|e] evs IH]; intros d Hi Hc; cbn [run_connection clean] in *.
  - exists d, [], true. split; [done|]. split; [done|]. split; [|done]. intros sid x Hx. by exists x.
  - destruct Hc as [He Hc]. pose proof (conn_step_spec e d Hi He) as Hs. unfold spec in Hs.
    unfold mbind at 1, M_bind at 1. destruct (conn_step e d) as [[d1 e1] r]. destruct Hs as ([b ->]&Hi1&Hf1&_).
    destruct b.
    + destruct (IH d1 Hi1 Hc) as (d2&e2&b&->&Hi2&Hf2&Hb). exists d2, (e1 ++ e2), b.
      split; [done|]. split; [done|]. split; [by eapply follows_trans|done].
    + pose proof (finish_spec d1 Hi1) as Hfin. unfold spec in Hfin.
      unfold mbind, M_bind. unfold finish in *. destruct Hfin as (_&Hi2&Hf2&_).
      eexists _, _, false. split; [reflexivity|]. split; [done|]. split; [|done].
      rewrite app_nil_r. by eapply follows_trans.
  - destruct (env_step_inv e d Hi) as [Hi1 Hf1]. destruct (IH _ Hi1 Hc) as (d2&e2&b&Hr&Hi2&Hf2&Hb).
    exists d2, e2, b. unfold mbind, M_bind, modify. rewrite Hr. split; [done|]. split; [done|].
    split; [|done]. by apply (follows_trans d _ d2 [] e2 Hf1).
Qed.

Lemma dinv_new : dinv driver_new.
Proof. split; [vm_compute; split; congruence|]. intros sid s. cbn. by rewrite lookup_empty. Qed.

(** ** Claims *)

(** C19. The bridge's carrier coordinator keeps every stream in order whatever
    happens around it: for any sequence of handle commands (no close over a
    write still waiting for credit), carrier bytes, flush completions, dropped
    handles, retirement and loss of the writer, it never panics; each stream's
    frames and delivered events follow the stream protocol (OPEN first, no DATA
    after CLOSE, no data after the peer's close, nothing after a reset); while it
    runs the credits and receive books of every stream are in bounds and no write
    that fits its credit is left waiting; and when it stops every stream is gone. *)
Theorem dialer_keeps_streams evs :
  clean evs driver_new ->
  exists d es running, run_connection evs driver_new = (d, es, Ok running) /\
  (forall sid, exists x, mon_run sid None es = Some x) /\
  (forall sid s, streams d !! sid = Some s ->
     0 <= send_credit (send s) <= MAX_SEND_CREDIT /\
     received_unconsumed s = outstanding (receive s) /\ wf_window (receive s) /\
     (writer_open d = true ->
      match pending_writes s with (b, _) :: _ => send_credit (send s) < len b | [] => True end)) /\
  (running = false -> streams d = ∅).
Proof.
  intros Hc. destruct (run_connection_spec evs driver_new dinv_new Hc) as (d&es&b&Hr&[_ Hs]&Hf&Hb).
  exists d, es, b. split; [done|]. split; [|split; [|done]].
  - intros sid. destruct (Hf sid None) as (x&Hx&_); [by cbn; rewrite lookup_empty|by exists x].
  - intros sid s Hk. destruct (Hs sid s Hk) as (_&_&?&?&?&_&Hh&_). split_and!; try done; [lia..|].
    intros Hw. specialize (Hh Hw). by destruct (pending_writes s) as [|[b' r] l].
Qed.

(** Open a stream, write, and be answered and reset by the peer. *)
Definition sample_events : list event :=
  [Conn (Open 1); Conn (OpenFlush 1 1 true true); Conn (Write 1 (repeat Byte.x61 5) 2);
   Conn (Bytes (wire (mkFrame 1 FLAG_DATA (repeat Byte.x62 3))));
   Conn (Consumed 1 3); Conn (Close 1 3); Env (HandleDropped 1);
   Conn (Bytes (wire (mkFrame 1 FLAG_RESET [Byte.x05])))].

Lemma dialer_keeps_streams_witness :
  exists d es running, run_connection sample_events driver_new = (d, es, Ok running) /\
  (forall sid, exists x, mon_run sid None es = Some x).
Proof.
  destruct (dialer_keeps_streams sample_events) as (d&es&b&Hr&Hm&_); [|by exists d, es, b].
  vm_compute. repeat split; try congruence; intros s E; by injection E as <-.
Defined.

(** The stream and flag octet of a queued frame. *)
Definition queued_head (e : effect) : option (Z * Z) :=
  match e with Queued f => Some (stream_id f, flags f) | _ => None end.

(** A close does not wait for, and does not drop, writes that still wait for
    credit: the CLOSE frame leaves first, and the next grant sends the waiting
    bytes behind it. *)
Theorem dialer_close_overtakes_write :
  exists evs d es,
    run_connection evs driver_new = (d, es, Ok true) /\
    mon_run 1 None es = None /\
    omap queued_head es
    = [(1, FLAG_OPEN)] ++ repeat (1, FLAG_DATA) 16 ++ [(1, FLAG_CLOSE); (1, FLAG_DATA)].
Proof.
  set (evs := [Conn (Open 1)] ++ repeat (Conn (Write 1 (repeat Byte.x61 (Z.to_nat 65536)) 2)) 16 ++
          [Conn (Write 1 [Byte.x62] 3); Conn (Close 1 4); Conn (Bytes (wire (window 1 1)))]).
  assert (H : (let '(_, es, r) := run_connection evs driver_new in
               (r, mon_run 1 None es, omap queued_head es))
    = (Ok true, None,
       [(1, FLAG_OPEN)] ++ repeat (1, FLAG_DATA) 16 ++ [(1, FLAG_CLOSE); (1, FLAG_DATA)]))
    by (vm_compute; reflexivity).
  exists evs. clearbody evs. destruct (run_connection evs driver_new) as [[d es] r].
  injection H as -> Hm Hq. by exists d, es.
Qed.

Lemma receive_unknown_stream d f :
  stream_id f <> 0 -> streams d !! stream_id f = None ->
  receive_frame f d = (d, [], Ok true).
Proof.
  intros Hz Hn. unfold receive_frame. replace (stream_id f =? 0) with false by lia.
  assert (Hs : stream_of (stream_id f) d = (d, [], Ok None)) by (unfold stream_of; by rewrite Hn).
  assert (Hr : forall n, reset_stream (stream_id f) n d = (d, [], Ok true)).
  { intros n. unfold reset_stream, mbind, M_bind. by rewrite Hs. }
  destruct (_ || _); [apply Hr|]. destruct (flags f =? FLAG_WINDOW).
  { unfold receive_window. destruct (window_credit f); [|apply Hr].
    unfold pending_fuel, mbind, M_bind. rewrite Hs, Hn. cbn [drain_pending_writes].
    unfold mbind, M_bind. by rewrite Hs. }
  destruct (has (flags f) FLAG_RESET); [unfold mbind, M_bind; by rewrite Hs|].
  unfold receive_data, receive_close, mbind, M_bind.
  destruct (has (flags f) FLAG_DATA); [by rewrite Hs, Hr|].
  destruct (has (flags f) FLAG_CLOSE); [|done]. cbn [mret M_ret app]. unfold mret, M_ret. by rewrite Hs, Hr.
Qed.

(** The dialer answers no desynchronised peer: a frame for a stream that is not
    live, whatever it asserts, and a frame on stream zero that is not a
    well-formed PING, change nothing, send nothing and let the carrier go on. *)
Theorem dialer_ignores_desync d f :
  (stream_id f <> 0 /\ streams d !! stream_id f = None) \/
  (stream_id f = 0 /\ control_pong f = None) ->
  receive_frame f d = (d, [], Ok true).
Proof.
  intros [[Hz Hn]|[Hz Hp]]; [by apply receive_unknown_stream|].
  unfold receive_frame. by rewrite Hz, Hp.
Qed.

Lemma dialer_ignores_desync_witness :
  receive_frame (mkFrame 5 FLAG_DATA [Byte.x61]) driver_new = (driver_new, [], Ok true) /\
  receive_frame (mkFrame 0 FLAG_DATA [Byte.x61]) driver_new = (driver_new, [], Ok true).
Proof.
  split; apply dialer_ignores_desync; [left|right]; (split; [|reflexivity]); cbn; lia.
Defined.
