(* ===== verification/DialerHandle.v ===== *)
(** * The dialer's stream handle ([crates/spl-bridge/src/frame_dialer.rs])

    [DialerStream], the byte-stream handle of one stream of a dialer
    connection: its polls, and the command and reply channels between it and
    the coordinator of [Dialer].  [Handle] is one handle with the connection it
    belongs to; a poll and a turn of the coordinator are separate steps. *)

From S2P Require Import Prelude Frame Window Dialer.

Inductive IoErrorKind := BrokenPipe | InvalidData | ConnectionReset | UnexpectedEof.

(** What a poll returns. *)
Inductive Poll (A : Type) :=
| PollPending
| PollErr (k : IoErrorKind)
| PollReady (a : A).
Arguments PollPending {A}.
Arguments PollErr {A} _.
Arguments PollReady {A} _.

Definition dialer_io_error (e : DialerError) : IoErrorKind :=
  match e with StreamClosed | ConnectionClosed => BrokenPipe | _ => InvalidData end.

(** [inbound] is the receiving end of the stream's channel, [inbound_live]
    whether its sender still exists.  A pending future is the number of the
    reply channel it waits on.  [credit_seen] is the last value of the credit
    watch, [credit_live] whether its sender still exists. *)
Record DialerStream := mkDialerStream {
  ds_id : Z;
  inbound : list InboundEvent;
  inbound_live : bool;
  ds_read_buffer : list byte;
  stream_end : option StreamEnd;
  credit_seen : bool;
  credit_live : bool;
  pending_write : option Z;
  pending_flush : option Z;
  pending_shutdown : option Z;
  write_closed : bool;
  reset_on_drop : bool
}.

(** What arrives on a reply channel. *)
Inductive Reply := ReplyWrite (r : res DialerError Z) | ReplyBool (ok : bool).

Record Handle := mkHandle {
  dr : Driver;
  conn_live : bool;                   (* the coordinator still runs *)
  conn_commands : list conn_event;
  replies : gmap Z Reply;
  next_reply : Z;
  ds : DialerStream;
  queued_frames : list Frame          (* what the writer was given *)
}.

(** [FrameDialer::open_stream], from the reply on. *)
Definition stream_handle (sid : Z) : DialerStream :=
  mkDialerStream sid [] true [] None true true None None None false true.

Definition set_ds (x : DialerStream) (h : Handle) : Handle :=
  mkHandle (dr h) (conn_live h) (conn_commands h) (replies h) (next_reply h) x (queued_frames h).
Definition ds_reading (i : list InboundEvent) (b : list byte) (e : option StreamEnd) (x : DialerStream) : DialerStream :=
  mkDialerStream (ds_id x) i (inbound_live x) b e (credit_seen x) (credit_live x) (pending_write x) (pending_flush x)
    (pending_shutdown x) (write_closed x) (reset_on_drop x).
Definition ds_waiting (w f s : option Z) (x : DialerStream) : DialerStream :=
  mkDialerStream (ds_id x) (inbound x) (inbound_live x) (ds_read_buffer x) (stream_end x) (credit_seen x) (credit_live x)
    w f s (write_closed x) (reset_on_drop x).
Definition ds_shut (x : DialerStream) : DialerStream :=
  mkDialerStream (ds_id x) (inbound x) (inbound_live x) (ds_read_buffer x) (stream_end x) (credit_seen x) (credit_live x)
    (pending_write x) (pending_flush x) None true false.

(** [self.commands.send(..)]: fails when the coordinator is gone. *)
Definition send_command (c : conn_event) (h : Handle) : Handle * bool :=
  if conn_live h
  then (mkHandle (dr h) true (conn_commands h ++ [c]) (replies h) (next_reply h) (ds h) (queued_frames h), true)
  else (h, false).
(** A fresh reply channel. *)
Definition fresh_reply (h : Handle) : Handle * Z :=
  (mkHandle (dr h) (conn_live h) (conn_commands h) (replies h) (next_reply h + 1) (ds h) (queued_frames h), next_reply h).

(** ** Polls *)

(** The loop of [poll_read] on a buffer with room for [n] bytes; the last
    component is what it reports as consumed. *)
Fixpoint ds_read_loop (events : list InboundEvent) (n : Z) (x : DialerStream)
  : DialerStream * Poll (list byte) * option Z :=
  match ds_read_buffer x with
  | _ :: _ =>
      let count := Z.min n (len (ds_read_buffer x)) in
      (ds_reading events (zdrop count (ds_read_buffer x)) (stream_end x) x,
       PollReady (ztake count (ds_read_buffer x)), Some count)
  | [] =>
      match stream_end x with
      | Some Closed => (ds_reading events [] (stream_end x) x, PollReady [], None)
      | Some (Reset _) => (ds_reading events [] (stream_end x) x, PollErr ConnectionReset, None)
      | Some ConnectionGone => (ds_reading events [] (stream_end x) x, PollErr UnexpectedEof, None)
      | None =>
          match events with
          | DataIn bytes :: events => ds_read_loop events n (ds_reading events bytes None x)
          | EndIn e :: events =>
              (ds_reading events [] (Some e) x,
               match e with Closed => PollReady [] | Reset _ => PollErr ConnectionReset | ConnectionGone => PollErr UnexpectedEof end,
               None)
          | [] =>
              if inbound_live x then (ds_reading [] [] None x, PollPending, None)
              else (ds_reading [] [] (Some ConnectionGone) x, PollErr UnexpectedEof, None)
          end
      end
  end.

Definition ds_poll_read (n : Z) (h : Handle) : Handle * Poll (list byte) :=
  let '(x, r, consumed) := ds_read_loop (inbound (ds h)) n (ds h) in
  let h := set_ds x h in
  match consumed with
  | Some count => (fst (send_command (Consumed (ds_id x) count) h), r)
  | None => (h, r)
  end.

(** Whether the sending end of reply channel [k] still exists: in a queued
    command or in a write that waits for credit. *)
Definition carries (k : Z) (c : conn_event) : bool :=
  match c with Write _ _ k' | FlushCmd k' | Close _ k' => k =? k' | _ => false end.
Definition reply_held (k : Z) (h : Handle) : bool :=
  conn_live h &&
  (existsb (carries k) (conn_commands h) ||
   match streams (dr h) !! ds_id (ds h) with
   | Some s => existsb (fun p => k =? snd p) (pending_writes s)
   | None => false
   end).

(** What a pending future resolves to; a sender dropped unused is an error. *)
Definition write_reply (h : Handle) (k : Z) : Poll Z :=
  match replies h !! k with
  | None => if reply_held k h then PollPending else PollErr (dialer_io_error ConnectionClosed)
  | Some (ReplyWrite (Ok n)) => PollReady n
  | Some (ReplyWrite (Err e)) => PollErr (dialer_io_error e)
  | Some _ => PollErr (dialer_io_error ConnectionClosed)
  end.
Definition bool_reply (h : Handle) (k : Z) : Poll unit :=
  match replies h !! k with
  | None => if reply_held k h then PollPending else PollErr (dialer_io_error ConnectionClosed)
  | Some (ReplyBool true) => PollReady tt
  | Some _ => PollErr (dialer_io_error ConnectionClosed)
  end.

(** [poll_write], after a write has been handed over: the pending future. *)
Definition poll_pending_write (k : Z) (h : Handle) : Handle * Poll Z :=
  match write_reply h k with
  | PollPending => (h, PollPending)
  | r => (set_ds (ds_waiting None (pending_flush (ds h)) (pending_shutdown (ds h)) (ds h)) h, r)
  end.

Definition ds_poll_write (bytes : list byte) (h : Handle) : Handle * Poll Z :=
  if write_closed (ds h) then (h, PollErr BrokenPipe)
  else if bool_decide (bytes = []) then (h, PollReady 0)
  else
    match pending_write (ds h) with
    | Some k => poll_pending_write k h
    | None =>
        if credit_seen (ds h) then
          let count := Z.min (len bytes) RECOMMENDED_CHUNK in
          let '(h, k) := fresh_reply h in
          let '(h, sent) := send_command (Write (ds_id (ds h)) (ztake count bytes) k) h in
          if sent
          then poll_pending_write k
                 (set_ds (ds_waiting (Some k) (pending_flush (ds h)) (pending_shutdown (ds h)) (ds h)) h)
          else (h, PollErr (dialer_io_error ConnectionClosed))
        else if credit_live (ds h) then (h, PollPending)
        else (h, PollErr (dialer_io_error ConnectionClosed))
    end.

Definition poll_pending_flush (k : Z) (h : Handle) : Handle * Poll unit :=
  match bool_reply h k with
  | PollPending => (h, PollPending)
  | r => (set_ds (ds_waiting (pending_write (ds h)) None (pending_shutdown (ds h)) (ds h)) h, r)
  end.

Definition ds_poll_flush (h : Handle) : Handle * Poll unit :=
  match pending_flush (ds h) with
  | Some k => poll_pending_flush k h
  | None =>
      let '(h, k) := fresh_reply h in
      let '(h, sent) := send_command (FlushCmd k) h in
      if sent
      then poll_pending_flush k
             (set_ds (ds_waiting (pending_write (ds h)) (Some k) (pending_shutdown (ds h)) (ds h)) h)
      else (h, PollErr (dialer_io_error ConnectionClosed))
  end.

Definition poll_pending_shutdown (k : Z) (h : Handle) : Handle * Poll unit :=
  match bool_reply h k with
  | PollPending => (h, PollPending)
  | PollReady _ => (set_ds (ds_shut (ds h)) h, PollReady tt)
  | PollErr e => (set_ds (ds_waiting (pending_write (ds h)) (pending_flush (ds h)) None (ds h)) h, PollErr e)
  end.

Definition ds_poll_shutdown (h : Handle) : Handle * Poll unit :=
  if write_closed (ds h) then (h, PollReady tt)
  else
    match pending_shutdown (ds h) with
    | Some k => poll_pending_shutdown k h
    | None =>
        let '(h, k) := fresh_reply h in
        let '(h, sent) := send_command (Close (ds_id (ds h)) k) h in
        if sent
        then poll_pending_shutdown k
               (set_ds (ds_waiting (pending_write (ds h)) (pending_flush (ds h)) (Some k) (ds h)) h)
        else (h, PollErr (dialer_io_error ConnectionClosed))
    end.

(** [Drop for DialerStream] *)
Definition drop_dialer_stream (h : Handle) : Handle :=
  if reset_on_drop (ds h) then fst (send_command (ResetCmd (ds_id (ds h)) RESET_CANCEL) h) else h.

(** ** The coordinator and the writer *)

(** An effect of a turn reaches the writer, the handle's channel or a reply
    channel; the writer takes every frame and flushes at once. *)
Definition deliver_effect (h : Handle) (e : effect) : Handle :=
  match e with
  | Queued f => mkHandle (dr h) (conn_live h) (conn_commands h) (replies h) (next_reply h) (ds h) (queued_frames h ++ [f])
  | Flush k => mkHandle (dr h) (conn_live h) (conn_commands h) (<[k := ReplyBool true]> (replies h)) (next_reply h) (ds h) (queued_frames h)
  | WriteReply k r => mkHandle (dr h) (conn_live h) (conn_commands h) (<[k := ReplyWrite r]> (replies h)) (next_reply h) (ds h) (queued_frames h)
  | BoolReply k b => mkHandle (dr h) (conn_live h) (conn_commands h) (<[k := ReplyBool b]> (replies h)) (next_reply h) (ds h) (queued_frames h)
  | Inbound sid ev true =>
      if sid =? ds_id (ds h)
      then set_ds (ds_reading (inbound (ds h) ++ [ev]) (ds_read_buffer (ds h)) (stream_end (ds h)) (ds h)) h
      else h
  | Inbound _ _ false | OpenReply _ _ => h
  end.

(** The watch and the inbound channel live as long as the stream's entry. *)
Definition sync_handle (h : Handle) : Handle :=
  let x := ds h in
  match streams (dr h) !! ds_id x with
  | Some s =>
      set_ds (mkDialerStream (ds_id x) (inbound x) (inbound_live x) (ds_read_buffer x) (stream_end x)
                (credit_flag (send s)) (credit_live x) (pending_write x) (pending_flush x) (pending_shutdown x)
                (write_closed x) (reset_on_drop x)) h
  | None =>
      set_ds (mkDialerStream (ds_id x) (inbound x) false (ds_read_buffer x) (stream_end x)
                (credit_seen x) false (pending_write x) (pending_flush x) (pending_shutdown x)
                (write_closed x) (reset_on_drop x)) h
  end.

(** One event of the coordinator; the turn that stops it ends every stream. *)
Definition coordinator_event (e : conn_event) (h : Handle) : res DialerError Handle :=
  match (running ← conn_step e; if running : bool then mret true else _ ← finish; mret false) (dr h) with
  | (d, es, Ok running) =>
      let h := mkHandle d running (conn_commands h) (replies h) (next_reply h) (ds h) (queued_frames h) in
      Ok (sync_handle (foldl deliver_effect h es))
  | (_, _, Err e) => Err e
  | (_, _, Panic) => Panic
  end.

(** The coordinator takes the next command of its queue. *)
Definition coordinator_turn (h : Handle) : res DialerError (option Handle) :=
  match conn_commands h with
  | [] => Ok None
  | c :: rest =>
      h ← coordinator_event c (mkHandle (dr h) (conn_live h) rest (replies h) (next_reply h) (ds h) (queued_frames h));
      Ok (Some h)
  end.

(** ** Awaited operations

    An operation on the handle over a carrier that keeps up: the first poll hands
    it to the coordinator and waits, the coordinator works its queue off and the
    writer takes what it queues, and the woken poll is the one that counts.  A
    carrier that backs up, where more polls wait, is not an instance of this. *)

Inductive sock_op :=
| SkRead (n : Z)
| SkWrite (bytes : list byte)
| SkFlush
| SkShutdown.

Inductive outcome :=
| OPending
| OFailed
| OBytes (bytes : list byte)
| OCount (n : Z)
| ODone.

Definition outcome_of {A} (f : A -> outcome) (p : Poll A) : outcome :=
  match p with PollPending => OPending | PollErr _ => OFailed | PollReady a => f a end.

Definition handle_poll (op : sock_op) (h : Handle) : Handle * outcome :=
  match op with
  | SkRead n => let '(h, r) := ds_poll_read n h in (h, outcome_of OBytes r)
  | SkWrite bytes => let '(h, r) := ds_poll_write bytes h in (h, outcome_of OCount r)
  | SkFlush => let '(h, r) := ds_poll_flush h in (h, outcome_of (fun _ => ODone) r)
  | SkShutdown => let '(h, r) := ds_poll_shutdown h in (h, outcome_of (fun _ => ODone) r)
  end.

(** The coordinator works off its queue. *)
Fixpoint settle_queue (fuel : nat) (h : Handle) : Handle :=
  match fuel with
  | O => h
  | S fuel => match coordinator_turn h with Ok (Some h) => settle_queue fuel h | _ => h end
  end.

Definition handle_op (op : sock_op) (h : Handle) : Handle * outcome :=
  match handle_poll op h with
  | (h, OPending) => handle_poll op (settle_queue (length (conn_commands h)) h)
  | r => r
  end.

(** ** A journal that sleeps

    Its carrier takes every frame, and no byte comes back: no credit, no data,
    no end. [c] is the credit left, [shut] whether the handle closed its
    direction, [stall] the length of a write that waits for credit. *)
Record asleep (c : Z) (shut : bool) (stall : option Z) (h : Handle) : Prop := mkAsleep {
  as_live : conn_live h = true /\ conn_commands h = [] /\ writer_open (dr h) = true;
  as_sid : is_u32 (ds_id (ds h));
  as_credit : 0 <= c;
  as_fresh : forall k, next_reply h <= k -> replies h !! k = None;
  as_stream : exists s pw, streams (dr h) !! ds_id (ds h) = Some s /\
    send s = mkSend c (negb (c =? 0)) /\ local_closed s = shut /\ peer_closed s = false /\
    ds h = mkDialerStream (ds_id (ds h)) [] true [] None (negb (c =? 0)) true pw None None shut (negb shut) /\
    match stall with
    | None => pw = None /\ pending_writes s = []
    | Some l =>
        c < l /\
        ((c = 0 /\ pw = None /\ pending_writes s = []) \/
         exists k b, pw = Some k /\ pending_writes s = [(b, k)] /\ replies h !! k = None /\ k < next_reply h)
    end
}.

(** What a user of the handle asks of it: writes of at least one byte and at most a
    frame, none after the shutdown, and none shorter while one waits. *)
Definition op_allowed (shut : bool) (stall : option Z) (op : sock_op) : bool :=
  match op with
  | SkRead n => 0 <? n
  | SkWrite bytes =>
      negb shut && (0 <? len bytes) && (len bytes <=? RECOMMENDED_CHUNK) &&
      match stall with Some l => l <=? len bytes | None => true end
  | SkFlush => true
  | SkShutdown => match stall with Some _ => false | None => true end
  end.

(** A sleeping handle, field by field. *)
Lemma asleep_fields c shut stall h :
  asleep c shut stall h ->
  exists d rep nx sid pw q s, h = mkHandle d true [] rep nx
      (mkDialerStream sid [] true [] None (negb (c =? 0)) true pw None None shut (negb shut)) q /\
    writer_open d = true /\ is_u32 sid /\ 0 <= c /\ (forall k, nx <= k -> rep !! k = None) /\
    streams d !! sid = Some s /\ send s = mkSend c (negb (c =? 0)) /\ local_closed s = shut /\ peer_closed s = false /\
    match stall with
    | None => pw = None /\ pending_writes s = []
    | Some l =>
        c < l /\
        ((c = 0 /\ pw = None /\ pending_writes s = []) \/
         exists k b, pw = Some k /\ pending_writes s = [(b, k)] /\ rep !! k = None /\ k < nx)
    end.
Proof.
  intros [(Hl & Hc & Hw) Hsid Hcr Hf (s & pw & Hs & Hsend & Hlc & Hpc & Hds & Hst)].
  destruct h as [d l cs rep nx x q]. cbn in *. subst l cs.
  exists d, rep, nx, (ds_id x), pw, q, s. rewrite <- Hds. done.
Qed.

Lemma asleep_intro c shut stall d rep nx sid pw q s :
  writer_open d = true -> is_u32 sid -> 0 <= c -> (forall k, nx <= k -> rep !! k = None) ->
  streams d !! sid = Some s -> send s = mkSend c (negb (c =? 0)) -> local_closed s = shut -> peer_closed s = false ->
  match stall with
  | None => pw = None /\ pending_writes s = []
  | Some l =>
      c < l /\
      ((c = 0 /\ pw = None /\ pending_writes s = []) \/
       exists k b, pw = Some k /\ pending_writes s = [(b, k)] /\ rep !! k = None /\ k < nx)
  end ->
  asleep c shut stall (mkHandle d true [] rep nx
    (mkDialerStream sid [] true [] None (negb (c =? 0)) true pw None None shut (negb shut)) q).
Proof. intros. split; cbn; try done. by exists s, pw. Qed.

Lemma asleep_read c shut stall h n : asleep c shut stall h -> handle_op (SkRead n) h = (h, OPending).
Proof.
  intros H. destruct (asleep_fields _ _ _ _ H) as (d & rep & nx & sid & pw & q & s & -> & _). reflexivity.
Qed.

Lemma encode_data sid bytes : len bytes <= RECOMMENDED_CHUNK -> exists b, encode (mkFrame sid FLAG_DATA bytes) = Ok b.
Proof.
  intros Hb. unfold encode. cbn [payload flags]. destruct (len bytes >? MAX_PAYLOAD) eqn:E.
  - unfold RECOMMENDED_CHUNK, MAX_PAYLOAD in *. lia.
  - by eexists.
Qed.

Lemma write_fits d sid s bytes k :
  streams d !! sid = Some s -> local_closed s = false -> writer_open d = true -> len bytes <= RECOMMENDED_CHUNK ->
  len bytes <= send_credit (send s) ->
  write sid bytes k d =
    (put d sid (set_send s (mkSend (send_credit (send s) - len bytes) (negb (send_credit (send s) - len bytes =? 0)))),
     [Queued (mkFrame sid FLAG_DATA bytes); WriteReply k (Ok (len bytes))], Ok true).
Proof.
  intros Hs Hl Hw Hb Hc. destruct (encode_data sid bytes Hb) as [w He].
  unfold write, stream_of, mbind, M_bind. rewrite Hs, Hl. unfold send_debit.
  destruct (len bytes >? send_credit (send s)) eqn:E; [lia|]. unfold modify, is_ok, queue_frame. rewrite He.
  cbn. by rewrite Hw.
Qed.

Lemma write_waits d sid s bytes k :
  streams d !! sid = Some s -> local_closed s = false -> send_credit (send s) < len bytes ->
  write sid bytes k d = (put d sid (set_pending s (pending_writes s ++ [(bytes, k)])), [], Ok true).
Proof.
  intros Hs Hl Hc. unfold write, stream_of, mbind, M_bind. rewrite Hs, Hl. unfold send_debit.
  destruct (len bytes >? send_credit (send s)) eqn:E; [|lia]. done.
Qed.

Lemma driver_put_self d sid s : streams (put d sid s) !! sid = Some s.
Proof. apply lookup_insert_eq. Qed.

(** A turn of the coordinator that goes on. *)
Lemma settle_one d rep nx x q c d' es :
  conn_step c d = (d', es, Ok true) ->
  settle_queue 1 (mkHandle d true [c] rep nx x q) =
  sync_handle (foldl deliver_effect (mkHandle d' true [] rep nx x q) es).
Proof.
  intros H. cbn [settle_queue]. unfold coordinator_turn. cbn [conn_commands dr conn_live replies next_reply ds queued_frames].
  unfold coordinator_event. cbn [dr conn_commands replies next_reply ds queued_frames].
  unfold mbind at 2, M_bind. rewrite H. cbn. by rewrite app_nil_r.
Qed.

Lemma handle_op_settled op h h1 h2 r :
  handle_poll op h = (h1, OPending) -> settle_queue (length (conn_commands h1)) h1 = h2 -> handle_poll op h2 = r ->
  handle_op op h = r.
Proof. intros H1 H2 H3. unfold handle_op. by rewrite H1, H2. Qed.

(** The polls of a write on such a handle. *)
Section Polls.
Variables (d : Driver) (rep : gmap Z Reply) (nx sid : Z) (q : list Frame) (bytes : list byte).
Hypothesis Hne : bytes <> [].

Definition sleeper (cmds : list conn_event) (cr : bool) (pw pf ps : option Z) (shut : bool) (nx : Z) : Handle :=
  mkHandle d true cmds rep nx (mkDialerStream sid [] true [] None cr true pw pf ps shut (negb shut)) q.

Lemma poll_write_stalled cmds pf ps :
  handle_poll (SkWrite bytes) (sleeper cmds false None pf ps false nx) = (sleeper cmds false None pf ps false nx, OPending).
Proof. unfold handle_poll, ds_poll_write, sleeper. cbn. by rewrite bool_decide_eq_false_2. Qed.

Lemma poll_write_sends :
  len bytes <= RECOMMENDED_CHUNK -> rep !! nx = None ->
  handle_poll (SkWrite bytes) (sleeper [] true None None None false nx) =
    (sleeper [Write sid bytes nx] true (Some nx) None None false (nx + 1), OPending).
Proof.
  intros Hl Hf. unfold handle_poll, ds_poll_write, sleeper. cbn. rewrite bool_decide_eq_false_2 by done.
  unfold poll_pending_write, write_reply, reply_held. cbn. rewrite Hf, Z.eqb_refl. cbn.
  rewrite Z.min_l by lia. by rewrite Nat2Z.id, firstn_all.
Qed.

Lemma poll_write_replied cr k n :
  rep !! k = Some (ReplyWrite (Ok n)) ->
  handle_poll (SkWrite bytes) (sleeper [] cr (Some k) None None false nx) = (sleeper [] cr None None None false nx, OCount n).
Proof.
  intros Hk. unfold handle_poll, ds_poll_write, sleeper. cbn. rewrite bool_decide_eq_false_2 by done.
  unfold poll_pending_write, write_reply. cbn. by rewrite Hk.
Qed.

Lemma poll_write_held cr k s b :
  rep !! k = None -> streams d !! sid = Some s -> pending_writes s = [(b, k)] ->
  handle_poll (SkWrite bytes) (sleeper [] cr (Some k) None None false nx) = (sleeper [] cr (Some k) None None false nx, OPending).
Proof.
  intros Hk Hs Hp. unfold handle_poll, ds_poll_write, sleeper. cbn. rewrite bool_decide_eq_false_2 by done.
  unfold poll_pending_write, write_reply, reply_held. cbn. rewrite Hk, Hs, Hp. cbn. by rewrite Z.eqb_refl.
Qed.

End Polls.

(** A write that fits is taken whole; one that does not waits. *)
Lemma asleep_write c h bytes :
  asleep c false None h -> 0 < len bytes <= RECOMMENDED_CHUNK ->
  exists h', asleep (if len bytes <=? c then c - len bytes else c) false
               (if len bytes <=? c then None else Some (len bytes)) h' /\
    handle_op (SkWrite bytes) h = (h', if len bytes <=? c then OCount (len bytes) else OPending).
Proof.
  intros H Hb.
  destruct (asleep_fields _ _ _ _ H) as (d & rep & nx & sid & pw & q & s & -> & Hw & Hsid & Hc & Hf & Hs & Hsend & Hlc & Hpc & -> & Hpw).
  clear H. assert (Hne : bytes <> []) by (intros ->; cbn in Hb; lia).
  fold (sleeper d rep sid q [] (negb (c =? 0)) None None None false nx).
  destruct (c =? 0) eqn:E0; cbn [negb].
  { exists (sleeper d rep sid q [] false None None None false nx). split.
    - destruct (len bytes <=? c) eqn:E; [lia|]. replace false with (negb (c =? 0)) at 2 by by rewrite E0.
      apply (asleep_intro c false (Some (len bytes)) d rep nx sid None q s); try done; [by rewrite E0|].
      split; [lia|]. left. split; [lia|done].
    - destruct (len bytes <=? c) eqn:E; [lia|].
      eapply handle_op_settled; [by apply poll_write_stalled | reflexivity | by apply poll_write_stalled]. }
  destruct (len bytes <=? c) eqn:E.
  - set (s' := set_send s (mkSend (c - len bytes) (negb (c - len bytes =? 0)))).
    set (rep' := <[nx := ReplyWrite (Ok (len bytes))]> rep).
    exists (sleeper (put d sid s') rep' sid (q ++ [mkFrame sid FLAG_DATA bytes]) [] (negb (c - len bytes =? 0)) None None None false (nx + 1)).
    split.
    + apply (asleep_intro (c - len bytes) false None (put d sid s') rep' (nx + 1) sid None _ s'); try done; try lia.
      * intros k Hk. unfold rep'. rewrite lookup_insert_ne by lia. apply Hf. lia.
      * apply lookup_insert_eq.
    + eapply handle_op_settled.
      * apply poll_write_sends; [done | lia | apply Hf; lia].
      * unfold sleeper. cbn [length conn_commands]. erewrite settle_one; [reflexivity|].
        change (conn_step (Write sid bytes nx)) with (write sid bytes nx).
        apply write_fits; try done; [lia | rewrite Hsend; cbn; lia].
      * rewrite Hsend. cbn [send_credit foldl deliver_effect]. unfold sync_handle.
        cbn [dr ds ds_id]. rewrite driver_put_self.
        cbn [set_ds dr ds inbound inbound_live ds_read_buffer stream_end credit_live pending_write pending_flush
             pending_shutdown write_closed reset_on_drop conn_live conn_commands replies next_reply queued_frames
             send set_send credit_flag ds_id sleeper].
        fold s' rep'. apply (poll_write_replied (put d sid s') rep' (nx + 1) sid _ bytes Hne). apply lookup_insert_eq.
  - set (s' := set_pending s (pending_writes s ++ [(bytes, nx)])).
    exists (sleeper (put d sid s') rep sid q [] true (Some nx) None None false (nx + 1)). split.
    + replace true with (negb (c =? 0)) by by rewrite E0.
      apply (asleep_intro c false (Some (len bytes)) (put d sid s') rep (nx + 1) sid (Some nx) q s'); try done.
      * intros k Hk. apply Hf. lia.
      * apply lookup_insert_eq.
      * by rewrite E0.
      * split; [lia|]. right. exists nx, bytes. unfold s'. cbn. rewrite Hpw. split_and!; try done; [apply Hf; lia | lia].
    + eapply handle_op_settled.
      * apply poll_write_sends; [done | lia | apply Hf; lia].
      * unfold sleeper. cbn [length conn_commands]. erewrite settle_one; [reflexivity|].
        change (conn_step (Write sid bytes nx)) with (write sid bytes nx).
        apply write_waits; try done. rewrite Hsend. cbn. lia.
      * cbn [foldl]. unfold sync_handle. cbn [dr ds ds_id]. rewrite driver_put_self.
        cbn [set_ds dr ds inbound inbound_live ds_read_buffer stream_end credit_live pending_write pending_flush
             pending_shutdown write_closed reset_on_drop conn_live conn_commands replies next_reply queued_frames
             send set_pending credit_flag ds_id sleeper].
        rewrite Hsend. cbn [credit_flag]. fold s'.
        apply (poll_write_held (put d sid s') rep (nx + 1) sid q bytes Hne true nx s' bytes); [apply Hf; lia | apply lookup_insert_eq |].
        unfold s'. cbn. by rewrite Hpw.
Qed.

Lemma asleep_write_stalled c l h bytes :
  asleep c false (Some l) h -> bytes <> [] -> handle_op (SkWrite bytes) h = (h, OPending).
Proof.
  intros H Hne.
  destruct (asleep_fields _ _ _ _ H) as (d & rep & nx & sid & pw & q & s & -> & Hw & Hsid & Hc & Hf & Hs & Hsend & Hlc & Hpc & Hl & Hst).
  clear H. destruct Hst as [(-> & -> & _)|(k & b & -> & Hp & Hk & _)].
  - fold (sleeper d rep sid q [] false None None None false nx).
    eapply handle_op_settled; [by apply poll_write_stalled | reflexivity | by apply poll_write_stalled].
  - fold (sleeper d rep sid q [] (negb (c =? 0)) (Some k) None None false nx).
    eapply handle_op_settled; [by eapply poll_write_held | reflexivity | by eapply poll_write_held].
Qed.

Lemma asleep_flush c shut stall h :
  asleep c shut stall h -> exists h', asleep c shut stall h' /\ handle_op SkFlush h = (h', ODone).
Proof.
  intros H.
  destruct (asleep_fields _ _ _ _ H) as (d & rep & nx & sid & pw & q & s & -> & Hw & Hsid & Hc & Hf & Hs & Hsend & Hlc & Hpc & Hst).
  clear H. set (rep' := <[nx := ReplyBool true]> rep).
  exists (sleeper d rep' sid q [] (negb (c =? 0)) pw None None shut (nx + 1)). split.
  - apply (asleep_intro c shut stall d rep' (nx + 1) sid pw q s); try done.
    + intros k Hk. unfold rep'. rewrite lookup_insert_ne by lia. apply Hf. lia.
    + destruct stall as [l|]; [|done]. destruct Hst as [Hl [?|(k & b & Hpw & Hp & Hk & Hlt)]]; (split; [done|]); [by left|].
      right. exists k, b. unfold rep'. rewrite lookup_insert_ne by lia. split_and!; try done. lia.
  - eapply (handle_op_settled SkFlush _ (sleeper d rep sid q [FlushCmd nx] (negb (c =? 0)) pw (Some nx) None shut (nx + 1))).
    + unfold handle_poll, ds_poll_flush, sleeper. cbn. unfold poll_pending_flush, bool_reply, reply_held. cbn.
      rewrite (Hf nx) by lia. by rewrite Z.eqb_refl.
    + unfold sleeper. cbn [length conn_commands]. erewrite settle_one; [reflexivity|].
      cbn. unfold send_flush. by rewrite Hw.
    + cbn [foldl deliver_effect]. unfold sync_handle. cbn [dr ds ds_id]. rewrite Hs, Hsend.
      unfold handle_poll, ds_poll_flush. cbn. unfold poll_pending_flush, bool_reply. cbn. fold rep'.
      unfold rep' at 1. by rewrite lookup_insert_eq.
Qed.

Lemma close_sends d sid s :
  streams d !! sid = Some s -> local_closed s = false -> peer_closed s = false -> writer_open d = true ->
  close sid d = (put d sid (set_closed s false true), [Queued (mkFrame sid FLAG_CLOSE [])], Ok true).
Proof.
  intros Hs Hl Hp Hw. assert (exists w, encode (mkFrame sid FLAG_CLOSE []) = Ok w) as [w He] by by eexists.
  unfold close, stream_of, mbind, M_bind. rewrite Hs, Hl, Hp. unfold modify, is_ok, queue_frame. rewrite He. cbn. by rewrite Hw.
Qed.

Lemma asleep_shutdown c shut h :
  asleep c shut None h -> exists h', asleep c true None h' /\ handle_op SkShutdown h = (h', ODone).
Proof.
  intros H. destruct shut; [exists h; split; [done|]|].
  { destruct (asleep_fields _ _ _ _ H) as (d & rep & nx & sid & pw & q & s & -> & _). reflexivity. }
  destruct (asleep_fields _ _ _ _ H) as (d & rep & nx & sid & pw & q & s & -> & Hw & Hsid & Hc & Hf & Hs & Hsend & Hlc & Hpc & -> & Hpw).
  clear H. set (rep' := <[nx := ReplyBool true]> rep). set (s' := set_closed s false true).
  exists (sleeper (put d sid s') rep' sid (q ++ [mkFrame sid FLAG_CLOSE []]) [] (negb (c =? 0)) None None None true (nx + 1)). split.
  - apply (asleep_intro c true None (put d sid s') rep' (nx + 1) sid None _ s'); try done.
    + intros k Hk. unfold rep'. rewrite lookup_insert_ne by lia. apply Hf. lia.
    + apply driver_put_self.
  - eapply (handle_op_settled SkShutdown _ (sleeper d rep sid q [Close sid nx] (negb (c =? 0)) None None (Some nx) false (nx + 1))).
    + unfold handle_poll, ds_poll_shutdown, sleeper. cbn. unfold poll_pending_shutdown, bool_reply, reply_held. cbn.
      rewrite (Hf nx) by lia. by rewrite Z.eqb_refl.
    + unfold sleeper. cbn [length conn_commands]. erewrite settle_one; [reflexivity|].
      cbn [conn_step]. unfold mbind, M_bind. rewrite (close_sends _ _ _ Hs Hlc Hpc Hw). unfold send_flush. cbn. by rewrite Hw.
    + cbn [foldl deliver_effect app]. unfold sync_handle. cbn [dr ds ds_id]. rewrite driver_put_self. cbn [send set_closed].
      rewrite Hsend. unfold handle_poll, ds_poll_shutdown. cbn. unfold poll_pending_shutdown, bool_reply. cbn. fold rep'.
      unfold rep' at 1. by rewrite lookup_insert_eq.
Qed.

(** ** The reference behaviour

    What a sleeping journal's stream is to its user: reads wait, a write is
    taken when it fits in what is left of the credit, flush and shutdown
    complete. *)
Definition asleep_step (c : Z) (shut : bool) (stall : option Z) (op : sock_op) : (Z * bool * option Z) * outcome :=
  match op with
  | SkRead _ => ((c, shut, stall), OPending)
  | SkWrite bytes =>
      if len bytes <=? c then ((c - len bytes, shut, None), OCount (len bytes))
      else ((c, shut, Some (match stall with Some l => l | None => len bytes end)), OPending)
  | SkFlush => ((c, shut, stall), ODone)
  | SkShutdown => ((c, true, stall), ODone)
  end.

Lemma asleep_op c shut stall op h :
  asleep c shut stall h -> op_allowed shut stall op = true ->
  let '((c', shut', stall'), r) := asleep_step c shut stall op in
  exists h', asleep c' shut' stall' h' /\ handle_op op h = (h', r).
Proof.
  intros H Ho. destruct op as [n|bytes| |]; cbn [asleep_step op_allowed] in *.
  - exists h. split; [done|]. by eapply asleep_read.
  - rewrite !andb_true_iff, negb_true_iff in Ho. destruct Ho as [[[-> H0] H1] H2].
    destruct stall as [l|].
    + assert (Hl : c < l) by (destruct (as_stream _ _ _ _ H) as (s & pw & _ & _ & _ & _ & _ & Hl & _); done).
      destruct (len bytes <=? c) eqn:E; [lia|]. exists h. split; [done|].
      eapply asleep_write_stalled; [done|]. intros ->. cbn in H0. lia.
    + destruct (asleep_write c h bytes H ltac:(lia)) as (h' & Ha & Hop).
      destruct (len bytes <=? c); by exists h'.
  - destruct (asleep_flush _ _ _ _ H) as (h' & ? & ?). by exists h'.
  - destruct stall; [done|]. destruct (asleep_shutdown _ _ _ H) as (h' & ? & ?). by exists h'.
Qed.

(** A stream just opened over a live carrier. *)
Lemma asleep_opened d rep nx sid s q :
  writer_open d = true -> is_u32 sid -> streams d !! sid = Some s -> s = stream_new ->
  (forall k, nx <= k -> rep !! k = None) ->
  asleep INITIAL_WINDOW false None (mkHandle d true [] rep nx (stream_handle sid) q).
Proof.
  intros Hw Hsid Hs -> Hf. apply (asleep_intro INITIAL_WINDOW false None d rep nx sid None q stream_new); try done.
Qed.
