(* ===== verification/Bridge.v ===== *)
(** * The loopback bridge's transforms ([crates/spl-core/src/bridge.rs])

    Validation of a local request head, loopback authorization, header, cookie
    and redirect rewriting in both directions, and the one-time bootstrap
    tokens.  All of it is pure; the listener that calls it is in spl-transport. *)

From S2P Require Import Prelude Text Http.

Definition BOOTSTRAP_ROUTE : str := lit "/_bridge/bootstrap".
Definition MAX_REQUEST_HEAD_BYTES : Z := 64 * 1024.

Record BridgeNames := mkNames {
  capability_cookie_name : str;
  upstream_cookie_prefix : str;
  observer_header_name : str;
  protocol_version_header_name : str
}.

Definition HOP_BY_HOP : list str :=
  [lit "connection"; lit "keep-alive"; lit "proxy-authenticate"; lit "proxy-authorization";
   lit "te"; lit "trailer"; lit "transfer-encoding"; lit "upgrade"].

Record RequestHead := mkHead { method : str; target : str; req_headers : list (str * str) }.

Record ValidatedRequestHead := mkValidated { head_of : RequestHead; content_length : Z }.

Inductive RequestFramingError :=
| HeadTooLarge
| MissingTerminator
| InvalidEncoding
| InvalidRequestLine
| InvalidHeader
| TransferEncoding
| DuplicateContentLength
| InvalidContentLength
| Expectation.

#[export] Instance RequestFramingError_eq_dec : EqDecision RequestFramingError.
Proof. solve_decision. Defined.
#[export] Instance RequestHead_eq_dec : EqDecision RequestHead.
Proof. solve_decision. Defined.
#[export] Instance ValidatedRequestHead_eq_dec : EqDecision ValidatedRequestHead.
Proof. solve_decision. Defined.

(** ** [RequestHead] *)

Definition find_value (name : str) (l : list (str * str)) : option str :=
  snd ∘ snd <$> list_find (fun h => fst h = name) l.

Definition host (h : RequestHead) : option str := find_value (lit "host") (req_headers h).

Definition path (h : RequestHead) : str :=
  match split_once 63 (target h) with Some (p, _) => p | None => target h end.

Definition query (h : RequestHead) : option str := snd <$> split_once 63 (target h).

(** The inner loop of [cookie] over one header's parts. *)
Fixpoint cookie_in (name : str) (parts : list str) : option str :=
  match parts with
  | [] => None
  | part :: parts =>
      match split_once 61 (trim part) with
      | None => cookie_in name parts
      | Some (cookie_name, cookie_value) =>
          if bool_decide (cookie_name = name) then Some cookie_value else cookie_in name parts
      end
  end.

Fixpoint cookie_headers (name : str) (l : list (str * str)) : option str :=
  match l with
  | [] => None
  | (key, value) :: l =>
      if bool_decide (key = lit "cookie") then
        match cookie_in name (split_char 59 value) with
        | Some v => Some v
        | None => cookie_headers name l
        end
      else cookie_headers name l
  end.

Definition cookie (h : RequestHead) (name : str) : option str := cookie_headers name (req_headers h).

(** ** [parse_request_head] *)

Definition is_ascii_digit (c : Z) : bool := between 48 c 57.

(** [parse_content_length]: the bytes of a value of ASCII digits are its
    characters. *)
Definition content_length_step (acc : option Z) (c : Z) : option Z :=
  a ← acc;
  m ← (if a * 10 <? 2 ^ 64 then Some (a * 10) else None);
  checked_add 64 m (c - 48).
Definition parse_content_length (value : str) : res RequestFramingError Z :=
  if (len value =? 0) || negb (forallb is_ascii_digit value) then Err InvalidContentLength
  else ok_or (foldl content_length_step (Some 0) value) InvalidContentLength.

(** The loop variables over the header lines. *)
Record head_state := mkHeadState {
  hs_headers : list (str * str);
  content_lengths : list str;
  has_transfer_encoding : bool;
  has_expectation : bool
}.

Definition head_line (st : head_state) (line : str) : res RequestFramingError head_state :=
  match split_once 58 line with
  | None => Err InvalidHeader
  | Some (k, v) =>
      let key := lowercase (trim k) in
      if len key =? 0 then Err InvalidHeader
      else
        let value := trim v in
        let headers := hs_headers st ++ [(key, value)] in
        if bool_decide (key = lit "content-length") then
          Ok (mkHeadState headers (content_lengths st ++ [value]) (has_transfer_encoding st) (has_expectation st))
        else if bool_decide (key = lit "transfer-encoding") then
          Ok (mkHeadState headers (content_lengths st) true (has_expectation st))
        else if bool_decide (key = lit "expect") then
          Ok (mkHeadState headers (content_lengths st) (has_transfer_encoding st) true)
        else Ok (mkHeadState headers (content_lengths st) (has_transfer_encoding st) (has_expectation st))
  end.

Fixpoint head_lines (st : head_state) (lines : list str) : res RequestFramingError head_state :=
  match lines with
  | [] => Ok st
  | l :: lines => st' ← head_line st l; head_lines st' lines
  end.

(** The checks after the loop. *)
Definition check_framing (method target : str) (st : head_state) : res RequestFramingError ValidatedRequestHead :=
  if has_transfer_encoding st then Err TransferEncoding
  else if len (content_lengths st) >? 1 then Err DuplicateContentLength
  else
    n ← match content_lengths st with
        | value :: _ => parse_content_length value
        | [] => Ok 0
        end;
    if has_expectation st then Err Expectation
    else Ok (mkValidated (mkHead method target (hs_headers st)) n).

(** [parse_request_head].  [split_whitespace] yields no empty part, so the
    [filter]s keep what it yields. *)
Definition parse_request_head (raw : list byte) : res RequestFramingError ValidatedRequestHead :=
  match find_subsequence raw bCRLF2 with
  | None => Err (if len raw >? MAX_REQUEST_HEAD_BYTES then HeadTooLarge else MissingTerminator)
  | Some split =>
      if split + 4 >? MAX_REQUEST_HEAD_BYTES then Err HeadTooLarge
      else
        text ← ok_or (from_utf8 (ztake split raw)) InvalidEncoding;
        match split_crlf text with
        | [] => Err InvalidRequestLine
        | request_line :: lines =>
            match split_whitespace request_line with
            | m :: t :: _ =>
                st ← head_lines (mkHeadState [] [] false false) lines;
                check_framing m t st
            | _ => Err InvalidRequestLine
            end
        end
  end.

(** ** Authorization *)

Inductive RejectReason := BadHost | BadMethod | BadCapability.

#[export] Instance RejectReason_eq_dec : EqDecision RejectReason.
Proof. solve_decision. Defined.

Definition reject_token (r : RejectReason) : str :=
  match r with
  | BadHost => lit "bad_host"
  | BadMethod => lit "bad_method"
  | BadCapability => lit "bad_capability"
  end.

Definition check_loopback_host (h : RequestHead) (port : Z) : res RejectReason unit :=
  if bool_decide (host h = Some (lit "127.0.0.1:" ++ to_string port)) then Ok tt else Err BadHost.

Definition ct_eq (a b : list byte) : bool :=
  if negb (len a =? len b) then false
  else foldl (fun acc p => Z.lor acc (Z.lxor (u8 (fst p)) (u8 (snd p)))) 0 (zip a b) =? 0.

Definition check_capability_cookie (h : RequestHead) (expected_cap : list byte) (names : BridgeNames)
  : res RejectReason unit :=
  match cookie h (capability_cookie_name names) with
  | Some cap => if ct_eq (into_bytes cap) expected_cap then Ok tt else Err BadCapability
  | None => Err BadCapability
  end.

Definition authorize (h : RequestHead) (expected_cap : list byte) (port : Z) (names : BridgeNames)
  : res RejectReason unit :=
  _ ← check_loopback_host h port; check_capability_cookie h expected_cap names.

(** ** Requests upstream *)

Definition is_reserved_request_header (name : str) (names : BridgeNames) : bool :=
  eq_ignore_ascii_case name (lit "authorization")
  || eq_ignore_ascii_case name (observer_header_name names)
  || eq_ignore_ascii_case name (protocol_version_header_name names)
  || eq_ignore_ascii_case name (lit "host")
  || eq_ignore_ascii_case name (lit "content-length")
  || existsb (eq_ignore_ascii_case name) HOP_BY_HOP.

(** The [filter_map] closure of [upstream_cookie_header]. *)
Definition upstream_cookie (names : BridgeNames) (part : str) : option str :=
  '(name, cookie_value) ← split_once 61 part;
  let name := trim name in
  if bool_decide (name = capability_cookie_name names) then None
  else
    upstream_name ← strip_prefix (upstream_cookie_prefix names) name;
    Some (upstream_name ++ lit "=" ++ trim cookie_value).

Definition upstream_cookies (value : str) (names : BridgeNames) : list str :=
  omap (upstream_cookie names) (filter (fun p => p <> []) (trim <$> split_char 59 value)).

Definition upstream_cookie_header (value : str) (names : BridgeNames) : option str :=
  match upstream_cookies value names with
  | [] => None
  | cookies => Some (join (lit "; ") cookies)
  end.

Definition upstream_header (names : BridgeNames) (h : str * str) : option (str * str) :=
  let '(name, value) := h in
  if bool_decide (name = lit "cookie") then
    cookie ← upstream_cookie_header value names; Some (name, cookie)
  else if is_reserved_request_header name names then None
  else Some (name, value).

Definition upstream_request_headers (h : RequestHead) (names : BridgeNames) : list (str * str) :=
  omap (upstream_header names) (req_headers h).

(** ** Responses *)

(** One attribute of [rewrite_set_cookie]. *)
Definition keep_attribute (attr : str) : bool :=
  if len attr =? 0 then false
  else
    let attr_name := trim (match split_once 61 attr with Some (n, _) => n | None => attr end) in
    negb (eq_ignore_ascii_case attr_name (lit "domain") || eq_ignore_ascii_case attr_name (lit "secure")).

Definition rewrite_set_cookie (value : str) (names : BridgeNames) : str :=
  match trim <$> split_char 59 value with
  | [] => []
  | first :: parts =>
      let first :=
        match split_once 61 first with
        | Some (name, cookie_value) => upstream_cookie_prefix names ++ trim name ++ lit "=" ++ cookie_value
        | None => first
        end in
      join (lit "; ") (first :: filter (fun a => keep_attribute a = true) parts)
  end.

Definition PRESERVED : list str :=
  lit <$> ["content-type"; "content-encoding"; "cache-control"; "etag"; "last-modified"; "expires";
   "vary"; "accept-ranges"; "content-range"; "www-authenticate"; "retry-after";
   "content-security-policy"; "content-security-policy-report-only"; "referrer-policy";
   "x-content-type-options"; "x-frame-options"; "x-xss-protection"; "permissions-policy";
   "cross-origin-opener-policy"; "cross-origin-resource-policy"; "cross-origin-embedder-policy";
   "strict-transport-security"]%string.

Definition should_preserve_response_header (name : str) : bool := bool_decide (name ∈ PRESERVED).

(** [split_http_url] *)
Definition split_http_url (location : str) : option (str * str * str) :=
  '(scheme, rest) ← split_once_str (lit "://") location;
  if negb (eq_ignore_ascii_case scheme (lit "http")) && negb (eq_ignore_ascii_case scheme (lit "https"))
  then None
  else
    let '(authority, suffix) := split_at_first (fun c => (c =? 47) || (c =? 63) || (c =? 35)) rest in
    Some (scheme, authority, suffix).

Definition default_port (scheme : str) : option Z :=
  if eq_ignore_ascii_case scheme (lit "http") then Some 80
  else if eq_ignore_ascii_case scheme (lit "https") then Some 443
  else None.

(** The host and port after the user information. *)
Definition split_host_port (host_port : str) : str * option Z :=
  match rsplit_once 58 host_port with
  | Some (host, port) =>
      if bool_decide (58 ∈ host) then (lowercase host_port, None)
      else (lowercase host, parse_uint 10 16 port)
  | None => (lowercase host_port, None)
  end.

Definition split_authority (authority : str) : str * option Z :=
  let host_port := match rsplit_once 64 authority with Some (_, a) => a | None => authority end in
  match strip_prefix (lit "[") host_port with
  | Some after_bracket =>
      match split_once 93 after_bracket with
      | Some (host, remainder) =>
          (lowercase host, port ← strip_prefix (lit ":") remainder; parse_uint 10 16 port)
      | None => split_host_port host_port
      end
  | None => split_host_port host_port
  end.

Definition or_else {A} (o p : option A) : option A := match o with Some a => Some a | None => p end.

Definition authority_matches (location_scheme location_authority known : str) : bool :=
  let '(location_host, location_port) := split_authority location_authority in
  let location_effective_port := or_else location_port (default_port location_scheme) in
  let '(known_scheme, known_authority) :=
    match split_http_url known with
    | Some (scheme, authority, _) => (Some scheme, authority)
    | None => (None, known)
    end in
  let '(known_host, known_port) := split_authority known_authority in
  if negb (bool_decide (location_host = known_host)) then false
  else
    match or_else known_port (known_scheme ≫= default_port) with
    | Some port => bool_decide (location_effective_port = Some port)
    | None => true
    end.

Definition rewrite_redirect (location : str) (journal_hosts : list str) (loopback_origin : str) : str :=
  match split_http_url location with
  | None => location
  | Some (scheme, authority, suffix) =>
      if existsb (authority_matches scheme authority) journal_hosts
      then trim_end_matches 47 loopback_origin ++ suffix
      else location
  end.

Definition response_header (journal_hosts : list str) (loopback_origin : str) (names : BridgeNames)
  (h : str * str) : option (str * str) :=
  let '(raw_name, value) := h in
  let name := lowercase raw_name in
  if bool_decide (name = lit "content-length") || bool_decide (name ∈ HOP_BY_HOP) then None
  else if bool_decide (name = lit "set-cookie") then Some (name, rewrite_set_cookie value names)
  else if bool_decide (name = lit "location")
  then Some (name, rewrite_redirect value journal_hosts loopback_origin)
  else if should_preserve_response_header name then Some (name, value)
  else None.

Definition response_headers (upstream : list (str * str)) (journal_hosts : list str)
  (loopback_origin : str) (names : BridgeNames) : list (str * str) :=
  omap (response_header journal_hosts loopback_origin names) upstream.

(** ** Bootstrap *)

Definition query_value (key pair : str) : option str :=
  '(name, value) ← split_once 61 pair;
  if bool_decide (name = key) then Some value else None.

Fixpoint find_map {A B} (f : A -> option B) (l : list A) : option B :=
  match l with
  | [] => None
  | a :: l => or_else (f a) (find_map f l)
  end.

Definition bootstrap_query_value (target key : str) : option str :=
  '(path, query) ← split_once 63 target;
  if negb (bool_decide (path = BOOTSTRAP_ROUTE)) then None
  else find_map (query_value key) (split_char 38 query).

Definition bootstrap_cap (target : str) : option str := bootstrap_query_value target (lit "cap").
Definition bootstrap_token (target : str) : option str := bootstrap_query_value target (lit "token").
Definition bootstrap_cookie_attributes : str := lit "Path=/; HttpOnly; SameSite=Strict".

(** [BootstrapTokens]: pending tokens with their expiry. *)
Record BootstrapTokens := mkTokens { pending : list (str * Z) }.
Definition tokens_default : BootstrapTokens := mkTokens [].

(** [pending.retain(..)] *)
Definition retain_live (pending : list (str * Z)) (now_millis : Z) : list (str * Z) :=
  filter (fun p => now_millis < snd p) pending.

(** [issue]: [now_millis + 30_000] is a [u128] addition. *)
Definition issue (b : BootstrapTokens) (token : str) (now_millis : Z) : res unit BootstrapTokens :=
  e ← uadd 128 now_millis 30000;
  Ok (mkTokens (retain_live (pending b) now_millis ++ [(token, e)])).

(** [Vec::swap_remove] *)
Definition swap_remove {A} (l : list A) (i : nat) : list A :=
  match list.last l with
  | None => l
  | Some x => if (i =? length l - 1)%nat then removelast l else <[i := x]> (removelast l)
  end.

(** [consume] *)
Definition consume (b : BootstrapTokens) (token : str) (now_millis : Z) : BootstrapTokens * bool :=
  let live := retain_live (pending b) now_millis in
  match list_find (fun p => ct_eq (into_bytes (fst p)) (into_bytes token) = true) live with
  | None => (mkTokens live, false)
  | Some (i, _) => (mkTokens (swap_remove live i), true)
  end.

Inductive FailureCategory := LocalBind | LocalCapabilityReject | UpstreamUnreachable | UpstreamCredential.

Definition failure_token (c : FailureCategory) : str :=
  match c with
  | LocalBind => lit "local_bind_fail"
  | LocalCapabilityReject => lit "local_capability_reject"
  | UpstreamUnreachable => lit "upstream_unreachable"
  | UpstreamCredential => lit "upstream_credential"
  end.

(** ** Constant-time comparison *)

Lemma ct_fold_zero ps acc :
  0 <= acc ->
  let f := fun acc (p : byte * byte) => Z.lor acc (Z.lxor (u8 (fst p)) (u8 (snd p))) in
  0 <= foldl f acc ps /\ (foldl f acc ps = 0 <-> acc = 0 /\ Forall (fun p => fst p = snd p) ps).
Proof.
  intros Ha f. revert acc Ha. induction ps as [|[a b] ps IH]; intros acc Ha; cbn [foldl].
  { split; [done|]. split; [intros ->; split; [done|constructor]|by intros [? _]]. }
  assert (Hx : 0 <= Z.lxor (u8 a) (u8 b)) by (apply Z.lxor_nonneg; pose proof (u8_range a); pose proof (u8_range b); lia).
  assert (Hf : 0 <= f acc (a, b)) by (by apply Z.lor_nonneg).
  destruct (IH _ Hf) as [H0 H1]. split; [done|]. rewrite H1. unfold f. cbn [fst snd].
  rewrite Z.lor_eq_0_iff, Forall_cons_iff, Z.lxor_eq_0_iff. cbn [fst snd].
  split; intros H; decompose [and] H; repeat split; try done; [by apply u8_inj|by f_equal].
Qed.

Lemma zip_eq {A} (a b : list A) :
  length a = length b -> Forall (fun p => fst p = snd p) (zip a b) -> a = b.
Proof.
  revert b. induction a as [|x a IH]; intros [|y b] Hl Hf; [done..|].
  cbn in Hf. apply Forall_cons_1 in Hf as [Hx Hf]. cbn in Hx, Hl. subst. f_equal. apply IH; [lia|done].
Qed.

Lemma ct_eq_spec a b : ct_eq a b = true <-> a = b.
Proof.
  unfold ct_eq. destruct (ct_fold_zero (zip a b) 0 ltac:(lia)) as [_ Hz]. cbv zeta in Hz.
  destruct (len a =? len b) eqn:El; cbn [negb].
  - rewrite Z.eqb_eq, Hz. split.
    + intros [_ H]. apply zip_eq; [lia|done].
    + intros ->. split; [done|]. clear. induction b as [|y b IH]; cbn; constructor; done.
  - split; [done|]. intros ->. lia.
Qed.

Lemma into_bytes_inj s t : scalars s -> scalars t -> into_bytes s = into_bytes t -> s = t.
Proof.
  intros Hs Ht H%(f_equal from_utf8). rewrite !from_utf8_into_bytes in H by done. by simplify_eq.
Qed.

Lemma ct_eq_str s t : scalars s -> scalars t -> ct_eq (into_bytes s) (into_bytes t) = true <-> s = t.
Proof. intros Hs Ht. rewrite ct_eq_spec. split; [by apply into_bytes_inj|by intros ->]. Qed.

(** ** Bootstrap tokens *)

Lemma swap_remove_perm {A} (l : list A) i x :
  l !! i = Some x -> l ≡ₚ x :: swap_remove l i.
Proof.
  intros Hi. assert (Hne : l <> []) by (by intros ->).
  destruct (exists_last Hne) as (k&y&->). unfold swap_remove.
  rewrite last_snoc, removelast_last, length_app. cbn [length].
  destruct (i =? length k + 1 - 1)%nat eqn:E; [apply Nat.eqb_eq in E|apply Nat.eqb_neq in E].
  - replace i with (length k) in Hi by lia. rewrite list_lookup_middle in Hi by done. simplify_eq.
    by rewrite Permutation_app_comm.
  - pose proof (lookup_lt_Some _ _ _ Hi) as Hl. rewrite length_app in Hl. cbn [length] in Hl.
    rewrite lookup_app_l in Hi by lia.
    rewrite (delete_Permutation k i x Hi) at 1.
    rewrite insert_take_drop by lia. rewrite delete_take_drop. cbn [app].
    constructor. rewrite <- app_assoc. apply Permutation_app_head. by rewrite Permutation_app_comm.
Qed.

(** The calls a bridge makes on its tokens, under its lock. *)
Inductive token_op :=
| Issue (token : str) (now : Z)
| Redeem (token : str) (now : Z).

Definition op_token (o : token_op) : str := match o with Issue s _ | Redeem s _ => s end.
Definition op_time (o : token_op) : Z := match o with Issue _ t | Redeem _ t => t end.
Definition is_issue (tok : str) (o : token_op) : Prop :=
  match o with Issue s _ => s = tok | Redeem _ _ => False end.
Definition is_redeem (tok : str) (o : token_op) : Prop :=
  match o with Redeem s _ => s = tok | Issue _ _ => False end.
#[export] Instance is_redeem_dec tok o : Decision (is_redeem tok o).
Proof. destruct o; cbn; apply _. Defined.

Definition token_step (p : BootstrapTokens) (o : token_op) : res unit BootstrapTokens :=
  match o with
  | Issue s t => issue p s t
  | Redeem s t => Ok (fst (consume p s t))
  end.
Fixpoint token_run (p : BootstrapTokens) (ops : list token_op) : res unit BootstrapTokens :=
  match ops with
  | [] => Ok p
  | o :: ops => p' ← token_step p o; token_run p' ops
  end.

(** The entries of [tok] unexpired at [now]. *)
Definition live_of (tok : str) (now : Z) (p : list (str * Z)) : list (str * Z) :=
  filter (fun e => fst e = tok /\ now < snd e) p.

#[local] Instance live_of_proper tok now : Proper ((≡ₚ) ==> (≡ₚ)) (live_of tok now).
Proof. intros l k Hlk. unfold live_of. by rewrite Hlk. Qed.

Lemma live_of_retain tok now t p : now <= t -> live_of tok t (retain_live p now) = live_of tok t p.
Proof.
  intros H. unfold live_of, retain_live. rewrite list_filter_filter. apply list_filter_iff.
  intros [s e]. cbn. split; [tauto|]. intros [-> He]. repeat split; [done|lia].
Qed.

Lemma live_of_app tok t p q : live_of tok t (p ++ q) = live_of tok t p ++ live_of tok t q.
Proof. apply list.filter_app. Qed.

Lemma elem_live_of tok t p s e : (s, e) ∈ live_of tok t p <-> s = tok /\ t < e /\ (s, e) ∈ p.
Proof. unfold live_of. rewrite list_elem_of_filter. cbn. tauto. Qed.

Lemma live_of_nil tok t p : live_of tok t p = [] <-> forall e, (tok, e) ∈ p -> e <= t.
Proof.
  split.
  - intros H e He. destruct (Z.ltb_spec t e); [|lia].
    assert (Hm : (tok, e) ∈ live_of tok t p) by (by apply elem_live_of).
    rewrite H in Hm. by apply not_elem_of_nil in Hm.
  - intros H. destruct (live_of tok t p) as [|[s e] l] eqn:E; [done|]. exfalso.
    assert (Hm : (s, e) ∈ live_of tok t p) by (rewrite E; left).
    apply elem_live_of in Hm as (->&?&Hm). specialize (H _ Hm). lia.
Qed.

Lemma live_of_later tok t t' p : t <= t' -> live_of tok t p = [] -> live_of tok t' p = [].
Proof. rewrite !live_of_nil. intros Ht H e He. specialize (H e He). lia. Qed.

Definition texts (p : list (str * Z)) : Prop := Forall (fun e => scalars (fst e)) p.

Lemma texts_retain p now : texts p -> texts (retain_live p now).
Proof.
  unfold texts. rewrite !list.Forall_forall. intros H e [_ He]%list_elem_of_filter. by apply H.
Qed.

(** A redemption succeeds exactly when an unexpired entry of the token is
    pending; it removes one such entry, and entries of other tokens stay. *)
Lemma consume_spec b tok now :
  scalars tok -> texts (pending b) ->
  (snd (consume b tok now) = false /\ live_of tok now (pending b) = [] /\
   pending (fst (consume b tok now)) = retain_live (pending b) now) \/
  (exists e, snd (consume b tok now) = true /\ now < e /\
   retain_live (pending b) now ≡ₚ (tok, e) :: pending (fst (consume b tok now))).
Proof.
  intros Hs Hp. unfold consume. set (l := retain_live (pending b) now).
  assert (Hl : texts l) by (by apply texts_retain). unfold texts in Hl. rewrite list.Forall_forall in Hl.
  destruct (list_find _ l) as [[i [s e]]|] eqn:E.
  - right. apply list_find_Some in E as (Hi&Hc&_). cbn in *.
    assert (Hm : (s, e) ∈ l) by (by eapply list_elem_of_lookup_2).
    apply ct_eq_str in Hc as ->; [|by apply (Hl _ Hm)|done]. exists e. split; [done|]. split.
    + by apply list_elem_of_filter in Hm as [? _].
    + by apply swap_remove_perm.
  - left. split; [done|]. split; [|done]. apply list_find_None in E. rewrite list.Forall_forall in E.
    rewrite <- (live_of_retain tok now now) by lia. apply live_of_nil. intros e He.
    exfalso. apply (E _ He). cbn. by apply ct_eq_str.
Qed.

(** What is left of [tok], which is issued once: its expiry, or nothing. *)
Definition tracks (tok : str) (now : Z) (b : BootstrapTokens) (cur : option Z) : Prop :=
  texts (pending b) /\
  forall t, now <= t ->
    live_of tok t (pending b) ≡ₚ match cur with Some e => if t <? e then [(tok, e)] else [] | None => [] end.

Definition track_step (tok : str) (cur : option Z) (o : token_op) : option Z :=
  match o with
  | Issue s t => if decide (s = tok) then Some (t + 30000) else cur
  | Redeem s _ => if decide (s = tok) then None else cur
  end.

Lemma track_issue tok now b cur s t :
  tracks tok now b cur -> scalars s -> now <= t -> 0 <= t < 2 ^ 127 -> (s = tok -> cur = None) ->
  exists b', issue b s t = Ok b' /\ tracks tok t b' (track_step tok cur (Issue s t)).
Proof.
  intros [Hs Ht] Hsc Hn Hr Hc. unfold issue, uadd, checked_add. cbn [track_step].
  replace (t + 30000 <? 2 ^ 128) with true by lia. eexists. split; [reflexivity|]. split.
  - apply list.Forall_app. split; [by apply texts_retain|]. by repeat constructor.
  - intros t' Ht'. cbn [pending]. rewrite live_of_app, live_of_retain, (Ht t') by lia.
    unfold live_of. destruct (decide (s = tok)) as [->|Hne].
    + rewrite (Hc eq_refl). destruct (t' <? t + 30000) eqn:E.
      * rewrite list.filter_cons_True by (cbn; split; [done|lia]). done.
      * rewrite list.filter_cons_False by (cbn; lia). done.
    + rewrite list.filter_cons_False by (by cbn; intros [? _]). by rewrite app_nil_r.
Qed.

Lemma track_consume tok now b cur s t :
  tracks tok now b cur -> scalars s -> now <= t ->
  tracks tok t (fst (consume b s t)) (track_step tok cur (Redeem s t)).
Proof.
  intros [Hs Ht] Hsc Hn. pose proof (texts_retain _ t Hs) as Hr. cbn [track_step].
  destruct (consume_spec b s t Hsc Hs) as [(_&He&Ep)|(e&_&He&Hp)].
  - split; [by rewrite Ep|]. intros t' Ht'. rewrite Ep, live_of_retain by lia.
    destruct (decide (s = tok)) as [->|]; [|by apply Ht; lia].
    by rewrite (live_of_later tok t t').
  - unfold texts in Hr. rewrite Hp in Hr. apply Forall_cons_1 in Hr as [_ Hr]. split; [done|]. intros t' Ht'.
    destruct (decide (s = tok)) as [->|Hne].
    + pose proof (Ht t Hn) as H1. rewrite <- (live_of_retain tok t t) in H1 by lia.
      rewrite Hp in H1. unfold live_of at 1 in H1. rewrite list.filter_cons_True in H1 by done.
      rewrite (live_of_later tok t t'); [done..|]. apply Permutation_length in H1. unfold live_of.
      destruct cur as [e'|]; [destruct (t <? e')|]; cbn in H1; [|done..].
      by destruct (filter _ _).
    + rewrite <- (Ht t'), <- (live_of_retain tok t t' (pending b)) by lia.
      rewrite Hp. unfold live_of. rewrite list.filter_cons_False by (cbn; by intros [? _]). done.
Qed.

(** The calls are serialized: their times never go back, from [now] to [t]. *)
Fixpoint ordered (now : Z) (ops : list token_op) (t : Z) : Prop :=
  match ops with
  | [] => now <= t
  | o :: ops => now <= op_time o /\ ordered (op_time o) ops t
  end.

Definition op_ok (o : token_op) : Prop := scalars (op_token o) /\ 0 <= op_time o < 2 ^ 127.

Lemma track_run tok ops t : forall now b cur,
  tracks tok now b cur -> Forall op_ok ops -> ordered now ops t ->
  Forall (fun o => ~ is_issue tok o) ops ->
  exists b' now', token_run b ops = Ok b' /\ now' <= t /\ now <= now' /\
    tracks tok now' b' (foldl (track_step tok) cur ops).
Proof.
  induction ops as [|o ops IH]; intros now b cur Hb Hok Ho Hi.
  { exists b, now. repeat split; try done; apply Hb. }
  apply Forall_cons_1 in Hok as [[Hs Ht] Hok]. apply Forall_cons_1 in Hi as [Hni Hi].
  destruct Ho as [Hn Ho].
  assert (exists b', token_step b o = Ok b' /\ tracks tok (op_time o) b' (track_step tok cur o))
    as (b'&Hst&Htr).
  { destruct o as [s u|s u]; cbn [token_step op_time op_token] in *.
    - apply (track_issue tok now); try done.
    - eexists. split; [reflexivity|]. by apply (track_consume tok now). }
  destruct (IH _ _ _ Htr Hok Ho Hi) as (b2&n2&Hr&H1&H2&H3).
  exists b2, n2. cbn [token_run foldl]. rewrite Hst. repeat split; try done; [lia|apply H3..].
Qed.

Lemma token_run_app b ops1 ops2 :
  token_run b (ops1 ++ ops2) = b' ← token_run b ops1; token_run b' ops2.
Proof.
  revert b. induction ops1 as [|o ops1 IH]; intros b; [done|]. cbn [app token_run].
  destruct (token_step b o); [apply IH|done..].
Qed.

Lemma track_none tok ops : Forall (fun o => ~ is_issue tok o) ops -> foldl (track_step tok) None ops = None.
Proof.
  induction 1 as [|[s u|s u] ops Hi Hops IH]; [done|..]; cbn [foldl track_step]; case_decide; done.
Qed.

Lemma track_some tok ops e :
  Forall (fun o => ~ is_issue tok o) ops ->
  foldl (track_step tok) (Some e) ops
  = if bool_decide (Forall (fun o => ~ is_redeem tok o) ops) then Some e else None.
Proof.
  induction 1 as [|[s u|s u] ops Hi Hops IH]; [done|..]; cbn [foldl track_step].
  - rewrite decide_False by done. rewrite IH.
    do 2 case_bool_decide; try done; exfalso; rewrite Forall_cons_iff in *; cbn in *; tauto.
  - case_decide.
    + rewrite track_none, bool_decide_false; [done| |done]. by intros [? _]%Forall_cons_1.
    + rewrite IH. do 2 case_bool_decide; try done; exfalso; rewrite Forall_cons_iff in *; cbn in *; tauto.
Qed.

(** Where [tok] is issued once, a redemption succeeds exactly when it comes
    before the expiry and no earlier one was made. *)
Lemma redeem_issued tok t0 t before after :
  Forall op_ok (before ++ Issue tok t0 :: after) ->
  Forall (fun o => ~ is_issue tok o) (before ++ after) ->
  ordered 0 (before ++ Issue tok t0 :: after) t ->
  exists b, token_run tokens_default (before ++ Issue tok t0 :: after) = Ok b /\
    snd (consume b tok t)
    = bool_decide (t < t0 + 30000 /\ Forall (fun o => ~ is_redeem tok o) after).
Proof.
  intros Hok Hi Ho. apply list.Forall_app in Hok as [Hok1 Hok2].
  apply Forall_cons_1 in Hok2 as [[Hs Ht0] Hok2]. apply list.Forall_app in Hi as [Hi1 Hi2].
  assert (Ho' : ordered 0 before t0 /\ ordered t0 after t).
  { clear -Ho. revert Ho. generalize 0. induction before as [|o l IH]; intros n Ho; cbn in *; [done|].
    destruct Ho as [? Ho]. apply IH in Ho. tauto. }
  destruct Ho' as [Ho1 Ho2].
  assert (H0 : tracks tok 0 tokens_default None) by (split; [constructor|done]).
  destruct (track_run tok before t0 0 tokens_default None H0 Hok1 Ho1 Hi1) as (b1&n1&Hr1&Hn1&Hz&Ht1).
  rewrite track_none in Ht1 by done.
  destruct (track_issue tok n1 b1 None tok t0 Ht1 Hs Hn1 Ht0) as (b2&Hr2&Ht2); [done|].
  cbn [track_step] in Ht2. rewrite decide_True in Ht2 by done.
  destruct (track_run tok after t t0 b2 _ Ht2 Hok2 Ho2 Hi2) as (b3&n3&Hr3&Hn3&_&[Hs3 Ht3]).
  exists b3. split.
  { rewrite token_run_app, Hr1. cbn [mbind res_bind token_run token_step]. by rewrite Hr2. }
  rewrite track_some in Ht3 by done. specialize (Ht3 t Hn3).
  symmetry. destruct (consume_spec b3 tok t Hs Hs3) as [(->&He&_)|(e&->&He&Hp)].
  - rewrite He in Ht3. apply bool_decide_eq_false. intros [Hlt Hall].
    rewrite bool_decide_true in Ht3 by done. replace (t <? t0 + 30000) with true in Ht3 by lia.
    by apply Permutation_nil_cons in Ht3.
  - apply bool_decide_eq_true. rewrite <- (live_of_retain tok t t) in Ht3 by lia. rewrite Hp in Ht3.
    unfold live_of in Ht3. rewrite list.filter_cons_True in Ht3 by done.
    case_bool_decide as Hall; [destruct (t <? t0 + 30000) eqn:E; [split; [lia|done]|]|];
      symmetry in Ht3; by apply Permutation_nil_cons in Ht3.
Qed.

(** ** Request heads *)

Lemma to_ascii_lowercase_idem c : to_ascii_lowercase (to_ascii_lowercase c) = to_ascii_lowercase c.
Proof. unfold to_ascii_lowercase, between. repeat case_match; lia. Qed.

Lemma lowercase_idem s : lowercase (lowercase s) = lowercase s.
Proof.
  unfold lowercase. rewrite <- list_fmap_compose. apply list_fmap_ext. intros _ c _. cbn.
  apply to_ascii_lowercase_idem.
Qed.

(** The value of a string of decimal digits. *)
Definition decimal (s : str) : Z := foldl (fun a c => a * 10 + (c - 48)) 0 s.

Lemma decimal_mono s a :
  0 <= a -> Forall (fun c => is_ascii_digit c = true) s -> a <= foldl (fun a c => a * 10 + (c - 48)) a s.
Proof.
  intros Ha Hs. revert a Ha. induction Hs as [|c s Hc Hs IH]; intros a Ha; cbn [foldl]; [lia|].
  unfold is_ascii_digit, between in Hc. specialize (IH (a * 10 + (c - 48)) ltac:(lia)). lia.
Qed.

Lemma content_length_fold s a :
  0 <= a < 2 ^ 64 -> Forall (fun c => is_ascii_digit c = true) s ->
  foldl content_length_step (Some a) s =
  let n := foldl (fun a c => a * 10 + (c - 48)) a s in if n <? 2 ^ 64 then Some n else None.
Proof.
  intros Ha Hs. revert a Ha. induction Hs as [|c s Hc Hs IH]; intros a Ha.
  { cbn. by replace (a <? _) with true by lia. }
  cbn [foldl]. cbv zeta. unfold content_length_step at 2, checked_add. cbn [mbind option_bind].
  unfold is_ascii_digit, between in Hc.
  assert (Hbig : 2 ^ 64 <= a * 10 + (c - 48) ->
    (foldl (fun a c => a * 10 + (c - 48)) (a * 10 + (c - 48)) s <? 2 ^ 64) = false).
  { intros. pose proof (decimal_mono s (a * 10 + (c - 48)) ltac:(lia) Hs). lia. }
  assert (Hnone : foldl content_length_step None s = None) by (clear; induction s; done).
  destruct (a * 10 <? 2 ^ 64) eqn:E1; cbn [mbind option_bind].
  - destruct (a * 10 + (c - 48) <? 2 ^ 64) eqn:E2; [apply IH; lia|].
    by rewrite Hbig, Hnone by lia.
  - by rewrite Hbig, Hnone by lia.
Qed.

Lemma parse_content_length_spec s :
  parse_content_length s =
  if bool_decide (s <> [] /\ Forall (fun c => is_ascii_digit c = true) s /\ decimal s < 2 ^ 64)
  then Ok (decimal s) else Err InvalidContentLength.
Proof.
  unfold parse_content_length. destruct s as [|c s]; [done|].
  replace (len (c :: s) =? 0) with false by (cbn; lia). cbn [orb].
  destruct (forallb is_ascii_digit (c :: s)) eqn:E; cbn [negb].
  - assert (Hs : Forall (fun c => is_ascii_digit c = true) (c :: s)).
    { apply list.Forall_forall. intros x Hx. rewrite forallb_forall in E. by apply E, list_elem_of_In. }
    rewrite content_length_fold by (done || lia). cbv zeta. fold (decimal (c :: s)).
    case_bool_decide as H; destruct (decimal (c :: s) <? 2 ^ 64) eqn:Ed; cbn; try done; [lia|].
    exfalso. apply H. repeat split; [done..|lia].
  - rewrite bool_decide_false; [done|]. intros (_&Hs&_).
    assert (forallb is_ascii_digit (c :: s) = true); [|congruence].
    apply forallb_forall. rewrite list.Forall_forall in Hs. intros x Hx. by apply Hs, list_elem_of_In.
Qed.

(** A header line, and what a list of headers says about body framing: no
    transfer coding, at most one [Content-Length], which is a decimal [usize],
    and no expectation. *)
Definition parse_line (line : str) : option (str * str) :=
  '(k, v) ← split_once 58 line;
  if decide (lowercase (trim k) = []) then None else Some (lowercase (trim k), trim v).

Definition values (name : str) (hs : list (str * str)) : list str :=
  snd <$> filter (fun h => fst h = name) hs.

Definition body_framing (hs : list (str * str)) : res RequestFramingError Z :=
  match values (lit "transfer-encoding") hs, values (lit "content-length") hs,
        values (lit "expect") hs with
  | _ :: _, _, _ => Err TransferEncoding
  | [], _ :: _ :: _, _ => Err DuplicateContentLength
  | [], [v], ex =>
      if bool_decide (v <> [] /\ Forall (fun c => is_ascii_digit c = true) v /\ decimal v < 2 ^ 64)
      then match ex with [] => Ok (decimal v) | _ => Err Expectation end
      else Err InvalidContentLength
  | [], [], [] => Ok 0
  | [], [], _ => Err Expectation
  end.

(** The loop variables after headers [hs]. *)
Definition summary (hs : list (str * str)) : head_state :=
  mkHeadState hs (values (lit "content-length") hs)
    (bool_decide (values (lit "transfer-encoding") hs <> []))
    (bool_decide (values (lit "expect") hs <> [])).

Lemma values_snoc name hs h :
  values name (hs ++ [h]) = values name hs ++ if decide (fst h = name) then [snd h] else [].
Proof.
  unfold values. rewrite list.filter_app, fmap_app. f_equal.
  rewrite list.filter_cons. by case_decide.
Qed.

Lemma snoc_nonempty {A} (l : list A) x : bool_decide (l ++ [x] <> []) = true.
Proof. apply bool_decide_eq_true. by destruct l. Qed.

Lemma head_line_summary hs line :
  head_line (summary hs) line =
  match parse_line line with Some h => Ok (summary (hs ++ [h])) | None => Err InvalidHeader end.
Proof.
  unfold head_line, parse_line. destruct (split_once 58 line) as [[k v]|]; [|done].
  cbn [mbind option_bind]. cbv zeta.
  destruct (decide (lowercase (trim k) = [])) as [->|Hne]; [done|].
  replace (len (lowercase (trim k)) =? 0) with false by (destruct (lowercase (trim k)); [done|cbn; lia]).
  unfold summary. rewrite !values_snoc. cbn [fst snd hs_headers content_lengths
    has_transfer_encoding has_expectation].
  generalize (lowercase (trim k)). intros key.
  destruct (decide (key = lit "content-length")) as [->|H1];
    [rewrite bool_decide_true by done; rewrite !decide_False by done; by rewrite !app_nil_r|].
  rewrite bool_decide_false by done.
  destruct (decide (key = lit "transfer-encoding")) as [->|H2];
    [rewrite bool_decide_true by done; rewrite decide_False by done;
     by rewrite snoc_nonempty, !app_nil_r|].
  rewrite bool_decide_false by done.
  destruct (decide (key = lit "expect")) as [->|H3];
    [rewrite bool_decide_true by done; by rewrite snoc_nonempty, !app_nil_r|].
  rewrite bool_decide_false by done. by rewrite !app_nil_r.
Qed.

Lemma head_lines_summary lines hs :
  head_lines (summary hs) lines =
  match mapM parse_line lines with
  | Some new => Ok (summary (hs ++ new))
  | None => Err InvalidHeader
  end.
Proof.
  revert hs. induction lines as [|l lines IH]; intros hs; cbn [head_lines mapM].
  { cbn. by rewrite app_nil_r. }
  rewrite head_line_summary. destruct (parse_line l) as [h|]; [|done]. cbn [mbind option_bind res_bind].
  rewrite IH. destruct (mapM parse_line lines) as [new|]; [|done]. cbn.
  by rewrite <- app_assoc.
Qed.

Lemma check_framing_summary m t hs :
  check_framing m t (summary hs) = mkValidated (mkHead m t hs) <$> body_framing hs.
Proof.
  unfold check_framing, body_framing, summary.
  cbn [has_transfer_encoding has_expectation content_lengths hs_headers].
  destruct (values (lit "transfer-encoding") hs); [|by rewrite bool_decide_true].
  rewrite bool_decide_false by (intros H; by apply H).
  destruct (values (lit "content-length") hs) as [|v [|w l]].
  - by destruct (values (lit "expect") hs).
  - rewrite parse_content_length_spec. replace (len [v] >? 1) with false by done.
    destruct (bool_decide (v <> [] /\ _)); [|done]. cbn [mbind res_bind].
    by destruct (values (lit "expect") hs).
  - replace (len (v :: w :: l) >? 1) with true by (cbn; lia). done.
Qed.

(** The parser as its stages. *)
Lemma parse_request_head_stages raw :
  parse_request_head raw =
  match find_subsequence raw bCRLF2 with
  | None => Err (if len raw >? MAX_REQUEST_HEAD_BYTES then HeadTooLarge else MissingTerminator)
  | Some split =>
      if split + 4 >? MAX_REQUEST_HEAD_BYTES then Err HeadTooLarge
      else
        match from_utf8 (ztake split raw) with
        | None => Err InvalidEncoding
        | Some text =>
            match split_crlf text with
            | [] => Err InvalidRequestLine
            | request_line :: lines =>
                match split_whitespace request_line, mapM parse_line lines with
                | m :: t :: _, Some hs => mkValidated (mkHead m t hs) <$> body_framing hs
                | _ :: _ :: _, None => Err InvalidHeader
                | _, _ => Err InvalidRequestLine
                end
            end
        end
  end.
Proof.
  unfold parse_request_head. destruct (find_subsequence raw bCRLF2) as [split|]; [|done].
  destruct (_ >? _); [done|]. destruct (from_utf8 _) as [text|]; [|done]. cbn [ok_or mbind res_bind].
  destruct (split_crlf text) as [|rl lines]; [done|].
  destruct (split_whitespace rl) as [|m [|t l]]; [by destruct (mapM parse_line lines)..|].
  change (mkHeadState [] [] false false) with (summary []). rewrite head_lines_summary.
  destruct (mapM parse_line lines) as [hs|]; [|done]. cbn [mbind res_bind app].
  apply check_framing_summary.
Qed.

(** *** A rendered head *)

Lemma utf8_no_cr c : is_scalar c = true -> c <> CR -> Forall (fun b => b <> Byte.x0d) (utf8_char c).
Proof.
  unfold is_scalar, CR. intros Hs Hc.
  assert (Hb : forall z l, z mod 256 <> 13 -> Forall (fun b => b <> Byte.x0d) l ->
    Forall (fun b => b <> Byte.x0d) (as_u8 z :: l)).
  { intros z l Hz Hl. constructor; [|done]. intros E%(f_equal u8). rewrite u8_as_u8 in E.
    by change (u8 Byte.x0d) with 13 in E. }
  unfold utf8_char. destruct (c <? 0x80) eqn:E1; [|destruct (c <? 0x800) eqn:E2; [|destruct (c <? 0x10000) eqn:E3]];
    repeat (apply Hb; [Z.to_euclidean_division_equations; lia|]); constructor.
Qed.

Lemma into_bytes_no_cr s : scalars s -> CR ∉ s -> Forall (fun b => b <> Byte.x0d) (into_bytes s).
Proof.
  intros Hs Hc. unfold into_bytes. induction Hs as [|c s Hsc Hs IH]; [constructor|].
  cbn [fmap list_fmap concat]. apply not_elem_of_cons in Hc as [Hc Hn].
  apply list.Forall_app. split; [by apply utf8_no_cr|by apply IH].
Qed.

Lemma find_window_skip n l r b0 n' :
  n = b0 :: n' -> Forall (fun b => b <> b0) l ->
  find_window n (l ++ r) = Z.add (len l) <$> find_window n r.
Proof.
  intros -> Hl. induction Hl as [|b l Hb Hl IH]; cbn [app length].
  { by destruct (find_window (b0 :: n') r). }
  cbn [find_window]. cbn [starts_with]. rewrite bool_decide_false by congruence. cbn [andb].
  rewrite IH. destruct (find_window (b0 :: n') r); [|done]. cbn. f_equal. lia.
Qed.

(** The byte lines of a head: the first terminator is the one after the last. *)
Lemma find_terminator first (lines : list (list byte)) body :
  Forall (fun b => b <> Byte.x0d) first ->
  Forall (fun l => l <> [] /\ Forall (fun b => b <> Byte.x0d) l) lines ->
  let head := first ++ concat ((fun l => bCRLF ++ l) <$> lines) in
  find_subsequence (head ++ bCRLF2 ++ body) bCRLF2 = Some (len head).
Proof.
  intros Hf Hl head.
  assert (Hw : find_window bCRLF2 (head ++ bCRLF2 ++ body) = Some (len head)).
  { unfold head. clear head. revert first Hf. induction Hl as [|l lines [Hne Hcr] Hl IH]; intros first Hf.
    - cbn [fmap list_fmap concat]. rewrite app_nil_r.
      rewrite (find_window_skip _ _ _ Byte.x0d (drop 1 bCRLF2)) by done.
      change (find_window bCRLF2 (bCRLF2 ++ body)) with (Some 0).
      cbn [fmap option_fmap option_map]. by rewrite Z.add_0_r.
    - cbn [fmap list_fmap concat]. rewrite <- !app_assoc.
      rewrite (find_window_skip _ _ _ Byte.x0d (drop 1 bCRLF2)) by done.
      specialize (IH l Hcr). rewrite <- app_assoc in IH. destruct l as [|b l]; [done|].
      apply Forall_cons_1 in Hcr as [Hb _].
      cbn [bCRLF bCRLF2 app find_window starts_with] in *.
      rewrite !(bool_decide_true (Byte.x0d = Byte.x0d)), !(bool_decide_true (Byte.x0a = Byte.x0a)),
        (bool_decide_false (Byte.x0d = b)), (bool_decide_false (Byte.x0d = Byte.x0a)) by congruence.
      cbn [andb]. rewrite bool_decide_false in IH by congruence. cbn [andb] in IH.
      rewrite IH. cbn [fmap option_fmap option_map]. f_equal.
      rewrite !length_app. cbn [length]. rewrite ?length_app. lia. }
  unfold find_subsequence. rewrite Hw. replace (_ || _) with false; [done|].
  rewrite !length_app. cbn [bCRLF2 length]. lia.
Qed.

Lemma split_crlf_cons x s :
  x <> CR -> split_crlf (x :: s) = match split_crlf s with [] => [[x]] | p :: ps => (x :: p) :: ps end.
Proof. intros Hx. destruct s as [|y s]; [done|]. cbn [split_crlf]. by replace (x =? CR) with false by lia. Qed.

Lemma split_crlf_lines first lines :
  CR ∉ first -> Forall (fun l => CR ∉ l) lines ->
  split_crlf (first ++ concat ((fun l => CRLF ++ l) <$> lines)) = first :: lines.
Proof.
  intros Hf Hl. revert first Hf. induction Hl as [|l lines Hcr Hl IH]; intros first Hf;
    cbn [fmap list_fmap concat]; (induction first as [|x f IHf];
      [|apply not_elem_of_cons in Hf as [Hx Hf]; cbn [app]; by rewrite split_crlf_cons, IHf]).
  - done.
  - cbn [app]. change (split_crlf ((CRLF ++ l) ++ ?r)) with ([] :: split_crlf (l ++ r)). by rewrite IH.
Qed.

Lemma split_on_nows s : Forall (fun c => is_whitespace c = false) s -> split_on is_whitespace s = [s].
Proof. induction 1 as [|x s Hx Hs IH]; [done|]. cbn. by rewrite Hx, IH. Qed.

Lemma split_on_app s w r :
  Forall (fun c => is_whitespace c = false) s -> is_whitespace w = true ->
  split_on is_whitespace (s ++ w :: r) = s :: split_on is_whitespace r.
Proof.
  intros Hs Hw. induction Hs as [|x s Hx Hs IH]; cbn [app split_on]; [by rewrite Hw|].
  by rewrite Hx, IH.
Qed.

Definition token_text (s : str) : Prop :=
  s <> [] /\ scalars s /\ Forall (fun c => is_whitespace c = false) s.

(** A header as it may be written: a name that is a token without a colon, and a
    value with no line break and no surrounding blanks. *)
Definition header_ok (h : str * str) : Prop :=
  token_text (fst h) /\ (58 ∉ fst h) /\ lowercase (fst h) = fst h /\
  scalars (snd h) /\ (CR ∉ snd h) /\ trim (snd h) = snd h.

Definition header_text (h : str * str) : str := fst h ++ lit ":" ++ lit " " ++ snd h.
Definition head_text (m t : str) (hs : list (str * str)) : str :=
  (m ++ lit " " ++ t ++ lit " HTTP/1.1") ++ concat ((fun l => CRLF ++ l) <$> (header_text <$> hs)).

Lemma trim_space s : trim (lit " " ++ s) = trim s.
Proof. done. Qed.

Lemma parse_line_text h : header_ok h -> parse_line (header_text h) = Some h.
Proof.
  intros ((Hne&_&Hw)&Hc&Hl&_&_&Ht). unfold parse_line, header_text.
  change (lit ":" ++ lit " " ++ snd h) with (58 :: (lit " " ++ snd h)).
  rewrite (split_once_app 58 (fst h)); [|apply list.Forall_forall; intros x Hx ->; done].
  cbn [mbind option_bind]. rewrite trim_none, Hl by done. rewrite decide_False by done.
  rewrite trim_space, Ht. by destruct h.
Qed.

Lemma mapM_parse_line hs : Forall header_ok hs -> mapM parse_line (header_text <$> hs) = Some hs.
Proof.
  induction 1 as [|h hs Hh Hhs IH]; [done|]. cbn [fmap list_fmap mapM].
  rewrite parse_line_text by done. cbn [mbind option_bind]. by rewrite IH.
Qed.

Definition request_line (m t : str) : str := m ++ lit " " ++ t ++ lit " HTTP/1.1".

Lemma head_text_bytes m t hs :
  into_bytes (head_text m t hs) =
  into_bytes (request_line m t) ++ concat ((fun l => bCRLF ++ l) <$> (into_bytes <$> (header_text <$> hs))).
Proof.
  unfold head_text. fold (request_line m t). rewrite into_bytes_app. f_equal.
  generalize (header_text <$> hs). intros lines. induction lines as [|l lines IH]; [done|].
  cbn [fmap list_fmap concat]. by rewrite !into_bytes_app, IH.
Qed.

Lemma ws_no_cr s : Forall (fun c => is_whitespace c = false) s -> CR ∉ s.
Proof. intros Hs Hc. rewrite list.Forall_forall in Hs. by apply Hs in Hc. Qed.

Lemma no_cr (s : str) : bool_decide (CR ∉ s) = true -> CR ∉ s.
Proof. apply bool_decide_eq_true_1. Qed.

(** A line that the head can carry. *)
Definition line_ok (l : str) : Prop := l <> [] /\ scalars l /\ (CR ∉ l).

Lemma request_line_ok m t : token_text m -> token_text t -> line_ok (request_line m t).
Proof.
  intros (Hm&Hms&Hmw) (Ht&Hts&Htw). unfold request_line. split; [by destruct m|]. split.
  - rewrite !list.Forall_app. repeat split; try done; by repeat constructor.
  - rewrite !not_elem_of_app. repeat split; try (by apply ws_no_cr); by apply no_cr.
Qed.

Lemma header_text_ok h : header_ok h -> line_ok (header_text h).
Proof.
  intros ((Hn&Hs&Hw)&_&_&Hvs&Hvc&_). unfold header_text. split; [by destruct (fst h)|]. split.
  - rewrite !list.Forall_app. repeat split; try done; by repeat constructor.
  - rewrite !not_elem_of_app. repeat split; try (by apply ws_no_cr); try done; by apply no_cr.
Qed.

Lemma into_bytes_nonempty s : s <> [] -> into_bytes s <> [].
Proof.
  destruct s as [|c s]; [done|]. intros _. unfold into_bytes. cbn [fmap list_fmap concat].
  unfold utf8_char. by repeat case_match.
Qed.

Lemma lines_scalars lines :
  Forall line_ok lines -> scalars (concat ((fun l => CRLF ++ l) <$> lines)).
Proof.
  induction 1 as [|l lines (_&Hs&_) Hls IH]; [constructor|]. cbn [fmap list_fmap concat].
  rewrite !list.Forall_app. repeat split; try done. by repeat constructor.
Qed.

Lemma split_request_line m t :
  token_text m -> token_text t -> split_whitespace (request_line m t) = [m; t; lit "HTTP/1.1"].
Proof.
  intros (Hm&_&Hmw) (Ht&_&Htw). unfold split_whitespace, request_line.
  change (m ++ lit " " ++ t ++ lit " HTTP/1.1") with (m ++ 32 :: (t ++ 32 :: lit "HTTP/1.1")).
  rewrite (split_on_app m 32), (split_on_app t 32) by done.
  rewrite list.filter_cons_True, list.filter_cons_True by done. done.
Qed.

(** A rendered head is read back, and judged on its body framing alone. *)
Lemma parse_head_text m t hs body :
  token_text m -> token_text t -> Forall header_ok hs ->
  len (into_bytes (head_text m t hs)) + 4 <= MAX_REQUEST_HEAD_BYTES ->
  parse_request_head (into_bytes (head_text m t hs) ++ bCRLF2 ++ body)
  = mkValidated (mkHead m t hs) <$> body_framing hs.
Proof.
  intros Hm Ht Hhs Hlen.
  destruct (request_line_ok m t Hm Ht) as (Hr0&Hrs&Hrc).
  assert (Hlines : Forall line_ok (header_text <$> hs)).
  { apply list.Forall_fmap. eapply Forall_impl; [|exact Hhs]. apply header_text_ok. }
  rewrite parse_request_head_stages.
  pose proof (find_terminator (into_bytes (request_line m t)) (into_bytes <$> (header_text <$> hs)) body) as Hfind.
  cbv zeta in Hfind. rewrite <- head_text_bytes in Hfind. rewrite Hfind.
  - replace (_ >? _) with false by lia.
    rewrite Nat2Z.id, take_app_length, from_utf8_into_bytes
      by (apply list.Forall_app; split; [done|by apply lines_scalars]).
    unfold head_text at 1. fold (request_line m t).
    rewrite split_crlf_lines, split_request_line, mapM_parse_line; [done..|].
    eapply Forall_impl; [|exact Hlines]. by intros l (_&_&?).
  - by apply into_bytes_no_cr.
  - apply list.Forall_fmap. eapply Forall_impl; [|exact Hlines]. cbn. intros l (Hne&Hs&Hc).
    split; [by apply into_bytes_nonempty|by apply into_bytes_no_cr].
Qed.

(** ** Cookies *)

(** A cookie as RFC 6265 lets it be written: no separator or blank in the name,
    none in the value either. *)
Definition cookie_ok (c : str * str) : Prop :=
  Forall (fun x => is_whitespace x = false /\ x <> 59 /\ x <> 61) (fst c) /\
  Forall (fun x => is_whitespace x = false /\ x <> 59) (snd c).

Definition cookie_text (c : str * str) : str := fst c ++ lit "=" ++ snd c.
Definition cookie_line (cs : list (str * str)) : str := join (lit "; ") (cookie_text <$> cs).

Lemma split_char_app c a b :
  Forall (fun x => x <> c) a -> split_char c (a ++ c :: b) = a :: split_char c b.
Proof.
  induction 1 as [|x a Hx Ha IH]; cbn [app split_char].
  - by rewrite Z.eqb_refl.
  - replace (x =? c) with false by lia. by rewrite IH.
Qed.

Lemma cookie_text_clean c :
  cookie_ok c -> Forall (fun x => is_whitespace x = false) (cookie_text c) /\
  Forall (fun x => x <> 59) (cookie_text c).
Proof.
  intros [Hn Hv]. unfold cookie_text. rewrite !list.Forall_app.
  repeat split; try (by repeat constructor);
    (eapply Forall_impl; [|first [exact Hn|exact Hv]]; cbn; tauto).
Qed.

(** The trimmed parts of a cookie header are the cookies. *)
Lemma cookie_line_parts cs :
  cs <> [] -> Forall cookie_ok cs -> trim <$> split_char 59 (cookie_line cs) = cookie_text <$> cs.
Proof.
  intros Hne Hcs. unfold cookie_line.
  assert (Hparts : forall c cs, cookie_ok c -> Forall cookie_ok cs ->
    split_char 59 (join (lit "; ") (cookie_text c :: (cookie_text <$> cs)))
    = cookie_text c :: ((fun c => 32 :: cookie_text c) <$> cs)).
  { clear. intros c cs. revert c. induction cs as [|d cs IH]; intros c Hc Hcs; cbn [fmap list_fmap join].
    - apply split_char_none. by apply cookie_text_clean.
    - apply Forall_cons_1 in Hcs as [Hd Hcs].
      change (lit "; " ++ ?r) with (59 :: 32 :: r). rewrite split_char_app by (by apply cookie_text_clean).
      f_equal. cbn [split_char]. specialize (IH d Hd Hcs). cbn [join] in IH.
      replace (32 =? 59) with false by done. rewrite IH. done. }
  destruct cs as [|c cs]; [done|]. apply Forall_cons_1 in Hcs as [Hc Hcs].
  cbn [fmap list_fmap]. rewrite Hparts by done. cbn [fmap list_fmap].
  rewrite trim_none by (by apply cookie_text_clean). f_equal.
  rewrite <- list_fmap_compose. clear -Hcs. induction Hcs as [|d cs Hd Hcs IH]; [done|].
  cbn [fmap list_fmap]. f_equal; [|done]. transitivity (trim (cookie_text d)); [done|].
  apply trim_none. by apply cookie_text_clean.
Qed.

Lemma upstream_cookie_text names c :
  cookie_ok c ->
  upstream_cookie names (cookie_text c) =
  if decide (fst c = capability_cookie_name names) then None
  else u ← strip_prefix (upstream_cookie_prefix names) (fst c); Some (cookie_text (u, snd c)).
Proof.
  intros [Hn Hv]. unfold upstream_cookie, cookie_text.
  change (fst c ++ lit "=" ++ snd c) with (fst c ++ 61 :: snd c).
  rewrite split_once_app by (eapply Forall_impl; [|exact Hn]; cbn; tauto).
  cbn [mbind option_bind].
  rewrite !trim_none by (eapply Forall_impl; [|first [exact Hn|exact Hv]]; cbn; tauto).
  case_decide; [by rewrite bool_decide_true|by rewrite bool_decide_false].
Qed.

(** What is forwarded of a cookie header a browser sends. *)
Lemma upstream_cookies_text names cs :
  cs <> [] -> Forall cookie_ok cs ->
  upstream_cookies (cookie_line cs) names = omap (fun c =>
    if decide (fst c = capability_cookie_name names) then None
    else u ← strip_prefix (upstream_cookie_prefix names) (fst c); Some (cookie_text (u, snd c))) cs.
Proof.
  intros Hne Hcs. unfold upstream_cookies. rewrite cookie_line_parts by done. clear Hne.
  induction Hcs as [|c cs Hc Hcs IH]; [done|]. cbn [fmap list_fmap].
  rewrite list.filter_cons_True by (unfold cookie_text; by destruct (fst c)).
  cbn [omap list_omap]. rewrite upstream_cookie_text by done.
  destruct (if decide _ then None else _) as [t|]; cbn [omap list_omap]; by rewrite IH.
Qed.

(** ** URLs *)

Lemma split_once_str_eq pat s a b : split_once_str pat s = Some (a, b) -> s = a ++ pat ++ b.
Proof.
  revert a. induction s as [|x s IH]; intros a; cbn [split_once_str].
  - destruct (starts_with pat []) eqn:E; [|done]. intros; simplify_eq.
    apply starts_with_app in E as [k Hk]. destruct pat; [by destruct k|done].
  - destruct (starts_with pat (x :: s)) eqn:E.
    + intros; simplify_eq. apply starts_with_app in E as [k Hk]. rewrite Hk. cbn. by rewrite drop_app_length.
    + destruct (split_once_str pat s) as [[a' b']|]; [|done]. intros; simplify_eq/=. f_equal. by apply IH.
Qed.

Lemma split_http_url_eq loc scheme authority suffix :
  split_http_url loc = Some (scheme, authority, suffix) ->
  loc = scheme ++ lit "://" ++ authority ++ suffix /\
  (lowercase scheme = lit "http" \/ lowercase scheme = lit "https") /\
  match suffix with [] => True | c :: _ => c = 47 \/ c = 63 \/ c = 35 end.
Proof.
  unfold split_http_url. destruct (split_once_str (lit "://") loc) as [[s rest]|] eqn:E; [|done].
  cbn [mbind option_bind]. destruct (_ && _) eqn:Es; [done|].
  destruct (split_at_first _ rest) as [a b] eqn:Ea. intros; simplify_eq.
  apply split_once_str_eq in E as ->. apply split_at_first_eq in Ea as [-> Hb].
  split; [done|]. split.
  - apply andb_false_iff in Es. rewrite !negb_false_iff in Es. unfold eq_ignore_ascii_case in Es.
    rewrite !bool_decide_eq_true in Es. done.
  - destruct suffix; [done|]. lia.
Qed.

(** ** Claims *)

(** A request head written out is read back: for any method, target and
    headers that can be written, within the size limit and whatever body
    follows, the parser returns exactly that head when its framing headers are
    acceptable, with the body length they declare, and otherwise the error of
    the framing rule they break. *)
Theorem request_head_roundtrip m t hs body :
  token_text m -> token_text t -> Forall header_ok hs ->
  len (into_bytes (head_text m t hs)) + 4 <= MAX_REQUEST_HEAD_BYTES ->
  parse_request_head (into_bytes (head_text m t hs) ++ bCRLF2 ++ body)
  = mkValidated (mkHead m t hs) <$> body_framing hs.
Proof. apply parse_head_text. Qed.

Definition sample_headers : list (str * str) :=
  [(lit "host", lit "127.0.0.1:8080"); (lit "cookie", lit "cap=s3; j_a=1"); (lit "content-length", lit "42")].

Lemma request_head_roundtrip_witness :
  parse_request_head (into_bytes (head_text (lit "POST") (lit "/x?y") sample_headers) ++ bCRLF2 ++ blit "body")
  = Ok (mkValidated (mkHead (lit "POST") (lit "/x?y") sample_headers) 42).
Proof.
  rewrite (request_head_roundtrip (lit "POST") (lit "/x?y") sample_headers (blit "body")).
  - vm_compute. reflexivity.
  - split; [done|]. split; by repeat constructor.
  - split; [done|]. split; by repeat constructor.
  - assert (Hh : forall h, bool_decide (fst h <> [] /\ Forall (fun c => is_scalar c = true) (fst h)
        /\ Forall (fun c => is_whitespace c = false) (fst h) /\ (58 ∉ fst h) /\ lowercase (fst h) = fst h
        /\ Forall (fun c => is_scalar c = true) (snd h) /\ (CR ∉ snd h) /\ trim (snd h) = snd h) = true
        -> header_ok h).
    { intros h (?&?&?&?&?&?&?&?)%bool_decide_eq_true_1. by repeat split. }
    repeat constructor; apply Hh; vm_compute; reflexivity.
  - vm_compute. congruence.
Defined.

(** C34. No accepted request is ambiguous about where its body ends: whatever
    the bytes, an accepted head has no [Transfer-Encoding] and no [Expect]
    under any spelling of the name, and the body length is the decimal value of
    its only [Content-Length], or zero without one; names are lowercase and
    non-empty, and the head with its terminator is within the limit. *)
Theorem request_framing_unambiguous raw v :
  parse_request_head raw = Ok v ->
  let hs := req_headers (head_of v) in
  Forall (fun h => fst h <> [] /\ lowercase (fst h) = fst h /\
    fst h <> lit "transfer-encoding" /\ fst h <> lit "expect") hs /\
  match values (lit "content-length") hs with
  | [] => content_length v = 0
  | [s] => s <> [] /\ Forall (fun c => is_ascii_digit c = true) s /\
      content_length v = decimal s /\ decimal s < 2 ^ 64
  | _ => False
  end /\
  exists split, raw = ztake split raw ++ bCRLF2 ++ zdrop (split + 4) raw /\
    split + 4 <= MAX_REQUEST_HEAD_BYTES.
Proof.
  rewrite parse_request_head_stages.
  destruct (find_subsequence raw bCRLF2) as [split|] eqn:Ef; [|done].
  destruct (split + 4 >? _) eqn:El; [done|]. destruct (from_utf8 _) as [text|]; [|done].
  destruct (split_crlf text) as [|rl lines]; [done|].
  destruct (split_whitespace rl) as [|m [|t l]]; [by destruct (mapM parse_line lines)..|].
  destruct (mapM parse_line lines) as [hs|] eqn:Em; [|done].
  destruct (body_framing hs) as [n| |] eqn:Eb; [|done..]. intros [= <-]. cbn [head_of req_headers content_length].
  apply mapM_Some_1 in Em. unfold body_framing in Eb.
  destruct (values (lit "transfer-encoding") hs) eqn:Ete; [|done].
  assert (Hex : values (lit "expect") hs = []).
  { destruct (values (lit "content-length") hs) as [|s [|]]; [|destruct (bool_decide _)|done];
      by destruct (values (lit "expect") hs). }
  split; [|split].
  - assert (Habs : forall name h, values name hs = [] -> h ∈ hs -> fst h <> name).
    { unfold values. intros name h Hn%fmap_nil_inv Hh Hf. 
      assert (Hin : h ∈ filter (fun h : str * str => fst h = name) hs) by (by apply list_elem_of_filter).
      rewrite Hn in Hin. by apply not_elem_of_nil in Hin. }
    apply list.Forall_forall. intros h Hh. split_and!; [| |by eapply Habs..].
    all: apply list_elem_of_lookup_1 in Hh as [i Hi];
      eapply Forall2_lookup_r in Em as (line&_&Hp); [|exact Hi]; unfold parse_line in Hp;
      destruct (split_once 58 line) as [[k w]|]; [|done]; cbn in Hp; case_decide; [done|]; simplify_eq/=;
      first [done|apply lowercase_idem].
  - rewrite Hex in Eb. destruct (values (lit "content-length") hs) as [|s [|]]; [by simplify_eq| |done].
    case_bool_decide as Hs; simplify_eq. tauto.
  - exists split. split; [|lia]. by apply (find_subsequence_split raw bCRLF2).
Qed.

Lemma request_framing_unambiguous_witness :
  let raw := blit "GET /" ++ bCRLF ++ blit "Content-LENGTH : 7" ++ bCRLF2 ++ blit "1234567" in
  values (lit "content-length") [(lit "content-length", lit "7")] = [lit "7"] /\
  exists split, raw = ztake split raw ++ bCRLF2 ++ zdrop (split + 4) raw /\
    split + 4 <= MAX_REQUEST_HEAD_BYTES.
Proof.
  split; [done|].
  apply (request_framing_unambiguous
    (blit "GET /" ++ bCRLF ++ blit "Content-LENGTH : 7" ++ bCRLF2 ++ blit "1234567")
    (mkValidated (mkHead (lit "GET") (lit "/") [(lit "content-length", lit "7")]) 7)).
  vm_compute. reflexivity.
Defined.

(** Loopback authorization admits exactly the requests whose first [Host]
    is the listener's own address and whose first capability cookie is, byte for
    byte, the expected secret; a wrong host is reported before the cookie is
    looked at. *)
Theorem authorize_exact h expected_cap port names :
  authorize h expected_cap port names =
  if bool_decide (host h = Some (lit "127.0.0.1:" ++ to_string port)) then
    match cookie h (capability_cookie_name names) with
    | Some cap => if bool_decide (into_bytes cap = expected_cap) then Ok tt else Err BadCapability
    | None => Err BadCapability
    end
  else Err BadHost.
Proof.
  unfold authorize, check_loopback_host, check_capability_cookie.
  case_bool_decide; [|done]. cbn [mbind res_bind].
  destruct (cookie h _) as [cap|]; [|done]. pose proof (ct_eq_spec (into_bytes cap) expected_cap) as Hc.
  case_bool_decide as He; destruct (ct_eq _ _); try done; [by apply Hc in He|].
  by destruct He; apply Hc.
Qed.

(** Nothing reserved leaves the bridge: every header forwarded upstream is
    one of the request's that is not reserved (credentials, observer and protocol
    headers, host, length and hop-by-hop headers, in any case), or a cookie
    header all of whose cookies were sent under a name with the upstream prefix
    that is not the capability's. *)
Theorem upstream_forward_safe h names n v :
  (n, v) ∈ upstream_request_headers h names ->
  (n <> lit "cookie" /\ (n, v) ∈ req_headers h /\ is_reserved_request_header n names = false) \/
  (n = lit "cookie" /\ exists raw cs, (n, raw) ∈ req_headers h /\ v = join (lit "; ") cs /\
     Forall (fun c => exists name value,
       trim name <> capability_cookie_name names /\
       (name ++ lit "=" ++ value) ∈ (trim <$> split_char 59 raw) /\
       exists u, trim name = upstream_cookie_prefix names ++ u /\ c = u ++ lit "=" ++ trim value) cs).
Proof.
  unfold upstream_request_headers. rewrite list_elem_of_omap. intros ([n' w]&Hin&Hf).
  unfold upstream_header in Hf. case_bool_decide as Hc.
  - right. unfold upstream_cookie_header in Hf.
    destruct (upstream_cookies w names) as [|c cs] eqn:E; [done|]. simplify_eq/=. split; [done|].
    exists w, (c :: cs). split; [done|]. split; [done|]. rewrite <- E. clear E.
    apply list.Forall_forall. intros d Hd. unfold upstream_cookies in Hd.
    apply list_elem_of_omap in Hd as (part&Hp&Hd). apply list_elem_of_filter in Hp as [_ Hp].
    unfold upstream_cookie in Hd. destruct (split_once 61 part) as [[name value]|] eqn:Es; [|done].
    cbn [mbind option_bind] in Hd. case_bool_decide as Hcap; [done|].
    unfold strip_prefix in Hd. destruct (starts_with _ _) eqn:Epre; [|done].
    apply starts_with_app in Epre as [u Hu]. rewrite Hu, drop_app_length in Hd. simplify_eq/=.
    exists name, value. split; [done|]. split; [|by exists u].
    replace (name ++ _) with part; [done|]. by apply split_once_eq in Es.
  - left. destruct (is_reserved_request_header n' names) eqn:Er; [done|]. by simplify_eq.
Qed.

Definition sample_names : BridgeNames :=
  mkNames (lit "cap") (lit "j_") (lit "x-observer") (lit "x-protocol").
Definition sample_head : RequestHead :=
  mkHead (lit "GET") (lit "/")
    [(lit "host", lit "127.0.0.1:9"); (lit "cookie", lit "cap=secret; j_sid=abc; other=1");
     (lit "Authorization", lit "Bearer x"); (lit "accept", lit "*/*")].

Lemma upstream_forward_safe_witness :
  upstream_request_headers sample_head sample_names
    = [(lit "cookie", lit "sid=abc"); (lit "accept", lit "*/*")] /\
  exists raw cs, (lit "cookie", raw) ∈ req_headers sample_head /\ lit "sid=abc" = join (lit "; ") cs.
Proof.
  split; [vm_compute; reflexivity|].
  destruct (upstream_forward_safe sample_head sample_names (lit "cookie") (lit "sid=abc"))
    as [[H _]|(_&raw&cs&Hr&Hv&_)].
  - replace (upstream_request_headers sample_head sample_names)
      with [(lit "cookie", lit "sid=abc"); (lit "accept", lit "*/*")] by (vm_compute; reflexivity). left.
  - done.
  - by exists raw, cs.
Defined.

(** Cookies the journal sets come back to it under the names it chose, and
    the bridge's own cookie does not: for any cookies whose prefixed names differ
    from the capability's, the [Set-Cookie] rewrite leads with the prefixed
    cookie, and the header a browser then sends, capability included, is
    forwarded as exactly the original cookies. *)
Theorem cookie_namespace_roundtrip names secret (us : list (str * str)) :
  let P := upstream_cookie_prefix names in
  us <> [] -> Forall cookie_ok us ->
  Forall (fun u => cookie_ok (P ++ fst u, snd u) /\ P ++ fst u <> capability_cookie_name names) us ->
  cookie_ok (capability_cookie_name names, secret) ->
  upstream_cookie_header
    (cookie_line ((capability_cookie_name names, secret) :: ((fun u => (P ++ fst u, snd u)) <$> us))) names
  = Some (cookie_line us) /\
  Forall (fun u => rewrite_set_cookie (cookie_text u ++ lit "; Secure; Path=/") names
    = cookie_text (P ++ fst u, snd u) ++ lit "; Path=/") us.
Proof.
  intros P Hne Hus HP Hcap. split.
  - unfold upstream_cookie_header. rewrite upstream_cookies_text; [|done|].
    + cbn [omap list_omap fst snd]. rewrite decide_True by done.
      replace (omap _ _) with (cookie_text <$> us); [by destruct us|]. clear Hne Hus Hcap.
      induction HP as [|u us [_ Hu] HP IH]; [done|]. cbn [fmap list_fmap omap list_omap fst snd].
      rewrite decide_False by done. unfold strip_prefix. fold P.
      rewrite (proj2 (starts_with_app P (P ++ fst u))) by eauto. rewrite drop_app_length.
      cbn [mbind option_bind]. rewrite IH. by destruct u.
    + constructor; [done|]. apply list.Forall_fmap. eapply Forall_impl; [|exact HP]. cbn. tauto.
  - clear HP. eapply Forall_impl; [|exact Hus]. intros u Hu. unfold rewrite_set_cookie.
    pose proof (cookie_text_clean u Hu) as [Hw Hs].
    change (lit "; Secure; Path=/") with (59 :: lit " Secure; Path=/").
    rewrite split_char_app by done. cbn [fmap list_fmap]. rewrite trim_none by done.
    unfold cookie_text at 1. change (fst u ++ lit "=" ++ snd u) with (fst u ++ 61 :: snd u).
    destruct Hu as [Hn Hv]. rewrite split_once_app by (eapply Forall_impl; [|exact Hn]; cbn; tauto).
    rewrite trim_none by (eapply Forall_impl; [|exact Hn]; cbn; tauto).
    change (filter _ _) with [lit "Path=/"]. cbn [join]. unfold cookie_text, P. cbn [fst snd].
    by rewrite <- !app_assoc.
Qed.

Lemma cookie_namespace_roundtrip_witness :
  upstream_cookie_header (lit "cap=s3cret; j_sid=abc; j_t=") sample_names = Some (lit "sid=abc; t=").
Proof.
  assert (Hc : forall c, bool_decide (Forall (fun x => is_whitespace x = false /\ x <> 59 /\ x <> 61) (fst c)
      /\ Forall (fun x => is_whitespace x = false /\ x <> 59) (snd c)) = true -> cookie_ok c)
    by (intros c; apply bool_decide_eq_true_1).
  apply (proj1 (cookie_namespace_roundtrip sample_names (lit "s3cret") [(lit "sid", lit "abc"); (lit "t", [])]
    ltac:(done)
    ltac:(repeat (apply Forall_cons; [apply Hc; vm_compute; reflexivity|]); apply Forall_nil)
    ltac:(repeat (apply Forall_cons; [split; [apply Hc; vm_compute; reflexivity|done]|]); apply Forall_nil)
    ltac:(apply Hc; vm_compute; reflexivity))).
Defined.

(** A redirect is rewritten only towards the bridge itself: the answer is
    the location unchanged, or the loopback origin followed by the location's
    own path, query or fragment, which can not extend the origin's authority,
    and then only for an http(s) location whose host, after any user
    information, is a known journal host. *)
Theorem redirect_confined location journal_hosts origin :
  rewrite_redirect location journal_hosts origin = location \/
  exists scheme authority suffix known,
    location = scheme ++ lit "://" ++ authority ++ suffix /\
    (lowercase scheme = lit "http" \/ lowercase scheme = lit "https") /\
    rewrite_redirect location journal_hosts origin = trim_end_matches 47 origin ++ suffix /\
    match suffix with [] => True | c :: _ => c = 47 \/ c = 63 \/ c = 35 end /\
    known ∈ journal_hosts /\
    fst (split_authority authority) = fst (split_authority
      match split_http_url known with Some (_, a, _) => a | None => known end).
Proof.
  unfold rewrite_redirect. destruct (split_http_url location) as [[[scheme authority] suffix]|] eqn:E; [|by left].
  destruct (existsb _ journal_hosts) eqn:Ex; [|by left]. right.
  apply split_http_url_eq in E as (El&Hs&Hsuf).
  apply existsb_exists in Ex as (known&Hk&Hm). exists scheme, authority, suffix, known.
  split_and!; try done; [by apply list_elem_of_In|].
  unfold authority_matches in Hm. destruct (split_authority authority) as [lh lp].
  destruct (split_http_url known) as [[[ks ka] kx]|]; cbn [fst] in *;
    destruct (split_authority _) as [kh kp]; cbn [fst] in *; by case_bool_decide.
Qed.

(** A bootstrap token works once and only in time: in any serialized run
    in which a token is issued once, amid any other tokens, redeeming it
    succeeds exactly when thirty seconds have not passed since it was issued and
    it was not presented before; nothing panics. *)
Theorem bootstrap_token_once tok t0 t before after :
  Forall op_ok (before ++ Issue tok t0 :: after) ->
  Forall (fun o => ~ is_issue tok o) (before ++ after) ->
  ordered 0 (before ++ Issue tok t0 :: after) t ->
  exists b, token_run tokens_default (before ++ Issue tok t0 :: after) = Ok b /\
    snd (consume b tok t)
    = bool_decide (t < t0 + 30000 /\ Forall (fun o => ~ is_redeem tok o) after).
Proof. apply redeem_issued. Qed.

Lemma bootstrap_token_once_witness :
  exists b, token_run tokens_default
      ([Issue (lit "aa") 5; Redeem (lit "bb") 6] ++ Issue (lit "bb") 100 :: [Redeem (lit "aa") 200]) = Ok b /\
    snd (consume b (lit "bb") 30099) = true.
Proof.
  destruct (bootstrap_token_once (lit "bb") 100 30099 [Issue (lit "aa") 5; Redeem (lit "bb") 6]
    [Redeem (lit "aa") 200]) as (b&Hr&Hc).
  - repeat (apply Forall_cons; [split; [by repeat constructor|cbn; lia]|]). apply Forall_nil.
  - repeat (apply Forall_cons; [cbn; first [discriminate|by intros []]|]). apply Forall_nil.
  - cbn. lia.
  - exists b. split; [done|]. rewrite Hc. apply bool_decide_eq_true. split; [lia|].
    repeat (apply Forall_cons; [cbn; discriminate|]). apply Forall_nil.
Defined.
