(* ===== verification/Pop.v ===== *)
(** * Proof of possession ([crates/spl-bridge/src/pop_auth.rs])

    How a journal earns a hostname: token verification, the nonce cache shared
    by all control connections, and the two challenge exchanges (registration
    and lease renewal) that run over it concurrently.  Signatures, base64 and
    JSON are third-party code: they are the fields of [PopPrimitives]. *)

From S2P Require Import Prelude Text.

Definition MAX_MESSAGE_BYTES : Z := 64 * 1024.
Definition NONCE_BYTES : Z := 16.
Definition POP_SKEW : Z := 60.
Definition OUTSTANDING_NONCE_LIMIT : Z := 256.
Definition SPENT_NONCE_LIMIT : Z := 4096.
Definition NONCE_GENERATION_ATTEMPTS : nat := 8.
Definition EXPECTED_ISSUER : str := lit "services.solstone.app".

Inductive PopError :=
| Io
| MessageTooLarge
| InvalidMessage
| TokenRejected
| HostnameMismatch
| TokenTimeInvalid
| ChallengeTimeInvalid
| InvalidProof
| NonceReplay
| Randomness
| NonceOutstandingCapacity
| NonceSpentCapacity
| NonceCollisionExhausted
| JwksUrl
| JwksTlsConfiguration
| JwksUnavailable
| JwksKeyUnavailable.

#[export] Instance PopError_eq_dec : EqDecision PopError.
Proof. solve_decision. Defined.

Inductive RenewalError :=
| Retryable (e : PopError)
| ChallengeUndeliverable
| Terminal.

(** ** Messages *)

Record RegistrationRequest := mkRequest { token : str; rhostname : str }.
Record Challenge := mkChallenge { nonce_text : str; bridge_id : str; timestamp : Z }.
Record ChallengeResponse := mkResponse { signature : str }.
Record RenewalResponse := mkRenewal { rn_token : str; rn_hostname : str; rn_signature : str }.
Record PopJwk := mkPopJwk { kty : str; crv : str; jx : str }.
Record RawClaims := mkRawClaims {
  iss : str; sub : str; aud : str; iat : Z; exp : Z; chostname : str; cnf_jwk : PopJwk
}.
Record JoseHeader := mkJose { alg : str; typ : str; kid : str }.

(** The primitives of other crates: Ed25519 keys and signatures
    ([VerifyingKey::from_bytes], [Signature::from_slice], [verify_strict]),
    unpadded base64url, and the JSON forms of the messages. *)
Class PopPrimitives := {
  Key : Type;
  key_eq_dec :: EqDecision Key;
  Sig : Type;
  key_from_bytes : list byte -> option Key;
  sig_from_slice : list byte -> option Sig;
  verify_strict : Key -> list byte -> Sig -> bool;
  base64_encode : list byte -> str;
  base64_decode : str -> option (list byte);
  json_header : list byte -> option JoseHeader;
  json_claims : list byte -> option RawClaims;
  json_request : list byte -> option RegistrationRequest;
  json_response : list byte -> option ChallengeResponse;
  json_renewal : list byte -> option RenewalResponse;
  challenge_json : Challenge -> option (list byte)
}.

(** ** The nonce cache *)

#[export] Instance byte_countable : Countable byte := inj_countable' u8 as_u8 as_u8_u8.

Abbreviation nonce := (list byte).

(** Each entry is its [expires_at]. *)
Record NonceCache := mkCache { outstanding : gmap nonce Z; spent : gmap nonce Z }.
Definition cache_new : NonceCache := mkCache ∅ ∅.

(** [NonceCache::prune] *)
Definition prune (now : Z) (c : NonceCache) : NonceCache :=
  mkCache (filter (fun e => now < snd e) (outstanding c)) (filter (fun e => now < snd e) (spent c)).

(** [NonceCache::issue_with]; [next_nonce i] is the generator's [i]th answer. *)
Fixpoint issue_attempts (attempts i : nat) (next_nonce : nat -> res PopError nonce) (expires_at : Z)
    (c : NonceCache) : NonceCache * res PopError nonce :=
  match attempts with
  | O => (c, Err NonceCollisionExhausted)
  | S attempts =>
      match next_nonce i with
      | Ok n =>
          if bool_decide (is_Some (outstanding c !! n)) || bool_decide (is_Some (spent c !! n))
          then issue_attempts attempts (S i) next_nonce expires_at c
          else (mkCache (<[n := expires_at]> (outstanding c)) (spent c), Ok n)
      | Err e => (c, Err e)
      | Panic => (c, Panic)
      end
  end.
Definition issue_with (now expires_at : Z) (next_nonce : nat -> res PopError nonce) (c : NonceCache)
  : NonceCache * res PopError nonce :=
  let c := prune now c in
  if Z.of_nat (size (outstanding c)) >=? OUTSTANDING_NONCE_LIMIT then (c, Err NonceOutstandingCapacity)
  else issue_attempts NONCE_GENERATION_ATTEMPTS 0 next_nonce expires_at c.

(** [NonceCache::redeem_renewal] *)
Definition redeem_renewal (n : nonce) (check_expires_at retain_until now : Z) (c : NonceCache)
  : NonceCache * res PopError unit :=
  let c := prune now c in
  match outstanding c !! n with
  | None => (c, Err NonceReplay)
  | Some e =>
      if negb (e =? check_expires_at) then (c, Err NonceReplay)
      else if Z.of_nat (size (spent c)) >=? SPENT_NONCE_LIMIT then (c, Err NonceSpentCapacity)
      else (mkCache (delete n (outstanding c)) (<[n := retain_until]> (spent c)), Ok tt)
  end.

(** [NonceCache::redeem] moves the entry itself. *)
Definition redeem (n : nonce) (expires_at now : Z) (c : NonceCache) : NonceCache * res PopError unit :=
  let c := prune now c in
  match outstanding c !! n with
  | None => (c, Err NonceReplay)
  | Some e =>
      if negb (e =? expires_at) then (c, Err NonceReplay)
      else if Z.of_nat (size (spent c)) >=? SPENT_NONCE_LIMIT then (c, Err NonceSpentCapacity)
      else (mkCache (delete n (outstanding c)) (<[n := e]> (spent c)), Ok tt)
  end.

(** [NonceLease] and its operations on the shared cache. *)
Record NonceLease := mkLease { lnonce : nonce; armed : bool }.

Definition lease_issue (now expires_at : Z) (next_nonce : nat -> res PopError nonce) (c : NonceCache)
  : NonceCache * res PopError NonceLease :=
  let '(c, r) := issue_with now expires_at next_nonce c in (c, (fun n => mkLease n true) <$> r).

Definition lease_redeem (l : NonceLease) (expires_at now : Z) (c : NonceCache)
  : NonceCache * NonceLease * res PopError unit :=
  if negb (armed l) then (c, l, Err NonceReplay)
  else match redeem (lnonce l) expires_at now c with
       | (c, Ok _) => (c, mkLease (lnonce l) false, Ok tt)
       | (c, r) => (c, l, r)
       end.

Definition redeem_and_extend (l : NonceLease) (check_expires_at retain_until now : Z) (c : NonceCache)
  : NonceCache * NonceLease * res PopError unit :=
  if negb (armed l) then (c, l, Err NonceReplay)
  else match redeem_renewal (lnonce l) check_expires_at retain_until now c with
       | (c, Ok _) => (c, mkLease (lnonce l) false, Ok tt)
       | (c, r) => (c, l, r)
       end.

Definition lease_drop (l : NonceLease) (c : NonceCache) : NonceCache :=
  if armed l then mkCache (delete (lnonce l) (outstanding c)) (spent c) else c.

(** ** Framing of the control messages *)

(** [read_renewal_body], and [read_message] before its JSON: a four-byte length
    and the body, from what the carrier delivers before it ends. *)
Definition read_renewal_body (input : list byte) : res PopError (list byte * list byte) :=
  match get_range input 0 4 with
  | None => Err Io
  | Some l =>
      let length := be_val l in
      if length >? MAX_MESSAGE_BYTES then Err MessageTooLarge
      else match get_range input 4 (4 + length) with
           | None => Err Io
           | Some body => Ok (body, zdrop (4 + length) input)
           end
  end.
Definition read_message {T} (parse : list byte -> option T) (input : list byte)
  : res PopError (T * list byte) :=
  '(body, rest) ← read_renewal_body input;
  (fun m => (m, rest)) <$> ok_or (parse body) InvalidMessage.

(** [write_message]: what is written. *)
Definition write_message {T} (json : T -> option (list byte)) (message : T) : res PopError (list byte) :=
  bytes ← ok_or (json message) InvalidMessage;
  if len bytes >=? 2 ^ 32 then Err MessageTooLarge
  else if len bytes >? MAX_MESSAGE_BYTES then Err MessageTooLarge
  else Ok (be_bytes 4 (len bytes) ++ bytes).

(** [i64::try_from(u64)] *)
Definition try_i64 {E} (e : E) (n : Z) : res E Z := if n <? 2 ^ 63 then Ok n else Err e.

Definition challenge_timestamp_is_fresh (issued_at verified_at : Z) : bool :=
  Z.abs (issued_at - verified_at) <=? POP_SKEW.

Definition proof_message (n : nonce) (bridge : str) (timestamp : Z) : list byte :=
  n ++ into_bytes bridge ++ be_bytes 8 timestamp.

(** [valid_hostname]; [label.len()] counts bytes. *)
Definition valid_hostname (hostname : str) : bool :=
  match strip_suffix (lit ".solstone.me") hostname with
  | None => false
  | Some label =>
      (len (into_bytes label) =? 8)
      && forallb (fun b => between 97 (u8 b) 122 || between 50 (u8 b) 55) (into_bytes label)
  end.

(** [unix_seconds]: [None] is a clock before the epoch. *)
Definition unix_seconds (clock : option Z) : res PopError Z := ok_or clock TokenTimeInvalid.

(** ** Tokens *)

Section Tokens.
Context {P : PopPrimitives}.

Record ParsedToken := mkParsed {
  theader : JoseHeader; tclaims : RawClaims; tsignature : Sig; signing_input : list byte
}.
Record VerifiedClaims := mkVerified {
  instance_id : str; vhostname : str; expires_at : Z; pop_key : Key
}.

Definition parse_compact_token (t : str) : res PopError ParsedToken :=
  if negb (forallb (fun c => c <? 128) t) then Err TokenRejected
  else
    match split_char 46 t with
    | [header_b64; claims_b64; signature_b64] =>
        if existsb (fun s : str => bool_decide (s = [])) [header_b64; claims_b64; signature_b64]
        then Err TokenRejected
        else
          header ← ok_or (base64_decode header_b64) TokenRejected;
          claims ← ok_or (base64_decode claims_b64) TokenRejected;
          sig ← ok_or (base64_decode signature_b64) TokenRejected;
          header ← ok_or (json_header header) TokenRejected;
          claims ← ok_or (json_claims claims) TokenRejected;
          sig ← ok_or (sig_from_slice sig) TokenRejected;
          Ok (mkParsed header claims sig (into_bytes (header_b64 ++ lit "." ++ claims_b64)))
    | _ => Err TokenRejected
    end.

Definition validate_token_claims (c : RawClaims) (expected_audience : str) (now : Z)
  : res PopError VerifiedClaims :=
  if negb (bool_decide (iss c = EXPECTED_ISSUER)) || negb (bool_decide (aud c = expected_audience))
  then Err TokenRejected
  else
    instance ← (match strip_prefix (lit "home:") (sub c) with
                | Some i => if bool_decide (i = []) then Err TokenRejected else Ok i
                | None => Err TokenRejected
                end);
    if iat c >? exp c then Err TokenRejected
    else if negb (between 600 (exp c - iat c) 900) then Err TokenRejected
    else if (iat c >? saturating_add 64 now POP_SKEW) || (now >=? exp c) then Err TokenRejected
    else if negb (valid_hostname (chostname c)) then Err TokenRejected
    else if negb (bool_decide (kty (cnf_jwk c) = lit "OKP")) || negb (bool_decide (crv (cnf_jwk c) = lit "Ed25519"))
    then Err TokenRejected
    else
      public_key ← ok_or (base64_decode (jx (cnf_jwk c))) TokenRejected;
      if negb (len public_key =? 32) then Err TokenRejected
      else
        key ← ok_or (key_from_bytes public_key) TokenRejected;
        Ok (mkVerified instance (chostname c) (exp c) key).

Definition verify_parsed_token (t : ParsedToken) (key : Key) (expected_audience : str) (now : Z)
  : res PopError VerifiedClaims :=
  if negb (bool_decide (alg (theader t) = lit "EdDSA")) || negb (bool_decide (typ (theader t) = lit "JWT"))
     || bool_decide (kid (theader t) = [])
  then Err TokenRejected
  else if negb (verify_strict key (signing_input t) (tsignature t)) then Err TokenRejected
  else validate_token_claims (tclaims t) expected_audience now.

(** [TokenVerifier::verify] of the JWKS verifier: [key_for_kid] is the answer of
    the key service, [now] the token clock. *)
Definition verify (key_for_kid : str -> res PopError Key) (expected_audience : str) (now : Z) (t : str)
  : res PopError VerifiedClaims :=
  parsed ← parse_compact_token t;
  key ← key_for_kid (kid (theader parsed));
  verify_parsed_token parsed key expected_audience now.

(** The fixture verifier looks the key up in a fixed table. *)
Definition fixture_verify (signing_keys : list (str * Key)) (expected_audience : str) (now : Z) (t : str)
  : res PopError VerifiedClaims :=
  parsed ← parse_compact_token t;
  key ← ok_or (snd <$> find (fun e : str * Key => bool_decide (fst e = kid (theader parsed))) signing_keys) TokenRejected;
  verify_parsed_token parsed key expected_audience now.

Definition validate_registration_hostname (c : VerifiedClaims) (hostname : str) : res PopError unit :=
  if negb (bool_decide (vhostname c = hostname)) then Err HostnameMismatch else Ok tt.

Definition decode_signature (encoded : str) : res PopError Sig :=
  bytes ← ok_or (base64_decode encoded) InvalidProof;
  ok_or (sig_from_slice bytes) InvalidProof.

(** ** The two exchanges

    Each exchange holds the nonce lease between its two halves; everything
    before the first half and between the halves waits on the carrier, so other
    exchanges run there.  A failed write, or a caller that gives up, drops the
    lease. *)

Record AuthenticatedRegistration := mkRegistration { ahostname : str; aclaims : VerifiedClaims }.
Record RenewalIdentity := mkIdentity { ihostname : str; iinstance : str; ikey : Key }.

Definition renewal_identity (r : AuthenticatedRegistration) : RenewalIdentity :=
  mkIdentity (ahostname r) (instance_id (aclaims r)) (pop_key (aclaims r)).

(** What one exchange keeps between its halves. *)
Inductive session :=
| Registering (hostname : str) (claims : VerifiedClaims) (issued_at : Z) (lease : NonceLease)
| Renewing (who : RenewalIdentity) (check_expires_at issued_at : Z) (lease : NonceLease).

Definition session_lease (s : session) : NonceLease :=
  match s with Registering _ _ _ l | Renewing _ _ _ l => l end.

(** The bridge's id and the audience its verifier expects. *)
Record PopAuthenticator := mkAuthenticator { abridge_id : str; expected_audience : str }.
Variable A : PopAuthenticator.

(** [PopAuthenticator::authenticate] up to the written challenge. *)
Definition auth_start (key_for_kid : str -> res PopError Key) (token_clock : Z) (clock : option Z)
    (next_nonce : nat -> res PopError nonce) (input : list byte) (c : NonceCache)
  : NonceCache * res PopError (list byte * session) :=
  let checks :=
    '(request, _) ← read_message json_request input;
    claims ← verify key_for_kid (expected_audience A) token_clock (token request);
    now ← unix_seconds clock;
    _ ← validate_registration_hostname claims (rhostname request);
    issued_at ← try_i64 ChallengeTimeInvalid now;
    Ok (request, claims, now, issued_at) in
  match checks with
  | Ok (request, claims, now, issued_at) =>
      match lease_issue now (expires_at claims) next_nonce c with
      | (c, Ok l) =>
          match write_message challenge_json (mkChallenge (base64_encode (lnonce l)) (abridge_id A) issued_at) with
          | Ok bytes => (c, Ok (bytes, Registering (rhostname request) claims issued_at l))
          | Err e => (lease_drop l c, Err e)
          | Panic => (lease_drop l c, Panic)
          end
      | (c, Err e) => (c, Err e)
      | (c, Panic) => (c, Panic)
      end
  | Err e => (c, Err e)
  | Panic => (c, Panic)
  end.

(** [PopAuthenticator::authenticate] from the response on. *)
Definition auth_finish (clock : option Z) (input : list byte)
    (hostname : str) (claims : VerifiedClaims) (issued_at : Z) (l : NonceLease) (c : NonceCache)
  : NonceCache * res PopError AuthenticatedRegistration :=
  let checks :=
    '(response, _) ← read_message json_response input;
    verified_now ← unix_seconds clock;
    verified_at ← try_i64 ChallengeTimeInvalid verified_now;
    if negb (challenge_timestamp_is_fresh issued_at verified_at) then Err ChallengeTimeInvalid
    else
      sig ← decode_signature (signature response);
      if verify_strict (pop_key claims) (proof_message (lnonce l) (abridge_id A) issued_at) sig
      then Ok verified_now else Err InvalidProof in
  match checks with
  | Ok verified_now =>
      let '(c, l, r) := lease_redeem l (expires_at claims) verified_now c in
      (lease_drop l c, (fun _ => mkRegistration hostname claims) <$> r)
  | Err e => (lease_drop l c, Err e)
  | Panic => (lease_drop l c, Panic)
  end.

(** [PopAuthenticator::renew] up to the written challenge. *)
Definition renew_start (clock : option Z) (next_nonce : nat -> res PopError nonce)
    (who : RenewalIdentity) (check_expires_at : Z) (c : NonceCache)
  : NonceCache * res RenewalError (list byte * session) :=
  let checks :=
    now ← map_err Retryable (unix_seconds clock);
    issued_at ← try_i64 (Retryable ChallengeTimeInvalid) now;
    Ok (now, issued_at) in
  match checks with
  | Ok (now, issued_at) =>
      match lease_issue now check_expires_at next_nonce c with
      | (c, Ok l) =>
          match write_message challenge_json (mkChallenge (base64_encode (lnonce l)) (abridge_id A) issued_at) with
          | Ok bytes => (c, Ok (bytes, Renewing who check_expires_at issued_at l))
          | Err _ => (lease_drop l c, Err ChallengeUndeliverable)
          | Panic => (lease_drop l c, Panic)
          end
      | (c, Err e) => (c, Err (Retryable e))
      | (c, Panic) => (c, Panic)
      end
  | Err e => (c, Err e)
  | Panic => (c, Panic)
  end.

(** [PopAuthenticator::renew] from the response on. *)
Definition renew_finish (key_for_kid : str -> res PopError Key) (token_clock : Z) (clock : option Z)
    (input : list byte) (who : RenewalIdentity) (check_expires_at issued_at : Z) (l : NonceLease)
    (c : NonceCache) : NonceCache * res RenewalError Z :=
  let checks :=
    '(body, _) ← map_err (fun _ => Terminal) (read_renewal_body input);
    response ← ok_or (json_renewal body) (Retryable InvalidMessage);
    claims ← map_err Retryable (verify key_for_kid (expected_audience A) token_clock (rn_token response));
    verified_now ← map_err Retryable (unix_seconds clock);
    verified_at ← try_i64 (Retryable ChallengeTimeInvalid) verified_now;
    if negb (challenge_timestamp_is_fresh issued_at verified_at) then Err (Retryable ChallengeTimeInvalid)
    else
      sig ← map_err Retryable (decode_signature (rn_signature response));
      if verify_strict (ikey who) (proof_message (lnonce l) (abridge_id A) issued_at) sig
      then Ok (response, claims, verified_now) else Err (Retryable InvalidProof) in
  match checks with
  | Ok (response, claims, verified_now) =>
      let successor_expiry := expires_at claims in
      let '(c, l, r) := redeem_and_extend l check_expires_at successor_expiry verified_now c in
      (lease_drop l c,
       match r with
       | Ok _ =>
           if negb (bool_decide (rn_hostname response = vhostname claims))
              || negb (bool_decide (vhostname claims = ihostname who))
              || negb (bool_decide (instance_id claims = iinstance who))
              || negb (bool_decide (pop_key claims = ikey who))
           then Err (Retryable TokenRejected)
           else if successor_expiry <=? check_expires_at then Err (Retryable TokenTimeInvalid)
           else Ok successor_expiry
       | Err e => Err (Retryable e)
       | Panic => Panic
       end)
  | Err e => (lease_drop l c, Err e)
  | Panic => (lease_drop l c, Panic)
  end.

(** ** All exchanges of a bridge, interleaved *)

Record world := mkWorld { cache : NonceCache; sessions : gmap Z session }.
Definition world_new : world := mkWorld cache_new ∅.

(** Each event is one half of an exchange with what it reads, or the end of an
    exchange whose carrier failed or whose caller went away. *)
Inductive pop_event :=
| StartAuth (sid : Z) (key_for_kid : str -> res PopError Key) (token_clock : Z) (clock : option Z)
    (next_nonce : nat -> res PopError nonce) (input : list byte)
| FinishAuth (sid : Z) (clock : option Z) (input : list byte)
| StartRenew (sid : Z) (clock : option Z) (next_nonce : nat -> res PopError nonce)
    (who : RenewalIdentity) (check_expires_at : Z)
| FinishRenew (sid : Z) (key_for_kid : str -> res PopError Key) (token_clock : Z) (clock : option Z)
    (input : list byte)
| DropSession (sid : Z).

Inductive pop_out :=
| Challenged (r : res PopError (list byte))
| RenewChallenged (r : res RenewalError (list byte))
| GrantsAdmission (r : res PopError AuthenticatedRegistration)
| Renewed (r : res RenewalError Z)
| Silent.

Definition pop_step (w : world) (e : pop_event) : world * pop_out :=
  match e with
  | StartAuth sid keys tc clock gen input =>
      if bool_decide (is_Some (sessions w !! sid)) then (w, Silent)
      else
        match auth_start keys tc clock gen input (cache w) with
        | (c, Ok (bytes, s)) => (mkWorld c (<[sid := s]> (sessions w)), Challenged (Ok bytes))
        | (c, Err e) => (mkWorld c (sessions w), Challenged (Err e))
        | (c, Panic) => (mkWorld c (sessions w), Challenged Panic)
        end
  | FinishAuth sid clock input =>
      match sessions w !! sid with
      | Some (Registering h claims t l) =>
          let '(c, r) := auth_finish clock input h claims t l (cache w) in
          (mkWorld c (delete sid (sessions w)), GrantsAdmission r)
      | _ => (w, Silent)
      end
  | StartRenew sid clock gen who check =>
      if bool_decide (is_Some (sessions w !! sid)) then (w, Silent)
      else
        match renew_start clock gen who check (cache w) with
        | (c, Ok (bytes, s)) => (mkWorld c (<[sid := s]> (sessions w)), RenewChallenged (Ok bytes))
        | (c, Err e) => (mkWorld c (sessions w), RenewChallenged (Err e))
        | (c, Panic) => (mkWorld c (sessions w), RenewChallenged Panic)
        end
  | FinishRenew sid keys tc clock input =>
      match sessions w !! sid with
      | Some (Renewing who check t l) =>
          let '(c, r) := renew_finish keys tc clock input who check t l (cache w) in
          (mkWorld c (delete sid (sessions w)), Renewed r)
      | _ => (w, Silent)
      end
  | DropSession sid =>
      match sessions w !! sid with
      | Some s => (mkWorld (lease_drop (session_lease s) (cache w)) (delete sid (sessions w)), Silent)
      | None => (w, Silent)
      end
  end.

Fixpoint pop_run (w : world) (evs : list pop_event) : world * list pop_out :=
  match evs with
  | [] => (w, [])
  | e :: evs =>
      let '(w, o) := pop_step w e in
      let '(w, os) := pop_run w evs in (w, o :: os)
  end.
End Tokens.

(** ** The nonce cache as a transition system

    What an exchange may do to the shared cache, one atomic change at a time. *)

Inductive nlabel := LPrune (now : Z) | LInsert (n : nonce) (e : Z) | LSpend (n : nonce) (until : Z) | LRemove (n : nonce).

Inductive nstep : NonceCache -> nlabel -> NonceCache -> Prop :=
| N_prune c now : nstep c (LPrune now) (prune now c)
| N_insert c n e :
    outstanding c !! n = None -> spent c !! n = None ->
    Z.of_nat (size (outstanding c)) < OUTSTANDING_NONCE_LIMIT ->
    nstep c (LInsert n e) (mkCache (<[n := e]> (outstanding c)) (spent c))
| N_spend c n e until :
    outstanding c !! n = Some e -> Z.of_nat (size (spent c)) < SPENT_NONCE_LIMIT ->
    nstep c (LSpend n until) (mkCache (delete n (outstanding c)) (<[n := until]> (spent c)))
| N_remove c n : nstep c (LRemove n) (mkCache (delete n (outstanding c)) (spent c)).

Inductive nsteps : NonceCache -> list nlabel -> NonceCache -> Prop :=
| nsteps_nil c : nsteps c [] c
| nsteps_cons c l c' ls c'' : nstep c l c' -> nsteps c' ls c'' -> nsteps c (l :: ls) c''.

#[export] Hint Constructors nstep nsteps : core.

Lemma nsteps_app c ls c' ks c'' : nsteps c ls c' -> nsteps c' ks c'' -> nsteps c (ls ++ ks) c''.
Proof. induction 1; cbn; eauto. Qed.

Lemma nsteps_one c l c' : nstep c l c' -> nsteps c [l] c'.
Proof. eauto. Qed.

(** What a cache that ran such steps keeps. *)
Definition cache_ok (c : NonceCache) : Prop :=
  Z.of_nat (size (outstanding c)) <= OUTSTANDING_NONCE_LIMIT /\
  Z.of_nat (size (spent c)) <= SPENT_NONCE_LIMIT /\
  outstanding c ##ₘ spent c.

Lemma size_filter_le {A} (P : nonce * A -> Prop) `{!forall x, Decision (P x)} (m : gmap nonce A) :
  (size (filter P m) <= size m)%nat.
Proof. apply map_subseteq_size, map_filter_subseteq. Qed.

Lemma nstep_ok c l c' : nstep c l c' -> cache_ok c -> cache_ok c'.
Proof.
  intros Hs (Ho & Hp & Hd). destruct Hs as [c now|c n e Hn Hn' Hl|c n e u Hn Hl|c n]; unfold cache_ok; cbn.
  - pose proof (size_filter_le (fun x => now < snd x) (outstanding c)).
    pose proof (size_filter_le (fun x => now < snd x) (spent c)).
    split; [lia|]. split; [lia|].
    eapply map_disjoint_weaken; [exact Hd|apply map_filter_subseteq..].
  - rewrite map_size_insert_None by done. split; [lia|]. split; [done|].
    by apply map_disjoint_insert_l_2.
  - rewrite map_size_delete_Some by by eexists.
    assert (Hsn : spent c !! n = None) by (eapply map_disjoint_Some_l; eauto).
    rewrite map_size_insert_None by done. split; [lia|]. split; [lia|].
    apply map_disjoint_insert_r_2; [by rewrite lookup_delete_eq|].
    by apply map_disjoint_delete_l.
  - split; [|split; [done|by apply map_disjoint_delete_l]].
    etransitivity; [|exact Ho]. apply inj_le, map_subseteq_size, delete_subseteq.
Qed.

Lemma nsteps_ok c ls c' : nsteps c ls c' -> cache_ok c -> cache_ok c'.
Proof. induction 1; eauto using nstep_ok. Qed.

Lemma issue_attempts_steps k : forall i gen e c c' r,
  issue_attempts k i gen e c = (c', r) ->
  Z.of_nat (size (outstanding c)) < OUTSTANDING_NONCE_LIMIT ->
  match r with Ok n => nsteps c [LInsert n e] c' | _ => c' = c end.
Proof.
  induction k as [|k IH]; intros i gen e c c' r Hi Hl; cbn in Hi; [by simplify_eq|].
  destruct (gen i) as [n| |]; [|by simplify_eq..].
  destruct (_ || _) eqn:Hf; [by eapply IH|]. simplify_eq.
  apply orb_false_iff in Hf as [H1%bool_decide_eq_false H2%bool_decide_eq_false].
  apply nsteps_one, N_insert; [by apply eq_None_not_Some..|done].
Qed.

Lemma issue_with_steps now e gen c c' r :
  issue_with now e gen c = (c', r) ->
  match r with Ok n => nsteps c [LPrune now; LInsert n e] c' | _ => nsteps c [LPrune now] c' end.
Proof.
  unfold issue_with. destruct (_ >=? _) eqn:Hl; intros Hi.
  - simplify_eq. eauto.
  - apply issue_attempts_steps in Hi; [|lia]. destruct r; subst; eauto.
Qed.

Lemma lookup_prune now c n e : outstanding (prune now c) !! n = Some e -> outstanding c !! n = Some e /\ now < e.
Proof. cbn. by rewrite map_lookup_filter_Some. Qed.

Lemma redeem_renewal_steps n e until now c c' r :
  redeem_renewal n e until now c = (c', r) ->
  match r with
  | Ok _ => nsteps c [LPrune now; LSpend n until] c' /\ now < e
  | _ => nsteps c [LPrune now] c'
  end.
Proof.
  unfold redeem_renewal. destruct (outstanding (prune now c) !! n) as [e'|] eqn:Hn; [|intros; simplify_eq; eauto].
  destruct (negb _) eqn:He; [intros; simplify_eq; eauto|].
  destruct (_ >=? _) eqn:Hl; intros; simplify_eq; [eauto|].
  apply lookup_prune in Hn as Hn'. split; [|lia].
  eapply nsteps_cons; [constructor|]. eapply nsteps_one, N_spend; [exact Hn|lia].
Qed.

Lemma redeem_extends n e now c : redeem n e now c = redeem_renewal n e e now c.
Proof.
  unfold redeem, redeem_renewal. destruct (outstanding (prune now c) !! n) as [e'|]; [|done].
  destruct (e' =? e) eqn:He; [|done]. apply Z.eqb_eq in He as ->. done.
Qed.

(** A nonce that was spent until [r] stays unusable until a prune at [r] or
    later has been seen. *)
Definition used_up (n : nonce) (r T : Z) (c : NonceCache) : Prop :=
  (spent c !! n = Some r /\ outstanding c !! n = None) \/ r <= T.

Definition pruned_at (now : option Z) (l : nlabel) : Prop :=
  match l with LPrune t => now = Some t | _ => True end.

Ltac pruned := repeat (apply Forall_cons; [by cbn|]); apply Forall_nil.

Lemma used_up_step n r T now l c c' :
  nstep c l c' -> pruned_at now l -> (forall t, now = Some t -> T <= t) ->
  used_up n r T c -> used_up n r (default T now) c'.
Proof.
  intros Hs Hl HT [[Hsp Ho]|Hr]; [|right; destruct now as [t|]; cbn; [specialize (HT _ eq_refl)|]; lia].
  destruct Hs as [c t|c m e Hm Hm' _|c m e u Hm _|c m]; cbn in Hl.
  - subst now. cbn. destruct (decide (t < r)); [left|right; lia].
    cbn. rewrite map_lookup_filter_Some, map_lookup_filter_None. auto.
  - left. destruct (decide (m = n)) as [->|Hne]; [congruence|]. cbn. by rewrite lookup_insert_ne.
  - left. destruct (decide (m = n)) as [->|Hne]; [congruence|]. cbn.
    by rewrite lookup_insert_ne, lookup_delete_ne.
  - left. split; [done|]. cbn. by apply lookup_delete_None; right.
Qed.

Lemma used_up_steps n r now ls : forall T c c',
  nsteps c ls c' -> Forall (pruned_at now) ls -> (forall t, now = Some t -> T <= t) ->
  used_up n r T c -> used_up n r (default T now) c'.
Proof.
  induction ls as [|l ls IH]; intros T c c' Hs Hl HT Hu; inversion Hs as [|? ? c1 ? ? H1 H2]; subst.
  - destruct Hu as [?|?]; [by left|right]. destruct now as [t|]; cbn; [specialize (HT _ eq_refl)|]; lia.
  - apply Forall_cons_1 in Hl as [Hl Hls].
    replace (default T now) with (default (default T now) now) by by destruct now.
    eapply IH; [done..| |by eapply used_up_step]. intros t ->. cbn. lia.
Qed.

(** What one half of an exchange at time [now] does to the cache. *)
Definition half (now : option Z) (c c' : NonceCache) : Prop :=
  exists ls, nsteps c ls c' /\ Forall (pruned_at now) ls.

Lemma half_refl now c : half now c c.
Proof. exists []. eauto. Qed.
Lemma half_trans now c c' c'' : half now c c' -> half now c' c'' -> half now c c''.
Proof. intros (ls&?&?) (ks&?&?). exists (ls ++ ks). split; [by eapply nsteps_app|by apply list.Forall_app]. Qed.
Lemma half_nsteps now c ls c' : nsteps c ls c' -> Forall (pruned_at now) ls -> half now c c'.
Proof. intros. by exists ls. Qed.
Lemma half_drop now l c : half now c (lease_drop l c).
Proof.
  unfold lease_drop. destruct (armed l); [|apply half_refl].
  eapply half_nsteps; [apply nsteps_one; constructor|]. pruned.
Qed.
#[export] Hint Resolve half_refl half_drop : core.

Lemma half_issue now e gen c c' r : lease_issue now e gen c = (c', r) -> half (Some now) c c'.
Proof.
  unfold lease_issue. destruct (issue_with now e gen c) as [c1 r1] eqn:Hi. intros; simplify_eq.
  apply issue_with_steps in Hi. destruct r1; eapply half_nsteps; eauto; pruned.
Qed.

Lemma half_extend l e u now c c' l' r :
  redeem_and_extend l e u now c = (c', l', r) -> half (Some now) c (lease_drop l' c').
Proof.
  unfold redeem_and_extend. destruct (negb (armed l)); [intros; simplify_eq; eauto|].
  destruct (redeem_renewal (lnonce l) e u now c) as [c1 r1] eqn:Hr. apply redeem_renewal_steps in Hr.
  intros H. eapply half_trans; [|eauto].
  destruct r1; simplify_eq; [destruct Hr as [Hr _]|..]; eapply half_nsteps; eauto; pruned.
Qed.

Lemma lease_redeem_extends l e now c : lease_redeem l e now c = redeem_and_extend l e e now c.
Proof. unfold lease_redeem, redeem_and_extend. by rewrite redeem_extends. Qed.

(** An accepted lease spent its nonce. *)
Lemma redeem_and_extend_ok l e u now c c' l' :
  redeem_and_extend l e u now c = (c', l', Ok tt) ->
  nsteps c [LPrune now; LSpend (lnonce l) u] (lease_drop l' c') /\ now < e /\
  is_Some (outstanding (prune now c) !! lnonce l).
Proof.
  unfold redeem_and_extend. destruct (negb (armed l)); [done|].
  destruct (redeem_renewal (lnonce l) e u now c) as [c1 [[]| |]] eqn:Hr; intros; simplify_eq.
  apply redeem_renewal_steps in Hr as Hs. split; [apply Hs|]. split; [apply Hs|].
  revert Hr. unfold redeem_renewal. destruct (outstanding (prune now c) !! lnonce l); by eauto.
Qed.

(** ** Runs of exchanges *)

Section Runs.
Context {P : PopPrimitives} (A : PopAuthenticator).

Definition event_clock (e : pop_event) : option Z :=
  match e with
  | StartAuth _ _ _ clock _ _ | FinishAuth _ clock _ | StartRenew _ clock _ _ _
  | FinishRenew _ _ _ clock _ => clock
  | DropSession _ => None
  end.

Lemma auth_start_half keys tc clock gen input c c' r :
  auth_start A keys tc clock gen input c = (c', r) -> half clock c c'.
Proof.
  unfold auth_start. set (k := _ ← read_message json_request input; _).
  destruct k as [[[[req claims] now] t]| |] eqn:Hk; [|intros; simplify_eq; eauto..].
  assert (clock = Some now) as ->.
  { subst k. unfold mbind, res_bind, unix_seconds in Hk. repeat case_match; simplify_eq/=; try done.
    destruct clock; by simplify_eq/=. }
  destruct (lease_issue now _ gen c) as [c1 [l| |]] eqn:Hi; apply half_issue in Hi;
    [|intros; simplify_eq; eauto..].
  destruct (write_message _ _); intros; simplify_eq; eauto using half_trans.
Qed.
Lemma renew_start_half clock gen who check c c' r :
  renew_start A clock gen who check c = (c', r) -> half clock c c'.
Proof.
  unfold renew_start. set (k := _ ← map_err Retryable (unix_seconds clock); _).
  destruct k as [[now t]| |] eqn:Hk; [|intros; simplify_eq; eauto..].
  assert (clock = Some now) as ->.
  { subst k. unfold mbind, res_bind, unix_seconds in Hk. destruct clock; simplify_eq/=.
    by destruct (try_i64 _ _); simplify_eq/=. }
  destruct (lease_issue now _ gen c) as [c1 [l| |]] eqn:Hi; apply half_issue in Hi;
    [|intros; simplify_eq; eauto..].
  destruct (write_message _ _); intros; simplify_eq; eauto using half_trans.
Qed.

(** The checks before the nonce is redeemed end in the clock's value. *)
Lemma auth_finish_cases clock input h claims t l c c' r :
  auth_finish A clock input h claims t l c = (c', r) ->
  (c' = lease_drop l c /\ forall x, r <> Ok x) \/
  exists now sig response rest,
    clock = Some now /\ read_message json_response input = Ok (response, rest) /\
    decode_signature (signature response) = Ok sig /\
    Z.abs (t - now) <= POP_SKEW /\
    verify_strict (pop_key claims) (proof_message (lnonce l) (abridge_id A) t) sig = true /\
    exists c1 l1 r1, lease_redeem l (expires_at claims) now c = (c1, l1, r1) /\
      c' = lease_drop l1 c1 /\ r = (fun _ => mkRegistration h claims) <$> r1.
Proof.
  unfold auth_finish. set (k := _ ← read_message json_response input; _).
  destruct k as [now| |] eqn:Hk; subst k; [|intros; simplify_eq; by left..].
  destruct (lease_redeem l (expires_at claims) now c) as [[c1 l1] r1] eqn:Hr. intros; simplify_eq.
  right. unfold mbind, res_bind, unix_seconds, try_i64, challenge_timestamp_is_fresh in Hk.
  destruct (read_message json_response input) as [[response rest]| |] eqn:Hm; simplify_eq/=.
  destruct clock as [now'|]; simplify_eq/=. destruct (now' <? 2 ^ 63); simplify_eq/=.
  destruct (Z.abs (t - now') <=? POP_SKEW) eqn:Hf; simplify_eq/=.
  destruct (decode_signature (signature response)) as [sig| |] eqn:Hs; simplify_eq/=.
  destruct (verify_strict _ _ sig) eqn:Hv; simplify_eq/=.
  exists now, sig, response, rest. do 3 (split; [reflexivity || assumption|]). split; [lia|]. split; [exact Hv|]. eauto 10.
Qed.

Lemma auth_finish_half clock input h claims t l c c' r :
  auth_finish A clock input h claims t l c = (c', r) -> half clock c c'.
Proof.
  intros [[-> _]|(now&sig&resp&rest&->&_&_&_&_&c1&l1&r1&Hr&->&_)]%auth_finish_cases; [eauto|].
  rewrite lease_redeem_extends in Hr. by apply half_extend in Hr.
Qed.

(** What a renewal that got as far as its nonce has established. *)
Definition renewal_proof (keys : str -> res PopError Key) (tc now : Z) (input : list byte)
    (who : RenewalIdentity) (t : Z) (l : NonceLease) (response : RenewalResponse) (claims : VerifiedClaims) : Prop :=
  exists body rest sig,
    read_renewal_body input = Ok (body, rest) /\ json_renewal body = Some response /\
    verify keys (expected_audience A) tc (rn_token response) = Ok claims /\
    Z.abs (t - now) <= POP_SKEW /\ decode_signature (rn_signature response) = Ok sig /\
    verify_strict (ikey who) (proof_message (lnonce l) (abridge_id A) t) sig = true.

Lemma renew_finish_cases keys tc clock input who check t l c c' r :
  renew_finish A keys tc clock input who check t l c = (c', r) ->
  (c' = lease_drop l c /\ forall x, r <> Ok x) \/
  exists now response claims, clock = Some now /\ renewal_proof keys tc now input who t l response claims /\
    exists c1 l1 r1, redeem_and_extend l check (expires_at claims) now c = (c1, l1, r1) /\
      c' = lease_drop l1 c1 /\
      forall x, r = Ok x -> r1 = Ok tt /\ x = expires_at claims /\ check < x /\
        rn_hostname response = vhostname claims /\ vhostname claims = ihostname who /\
        instance_id claims = iinstance who /\ pop_key claims = ikey who.
Proof.
  unfold renew_finish. set (k := _ ← map_err (fun _ => Terminal) (read_renewal_body input); _).
  destruct k as [[[response claims] now]| |] eqn:Hk; subst k; [|intros; simplify_eq; by left..].
  destruct (redeem_and_extend l check (expires_at claims) now c) as [[c1 l1] r1] eqn:Hr. intros Hres.
  right. unfold mbind, res_bind, unix_seconds, try_i64, challenge_timestamp_is_fresh in Hk.
  destruct (read_renewal_body input) as [[body rest]| |] eqn:Hb; simplify_eq/=.
  destruct (json_renewal body) as [resp|] eqn:Hj; simplify_eq/=.
  destruct (verify keys (expected_audience A) tc (rn_token resp)) as [cl| |] eqn:Hv; simplify_eq/=.
  destruct clock as [now'|]; simplify_eq/=. destruct (now' <? 2 ^ 63); simplify_eq/=.
  destruct (Z.abs (t - now') <=? POP_SKEW) eqn:Hf; simplify_eq/=.
  destruct (decode_signature (rn_signature resp)) as [sig| |] eqn:Hs; simplify_eq/=.
  destruct (verify_strict _ _ sig) eqn:Hvs; simplify_eq/=.
  exists now, response, claims. split; [done|]. split; [exists body, rest, sig; repeat (split; [done || lia|]); done|].
  exists c1, l1, r1. split; [done|]. split; [done|]. intros x Hx.
  destruct r1 as [[]| |]; try done.
  destruct (_ || _) eqn:Hd; [done|]. destruct (expires_at claims <=? check) eqn:He; [done|]. simplify_eq.
  apply orb_false_iff in Hd as [[[?%negb_false_iff%bool_decide_eq_true ?%negb_false_iff%bool_decide_eq_true]%orb_false_iff
    ?%negb_false_iff%bool_decide_eq_true]%orb_false_iff ?%negb_false_iff%bool_decide_eq_true].
  by repeat (split; [done || lia|]).
Qed.

Lemma renew_finish_half keys tc clock input who check t l c c' r :
  renew_finish A keys tc clock input who check t l c = (c', r) -> half clock c c'.
Proof.
  intros [[-> _]|(now&resp&claims&->&_&c1&l1&r1&Hr&->&_)]%renew_finish_cases; [eauto|].
  by apply half_extend in Hr.
Qed.

Lemma pop_step_half w e : half (event_clock e) (cache w) (cache (fst (pop_step A w e))).
Proof.
  destruct e as [sid keys tc clock gen input|sid clock input|sid clock gen who check|sid keys tc clock input|sid]; cbn [pop_step event_clock].
  - case_bool_decide; [by apply half_refl|].
    destruct (auth_start A keys tc clock gen input (cache w)) as [c [[bytes s]| |]] eqn:Hs; apply auth_start_half in Hs; exact Hs.
  - destruct (sessions w !! sid) as [[h claims t l|]|]; try by apply half_refl.
    destruct (auth_finish A clock input h claims t l (cache w)) as [c r] eqn:Hf. by apply auth_finish_half in Hf.
  - case_bool_decide; [by apply half_refl|].
    destruct (renew_start A clock gen who check (cache w)) as [c [[bytes s]| |]] eqn:Hs; apply renew_start_half in Hs; exact Hs.
  - destruct (sessions w !! sid) as [[|who check t l]|]; try by apply half_refl.
    destruct (renew_finish A keys tc clock input who check t l (cache w)) as [c r] eqn:Hf. by apply renew_finish_half in Hf.
  - destruct (sessions w !! sid); cbn; eauto.
Qed.
(** The nonce an event's exchange was accepted on, and until when it is kept. *)
Definition event_session (w : world) (e : pop_event) : option session :=
  match e with
  | FinishAuth sid _ _ | FinishRenew sid _ _ _ _ => sessions w !! sid
  | _ => None
  end.
Definition accepted (w : world) (e : pop_event) : option (nonce * Z) :=
  match snd (pop_step A w e), event_session w e with
  | GrantsAdmission (Ok r), Some s => Some (lnonce (session_lease s), expires_at (aclaims r))
  | Renewed (Ok x), Some s => Some (lnonce (session_lease s), x)
  | _, _ => None
  end.

Lemma accepted_spends w e n r :
  accepted w e = Some (n, r) ->
  exists now, event_clock e = Some now /\ now < r /\
    is_Some (outstanding (prune now (cache w)) !! n) /\
    nsteps (cache w) [LPrune now; LSpend n r] (cache (fst (pop_step A w e))).
Proof.
  unfold accepted. destruct e as [sid keys tc clock gen input|sid clock input|sid clock gen who check|sid keys tc clock input|sid];
    cbn [event_session pop_step event_clock]; try by repeat case_match.
  - destruct (sessions w !! sid) as [[h claims t l|]|]; try done.
    destruct (auth_finish A clock input h claims t l (cache w)) as [c r1] eqn:Hf. cbn.
    destruct r1 as [reg| |]; try done. intros; simplify_eq.
    apply auth_finish_cases in Hf as [[_ Hx]|(now&sig&resp&rest&->&_&_&_&_&c1&l1&r1&Hr&->&Hr1)]; [by edestruct Hx|].
    destruct r1 as [[]| |]; simplify_eq/=. rewrite lease_redeem_extends in Hr.
    apply redeem_and_extend_ok in Hr as (?&?&?). eauto 10.
  - destruct (sessions w !! sid) as [[|who check t l]|]; try done.
    destruct (renew_finish A keys tc clock input who check t l (cache w)) as [c r1] eqn:Hf. cbn.
    destruct r1 as [x| |]; try done. intros; simplify_eq.
    apply renew_finish_cases in Hf as [[_ Hx]|(now&resp&claims&->&_&c1&l1&r1&Hr&->&Hx)]; [by edestruct Hx|].
    destruct (Hx _ eq_refl) as (->&->&?&_). apply redeem_and_extend_ok in Hr as (?&?&?).
    exists now. repeat (split; [done || lia|]). done.
Qed.

(** Clock readings do not go back. *)
Fixpoint ordered (T : Z) (evs : list pop_event) : Prop :=
  match evs with
  | [] => True
  | e :: evs => match event_clock e with
                | Some t => T <= t /\ ordered t evs
                | None => ordered T evs
                end
  end.

Lemma used_up_run n r evs : forall T w rest,
  ordered T (evs ++ rest) -> used_up n r T (cache w) ->
  exists T', ordered T' rest /\ used_up n r T' (cache (fst (pop_run A w evs))).
Proof.
  induction evs as [|e evs IH]; intros T w rest Ho Hu; cbn [app ordered pop_run fst] in *; [eauto|].
  destruct (pop_step_half w e) as (ls&Hs&Hl).
  assert (Hu' : used_up n r (default T (event_clock e)) (cache (fst (pop_step A w e)))).
  { eapply used_up_steps; [done..| |done]. intros t Ht. rewrite Ht in Ho. by destruct Ho. }
  destruct (pop_step A w e) as [w1 o]. cbn in Hu'.
  destruct (IH (default T (event_clock e)) w1 rest) as (T'&?&?); [|done|].
  { destruct (event_clock e); cbn; tauto. }
  destruct (pop_run A w1 evs). eauto.
Qed.

Lemma pop_run_ok evs : forall w, cache_ok (cache w) -> cache_ok (cache (fst (pop_run A w evs))).
Proof.
  induction evs as [|e evs IH]; intros w Hok; cbn [pop_run]; [done|].
  destruct (pop_step_half w e) as (ls&Hs&_). destruct (pop_step A w e) as [w1 o] eqn:He. cbn in Hs.
  specialize (IH w1 (nsteps_ok _ _ _ Hs Hok)). by destruct (pop_run A w1 evs).
Qed.

Lemma spent_after w e n r :
  accepted w e = Some (n, r) ->
  spent (cache (fst (pop_step A w e))) !! n = Some r /\
  outstanding (cache (fst (pop_step A w e))) !! n = None.
Proof.
  intros (now&_&_&_&Hs)%accepted_spends. destruct (pop_step A w e) as [w1 o]. cbn in *.
  inversion Hs as [|? ? c1 ? ? H1 H2]; subst. inversion H2 as [|? ? c2 ? ? H3 H4]; subst.
  inversion H4; subst. inversion H3 as [| |c3 m e' u Hn Hl Hc|]; subst.
  cbn. by rewrite lookup_insert_eq, lookup_delete_eq.
Qed.
(** ** What an accepted token says *)

(** [t] is a token signed by the key the service names for it, and [claims] are
    what the issuer said in it to this bridge, in time. *)
Definition vouched (keys : str -> res PopError Key) (now : Z) (t : str) (claims : VerifiedClaims) : Prop :=
  exists (header_b64 claims_b64 signature_b64 : str) header raw sig key public_key,
    split_char 46 t = [header_b64; claims_b64; signature_b64] /\
    (base64_decode header_b64 ≫= json_header) = Some header /\ alg header = lit "EdDSA" /\
    keys (kid header) = Ok key /\
    (base64_decode signature_b64 ≫= sig_from_slice) = Some sig /\
    verify_strict key (into_bytes (header_b64 ++ lit "." ++ claims_b64)) sig = true /\
    (base64_decode claims_b64 ≫= json_claims) = Some raw /\
    iss raw = EXPECTED_ISSUER /\ aud raw = expected_audience A /\
    sub raw = lit "home:" ++ instance_id claims /\ instance_id claims <> [] /\
    chostname raw = vhostname claims /\
    (exists label : list byte, into_bytes (vhostname claims) = label ++ blit ".solstone.me" /\ length label = 8%nat /\
       Forall (fun b => 97 <= u8 b <= 122 \/ 50 <= u8 b <= 55) label) /\
    exp raw = expires_at claims /\ 600 <= exp raw - iat raw <= 900 /\
    iat raw <= now + POP_SKEW /\ now < expires_at claims /\
    base64_decode (jx (cnf_jwk raw)) = Some public_key /\ length public_key = 32%nat /\
    key_from_bytes public_key = Some (pop_key claims).

Lemma valid_hostname_label h :
  valid_hostname h = true ->
  exists label : list byte, into_bytes h = label ++ blit ".solstone.me" /\ length label = 8%nat /\
    Forall (fun b => 97 <= u8 b <= 122 \/ 50 <= u8 b <= 55) label.
Proof.
  unfold valid_hostname. destruct (strip_suffix _ h) as [label|] eqn:Hl; [|done].
  apply strip_suffix_Some in Hl as ->. rewrite andb_true_iff. intros [Hn Hf].
  exists (into_bytes label). rewrite into_bytes_app. split; [by f_equal|]. split; [lia|].
  apply Is_true_true, forallb_True in Hf. eapply Forall_impl; [|exact Hf]. cbn. intros b Hb%Is_true_true.
  unfold between in Hb. lia.
Qed.

Lemma validate_token_claims_ok raw now claims :
  validate_token_claims raw (expected_audience A) now = Ok claims ->
  iss raw = EXPECTED_ISSUER /\ aud raw = expected_audience A /\
  sub raw = lit "home:" ++ instance_id claims /\ instance_id claims <> [] /\
  chostname raw = vhostname claims /\ valid_hostname (vhostname claims) = true /\
  exp raw = expires_at claims /\ 600 <= exp raw - iat raw <= 900 /\
  iat raw <= now + POP_SKEW /\ now < expires_at claims /\
  exists public_key, base64_decode (jx (cnf_jwk raw)) = Some public_key /\ length public_key = 32%nat /\
    key_from_bytes public_key = Some (pop_key claims).
Proof.
  unfold validate_token_claims, mbind, res_bind, between, saturating_add.
  repeat (case_bool_decide; cbn [negb orb]; [|done]).
  destruct (strip_prefix (lit "home:") (sub raw)) as [i|] eqn:Hi; [|done]. apply strip_prefix_Some in Hi.
  case_bool_decide; [done|]. destruct (iat raw >? exp raw) eqn:Hi1; [done|].
  destruct (negb _) eqn:Hi2; [done|]. destruct (_ || _) eqn:Hi3; [done|].
  destruct (valid_hostname (chostname raw)) eqn:Hv; [|done]. cbn [negb].
  repeat (case_bool_decide; cbn [negb orb]; [|done]).
  destruct (base64_decode (jx (cnf_jwk raw))) as [pk|] eqn:Hpk; [|done]. cbn [ok_or].
  destruct (negb (len pk =? 32)) eqn:Hl; [done|].
  destruct (key_from_bytes pk) as [key|] eqn:Hk; [|done]. cbn. intros; simplify_eq. cbn.
  repeat (split; [done || lia|]). exists pk. repeat split; (done || lia).
Qed.

Lemma verify_vouched keys now t claims :
  verify keys (expected_audience A) now t = Ok claims -> vouched keys now t claims.
Proof.
  unfold verify, parse_compact_token, verify_parsed_token, mbind, res_bind.
  destruct (negb _); [done|]. destruct (split_char 46 t) as [|h [|c [|s []]]] eqn:Hs; try done.
  destruct (existsb _ _); [done|].
  destruct (base64_decode h) as [hb|] eqn:Hh; [|done]. cbn [ok_or].
  destruct (base64_decode c) as [cb|] eqn:Hc; [|done]. cbn [ok_or].
  destruct (base64_decode s) as [sb|] eqn:Hsb; [|done]. cbn [ok_or].
  destruct (json_header hb) as [hdr|] eqn:Hjh; [|done]. cbn [ok_or].
  destruct (json_claims cb) as [raw|] eqn:Hjc; [|done]. cbn [ok_or].
  destruct (sig_from_slice sb) as [sig|] eqn:Hsig; [|done]. cbn [ok_or theader tclaims tsignature signing_input].
  destruct (keys (kid hdr)) as [key| |] eqn:Hkey; [|done..].
  destruct (_ || _) eqn:Ha; [done|]. destruct (verify_strict key _ sig) eqn:Hv; [|done]. cbn [negb].
  intros (?&?&?&?&?&Hvh&?&?&?&?&pk&?&?&?)%validate_token_claims_ok.
  apply orb_false_iff in Ha as [[Ha%negb_false_iff%bool_decide_eq_true _]%orb_false_iff _].
  exists h, c, s, hdr, raw, sig, key, pk. rewrite Hh, Hc, Hsb. cbn [mbind option_bind].
  repeat (split; [done || lia || by apply valid_hostname_label|]). done.
Qed.
(** ** Sessions *)

Lemma pop_run_snoc evs e : forall w,
  pop_run A w (evs ++ [e]) =
  (fst (pop_step A (fst (pop_run A w evs)) e),
   snd (pop_run A w evs) ++ [snd (pop_step A (fst (pop_run A w evs)) e)]).
Proof.
  induction evs as [|d evs IH]; intros w; cbn [app pop_run].
  - destruct (pop_step A w e) eqn:He. cbn. by rewrite He.
  - destruct (pop_step A w d) as [w1 o]. rewrite IH. by destruct (pop_run A w1 evs).
Qed.

Lemma auth_start_ok keys tc clock gen input c c' bytes s :
  auth_start A keys tc clock gen input c = (c', Ok (bytes, s)) ->
  exists now request rest claims n, clock = Some now /\
    read_message json_request input = Ok (request, rest) /\
    verify keys (expected_audience A) tc (token request) = Ok claims /\
    vhostname claims = rhostname request /\
    s = Registering (rhostname request) claims now (mkLease n true) /\
    issue_with now (expires_at claims) gen c = (c', Ok n) /\
    write_message challenge_json (mkChallenge (base64_encode n) (abridge_id A) now) = Ok bytes.
Proof.
  unfold auth_start. set (k := _ ← read_message json_request input; _).
  destruct k as [[[[req claims] now] t]| |] eqn:Hk; subst k; [|done..].
  unfold mbind, res_bind, unix_seconds, try_i64, validate_registration_hostname in Hk.
  destruct (read_message json_request input) as [[request rest]| |] eqn:Hm; simplify_eq/=.
  destruct (verify keys (expected_audience A) tc (token request)) as [cl| |] eqn:Hv; simplify_eq/=.
  destruct clock as [now'|]; simplify_eq/=. case_bool_decide as Hh; simplify_eq/=.
  destruct (now' <? 2 ^ 63); simplify_eq/=. unfold lease_issue.
  destruct (issue_with _ _ gen c) as [c1 [n| |]] eqn:Hi; [|done..]. cbn.
  destruct (write_message _ _) eqn:Hw; intros; simplify_eq. eauto 15.
Qed.

Lemma renew_start_ok clock gen who check c c' bytes s :
  renew_start A clock gen who check c = (c', Ok (bytes, s)) ->
  exists now n, clock = Some now /\ s = Renewing who check now (mkLease n true) /\
    issue_with now check gen c = (c', Ok n).
Proof.
  unfold renew_start. set (k := _ ← map_err Retryable (unix_seconds clock); _).
  destruct k as [[now t]| |] eqn:Hk; subst k; [|done..].
  unfold mbind, res_bind, unix_seconds, try_i64 in Hk. destruct clock as [now'|]; simplify_eq/=.
  destruct (now' <? 2 ^ 63); simplify_eq/=. unfold lease_issue.
  destruct (issue_with _ check gen c) as [c1 [n| |]] eqn:Hi; [|done..]. cbn.
  destruct (write_message _ _); intros; simplify_eq. eauto 10.
Qed.

(** The nonce of an issue is an answer of the generator. *)
Lemma issue_attempts_gen gen e attempts : forall i c c' n,
  issue_attempts attempts i gen e c = (c', Ok n) -> exists k, gen k = Ok n.
Proof.
  induction attempts as [|m IH]; intros i c c' n H; cbn in H; [done|].
  destruct (gen i) as [n'| |] eqn:Hg; [|done..]. destruct (_ || _); [by eapply IH|]. simplify_eq. eauto.
Qed.

Lemma issue_with_gen now e gen c c' n : issue_with now e gen c = (c', Ok n) -> exists k, gen k = Ok n.
Proof. unfold issue_with. destruct (_ >=? _); [done|]. apply issue_attempts_gen. Qed.

(** Event [e] at [w] opens session [sid] as [s]. *)
Definition opening (w : world) (e : pop_event) (sid : Z) (s : session) : Prop :=
  match s with
  | Registering h claims t l =>
      exists keys tc gen k input request rest challenge,
        e = StartAuth sid keys tc (Some t) gen input /\ gen k = Ok (lnonce l) /\
        snd (pop_step A w e) = Challenged (Ok challenge) /\
        write_message challenge_json (mkChallenge (base64_encode (lnonce l)) (abridge_id A) t) = Ok challenge /\
        read_message json_request input = Ok (request, rest) /\ vouched keys tc (token request) claims /\
        rhostname request = h /\ vhostname claims = h
  | Renewing who check t _ => exists gen, e = StartRenew sid (Some t) gen who check
  end.

(** A step opens a session, or keeps those that stay. *)
Lemma sessions_step w e sid s :
  sessions (fst (pop_step A w e)) !! sid = Some s ->
  sessions w !! sid = Some s \/ sessions w !! sid = None /\ opening w e sid s.
Proof.
  destruct e as [k keys tc clock gen input|k clock input|k clock gen who check|k keys tc clock input|k].
  - intros H. cbn [pop_step] in H. case_bool_decide as Hno; [by auto|].
    destruct (auth_start A keys tc clock gen input (cache w)) as [c [[bytes s']| |]] eqn:Hs; cbn in H; [|by auto..].
    apply lookup_insert_Some in H as [[-> ->]|[_ ?]]; [right|by left]. split; [by apply eq_None_not_Some|].
    assert (Hout : snd (pop_step A w (StartAuth sid keys tc clock gen input)) = Challenged (Ok bytes)).
    { cbn [pop_step]. rewrite bool_decide_eq_false_2 by done. by rewrite Hs. }
    apply auth_start_ok in Hs as (now&req&rest&claims&n&->&Hm&Hv&Hh&->&Hi&Hw). apply issue_with_gen in Hi as [j Hj].
    exists keys, tc, gen, j, input, req, rest, bytes. split_and!; try done. by apply verify_vouched.
  - cbn [pop_step]. destruct (sessions w !! k) as [[]|]; [|by auto..]. destruct (auth_finish _ _ _ _ _ _ _ _). cbn.
    intros [_ ?]%lookup_delete_Some; by left.
  - cbn [pop_step]. case_bool_decide as Hno; [auto|].
    destruct (renew_start A clock gen who check (cache w)) as [c [[bytes s']| |]] eqn:Hs; cbn; [|by auto..].
    rewrite lookup_insert_Some. intros [[-> ->]|[_ ?]]; [right|by left]. split; [by apply eq_None_not_Some|].
    apply renew_start_ok in Hs as (now&n&->&->&_). by exists gen.
  - cbn [pop_step]. destruct (sessions w !! k) as [[]|]; [by auto| |by auto]. destruct (renew_finish _ _ _ _ _ _ _ _ _ _). cbn.
    intros [_ ?]%lookup_delete_Some; by left.
  - cbn [pop_step]. destruct (sessions w !! k); [|by auto]. cbn. intros [_ ?]%lookup_delete_Some; by left.
Qed.

(** An open session was opened once, and has been open as it is ever since. *)
Lemma sessions_began evs sid s :
  sessions (fst (pop_run A world_new evs)) !! sid = Some s ->
  exists evs1 e evs2, evs = evs1 ++ e :: evs2 /\ opening (fst (pop_run A world_new evs1)) e sid s /\
    forall p, p `prefix_of` evs2 -> sessions (fst (pop_run A world_new (evs1 ++ e :: p))) !! sid = Some s.
Proof.
  revert s. induction evs as [|e evs IH] using rev_ind; intros s; [by cbn; rewrite lookup_empty|].
  intros Hs. pose proof Hs as Hs'. rewrite pop_run_snoc in Hs. cbn [fst] in Hs. apply sessions_step in Hs as [H|[_ H]].
  - apply IH in H as (evs1 & e1 & evs2 & -> & Ho & Hp). exists evs1, e1, (evs2 ++ [e]). rewrite <- app_assoc. split_and!; [done..|].
    intros p [q Hq]. destruct q as [|x q _] using rev_ind.
    + rewrite app_nil_r in Hq. subst p. by rewrite <- app_assoc in Hs'.
    + rewrite app_assoc in Hq. apply app_inj_tail in Hq as [Hq _]. apply Hp. by exists q.
  - exists evs, e, []. split_and!; [done..|]. intros p Hp. by apply prefix_nil_inv in Hp as ->.
Qed.

(** ** An exchange among others *)

(** The entry of nonce [n] survives a change at time [now]. *)
Definition keeps_entry (n : nonce) (now : option Z) (c c' : NonceCache) : Prop :=
  forall e, outstanding c !! n = Some e -> (forall t, now = Some t -> t < e) -> outstanding c' !! n = Some e.

Lemma keeps_drop n now l c : lnonce l <> n -> keeps_entry n now c (lease_drop l c).
Proof. intros Hl e He _. unfold lease_drop. destruct (armed l); [|done]. cbn. by rewrite lookup_delete_ne. Qed.

Lemma keeps_prune n now c : keeps_entry n (Some now) c (prune now c).
Proof. intros e He Ht. cbn. rewrite map_lookup_filter_Some. cbn. auto. Qed.

Lemma keeps_issue n now e0 gen c c' r :
  issue_with now e0 gen c = (c', r) -> keeps_entry n (Some now) c c'.
Proof.
  intros Hi e He Ht. apply issue_with_steps in Hi. pose proof (keeps_prune n now c e He Ht) as Hp.
  destruct r as [m| |]; inversion Hi as [|? ? c1 ? ? H1 H2]; subst; inversion H1; subst.
  2,3: by inversion H2; subst.
  inversion H2 as [|? ? c2 ? ? H3 H4]; subst. inversion H4; subst. inversion H3; subst. cbn in *.
  rewrite lookup_insert_ne; [done|]. intros ->. congruence.
Qed.

Lemma issue_other n now e0 gen c c' m e :
  issue_with now e0 gen c = (c', Ok m) -> outstanding c !! n = Some e -> now < e -> m <> n.
Proof.
  intros Hi He Ht ->. apply issue_with_steps in Hi. inversion Hi as [|? ? c1 ? ? H1 H2]; subst. inversion H1; subst.
  inversion H2 as [|? ? c2 ? ? H3 H4]; subst. inversion H3; subst.
  assert (outstanding (prune now c) !! n = Some e) by (apply keeps_prune; [done|congruence]). congruence.
Qed.

Lemma keeps_extend n l e0 u now c c' l' r :
  lnonce l <> n -> redeem_and_extend l e0 u now c = (c', l', r) ->
  keeps_entry n (Some now) c (lease_drop l' c').
Proof.
  intros Hl Hr e He Ht. pose proof (keeps_prune n now c e He Ht) as Hp. revert Hr.
  unfold redeem_and_extend. destruct (negb (armed l)) eqn:Ha.
  { intros; simplify_eq. by apply (keeps_drop _ None); [..|congruence]. }
  destruct (redeem_renewal (lnonce l) e0 u now c) as [c1 r1] eqn:Hr1. apply redeem_renewal_steps in Hr1.
  destruct r1; intros; simplify_eq; [destruct Hr1 as [Hr1 _]|..];
    inversion Hr1 as [|? ? c2 ? ? H1 H2]; subst; inversion H1; subst.
  2,3: inversion H2; subst; by apply (keeps_drop _ None); [..|congruence].
  inversion H2 as [|? ? c3 ? ? H3 H4]; subst. inversion H4; subst. inversion H3; subst.
  cbn in *. by rewrite lookup_delete_ne.
Qed.

(** A lease that was issued and then dropped at once. *)
Lemma keeps_issue_drop n now e0 gen c c' l :
  lease_issue now e0 gen c = (c', Ok l) -> keeps_entry n (Some now) c (lease_drop l c').
Proof.
  unfold lease_issue. destruct (issue_with now e0 gen c) as [c1 [m| |]] eqn:Hi; intros ?; simplify_eq/=.
  intros e He Ht. pose proof (issue_other n _ _ _ _ _ _ _ Hi He (Ht _ eq_refl)) as Hm.
  apply (keeps_drop n None); [done| |done]. by eapply keeps_issue.
Qed.

Lemma lease_issue_with now e0 gen c c' r :
  lease_issue now e0 gen c = (c', r) -> exists r', issue_with now e0 gen c = (c', r').
Proof. unfold lease_issue. destruct (issue_with now e0 gen c). intros; simplify_eq. eauto. Qed.

Lemma auth_start_keeps n keys tc clock gen input c c' r :
  auth_start A keys tc clock gen input c = (c', r) -> keeps_entry n clock c c'.
Proof.
  unfold auth_start. set (k := _ ← read_message json_request input; _).
  destruct k as [[[[req claims] now] t]| |] eqn:Hk; subst k; [|by intros ?; simplify_eq; intros e0..].
  assert (clock = Some now) as ->.
  { unfold mbind, res_bind, unix_seconds in Hk. repeat case_match; simplify_eq/=; try done.
    destruct clock; by simplify_eq/=. }
  destruct (lease_issue now _ gen c) as [c1 [l| |]] eqn:Hi.
  - pose proof (keeps_issue_drop n _ _ _ _ _ _ Hi). apply lease_issue_with in Hi as [r' Hi].
    destruct (write_message _ _); intros; simplify_eq; (done || by eapply keeps_issue).
  - apply lease_issue_with in Hi as [r' Hi]. intros; simplify_eq. by eapply keeps_issue.
  - apply lease_issue_with in Hi as [r' Hi]. intros; simplify_eq. by eapply keeps_issue.
Qed.

Lemma renew_start_keeps n clock gen who check c c' r :
  renew_start A clock gen who check c = (c', r) -> keeps_entry n clock c c'.
Proof.
  unfold renew_start. set (k := _ ← map_err Retryable (unix_seconds clock); _).
  destruct k as [[now t]| |] eqn:Hk; subst k; [|by intros ?; simplify_eq; intros e0..].
  assert (clock = Some now) as ->.
  { unfold mbind, res_bind, unix_seconds in Hk. destruct clock; simplify_eq/=.
    by destruct (try_i64 _ _); simplify_eq/=. }
  destruct (lease_issue now _ gen c) as [c1 [l| |]] eqn:Hi.
  - pose proof (keeps_issue_drop n _ _ _ _ _ _ Hi). apply lease_issue_with in Hi as [r' Hi].
    destruct (write_message _ _); intros; simplify_eq; (done || by eapply keeps_issue).
  - apply lease_issue_with in Hi as [r' Hi]. intros; simplify_eq. by eapply keeps_issue.
  - apply lease_issue_with in Hi as [r' Hi]. intros; simplify_eq. by eapply keeps_issue.
Qed.

Definition event_sid (e : pop_event) : Z :=
  match e with
  | StartAuth sid _ _ _ _ _ | FinishAuth sid _ _ | StartRenew sid _ _ _ _
  | FinishRenew sid _ _ _ _ | DropSession sid => sid
  end.

(** Session [sid] alone holds nonce [n], whose entry lasts until [e]. *)
Definition holds (w : world) (sid : Z) (n : nonce) (e : Z) : Prop :=
  outstanding (cache w) !! n = Some e /\
  forall k s, sessions w !! k = Some s -> lnonce (session_lease s) = n -> k = sid.

Lemma holds_step w sid n e ev :
  holds w sid n e -> event_sid ev <> sid -> (forall t, event_clock ev = Some t -> t < e) ->
  holds (fst (pop_step A w ev)) sid n e /\
  sessions (fst (pop_step A w ev)) !! sid = sessions w !! sid.
Proof.
  intros [Ho Hs] Hk Ht.
  assert (Hother : forall s, sessions w !! event_sid ev = Some s -> lnonce (session_lease s) <> n)
    by (intros s H Hn; apply Hk; by eapply Hs).
  assert (Hdel : forall k s, delete (event_sid ev) (sessions w) !! k = Some s -> lnonce (session_lease s) = n -> k = sid)
    by (intros k s [_ H]%lookup_delete_Some; by apply Hs).
  assert (Hins : forall s', lnonce (session_lease s') <> n -> forall k s,
      <[event_sid ev := s']> (sessions w) !! k = Some s -> lnonce (session_lease s) = n -> k = sid)
    by (intros s' Hs' k s [[_ <-]|[_ H]]%lookup_insert_Some; [by intros|by apply Hs]).
  destruct ev as [k keys tc clock gen input|k clock input|k clock gen who check|k keys tc clock input|k]; cbn [pop_step event_sid event_clock] in *.
  - case_bool_decide; [done|].
    destruct (auth_start A keys tc clock gen input (cache w)) as [c [[bytes s']| |]] eqn:Hst;
      pose proof (auth_start_keeps n _ _ _ _ _ _ _ _ Hst _ Ho Ht) as Hc; [|done..]. cbn.
    rewrite lookup_insert_ne by done. split; [|done]. split; [done|]. apply Hins.
    apply auth_start_ok in Hst as (now&req&rest&claims&m&->&_&_&_&->&Hi&_). by eapply issue_other, Ht.
  - destruct (sessions w !! k) as [[h claims t l|]|] eqn:Hl; [|done..].
    specialize (Hother _ eq_refl). cbn in Hother.
    destruct (auth_finish A clock input h claims t l (cache w)) as [c r] eqn:Hf. cbn. rewrite lookup_delete_ne by done.
    split; [|done]. split; [|done]. cbn.
    apply auth_finish_cases in Hf as [[-> _]|(now&sig&resp&rest&->&_&_&_&_&c1&l1&r1&Hr&->&_)].
    + by apply (keeps_drop n None).
    + rewrite lease_redeem_extends in Hr. by eapply keeps_extend.
  - case_bool_decide; [done|].
    destruct (renew_start A clock gen who check (cache w)) as [c [[bytes s']| |]] eqn:Hst;
      pose proof (renew_start_keeps n _ _ _ _ _ _ _ Hst _ Ho Ht) as Hc; [|done..]. cbn.
    rewrite lookup_insert_ne by done. split; [|done]. split; [done|]. apply Hins.
    apply renew_start_ok in Hst as (now&m&->&->&Hi). by eapply issue_other, Ht.
  - destruct (sessions w !! k) as [[|who check t l]|] eqn:Hl; [done| |done].
    specialize (Hother _ eq_refl). cbn in Hother.
    destruct (renew_finish A keys tc clock input who check t l (cache w)) as [c r] eqn:Hf. cbn. rewrite lookup_delete_ne by done.
    split; [|done]. split; [|done]. cbn.
    apply renew_finish_cases in Hf as [[-> _]|(now&resp&claims&->&_&c1&l1&r1&Hr&->&_)].
    + by apply (keeps_drop n None).
    + by eapply keeps_extend.
  - destruct (sessions w !! k) as [s|] eqn:Hl; [|done]. cbn. rewrite lookup_delete_ne by done.
    split; [|done]. split; [|done]. by apply (keeps_drop n None); [apply Hother| |].
Qed.

Lemma holds_run sid n e evs : forall w,
  holds w sid n e ->
  Forall (fun ev => event_sid ev <> sid /\ forall t, event_clock ev = Some t -> t < e) evs ->
  holds (fst (pop_run A w evs)) sid n e /\
  sessions (fst (pop_run A w evs)) !! sid = sessions w !! sid.
Proof.
  induction evs as [|ev evs IH]; intros w Hw Hevs; cbn [pop_run]; [done|].
  apply Forall_cons_1 in Hevs as [[Hk Ht] Hevs].
  destruct (holds_step w sid n e ev Hw Hk Ht) as [H1 H2]. destruct (pop_step A w ev) as [w1 o]. cbn in *.
  destruct (IH w1 H1 Hevs) as [H3 H4]. destruct (pop_run A w1 evs). cbn in *. split; [done|congruence].
Qed.
(** ** Theorems *)

(** C16. Nonces are spent once: amid any other registrations and renewals, a
    nonce on which an exchange was accepted is not accepted again before the
    token that exchange was bound to has expired, as long as the clock does not
    go back. *)
Theorem pop_nonce_single_use evs1 e1 evs2 e2 n r1 r2 T :
  let w1 := fst (pop_run A world_new evs1) in
  let w2 := fst (pop_run A (fst (pop_step A w1 e1)) evs2) in
  ordered T (e1 :: evs2 ++ [e2]) ->
  accepted w1 e1 = Some (n, r1) -> accepted w2 e2 = Some (n, r2) ->
  exists v1 v2, event_clock e1 = Some v1 /\ event_clock e2 = Some v2 /\ v1 < r1 <= v2.
Proof.
  intros w1 w2 Ho H1 H2. destruct (spent_after _ _ _ _ H1) as [Hsp Hout].
  destruct (accepted_spends _ _ _ _ H1) as (v1&Hc1&Hv1&_). cbn in Ho. rewrite Hc1 in Ho. destruct Ho as [_ Ho].
  destruct (used_up_run n r1 evs2 v1 (fst (pop_step A w1 e1)) [e2] Ho) as (T'&Ho'&Hu); [by left|].
  destruct (accepted_spends _ _ _ _ H2) as (v2&Hc2&Hv2&[e He]&_). exists v1, v2.
  cbn in Ho'. rewrite Hc2 in Ho'. destruct Ho' as [Ho' _].
  split; [done|]. split; [done|]. split; [done|].
  destruct Hu as [[_ Hn]|Hr]; [|lia]. apply lookup_prune in He as [He _]. fold w2 in Hn. congruence.
Qed.

(** The nonce tables stay small and apart: after any run at most 256 nonces
    are outstanding and 4096 kept as spent, and none is both. *)
Theorem pop_nonces_bounded evs : cache_ok (cache (fst (pop_run A world_new evs))).
Proof.
  apply pop_run_ok. unfold cache_ok. cbn. rewrite !map_size_empty.
  unfold OUTSTANDING_NONCE_LIMIT, SPENT_NONCE_LIMIT. split; [lia|]. split; [lia|]. apply map_disjoint_empty_l.
Qed.

(** C17. Only the proven owner is admitted: when an exchange ends in an
    admission, its session was opened by a request whose token the issuer signed
    for this bridge, within its times, for exactly the hostname that was asked
    for and is admitted; the bridge answered that request with a challenge on a
    nonce of its generator and has kept the session open with it since; and the
    key the token names has signed that challenge, within a minute of it and
    before the token expired. *)
Theorem pop_admission_sound evs e reg :
  snd (pop_step A (fst (pop_run A world_new evs)) e) = GrantsAdmission (Ok reg) ->
  exists evs1 evs2 sid keys tc gen k n input request rest t challenge now reply response rest' sig,
    let start := StartAuth sid keys tc (Some t) gen input in
    evs = evs1 ++ start :: evs2 /\ e = FinishAuth sid (Some now) reply /\
    read_message json_request input = Ok (request, rest) /\
    vouched keys tc (token request) (aclaims reg) /\
    rhostname request = ahostname reg /\ vhostname (aclaims reg) = ahostname reg /\
    gen k = Ok n /\
    snd (pop_step A (fst (pop_run A world_new evs1)) start) = Challenged (Ok challenge) /\
    write_message challenge_json (mkChallenge (base64_encode n) (abridge_id A) t) = Ok challenge /\
    (forall p, p `prefix_of` evs2 -> exists l, lnonce l = n /\
       sessions (fst (pop_run A world_new (evs1 ++ start :: p))) !! sid = Some (Registering (ahostname reg) (aclaims reg) t l)) /\
    read_message json_response reply = Ok (response, rest') /\
    decode_signature (signature response) = Ok sig /\
    verify_strict (pop_key (aclaims reg)) (proof_message n (abridge_id A) t) sig = true /\
    Z.abs (t - now) <= POP_SKEW /\ now < expires_at (aclaims reg).
Proof.
  set (w := fst (pop_run A world_new evs)).
  destruct e as [| sid clock reply| | |]; cbn [pop_step]; [by repeat case_match| |by repeat case_match..].
  destruct (sessions w !! sid) as [[h claims t l|]|] eqn:Hs; [|done..].
  apply sessions_began in Hs as (evs1&e1&evs2&->&(keys&tc&gen&k&input&request&rest&challenge&->&Hg&Hc&Hw&Hq&Hv&Hh&Hh')&Hp).
  destruct (auth_finish A clock reply h claims t l (cache w)) as [c r] eqn:Hf. cbn [snd]. intros; simplify_eq.
  apply auth_finish_cases in Hf as [[_ Hx]|(now&sig&resp&rest'&->&Hm&Hd&Hfr&Hvs&c1&l1&r1&Hr&->&Hr1)]; [by edestruct Hx|].
  destruct r1 as [[]| |]; simplify_eq/=. rewrite lease_redeem_extends in Hr.
  apply redeem_and_extend_ok in Hr as (_&Hnow&_).
  exists evs1, evs2, sid, keys, tc, gen, k, (lnonce l), input, request, rest, t, challenge, now, reply, resp, rest', sig.
  cbv zeta. split_and!; try done. intros p Hpre. exists l. split; [done|]. by apply Hp.
Qed.

(** A lease is only extended for the same journal: when a renewal is
    accepted, a token the issuer signed for this bridge names the very host,
    instance and key of the identity the renewal was opened for, with a later
    expiry than the running lease, which has not run out, and the key has signed
    the renewal's own challenge. *)
Theorem pop_renewal_sound evs e x :
  snd (pop_step A (fst (pop_run A world_new evs)) e) = Renewed (Ok x) ->
  exists sid gen who check t n keys tc now reply tok sig,
    StartRenew sid (Some t) gen who check ∈ evs /\ e = FinishRenew sid keys tc (Some now) reply /\
    vouched keys tc tok (mkVerified (iinstance who) (ihostname who) x (ikey who)) /\
    verify_strict (ikey who) (proof_message n (abridge_id A) t) sig = true /\
    Z.abs (t - now) <= POP_SKEW /\ now < check < x.
Proof.
  set (w := fst (pop_run A world_new evs)).
  destruct e as [| | |sid keys tc clock reply|]; cbn [pop_step]; [by repeat case_match..| |by repeat case_match].
  destruct (sessions w !! sid) as [[|who check t l]|] eqn:Hs; [done| |done].
  apply sessions_began in Hs as (evs1&e1&evs2&Hevs&(gen&->)&_).
  assert (Hin : StartRenew sid (Some t) gen who check ∈ evs) by (rewrite Hevs; set_solver).
  destruct (renew_finish A keys tc clock reply who check t l (cache w)) as [c r] eqn:Hf. cbn. intros; simplify_eq.
  apply renew_finish_cases in Hf as [[_ Hx]|(now&resp&claims&->&Hp&c1&l1&r1&Hr&->&Hx)]; [by edestruct Hx|].
  destruct (Hx _ eq_refl) as (->&->&Hlt&_&Hh&Hi&Hk). apply redeem_and_extend_ok in Hr as (_&Hnow&_).
  destruct Hp as (body&rest&sig&_&_&Hv&Hfr&_&Hvs). apply verify_vouched in Hv.
  destruct claims as [ci ch ce ck]. cbn in *. subst.
  exists sid, gen, who, check, t, (lnonce l), keys, tc, now, reply, (rn_token resp), sig. auto 10 with lia.
Qed.

(** Exchanges do not disturb each other: once a registration was challenged
    with a nonce no open session holds, whatever other exchanges start, end or
    are dropped before its token expires, its correct and timely answer is
    accepted, unless the spent table is full. *)
Theorem pop_exchange_completes w sid keys tc clock gen input w1 bytes evs h claims t l
    now reply response rest sig :
  pop_step A w (StartAuth sid keys tc clock gen input) = (w1, Challenged (Ok bytes)) ->
  sessions w1 !! sid = Some (Registering h claims t l) ->
  (forall k s, sessions w !! k = Some s -> lnonce (session_lease s) <> lnonce l) ->
  Forall (fun ev => event_sid ev <> sid /\ forall c, event_clock ev = Some c -> c < expires_at claims) evs ->
  let w2 := fst (pop_run A w1 evs) in
  read_message json_response reply = Ok (response, rest) ->
  decode_signature (signature response) = Ok sig ->
  verify_strict (pop_key claims) (proof_message (lnonce l) (abridge_id A) t) sig = true ->
  Z.abs (t - now) <= POP_SKEW -> now < 2 ^ 63 -> now < expires_at claims ->
  Z.of_nat (size (spent (cache w2))) < SPENT_NONCE_LIMIT ->
  snd (pop_step A w2 (FinishAuth sid (Some now) reply)) = GrantsAdmission (Ok (mkRegistration h claims)).
Proof.
  intros Hst Hs1 Hfree Hevs w2 Hm Hd Hv Hfr Hnow He Hcap. cbn [pop_step] in Hst.
  case_bool_decide as Hsid; [done|].
  destruct (auth_start A keys tc clock gen input (cache w)) as [c [[b s]| |]] eqn:Ha; [|done..]. simplify_eq.
  cbn in Hs1. rewrite lookup_insert_eq in Hs1. simplify_eq.
  apply auth_start_ok in Ha as (now0&req&rest0&claims0&n&->&_&_&_&?&Hi&_). simplify_eq. cbn [lnonce] in *.
  apply issue_with_steps in Hi. inversion Hi as [|? ? c1 ? ? H1 H2]; subst. inversion H1; subst.
  inversion H2 as [|? ? c2 ? ? H3 H4]; subst. inversion H4; subst. inversion H3; subst.
  lazymatch goal with _ := fst (pop_run A ?x evs) |- _ =>
    destruct (holds_run sid n (expires_at claims0) evs x) as [[Ho _] Hk]; [|exact Hevs|] end.
  { split; [cbn; by rewrite lookup_insert_eq|]. cbn.
    intros k s [[-> _]|[_ Hs]]%lookup_insert_Some Hn; [done|by apply Hfree in Hs]. }
  fold w2 in Ho, Hk. cbn [sessions] in Hk. rewrite lookup_insert_eq in Hk. cbn [pop_step]. rewrite Hk.
  unfold auth_finish, mbind, res_bind, unix_seconds, try_i64, challenge_timestamp_is_fresh.
  rewrite Hm. cbn [ok_or]. replace (now <? 2 ^ 63) with true by lia.
  replace (Z.abs (now0 - now) <=? POP_SKEW) with true by lia. cbn [negb]. rewrite Hd. cbn [lnonce]. rewrite Hv.
  rewrite lease_redeem_extends. unfold redeem_and_extend, redeem_renewal. cbn [armed negb lnonce].
  assert (Hp : outstanding (prune now (cache w2)) !! n = Some (expires_at claims0))
    by (apply keeps_prune; [done|congruence]).
  rewrite Hp, Z.eqb_refl. cbn [negb].
  pose proof (size_filter_le (fun x => now < snd x) (spent (cache w2))).
  destruct (_ >=? _) eqn:Hsz; [cbn in Hsz; lia|]. done.
Qed.
End Runs.

(** ** Sample primitives and runs *)

Module PopSample.
(** Two letters per byte. *)
Definition enc (l : list byte) : str := concat ((fun b => [97 + u8 b / 16; 97 + u8 b mod 16]) <$> l).
Fixpoint dec (s : str) : option (list byte) :=
  match s with
  | [] => Some []
  | [_] => None
  | a :: b :: s => cons (as_u8 ((a - 97) * 16 + (b - 97))) <$> dec s
  end.
Definition sign (key : Z) (m : list byte) : list byte := be_bytes 4 (key + zsum u8 m).
Definition host : str := lit "abcdefgh.solstone.me".
Definition key_bytes : list byte := replicate 32 Byte.x05.
(** Tokens of issuer key 7, for the journal key 160, issued at second [1000 b]. *)
Definition signed_text (b : byte) : str := enc [Byte.x01] ++ lit "." ++ enc [b].
Definition sample_token (b : byte) : str :=
  signed_text b ++ lit "." ++ enc (sign 7 (into_bytes (signed_text b))).
Definition claims_of (b : byte) : RawClaims :=
  mkRawClaims EXPECTED_ISSUER (lit "home:i") (lit "bridge") (1000 * u8 b) (1000 * u8 b + 600) host
    (mkPopJwk (lit "OKP") (lit "Ed25519") (enc key_bytes)).

#[export] Instance primitives : PopPrimitives := {|
  Key := Z;
  Sig := Z;
  key_from_bytes l := Some (zsum u8 l);
  sig_from_slice l := Some (be_val l);
  verify_strict k m s := s =? be_val (sign k m);
  base64_encode := enc;
  base64_decode := dec;
  json_header _ := Some (mkJose (lit "EdDSA") (lit "JWT") (lit "k"));
  json_claims l := match l with [b] => Some (claims_of b) | _ => None end;
  json_request l := match l with [b] => Some (mkRequest (sample_token b) host) | _ => None end;
  json_response l := Some (mkResponse (enc l));
  json_renewal l := match l with b :: s => Some (mkRenewal (sample_token b) host (enc s)) | [] => None end;
  challenge_json _ := Some [Byte.x09]
|}.

Definition auth : PopAuthenticator := mkAuthenticator (lit "br") (lit "bridge").
Definition keys (_ : str) : res PopError Key := Ok 7.
Definition a_nonce : nonce := replicate 16 Byte.x41.
Definition gen (_ : nat) : res PopError nonce := Ok a_nonce.
Definition framed (l : list byte) : list byte := be_bytes 4 (len l) ++ l.
Definition answer (t : Z) : list byte := sign 160 (proof_message a_nonce (lit "br") t).

Definition start (sid : Z) (b : byte) (t : Z) : pop_event := StartAuth sid keys t (Some t) gen (framed [b]).
Definition finish (sid t now : Z) : pop_event := FinishAuth sid (Some now) (framed (answer t)).
Definition who : RenewalIdentity := mkIdentity host (lit "i") 160.
Definition start_renewal (sid t check : Z) : pop_event := StartRenew sid (Some t) gen who check.
Definition finish_renewal (sid t now : Z) (b : byte) : pop_event :=
  FinishRenew sid keys now (Some now) (framed (b :: answer t)).
End PopSample.

Import PopSample.

Lemma pop_nonce_single_use_witness : 1001 < 1600 <= 2002.
Proof.
  destruct (pop_nonce_single_use auth [start 1 Byte.x01 1000] (finish 1 1000 1001)
    [start 2 Byte.x02 2000] (finish 2 2000 2002) a_nonce 1600 2600 0) as (v1&v2&H1&H2&H).
  - vm_compute. repeat split; congruence.
  - vm_compute. reflexivity.
  - vm_compute. reflexivity.
  - cbn in H1, H2. injection H1 as <-. injection H2 as <-. exact H.
Defined.

Definition sample_registration : AuthenticatedRegistration :=
  mkRegistration host (mkVerified (lit "i") host 1600 (160 : Key)).

Lemma pop_admission_sound_witness :
  exists sid t now, finish 1 1000 1001 = FinishAuth sid (Some now) (framed (answer 1000)) /\
    Z.abs (t - now) <= POP_SKEW.
Proof.
  destruct (pop_admission_sound auth [start 1 Byte.x01 1000] (finish 1 1000 1001) sample_registration)
    as (evs1&evs2&sid&ks&tc&g&k&n&i&req&rest&t&ch&now&reply&resp&rest'&sig&_&He&_&_&_&_&_&_&_&_&_&_&_&Hf&_); [reflexivity|].
  injection He as -> -> _. by exists sid, t, now.
Defined.

Lemma pop_renewal_sound_witness : exists check now, now < check < 2600.
Proof.
  destruct (pop_renewal_sound auth [start_renewal 1 2000 2100] (finish_renewal 1 2000 2001 Byte.x02) 2600)
    as (sid&g&w&check&t&n&ks&tc&now&reply&tok&sig&_&_&_&_&_&H); [reflexivity|].
  by exists check, now.
Defined.

Lemma pop_exchange_completes_witness :
  let w1 := fst (pop_step auth world_new (start 1 Byte.x01 1000)) in
  let w2 := fst (pop_run auth w1 [start 2 Byte.x01 1001; DropSession 2]) in
  snd (pop_step auth w2 (finish 1 1000 1002)) = GrantsAdmission (Ok sample_registration).
Proof.
  intros w1 w2. subst w2.
  eapply (pop_exchange_completes auth world_new 1 keys 1000 (Some 1000) gen (framed [Byte.x01]) w1
    (framed [Byte.x09]) [start 2 Byte.x01 1001; DropSession 2] host (aclaims sample_registration) 1000
    (mkLease a_nonce true) 1002 (framed (answer 1000)) (mkResponse (enc (answer 1000))) [] (be_val (answer 1000))).
  - reflexivity.
  - reflexivity.
  - intros k s. cbn. by rewrite lookup_empty.
  - apply Forall_cons; [|apply Forall_cons; [|apply Forall_nil]]; (split; [done|]); intros c Hc; cbn in Hc; [injection Hc as <-; cbn; lia|done].
  - reflexivity.
  - reflexivity.
  - reflexivity.
  - cbn. unfold POP_SKEW. lia.
  - lia.
  - cbn. lia.
  - reflexivity.
Defined.
