(* ===== verification/Jwks.v ===== *)
(** * The issuer-key service ([crates/spl-bridge/src/pop_auth.rs])

    The task that answers [key_for_kid] for every token verification: a small
    key cache, one fetch of the key document at a time with a cooldown, and the
    requests waiting on it; and the parts of a fetch that are this crate's own:
    the URL, the HTTP response and the document.  TCP and TLS appear as the
    bytes they deliver.  Instants are nanoseconds of the monotonic clock. *)

From S2P Require Import Prelude Text Http Pop.

Definition seconds (n : Z) : Z := n * 1000000000.
Definition JWKS_CACHE_TTL : Z := seconds 300.
Definition JWKS_CACHE_LIMIT : Z := 64.
Definition MAX_JWKS_RESPONSE_BYTES : Z := 1024 * 1024.
Definition FETCH_COOLDOWN : Z := seconds 5.

(** ** URL *)

Record JwksOrigin := mkOrigin { ohost : str; oport : Z; authority : str; path_and_query : str }.

Definition parse_port (port : str) : res PopError Z :=
  port ← ok_or (parse_uint 10 16 port) JwksUrl;
  if port =? 0 then Err JwksUrl else Ok port.

Definition parse_authority (a : str) : res PopError (str * Z) :=
  match strip_prefix [91] a with
  | Some rest =>
      match split_once 93 rest with
      | None => Err JwksUrl
      | Some (host, after) =>
          match strip_prefix [58] after with
          | Some port => (fun p => (host, p)) <$> parse_port port
          | None => if bool_decide (after = []) then Ok (host, 443) else Err JwksUrl
          end
      end
  | None =>
      match rsplit_once 58 a with
      | Some (host, port) =>
          if negb (existsb (fun c => c =? 58) host) && negb (bool_decide (host = []))
          then (fun p => (host, p)) <$> parse_port port else Err JwksUrl
      | None => if bool_decide (a = []) then Err JwksUrl else Ok (a, 443)
      end
  end.

Definition parse_jwks_url (url : str) : res PopError JwksOrigin :=
  match strip_prefix (lit "https://") url with
  | None => Err JwksUrl
  | Some rest =>
      let '(a, p) := match split_at_first (fun c => c =? 47) rest with
                     | (a, []) => (a, lit "/")
                     | (a, p) => (a, p)
                     end in
      if bool_decide (a = []) || existsb (fun c => c =? 35) p then Err JwksUrl
      else '(host, port) ← parse_authority a; Ok (mkOrigin host port a p)
  end.

(** ** Response *)

Definition head_line_step (acc : res PopError (option Z)) (line : str) : res PopError (option Z) :=
  content_length ← acc;
  match split_once 58 line with
  | None => Ok content_length
  | Some (name, value) =>
      if eq_ignore_ascii_case name (lit "content-length") then
        match content_length with
        | Some _ => Err JwksUnavailable
        | None => Some <$> ok_or (parse_uint 10 64 (trim value)) JwksUnavailable
        end
      else Ok content_length
  end.
Definition parse_http_head (head : list byte) : res PopError Z :=
  head ← ok_or (from_utf8 head) JwksUnavailable;
  match split_crlf head with
  | [] => Err JwksUnavailable
  | status :: lines =>
      if negb (starts_with (lit "HTTP/1.1 200 ") status) && negb (starts_with (lit "HTTP/1.0 200 ") status)
      then Err JwksUnavailable
      else
        content_length ← foldl head_line_step (Ok None) lines;
        ok_or content_length JwksUnavailable
  end.

(** One turn of [read_http_response] after a read: [None] reads on. *)
Definition response_turn (response : list byte) : option (res PopError (list byte)) :=
  if len response >? MAX_JWKS_RESPONSE_BYTES then Some (Err JwksUnavailable)
  else
    match find_subsequence response bCRLF2 with
    | None => None
    | Some i =>
        let body_start := i + 4 in
        match parse_http_head (ztake body_start response) with
        | Ok content_length =>
            match checked_add 64 body_start content_length with
            | None => Some (Err JwksUnavailable)
            | Some body_end =>
                if (body_end >? MAX_JWKS_RESPONSE_BYTES) || (len response >? body_end)
                then Some (Err JwksUnavailable)
                else if len response =? body_end then Some (Ok (zdrop body_start response))
                else None
            end
        | Err e => Some (Err e)
        | Panic => Some Panic
        end
    end.

(** [read_http_response] on the results of its reads: [None] is a failed read,
    an empty one the end of the stream.  The answer is [None] while it waits. *)
Fixpoint read_http_response (response : list byte) (reads : list (option (list byte)))
  : option (res PopError (list byte)) :=
  match reads with
  | [] => None
  | None :: _ | Some [] :: _ => Some (Err JwksUnavailable)
  | Some bytes :: reads =>
      let response := response ++ bytes in
      match response_turn response with
      | Some r => Some r
      | None => read_http_response response reads
      end
  end.

(** ** Document and cache *)

(** The iteration order of a hash map is some order of its entries. *)
Class HashOrder := {
  hash_iter : forall {A}, gmap str A -> list (str * A);
  hash_iter_perm : forall A (m : gmap str A), hash_iter m ≡ₚ map_to_list m
}.

Record Jwk := mkJwk { jkid : str; jkty : str; jcrv : str; jwx : str; jalg : option str }.

Section Service.
Context {P : PopPrimitives} {H : HashOrder}.

(** The loop of [fetch_jwks_over_tls] over the document's keys. *)
Definition document_step (acc : res PopError (gmap str Key)) (j : Jwk) : res PopError (gmap str Key) :=
  keys ← acc;
  if negb (bool_decide (jkty j = lit "OKP")) || negb (bool_decide (jcrv j = lit "Ed25519"))
     || negb (bool_decide (jalg j = Some (lit "EdDSA"))) || bool_decide (jkid j = [])
  then Ok keys
  else
    bytes ← ok_or (base64_decode (jwx j)) JwksUnavailable;
    if negb (len bytes =? 32) then Err JwksUnavailable
    else key ← ok_or (key_from_bytes bytes) JwksUnavailable; Ok (<[jkid j := key]> keys).
Definition document_keys (document : list Jwk) : res PopError (gmap str Key) :=
  foldl document_step (Ok ∅) document.

Record CachedJwk := mkCached { ckey : Key; cexpires_at : Z }.
Abbreviation jwks_cache := (gmap str CachedJwk).

Definition prune_jwks_cache (c : jwks_cache) (now : Z) : jwks_cache :=
  filter (fun e => now < cexpires_at (snd e)) c.

(** [Iterator::min_by_key]: the first of the least. *)
Definition min_step (best : option (str * CachedJwk)) (e : str * CachedJwk) : option (str * CachedJwk) :=
  match best with
  | Some b => if cexpires_at (snd e) <? cexpires_at (snd b) then Some e else best
  | None => Some e
  end.
Definition min_by_key (l : list (str * CachedJwk)) : option (str * CachedJwk) := foldl min_step None l.

Definition insert_key (expires_at : Z) (c : jwks_cache) (k : str * Key) : jwks_cache :=
  let c := if negb (bool_decide (is_Some (c !! fst k))) && (Z.of_nat (size c) >=? JWKS_CACHE_LIMIT)
           then match min_by_key (hash_iter c) with
                | Some (evicted, _) => delete evicted c
                | None => c
                end
           else c in
  <[fst k := mkCached (snd k) expires_at]> c.
Definition insert_jwks_keys (c : jwks_cache) (keys : gmap str Key) (expires_at : Z) : jwks_cache :=
  foldl (insert_key expires_at) c (hash_iter keys).

(** ** [run_jwks_aggregator] *)

(** A request is the key id and the reply channel. *)
Record Aggregator := mkAgg {
  jcache : jwks_cache;
  in_flight : option (list (str * Z));
  last_fetch_begin : option Z;
  requests_closed : bool
}.
Definition agg_new : Aggregator := mkAgg ∅ None None false.

Inductive agg_event :=
| Request (wkid : str) (reply now : Z)
| RequestsClosed
| FetchDone (r : res PopError (gmap str Key)) (now : Z).

Inductive agg_effect :=
| Reply (reply : Z) (wkid : str) (r : res PopError Key)
| SpawnFetch (now : Z).

Definition cooling (a : Aggregator) (now : Z) : bool :=
  match last_fetch_begin a with
  | Some started => (started <=? now) && (now - started <? FETCH_COOLDOWN)
  | None => false
  end.

(** One turn of the [select!]; a branch whose guard is off does not run. *)
Definition agg_step (a : Aggregator) (e : agg_event) : Aggregator * list agg_effect :=
  match e with
  | Request k reply now =>
      if requests_closed a then (a, [])
      else
        let c := prune_jwks_cache (jcache a) now in
        match c !! k with
        | Some entry => (mkAgg c (in_flight a) (last_fetch_begin a) false, [Reply reply k (Ok (ckey entry))])
        | None =>
            match in_flight a with
            | Some waiters => (mkAgg c (Some (waiters ++ [(k, reply)])) (last_fetch_begin a) false, [])
            | None =>
                if cooling a now
                then (mkAgg c None (last_fetch_begin a) false, [Reply reply k (Err JwksKeyUnavailable)])
                else (mkAgg c (Some [(k, reply)]) (Some now) false, [SpawnFetch now])
            end
        end
  | RequestsClosed => (mkAgg (jcache a) (in_flight a) (last_fetch_begin a) true, [])
  | FetchDone r now =>
      match in_flight a with
      | None => (a, [])
      | Some waiters =>
          match r with
          | Ok keys =>
              let c := insert_jwks_keys (prune_jwks_cache (jcache a) now) keys (now + JWKS_CACHE_TTL) in
              (mkAgg c None (last_fetch_begin a) (requests_closed a),
               (fun w => Reply (snd w) (fst w) (ok_or (ckey <$> c !! fst w) JwksKeyUnavailable)) <$> waiters)
          | _ =>
              (mkAgg (jcache a) None (last_fetch_begin a) (requests_closed a),
               (fun w => Reply (snd w) (fst w) (Err JwksUnavailable)) <$> waiters)
          end
      end
  end.

Fixpoint agg_run (a : Aggregator) (evs : list agg_event) : Aggregator * list agg_effect :=
  match evs with
  | [] => (a, [])
  | e :: evs =>
      let '(a, es) := agg_step a e in
      let '(a, fs) := agg_run a evs in (a, es ++ fs)
  end.
(** ** The cache *)

Lemma min_by_key_fold l : forall b,
  exists e, foldl min_step (Some b) l = Some e /\ (e = b \/ e ∈ l) /\
            cexpires_at (snd e) <= cexpires_at (snd b) /\
            Forall (fun x => cexpires_at (snd e) <= cexpires_at (snd x)) l.
Proof.
  induction l as [|x l IH]; intros b; cbn [foldl min_step].
  - exists b. split; [done|]. split; [by left|]. split; [lia|by apply Forall_nil].
  - destruct (cexpires_at (snd x) <? cexpires_at (snd b)) eqn:Hlt.
    + destruct (IH x) as (e&->&He&Hx&Hl). exists e. split; [done|]. split; [right; apply elem_of_cons, He|].
      split; [lia|]. by apply Forall_cons.
    + destruct (IH b) as (e&->&He&Hx&Hl). exists e. split; [done|]. split; [destruct He; [by left|right; by right]|].
      split; [lia|]. apply Forall_cons; [lia|done].
Qed.

Lemma min_by_key_spec l :
  match min_by_key l with
  | Some e => e ∈ l /\ Forall (fun x => cexpires_at (snd e) <= cexpires_at (snd x)) l
  | None => l = []
  end.
Proof.
  destruct l as [|x l]; [done|]. unfold min_by_key. cbn [foldl min_step].
  destruct (min_by_key_fold l x) as (e&->&He&Hx&Hl). split; [by apply elem_of_cons|]. by apply Forall_cons.
Qed.

(** The entry [insert_key] makes room by dropping: the oldest, of a full cache. *)
Lemma evicted_spec (c : jwks_cache) :
  match min_by_key (hash_iter c) with
  | Some (k, e) => c !! k = Some e /\ map_Forall (fun _ x => cexpires_at e <= cexpires_at x) c
  | None => c = ∅
  end.
Proof.
  pose proof (min_by_key_spec (hash_iter c)) as Hm. destruct (min_by_key (hash_iter c)) as [[k e]|].
  - destruct Hm as [He Hall]. rewrite hash_iter_perm in He, Hall. split; [by apply elem_of_map_to_list|].
    intros k' x Hx. apply elem_of_map_to_list in Hx. by apply (proj1 (list.Forall_forall _ _) Hall (k', x)).
  - apply map_to_list_empty_iff. apply Permutation_nil_r. by rewrite <- hash_iter_perm, Hm.
Qed.

Lemma insert_key_size x c k : Z.of_nat (size c) <= JWKS_CACHE_LIMIT -> Z.of_nat (size (insert_key x c k)) <= JWKS_CACHE_LIMIT.
Proof.
  intros Hc. unfold insert_key. destruct (c !! fst k) as [old|] eqn:Hk.
  - rewrite bool_decide_true by done. cbn [negb andb]. by rewrite map_size_insert_Some.
  - rewrite bool_decide_false by by intros []. cbn [negb andb].
    destruct (Z.of_nat (size c) >=? JWKS_CACHE_LIMIT) eqn:Hl.
    + pose proof (evicted_spec c) as Hm. destruct (min_by_key (hash_iter c)) as [[k0 e0]|].
      * destruct Hm as [Hk0 _].
        rewrite map_size_insert_None by by rewrite lookup_delete_None; auto.
        rewrite map_size_delete_Some by done.
        assert (size c <> 0)%nat by (rewrite map_size_non_empty_iff; intros ->; by rewrite lookup_empty in Hk0). lia.
      * subst. rewrite map_size_empty in Hl. done.
    + rewrite map_size_insert_None by done. lia.
Qed.

Lemma insert_key_lookup x c k k' e :
  insert_key x c k !! k' = Some e ->
  (k' = fst k /\ e = mkCached (snd k) x) \/ (k' <> fst k /\ c !! k' = Some e).
Proof.
  unfold insert_key. rewrite lookup_insert_Some. intros [[-> <-]|[Hne He]]; [by left|right].
  split; [done|]. destruct (_ && _); [|done].
  destruct (min_by_key _) as [[]|]; [|done]. by apply lookup_delete_Some in He as [_ He].
Qed.

Lemma insert_keys_size x ks : forall c,
  Z.of_nat (size c) <= JWKS_CACHE_LIMIT -> Z.of_nat (size (foldl (insert_key x) c ks)) <= JWKS_CACHE_LIMIT.
Proof. induction ks as [|k ks IH]; intros c Hc; cbn; [done|]. by apply IH, insert_key_size. Qed.

Lemma insert_keys_lookup x ks : forall c k' e,
  foldl (insert_key x) c ks !! k' = Some e ->
  (exists key, (k', key) ∈ ks /\ e = mkCached key x) \/ c !! k' = Some e.
Proof.
  induction ks as [|k ks IH]; intros c k' e; cbn; [by right|].
  intros [(key&Hin&->)|[[-> ->]|[_ Hc]]%insert_key_lookup]%IH; [left|left|by right].
  - exists key. split; [by right|done].
  - exists (snd k). split; [|done]. destruct k. by left.
Qed.

Lemma insert_jwks_keys_lookup c keys x k e :
  insert_jwks_keys c keys x !! k = Some e ->
  (exists key, keys !! k = Some key /\ e = mkCached key x) \/ c !! k = Some e.
Proof.
  intros [(key&Hin&->)|?]%insert_keys_lookup; [left|by right].
  exists key. split; [|done]. rewrite hash_iter_perm in Hin. by apply elem_of_map_to_list.
Qed.

(** A document that fits is taken in whole, when everything cached is older. *)
Lemma insert_keys_all x ks : forall c (taken : gmap str Key),
  NoDup (fst <$> ks) -> Forall (fun k => taken !! fst k = None) ks ->
  Z.of_nat (size taken + length ks) <= JWKS_CACHE_LIMIT ->
  (forall k key, taken !! k = Some key -> c !! k = Some (mkCached key x)) ->
  (forall k e, c !! k = Some e -> taken !! k = None -> cexpires_at e < x) ->
  forall k key, taken !! k = Some key \/ (k, key) ∈ ks ->
  foldl (insert_key x) c ks !! k = Some (mkCached key x).
Proof.
  induction ks as [|[k0 key0] ks IH]; intros c taken Hnd Hnew Hsz Hin Hold k key Hk; cbn [foldl].
  { destruct Hk as [Hk|Hk]; [by apply Hin|by inversion Hk]. }
  cbn in Hnd. apply list.NoDup_cons in Hnd as [Hk0 Hnd]. apply Forall_cons_1 in Hnew as [Hn0 Hnew]. cbn in Hn0.
  apply (IH _ (<[k0 := key0]> taken)); [done| | | | |].
  - apply list.Forall_forall. intros [k1 key1] H1. cbn. rewrite lookup_insert_ne.
    + by apply (proj1 (list.Forall_forall _ _) Hnew _ H1).
    + intros ->. apply Hk0, list_elem_of_fmap. by exists (k1, key1).
  - rewrite map_size_insert_None by done. cbn [length] in Hsz. lia.
  - intros k1 key1. rewrite lookup_insert_Some. intros [[<- <-]|[Hne H1]].
    + unfold insert_key. cbn. by rewrite lookup_insert_eq.
    + unfold insert_key. cbn [fst snd]. rewrite lookup_insert_ne by done.
      destruct (_ && _) eqn:Hfull; [|by apply Hin].
      pose proof (evicted_spec c) as Hm. destruct (min_by_key (hash_iter c)) as [[k2 e2]|]; [|by apply Hin].
      destruct Hm as [H2 Hmin]. rewrite lookup_delete_ne; [by apply Hin|]. intros ->.
      (* the evicted entry is not one just taken in *)
      apply Hin in H1 as H1'. rewrite H1' in H2. injection H2 as <-.
      assert (Hall : forall k3 e3, c !! k3 = Some e3 -> is_Some (taken !! k3)).
      { intros k3 e3 H3. destruct (taken !! k3) eqn:H4; [done|].
        specialize (Hold _ _ H3 H4). specialize (Hmin _ _ H3). cbn in Hmin. lia. }
      assert (size c <= size taken)%nat.
      { rewrite <- !size_dom. apply subseteq_size. intros k3 [e3 H3]%elem_of_dom. apply elem_of_dom. by eapply Hall. }
      cbn [length] in Hsz. lia.
  - intros k1 e1 H1 H2. apply lookup_insert_None in H2 as [H2 Hne].
    apply insert_key_lookup in H1 as [[-> _]|[_ H1]]; [done|]. by eapply Hold.
  - destruct Hk as [Hk|Hk]; [left; rewrite lookup_insert_ne; [done|congruence]|].
    apply elem_of_cons in Hk as [Hk|Hk]; [left|by right]. injection Hk as -> ->. by rewrite lookup_insert_eq.
Qed.
(** ** Runs of the service *)

(** The requests taken in, those answered, and those still waiting. *)
Fixpoint requests (closed : bool) (evs : list agg_event) : list (str * Z) :=
  match evs with
  | [] => []
  | Request k r _ :: evs => (if closed then [] else [(k, r)]) ++ requests closed evs
  | RequestsClosed :: evs => requests true evs
  | FetchDone _ _ :: evs => requests closed evs
  end.
Definition answered : list agg_effect -> list (str * Z) :=
  omap (fun e => match e with Reply r k _ => Some (k, r) | SpawnFetch _ => None end).
Definition waiting (a : Aggregator) : list (str * Z) := default [] (in_flight a).

(** Fetches start a cooldown apart. *)
Fixpoint spaced (last : option Z) (es : list agg_effect) : Prop :=
  match es with
  | [] => True
  | SpawnFetch t :: es =>
      match last with Some s => s + FETCH_COOLDOWN <= t | None => True end /\ spaced (Some t) es
  | Reply _ _ _ :: es => spaced last es
  end.

Definition agg_time (e : agg_event) : option Z :=
  match e with Request _ _ t | FetchDone _ t => Some t | RequestsClosed => None end.
Fixpoint agg_ordered (T : Z) (evs : list agg_event) : Prop :=
  match evs with
  | [] => True
  | e :: evs => match agg_time e with
                | Some t => T <= t /\ agg_ordered t evs
                | None => agg_ordered T evs
                end
  end.

Lemma answered_replies (f : str * Z -> res PopError Key) ws :
  answered ((fun w => Reply (snd w) (fst w) (f w)) <$> ws) = ws.
Proof. induction ws as [|[k r] ws IH]; [done|]. cbn. by rewrite IH. Qed.

Lemma spaced_replies (f : str * Z -> res PopError Key) last ws es :
  spaced last (((fun w => Reply (snd w) (fst w) (f w)) <$> ws) ++ es) = spaced last es.
Proof. induction ws as [|w ws IH]; [done|]. done. Qed.

Lemma agg_step_counts a e :
  requests (requests_closed a) [e] ++ waiting a ≡ₚ
  answered (snd (agg_step a e)) ++ waiting (fst (agg_step a e)).
Proof.
  destruct e as [k r now| |res now]; cbn [agg_step requests]; [|done|].
  - unfold waiting. destruct (requests_closed a); [done|]. destruct (_ !! k); [done|].
    destruct (in_flight a) as [ws|]; cbn; [by rewrite Permutation_app_comm|]. by destruct (cooling a now).
  - unfold waiting. destruct (in_flight a) as [ws|] eqn:Hf; [|by cbn; rewrite Hf].
    destruct res; cbn [fst snd in_flight default]; rewrite ?answered_replies, ?app_nil_r; done.
Qed.

Lemma requests_cons a e evs :
  requests (requests_closed a) (e :: evs)
  = requests (requests_closed a) [e] ++ requests (requests_closed (fst (agg_step a e))) evs.
Proof.
  destruct e as [k r now| |res now]; cbn [requests]; rewrite ?app_nil_r; [|done|].
  - f_equal. cbn [agg_step]. destruct (requests_closed a) eqn:Hc; [by cbn; rewrite Hc|].
    destruct (_ !! k); [done|]. destruct (in_flight a); [done|]. by destruct (cooling a now).
  - cbn [agg_step]. destruct (in_flight a); [|done]. by destruct res.
Qed.

Lemma perm_chain {T} (r1 r2 w a1 w1 a2 w2 : list T) :
  r1 ++ w ≡ₚ a1 ++ w1 -> r2 ++ w1 ≡ₚ a2 ++ w2 -> (r1 ++ r2) ++ w ≡ₚ (a1 ++ a2) ++ w2.
Proof.
  intros H1 H2. transitivity (r2 ++ (r1 ++ w)).
  { by rewrite (assoc_L (++)), (Permutation_app_comm r1 r2). }
  by rewrite H1, (assoc_L (++)), (Permutation_app_comm r2 a1), <- !(assoc_L (++)), H2.
Qed.

Lemma agg_run_counts evs : forall a,
  requests (requests_closed a) evs ++ waiting a ≡ₚ
  answered (snd (agg_run a evs)) ++ waiting (fst (agg_run a evs)).
Proof.
  induction evs as [|e evs IH]; intros a; [done|]. rewrite requests_cons. cbn [agg_run].
  pose proof (agg_step_counts a e) as Hs. destruct (agg_step a e) as [a1 es].
  specialize (IH a1). destruct (agg_run a1 evs) as [a2 fs]. cbn [fst snd] in *.
  unfold answered in *. rewrite omap_app. by eapply perm_chain.
Qed.

Lemma agg_run_spaced evs : forall a T,
  agg_ordered T evs -> (forall t, last_fetch_begin a = Some t -> t <= T) ->
  spaced (last_fetch_begin a) (snd (agg_run a evs)).
Proof.
  induction evs as [|e evs IH]; intros a T Ho Hl; [done|]. cbn [agg_run agg_ordered] in *.
  assert (Hs : forall a1 es, agg_step a e = (a1, es) ->
    spaced (last_fetch_begin a) (es ++ snd (agg_run a1 evs))).
  { intros a1 es Hs. destruct e as [k r now| |res now]; cbn [agg_step agg_time] in *.
    - destruct Ho as [HT Ho].
      assert (Hl' : forall t, last_fetch_begin a = Some t -> t <= now) by (intros t Ht; apply Hl in Ht; lia).
      destruct (requests_closed a); [simplify_eq; by eapply IH|].
      destruct (_ !! k); [simplify_eq; cbn; by eapply (IH (mkAgg _ _ _ _))|].
      destruct (in_flight a); [simplify_eq; cbn; by eapply (IH (mkAgg _ _ _ _))|].
      destruct (cooling a now) eqn:Hc; simplify_eq; cbn.
      + by eapply (IH (mkAgg _ _ _ _)).
      + split; [|eapply (IH (mkAgg _ _ _ _)); [done|]; cbn; intros; simplify_eq; lia].
        unfold cooling in Hc. destruct (last_fetch_begin a) as [t|]; [|done]. specialize (Hl' _ eq_refl). lia.
    - simplify_eq. by eapply (IH (mkAgg _ _ _ _)).
    - destruct Ho as [HT Ho].
      assert (Hl' : forall t, last_fetch_begin a = Some t -> t <= now) by (intros t Ht; apply Hl in Ht; lia).
      destruct (in_flight a); [|simplify_eq; by eapply IH].
      destruct res; simplify_eq; rewrite spaced_replies; by eapply (IH (mkAgg _ _ _ _)). }
  destruct (agg_step a e) as [a1 es]. specialize (Hs _ _ eq_refl). by destruct (agg_run a1 evs).
Qed.

(** Where the cached keys come from. *)
Definition from_fetch (evs : list agg_event) (k : str) (e : CachedJwk) : Prop :=
  exists keys t0, FetchDone (Ok keys) t0 ∈ evs /\ keys !! k = Some (ckey e) /\
    cexpires_at e = t0 + JWKS_CACHE_TTL.

Lemma agg_step_cache a e k c :
  jcache (fst (agg_step a e)) !! k = Some c -> jcache a !! k = Some c \/ from_fetch [e] k c.
Proof.
  assert (Hp : forall now, prune_jwks_cache (jcache a) now !! k = Some c -> jcache a !! k = Some c)
    by (intros now [? _]%map_lookup_filter_Some; done).
  destruct e as [k' r now| |res now]; cbn [agg_step]; [|by left|].
  - destruct (requests_closed a); [by left|]. destruct (_ !! k'); [intros Hc; left; exact (Hp _ Hc)|].
    destruct (in_flight a); [intros Hc; left; exact (Hp _ Hc)|]. destruct (cooling a now); intros Hc; left; exact (Hp _ Hc).
  - destruct (in_flight a); [|by left]. destruct res as [keys| |]; [|by left..]. cbn.
    intros [(key&Hk&->)|Hc]%insert_jwks_keys_lookup; [right|left; by eapply Hp].
    exists keys, now. split; [by apply list_elem_of_singleton|done].
Qed.

Lemma agg_run_snoc evs e : forall a,
  fst (agg_run a (evs ++ [e])) = fst (agg_step (fst (agg_run a evs)) e).
Proof.
  induction evs as [|d evs IH]; intros a; cbn [app agg_run].
  - cbn. by destruct (agg_step a e).
  - destruct (agg_step a d) as [a1 es]. specialize (IH a1).
    by destruct (agg_run a1 (evs ++ [e])), (agg_run a1 evs).
Qed.

Lemma agg_run_cache evs k c :
  jcache (fst (agg_run agg_new evs)) !! k = Some c -> from_fetch evs k c.
Proof.
  revert k c. induction evs as [|e evs IH] using rev_ind; intros k c; [by cbn; rewrite lookup_empty|].
  rewrite agg_run_snoc. intros [H1%IH|H1]%agg_step_cache; destruct H1 as (keys&t0&Hin&H1);
    exists keys, t0; (split; [|done]); apply elem_of_app; auto.
Qed.

Lemma agg_run_size evs : forall a,
  Z.of_nat (size (jcache a)) <= JWKS_CACHE_LIMIT ->
  Z.of_nat (size (jcache (fst (agg_run a evs)))) <= JWKS_CACHE_LIMIT.
Proof.
  induction evs as [|e evs IH]; intros a Ha; [done|]. cbn [agg_run].
  assert (Hp : forall now, Z.of_nat (size (prune_jwks_cache (jcache a) now)) <= JWKS_CACHE_LIMIT).
  { intros now. etransitivity; [|exact Ha]. apply inj_le, map_subseteq_size, map_filter_subseteq. }
  assert (Hs : Z.of_nat (size (jcache (fst (agg_step a e)))) <= JWKS_CACHE_LIMIT).
  { destruct e as [k' r now| |res now]; cbn [agg_step]; [|done|].
    - destruct (requests_closed a); [done|]. destruct (_ !! k'); [apply Hp|].
      destruct (in_flight a); [apply Hp|]. destruct (cooling a now); apply Hp.
    - destruct (in_flight a); [|done]. destruct res; [|done..]. by apply insert_keys_size. }
  destruct (agg_step a e) as [a1 es]. specialize (IH a1 Hs). by destruct (agg_run a1 evs).
Qed.

Lemma agg_ordered_le evs e0 e t0 t rest : forall T,
  agg_ordered T (evs ++ e :: rest) -> e0 ∈ evs -> agg_time e0 = Some t0 -> agg_time e = Some t -> t0 <= t.
Proof.
  assert (Hle : forall T evs, agg_ordered T (evs ++ e :: rest) -> agg_time e = Some t -> T <= t).
  { intros T l. revert T. induction l as [|d l IH]; intros T; cbn.
    - intros Ho Ht. rewrite Ht in Ho. by destruct Ho.
    - destruct (agg_time d) as [s|]; [|by apply IH]. intros [H1 H2] Ht. specialize (IH _ H2 Ht). lia. }
  induction evs as [|d evs IH]; intros T Ho Hin H0 Ht; [by inversion Hin|]. cbn in Ho.
  apply elem_of_cons in Hin as [->|Hin].
  - rewrite H0 in Ho. destruct Ho as [_ Ho]. by eapply Hle.
  - destruct (agg_time d); [destruct Ho as [_ Ho]|]; by eapply IH.
Qed.
(** ** Theorems *)

(** Every key request is answered exactly once, and the issuer is not
    hammered: for any run with a clock that does not go back, the requests taken
    in are those answered and those waiting for the fetch in flight (none when
    there is no fetch), fetches begin at least five seconds apart, and the cache
    holds at most 64 keys. *)
Theorem jwks_answers_once T evs :
  agg_ordered T evs ->
  let '(a, es) := agg_run agg_new evs in
  requests false evs ≡ₚ answered es ++ waiting a /\
  spaced None es /\ Z.of_nat (size (jcache a)) <= JWKS_CACHE_LIMIT.
Proof.
  intros Ho. pose proof (agg_run_counts evs agg_new) as Hc. cbn in Hc. rewrite app_nil_r in Hc.
  pose proof (agg_run_spaced evs agg_new T Ho) as Hs.
  pose proof (agg_run_size evs agg_new) as Hz.
  destruct (agg_run agg_new evs) as [a es]. split; [done|]. split; [by apply Hs|]. by apply Hz.
Qed.

(** A key is only handed out while it is fresh: an answer with a key means
    that some fetch whose document had that key under that id completed at most
    five minutes before the answer. *)
Theorem jwks_answers_fresh T evs e k reply key :
  agg_ordered T (evs ++ [e]) ->
  Reply reply k (Ok key) ∈ snd (agg_step (fst (agg_run agg_new evs)) e) ->
  exists keys t0 now, FetchDone (Ok keys) t0 ∈ evs ++ [e] /\ keys !! k = Some key /\
    agg_time e = Some now /\ t0 <= now < t0 + JWKS_CACHE_TTL.
Proof.
  intros Ho Hin. set (a := fst (agg_run agg_new evs)) in *.
  assert (Hold : forall c now, prune_jwks_cache (jcache a) now !! k = Some c -> agg_time e = Some now ->
    exists keys t0 now', FetchDone (Ok keys) t0 ∈ evs ++ [e] /\ keys !! k = Some (ckey c) /\
      agg_time e = Some now' /\ t0 <= now' < t0 + JWKS_CACHE_TTL).
  { intros c now [Hc Hn]%map_lookup_filter_Some Ht. cbn in Hn.
    apply agg_run_cache in Hc as (keys&t0&Hin0&Hk&Hx). exists keys, t0, now.
    split; [apply elem_of_app; by left|]. split; [done|]. split; [done|].
    assert (t0 <= now) by (eapply agg_ordered_le; eauto; done). lia. }
  destruct e as [k' r now| |res now]; cbn [agg_step agg_time] in *; [|by inversion Hin|].
  - destruct (requests_closed a); [by inversion Hin|].
    destruct (prune_jwks_cache (jcache a) now !! k') as [c|] eqn:Hc.
    + apply list_elem_of_singleton in Hin. injection Hin as -> -> ->. by eapply Hold.
    + destruct (in_flight a); [by inversion Hin|].
      destruct (cooling a now); apply list_elem_of_singleton in Hin; done.
  - destruct (in_flight a) as [ws|]; [|by inversion Hin].
    destruct res as [keys| |].
    2,3: apply list_elem_of_fmap in Hin as (w&Hw&_); done.
    cbn in Hin. apply list_elem_of_fmap in Hin as (w&Hw&_). injection Hw as -> -> Hkey.
    destruct (insert_jwks_keys _ keys _ !! fst w) as [c|] eqn:Hc; [|done]. injection Hkey as ->.
    apply insert_jwks_keys_lookup in Hc as [(key'&Hk&->)|Hc]; [|by eapply Hold].
    exists keys, now, now. split; [apply elem_of_app; right; by left|]. split; [done|]. split; [done|].
    unfold JWKS_CACHE_TTL, seconds. lia.
Qed.

(** Whoever waits for a key gets it: when a fetch completes later than every
    earlier one, with a document of at most 64 keys, each waiting request for a
    key of the document is answered with that key, whatever was cached and in
    whatever order the tables are walked. *)
Theorem jwks_waiters_served evs keys now k reply key :
  Z.of_nat (size keys) <= JWKS_CACHE_LIMIT ->
  (forall r t, FetchDone r t ∈ evs -> t < now) ->
  (k, reply) ∈ waiting (fst (agg_run agg_new evs)) -> keys !! k = Some key ->
  Reply reply k (Ok key) ∈ snd (agg_step (fst (agg_run agg_new evs)) (FetchDone (Ok keys) now)).
Proof.
  intros Hsz Hev Hw Hk. set (a := fst (agg_run agg_new evs)) in *. unfold waiting in Hw. cbn [agg_step].
  destruct (in_flight a) as [ws|]; [|by inversion Hw]. cbn [snd].
  apply list_elem_of_fmap. exists (k, reply). split; [|done]. cbn [fst snd].
  enough (insert_jwks_keys (prune_jwks_cache (jcache a) now) keys (now + JWKS_CACHE_TTL) !! k
          = Some (mkCached key (now + JWKS_CACHE_TTL))) as -> by done.
  unfold insert_jwks_keys. apply (insert_keys_all _ _ _ ∅).
  - rewrite hash_iter_perm. apply NoDup_fst_map_to_list.
  - apply list.Forall_forall. intros. apply lookup_empty.
  - rewrite map_size_empty, (Permutation_length (hash_iter_perm _ keys)). by rewrite length_map_to_list.
  - intros k' key'. by rewrite lookup_empty.
  - intros k' c [Hc _]%map_lookup_filter_Some _. apply agg_run_cache in Hc as (ks&t0&Hin&_&->).
    apply Hev in Hin. lia.
  - right. rewrite hash_iter_perm. by apply elem_of_map_to_list.
Qed.
End Service.

(** ** The URL *)

Lemma jwks_url_roundtrip host port path :
  host <> [] -> Forall (fun c => c <> 47 /\ c <> 58 /\ c <> 91) host -> 0 < port < 2 ^ 16 ->
  Forall (fun c => c <> 35) path ->
  parse_jwks_url (lit "https://" ++ (host ++ [58] ++ to_string port) ++ 47 :: path)
  = Ok (mkOrigin host port (host ++ [58] ++ to_string port) (47 :: path)).
Proof.
  intros Hne Hh Hp Hpath. unfold parse_jwks_url. rewrite strip_prefix_app.
  assert (Hd : Forall (fun c => c <> 47 /\ c <> 58) (to_string port)).
  { eapply Forall_impl; [|apply to_string_digits; lia]. cbn. lia. }
  rewrite split_at_first_app; [|apply list.Forall_app; split; [|apply Forall_cons; [done|]]|done].
  2,3: eapply Forall_impl; [|eassumption]; cbn; lia.
  destruct host as [|h host]; [done|]. cbn [app bool_decide].
  rewrite bool_decide_false by done. cbn [orb existsb].
  replace (existsb (fun c => c =? 35) path) with false.
  2: { symmetry. apply not_true_iff_false. rewrite existsb_exists. intros (c&Hc&He).
       apply list_elem_of_In in Hc. apply (proj1 (list.Forall_forall _ _) Hpath) in Hc. lia. }
  cbn [orb]. unfold parse_authority. unfold strip_prefix. cbn [starts_with].
  apply Forall_cons_1 in Hh as Hh'. destruct Hh' as [(_&_&Hh0) _].
  rewrite bool_decide_false by lia. cbn [andb].
  change (h :: host ++ 58 :: to_string port) with ((h :: host) ++ 58 :: to_string port).
  rewrite rsplit_once_app by (eapply Forall_impl; [|exact Hd]; cbn; lia).
  replace (existsb (fun c => c =? 58) (h :: host)) with false.
  2: { symmetry. apply not_true_iff_false. rewrite existsb_exists. intros (c&Hc&He).
       apply list_elem_of_In in Hc. apply (proj1 (list.Forall_forall _ _) Hh) in Hc. lia. }
  rewrite bool_decide_false by done. cbn [negb andb]. unfold parse_port.
  rewrite parse_to_string_width by lia. cbn. by replace (port =? 0) with false by lia.
Qed.

(** ** Reading the response *)

Lemma response_turn_partial head body p :
  find_subsequence head bCRLF2 = Some (len head - 4) ->
  parse_http_head head = Ok (len body) -> len (head ++ body) <= MAX_JWKS_RESPONSE_BYTES ->
  p `prefix_of` head ++ body ->
  response_turn p = if len p =? len (head ++ body) then Some (Ok body) else None.
Proof.
  intros Hf Hh Hl [r Hr]. unfold response_turn.
  assert (Hlen : len p + len r = len head + len body) by (rewrite <- !Nat2Z.inj_add, <- !length_app; by rewrite Hr).
  rewrite length_app in Hl |- *.
  destruct (_ >? MAX_JWKS_RESPONSE_BYTES) eqn:Hm; [lia|].
  pose proof (find_subsequence_Some _ _ _ Hf) as (Hf0&Hf1&_).
  destruct (find_subsequence p bCRLF2) as [i|] eqn:Hi.
  - apply (find_subsequence_mono _ _ r) in Hi as Hi'. rewrite <- Hr in Hi'.
    apply (find_subsequence_mono _ _ body) in Hf. rewrite Hf in Hi'. injection Hi' as <-.
    apply find_subsequence_Some in Hi as (_&Hi&_). change (len bCRLF2) with 4 in *.
    replace (len head - 4 + 4) with (len head) by lia.
    assert (Hp : exists q, p = head ++ q).
    { exists (zdrop (len head) p). rewrite <- (take_drop (Z.to_nat (len head)) p) at 1. f_equal.
      apply (f_equal (take (length head))) in Hr. rewrite take_app_length, take_app_le in Hr by lia.
      by rewrite Nat2Z.id. }
    destruct Hp as [q ->]. rewrite length_app in Hlen, Hi |- *.
    rewrite Nat2Z.id, take_app_length, drop_app_length, Hh.
    unfold checked_add. destruct (_ <? 2 ^ 64) eqn:Hc; [|unfold MAX_JWKS_RESPONSE_BYTES in *; lia].
    destruct (_ || _) eqn:Ho; [lia|].
    rewrite <- (assoc_L (++)) in Hr. apply app_inv_head in Hr.
    destruct (_ =? _) eqn:He.
    + replace (_ =? _) with true by lia. assert (Hrn : r = []) by (apply length_zero_iff_nil; lia).
      subst r. rewrite app_nil_r in Hr. by subst.
    + by replace (_ =? _) with false by lia.
  - destruct (_ =? _) eqn:He; [|done].
    assert (Hrn : r = []) by (apply length_zero_iff_nil; lia). subst r. rewrite app_nil_r in Hr. subst p.
    apply (find_subsequence_mono _ _ body) in Hf. congruence.
Qed.

(** The key document is read however it arrives: a response whose head ends
    at its first empty line and announces the length of the body that follows,
    within a mebibyte, is returned as exactly that body for any cut into
    non-empty reads, and every proper beginning of it is still waited for. *)
Theorem jwks_response_any_arrival head body reads :
  find_subsequence head bCRLF2 = Some (len head - 4) ->
  parse_http_head head = Ok (len body) -> len (head ++ body) <= MAX_JWKS_RESPONSE_BYTES ->
  Forall (fun r => r <> []) reads -> concat reads `prefix_of` head ++ body ->
  read_http_response [] (Some <$> reads)
  = if len (concat reads) =? len (head ++ body) then Some (Ok body) else None.
Proof.
  intros Hf Hh Hl Hne Hp.
  assert (Hgo : forall rs pre, Forall (fun r => r <> []) rs -> pre ++ concat rs `prefix_of` head ++ body ->
    len pre < len (head ++ body) -> read_http_response pre (Some <$> rs)
    = if len (pre ++ concat rs) =? len (head ++ body) then Some (Ok body) else None).
  { induction rs as [|r rs IH]; intros pre Hrs Hpre Hlt; cbn [concat fmap list_fmap read_http_response].
    - rewrite app_nil_r. by replace (_ =? _) with false by lia.
    - apply Forall_cons_1 in Hrs as [Hr Hrs]. destruct r as [|b r]; [done|].
      cbn [concat] in Hpre. rewrite (assoc_L (++)) in Hpre |- *.
      rewrite (response_turn_partial head body (pre ++ b :: r)); [|done..|by eapply prefix_app_l].
      destruct (len (pre ++ b :: r) =? len (head ++ body)) eqn:He.
      + apply prefix_length in Hpre as Hpl. rewrite !length_app in *. cbn [length] in *.
        by replace (_ =? _) with true by lia.
      + apply IH; [done..|]. apply prefix_app_l, prefix_length in Hpre. lia. }
  apply (Hgo reads []); [done..|]. pose proof (find_subsequence_Some _ _ _ Hf) as (Hf0&Hf1&_).
  change (len bCRLF2) with 4 in *. rewrite length_app. cbn. lia.
Qed.

(** ** Sample runs *)

#[local, refine] Instance sample_order : HashOrder := {| hash_iter A m := map_to_list m |}.
Proof. done. Defined.

(** The service only stores keys. *)
#[local] Instance sample_primitives : PopPrimitives := {|
  Key := Z; Sig := unit;
  key_from_bytes _ := None; sig_from_slice _ := None; verify_strict _ _ _ := false;
  base64_encode _ := []; base64_decode _ := None;
  json_header _ := None; json_claims _ := None; json_request _ := None; json_response _ := None;
  json_renewal _ := None; challenge_json _ := None
|}.

Definition sample_keys : gmap str Key := {[ lit "k" := (7 : @Key sample_primitives) ]}.
Definition sample_agg_events : list agg_event :=
  [Request (lit "k") 1 0; Request (lit "k") 2 10; FetchDone (Ok sample_keys) 20; Request (lit "k") 3 30].

Lemma jwks_answers_once_witness :
  requests false sample_agg_events ≡ₚ [(lit "k", 1); (lit "k", 2); (lit "k", 3)].
Proof.
  pose proof (jwks_answers_once 0 sample_agg_events) as H.
  destruct (agg_run agg_new sample_agg_events) as [a es].
  destruct H as (_&_&_); [|reflexivity]. cbn. repeat split; lia.
Defined.

Lemma jwks_answers_fresh_witness : exists t0, t0 <= 30 < t0 + JWKS_CACHE_TTL.
Proof.
  destruct (jwks_answers_fresh 0 (take 3 sample_agg_events) (Request (lit "k") 3 30) (lit "k") 3 (7 : @Key sample_primitives))
    as (keys&t0&now&_&_&Hn&H).
  - cbn. repeat split; lia.
  - vm_compute. apply list_elem_of_singleton. reflexivity.
  - injection Hn as <-. by exists t0.
Defined.

Lemma jwks_waiters_served_witness :
  Reply 2 (lit "k") (Ok (7 : @Key sample_primitives))
  ∈ snd (agg_step (fst (agg_run agg_new (take 2 sample_agg_events))) (FetchDone (Ok sample_keys) 20)).
Proof.
  apply jwks_waiters_served.
  - vm_compute. congruence.
  - intros r t Hin. cbn in Hin. repeat (apply elem_of_cons in Hin as [Hin|Hin]; [done|]). by inversion Hin.
  - vm_compute. apply elem_of_cons. right. apply list_elem_of_singleton. reflexivity.
  - vm_compute. reflexivity.
Defined.

Definition sample_head : list byte :=
  blit "HTTP/1.1 200 OK" ++ bCRLF ++ blit "content-length: 2" ++ bCRLF2.

Lemma jwks_response_any_arrival_witness :
  read_http_response [] (Some <$> [take 5 sample_head; drop 5 sample_head ++ blit "h"; blit "i"]) = Some (Ok (blit "hi")).
Proof.
  rewrite (jwks_response_any_arrival sample_head (blit "hi")); [reflexivity|vm_compute; reflexivity|vm_compute; reflexivity| | |].
  - vm_compute. congruence.
  - repeat (apply Forall_cons; [done|]). by apply Forall_nil.
  - exists []. reflexivity.
Defined.
