(* ===== verification/Lease.v ===== *)
(** * Journal leases ([crates/spl-bridge/src/lease.rs])

    The supervisor of one registered journal: when to attempt a renewal, when
    the lease is over, and what a renewal commits.  The wall clock and the
    monotonic clock are read together; the carrier and the proof exchange are
    the outcomes of an attempt (see Pop.v for what a renewal proves). *)

From S2P Require Import Prelude Pop.

(** Durations, instants and wall times in nanoseconds; an [Instant] ends where
    its signed 64-bit seconds do, a wall time may be before the epoch. *)
Definition secs (n : Z) : Z := n * 1000000000.
Definition INSTANT_END : Z := secs (2 ^ 63).
Definition instant_add (t d : Z) : option Z := if t + d <? INSTANT_END then Some (t + d) else None.

Definition RENEWAL_WINDOW : Z := 120.
Definition ATTEMPT_TIMEOUT : Z := secs 10.
Definition ATTEMPT_FLOOR : Z := secs 15.
Definition RECONCILIATION_INTERVAL : Z := secs 1.

(** ** Schedules *)

Definition deadline_from_wall (expires_at lead_time wall_now monotonic_now : Z) : option Z :=
  if wall_now <? 0 then Some monotonic_now
  else
    let threshold := secs (saturating_sub expires_at lead_time) in
    let remaining := default 0 (checked_sub threshold wall_now) in
    instant_add monotonic_now remaining.

Definition ratchet_deadline (installed candidate : option Z) : option Z :=
  match installed, candidate with
  | None, Some c => Some c
  | Some i, Some c => if c <? i then Some c else Some i
  | _, None => installed
  end.

Definition earlier_deadline (first second : option Z) : option Z :=
  match first, second with
  | Some a, Some b => Some (Z.min a b)
  | Some a, None | None, Some a => Some a
  | None, None => None
  end.

Definition deadline_due (deadline : option Z) (now : Z) : bool :=
  match deadline with Some d => d <=? now | None => false end.

Record LeaseSchedule := mkSchedule { renewal_start : option Z; max_deadline : option Z }.

Definition install (expires_at wall_now monotonic_now : Z) : LeaseSchedule :=
  mkSchedule (deadline_from_wall expires_at RENEWAL_WINDOW wall_now monotonic_now)
             (deadline_from_wall expires_at 0 wall_now monotonic_now).

Definition ratchet_earlier (s : LeaseSchedule) (expires_at wall_now monotonic_now : Z) : LeaseSchedule :=
  mkSchedule (ratchet_deadline (renewal_start s) (deadline_from_wall expires_at RENEWAL_WINDOW wall_now monotonic_now))
             (ratchet_deadline (max_deadline s) (deadline_from_wall expires_at 0 wall_now monotonic_now)).

Definition next_attempt_at (s : LeaseSchedule) (last_attempt_start : option Z) (now : Z) : option Z :=
  match renewal_start s with
  | None => None
  | Some start =>
      if start >? now then Some start
      else match last_attempt_start ≫= fun t => instant_add t ATTEMPT_FLOOR with
           | Some floor => if floor >? now then Some floor else Some now
           | None => Some now
           end
  end.

(** ** The journal the supervisor shares with the registry *)

Record Journal := mkJournal { retired : bool; journal_expiry : Z }.

(** [RegisteredJournal::replace_expiry] *)
Definition replace_expiry (j : Journal) (expected replacement : Z) : Journal * bool :=
  if journal_expiry j =? expected then (mkJournal (retired j) replacement, true) else (j, false).
Definition retire (j : Journal) : Journal := mkJournal true (journal_expiry j).

(** ** [run_supervisor] *)

Inductive AttemptResult :=
| RenewedUntil (expiry : Z)
| RetryableResult (e : PopError)
| ChallengeUndeliverableResult
| ResponseTimedOut
| TerminalResult.

(** [run_attempt]'s translation of what the exchange returned. *)
Definition attempt_result (r : res RenewalError Z) : AttemptResult :=
  match r with
  | Ok x => RenewedUntil x
  | Err (Retryable e) => RetryableResult e
  | Err ChallengeUndeliverable => ChallengeUndeliverableResult
  | Err Terminal | Panic => TerminalResult
  end.

(** Between two turns the supervisor waits at the top of its loop, with the
    attempt time it computed there, or in [run_attempt]. *)
Inductive mode :=
| Waiting (attempt_at : option Z)
| Attempting (started : Z)
| Stopped.

Record Supervisor := mkSupervisor {
  schedule : LeaseSchedule;
  current_expiry : Z;
  control_stream : bool;
  next_reconciliation : Z;
  last_attempt_start : option Z;
  poisoned : bool;
  at_ : mode
}.

Definition next_tick (monotonic_now : Z) : Z := default monotonic_now (instant_add monotonic_now RECONCILIATION_INTERVAL).

(** The top of the loop at [now]. *)
Definition loop_top (s : Supervisor) (j : Journal) (now : Z) : Supervisor * Journal :=
  if deadline_due (max_deadline (schedule s)) now
  then (mkSupervisor (schedule s) (current_expiry s) (control_stream s) (next_reconciliation s)
          (last_attempt_start s) (poisoned s) Stopped, retire j)
  else
    (mkSupervisor (schedule s) (current_expiry s) (control_stream s) (next_reconciliation s)
       (last_attempt_start s) (poisoned s)
       (Waiting (if poisoned s then None else next_attempt_at (schedule s) (last_attempt_start s) now)), j).

Definition supervisor_start (expires_at wall_now monotonic_now top : Z) (j : Journal) : Supervisor * Journal :=
  loop_top (mkSupervisor (install expires_at wall_now monotonic_now) expires_at true (next_tick monotonic_now)
              None false Stopped) j top.

(** What the two [select!]s pick; [top] is the clock at the next top of the
    loop, [mono] and [wall] the clocks sampled in the branch. *)
Inductive lease_event :=
| ConnectionGone
| Reconcile (wall mono top : Z)
| DeadlineReached (mono : Z)
| AttemptDue (mono top : Z)
| AttemptDone (r : res RenewalError Z) (wall mono top : Z)
| AttemptTimedOut (mono top : Z).

Definition set_at (s : Supervisor) (m : mode) : Supervisor :=
  mkSupervisor (schedule s) (current_expiry s) (control_stream s) (next_reconciliation s)
    (last_attempt_start s) (poisoned s) m.
Definition poison (s : Supervisor) : Supervisor :=
  mkSupervisor (schedule s) (current_expiry s) false (next_reconciliation s) (last_attempt_start s) true (at_ s).
Definition reconciled (s : Supervisor) (wall mono : Z) : Supervisor :=
  mkSupervisor (ratchet_earlier (schedule s) (current_expiry s) wall mono) (current_expiry s)
    (control_stream s) (next_tick mono) (last_attempt_start s) (poisoned s) (at_ s).

(** The arms of the match on [run_attempt]'s result. *)
Definition finish_attempt (r : AttemptResult) (wall mono : Z) (s : Supervisor) (j : Journal) : Supervisor * Journal :=
  match r with
  | RenewedUntil successor =>
      if retired j then (poison s, j)
      else
        let '(j, replaced) := replace_expiry j (current_expiry s) successor in
        if replaced
        then (mkSupervisor (install successor wall mono) successor (control_stream s) (next_tick mono)
                (last_attempt_start s) (poisoned s) (at_ s), j)
        else (poison s, j)
  | RetryableResult _ => (s, j)
  | _ => (poison s, j)
  end.

(** One turn; [None] is a branch that is not ready. *)
Definition lease_step (s : Supervisor) (j : Journal) (e : lease_event) : option (Supervisor * Journal) :=
  match at_ s, e with
  | Waiting _, ConnectionGone => Some (set_at s Stopped, j)
  | Waiting _, Reconcile wall mono top =>
      if next_reconciliation s <=? mono then Some (loop_top (reconciled s wall mono) j top) else None
  | Waiting _, DeadlineReached mono =>
      if deadline_due (max_deadline (schedule s)) mono then Some (set_at s Stopped, retire j) else None
  | Waiting attempt_at, AttemptDue mono top =>
      if negb (poisoned s) && deadline_due attempt_at mono then
        let s := mkSupervisor (schedule s) (current_expiry s) (control_stream s) (next_reconciliation s)
                   (Some mono) (poisoned s) (at_ s) in
        if control_stream s then Some (set_at s (Attempting mono), j)
        else Some (loop_top (mkSupervisor (schedule s) (current_expiry s) false (next_reconciliation s)
                               (last_attempt_start s) true (at_ s)) j top)
      else None
  | Attempting _, AttemptDone r wall mono top =>
      let '(s, j) := finish_attempt (attempt_result r) wall mono s j in Some (loop_top s j top)
  | Attempting started, Reconcile wall mono top =>
      if next_reconciliation s <=? mono then
        let s := reconciled s wall mono in
        if deadline_due (max_deadline (schedule s)) mono
        then let '(s, j) := finish_attempt TerminalResult wall mono s j in Some (loop_top s j top)
        else Some (s, j)
      else None
  | Attempting started, AttemptTimedOut mono top =>
      if deadline_due (earlier_deadline (instant_add started ATTEMPT_TIMEOUT) (max_deadline (schedule s))) mono
      then let '(s, j) := finish_attempt ResponseTimedOut 0 mono s j in Some (loop_top s j top)
      else None
  | _, _ => None
  end.

(** ** Runs *)

(** A run keeps, beside the supervisor and the journal, the clock readings the
    current lease was checked against, the last top of the loop, and whether
    the lease was renewed since the last attempt began. *)
Record lease_run := mkRun {
  sup : Supervisor;
  journal : Journal;
  readings : list (Z * Z);
  top_at : Z;
  renewed_since : bool
}.

Inductive run_event := Sup (e : lease_event) | RetiredElsewhere.

(** Whether an event commits a renewal. *)
Definition commits (s : Supervisor) (j : Journal) (e : lease_event) : bool :=
  match at_ s, e with
  | Attempting _, AttemptDone (Ok _) _ _ _ => negb (retired j) && (journal_expiry j =? current_expiry s)
  | _, _ => false
  end.

Definition record_event (r : lease_run) (e : lease_event) (s : Supervisor) (j : Journal) : lease_run :=
  mkRun s j
    (match e with
     | Reconcile wall mono _ => readings r ++ [(wall, mono)]
     | AttemptDone _ wall mono _ => if commits (sup r) (journal r) e then [(wall, mono)] else readings r
     | _ => readings r
     end)
    (match at_ s, e with
     | Waiting _, (Reconcile _ _ top | AttemptDue _ top | AttemptDone _ _ _ top | AttemptTimedOut _ top) => top
     | _, _ => top_at r
     end)
    (match e with
     | AttemptDue _ _ => false
     | _ => renewed_since r || commits (sup r) (journal r) e
     end).

Definition run_step (r : lease_run) (e : run_event) : option lease_run :=
  match e with
  | Sup e => '(s, j) ← lease_step (sup r) (journal r) e; Some (record_event r e s j)
  | RetiredElsewhere => Some (mkRun (sup r) (retire (journal r)) (readings r) (top_at r) (renewed_since r))
  end.
Fixpoint run_all (r : lease_run) (evs : list run_event) : option lease_run :=
  match evs with
  | [] => Some r
  | e :: evs => r ← run_step r e; run_all r evs
  end.

Definition run_start (expires_at wall mono top : Z) : lease_run :=
  let '(s, j) := supervisor_start expires_at wall mono top (mkJournal false expires_at) in
  mkRun s j [(wall, mono)] top true.

(** Clock readings do not go back, and stay clear of the end of time. *)
Definition event_times (e : run_event) : list Z :=
  match e with
  | Sup (Reconcile _ mono top) | Sup (AttemptDue mono top) | Sup (AttemptDone _ _ mono top)
  | Sup (AttemptTimedOut mono top) => [mono; top]
  | Sup (DeadlineReached mono) => [mono]
  | _ => []
  end.
Fixpoint ascending (T : Z) (l : list Z) : Prop :=
  match l with
  | [] => True
  | t :: l => T <= t /\ t + ATTEMPT_FLOOR < INSTANT_END /\ ascending t l
  end.
Definition lease_ordered (T : Z) (evs : list run_event) : Prop := ascending T (concat (event_times <$> evs)).

(** ** Deadlines *)

(** Deadline [d] is no earlier than the one in force. *)
Definition covers (inforce d : option Z) : Prop := forall x, d = Some x -> exists y, inforce = Some y /\ y <= x.

Lemma covers_ratchet_installed i c d : covers i d -> covers (ratchet_deadline i c) d.
Proof.
  intros Hc x Hx. destruct (Hc x Hx) as (y&->&Hy). destruct c as [c|]; cbn; [|by eauto].
  destruct (c <? y) eqn:He; eexists; split; [done|lia|done|lia].
Qed.
Lemma covers_ratchet_candidate i c : covers (ratchet_deadline i c) c.
Proof.
  intros x ->. destruct i as [i|]; cbn; [|eauto with lia].
  destruct (x <? i) eqn:He; eexists; split; [done|lia|done|lia].
Qed.
Lemma covers_refl d : covers d d.
Proof. intros x ->. eauto with lia. Qed.

(** At [top] the lease has not run out by the reading [r]. *)
Definition unexpired (expiry top : Z) (r : Z * Z) : Prop := 0 <= fst r /\ fst r + (top - snd r) < secs expiry.
Definition reading_deadline (expiry : Z) (r : Z * Z) : option Z := deadline_from_wall expiry 0 (fst r) (snd r).

Lemma undue_unexpired expiry top md r :
  0 <= expiry -> covers md (reading_deadline expiry r) -> deadline_due md top = false ->
  snd r <= top < INSTANT_END -> unexpired expiry top r.
Proof.
  destruct r as [w m]. unfold reading_deadline, deadline_from_wall, unexpired, saturating_sub, checked_sub. cbn [fst snd].
  intros He Hc Hd Ht. destruct (w <? 0) eqn:Hw.
  { destruct (Hc m eq_refl) as (y&->&Hy). cbn in Hd. lia. }
  rewrite Z.sub_0_r, Z.max_r in Hc by lia. destruct (secs expiry <? w) eqn:Hx.
  - destruct (w <=? secs expiry) eqn:Hx'; [lia|]. cbn in Hc. unfold instant_add in Hc.
    rewrite Z.add_0_r in Hc. destruct (m <? INSTANT_END) eqn:Hm; [|lia].
    destruct (Hc m eq_refl) as (y&->&Hy). cbn in Hd. lia.
  - destruct (w <=? secs expiry) eqn:Hx'; [|lia]. cbn in Hc. unfold instant_add in Hc.
    destruct (m + (secs expiry - w) <? INSTANT_END) eqn:Hm; [|lia].
    destruct (Hc _ eq_refl) as (y&->&Hy). cbn in Hd. lia.
Qed.

(** ** The invariant of a run *)

Record lease_ok (r : lease_run) (T : Z) : Prop := {
  lo_time : top_at r <= T;
  lo_expiry : 0 <= current_expiry (sup r);
  lo_shared : journal_expiry (journal r) = current_expiry (sup r);
  lo_covers : at_ (sup r) <> Stopped ->
    Forall (fun x => snd x <= T /\ covers (max_deadline (schedule (sup r))) (reading_deadline (current_expiry (sup r)) x) /\
              unexpired (current_expiry (sup r)) (top_at r) x) (readings r);
  lo_waiting : forall x, at_ (sup r) = Waiting (Some x) ->
    poisoned (sup r) = false /\ exists s, renewal_start (schedule (sup r)) = Some s /\ s <= x;
  lo_floor : renewed_since r = false ->
    exists t, last_attempt_start (sup r) = Some t /\ t <= T /\ t + ATTEMPT_FLOOR < INSTANT_END /\
      (exists s, renewal_start (schedule (sup r)) = Some s /\ s <= t) /\
      forall x, at_ (sup r) = Waiting (Some x) -> t + ATTEMPT_FLOOR <= x
}.

Lemma next_attempt_start s last now x :
  next_attempt_at s last now = Some x -> exists st, renewal_start s = Some st /\ st <= x.
Proof.
  unfold next_attempt_at. destruct (renewal_start s) as [st|]; [|done]. intros H. exists st. split; [done|].
  destruct (st >? now) eqn:Hs; [by simplify_eq; lia|].
  destruct (_ ≫= _) as [f|]; [destruct (f >? now) eqn:Hf|]; simplify_eq; lia.
Qed.

Lemma next_attempt_floor s t now x st :
  renewal_start s = Some st -> st <= t -> t <= now -> t + ATTEMPT_FLOOR < INSTANT_END ->
  next_attempt_at s (Some t) now = Some x -> t + ATTEMPT_FLOOR <= x.
Proof.
  unfold next_attempt_at. intros -> Hs Ht He. destruct (st >? now) eqn:Hst; [lia|].
  cbn. unfold instant_add. destruct (t + ATTEMPT_FLOOR <? INSTANT_END) eqn:Hi; [|lia].
  destruct (t + ATTEMPT_FLOOR >? now) eqn:Hf; intros H; injection H as <-; lia.
Qed.

(** Back at the top of the loop: [r] satisfies everything but its [at_]. *)
Lemma loop_top_ok s j rd T top renewed s' j' :
  loop_top s j top = (s', j') -> T <= top < INSTANT_END ->
  0 <= current_expiry s -> journal_expiry j = current_expiry s ->
  Forall (fun x => snd x <= T /\ covers (max_deadline (schedule s)) (reading_deadline (current_expiry s) x)) rd ->
  (renewed = false -> exists t, last_attempt_start s = Some t /\ t <= T /\ t + ATTEMPT_FLOOR < INSTANT_END /\
     exists st, renewal_start (schedule s) = Some st /\ st <= t) ->
  forall t0, t0 <= top -> lease_ok (mkRun s' j' rd (match at_ s' with Waiting _ => top | _ => t0 end) renewed) top.
Proof.
  intros Hl HT He Hj Hrd Hfl t0 Ht0. unfold loop_top in Hl.
  destruct (deadline_due (max_deadline (schedule s)) top) eqn:Hd; simplify_eq.
  - split; cbn; [done..|]. intros Hr. destruct (Hfl Hr) as (t&?&?&?&?). exists t. repeat split; try done; lia.
  - split; cbn; [lia|done|done| | |].
    + intros _. eapply Forall_impl; [|exact Hrd]. intros [w m] [Hm Hc]. cbn in *.
      split; [lia|]. split; [done|]. eapply undue_unexpired; eauto. cbn. lia.
    + intros x Hx. destruct (poisoned s); simplify_eq. split; [done|].
      match goal with H : _ = Some x |- _ => by apply next_attempt_start in H end.
    + intros Hr. destruct (Hfl Hr) as (t&Hla&Htt&Hte&st&Hst&Hle). exists t.
      split; [done|]. split; [lia|]. split; [done|]. split; [eauto|]. intros x Hx.
      destruct (poisoned s); [done|]. injection Hx as Hx. rewrite Hla in Hx. eapply (next_attempt_floor _ t top x st); [done|lia|lia|done|exact Hx].
Qed.

Definition last_time (T : Z) (e : run_event) : Z := default T (list.last (event_times e)).

(** A renewal that is accepted is for later. *)
Definition renews_later (r : lease_run) (e : run_event) : Prop :=
  match e with Sup (AttemptDone (Ok x) _ _ _) => current_expiry (sup r) < x | _ => True end.

Lemma install_ok expires wall mono :
  covers (max_deadline (install expires wall mono)) (reading_deadline expires (wall, mono)).
Proof. apply covers_refl. Qed.

(** The readings so far, and one more, against the ratcheted schedule. *)
Lemma reconciled_covers s wall mono T rd :
  Forall (fun x => snd x <= T /\ covers (max_deadline (schedule s)) (reading_deadline (current_expiry s) x)) rd ->
  T <= mono ->
  Forall (fun x => snd x <= mono /\ covers (max_deadline (schedule (reconciled s wall mono)))
                                     (reading_deadline (current_expiry s) x)) (rd ++ [(wall, mono)]).
Proof.
  intros Hrd HT. apply list.Forall_app. split.
  - eapply Forall_impl; [|exact Hrd]. intros x [Hx Hc]. split; [lia|]. by apply covers_ratchet_installed.
  - apply Forall_cons; [|by apply Forall_nil]. split; [cbn; lia|]. apply covers_ratchet_candidate.
Qed.

Lemma reconciled_floor s wall mono st t :
  renewal_start (schedule s) = Some st -> st <= t ->
  exists st', renewal_start (schedule (reconciled s wall mono)) = Some st' /\ st' <= t.
Proof.
  intros Hs Ht. destruct (covers_ratchet_installed _ (deadline_from_wall (current_expiry s) RENEWAL_WINDOW wall mono) _
    (covers_refl (renewal_start (schedule s))) _ Hs) as (y&Hy&Hle). exists y. split; [exact Hy|lia].
Qed.

Lemma stopped_ok r T s' j' rd' T' :
  lease_ok r T -> T <= T' -> schedule s' = schedule (sup r) -> current_expiry s' = current_expiry (sup r) ->
  last_attempt_start s' = last_attempt_start (sup r) -> at_ s' = Stopped -> journal_expiry j' = journal_expiry (journal r) ->
  lease_ok (mkRun s' j' rd' (top_at r) (renewed_since r)) T'.
Proof.
  intros [H1 H2 H3 H4 H5 H6] HT Hsch Hexp Hla Hat Hj. split; cbn; rewrite ?Hat, ?Hexp, ?Hsch, ?Hla; [lia|done|congruence|done..|].
  intros Hr. destruct (H6 Hr) as (t&?&?&?&?&?). exists t. repeat split; try done; lia.
Qed.

Lemma finish_attempt_ok r T a wall mono s' j' :
  lease_ok r T -> T <= mono -> at_ (sup r) <> Stopped ->
  (forall x, a = RenewedUntil x -> 0 <= x) ->
  finish_attempt a wall mono (sup r) (journal r) = (s', j') ->
  let committed := match a with
                   | RenewedUntil _ => negb (retired (journal r)) && (journal_expiry (journal r) =? current_expiry (sup r))
                   | _ => false
                   end in
  0 <= current_expiry s' /\ journal_expiry j' = current_expiry s' /\
  Forall (fun x => snd x <= mono /\ covers (max_deadline (schedule s')) (reading_deadline (current_expiry s') x))
    (if committed then [(wall, mono)] else readings r) /\
  (renewed_since r || committed = false -> exists t, last_attempt_start s' = Some t /\ t <= mono /\
     t + ATTEMPT_FLOOR < INSTANT_END /\ exists st, renewal_start (schedule s') = Some st /\ st <= t).
Proof.
  intros [H1 H2 H3 H4 H5 H6] HT Hat Ha Hf.
  assert (Hkeep : forall s, schedule s = schedule (sup r) -> current_expiry s = current_expiry (sup r) ->
    last_attempt_start s = last_attempt_start (sup r) ->
    0 <= current_expiry s /\ journal_expiry (journal r) = current_expiry s /\
    Forall (fun x => snd x <= mono /\ covers (max_deadline (schedule s)) (reading_deadline (current_expiry s) x)) (readings r) /\
    (renewed_since r || false = false -> exists t, last_attempt_start s = Some t /\ t <= mono /\
       t + ATTEMPT_FLOOR < INSTANT_END /\ exists st, renewal_start (schedule s) = Some st /\ st <= t)).
  { intros s -> -> ->. split; [done|]. split; [done|]. split.
    - eapply Forall_impl; [|exact (H4 Hat)]. intros x (?&?&_). split; [lia|done].
    - rewrite orb_false_r. intros Hr. destruct (H6 Hr) as (t&?&?&?&?&_). exists t. repeat split; try done; lia. }
  destruct a as [x| | | |]; cbn [finish_attempt] in Hf; simplify_eq; try by apply Hkeep.
  unfold replace_expiry in Hf. rewrite H3, Z.eqb_refl in Hf |- *.
  destruct (retired (journal r)); simplify_eq; [by apply Hkeep|]. cbn. split; [by apply Ha|]. split; [done|]. split.
  - apply Forall_cons; [|by apply Forall_nil]. split; [cbn; lia|apply install_ok].
  - by rewrite orb_true_r.
Qed.

Ltac instants := unfold ATTEMPT_FLOOR, secs in *; lia.

Lemma lease_ok_readings r T :
  lease_ok r T -> at_ (sup r) <> Stopped ->
  Forall (fun x => snd x <= T /\ covers (max_deadline (schedule (sup r))) (reading_deadline (current_expiry (sup r)) x))
    (readings r).
Proof. intros Hok Hat. eapply Forall_impl; [|by apply (lo_covers _ _ Hok)]. by intros x (?&?&_). Qed.

(** A reconciliation keeps what the floor needs. *)
Lemma lease_ok_floor r T wall mono :
  lease_ok r T -> T <= mono -> renewed_since r = false ->
  exists t, last_attempt_start (reconciled (sup r) wall mono) = Some t /\ t <= mono /\
    t + ATTEMPT_FLOOR < INSTANT_END /\
    exists st, renewal_start (schedule (reconciled (sup r) wall mono)) = Some st /\ st <= t.
Proof.
  intros Hok HT Hr. destruct (lo_floor _ _ Hok Hr) as (t&Hla&Htt&Hte&(st&Hst&Hle)&_).
  exists t. cbn. split; [done|]. split; [lia|]. split; [done|]. by eapply reconciled_floor.
Qed.

Lemma waiting_reconcile_ok r T wall mono top s' j' :
  lease_ok r T -> T <= mono <= top -> top < INSTANT_END -> at_ (sup r) <> Stopped ->
  loop_top (reconciled (sup r) wall mono) (journal r) top = (s', j') ->
  lease_ok (mkRun s' j' (readings r ++ [(wall, mono)])
    (match at_ s' with Waiting _ => top | _ => top_at r end) (renewed_since r)) top.
Proof.
  intros Hok [HT Htop] Hend Hat Hl. eapply (loop_top_ok _ _ _ mono); [exact Hl|lia|apply Hok|apply Hok| | |].
  - exact (reconciled_covers (sup r) wall mono T _ (lease_ok_readings _ _ Hok Hat) HT).
  - by apply (lease_ok_floor _ T).
  - pose proof (lo_time _ _ Hok). lia.
Qed.

Lemma attempt_due_ok r T x mono :
  lease_ok r T -> at_ (sup r) = Waiting (Some x) -> x <= mono -> mono + ATTEMPT_FLOOR < INSTANT_END ->
  exists t, Some mono = Some t /\ t <= mono /\ t + ATTEMPT_FLOOR < INSTANT_END /\
    exists st, renewal_start (schedule (sup r)) = Some st /\ st <= t.
Proof.
  intros Hok Hat Hx Hend. destruct (lo_waiting _ _ Hok x Hat) as (_&st&Hst&Hle).
  exists mono. split; [done|]. split; [lia|]. split; [done|]. exists st. split; [done|lia].
Qed.

Lemma begin_attempt_ok r T x mono :
  lease_ok r T -> at_ (sup r) = Waiting (Some x) -> x <= mono -> T <= mono -> mono + ATTEMPT_FLOOR < INSTANT_END ->
  forall s', s' = set_at (mkSupervisor (schedule (sup r)) (current_expiry (sup r)) (control_stream (sup r))
                    (next_reconciliation (sup r)) (Some mono) (poisoned (sup r)) (at_ (sup r))) (Attempting mono) ->
  forall top, mono <= top -> lease_ok (mkRun s' (journal r) (readings r) (top_at r) false) top.
Proof.
  intros Hok Hat Hx HT Hend s' -> top Htop. pose proof (attempt_due_ok _ _ _ _ Hok Hat Hx Hend) as (t&Ht&Htm&Hte&Hst).
  destruct Hok as [H1 H2 H3 H4 H5 H6]. split; cbn; [lia|done|done| |done|].
  - intros _. eapply Forall_impl; [|apply H4; by rewrite Hat]. intros y (?&?&?). split; [lia|done].
  - intros _. exists t. split; [done|]. split; [lia|]. split; [done|]. split; [done|]. intros; simplify_eq.
Qed.

Lemma waiting_step_ok r e s' j' T a :
  lease_ok r T -> at_ (sup r) = Waiting a -> ascending T (event_times (Sup e)) ->
  lease_step (sup r) (journal r) e = Some (s', j') ->
  lease_ok (record_event r e s' j') (last_time T (Sup e)).
Proof.
  intros Hok Hat Ht Hl. assert (Hns : at_ (sup r) <> Stopped) by by rewrite Hat.
  pose proof (lo_time _ _ Hok) as HtT.
  unfold record_event, last_time, lease_step, commits in *. rewrite Hat in Hl |- *. rewrite ?orb_false_r.
  destruct e as [|wall mono top|mono|mono top|res|mono]; try done; cbn [event_times ascending list.last default id] in *.
  - injection Hl as <- <-. by eapply stopped_ok.
  - destruct (_ <=? _); [|done]. injection Hl as Hl. destruct Ht as (Ht1&_&Ht2&Ht3&_).
    eapply waiting_reconcile_ok; [exact Hok|lia|instants|done|exact Hl].
  - destruct (deadline_due _ _); [|done]. injection Hl as <- <-.
    destruct Ht as [Ht _]. by eapply stopped_ok.
  - destruct (negb (poisoned (sup r)) && deadline_due a mono) eqn:Hd; [|done].
    apply andb_true_iff in Hd as [_ Hd]. destruct a as [x|]; [|done]. cbn in Hd. destruct Ht as (Ht1&Hte&Ht2&Ht3&_).
    cbn [control_stream] in Hl. destruct (control_stream (sup r)) eqn:Hcs; injection Hl as Hl.
    + subst s' j'. cbn [at_ set_at]. eapply begin_attempt_ok; eauto; [lia|]. by rewrite Hcs, Hat.
    + eapply (loop_top_ok _ _ _ mono); [exact Hl|instants|apply Hok|apply Hok| | |lia].
      * eapply Forall_impl; [|by apply (lo_covers _ _ Hok)]. intros y (?&?&_). split; [lia|done].
      * intros _. cbn. apply (attempt_due_ok r T x mono); [done|done|lia|done].
Qed.

(** A reconciliation in an attempt that does not end it. *)
Lemma attempting_reconcile_ok r T wall mono t0 top :
  lease_ok r T -> at_ (sup r) = Attempting t0 -> T <= mono <= top -> mono < INSTANT_END ->
  deadline_due (max_deadline (schedule (reconciled (sup r) wall mono))) mono = false ->
  lease_ok (mkRun (reconciled (sup r) wall mono) (journal r) (readings r ++ [(wall, mono)]) (top_at r) (renewed_since r)) top.
Proof.
  intros Hok Hat [HT Htop] Hend Hd. assert (Hns : at_ (sup r) <> Stopped) by by rewrite Hat.
  pose proof (reconciled_covers (sup r) wall mono T (readings r) (lease_ok_readings _ _ Hok Hns) HT) as Hcov.
  pose proof (lo_time _ _ Hok) as HtT. pose proof (lo_covers _ _ Hok Hns) as H4.
  split; cbn [sup journal top_at readings renewed_since reconciled current_expiry at_]; [lia|apply Hok|apply Hok| |by rewrite Hat|].
  - intros _. apply list.Forall_app in Hcov as [Hc1 Hc2]. apply list.Forall_app. split.
    + apply list.Forall_forall. intros y Hy.
      apply (proj1 (list.Forall_forall _ _) Hc1) in Hy as Hy1. apply (proj1 (list.Forall_forall _ _) H4) in Hy as (?&?&?).
      destruct Hy1. split; [lia|done].
    + apply Forall_cons_1 in Hc2 as [[Hm Hc] _]. apply Forall_cons; [|by apply Forall_nil].
      split; [cbn; lia|]. split; [done|].
      destruct (undue_unexpired (current_expiry (sup r)) mono _ (wall, mono) (lo_expiry _ _ Hok) Hc Hd) as [Hw Hu];
        [cbn; lia|]. split; [done|]. cbn in *. lia.
  - intros Hr. destruct (lease_ok_floor r T wall mono Hok HT Hr) as (t&?&?&?&?). exists t.
    rewrite Hat. repeat split; try done; lia.
Qed.

Lemma attempting_step_ok r e s' j' T t0 :
  lease_ok r T -> at_ (sup r) = Attempting t0 -> ascending T (event_times (Sup e)) -> renews_later r (Sup e) ->
  lease_step (sup r) (journal r) e = Some (s', j') ->
  lease_ok (record_event r e s' j') (last_time T (Sup e)).
Proof.
  intros Hok Hat Ht Hlater Hl. assert (Hns : at_ (sup r) <> Stopped) by by rewrite Hat.
  pose proof (lo_time _ _ Hok) as HtT. pose proof (lo_expiry _ _ Hok) as Hexp.
  unfold record_event, last_time, lease_step, commits in *. rewrite Hat in Hl |- *.
  destruct e as [|wall mono top|mono|mono top|res wall mono top|mono top]; try done;
    cbn [event_times ascending list.last default id] in *; destruct Ht as (Ht1&_&Ht2&Ht3&_); rewrite ?orb_false_r.
  - destruct (_ <=? _); [|done].
    destruct (deadline_due (max_deadline (schedule (reconciled (sup r) wall mono))) mono) eqn:Hd; cbn [finish_attempt] in Hl.
    + injection Hl as Hl. eapply (loop_top_ok _ _ _ mono); [exact Hl|instants|apply Hok|apply Hok| | |lia].
      * exact (reconciled_covers (sup r) wall mono T _ (lease_ok_readings _ _ Hok Hns) Ht1).
      * by apply (lease_ok_floor _ T).
    + injection Hl as <- <-. cbn [at_ reconciled]. rewrite Hat. by eapply attempting_reconcile_ok; [..|instants|].
  - destruct (finish_attempt (attempt_result res) wall mono (sup r) (journal r)) as [s1 j1] eqn:Hf. injection Hl as Hl.
    eapply finish_attempt_ok in Hf as (Hf1&Hf2&Hf3&Hf4); [|exact Hok|lia|done|].
    2: { intros x Hx. destruct res as [y|[]|]; simplify_eq/=. lia. }
    eapply (loop_top_ok _ _ _ mono); [exact Hl|instants|done..| | |lia]; by destruct res as [|[]|].
  - destruct (deadline_due _ mono); [|done].
    destruct (finish_attempt ResponseTimedOut 0 mono (sup r) (journal r)) as [s1 j1] eqn:Hf. injection Hl as Hl.
    eapply finish_attempt_ok in Hf as (Hf1&Hf2&Hf3&Hf4); [|exact Hok|lia|done|done]. rewrite orb_false_r in Hf4.
    eapply (loop_top_ok _ _ _ mono); [exact Hl|instants|done..|lia].
Qed.

Lemma run_step_ok r e r' T :
  lease_ok r T -> ascending T (event_times e) -> renews_later r e -> run_step r e = Some r' ->
  lease_ok r' (last_time T e).
Proof.
  intros Hok Ht Hlater Hs. destruct e as [e|]; cbn [run_step] in Hs.
  2: { simplify_eq. by destruct Hok as [H1 H2 H3 H4 H5 H6]; split. }
  destruct (lease_step (sup r) (journal r) e) as [[s' j']|] eqn:Hl; [|done]. injection Hs as <-.
  destruct (at_ (sup r)) as [a|t0|] eqn:Hat.
  - by eapply waiting_step_ok.
  - by eapply attempting_step_ok.
  - unfold lease_step in Hl. rewrite Hat in Hl. by destruct e.
Qed.

(** ** Whole runs *)

Section Leases.
Context {P : PopPrimitives} (A : PopAuthenticator) (who : RenewalIdentity).

(** What the exchange of an attempt may return for the running lease. *)
Definition from_exchange (check : Z) (r : res RenewalError Z) : Prop :=
  (exists clock gen c e, snd (renew_start A clock gen who check c) = Err e /\ r = Err e) \/
  (exists keys tc clock input t l c, r = snd (renew_finish A keys tc clock input who check t l c)).

Lemma from_exchange_later check x : from_exchange check (Ok x) -> check < x.
Proof.
  intros [(?&?&?&?&_&?)|(keys&tc&clock&input&t&l&c&Hr)]; [done|].
  destruct (renew_finish A keys tc clock input who check t l c) as [c' r] eqn:Hf. cbn in Hr. subst r.
  apply renew_finish_cases in Hf as [[_ Hx]|(now&resp&claims&_&_&c1&l1&r1&_&_&Hx)]; [by edestruct Hx|].
  by destruct (Hx _ eq_refl) as (_&_&?&_).
Qed.

(** The environment of a run from time [T]: ordered clocks, and attempts that
    are renewal exchanges for the lease in force. *)
Fixpoint lease_env (T : Z) (r : lease_run) (evs : list run_event) : Prop :=
  match evs with
  | [] => True
  | e :: evs =>
      ascending T (event_times e) /\
      match e with Sup (AttemptDone res _ _ _) => from_exchange (current_expiry (sup r)) res | _ => True end /\
      match run_step r e with Some r' => lease_env (last_time T e) r' evs | None => True end
  end.

Lemma lease_env_later r e T evs : lease_env T r (e :: evs) -> renews_later r e.
Proof.
  cbn. intros (_&He&_). destruct e as [[]|]; try done. destruct r0; [|done..]. by apply from_exchange_later.
Qed.

Lemma run_all_ok evs : forall r T r',
  lease_ok r T -> lease_env T r evs -> run_all r evs = Some r' -> exists T', lease_ok r' T'.
Proof.
  induction evs as [|e evs IH]; intros r T r' Hok He Hr; cbn [run_all] in Hr; [simplify_eq; eauto|].
  pose proof (lease_env_later _ _ _ _ He) as Hl. destruct He as (Ht&_&He).
  destruct (run_step r e) as [r1|] eqn:Hs; [|done]. cbn in Hr. eapply IH; [|exact He|exact Hr]. by eapply run_step_ok.
Qed.

Lemma run_start_ok expires wall mono top :
  0 <= expires -> mono <= top < INSTANT_END -> lease_ok (run_start expires wall mono top) top.
Proof.
  intros He Ht. unfold run_start, supervisor_start.
  destruct (loop_top _ (mkJournal false expires) top) as [s j] eqn:Hl.
  pose proof (loop_top_ok _ _ [(wall, mono)] mono top true s j Hl) as H.
  assert (Hr : lease_ok (mkRun s j [(wall, mono)] (match at_ s with Waiting _ => top | _ => top end) true) top).
  { apply H; [done..| |done|lia]. apply Forall_cons; [|by apply Forall_nil]. split; [done|]. apply install_ok. }
  by destruct (at_ s).
Qed.

(** Renewals move the expiry on; a retired journal's lease stays as it is. *)
Definition advances (s : Supervisor) (j : Journal) (s' : Supervisor) (j' : Journal) : Prop :=
  journal_expiry j = current_expiry s ->
  current_expiry s <= current_expiry s' /\ journal_expiry j' = current_expiry s' /\
  (retired j = true -> j' = j).

Lemma advances_same s j s' : current_expiry s' = current_expiry s -> advances s j s' j.
Proof. intros Hs Hj. rewrite Hs. split; [lia|done]. Qed.
Lemma advances_retire s j s' : current_expiry s' = current_expiry s -> advances s j s' (retire j).
Proof. intros Hs Hj. rewrite Hs. split; [lia|]. split; [done|]. destruct j; cbn. by intros ->. Qed.
Lemma advances_trans s j s1 j1 s2 j2 : advances s j s1 j1 -> advances s1 j1 s2 j2 -> advances s j s2 j2.
Proof.
  intros H1 H2 Hj. destruct (H1 Hj) as (Hle&Hj1&Hr1), (H2 Hj1) as (Hle2&Hj2&Hr2).
  split; [lia|]. split; [done|]. intros Hr. specialize (Hr1 Hr) as ->. auto.
Qed.
Lemma advances_top s j top : advances s j (fst (loop_top s j top)) (snd (loop_top s j top)).
Proof. unfold loop_top. destruct (deadline_due _ _); [by apply advances_retire|by apply advances_same]. Qed.
Lemma advances_finish a wall mono s j :
  (forall x, a = RenewedUntil x -> current_expiry s < x) ->
  advances s j (fst (finish_attempt a wall mono s j)) (snd (finish_attempt a wall mono s j)).
Proof.
  intros Ha. destruct a as [x| | | |]; cbn [finish_attempt]; try by apply advances_same.
  unfold replace_expiry. destruct (retired j) eqn:Hr; [by apply advances_same|].
  destruct (_ =? _); [|by apply advances_same]. intros _. cbn. split; [specialize (Ha _ eq_refl); lia|].
  split; [done|]. by rewrite Hr.
Qed.

Lemma lease_step_advances s j e s' j' :
  lease_step s j e = Some (s', j') ->
  (forall x wall mono top, e = AttemptDone (Ok x) wall mono top -> current_expiry s < x) ->
  advances s j s' j'.
Proof.
  intros Hst Hl.
  assert (Htop : forall s1 j1 top, advances s j s1 j1 -> Some (loop_top s1 j1 top) = Some (s', j') -> advances s j s' j').
  { intros s1 j1 top H1 H2. pose proof (advances_top s1 j1 top) as H3. injection H2 as H2. rewrite H2 in H3.
    by eapply advances_trans. }
  unfold lease_step in Hst.
  destruct (at_ s); destruct e as [|wall mono top|mono|mono top|res wall mono top|mono top]; try done.
  - simplify_eq. by apply advances_same.
  - destruct (_ <=? _); [|done]. eapply Htop, Hst. by apply advances_same.
  - destruct (deadline_due _ _); [|done]. simplify_eq. by apply advances_retire.
  - destruct (_ && _); [|done]. cbn [control_stream] in Hst. destruct (control_stream s).
    + simplify_eq. by apply advances_same.
    + eapply Htop, Hst. by apply advances_same.
  - destruct (_ <=? _); [|done]. destruct (deadline_due _ _).
    + eapply Htop, Hst. by apply advances_same.
    + simplify_eq. by apply advances_same.
  - pose proof (advances_finish (attempt_result res) wall mono s j) as Hf.
    destruct (finish_attempt _ wall mono s j) as [s1 j1]. eapply Htop, Hst. apply Hf.
    intros x Hx. destruct res as [y|[]|]; simplify_eq/=. by eapply Hl.
  - destruct (deadline_due _ _); [|done]. eapply Htop, Hst. by apply advances_same.
Qed.

Lemma run_all_advances evs : forall r T r',
  lease_env T r evs -> run_all r evs = Some r' -> advances (sup r) (journal r) (sup r') (journal r').
Proof.
  induction evs as [|e evs IH]; intros r T r' He Hr; cbn [run_all] in Hr; [simplify_eq; by apply advances_same|].
  pose proof (lease_env_later _ _ _ _ He) as Hl. destruct He as (_&_&He).
  destruct (run_step r e) as [r1|] eqn:Hs; [|done]. cbn in Hr.
  eapply advances_trans; [|by eapply IH]. destruct e as [e|]; cbn [run_step] in Hs.
  - destruct (lease_step (sup r) (journal r) e) as [[s' j']|] eqn:Hst; [|done]. injection Hs as <-.
    eapply lease_step_advances; [exact Hst|]. intros x wall mono top ->. exact Hl.
  - injection Hs as <-. by apply advances_retire.
Qed.

(** ** Theorems *)

(** C20. No lease outlives its token by any clock reading: whenever a supervisor
    is back at the top of its loop and still running, then by every pair of
    clock readings it has taken since the lease in force was granted the wall
    clock is after the epoch and short of the lease's expiry, however the wall
    clock was set in between. *)
Theorem lease_unexpired expires wall mono top evs r :
  0 <= expires -> mono <= top < INSTANT_END ->
  lease_env top (run_start expires wall mono top) evs ->
  run_all (run_start expires wall mono top) evs = Some r -> at_ (sup r) <> Stopped ->
  Forall (unexpired (current_expiry (sup r)) (top_at r)) (readings r).
Proof.
  intros He Ht Henv Hr Hat. destruct (run_all_ok _ _ _ _ (run_start_ok _ _ _ _ He Ht) Henv Hr) as [T' Hok].
  eapply Forall_impl; [|by apply (lo_covers _ _ Hok)]. by intros x (_&_&?).
Qed.

(** A lease is enforced: a supervisor whose deadline has passed stops and
    retires its journal in its next turn, whether it waits or is in the middle
    of an attempt. *)
Theorem lease_retires r d now top :
  at_ (sup r) <> Stopped -> max_deadline (schedule (sup r)) = Some d -> d <= now -> now <= top ->
  exists e r', (e = DeadlineReached now \/ e = AttemptTimedOut now top) /\
    run_step r (Sup e) = Some r' /\ at_ (sup r') = Stopped /\ retired (journal r') = true.
Proof.
  intros Hat Hd Hn Ht.
  assert (Hdue : forall t, now <= t -> deadline_due (max_deadline (schedule (sup r))) t = true)
    by (intros t Hle; rewrite Hd; cbn; lia).
  destruct (at_ (sup r)) as [a|t0|] eqn:Ha; [| |done].
  - exists (DeadlineReached now). eexists. split; [by left|].
    cbn [run_step]. unfold lease_step. rewrite Ha, Hdue by lia. done.
  - exists (AttemptTimedOut now top). eexists. split; [by right|]. cbn [run_step]. unfold lease_step. rewrite Ha.
    replace (deadline_due (earlier_deadline _ _) now) with true.
    2: { rewrite Hd. unfold earlier_deadline. destruct (instant_add t0 ATTEMPT_TIMEOUT); cbn; lia. }
    cbn [finish_attempt mbind option_bind]. unfold loop_top. cbn [poison schedule]. rewrite Hdue by lia. done.
Qed.

(** The expiry on record only moves forward, in step with the supervisor,
    and never once the journal is retired. *)
Theorem lease_expiry_advances expires wall mono top evs1 evs2 r1 r2 T :
  0 <= expires -> mono <= top < INSTANT_END ->
  lease_env top (run_start expires wall mono top) evs1 ->
  run_all (run_start expires wall mono top) evs1 = Some r1 ->
  lease_env T r1 evs2 -> run_all r1 evs2 = Some r2 ->
  expires <= journal_expiry (journal r1) <= journal_expiry (journal r2) /\
  journal_expiry (journal r2) = current_expiry (sup r2) /\
  (retired (journal r1) = true -> journal r2 = journal r1).
Proof.
  intros He Ht He1 H1 He2 H2. pose proof (run_start_ok expires wall mono top He Ht) as Hok.
  destruct (run_all_advances _ _ _ _ He1 H1 (lo_shared _ _ Hok)) as (Hle1&Hs1&_).
  destruct (run_all_advances _ _ _ _ He2 H2 Hs1) as (Hle2&Hs2&Hr).
  assert (Hx : current_expiry (sup (run_start expires wall mono top)) = expires).
  { unfold run_start, supervisor_start, loop_top. by destruct (deadline_due _ _). }
  rewrite Hx in Hle1. rewrite Hs1, Hs2. auto with lia.
Qed.

(** Attempts keep their distance: a renewal attempt begins at least fifteen
    seconds after the last one began, unless the lease was renewed in between. *)
Theorem lease_attempts_spaced expires wall mono top evs r now top' r' :
  0 <= expires -> mono <= top < INSTANT_END ->
  lease_env top (run_start expires wall mono top) evs ->
  run_all (run_start expires wall mono top) evs = Some r ->
  run_step r (Sup (AttemptDue now top')) = Some r' -> renewed_since r = false ->
  exists t, last_attempt_start (sup r) = Some t /\ secs 15 <= now - t.
Proof.
  intros He Ht Henv Hr Hs Hn. destruct (run_all_ok _ _ _ _ (run_start_ok _ _ _ _ He Ht) Henv Hr) as [T' Hok].
  destruct (lo_floor _ _ Hok Hn) as (t&Hla&_&_&_&Hx). exists t. split; [done|].
  cbn [run_step] in Hs. unfold lease_step in Hs. destruct (at_ (sup r)) as [a| |]; [|done..].
  destruct (_ && _) eqn:Hd; [|done]. apply andb_true_iff in Hd as [_ Hd]. destruct a as [x|]; [|done].
  specialize (Hx _ eq_refl). cbn in Hd. unfold ATTEMPT_FLOOR in Hx. lia.
Qed.
End Leases.

(** ** Sample runs *)

Import PopSample.

Definition granted : run_event := Sup (AttemptDone (Ok 2600) (secs 2001) (secs 1) (secs 1)).
Definition refused : run_event :=
  Sup (AttemptDone (Err (Retryable TokenTimeInvalid)) (secs 2001) (secs 1) (secs 1)).
Definition sample_lease : lease_run := run_start 2100 (secs 2000) 0 0.

Lemma granted_exchange : from_exchange auth PopSample.who 2100 (Ok 2600).
Proof.
  right. exists keys, 2001, (Some 2001), (framed (Byte.x02 :: answer 2000)), 2000, (mkLease a_nonce true),
    (mkCache {[ a_nonce := 2100 ]} ∅). reflexivity.
Defined.
Lemma refused_exchange : from_exchange auth PopSample.who 2100 (Err (Retryable TokenTimeInvalid)).
Proof. left. exists None, gen, cache_new, (Retryable TokenTimeInvalid). split; reflexivity. Defined.

Definition renewed_events : list run_event :=
  [Sup (AttemptDue 0 0); granted; Sup (Reconcile (secs 2003) (secs 3) (secs 3))].

Lemma renewed_env : lease_env auth PopSample.who 0 sample_lease renewed_events.
Proof.
  cbn [renewed_events lease_env].
  split; [vm_compute; repeat split; congruence|]. split; [done|].
  split; [vm_compute; repeat split; congruence|]. split; [exact granted_exchange|].
  split; [vm_compute; repeat split; congruence|]. split; [done|]. exact I.
Defined.

Lemma lease_unexpired_witness :
  exists r, run_all sample_lease renewed_events = Some r /\
    Forall (unexpired 2600 (secs 3)) [(secs 2001, secs 1); (secs 2003, secs 3)].
Proof.
  destruct (run_all sample_lease renewed_events) as [r|] eqn:Hr; [|vm_compute in Hr; discriminate].
  exists r. split; [reflexivity|].
  pose proof (lease_unexpired auth PopSample.who 2100 (secs 2000) 0 0 renewed_events r) as H.
  specialize (H ltac:(lia) ltac:(vm_compute; split; congruence) renewed_env Hr).
  vm_compute in Hr. injection Hr as <-. apply H. discriminate.
Defined.

Lemma lease_retires_witness :
  exists e r', run_step sample_lease (Sup e) = Some r' /\ retired (journal r') = true.
Proof.
  destruct (lease_retires sample_lease (secs 100) (secs 100) (secs 101)) as (e&r'&_&Hs&_&Hr).
  - vm_compute. discriminate.
  - vm_compute. reflexivity.
  - lia.
  - vm_compute. congruence.
  - exists e, r'. split; [exact Hs|exact Hr].
Defined.

Lemma lease_expiry_advances_witness :
  exists r1 r2, run_all sample_lease renewed_events = Some r1 /\
    run_all r1 [RetiredElsewhere] = Some r2 /\ 2100 <= journal_expiry (journal r1) <= journal_expiry (journal r2).
Proof.
  destruct (run_all sample_lease renewed_events) as [r1|] eqn:Hr; [|vm_compute in Hr; discriminate].
  exists r1. eexists. split; [reflexivity|]. split; [reflexivity|].
  apply (lease_expiry_advances auth PopSample.who 2100 (secs 2000) 0 0 renewed_events [RetiredElsewhere] r1 _ (secs 3)).
  - lia.
  - vm_compute. split; congruence.
  - exact renewed_env.
  - exact Hr.
  - cbn. auto.
  - reflexivity.
Defined.

Lemma lease_attempts_spaced_witness : exists t, secs 15 <= secs 15 - t.
Proof.
  set (evs := [Sup (AttemptDue 0 0); refused]).
  destruct (run_all sample_lease evs) as [r|] eqn:Hr; [|vm_compute in Hr; discriminate].
  destruct (run_step r (Sup (AttemptDue (secs 15) (secs 15)))) as [r'|] eqn:Hs.
  2: { vm_compute in Hr. injection Hr as <-. vm_compute in Hs. discriminate. }
  destruct (lease_attempts_spaced auth PopSample.who 2100 (secs 2000) 0 0 evs r (secs 15) (secs 15) r') as (t&_&Ht).
  - lia.
  - vm_compute. split; congruence.
  - cbn [evs lease_env]. split; [vm_compute; repeat split; congruence|]. split; [done|].
    split; [vm_compute; repeat split; congruence|]. split; [exact refused_exchange|]. exact I.
  - exact Hr.
  - exact Hs.
  - vm_compute in Hr. injection Hr as <-. reflexivity.
  - by exists t.
Defined.
