(* ===== verification/Registry.v ===== *)
(** * Journal registrations ([crates/spl-bridge/src/registry.rs])

    The table from hostnames to the journals that serve them, and every task
    that works on it: registrations waiting for their control stream and the
    table's lock, watchers of ended connections, replacements, retirements of
    unresponsive journals and the drain at shutdown.  A registration is known
    by its generation.  The dialer of a registration is its [retired] flag, the
    shutdown it was asked for and whether its connection is gone (Dialer.v); its
    lease is Lease.v. *)

From S2P Require Import Prelude Text Dialer.

Inductive RegistryError :=
| RetiredError
| OpenTimedOut
| Expired
| AdmissionDeadlineExceeded
| DialerFailed (e : DialerError).

Record RegisteredJournal := mkRegistered {
  jhostname : str;
  published : bool;
  jretired : bool;
  stopping : bool;
  gone : bool
}.

Definition retire_journal (j : RegisteredJournal) : RegisteredJournal :=
  mkRegistered (jhostname j) (published j) true (stopping j) (gone j).
Definition signal_shutdown (j : RegisteredJournal) : RegisteredJournal :=
  mkRegistered (jhostname j) (published j) (jretired j) true (gone j).
Definition publish (j : RegisteredJournal) : RegisteredJournal :=
  mkRegistered (jhostname j) true (jretired j) (stopping j) (gone j).
Definition connection_gone (j : RegisteredJournal) : RegisteredJournal :=
  mkRegistered (jhostname j) (published j) (jretired j) (stopping j) true.

(** [candidates] are the calls of [register] before their commit (the token's
    expiry and the admission deadline), [watchers] the spawned waits for the end
    of a connection, [removes] the calls of [retire_unresponsive] waiting for
    the lock, [shutdowns] the spawned [shutdown_bounded]s, and [drains] the
    journals [shutdown_all] has taken out and is about to retire. *)
Record Registry := mkRegistry {
  entries : gmap str Z;
  next_generation : Z;
  journals : gmap Z RegisteredJournal;
  candidates : gmap Z (Z * Z);
  watchers : gset Z;
  removes : list (str * Z);
  shutdowns : gset Z;
  drains : gset Z
}.
Definition registry_new : Registry := mkRegistry ∅ 0 ∅ ∅ ∅ [] ∅ ∅.

Definition set_journals (s : Registry) (f : gmap Z RegisteredJournal) : Registry :=
  mkRegistry (entries s) (next_generation s) f (candidates s) (watchers s) (removes s) (shutdowns s) (drains s).
Definition on_journal (g : Z) (f : RegisteredJournal -> RegisteredJournal) (s : Registry) : Registry :=
  set_journals s (alter f g (journals s)).

(** [Registry::register] up to its wait for the control stream. *)
Definition register_begin (hostname : str) (expires_at admission_deadline : Z) (s : Registry) : Registry :=
  let generation := next_generation s in
  mkRegistry (entries s) (wrap 64 (next_generation s + 1))
    (<[generation := mkRegistered hostname false false false false]> (journals s))
    (<[generation := (expires_at, admission_deadline)]> (candidates s))
    (watchers s) (removes s) (shutdowns s) (drains s).

(** A candidate that goes no further: its guard stops the dialer. *)
Definition drop_candidate (g : Z) (s : Registry) : Registry :=
  mkRegistry (entries s) (next_generation s) (alter signal_shutdown g (journals s)) (delete g (candidates s))
    (watchers s) (removes s) (shutdowns s) (drains s).

(** [Registry::register] once it holds the lock, at instant [now] and second
    [unix_now]. *)
Definition commit (g : Z) (now unix_now : Z) (s : Registry) : Registry * res RegistryError Z :=
  match candidates s !! g, journals s !! g with
  | Some (expires_at, admission_deadline), Some j =>
      if now >=? admission_deadline then (drop_candidate g s, Err AdmissionDeadlineExceeded)
      else if unix_now >=? expires_at then (drop_candidate g s, Err Expired)
      else
        let displaced := entries s !! jhostname j in
        let js := match displaced with Some d => alter retire_journal d (journals s) | None => journals s end in
        (mkRegistry (<[jhostname j := g]> (entries s)) (next_generation s) (alter publish g js)
           (delete g (candidates s)) ({[ g ]} ∪ watchers s) (removes s)
           (match displaced with Some d => {[ d ]} ∪ shutdowns s | None => shutdowns s end) (drains s),
         Ok g)
  | _, _ => (s, Panic)
  end.

Definition lookup_hostname (hostname : str) (s : Registry) : option Z := entries s !! hostname.

Definition remove_if_current (hostname : str) (g : Z) (s : Registry) : Registry :=
  mkRegistry (if bool_decide (entries s !! hostname = Some g) then delete hostname (entries s) else entries s)
    (next_generation s) (journals s) (candidates s) (watchers s) (removes s) (shutdowns s) (drains s).

(** The watcher of generation [g], when its connection has ended. *)
Definition watcher_runs (hostname : str) (g : Z) (s : Registry) : Registry :=
  let s := remove_if_current hostname g s in
  mkRegistry (entries s) (next_generation s) (journals s) (candidates s) (watchers s ∖ {[ g ]}) (removes s)
    (shutdowns s) (drains s).

(** [Registry::retire_unresponsive] up to its wait for the lock, and from there. *)
Definition retire_unresponsive_begin (hostname : str) (g : Z) (s : Registry) : Registry :=
  mkRegistry (entries s) (next_generation s) (alter retire_journal g (journals s)) (candidates s) (watchers s)
    ((hostname, g) :: removes s) (shutdowns s) (drains s).
Definition retire_unresponsive_end (hostname : str) (g : Z) (before after : list (str * Z)) (s : Registry) : Registry :=
  let s := remove_if_current hostname g s in
  mkRegistry (entries s) (next_generation s) (journals s) (candidates s) (watchers s) (before ++ after)
    ({[ g ]} ∪ shutdowns s) (drains s).

(** [Registry::shutdown_all]: the drain under the lock; the spawned shutdowns. *)
Definition shutdown_all (s : Registry) : Registry :=
  mkRegistry ∅ (next_generation s) (journals s) (candidates s) (watchers s) (removes s) (shutdowns s)
    (list_to_set (snd <$> map_to_list (entries s)) ∪ drains s).
Definition drain_one (g : Z) (s : Registry) : Registry :=
  mkRegistry (entries s) (next_generation s)
    (alter (fun j => signal_shutdown (retire_journal j)) g (journals s)) (candidates s) (watchers s) (removes s)
    (shutdowns s) (drains s ∖ {[ g ]}).

(** [RegisteredJournal::shutdown_bounded] in a spawned task. *)
Definition shutdown_one (g : Z) (s : Registry) : Registry :=
  mkRegistry (entries s) (next_generation s) (alter signal_shutdown g (journals s)) (candidates s) (watchers s)
    (removes s) (shutdowns s ∖ {[ g ]}) (drains s).

(** [RegisteredJournal::open_stream]: the flag before, what the dialer answers
    in time, and the flag after. *)
Definition open_stream (retired_before : bool) (opened : option (res DialerError Z)) (retired_after : bool)
  : res RegistryError Z :=
  if retired_before then Err RetiredError
  else
    match opened with
    | None => Err OpenTimedOut
    | Some (Ok stream) => if retired_after then Err RetiredError else Ok stream
    | Some (Err e) => Err (DialerFailed e)
    | Some Panic => Panic
    end.

(** ** Interleavings

    A call that waits for the lock reaches it: the drain timeout of the process,
    which drops the waiting calls of [retire_unresponsive] and [shutdown_all]
    when the process is about to end, is not a step. *)

(** The steps of work already under way. *)
Inductive task_step : Registry -> Registry -> Prop :=
| t_watcher s g j :
    g ∈ watchers s -> journals s !! g = Some j -> gone j = true ->
    task_step s (watcher_runs (jhostname j) g s)
| t_remove s h g before after :
    removes s = before ++ (h, g) :: after ->
    task_step s (retire_unresponsive_end h g before after s)
| t_shutdown s g : g ∈ shutdowns s -> task_step s (shutdown_one g s)
| t_drain s g : g ∈ drains s -> task_step s (drain_one g s)
| t_stopped s g j :
    journals s !! g = Some j -> stopping j = true -> gone j = false ->
    task_step s (on_journal g connection_gone s).

(** The steps from outside. *)
Inductive outer_step : Registry -> Registry -> Prop :=
| o_register s h e d : next_generation s + 1 < 2 ^ 64 -> outer_step s (register_begin h e d s)
| o_open_failed s g : is_Some (candidates s !! g) -> outer_step s (drop_candidate g s)
| o_commit s g now unix_now : is_Some (candidates s !! g) -> outer_step s (fst (commit g now unix_now s))
| o_gone s g j : journals s !! g = Some j -> outer_step s (on_journal g connection_gone s)
| o_unresponsive s g j :
    journals s !! g = Some j -> published j = true ->
    outer_step s (retire_unresponsive_begin (jhostname j) g s)
| o_lease_over s g j :
    journals s !! g = Some j -> published j = true ->
    outer_step s (on_journal g (fun j => signal_shutdown (retire_journal j)) s)
| o_shutdown_all s : outer_step s (shutdown_all s).

Definition reg_step (s s' : Registry) : Prop := task_step s s' \/ outer_step s s'.
Definition reachable (s : Registry) : Prop := rtc reg_step registry_new s.

(** ** The invariant *)

Create HintDb registry.

(** What a journal's flags say of the work that will end its connection. *)
Definition ending (s : Registry) (g : Z) (j : RegisteredJournal) : Prop :=
  stopping j = true \/ gone j = true \/ g ∈ shutdowns s \/ (jhostname j, g) ∈ removes s.

Record reg_inv (s : Registry) : Prop := mkRegInv {
  ri_range : 0 <= next_generation s < 2 ^ 64;
  ri_fresh : forall g j, journals s !! g = Some j -> g < next_generation s;
  ri_entry : forall h g, entries s !! h = Some g ->
    g ∈ watchers s /\ g ∉ shutdowns s /\ exists j, journals s !! g = Some j /\ jhostname j = h /\ published j = true;
  ri_candidate : forall g, is_Some (candidates s !! g) ->
    exists j, journals s !! g = Some j /\ published j = false /\ jretired j = false /\ stopping j = false;
  ri_dropped : forall g j, journals s !! g = Some j -> published j = false ->
    is_Some (candidates s !! g) \/ stopping j = true;
  ri_ending : forall g j, journals s !! g = Some j -> jretired j = true -> ending s g j;
  ri_live : forall g j, journals s !! g = Some j -> published j = true -> jretired j = false -> gone j = false ->
    entries s !! jhostname j = Some g \/ g ∈ drains s;
  ri_removes : forall h g, (h, g) ∈ removes s ->
    exists j, journals s !! g = Some j /\ jhostname j = h /\ published j = true /\ jretired j = true;
  ri_shutdowns : forall g, g ∈ shutdowns s ->
    exists j, journals s !! g = Some j /\ published j = true /\ jretired j = true;
  ri_drains : forall g, g ∈ drains s ->
    exists j, journals s !! g = Some j /\ published j = true;
  ri_stopping : forall g j, journals s !! g = Some j -> published j = true -> stopping j = true -> jretired j = true
}.

Lemma registry_new_inv : reg_inv registry_new.
Proof.
  constructor; cbn; try lia; intros *; rewrite ?lookup_empty; try set_solver.
  all: intros [? [=]].
Qed.

Lemma alter_keeps f g (m : gmap Z RegisteredJournal) g' (Q : RegisteredJournal -> Prop) :
  (exists j, m !! g' = Some j /\ Q j) -> (forall j, g' = g -> m !! g = Some j -> Q j -> Q (f j)) ->
  exists j, alter f g m !! g' = Some j /\ Q j.
Proof.
  intros (j & Hj & HQ) Hf. destruct (decide (g' = g)) as [->|Hne].
  - exists (f j). rewrite lookup_alter_eq, Hj. eauto.
  - exists j. rewrite lookup_alter_ne by congruence. eauto.
Qed.

Lemma alter_found f g (m : gmap Z RegisteredJournal) g' j :
  alter f g m !! g' = Some j -> exists i, m !! g' = Some i /\ (j = i /\ g' <> g \/ j = f i /\ g' = g).
Proof. intros H. apply lookup_alter_Some in H. naive_solver. Qed.

Lemma removed_found (m : gmap str Z) h g h' g' :
  (if bool_decide (m !! h = Some g) then delete h m else m) !! h' = Some g' <->
  m !! h' = Some g' /\ ~ (h' = h /\ g' = g).
Proof. case_bool_decide; rewrite ?lookup_delete_Some; naive_solver. Qed.

Lemma insert_keeps g v (m : gmap Z RegisteredJournal) g' (Q : RegisteredJournal -> Prop) :
  m !! g = None -> (exists j, m !! g' = Some j /\ Q j) -> exists j, <[g := v]> m !! g' = Some j /\ Q j.
Proof. intros Hn (j & Hj & HQ). exists j. rewrite lookup_insert_ne by congruence. eauto. Qed.

(** Turns facts on an altered table into facts on the table before. *)
Ltac altered :=
  repeat match goal with
  | H : alter _ _ _ !! _ = Some _ |- _ => apply alter_found in H; destruct H as (? & H & [[? ?]|[? ?]]); subst
  | H : is_Some (delete _ _ !! _) |- _ => apply lookup_delete_is_Some in H; destruct H as [? H]
  | H : (if bool_decide _ then _ else _) !! _ = Some _ |- _ => apply removed_found in H; destruct H as [H ?]
  | H : ∅ !! _ = Some _ |- _ => rewrite lookup_empty in H; discriminate H
  | H : <[_ := _]> _ !! _ = Some _ |- _ =>
      apply lookup_insert_Some in H; destruct H as [[? ?]|[? H]]; subst
  | H : is_Some (<[_ := _]> _ !! _) |- _ =>
      apply lookup_insert_is_Some in H; destruct H as [<-|[? H]]
  | H : _ ∈ _ ∪ _ |- _ => apply elem_of_union in H; destruct H as [H|H]
  | H : _ ∈ _ ∖ _ |- _ => apply elem_of_difference in H; destruct H as [H ?]
  | H : _ ∈ {[ _ ]} |- _ => apply elem_of_singleton in H; subst
  | H : _ ∈ _ :: _ |- _ => apply elem_of_cons in H; destruct H as [[= ? ?]|H]; subst
  | H : ?m !! ?g = Some ?x |- exists j, alter ?f ?g ?m !! ?g = Some j /\ _ =>
      exists (f x); rewrite lookup_alter_eq, H; split; [done|]
  | |- exists j, alter _ _ _ !! _ = Some j /\ _ => apply alter_keeps
  | Hn : ?m !! ?g = None |- exists j, <[?g := _]> ?m !! ?g' = Some j /\ _ =>
      tryif constr_eq g g' then (rewrite lookup_insert_eq; eexists; split; [reflexivity|]) else (apply insert_keeps; [done|])
  | |- context [is_Some (<[_ := _]> _ !! _)] => rewrite lookup_insert_is_Some
  | |- context [is_Some (delete _ _ !! _)] => rewrite lookup_delete_is_Some
  | |- context [(if bool_decide _ then _ else _) !! _ = Some _] => rewrite removed_found
  | |- context [_ ∈ _ ∪ _] => rewrite elem_of_union
  | |- context [_ ∈ _ ∖ _] => rewrite elem_of_difference
  | |- context [_ ∈ {[ _ ]}] => rewrite elem_of_singleton
  | |- context [_ ∈ _ :: _] => rewrite elem_of_cons
  end.

Ltac reg_fields Hinv :=
  destruct Hinv as [Hrange Hfresh Hentry Hcand Hdrop Hending Hlive Hrem Hshut Hdrain Hstop];
  unfold ending in *; constructor; cbn in *; intros; altered;
  try match goal with H : entries _ !! _ = Some _ |- _ => destruct (Hentry _ _ H) as (? & ? & ? & ? & ? & ?) end;
  try match goal with H : is_Some (candidates _ !! _) |- exists _, _ => pose proof (Hcand _ H) as (? & ? & ? & ? & ?) end;
  repeat match goal with |- _ /\ _ => split end; altered; unfold ending in *; cbn in *; intros;
  try match goal with H1 : published ?x = true, H2 : jretired ?x = false, H3 : gone ?x = false, H : journals _ !! _ = Some ?x |- _ =>
    pose proof (Hlive _ _ H H1 H2 H3) end;
  try match goal with H1 : jretired ?x = true, H : journals _ !! _ = Some ?x |- _ \/ _ =>
    pose proof (Hending _ _ H H1) end;
  altered.

Ltac reg_same :=
  match goal with
  | H : journals ?s !! ?g = Some ?j, H' : journals ?s !! ?g' = Some ?j' |- _ =>
      tryif unify g g' then fail else
      destruct (decide (g' = g)) as [->|]; [assert (j' = j) by congruence; subst j'|]
  end.
Ltac reg_auto :=
  try solve [tauto | congruence | intuition congruence | eauto 3 | eexists; split_and!; eauto 2
            | reg_same; subst; solve [tauto | intuition congruence]].

Lemma connection_gone_inv s g j : reg_inv s -> journals s !! g = Some j -> reg_inv (on_journal g connection_gone s).
Proof. intros Hinv Hj. reg_fields Hinv; reg_auto. Qed.

Lemma drop_candidate_inv s g : reg_inv s -> is_Some (candidates s !! g) -> reg_inv (drop_candidate g s).
Proof.
  intros Hinv Hj. destruct (ri_candidate _ Hinv _ Hj) as (j0 & Hj0 & Hp0 & Hr0 & _). reg_fields Hinv; reg_auto.
  destruct (Hdrop _ _ H H0); [left; split; [congruence|done]|tauto].
Qed.

Lemma watcher_runs_inv s g j :
  reg_inv s -> journals s !! g = Some j -> gone j = true -> reg_inv (watcher_runs (jhostname j) g s).
Proof. intros Hinv Hj Hd. reg_fields Hinv; reg_auto. Qed.

Lemma retire_unresponsive_begin_inv s g j :
  reg_inv s -> journals s !! g = Some j -> published j = true -> reg_inv (retire_unresponsive_begin (jhostname j) g s).
Proof. intros Hinv Hj Hp. reg_fields Hinv; reg_auto. Qed.

Lemma lease_over_inv s g j :
  reg_inv s -> journals s !! g = Some j -> published j = true ->
  reg_inv (on_journal g (fun j => signal_shutdown (retire_journal j)) s).
Proof. intros Hinv Hj Hp. reg_fields Hinv; reg_auto. Qed.

Lemma drain_one_inv s g : reg_inv s -> g ∈ drains s -> reg_inv (drain_one g s).
Proof. intros Hinv Hg. destruct (ri_drains _ Hinv _ Hg) as (j & Hj & Hp). reg_fields Hinv; reg_auto. Qed.

Lemma shutdown_one_inv s g : reg_inv s -> g ∈ shutdowns s -> reg_inv (shutdown_one g s).
Proof. intros Hinv Hg. destruct (ri_shutdowns _ Hinv _ Hg) as (j & Hj & Hp & Hr). reg_fields Hinv; reg_auto. Qed.

Lemma retire_unresponsive_end_inv s h g before after :
  reg_inv s -> removes s = before ++ (h, g) :: after -> reg_inv (retire_unresponsive_end h g before after s).
Proof.
  intros Hinv Hr. destruct (ri_removes _ Hinv h g) as (j & Hj & Hh & Hp & Hret); [rewrite Hr; set_solver|].
  assert (Hsub : forall x, x ∈ removes s <-> x = (h, g) \/ x ∈ before ++ after) by (rewrite Hr; set_solver).
  clear Hr. reg_fields Hinv; reg_auto.
  - rewrite Hsub in *. intuition congruence.
  - apply Hrem, Hsub. by right.
Qed.

Lemma shutdown_all_inv s : reg_inv s -> reg_inv (shutdown_all s).
Proof.
  intros Hinv.
  assert (Hd : forall g, g ∈ (list_to_set (snd <$> map_to_list (entries s)) : gset Z) <->
                 exists h, entries s !! h = Some g).
  { intros g. rewrite elem_of_list_to_set, list_elem_of_fmap. setoid_rewrite elem_of_map_to_list'.
    split; [intros ([h ?] & -> & ?); eauto | intros [h ?]; exists (h, g); eauto]. }
  reg_fields Hinv; reg_auto.
  - right. rewrite Hd. destruct H3; [left|right]; eauto.
  - apply Hd in H as [h H]. destruct (Hentry _ _ H) as (_ & _ & j & ? & ? & ?). eauto.
Qed.

Lemma register_begin_inv s h e d :
  reg_inv s -> next_generation s + 1 < 2 ^ 64 -> reg_inv (register_begin h e d s).
Proof.
  intros Hinv Hn.
  assert (Hw : wrap 64 (next_generation s + 1) = next_generation s + 1)
    by (unfold wrap; apply Z.mod_small; pose proof (ri_range _ Hinv); lia).
  assert (Hnone : journals s !! next_generation s = None)
    by (apply eq_None_not_Some; intros [j Hj]; apply (ri_fresh _ Hinv) in Hj; lia).
  reg_fields Hinv; rewrite ?Hw; try lia; reg_auto.
  - apply Hfresh in H. lia.
  - destruct (Hdrop _ _ H H0); tauto.
Qed.

(** A commit displaces the current registration as [retire_unresponsive] does,
    in one section, and puts the candidate in the freed place. *)
Definition publish_candidate (g : Z) (h : str) (s : Registry) : Registry :=
  mkRegistry (<[h := g]> (entries s)) (next_generation s) (alter publish g (journals s)) (delete g (candidates s))
    ({[ g ]} ∪ watchers s) (removes s) (shutdowns s) (drains s).
Definition displace (h : str) (s : Registry) : Registry :=
  match entries s !! h with
  | Some old => retire_unresponsive_end h old [] (removes s) (retire_unresponsive_begin h old s)
  | None => s
  end.

Lemma displace_inv s h : reg_inv s -> reg_inv (displace h s).
Proof.
  intros Hinv. unfold displace. destruct (entries s !! h) as [old|] eqn:Hold; [|done].
  destruct (ri_entry _ Hinv _ _ Hold) as (_ & _ & jo & Hjo & <- & Hpo).
  apply retire_unresponsive_end_inv; [|done]. by apply retire_unresponsive_begin_inv.
Qed.

Lemma displace_candidate s g j :
  reg_inv s -> is_Some (candidates s !! g) -> journals s !! g = Some j ->
  entries (displace (jhostname j) s) !! jhostname j = None /\ journals (displace (jhostname j) s) !! g = Some j.
Proof.
  intros Hinv Hc Hj. destruct (ri_candidate _ Hinv _ Hc) as (j0 & Hj0 & Hp & _). unfold displace.
  destruct (entries s !! jhostname j) as [old|] eqn:Hold; [|done].
  destruct (ri_entry _ Hinv _ _ Hold) as (_ & _ & jo & Hjo & _ & Hpo). cbn. rewrite bool_decide_true by done.
  split; [apply lookup_delete_eq|]. rewrite lookup_alter_ne by congruence. done.
Qed.

Lemma commit_displaces s g now unix_now j e d :
  reg_inv s -> candidates s !! g = Some (e, d) -> journals s !! g = Some j ->
  fst (commit g now unix_now s) =
    if (now >=? d) || (unix_now >=? e) then drop_candidate g s
    else publish_candidate g (jhostname j) (displace (jhostname j) s).
Proof.
  intros Hinv Hc Hj. unfold commit. rewrite Hc, Hj. destruct (now >=? d); [done|]. destruct (unix_now >=? e); [done|].
  cbn [fst orb]. unfold displace, publish_candidate.
  destruct (entries s !! jhostname j) as [old|] eqn:Hold; cbn; [|done].
  by rewrite bool_decide_true, insert_delete_eq by done.
Qed.

Lemma publish_candidate_inv s g j :
  reg_inv s -> is_Some (candidates s !! g) -> journals s !! g = Some j -> entries s !! jhostname j = None ->
  reg_inv (publish_candidate g (jhostname j) s).
Proof.
  intros Hinv Hc Hj He. destruct (ri_candidate _ Hinv _ Hc) as (j0 & Hj0 & Hp0 & Hr0 & Hs0).
  assert (Hnew : g ∉ shutdowns s).
  { intros (j1 & ? & ? & ?)%(ri_shutdowns _ Hinv). congruence. }
  reg_fields Hinv; reg_auto.
  - destruct (Hdrop _ _ H H0); [left; split; [congruence|done]|tauto].
  - destruct H3 as [H3|?]; [left|tauto]. rewrite lookup_insert_ne; [done|]. congruence.
  - left. replace x with j by congruence. apply lookup_insert_eq.
Qed.

Lemma commit_inv s g now unix_now :
  reg_inv s -> is_Some (candidates s !! g) -> reg_inv (fst (commit g now unix_now s)).
Proof.
  intros Hinv Hc. destruct (ri_candidate _ Hinv _ Hc) as (j & Hj & _). pose proof Hc as [[e d] Hed].
  rewrite (commit_displaces _ _ _ _ _ _ _ Hinv Hed Hj).
  destruct ((now >=? d) || (unix_now >=? e)); [by apply drop_candidate_inv|].
  destruct (displace_candidate _ _ _ Hinv Hc Hj) as [Hnone Hj'].
  apply publish_candidate_inv; [by apply displace_inv| |done..].
  unfold displace. by destruct (entries s !! jhostname j).
Qed.

#[export] Hint Resolve watcher_runs_inv retire_unresponsive_end_inv shutdown_one_inv drain_one_inv
  connection_gone_inv register_begin_inv drop_candidate_inv commit_inv retire_unresponsive_begin_inv
  lease_over_inv shutdown_all_inv : registry.

Lemma reg_step_inv s s' : reg_inv s -> reg_step s s' -> reg_inv s'.
Proof. intros Hinv [H|H]; destruct H; eauto with registry. Qed.

Lemma rtc_reg_step_inv s s' : rtc reg_step s s' -> reg_inv s -> reg_inv s'.
Proof. induction 1; eauto using reg_step_inv. Qed.

Lemma reachable_inv s : reachable s -> reg_inv s.
Proof. intros H. eapply rtc_reg_step_inv; [exact H|]. apply registry_new_inv. Qed.

(** ** Settling *)

Definition running (s : Registry) : gset Z :=
  dom (filter (fun p => stopping p.2 = true /\ gone p.2 = false) (journals s)).
Definition weight (s : Registry) : nat :=
  4 * length (removes s) + 3 * size (drains s) + 3 * size (shutdowns s) + size (running s) + size (watchers s).

(** No task has a step left. *)
Definition settled (s : Registry) : Prop :=
  removes s = [] /\ shutdowns s = ∅ /\ drains s = ∅ /\
  (forall g j, g ∈ watchers s -> journals s !! g = Some j -> gone j = false) /\
  (forall g j, journals s !! g = Some j -> stopping j = true -> gone j = true).

Lemma elem_of_running s g :
  g ∈ running s <-> exists j, journals s !! g = Some j /\ stopping j = true /\ gone j = false.
Proof.
  unfold running. rewrite elem_of_dom. unfold is_Some. setoid_rewrite map_lookup_filter_Some. done.
Qed.

Lemma running_alter s s' f g :
  journals s' = alter f g (journals s) -> running s' ⊆ {[ g ]} ∪ running s.
Proof.
  intros Hs x (j & Hj & Hf)%elem_of_running. rewrite Hs in Hj. apply alter_found in Hj as (i & Hi & [[-> _]|[-> ->]]).
  - apply elem_of_union. right. apply elem_of_running. eauto.
  - set_solver.
Qed.

Lemma size_remove_1 (X : gset Z) x : x ∈ X -> size X = S (size (X ∖ {[ x ]})).
Proof.
  intros Hx. rewrite (union_difference_singleton_L x X) at 1 by done.
  rewrite size_union by set_solver. by rewrite size_singleton.
Qed.

Lemma size_add_1 (X : gset Z) x : (size ({[ x ]} ∪ X) <= S (size X))%nat.
Proof. rewrite size_union_alt, size_singleton. pose proof (subseteq_size (X ∖ {[ x ]}) X ltac:(set_solver)). lia. Qed.

Lemma running_alter_size s s' f g :
  journals s' = alter f g (journals s) -> (size (running s') <= S (size (running s)))%nat.
Proof.
  intros Hs. etransitivity; [eapply subseteq_size, running_alter, Hs|]. apply size_add_1.
Qed.

Lemma running_same s s' : journals s' = journals s -> running s' = running s.
Proof. unfold running. by intros ->. Qed.

Lemma task_step_weight s s' : task_step s s' -> (weight s' < weight s)%nat.
Proof.
  unfold weight. intros Hstep. destruct Hstep as [s g j Hg _ _|s h g before after Hr|s g Hg|s g Hg|s g j Hj Hs Hn].
  - cbn. rewrite (size_remove_1 (watchers s) g Hg), (running_same s) by done. lia.
  - cbn. rewrite Hr, !length_app, (running_same s) by done. cbn. pose proof (size_add_1 (shutdowns s) g). lia.
  - pose proof (running_alter_size s (shutdown_one g s) _ g eq_refl). cbn in *.
    rewrite (size_remove_1 (shutdowns s) g Hg). lia.
  - pose proof (running_alter_size s (drain_one g s) _ g eq_refl). cbn in *.
    rewrite (size_remove_1 (drains s) g Hg). lia.
  - assert (running (on_journal g connection_gone s) ⊂ running s) as ?%subset_size; [|cbn; lia].
    split.
    + intros x (i & Hi & Hf)%elem_of_running. cbn in Hi. apply alter_found in Hi as (i' & Hi & [[-> _]|[-> ->]]).
      * apply elem_of_running. eauto.
      * cbn in Hf. naive_solver.
    + intros Hsub. assert (Hin : g ∈ running s) by (apply elem_of_running; eauto).
      apply Hsub, elem_of_running in Hin as (i & Hi & _ & Hg). cbn in Hi. rewrite lookup_alter_eq, Hj in Hi.
      by injection Hi as <-.
Qed.

Lemma task_progress s : (exists s', task_step s s') \/ settled s.
Proof.
  unfold settled.
  destruct (removes s) as [|[h g] l] eqn:Hr; [|left; eexists; by eapply (t_remove s h g [])].
  destruct (set_choose_or_empty (shutdowns s)) as [[g Hg]|Hsh]; [left; eexists; by eapply t_shutdown|].
  destruct (set_choose_or_empty (drains s)) as [[g Hg]|Hdr]; [left; eexists; by eapply t_drain|].
  destruct (set_choose_or_empty (running s)) as [[g Hg]|Hru].
  { apply elem_of_running in Hg as (j & ? & ? & ?). left. eexists. by eapply t_stopped. }
  destruct (set_choose_or_empty (watchers s ∩ dom (filter (fun p => gone p.2 = true) (journals s)))) as [[g Hg]|Hw].
  { apply elem_of_intersection in Hg as [? [j [? ?]%map_lookup_filter_Some]%elem_of_dom].
    left. eexists. by eapply t_watcher. }
  right. split_and!; [done|set_solver|set_solver|..].
  - intros g j Hg Hj. apply not_true_is_false. intros Hgone. apply (not_elem_of_empty (C:=gset Z) g), Hw, elem_of_intersection. split; [done|].
    apply elem_of_dom. exists j. by apply map_lookup_filter_Some.
  - intros g j Hj Hs. apply not_false_is_true. intros Hgone. apply (not_elem_of_empty (C:=gset Z) g), Hru, elem_of_running. eauto.
Qed.

Lemma task_step_settled s s' : settled s -> ~ task_step s s'.
Proof.
  intros (Hr & Hsh & Hdr & Hw & Hru) Hstep. destruct Hstep as [s g j Hg Hj Hn|s h g before after Hr'|s g Hg|s g Hg|s g j Hj Hs Hn].
  - specialize (Hw _ _ Hg Hj). congruence.
  - rewrite Hr in Hr'. by destruct before.
  - set_solver.
  - set_solver.
  - specialize (Hru _ _ Hj Hs). congruence.
Qed.

Lemma task_step_reg s s' : rtc task_step s s' -> rtc reg_step s s'.
Proof. apply rtc_subrel. by left. Qed.

Lemma settles s : exists s', rtc task_step s s' /\ settled s'.
Proof.
  remember (weight s) as n eqn:Hn. revert s Hn. induction n as [n IH] using lt_wf_ind. intros s ->.
  destruct (task_progress s) as [[s' Hs]|]; [|by exists s].
  destruct (IH _ (task_step_weight _ _ Hs) s' eq_refl) as (s'' & ? & ?). exists s''. split; [|done]. by eapply rtc_l.
Qed.

Lemma nsteps_weight n s s' : nsteps task_step n s s' -> (n + weight s' <= weight s)%nat.
Proof. induction 1 as [|n s1 s2 s3 H ? IH]; [lia|]. apply task_step_weight in H. lia. Qed.

(** A journal that can serve a client. *)
Definition live (s : Registry) (h : str) (g : Z) : Prop :=
  exists j, journals s !! g = Some j /\ jhostname j = h /\ published j = true /\ jretired j = false /\ gone j = false.

Lemma settled_live s h g : reg_inv s -> settled s -> lookup_hostname h s = Some g <-> live s h g.
Proof.
  intros Hinv (Hr & Hsh & Hdr & Hw & Hru). split.
  - intros He. destruct (ri_entry _ Hinv _ _ He) as (Hg & _ & j & Hj & Hh & Hp). exists j. split_and!; [done..| |eauto].
    apply not_true_is_false. intros Hret. destruct (ri_ending _ Hinv _ _ Hj Hret) as [H|[H|[H|H]]]; [|..|set_solver|].
    + specialize (Hw _ _ Hg Hj). specialize (Hru _ _ Hj H). congruence.
    + specialize (Hw _ _ Hg Hj). congruence.
    + rewrite Hr in H. set_solver.
  - intros (j & Hj & <- & Hp & Hret & Hgone). destruct (ri_live _ Hinv _ _ Hj Hp Hret Hgone); [done|]. set_solver.
Qed.

(** ** Theorems *)

(** C18. However registrations, replacements, retirements, ended connections and
    shutdowns interleave, the table routes a hostname to the right journal: an
    entry belongs to its hostname and was published, and if it is retired or its
    connection is gone, the watcher, the stop or the removal that will take it
    out is under way.  A published journal that is neither retired nor gone is
    the entry of its hostname, or is being drained by a shutdown: no late cleanup
    of an older generation takes it out, and no two of them share a hostname. *)
Theorem registry_routes_live s :
  reachable s ->
  (forall h g, lookup_hostname h s = Some g -> exists j,
     journals s !! g = Some j /\ jhostname j = h /\ published j = true /\ g ∈ watchers s /\
     (jretired j = true -> stopping j = true \/ gone j = true \/ (h, g) ∈ removes s)) /\
  (forall h g, live s h g -> lookup_hostname h s = Some g \/ g ∈ drains s) /\
  (forall h g g', live s h g -> live s h g' -> g ∉ drains s -> g' ∉ drains s -> g = g').
Proof.
  intros Hinv%reachable_inv.
  assert (Hlive : forall h g, live s h g -> lookup_hostname h s = Some g \/ g ∈ drains s)
    by (intros h g (j & Hj & <- & ? & ? & ?); by apply (ri_live _ Hinv _ _ Hj)).
  split_and!; [|done|].
  - intros h g He. destruct (ri_entry _ Hinv _ _ He) as (Hw & Hs & j & Hj & <- & Hp). exists j. split_and!; [done..|].
    intros Hr. destruct (ri_ending _ Hinv _ _ Hj Hr) as [?|[?|[?|?]]]; tauto.
  - intros h g g' Hg Hg' Hd Hd'. apply Hlive in Hg as [Hg|]; [|done]. apply Hlive in Hg' as [Hg'|]; [|done].
    congruence.
Qed.

(** The work a registry has under way ends: from any reachable state its
    tasks take at most [weight] steps in every order, they can be run until none
    is left, and whenever none is left the table holds the live journals and
    only those. *)
Theorem registry_settles s :
  reachable s ->
  (forall n s', nsteps task_step n s s' -> (n <= weight s)%nat) /\
  (exists s', rtc task_step s s' /\ forall s'', ~ task_step s' s'') /\
  (forall s', rtc task_step s s' -> (forall s'', ~ task_step s' s'') ->
     forall h g, lookup_hostname h s' = Some g <-> live s' h g).
Proof.
  intros Hinv%reachable_inv. split_and!.
  - intros n s' Hn. apply nsteps_weight in Hn. lia.
  - destruct (settles s) as (s' & Hs & Hset). exists s'. split; [done|]. intros s''. by apply task_step_settled.
  - intros s' Hs Hend h g. destruct (task_progress s') as [[s'' Hstep]|Hset]; [by destruct (Hend s'')|].
    apply settled_live; [|done]. eapply rtc_reg_step_inv; [by apply task_step_reg|done].
Qed.

(** A registration commits exactly when the lock is reached before its
    admission deadline and before its token expires.  Then its hostname routes
    to it and every other hostname as before, and the journal it displaced is
    retired, has a shutdown under way and opens no further stream.  Otherwise
    the table is as it was and the candidate's connection is told to stop. *)
Theorem registry_commit s g e d j now unix_now :
  reachable s -> candidates s !! g = Some (e, d) -> journals s !! g = Some j ->
  let '(s', r) := commit g now unix_now s in
  candidates s' !! g = None /\
  if (now <? d) && (unix_now <? e)
  then r = Ok g /\ entries s' = <[jhostname j := g]> (entries s) /\
       forall old, lookup_hostname (jhostname j) s = Some old ->
         old <> g /\ old ∈ shutdowns s' /\
         exists jo, journals s' !! old = Some jo /\ jretired jo = true /\
           forall opened after, open_stream (jretired jo) opened after = Err RetiredError
  else (r = Err AdmissionDeadlineExceeded /\ d <= now \/ r = Err Expired /\ e <= unix_now) /\
       entries s' = entries s /\
       exists j', journals s' !! g = Some j' /\ published j' = false /\ stopping j' = true.
Proof.
  intros Hinv%reachable_inv Hc Hj.
  destruct (ri_candidate _ Hinv _ (mk_is_Some _ _ Hc)) as (j0 & Hj0 & Hp & _). rewrite Hj in Hj0. injection Hj0 as <-.
  unfold commit. rewrite Hc, Hj. rewrite !Z.geb_leb.
  assert (Hdrop : exists j', alter signal_shutdown g (journals s) !! g = Some j' /\ published j' = false /\ stopping j' = true)
    by (exists (signal_shutdown j); rewrite lookup_alter_eq, Hj; eauto).
  destruct (d <=? now) eqn:Hd; [|destruct (e <=? unix_now) eqn:He].
  - replace (now <? d) with false by lia. cbn. rewrite lookup_delete_eq. split_and!; auto with lia.
  - replace (unix_now <? e) with false by lia. rewrite andb_false_r. cbn. rewrite lookup_delete_eq.
    split_and!; auto with lia.
  - replace (now <? d) with true by lia. replace (unix_now <? e) with true by lia. cbn. rewrite lookup_delete_eq.
    split_and!; [done..|]. unfold lookup_hostname. intros old Hold. rewrite Hold.
    destruct (ri_entry _ Hinv _ _ Hold) as (_ & _ & jo & Hjo & _ & Hpo).
    assert (old <> g) by congruence. split_and!; [done|set_solver|].
    exists (retire_journal jo). rewrite lookup_alter_ne, lookup_alter_eq, Hjo by congruence. done.
Qed.

Module RegistrySample.

Definition host : str := lit "j".
Definition first_in : Registry := fst (commit 0 5 5 (register_begin host 10 10 registry_new)).
Definition second_waits : Registry := register_begin host 20 20 first_in.
Definition replaced : Registry := fst (commit 1 6 6 second_waits).

Lemma second_waits_reachable : reachable second_waits.
Proof.
  unfold reachable. eapply rtc_l; [right; apply (o_register _ host 10 10); vm_compute; done|].
  eapply rtc_l; [right; apply (o_commit _ 0 5 5); eexists; vm_compute; done|].
  eapply rtc_l; [right; apply (o_register _ host 20 20); vm_compute; done|]. apply rtc_refl.
Qed.

Lemma replaced_reachable : reachable replaced.
Proof.
  unfold reachable. eapply rtc_r; [exact second_waits_reachable|].
  right. apply (o_commit _ 1 6 6); eexists; vm_compute; done.
Qed.

End RegistrySample.

Section Witnesses.
Import RegistrySample.

Lemma registry_routes_live_witness :
  live replaced host 1 /\ (lookup_hostname host replaced = Some 1 \/ 1 ∈ drains replaced).
Proof.
  assert (H : live replaced host 1) by (eexists; split_and!; vm_compute; reflexivity).
  split; [exact H|]. exact (proj1 (proj2 (registry_routes_live replaced replaced_reachable)) host 1 H).
Defined.

Lemma registry_settles_witness :
  exists s', rtc task_step replaced s' /\ forall s'', ~ task_step s' s''.
Proof. exact (proj1 (proj2 (registry_settles replaced replaced_reachable))). Defined.

Lemma registry_commit_witness :
  lookup_hostname host second_waits = Some 0 /\ 0 ∈ shutdowns replaced.
Proof.
  split; [vm_compute; reflexivity|].
  pose proof (registry_commit second_waits 1 20 20 (mkRegistered host false false false false) 6 6
    second_waits_reachable ltac:(vm_compute; reflexivity) ltac:(vm_compute; reflexivity)) as H.
  unfold replaced. destruct (commit 1 6 6 second_waits) as [s' r]. cbn [fst].
  destruct H as (_ & _ & _ & H). exact (proj1 (proj2 (H 0 ltac:(vm_compute; reflexivity)))).
Defined.

End Witnesses.
