(* ===== verification/Routing.v ===== *)
(** * Client routing and the listeners ([crates/spl-bridge/src/lib.rs])

    The public side of the bridge: the accept loops, and [handle_client], which
    peeks at a client's ClientHello, splices it to the control listener, the
    ACME responder or the journal registered for its label, and holds a client
    it refuses the way a client of a sleeping journal is held.  Also
    [routed.rs]: the first-byte witness and the stand-in stream.  The PROXY
    header of [proxy_protocol.rs] is formatted by a third-party crate and is an
    argument.

    The client is a strategy from the operations seen so far to the next outcome
    ([sock_op], [outcome]).  The ends it can be spliced to are one world with a
    step per end and operation; the end is found as the code finds it, a journal
    by looking its label up in the registry of Registry.v, and every operation
    is noted with the end it addressed.
    [tokio::io::copy_bidirectional] is third-party code: it is the [Splicer]
    argument, any deterministic program over the two ends.  The deadline of a
    route is the number of polls that happen before it. *)

From S2P Require Import Prelude Frame Text Window Sni Dialer DialerHandle Pop Registry.

(** ** Constants *)

Definition milliseconds (n : Z) : Z := n * 1000000.
Definition INITIAL_ACCEPT_BACKOFF : Z := milliseconds 50.
Definition MAX_ACCEPT_BACKOFF : Z := milliseconds 5000.
Definition MAX_SNI_ADMISSION_SLOTS : Z := 256.
Definition MAX_HELD_REFUSALS : Z := 1024.
Definition RESERVED_CONTROL_SNI : str := lit "bridge.solstone.me".

(** ** Log events *)

Inductive BridgeLogEvent :=
| ControlListenerStarted
| ControlListenerAcceptFailed
| ControlTlsHandshakeRejected
| ControlCertificateStartupFailed
| ControlCertificateReloadFailed
| JournalRegistrationTokenRejected
| JournalRegistrationJwksUnavailable
| JournalRegistrationNonceOutstandingCapacity
| JournalRegistrationNonceSpentCapacity
| JournalRegistrationNonceGenerationFailed
| JournalRegistrationFramingOrProofRejected
| JournalRegistrationRejectedAdmissionTimeout
| JournalRegistrationRegistryFailed
| JournalRegistered
| JournalEvicted
| JournalRegistrationAdmissionTimedOut
| JournalLeaseRenewalRetryableAttemptFailed
| JournalLeaseRenewalTerminalPoisoned
| JournalLeaseRenewalChallengeUndeliverable
| JournalLeaseRenewalChallengeWritten
| JournalLeaseRenewalResponseTimedOut
| JournalLeaseRenewalNonceOutstandingCapacity
| JournalLeaseRenewalNonceSpentCapacity
| JournalLeaseRenewed
| JournalLeaseExpiredWallClock
| ClientListenerStarted
| ClientListenerAcceptFailed
| ClientKeepaliveNotConfigured
| ClientRejectedCapacity
| ClientRejectedInvalidClientHello
| ClientRejectedInvalidHostname
| ClientAcmeForwardFailed
| AcmeTargetRejected
| BridgeShutdownReceived
| BridgeDrainTimedOut
| ClientRejectedWithoutJournalRegistration
| ClientRejectedJournalStreamOpen
| ClientRejectedProxyHeaderBuild
| ClientRejectedProxyHeaderWrite
| ClientRefusalHoldCapacity
| ClientRejectedJournalUnresponsive
| JournalRetiredUnresponsive
| ClientRoutedToJournal
| ClientSpliceClosed
| ClientSpliceClosedWithIoError
| ControlSpliceDialFailed
| ControlSpliceDialTimedOut
| ControlSpliceConnected.

#[export] Instance BridgeLogEvent_eq_dec : EqDecision BridgeLogEvent.
Proof. solve_decision. Defined.

Inductive LogLevel := Info | Warn.

(** [BridgeLogEvent::emit]: the level and the fixed text. *)
Definition log_line (e : BridgeLogEvent) : LogLevel * string :=
  match e with
  | ControlListenerStarted => (Info, "control listener started")
  | ControlListenerAcceptFailed => (Warn, "control listener accept failed")
  | ControlTlsHandshakeRejected => (Warn, "control TLS handshake rejected")
  | ControlCertificateStartupFailed => (Warn, "control certificate startup validation failed")
  | ControlCertificateReloadFailed => (Warn, "control certificate reload failed; keeping prior certificate")
  | JournalRegistrationTokenRejected => (Warn, "journal registration rejected: token rejection")
  | JournalRegistrationJwksUnavailable => (Warn, "journal registration rejected: JWKS unavailable")
  | JournalRegistrationNonceOutstandingCapacity => (Warn, "journal registration rejected: nonce outstanding capacity")
  | JournalRegistrationNonceSpentCapacity => (Warn, "journal registration rejected: nonce spent capacity")
  | JournalRegistrationNonceGenerationFailed => (Warn, "journal registration rejected: nonce generation failed")
  | JournalRegistrationFramingOrProofRejected => (Warn, "journal registration rejected: framing or proof rejection")
  | JournalRegistrationRejectedAdmissionTimeout => (Warn, "journal registration failed: admission timeout")
  | JournalRegistrationRegistryFailed => (Warn, "journal registration failed: registry failure")
  | JournalRegistered => (Info, "journal registered")
  | JournalEvicted => (Info, "journal evicted")
  | JournalRegistrationAdmissionTimedOut => (Warn, "journal registration timed out")
  | JournalLeaseRenewalRetryableAttemptFailed => (Warn, "journal lease renewal attempt rejected")
  | JournalLeaseRenewalTerminalPoisoned => (Warn, "journal lease renewal stream poisoned")
  | JournalLeaseRenewalChallengeUndeliverable => (Warn, "journal lease renewal failed: the challenge could not be written")
  | JournalLeaseRenewalChallengeWritten => (Info, "journal lease renewal: challenge written to the control stream")
  | JournalLeaseRenewalResponseTimedOut => (Warn, "journal lease renewal failed: no response before the attempt cap")
  | JournalLeaseRenewalNonceOutstandingCapacity => (Warn, "journal lease renewal rejected: nonce outstanding capacity")
  | JournalLeaseRenewalNonceSpentCapacity => (Warn, "journal lease renewal rejected: nonce spent capacity")
  | JournalLeaseRenewed => (Info, "journal lease renewed")
  | JournalLeaseExpiredWallClock => (Warn, "journal lease expired")
  | ClientListenerStarted => (Info, "client listener started")
  | ClientListenerAcceptFailed => (Warn, "client listener accept failed")
  | ClientKeepaliveNotConfigured => (Warn, "accepted connection could not be given a keepalive")
  | ClientRejectedCapacity => (Warn, "client rejected: admission capacity exceeded")
  | ClientRejectedInvalidClientHello => (Warn, "client rejected: invalid client hello")
  | ClientRejectedInvalidHostname => (Warn, "client rejected: invalid hostname")
  | ClientAcmeForwardFailed => (Warn, "client acme forward failed")
  | AcmeTargetRejected => (Warn, "acme target address rejected: must be loopback")
  | BridgeShutdownReceived => (Info, "bridge shutdown signal received; starting drain")
  | BridgeDrainTimedOut => (Warn, "bridge drain timed out; aborting active connections")
  | ClientRejectedWithoutJournalRegistration => (Warn, "client rejected without journal registration")
  | ClientRejectedJournalStreamOpen => (Warn, "client rejected because journal stream could not open")
  | ClientRejectedProxyHeaderBuild => (Warn, "client rejected because PROXY header could not be built")
  | ClientRejectedProxyHeaderWrite => (Warn, "client rejected because PROXY header could not be written")
  | ClientRefusalHoldCapacity => (Warn, "refused client closed early: refusal hold capacity exceeded")
  | ClientRejectedJournalUnresponsive => (Warn, "client rejected because the journal never answered")
  | JournalRetiredUnresponsive => (Info, "journal retired: unresponsive to a routed client")
  | ClientRoutedToJournal => (Info, "client routed to journal")
  | ClientSpliceClosed => (Info, "client splice closed")
  | ClientSpliceClosedWithIoError => (Warn, "client splice closed with I/O error")
  | ControlSpliceDialFailed => (Warn, "control splice dial failed")
  | ControlSpliceDialTimedOut => (Warn, "control splice dial timed out")
  | ControlSpliceConnected => (Info, "control splice connected")
  end%string.

Definition pop_admission_event (e : PopError) : BridgeLogEvent :=
  match e with
  | TokenRejected | HostnameMismatch | TokenTimeInvalid => JournalRegistrationTokenRejected
  | JwksUnavailable | JwksKeyUnavailable | JwksUrl | JwksTlsConfiguration => JournalRegistrationJwksUnavailable
  | NonceOutstandingCapacity => JournalRegistrationNonceOutstandingCapacity
  | NonceSpentCapacity => JournalRegistrationNonceSpentCapacity
  | NonceCollisionExhausted | Randomness => JournalRegistrationNonceGenerationFailed
  | Io | MessageTooLarge | InvalidMessage | ChallengeTimeInvalid | InvalidProof | NonceReplay =>
      JournalRegistrationFramingOrProofRejected
  end.

Definition registry_admission_event (e : RegistryError) : BridgeLogEvent :=
  match e with
  | Expired | AdmissionDeadlineExceeded => JournalRegistrationRejectedAdmissionTimeout
  | RetiredError | OpenTimedOut | DialerFailed _ => JournalRegistrationRegistryFailed
  end.

(** ** Accept loops *)

(** How a back-off sleep ends, with the shutdown flag read afterwards: it
    elapses, the watch changes, or its sender is gone. *)
Inductive BackoffWake := Elapsed (flag : bool) | FlagChanged (flag : bool) | FlagSenderGone (flag : bool).

(** The next back-off, and whether to stop. *)
Definition accept_backoff_sleep (backoff : Z) (w : BackoffWake) : Z * bool :=
  let '(stop, flag) := match w with Elapsed f => (false, f) | FlagChanged f => (f, f) | FlagSenderGone f => (false, f) end in
  (Z.min (backoff * 2) MAX_ACCEPT_BACKOFF, stop || flag).

(** What the loop of [run_control_listener] and [run_client_listener] selects. *)
Inductive AcceptEvent :=
| AcceptOk
| AcceptFails (w : BackoffWake)
| ShutdownWatch (ok flag : bool).

Record AcceptLoop := mkAccept {
  backoff : Z;
  accept_spawned : Z;
  sleeps : list Z;
  accept_log : list BridgeLogEvent;
  accept_stopped : bool
}.

(** [started] and [failed] are the listener's own two events. *)
Definition accept_loop_new (started : BridgeLogEvent) : AcceptLoop := mkAccept INITIAL_ACCEPT_BACKOFF 0 [] [started] false.
Definition accept_turn (failed : BridgeLogEvent) (l : AcceptLoop) (e : AcceptEvent) : AcceptLoop :=
  if accept_stopped l then l
  else
    match e with
    | AcceptOk => mkAccept INITIAL_ACCEPT_BACKOFF (accept_spawned l + 1) (sleeps l) (accept_log l) false
    | AcceptFails w =>
        let '(next, stop) := accept_backoff_sleep (backoff l) w in
        mkAccept next (accept_spawned l) (sleeps l ++ [backoff l]) (accept_log l ++ [failed]) stop
    | ShutdownWatch ok flag => mkAccept (backoff l) (accept_spawned l) (sleeps l) (accept_log l) (ok && flag)
    end.

(** ** Streams a client is spliced to *)

(** [FirstByteWitness] over a stream with step [step]: its flag is set by the
    first read that delivers a byte. *)
Definition witness_step {St} (step : sock_op -> St -> St * outcome) (op : sock_op) (x : bool * St) : (bool * St) * outcome :=
  let '(s, r) := step op (snd x) in
  ((fst x || match op, r with SkRead _, OBytes (_ :: _) => true | _, _ => false end, s), r).

(** [UnansweredRoute], by its remaining credit. *)
Definition unanswered_step (op : sock_op) (remaining_credit : Z) : Z * outcome :=
  match op with
  | SkRead _ => (remaining_credit, OPending)
  | SkWrite bytes =>
      if len bytes >? remaining_credit then (remaining_credit, OPending)
      else (remaining_credit - len bytes, OCount (len bytes))
  | SkFlush => (remaining_credit, ODone)
  | SkShutdown => (remaining_credit, ODone)
  end.

(** ** The splice *)

(** The next poll of a splice: of the client, of the other end, or none because
    the splice has ended. *)
Inductive splice_act := OnClient (op : sock_op) | OnPeer (op : sock_op) | SpliceEnds (ok : bool).

Class Splicer := {
  sp_state : Type;
  sp_start : sp_state;
  sp_next : sp_state -> splice_act;
  sp_tell : sp_state -> outcome -> sp_state
}.

(** What the client's socket is asked and answers. *)
Abbreviation trace := (list (sock_op * outcome)).

(** ** What a client meets *)

(** [SpliceEnd]; [SpliceRuns] is a splice past its deadline that goes on. *)
Inductive SpliceEnd := SpliceClosed (ok : bool) | SpliceRuns | Unanswered.

(** What the registry has for the client's label: nothing, a journal whose
    stream cannot be opened, or the stream [sid] of generation [g]. *)
Inductive JournalSide := NoRegistration | OpenFails | Opened (g sid : Z).

Inductive JournalRoute := RouteDone | RouteRefused.

(** What a client can be spliced to: the ACME responder, the control listener,
    a stream of a registered journal.  All of them are one world; an operation
    addresses one of them. *)
Inductive Peer := AcmeConn | ControlConn | JournalStream (g sid : Z).

(** The client's trace, the events logged, the operations on other ends with
    the end they addressed, and the registration given to
    [retire_unresponsive]. *)
Record Routed := mkRoutedClient {
  client_trace : trace;
  client_log : list BridgeLogEvent;
  peer_ops : list (Peer * sock_op);
  journal_retired : option (str * Z)
}.

(** The outcome of a connect under its three second limit. *)
Inductive Connect := ConnectFailed | ConnectTimedOut | Connected.

(** Everything [handle_client] meets besides the client's socket: a permit of
    [sni_admission], what the ClientHello says, the configured ACME target's
    connection and the control listener's, the addresses (with the header
    [v1_header] builds from them), the registry when it is looked up, what
    opening a stream of a generation meets ([retired] before, what the dialer
    answers in time, [retired] after), and a permit to hold. *)
Record Arrival := mkArrival {
  ar_permit : bool;
  ar_hello : option ClientHelloRouting;
  ar_acme : option Connect;
  ar_control : Connect;
  ar_addresses : option (option (list byte));
  ar_registry : Registry;
  ar_opening : Z -> bool * option (DialerError + Z) * bool;
  ar_held : bool
}.

(** [registry.lookup(hostname)], then [journal.open_stream()]. *)
Definition find_journal (a : Arrival) (label : str) : JournalSide :=
  match lookup_hostname label (ar_registry a) with
  | None => NoRegistration
  | Some g =>
      let '(before, opened, after) := ar_opening a g in
      match open_stream before ((fun r => match r with inl e => Err e | inr sid => Ok sid end) <$> opened) after with
      | Ok sid => Opened g sid
      | _ => OpenFails
      end
  end.

Section Splice.
Context {P : Splicer}.
Variable client : trace -> sock_op -> outcome.

Section Peer.
Context {St : Type}.
Variable step : sock_op -> St -> St * outcome.

Definition splice_state : Type := sp_state * St * trace.

Definition splice_poll (x : splice_state) : splice_state + (splice_state * bool) :=
  let '(p, s, tr) := x in
  match sp_next p with
  | OnClient op => let r := client tr op in inl (sp_tell p r, s, tr ++ [(op, r)])
  | OnPeer op => let '(s, r) := step op s in inl (sp_tell p r, s, tr)
  | SpliceEnds ok => inr (x, ok)
  end.

(** At most [n] polls; [Some] is the result of a splice that ended. *)
Fixpoint splice_polls (n : nat) (x : splice_state) : splice_state * option bool :=
  match n with
  | O => (x, None)
  | S n =>
      match splice_poll x with
      | inl x => splice_polls n x
      | inr (x, ok) => (x, Some ok)
      end
  end.

End Peer.

(** [splice_until_answer_or_deadline] over a witnessed stream: [before] polls
    happen before the deadline, [after] behind it if the stream has answered. *)
Definition splice_until_answer_or_deadline {St} (step : sock_op -> St -> St * outcome) (before after : nat) (flag : bool) (s : St) (tr : trace)
  : trace * St * SpliceEnd :=
  match splice_polls (witness_step step) before (sp_start, (flag, s), tr) with
  | ((_, (_, s), tr), Some ok) => (tr, s, SpliceClosed ok)
  | ((p, (f, s), tr), None) =>
      if f then
        match splice_polls (witness_step step) after (p, (f, s), tr) with
        | ((_, (_, s), tr), Some ok) => (tr, s, SpliceClosed ok)
        | ((_, (_, s), tr), None) => (tr, s, SpliceRuns)
        end
      else (tr, s, Unanswered)
  end.

(** [write_all] and [flush] of the PROXY header, [n] polls before the deadline:
    [None] is the deadline, otherwise whether it succeeded. *)
Fixpoint write_header {St} (step : sock_op -> St -> St * outcome) (n : nat) (bytes : list byte) (s : St) : St * option bool :=
  match n with
  | O => (s, None)
  | S n =>
      match bytes with
      | [] =>
          match step SkFlush s with
          | (s, ODone) => (s, Some true)
          | (s, OPending) => write_header step n [] s
          | (s, _) => (s, Some false)
          end
      | _ =>
          match step (SkWrite bytes) s with
          | (s, OCount k) => if k <=? 0 then (s, Some false) else write_header step n (zdrop k bytes) s
          | (s, OPending) => write_header step n bytes s
          | (s, _) => (s, Some false)
          end
      end
  end.

(** ** Routing a client *)

(** An operation on the end [p] of the world, noted. *)
Definition at_peer {W} (step : Peer -> sock_op -> W -> W * outcome) (p : Peer) (op : sock_op) (x : W * list (Peer * sock_op))
  : (W * list (Peer * sock_op)) * outcome :=
  let '(w, r) := step p op (fst x) in ((w, snd x ++ [(p, op)]), r).

Definition route_to_journal {W} (step : Peer -> sock_op -> W -> W * outcome) (a : Arrival) (label : str)
  (header : option (list byte)) (header_polls before after : nat) (w : W) : Routed * JournalRoute :=
  match find_journal a label with
  | NoRegistration => (mkRoutedClient [] [ClientRejectedWithoutJournalRegistration] [] None, RouteRefused)
  | OpenFails => (mkRoutedClient [] [ClientRejectedJournalStreamOpen] [] None, RouteRefused)
  | Opened g sid =>
      let step := at_peer step (JournalStream g sid) in
      match header with
      | None => (mkRoutedClient [] [ClientRejectedProxyHeaderBuild] [] None, RouteRefused)
      | Some header =>
          match write_header (witness_step step) header_polls header (false, (w, [])) with
          | ((f, x), Some true) =>
              match splice_until_answer_or_deadline step before after f x [] with
              | (tr, x, SpliceClosed true) => (mkRoutedClient tr [ClientRoutedToJournal; ClientSpliceClosed] (snd x) None, RouteDone)
              | (tr, x, SpliceClosed false) =>
                  (mkRoutedClient tr [ClientRoutedToJournal; ClientSpliceClosedWithIoError] (snd x) None, RouteDone)
              | (tr, x, SpliceRuns) => (mkRoutedClient tr [ClientRoutedToJournal] (snd x) None, RouteDone)
              | (tr, x, Unanswered) =>
                  (mkRoutedClient tr [ClientRoutedToJournal; ClientRejectedJournalUnresponsive; JournalRetiredUnresponsive] (snd x)
                     (Some (label, g)), RouteDone)
              end
          | ((_, x), Some false) => (mkRoutedClient [] [ClientRejectedProxyHeaderWrite] (snd x) None, RouteRefused)
          | ((_, x), None) =>
              (mkRoutedClient [] [ClientRejectedJournalUnresponsive; JournalRetiredUnresponsive] (snd x) (Some (label, g)), RouteDone)
          end
      end
  end.

(** [held] is whether a permit of [held_refusals] was free. *)
Definition hold_like_an_unanswered_route (header_len : Z) (held : bool) (before after : nat) (tr : trace)
  : trace * list BridgeLogEvent :=
  if held then
    let '(tr, _, _) :=
      splice_until_answer_or_deadline unanswered_step before after false (Z.max 0 (INITIAL_WINDOW - header_len)) tr in
    (tr, [])
  else (tr, [ClientRefusalHoldCapacity]).

Definition turned_away (log : list BridgeLogEvent) : Routed := mkRoutedClient [] log [] None.

Definition handle_client {W} (step : Peer -> sock_op -> W -> W * outcome) (header_polls before after : nat) (a : Arrival) (w : W) : Routed :=
  if negb (ar_permit a) then turned_away [ClientRejectedCapacity]
  else
    match ar_hello a with
    | None => turned_away [ClientRejectedInvalidClientHello]
    | Some routing =>
        let reserved := bool_decide (hostname routing = RESERVED_CONTROL_SNI) in
        match (if reserved && acme_tls_alpn routing then ar_acme a else None) with
        | Some Connected =>
            match splice_polls (at_peer step AcmeConn) before (sp_start, (w, []), []) with
            | ((_, x, tr), Some false) => mkRoutedClient tr [ClientAcmeForwardFailed] (snd x) None
            | ((_, x, tr), _) => mkRoutedClient tr [] (snd x) None
            end
        | Some _ => turned_away [ClientAcmeForwardFailed]
        | None =>
            if reserved then
              match ar_control a with
              | ConnectFailed => turned_away [ControlSpliceDialFailed]
              | ConnectTimedOut => turned_away [ControlSpliceDialTimedOut]
              | Connected =>
                  let '((_, x, tr), _) := splice_polls (at_peer step ControlConn) before (sp_start, (w, []), []) in
                  mkRoutedClient tr [ControlSpliceConnected] (snd x) None
              end
            else if negb (valid_hostname (hostname routing)) then turned_away [ClientRejectedInvalidHostname]
            else
              match ar_addresses a with
              | None => turned_away []
              | Some header =>
                  let header_len := match header with Some h => len h | None => 0 end in
                  match route_to_journal step a (hostname routing) header header_polls before after w with
                  | (r, RouteDone) => r
                  | (r, RouteRefused) =>
                      let '(tr, log) := hold_like_an_unanswered_route header_len (ar_held a) before after (client_trace r) in
                      mkRoutedClient tr (client_log r ++ log) (peer_ops r) (journal_retired r)
                  end
              end
        end
    end.

End Splice.

(** ** A refused client and a sleeping journal's client *)

Section Hidden.
Context {P : Splicer}.
Variable client : trace -> sock_op -> outcome.

(** What is relied on of a splice whose other end behaves as [asleep_step]: for
    [n] polls, whatever the client answers, its writes are of one byte up to a
    frame, a write that waits is not retried with fewer bytes, and it neither
    shuts down while a write waits nor writes afterwards. *)
Fixpoint well_behaved (n : nat) (p : sp_state) (c : Z) (shut : bool) (stall : option Z) : Prop :=
  match n with
  | O => True
  | S n =>
      match sp_next p with
      | OnClient op => forall r, well_behaved n (sp_tell p r) c shut stall
      | OnPeer op =>
          op_allowed shut stall op = true /\
          let '((c, shut, stall), r) := asleep_step c shut stall op in well_behaved n (sp_tell p r) c shut stall
      | SpliceEnds _ => True
      end
  end.

Lemma unanswered_asleep c shut stall op :
  unanswered_step op c = (let '((c', _, _), r) := asleep_step c shut stall op in (c', r)).
Proof.
  destruct op as [n|bytes| |]; cbn; try done.
  destruct (len bytes >? c) eqn:E1, (len bytes <=? c) eqn:E2; try done; lia.
Qed.

Lemma asleep_silent c shut stall op b : snd (asleep_step c shut stall op) <> OBytes b.
Proof. destruct op; cbn; [done| |done|done]. by case_match. Qed.

Lemma witness_silent {St} (step : sock_op -> St -> St * outcome) op f s s' r :
  step op s = (s', r) -> (forall b, r <> OBytes b) -> witness_step step op (f, s) = ((f, s'), r).
Proof.
  intros H Hs. unfold witness_step. cbn [fst snd]. rewrite H.
  destruct op; rewrite ?orb_false_r; try done. destruct r as [| |[|b l]| |]; rewrite ?orb_false_r; try done. by destruct (Hs (b :: l)).
Qed.

(** A stream that is part of a larger state. *)
Section View.
Context {St : Type}.
Variables (step : sock_op -> St -> St * outcome) (view : St -> Handle).
Hypothesis Hview : forall op s, handle_op op (view s) = (view (fst (step op s)), snd (step op s)).

Lemma view_step op s h r : handle_op op (view s) = (h, r) -> exists s', step op s = (s', r) /\ view s' = h.
Proof. rewrite Hview. intros [= <- <-]. exists (fst (step op s)). by rewrite <- surjective_pairing. Qed.

(** The splice meets the same outcomes at both, and neither answers. *)
Lemma splices_agree n p c shut stall s tr :
  well_behaved n p c shut stall -> asleep c shut stall (view s) ->
  exists p' s' c' tr' r,
    splice_polls client (witness_step step) n (p, (false, s), tr) = ((p', (false, s'), tr'), r) /\
    splice_polls client (witness_step unanswered_step) n (p, (false, c), tr) = ((p', (false, c'), tr'), r).
Proof.
  revert p c shut stall s tr. induction n as [|n IH]; intros p c shut stall s tr Hw Ha; cbn [splice_polls].
  { by exists p, s, c, tr, None. }
  unfold splice_poll. cbn [well_behaved] in Hw. destruct (sp_next p) as [op|op|ok]; cbn [fst snd].
  - apply (IH _ c shut stall); auto.
  - destruct Hw as [Ho Hw]. pose proof (asleep_op _ _ _ _ _ Ha Ho) as Hh.
    pose proof (unanswered_asleep c shut stall op) as Hu. pose proof (asleep_silent c shut stall op) as Hs.
    destruct (asleep_step c shut stall op) as [[[c1 shut1] stall1] r]. destruct Hh as (h1 & Ha1 & Hh).
    apply view_step in Hh as (s1 & Hs1 & <-).
    rewrite (witness_silent step op false s s1 r Hs1 Hs), (witness_silent unanswered_step op false c c1 r Hu Hs).
    by eapply IH.
  - by exists p, s, c, tr, (Some ok).
Qed.

Lemma header_written s0 header n :
  asleep INITIAL_WINDOW false None (view s0) -> 0 < len header <= RECOMMENDED_CHUNK ->
  exists s1, write_header (witness_step step) (S (S n)) header (false, s0) = ((false, s1), Some true) /\
    asleep (INITIAL_WINDOW - len header) false None (view s1).
Proof.
  intros Ha Hl. destruct header as [|b header]; [cbn in Hl; lia|]. cbn [write_header].
  destruct (asleep_write _ _ _ Ha Hl) as (h1 & Ha1 & Hop).
  assert (E : len (b :: header) <=? INITIAL_WINDOW = true) by (unfold INITIAL_WINDOW, RECOMMENDED_CHUNK in *; lia).
  rewrite E in Ha1, Hop. apply view_step in Hop as (s1 & Hop & <-). rewrite (witness_silent _ _ _ _ _ _ Hop) by done.
  destruct (len (b :: header) <=? 0) eqn:E0; [lia|].
  rewrite drop_ge by lia. cbn [write_header].
  destruct (asleep_flush _ _ _ _ Ha1) as (h2 & Ha2 & Hop2). apply view_step in Hop2 as (s2 & Hop2 & <-).
  rewrite (witness_silent _ _ _ _ _ _ Hop2) by done. by exists s2.
Qed.

End View.
End Hidden.

(** The other ends of a bridge with one open journal stream: its handle, over a
    carrier that keeps up, and the rest. *)
Definition ends_step {T} (tstep : Peer -> sock_op -> T -> T * outcome) (p : Peer) (op : sock_op) (w : Handle * T)
  : (Handle * T) * outcome :=
  match p with
  | JournalStream _ _ => let '(h, r) := handle_op op (fst w) in ((h, snd w), r)
  | _ => let '(t, r) := tstep p op (snd w) in ((fst w, t), r)
  end.


(** ** Where a client's bytes go *)

(** An invariant of the other end is one of a splice and of the header's write. *)
Section Touched.
Context {P : Splicer} {St : Type}.
Variables (client : trace -> sock_op -> outcome) (step : sock_op -> St -> St * outcome) (I : St -> Prop).
Hypothesis Hstep : forall op s, I s -> I (fst (step op s)).

Lemma witness_keeps op x : I (snd x) -> I (snd (fst (witness_step step op x))).
Proof. intros H. unfold witness_step. specialize (Hstep op _ H). by destruct (step op (snd x)). Qed.

Lemma splice_keeps n x : I (snd (fst x)) -> I (snd (fst (fst (splice_polls client step n x)))).
Proof.
  revert x. induction n as [|n IH]; intros [[p s] tr] H; [done|]. cbn [splice_polls]. unfold splice_poll.
  destruct (sp_next p) as [op|op|ok]; [by apply IH| |done]. specialize (Hstep op _ H). destruct (step op s) as [s' r] eqn:E. apply IH. cbn in *. by rewrite E in Hstep.
Qed.

Lemma header_keeps n bytes s : I s -> I (fst (write_header step n bytes s)).
Proof.
  revert bytes s. induction n as [|n IH]; intros bytes s H; [done|]. cbn [write_header].
  destruct bytes as [|b bytes]; [specialize (Hstep SkFlush _ H)|specialize (Hstep (SkWrite (b :: bytes)) _ H)];
    (destruct (step _ s) as [s' []]; cbn [fst] in *; try by auto). case_match; by auto.
Qed.
End Touched.

Lemma routed_splice_keeps {P : Splicer} {St} client (step : sock_op -> St -> St * outcome) (I : St -> Prop) before after f s tr :
  (forall op s, I s -> I (fst (step op s))) -> I s -> I (snd (fst (splice_until_answer_or_deadline client step before after f s tr))).
Proof.
  intros Hstep H. unfold splice_until_answer_or_deadline.
  assert (Hw : forall op (x : bool * St), I (snd x) -> I (snd (fst (witness_step step op x)))) by (intros; by apply witness_keeps).
  pose proof (splice_keeps client (witness_step step) (fun x => I (snd x)) Hw) as Hs.
  pose proof (Hs before (sp_start, (f, s), tr) H) as H1. destruct (splice_polls _ _ before _) as [[[p [f' s']] tr'] [ok|]]; [done|].
  destruct f'; [|done]. pose proof (Hs after (p, (true, s'), tr') H1) as H2.
  by destruct (splice_polls _ _ after _) as [[[? [? ?]] ?] [?|]].
Qed.

(** Only [p] was touched, after [first]. *)
Definition touched (p : Peer) (first : list (Peer * sock_op)) {W} (x : W * list (Peer * sock_op)) : Prop :=
  Forall (fun o => fst o = p) (snd x) /\ first `prefix_of` snd x.

Lemma at_peer_touches {W} (step : Peer -> sock_op -> W -> W * outcome) p first op x :
  touched p first x -> touched p first (fst (at_peer step p op x)).
Proof.
  intros [H1 H2]. unfold at_peer. destruct (step p op (fst x)) as [w r]. cbn. split.
  - apply list.Forall_app. split; [done|]. by constructor.
  - by apply prefix_app_r.
Qed.

(** The end a client's ClientHello names: the ACME responder for the reserved
    name with the ACME protocol, if one is configured and connects; the control
    listener for the reserved name otherwise; for any other valid name the
    stream that opens of the journal registered, under that very name and
    published, in the registry. *)
Definition names (a : Arrival) (p : Peer) : Prop :=
  ar_permit a = true /\ exists routing, ar_hello a = Some routing /\
  match p with
  | AcmeConn => hostname routing = RESERVED_CONTROL_SNI /\ acme_tls_alpn routing = true /\ ar_acme a = Some Connected
  | ControlConn => hostname routing = RESERVED_CONTROL_SNI /\ ar_control a = Connected /\ (acme_tls_alpn routing = true -> ar_acme a = None)
  | JournalStream g sid =>
      hostname routing <> RESERVED_CONTROL_SNI /\ valid_hostname (hostname routing) = true /\
      lookup_hostname (hostname routing) (ar_registry a) = Some g /\
      (exists j, journals (ar_registry a) !! g = Some j /\ jhostname j = hostname routing /\ published j = true) /\
      ar_opening a g = (false, Some (inr sid), false)
  end.

Lemma names_one a p q : names a p -> names a q -> p = q.
Proof.
  intros (_ & ra & Ha & Hp) (_ & rb & Hb & Hq). rewrite Ha in Hb. injection Hb as <-.
  destruct p, q; destruct_and?; try congruence;
    match goal with H : acme_tls_alpn _ = true, H' : acme_tls_alpn _ = true -> _ |- _ => specialize (H' H); congruence end.
Qed.

Lemma find_journal_opened a label g sid :
  find_journal a label = Opened g sid <-> lookup_hostname label (ar_registry a) = Some g /\ ar_opening a g = (false, Some (inr sid), false).
Proof.
  unfold find_journal. split.
  - destruct (lookup_hostname label _) as [g'|]; [|done]. destruct (ar_opening a g') as [[before opened] aft] eqn:Ho.
    destruct before, opened as [[e|sid']|], aft; cbn; try done. by intros [= <- <-].
  - intros [-> ->]. done.
Qed.

Lemma found_named a routing g sid :
  reg_inv (ar_registry a) -> ar_permit a = true -> ar_hello a = Some routing -> hostname routing <> RESERVED_CONTROL_SNI ->
  valid_hostname (hostname routing) = true -> find_journal a (hostname routing) = Opened g sid -> names a (JournalStream g sid).
Proof.
  intros Hinv Hp Hh Hr Hv [Hl Ho]%find_journal_opened. split; [done|]. exists routing. split_and!; try done.
  destruct (ri_entry _ Hinv _ _ Hl) as (_ & _ & j & ? & ? & ?). by exists j.
Qed.

(** The header's write touches only its stream, with the whole header first. *)
Definition header_first (p : Peer) (n : nat) (header : list byte) : list (Peer * sock_op) :=
  match header, n with _ :: _, S _ => [(p, SkWrite header)] | _, _ => [] end.

Lemma header_touches {W} (step : Peer -> sock_op -> W -> W * outcome) p n header w :
  touched p (header_first p n header) (snd (fst (write_header (witness_step (at_peer step p)) n header (false, (w, []))))).
Proof.
  assert (Hk : forall first n bytes x, touched p first (snd x) ->
    touched p first (snd (fst (write_header (witness_step (at_peer step p)) n bytes x)))).
  { intros first m bytes x Hx. apply (header_keeps (witness_step (at_peer step p)) (fun x => touched p first (snd x))); [|done].
    intros op y. apply (witness_keeps (at_peer step p) (touched p first)). intros. by apply at_peer_touches. }
  assert (Hn : forall w : W, touched p [] (w, [])) by (split; [by constructor|apply prefix_nil]).
  destruct header as [|b header], n as [|n]; [apply Hk, Hn..| |]; [apply Hn|]. cbn [write_header].
  unfold witness_step at 1, at_peer at 1. cbn [fst snd]. destruct (step _ _ w) as [w' r'].
  assert (Hx : touched p (header_first p (S n) (b :: header)) (w', [(p, SkWrite (b :: header))])) by (split; [by constructor|done]).
  destruct r' as [| |bytes|m|]; cbn [fst snd app]; try exact Hx; [by apply Hk|]. destruct (m <=? 0); [exact Hx|by apply Hk].
Qed.

(** The operations of a route to a journal. *)
Lemma route_touches {P : Splicer} client {W} (step : Peer -> sock_op -> W -> W * outcome) a label header n before after w r k g sid :
  find_journal a label = Opened g sid -> route_to_journal client step a label header n before after w = (r, k) ->
  Forall (fun o => fst o = JournalStream g sid) (peer_ops r) /\
  (forall b h, header = Some (b :: h) -> (0 < n)%nat -> [(JournalStream g sid, SkWrite (b :: h))] `prefix_of` peer_ops r) /\
  (journal_retired r = None \/ journal_retired r = Some (label, g) /\ k = RouteDone) /\
  (k = RouteRefused -> client_trace r = []).
Proof.
  intros Hf Hr. unfold route_to_journal in Hr. rewrite Hf in Hr. set (st := at_peer step (JournalStream g sid)) in *.
  destruct header as [header|]; [|simplify_eq/=; split_and!; [by constructor|done|by left|done]].
  pose proof (header_touches step (JournalStream g sid) n header w) as Hw. fold st in Hw. set (first := header_first _ n header) in *.
  assert (Hst : forall op x, touched (JournalStream g sid) first x -> touched (JournalStream g sid) first (fst (st op x)))
    by (intros; by apply at_peer_touches).
  assert (Hgoal : touched (JournalStream g sid) first (tt, peer_ops r)).
  { destruct (write_header _ _ _ _) as [[f x] [[]|]]; [|by simplify_eq/=..].
    pose proof (routed_splice_keeps client st _ before after f x [] Hst Hw) as Hs.
    destruct (splice_until_answer_or_deadline _ _ _ _ _ _ _) as [[tr y] []]; [|by simplify_eq/=..]. by destruct ok; simplify_eq/=. }
  destruct Hgoal as [H1 H2]. split_and!; [done| | |].
  - intros b h [= ->] Hn. subst first. destruct n; [lia|]. done.
  - destruct (write_header _ _ _ _) as [[f x] [[]|]]; [|simplify_eq/=; auto..].
    destruct (splice_until_answer_or_deadline _ _ _ _ _ _ _) as [[tr y] []]; [|simplify_eq/=; auto..]. destruct ok; simplify_eq/=; auto.
  - intros ->. destruct (write_header _ _ _ _) as [[f x] [[]|]]; [|by simplify_eq/=..].
    destruct (splice_until_answer_or_deadline _ _ _ _ _ _ _) as [[tr y] []]; [|by simplify_eq/=..]. by destruct ok; simplify_eq/=.
Qed.

(** What [handle_client] leaves, branch by branch. *)
Definition route_kept (n : nat) (a : Arrival) (r : Routed) : Prop :=
  (forall p op, (p, op) ∈ peer_ops r -> names a p) /\
  (forall g sid header, names a (JournalStream g sid) -> ar_addresses a = Some (Some header) -> header <> [] -> (0 < n)%nat ->
     head (peer_ops r) = Some (JournalStream g sid, SkWrite header)) /\
  (forall label g, journal_retired r = Some (label, g) ->
     exists sid alpn, ar_hello a = Some (mkRouting label alpn) /\ names a (JournalStream g sid)) /\
  (client_trace r <> [] -> ar_permit a = true /\ exists routing, ar_hello a = Some routing /\
     (names a AcmeConn \/ names a ControlConn \/ hostname routing <> RESERVED_CONTROL_SNI /\ valid_hostname (hostname routing) = true)).

Lemma turned_away_kept n a log :
  (forall g sid header, names a (JournalStream g sid) -> ar_addresses a = Some (Some header) -> False) -> route_kept n a (turned_away log).
Proof. intros H. split_and!; cbn; [set_solver| |done|done]. intros g sid header Hn Ha. by destruct (H _ _ _ Hn Ha). Qed.

Lemma spliced_kept {P : Splicer} client {W} (step : Peer -> sock_op -> W -> W * outcome) p n before a w x tr k log :
  names a p -> (p = AcmeConn \/ p = ControlConn) ->
  splice_polls client (at_peer step p) before (sp_start, (w, []), []) = ((k, x, tr), log) ->
  forall l, route_kept n a (mkRoutedClient tr l (snd x) None).
Proof.
  intros Hn Hp Hs l. pose proof (splice_keeps client (at_peer step p) (touched p [])
    (fun op s => at_peer_touches step p [] op s) before (sp_start, (w, []), [])) as H.
  rewrite Hs in H. cbn in H. destruct H as [H _]; [split; [constructor|apply prefix_nil]|]. rewrite list.Forall_forall in H.
  split_and!; cbn.
  - intros q op Hq. by rewrite (H _ Hq : q = p).
  - intros g sid header Hj. pose proof (names_one _ _ _ Hn Hj). destruct Hp; congruence.
  - done.
  - intros _. pose proof Hn as (Hpm & routing & Hh & _). split; [done|]. exists routing. split; [done|]. destruct Hp; subst p; auto.
Qed.

Lemma journal_kept {P : Splicer} client {W} (step : Peer -> sock_op -> W -> W * outcome) n before after a w routing header :
  reg_inv (ar_registry a) -> ar_permit a = true -> ar_hello a = Some routing -> hostname routing <> RESERVED_CONTROL_SNI ->
  valid_hostname (hostname routing) = true -> ar_addresses a = Some header ->
  let '(r, k) := route_to_journal client step a (hostname routing) header n before after w in
  route_kept n a r /\ (k = RouteRefused -> journal_retired r = None).
Proof.
  intros Hinv Hpm Hh Hr Hv Ha. destruct (route_to_journal _ _ _ _ _ _ _ _ _) as [r k] eqn:E.
  assert (Hend : client_trace r <> [] -> ar_permit a = true /\ exists routing, ar_hello a = Some routing /\
    (names a AcmeConn \/ names a ControlConn \/ hostname routing <> RESERVED_CONTROL_SNI /\ valid_hostname (hostname routing) = true)) by eauto 10.
  assert (Hj : forall g sid, names a (JournalStream g sid) -> find_journal a (hostname routing) = Opened g sid).
  { intros g sid (_ & routing' & Hh' & _ & _ & Hl & _ & Ho). rewrite Hh in Hh'. injection Hh' as <-. by apply find_journal_opened. }
  destruct (find_journal a (hostname routing)) as [| |g sid] eqn:Hf.
  1,2: unfold route_to_journal in E; rewrite Hf in E; injection E as <- <-; (split; [|done]); apply turned_away_kept; intros g sid h Hn; by apply Hj in Hn.
  destruct (route_touches client step a _ header n before after w r k g sid Hf E) as (H1 & H2 & H3 & _).
  pose proof (found_named a routing g sid Hinv Hpm Hh Hr Hv Hf) as Hn. rewrite list.Forall_forall in H1.
  split; [split_and!|].
  - intros p op Hp. by rewrite (H1 _ Hp : p = _).
  - intros g' sid' h Hn' Ha' Hne Hpos. apply Hj in Hn'. injection Hn' as <- <-. destruct h as [|b h]; [done|].
    rewrite Ha in Ha'. injection Ha' as ->. destruct (H2 b h eq_refl Hpos) as [l ->]. done.
  - intros label g' Hret. destruct H3 as [H3|[H3 _]]; rewrite H3 in Hret; [done|]. injection Hret as <- <-.
    exists sid, (acme_tls_alpn routing). split; [|done]. rewrite Hh. by destruct routing.
  - done.
  - intros ->. by destruct H3 as [?|[_ ?]].
Qed.

Lemma handle_client_parts {P : Splicer} client {W} (step : Peer -> sock_op -> W -> W * outcome) n before after a w :
  reg_inv (ar_registry a) -> route_kept n a (handle_client client step n before after a w).
Proof.
  intros Hinv. unfold handle_client.
  assert (Hno : ~ (exists g sid, names a (JournalStream g sid)) -> forall log, route_kept n a (turned_away log)).
  { intros H log. apply turned_away_kept. intros g sid h Hn _. apply H. by exists g, sid. }
  destruct (ar_permit a) eqn:Hpm; [|apply Hno; intros (g & sid & Hx & _); congruence]. cbn [negb].
  destruct (ar_hello a) as [routing|] eqn:Hh; [|apply Hno; intros (g & sid & _ & rt & Hx & _); congruence].
  assert (Hname : forall g sid, names a (JournalStream g sid) -> hostname routing <> RESERVED_CONTROL_SNI /\ valid_hostname (hostname routing) = true).
  { intros g sid (_ & rt & Hx & ? & ? & _). rewrite Hh in Hx. by injection Hx as <-. }
  destruct (bool_decide (hostname routing = RESERVED_CONTROL_SNI)) eqn:Er.
  - apply bool_decide_eq_true in Er. cbn [andb].
    assert (Hno' : forall log, route_kept n a (turned_away log)) by (apply Hno; intros (g & sid & Hx); by apply Hname in Hx as [? _]).
    destruct (if acme_tls_alpn routing then ar_acme a else None) as [[| |]|] eqn:Ea; [apply Hno'..| |].
    + destruct (acme_tls_alpn routing) eqn:El; [|done].
      assert (names a AcmeConn) by (split; [done|]; by exists routing).
      destruct (splice_polls _ _ _ _) as [[[? ?] ?] [[]|]] eqn:Es; (eapply spliced_kept; [done|by left|exact Es]).
    + destruct (ar_control a) eqn:Ec; [apply Hno'..|].
      assert (names a ControlConn) by (split; [done|]; exists routing; split_and!; try done; intros El; by rewrite El in Ea).
      destruct (splice_polls _ _ _ _) as [[[? ?] ?] ?] eqn:Es. eapply spliced_kept; [done|by right|exact Es].
  - apply bool_decide_eq_false in Er. cbn [andb].
    destruct (valid_hostname (hostname routing)) eqn:Ev; [cbn [negb] | apply Hno; intros (g & sid & Hx); apply Hname in Hx as [_ Hx]; congruence].
    destruct (ar_addresses a) as [header|] eqn:Ha; [|apply turned_away_kept; intros; congruence].
    pose proof (journal_kept client step n before after a w routing header Hinv Hpm Hh Er Ev Ha) as Hk.
    destruct (route_to_journal _ _ _ _ _ _ _ _ _) as [r k]. destruct Hk as [Hk Hret]. destruct k; [exact Hk|].
    destruct (hold_like_an_unanswered_route _ _ _ _ _ _) as [tr log]. destruct Hk as (H1 & H2 & H3 & H4).
    split_and!; cbn; [done..|]. intros _. split; [done|]. exists routing. auto.
Qed.

(** C28. A client's bytes reach only the end its ClientHello names.  Over a registry
    reached by any interleaving, every operation [handle_client] makes on
    another end is on one and the same end: the ACME responder only for the
    reserved name with the ACME protocol and a configured target, the control
    listener only for the reserved name, and a journal only for a valid label
    other than the reserved name, on a stream opened by the very registration
    the registry has under that label, published for that label and not retired
    before or after the opening.  If there is such a registration, the PROXY
    header could be built and a poll comes before the deadline, the first thing
    its stream meets is the whole header.  Only that registration
    is ever retired, under that label; and a client whose socket is touched got
    a permit and sent a ClientHello that names such an end or a valid label. *)
Theorem client_reaches_its_route {P : Splicer} client {W} (step : Peer -> sock_op -> W -> W * outcome)
    n before after (a : Arrival) (w : W) :
  reachable (ar_registry a) ->
  let r := handle_client client step n before after a w in
  (forall p op, (p, op) ∈ peer_ops r -> names a p) /\
  (forall p q op op', (p, op) ∈ peer_ops r -> (q, op') ∈ peer_ops r -> p = q) /\
  (forall g sid header, names a (JournalStream g sid) -> ar_addresses a = Some (Some header) -> header <> [] -> (0 < n)%nat ->
     head (peer_ops r) = Some (JournalStream g sid, SkWrite header)) /\
  (forall label g, journal_retired r = Some (label, g) ->
     exists sid alpn, ar_hello a = Some (mkRouting label alpn) /\ names a (JournalStream g sid)) /\
  (client_trace r <> [] -> ar_permit a = true /\ exists routing, ar_hello a = Some routing /\
     (names a AcmeConn \/ names a ControlConn \/ hostname routing <> RESERVED_CONTROL_SNI /\ valid_hostname (hostname routing) = true)).
Proof.
  intros Hinv%reachable_inv. cbn zeta.
  destruct (handle_client_parts client step n before after a w Hinv) as (H1 & H2 & H3 & H4).
  split_and!; [done| |done..]. intros p q op op' Hp Hq. eapply names_one; [by eapply H1|by eapply H1].
Qed.

(** ** Back-off of the accept loops *)

(** Every sleep after a failed accept lasts between the initial and the largest
    back-off, and the loop stops only once the shutdown flag is set. *)
Lemma accept_backoff_bounded failed started evs :
  let l := foldl (accept_turn failed) (accept_loop_new started) evs in
  INITIAL_ACCEPT_BACKOFF <= backoff l <= MAX_ACCEPT_BACKOFF /\
  Forall (fun d => INITIAL_ACCEPT_BACKOFF <= d <= MAX_ACCEPT_BACKOFF) (sleeps l) /\
  (accept_stopped l = true -> Exists (fun e => match e with
     | ShutdownWatch ok flag => ok && flag
     | AcceptFails (Elapsed f | FlagChanged f | FlagSenderGone f) => f
     | AcceptOk => false end = true) evs).
Proof.
  cbn zeta. induction evs as [|e evs IH] using rev_ind.
  { cbn. split_and!; [done|done|constructor|done]. }
  destruct IH as (Hb & Hs & Hst). rewrite foldl_app. cbn [foldl].
  set (l := foldl _ _ evs) in *. unfold accept_turn. destruct (accept_stopped l) eqn:El.
  { split_and!; try done; try lia. intros _. apply Exists_app. left. auto. }
  destruct e as [|w|ok flag]; cbn [backoff sleeps accept_stopped].
  - split_and!; try done.
  - unfold accept_backoff_sleep.
    destruct w as [f|f|f]; cbn [backoff sleeps accept_stopped];
      (split_and!; [unfold INITIAL_ACCEPT_BACKOFF, MAX_ACCEPT_BACKOFF, milliseconds in *; lia
                   |unfold MAX_ACCEPT_BACKOFF; lia
                   |apply list.Forall_app; split; [done|by constructor]
                   |intros Hf; apply Exists_app; right; constructor; by destruct f]).
  - split_and!; try done; try lia. intros Hf. apply Exists_app. right. by constructor.
Qed.

(** ** A splice that behaves *)

(** Copies the client to the other end a buffer at a time, shuts the other end
    down at the client's end, and then waits for an answer. *)
Inductive one_way := ReadClient | WritePeer (bytes : list byte) | ShutPeer | AwaitPeer | Broken.
Definition COPY_BUFFER : Z := 8192.
Definition one_way_next (p : one_way) : splice_act :=
  match p with
  | ReadClient => OnClient (SkRead COPY_BUFFER)
  | WritePeer bytes => OnPeer (SkWrite bytes)
  | ShutPeer => OnPeer SkShutdown
  | AwaitPeer => OnPeer (SkRead COPY_BUFFER)
  | Broken => SpliceEnds false
  end.
Definition one_way_tell (p : one_way) (r : outcome) : one_way :=
  match p, r with
  | ReadClient, OPending => ReadClient
  | ReadClient, OBytes [] => ShutPeer
  | ReadClient, OBytes b => if len b <=? COPY_BUFFER then WritePeer b else Broken
  | WritePeer b, OPending => WritePeer b
  | WritePeer b, OCount n => if n =? len b then ReadClient else Broken
  | ShutPeer, ODone => AwaitPeer
  | AwaitPeer, OPending => AwaitPeer
  | _, _ => Broken
  end.
#[local] Instance copy_one_way : Splicer := {| sp_state := one_way; sp_start := ReadClient; sp_next := one_way_next; sp_tell := one_way_tell |}.

Lemma one_way_behaves n p c shut stall :
  match p with
  | ReadClient => shut = false /\ stall = None
  | WritePeer b => shut = false /\ 0 < len b <= COPY_BUFFER /\ (stall = None \/ stall = Some (len b) /\ c < len b)
  | ShutPeer => shut = false /\ stall = None
  | AwaitPeer | Broken => True
  end -> well_behaved n p c shut stall.
Proof.
  revert p c shut stall. induction n as [|n IH]; intros p c shut stall H; [done|]. cbn [well_behaved].
  destruct p as [|b| | |]; cbn [sp_next copy_one_way one_way_next].
  - intros r. apply IH. destruct H as [-> ->]. cbn. destruct r as [| |[|x l]| |]; try done.
    destruct (len (x :: l) <=? COPY_BUFFER) eqn:E; [|done]. split_and!; [done | cbn; lia | lia | by left].
  - destruct H as (-> & Hb & Hst). split.
    + cbn [op_allowed negb]. unfold RECOMMENDED_CHUNK, COPY_BUFFER in *. destruct Hst as [-> |[-> _]]; lia.
    + cbn [asleep_step]. destruct (len b <=? c) eqn:E; apply IH; cbn [sp_tell copy_one_way one_way_tell].
      * by rewrite Z.eqb_refl.
      * split_and!; try done; try lia. right. destruct Hst as [-> |[-> _]]; split; try done; lia.
  - destruct H as [-> ->]. split; [done|]. by apply IH.
  - split; [done|]. by apply IH.
  - done.
Qed.

(** ** Witnesses *)

Definition ex_asleep : Handle :=
  mkHandle (put driver_new 1 stream_new) true [] ∅ 0 (stream_handle 1) [].
Lemma ex_asleep_ok : asleep INITIAL_WINDOW false None ex_asleep.
Proof.
  by apply (asleep_opened _ _ _ _ stream_new).
Qed.
Definition ex_header : list byte := blit "PROXY TCP4 198.51.100.7 203.0.113.9 45678 443".
(** Generation 0 is registered for one label; its stream 1 opens. *)
Definition ex_label : str := lit "abcdefgh.solstone.me".
Definition ex_registry : Registry := fst (commit 0 5 5 (register_begin ex_label 10 10 registry_new)).
Lemma ex_registry_reachable : reachable ex_registry.
Proof.
  unfold reachable. eapply rtc_l; [right; apply (o_register _ ex_label 10 10); vm_compute; done|].
  eapply rtc_l; [right; apply (o_commit _ 0 5 5); eexists; vm_compute; done|]. apply rtc_refl.
Qed.
Definition ex_arrival (label : str) (registry : Registry) : Arrival :=
  mkArrival true (Some (mkRouting label false)) None ConnectFailed (Some (Some ex_header)) registry
    (fun _ => (false, Some (inr 1), false)) true.
(** The client sends a ClientHello and then says nothing more. *)
Definition ex_client (tr : trace) (op : sock_op) : outcome :=
  match op, tr with SkRead _, [] => OBytes (blit "hello") | _, _ => OPending end.
Definition ex_ends : Peer -> sock_op -> Handle * Z -> (Handle * Z) * outcome := ends_step (fun _ => unanswered_step).


(** A client of the registered label: its bytes follow the header to stream 1 of
    generation 0, which never answers and is retired; another label meets no
    other end. *)
Lemma client_reaches_its_route_witness :
  let r := handle_client ex_client ex_ends 2 5 9 (ex_arrival ex_label ex_registry) (ex_asleep, 0) in
  (JournalStream 0 1, SkWrite (blit "hello")) ∈ peer_ops r /\ names (ex_arrival ex_label ex_registry) (JournalStream 0 1) /\
  head (peer_ops r) = Some (JournalStream 0 1, SkWrite ex_header) /\ journal_retired r = Some (ex_label, 0) /\
  let r := handle_client ex_client ex_ends 2 5 9 (ex_arrival (lit "ijklmnop.solstone.me") ex_registry) (ex_asleep, 0) in
  peer_ops r = [] /\ client_trace r <> [].
Proof.
  cbn zeta.
  pose proof (client_reaches_its_route ex_client ex_ends 2 5 9 (ex_arrival ex_label ex_registry) (ex_asleep, 0) ex_registry_reachable) as H.
  cbn zeta in H. destruct H as (H1 & _ & H3 & _).
  assert (Hin : (JournalStream 0 1, SkWrite (blit "hello")) ∈
    peer_ops (handle_client ex_client ex_ends 2 5 9 (ex_arrival ex_label ex_registry) (ex_asleep, 0))).
  { replace (peer_ops _) with [(JournalStream 0 1, SkWrite ex_header); (JournalStream 0 1, SkFlush); (JournalStream 0 1, SkWrite (blit "hello"))]
      by (vm_compute; reflexivity). set_solver. }
  split; [exact Hin|]. pose proof (H1 _ _ Hin) as Hn. split; [exact Hn|].
  split; [apply (H3 0 1 ex_header Hn); [reflexivity|discriminate|lia]|].
  split; [vm_compute; reflexivity|]. split; [vm_compute; reflexivity|vm_compute; discriminate].
Defined.
