(* ===== verification/Carrier.v ===== *)
(** * The journal bridge's carrier ([crates/spl-transport/src/journal_bridge_carrier.rs])

    The coordinator task of one persistent carrier: it dials streams, schedules
    their uploads (Upload.v) into a bounded writer queue, reads the carrier
    through the demultiplexer (Demux.v), hands events to the streams' readers
    through bounded queues and keeps the carrier alive.  The channels it shares
    with the writer task and with the users of its streams are part of the state;
    a handler of the coordinator and a step of a user or of the writer are atomic. *)

From S2P Require Import Prelude Frame Text Http Window Upload Assembler Demux.

Definition STREAM_QUEUE : Z := 16.
Definition WRITER_QUEUE : Z := 256.
Definition CONTROL_RESERVE : Z := 32.
Definition BODY_QUEUE : Z := 4.

(** What [classify_tls_refusal] makes of an alert of the journal. *)
Inductive TlsRefusal := TlsAccessDenied | TlsCertificateUnknown | TlsRefused.

(** The [TransportError]s of the coordinator. *)
Inductive CarrierError :=
| WriterQueueFull
| WriterStopped
| CarrierMux (e : MuxError)
| BodyRejected (e : UploadBodyError)
| BudgetUnderflow
| BudgetIndivisible
| PumpFailed
| KeepaliveFailed
| ReadFailed
| Refused (r : TlsRefusal).

(** ** Body budget *)

(** A held share of the body budget of stream [lease_of]. *)
Record BodyLease := mkBodyLease { lease_of : Z; lease_len : Z }.
Record BodyChunk := mkChunk { chunk_bytes : list byte; chunk_lease : BodyLease }.

(** [BodyLease::split]: what stays and what is split off. *)
Definition lease_split (l : BodyLease) (bytes : Z) : option (BodyLease * BodyLease) :=
  if bytes <=? lease_len l
  then Some (mkBodyLease (lease_of l) (lease_len l - bytes), mkBodyLease (lease_of l) bytes)
  else None.

(** [take_body_leases]: the leases taken, those left, and whether it failed. *)
Fixpoint take_body_leases (staged : list BodyLease) (remaining : Z)
  : list BodyLease * list BodyLease * option CarrierError :=
  if remaining <=? 0 then ([], staged, None)
  else
    match staged with
    | [] => ([], [], Some BudgetUnderflow)
    | front :: rest =>
        if lease_len front <=? remaining then
          let '(taken, kept, e) := take_body_leases rest (remaining - lease_len front) in
          (front :: taken, kept, e)
        else
          match lease_split front remaining with
          | Some (stays, taken) => ([taken], stays :: rest, None)
          | None => ([], staged, Some BudgetIndivisible)
          end
    end.

(** ** Channels *)

Inductive DeliveryEvent :=
| DStream (e : StreamEvent)
| EarlyFinal (h : HttpHead)
| CertificateUnknown.

(** What the coordinator shares with the user of a stream: the body budget
    (free permits, reservations of the sender), the body channel, the delivery
    channel, and the history of what the reader has taken and the sender has
    sent. *)
Record Port := mkPort {
  permits : Z;
  budget_open : bool;
  reservations : list Z;
  body_chunks : list BodyChunk;
  body_sender : bool;
  body_receiver : bool;
  delivery : list DeliveryEvent;
  delivery_receiver : bool;
  rx_terminal : bool;
  received : list DeliveryEvent;
  sent_body : list byte
}.
Definition port_new : Port := mkPort UPLOAD_BODY_STAGE_CAPACITY true [] [] true true [] true false [] [].

Record WriterPacket := mkPacket { pbytes : list byte; body_leases : list BodyLease }.
Inductive WriterEvent := Drained | Stopped (e : option TlsRefusal).

Record OpenStreamInput := mkOpenInput {
  omethod : str; otarget : str; oheaders : Headers; odeclared : Z
}.
Inductive CarrierCommand :=
| OpenStream (i : OpenStreamInput)
| Consume (sid bytes : Z)
| Shutdown.

(** ** Coordinator *)

Record StreamState := mkStreamState {
  upload : WindowedUpload;
  sdeclared : Z;
  received_body_len : Z;
  staged_leases : list BodyLease;
  pending_delivery : list DeliveryEvent;
  ready_queued : bool
}.

Record OutstandingProbe := mkProbe { pnonce : list byte; pdeadline : Z }.
Record KeepaliveConfig := mkKeepalive { kinterval : Z; kdeadline : Z; max_missed : Z }.

(** [CarrierAcceptance]; a failure without a refusal is [HandshakeFailure::Unreachable],
    and [TlsAccessDenied] is also what the status latches. *)
Inductive Acceptance := APending | AAccepted | AFailed (r : option TlsRefusal).

(** [wqueue] is the channel to the writer, [wire_log] what it has written,
    [writer_events] its answers; [wakes] is [body_ready]. *)
Record Coordinator := mkCoordinator {
  cdemux : CarrierDemux;
  cdialer : FrameDialer;
  cstreams : gmap Z StreamState;
  ready : list Z;
  inflight : Z;
  outstanding_probe : option OutstandingProbe;
  missed : Z;
  next_nonce : Z;
  acceptance : Acceptance;
  running : bool;
  ports : gmap Z Port;
  commands : list CarrierCommand;
  wakes : list Z;
  cancels : list Z;
  wqueue : list WriterPacket;
  writer_alive : bool;
  writer_events : list WriterEvent;
  wire_log : list (list byte)
}.

Definition coordinator_new : Coordinator :=
  mkCoordinator demux_new dialer_default ∅ [] 0 None 0 1 APending true ∅ [] [] [] [] true [] [].

Definition set_demux (c : Coordinator) (d : CarrierDemux) : Coordinator :=
  mkCoordinator d (cdialer c) (cstreams c) (ready c) (inflight c) (outstanding_probe c) (missed c) (next_nonce c)
    (acceptance c) (running c) (ports c) (commands c) (wakes c) (cancels c) (wqueue c) (writer_alive c)
    (writer_events c) (wire_log c).
Definition set_dialer (c : Coordinator) (d : FrameDialer) : Coordinator :=
  mkCoordinator (cdemux c) d (cstreams c) (ready c) (inflight c) (outstanding_probe c) (missed c) (next_nonce c)
    (acceptance c) (running c) (ports c) (commands c) (wakes c) (cancels c) (wqueue c) (writer_alive c)
    (writer_events c) (wire_log c).
Definition set_cstreams (c : Coordinator) (m : gmap Z StreamState) : Coordinator :=
  mkCoordinator (cdemux c) (cdialer c) m (ready c) (inflight c) (outstanding_probe c) (missed c) (next_nonce c)
    (acceptance c) (running c) (ports c) (commands c) (wakes c) (cancels c) (wqueue c) (writer_alive c)
    (writer_events c) (wire_log c).
Definition set_ready (c : Coordinator) (l : list Z) : Coordinator :=
  mkCoordinator (cdemux c) (cdialer c) (cstreams c) l (inflight c) (outstanding_probe c) (missed c) (next_nonce c)
    (acceptance c) (running c) (ports c) (commands c) (wakes c) (cancels c) (wqueue c) (writer_alive c)
    (writer_events c) (wire_log c).
Definition set_keepalive (c : Coordinator) (p : option OutstandingProbe) (m n : Z) : Coordinator :=
  mkCoordinator (cdemux c) (cdialer c) (cstreams c) (ready c) (inflight c) p m n
    (acceptance c) (running c) (ports c) (commands c) (wakes c) (cancels c) (wqueue c) (writer_alive c)
    (writer_events c) (wire_log c).
Definition set_acceptance (c : Coordinator) (a : Acceptance) : Coordinator :=
  mkCoordinator (cdemux c) (cdialer c) (cstreams c) (ready c) (inflight c) (outstanding_probe c) (missed c)
    (next_nonce c) a (running c) (ports c) (commands c) (wakes c) (cancels c) (wqueue c) (writer_alive c)
    (writer_events c) (wire_log c).
Definition set_running (c : Coordinator) (b : bool) : Coordinator :=
  mkCoordinator (cdemux c) (cdialer c) (cstreams c) (ready c) (inflight c) (outstanding_probe c) (missed c)
    (next_nonce c) (acceptance c) b (ports c) (commands c) (wakes c) (cancels c) (wqueue c) (writer_alive c)
    (writer_events c) (wire_log c).
Definition set_ports (c : Coordinator) (m : gmap Z Port) : Coordinator :=
  mkCoordinator (cdemux c) (cdialer c) (cstreams c) (ready c) (inflight c) (outstanding_probe c) (missed c)
    (next_nonce c) (acceptance c) (running c) m (commands c) (wakes c) (cancels c) (wqueue c) (writer_alive c)
    (writer_events c) (wire_log c).
Definition set_inputs (c : Coordinator) (cs : list CarrierCommand) (ws xs : list Z) : Coordinator :=
  mkCoordinator (cdemux c) (cdialer c) (cstreams c) (ready c) (inflight c) (outstanding_probe c) (missed c)
    (next_nonce c) (acceptance c) (running c) (ports c) cs ws xs (wqueue c) (writer_alive c)
    (writer_events c) (wire_log c).
Definition set_writer (c : Coordinator) (i : Z) (q : list WriterPacket) (alive : bool) (es : list WriterEvent)
  (l : list (list byte)) : Coordinator :=
  mkCoordinator (cdemux c) (cdialer c) (cstreams c) (ready c) i (outstanding_probe c) (missed c)
    (next_nonce c) (acceptance c) (running c) (ports c) (commands c) (wakes c) (cancels c) q alive es l.

Definition CM (A : Type) : Type := Coordinator -> Coordinator * res CarrierError A.
#[export] Instance CM_ret : MRet CM := fun _ a c => (c, Ok a).
#[export] Instance CM_bind : MBind CM := fun _ _ f m c =>
  match m c with
  | (c1, Ok a) => f a c1
  | (c1, Err e) => (c1, Err e)
  | (c1, Panic) => (c1, Panic)
  end.
Definition cmodify (f : Coordinator -> Coordinator) : CM unit := fun c => (f c, Ok tt).
Definition cfail {A} (e : CarrierError) : CM A := fun c => (c, Err e).
Definition cpanic {A} : CM A := fun c => (c, Panic).
Definition cread {A} (f : Coordinator -> A) : CM A := fun c => (c, Ok (f c)).
Definition clift {A} (r : res CarrierError A) : CM A := fun c => (c, r).

Definition on_port (sid : Z) (f : Port -> Port) (c : Coordinator) : Coordinator :=
  set_ports c (alter f sid (ports c)).

Definition add_permits (n : Z) (p : Port) : Port :=
  mkPort (permits p + n) (budget_open p) (reservations p) (body_chunks p) (body_sender p) (body_receiver p)
    (delivery p) (delivery_receiver p) (rx_terminal p) (received p) (sent_body p).

(** A dropped lease returns its permits to its stream's budget. *)
Definition release (l : BodyLease) (c : Coordinator) : Coordinator :=
  on_port (lease_of l) (add_permits (lease_len l)) c.
Definition release_all (ls : list BodyLease) (c : Coordinator) : Coordinator := foldr release c ls.

(** [Drop for StreamState]: the body channel and the budget close. *)
Definition close_port (p : Port) : Port :=
  mkPort (permits p) false (reservations p) [] (body_sender p) false
    (delivery p) (delivery_receiver p) (rx_terminal p) (received p) (sent_body p).
Definition chunk_leases (p : Port) : list BodyLease := chunk_lease <$> body_chunks p.
Definition drop_stream (sid : Z) (st : StreamState) (c : Coordinator) : Coordinator :=
  let chunks := from_option chunk_leases [] (ports c !! sid) in
  release_all (chunks ++ staged_leases st) (on_port sid close_port (set_cstreams c (delete sid (cstreams c)))).

(** [streams.remove(&stream_id)], with the drop of what was there. *)
Definition remove_state (sid : Z) (c : Coordinator) : Coordinator :=
  match cstreams c !! sid with Some st => drop_stream sid st c | None => c end.

(** ** Writer *)

Definition has_room (c : Coordinator) : bool := inflight c <? WRITER_QUEUE.
Definition has_upload_room (c : Coordinator) : bool := inflight c <? WRITER_QUEUE - CONTROL_RESERVE.

(** [CoordinatorWriter::send]; a packet that is not sent is dropped. *)
Definition send_writer (frame : list byte) (leases : list BodyLease) : CM unit := fun c =>
  if negb (has_room c) then (release_all leases c, Err WriterQueueFull)
  else if negb (writer_alive c) then (release_all leases c, Err WriterStopped)
  else if WRITER_QUEUE <=? len (wqueue c) then (release_all leases c, Err WriterQueueFull)
  else (set_writer c (inflight c + 1) (wqueue c ++ [mkPacket frame leases]) true (writer_events c) (wire_log c), Ok tt).

(** [CoordinatorWriter::drained] *)
Definition drained (c : Coordinator) : Coordinator :=
  set_writer c (saturating_sub (inflight c) 1) (wqueue c) (writer_alive c) (writer_events c) (wire_log c).

(** [frame.encode()] with the coordinator's error. *)
Definition encode_or_fail (f : Frame) : CM (list byte) := clift (map_err (fun e => CarrierMux (MuxFrame e)) (encode f)).

(** [reset_active_stream] *)
Definition reset_active_stream (sid : Z) : CM unit := fun c =>
  match cstreams c !! sid with
  | None => (c, Ok tt)
  | Some st =>
      let c := drop_stream sid st c in
      let c := set_demux c (remove_stream (cdemux c) sid) in
      (frame ← encode_or_fail (reset sid RESET_CANCEL); send_writer frame []) c
  end.

(** ** Delivery *)

Inductive try_send_result := SendOk | SendFull | SendClosed.

Definition push_delivery (e : DeliveryEvent) (p : Port) : Port :=
  mkPort (permits p) (budget_open p) (reservations p) (body_chunks p) (body_sender p) (body_receiver p)
    (delivery p ++ [e]) (delivery_receiver p) (rx_terminal p) (received p) (sent_body p).

(** [delivery.try_send(event)] of stream [sid]. *)
Definition try_send (sid : Z) (e : DeliveryEvent) (c : Coordinator) : Coordinator * try_send_result :=
  match ports c !! sid with
  | None => (c, SendClosed)
  | Some p =>
      if negb (delivery_receiver p) then (c, SendClosed)
      else if STREAM_QUEUE <=? len (delivery p) then (c, SendFull)
      else (on_port sid (push_delivery e) c, SendOk)
  end.

Definition set_pending (st : StreamState) (l : list DeliveryEvent) : StreamState :=
  mkStreamState (upload st) (sdeclared st) (received_body_len st) (staged_leases st) l (ready_queued st).

(** [enqueue_pending_delivery] *)
Definition enqueue_pending_delivery (st : StreamState) (e : DeliveryEvent) : StreamState :=
  match e, list.last (pending_delivery st) with
  | DStream (mkStreamEvent (ItemBody bytes) cost), Some (DStream (mkStreamEvent (ItemBody buffered) buffered_cost)) =>
      set_pending st (removelast (pending_delivery st)
                      ++ [DStream (mkStreamEvent (ItemBody (buffered ++ bytes)) (buffered_cost + cost))])
  | _, _ => set_pending st (pending_delivery st ++ [e])
  end.

Definition put_stream (sid : Z) (st : StreamState) (c : Coordinator) : Coordinator :=
  set_cstreams c (<[sid := st]> (cstreams c)).

Definition delivery_ends (e : DeliveryEvent) : bool :=
  match e with DStream ev => is_end ev | _ => false end.

(** The final head of an answer that overtakes its upload. *)
Definition early_head (st : StreamState) (event : StreamEvent) : option HttpHead :=
  match item event with
  | ItemHead head => if is_done (upload st) then None else Some head
  | _ => None
  end.

(** [deliver_stream_item] *)
Definition deliver_stream_item (sid : Z) (event : StreamEvent) : CM unit := fun c =>
  match cstreams c !! sid with
  | None => (c, Ok tt)
  | Some st =>
      match early_head st event with
      | Some head => reset_active_stream sid (fst (try_send sid (EarlyFinal head) c))
      | None =>
          match pending_delivery st with
          | _ :: _ => (put_stream sid (enqueue_pending_delivery st (DStream event)) c, Ok tt)
          | [] =>
              match try_send sid (DStream event) c with
              | (c, SendOk) => ((if is_end event then remove_state sid c else c), Ok tt)
              | (c, SendFull) => (put_stream sid (enqueue_pending_delivery st (DStream event)) c, Ok tt)
              | (c, SendClosed) => reset_active_stream sid c
              end
          end
      end
  end.

(** The inner loop of [flush_pending_deliveries] over the pending events of a
    stream: what is left of them, and whether the stream is to be reset or
    removed. *)
Fixpoint flush_stream (sid : Z) (pending : list DeliveryEvent) (c : Coordinator)
  : Coordinator * list DeliveryEvent * bool * bool :=
  match pending with
  | [] => (c, [], false, false)
  | event :: rest =>
      match try_send sid event c with
      | (c, SendOk) => if delivery_ends event then (c, rest, false, true) else flush_stream sid rest c
      | (c, SendFull) => (c, event :: rest, false, false)
      | (c, SendClosed) => (c, rest, true, false)
      end
  end.
Definition flush_one (sid : Z) : CM unit := fun c =>
  match cstreams c !! sid with
  | None => (c, Ok tt)
  | Some st =>
      let '(c, pending, reset, remove) := flush_stream sid (pending_delivery st) c in
      let c := put_stream sid (set_pending st pending) c in
      if reset then reset_active_stream sid c
      else if remove then (remove_state sid c, Ok tt)
      else (c, Ok tt)
  end.

Fixpoint for_each {A} (l : list A) (f : A -> CM unit) : CM unit :=
  match l with
  | [] => mret tt
  | a :: l => _ ← f a; for_each l f
  end.

(** ** Uploads *)

Definition set_queued (st : StreamState) (b : bool) : StreamState :=
  mkStreamState (upload st) (sdeclared st) (received_body_len st) (staged_leases st) (pending_delivery st) b.
Definition set_upload (st : StreamState) (u : WindowedUpload) : StreamState :=
  mkStreamState u (sdeclared st) (received_body_len st) (staged_leases st) (pending_delivery st) (ready_queued st).

(** [enqueue_ready] *)
Definition enqueue_ready (sid : Z) (c : Coordinator) : Coordinator :=
  match cstreams c !! sid with
  | Some st =>
      if ready_queued st then c
      else set_ready (put_stream sid (set_queued st true) c) (ready c ++ [sid])
  | None => c
  end.

(** The loop of [receive_body] over the chunks in the channel: the new
    state, the chunks left, the leases dropped and the outcome. *)
Fixpoint receive_chunks (sid : Z) (chunks : list BodyChunk) (st : StreamState)
  : StreamState * list BodyChunk * list BodyLease * res CarrierError unit :=
  match chunks with
  | [] => (st, [], [], Ok tt)
  | ch :: chunks =>
      match feed_body (upload st) (chunk_bytes ch) with
      | (u, Ok _) =>
          receive_chunks sid chunks
            (mkStreamState u (sdeclared st) (received_body_len st + len (chunk_bytes ch))
               (staged_leases st ++ [chunk_lease ch]) (pending_delivery st) (ready_queued st))
      | (u, Err e) => (set_upload st u, chunks, [chunk_lease ch], Err (BodyRejected e))
      | (u, Panic) => (set_upload st u, chunks, [chunk_lease ch], Panic)
      end
  end.

Definition set_chunks (l : list BodyChunk) (p : Port) : Port :=
  mkPort (permits p) (budget_open p) (reservations p) l (body_sender p) (body_receiver p)
    (delivery p) (delivery_receiver p) (rx_terminal p) (received p) (sent_body p).

(** [receive_body] *)
Definition receive_body (sid : Z) : CM unit := fun c =>
  match cstreams c !! sid, ports c !! sid with
  | Some st, Some p =>
      let '(st', rest, dropped, r) := receive_chunks sid (body_chunks p) st in
      let c := release_all dropped (on_port sid (set_chunks rest) (put_stream sid st' c)) in
      match r with
      | Err e => (c, Err e)
      | Panic => (c, Panic)
      | Ok _ =>
          if negb (body_sender p) && (received_body_len st' <? sdeclared st')
          then reset_active_stream sid c
          else (enqueue_ready sid c, Ok tt)
      end
  | _, _ => (c, Ok tt)
  end.

(** [pump_upload_once] of stream [sid] in state [st]. *)
Definition pump_upload_once (sid : Z) (st : StreamState) : CM bool := fun c =>
  match poll_send (upload st) with
  | (u, Err e) => (put_stream sid (set_upload st u) c, Err (CarrierMux (MuxFrame e)))
  | (u, Panic) => (put_stream sid (set_upload st u) c, Panic)
  | (u, Ok None) => (put_stream sid (set_upload st u) c, Ok false)
  | (u, Ok (Some frame)) =>
      let body_bytes := saturating_sub (emitted_body_len u) (emitted_body_len (upload st)) in
      let '(taken, kept, e) := take_body_leases (staged_leases st) body_bytes in
      let st := mkStreamState u (sdeclared st) (received_body_len st) kept (pending_delivery st) (ready_queued st) in
      let c := put_stream sid st c in
      match e with
      | Some e => (release_all taken c, Err e)
      | None => (_ ← send_writer frame taken; mret true) c
      end
  end.

(** [pump_ready]: each pass takes an id off the queue or puts a packet into the
    writer's, so the sum of what is queued and what is free bounds the passes. *)
Fixpoint pump_loop (fuel : nat) : CM unit := fun c =>
  match fuel with
  | O => (c, Panic)
  | S fuel =>
      if negb (has_upload_room c) then (c, Ok tt)
      else
        match ready c with
        | [] => (c, Ok tt)
        | sid :: rest =>
            let c := set_ready c rest in
            match cstreams c !! sid with
            | None => pump_loop fuel c
            | Some st =>
                let c := put_stream sid (set_queued st false) c in
                match pump_upload_once sid (set_queued st false) c with
                | (c, Ok emitted) =>
                    match cstreams c !! sid with
                    | Some st =>
                        if emitted && negb (is_done (upload st)) && negb (is_blocked (upload st))
                        then pump_loop fuel (set_ready (put_stream sid (set_queued st true) c) (ready c ++ [sid]))
                        else pump_loop fuel c
                    | None => pump_loop fuel c
                    end
                | (c, Err e) => (c, Err e)
                | (c, Panic) => (c, Panic)
                end
            end
        end
  end.
Definition pump_ready : CM unit := fun c =>
  pump_loop (S (length (ready c) + Z.to_nat (WRITER_QUEUE - inflight c))) c.

(** ** Handlers *)

(** [consume_stream] *)
Definition consume_stream (sid bytes : Z) : CM unit := fun c =>
  match demux_consume (cdemux c) sid bytes with
  | (d, Ok None) => (set_demux c d, Ok tt)
  | (d, Ok (Some frame)) => send_writer frame [] (set_demux c d)
  | (d, Err e) => (set_demux c d, Err (CarrierMux e))
  | (d, Panic) => (set_demux c d, Panic)
  end.

(** [open_stream_on_carrier] *)
Definition open_stream_on_carrier (i : OpenStreamInput) (c : Coordinator) : Coordinator * Z :=
  let '(ids, sid) := allocate (cdialer c) in
  let head := build_request_head (omethod i) (otarget i) (oheaders i) (odeclared i) in
  let st := mkStreamState (upload_new sid head (odeclared i)) (odeclared i) 0 [] [] true in
  let c := set_demux (set_dialer c ids) (open_stream (cdemux c) sid) in
  let c := set_ports (put_stream sid st c) (<[sid := port_new]> (ports c)) in
  (set_ready c (ready c ++ [sid]), sid).

(** The grants of [handle_read]. *)
Definition apply_grant (g : Z * Z) : CM unit := fun c =>
  let '(sid, credit) := g in
  match cstreams c !! sid with
  | None => (c, Ok tt)
  | Some st =>
      match grant (upload st) credit with
      | (u, Ok _) => (enqueue_ready sid (put_stream sid (set_upload st u) c), Ok tt)
      | (u, Err _) =>
          (frame ← encode_or_fail (reset sid RESET_FLOW_CONTROL_ERROR);
           _ ← send_writer frame [];
           _ ← cmodify (fun c => set_demux c (remove_stream (cdemux c) sid));
           deliver_stream_item sid (uncosted (ItemEnd (EndReset FlowControlError))))
            (put_stream sid (set_upload st u) c)
      | (u, Panic) => (put_stream sid (set_upload st u) c, Panic)
      end
  end.

(** An inbound pong of [handle_read]. *)
Definition note_pong (nonce : list byte) (c : Coordinator) : Coordinator :=
  match outstanding_probe c with
  | Some p => if bool_decide (pnonce p = nonce) then set_keepalive c None 0 (next_nonce c) else c
  | None => c
  end.

(** [handle_read] *)
Definition handle_read (data : list byte) : CM unit := fun c =>
  match demux_feed (cdemux c) data with
  | (d, Ok out) =>
      (_ ← for_each (dpongs out) (fun f => send_writer f []);
       _ ← for_each (demit_frames out) (fun f => send_writer f []);
       _ ← cmodify (fun c => foldl (fun c n => note_pong n c) c (inbound_pongs out));
       _ ← for_each (dwindow_grants out) apply_grant;
       for_each (stream_events out) (fun e => deliver_stream_item (fst e) (snd e)))
        (set_demux c d)
  | (d, Err e) => (set_demux c d, Err (CarrierMux e))
  | (d, Panic) => (set_demux c d, Panic)
  end.

(** The probe [handle_keepalive] sends at instant [now]. *)
Definition send_probe (k : KeepaliveConfig) (now : Z) : CM unit := fun c =>
  let nonce := be_bytes 8 (next_nonce c) in
  let c := set_keepalive c (outstanding_probe c) (missed c) (saturating_add 64 (next_nonce c) 1) in
  match (frame ← encode_or_fail (control_ping nonce); send_writer frame []) c with
  | (c, Ok _) => (set_keepalive c (Some (mkProbe nonce (now + kdeadline k))) (missed c) (next_nonce c), Ok tt)
  | (c, Err _) => (c, Err KeepaliveFailed)
  | (c, Panic) => (c, Panic)
  end.

(** [handle_keepalive] at instant [now]. *)
Definition handle_keepalive (k : KeepaliveConfig) (now : Z) : CM unit := fun c =>
  match outstanding_probe c with
  | Some p =>
      if now <? pdeadline p then (c, Ok tt)
      else
        let m := saturating_add 32 (missed c) 1 in
        let c := set_keepalive c (Some p) m (next_nonce c) in
        if max_missed k <=? m then (c, Err KeepaliveFailed) else send_probe k now c
  | None => send_probe k now c
  end.

(** ** Acceptance and teardown *)

(** [CarrierAcceptance::resolve], through [accepted] and [failed_before_acceptance]. *)
Definition resolve (outcome : Acceptance) (c : Coordinator) : Coordinator :=
  match acceptance c with APending => set_acceptance c outcome | _ => c end.

Inductive CarrierSide := Reader | Writer.

(** [classify_carrier_tls_alert]: [refusal] is what [classify_tls_refusal] says,
    [relay_ended] whether the relay has already given the reason of the end. *)
Definition classify_carrier_tls_alert (refusal : option TlsRefusal) (relay_ended : bool) (side : CarrierSide)
  (c : Coordinator) : Coordinator * option TlsRefusal :=
  match acceptance c with
  | APending =>
      match (if relay_ended then None else refusal) with
      | Some r => (resolve (AFailed (Some r)) c, Some r)
      | None => (match side with Reader => resolve (AFailed None) c | Writer => c end, None)
      end
  | _ => (c, None)
  end.

(** What the last read before a teardown finds. *)
Inductive Verdict := VTimeout | VEof | VBytes | VAlert (refusal : option TlsRefusal).

(** [read_verdict_before_teardown] *)
Definition read_verdict_before_teardown (v : Verdict) (relay_ended : bool) (c : Coordinator)
  : Coordinator * option TlsRefusal :=
  match acceptance c with
  | APending =>
      if relay_ended then (resolve (AFailed None) c, None)
      else
        match v with
        | VTimeout | VEof => (resolve (AFailed None) c, None)
        | VBytes => (resolve AAccepted c, None)
        | VAlert refusal => classify_carrier_tls_alert refusal relay_ended Reader c
        end
  | _ => (c, None)
  end.

(** [fanout_eof] and [fanout_certificate_unknown] *)
Definition fanout_one (e : DeliveryEvent) (sid : Z) (c : Coordinator) : Coordinator :=
  remove_state sid (fst (try_send sid e c)).
Definition fanout (e : DeliveryEvent) (order : list Z) (c : Coordinator) : Coordinator :=
  foldl (fun c sid => fanout_one e sid c) c order.
Definition eof_event : DeliveryEvent := DStream (uncosted (ItemEnd EndEof)).

(** ** The loop of [coordinator_task] *)

Inductive CoordinatorStep := StepContinue | StepStop | StepError (e : CarrierError).

(** The branches of its [select!]; [requester] is whether the caller of
    [open_stream] still waits for the answer. *)
Inductive select_event :=
| ReadBytes (data : list byte)
| ReadEof
| ReadError (refusal : option TlsRefusal) (relay_ended : bool)
| CommandReady (requester : bool)
| BodyReady
| CancelReady
| WriterReady
| Tick (now : Z).

Definition as_step (r : res CarrierError unit) : res CarrierError CoordinatorStep :=
  match r with Ok _ => Ok StepContinue | Err e => Ok (StepError e) | Panic => Panic end.
Definition handler (m : CM unit) (c : Coordinator) : Coordinator * res CarrierError CoordinatorStep :=
  let '(c, r) := m c in (c, as_step r).

(** An undelivered answer drops the reader, which cancels its stream. *)
Definition drop_reader (sid : Z) (c : Coordinator) : Coordinator :=
  match ports c !! sid with
  | Some p =>
      set_inputs (on_port sid (fun p => mkPort (permits p) (budget_open p) (reservations p) (body_chunks p)
                     (body_sender p) (body_receiver p) (delivery p) false true (received p) (sent_body p)) c)
        (commands c) (wakes c) (if rx_terminal p then cancels c else cancels c ++ [sid])
  | None => c
  end.

Definition on_command (requester : bool) (cmd : CarrierCommand) (c : Coordinator)
  : Coordinator * res CarrierError CoordinatorStep :=
  match cmd with
  | OpenStream i =>
      let '(c, sid) := open_stream_on_carrier i c in
      match pump_ready c with
      | (c, Err e) => (c, Ok (StepError PumpFailed))
      | (c, Panic) => (c, Panic)
      | (c, Ok _) =>
          if requester then (c, Ok StepContinue)
          else handler (reset_active_stream sid) (drop_reader sid c)
      end
  | Consume sid bytes => handler (consume_stream sid bytes) c
  | Shutdown => (c, Ok StepStop)
  end.

Definition on_select (k : KeepaliveConfig) (e : select_event) (c : Coordinator)
  : Coordinator * res CarrierError CoordinatorStep :=
  match e with
  | ReadBytes data =>
      match handle_read data (resolve AAccepted c) with
      | (c, Ok _) => (set_keepalive c None 0 (next_nonce c), Ok StepContinue)
      | (c, Err e) => (c, Ok (StepError e))
      | (c, Panic) => (c, Panic)
      end
  | ReadEof => (resolve (AFailed None) c, Ok StepStop)
  | ReadError refusal relay_ended =>
      let '(c, r) := classify_carrier_tls_alert refusal relay_ended Reader c in
      (c, Ok (StepError (from_option Refused ReadFailed r)))
  | CommandReady requester =>
      match commands c with
      | [] => (c, Ok StepStop)
      | cmd :: rest => on_command requester cmd (set_inputs c rest (wakes c) (cancels c))
      end
  | BodyReady => handler (for_each (wakes c) receive_body) (set_inputs c (commands c) [] (cancels c))
  | CancelReady =>
      match cancels c with
      | [] => (c, Ok StepContinue)
      | sid :: rest => handler (reset_active_stream sid) (set_inputs c (commands c) (wakes c) rest)
      end
  | WriterReady =>
      match writer_events c with
      | Drained :: rest =>
          (drained (set_writer c (inflight c) (wqueue c) (writer_alive c) rest (wire_log c)), Ok StepContinue)
      | Stopped (Some r) :: _ => (c, Ok (StepError (Refused r)))
      | Stopped None :: _ | [] => (c, Ok (StepError WriterStopped))
      end
  | Tick now => handler (handle_keepalive k now) c
  end.

(** The iteration order of the stream table. *)
Class StreamOrder := {
  stream_order : gmap Z StreamState -> list Z;
  stream_order_perm : forall m, stream_order m ≡ₚ (map_to_list m).*1
}.

Section Loop.
Context {SO : StreamOrder} (K : KeepaliveConfig).

(** [flush_pending_deliveries] *)
Definition has_pending (c : Coordinator) (sid : Z) : bool :=
  match cstreams c !! sid with
  | Some st => match pending_delivery st with [] => false | _ => true end
  | None => false
  end.
Definition flush_pending_deliveries : CM unit := fun c =>
  for_each (filter (fun sid => has_pending c sid = true) (stream_order (cstreams c))) flush_one c.

(** The end of the task after a failure. *)
Definition teardown (verdict : Verdict) (relay_ended : bool) (e : CarrierError) (c : Coordinator) : Coordinator :=
  let '(c, v) := read_verdict_before_teardown verdict relay_ended c in
  let event := match from_option Refused e v with Refused TlsCertificateUnknown => CertificateUnknown | _ => eof_event end in
  set_running (fanout event (stream_order (cstreams c)) c) false.

(** One turn of the loop; [None] is a panic.  [verdict] and [relay_ended] are
    what a teardown would find. *)
Definition coord_step (e : select_event) (verdict : Verdict) (relay_ended : bool) (c : Coordinator)
  : option Coordinator :=
  match on_select K e c with
  | (c, Ok StepContinue) =>
      match (_ ← flush_pending_deliveries; pump_ready) c with
      | (c, Ok _) => Some c
      | (c, Err e) => Some (teardown verdict relay_ended e c)
      | (_, Panic) => None
      end
  | (c, Ok StepStop) => Some (set_running (fanout eof_event (stream_order (cstreams c)) c) false)
  | (c, Ok (StepError e)) => Some (teardown verdict relay_ended e c)
  | (_, _) => None
  end.

(** ** Users of the streams and the writer *)

Inductive user_event :=
| UOpen (i : OpenStreamInput)
| UReserve (sid n : Z)
| USend (sid : Z) (i : nat) (bytes : list byte)
| UDropReservation (sid : Z) (i : nat)
| UBodyDone (sid : Z)
| URecv (sid : Z)
| UCancel (sid : Z)
| UDropReader (sid : Z)
| UShutdown.

Definition push_command (cmd : CarrierCommand) (c : Coordinator) : Coordinator :=
  set_inputs c (commands c ++ [cmd]) (wakes c) (cancels c).

Definition set_reservations (n : Z) (l : list Z) (p : Port) : Port :=
  mkPort (permits p + n) (budget_open p) l (body_chunks p) (body_sender p) (body_receiver p)
    (delivery p) (delivery_receiver p) (rx_terminal p) (received p) (sent_body p).
Definition push_chunk (ch : BodyChunk) (p : Port) : Port :=
  mkPort (permits p) (budget_open p) (reservations p) (body_chunks p ++ [ch]) (body_sender p) (body_receiver p)
    (delivery p) (delivery_receiver p) (rx_terminal p) (received p) (sent_body p ++ chunk_bytes ch).
Definition end_body (p : Port) : Port :=
  mkPort (permits p) (budget_open p) (reservations p) (body_chunks p) false (body_receiver p)
    (delivery p) (delivery_receiver p) (rx_terminal p) (received p) (sent_body p).
Definition take_delivery (e : DeliveryEvent) (rest : list DeliveryEvent) (p : Port) : Port :=
  mkPort (permits p) (budget_open p) (reservations p) (body_chunks p) (body_sender p) (body_receiver p)
    rest (delivery_receiver p)
    (rx_terminal p || delivery_ends e || match e with DStream _ => false | _ => true end) (received p ++ [e]) (sent_body p).
Definition set_terminal (p : Port) : Port :=
  mkPort (permits p) (budget_open p) (reservations p) (body_chunks p) (body_sender p) (body_receiver p)
    (delivery p) (delivery_receiver p) true (received p) (sent_body p).

(** One step of a stream's user; [None] is a step that has to wait, or that
    the user cannot take.  The command channel has room: a user that waits for a
    place in its 64 has not taken its step.  [recv] is one step, so a call
    dropped between taking an event and reporting it consumed is not covered;
    nor is an [open_stream] call dropped with its reply unread, whose body
    sender goes without a wake. *)
Definition user_step (e : user_event) (c : Coordinator) : option Coordinator :=
  match e with
  | UOpen i => Some (push_command (OpenStream i) c)
  | UShutdown => Some (push_command Shutdown c)
  (* [BodyTx::reserve] *)
  | UReserve sid n =>
      p ← ports c !! sid;
      if (0 <? n) && (n <? 2 ^ 32) && (n <=? permits p) && budget_open p && body_sender p
      then Some (on_port sid (set_reservations (- n) (n :: reservations p)) c) else None
  (* [BodyTx::send_reserved] *)
  | USend sid i bytes =>
      p ← ports c !! sid; n ← reservations p !! i;
      let rest := delete i (reservations p) in
      if negb (body_sender p) then None
      else if len bytes >? n then Some (on_port sid (set_reservations n rest) c)
      else if negb (body_receiver p) then Some (on_port sid (set_reservations n rest) c)
      else if BODY_QUEUE <=? len (body_chunks p) then None
      else
        let c := on_port sid (fun p => push_chunk (mkChunk bytes (mkBodyLease sid (len bytes)))
                                         (set_reservations (n - len bytes) rest p)) c in
        Some (set_inputs c (commands c) (wakes c ++ [sid]) (cancels c))
  | UDropReservation sid i =>
      p ← ports c !! sid; n ← reservations p !! i;
      Some (on_port sid (set_reservations n (delete i (reservations p))) c)
  (* [Drop for BodyTx] *)
  | UBodyDone sid =>
      p ← ports c !! sid;
      if body_sender p
      then let c := on_port sid end_body c in Some (set_inputs c (commands c) (wakes c ++ [sid]) (cancels c))
      else None
  (* [StreamRx::recv] *)
  | URecv sid =>
      p ← ports c !! sid;
      if negb (delivery_receiver p) then None
      else
        match delivery p with
        | [] => if bool_decide (is_Some (cstreams c !! sid)) then None else Some (on_port sid set_terminal c)
        | e :: rest =>
            let c := on_port sid (take_delivery e rest) c in
            match e with
            | DStream ev => Some (push_command (Consume sid (wire_cost ev)) c)
            | _ => Some c
            end
        end
  (* [StreamRx::cancel] and [Drop for StreamRx] *)
  | UCancel sid =>
      p ← ports c !! sid;
      if rx_terminal p then Some c
      else let c := on_port sid set_terminal c in Some (set_inputs c (commands c) (wakes c) (cancels c ++ [sid]))
  | UDropReader sid => Some (drop_reader sid c)
  end.

(** [writer_task]: it writes the first packet, or stops on an error and drops
    what is queued. *)
Inductive writer_step_event := WriterWrites | WriterFails (refusal : option TlsRefusal) (relay_ended : bool).

Definition writer_step (e : writer_step_event) (c : Coordinator) : option Coordinator :=
  if negb (writer_alive c) then None
  else
    match e with
    | WriterWrites =>
        match wqueue c with
        | [] => None
        | pkt :: rest =>
            let c := set_writer c (inflight c) rest true (writer_events c ++ [Drained]) (wire_log c ++ [pbytes pkt]) in
            Some (release_all (body_leases pkt) c)
        end
    | WriterFails refusal relay_ended =>
        let leases := concat (body_leases <$> wqueue c) in
        let '(c, r) := classify_carrier_tls_alert refusal relay_ended Writer c in
        Some (release_all leases (set_writer c (inflight c) [] false (writer_events c ++ [Stopped r]) (wire_log c)))
    end.

Inductive world_event :=
| Coord (e : select_event) (verdict : Verdict) (relay_ended : bool)
| User (e : user_event)
| WriterTask (e : writer_step_event).

Definition world_step (e : world_event) (c : Coordinator) : option Coordinator :=
  match e with
  | Coord e v r => if running c then coord_step e v r c else Some c
  | User e => Some (default c (user_step e c))
  | WriterTask e => Some (default c (writer_step e c))
  end.

Fixpoint world_run (evs : list world_event) (c : Coordinator) : option Coordinator :=
  match evs with
  | [] => Some c
  | e :: evs => world_step e c ≫= world_run evs
  end.

End Loop.
