(* ===== verification/CarrierInv.v ===== *)
(** * Scheduling and memory of the carrier

    The invariant of Carrier.v under every interleaving of the coordinator with
    the users of its streams and the writer, and what follows from it: uploads
    never stall, body bytes stay within their budget, reads are accounted for. *)

From S2P Require Import Prelude Frame Text Http Window Upload Assembler Demux Carrier.

(** ** Uploads *)

(** A live upload of stream [sid] that has been fed the body bytes [bs] and has
    put the frames [ss] on the wire. *)
Definition upload_ok (sid declared : Z) (bs : list byte) (ss : list (list byte)) (u : WindowedUpload) : Prop :=
  is_u32 sid /\ is_usize declared /\
  exists l ds, upload_inv (up_head u) declared sid u l ds /\ bs = fed l /\ ss = sent l.

(** Nothing to send. *)
Definition quiet (u : WindowedUpload) : Prop := poll_send u = (u, Ok None).

Lemma upload_ok_new sid head declared :
  is_u32 sid -> is_usize declared -> upload_ok sid declared [] [] (upload_new sid head declared).
Proof. intros Hs Hd. split_and!; [done..|]. exists log_new, []. split_and!; [|done..]. by apply upload_inv_new. Qed.

Lemma upload_ok_feed sid declared bs ss u bytes :
  upload_ok sid declared bs ss u ->
  match feed_body u bytes with
  | (u', Ok _) => upload_ok sid declared (bs ++ bytes) ss u' /\ up_body u' = up_body u ++ bytes
  | (_, Err e) => e = StageCapacityExceeded -> UPLOAD_BODY_STAGE_CAPACITY < len (up_body u) + len bytes
  | (_, Panic) => False
  end.
Proof.
  intros (Hs & Hd & l & ds & Hinv & -> & ->).
  destruct (feed_body_inv (up_head u) declared sid Hs Hd u l ds bytes Hinv) as (u' & l' & Hstep & Hinv').
  unfold upload_step, feed_body in *. pose proof (inv_stage _ _ _ _ _ _ Hinv) as Hstage.
  destruct (usub (declared_body_len u) (fed_body_len u)) as [r|e|]; [|done..].
  destruct (len bytes >? r); [done|]. unfold usub, checked_sub in *.
  replace (len (up_body u) <=? UPLOAD_BODY_STAGE_CAPACITY) with true in * by lia. cbn [expect] in *.
  destruct (Z.gtb_spec (len bytes) (UPLOAD_BODY_STAGE_CAPACITY - len (up_body u))); [lia|].
  injection Hstep as <- <-. split; [|done]. split_and!; [done..|].
  do 2 eexists. split_and!; [exact Hinv'|done|done].
Qed.

Lemma upload_ok_grant sid declared bs ss u c :
  upload_ok sid declared bs ss u -> 0 <= c ->
  match grant u c with
  | (u', Ok _) => upload_ok sid declared bs ss u' /\ up_body u' = up_body u
  | (u', Err _) => u' = u
  | (_, Panic) => False
  end.
Proof.
  intros (Hs & Hd & l & ds & Hinv & -> & ->) Hc.
  destruct (grant_inv (up_head u) declared sid u l ds c Hinv Hc) as (u' & l' & Hstep & Hinv').
  unfold upload_step, grant in *. destruct (checked_add 64 (send_credit u) c); [|done].
  destruct (_ >? _); [done|]. injection Hstep as <- <-. split; [|done]. split_and!; [done..|]. eauto.
Qed.

Lemma upload_ok_poll sid declared bs ss u :
  upload_ok sid declared bs ss u ->
  match poll_send u with
  | (u', Ok None) => u' = u
  | (u', Ok (Some frame)) =>
      upload_ok sid declared bs (ss ++ [frame]) u' /\
      0 <= emitted_body_len u' - emitted_body_len u <= len (up_body u) /\
      len (up_body u') = len (up_body u) - (emitted_body_len u' - emitted_body_len u)
  | _ => False
  end.
Proof.
  intros (Hs & Hd & l & ds & Hinv & -> & ->).
  destruct (upload_step_inv (up_head u) declared sid Hs Hd u l ds Poll Hinv ltac:(done)) as (u' & l' & ds' & Hstep & Hinv').
  unfold upload_step in Hstep. destruct (poll_send u) as [u1 [[frame|]|e|]] eqn:E; [..|done|done];
    injection Hstep as <- <-.
  - assert (up_head u1 = up_head u) as Hh by apply Hinv'. split.
    + split_and!; [done..|]. rewrite <- Hh in Hinv'. eauto.
    + pose proof (inv_body _ _ _ _ _ _ Hinv) as Hb. pose proof (inv_body _ _ _ _ _ _ Hinv') as Hb'. cbn in Hb'.
      pose proof (inv_emitted _ _ _ _ _ _ Hinv) as He. pose proof (inv_emitted _ _ _ _ _ _ Hinv') as He'. cbn in He'.
      rewrite Hb, Hb', !length_drop.
      assert (emitted_body_len u <= emitted_body_len u1); [|lia].
      destruct (inv_credit _ _ _ _ _ _ Hinv) as [Hcr _]. clear -E Hcr. unfold poll_send in E.
      repeat case_match; injection E as <- _; cbn; unfold RECOMMENDED_CHUNK, MAX_PAYLOAD; lia.
  - clear -E. unfold poll_send in E.
    repeat case_match; try (by injection E as <-); injection E as _ E; by destruct (encode _).
Qed.

Lemma upload_ok_idle sid declared bs ss u :
  upload_ok sid declared bs ss u -> is_done u = true \/ is_blocked u = true -> quiet u.
Proof.
  intros (Hs & Hd & l & ds & Hinv & -> & ->) Hidle. pose proof Hinv as [_ _ _ Hoff _ [Hf Hfd] Hem Hbody _ _ _ _ _ Hclosed _ _].
  unfold quiet, poll_send, usub, checked_sub.
  replace (head_offset u <=? len (up_head u)) with true by lia. cbn [expect].
  destruct Hidle as [Hdone|Hblocked].
  - unfold is_done in Hdone. destruct (Hclosed Hdone) as [Hh He].
    assert (len (up_body u) = 0) as -> by (rewrite Hbody, length_drop; lia).
    replace (len (up_head u) - head_offset u >? 0) with false by lia. by rewrite Hdone.
  - unfold is_blocked in Hblocked. apply andb_prop in Hblocked as [Hcr Hav]. apply andb_prop in Hcr as [_ Hcr].
    rewrite Hcr. destruct (Z.gtb_spec (len (up_head u) - head_offset u) 0).
    + by replace (len (up_head u) - head_offset u >? 0) with true by lia.
    + by replace (len (up_body u) >? 0) with true by lia.
Qed.

(** ** Leases *)

Lemma take_body_leases_ok staged : forall n,
  Forall (fun l => 0 <= lease_len l) staged -> 0 <= n <= zsum lease_len staged ->
  exists taken kept, take_body_leases staged n = (taken, kept, None) /\
    zsum lease_len taken = n /\ zsum lease_len kept = zsum lease_len staged - n /\
    forall (P : BodyLease -> Prop), Forall P staged ->
      (forall o a b, P (mkBodyLease o (a + b)) -> 0 <= a -> 0 <= b -> P (mkBodyLease o a) /\ P (mkBodyLease o b)) ->
      Forall P taken /\ Forall P kept.
Proof.
  induction staged as [|l staged IH]; intros n Hpos Hn; cbn [take_body_leases].
  - cbn in Hn. replace (n <=? 0) with true by lia. exists [], []. split_and!; [done|cbn; lia..|done].
  - apply Forall_cons_1 in Hpos as [Hl Hpos]. rewrite zsum_cons in Hn. destruct (Z.leb_spec n 0).
    { exists [], (l :: staged). split_and!; [done|cbn; lia..|done]. }
    destruct (Z.leb_spec (lease_len l) n) as [Hle|Hgt].
    + destruct (IH (n - lease_len l) Hpos ltac:(lia)) as (taken & kept & -> & Ht & Hk & HP).
      exists (l :: taken), kept. rewrite !zsum_cons. split_and!; [done|lia..|].
      intros P [Hpl HPs]%Forall_cons_1 Hsplit. destruct (HP P HPs Hsplit). auto.
    + unfold lease_split. replace (n <=? lease_len l) with true by lia.
      exists [mkBodyLease (lease_of l) n], (mkBodyLease (lease_of l) (lease_len l - n) :: staged).
      rewrite !zsum_cons. cbn. split_and!; [done|lia..|].
      intros P [Hpl HPs]%Forall_cons_1 Hsplit.
      destruct (Hsplit (lease_of l) (lease_len l - n) n); [|lia..|auto].
      replace (lease_len l - n + n) with (lease_len l) by lia. by destruct l.
Qed.

(** ** The invariant *)

(** Whether an encoded frame is one of an upload of stream [sid]. *)
Definition is_upload_frame (sid : Z) (b : list byte) : bool :=
  match b with
  | b0 :: b1 :: b2 :: b3 :: b4 :: _ =>
      (be_val [b0; b1; b2; b3] =? sid) && negb (u8 b4 =? FLAG_WINDOW) && negb (u8 b4 =? FLAG_RESET)
  | _ => false
  end.

(** The frames of the upload of [sid] that were written or wait for the writer. *)
Definition sent_frames (sid : Z) (c : Coordinator) : list (list byte) :=
  filter (fun b => is_upload_frame sid b = true) (wire_log c ++ (pbytes <$> wqueue c)).

Definition lease_for (sid : Z) (l : BodyLease) : Z := if decide (lease_of l = sid) then lease_len l else 0.
Definition packet_leases (q : list WriterPacket) : list BodyLease := concat (body_leases <$> q).
Definition leased (sid : Z) (q : list WriterPacket) : Z := zsum (lease_for sid) (packet_leases q).

#[global] Arguments leased : simpl never.
#[global] Arguments packet_leases : simpl never.
#[global] Arguments sent_frames : simpl never.

(** What the rest of the coordinator holds for a stream; [W] are the ids of
    wakes taken off the queue that are still to be handled. *)
Record context := mkContext {
  x_leased : Z;
  x_ready : bool;
  x_woken : bool;
  x_cancelled : bool;
  x_frames : option (list (list byte))
}.
Definition ctx (W : list Z) (c : Coordinator) (sid : Z) : context :=
  mkContext (leased sid (wqueue c)) (bool_decide (sid ∈ ready c)) (bool_decide (sid ∈ W ++ wakes c))
    (bool_decide (sid ∈ cancels c))
    (if writer_alive c then Some (sent_frames sid c) else None).

Definition held_by_port (p : Port) : Z :=
  permits p + zsum id (reservations p) + zsum (fun ch => lease_len (chunk_lease ch)) (body_chunks p).

(** An event after which more may follow. *)
Definition plain (e : DeliveryEvent) : bool :=
  match e with DStream ev => negb (is_end ev) | _ => false end.

Definition is_stream (e : DeliveryEvent) : bool := match e with DStream _ => true | _ => false end.

Record stream_inv (x : context) (sid : Z) (st : StreamState) (p : Port) : Prop := {
  si_upload : exists bs ss, upload_ok sid (sdeclared st) bs ss (upload st) /\
    (forall fs, x_frames x = Some fs -> ss = fs) /\
    received_body_len st = len bs /\ sent_body p = bs ++ concat (chunk_bytes <$> body_chunks p);
  si_staged : Forall (fun l => lease_of l = sid /\ 0 <= lease_len l) (staged_leases st);
  si_body : zsum lease_len (staged_leases st) = len (up_body (upload st));
  si_chunks : Forall (fun ch => chunk_lease ch = mkBodyLease sid (len (chunk_bytes ch))) (body_chunks p);
  si_permits : 0 <= permits p /\ Forall (fun n => 0 <= n) (reservations p);
  si_leased : 0 <= x_leased x;
  si_budget : held_by_port p + zsum lease_len (staged_leases st) + x_leased x = UPLOAD_BODY_STAGE_CAPACITY;
  si_open : body_receiver p = true /\ budget_open p = true;
  si_ready : ready_queued st = x_ready x;
  si_quiet : ready_queued st = false -> quiet (upload st);
  si_woken : body_chunks p <> [] -> x_woken x = true;
  si_short : body_sender p = false -> received_body_len st < sdeclared st -> x_woken x = true;
  si_plain : Forall (fun e => plain e = true) (delivery p);
  si_pending : Forall (fun e => is_stream e = true) (pending_delivery st);
  si_reader : delivery_receiver p = false -> rx_terminal p = true;
  si_terminal : rx_terminal p = true -> x_cancelled x = true
}.

Definition is_drained (e : WriterEvent) : bool := match e with Drained => true | Stopped _ => false end.
Definition is_open (cmd : CarrierCommand) : bool := match cmd with OpenStream _ => true | _ => false end.
Definition count {A} (f : A -> bool) (l : list A) : Z := zsum (fun a => if f a then 1 else 0) l.

#[global] Arguments count : simpl never.
#[local] Arguments zsum : simpl never.

(** The parts of the invariant that are about no single stream; [B] bounds the
    streams still to be opened. *)
Record global_inv (B : Z) (c : Coordinator) : Prop := {
  gi_ids : exists n, 0 <= n /\ next (cdialer c) = 1 + 2 * n /\ 0 <= B /\
    n + count is_open (commands c) + B <= 2 ^ 31 - 1;
  gi_commands : Forall (fun cmd => match cmd with
                                   | OpenStream i => is_usize (odeclared i)
                                   | Consume sid _ => 0 < sid < next (cdialer c)
                                   | Shutdown => True end) (commands c);
  gi_inflight : 0 <= inflight c <= WRITER_QUEUE;
  gi_writer : writer_alive c = true -> inflight c = len (wqueue c) + count is_drained (writer_events c);
  gi_ready : NoDup (ready c) /\ Forall (fun sid => sid < next (cdialer c)) (ready c);
  gi_leases : Forall (fun l => lease_of l < next (cdialer c) /\ 0 <= lease_len l) (packet_leases (wqueue c));
  gi_ports : map_Forall (fun sid _ => 0 < sid < next (cdialer c)) (ports c);
  gi_frames : Forall (fun b => forall sid, next (cdialer c) <= sid -> is_upload_frame sid b = false)
                (wire_log c ++ (pbytes <$> wqueue c));
  gi_nonce : 0 <= next_nonce c < 2 ^ 64
}.

Record coord_inv (B : Z) (W : list Z) (c : Coordinator) : Prop := {
  ci_global : global_inv B c;
  ci_stream : forall sid st, cstreams c !! sid = Some st ->
    exists p, ports c !! sid = Some p /\ stream_inv (ctx W c sid) sid st p
}.

(** The errors a coordinator may end with. *)
Definition tolerated (e : CarrierError) : Prop :=
  match e with
  | BudgetUnderflow | BudgetIndivisible | BodyRejected StageCapacityExceeded => False
  | _ => True
  end.

Definition cspec {A} (m : CM A) (c : Coordinator) (Q : A -> Coordinator -> Prop) : Prop :=
  match m c with
  | (c', Ok a) => Q a c'
  | (_, Err e) => tolerated e
  | (_, Panic) => False
  end.

Lemma cspec_bind {A A'} (m : CM A) (f : A -> CM A') c Q :
  cspec m c (fun a c' => cspec (f a) c' Q) -> cspec (m ≫= f) c Q.
Proof. unfold cspec, mbind, CM_bind. by destruct (m c) as [c1 [a|e|]]. Qed.

Lemma cspec_mono {A} (m : CM A) c (Q Q' : A -> Coordinator -> Prop) :
  cspec m c Q -> (forall a c', Q a c' -> Q' a c') -> cspec m c Q'.
Proof. unfold cspec. destruct (m c) as [c1 [a|e|]]; auto. Qed.

Lemma cspec_for_each {A} (l : list A) (f : A -> CM unit) (I : list A -> Coordinator -> Prop) c :
  (forall a l' c, I (a :: l') c -> cspec (f a) c (fun _ c' => I l' c')) -> I l c ->
  cspec (for_each l f) c (fun _ c' => I [] c').
Proof.
  intros Hf. revert c. induction l as [|a l IH]; intros c Hc; cbn [for_each]; [done|].
  apply cspec_bind. eapply cspec_mono; [by apply Hf|]. intros ? c' H. by apply IH.
Qed.

(** ** Frames *)

Lemma is_upload_frame_wire sid f :
  wf_frame f ->
  is_upload_frame sid (wire f)
  = (stream_id f =? sid) && negb (flags f =? FLAG_WINDOW) && negb (flags f =? FLAG_RESET).
Proof.
  intros (Hs & Hf & _). unfold is_upload_frame, wire.
  pose proof (be_val_be_bytes 4 (stream_id f)) as Hv. cbn [be_bytes app] in *.
  rewrite Hv, u8_as_u8, (Z.mod_small (flags f)) by lia. by rewrite Z.mod_small by done.
Qed.

Lemma control_not_upload sid b : control_frame b -> 0 < sid -> is_upload_frame sid b = false.
Proof.
  intros (f & -> & Hf & Hk) Hs. rewrite is_upload_frame_wire by done.
  destruct Hk as [Hk|[Hk|Hk]]; rewrite Hk; [|cbn [negb Z.eqb]..].
  - replace (0 =? sid) with false by lia. done.
  - by rewrite andb_false_r.
  - by rewrite andb_false_r.
Qed.

Lemma data_flags_in n f : f ∈ data_flags n -> f = Z.lor FLAG_OPEN FLAG_DATA \/ f = FLAG_DATA.
Proof.
  destruct n as [|n]; cbn [data_flags]; [by intros ?%not_elem_of_nil|].
  intros [->|[-> _]%elem_of_replicate]%elem_of_cons; auto.
Qed.

Lemma upload_ok_frames sid declared bs ss u i :
  upload_ok sid declared bs ss u -> Forall (fun b => is_upload_frame i b = bool_decide (sid = i)) ss.
Proof.
  intros (Hs & _ & l & ds & Hinv & _ & ->). rewrite (inv_sent _ _ _ _ _ _ Hinv). apply Forall_fmap.
  apply list.Forall_forall. intros f Hf. cbn.
  assert (wf_frame f /\ stream_id f = sid /\ flags f <> FLAG_WINDOW /\ flags f <> FLAG_RESET) as (Hw & <- & H1 & H2).
  { apply elem_of_app in Hf as [Hf|Hf].
    - pose proof (inv_frames _ _ _ _ _ _ Hinv) as Hfs. rewrite list.Forall_forall in Hfs.
      destruct (Hfs _ Hf) as (? & ? & _). split_and!; [done|done|..].
      all: assert (flags f ∈ data_flags (length ds)) as Hfl by (rewrite <- (inv_flags _ _ _ _ _ _ Hinv);
             by apply list_elem_of_fmap_2).
      all: by destruct (data_flags_in _ _ Hfl) as [->| ->].
    - destruct (up_closed u); [|by apply not_elem_of_nil in Hf]. apply list_elem_of_singleton in Hf as ->.
      split_and!; [|done..]. unfold wf_frame, MAX_PAYLOAD. cbn. done. }
  rewrite is_upload_frame_wire by done.
  replace (flags f =? FLAG_WINDOW) with false by lia. replace (flags f =? FLAG_RESET) with false by lia.
  rewrite !andb_true_r. case_bool_decide; lia.
Qed.

(** ** Updates of one stream *)

Lemma coord_inv_update' B B' W W' c c' sid :
  coord_inv B W c -> global_inv B' c' ->
  (forall i st, i <> sid -> cstreams c' !! i = Some st ->
     cstreams c !! i = Some st /\ ports c' !! i = ports c !! i /\ (0 < i < next (cdialer c) -> ctx W' c' i = ctx W c i)) ->
  (forall st, cstreams c' !! sid = Some st ->
     exists p, ports c' !! sid = Some p /\ stream_inv (ctx W' c' sid) sid st p) ->
  coord_inv B' W' c'.
Proof.
  intros [Hg Hs] Hg' Hother Hsame. split; [done|]. intros i st Hi. destruct (decide (i = sid)) as [->|Hne]; [auto|].
  destruct (Hother _ _ Hne Hi) as (Hi' & Hp' & Hctx). destruct (Hs _ _ Hi') as (p & Hp & Hinv).
  exists p. rewrite Hp'. split; [done|]. rewrite Hctx; [done|]. by apply (gi_ports _ _ Hg _ _ Hp).
Qed.

Lemma coord_inv_update B W c c' sid :
  coord_inv B W c -> global_inv B c' ->
  (forall i st, i <> sid -> cstreams c' !! i = Some st ->
     cstreams c !! i = Some st /\ ports c' !! i = ports c !! i /\ (0 < i < next (cdialer c) -> ctx W c' i = ctx W c i)) ->
  (forall st, cstreams c' !! sid = Some st ->
     exists p, ports c' !! sid = Some p /\ stream_inv (ctx W c' sid) sid st p) ->
  coord_inv B W c'.
Proof. apply coord_inv_update'. Qed.

Lemma release_all_own sid ls c :
  Forall (fun l => lease_of l = sid) ls ->
  release_all ls c = on_port sid (add_permits (zsum lease_len ls)) c.
Proof.
  unfold release_all. induction 1 as [|l ls Hl Hls IH].
  - cbn [foldr]. unfold on_port. rewrite alter_id; [by destruct c|]. intros p _. unfold add_permits. cbn.
    rewrite Z.add_0_r. by destruct p.
  - cbn [foldr]. rewrite IH. unfold release, on_port. rewrite Hl, zsum_cons. unfold set_ports. cbn. f_equal.
    apply map_eq. intros i. destruct (decide (i = sid)) as [->|Hne].
    + rewrite !lookup_alter_eq. destruct (ports c !! sid) as [p|]; [|done]. cbn. f_equal. unfold add_permits. cbn.
      f_equal. unfold zsum. lia.
    + by rewrite !lookup_alter_ne by congruence.
Qed.

Lemma leased_app sid q q' : leased sid (q ++ q') = leased sid q + leased sid q'.
Proof. unfold leased, packet_leases. by rewrite fmap_app, concat_app, zsum_app. Qed.

Lemma leased_one i b ls : leased i [mkPacket b ls] = zsum (lease_for i) ls.
Proof. unfold leased, packet_leases. cbn [fmap list_fmap concat body_leases]. by rewrite app_nil_r. Qed.

Lemma leased_own sid ls b : Forall (fun l => lease_of l = sid) ls -> leased sid [mkPacket b ls] = zsum lease_len ls.
Proof.
  rewrite leased_one. induction 1 as [|l ls Hl _ IH]; [done|].
  rewrite !zsum_cons, IH. unfold lease_for. by rewrite decide_True.
Qed.

Lemma leased_other sid i ls b : Forall (fun l => lease_of l = sid) ls -> i <> sid -> leased i [mkPacket b ls] = 0.
Proof.
  intros H Hne. rewrite leased_one. induction H as [|l ls Hl _ IH]; [done|].
  rewrite zsum_cons, IH. unfold lease_for. rewrite decide_False by congruence. done.
Qed.

(** ** Frame rules *)

Lemma alter_dom {A} (f : A -> A) i (m : gmap Z A) j : is_Some (alter f i m !! j) -> is_Some (m !! j).
Proof. intros [x Hx]. apply lookup_alter_Some in Hx as [(_ & y & Hy & _)|[_ Hy]]; [subst|]; eauto. Qed.

(** Streams, demux and ports may change without touching the rest. *)
Lemma global_inv_streams B c d m : global_inv B c -> global_inv B (set_cstreams (set_demux c d) m).
Proof. by intros []. Qed.

Lemma global_inv_port B c sid f : global_inv B c -> global_inv B (on_port sid f c).
Proof.
  intros []. split; try done. cbn. intros i p Hi.
  destruct (alter_dom f sid (ports c) i) as [q Hq]; [by rewrite Hi|]. by apply (gi_ports0 i q).
Qed.

(** A packet with leases of [sid] whose frame is only a frame of [sid]'s upload. *)
Definition packet_of (sid : Z) (b : list byte) (ls : list BodyLease) (c : Coordinator) : Prop :=
  Forall (fun l => lease_of l = sid /\ 0 <= lease_len l) ls /\
  (forall i, 0 < i -> i <> sid -> is_upload_frame i b = false) /\
  sid < next (cdialer c) /\ 0 < next (cdialer c).

Definition pushed (b : list byte) (ls : list BodyLease) (c : Coordinator) : Coordinator :=
  set_writer c (inflight c + 1) (wqueue c ++ [mkPacket b ls]) true (writer_events c) (wire_log c).

Lemma sent_frames_pushed i b ls c :
  sent_frames i (pushed b ls c) = sent_frames i c ++ (if is_upload_frame i b then [b] else []).
Proof.
  unfold sent_frames, pushed. cbn [wqueue wire_log set_writer]. rewrite fmap_app, app_assoc, list.filter_app. f_equal.
  cbn [fmap list_fmap pbytes]. rewrite list.filter_cons, list.filter_nil. by destruct (is_upload_frame i b).
Qed.

Lemma ctx_pushed W c sid b ls i :
  packet_of sid b ls c -> 0 < i -> i <> sid -> writer_alive c = true -> ctx W (pushed b ls c) i = ctx W c i.
Proof.
  intros (Hls & Hb & _) Hi Hne Ha. unfold ctx. rewrite sent_frames_pushed, (Hb i Hi Hne), app_nil_r. cbn.
  rewrite Ha, leased_app, (leased_other sid), Z.add_0_r; [done| |done].
  eapply Forall_impl; [|exact Hls]. by intros l [? _].
Qed.

Lemma global_inv_pushed B c sid b ls :
  global_inv B c -> packet_of sid b ls c -> writer_alive c = true -> has_room c = true -> global_inv B (pushed b ls c).
Proof.
  intros [] (Hls & Hb & Hsid & Hn) Ha Hroom. unfold has_room in Hroom. specialize (gi_writer0 Ha).
  split; cbn; try done.
  - lia.
  - intros _. rewrite length_app. cbn. lia.
  - unfold packet_leases. rewrite fmap_app, concat_app. apply Forall_app. split; [done|]. cbn. rewrite app_nil_r.
    eapply Forall_impl; [|exact Hls]. intros l [-> ?]. done.
  - rewrite fmap_app, app_assoc. apply Forall_app. split; [done|]. cbn. constructor; [|done].
    intros i Hi. cbn in Hi. apply Hb; lia.
Qed.

(** [send_writer] fails, or the packet waits for the writer. *)
Lemma send_writer_cases B b ls c :
  global_inv B c ->
  match send_writer b ls c with
  | (c', Ok _) => c' = pushed b ls c /\ writer_alive c = true /\ has_room c = true
  | (_, Err e) => e = WriterQueueFull \/ e = WriterStopped
  | (_, Panic) => False
  end.
Proof.
  intros Hg. unfold send_writer. destruct (has_room c); cbn [negb]; [|auto]. destruct (writer_alive c) eqn:Ha; cbn [negb]; [|auto].
  cbn [negb]. destruct (WRITER_QUEUE <=? len (wqueue c)); [auto|]. done.
Qed.

Lemma send_control_spec B W c b :
  coord_inv B W c -> (forall i, 0 < i -> is_upload_frame i b = false) ->
  cspec (send_writer b []) c (fun _ c' => coord_inv B W c' /\ c' = pushed b [] c).
Proof.
  intros Hinv Hb. unfold cspec. pose proof (send_writer_cases B b [] c (ci_global _ _ _ Hinv)) as H.
  destruct (send_writer b [] c) as [c' [[]|e|]]; [|by destruct H as [->| ->]|done].
  destruct H as (-> & Ha & Hr). split; [|done].
  assert (Hp : packet_of 0 b [] c).
  { split_and!; [done|auto|..]; destruct (gi_ids _ _ (ci_global _ _ _ Hinv)) as (n & ? & ? & ? & ?); lia. }
  apply (coord_inv_update B W c _ 0); [done|eapply global_inv_pushed; eauto using ci_global|..].
  - intros i st Hne Hi. split_and!; [done..|]. intros Hpos. by apply (ctx_pushed W c 0); [|lia|..].
  - intros st Hi. destruct (ci_stream _ _ _ Hinv _ _ Hi) as (p & Hpp & _).
    by destruct (gi_ports _ _ (ci_global _ _ _ Hinv) _ _ Hpp).
Qed.

(** ** Removing streams *)

Lemma on_port_twice sid f g c : on_port sid g (on_port sid f c) = on_port sid (fun p => g (f p)) c.
Proof.
  unfold on_port, set_ports. cbn. f_equal. apply map_eq. intros i. destruct (decide (i = sid)) as [->|Hne].
  - rewrite !lookup_alter_eq. by destruct (ports c !! sid).
  - by rewrite !lookup_alter_ne by congruence.
Qed.

Lemma on_port_id sid c : on_port sid id c = c.
Proof. unfold on_port. rewrite alter_id by done. by destruct c. Qed.

(** Changes of a port that leave the body's side alone. *)
Definition same_body (f : Port -> Port) : Prop := forall p,
  permits (f p) = permits p /\ reservations (f p) = reservations p /\ body_chunks (f p) = body_chunks p /\
  body_sender (f p) = body_sender p /\ body_receiver (f p) = body_receiver p /\ budget_open (f p) = budget_open p.

(** Stream [sid] is gone, and its port is what [g] makes of it. *)
Definition gone_with (sid : Z) (g : Port -> Port) (c : Coordinator) : Coordinator :=
  on_port sid g (set_cstreams c (delete sid (cstreams c))).

Definition closed_port (n : Z) (p : Port) : Port := add_permits n (close_port p).

Lemma coord_inv_gone B W c sid g : coord_inv B W c -> coord_inv B W (gone_with sid g c).
Proof.
  intros Hinv. apply (coord_inv_update B W c _ sid); [done|..].
  - apply global_inv_port. apply (global_inv_streams B c (cdemux c)). apply Hinv.
  - intros i st' Hne Hi. cbn in *. rewrite lookup_delete_ne in Hi by congruence.
    rewrite lookup_alter_ne by congruence. done.
  - intros st' Hi. cbn in Hi. by rewrite lookup_delete_eq in Hi.
Qed.

Lemma coord_inv_demux B W c d : coord_inv B W c -> coord_inv B W (set_demux c d).
Proof. intros [Hg Hs]. split; [|done]. by destruct Hg. Qed.

Lemma reset_frame_control sid r i : is_u32 sid -> 0 < i -> is_upload_frame i (wire (reset sid r)) = false.
Proof. intros Hs. apply control_not_upload. eexists. split_and!; [done|eauto with spl|auto]. Qed.

Lemma stream_u32 B W c sid st : coord_inv B W c -> cstreams c !! sid = Some st -> is_u32 sid.
Proof.
  intros Hinv Hst. destruct (ci_stream _ _ _ Hinv _ _ Hst) as (p & _ & Hs).
  destruct (si_upload _ _ _ _ Hs) as (bs & ss & (? & _) & _). done.
Qed.

Lemma encode_bind {A} f (k : list byte -> CM A) c : wf_frame f -> (encode_or_fail f ≫= k) c = k (wire f) c.
Proof. intros Hf. unfold encode_or_fail. by rewrite encode_ok. Qed.

(** The state after stream [sid] was dropped and its RESET queued. *)
Definition reset_to (sid : Z) (g : Port -> Port) (c : Coordinator) : Coordinator :=
  pushed (wire (reset sid RESET_CANCEL)) []
    (set_demux (gone_with sid g c) (remove_stream (cdemux c) sid)).

(** A stream whose leases are its own, in a state that is in order without it. *)
Definition removable (B : Z) (W : list Z) (c : Coordinator) (sid : Z) : Prop :=
  (forall g, coord_inv B W (gone_with sid g c)) /\ is_u32 sid /\
  exists st p, cstreams c !! sid = Some st /\ ports c !! sid = Some p /\
    Forall (fun l => lease_of l = sid) (chunk_leases p ++ staged_leases st).

Lemma drop_removable B W c sid st :
  removable B W c sid -> cstreams c !! sid = Some st -> exists n, drop_stream sid st c = gone_with sid (closed_port n) c.
Proof.
  intros (_ & _ & st' & p & Hst' & Hp & Hl) Hst. rewrite Hst in Hst'. injection Hst' as <-.
  unfold drop_stream. rewrite Hp. cbn [from_option]. rewrite (release_all_own sid) by done.
  rewrite on_port_twice. by eexists.
Qed.

Lemma gone_port sid g f c : gone_with sid g (on_port sid f c) = gone_with sid (fun p => g (f p)) c.
Proof.
  unfold gone_with. change (set_cstreams (on_port sid f c) (delete sid (cstreams (on_port sid f c))))
    with (on_port sid f (set_cstreams c (delete sid (cstreams c)))). apply on_port_twice.
Qed.

Lemma reset_to_port sid g f c : reset_to sid g (on_port sid f c) = reset_to sid (fun p => g (f p)) c.
Proof. unfold reset_to. by rewrite gone_port. Qed.

Lemma coord_inv_removable B W c sid st f :
  coord_inv B W c -> cstreams c !! sid = Some st -> same_body f -> removable B W (on_port sid f c) sid.
Proof.
  intros Hinv Hst Hf. destruct (ci_stream _ _ _ Hinv _ _ Hst) as (p & Hp & Hs). split_and!.
  - intros g. rewrite gone_port. by apply coord_inv_gone.
  - by eapply stream_u32.
  - exists st, (f p). split_and!; [done|by cbn; rewrite lookup_alter_eq, Hp|]. apply Forall_app. split.
    + unfold chunk_leases. destruct (Hf p) as (_ & _ & -> & _). apply Forall_fmap.
      eapply Forall_impl; [|exact (si_chunks _ _ _ _ Hs)]. intros ch Hch. cbn in *. by rewrite Hch.
    + eapply Forall_impl; [|exact (si_staged _ _ _ _ Hs)]. by intros l [? _].
Qed.

Lemma reset_active_stream_spec B W c sid :
  removable B W c sid ->
  cspec (reset_active_stream sid) c (fun _ c' => coord_inv B W c' /\ exists n, c' = reset_to sid (closed_port n) c).
Proof.
  intros Hrm. pose proof Hrm as (Hgone & Hu & st & p & Hst & Hp & _). unfold cspec, reset_active_stream. rewrite Hst.
  destruct (drop_removable B W c sid st Hrm Hst) as [n ->]. rewrite encode_bind by eauto with spl.
  set (c1 := set_demux _ _).
  assert (Hc1 : coord_inv B W c1) by (by apply coord_inv_demux).
  pose proof (send_control_spec B W c1 (wire (reset sid RESET_CANCEL)) Hc1 (fun i => reset_frame_control sid _ i Hu)) as H.
  unfold cspec in H. destruct (send_writer _ _ _) as [c' [[]|e|]]; [|done..]. destruct H as [H1 H2]. split; [done|].
  exists n. by rewrite H2.
Qed.

(** ** Receive credit *)

Definition dcost (l : list DeliveryEvent) : Z :=
  zsum (fun e => match e with DStream ev => wire_cost ev | _ => 0 end) l.
Definition ccost (sid : Z) (l : list CarrierCommand) : Z :=
  zsum (fun cmd => match cmd with Consume s n => if decide (s = sid) then n else 0 | _ => 0 end) l.
#[global] Arguments dcost : simpl never.
#[global] Arguments ccost : simpl never.
#[global] Arguments owed : simpl never.

Definition costs_ok (l : list DeliveryEvent) : Prop :=
  Forall (fun e => match e with DStream ev => 0 <= wire_cost ev | _ => True end) l.

(** The bytes a stream's window still counts as held are those of the events
    the reader has not consumed: pending, in its queue, or as a [Consume] the
    coordinator has yet to see.  [Q] are events of the demux still to be handed
    out. *)
Record credit_inv (Q : list (Z * StreamEvent)) (c : Coordinator) : Prop := {
  cr_ok : demux_ok (cdemux c);
  cr_fatal : fatal_violation (cdemux c) = None;
  cr_known : forall sid, is_Some (streams (cdemux c) !! sid) -> is_Some (cstreams c !! sid);
  cr_books : forall sid dst st p, streams (cdemux c) !! sid = Some dst -> cstreams c !! sid = Some st ->
    ports c !! sid = Some p ->
    dcost (pending_delivery st) + dcost (delivery p) + ccost sid (commands c) + owed sid Q = held dst;
  cr_costs : forall sid st p, cstreams c !! sid = Some st -> ports c !! sid = Some p ->
    costs_ok (pending_delivery st) /\ costs_ok (delivery p);
  cr_consumes : forall sid n, is_Some (cstreams c !! sid) -> Consume sid n ∈ commands c -> 0 <= n;
  cr_queue : Forall (fun e => 0 <= wire_cost (snd e)) Q;
  cr_ended : forall sid st, cstreams c !! sid = Some st -> existsb delivery_ends (pending_delivery st) = true ->
    streams (cdemux c) !! sid = None;
  cr_ends : Forall (fun e => is_end (snd e) = true -> streams (cdemux c) !! fst e = None) Q
}.

Lemma dcost_app l l' : dcost (l ++ l') = dcost l + dcost l'.
Proof. apply zsum_app. Qed.
Lemma dcost_one e : dcost [DStream e] = wire_cost e.
Proof. unfold dcost, zsum. cbn. lia. Qed.

Lemma insert_known {A} (m : gmap Z A) k a a' i : m !! k = Some a -> is_Some (<[k := a']> m !! i) -> is_Some (m !! i).
Proof. intros Hk [x [[-> _]|[_ ?]]%lookup_insert_Some]; eauto. Qed.

Lemma credit_pushed Q b ls c : credit_inv Q c -> credit_inv Q (pushed b ls c).
Proof. by intros []. Qed.

Lemma credit_gone Q sid g c :
  credit_inv Q c -> streams (cdemux c) !! sid = None -> credit_inv Q (gone_with sid g c).
Proof.
  intros [Hok Hfat Hknown Hbooks Hcosts Hcons Hq Hended Hends] Hnone.
  split; cbn; try done.
  - intros i Hi. rewrite lookup_delete_ne; [by apply Hknown|]. intros <-. rewrite Hnone in Hi. by destruct Hi.
  - intros i dst st p Hi Hst Hp. destruct (decide (i = sid)) as [->|Hne]; [congruence|].
    rewrite lookup_delete_ne in Hst by congruence. rewrite lookup_alter_ne in Hp by congruence. eauto.
  - intros i st p Hst Hp. apply lookup_delete_Some in Hst as [Hne Hst]. rewrite lookup_alter_ne in Hp by congruence. eauto.
  - intros i n [st Hst] Hin. apply lookup_delete_Some in Hst as [Hne Hst]. eauto.
  - intros i st Hst. apply lookup_delete_Some in Hst as [Hne Hst]. eauto.
Qed.

Lemma credit_remove Q sid c :
  credit_inv Q c -> credit_inv Q (set_demux c (remove_stream (cdemux c) sid)).
Proof.
  intros [Hok Hfat Hknown Hbooks Hcosts Hcons Hq Hended Hends].
  assert (Hd : forall i (dst : CarrierStream), delete sid (streams (cdemux c)) !! i = Some dst -> streams (cdemux c) !! i = Some dst)
    by (intros i dst [_ ?]%lookup_delete_Some; done).
  assert (Hn : forall i, streams (cdemux c) !! i = None -> delete sid (streams (cdemux c)) !! i = None).
  { intros i Hi. apply eq_None_not_Some. intros [dst Hx%Hd]. congruence. }
  split; cbn; try done.
  - by apply map_Forall_delete.
  - intros i [dst Hi%Hd]. eauto.
  - intros i dst st p Hi%Hd. eauto.
  - intros i st Hst He. eauto.
  - eapply Forall_impl; [|exact Hends]. cbn. intros e He Hx. eauto.
Qed.

Lemma credit_reset_to Q sid g c : credit_inv Q c -> credit_inv Q (reset_to sid g c).
Proof.
  intros Hc. unfold reset_to. apply credit_pushed.
  change (set_demux (gone_with sid g c) (remove_stream (cdemux c) sid))
    with (gone_with sid g (set_demux c (remove_stream (cdemux c) sid))).
  apply credit_gone; [by apply credit_remove|]. cbn. apply lookup_delete_eq.
Qed.

(** The next event of the demux goes nowhere, to the reader's queue, to the
    pending events, or ends the stream. *)
Section Next.
Context (Q : list (Z * StreamEvent)) (sid : Z) (e : StreamEvent) (c : Coordinator).
Context (Hc : credit_inv ((sid, e) :: Q) c).

Lemma owed_next i : owed i ((sid, e) :: Q) = (if decide (sid = i) then wire_cost e else 0) + owed i Q.
Proof. apply owed_cons. Qed.

Lemma credit_next_elsewhere :
  (is_Some (streams (cdemux c) !! sid) -> False) -> credit_inv Q c.
Proof.
  destruct Hc as [Hok Hfat Hknown Hbooks Hcosts Hcons Hq Hended Hends]. intros Hnone.
  apply Forall_cons_1 in Hq as [_ Hq]. apply Forall_cons_1 in Hends as [_ Hends].
  split; try done. intros i dst st p Hi Hst Hp. rewrite <- (Hbooks i dst st p Hi Hst Hp), owed_next.
  rewrite decide_False; [lia|]. intros <-. apply Hnone. by rewrite Hi.
Qed.

Lemma credit_next_reset g : credit_inv Q (reset_to sid g c).
Proof.
  assert (credit_inv ((sid, e) :: Q) (reset_to sid g c)) as [] by by apply credit_reset_to.
  apply Forall_cons_1 in cr_queue0 as [_ Hq]. apply Forall_cons_1 in cr_ends0 as [_ He]. split; try done.
  intros i dst st p Hi Hst Hp. rewrite <- (cr_books0 i dst st p Hi Hst Hp), owed_next.
  rewrite decide_False; [lia|]. intros <-. cbn in Hi. by rewrite lookup_delete_eq in Hi.
Qed.

Lemma credit_next_sent :
  is_end e = false -> credit_inv Q (on_port sid (push_delivery (DStream e)) c).
Proof.
  destruct Hc as [Hok Hfat Hknown Hbooks Hcosts Hcons Hq Hended Hends]. intros He.
  apply Forall_cons_1 in Hq as [Hce Hq]. apply Forall_cons_1 in Hends as [_ Hends].
  split; cbn; try done.
  - intros i dst st p Hi Hst Hp. apply lookup_alter_Some in Hp as [(<- & q & Hp & ->)|[Hne Hp]];
      rewrite <- (Hbooks _ dst st _ Hi Hst Hp), owed_next.
    + rewrite decide_True by done. cbn. rewrite dcost_app, dcost_one. lia.
    + rewrite decide_False by done. lia.
  - intros i st p Hst Hp. apply lookup_alter_Some in Hp as [(<- & q & Hp & ->)|[Hne Hp]]; [|eauto].
    destruct (Hcosts _ _ _ Hst Hp) as [H1 H2]. split; [done|]. cbn. apply Forall_app. split; [done|]. by constructor.
Qed.

Lemma credit_next_end g : is_end e = true -> credit_inv Q (gone_with sid g c).
Proof.
  intros He. pose proof (cr_ends _ _ Hc) as [Hnone _]%Forall_cons_1. specialize (Hnone He). cbn in Hnone.
  apply credit_gone; [|done]. apply credit_next_elsewhere. rewrite Hnone. by intros [].
Qed.

End Next.

(** ** Delivery *)

Lemma coord_inv_port B W c sid f :
  coord_inv B W c ->
  (forall st p, cstreams c !! sid = Some st -> ports c !! sid = Some p ->
     stream_inv (ctx W c sid) sid st p -> stream_inv (ctx W c sid) sid st (f p)) ->
  coord_inv B W (on_port sid f c).
Proof.
  intros Hinv Hf. apply (coord_inv_update B W c _ sid); [done|apply global_inv_port, Hinv|..].
  - intros i st Hne Hi. cbn. by rewrite lookup_alter_ne by congruence.
  - intros st Hst. destruct (ci_stream _ _ _ Hinv _ _ Hst) as (p & Hp & Hs). exists (f p). cbn.
    rewrite lookup_alter_eq, Hp. split; [done|]. by apply Hf.
Qed.

Lemma coord_inv_put B W c sid st :
  coord_inv B W c ->
  (exists p, ports c !! sid = Some p /\ stream_inv (ctx W c sid) sid st p) ->
  coord_inv B W (put_stream sid st c).
Proof.
  intros Hinv Hst. apply (coord_inv_update B W c _ sid); [done|apply (global_inv_streams B c (cdemux c)), Hinv|..].
  - intros i st' Hne Hi. cbn in Hi. by rewrite lookup_insert_ne in Hi by congruence.
  - intros st' Hi. cbn in Hi. rewrite lookup_insert_eq in Hi. by injection Hi as <-.
Qed.

Lemma stream_inv_pending x sid st p l :
  stream_inv x sid st p -> Forall (fun e => is_stream e = true) l -> stream_inv x sid (set_pending st l) p.
Proof. by intros []. Qed.

Lemma stream_inv_push x sid st p e :
  stream_inv x sid st p -> plain e = true -> stream_inv x sid st (push_delivery e p).
Proof. intros [] He. split; try done. cbn. apply Forall_app. split; [done|]. by constructor. Qed.

Lemma same_body_push e : same_body (push_delivery e).
Proof. done. Qed.
Lemma same_body_id : same_body id.
Proof. done. Qed.

Lemma enqueue_pending_shape st e :
  exists l, enqueue_pending_delivery st e = set_pending st l /\ dcost l = dcost (pending_delivery st) + dcost [e] /\
    (costs_ok (pending_delivery st) -> costs_ok [e] -> costs_ok l) /\
    existsb delivery_ends l = existsb delivery_ends (pending_delivery st) || delivery_ends e /\
    (Forall (fun e => is_stream e = true) (pending_delivery st ++ [e]) -> Forall (fun e => is_stream e = true) l).
Proof.
  unfold enqueue_pending_delivery.
  assert (Hpush : exists l, set_pending st (pending_delivery st ++ [e]) = set_pending st l /\
    dcost l = dcost (pending_delivery st) + dcost [e] /\
    (costs_ok (pending_delivery st) -> costs_ok [e] -> costs_ok l) /\
    existsb delivery_ends l = existsb delivery_ends (pending_delivery st) || delivery_ends e /\
    (Forall (fun e => is_stream e = true) (pending_delivery st ++ [e]) -> Forall (fun e => is_stream e = true) l)).
  { eexists. split_and!; [done|apply dcost_app|intros; by apply Forall_app| |done].
    rewrite existsb_app. cbn. by rewrite orb_false_r. }
  destruct e as [[[| bytes|] cost]| |]; try exact Hpush.
  destruct (list.last (pending_delivery st)) as [[[[| buffered|] bcost]| |]|] eqn:El; try exact Hpush.
  clear Hpush. apply last_Some in El as [l' El]. rewrite El, removelast_last. eexists. split_and!; [done|..].
  - rewrite !dcost_app, !dcost_one. cbn. lia.
  - unfold costs_ok. rewrite !list.Forall_app, !list.Forall_singleton. cbn. intros [? ?] ?. split; [done|]. lia.
  - rewrite !existsb_app. cbn. by rewrite !orb_false_r.
  - rewrite !list.Forall_app, !list.Forall_singleton. tauto.
Qed.

Lemma put_stream_self sid st c : cstreams c !! sid = Some st -> put_stream sid st c = c.
Proof. intros H. unfold put_stream. rewrite insert_id by done. by destruct c. Qed.

Lemma credit_next_pending Q sid e c st :
  credit_inv ((sid, e) :: Q) c -> cstreams c !! sid = Some st ->
  credit_inv Q (put_stream sid (enqueue_pending_delivery st (DStream e)) c).
Proof.
  intros [Hok Hfat Hknown Hbooks Hcosts Hcons Hq Hended Hends] Hst.
  destruct (enqueue_pending_shape st (DStream e)) as (l & -> & Hl & Hlc & Hle & _). rewrite dcost_one in Hl.
  apply Forall_cons_1 in Hq as [Hce Hq]. apply Forall_cons_1 in Hends as [He Hends]. cbn in He.
  split; cbn; try done.
  - intros i Hi. destruct (decide (sid = i)) as [<-|Hne]; [by rewrite lookup_insert_eq|].
    rewrite lookup_insert_ne by done. auto.
  - intros i dst st' p Hi Hst' Hp. destruct (decide (sid = i)) as [<-|Hne].
    + rewrite lookup_insert_eq in Hst'. injection Hst' as <-. rewrite <- (Hbooks _ dst st p Hi Hst Hp), owed_next.
      rewrite decide_True by done. cbn. lia.
    + rewrite lookup_insert_ne in Hst' by done. rewrite <- (Hbooks _ dst st' p Hi Hst' Hp), owed_next.
      rewrite decide_False by done. lia.
  - intros i st' p Hst' Hp. destruct (decide (sid = i)) as [<-|Hne].
    + rewrite lookup_insert_eq in Hst'. injection Hst' as <-. destruct (Hcosts _ _ _ Hst Hp). split; [|done].
      apply Hlc; [done|]. by constructor.
    + rewrite lookup_insert_ne in Hst' by done. eauto.
  - intros i n Hi. by apply Hcons, (insert_known _ sid st _ _ Hst Hi).
  - intros i st' Hst' Hx. destruct (decide (sid = i)) as [<-|Hne].
    + rewrite lookup_insert_eq in Hst'. injection Hst' as <-. cbn in Hx. rewrite Hle in Hx.
      apply orb_prop in Hx as [Hx|Hx]; [by apply (Hended _ _ Hst)|by apply He].
    + rewrite lookup_insert_ne in Hst' by done. eauto.
Qed.

(** [deliver_stream_item] hands out the next event. *)
Lemma deliver_spec B W Q sid e c :
  coord_inv B W c -> credit_inv ((sid, e) :: Q) c ->
  cspec (deliver_stream_item sid e) c (fun _ c' => coord_inv B W c' /\ credit_inv Q c').
Proof.
  intros Hinv Hcr. unfold cspec, deliver_stream_item. destruct (cstreams c !! sid) as [st|] eqn:Hst.
  2:{ split; [done|]. apply (credit_next_elsewhere Q sid e); [done|]. intros [s Hs]%(cr_known _ _ Hcr). congruence. }
  destruct (ci_stream _ _ _ Hinv _ _ Hst) as (p & Hp & Hs).
  assert (Hreset : forall f, same_body f ->
    cspec (reset_active_stream sid) (on_port sid f c) (fun _ c' => coord_inv B W c' /\ credit_inv Q c')).
  { intros f Hf. eapply cspec_mono; [by eapply reset_active_stream_spec, coord_inv_removable|].
    intros [] c' (H & n & ->). split; [done|]. rewrite reset_to_port. by apply (credit_next_reset Q sid e). }
  pose proof (Hreset id same_body_id) as Hreset0. rewrite on_port_id in Hreset0.
  assert (Hpend : coord_inv B W (put_stream sid (enqueue_pending_delivery st (DStream e)) c) /\
                  credit_inv Q (put_stream sid (enqueue_pending_delivery st (DStream e)) c)).
  { split; [|by apply credit_next_pending]. destruct (enqueue_pending_shape st (DStream e)) as (l & -> & _ & _ & _ & Hl).
    apply coord_inv_put; [done|]. exists p. split; [done|]. apply stream_inv_pending; [done|].
    apply Hl, Forall_app. split; [by apply Hs|]. by constructor. }
  unfold try_send. rewrite Hp.
  destruct (early_head st e) as [h|].
  { destruct (delivery_receiver p); cbn [negb fst]; [destruct (STREAM_QUEUE <=? len (delivery p)); cbn [fst]|].
    - exact Hreset0.
    - by apply Hreset.
    - exact Hreset0. }
  destruct (pending_delivery st); [|done].
  destruct (delivery_receiver p); cbn [negb]; [|exact Hreset0].
  destruct (STREAM_QUEUE <=? len (delivery p)); [done|]. destruct (is_end e) eqn:He.
  - unfold remove_state. change (cstreams (on_port sid (push_delivery (DStream e)) c)) with (cstreams c). rewrite Hst.
    destruct (drop_removable B W (on_port sid (push_delivery (DStream e)) c) sid st) as [n ->]; [|done|].
    { by eapply coord_inv_removable. }
    rewrite gone_port. split; [by apply coord_inv_gone|]. by apply (credit_next_end Q sid e).
  - split; [|by apply credit_next_sent]. apply coord_inv_port; [done|]. intros st' p' _ _ H.
    apply stream_inv_push; [done|]. cbn. by rewrite He.
Qed.

(** ** Pending deliveries *)

Definition push_deliveries (l : list DeliveryEvent) (p : Port) : Port :=
  mkPort (permits p) (budget_open p) (reservations p) (body_chunks p) (body_sender p) (body_receiver p)
    (delivery p ++ l) (delivery_receiver p) (rx_terminal p) (received p) (sent_body p).

Lemma push_deliveries_cons e l c sid :
  on_port sid (push_deliveries l) (on_port sid (push_delivery e) c) = on_port sid (push_deliveries (e :: l)) c.
Proof.
  rewrite on_port_twice. unfold on_port. f_equal. apply alter_ext. intros p _. unfold push_deliveries. cbn.
  by rewrite <- app_assoc.
Qed.

Lemma push_deliveries_nil c sid : on_port sid (push_deliveries []) c = c.
Proof.
  unfold on_port. rewrite alter_id; [by destruct c|]. intros p _. unfold push_deliveries. rewrite app_nil_r. by destruct p.
Qed.

(** How far the pending events of a stream get. *)
Lemma flush_stream_shape sid l : forall c p c' rest reset remove,
  ports c !! sid = Some p -> flush_stream sid l c = (c', rest, reset, remove) ->
  exists sent, c' = on_port sid (push_deliveries sent) c /\
    ((reset = true /\ exists e, l = sent ++ e :: rest) \/
     (reset = false /\ remove = true /\ l = sent ++ rest /\ existsb delivery_ends sent = true) \/
     (reset = false /\ remove = false /\ l = sent ++ rest /\ existsb delivery_ends sent = false /\
      (rest = [] \/ STREAM_QUEUE <= len (delivery p ++ sent)))).
Proof.
  induction l as [|e l IH]; intros c p c' rest reset remove Hp; cbn [flush_stream].
  - intros [= <- <- <- <-]. exists []. rewrite push_deliveries_nil. split; [done|]. right. right. split_and!; auto.
  - unfold try_send. rewrite Hp. destruct (delivery_receiver p) eqn:Hr; cbn [negb].
    2:{ intros [= <- <- <- <-]. exists []. rewrite push_deliveries_nil. split; [done|]. left. eauto. }
    destruct (Z.leb_spec STREAM_QUEUE (len (delivery p))).
    { intros [= <- <- <- <-]. exists []. rewrite push_deliveries_nil. split; [done|]. right. right.
      rewrite app_nil_r. split_and!; auto. }
    destruct (delivery_ends e) eqn:He.
    + intros [= <- <- <- <-]. exists [e]. split; [by rewrite <- (push_deliveries_cons e []), push_deliveries_nil|].
      right. left. cbn. by rewrite He.
    + intros Hf. apply (IH _ (push_delivery e p)) in Hf as (sent & -> & Hcase); [|by cbn; rewrite lookup_alter_eq, Hp].
      exists (e :: sent). split; [by rewrite push_deliveries_cons|]. cbn [existsb]. rewrite He. cbn [orb].
      destruct Hcase as [(-> & e' & ->)|[(-> & -> & -> & ?)|(-> & -> & -> & ? & Hq)]]; [left; eauto|right; left; auto|].
      right. right. split_and!; [done..|]. cbn in Hq. rewrite <- app_assoc in Hq. done.
Qed.

Lemma credit_flushed Q sid st sent rest c :
  credit_inv Q c -> cstreams c !! sid = Some st -> pending_delivery st = sent ++ rest ->
  credit_inv Q (put_stream sid (set_pending st rest) (on_port sid (push_deliveries sent) c)).
Proof.
  intros [Hok Hfat Hknown Hbooks Hcosts Hcons Hq Hended Hends] Hst Hl. split; cbn; try done.
  - intros i Hi. destruct (decide (sid = i)) as [<-|Hne]; [by rewrite lookup_insert_eq|].
    rewrite lookup_insert_ne by done. auto.
  - intros i dst st' p Hi Hst' Hp. destruct (decide (sid = i)) as [<-|Hne].
    + rewrite lookup_insert_eq in Hst'. injection Hst' as <-. rewrite lookup_alter_eq in Hp.
      destruct (ports c !! sid) as [q|] eqn:Hq'; [|done]. injection Hp as <-.
      rewrite <- (Hbooks _ dst st q Hi Hst Hq'), Hl. cbn. rewrite !dcost_app. lia.
    + rewrite lookup_insert_ne in Hst' by done. rewrite lookup_alter_ne in Hp by done. eauto.
  - intros i st' p Hst' Hp. destruct (decide (sid = i)) as [<-|Hne].
    + rewrite lookup_insert_eq in Hst'. injection Hst' as <-. rewrite lookup_alter_eq in Hp.
      destruct (ports c !! sid) as [q|] eqn:Hq'; [|done]. injection Hp as <-.
      destruct (Hcosts _ _ _ Hst Hq') as [H1 H2]. rewrite Hl in H1. apply Forall_app in H1 as [? ?].
      split; [done|]. cbn. by apply Forall_app.
    + rewrite lookup_insert_ne in Hst' by done. rewrite lookup_alter_ne in Hp by done. eauto.
  - intros i n Hi. by apply Hcons, (insert_known _ sid st _ _ Hst Hi).
  - intros i st' Hst' Hx. destruct (decide (sid = i)) as [<-|Hne].
    + rewrite lookup_insert_eq in Hst'. injection Hst' as <-. apply (Hended _ _ Hst). rewrite Hl, existsb_app.
      cbn in Hx. by rewrite Hx, orb_true_r.
    + rewrite lookup_insert_ne in Hst' by done. eauto.
Qed.

Definition same_at (c c' : Coordinator) (i : Z) : Prop :=
  cstreams c' !! i = cstreams c !! i /\ ports c' !! i = ports c !! i.
(** What is pending for a stream waits for room in its reader's queue. *)
Definition flushed_at (c : Coordinator) (i : Z) : Prop := forall st p,
  cstreams c !! i = Some st -> ports c !! i = Some p -> pending_delivery st <> [] -> STREAM_QUEUE <= len (delivery p).

Lemma gone_same sid g c i : i <> sid -> same_at c (gone_with sid g c) i.
Proof. intros Hne. unfold same_at. cbn. by rewrite lookup_delete_ne, lookup_alter_ne by congruence. Qed.
Lemma gone_flushed sid g c : flushed_at (gone_with sid g c) sid.
Proof. intros st p H. cbn in H. by rewrite lookup_delete_eq in H. Qed.
Lemma gone_put sid g st c : gone_with sid g (put_stream sid st c) = gone_with sid g c.
Proof. unfold gone_with, put_stream, set_cstreams. cbn. by rewrite delete_insert_eq. Qed.
Lemma reset_to_put sid g st c : reset_to sid g (put_stream sid st c) = reset_to sid g c.
Proof. unfold reset_to. by rewrite gone_put. Qed.

Lemma flush_one_spec B W Q sid c :
  coord_inv B W c -> credit_inv Q c ->
  cspec (flush_one sid) c (fun _ c' => (coord_inv B W c' /\ credit_inv Q c') /\
    flushed_at c' sid /\ forall i, i <> sid -> same_at c c' i).
Proof.
  intros Hinv Hcr. unfold cspec, flush_one. destruct (cstreams c !! sid) as [st|] eqn:Hst.
  2:{ split_and!; [done..|intros ? ? H; congruence|done]. }
  destruct (ci_stream _ _ _ Hinv _ _ Hst) as (p & Hp & Hs).
  destruct (flush_stream sid (pending_delivery st) c) as [[[c' rest] reset] remove] eqn:Hf.
  destruct (flush_stream_shape sid _ _ _ _ _ _ _ Hp Hf) as (sent & -> & Hcase). clear Hf.
  pose proof (si_pending _ _ _ _ Hs) as Hpend.
  assert (Hrest : coord_inv B W (put_stream sid (set_pending st rest) c)).
  { apply coord_inv_put; [done|]. exists p. split; [done|]. apply stream_inv_pending; [done|].
    destruct Hcase as [(_ & e & Hl)|[(_ & _ & Hl & _)|(_ & _ & Hl & _)]]; rewrite Hl in Hpend;
      apply Forall_app in Hpend as [_ Hpend]; [by apply Forall_cons_1 in Hpend as []|done..]. }
  change (put_stream sid (set_pending st rest) (on_port sid (push_deliveries sent) c))
    with (on_port sid (push_deliveries sent) (put_stream sid (set_pending st rest) c)).
  destruct Hcase as [(-> & e & Hl)|[(-> & -> & Hl & He)|(-> & -> & Hl & He & Hq)]].
  - eapply cspec_mono; [eapply reset_active_stream_spec, coord_inv_removable; [done|by cbn; rewrite lookup_insert_eq|done]|].
    intros [] c' (Hc' & n & ->). rewrite reset_to_port, reset_to_put in *. split_and!; [done|by apply credit_reset_to|..].
    + apply (gone_flushed sid _ c).
    + intros i Hne. apply (gone_same sid _ c); done.
  - unfold remove_state. cbn [cstreams on_port set_ports put_stream set_cstreams]. rewrite lookup_insert_eq.
    set (c1 := on_port sid (push_deliveries sent) (put_stream sid (set_pending st rest) c)).
    destruct (drop_removable B W c1 sid (set_pending st rest)) as [n Hn].
    { eapply coord_inv_removable; [done|by cbn; rewrite lookup_insert_eq|done]. }
    { by cbn; rewrite lookup_insert_eq. }
    match goal with |- context [drop_stream sid ?s ?x] => change x with c1 end. subst c1.
    rewrite Hn, gone_port, gone_put. split_and!.
    + by apply coord_inv_gone.
    + apply credit_gone; [done|]. apply (cr_ended _ _ Hcr _ _ Hst). by rewrite Hl, existsb_app, He.
    + apply gone_flushed.
    + intros i Hne. by apply gone_same.
  - split_and!.
    + apply coord_inv_port; [done|]. intros st' p' Hst' Hp' Hs'. cbn in Hst'. rewrite lookup_insert_eq in Hst'.
      injection Hst' as <-. destruct Hs'. split; try done. cbn. apply Forall_app. split; [done|].
      apply list.Forall_forall. intros e Hin. rewrite Hl in Hpend. apply Forall_app in Hpend as [Hpend _].
      rewrite list.Forall_forall in Hpend. specialize (Hpend e Hin). destruct e as [ev| |]; [|done..]. cbn.
      apply negb_true_iff, not_true_is_false. intros Hev. apply not_true_iff_false in He. apply He.
      apply existsb_exists. exists (DStream ev). split; [by apply list_elem_of_In|done].
    + exact (credit_flushed Q sid st sent rest c Hcr Hst Hl).
    + intros st' p' Hst' Hp' Hne. cbn in Hst', Hp'. rewrite lookup_insert_eq in Hst'. injection Hst' as <-.
      rewrite lookup_alter_eq, Hp in Hp'. injection Hp' as <-. cbn. destruct Hq as [->|Hq]; done.
    + intros i Hne. unfold same_at. cbn. by rewrite lookup_insert_ne, lookup_alter_ne by congruence.
Qed.

(** ** Scheduling *)

Definition ready_ctx (x : context) : context :=
  mkContext (x_leased x) true (x_woken x) (x_cancelled x) (x_frames x).

Lemma ctx_ready W c i b :
  bool_decide (i ∈ ready c) = b -> ctx W c i =
  mkContext (leased i (wqueue c)) b (bool_decide (i ∈ W ++ wakes c)) (bool_decide (i ∈ cancels c))
    (if writer_alive c then Some (sent_frames i c) else None).
Proof. by intros <-. Qed.

(** A stream whose upload may have become able to send is queued. *)
Lemma coord_inv_enqueue B W W' c sid st0 st f p :
  coord_inv B W c -> cstreams c !! sid = Some st0 -> ready_queued st = ready_queued st0 ->
  (forall i, i <> sid -> i ∈ W' <-> i ∈ W) -> ports c !! sid = Some p ->
  stream_inv (ready_ctx (ctx W' c sid)) sid (set_queued st true) (f p) ->
  coord_inv B W' (enqueue_ready sid (on_port sid f (put_stream sid st c))).
Proof.
  intros Hinv Hst0 Hq HW Hp Hs. destruct (ci_stream _ _ _ Hinv _ _ Hst0) as (p0 & Hp0 & Hs0).
  pose proof (si_ready _ _ _ _ Hs0) as Hr. rewrite <- Hq in Hr. cbn in Hr.
  pose proof (ci_global _ _ _ Hinv) as Hg. pose proof (gi_ports _ _ Hg _ _ Hp) as Hid. cbn in Hid.
  assert (Hg' : global_inv B (on_port sid f (put_stream sid st c)))
    by (apply global_inv_port, (global_inv_streams B c (cdemux c)), Hg).
  unfold enqueue_ready. cbn [cstreams on_port set_ports put_stream set_cstreams]. rewrite lookup_insert_eq.
  destruct (ready_queued st) eqn:Eq.
  - apply (coord_inv_update' B B W W' c _ sid); [done|done|..].
    + intros i st' Hne Hi. cbn in *. rewrite lookup_insert_ne in Hi by congruence. rewrite lookup_alter_ne by congruence.
      split_and!; [done..|]. intros _. unfold ctx. cbn. f_equal. apply bool_decide_ext. rewrite !elem_of_app, HW; done.
    + intros st' Hi. cbn in *. rewrite lookup_insert_eq in Hi. injection Hi as <-. exists (f p).
      rewrite lookup_alter_eq, Hp. split; [done|]. rewrite (ctx_ready W' _ sid true) by done.
      replace st with (set_queued st true) by (destruct st; cbn in *; by subst). exact Hs.
  - symmetry in Hr. apply bool_decide_eq_false in Hr.
    apply (coord_inv_update' B B W W' c _ sid); [done|..].
    + destruct Hg'. split; try done. cbn in *. destruct gi_ready0 as [Hnd Hlt]. split.
      * apply list.NoDup_app. split_and!; [done|intros x Hx ->%list_elem_of_singleton; done|apply NoDup_singleton].
      * apply Forall_app. split; [done|]. constructor; [lia|done].
    + intros i st' Hne Hi. cbn in *. rewrite !lookup_insert_ne in Hi by congruence. rewrite lookup_alter_ne by congruence.
      split_and!; [done..|]. intros _. unfold ctx. cbn. f_equal.
      * apply bool_decide_ext. rewrite elem_of_app, list_elem_of_singleton. naive_solver.
      * apply bool_decide_ext. rewrite !elem_of_app, HW; done.
    + intros st' Hi. cbn in *. rewrite lookup_insert_eq in Hi. injection Hi as <-. exists (f p).
      rewrite lookup_alter_eq, Hp. split; [done|].
      rewrite (ctx_ready W' _ sid true); [exact Hs|]. cbn. apply bool_decide_eq_true. set_solver.
Qed.

(** The books only look at the events and the consumes. *)
Lemma credit_ext Q c c' :
  cdemux c' = cdemux c -> commands c' = commands c ->
  (forall i, pending_delivery <$> cstreams c' !! i = pending_delivery <$> cstreams c !! i) ->
  (forall i, delivery <$> ports c' !! i = delivery <$> ports c !! i) ->
  credit_inv Q c -> credit_inv Q c'.
Proof.
  intros Hd Hcmd Hst Hport [Hok Hfat Hknown Hbooks Hcosts Hcons Hq Hended Hends].
  assert (Hs : forall i st', cstreams c' !! i = Some st' ->
    exists st, cstreams c !! i = Some st /\ pending_delivery st' = pending_delivery st).
  { intros i st' H. specialize (Hst i). rewrite H in Hst. destruct (cstreams c !! i) as [st|]; [|done].
    exists st. by injection Hst as ->. }
  assert (Hp : forall i p', ports c' !! i = Some p' -> exists p, ports c !! i = Some p /\ delivery p' = delivery p).
  { intros i p' H. specialize (Hport i). rewrite H in Hport. destruct (ports c !! i) as [p|]; [|done].
    exists p. by injection Hport as ->. }
  split; rewrite ?Hd, ?Hcmd; try done.
  - intros i Hi. destruct (Hknown i Hi) as [st H]. specialize (Hst i). rewrite H in Hst.
    by destruct (cstreams c' !! i).
  - intros i dst st' p' Hi (st & H1 & ->)%Hs (p & H2 & ->)%Hp. eauto.
  - intros i st' p' (st & H1 & ->)%Hs (p & H2 & ->)%Hp. eauto.
  - intros i n [st' (st & H1 & _)%Hs]. eauto.
  - intros i st' (st & H1 & ->)%Hs. eauto.
Qed.

Lemma fmap_insert_same {A B} (f : A -> B) (m : gmap Z A) k a a' :
  m !! k = Some a -> f a' = f a -> forall i, f <$> <[k := a']> m !! i = f <$> m !! i.
Proof.
  intros Hk Hf i. destruct (decide (k = i)) as [<-|Hne]; [rewrite lookup_insert_eq, Hk; cbn; by rewrite Hf|].
  by rewrite lookup_insert_ne.
Qed.

Lemma fmap_alter_same {A B} (f : A -> B) (m : gmap Z A) k g :
  (forall a, f (g a) = f a) -> forall i, f <$> alter g k m !! i = f <$> m !! i.
Proof.
  intros Hf i. destruct (decide (k = i)) as [<-|Hne]; [rewrite lookup_alter_eq|by rewrite lookup_alter_ne].
  destruct (m !! k); cbn; [by rewrite Hf|done].
Qed.

Lemma credit_put Q sid st st' c :
  credit_inv Q c -> cstreams c !! sid = Some st -> pending_delivery st' = pending_delivery st ->
  credit_inv Q (put_stream sid st' c).
Proof. intros Hc Hst Hp. eapply credit_ext; [..|exact Hc]; cbn; try done. by eapply fmap_insert_same. Qed.

Lemma credit_port Q sid f c : (forall p, delivery (f p) = delivery p) -> credit_inv Q c -> credit_inv Q (on_port sid f c).
Proof. intros Hf Hc. eapply credit_ext; [..|exact Hc]; cbn; try done. by apply fmap_alter_same. Qed.

Lemma credit_ready Q l c : credit_inv Q c -> credit_inv Q (set_ready c l).
Proof. apply credit_ext; done. Qed.

Lemma credit_enqueue Q sid c : credit_inv Q c -> credit_inv Q (enqueue_ready sid c).
Proof.
  intros Hc. unfold enqueue_ready. destruct (cstreams c !! sid) as [st|] eqn:Hst; [|done].
  destruct (ready_queued st); [done|]. apply credit_ready. by eapply credit_put.
Qed.

(** ** Grants *)

Lemma apply_grant_spec B W Q g c :
  coord_inv B W c -> credit_inv Q c -> 0 <= snd g ->
  cspec (apply_grant g) c (fun _ c' => coord_inv B W c' /\ credit_inv Q c').
Proof.
  intros Hinv Hcr Hg. unfold cspec, apply_grant. destruct g as [sid credit]. cbn in Hg.
  destruct (cstreams c !! sid) as [st|] eqn:Hst; [|done].
  destruct (ci_stream _ _ _ Hinv _ _ Hst) as (p & Hp & Hs). pose proof Hs as [].
  destruct si_upload0 as (bs & ss & Hu & Hss & Hrb & Hsb).
  pose proof (upload_ok_grant _ _ _ _ _ credit Hu Hg) as H.
  destruct (grant (upload st) credit) as [u [[]|v|]]; [| |done].
  - destruct H as [Hu' Hb]. split; [|apply credit_enqueue; by eapply credit_put].
    rewrite <- (on_port_id sid (put_stream _ _ _)).
    eapply coord_inv_enqueue; [done..|]. split; try done; cbn.
    + eauto 10.
    + by rewrite Hb.
  - subst u. replace (set_upload st (upload st)) with st by by destruct st. rewrite put_stream_self by done.
    pose proof (stream_u32 _ _ _ _ _ Hinv Hst) as Hu32.
    set (m := mbind _ _). assert (Hm : cspec m c (fun _ c' => coord_inv B W c' /\ credit_inv Q c')); [|exact Hm].
    subst m. unfold cspec. rewrite encode_bind by eauto with spl. apply cspec_bind.
    eapply cspec_mono; [by apply send_control_spec; [done|intros; by apply reset_frame_control]|].
    intros [] c1 [H1 ->]. apply cspec_bind. unfold cspec at 1. cbn [cmodify].
    apply deliver_spec; [by apply coord_inv_demux|].
    assert (Hr : credit_inv Q (set_demux (pushed (wire (reset sid RESET_FLOW_CONTROL_ERROR)) [] c)
                                 (remove_stream (cdemux c) sid)))
      by exact (credit_remove Q sid _ (credit_pushed _ _ _ _ Hcr)).
    destruct Hr. split; try done.
    + intros i dst st' p' Hi Hst' Hp'. rewrite owed_next. cbn [wire_cost uncosted]. rewrite <- (cr_books0 i dst st' p' Hi Hst' Hp').
      cbn. destruct (decide (sid = i)); by rewrite Z.add_0_l.
    + constructor; [apply Z.le_refl|done].
    + constructor; [|done]. intros _. cbn. apply lookup_delete_eq.
Qed.

(** ** Bodies *)

Definition chunk_len (ch : BodyChunk) : Z := lease_len (chunk_lease ch).

Lemma receive_chunks_spec sid ss chunks : forall st bs,
  upload_ok sid (sdeclared st) bs ss (upload st) -> received_body_len st = len bs ->
  Forall (fun ch => chunk_lease ch = mkBodyLease sid (len (chunk_bytes ch))) chunks ->
  zsum lease_len (staged_leases st) = len (up_body (upload st)) ->
  zsum lease_len (staged_leases st) + zsum chunk_len chunks <= UPLOAD_BODY_STAGE_CAPACITY ->
  match receive_chunks sid chunks st with
  | (st', rest, dropped, Ok _) =>
      rest = [] /\ dropped = [] /\
      upload_ok sid (sdeclared st) (bs ++ concat (chunk_bytes <$> chunks)) ss (upload st') /\
      received_body_len st' = len (bs ++ concat (chunk_bytes <$> chunks)) /\
      staged_leases st' = staged_leases st ++ (chunk_lease <$> chunks) /\
      zsum lease_len (staged_leases st') = len (up_body (upload st')) /\
      sdeclared st' = sdeclared st /\ pending_delivery st' = pending_delivery st /\ ready_queued st' = ready_queued st
  | (_, _, _, Err e) => tolerated e
  | (_, _, _, Panic) => False
  end.
Proof.
  induction chunks as [|ch chunks IH]; intros st bs Hu Hrb Hch Hsum Hcap; cbn [receive_chunks].
  - cbn. rewrite !app_nil_r. done.
  - apply Forall_cons_1 in Hch as [Hc Hch]. rewrite zsum_cons in Hcap.
    unfold chunk_len at 1 in Hcap. rewrite Hc in Hcap. cbn [lease_len] in Hcap.
    assert (Hpos : 0 <= zsum chunk_len chunks).
    { apply zsum_nonneg. eapply Forall_impl; [|exact Hch]. intros x Hx. unfold chunk_len. rewrite Hx. cbn. lia. }
    pose proof (upload_ok_feed _ _ _ _ _ (chunk_bytes ch) Hu) as Hf. rewrite fmap_cons. cbn [concat]. rewrite app_assoc.
    destruct (feed_body (upload st) (chunk_bytes ch)) as [u [[]|e|]]; [| |done].
    + destruct Hf as [Hu' Hb]. set (st1 := mkStreamState _ _ _ _ _ _).
      assert (Hs1 : zsum lease_len (staged_leases st1) = zsum lease_len (staged_leases st) + len (chunk_bytes ch)).
      { cbn. rewrite zsum_app, zsum_cons, Hc. cbn. unfold zsum at 2. cbn. lia. }
      specialize (IH st1 _ Hu' ltac:(cbn; rewrite length_app; lia) Hch). rewrite Hs1 in IH. cbn [upload st1] in IH. rewrite Hb, length_app in IH.
      specialize (IH ltac:(lia) ltac:(lia)).
      destruct (receive_chunks sid chunks st1) as [[[st' rest] dropped] [[]|e|]]; [|done..].
      destruct IH as (-> & -> & H1 & H0 & H2 & H3 & H4 & H5 & H6). split_and!; try done.
      rewrite H2. cbn. by rewrite <- app_assoc.
    + destruct e; [done|]. specialize (Hf eq_refl). cbn. lia.
Qed.

Lemma coord_inv_unwake B W c sid g :
  coord_inv B (sid :: W) c -> coord_inv B W (gone_with sid g c).
Proof.
  intros Hinv. pose proof (coord_inv_gone _ _ _ sid g Hinv) as H.
  apply (coord_inv_update' B B (sid :: W) W (gone_with sid g c) _ sid); [done|apply H|..].
  - intros i st Hne Hi. split_and!; [done..|]. intros _. unfold ctx. f_equal. apply bool_decide_ext. set_solver.
  - intros st Hi. cbn in Hi. by rewrite lookup_delete_eq in Hi.
Qed.

Lemma coord_inv_asleep B W c sid : coord_inv B (sid :: W) c -> cstreams c !! sid = None -> coord_inv B W c.
Proof.
  intros Hinv Hn. apply (coord_inv_update' B B (sid :: W) W c c sid); [done|apply Hinv|..].
  - intros i st Hne Hi. split_and!; [done..|]. intros _. unfold ctx. f_equal. apply bool_decide_ext. set_solver.
  - intros st Hi. congruence.
Qed.

Lemma receive_body_spec B W Q sid c :
  coord_inv B (sid :: W) c -> credit_inv Q c ->
  cspec (receive_body sid) c (fun _ c' => coord_inv B W c' /\ credit_inv Q c').
Proof.
  intros Hinv Hcr. unfold cspec, receive_body. destruct (cstreams c !! sid) as [st|] eqn:Hst.
  2:{ split; [|done]. by eapply coord_inv_asleep. }
  destruct (ci_stream _ _ _ Hinv _ _ Hst) as (p & Hp & Hs). rewrite Hp. pose proof Hs as [].
  destruct si_upload0 as (bs & ss & Hu & Hss & Hrb & Hsb). unfold held_by_port in si_budget0. fold chunk_len in si_budget0.
  assert (Hres : 0 <= zsum id (reservations p)) by (apply zsum_nonneg, si_permits0).
  pose proof (receive_chunks_spec sid ss (body_chunks p) st bs Hu Hrb si_chunks0 si_body0) as H.
  change (zsum (fun ch => lease_len (chunk_lease ch)) (body_chunks p)) with (zsum chunk_len (body_chunks p)) in si_budget0.
  specialize (H ltac:(destruct si_permits0; clear -si_budget0 Hres si_leased0 H0; lia)).
  destruct (receive_chunks sid (body_chunks p) st) as [[[st' rest] dropped] [[]|e|]]; [|done..].
  destruct H as (-> & -> & Hu' & Hrb' & Hstg & Hsum & Hdec & Hpend & Hrq). cbn [release_all foldr].
  assert (Hcr1 : credit_inv Q (on_port sid (set_chunks []) (put_stream sid st' c)))
    by (apply credit_port; [done|]; by eapply credit_put).
  assert (Hleases : Forall (fun l => lease_of l = sid /\ 0 <= lease_len l) (staged_leases st')).
  { rewrite Hstg. apply Forall_app. split; [done|]. apply Forall_fmap. eapply Forall_impl; [|exact si_chunks0].
    intros ch Hch. cbn in *. rewrite Hch. split; [done|apply Nat2Z.is_nonneg]. }
  destruct (negb (body_sender p) && (received_body_len st' <? sdeclared st')) eqn:Hshort.
  - eapply cspec_mono; [apply (reset_active_stream_spec B W)|].
    + split_and!.
      * intros g. rewrite gone_port, gone_put. by apply coord_inv_unwake.
      * by eapply stream_u32.
      * exists st', (set_chunks [] p). cbn. rewrite lookup_insert_eq, lookup_alter_eq, Hp. split_and!; [done..|].
        eapply Forall_impl; [|exact Hleases]. by intros l [? _].
    + intros [] c' (Hc' & n & ->). split; [done|]. by apply credit_reset_to.
  - split; [|by apply credit_enqueue].
    eapply coord_inv_enqueue; [done|done|done|set_solver|done|].
    split; cbn; try done.
    + rewrite Hdec. do 2 eexists. split_and!; [exact Hu'|done|done|]. cbn. by rewrite app_nil_r.
    + unfold held_by_port. cbn. rewrite Hstg, zsum_app, zsum_fmap. unfold compose. cbn in si_budget0. fold chunk_len in *.
      change (zsum (fun ch => lease_len (chunk_lease ch)) (body_chunks p)) with (zsum chunk_len (body_chunks p)).
      unfold zsum at 2. cbn. clear -si_budget0. lia.
    + intros Hbs Hlt. rewrite Hbs in Hshort. apply Z.ltb_ge in Hshort. clear -Hshort Hlt. lia.
    + by rewrite Hpend.
Qed.

(** ** The pump *)

(** One pass over the stream at the head of the ready queue that has nothing to
    send: it leaves the queue. *)
Lemma coord_inv_idle B W c sid rest st :
  coord_inv B W c -> ready c = sid :: rest -> cstreams c !! sid = Some st -> quiet (upload st) ->
  coord_inv B W (set_ready (put_stream sid (set_queued st false) c) rest).
Proof.
  intros Hinv Hrd Hst Hq. destruct (ci_stream _ _ _ Hinv _ _ Hst) as (p & Hp & Hs).
  pose proof (ci_global _ _ _ Hinv) as Hg. destruct (gi_ready _ _ Hg) as [Hnd Hlt]. rewrite Hrd in Hnd, Hlt.
  apply list.NoDup_cons in Hnd as [Hnin Hnd]. apply Forall_cons_1 in Hlt as [_ Hlt].
  apply (coord_inv_update B W c _ sid); [done|..].
  - destruct Hg. by split.
  - intros i st' Hne Hi. cbn in Hi. rewrite lookup_insert_ne in Hi by congruence. split_and!; [done..|]. intros _.
    unfold ctx. cbn. f_equal. apply bool_decide_ext. rewrite Hrd. set_solver.
  - intros st' Hi. cbn in Hi. rewrite lookup_insert_eq in Hi. injection Hi as <-. exists p. split; [done|].
    rewrite (ctx_ready W _ sid false); [|by apply bool_decide_eq_false]. destruct Hs. by split.
Qed.

(** The other case: a frame and its leases go to the writer. *)
Lemma coord_inv_emit B W c sid rest st u frame taken kept b :
  coord_inv B W c -> ready c = sid :: rest -> cstreams c !! sid = Some st ->
  poll_send (upload st) = (u, Ok (Some frame)) ->
  take_body_leases (staged_leases st) (saturating_sub (emitted_body_len u) (emitted_body_len (upload st)))
    = (taken, kept, None) ->
  writer_alive c = true -> has_room c = true -> (b = false -> quiet u) ->
  coord_inv B W (set_ready (pushed frame taken (put_stream sid
    (mkStreamState u (sdeclared st) (received_body_len st) kept (pending_delivery st) b) c))
    (if b then rest ++ [sid] else rest)).
Proof.
  intros Hinv Hrd Hst Hpoll Htake Ha Hroom Hq. destruct (ci_stream _ _ _ Hinv _ _ Hst) as (p & Hp & Hs).
  pose proof (ci_global _ _ _ Hinv) as Hg. destruct (gi_ready _ _ Hg) as [Hnd Hlt]. rewrite Hrd in Hnd, Hlt.
  apply list.NoDup_cons in Hnd as [Hnin Hnd]. apply Forall_cons_1 in Hlt as [Hid Hlt].
  pose proof Hs as []. destruct si_upload0 as (bs & ss & Hu & Hss & Hrb & Hsb).
  pose proof (upload_ok_poll _ _ _ _ _ Hu) as Hpo. rewrite Hpoll in Hpo. destruct Hpo as (Hu' & Hd & Hlen).
  replace (saturating_sub _ _) with (emitted_body_len u - emitted_body_len (upload st)) in Htake
    by (unfold saturating_sub; clear -Hd; lia).
  destruct (take_body_leases_ok (staged_leases st) (emitted_body_len u - emitted_body_len (upload st)))
    as (taken' & kept' & Htake' & Hts & Hks & HP).
  { eapply Forall_impl; [|exact si_staged0]. by intros l [_ ?]. }
  { rewrite si_body0. clear -Hd. lia. }
  rewrite Htake in Htake'. injection Htake' as <- <-.
  destruct (HP _ si_staged0) as [Htk Hkp]; [cbn; clear; intros; lia|].
  assert (Hpkt : packet_of sid frame taken c).
  { pose proof (gi_ports _ _ Hg _ _ Hp) as Hpos. cbn in Hpos. split_and!; [done| |clear -Hpos; lia..].
    intros i _ Hne. pose proof (upload_ok_frames _ _ _ _ _ i Hu') as Hf. apply Forall_app in Hf as [_ Hf].
    apply Forall_cons_1 in Hf as [-> _]. by apply bool_decide_eq_false. }
  assert (Hown : is_upload_frame sid frame = true).
  { pose proof (upload_ok_frames _ _ _ _ _ sid Hu') as Hf. apply Forall_app in Hf as [_ Hf].
    apply Forall_cons_1 in Hf as [-> _]. by apply bool_decide_eq_true. }
  assert (Hmem : forall i, i <> sid -> i ∈ (if b then rest ++ [sid] else rest) <-> i ∈ ready c)
    by (intros i Hne; rewrite Hrd; destruct b; set_solver).
  apply (coord_inv_update B W c _ sid); [done|..].
  - pose proof (global_inv_pushed B c sid frame taken Hg Hpkt Ha Hroom) as []. split; try done. cbn. split.
    + destruct b; [|done]. apply list.NoDup_app. split_and!; [done| |apply NoDup_singleton].
      by intros x Hx ->%list_elem_of_singleton.
    + destruct b; [|done]. apply Forall_app. split; [done|]. by constructor.
  - intros i st' Hne Hi. cbn in Hi. rewrite lookup_insert_ne in Hi by congruence. split_and!; [done..|].
    intros [Hi0 _]. pose proof (ctx_pushed W c sid frame taken i Hpkt Hi0 Hne Ha) as Hc.
    unfold ctx in *. cbn in *. injection Hc as Hl Hfr. f_equal; [done|by apply bool_decide_ext, Hmem|done].
  - intros st' Hi. cbn in Hi. rewrite lookup_insert_eq in Hi. injection Hi as <-. exists p. split; [done|].
    assert (Hown' : Forall (fun l => lease_of l = sid) taken) by (eapply Forall_impl; [|exact Htk]; by intros l [? _]).
    split; cbn; try done.
    + exists bs, (ss ++ [frame]). split_and!; [done| |done|done]. intros fs [= <-].
      change (sent_frames sid _) with (sent_frames sid (pushed frame taken c)).
      rewrite sent_frames_pushed, Hown. f_equal. apply Hss. cbn. by rewrite Ha.
    + rewrite Hks, si_body0, Hlen. done.
    + cbn in si_leased0. rewrite leased_app, leased_own by done. clear -si_leased0 Hts Hd. lia.
    + cbn in si_budget0. rewrite leased_app, leased_own by done. clear -si_budget0 Hts Hks. lia.
    + destruct b; symmetry; [apply bool_decide_eq_true; set_solver|by apply bool_decide_eq_false].
Qed.

Lemma coord_inv_stale B W c sid rest :
  coord_inv B W c -> ready c = sid :: rest -> cstreams c !! sid = None -> coord_inv B W (set_ready c rest).
Proof.
  intros Hinv Hrd Hst. pose proof (ci_global _ _ _ Hinv) as Hg. destruct (gi_ready _ _ Hg) as [Hnd Hlt].
  rewrite Hrd in Hnd, Hlt. apply list.NoDup_cons in Hnd as [_ Hnd]. apply Forall_cons_1 in Hlt as [_ Hlt].
  apply (coord_inv_update B W c _ sid); [done|..].
  - destruct Hg. by split.
  - intros i st' Hne Hi. split_and!; [done..|]. intros _. unfold ctx. cbn. f_equal. apply bool_decide_ext. rewrite Hrd.
    set_solver.
  - intros st' Hi. cbn in Hi. congruence.
Qed.

(** What the scheduling leaves alone. *)
Record same_flow (c c' : Coordinator) : Prop := {
  sf_demux : cdemux c' = cdemux c;
  sf_inputs : commands c' = commands c /\ wakes c' = wakes c /\ cancels c' = cancels c;
  sf_pending : forall i, pending_delivery <$> cstreams c' !! i = pending_delivery <$> cstreams c !! i;
  sf_delivery : forall i, delivery <$> ports c' !! i = delivery <$> ports c !! i;
  sf_running : running c' = running c
}.

Lemma same_flow_refl c : same_flow c c.
Proof. by split. Qed.
Lemma same_flow_trans c1 c2 c3 : same_flow c1 c2 -> same_flow c2 c3 -> same_flow c1 c3.
Proof.
  intros [D1 (I1 & I2 & I3) P1 Q1 R1] [D2 (J1 & J2 & J3) P2 Q2 R2].
  split; [congruence|split_and!; congruence| | |congruence]; intros i; [by rewrite P2|by rewrite Q2].
Qed.
Lemma same_flow_credit Q c c' : same_flow c c' -> credit_inv Q c -> credit_inv Q c'.
Proof. intros [D (I1 & _) P1 Q1 _]. by apply credit_ext. Qed.

(** With room for uploads, no stream waits for its turn. *)
Definition pumped (c : Coordinator) : Prop := has_upload_room c = true -> ready c = [].

Lemma pump_loop_spec B W fuel : forall c,
  coord_inv B W c -> (length (ready c) + Z.to_nat (WRITER_QUEUE - inflight c) < fuel)%nat ->
  cspec (pump_loop fuel) c (fun _ c' => coord_inv B W c' /\ same_flow c c' /\ pumped c').
Proof.
  induction fuel as [|fuel IH]; intros c Hinv Hfuel; [lia|]. unfold cspec. cbn [pump_loop].
  destruct (has_upload_room c) eqn:Hroom; cbn [negb].
  2:{ split_and!; [done|apply same_flow_refl|]. intros H. congruence. }
  destruct (ready c) as [|sid rest] eqn:Hrd.
  { split_and!; [done|apply same_flow_refl|by intros _]. }
  assert (Hnext : forall c1, coord_inv B W c1 -> same_flow c c1 ->
    (length (ready c1) + Z.to_nat (WRITER_QUEUE - inflight c1) < fuel)%nat ->
    cspec (pump_loop fuel) c1 (fun _ c' => coord_inv B W c' /\ same_flow c c' /\ pumped c')).
  { intros c1 H1 H2 H3. eapply cspec_mono; [by apply IH|]. intros [] c' (? & ? & ?).
    split_and!; [done|by eapply same_flow_trans|done]. }
  change (cstreams (set_ready c rest)) with (cstreams c). destruct (cstreams c !! sid) as [st|] eqn:Hst.
  2:{ apply Hnext; [by eapply coord_inv_stale|by split|cbn in *; lia]. }
  destruct (ci_stream _ _ _ Hinv _ _ Hst) as (p & Hp & Hs). destruct (si_upload _ _ _ _ Hs) as (bs & ss & Hu & _).
  assert (Hsame : forall st', pending_delivery st' = pending_delivery st -> forall i,
    pending_delivery <$> <[sid := st']> (cstreams c) !! i = pending_delivery <$> cstreams c !! i)
    by (intros st' H; by eapply fmap_insert_same).
  unfold pump_upload_once. change (upload (set_queued st false)) with (upload st).
  pose proof (upload_ok_poll _ _ _ _ _ Hu) as Hpo.
  destruct (poll_send (upload st)) as [u [[frame|]|e|]] eqn:Hpoll; [| |done..].
  - destruct Hpo as (Hu' & Hd & Hlen). change (staged_leases (set_queued st false)) with (staged_leases st).
    destruct (take_body_leases_ok (staged_leases st) (saturating_sub (emitted_body_len u) (emitted_body_len (upload st))))
      as (taken & kept & Htake & _).
    { eapply Forall_impl; [|exact (si_staged _ _ _ _ Hs)]. by intros l [_ ?]. }
    { rewrite (si_body _ _ _ _ Hs). unfold saturating_sub. clear -Hd. lia. }
    rewrite Htake. unfold mbind, CM_bind. set (c1 := put_stream sid _ _).
    pose proof (send_writer_cases B frame taken c1) as Hsend.
    assert (Hg1 : global_inv B c1).
    { pose proof (gi_ready _ _ (ci_global _ _ _ Hinv)) as [Hnd Hlt]. rewrite Hrd in Hnd, Hlt.
      apply list.NoDup_cons in Hnd as [_ Hnd]. apply Forall_cons_1 in Hlt as [_ Hlt].
      destruct (ci_global _ _ _ Hinv). by split. }
    destruct (send_writer frame taken c1) as [c2 [[]|e|]]; [|by destruct (Hsend Hg1) as [->| ->]|by destruct (Hsend Hg1)].
    destruct (Hsend Hg1) as (-> & Ha & Hr). cbn [mret CM_ret].
    change (cstreams (pushed frame taken c1)) with (cstreams c1). cbn [cstreams c1 put_stream set_cstreams].
    rewrite lookup_insert_eq. cbn [upload andb set_queued sdeclared received_body_len pending_delivery ready_queued].
    assert (Hinf : (length (ready c) + Z.to_nat (WRITER_QUEUE - (inflight c + 1)) < fuel)%nat).
    { rewrite Hrd. unfold has_upload_room, WRITER_QUEUE, CONTROL_RESERVE in Hroom. unfold WRITER_QUEUE in *. cbn in *. lia. }
    destruct (negb (is_done u) && negb (is_blocked u)) eqn:Hgo.
    + pose proof (coord_inv_emit B W c sid rest st u frame taken kept true Hinv Hrd Hst Hpoll Htake Ha Hr ltac:(done)) as H.
      match goal with |- match pump_loop fuel ?x with _ => _ end => assert (Hx : coord_inv B W x) end.
      { cbn in H |- *. unfold put_stream, pushed, set_cstreams, set_ready, set_writer. cbn. by rewrite !insert_insert_eq. }
      apply Hnext; [done| |].
      * split; [done|done| |done|done]. cbn. rewrite !insert_insert_eq. by apply Hsame.
      * cbn. rewrite length_app. cbn. rewrite Hrd in Hinf. cbn in Hinf. clear -Hinf. lia.
    + pose proof (coord_inv_emit B W c sid rest st u frame taken kept false Hinv Hrd Hst Hpoll Htake Ha Hr) as H.
      assert (Hx : coord_inv B W (pushed frame taken c1)).
      { specialize (H ltac:(intros _; eapply upload_ok_idle; [done|]; destruct (is_done u), (is_blocked u); auto)).
        subst c1. unfold put_stream, pushed, set_cstreams, set_ready, set_writer in *. cbn in *. by rewrite !insert_insert_eq. }
      apply Hnext; [done| |].
      * subst c1. split; [done|done| |done|done]. cbn. rewrite !insert_insert_eq. by apply Hsame.
      * cbn. rewrite Hrd in Hinf. cbn in Hinf. clear -Hinf. lia.
  - subst u. replace (set_upload (set_queued st false) (upload st)) with (set_queued st false) by by destruct st.
    rewrite put_stream_self by (cbn; by rewrite lookup_insert_eq). cbn [cstreams put_stream set_cstreams]. rewrite lookup_insert_eq.
    cbn [andb]. apply Hnext.
    + exact (coord_inv_idle B W c sid rest st Hinv Hrd Hst Hpoll).
    + split; [done|done| |done|done]. cbn. by apply Hsame.
    + cbn in *. clear -Hfuel. lia.
Qed.

Lemma pump_ready_spec B W c :
  coord_inv B W c -> cspec pump_ready c (fun _ c' => coord_inv B W c' /\ same_flow c c' /\ pumped c').
Proof. intros Hinv. apply pump_loop_spec; [done|]. lia. Qed.
