(* ===== verification/CarrierOpen.v ===== *)
(** * Which request a carrier's stream carries

    The coordinator of [journal_bridge_carrier.rs] changes the head of an upload
    only when it opens the stream, and takes its commands in order: stream
    [1 + 2 * k] is the [k]-th request that was opened.  The relation [kept] is
    what every handler but the opening of a stream leaves alone. *)

From S2P Require Import Prelude Frame Text Http Window Upload Assembler Demux Carrier.

(** ** What handlers keep *)

Definition same_request (st st' : StreamState) : Prop :=
  up_head (upload st') = up_head (upload st) /\ sdeclared st' = sdeclared st.

Record kept (c c' : Coordinator) : Prop := {
  kp_dialer : cdialer c' = cdialer c;
  kp_commands : commands c' = commands c;
  kp_streams : forall sid st', cstreams c' !! sid = Some st' -> exists st, cstreams c !! sid = Some st /\ same_request st st'
}.

Definition keeps {A} (m : CM A) : Prop := forall c, kept c (fst (m c)).

Lemma kept_refl c : kept c c.
Proof. split; [done..|]. intros sid st H. by exists st. Qed.

Lemma kept_trans c1 c2 c3 : kept c1 c2 -> kept c2 c3 -> kept c1 c3.
Proof.
  intros [H1 H2 H3] [H4 H5 H6]. split; [congruence..|]. intros sid st Hst.
  destruct (H6 _ _ Hst) as (st2 & Hst2 & E1 & E2). destruct (H3 _ _ Hst2) as (st1 & Hst1 & E3 & E4).
  exists st1. split; [done|]. split; congruence.
Qed.

(** A change of anything else. *)
Lemma kept_same c c' : cdialer c' = cdialer c -> commands c' = commands c -> cstreams c' = cstreams c -> kept c c'.
Proof. intros H1 H2 H3. split; [done..|]. rewrite H3. intros sid st H. by exists st. Qed.

Lemma kept_put c sid st st' : cstreams c !! sid = Some st -> same_request st st' -> kept c (put_stream sid st' c).
Proof.
  intros Hst Hr. split; [done..|]. intros i x Hx. cbn in Hx. destruct (decide (sid = i)) as [<-|Hne].
  - rewrite lookup_insert_eq in Hx. injection Hx as <-. by exists st.
  - rewrite lookup_insert_ne in Hx by done. by exists x.
Qed.

Lemma kept_release_all ls c : kept c (release_all ls c).
Proof. induction ls as [|l ls IH]; [apply kept_refl|]. eapply kept_trans; [exact IH|]. by apply kept_same. Qed.

Lemma kept_drop c sid st : kept c (drop_stream sid st c).
Proof.
  unfold drop_stream. eapply kept_trans; [|apply kept_release_all]. split; [done..|]. intros i x Hx. cbn in Hx.
  apply lookup_delete_Some in Hx as [_ Hx]. by exists x.
Qed.

Lemma kept_remove c sid : kept c (remove_state sid c).
Proof. unfold remove_state. destruct (cstreams c !! sid); [apply kept_drop|apply kept_refl]. Qed.

Lemma kept_enqueue c sid : kept c (enqueue_ready sid c).
Proof.
  unfold enqueue_ready. destruct (cstreams c !! sid) as [st|] eqn:E; [|apply kept_refl]. destruct (ready_queued st); [apply kept_refl|].
  eapply kept_trans; [by apply (kept_put c sid st (set_queued st true))|]. by apply kept_same.
Qed.

Create HintDb kept.
#[export] Hint Resolve kept_refl kept_drop kept_remove kept_enqueue kept_release_all : kept.
#[export] Hint Extern 1 (kept _ _) => apply kept_same; reflexivity : kept.
#[export] Hint Extern 1 (same_request _ _) => split; reflexivity : kept.

(** ** The monad and its handlers *)

Lemma kept_bind {A B} (m : CM A) (f : A -> CM B) : keeps m -> (forall a, keeps (f a)) -> keeps (m ≫= f).
Proof.
  intros Hm Hf c. unfold mbind, CM_bind. specialize (Hm c). destruct (m c) as [c1 [a|e|]]; cbn in *; [|done..].
  eapply kept_trans; [exact Hm|]. apply Hf.
Qed.

Lemma keeps_for_each {A} (l : list A) (f : A -> CM unit) : (forall a, keeps (f a)) -> keeps (for_each l f).
Proof.
  intros Hf. induction l as [|a l IH]; [intros c; apply kept_refl|]. cbn [for_each]. by apply kept_bind.
Qed.

Lemma keeps_after {A} (m : CM A) c c1 : keeps m -> kept c c1 -> kept c (fst (m c1)).
Proof. intros Hm H. eapply kept_trans; [exact H|]. apply Hm. Qed.

Lemma keeps_encode f : keeps (encode_or_fail f).
Proof. intros c. apply kept_refl. Qed.

Lemma keeps_modify f : (forall c, kept c (f c)) -> keeps (cmodify f).
Proof. intros H c. apply H. Qed.

Lemma keeps_send b ls : keeps (send_writer b ls).
Proof. intros c. unfold send_writer. repeat case_match; cbn; auto with kept. Qed.

Lemma keeps_encode_send {A} f (k : CM A) :
  keeps k -> keeps (frame ← encode_or_fail f; _ ← send_writer frame []; k).
Proof. intros Hk. apply kept_bind; [apply keeps_encode|]. intros b. apply kept_bind; [apply keeps_send|]. by intros _. Qed.

Lemma keeps_reset sid : keeps (reset_active_stream sid).
Proof.
  intros c. unfold reset_active_stream. destruct (cstreams c !! sid) as [st|]; [|apply kept_refl]. cbv zeta.
  apply keeps_after.
  - apply kept_bind; [apply keeps_encode|]. intros b. apply keeps_send.
  - eapply kept_trans; [apply kept_drop|]. by apply kept_same.
Qed.

Lemma kept_try_send sid e c : kept c (fst (try_send sid e c)).
Proof. unfold try_send. repeat case_match; cbn; auto with kept. Qed.

Lemma same_request_pending st e : same_request st (enqueue_pending_delivery st e).
Proof. unfold enqueue_pending_delivery. by repeat case_match. Qed.

Lemma try_send_streams sid e c : cstreams (fst (try_send sid e c)) = cstreams c.
Proof. unfold try_send. by repeat case_match. Qed.

Lemma keeps_deliver sid e : keeps (deliver_stream_item sid e).
Proof.
  intros c. unfold deliver_stream_item. destruct (cstreams c !! sid) as [st|] eqn:Hst; [|apply kept_refl].
  destruct (early_head st e) as [h|]; [apply keeps_after; [apply keeps_reset|apply kept_try_send]|].
  destruct (pending_delivery st); [|by eapply kept_put, same_request_pending].
  pose proof (kept_try_send sid (DStream e) c) as Hk. pose proof (try_send_streams sid (DStream e) c) as Hs.
  destruct (try_send sid (DStream e) c) as [c1 []]; cbn [fst] in *.
  - destruct (is_end e); [eapply kept_trans; [exact Hk|apply kept_remove]|done].
  - eapply kept_trans; [exact Hk|]. apply (kept_put c1 sid st); [by rewrite Hs|]. apply same_request_pending.
  - by apply keeps_after; [apply keeps_reset|].
Qed.

Lemma flush_stream_kept sid l : forall c c' rest reset remove,
  flush_stream sid l c = (c', rest, reset, remove) -> kept c c' /\ cstreams c' = cstreams c.
Proof.
  induction l as [|e l IH]; intros c c' rest reset remove H; cbn [flush_stream] in H.
  { injection H as <- _ _ _. split; [apply kept_refl|done]. }
  pose proof (kept_try_send sid e c) as Hk. pose proof (try_send_streams sid e c) as Hs.
  destruct (try_send sid e c) as [c1 []]; cbn in Hk, Hs; [|by simplify_eq..].
  destruct (delivery_ends e); [by simplify_eq|]. apply IH in H as [H1 H2].
  split; [by eapply kept_trans|congruence].
Qed.

Lemma keeps_flush_one sid : keeps (flush_one sid).
Proof.
  intros c. unfold flush_one. destruct (cstreams c !! sid) as [st|] eqn:Hst; [|apply kept_refl].
  destruct (flush_stream sid (pending_delivery st) c) as [[[c1 rest] reset] remove] eqn:E.
  apply flush_stream_kept in E as [Hk Hs].
  assert (Hp : kept c (put_stream sid (set_pending st rest) c1)).
  { eapply kept_trans; [exact Hk|]. apply (kept_put c1 sid st); [by rewrite Hs|done]. }
  destruct reset; [by apply keeps_after; [apply keeps_reset|]|].
  destruct remove; [|done]. eapply kept_trans; [exact Hp|apply kept_remove].
Qed.

Lemma feed_body_head u b : up_head (fst (feed_body u b)) = up_head u.
Proof. unfold feed_body. by repeat case_match. Qed.
Lemma grant_head u g : up_head (fst (grant u g)) = up_head u.
Proof. unfold grant. by repeat case_match. Qed.
Lemma poll_send_head u : up_head (fst (poll_send u)) = up_head u.
Proof. unfold poll_send. by repeat case_match. Qed.

Lemma receive_chunks_request sid chunks : forall st st' rest dropped r,
  receive_chunks sid chunks st = (st', rest, dropped, r) -> same_request st st'.
Proof.
  induction chunks as [|ch chunks IH]; intros st st' rest dropped r H; cbn [receive_chunks] in H; [by simplify_eq|].
  pose proof (feed_body_head (upload st) (chunk_bytes ch)) as Hh.
  destruct (feed_body (upload st) (chunk_bytes ch)) as [u [[]|e|]]; cbn in Hh; [|by simplify_eq..].
  apply IH in H as [H1 H2]. split; cbn in *; congruence.
Qed.

Lemma keeps_receive_body sid : keeps (receive_body sid).
Proof.
  intros c. unfold receive_body. destruct (cstreams c !! sid) as [st|] eqn:Hst; [|apply kept_refl].
  destruct (ports c !! sid) as [p|]; [|apply kept_refl].
  destruct (receive_chunks sid (body_chunks p) st) as [[[st' rest] dropped] r] eqn:E.
  apply receive_chunks_request in E.
  assert (Hk : kept c (release_all dropped (on_port sid (set_chunks rest) (put_stream sid st' c)))).
  { eapply kept_trans; [by eapply kept_put|]. eapply kept_trans; [|apply kept_release_all]. by apply kept_same. }
  destruct r as [[]|e|]; [|done..]. destruct (_ && _); [by apply keeps_after; [apply keeps_reset|]|].
  eapply kept_trans; [exact Hk|apply kept_enqueue].
Qed.

Lemma kept_pump_once sid st0 st c :
  cstreams c !! sid = Some st0 -> same_request st0 st -> kept c (fst (pump_upload_once sid st c)).
Proof.
  intros Hc Hr. unfold pump_upload_once. pose proof (poll_send_head (upload st)) as Hh.
  destruct (poll_send (upload st)) as [u [[frame|]|e|]]; cbn in Hh.
  2-4: eapply kept_put; [exact Hc|]; destruct Hr; split; cbn; congruence.
  destruct (take_body_leases _ _) as [[taken kept_leases] e]. cbv zeta.
  set (st' := mkStreamState u _ _ _ _ _).
  assert (Hk : kept c (put_stream sid st' c)) by (eapply kept_put; [exact Hc|]; destruct Hr; split; cbn; congruence).
  destruct e; [eapply kept_trans; [exact Hk|apply kept_release_all]|].
  apply (keeps_after (_ ← send_writer frame taken; mret true)); [|done].
  apply kept_bind; [apply keeps_send|]. intros _ x. apply kept_refl.
Qed.

Lemma keeps_pump_loop fuel : keeps (pump_loop fuel).
Proof.
  induction fuel as [|fuel IH]; intros c; cbn [pump_loop]; [apply kept_refl|].
  destruct (negb (has_upload_room c)); [apply kept_refl|]. destruct (ready c) as [|sid rest]; [apply kept_refl|].
  assert (Hr : kept c (set_ready c rest)) by by apply kept_same. cbv zeta.
  destruct (cstreams (set_ready c rest) !! sid) as [st|] eqn:Hst; [|by eapply kept_trans; [exact Hr|apply IH]].
  assert (Hq : kept c (put_stream sid (set_queued st false) (set_ready c rest))).
  { eapply kept_trans; [exact Hr|]. by eapply kept_put. }
  pose proof (kept_pump_once sid (set_queued st false) (set_queued st false)
    (put_stream sid (set_queued st false) (set_ready c rest)) (lookup_insert_eq _ _ _) (conj eq_refl eq_refl)) as Hp.
  destruct (pump_upload_once _ _ _) as [c1 [emitted|e|]]; cbn in Hp; [|by eapply kept_trans..].
  assert (Hk : kept c c1) by by eapply kept_trans.
  destruct (cstreams c1 !! sid) as [st1|] eqn:Hst1; [|by eapply kept_trans; [exact Hk|apply IH]].
  destruct (_ && _); [|by eapply kept_trans; [exact Hk|apply IH]].
  eapply kept_trans; [exact Hk|]. eapply kept_trans; [|apply IH].
  eapply kept_trans; [by eapply (kept_put c1 sid st1 (set_queued st1 true))|]. by apply kept_same.
Qed.

Lemma keeps_consume sid n : keeps (consume_stream sid n).
Proof.
  intros c. unfold consume_stream. destruct (demux_consume _ _ _) as [d [[b|]|e|]]; cbn; auto with kept.
  apply keeps_after; [apply keeps_send|]. by apply kept_same.
Qed.

Lemma keeps_apply_grant g : keeps (apply_grant g).
Proof.
  intros c. destruct g as [sid n]. cbn [apply_grant]. destruct (cstreams c !! sid) as [st|] eqn:Hst; [|apply kept_refl].
  pose proof (grant_head (upload st) n) as Hh. destruct (grant (upload st) n) as [u r] eqn:E. cbn in Hh.
  assert (Hk : kept c (put_stream sid (set_upload st u) c)) by (eapply kept_put; [exact Hst|]; by split).
  destruct r as [[]|e|]; [eapply kept_trans; [exact Hk|apply kept_enqueue]| |done].
  apply keeps_after; [|done]. apply keeps_encode_send. apply kept_bind.
  - apply keeps_modify. intros x. by apply kept_same.
  - intros _. apply keeps_deliver.
Qed.

Lemma kept_note_pongs ns : forall c, kept c (foldl (fun c n => note_pong n c) c ns).
Proof.
  induction ns as [|n ns IH]; intros c; [apply kept_refl|]. cbn [foldl]. eapply kept_trans; [|apply IH].
  unfold note_pong. repeat case_match; auto with kept.
Qed.

Lemma keeps_handle_read data : keeps (handle_read data).
Proof.
  intros c. unfold handle_read. destruct (demux_feed (cdemux c) data) as [d [out|e|]]; [|by apply kept_same..].
  apply keeps_after; [|by apply kept_same].
  apply kept_bind; [apply keeps_for_each; intros f; apply keeps_send|]. intros _.
  apply kept_bind; [apply keeps_for_each; intros f; apply keeps_send|]. intros _.
  apply kept_bind; [apply keeps_modify; intros x; apply kept_note_pongs|]. intros _.
  apply kept_bind; [apply keeps_for_each; apply keeps_apply_grant|]. intros _.
  apply keeps_for_each. intros []. apply keeps_deliver.
Qed.

Lemma keeps_send_probe k now : keeps (send_probe k now).
Proof.
  intros c. unfold send_probe. cbv zeta. set (c1 := set_keepalive c _ _ _).
  assert (Hk : kept c (fst ((frame ← encode_or_fail (control_ping (be_bytes 8 (next_nonce c))); send_writer frame []) c1))).
  { apply keeps_after; [|by apply kept_same]. apply kept_bind; [apply keeps_encode|]. intros b. apply keeps_send. }
  match goal with |- context [match ?m with _ => _ end] => destruct m as [c2 [[]|e|]] end; cbn [fst] in *; [|done..].
  eapply kept_trans; [exact Hk|]. by apply kept_same.
Qed.

Lemma keeps_handle_keepalive k now : keeps (handle_keepalive k now).
Proof.
  intros c. unfold handle_keepalive. destruct (outstanding_probe c) as [p|]; [|apply keeps_send_probe].
  destruct (_ <? _); [apply kept_refl|]. cbv zeta. destruct (_ <=? _); [by apply kept_same|].
  apply keeps_after; [apply keeps_send_probe|]. by apply kept_same.
Qed.

Lemma kept_resolve a c : kept c (resolve a c).
Proof. unfold resolve. case_match; auto with kept. Qed.

Lemma kept_classify r ended side c : kept c (fst (classify_carrier_tls_alert r ended side c)).
Proof. unfold classify_carrier_tls_alert, resolve. repeat case_match; cbn; auto with kept. Qed.

Lemma kept_drop_reader sid c : kept c (drop_reader sid c).
Proof. unfold drop_reader. case_match; auto with kept. Qed.

#[export] Hint Resolve kept_resolve kept_classify kept_drop_reader : kept.

(** ** The requests behind the streams *)

(** The requests of the [OpenStream]s in a queue of commands. *)
Definition requests (cs : list CarrierCommand) : list OpenStreamInput :=
  omap (fun cmd => match cmd with OpenStream i => Some i | _ => None end) cs.

Definition request_head (i : OpenStreamInput) : list byte :=
  build_request_head (omethod i) (otarget i) (oheaders i) (odeclared i).

(** [os] were asked for, the first of them are open or were. *)
Definition numbered (os : list OpenStreamInput) (c : Coordinator) : Prop :=
  exists opened, os = opened ++ requests (commands c) /\ next (cdialer c) = 1 + 2 * len opened /\
    forall sid st, cstreams c !! sid = Some st ->
      exists k i, opened !! k = Some i /\ sid = 1 + 2 * Z.of_nat k /\
        up_head (upload st) = request_head i /\ sdeclared st = odeclared i.

Lemma numbered_new : numbered [] coordinator_new.
Proof. exists []. split_and!; [done..|]. intros sid st H. cbn in H. by rewrite lookup_empty in H. Qed.

Lemma numbered_kept os c c' : kept c c' -> numbered os c -> numbered os c'.
Proof.
  intros [H1 H2 H3] (opened & Ho & Hn & Hs). exists opened. rewrite H1, H2. split_and!; [done..|].
  intros sid st Hst. destruct (H3 _ _ Hst) as (st0 & Hst0 & E1 & E2). destruct (Hs _ _ Hst0) as (k & i & ? & ? & ? & ?).
  exists k, i. split_and!; [done..|congruence|congruence].
Qed.

(** A command that opens nothing. *)
Lemma numbered_other os c cmd rest :
  commands c = cmd :: rest -> requests [cmd] = [] -> numbered os c -> numbered os (set_inputs c rest (wakes c) (cancels c)).
Proof.
  intros Hc Hr (opened & Ho & Hn & Hs). exists opened. split_and!; [|done|done]. cbn. rewrite Hc in Ho.
  unfold requests in *. cbn in Ho, Hr. destruct cmd; [done|by rewrite Ho..].
Qed.

Lemma numbered_open os c i rest :
  commands c = OpenStream i :: rest -> 0 <= next (cdialer c) -> next (cdialer c) + 2 < 2 ^ 32 -> numbered os c ->
  numbered os (fst (open_stream_on_carrier i (set_inputs c rest (wakes c) (cancels c)))).
Proof.
  intros Hc H0 Hb (opened & Ho & Hn & Hs). exists (opened ++ [i]).
  unfold open_stream_on_carrier, allocate, wrap. cbn. rewrite Z.mod_small by lia. rewrite Hc in Ho. cbn in Ho.
  rewrite length_app. cbn [length]. split_and!; [by rewrite <- app_assoc|lia|]. intros sid st Hst.
  destruct (decide (next (cdialer c) = sid)) as [<-|Hne].
  - rewrite lookup_insert_eq in Hst. injection Hst as <-. exists (length opened), i. split_and!; [|lia|done|done].
    by rewrite lookup_app_r, Nat.sub_diag by lia.
  - rewrite lookup_insert_ne in Hst by done. destruct (Hs _ _ Hst) as (k & j & Hk & ? & ? & ?).
    exists k, j. split_and!; [|done..]. by apply lookup_app_l_Some.
Qed.

Lemma numbered_push os c cmd : numbered os c -> numbered (os ++ requests [cmd]) (push_command cmd c).
Proof.
  intros (opened & -> & Hn & Hs). exists opened. split_and!; [|done|done]. cbn [commands push_command set_inputs].
  unfold requests. by rewrite omap_app, app_assoc.
Qed.
