(* ===== verification/CarrierRun.v ===== *)
(** * Runs of the carrier

    The handlers of the coordinator, the users of its streams and the writer keep
    the invariants of CarrierInv.v, so every run does: no step panics, uploads
    never stall, body bytes stay within their budget, the receive windows count
    exactly what the readers hold, and the wire carries what the senders sent. *)

From S2P Require Import Prelude Frame Text Http Window Upload Assembler Demux Carrier CarrierInv CarrierOpen.

#[local] Arguments zsum : simpl never.

(** Both invariants; [Q] are events of the demux still to be handed out. *)
Definition sound (B : Z) (W : list Z) (Q : list (Z * StreamEvent)) (c : Coordinator) : Prop :=
  coord_inv B W c /\ credit_inv Q c.

(** ** Reading *)

Lemma send_controls_spec B W Q fs c :
  sound B W Q c -> Forall control_frame fs ->
  cspec (for_each fs (fun f => send_writer f [])) c (fun _ c' => sound B W Q c').
Proof.
  intros Hs Hfs. eapply cspec_mono; [apply (cspec_for_each fs _ (fun l c => sound B W Q c /\ Forall control_frame l))|].
  - clear. intros f l c [[Hinv Hcr] [Hf Hl]%Forall_cons_1]. eapply cspec_mono.
    + apply send_control_spec; [exact Hinv|]. intros i. by apply control_not_upload.
    + intros [] c' [H ->]. split; [|done]. split; [done|by apply credit_pushed].
  - done.
  - by intros [] c' [? _].
Qed.

Lemma sound_keepalive B W Q c p m n : sound B W Q c -> 0 <= n < 2 ^ 64 -> sound B W Q (set_keepalive c p m n).
Proof.
  intros [[Hg Hs] Hcr] Hn. split; [split; [|exact Hs]|by apply (credit_ext Q c)]. destruct Hg. by split.
Qed.

Lemma sound_nonce B W Q c : sound B W Q c -> 0 <= next_nonce c < 2 ^ 64.
Proof. intros [[Hg _] _]. apply Hg. Qed.

Lemma note_pongs_sound B W Q ns c : sound B W Q c -> sound B W Q (foldl (fun c n => note_pong n c) c ns).
Proof.
  revert c. induction ns as [|n ns IH]; intros c Hs; [done|]. cbn. apply IH. unfold note_pong.
  destruct (outstanding_probe c) as [p|]; [|done]. case_bool_decide; [|done].
  apply sound_keepalive; [done|by eapply sound_nonce].
Qed.

(** The events of a read are owed to the streams' readers. *)
Lemma credit_read c d o :
  credit_inv [] c -> read_ok (cdemux c) d o -> fatal_violation d = None -> credit_inv (stream_events o) (set_demux c d).
Proof.
  intros [Hok Hfat Hknown Hbooks Hcosts Hcons Hq Hended Hends] [Rok Rheld Rcost Rknown Rends _ _ _] Hd.
  split; cbn; try done.
  - intros i [st' Hi]. destruct (Rheld _ _ Hi) as (st & Hst & _). apply Hknown. eauto.
  - intros i dst st p Hi Hst Hp. destruct (Rheld _ _ Hi) as (dst0 & Hi0 & ->).
    rewrite <- (Hbooks _ _ _ _ Hi0 Hst Hp). unfold owed at 2, zsum. cbn. lia.
  - intros i st Hst He. apply eq_None_not_Some. intros [dst Hi]. destruct (Rheld _ _ Hi) as (dst0 & Hi0 & _).
    by rewrite (Hended _ _ Hst He) in Hi0.
Qed.

Lemma handle_read_spec B W data c :
  sound B W [] c -> cspec (handle_read data) c (fun _ c' => sound B W [] c').
Proof.
  intros [Hinv Hcr]. unfold cspec, handle_read.
  pose proof (demux_feed_read (cdemux c) data (cr_ok _ _ Hcr) (cr_fatal _ _ Hcr)) as Hr.
  destruct (demux_feed (cdemux c) data) as [d [out|e|]]; [|done..]. destruct Hr as [Hr Hfat].
  set (m := mbind _ _). assert (Hm : cspec m (set_demux c d) (fun _ c' => sound B W [] c')); [|exact Hm]. subst m.
  assert (Hs : sound B W (stream_events out) (set_demux c d))
    by (split; [by apply coord_inv_demux|by apply credit_read]).
  apply cspec_bind. eapply cspec_mono; [apply send_controls_spec; [exact Hs|apply Hr]|]. clear Hs. intros [] c1 Hs.
  apply cspec_bind. eapply cspec_mono; [apply send_controls_spec; [exact Hs|apply Hr]|]. clear Hs. intros [] c2 Hs.
  apply cspec_bind. unfold cspec at 1. cbn [cmodify]. apply (note_pongs_sound _ _ _ (inbound_pongs out)) in Hs.
  apply cspec_bind. eapply cspec_mono.
  { apply (cspec_for_each _ _ (fun l c => sound B W (stream_events out) c /\ Forall (fun g => 0 <= snd g) l)).
    - clear. intros g l c [[Hinv Hcr] [Hg Hl]%Forall_cons_1]. eapply cspec_mono; [by apply apply_grant_spec|]. auto.
    - split; [exact Hs|apply Hr]. }
  clear Hs. intros [] c3 [Hs _].
  apply (cspec_for_each _ _ (fun l c => sound B W l c)); [|done].
  clear. intros [sid e] l c [Hinv Hcr]. by apply deliver_spec.
Qed.

(** ** Consuming *)

Lemma stream_inv_mono x x' sid st p :
  stream_inv x sid st p -> x_leased x' = x_leased x -> x_ready x' = x_ready x -> x_frames x' = x_frames x ->
  (x_woken x = true -> x_woken x' = true) -> (x_cancelled x = true -> x_cancelled x' = true) ->
  stream_inv x' sid st p.
Proof. intros [] El Er Ef Hw Hc. split; rewrite ?El, ?Er, ?Ef; auto. Qed.

(** The queues of the coordinator change; a wake or a cancel of a live stream
    stays. *)
Lemma coord_inv_inputs B B' W W' c cs ws xs :
  coord_inv B W c -> global_inv B' (set_inputs c cs ws xs) ->
  (forall i, is_Some (cstreams c !! i) -> i ∈ W ++ wakes c -> i ∈ W' ++ ws) ->
  (forall i, is_Some (cstreams c !! i) -> i ∈ cancels c -> i ∈ xs) ->
  coord_inv B' W' (set_inputs c cs ws xs).
Proof.
  intros Hinv Hg HW Hx. split; [done|]. intros i st Hst. cbn in Hst.
  destruct (ci_stream _ _ _ Hinv _ _ Hst) as (p & Hp & Hs). exists p. split; [done|].
  eapply stream_inv_mono; [exact Hs|done|done|done|..]; cbn; rewrite !bool_decide_eq_true; eauto.
Qed.

(** The coordinator takes a command off its queue. *)
Lemma coord_inv_command B W c cmd rest :
  coord_inv B W c -> commands c = cmd :: rest -> coord_inv B W (set_inputs c rest (wakes c) (cancels c)).
Proof.
  intros Hinv Hc. eapply coord_inv_inputs; [exact Hinv| |done..].
  destruct (ci_global _ _ _ Hinv). rewrite Hc in *. split; try done; cbn.
  - destruct gi_ids as (n & ? & ? & ? & ?). exists n. unfold count in *. rewrite zsum_cons in *.
    destruct (is_open cmd); lia.
  - by apply Forall_cons_1 in gi_commands as [_ ?].
Qed.

Lemma ccost_cons sid cmd l :
  ccost sid (cmd :: l) = (match cmd with Consume s n => if decide (s = sid) then n else 0 | _ => 0 end) + ccost sid l.
Proof. apply zsum_cons. Qed.

Lemma costs_nonneg l : costs_ok l -> 0 <= dcost l.
Proof. intros H. apply zsum_nonneg. eapply Forall_impl; [|exact H]. by intros [e| |] He. Qed.

Lemma ccost_nonneg sid l : (forall n, Consume sid n ∈ l -> 0 <= n) -> 0 <= ccost sid l.
Proof.
  intros H. apply zsum_nonneg, list.Forall_forall. intros [i|s n|] Hin; [done| |done].
  case_decide; [subst; auto|done].
Qed.

(** The window has room for every [Consume] of a live stream. *)
Lemma credit_consume sid n rest c dst :
  credit_inv [] c -> commands c = Consume sid n :: rest -> streams (cdemux c) !! sid = Some dst ->
  (forall st, cstreams c !! sid = Some st -> is_Some (ports c !! sid)) ->
  0 <= n <= held dst.
Proof.
  intros Hcr Hc Hd Hport. destruct (cr_known _ _ Hcr sid) as [st Hst]; [eauto|]. destruct (Hport _ Hst) as [p Hp].
  pose proof (cr_books _ _ Hcr _ _ _ _ Hd Hst Hp) as Hb. rewrite Hc, ccost_cons, decide_True in Hb by done.
  destruct (cr_costs _ _ Hcr _ _ _ Hst Hp) as [H1%costs_nonneg H2%costs_nonneg].
  assert (0 <= n) by (apply (cr_consumes _ _ Hcr sid); [eauto|rewrite Hc; set_solver]).
  assert (0 <= ccost sid rest).
  { apply ccost_nonneg. intros n' Hn'. apply (cr_consumes _ _ Hcr sid); [eauto|rewrite Hc; set_solver]. }
  unfold owed, zsum in Hb. cbn in Hb. lia.
Qed.

(** A [Consume] whose stream is gone has no effect. *)
Lemma credit_drop_command cmd rest c :
  credit_inv [] c -> commands c = cmd :: rest ->
  (forall sid n, cmd = Consume sid n -> streams (cdemux c) !! sid = None) ->
  credit_inv [] (set_inputs c rest (wakes c) (cancels c)).
Proof.
  intros [Hok Hfat Hknown Hbooks Hcosts Hcons Hq Hended Hends] Hc Hnone. split; cbn; try done.
  - intros i dst st p Hi Hst Hp. rewrite <- (Hbooks i dst st p Hi Hst Hp), Hc, ccost_cons.
    destruct cmd as [i0|s n|]; try lia. rewrite decide_False; [lia|]. intros ->. by rewrite (Hnone _ _ eq_refl) in Hi.
  - intros i n Hi Hin. apply (Hcons i n Hi). rewrite Hc. set_solver.
Qed.

(** The window of a live stream gives back what its reader consumed. *)
Lemma credit_consumed sid n rest c dst dst' :
  credit_inv [] c -> commands c = Consume sid n :: rest -> streams (cdemux c) !! sid = Some dst ->
  stream_ok dst' -> held dst' = held dst - n ->
  credit_inv [] (set_demux (set_inputs c rest (wakes c) (cancels c))
                  (set_streams (cdemux c) (<[sid := dst']> (streams (cdemux c))))).
Proof.
  intros [Hok Hfat Hknown Hbooks Hcosts Hcons Hq Hended Hends] Hc Hd Hok' Hheld. split; cbn; try done.
  - unfold demux_ok. cbn. by apply map_Forall_insert_2.
  - intros i Hi. apply Hknown. by eapply insert_known.
  - intros i dst0 st p Hi Hst Hp. destruct (decide (sid = i)) as [<-|Hne].
    + rewrite lookup_insert_eq in Hi. injection Hi as <-.
      pose proof (Hbooks _ _ _ _ Hd Hst Hp) as Hb. rewrite Hc, ccost_cons, decide_True in Hb by done. lia.
    + rewrite lookup_insert_ne in Hi by done. pose proof (Hbooks _ _ _ _ Hi Hst Hp) as Hb.
      rewrite Hc, ccost_cons, decide_False in Hb by done. lia.
  - intros i n' Hi Hin. apply (Hcons i n' Hi). rewrite Hc. set_solver.
  - intros i st Hst He. pose proof (Hended i st Hst He) as Hn. rewrite lookup_insert_ne; [done|].
    intros <-. by rewrite Hd in Hn.
Qed.

Lemma consume_stream_spec B W c sid n rest :
  sound B W [] c -> commands c = Consume sid n :: rest ->
  cspec (consume_stream sid n) (set_inputs c rest (wakes c) (cancels c)) (fun _ c' => sound B W [] c').
Proof.
  intros [Hinv Hcr] Hc. pose proof (coord_inv_command _ _ _ _ _ Hinv Hc) as Hinv'.
  unfold cspec, consume_stream, demux_consume. cbn [cdemux set_inputs].
  destruct (streams (cdemux c) !! sid) as [dst|] eqn:Hd.
  2:{ split; [by apply coord_inv_demux|]. apply (credit_ext _ (set_inputs c rest (wakes c) (cancels c))); try done.
      eapply credit_drop_command; [done|done|]. by intros ? ? [= <- <-]. }
  assert (Hn : 0 <= n <= held dst).
  { eapply credit_consume; [done..|]. intros st Hst. destruct (ci_stream _ _ _ Hinv _ _ Hst) as (p & Hp & _). eauto. }
  pose proof (cr_ok _ _ Hcr _ _ Hd) as Hok. destruct Hok as [Hsa Hw Hpe]. unfold held in Hn.
  pose proof (sa_inv_pending _ Hsa) as Hpw.
  destruct (consume_ok (srecv_window dst) n Hw ltac:(lia)) as (w & g & -> & Hw' & _ & Hout & Hg).
  set (d := set_streams _ _).
  assert (Hs : sound B W [] (set_demux (set_inputs c rest (wakes c) (cancels c)) d)).
  { split; [by apply coord_inv_demux|]. apply (credit_consumed sid n rest c dst); [done..| |unfold held; cbn; lia].
    split; cbn; [done..|lia]. }
  destruct g as [g|]; [|done].
  assert (Hu : is_u32 sid).
  { destruct (cr_known _ _ Hcr sid) as [st Hst]; [eauto|]. by eapply stream_u32. }
  rewrite encode_ok by eauto with spl. destruct Hs as [Hi Hcc].
  eapply cspec_mono; [apply send_control_spec; [exact Hi|]|].
  - intros i. apply control_not_upload. eexists. split_and!; [done|eauto with spl|auto].
  - intros [] c' [H ->]. split; [done|by apply credit_pushed].
Qed.

(** ** Opening *)

Lemma leased_fresh c B sid : global_inv B c -> next (cdialer c) <= sid -> leased sid (wqueue c) = 0.
Proof.
  intros Hg Hs. unfold leased. pose proof (gi_leases _ _ Hg) as Hl. induction Hl as [|l ls Hl _ IH]; [done|].
  rewrite zsum_cons, IH. unfold lease_for. rewrite decide_False; [done|]. lia.
Qed.

Lemma sent_fresh c B sid : global_inv B c -> next (cdialer c) <= sid -> sent_frames sid c = [].
Proof.
  intros Hg Hs. unfold sent_frames. pose proof (gi_frames _ _ Hg) as Hf. induction Hf as [|b bs Hb _ IH]; [done|].
  rewrite list.filter_cons, decide_False; [done|]. rewrite Hb; done.
Qed.

(** The state after [open_stream_on_carrier]. *)
Definition after_open (i : OpenStreamInput) (c : Coordinator) : Coordinator :=
  let sid := next (cdialer c) in
  let head := build_request_head (omethod i) (otarget i) (oheaders i) (odeclared i) in
  set_ready (set_ports (put_stream sid (mkStreamState (upload_new sid head (odeclared i)) (odeclared i) 0 [] [] true)
    (set_demux (set_dialer c (mkFrameDialer (sid + 2))) (open_stream (cdemux c) sid))) (<[sid := port_new]> (ports c)))
    (ready c ++ [sid]).

Lemma open_stream_after i c :
  0 <= next (cdialer c) + 2 < 2 ^ 32 -> open_stream_on_carrier i c = (after_open i c, next (cdialer c)).
Proof.
  intros H. unfold open_stream_on_carrier, allocate, after_open, wrap. rewrite Z.mod_small by done. done.
Qed.

Lemma open_global B c i rest :
  global_inv B c -> commands c = OpenStream i :: rest ->
  global_inv B (after_open i (set_inputs c rest (wakes c) (cancels c))) /\ is_usize (odeclared i) /\
  0 <= next (cdialer c) /\ next (cdialer c) + 2 < 2 ^ 32.
Proof.
  intros Hg Hc. destruct Hg. rewrite Hc in *. destruct gi_ids as (n & Hn & Hnext & HB & Hb).
  apply Forall_cons_1 in gi_commands as [Hi Hcmds]. unfold count in Hb. rewrite zsum_cons in Hb. cbn in Hb.
  fold (count is_open rest) in Hb.
  assert (0 <= count is_open rest) as Hpos.
  { apply zsum_nonneg, list.Forall_forall. intros x _. by destruct (is_open x). }
  split_and!; [|done|lia|lia]. split; cbn; try done.
  - exists (n + 1). lia.
  - eapply Forall_impl; [|exact Hcmds]. intros [| |]; lia || done.
  - destruct gi_ready as [Hnd Hlt]. rewrite list.Forall_forall in Hlt. split.
    + apply list.NoDup_app. split_and!; [done| |apply NoDup_singleton].
      intros x Hx ->%list_elem_of_singleton. specialize (Hlt _ Hx). cbn in Hlt. lia.
    + apply Forall_app. split; [|constructor; [lia|done]]. apply list.Forall_forall. intros x Hx.
      specialize (Hlt _ Hx). cbn in Hlt. lia.
  - eapply Forall_impl; [|exact gi_leases]. cbn. lia.
  - apply map_Forall_insert_2; [lia|]. intros x p Hx. specialize (gi_ports _ _ Hx). cbn in gi_ports. lia.
  - eapply Forall_impl; [|exact gi_frames]. cbn. intros b Hb' x Hx. apply Hb'. lia.
Qed.

Lemma open_stream_spec B W c i rest :
  sound B W [] c -> commands c = OpenStream i :: rest ->
  exists c', open_stream_on_carrier i (set_inputs c rest (wakes c) (cancels c)) = (c', next (cdialer c)) /\
    sound B W [] c'.
Proof.
  intros [Hinv Hcr] Hc. pose proof (ci_global _ _ _ Hinv) as Hg.
  destruct (open_global B c i rest Hg Hc) as (Hg' & Hd & Hn0 & Hn).
  assert (Hu : is_u32 (next (cdialer c))) by (unfold is_u32, in_range; lia).
  rewrite open_stream_after by (cbn; lia). eexists. split; [done|].
  assert (Hnew : forall x (p : Port), ports c !! x = Some p -> x <> (next (cdialer c))).
  { intros x p Hx ->. pose proof (gi_ports _ _ Hg _ _ Hx). cbn in *. lia. }
  split.
  - eapply (coord_inv_update B W c _ (next (cdialer c)) Hinv Hg').
    + intros x st Hne Hx. cbn in Hx |- *. rewrite lookup_insert_ne in Hx by congruence.
      rewrite lookup_insert_ne by congruence. split_and!; [done..|]. intros _. unfold ctx. cbn. f_equal. apply bool_decide_ext. set_solver.
    + intros st Hx. cbn in Hx |- *. rewrite lookup_insert_eq in Hx. rewrite lookup_insert_eq. injection Hx as <-. exists port_new.
      split; [done|]. split; cbn; try done.
      * exists [], []. split_and!; [by apply upload_ok_new| |done|done]. intros fs Hfs. destruct (writer_alive c); [|done].
        injection Hfs as <-. symmetry. by apply (sent_fresh c B).
      * by rewrite (leased_fresh c B).
      * by rewrite (leased_fresh c B).
      * symmetry. apply bool_decide_eq_true. set_solver.
  - pose proof (cr_consumes _ _ Hcr) as Hcons0. destruct Hcr as [Hok Hfat Hknown Hbooks Hcosts Hcons Hq Hended Hends].
    assert (Hfresh : forall n, Consume (next (cdialer c)) n ∉ commands c).
    { intros n Hin. pose proof (gi_commands _ _ Hg) as Hcm. rewrite list.Forall_forall in Hcm.
      specialize (Hcm _ Hin). cbn in Hcm. lia. }
    assert (Hrest : forall cmd, cmd ∈ rest -> cmd ∈ commands c) by (rewrite Hc; set_solver).
    assert (Hcost : forall x, ccost x rest = ccost x (commands c)) by (intros x; rewrite Hc, ccost_cons; lia).
    split; cbn; try done.
    + apply map_Forall_insert_2; [apply stream_ok_new|done].
    + intros x Hx. destruct (decide (next (cdialer c) = x)) as [<-|Hne]; [by rewrite lookup_insert_eq|].
      rewrite lookup_insert_ne in Hx by done. rewrite lookup_insert_ne by done. auto.
    + intros x dst st p Hx Hst Hp. rewrite Hcost. destruct (decide (next (cdialer c) = x)) as [<-|Hne].
      * rewrite lookup_insert_eq in Hx. rewrite lookup_insert_eq in Hst. rewrite lookup_insert_eq in Hp. injection Hx as <-. injection Hst as <-. injection Hp as <-.
        assert (ccost (next (cdialer c)) (commands c) = 0) as ->; [|done].
        unfold ccost. revert Hfresh. generalize (commands c). clear. intros l Hl. induction l as [|cmd l IH]; [done|].
        rewrite zsum_cons, IH by set_solver. destruct cmd as [| s n|]; [done| |done].
        rewrite decide_False; [done|]. intros ->. apply (Hl n). set_solver.
      * rewrite lookup_insert_ne in Hx by done. rewrite lookup_insert_ne in Hst by done. rewrite lookup_insert_ne in Hp by done. eauto.
    + intros x st p Hst Hp. destruct (decide (next (cdialer c) = x)) as [<-|Hne].
      * rewrite lookup_insert_eq in Hst. rewrite lookup_insert_eq in Hp. injection Hst as <-. injection Hp as <-.
        split; constructor.
      * rewrite lookup_insert_ne in Hst by done. rewrite lookup_insert_ne in Hp by done. eauto.
    + intros x n Hx Hin%Hrest. destruct (decide (next (cdialer c) = x)) as [<-|Hne]; [by apply Hfresh in Hin|].
      rewrite lookup_insert_ne in Hx by done. eauto.
    + intros x st Hst He. destruct (decide (next (cdialer c) = x)) as [<-|Hne].
      * rewrite lookup_insert_eq in Hst. by injection Hst as <-.
      * rewrite lookup_insert_ne in Hst by done. rewrite lookup_insert_ne by done. eauto.
Qed.

(** ** Cancelling *)

Lemma reset_any_spec B W Q sid c :
  sound B W Q c -> cspec (reset_active_stream sid) c (fun _ c' => sound B W Q c').
Proof.
  intros [Hinv Hcr]. destruct (cstreams c !! sid) as [st|] eqn:Hst.
  - rewrite <- (on_port_id sid c). eapply cspec_mono.
    + eapply reset_active_stream_spec, coord_inv_removable; [done..|apply same_body_id].
    + rewrite on_port_id. intros [] c' (H & n & ->). split; [done|by apply credit_reset_to].
  - unfold cspec, reset_active_stream. by rewrite Hst.
Qed.

(** A cancel is taken off the queue together with its stream. *)
Lemma cancel_spec B W Q c sid rest :
  sound B W Q c -> cancels c = sid :: rest ->
  cspec (reset_active_stream sid) (set_inputs c (commands c) (wakes c) rest) (fun _ c' => sound B W Q c').
Proof.
  intros [Hinv Hcr] Hx.
  assert (Hg : forall c, global_inv B c -> global_inv B (set_inputs c (commands c) (wakes c) rest)) by (by intros ? []).
  assert (Hcr' : credit_inv Q (set_inputs c (commands c) (wakes c) rest)) by by apply (credit_ext Q c).
  destruct (cstreams c !! sid) as [st|] eqn:Hst.
  - eapply cspec_mono; [apply (reset_active_stream_spec B W)|].
    + destruct (coord_inv_removable B W c sid st id Hinv Hst same_body_id) as (_ & Hu & Hl).
      rewrite on_port_id in Hl. split_and!; [|done..]. intros g. apply (coord_inv_gone B W c sid g) in Hinv.
      change (gone_with sid g (set_inputs c (commands c) (wakes c) rest))
        with (set_inputs (gone_with sid g c) (commands c) (wakes c) rest).
      eapply coord_inv_inputs; [exact Hinv|apply (Hg (gone_with sid g c)), Hinv|done|].
      intros i Hi. cbn in Hi |- *. rewrite Hx. intros [->|?]%elem_of_cons; [|done].
      rewrite lookup_delete_eq in Hi. by destruct Hi.
    + intros [] c' (H & n & ->). split; [done|by apply credit_reset_to].
  - unfold cspec, reset_active_stream. cbn [cstreams set_inputs]. rewrite Hst. split; [|done].
    eapply coord_inv_inputs; [exact Hinv|apply Hg, Hinv|done|].
    intros i Hi. rewrite Hx. intros [->|?]%elem_of_cons; [|done]. rewrite Hst in Hi. by destruct Hi.
Qed.

(** Changes of a port's delivery side, together with the queues. *)
Lemma coord_inv_user B B' W c sid f cs ws xs :
  coord_inv B W c -> global_inv B' (set_inputs (on_port sid f c) cs ws xs) ->
  (forall i, i ∈ wakes c -> i ∈ ws) -> (forall i, i ∈ cancels c -> i ∈ xs) ->
  (forall st p, cstreams c !! sid = Some st -> ports c !! sid = Some p ->
     stream_inv (ctx W c sid) sid st p -> stream_inv (ctx W (set_inputs c cs ws xs) sid) sid st (f p)) ->
  coord_inv B' W (set_inputs (on_port sid f c) cs ws xs).
Proof.
  intros Hinv Hg Hws Hxs Hf. split; [done|]. intros i st Hst. cbn in Hst.
  destruct (ci_stream _ _ _ Hinv _ _ Hst) as (p & Hp & Hs). destruct (decide (i = sid)) as [->|Hne].
  - exists (f p). cbn. rewrite lookup_alter_eq, Hp. split; [done|]. by apply Hf.
  - exists p. cbn. rewrite lookup_alter_ne by congruence. split; [done|].
    eapply stream_inv_mono; [exact Hs|done|done|done|..]; cbn; rewrite !bool_decide_eq_true, ?elem_of_app; naive_solver.
Qed.

Lemma global_inv_inputs B c sid f ws xs : global_inv B c -> global_inv B (set_inputs (on_port sid f c) (commands c) ws xs).
Proof. intros Hg. pose proof (global_inv_port B c sid f Hg) as []. by split. Qed.

Lemma drop_reader_sound B W Q sid c : sound B W Q c -> sound B W Q (drop_reader sid c).
Proof.
  intros [Hinv Hcr]. unfold drop_reader. destruct (ports c !! sid) as [p|] eqn:Hp; [|done]. split.
  - eapply coord_inv_user; [done|by apply global_inv_inputs, Hinv|done| |].
    + destruct (rx_terminal p); [done|]. intros i Hi. apply elem_of_app. by left.
    + intros st p' _ Hp' Hs. rewrite Hp in Hp'. injection Hp' as <-. destruct Hs. split; try done. cbn in *. intros _.
      destruct (rx_terminal p); [auto|]. apply bool_decide_eq_true. set_solver.
  - eapply credit_ext; [..|exact Hcr]; try done. cbn. by apply fmap_alter_same.
Qed.

(** ** Keepalive *)

Lemma wf_probe n : wf_frame (control_ping (be_bytes 8 n)).
Proof. unfold wf_frame, MAX_PAYLOAD. by cbn. Qed.

Lemma send_probe_spec B W Q k now c :
  sound B W Q c -> cspec (send_probe k now) c (fun _ c' => sound B W Q c').
Proof.
  intros Hs. unfold cspec, send_probe. set (n := saturating_add 64 (next_nonce c) 1).
  pose proof (sound_nonce _ _ _ _ Hs) as Hn.
  assert (0 <= n < 2 ^ 64) as Hn' by (unfold n, saturating_add; lia).
  set (f := control_ping (be_bytes 8 (next_nonce c))).
  assert (Hwf : wf_frame f) by apply wf_probe.
  assert (Hf : forall i, 0 < i -> is_upload_frame i (wire f) = false).
  { intros i. apply control_not_upload. eexists. split_and!; [done|done|by left]. }
  rewrite encode_bind by done. pose proof (sound_keepalive _ _ _ _ (outstanding_probe c) (missed c) n Hs Hn') as [Hinv Hcr].
  pose proof (send_control_spec B W _ (wire f) Hinv Hf) as H. unfold cspec in H.
  destruct (send_writer _ [] _) as [c' [[]|e|]]; [|done|done].
  destruct H as [H ->]. apply sound_keepalive; [|done]. split; [done|by apply credit_pushed].
Qed.

Lemma handle_keepalive_spec B W Q k now c :
  sound B W Q c -> cspec (handle_keepalive k now) c (fun _ c' => sound B W Q c').
Proof.
  intros Hs. unfold cspec, handle_keepalive.
  destruct (outstanding_probe c) as [p|]; [|by apply send_probe_spec]. destruct (now <? pdeadline p); [done|].
  destruct (max_missed k <=? _); [done|]. apply send_probe_spec, sound_keepalive; [done|by eapply sound_nonce].
Qed.

(** ** A turn of the loop *)

Definition step_spec (B : Z) (r : Coordinator * res CarrierError CoordinatorStep) : Prop :=
  match r with
  | (c', Ok StepContinue) => sound B [] [] c'
  | (_, Ok StepStop) => True
  | (_, Ok (StepError e)) => tolerated e
  | _ => False
  end.

Lemma step_handler B m c : cspec m c (fun _ c' => sound B [] [] c') -> step_spec B (handler m c).
Proof. unfold cspec, handler. by destruct (m c) as [c' [[]|e|]]. Qed.

Lemma sound_resolve B W Q a c : sound B W Q c -> sound B W Q (resolve a c).
Proof.
  intros [[Hg Hs] Hcr]. unfold resolve. destruct (acceptance c); [|done..].
  split; [split; [|exact Hs]|by apply (credit_ext Q c)]. by destruct Hg.
Qed.

Lemma on_command_spec B requester cmd rest c :
  sound B [] [] c -> commands c = cmd :: rest ->
  step_spec B (on_command requester cmd (set_inputs c rest (wakes c) (cancels c))).
Proof.
  intros Hs Hc. destruct cmd as [i|sid n|]; cbn [on_command].
  - pose proof (open_stream_spec B [] c i rest Hs Hc) as Ho.
    destruct Ho as (c1 & -> & Hi1 & Hc1).
    pose proof (pump_ready_spec B [] c1 Hi1) as Hp. unfold cspec in Hp.
    destruct (pump_ready c1) as [c2 [[]|e|]]; [|done..]. destruct Hp as (Hi2 & Hf & _).
    assert (Hs2 : sound B [] [] c2) by (split; [done|by eapply same_flow_credit]).
    destruct requester; [done|]. apply step_handler, reset_any_spec. by apply drop_reader_sound.
  - by apply step_handler, consume_stream_spec.
  - done.
Qed.

Lemma body_ready_spec B c :
  sound B [] [] c ->
  cspec (for_each (wakes c) receive_body) (set_inputs c (commands c) [] (cancels c)) (fun _ c' => sound B [] [] c').
Proof.
  intros [Hinv Hcr]. apply (cspec_for_each _ _ (fun W c => sound B W [] c)).
  - clear. intros sid W c [Hinv Hcr]. by apply receive_body_spec.
  - split; [|by apply (credit_ext [] c)]. eapply coord_inv_inputs; [exact Hinv| | |done].
    + by destruct (ci_global _ _ _ Hinv).
    + intros i _. cbn. by rewrite app_nil_r.
Qed.

Lemma drained_sound B c rest :
  sound B [] [] c -> writer_events c = Drained :: rest ->
  sound B [] [] (drained (set_writer c (inflight c) (wqueue c) (writer_alive c) rest (wire_log c))).
Proof.
  intros [[Hg Hs] Hcr] He. split; [split; [|exact Hs]|by apply (credit_ext [] c)]. destruct Hg. rewrite He in *.
  unfold count in gi_writer. rewrite zsum_cons in gi_writer. cbn in gi_writer.
  assert (0 <= zsum (fun a => if is_drained a then 1 else 0) rest) as Hpos.
  { apply zsum_nonneg, list.Forall_forall. intros x _. by destruct (is_drained x). }
  split; try done; cbn; unfold saturating_sub; [lia|]. intros Ha. unfold count. specialize (gi_writer Ha). lia.
Qed.

(** ** The writer *)

Lemma release_all_ports ls c i :
  ports (release_all ls c) !! i = add_permits (zsum (lease_for i) ls) <$> ports c !! i.
Proof.
  unfold release_all. induction ls as [|l ls IH]; cbn [foldr].
  - destruct (ports c !! i) as [p|]; [|done]. cbn. unfold add_permits, zsum. cbn. rewrite Z.add_0_r. by destruct p.
  - unfold release at 1. cbn. rewrite zsum_cons. unfold lease_for at 1. destruct (decide (lease_of l = i)) as [->|Hne].
    + rewrite lookup_alter_eq, IH. destruct (ports c !! i) as [p|]; [|done]. cbn. unfold add_permits. cbn. do 2 f_equal. lia.
    + rewrite lookup_alter_ne, IH by done. by rewrite Z.add_0_l.
Qed.

Lemma release_all_rest ls c : release_all ls c = set_ports c (ports (release_all ls c)).
Proof.
  unfold release_all. induction ls as [|l ls IH]; cbn [foldr]; [by destruct c|]. unfold release at 1.
  rewrite IH at 1. done.
Qed.

Lemma lease_for_nonneg i ls : Forall (fun l => 0 <= lease_len l) ls -> 0 <= zsum (lease_for i) ls.
Proof.
  intros H. apply zsum_nonneg. eapply Forall_impl; [|exact H]. intros l Hl. unfold lease_for. by case_decide.
Qed.

(** The writer gives back the leases of the packets it takes off the queue. *)
Lemma writer_takes B W Q c c1 ls rest :
  sound B W Q c -> c1 = set_writer c (inflight c) rest (writer_alive c1) (writer_events c1) (wire_log c1) ->
  packet_leases (wqueue c) = ls ++ packet_leases rest ->
  (writer_alive c1 = true -> writer_alive c = true /\ forall sid, sent_frames sid c1 = sent_frames sid c) ->
  global_inv B c1 -> sound B W Q (release_all ls c1).
Proof.
  intros [Hinv Hcr] Hc1 Hls Hlog Hg. pose proof (gi_leases _ _ (ci_global _ _ _ Hinv)) as Hl.
  rewrite Hls in Hl. apply Forall_app in Hl as [Hl Hr].
  assert (Hst : cstreams c1 = cstreams c) by by rewrite Hc1. assert (Hp : ports c1 = ports c) by by rewrite Hc1.
  split.
  - split.
    + rewrite release_all_rest. destruct Hg. split; try done. cbn. intros i p Hi. rewrite release_all_ports in Hi.
      apply fmap_Some in Hi as (q & Hq & _). by apply (gi_ports _ _ Hq).
    + intros i st Hi. rewrite release_all_rest in Hi |- *. cbn in Hi. rewrite Hst in Hi.
      destruct (ci_stream _ _ _ Hinv _ _ Hi) as (p & Hpi & Hs). exists (add_permits (zsum (lease_for i) ls) p).
      cbn. rewrite release_all_ports, Hp, Hpi. split; [done|].
      assert (Hsum : leased i (wqueue c) = zsum (lease_for i) ls + leased i rest)
        by (unfold leased; by rewrite Hls, zsum_app).
      pose proof (lease_for_nonneg i ls ltac:(eapply Forall_impl; [|exact Hl]; by intros l [_ ?])) as Hn.
      pose proof (lease_for_nonneg i _ ltac:(eapply Forall_impl; [|exact Hr]; by intros l [_ ?])) as Hn'.
      fold (leased i rest) in Hn'. assert (Hwq : wqueue c1 = rest) by by rewrite Hc1.
      assert (Hx : ready c1 = ready c /\ wakes c1 = wakes c /\ cancels c1 = cancels c) by by rewrite Hc1.
      destruct Hx as (Hx1 & Hx2 & Hx3). destruct Hs.
      split; cbn in *; rewrite ?Hx1, ?Hx2, ?Hx3, ?Hwq; try done.
      * destruct si_upload as (bs & ss & Hu & Hss & Hb). exists bs, ss. split_and!; [done| |apply Hb..].
        intros fs. destruct (writer_alive c1); [|done]. destruct (Hlog eq_refl) as [Ha Hsf]. rewrite Ha in Hss.
        intros [= <-]. rewrite <- Hsf in Hss. by apply Hss.
      * clear -si_permits Hn. destruct si_permits. split; [lia|done].
      * unfold held_by_port in *. cbn. clear -si_budget Hsum. lia.
  - eapply credit_ext; [..|exact Hcr]; rewrite release_all_rest; cbn; try by rewrite Hc1.
    intros i. rewrite release_all_ports, Hp. by destruct (ports c !! i).
Qed.

Lemma classify_sound B W Q r ended side c :
  sound B W Q c -> sound B W Q (fst (classify_carrier_tls_alert r ended side c)).
Proof.
  intros Hs. unfold classify_carrier_tls_alert. destruct (acceptance c); [|done..].
  destruct (if ended then None else r); [by apply sound_resolve|]. destruct side; [by apply sound_resolve|done].
Qed.

Lemma classify_flow r ended side c :
  let c' := fst (classify_carrier_tls_alert r ended side c) in
  same_flow c c' /\ ready c' = ready c /\ inflight c' = inflight c.
Proof.
  unfold classify_carrier_tls_alert, resolve.
  destruct (acceptance c) eqn:E; [destruct (if ended then None else r), side|..]; cbn [fst]; rewrite ?E; by repeat split.
Qed.

Lemma writer_step_sound B W Q e c c' :
  sound B W Q c -> writer_step e c = Some c' -> sound B W Q c' /\ same_flow c c' /\ ready c' = ready c /\ inflight c' = inflight c.
Proof.
  intros Hs. unfold writer_step. destruct (writer_alive c) eqn:Ha; cbn [negb]; [|done].
  assert (Hflow : forall ls c1, same_flow c c1 -> ready c1 = ready c -> inflight c1 = inflight c ->
    same_flow c (release_all ls c1) /\ ready (release_all ls c1) = ready c /\ inflight (release_all ls c1) = inflight c).
  { intros ls c1 [D I P1 Q1 R] Hr Hi. rewrite release_all_rest. split_and!; [|done..]. split; try done. cbn. intros i.
    rewrite release_all_ports. rewrite <- Q1. by destruct (ports c1 !! i). }
  destruct e as [|refusal ended].
  - destruct (wqueue c) as [|pkt rest] eqn:Hq; [done|]. intros [= <-]. split; [|by apply Hflow].
    apply (writer_takes B W Q c _ _ rest); [done|by cbn|by rewrite Hq| |].
    + intros _. split; [done|]. intros sid. unfold sent_frames. cbn. rewrite Hq. cbn. by rewrite <- app_assoc.
    + destruct (ci_global _ _ _ (proj1 Hs)). rewrite Hq in *. split; try done; cbn in *.
      * intros _. specialize (gi_writer Ha). unfold count in *. rewrite zsum_app, zsum_cons. cbn.
        unfold zsum at 2. cbn. lia.
      * unfold packet_leases in gi_leases. cbn in gi_leases. by apply Forall_app in gi_leases as [_ ?].
      * by rewrite <- app_assoc.
  - pose proof (classify_sound B W Q refusal ended Writer c Hs) as Hs1.
    pose proof (classify_flow refusal ended Writer c) as (Hf & Hr & Hi).
    assert (Hq : wqueue (fst (classify_carrier_tls_alert refusal ended Writer c)) = wqueue c).
    { unfold classify_carrier_tls_alert, resolve. destruct (acceptance c); [|done..].
      by destruct (if ended then None else refusal). }
    destruct (classify_carrier_tls_alert refusal ended Writer c) as [c1 r]. cbn [fst] in *. intros [= <-].
    split; [|apply Hflow; [by destruct Hf|done..]]. apply (writer_takes B W Q c1 _ _ []); [done|by cbn| |done|].
    + rewrite Hq. cbn. by rewrite app_nil_r.
    + destruct (ci_global _ _ _ (proj1 Hs1)). split; try done; cbn. rewrite app_nil_r.
      by apply Forall_app in gi_frames as [? _].
Qed.


(** ** The users *)

Lemma zsum_delete (l : list Z) i n : l !! i = Some n -> zsum id (delete i l) = zsum id l - n.
Proof.
  intros Hi. rewrite <- (take_drop_middle l i n Hi) at 2. rewrite delete_take_drop, !zsum_app, zsum_cons. cbn. lia.
Qed.

Lemma Forall_delete' {A} (P : A -> Prop) (l : list A) i : Forall P l -> Forall P (delete i l).
Proof. rewrite delete_take_drop. intros H. apply Forall_app. split; [by apply Forall_take|by apply Forall_drop]. Qed.

Lemma credit_user Q c sid f ws xs :
  (forall p, delivery (f p) = delivery p) -> credit_inv Q c ->
  credit_inv Q (set_inputs (on_port sid f c) (commands c) ws xs).
Proof. intros Hf Hc. eapply credit_ext; [..|exact Hc]; try done. cbn. by apply fmap_alter_same. Qed.

(** A step that only touches the body's side of a port and may add wakes. *)
Lemma user_port_sound B W Q c sid f ws :
  sound B W Q c -> (forall p, delivery (f p) = delivery p) -> (forall i, i ∈ wakes c -> i ∈ ws) ->
  (forall st p, cstreams c !! sid = Some st -> ports c !! sid = Some p ->
     stream_inv (ctx W c sid) sid st p -> stream_inv (ctx W (set_inputs c (commands c) ws (cancels c)) sid) sid st (f p)) ->
  sound B W Q (set_inputs (on_port sid f c) (commands c) ws (cancels c)).
Proof.
  intros [Hinv Hcr] Hd Hws Hf. split; [|by apply credit_user].
  by eapply coord_inv_user; [done|apply global_inv_inputs, Hinv|..].
Qed.

Section Ports.
Context (x : context) (sid : Z) (st : StreamState) (p : Port) (Hs : stream_inv x sid st p).

Lemma stream_inv_unreserve i n :
  reservations p !! i = Some n -> stream_inv x sid st (set_reservations n (delete i (reservations p)) p).
Proof.
  intros Hi. destruct Hs. split; try done; cbn.
  - destruct si_permits as [? Hr]. split; [|by apply Forall_delete'].
    rewrite list.Forall_lookup in Hr. specialize (Hr _ _ Hi). clear -H Hr. lia.
  - unfold held_by_port in *. cbn. rewrite (zsum_delete _ _ _ Hi). clear -si_budget. lia.
Qed.

Lemma stream_inv_reserve n :
  0 < n <= permits p -> stream_inv x sid st (set_reservations (- n) (n :: reservations p) p).
Proof.
  intros Hn. destruct Hs. split; try done; cbn.
  - destruct si_permits as [? Hr]. clear -Hn H Hr. split; [lia|]. constructor; [lia|done].
  - unfold held_by_port in *. cbn. rewrite zsum_cons. cbn. clear -si_budget. lia.
Qed.

Lemma stream_inv_send i n bytes x' :
  reservations p !! i = Some n -> len bytes <= n ->
  x_leased x' = x_leased x -> x_ready x' = x_ready x -> x_frames x' = x_frames x -> x_woken x' = true ->
  x_cancelled x' = x_cancelled x ->
  stream_inv x' sid st (push_chunk (mkChunk bytes (mkBodyLease sid (len bytes)))
                          (set_reservations (n - len bytes) (delete i (reservations p)) p)).
Proof.
  intros Hi Hn El Er Ef Ew Ec. destruct Hs. split; rewrite ?El, ?Er, ?Ef, ?Ec; try done; cbn.
  - destruct si_upload as (bs & ss & Hu & Hss & Hrb & Hsb). exists bs, ss. split_and!; [done..|].
    rewrite fmap_app, concat_app. cbn. rewrite app_nil_r, app_assoc. by rewrite <- Hsb.
  - apply Forall_app. split; [done|]. by constructor.
  - destruct si_permits as [? Hr]. split; [|by apply Forall_delete']. clear -Hn H. lia.
  - unfold held_by_port in *. cbn. rewrite (zsum_delete _ _ _ Hi), zsum_app, zsum_cons. unfold zsum at 3. cbn.
    clear -si_budget. unfold id in *. lia.
Qed.

Lemma stream_inv_body_done x' :
  x_leased x' = x_leased x -> x_ready x' = x_ready x -> x_frames x' = x_frames x -> x_woken x' = true ->
  x_cancelled x' = x_cancelled x -> stream_inv x' sid st (end_body p).
Proof. intros El Er Ef Ew Ec. destruct Hs. split; rewrite ?El, ?Er, ?Ef, ?Ec; done. Qed.

Lemma stream_inv_terminal x' :
  x_leased x' = x_leased x -> x_ready x' = x_ready x -> x_frames x' = x_frames x -> x_woken x' = x_woken x ->
  x_cancelled x' = true -> stream_inv x' sid st (set_terminal p).
Proof. intros El Er Ef Ew Ec. destruct Hs. split; rewrite ?El, ?Er, ?Ef, ?Ew; done. Qed.

Lemma stream_inv_take ev rest :
  delivery p = DStream ev :: rest -> stream_inv x sid st (take_delivery (DStream ev) rest p).
Proof.
  intros Hd. destruct Hs. rewrite Hd in si_plain. apply Forall_cons_1 in si_plain as [He Hr]. cbn in He.
  apply negb_true_iff in He. split; try done; cbn; rewrite He, !orb_false_r; done.
Qed.

End Ports.

Definition uopens (e : user_event) : Z := match e with UOpen _ => 1 | _ => 0 end.
Definition user_ok (e : user_event) : Prop := match e with UOpen i => is_usize (odeclared i) | _ => True end.

Lemma count_app {A} (f : A -> bool) l l' : count f (l ++ l') = count f l + count f l'.
Proof. apply zsum_app. Qed.

Lemma push_command_inv B W c cmd :
  coord_inv ((if is_open cmd then 1 else 0) + B) W c -> 0 <= B ->
  match cmd with
  | OpenStream i => is_usize (odeclared i)
  | Consume sid _ => 0 < sid < next (cdialer c)
  | Shutdown => True
  end -> coord_inv B W (push_command cmd c).
Proof.
  intros Hinv HB Hcmd. eapply coord_inv_inputs; [exact Hinv| |done..]. destruct (ci_global _ _ _ Hinv).
  split; try done; cbn.
  - destruct gi_ids as (n & ? & ? & ? & ?). exists n. rewrite count_app. unfold count at 2. rewrite zsum_cons.
    unfold zsum at 1. cbn. split_and!; [done..|]. lia.
  - apply Forall_app. split; [done|]. by constructor.
Qed.

Lemma push_command_credit Q c cmd :
  credit_inv Q c -> match cmd with Consume _ _ => False | _ => True end -> credit_inv Q (push_command cmd c).
Proof.
  intros [Hok Hfat Hknown Hbooks Hcosts Hcons Hq Hended Hends] Hcmd. split; cbn; try done.
  - intros i dst st p Hi Hst Hp. rewrite <- (Hbooks i dst st p Hi Hst Hp). unfold ccost. rewrite zsum_app, zsum_cons.
    unfold zsum at 2. cbn. destruct cmd; [|done|]; lia.
  - intros i n Hi [Hin|Hin%list_elem_of_singleton]%elem_of_app; [eauto|by subst cmd].
Qed.

(** The reader takes an event: its bytes become a [Consume]. *)
Lemma recv_credit Q c sid ev rest p :
  credit_inv Q c -> ports c !! sid = Some p -> delivery p = DStream ev :: rest ->
  credit_inv Q (push_command (Consume sid (wire_cost ev)) (on_port sid (take_delivery (DStream ev) rest) c)).
Proof.
  intros [Hok Hfat Hknown Hbooks Hcosts Hcons Hq Hended Hends] Hp Hd. split; cbn; try done.
  - intros i dst st p' Hi Hst Hp'. unfold ccost. rewrite zsum_app, zsum_cons. unfold zsum at 2. cbn.
    fold (ccost i (commands c)). destruct (decide (sid = i)) as [<-|Hne].
    + rewrite lookup_alter_eq, Hp in Hp'. injection Hp' as <-. rewrite <- (Hbooks _ dst st p Hi Hst Hp), Hd. cbn.
      change (DStream ev :: rest) with ([DStream ev] ++ rest). rewrite dcost_app, dcost_one. lia.
    + rewrite lookup_alter_ne in Hp' by done. rewrite <- (Hbooks _ dst st p' Hi Hst Hp'). lia.
  - intros i st p' Hst Hp'. destruct (decide (sid = i)) as [<-|Hne].
    + rewrite lookup_alter_eq, Hp in Hp'. injection Hp' as <-. destruct (Hcosts _ _ _ Hst Hp) as [? Hx].
      rewrite Hd in Hx. by apply Forall_cons_1 in Hx as [_ ?].
    + rewrite lookup_alter_ne in Hp' by done. eauto.
  - intros i n Hi [Hin|Hin%list_elem_of_singleton]%elem_of_app; [eauto|]. injection Hin as -> ->.
    destruct Hi as [st Hst]. destruct (Hcosts _ _ _ Hst Hp) as [_ Hx]. rewrite Hd in Hx.
    by apply Forall_cons_1 in Hx as [? _].
Qed.

Lemma dead_port_sound B W Q c sid f :
  cstreams c !! sid = None -> sound B W Q c -> sound B W Q (on_port sid f c).
Proof.
  intros Hn [Hinv Hcr]. split.
  - apply coord_inv_port; [done|]. intros st p Hst. congruence.
  - destruct Hcr as [Hok Hfat Hknown Hbooks Hcosts Hcons Hq Hended Hends]. split; cbn; try done.
    + intros i dst st p Hi Hst Hp. rewrite lookup_alter_ne in Hp by congruence. eauto.
    + intros i st p Hst Hp. rewrite lookup_alter_ne in Hp by congruence. eauto.
Qed.

Lemma budget_of_opens B W Q c : sound B W Q c -> 0 <= B.
Proof. intros [[Hg _] _]. by destruct (gi_ids _ _ Hg) as (n & _ & _ & ? & _). Qed.

Lemma recv_sound B W Q c sid e rest p :
  sound B W Q c -> ports c !! sid = Some p -> delivery p = e :: rest ->
  let c' := on_port sid (take_delivery e rest) c in
  sound B W Q (match e with DStream ev => push_command (Consume sid (wire_cost ev)) c' | _ => c' end).
Proof.
  intros Hs Hp Hd. pose proof (budget_of_opens _ _ _ _ Hs) as HB. destruct Hs as [Hinv Hcr].
  pose proof (ci_global _ _ _ Hinv) as Hg. pose proof (gi_ports _ _ Hg _ _ Hp) as Hsid. cbn in Hsid.
  assert (Hnone : is_stream e = false -> cstreams c !! sid = None).
  { intros He. apply eq_None_not_Some. intros [st Hst]. destruct (ci_stream _ _ _ Hinv _ _ Hst) as (p' & Hp' & Hs).
    rewrite Hp in Hp'. injection Hp' as <-. pose proof (si_plain _ _ _ _ Hs) as Hpl. rewrite Hd in Hpl.
    apply Forall_cons_1 in Hpl as [Hpl _]. by destruct e. }
  destruct e as [ev|h|]; [|by apply dead_port_sound; [apply Hnone|]..].
  split; [|by eapply recv_credit]. apply push_command_inv; [cbn [is_open]|done|done].
  apply coord_inv_port; [done|]. intros st p' _ Hp' Hs. rewrite Hp in Hp'. injection Hp' as <-. by apply stream_inv_take.
Qed.

Lemma user_step_sound B e c c' :
  sound (uopens e + B) [] [] c -> 0 <= B -> user_ok e -> user_step e c = Some c' -> sound B [] [] c'.
Proof.
  intros Hs HB Hok. pose proof Hs as [Hinv Hcr].
  assert (Hport : forall sid p, ports c !! sid = Some p -> forall f ws, sound B [] [] c ->
    (forall p, delivery (f p) = delivery p) -> (forall i, i ∈ wakes c -> i ∈ ws) ->
    (forall st, stream_inv (ctx [] c sid) sid st p ->
       stream_inv (ctx [] (set_inputs c (commands c) ws (cancels c)) sid) sid st (f p)) ->
    sound B [] [] (set_inputs (on_port sid f c) (commands c) ws (cancels c))).
  { intros sid p Hp f ws Hs' Hd Hws Hf. apply user_port_sound; [done..|]. intros st p' _ Hp'. rewrite Hp in Hp'.
    injection Hp' as <-. auto. }
  assert (Hmore : forall (sid i : Z), i ∈ wakes c -> i ∈ wakes c ++ [sid]) by set_solver.
  assert (Hlast : forall sid : Z, bool_decide (sid ∈ [] ++ wakes c ++ [sid]) = true)
    by (intros; apply bool_decide_eq_true; set_solver).
  destruct e as [i|sid n|sid i bytes|sid i|sid|sid|sid|sid|]; cbn [user_step uopens] in *; rewrite ?Z.add_0_l in *.
  - intros [= <-]. split; [by apply push_command_inv|]. apply push_command_credit; [|done]. exact Hcr.
  - destruct (ports c !! sid) as [p|] eqn:Hp; [|done]. cbn [mbind option_bind].
    destruct (_ && body_sender p) eqn:E; [|done]. intros [= <-]. repeat (apply andb_prop in E as [E ?]).
    apply (Hport sid p Hp _ (wakes c)); [done..|]. intros st Hst. apply stream_inv_reserve; [done|lia].
  - destruct (ports c !! sid) as [p|] eqn:Hp; [|done]. cbn [mbind option_bind].
    destruct (reservations p !! i) as [n|] eqn:Hn; [|done]. cbn [mbind option_bind].
    destruct (body_sender p); cbn [negb]; [|done].
    assert (Hun : sound B [] [] (on_port sid (set_reservations n (delete i (reservations p))) c)).
    { apply (Hport sid p Hp _ (wakes c)); [done..|]. intros st H. by apply stream_inv_unreserve. }
    destruct (Z.gtb_spec (len bytes) n); [by intros [= <-]|]. destruct (body_receiver p); cbn [negb]; [|by intros [= <-]].
    destruct (BODY_QUEUE <=? _); [done|]. intros [= <-]. apply (Hport sid p Hp); [done|done|apply Hmore|].
    intros st H'. eapply stream_inv_send; [exact H'|done..|apply Hlast|done].
  - destruct (ports c !! sid) as [p|] eqn:Hp; [|done]. cbn [mbind option_bind].
    destruct (reservations p !! i) as [n|] eqn:Hn; [|done]. cbn [mbind option_bind]. intros [= <-].
    apply (Hport sid p Hp _ (wakes c)); [done..|]. intros st H. by apply stream_inv_unreserve.
  - destruct (ports c !! sid) as [p|] eqn:Hp; [|done]. cbn [mbind option_bind].
    destruct (body_sender p); [|done]. intros [= <-]. apply (Hport sid p Hp); [done|done|apply Hmore|].
    intros st H'. eapply stream_inv_body_done; [exact H'|done..|apply Hlast|done].
  - destruct (ports c !! sid) as [p|] eqn:Hp; [|done]. cbn [mbind option_bind].
    destruct (delivery_receiver p); cbn [negb]; [|done]. destruct (delivery p) as [|e rest] eqn:Hd.
    + case_bool_decide as Hl; [done|]. intros [= <-]. apply dead_port_sound; [by apply eq_None_not_Some|done].
    + intros E. pose proof (recv_sound B [] [] c sid e rest p Hs Hp Hd) as H. by destruct e; injection E as <-.
  - destruct (ports c !! sid) as [p|] eqn:Hp; [|done]. cbn [mbind option_bind].
    destruct (rx_terminal p); intros [= <-]; [done|]. split; [|by apply credit_user].
    eapply coord_inv_user; [done|apply global_inv_inputs, Hinv|done|set_solver|]. intros st p' _ Hp' Hs'.
    eapply stream_inv_terminal; [exact Hs'|done..|]. cbn. apply bool_decide_eq_true. set_solver.
  - intros [= <-]. by apply drop_reader_sound.
  - intros [= <-]. split; [by apply push_command_inv|]. by apply push_command_credit.
Qed.

Section Loop.
Context {SO : StreamOrder} (K : KeepaliveConfig).

Lemma on_select_spec B e c : sound B [] [] c -> step_spec B (on_select K e c).
Proof.
  intros Hs. destruct e as [data| |refusal ended|requester| | | |now]; cbn [on_select].
  - pose proof (handle_read_spec B [] data _ (sound_resolve _ _ _ AAccepted _ Hs)) as H. unfold cspec in H.
    destruct (handle_read data _) as [c' [[]|e|]]; [|done..]. apply sound_keepalive; [done|by eapply sound_nonce].
  - done.
  - unfold step_spec. destruct (classify_carrier_tls_alert refusal ended Reader c) as [c' [r|]]; done.
  - destruct (commands c) as [|cmd rest] eqn:Hc; [done|]. by apply on_command_spec.
  - by apply step_handler, body_ready_spec.
  - destruct (cancels c) as [|sid rest] eqn:Hx; [done|]. by apply step_handler, cancel_spec.
  - destruct (writer_events c) as [|[|[e|]] rest] eqn:He; [done|by apply drained_sound|done|done].
  - by apply step_handler, handle_keepalive_spec.
Qed.

(** After [flush_pending_deliveries] events only wait for room. *)
Lemma flush_pending_spec B c :
  sound B [] [] c ->
  cspec flush_pending_deliveries c (fun _ c' => sound B [] [] c' /\ forall i, flushed_at c' i).
Proof.
  intros Hs. unfold cspec, flush_pending_deliveries.
  set (l := filter _ _).
  assert (H : cspec (for_each l flush_one) c (fun _ c' => sound B [] [] c' /\ forall i, i ∉ [] -> flushed_at c' i)).
  - apply (cspec_for_each l _ (fun l c => sound B [] [] c /\ forall i, i ∉ l -> flushed_at c i)).
    + clear. intros sid l c [[Hinv Hcr] Hfl]. eapply cspec_mono; [by apply flush_one_spec|].
      intros [] c' (Hs & Hf & Hsame). split; [done|]. intros i Hi. destruct (decide (i = sid)) as [->|Hne]; [done|].
      destruct (Hsame i Hne) as [Es Ep]. intros st p. rewrite Es, Ep. apply Hfl. set_solver.
    + split; [done|]. intros i Hi st p Hst Hp Hne. exfalso. apply Hi, list_elem_of_filter. split.
      * unfold has_pending. rewrite Hst. by destruct (pending_delivery st).
      * rewrite stream_order_perm. apply list_elem_of_fmap. exists (i, st). split; [done|]. by apply elem_of_map_to_list.
  - eapply cspec_mono; [exact H|]. intros [] c' [? Hf]. split; [done|]. intros i. apply Hf. set_solver.
Qed.

Lemma same_flow_flushed c c' i : same_flow c c' -> flushed_at c i -> flushed_at c' i.
Proof.
  intros [_ _ Hst Hp _] Hf st' p' Hst' Hp' Hne. specialize (Hst i). specialize (Hp i).
  rewrite Hst' in Hst. rewrite Hp' in Hp. destruct (cstreams c !! i) as [st|] eqn:E; [|done].
  destruct (ports c !! i) as [p|] eqn:E'; [|done]. injection Hst as Hst. injection Hp as Hp. rewrite Hp.
  apply (Hf st p E E'). by rewrite <- Hst.
Qed.

(** ** Runs *)

(** A reader whose queue has room has told the coordinator. *)
Definition settled (c : Coordinator) : Prop :=
  pumped c /\ forall i, flushed_at c i \/ exists n, Consume i n ∈ commands c.

Definition world_inv (B : Z) (c : Coordinator) : Prop :=
  running c = true -> sound B [] [] c /\ settled c.

Lemma loop_tail_spec B c :
  sound B [] [] c ->
  cspec (_ ← flush_pending_deliveries; pump_ready) c (fun _ c' => sound B [] [] c' /\ settled c').
Proof.
  intros Hs. apply cspec_bind. eapply cspec_mono; [by apply flush_pending_spec|]. intros [] c2 [[Hi Hcr] Hf].
  eapply cspec_mono; [by apply pump_ready_spec|]. intros [] c3 (Hi3 & Hsf & Hp).
  split; [split; [done|by eapply same_flow_credit]|]. split; [done|]. intros i. left. by eapply same_flow_flushed.
Qed.

Lemma coord_step_inv B e v r c :
  world_inv B c -> running c = true -> exists c', coord_step K e v r c = Some c' /\ world_inv B c'.
Proof.
  intros Hw Hrun. destruct (Hw Hrun) as [Hs _]. unfold coord_step.
  pose proof (on_select_spec B e c Hs) as H. destruct (on_select K e c) as [c1 [[]|x|]]; cbn in H; [..|done|done].
  - pose proof (loop_tail_spec B c1 H) as Hm. unfold cspec in Hm. destruct ((_ ← flush_pending_deliveries; pump_ready) c1) as [c2 [[]|x|]]; [..|done].
    + exists c2. split; [done|]. by intros _.
    + eexists. split; [done|]. intros Hr. unfold teardown in Hr. by destruct (read_verdict_before_teardown _ _ _).
  - by eexists.
  - eexists. split; [done|]. intros Hr. unfold teardown in Hr. by destruct (read_verdict_before_teardown _ _ _).
Qed.

Lemma settled_ext c c' :
  settled c -> ready c' = ready c -> inflight c' = inflight c -> cstreams c' = cstreams c ->
  (forall cmd, cmd ∈ commands c -> cmd ∈ commands c') ->
  (forall i, delivery <$> ports c' !! i = delivery <$> ports c !! i \/ cstreams c !! i = None \/
             exists n, Consume i n ∈ commands c') ->
  settled c'.
Proof.
  intros [Hp Hf] Hr Hi Hs Hc Hd. split; [unfold pumped, has_upload_room; by rewrite Hr, Hi|]. intros i.
  destruct (Hf i) as [Hfi|[n Hn]]; [|right; eauto]. destruct (Hd i) as [Hdi|[Hn|Hn]]; [..|by right]; left;
    intros st p'; rewrite Hs; [|congruence].
  intros Hst Hp' Hne. rewrite Hp' in Hdi. destruct (ports c !! i) as [p|] eqn:E; [|done]. injection Hdi as Hdi.
  rewrite Hdi. by apply (Hfi st p).
Qed.

Lemma user_step_settled B e c c' :
  sound B [] [] c -> settled c -> user_step e c = Some c' -> settled c' /\ running c' = running c.
Proof.
  intros Hs Hset.
  assert (Hport : forall sid f cs ws xs, (forall p, delivery (f p) = delivery p) ->
    (forall cmd, cmd ∈ commands c -> cmd ∈ cs) -> settled (set_inputs (on_port sid f c) cs ws xs)).
  { intros sid f cs ws xs Hf Hcs. apply (settled_ext c); try done. intros i. left. cbn. by apply fmap_alter_same. }
  assert (Hpush : forall cmd, settled (push_command cmd c)).
  { intros cmd. apply (settled_ext c); try done; [set_solver|auto]. }
  destruct e as [i|sid n|sid i bytes|sid i|sid|sid|sid|sid|]; cbn [user_step].
  9: by intros [= <-]. 1: by intros [= <-].
  7:{ intros [= <-]. unfold drop_reader. destruct (ports c !! sid); [|done]. split; [|done]. by apply Hport. }
  all: destruct (ports c !! sid) as [p|] eqn:Hp; [|done]; cbn [mbind option_bind].
  - destruct (_ && body_sender p) eqn:E; [|done]. intros [= <-]. split; [by apply (Hport sid _ (commands c))|done].
  - destruct (reservations p !! i) as [n|] eqn:Hn; [|done]. cbn [mbind option_bind]. repeat case_match; intros [= <-];
      (split; [by apply (Hport sid _ (commands c))|done]).
  - destruct (reservations p !! i) as [n|] eqn:Hn; [|done]. intros [= <-]. split; [by apply (Hport sid _ (commands c))|done].
  - destruct (body_sender p); [|done]. intros [= <-]. split; [by apply Hport|done].
  - destruct (delivery_receiver p); cbn [negb]; [|done]. destruct (delivery p) as [|e rest] eqn:Hd.
    { case_bool_decide; [done|]. intros [= <-]. split; [by apply (Hport sid _ (commands c))|done]. }
    intros E. assert (Hlive : is_stream e = false -> cstreams c !! sid = None).
    { intros He. apply eq_None_not_Some. intros [st Hst]. destruct (ci_stream _ _ _ (proj1 Hs) _ _ Hst) as (p' & Hp' & Hsi).
      rewrite Hp in Hp'. injection Hp' as <-. pose proof (si_plain _ _ _ _ Hsi) as Hpl. rewrite Hd in Hpl.
      apply Forall_cons_1 in Hpl as [Hpl _]. by destruct e. }
    assert (Hoth : forall i, i <> sid -> delivery <$> alter (take_delivery e rest) sid (ports c) !! i = delivery <$> ports c !! i)
      by (intros i Hne; by rewrite lookup_alter_ne).
    destruct e as [ev|h|]; injection E as <-; (split; [|done]); apply (settled_ext c); try done; cbn.
    + set_solver.
    + intros i. destruct (decide (i = sid)) as [->|Hne]; [|left; auto]. right. right. exists (wire_cost ev). set_solver.
    + intros i. destruct (decide (i = sid)) as [->|Hne]; [|left; auto]. right. left. by apply Hlive.
    + intros i. destruct (decide (i = sid)) as [->|Hne]; [|left; auto]. right. left. by apply Hlive.
  - destruct (rx_terminal p); intros [= <-]; [done|]. split; [by apply Hport|done].
Qed.

Definition wopens (e : world_event) : Z := match e with User e => uopens e | _ => 0 end.
Definition world_ok (e : world_event) : Prop := match e with User e => user_ok e | _ => True end.

Lemma user_step_running e c c' : user_step e c = Some c' -> running c' = running c.
Proof.
  destruct e; cbn [user_step]; try (unfold drop_reader; repeat case_match; by intros [= <-]).
  all: destruct (ports c !! sid) as [p|]; [|done]; cbn [mbind option_bind].
  all: try (destruct (reservations p !! i); [|done]; cbn [mbind option_bind]).
  all: repeat case_match; try done; by intros [= <-].
Qed.

Lemma writer_step_running e c c' : writer_step e c = Some c' -> running c' = running c.
Proof.
  unfold writer_step. destruct (writer_alive c); [|done]. cbn [negb]. destruct e as [|r ended].
  - destruct (wqueue c); [done|]. intros [= <-]. by rewrite release_all_rest.
  - pose proof (classify_flow r ended Writer c) as ([_ _ _ _ Hr] & _).
    destruct (classify_carrier_tls_alert r ended Writer c). intros [= <-]. by rewrite release_all_rest.
Qed.

Lemma sound_mono B B' W Q c : sound B' W Q c -> 0 <= B <= B' -> sound B W Q c.
Proof.
  intros [[Hg Hs] Hcr] HB. split; [|done]. split; [|done]. destruct Hg. split; try done.
  destruct gi_ids as (n & ? & ? & ? & ?). exists n. split_and!; [done..|lia|lia].
Qed.

Lemma world_step_inv B e c :
  world_inv (wopens e + B) c -> 0 <= B -> world_ok e -> exists c', world_step K e c = Some c' /\ world_inv B c'.
Proof.
  intros Hw HB Hok. destruct e as [e v r|e|e]; cbn [world_step wopens] in *; rewrite ?Z.add_0_l in *.
  - destruct (running c) eqn:Hr; [by apply coord_step_inv|]. exists c. split; [done|]. intros ?. congruence.
  - eexists. split; [done|]. destruct (user_step e c) as [c'|] eqn:E; cbn [default from_option]; intros Hr.
    + cbn in Hr. rewrite (user_step_running _ _ _ E) in Hr. destruct (Hw Hr) as [Hs Hset].
      split; [by eapply user_step_sound|]. by eapply user_step_settled.
    + destruct (Hw Hr) as [Hs Hset]. split; [|done]. eapply sound_mono; [exact Hs|]. destruct e; cbn; lia.
  - eexists. split; [done|]. destruct (writer_step e c) as [c'|] eqn:E; cbn [default from_option]; [|done].
    intros Hr. cbn in Hr. rewrite (writer_step_running _ _ _ E) in Hr. destruct (Hw Hr) as [Hs [Hp Hf]].
    destruct (writer_step_sound _ _ _ _ _ _ Hs E) as (Hs' & Hflow & Hrd & Hin). split; [done|]. split.
    + unfold pumped, has_upload_room. cbn. by rewrite Hrd, Hin.
    + intros i. destruct (sf_inputs _ _ Hflow) as [Hcmd _]. destruct (Hf i) as [?|[n Hn]]; [left|right].
      * by eapply same_flow_flushed.
      * exists n. cbn. by rewrite Hcmd.
Qed.

(** How many streams a run opens at most. *)
Definition opens (evs : list world_event) : Z := zsum wopens evs.

Lemma world_run_inv B evs : forall c,
  world_inv (opens evs + B) c -> 0 <= B -> Forall world_ok evs ->
  exists c', world_run K evs c = Some c' /\ world_inv B c'.
Proof.
  induction evs as [|e evs IH]; intros c Hw HB Hok; cbn [world_run]; [eauto|].
  apply Forall_cons_1 in Hok as [He Hok]. unfold opens in Hw. rewrite zsum_cons in Hw.
  assert (0 <= opens evs).
  { apply zsum_nonneg, list.Forall_forall. intros x _. destruct x as [| []|]; done. }
  destruct (world_step_inv (opens evs + B) e c) as (c1 & -> & H1); [|lia|done|by apply IH].
  by rewrite Z.add_assoc.
Qed.

Lemma world_inv_new B : 0 <= B <= 2 ^ 31 - 1 -> world_inv B coordinator_new.
Proof.
  intros HB _. split; [split; [split|]|].
  - split; cbn; try done.
    + exists 0. split_and!; [done..|lia|]. change (count is_open []) with 0. lia.
    + split; constructor.
  - intros sid st H. cbn in H. by rewrite lookup_empty in H.
  - split; cbn; try done.
    + intros sid [x Hx]. by rewrite lookup_empty in Hx.
    + by intros sid n _ ?%not_elem_of_nil.
  - split; [done|]. intros i. left. intros st p H. cbn in H. by rewrite lookup_empty in H.
Qed.

(** Every state a run from the start reaches. *)
Lemma world_reach evs :
  opens evs <= 2 ^ 31 - 1 -> Forall world_ok evs ->
  exists c, world_run K evs coordinator_new = Some c /\ world_inv 0 c.
Proof.
  intros Ho Hok. apply world_run_inv; [|done|done]. apply world_inv_new. split; [|lia].
  assert (0 <= opens evs); [|lia]. apply zsum_nonneg, list.Forall_forall. intros x _. destruct x as [| []|]; done.
Qed.

(** ** The requests a run opens, in order *)

Definition asked_by (e : world_event) : list OpenStreamInput :=
  match e with User (UOpen i) => [i] | _ => [] end.
Definition asked (evs : list world_event) : list OpenStreamInput := concat (asked_by <$> evs).

Lemma user_step_numbered os e c c' :
  user_step e c = Some c' -> numbered os c -> numbered (os ++ asked_by (User e)) c'.
Proof.
  intros H Hn. destruct e as [i|sid n|sid i bytes|sid i|sid|sid|sid|sid|]; cbn [user_step asked_by] in *; rewrite ?app_nil_r.
  { injection H as <-. by apply (numbered_push os c (OpenStream i)). }
  all: try (destruct (ports c !! sid) as [p|]; [cbn [mbind option_bind] in H|done]).
  - case_match; [|done]. injection H as <-. eapply numbered_kept; [|exact Hn]. auto with kept.
  - destruct (reservations p !! i) as [n|]; [cbn [mbind option_bind] in H|done].
    repeat (case_match; [done || (injection H as <-; eapply numbered_kept; [|exact Hn]; auto with kept)|]).
    injection H as <-. eapply numbered_kept; [|exact Hn]. auto with kept.
  - destruct (reservations p !! i) as [n|]; [cbn [mbind option_bind] in H|done].
    injection H as <-. eapply numbered_kept; [|exact Hn]. auto with kept.
  - case_match; [|done]. injection H as <-. eapply numbered_kept; [|exact Hn]. auto with kept.
  - destruct (negb _); [done|]. destruct (delivery p) as [|ev rest].
    + case_match; [done|]. injection H as <-. eapply numbered_kept; [|exact Hn]. auto with kept.
    + destruct ev as [ev| |]; injection H as <-; [|eapply numbered_kept; [|exact Hn]; auto with kept..].
      rewrite <- (app_nil_r os). apply (numbered_push os _ (Consume sid (wire_cost ev))).
      eapply numbered_kept; [|exact Hn]. auto with kept.
  - case_match; injection H as <-; [done|]. eapply numbered_kept; [|exact Hn]. auto with kept.
  - injection H as <-. eapply numbered_kept; [|exact Hn]. auto with kept.
  - injection H as <-. rewrite <- (app_nil_r os). by apply (numbered_push os c Shutdown).
Qed.

Lemma writer_step_kept e c c' : writer_step e c = Some c' -> kept c c'.
Proof.
  unfold writer_step. destruct (negb _); [done|]. destruct e as [|r ended].
  - destruct (wqueue c) as [|pkt rest]; [done|]. intros [= <-]. eapply kept_trans; [|apply kept_release_all]. auto with kept.
  - pose proof (kept_classify r ended Writer c) as Hk. destruct (classify_carrier_tls_alert r ended Writer c) as [c1 x].
    cbn in Hk. intros [= <-]. eapply kept_trans; [|apply kept_release_all]. eapply kept_trans; [exact Hk|]. auto with kept.
Qed.

Lemma handler_numbered os m c : keeps m -> numbered os c -> numbered os (fst (handler m c)).
Proof. intros Hm Hn. unfold handler. specialize (Hm c). destruct (m c). by eapply numbered_kept. Qed.

Lemma on_command_numbered B os requester cmd rest c :
  sound B [] [] c -> commands c = cmd :: rest -> numbered os c ->
  numbered os (fst (on_command requester cmd (set_inputs c rest (wakes c) (cancels c)))).
Proof.
  intros [Hinv _] Hc Hn. destruct cmd as [i|sid n|].
  2-3: eapply (numbered_other _ _ _ _ Hc) in Hn; [|done].
  3: done.
  2: by apply handler_numbered; [apply keeps_consume|].
  destruct (open_global B c i rest (ci_global _ _ _ Hinv) Hc) as (_ & _ & H0 & Hb).
  pose proof (numbered_open os c i rest Hc H0 Hb Hn) as Ho. cbn [on_command].
  destruct (open_stream_on_carrier i _) as [c1 sid]. cbn [fst] in Ho.
  pose proof (keeps_pump_loop (S (length (ready c1) + Z.to_nat (WRITER_QUEUE - inflight c1))) c1) as Hp. fold (pump_ready c1) in Hp.
  destruct (pump_ready c1) as [c2 [[]|e|]]; cbn [fst] in *; [|by eapply numbered_kept..].
  eapply numbered_kept in Ho; [|exact Hp]. destruct requester; [done|].
  apply handler_numbered; [apply keeps_reset|]. eapply numbered_kept; [apply kept_drop_reader|done].
Qed.

Lemma on_select_numbered B os e c :
  sound B [] [] c -> numbered os c -> numbered os (fst (on_select K e c)).
Proof.
  intros Hs Hn. destruct e as [data| |r ended|requester| | | |now]; cbn [on_select].
  - pose proof (keeps_after _ c _ (keeps_handle_read data) (kept_resolve AAccepted c)) as Hk.
    destruct (handle_read data (resolve AAccepted c)) as [c1 [[]|x|]]; cbn [fst] in *; [|by eapply numbered_kept..].
    eapply numbered_kept; [|exact Hn]. eapply kept_trans; [exact Hk|]. auto with kept.
  - eapply numbered_kept; [apply kept_resolve|done].
  - pose proof (kept_classify r ended Reader c) as Hk. destruct (classify_carrier_tls_alert r ended Reader c). by eapply numbered_kept.
  - destruct (commands c) as [|cmd rest] eqn:Hc; [done|]. by eapply on_command_numbered.
  - apply handler_numbered; [apply keeps_for_each, keeps_receive_body|]. eapply numbered_kept; [|exact Hn]. auto with kept.
  - destruct (cancels c) as [|sid rest]; [done|]. apply handler_numbered; [apply keeps_reset|].
    eapply numbered_kept; [|exact Hn]. auto with kept.
  - destruct (writer_events c) as [|[|[]] rest]; done.
  - by apply handler_numbered; [apply keeps_handle_keepalive|].
Qed.

Lemma kept_fanout e order : forall c, kept c (fanout e order c).
Proof.
  induction order as [|sid order IH]; intros c; [apply kept_refl|]. cbn. eapply kept_trans; [|apply IH].
  unfold fanout_one. eapply kept_trans; [apply kept_try_send|apply kept_remove].
Qed.

Lemma kept_teardown v ended e c : kept c (teardown v ended e c).
Proof.
  unfold teardown. assert (Hk : kept c (fst (read_verdict_before_teardown v ended c))).
  { unfold read_verdict_before_teardown. repeat case_match; cbn [fst]; auto with kept. }
  destruct (read_verdict_before_teardown v ended c) as [c1 x]. cbn [fst] in Hk.
  eapply kept_trans; [exact Hk|]. eapply kept_trans; [apply kept_fanout|]. by apply kept_same.
Qed.

Lemma coord_step_numbered B os e v r c c' :
  sound B [] [] c -> numbered os c -> coord_step K e v r c = Some c' -> numbered os c'.
Proof.
  intros Hs Hn. unfold coord_step. pose proof (on_select_numbered B os e c Hs Hn) as Ho.
  destruct (on_select K e c) as [c1 [[]|x|]]; cbn [fst] in Ho; [| | |done..].
  - assert (Hk : kept c1 (fst ((_ ← flush_pending_deliveries; pump_ready) c1))).
    { apply kept_bind; [intros x; apply keeps_for_each, keeps_flush_one|]. intros _ x. apply keeps_pump_loop. }
    destruct ((_ ← flush_pending_deliveries; pump_ready) c1) as [c2 [[]|x|]]; cbn [fst] in Hk; [| |done]; intros [= <-].
    + by eapply numbered_kept.
    + eapply numbered_kept; [|exact Ho]. eapply kept_trans; [exact Hk|apply kept_teardown].
  - intros [= <-]. eapply numbered_kept; [|exact Ho]. eapply kept_trans; [apply kept_fanout|]. by apply kept_same.
  - intros [= <-]. eapply numbered_kept; [apply kept_teardown|done].
Qed.

Lemma world_step_numbered B os e c c' :
  world_inv B c -> numbered os c -> world_step K e c = Some c' -> numbered (os ++ asked_by e) c'.
Proof.
  intros Hw Hn H. destruct e as [e v r|e|e]; cbn [world_step] in H.
  - cbn [asked_by]. rewrite app_nil_r. destruct (running c) eqn:Hr; [|by injection H as <-].
    by eapply coord_step_numbered; [apply (Hw Hr)|..].
  - injection H as <-. destruct (user_step e c) as [c'|] eqn:E; [by eapply user_step_numbered|].
    destruct e; cbn; rewrite ?app_nil_r; try done.
  - cbn [asked_by]. rewrite app_nil_r. injection H as <-. destruct (writer_step e c) as [c'|] eqn:E; [|done].
    eapply numbered_kept; [by eapply writer_step_kept|done].
Qed.

Lemma world_run_numbered B evs : forall os c c',
  world_inv (opens evs + B) c -> 0 <= B -> Forall world_ok evs -> numbered os c -> world_run K evs c = Some c' ->
  numbered (os ++ asked evs) c'.
Proof.
  induction evs as [|e evs IH]; intros os c c' Hw HB Hok Hn H; cbn [world_run] in H.
  { injection H as <-. by rewrite app_nil_r. }
  apply Forall_cons_1 in Hok as [He Hok]. unfold opens in Hw. rewrite zsum_cons in Hw.
  assert (0 <= opens evs).
  { apply zsum_nonneg, list.Forall_forall. intros x _. destruct x as [| []|]; done. }
  destruct (world_step_inv (opens evs + B) e c) as (c1 & E & H1); [by rewrite Z.add_assoc|lia|done|].
  rewrite E in H. cbn in H. unfold asked. cbn. rewrite app_assoc. eapply IH; [exact H1|done|done| |exact H].
  eapply world_step_numbered; [exact Hw|done|done].
Qed.

(** [evs] lead from the start to [c], and the coordinator still runs. *)
Definition reached (evs : list world_event) (c : Coordinator) : Prop :=
  opens evs < 2 ^ 31 /\ Forall world_ok evs /\ world_run K evs coordinator_new = Some c /\ running c = true.

Lemma reached_inv evs c : reached evs c -> sound 0 [] [] c /\ settled c.
Proof.
  intros (Ho & Hok & Hrun & Hr). destruct (world_reach evs) as (c' & Hrun' & Hw); [lia|done|].
  rewrite Hrun in Hrun'. injection Hrun' as <-. by apply Hw.
Qed.

Lemma reached_numbered evs c : reached evs c -> numbered (asked evs) c.
Proof.
  intros (Ho & Hok & Hrun & _). apply (world_run_numbered 0 evs [] coordinator_new c); try done; [|apply numbered_new].
  apply world_inv_new. split; [|lia].
  assert (0 <= opens evs); [|lia]. apply zsum_nonneg, list.Forall_forall. intros x _. destruct x as [| []|]; done.
Qed.

(** C10. Whatever the peer sends, whatever the users of the streams do and
    however they, the writer and the coordinator interleave, no step panics and
    the run goes on, as long as the run opens fewer than 2^31 streams: the
    arithmetic of windows and ids stays in range, and the pump's loop ends. *)
Theorem carrier_total evs :
  opens evs < 2 ^ 31 -> Forall world_ok evs -> is_Some (world_run K evs coordinator_new).
Proof. intros Ho Hok. destruct (world_reach evs) as (c & -> & _); [lia|done|eauto]. Qed.

(** An upload that waits for credit or for more of its body, or has ended. *)
Definition upload_waits (u : WindowedUpload) : Prop :=
  is_done u = true \/ is_blocked u = true \/
  (head_offset u = len (up_head u) /\ up_body u = [] /\ fed_body_len u < declared_body_len u).

Lemma quiet_waits sid declared bs ss u : upload_ok sid declared bs ss u -> quiet u -> upload_waits u.
Proof.
  intros (Hs & Hd & l & ds & [_ _ Hdecl Hoff _ [Hf Hfd] Hem Hbody _ _ _ _ _ Hclosed _ _] & _ & _). unfold quiet, poll_send, upload_waits.
  unfold usub, checked_sub. replace (head_offset u <=? len (up_head u)) with true by lia. cbn [expect].
  unfold is_done, is_blocked. destruct (up_closed u) eqn:Hc; [auto|]. cbn [negb andb].
  set (av := if len (up_head u) - head_offset u >? 0 then len (up_head u) - head_offset u else len (up_body u)). destruct (Z.gtb_spec av 0) as [Hav|Hav].
  - destruct (Z.eqb_spec (send_credit u) 0) as [H0|H0].
    + intros _. right. left. cbn. subst av. destruct (Z.gtb_spec (len (up_head u) - head_offset u) 0); lia.
    + intros H. exfalso. injection H as _ H. by destruct (encode _).
  - destruct ((fed_body_len u =? declared_body_len u) && (emitted_body_len u =? declared_body_len u)) eqn:E.
    + intros H. by injection H.
    + intros _. right. right. subst av. destruct (Z.gtb_spec (len (up_head u) - head_offset u) 0); [lia|].
      assert (len (up_body u) = 0) as Hl by lia. split_and!; [lia|by apply length_zero_iff_nil, Nat2Z.inj|].
      rewrite Hbody, length_drop in Hl. lia.
Qed.

(** C13. Uploads never stall.  Between two turns of the coordinator's loop, if
    the writer's queue has room for uploads, every live stream's upload has
    ended, waits for credit of the peer, or has put all its sender gave it on
    the queue; and once no wake of a sender is outstanding, no body chunk is
    left in a channel and no sender that stopped short still has its stream. *)
Theorem uploads_never_stall evs c sid st p :
  reached evs c -> cstreams c !! sid = Some st -> ports c !! sid = Some p ->
  (has_upload_room c = true -> upload_waits (upload st)) /\
  (wakes c = [] -> body_chunks p = [] /\ (body_sender p = false -> sdeclared st <= received_body_len st)).
Proof.
  intros Hr Hst Hp. destruct (reached_inv _ _ Hr) as [[Hinv _] [Hpump _]].
  destruct (ci_stream _ _ _ Hinv _ _ Hst) as (p' & Hp' & Hs). rewrite Hp in Hp'. injection Hp' as <-. destruct Hs. split.
  - intros Hroom. destruct si_upload as (bs & ss & Hu & _). eapply quiet_waits; [exact Hu|]. apply si_quiet.
    rewrite si_ready. cbn. rewrite (Hpump Hroom). by apply bool_decide_eq_false, not_elem_of_nil.
  - intros Hw. cbn in si_woken, si_short. rewrite Hw in si_woken, si_short.
    assert (Hno : bool_decide (sid ∈ []) <> true) by (rewrite bool_decide_eq_true; apply not_elem_of_nil).
    split; [|intros Hb]; [|apply Z.nlt_ge; tauto]. by destruct (body_chunks p); [|destruct Hno; apply si_woken].
Qed.

(** C30. The body bytes of a stream are bounded by its budget: what its sender
    may still reserve, what it has reserved, what waits in the channel, in the
    upload's stage and in the writer's queue add up to
    [UPLOAD_BODY_STAGE_CAPACITY], and no part is negative; and leases are worth
    what they cover: each chunk in the channel holds one of its own length, and
    the leases of the stage add up to the bytes staged. *)
Theorem body_budget evs c sid st p :
  reached evs c -> cstreams c !! sid = Some st -> ports c !! sid = Some p ->
  permits p + zsum id (reservations p) + zsum (fun ch => len (chunk_bytes ch)) (body_chunks p)
    + len (up_body (upload st)) + leased sid (wqueue c) = UPLOAD_BODY_STAGE_CAPACITY /\
  0 <= permits p /\ 0 <= zsum id (reservations p) /\ 0 <= leased sid (wqueue c) /\
  Forall (fun ch => chunk_lease ch = mkBodyLease sid (len (chunk_bytes ch))) (body_chunks p) /\
  Forall (fun l => lease_of l = sid /\ 0 <= lease_len l) (staged_leases st) /\
  zsum lease_len (staged_leases st) = len (up_body (upload st)).
Proof.
  intros Hr Hst Hp. destruct (reached_inv _ _ Hr) as [[Hinv _] _].
  destruct (ci_stream _ _ _ Hinv _ _ Hst) as (p' & Hp' & Hs). rewrite Hp in Hp'. injection Hp' as <-. destruct Hs.
  rewrite <- si_body. unfold held_by_port in si_budget. cbn in si_leased, si_budget. destruct si_permits as [Hp0 Hr0].
  assert (Hc : zsum (fun ch => lease_len (chunk_lease ch)) (body_chunks p) = zsum (fun ch => len (chunk_bytes ch)) (body_chunks p)).
  { clear -si_chunks. induction si_chunks as [|ch l Hch _ IH]; [done|]. rewrite !zsum_cons, IH, Hch. done. }
  rewrite <- Hc. split_and!; [clear -si_budget; lia|done| |done..]. apply zsum_nonneg. exact Hr0.
Qed.

(** No turn of the loop panics, and none ends the carrier over its own
    bookkeeping: leases never run short and a stage never overflows, whatever
    bytes the peer sends and whatever chunks the senders queued. *)
Theorem carrier_errors evs c e :
  reached evs c ->
  match on_select K e c with
  | (c', Ok StepContinue) =>
      match (_ ← flush_pending_deliveries; pump_ready) c' with
      | (_, Ok _) => True
      | (_, Err x) => tolerated x
      | (_, Panic) => False
      end
  | (_, Ok StepStop) => True
  | (_, Ok (StepError x)) => tolerated x
  | (_, Err _) | (_, Panic) => False
  end.
Proof.
  intros Hr. destruct (reached_inv _ _ Hr) as [Hs _]. pose proof (on_select_spec 0 e c Hs) as H.
  destruct (on_select K e c) as [c1 [[]|x|]]; cbn in H; try done.
  pose proof (loop_tail_spec 0 c1 H) as Hm. unfold cspec in Hm.
  by destruct ((_ ← flush_pending_deliveries; pump_ready) c1) as [c2 [[]|x|]].
Qed.

(** Receive credit is accounted for exactly: of a live stream's window,
    what the peer may still send, what is granted back with the next WINDOW,
    what its assembler still parses, and the bytes of the events that its reader
    has not consumed (undelivered, in its queue, or as a [Consume] under way)
    make up [INITIAL_WINDOW]. *)
Theorem carrier_credit evs c sid dst :
  reached evs c -> streams (cdemux c) !! sid = Some dst ->
  exists st p, cstreams c !! sid = Some st /\ ports c !! sid = Some p /\
    credit (srecv_window dst) + unacked (srecv_window dst) + pending_body_wire (assembler dst)
      + dcost (pending_delivery st) + dcost (delivery p) + ccost sid (commands c) = INITIAL_WINDOW /\
    0 <= credit (srecv_window dst) /\ 0 <= unacked (srecv_window dst) < RECEIVE_GRANT_THRESHOLD.
Proof.
  intros Hr Hd. destruct (reached_inv _ _ Hr) as [[Hinv Hcr] _].
  destruct (cr_known _ _ Hcr sid) as [st Hst]; [eauto|]. destruct (ci_stream _ _ _ Hinv _ _ Hst) as (p & Hp & _).
  exists st, p. split_and!; [done|done|..].
  - pose proof (cr_books _ _ Hcr _ _ _ _ Hd Hst Hp) as H. unfold held, outstanding, owed, zsum in H. cbn in H. lia.
  - apply (so_window _ (cr_ok _ _ Hcr _ _ Hd)).
  - apply (so_window _ (cr_ok _ _ Hcr _ _ Hd)).
  - apply (so_window _ (cr_ok _ _ Hcr _ _ Hd)).
Qed.

(** Nothing is kept from a reader without need: events of a live stream
    that are not yet in its reader's queue wait because the queue is full, or
    because the reader has only just made room and its [Consume] is under way.
    A reader whose queue is closed, or that was cancelled, has its stream's reset
    under way. *)
Theorem deliveries_wait_for_room evs c sid st p :
  reached evs c -> cstreams c !! sid = Some st -> ports c !! sid = Some p ->
  (pending_delivery st <> [] -> STREAM_QUEUE <= len (delivery p) \/ exists n, Consume sid n ∈ commands c) /\
  (delivery_receiver p = false \/ rx_terminal p = true -> sid ∈ cancels c).
Proof.
  intros Hr Hst Hp. destruct (reached_inv _ _ Hr) as [[Hinv _] [_ Hf]].
  destruct (ci_stream _ _ _ Hinv _ _ Hst) as (p' & Hp' & Hs). rewrite Hp in Hp'. injection Hp' as <-. split.
  - intros Hne. destruct (Hf sid) as [H|H]; [left|by right]. by apply (H st p).
  - intros H. assert (Hx : bool_decide (sid ∈ cancels c) = true); [|by apply bool_decide_eq_true in Hx].
    apply (si_terminal _ _ _ _ Hs). destruct H; [by apply (si_reader _ _ _ _ Hs)|done].
Qed.


End Loop.

(** ** Keepalive *)

(** Ticks, the first not before [t] and each at least [d] after the one before. *)
Fixpoint spaced (d t : Z) (nows : list Z) : Prop :=
  match nows with
  | [] => True
  | now :: nows => t <= now /\ spaced d (now + d) nows
  end.

(** Room for [n] more packets in the writer's queue. *)
Definition room_for (n : Z) (c : Coordinator) : Prop :=
  writer_alive c = true /\ inflight c + n <= WRITER_QUEUE /\ len (wqueue c) + n <= WRITER_QUEUE.

Lemma send_probe_ok k now n c :
  room_for (1 + n) c -> 0 <= n ->
  exists c' nonce, send_probe k now c = (c', Ok tt) /\ room_for n c' /\ missed c' = missed c /\
    outstanding_probe c' = Some (mkProbe nonce (now + kdeadline k)).
Proof.
  intros (Ha & Hi & Hq) Hn. unfold send_probe.
  rewrite encode_bind by apply wf_probe. unfold send_writer, has_room. cbn [inflight set_keepalive].
  replace (inflight c <? WRITER_QUEUE) with true by lia. cbn [negb]. cbn [writer_alive set_keepalive]. rewrite Ha. cbn [negb].
  cbn [wqueue set_keepalive]. replace (WRITER_QUEUE <=? len (wqueue c)) with false by lia.
  do 2 eexists. split_and!; [done| |done|done]. split_and!; [done|cbn; lia|]. cbn. rewrite length_app. cbn. lia.
Qed.

Lemma ticks_expire k nows : forall m c p,
  0 <= m < max_missed k -> max_missed k < 2 ^ 32 -> missed c = m -> outstanding_probe c = Some p ->
  room_for (len nows) c -> spaced (kdeadline k) (pdeadline p) nows ->
  exists c', for_each nows (handle_keepalive k) c
             = (c', if m + len nows <? max_missed k then Ok tt else Err KeepaliveFailed).
Proof.
  induction nows as [|now nows IH]; intros m c p Hm Hmax Hc Hp Hroom Hsp; cbn [for_each].
  - exists c. replace (m + len [] <? max_missed k) with true by (cbn; lia). done.
  - destruct Hsp as [Hnow Hsp]. unfold mbind, CM_bind, handle_keepalive at 1. rewrite Hp.
    replace (now <? pdeadline p) with false by lia. rewrite Hc. unfold saturating_add.
    replace (Z.min (2 ^ 32 - 1) (m + 1)) with (m + 1) by lia. cbn [length] in *.
    destruct (Z.leb_spec (max_missed k) (m + 1)).
    + eexists. by replace (m + Z.of_nat (S (length nows)) <? max_missed k) with false by lia.
    + destruct (send_probe_ok k now (len nows) (set_keepalive c (Some p) (m + 1) (next_nonce c)))
        as (c1 & nonce & -> & Hr1 & Hm1 & Hp1); [|lia|].
      { replace (1 + len nows) with (Z.of_nat (S (length nows))) by lia. exact Hroom. }
      destruct (IH (m + 1) c1 _ ltac:(lia) Hmax Hm1 Hp1 Hr1 Hsp) as [c' ->].
      exists c'. by replace (m + 1 + len nows) with (m + Z.of_nat (S (length nows))) by lia.
Qed.

(** A silent peer is found out after exactly [max_missed] unanswered probes,
    neither sooner nor later: of ticks that come at least a probe's deadline
    apart with nothing read in between, the first [max_missed] leave the carrier
    up, while the next one ends it. *)
Theorem keepalive_bound k nows c now0 :
  0 < max_missed k < 2 ^ 32 -> missed c = 0 -> outstanding_probe c = None ->
  room_for (len nows) c -> spaced (kdeadline k) now0 nows ->
  exists c', for_each nows (handle_keepalive k) c
             = (c', if len nows <=? max_missed k then Ok tt else Err KeepaliveFailed).
Proof.
  intros Hmax Hm Hp Hroom Hsp. destruct nows as [|now nows]; cbn [for_each].
  { exists c. replace (len [] <=? max_missed k) with true by (cbn; lia). done. }
  destruct Hsp as [_ Hsp]. unfold mbind, CM_bind, handle_keepalive at 1. rewrite Hp. cbn [length] in *.
  destruct (send_probe_ok k now (len nows) c) as (c1 & nonce & -> & Hr1 & Hm1 & Hp1); [|lia|].
  { replace (1 + len nows) with (Z.of_nat (S (length nows))) by lia. exact Hroom. }
  rewrite Hm in Hm1. destruct (ticks_expire k nows 0 c1 _ ltac:(lia) ltac:(lia) Hm1 Hp1 Hr1 Hsp) as [c' ->].
  exists c'. replace (0 + len nows <? max_missed k) with (Z.of_nat (S (length nows)) <=? max_missed k); [done|].
  apply eq_bool_prop_intro. rewrite !Is_true_true. lia.
Qed.

(** ** A concrete run *)

#[local] Instance key_order : StreamOrder.
Proof. refine {| stream_order := fun m => (map_to_list m).*1 |}. done. Defined.

Definition ex_keepalive : KeepaliveConfig := mkKeepalive 25 10 3.
Definition ex_request : OpenStreamInput := mkOpenInput (lit "POST") (lit "/x") [] 5.
Definition ex_response : list byte :=
  wire (mkFrame 1 FLAG_DATA (blit "HTTP/1.1 200 OK" ++ bCRLF2 ++ blit "hi"))
  ++ concat (replicate 20 (wire (mkFrame 1 FLAG_DATA (blit "a")))).

(** A stream is opened, its sender sends the body, the writer writes a frame,
    a response of more events than fit the reader's queue arrives and the reader
    takes its head. *)
Definition ex_run : list world_event :=
  [User (UOpen ex_request); Coord (CommandReady true) VEof false; User (UReserve 1 6);
   User (USend 1 0 (blit "hello")); Coord BodyReady VEof false; WriterTask WriterWrites;
   Coord WriterReady VEof false; Coord (ReadBytes ex_response) VEof false; User (URecv 1)].

Definition ex_state : Coordinator := default coordinator_new (world_run ex_keepalive ex_run coordinator_new).
Definition ex_stream : StreamState :=
  default (mkStreamState (upload_new 0 [] 0) 0 0 [] [] true) (cstreams ex_state !! 1).
Definition ex_port : Port := default port_new (ports ex_state !! 1).
Definition ex_demux : CarrierStream := default (mkCarrierStream sa_new window_new) (streams (cdemux ex_state) !! 1).

Lemma ex_reached : reached ex_keepalive ex_run ex_state.
Proof.
  split_and!; [done|repeat constructor; done|vm_compute; reflexivity|vm_compute; reflexivity].
Qed.
Lemma ex_lookups :
  cstreams ex_state !! 1 = Some ex_stream /\ ports ex_state !! 1 = Some ex_port /\
  streams (cdemux ex_state) !! 1 = Some ex_demux.
Proof. split_and!; vm_compute; reflexivity. Qed.

Lemma carrier_total_witness : is_Some (world_run ex_keepalive ex_run coordinator_new).
Proof. apply carrier_total; [done|]. repeat constructor; done. Defined.

Lemma uploads_never_stall_witness : upload_waits (upload ex_stream) /\ body_chunks ex_port = [].
Proof.
  destruct ex_lookups as (Hs & Hp & _).
  destruct (uploads_never_stall ex_keepalive ex_run ex_state 1 ex_stream ex_port ex_reached Hs Hp) as [H1 H2].
  split; [apply H1; vm_compute; reflexivity|apply H2; vm_compute; reflexivity].
Defined.

Lemma body_budget_witness :
  permits ex_port + zsum id (reservations ex_port) + zsum (fun ch => len (chunk_bytes ch)) (body_chunks ex_port)
    + len (up_body (upload ex_stream)) + leased 1 (wqueue ex_state) = UPLOAD_BODY_STAGE_CAPACITY
  /\ leased 1 (wqueue ex_state) = 5.
Proof.
  destruct ex_lookups as (Hs & Hp & _). split; [|vm_compute; reflexivity].
  apply (body_budget ex_keepalive ex_run ex_state 1 ex_stream ex_port ex_reached Hs Hp).
Defined.

Lemma carrier_errors_witness :
  match on_select ex_keepalive (ReadBytes ex_response) ex_state with
  | (_, Ok StepContinue) => True | (_, Ok StepStop) => True | (_, Ok (StepError x)) => tolerated x | _ => False
  end.
Proof.
  pose proof (carrier_errors ex_keepalive ex_run ex_state (ReadBytes ex_response) ex_reached) as H.
  by destruct (on_select ex_keepalive (ReadBytes ex_response) ex_state) as [c [[]|e|]].
Defined.

Lemma carrier_credit_witness :
  exists st p, cstreams ex_state !! 1 = Some st /\ ports ex_state !! 1 = Some p /\
    credit (srecv_window ex_demux) + unacked (srecv_window ex_demux) + pending_body_wire (assembler ex_demux)
      + dcost (pending_delivery st) + dcost (delivery p) + ccost 1 (commands ex_state) = INITIAL_WINDOW.
Proof.
  destruct ex_lookups as (_ & _ & Hd).
  destruct (carrier_credit ex_keepalive ex_run ex_state 1 ex_demux ex_reached Hd) as (st & p & Hs & Hp & H & _). eauto.
Defined.

Lemma deliveries_wait_for_room_witness :
  pending_delivery ex_stream <> [] /\
  (STREAM_QUEUE <= len (delivery ex_port) \/ exists n, Consume 1 n ∈ commands ex_state).
Proof.
  destruct ex_lookups as (Hs & Hp & _).
  assert (Hne : pending_delivery ex_stream <> []) by (vm_compute; discriminate). split; [done|].
  by apply (deliveries_wait_for_room ex_keepalive ex_run ex_state 1 ex_stream ex_port ex_reached Hs Hp).
Defined.


Lemma keepalive_bound_witness :
  exists c', for_each [25; 50; 75; 100] (handle_keepalive ex_keepalive) coordinator_new = (c', Err KeepaliveFailed).
Proof.
  apply (keepalive_bound ex_keepalive [25; 50; 75; 100] coordinator_new 25); done.
Defined.
