(* ===== verification/Redial.v ===== *)
(** * Dialing carriers ([crates/spl-transport/src/handshake.rs], the status of
    [journal_bridge.rs] and [MuxCarrier] of [journal_bridge_carrier.rs])

    The refusal rule of one credential, the status record the bridge publishes,
    and the slot that holds the current carrier: requests that take it or dial a
    new one under its lock, carriers that are accepted, refused and end, and the
    bridge's shutdown, interleaved at the points where the code awaits or takes
    the status lock.  What a carrier does with its streams is Carrier.v. *)

From S2P Require Import Prelude.

(** ** Refusals ([handshake.rs]) *)

Definition REFUSAL_LIMIT : Z := 7.
(** Five minutes, in nanoseconds. *)
Definition REFUSAL_SPACING : Z := 5 * 60 * 10 ^ 9.

(** The [TransportError]s [classify] tells apart. *)
Inductive DialError :=
| EAccessDenied
| ECertificateUnknown
| ERefused
| EUnknownJournal
| EStopped
| EOther.

Inductive HandshakeFailure :=
| FUnreachable
| FAccessDenied
| FCertificateUnknown
| FRefused
| FUnknownJournal.

(** [HandshakeFailure::classify] *)
Definition classify (e : DialError) : HandshakeFailure :=
  match e with
  | EAccessDenied => FAccessDenied
  | ECertificateUnknown => FCertificateUnknown
  | ERefused => FRefused
  | EUnknownJournal => FUnknownJournal
  | EStopped | EOther => FUnreachable
  end.

Inductive HandshakeStop := StopAccessDenied | RefusalsExhausted.

(** [HandshakeStop::error] *)
Definition stop_error (s : HandshakeStop) : DialError :=
  match s with StopAccessDenied => EAccessDenied | RefusalsExhausted => ERefused end.

Record RefusalTracker := mkTracker {
  refusals : Z;
  last_counted : option Z;
  last_failure : option HandshakeFailure;
  stop : option HandshakeStop
}.
Definition tracker_new : RefusalTracker := mkTracker 0 None None None.

(** [RefusalTracker::accepted] *)
Definition accepted (t : RefusalTracker) : RefusalTracker := mkTracker 0 None None (stop t).

(** [RefusalTracker::latch] and [deny] *)
Definition latch (s : HandshakeStop) (t : RefusalTracker) : RefusalTracker :=
  mkTracker (refusals t) (last_counted t) (last_failure t)
    (match stop t with None => Some s | Some s' => Some s' end).
Definition deny : RefusalTracker -> RefusalTracker := latch StopAccessDenied.

(** Whether a refusal at [now] counts. *)
Definition counts (t : RefusalTracker) (now : Z) : bool :=
  match last_counted t with
  | None => true
  | Some last => REFUSAL_SPACING <=? saturating_sub now last
  end.

(** [RefusalTracker::failed] at instant [now]. *)
Definition failed (f : HandshakeFailure) (now : Z) (t : RefusalTracker) : RefusalTracker :=
  let t := mkTracker (refusals t) (last_counted t) (Some f) (stop t) in
  match f with
  | FAccessDenied => deny t
  | FRefused =>
      if counts t now then
        let n := saturating_add 32 (refusals t) 1 in
        let t := mkTracker n (Some now) (last_failure t) (stop t) in
        if REFUSAL_LIMIT <=? n then latch RefusalsExhausted t else t
      else t
  | FUnreachable | FCertificateUnknown | FUnknownJournal => t
  end.

(** ** Status ([journal_bridge.rs]) *)

Record JournalBridgeStatus := mkStatus {
  listener_active : bool;
  contacted : bool;
  carrier_live : bool;
  terminal_reason : option HandshakeStop;
  s_last_failure : option HandshakeFailure;
  s_refusals : Z;
  active_requests : Z
}.
#[export] Instance stop_eq_dec : EqDecision HandshakeStop.
Proof. solve_decision. Defined.
#[export] Instance failure_eq_dec : EqDecision HandshakeFailure.
Proof. solve_decision. Defined.
#[export] Instance status_eq_dec : EqDecision JournalBridgeStatus.
Proof. solve_decision. Defined.

(** [StatusRecord], with what its broadcast channel was sent. *)
Record StatusRecord := mkRecord {
  snapshot : JournalBridgeStatus;
  current_carrier : option Z;
  tracker : RefusalTracker;
  newest : Z;
  published_events : list JournalBridgeStatus
}.

(** [new_status] *)
Definition new_status : StatusRecord :=
  mkRecord (mkStatus false false false None None 0 0) None tracker_new 0 [].

(** [StatusGuard]: what is done under the lock; its drop sends a changed snapshot. *)
Definition under_lock (f : StatusRecord -> StatusRecord) (s : StatusRecord) : StatusRecord :=
  let s' := f s in
  mkRecord (snapshot s') (current_carrier s') (tracker s') (newest s')
    (if decide (snapshot s' = snapshot s) then published_events s else published_events s ++ [snapshot s']).

(** [StatusRecord::publish_refusals] *)
Definition publish_refusals (s : StatusRecord) : StatusRecord :=
  let v := snapshot s in
  mkRecord (mkStatus (listener_active v) (contacted v) (carrier_live v) (stop (tracker s)) (last_failure (tracker s))
              (refusals (tracker s)) (active_requests v))
    (current_carrier s) (tracker s) (newest s) (published_events s).
Definition set_tracker (t : RefusalTracker) (s : StatusRecord) : StatusRecord :=
  mkRecord (snapshot s) (current_carrier s) t (newest s) (published_events s).
Definition set_carrier (c : option Z) (live : bool) (s : StatusRecord) : StatusRecord :=
  let v := snapshot s in
  mkRecord (mkStatus (listener_active v) (contacted v) live (terminal_reason v) (s_last_failure v) (s_refusals v)
              (active_requests v)) c (tracker s) (newest s) (published_events s).

(** [latch_tls_access_denied] *)
Definition latch_tls_access_denied : StatusRecord -> StatusRecord :=
  under_lock (fun s => publish_refusals (set_tracker (deny (tracker s)) s)).

(** [begin_carrier_attempt] *)
Definition begin_carrier_attempt (s : StatusRecord) : StatusRecord * Z :=
  let s := under_lock (fun s => mkRecord (snapshot s) (current_carrier s) (tracker s) (wrap 64 (newest s + 1))
                                  (published_events s)) s in
  (s, newest s).

(** [record_carrier_accepted] *)
Definition record_carrier_accepted (attempt : Z) : StatusRecord -> StatusRecord :=
  under_lock (fun s => if negb (newest s =? attempt) then s
                       else publish_refusals (set_tracker (accepted (tracker s)) s)).

(** [record_carrier_failure] *)
Definition record_carrier_failure (attempt : Z) (f : HandshakeFailure) (now : Z) : StatusRecord -> StatusRecord :=
  under_lock (fun s => if negb (newest s =? attempt) then s
                       else publish_refusals (set_tracker (failed f now (tracker s)) s)).

(** [mark_carrier_dead] *)
Definition mark_carrier_dead (h : Z) : StatusRecord -> StatusRecord :=
  under_lock (fun s => if bool_decide (current_carrier s = Some h) then set_carrier None false s else s).

Definition set_requests (n : Z) (c : bool) (s : StatusRecord) : StatusRecord :=
  let v := snapshot s in
  mkRecord (mkStatus (listener_active v) c (carrier_live v) (terminal_reason v) (s_last_failure v) (s_refusals v) n)
    (current_carrier s) (tracker s) (newest s) (published_events s).
Definition set_listener (b : bool) (s : StatusRecord) : StatusRecord :=
  let v := snapshot s in
  mkRecord (mkStatus b (contacted v) (carrier_live v) (terminal_reason v) (s_last_failure v) (s_refusals v)
              (active_requests v)) (current_carrier s) (tracker s) (newest s) (published_events s).

(** [ActiveRequestGuard] and [ListenerActiveGuard] *)
Definition request_begins : StatusRecord -> StatusRecord :=
  under_lock (fun s => set_requests (saturating_add 64 (active_requests (snapshot s)) 1) true s).
Definition request_ends : StatusRecord -> StatusRecord :=
  under_lock (fun s => set_requests (saturating_sub (active_requests (snapshot s)) 1) (contacted (snapshot s)) s).
Definition listener_starts : StatusRecord -> StatusRecord := under_lock (set_listener true).
Definition listener_ends : StatusRecord -> StatusRecord := under_lock (set_listener false).

(** ** The carrier slot ([MuxCarrier]) *)

(** Whether the journal accepted a carrier; see Carrier.v. *)
Inductive Outcome := OPending | OAccepted | OFailed.

(** [CarrierHandle] with the guards its two tasks hold. *)
Record CarrierHandle := mkHandle {
  alive : bool;
  attempt_of : Z;
  outcome : Outcome;
  coordinator_runs : bool;
  writer_runs : bool
}.

(** Where a call of [open_stream] is; [n] is the attempt of its loop.
    [Redialing] to [Dialing] hold the slot's lock. *)
Inductive Stage :=
| WaitSlot (n : nat)
| Redialing (n : nat)
| Beginning (n : nat)
| Dialing (n : nat) (attempt : Z)
| Opening (n : nat) (h : Z) (claimed : bool)
| Clearing (n : nat) (h : Z)
| Opened (h : Z)
| Refused (e : DialError)
| Cancelled.

(** [marks] are the guards that have stored [alive = false] and are about to
    mark the status; [dials] and [claims] are the history of dials begun and of
    inputs claimed by a coordinator, by request. *)
Record Mux := mkMux {
  status : StatusRecord;
  slot : option Z;
  holder : option Z;
  handles : gmap Z CarrierHandle;
  next_handle : Z;
  requests : gmap Z Stage;
  marks : list Z;
  dials : list Z;
  claims : list Z
}.
Definition mux_new : Mux := mkMux new_status None None ∅ 0 ∅ [] [] [].

Definition on_status (f : StatusRecord -> StatusRecord) (s : Mux) : Mux :=
  mkMux (f (status s)) (slot s) (holder s) (handles s) (next_handle s) (requests s) (marks s) (dials s) (claims s).
Definition set_slot (h : option Z) (s : Mux) : Mux :=
  mkMux (status s) h (holder s) (handles s) (next_handle s) (requests s) (marks s) (dials s) (claims s).
Definition set_holder (r : option Z) (s : Mux) : Mux :=
  mkMux (status s) (slot s) r (handles s) (next_handle s) (requests s) (marks s) (dials s) (claims s).
Definition set_handles (m : gmap Z CarrierHandle) (s : Mux) : Mux :=
  mkMux (status s) (slot s) (holder s) m (next_handle s) (requests s) (marks s) (dials s) (claims s).
Definition set_stage (r : Z) (g : Stage) (s : Mux) : Mux :=
  mkMux (status s) (slot s) (holder s) (handles s) (next_handle s) (<[r := g]> (requests s)) (marks s) (dials s) (claims s).
Definition set_marks (l : list Z) (s : Mux) : Mux :=
  mkMux (status s) (slot s) (holder s) (handles s) (next_handle s) (requests s) l (dials s) (claims s).
Definition log_dial (r : Z) (s : Mux) : Mux :=
  mkMux (status s) (slot s) (holder s) (handles s) (next_handle s) (requests s) (marks s) (dials s ++ [r]) (claims s).
Definition log_claim (r : Z) (s : Mux) : Mux :=
  mkMux (status s) (slot s) (holder s) (handles s) (next_handle s) (requests s) (marks s) (dials s) (claims s ++ [r]).

Definition terminal (s : Mux) : option HandshakeStop := terminal_reason (snapshot (status s)).
Definition is_alive (h : Z) (s : Mux) : bool := match handles s !! h with Some x => alive x | None => false end.

(** [get_or_dial], once it holds the slot. *)
Definition get_handle (r : Z) (n : nat) (s : Mux) : Mux :=
  match terminal s with
  | Some reason => set_stage r (Refused (stop_error reason)) s
  | None =>
      match slot s with
      | Some h =>
          if is_alive h s then set_stage r (Opening n h false) s
          else set_holder (Some r) (set_stage r (Redialing n) (on_status (mark_carrier_dead h) s))
      | None => set_holder (Some r) (set_stage r (Redialing n) s)
      end
  end.

(** The check before the attempt begins. *)
Definition recheck (r : Z) (n : nat) (s : Mux) : Mux :=
  match terminal s with
  | Some reason => set_holder None (set_stage r (Refused (stop_error reason)) s)
  | None => set_stage r (Beginning n) s
  end.
Definition begin_dial (r : Z) (n : nat) (s : Mux) : Mux :=
  let '(st, attempt) := begin_carrier_attempt (status s) in
  log_dial r (set_stage r (Dialing n attempt) (on_status (fun _ => st) s)).

(** The dial returns: the carrier is published under the status lock. *)
Definition dialed (r : Z) (n : nat) (attempt : Z) (e : option DialError) (now : Z) (s : Mux) : Mux :=
  match e with
  | Some e =>
      set_holder None (set_stage r (Refused e) (on_status (record_carrier_failure attempt (classify e) now) s))
  | None =>
      match terminal s with
      | Some reason => set_holder None (set_stage r (Refused (stop_error reason)) s)
      | None =>
          let h := next_handle s in
          mkMux (under_lock (set_carrier (Some h) true) (status s)) (Some h) None
            (<[h := mkHandle true attempt OPending true true]> (handles s)) (h + 1)
            (<[r := Opening n h false]> (requests s)) (marks s) (dials s) (claims s)
      end
  end.

(** [clear_handle] and the end of a turn of [open_stream]'s loop. *)
Definition clear_handle (r : Z) (n : nat) (h : Z) (s : Mux) : Mux :=
  let s := if bool_decide (slot s = Some h) then on_status (mark_carrier_dead h) (set_slot None s) else s in
  match n with
  | O => set_stage r (WaitSlot 1) s
  | S _ => set_stage r (Refused EStopped) s
  end.

(** A dropped call releases the slot. *)
Definition cancel_request (r : Z) (s : Mux) : Mux :=
  let s := if bool_decide (holder s = Some r) then set_holder None s else s in
  set_stage r Cancelled s.

(** [MuxCarrier::shutdown], once it holds the slot. *)
Definition mux_shutdown (s : Mux) : Mux :=
  match slot s with
  | None => s
  | Some h =>
      let kill x := mkHandle false (attempt_of x) (outcome x) (coordinator_runs x) (writer_runs x) in
      on_status (mark_carrier_dead h) (set_handles (alter kill h (handles s)) (set_slot None s))
  end.

(** The two tasks of a carrier. *)
Inductive Side := CoordinatorTask | WriterTask.

Inductive mux_event :=
| ReqStart (r : Z)
| ReqLock (r : Z)
| ReqCheck (r : Z)
| ReqBegin (r : Z)
| ReqDialed (r : Z) (e : option DialError) (now : Z)
| ReqClaim (r : Z)
| ReqReply (r : Z) (e : option DialError)
| ReqStopped (r : Z)
| ReqClear (r : Z)
| ReqCancel (r : Z)
| CarrierAccepted (h : Z)
| CarrierFailed (h : Z) (f : HandshakeFailure) (now : Z)
| CarrierDenied (h : Z)
| TaskEnds (h : Z) (side : Side)
| MarkDead (i : nat)
| MuxShutdown
| RequestBegins
| RequestEnds
| ListenerStarts
| ListenerEnds.

Definition set_outcome (o : Outcome) (x : CarrierHandle) : CarrierHandle :=
  mkHandle (alive x) (attempt_of x) o (coordinator_runs x) (writer_runs x).
Definition end_task (side : Side) (x : CarrierHandle) : CarrierHandle :=
  mkHandle false (attempt_of x) (outcome x)
    (match side with CoordinatorTask => false | WriterTask => coordinator_runs x end)
    (match side with WriterTask => false | CoordinatorTask => writer_runs x end).
Definition task_runs (side : Side) (x : CarrierHandle) : bool :=
  match side with CoordinatorTask => coordinator_runs x | WriterTask => writer_runs x end.

(** One step; [None] is one that cannot happen now.  A request whose command was
    sent is claimed and answered by a running coordinator; when that has ended,
    an unclaimed input comes back to the request. *)
Definition mux_step (e : mux_event) (s : Mux) : option Mux :=
  match e with
  | ReqStart r => if bool_decide (requests s !! r = None) then Some (set_stage r (WaitSlot 0) s) else None
  | ReqLock r =>
      match requests s !! r, holder s with
      | Some (WaitSlot n), None => Some (get_handle r n s)
      | _, _ => None
      end
  | ReqCheck r => match requests s !! r with Some (Redialing n) => Some (recheck r n s) | _ => None end
  | ReqBegin r => match requests s !! r with Some (Beginning n) => Some (begin_dial r n s) | _ => None end
  | ReqDialed r e now =>
      match requests s !! r with Some (Dialing n a) => Some (dialed r n a e now s) | _ => None end
  | ReqClaim r =>
      match requests s !! r with
      | Some (Opening n h false) =>
          x ← handles s !! h;
          if coordinator_runs x then Some (log_claim r (set_stage r (Opening n h true) s)) else None
      | _ => None
      end
  | ReqReply r e =>
      match requests s !! r with
      | Some (Opening n h true) =>
          Some (set_stage r (match e with Some e => Refused e | None => Opened h end) s)
      | _ => None
      end
  | ReqStopped r =>
      match requests s !! r with
      | Some (Opening n h claimed) =>
          x ← handles s !! h;
          if coordinator_runs x then None
          else Some (set_stage r (if claimed then Refused EStopped else Clearing n h) s)
      | _ => None
      end
  | ReqClear r =>
      match requests s !! r, holder s with
      | Some (Clearing n h), None => Some (clear_handle r n h s)
      | _, _ => None
      end
  | ReqCancel r => if bool_decide (is_Some (requests s !! r)) then Some (cancel_request r s) else None
  | CarrierAccepted h =>
      x ← handles s !! h;
      match outcome x with
      | OPending => Some (on_status (record_carrier_accepted (attempt_of x))
                            (set_handles (<[h := set_outcome OAccepted x]> (handles s)) s))
      | _ => Some s
      end
  | CarrierFailed h f now =>
      x ← handles s !! h;
      match outcome x with
      | OPending => Some (on_status (record_carrier_failure (attempt_of x) f now)
                            (set_handles (<[h := set_outcome OFailed x]> (handles s)) s))
      | _ => Some s
      end
  | CarrierDenied h =>
      x ← handles s !! h;
      match outcome x with OPending => Some (on_status latch_tls_access_denied s) | _ => Some s end
  | TaskEnds h side =>
      x ← handles s !! h;
      if task_runs side x
      then Some (set_marks (marks s ++ [h]) (set_handles (<[h := end_task side x]> (handles s)) s)) else None
  | MarkDead i =>
      h ← marks s !! i; Some (on_status (mark_carrier_dead h) (set_marks (delete i (marks s)) s))
  | MuxShutdown => match holder s with None => Some (mux_shutdown s) | Some _ => None end
  | RequestBegins => Some (on_status request_begins s)
  | RequestEnds => Some (on_status request_ends s)
  | ListenerStarts => Some (on_status listener_starts s)
  | ListenerEnds => Some (on_status listener_ends s)
  end.

Fixpoint mux_run (es : list mux_event) (s : Mux) : option Mux :=
  match es with
  | [] => Some s
  | e :: es => mux_step e s ≫= mux_run es
  end.

(** ** The refusal rule *)

Inductive tracker_op := Accept | Fail (f : HandshakeFailure) (now : Z) | Deny.
Definition tracker_step (t : RefusalTracker) (op : tracker_op) : RefusalTracker :=
  match op with Accept => accepted t | Fail f now => failed f now t | Deny => deny t end.

(** Refusals of one outage: [n] of them were counted, the first at [first] and
    the newest at [last]. *)
Definition outage (ops : list tracker_op) (n first last : Z) : Prop :=
  exists pre mid, ops = pre ++ mid /\ Accept ∉ mid /\
    Fail FRefused first ∈ mid /\ Fail FRefused last ∈ mid /\ (n - 1) * REFUSAL_SPACING <= last - first.

Lemma outage_snoc ops n a b op : outage ops n a b -> op <> Accept -> outage (ops ++ [op]) n a b.
Proof.
  intros (pre & mid & -> & Hna & Ha & Hb & Hd) Hop. exists pre, (mid ++ [op]).
  split_and!; [by rewrite app_assoc|set_solver|set_solver|set_solver|done].
Qed.

Lemma outage_more ops n a b now :
  outage ops n a b -> REFUSAL_SPACING <= now - b -> outage (ops ++ [Fail FRefused now]) (n + 1) a now.
Proof.
  intros (pre & mid & -> & Hna & Ha & Hb & Hd) Hs. exists pre, (mid ++ [Fail FRefused now]).
  split_and!; [by rewrite app_assoc|set_solver|set_solver|set_solver|]. unfold REFUSAL_SPACING in *. lia.
Qed.

Lemma outage_first ops now : outage (ops ++ [Fail FRefused now]) 1 now now.
Proof.
  exists ops, [Fail FRefused now]. split_and!; [done|set_solver|set_solver|set_solver|].
  unfold REFUSAL_SPACING. lia.
Qed.

(** What a tracker remembers of the attempts it was fed. *)
Definition tracker_inv (ops : list tracker_op) (t : RefusalTracker) : Prop :=
  0 <= refusals t < 2 ^ 32 /\
  match last_counted t with
  | None => refusals t = 0
  | Some last => exists first, outage ops (refusals t) first last
  end /\
  (stop t = Some RefusalsExhausted ->
   exists pre post first last, ops = pre ++ post /\ outage pre REFUSAL_LIMIT first last).

Lemma stopped_snoc ops op :
  (exists pre post first last, ops = pre ++ post /\ outage pre REFUSAL_LIMIT first last) ->
  exists pre post first last, ops ++ [op] = pre ++ post /\ outage pre REFUSAL_LIMIT first last.
Proof. intros (pre & post & a & b & -> & H). exists pre, (post ++ [op]), a, b. by rewrite app_assoc. Qed.

Lemma tracker_step_inv ops t op : tracker_inv ops t -> tracker_inv (ops ++ [op]) (tracker_step t op).
Proof.
  intros (Hr & Hl & Hs).
  assert (Hkeep : op <> Accept -> match last_counted t with
    | None => refusals t = 0 | Some last => exists first, outage (ops ++ [op]) (refusals t) first last end).
  { intros Hop. destruct (last_counted t) as [last|]; [|done]. destruct Hl as [first H]. exists first. by apply outage_snoc. }
  assert (Hs' : stop t = Some RefusalsExhausted ->
    exists pre post first last, ops ++ [op] = pre ++ post /\ outage pre REFUSAL_LIMIT first last)
    by (intros E; apply stopped_snoc; auto).
  destruct op as [|f now|]; cbn [tracker_step].
  - split_and!; cbn; [lia..|done|done].
  - assert (Hsame : tracker_inv (ops ++ [Fail f now]) (mkTracker (refusals t) (last_counted t) (Some f) (stop t)))
      by (split_and!; cbn; [lia..|by apply Hkeep|done]).
    unfold failed. destruct f; try exact Hsame.
    + split_and!; cbn; [lia..|by apply Hkeep|]. by destruct (stop t).
    + destruct (counts _ now) eqn:Hc; [|exact Hsame]. unfold counts in Hc. cbn in Hc. cbn [refusals last_failure stop].
      set (n := saturating_add 32 (refusals t) 1).
      assert (Hn : n <= refusals t + 1 /\ 1 <= n < 2 ^ 32) by (unfold n, saturating_add; lia).
      assert (Ho : exists first, outage (ops ++ [Fail FRefused now]) n first now).
      { destruct (last_counted t) as [last|].
        - destruct Hl as [first H]. exists first. apply Z.leb_le in Hc. unfold saturating_sub in Hc.
          destruct (outage_more _ _ _ _ now H) as (pre & mid & E & ? & ? & ? & ?); [unfold REFUSAL_SPACING in *; lia|].
          exists pre, mid. split_and!; [done..|]. unfold REFUSAL_SPACING in *. nia.
        - exists now. replace n with 1 by lia. apply outage_first. }
      destruct (Z.leb_spec REFUSAL_LIMIT n) as [Hlim|Hlim]; (split_and!; cbn; [lia..|done|]); [|done].
      intros E. destruct (stop t) as [x|]; [injection E as ->; by apply Hs'|]. destruct Ho as [first Ho].
      exists (ops ++ [Fail FRefused now]), [], first, now. rewrite app_nil_r. split; [done|].
      destruct Ho as (pre & mid & E' & ? & ? & ? & ?). exists pre, mid. split_and!; [done..|].
      unfold REFUSAL_SPACING, REFUSAL_LIMIT in *. nia.
  - split_and!; cbn; [lia..|by apply Hkeep|]. by destruct (stop t).
Qed.

Lemma tracker_run_inv ops : tracker_inv ops (foldl tracker_step tracker_new ops).
Proof.
  induction ops as [|op ops IH] using rev_ind; [cbn; split_and!; [done..|by cbn|done]|].
  rewrite foldl_app. cbn. by apply tracker_step_inv.
Qed.

(** A client stops over refusals only when they have gone on long enough:
    whatever it was told about its attempts, if its tracker stopped with
    [RefusalsExhausted] then there were refusals at least six spacings (thirty
    minutes) apart with no accepted handshake in between. *)
Theorem exhausted_after_outage ops :
  stop (foldl tracker_step tracker_new ops) = Some RefusalsExhausted ->
  exists pre mid post first last, ops = pre ++ mid ++ post /\ Accept ∉ mid /\
    Fail FRefused first ∈ mid /\ Fail FRefused last ∈ mid /\
    (REFUSAL_LIMIT - 1) * REFUSAL_SPACING <= last - first.
Proof.
  intros Hs. destruct (tracker_run_inv ops) as (_ & _ & H).
  destruct (H Hs) as (pre' & post & first & last & -> & pre & mid & -> & ? & ? & ? & ?).
  exists pre, mid, post, first, last. rewrite <- app_assoc. done.
Qed.

(** ** The status stream *)

(** [evs] is what a subscriber that starts at [v] may be sent up to [v']: each
    differs from the one before, and the last is [v']. *)
Fixpoint transitions (v : JournalBridgeStatus) (evs : list JournalBridgeStatus) (v' : JournalBridgeStatus) : Prop :=
  match evs with
  | [] => v = v'
  | w :: evs => v <> w /\ transitions w evs v'
  end.

Lemma transitions_app v evs w evs' v' : transitions v evs w -> transitions w evs' v' -> transitions v (evs ++ evs') v'.
Proof.
  revert v. induction evs as [|x evs IH]; intros v; cbn; [by intros ->|]. intros [? ?] ?. split; [done|]. by apply IH.
Qed.

(** What every step does to the status record: some number of turns under its lock. *)
Inductive locked : StatusRecord -> StatusRecord -> Prop :=
| locked_done s : locked s s
| locked_turn s f s' : (forall s, published_events (f s) = published_events s) ->
    locked (under_lock f s) s' -> locked s s'.

Lemma locked_stream s s' :
  locked s s' -> exists evs, published_events s' = published_events s ++ evs /\ transitions (snapshot s) evs (snapshot s').
Proof.
  induction 1 as [s|s f s' Hf _ (evs & Hp & Ht)]; [exists []; by rewrite app_nil_r|].
  unfold under_lock in Hp, Ht. cbn in Hp, Ht. case_decide as E.
  - exists evs. by rewrite E in Ht.
  - exists (snapshot (f s) :: evs). rewrite Hp, <- app_assoc. split; [done|]. split; [congruence|done].
Qed.

Lemma locked_one f s : (forall s, published_events (f s) = published_events s) -> locked s (under_lock f s).
Proof. intros Hf. eapply locked_turn; [exact Hf|constructor]. Qed.
Create HintDb redial.
#[local] Hint Constructors locked : redial.
#[local] Hint Resolve locked_one : redial.

Ltac lock_turn := apply locked_one; intros; unfold publish_refusals, set_tracker, set_carrier, set_requests, set_listener;
  repeat case_match; done.

Lemma mux_step_locked e s s' : mux_step e s = Some s' -> locked (status s) (status s').
Proof.
  assert (Hm : forall h x, locked x (mark_carrier_dead h x)) by (intros; lock_turn).
  assert (Hf : forall a f n x, locked x (record_carrier_failure a f n x)) by (intros; lock_turn).
  destruct e as [r|r|r|r|r e now|r|r e|r|r|r|h|h f now|h|h side|i| | | | |]; cbn [mux_step].
  - case_bool_decide; [|done]. intros [= <-]. constructor.
  - destruct (requests s !! r) as [[]|], (holder s); try done. intros [= <-]. unfold get_handle.
    destruct (terminal s); [constructor|]. destruct (slot s) as [h|]; [|constructor].
    destruct (is_alive h s); [constructor|]. apply Hm.
  - destruct (requests s !! r) as [[]|]; try done. intros [= <-]. unfold recheck. destruct (terminal s); constructor.
  - destruct (requests s !! r) as [[]|]; try done. intros [= <-]. cbn. lock_turn.
  - destruct (requests s !! r) as [[]|]; try done. intros [= <-]. unfold dialed. destruct e; [apply Hf|].
    destruct (terminal s); [constructor|]. cbn. lock_turn.
  - destruct (requests s !! r) as [[| | | |n h []| | | |]|]; try done. destruct (handles s !! h) as [x|]; [|done]. cbn.
    destruct (coordinator_runs x); [|done]. intros [= <-]. constructor.
  - destruct (requests s !! r) as [[| | | |n h []| | | |]|]; try done. intros [= <-]. constructor.
  - destruct (requests s !! r) as [[| | | |n h b| | | |]|]; try done. destruct (handles s !! h) as [x|]; [|done]. cbn.
    destruct (coordinator_runs x); [done|]. intros [= <-]. constructor.
  - destruct (requests s !! r) as [[| | | | |n h| | |]|], (holder s); try done. intros [= <-]. unfold clear_handle.
    case_bool_decide; destruct n; try constructor; apply Hm.
  - case_bool_decide; [|done]. intros [= <-]. unfold cancel_request. case_bool_decide; constructor.
  - destruct (handles s !! h) as [x|]; [|done]. cbn. destruct (outcome x); intros [= <-]; [|constructor..].
    cbn. lock_turn.
  - destruct (handles s !! h) as [x|]; [|done]. cbn. destruct (outcome x); intros [= <-]; [|constructor..]. apply Hf.
  - destruct (handles s !! h) as [x|]; [|done]. cbn. destruct (outcome x); intros [= <-]; [|constructor..]. cbn. lock_turn.
  - destruct (handles s !! h) as [x|]; [|done]. cbn. destruct (task_runs side x); [|done]. intros [= <-]. constructor.
  - destruct (marks s !! i) as [h|]; [|done]. intros [= <-]. apply Hm.
  - destruct (holder s); [done|]. intros [= <-]. unfold mux_shutdown. destruct (slot s); [apply Hm|constructor].
  - intros [= <-]. cbn. lock_turn.
  - intros [= <-]. cbn. lock_turn.
  - intros [= <-]. cbn. lock_turn.
  - intros [= <-]. cbn. lock_turn.
Qed.

Lemma mux_run_app es es' s : mux_run (es ++ es') s = mux_run es s ≫= mux_run es'.
Proof. revert s. induction es as [|e es IH]; intros s; [done|]. cbn. destruct (mux_step e s); [apply IH|done]. Qed.

(** The status stream of a bridge loses nothing: whatever happens after a
    subscription, the statuses sent since are the changes in order, none sent
    twice in a row, and the last one is the current status. *)
Theorem status_stream es s s' :
  mux_run es s = Some s' ->
  exists evs, published_events (status s') = published_events (status s) ++ evs /\
    transitions (snapshot (status s)) evs (snapshot (status s')).
Proof.
  revert s. induction es as [|e es IH]; intros s; cbn [mux_run]; [intros [= <-]; exists []; by rewrite app_nil_r|].
  destruct (mux_step e s) as [s1|] eqn:E; [|done]. intros Hr. apply mux_step_locked, locked_stream in E as (evs & Hp & Ht).
  destruct (IH _ Hr) as (evs' & Hp' & Ht'). exists (evs ++ evs'). rewrite Hp', Hp, app_assoc. split; [done|].
  by eapply transitions_app.
Qed.

(** ** The latch *)

Definition synced (s : StatusRecord) : Prop := terminal_reason (snapshot s) = stop (tracker s).

(** The stop reason is published, and once set it stays. *)
Definition keeps_stop (f : StatusRecord -> StatusRecord) : Prop := forall s, synced s ->
  synced (f s) /\ (forall r, stop (tracker s) = Some r -> stop (tracker (f s)) = Some r).

Lemma latch_keeps x t r : stop t = Some r -> stop (latch x t) = Some r.
Proof. intros H. cbn. by rewrite H. Qed.
Lemma failed_keeps f now t r : stop t = Some r -> stop (failed f now t) = Some r.
Proof.
  intros H. unfold failed. destruct f; cbn [stop]; try done; [by apply latch_keeps|].
  destruct (counts _ now); [|done]. destruct (_ <=? _); [|done]. by apply latch_keeps.
Qed.

Lemma keeps_under_lock f : keeps_stop f -> keeps_stop (under_lock f).
Proof. intros Hf s Hs. exact (Hf s Hs). Qed.
Lemma keeps_tracker f : (forall t r, stop t = Some r -> stop (f t) = Some r) ->
  keeps_stop (fun s => publish_refusals (set_tracker (f (tracker s)) s)).
Proof. intros Hf s Hs. split; [done|]. intros r. apply Hf. Qed.
Lemma keeps_if (b : StatusRecord -> bool) f : keeps_stop f -> keeps_stop (fun s => if b s then s else f s).
Proof. intros Hf s Hs. destruct (b s); [done|]. by apply Hf. Qed.
Lemma keeps_same f : (forall s, tracker (f s) = tracker s /\ terminal_reason (snapshot (f s)) = terminal_reason (snapshot s)) ->
  keeps_stop f.
Proof. intros Hf s Hs. destruct (Hf s) as [Ht Hr]. unfold synced in *. rewrite Ht, Hr. done. Qed.

Lemma keeps_mark h : keeps_stop (mark_carrier_dead h).
Proof. apply keeps_under_lock, keeps_same. intros s. by case_bool_decide. Qed.
Lemma keeps_failure a f now : keeps_stop (record_carrier_failure a f now).
Proof. apply keeps_under_lock, (keeps_if (fun s => negb (newest s =? a))), keeps_tracker. intros t r. apply failed_keeps. Qed.
Lemma keeps_accepted a : keeps_stop (record_carrier_accepted a).
Proof. apply keeps_under_lock, (keeps_if (fun s => negb (newest s =? a))), keeps_tracker. done. Qed.
Lemma keeps_denied : keeps_stop latch_tls_access_denied.
Proof. apply keeps_under_lock, keeps_tracker. intros t r. apply latch_keeps. Qed.
Lemma keeps_id : keeps_stop id.
Proof. by intros s Hs. Qed.
#[local] Hint Resolve keeps_mark keeps_failure keeps_accepted keeps_denied keeps_id keeps_under_lock : redial.

(** Every step but a publication is some operation on the status that keeps the
    stop reason, and a publication needs that there is none. *)
Lemma mux_step_keeps e s s' :
  mux_step e s = Some s' ->
  (exists f, keeps_stop f /\ status s' = f (status s)) /\ (terminal s <> None -> next_handle s' = next_handle s).
Proof.
  assert (Hid : forall x, exists f, keeps_stop f /\ x = f x) by (intros; exists id; eauto with redial).
  destruct e as [r|r|r|r|r e now|r|r e|r|r|r|h|h f now|h|h side|i| | | | |]; cbn [mux_step].
  - case_bool_decide; [|done]. intros [= <-]. auto.
  - destruct (requests s !! r) as [[]|], (holder s); try done. intros [= <-]. unfold get_handle.
    destruct (terminal s); [by split; [apply Hid|]|]. destruct (slot s) as [h|]; [|by split; [apply Hid|]].
    destruct (is_alive h s); [by split; [apply Hid|]|]. split; [|done]. eexists. split; [apply keeps_mark|done].
  - destruct (requests s !! r) as [[]|]; try done. intros [= <-]. unfold recheck. destruct (terminal s); by split; [apply Hid|].
  - destruct (requests s !! r) as [[]|]; try done. intros [= <-]. split; [|done]. eexists.
    split; [apply (keeps_under_lock (fun s => mkRecord (snapshot s) (current_carrier s) (tracker s) (wrap 64 (newest s + 1))
                                  (published_events s))), keeps_same|]; done.
  - destruct (requests s !! r) as [[]|]; try done. intros [= <-]. unfold dialed. destruct e.
    { split; [|done]. eexists. split; [apply keeps_failure|done]. }
    destruct (terminal s); [by split; [apply Hid|]|]. split; [|done]. eexists.
    split; [apply (keeps_under_lock (set_carrier (Some (next_handle s)) true)), keeps_same|]; done.
  - destruct (requests s !! r) as [[| | | |n h []| | | |]|]; try done. destruct (handles s !! h) as [x|]; [|done]. cbn.
    destruct (coordinator_runs x); [|done]. intros [= <-]. auto.
  - destruct (requests s !! r) as [[| | | |n h []| | | |]|]; try done. intros [= <-]. auto.
  - destruct (requests s !! r) as [[| | | |n h b| | | |]|]; try done. destruct (handles s !! h) as [x|]; [|done]. cbn.
    destruct (coordinator_runs x); [done|]. intros [= <-]. auto.
  - destruct (requests s !! r) as [[| | | | |n h| | |]|], (holder s); try done. intros [= <-]. unfold clear_handle.
    case_bool_decide; destruct n; (split; [|done]); try apply Hid; eexists; (split; [apply keeps_mark|done]).
  - case_bool_decide; [|done]. intros [= <-]. unfold cancel_request. case_bool_decide; by split; [apply Hid|].
  - destruct (handles s !! h) as [x|]; [|done]. cbn. destruct (outcome x); intros [= <-]; [|auto..].
    split; [|done]. eexists. split; [apply keeps_accepted|done].
  - destruct (handles s !! h) as [x|]; [|done]. cbn. destruct (outcome x); intros [= <-]; [|auto..].
    split; [|done]. eexists. split; [apply keeps_failure|done].
  - destruct (handles s !! h) as [x|]; [|done]. cbn. destruct (outcome x); intros [= <-]; [|auto..].
    split; [|done]. eexists. split; [apply keeps_denied|done].
  - destruct (handles s !! h) as [x|]; [|done]. cbn. destruct (task_runs side x); [|done]. intros [= <-]. auto.
  - destruct (marks s !! i) as [h|]; [|done]. intros [= <-]. split; [|done]. eexists. split; [apply keeps_mark|done].
  - destruct (holder s); [done|]. intros [= <-]. unfold mux_shutdown. destruct (slot s); [|auto].
    split; [|done]. eexists. split; [apply keeps_mark|done].
  - intros [= <-]. split; [|done]. eexists. split; [apply keeps_under_lock, keeps_same|done]. done.
  - intros [= <-]. split; [|done]. eexists. split; [apply keeps_under_lock, keeps_same|done]. done.
  - intros [= <-]. split; [|done]. eexists. split; [apply (keeps_under_lock (set_listener true)), keeps_same|done]. done.
  - intros [= <-]. split; [|done]. eexists. split; [apply (keeps_under_lock (set_listener false)), keeps_same|done]. done.
Qed.

Lemma mux_step_synced e s s' :
  mux_step e s = Some s' -> synced (status s) ->
  synced (status s') /\ (forall r, terminal s = Some r -> terminal s' = Some r /\ next_handle s' = next_handle s).
Proof.
  intros H Hs. destruct (mux_step_keeps _ _ _ H) as [(f & Hf & Hst) Hn]. destruct (Hf _ Hs) as [H1 H2].
  rewrite <- Hst in H1, H2. split; [done|]. intros r Hr. split; [|apply Hn; congruence].
  unfold terminal, synced in *. rewrite H1. apply H2. congruence.
Qed.

(** ** One carrier at a time *)

Definition holds_slot (g : Stage) : bool :=
  match g with Redialing _ | Beginning _ | Dialing _ _ => true | _ => false end.

(** A stage's handle exists, and one to be cleared has no coordinator. *)
Definition stage_ok (s : Mux) (g : Stage) : Prop :=
  match g with
  | Opening _ h _ => is_Some (handles s !! h)
  | Clearing _ h => exists x, handles s !! h = Some x /\ coordinator_runs x = false
  | Opened h => is_Some (handles s !! h)
  | _ => True
  end.

Record mux_inv (s : Mux) : Prop := {
  mi_synced : synced (status s);
  mi_live : carrier_live (snapshot (status s)) = bool_decide (is_Some (current_carrier (status s)));
  mi_handles : forall h, is_Some (handles s !! h) <-> 0 <= h < next_handle s;
  mi_next : 0 <= next_handle s;
  mi_alive : forall h x, handles s !! h = Some x -> alive x = true ->
    slot s = Some h /\ current_carrier (status s) = Some h /\ coordinator_runs x = true /\ writer_runs x = true;
  mi_slot : forall h, slot s = Some h -> is_Some (handles s !! h);
  mi_marks : Forall (fun h => exists x, handles s !! h = Some x /\ alive x = false) (marks s);
  mi_holder : forall r g, requests s !! r = Some g -> holds_slot g = true <-> holder s = Some r;
  mi_redial : holder s <> None -> forall h x, handles s !! h = Some x -> alive x = false;
  mi_stage : forall r g, requests s !! r = Some g -> stage_ok s g;
  mi_held : forall r, holder s = Some r -> is_Some (requests s !! r)
}.

Lemma mux_inv_new : mux_inv mux_new.
Proof.
  split; cbn; try done.
  - intros h. rewrite lookup_empty. split; [by intros []|lia].
Qed.

(** The status changes without touching the current carrier. *)
Definition keeps_carrier (f : StatusRecord -> StatusRecord) : Prop := forall x,
  current_carrier (f x) = current_carrier x /\ carrier_live (snapshot (f x)) = carrier_live (snapshot x).

Lemma keeps_carrier_failure a f now : keeps_carrier (record_carrier_failure a f now).
Proof. intros x. cbn. by destruct (negb (newest x =? a)). Qed.
Lemma keeps_carrier_accepted a : keeps_carrier (record_carrier_accepted a).
Proof. intros x. cbn. by destruct (negb (newest x =? a)). Qed.
#[local] Hint Resolve keeps_carrier_failure keeps_carrier_accepted : redial.

Lemma mux_inv_status s f :
  mux_inv s -> keeps_stop f -> keeps_carrier f ->
  mux_inv (on_status f s).
Proof.
  intros [] Hf Hc. destruct (Hc (status s)) as [Hc1 Hc2]. split; cbn; rewrite ?Hc1, ?Hc2; try done. by apply Hf.
Qed.

(** Marking a carrier that is not alive. *)
Lemma mux_inv_mark s h : mux_inv s -> is_alive h s = false -> mux_inv (on_status (mark_carrier_dead h) s).
Proof.
  intros [] Ha. assert (Hcur : forall h' x, handles s !! h' = Some x -> alive x = true ->
    current_carrier (mark_carrier_dead h (status s)) = Some h').
  { intros h' x Hx Hal. destruct (mi_alive0 _ _ Hx Hal) as (_ & Hcc & _). cbn. rewrite Hcc.
    destruct (bool_decide_reflect (Some h' = Some h)) as [E|]; [|exact Hcc]. injection E as ->. unfold is_alive in Ha. rewrite Hx in Ha. congruence. }
  split; cbn; try done.
  - by apply keeps_mark.
  - destruct (bool_decide_reflect (current_carrier (status s) = Some h)); [|done].
    done.
  - intros h' x Hx Hal. destruct (mi_alive0 _ _ Hx Hal) as (? & _ & ? & ?). split_and!; [done| |done..]. by eapply Hcur.
Qed.

(** A request's stage changes and the lock stays where it is. *)
Lemma mux_inv_stage s r g :
  mux_inv s -> stage_ok s g -> (holds_slot g = true <-> holder s = Some r) -> mux_inv (set_stage r g s).
Proof.
  intros [] Hok Hh. split; cbn; try done.
  - intros r' g' [[<- <-]|[_ ?]]%lookup_insert_Some; eauto.
  - intros r' g' [[<- <-]|[_ ?]]%lookup_insert_Some; eauto.
  - intros r' Hr'. destruct (decide (r = r')) as [->|]; [by rewrite lookup_insert_eq|rewrite lookup_insert_ne by done; auto].
Qed.

(** A request takes the free slot, whose carrier is not alive. *)
Lemma mux_inv_take s r g :
  mux_inv s -> holder s = None -> holds_slot g = true -> stage_ok s g ->
  (forall h x, handles s !! h = Some x -> alive x = false) -> mux_inv (set_holder (Some r) (set_stage r g s)).
Proof.
  intros [] Hn Hg Hok Hdead. split; cbn; try done.
  - intros r' g' [[<- <-]|[Hne Hr']]%lookup_insert_Some; [done|]. rewrite (mi_holder0 _ _ Hr'), Hn.
    split; [done|]. intros [= ->]. done.
  - intros r' g' [[<- <-]|[_ Hr']]%lookup_insert_Some; eauto.
  - intros r' [= <-]. by rewrite lookup_insert_eq.
Qed.

(** The holder lets go of it. *)
Lemma mux_inv_release s r g :
  mux_inv s -> holder s = Some r -> holds_slot g = false -> stage_ok s g -> mux_inv (set_holder None (set_stage r g s)).
Proof.
  intros [] Hn Hg Hok. split; cbn; try done.
  - intros r' g' [[<- <-]|[Hne Hr']]%lookup_insert_Some; [by rewrite Hg|]. split; [|done]. intros H.
    apply (mi_holder0 _ _ Hr') in H. congruence.
  - intros r' g' [[<- <-]|[_ Hr']]%lookup_insert_Some; eauto.
Qed.

(** A carrier's state moves on. *)
Lemma mux_inv_handle s h x x' :
  mux_inv s -> handles s !! h = Some x ->
  (alive x' = true -> alive x = true /\ coordinator_runs x' = true /\ writer_runs x' = true) ->
  (coordinator_runs x = false -> coordinator_runs x' = false) ->
  mux_inv (set_handles (<[h := x']> (handles s)) s).
Proof.
  intros [] Hx Ha Hc.
  assert (Hsome : forall i, is_Some (<[h := x']> (handles s) !! i) <-> is_Some (handles s !! i)).
  { intros i. destruct (decide (h = i)) as [<-|Hne]; [rewrite lookup_insert_eq, Hx|rewrite lookup_insert_ne by done]; done. }
  split; cbn; try done.
  - intros i. by rewrite Hsome.
  - intros i y [[<- <-]|[_ Hy]]%lookup_insert_Some Hal; [|by apply mi_alive0]. destruct (Ha Hal) as (Hx' & ? & ?).
    destruct (mi_alive0 _ _ Hx Hx') as (? & ? & _). done.
  - intros i Hi. apply Hsome. auto.
  - eapply Forall_impl; [|exact mi_marks0]. intros i (y & Hy & Hya). cbn.
    destruct (decide (h = i)) as [<-|Hne]; [rewrite lookup_insert_eq|rewrite lookup_insert_ne by done; eauto].
    exists x'. split; [done|]. destruct (alive x'); [|done]. destruct Ha as [? _]; [done|congruence].
  - intros Hh i y [[<- <-]|[_ Hy]]%lookup_insert_Some; [|eauto]. specialize (mi_redial0 Hh _ _ Hx).
    destruct (alive x'); [|done]. destruct Ha as [? _]; [done|congruence].
  - intros r g Hr. specialize (mi_stage0 r g Hr). destruct g; cbn in *; try done; try (by apply Hsome).
    destruct mi_stage0 as (y & Hy & Hyc). destruct (decide (h = h0)) as [<-|Hne].
    + exists x'. rewrite lookup_insert_eq. split; [done|]. apply Hc. congruence.
    + exists y. by rewrite lookup_insert_ne.
Qed.

Lemma slot_not_alive s :
  mux_inv s -> (forall h, slot s = Some h -> is_alive h s = false) -> forall h x, handles s !! h = Some x -> alive x = false.
Proof.
  intros [] Hs h x Hx. destruct (alive x) eqn:Ha; [|done]. destruct (mi_alive0 _ _ Hx Ha) as [Hslot _].
  specialize (Hs _ Hslot). unfold is_alive in Hs. rewrite Hx in Hs. congruence.
Qed.

(** The slot loses a carrier that is not alive. *)
Lemma mux_inv_clear s h : mux_inv s -> is_alive h s = false -> slot s = Some h -> mux_inv (set_slot None s).
Proof.
  intros [] Ha Hs. split; cbn; try done. intros i x Hx Hal. destruct (mi_alive0 _ _ Hx Hal) as (Hsl & _).
  rewrite Hs in Hsl. injection Hsl as ->. unfold is_alive in Ha. rewrite Hx in Ha. congruence.
Qed.

(** A dialed carrier is published. *)
Lemma mux_inv_publish s r n a :
  mux_inv s -> requests s !! r = Some (Dialing n a) -> mux_inv (dialed r n a None 0 s).
Proof.
  intros Hinv Hr. assert (Hh : holder s = Some r) by by apply (mi_holder _ Hinv _ _ Hr).
  assert (Hdead : forall h x, handles s !! h = Some x -> alive x = false) by (apply (mi_redial _ Hinv); congruence).
  unfold dialed. destruct (terminal s); [by apply mux_inv_release|]. destruct Hinv.
  assert (Hfresh : handles s !! next_handle s = None).
  { apply eq_None_not_Some. rewrite mi_handles0. lia. }
  assert (Hsome : forall i x, is_Some (handles s !! i) -> is_Some (<[next_handle s := x]> (handles s) !! i)).
  { intros i x Hi. destruct (decide (next_handle s = i)) as [<-|]; [by rewrite lookup_insert_eq|by rewrite lookup_insert_ne]. }
  split; cbn; try done.
  - intros i. destruct (decide (next_handle s = i)) as [<-|Hne]; [rewrite lookup_insert_eq; split; [lia|done]|].
    rewrite lookup_insert_ne, mi_handles0 by done. lia.
  - lia.
  - intros i x [[<- <-]|[_ Hx]]%lookup_insert_Some Hal; [done|]. rewrite (Hdead _ _ Hx) in Hal. done.
  - intros i [= <-]. by rewrite lookup_insert_eq.
  - eapply Forall_impl; [|exact mi_marks0]. intros i (y & Hy & Hya). exists y.
    rewrite lookup_insert_ne; [done|]. intros <-. congruence.
  - intros r' g [[<- <-]|[Hne Hr']]%lookup_insert_Some; [done|]. split; [|done]. intros H.
    apply (mi_holder0 _ _ Hr') in H. congruence.
  - intros r' g [[<- <-]|[Hne Hr']]%lookup_insert_Some; [cbn; by rewrite lookup_insert_eq|].
    specialize (mi_stage0 _ _ Hr'). destruct g; cbn in *; auto. destruct mi_stage0 as (y & Hy & ?). exists y.
    rewrite lookup_insert_ne; [done|]. intros <-. congruence.
Qed.

Lemma mux_inv_marks s l :
  mux_inv s -> Forall (fun h => exists x, handles s !! h = Some x /\ alive x = false) l -> mux_inv (set_marks l s).
Proof. intros [] Hl. by split. Qed.

Lemma mux_inv_killed s h :
  mux_inv s -> slot s = Some h -> mux_inv (mux_shutdown s).
Proof.
  intros Hinv Hs. unfold mux_shutdown. rewrite Hs. destruct (mi_slot _ Hinv _ Hs) as [x Hx].
  set (x' := mkHandle false (attempt_of x) (outcome x) (coordinator_runs x) (writer_runs x)).
  assert (H1 : mux_inv (set_handles (<[h := x']> (handles s)) s)) by (by eapply mux_inv_handle).
  replace (alter _ h (handles s)) with (<[h := x']> (handles s)).
  2:{ apply map_eq. intros i. destruct (decide (h = i)) as [<-|Hne].
      - by rewrite lookup_insert_eq, lookup_alter_eq, Hx.
      - by rewrite lookup_insert_ne, lookup_alter_ne. }
  assert (Ha : is_alive h (set_handles (<[h := x']> (handles s)) s) = false)
    by (unfold is_alive; cbn; by rewrite lookup_insert_eq).
  apply (mux_inv_mark (set_slot None (set_handles (<[h := x']> (handles s)) s))); [|exact Ha].
  by eapply mux_inv_clear.
Qed.

Lemma mux_step_inv e s s' : mux_inv s -> mux_step e s = Some s' -> mux_inv s'.
Proof.
  intros Hinv.
  assert (Hstage : forall r g0 g, requests s !! r = Some g0 -> holds_slot g0 = false -> holds_slot g = false ->
    stage_ok s g -> mux_inv (set_stage r g s)).
  { intros r g0 g Hr H0 Hg Hok. apply mux_inv_stage; [done..|]. rewrite Hg. split; [done|]. intros Hh.
    apply (mi_holder _ Hinv _ _ Hr) in Hh. congruence. }
  assert (Hheld : forall r g0 g, requests s !! r = Some g0 -> holds_slot g0 = true -> holds_slot g = true ->
    stage_ok s g -> mux_inv (set_stage r g s)).
  { intros r g0 g Hr H0 Hg Hok. apply mux_inv_stage; [done..|]. rewrite Hg. split; [|done]. intros _.
    by apply (mi_holder _ Hinv _ _ Hr). }
  destruct e as [r|r|r|r|r e now|r|r e|r|r|r|h|h f now|h|h side|i| | | | |]; cbn [mux_step].
  - case_bool_decide as Hr; [|done]. intros [= <-]. apply mux_inv_stage; [done..|]. split; [done|]. intros Hh.
    apply (mi_held _ Hinv) in Hh. rewrite Hr in Hh. by destruct Hh.
  - destruct (requests s !! r) as [[n| | | | | | | |]|] eqn:Hr; try done. destruct (holder s) eqn:Hh; [done|]. intros [= <-].
    unfold get_handle. destruct (terminal s); [by eapply Hstage|]. destruct (slot s) as [h|] eqn:Hs.
    + destruct (is_alive h s) eqn:Ha; [eapply Hstage; [done..|]; by apply (mi_slot _ Hinv)|].
      apply (mux_inv_take (on_status (mark_carrier_dead h) s)); [by apply mux_inv_mark|done..|].
      apply (slot_not_alive s Hinv). congruence.
    + apply mux_inv_take; [done..|]. apply (slot_not_alive s Hinv). congruence.
  - destruct (requests s !! r) as [[|n| | | | | | |]|] eqn:Hr; try done. intros [= <-]. unfold recheck.
    destruct (terminal s); [|by eapply Hheld]. apply mux_inv_release; [done| |done..]. by apply (mi_holder _ Hinv _ _ Hr).
  - destruct (requests s !! r) as [[| |n| | | | | |]|] eqn:Hr; try done. intros [= <-].
    pose proof (Hheld r (Beginning n) (Dialing n (wrap 64 (newest (status s) + 1))) Hr eq_refl eq_refl I) as []. by split.
  - destruct (requests s !! r) as [[| | |n a| | | | |]|] eqn:Hr; try done. intros [= <-]. destruct e as [e|].
    + apply (mux_inv_release (on_status (record_carrier_failure a (classify e) now) s)); [|by apply (mi_holder _ Hinv _ _ Hr)|done..].
      apply mux_inv_status; auto with redial.
    + by apply mux_inv_publish.
  - destruct (requests s !! r) as [[| | | |n h []| | | |]|] eqn:Hr; try done. destruct (handles s !! h) as [x|] eqn:Hx; [|done]. cbn.
    destruct (coordinator_runs x); [|done]. intros [= <-].
    pose proof (Hstage r _ (Opening n h true) Hr eq_refl eq_refl ltac:(cbn; eauto)) as []. by split.
  - destruct (requests s !! r) as [[| | | |n h []| | | |]|] eqn:Hr; try done. intros [= <-].
    pose proof (mi_stage _ Hinv _ _ Hr) as Hok. by destruct e; eapply Hstage.
  - destruct (requests s !! r) as [[| | | |n h b| | | |]|] eqn:Hr; try done. destruct (handles s !! h) as [x|] eqn:Hx; [|done]. cbn.
    destruct (coordinator_runs x) eqn:Hc; [done|]. intros [= <-]. destruct b; eapply Hstage; try done. cbn. eauto.
  - destruct (requests s !! r) as [[| | | | |n h| | |]|] eqn:Hr, (holder s) eqn:Hh; try done. intros [= <-]. unfold clear_handle.
    set (s1 := if bool_decide (slot s = Some h) then _ else _).
    destruct (mi_stage _ Hinv _ _ Hr) as (x & Hx & Hc).
    assert (Ha : is_alive h s = false).
    { unfold is_alive. rewrite Hx. destruct (alive x) eqn:E; [|done]. destruct (mi_alive _ Hinv _ _ Hx E) as (_ & _ & ? & _). congruence. }
    assert (H1 : mux_inv s1 /\ requests s1 = requests s /\ holder s1 = None).
    { subst s1. case_bool_decide; [|done]. split_and!; [|done..]. apply mux_inv_mark; [|done]. by eapply mux_inv_clear. }
    destruct H1 as (H1 & Hreq & Hh1).
    destruct n; (apply mux_inv_stage; [done..|]; rewrite Hh1; done).
  - case_bool_decide as Hs; [|done]. intros [= <-]. unfold cancel_request. case_bool_decide as Hh.
    + by apply (mux_inv_release s r Cancelled).
    + by apply mux_inv_stage.
  - destruct (handles s !! h) as [x|] eqn:Hx; [|done]. cbn. destruct (outcome x); intros [= <-]; [|done..].
    apply mux_inv_status; [|auto with redial..]. eapply mux_inv_handle; [done..| |done]. intros Ha.
    destruct (mi_alive _ Hinv _ _ Hx Ha) as (_ & _ & ? & ?). done.
  - destruct (handles s !! h) as [x|] eqn:Hx; [|done]. cbn. destruct (outcome x); intros [= <-]; [|done..].
    apply mux_inv_status; [|auto with redial..]. eapply mux_inv_handle; [done..| |done]. intros Ha.
    destruct (mi_alive _ Hinv _ _ Hx Ha) as (_ & _ & ? & ?). done.
  - destruct (handles s !! h) as [x|]; [|done]. cbn. destruct (outcome x); intros [= <-]; [|done..].
    apply mux_inv_status; [done|auto with redial|done].
  - destruct (handles s !! h) as [x|] eqn:Hx; [|done]. cbn. destruct (task_runs side x); [|done]. intros [= <-].
    assert (H1 : mux_inv (set_handles (<[h := end_task side x]> (handles s)) s)).
    { eapply mux_inv_handle; [done..|]. intros Hc. by destruct side. }
    apply (mux_inv_marks _ _ H1), Forall_app. split; [apply H1|]. constructor; [|done]. cbn.
    rewrite lookup_insert_eq. eauto.
  - destruct (marks s !! i) as [h|] eqn:Hi; [|done]. intros [= <-]. pose proof (mi_marks _ Hinv) as Hm.
    assert (Hd : is_alive h s = false).
    { rewrite list.Forall_lookup in Hm. destruct (Hm _ _ Hi) as (x & Hx & Ha). unfold is_alive. by rewrite Hx. }
    apply (mux_inv_mark (set_marks (delete i (marks s)) s)); [|done]. apply mux_inv_marks; [done|].
    rewrite delete_take_drop. apply Forall_app. split; [by apply Forall_take|by apply Forall_drop].
  - destruct (holder s); [done|]. intros [= <-]. destruct (slot s) as [h|] eqn:Hs; [by eapply mux_inv_killed|].
    unfold mux_shutdown. by rewrite Hs.
  - intros [= <-]. apply mux_inv_status; [done|by apply keeps_under_lock, keeps_same|done].
  - intros [= <-]. apply mux_inv_status; [done|by apply keeps_under_lock, keeps_same|done].
  - intros [= <-]. apply mux_inv_status; [done|by apply keeps_under_lock, keeps_same|done].
  - intros [= <-]. apply mux_inv_status; [done|by apply keeps_under_lock, keeps_same|done].
Qed.

Lemma mux_run_inv es : forall s s', mux_inv s -> mux_run es s = Some s' -> mux_inv s'.
Proof.
  induction es as [|e es IH]; intros s s' Hi; cbn; [by intros [= <-]|].
  destruct (mux_step e s) as [s1|] eqn:E; [|done]. intros Hr. eapply IH; [|exact Hr]. by eapply mux_step_inv.
Qed.

Lemma mux_run_final es : forall s s' r,
  mux_inv s -> terminal s = Some r -> mux_run es s = Some s' -> terminal s' = Some r /\ next_handle s' = next_handle s.
Proof.
  induction es as [|e es IH]; intros s s' r Hi Ht; cbn; [by intros [= <-]|].
  destruct (mux_step e s) as [s1|] eqn:E; [|done]. intros Hr.
  destruct (mux_step_synced _ _ _ E (mi_synced _ Hi)) as [_ H]. destruct (H _ Ht) as [Ht1 Hn1].
  destruct (IH s1 s' r (mux_step_inv _ _ _ Hi E) Ht1 Hr) as [? ?]. split; congruence.
Qed.

(** C29. A bridge that stopped stays stopped: once a terminal reason is published
    it is never changed or cleared, and no later step publishes another carrier,
    not even one whose dial had begun before. *)
Theorem terminal_is_final es1 es2 s s' r :
  mux_run es1 mux_new = Some s -> terminal s = Some r -> mux_run es2 s = Some s' ->
  terminal s' = Some r /\ forall h, is_Some (handles s' !! h) <-> is_Some (handles s !! h).
Proof.
  intros H1 Ht H2. pose proof (mux_run_inv _ _ _ mux_inv_new H1) as Hi. pose proof (mux_run_inv _ _ _ Hi H2) as Hi'.
  destruct (mux_run_final _ _ _ _ Hi Ht H2) as [? Hn]. split; [done|]. intros h.
  by rewrite (mi_handles _ Hi), (mi_handles _ Hi'), Hn.
Qed.

(** C22. There is at most one live carrier, and the status tells the truth about
    it: a carrier whose [alive] flag is set has both its tasks running, is the
    one in the slot and the one the status names, and [carrier_live] is set;
    while a request dials no carrier is alive, and only the request that holds
    the slot dials.  (A carrier that was shut down, or that has lost one task,
    is no longer alive, though a task of it may still be ending.) *)
Theorem one_live_carrier es s :
  mux_run es mux_new = Some s ->
  (forall h, is_alive h s = true ->
     slot s = Some h /\ current_carrier (status s) = Some h /\ carrier_live (snapshot (status s)) = true /\
     exists x, handles s !! h = Some x /\ coordinator_runs x = true /\ writer_runs x = true) /\
  (forall r n a, requests s !! r = Some (Dialing n a) ->
     holder s = Some r /\ forall h, is_alive h s = false) /\
  (forall r r' n n' a a', requests s !! r = Some (Dialing n a) -> requests s !! r' = Some (Dialing n' a') -> r = r').
Proof.
  intros H. pose proof (mux_run_inv _ _ _ mux_inv_new H) as Hi. unfold is_alive. split_and!.
  - intros h Ha. destruct (handles s !! h) as [x|] eqn:Hx; [|done]. destruct (mi_alive _ Hi _ _ Hx Ha) as (? & Hc & ? & ?).
    split_and!; [done..| |by exists x]. rewrite (mi_live _ Hi), Hc. by apply bool_decide_eq_true.
  - intros r n a Hr. assert (Hh : holder s = Some r) by by apply (mi_holder _ Hi _ _ Hr). split; [done|]. intros h.
    destruct (handles s !! h) as [x|] eqn:Hx; [|done]. eapply (mi_redial _ Hi); [|exact Hx]. congruence.
  - intros r r' n n' a a' Hr Hr'. assert (holder s = Some r) by by apply (mi_holder _ Hi _ _ Hr).
    assert (holder s = Some r') by by apply (mi_holder _ Hi _ _ Hr'). congruence.
Qed.

(** ** A request is not replayed *)

Definition occ (r : Z) (l : list Z) : Z := zsum (fun x => if decide (x = r) then 1 else 0) l.

#[local] Arguments occ : simpl never.

(** How often a request at stage [g] has dialed and had its input claimed. *)
Definition loop_ok (g : option Stage) (d c : Z) : Prop :=
  match g with
  | None => d = 0 /\ c = 0
  | Some (WaitSlot n | Redialing n | Beginning n) => (n <= 1)%nat /\ d <= Z.of_nat n /\ c = 0
  | Some (Dialing n _ | Opening n _ false | Clearing n _) => (n <= 1)%nat /\ d <= Z.of_nat n + 1 /\ c = 0
  | Some (Opening n _ true) => (n <= 1)%nat /\ d <= Z.of_nat n + 1 /\ c = 1
  | Some (Opened _) => d <= 2 /\ c = 1
  | Some (Refused _ | Cancelled) => d <= 2 /\ c <= 1
  end.

Definition loops_ok (s : Mux) : Prop := forall r, loop_ok (requests s !! r) (occ r (dials s)) (occ r (claims s)).

Lemma occ_snoc r r' l : occ r (l ++ [r']) = occ r l + (if decide (r' = r) then 1 else 0).
Proof. unfold occ. rewrite zsum_app, zsum_cons. unfold zsum at 2. cbn. lia. Qed.

Lemma loops_ok_set s s' r g :
  loops_ok s -> requests s' = <[r := g]> (requests s) ->
  (forall r', r' <> r -> occ r' (dials s') = occ r' (dials s) /\ occ r' (claims s') = occ r' (claims s)) ->
  loop_ok (Some g) (occ r (dials s')) (occ r (claims s')) -> loops_ok s'.
Proof.
  intros Hs Hr Ho Hg r'. rewrite Hr. destruct (decide (r = r')) as [<-|Hne]; [by rewrite lookup_insert_eq|].
  rewrite lookup_insert_ne by done. destruct (Ho r') as [-> ->]; [done|]. apply Hs.
Qed.

Lemma loops_ok_same s s' :
  loops_ok s -> requests s' = requests s -> dials s' = dials s -> claims s' = claims s -> loops_ok s'.
Proof. intros Hs Hr Hd Hc r. rewrite Hr, Hd, Hc. apply Hs. Qed.

Lemma mux_step_loops e s s' : loops_ok s -> mux_step e s = Some s' -> loops_ok s'.
Proof.
  intros Hs.
  assert (Hset : forall r g0 g s', requests s !! r = g0 -> requests s' = <[r := g]> (requests s) ->
    dials s' = dials s -> claims s' = claims s ->
    (loop_ok g0 (occ r (dials s)) (occ r (claims s)) -> loop_ok (Some g) (occ r (dials s)) (occ r (claims s))) -> loops_ok s').
  { intros r g0 g s1 Hr Hr1 Hd Hc Hg. apply (loops_ok_set s s1 r g); [done..| |]; rewrite ?Hd, ?Hc; [done|].
    apply Hg. rewrite <- Hr. apply Hs. }
  destruct e as [r|r|r|r|r e now|r|r e|r|r|r|h|h f now|h|h side|i| | | | |]; cbn [mux_step].
  - case_bool_decide as Hr; [|done]. intros [= <-]. eapply (Hset r None); [done..|]. cbn. lia.
  - destruct (requests s !! r) as [[n| | | | | | | |]|] eqn:Hr, (holder s); try done. intros [= <-]. unfold get_handle.
    destruct (terminal s) as [t|], (slot s) as [h|]; try (destruct (is_alive h s)); eapply Hset; try done; cbn; rewrite ?Hr; cbn; lia.
  - destruct (requests s !! r) as [[|n| | | | | | |]|] eqn:Hr; try done. intros [= <-]. unfold recheck.
    destruct (terminal s); eapply Hset; try done; cbn; rewrite ?Hr; cbn; lia.
  - destruct (requests s !! r) as [[| |n| | | | | |]|] eqn:Hr; try done. intros [= <-].
    eapply (loops_ok_set s _ r); [done|done| |].
    + intros r' Hne. cbn. rewrite occ_snoc, decide_False by congruence. split; [lia|done].
    + pose proof (Hs r) as H. rewrite Hr in H. cbn in *. rewrite occ_snoc, decide_True by done. lia.
  - destruct (requests s !! r) as [[| | |n a| | | | |]|] eqn:Hr; try done. intros [= <-]. unfold dialed.
    destruct e, (terminal s); eapply Hset; try done; cbn; rewrite ?Hr; cbn; lia.
  - destruct (requests s !! r) as [[| | | |n h []| | | |]|] eqn:Hr; try done. destruct (handles s !! h) as [x|]; [|done]. cbn.
    destruct (coordinator_runs x); [|done]. intros [= <-]. eapply (loops_ok_set s _ r); [done|done| |].
    + intros r' Hne. cbn. rewrite occ_snoc, decide_False by congruence. split; [done|lia].
    + pose proof (Hs r) as H. rewrite Hr in H. cbn in *. rewrite occ_snoc, decide_True by done. lia.
  - destruct (requests s !! r) as [[| | | |n h []| | | |]|] eqn:Hr; try done. intros [= <-].
    destruct e; eapply Hset; try done; cbn; rewrite ?Hr; cbn; lia.
  - destruct (requests s !! r) as [[| | | |n h b| | | |]|] eqn:Hr; try done. destruct (handles s !! h) as [x|]; [|done]. cbn.
    destruct (coordinator_runs x); [done|]. intros [= <-]. destruct b; eapply Hset; try done; cbn; rewrite ?Hr; cbn; lia.
  - destruct (requests s !! r) as [[| | | | |n h| | |]|] eqn:Hr, (holder s); try done. intros [= <-]. unfold clear_handle.
    case_bool_decide; destruct n; eapply Hset; try done; cbn; rewrite ?Hr; cbn; lia.
  - case_bool_decide as Hsome; [|done]. intros [= <-]. destruct Hsome as [g Hr]. unfold cancel_request.
    assert (Hg : loop_ok (Some g) (occ r (dials s)) (occ r (claims s)) ->
      loop_ok (Some Cancelled) (occ r (dials s)) (occ r (claims s))) by (destruct g as [| | | |? ? []| | | |]; cbn; lia).
    case_bool_decide; eapply Hset; try done; cbn; by rewrite ?Hr.
  - destruct (handles s !! h) as [x|]; [|done]. cbn. destruct (outcome x); intros [= <-]; by apply (loops_ok_same s).
  - destruct (handles s !! h) as [x|]; [|done]. cbn. destruct (outcome x); intros [= <-]; by apply (loops_ok_same s).
  - destruct (handles s !! h) as [x|]; [|done]. cbn. destruct (outcome x); intros [= <-]; by apply (loops_ok_same s).
  - destruct (handles s !! h) as [x|]; [|done]. cbn. destruct (task_runs side x); [|done]. intros [= <-]. by apply (loops_ok_same s).
  - destruct (marks s !! i) as [h|]; [|done]. intros [= <-]. by apply (loops_ok_same s).
  - destruct (holder s); [done|]. intros [= <-]. unfold mux_shutdown. destruct (slot s); by apply (loops_ok_same s).
  - intros [= <-]. by apply (loops_ok_same s).
  - intros [= <-]. by apply (loops_ok_same s).
  - intros [= <-]. by apply (loops_ok_same s).
  - intros [= <-]. by apply (loops_ok_same s).
Qed.

(** No request is replayed: whatever the carriers do, a call of
    [open_stream] has its input claimed by a coordinator at most once, so it puts
    at most one request on a wire; a call that returns a stream had it claimed;
    and it dials at most twice. *)
Theorem request_claimed_once es s r :
  mux_run es mux_new = Some s ->
  occ r (claims s) <= 1 /\ occ r (dials s) <= 2 /\
  (forall h, requests s !! r = Some (Opened h) -> occ r (claims s) = 1).
Proof.
  intros H. assert (Hl : loops_ok s).
  { assert (H0 : loops_ok mux_new) by (intros x; cbn; by rewrite lookup_empty). revert H0 H. generalize mux_new.
    induction es as [|e es IH]; intros s0 H0; cbn; [by intros [= <-]|].
    destruct (mux_step e s0) as [s1|] eqn:E; [|done]. apply IH. by eapply mux_step_loops. }
  specialize (Hl r). destruct (requests s !! r) as [[| | | |? ? []| | | |]|]; cbn in Hl; split_and!; lia || naive_solver lia.
Qed.

(** ** Concrete runs *)

Definition ex_dialed : list mux_event :=
  [ReqStart 1; ReqLock 1; ReqCheck 1; ReqBegin 1; ReqDialed 1 None 0; ReqClaim 1; ReqReply 1 None; CarrierAccepted 0;
   ReqStart 2; ReqLock 2].
Definition ex_denied : list mux_event :=
  [ReqStart 1; ReqLock 1; ReqCheck 1; ReqBegin 1; ReqDialed 1 (Some EAccessDenied) 0].
Definition ex_after : list mux_event := [ReqStart 2; ReqLock 2].
Definition ex_mux (es : list mux_event) : Mux := default mux_new (mux_run es mux_new).

Lemma ex_runs :
  mux_run ex_dialed mux_new = Some (ex_mux ex_dialed) /\ mux_run ex_denied mux_new = Some (ex_mux ex_denied) /\
  mux_run ex_after (ex_mux ex_denied) = Some (default mux_new (mux_run ex_after (ex_mux ex_denied))).
Proof. split_and!; vm_compute; reflexivity. Qed.

Lemma exhausted_after_outage_witness :
  let ops := Accept :: ((fun i => Fail FRefused (i * REFUSAL_SPACING)) <$> [0; 1; 2; 3; 4; 5; 6]) in
  exists pre mid post first last, ops = pre ++ mid ++ post /\ Accept ∉ mid /\
    Fail FRefused first ∈ mid /\ Fail FRefused last ∈ mid /\ (REFUSAL_LIMIT - 1) * REFUSAL_SPACING <= last - first.
Proof. apply exhausted_after_outage. reflexivity. Defined.

Lemma status_stream_witness :
  exists evs, published_events (status (ex_mux ex_dialed)) = [] ++ evs /\
    transitions (snapshot (status mux_new)) evs (snapshot (status (ex_mux ex_dialed))).
Proof. apply (status_stream ex_dialed mux_new), ex_runs. Defined.

Lemma terminal_is_final_witness :
  let s' := default mux_new (mux_run ex_after (ex_mux ex_denied)) in
  requests s' !! 2 = Some (Refused EAccessDenied) /\ terminal s' = Some StopAccessDenied.
Proof.
  split; [vm_compute; reflexivity|]. destruct ex_runs as (_ & H1 & H2).
  apply (terminal_is_final ex_denied ex_after (ex_mux ex_denied) _ StopAccessDenied); [exact H1|vm_compute; reflexivity|exact H2].
Defined.

Lemma one_live_carrier_witness :
  let s := ex_mux ex_dialed in slot s = Some 0 /\ carrier_live (snapshot (status s)) = true.
Proof.
  destruct (one_live_carrier ex_dialed (ex_mux ex_dialed)) as [H _]; [apply ex_runs|].
  destruct (H 0) as (? & _ & ? & _); [vm_compute; reflexivity|]. split; assumption.
Defined.

Lemma request_claimed_once_witness : occ 1 (claims (ex_mux ex_dialed)) = 1.
Proof.
  destruct (request_claimed_once ex_dialed (ex_mux ex_dialed) 1) as (_ & _ & H); [apply ex_runs|].
  apply (H 0). vm_compute. reflexivity.
Defined.
