(* ===== verification/Server.v ===== *)
(** * The loopback journal bridge ([crates/spl-transport/src/journal_bridge.rs])

    One accepted connection from its first byte to its last: reading and
    validating the request head, the bootstrap route, admission, the local
    answer, and the exchange with the journal in which the request body is
    uploaded while the response is forwarded.  The local socket is a script of
    what arrives on it and of how its writes go; the carrier is the script of
    the inputs of the driver loop.  The carrier itself is modelled in [Carrier]
    and [Redial], the header transforms in [Bridge]. *)

From S2P Require Import Prelude Text Http Upload Assembler Carrier Redial Bridge.

Definition READ_BUF_BYTES : Z := 4096.

(** ** Configuration *)

Inductive CapabilityGate := GateEnabled | GateDisabled.
Inductive BootstrapMode := StaticCapability | OneTimeToken.

Record LocalResponse := mkLocal {
  lr_status : Z;
  lr_content_type : str;
  lr_body : list byte
}.

Record BridgePolicy := mkPolicy {
  pol_port : Z;
  capability_gate : CapabilityGate;
  bootstrap_mode : BootstrapMode;
  pol_stream_response : RequestHead -> bool;
  pol_local_response : RequestHead -> JournalBridgeStatus -> option LocalResponse;
  pol_attribution_headers : RequestHead -> list (str * str);
  pol_max_request_body_bytes : Z
}.

Definition policy_default : BridgePolicy :=
  mkPolicy 0 GateEnabled StaticCapability
    (fun h => bool_decide (method h = lit "GET") && bool_decide (path h = lit "/sse/events"))
    (fun _ _ => None) (fun _ => []) (8 * 1024 * 1024).

Inductive CapabilityState := Enabled (capability : str) | Disabled.

Definition cap_value (s : CapabilityState) : option str :=
  match s with Enabled c => Some c | Disabled => None end.

Definition bootstrap_capability (s : CapabilityState) (p : str) : option str :=
  if bool_decide (p = BOOTSTRAP_ROUTE) then cap_value s else None.

Record BridgeRuntime := mkRuntime {
  capability : CapabilityState;
  browser_authorizer : bool;
  port : Z;
  journal_hosts : list str;
  loopback_origin : str;
  bridge_names : BridgeNames;
  stream_response : RequestHead -> bool;
  local_response : RequestHead -> JournalBridgeStatus -> option LocalResponse;
  attribution_headers : RequestHead -> list (str * str);
  max_request_body_bytes : Z
}.

Inductive BridgeStartError := CapabilityFailed | BindFailed.

Definition HEX : str := lit "0123456789abcdef".
Definition hex_digit (n : Z) : Z := default 0 (HEX !! Z.to_nat n).

Definition hex_encode (bytes : list byte) : str :=
  foldl (fun out b => out ++ [hex_digit (Z.shiftr (u8 b) 4); hex_digit (Z.land (u8 b) 15)]) [] bytes.

(** [mint_capability]: [rng] is what the secure generator filled the 32-byte
    buffer with, if it did not fail. *)
Definition mint_capability (rng : option (list byte)) : res BridgeStartError str :=
  match rng with
  | Some bytes => Ok (hex_encode bytes)
  | None => Err CapabilityFailed
  end.

(** The part of [start] that decides the runtime: [bound] is the port the
    listener is bound to. *)
Definition start (names : BridgeNames) (endpoint_hosts : list str) (policy : BridgePolicy)
  (rng : option (list byte)) (bound : option Z) : res BridgeStartError BridgeRuntime :=
  cap ← match capability_gate policy with
        | GateEnabled => Enabled <$> mint_capability rng
        | GateDisabled => Ok Disabled
        end;
  p ← ok_or bound BindFailed;
  Ok (mkRuntime cap
        (match cap_value cap, bootstrap_mode policy with Some _, OneTimeToken => true | _, _ => false end)
        p (lit "spl.local" :: endpoint_hosts) (lit "http://127.0.0.1:" ++ to_string p) names
        (pol_stream_response policy) (pol_local_response policy) (pol_attribution_headers policy)
        (pol_max_request_body_bytes policy)).

(** [BrowserAuthorizer::issue_url], [bootstrap_url] and [capability_cookie]. *)
Definition issue_url (rt : BridgeRuntime) (rng : option (list byte)) (now : Z) (b : BootstrapTokens)
  : BootstrapTokens * res BridgeStartError str :=
  match mint_capability rng with
  | Ok token =>
      match issue b token now with
      | Ok b' => (b', Ok (lit "http://127.0.0.1:" ++ to_string (port rt) ++ BOOTSTRAP_ROUTE ++ lit "?token=" ++ token))
      | _ => (b, Panic)
      end
  | Err e => (b, Err e)
  | Panic => (b, Panic)
  end.

Definition bootstrap_url (rt : BridgeRuntime) : option str :=
  if browser_authorizer rt then None
  else (fun c => lit "http://127.0.0.1:" ++ to_string (port rt) ++ BOOTSTRAP_ROUTE ++ lit "?cap=" ++ c)
       <$> cap_value (capability rt).

Definition capability_cookie (rt : BridgeRuntime) : option str :=
  (fun c => capability_cookie_name (bridge_names rt) ++ lit "=" ++ c ++ lit "; " ++ bootstrap_cookie_attributes)
  <$> cap_value (capability rt).

(** ** The connection

    [arrivals] is what the socket will deliver; when it is exhausted nothing
    more arrives before the bridge shuts down.  [fates] says how the coming
    writes go: completed, failed after some bytes, or overtaken by the shutdown
    signal after some bytes; an exhausted list means completed.  A failed or
    shut down socket accepts no further bytes. *)
Inductive Arrival :=
| Chunk (b : byte) (bs : list byte)
| Fin
| Fault.

Inductive Fate := Done | Cut (n : nat) | Halt (n : nat).

(** A call of [MuxCarrier::open_stream]. *)
Record Opening := mkOpening {
  op_method : str;
  op_target : str;
  op_headers : list (str * str);
  op_declared : Z
}.

Record Conn := mkConn {
  arrivals : list Arrival;
  fates : list Fate;
  sent : list byte;
  fin : bool;
  broken : bool;
  halted : bool;
  openings : list Opening;
  uploaded : list byte;
  rx_done : bool;
  resets : nat;
  tokens : BootstrapTokens
}.

Definition set_arrivals (l : list Arrival) (c : Conn) : Conn :=
  mkConn l (fates c) (sent c) (fin c) (broken c) (halted c) (openings c) (uploaded c) (rx_done c) (resets c) (tokens c).
Definition set_wire (f : list Fate) (s : list byte) (e b : bool) (c : Conn) : Conn :=
  mkConn (arrivals c) f s e b (halted c) (openings c) (uploaded c) (rx_done c) (resets c) (tokens c).
Definition set_halted (c : Conn) : Conn :=
  mkConn (arrivals c) (fates c) (sent c) (fin c) (broken c) true (openings c) (uploaded c) (rx_done c) (resets c) (tokens c).
Definition log_opening (o : Opening) (c : Conn) : Conn :=
  mkConn (arrivals c) (fates c) (sent c) (fin c) (broken c) (halted c) (openings c ++ [o]) (uploaded c) (rx_done c) (resets c) (tokens c).
Definition log_upload (b : list byte) (c : Conn) : Conn :=
  mkConn (arrivals c) (fates c) (sent c) (fin c) (broken c) (halted c) (openings c) (uploaded c ++ b) (rx_done c) (resets c) (tokens c).
Definition set_rx (d : bool) (n : nat) (c : Conn) : Conn :=
  mkConn (arrivals c) (fates c) (sent c) (fin c) (broken c) (halted c) (openings c) (uploaded c) d n (tokens c).
Definition set_tokens (b : BootstrapTokens) (c : Conn) : Conn :=
  mkConn (arrivals c) (fates c) (sent c) (fin c) (broken c) (halted c) (openings c) (uploaded c) (rx_done c) (resets c) b.

(** ** Asynchronous code

    A computation ends with a value, or with [None] when the shutdown signal
    overtakes one of its awaits. *)
Definition IO (A : Type) : Type := Conn -> option A * Conn.
#[export] Instance IO_ret : MRet IO := fun _ a c => (Some a, c).
#[export] Instance IO_bind : MBind IO := fun _ _ f m c =>
  match m c with (Some a, c') => f a c' | (None, c') => (None, c') end.

#[export] Instance IO_fmap : FMap IO := fun _ _ f m c =>
  match m c with (Some a, c') => (Some (f a), c') | (None, c') => (None, c') end.

Definition modify (f : Conn -> Conn) : IO unit := fun c => (Some tt, f c).

(** [until_shutdown] *)
Definition until_shutdown {A} (m : IO A) : IO (option A) := fun c =>
  if halted c then (Some None, c)
  else match m c with
       | (Some a, c') => (Some (Some a), c')
       | (None, c') => (Some None, set_halted c')
       end.

(** [AsyncReadExt::read] into a buffer of [n] bytes: [Ok []] is the end of the
    stream. *)
Definition read (n : Z) : IO (res unit (list byte)) := fun c =>
  match arrivals c with
  | [] => (None, c)
  | Fin :: _ => (Some (Ok []), c)
  | Fault :: _ => (Some (Err tt), c)
  | Chunk b bs :: rest =>
      (Some (Ok (ztake n (b :: bs))),
       set_arrivals (match zdrop n (b :: bs) with [] => rest | b' :: bs' => Chunk b' bs' :: rest end) c)
  end.

(** The bytes a write accepts before it fails or is overtaken. *)
Definition partly (n : nat) (b : list byte) : list byte := take (Nat.min n (length b - 1)) b.

(** [AsyncWriteExt::write_all] (with the [flush] of a TCP socket, which does
    nothing) and [AsyncWriteExt::shutdown]; [false] is an [io::Error]. *)
Definition write_all (b : list byte) : IO bool := fun c =>
  if bool_decide (b = []) then (Some true, c)
  else if broken c || fin c then (Some false, c)
  else match fates c with
       | [] => (Some true, set_wire [] (sent c ++ b) (fin c) (broken c) c)
       | Done :: f => (Some true, set_wire f (sent c ++ b) (fin c) (broken c) c)
       | Cut n :: f => (Some false, set_wire f (sent c ++ partly n b) (fin c) true c)
       | Halt n :: f => (None, set_wire f (sent c ++ partly n b) (fin c) (broken c) c)
       end.

Definition shutdown : IO bool := fun c =>
  if broken c then (Some false, c)
  else match fates c with
       | [] => (Some true, set_wire [] (sent c) true (broken c) c)
       | Done :: f => (Some true, set_wire f (sent c) true (broken c) c)
       | Cut _ :: f => (Some false, set_wire f (sent c) (fin c) true c)
       | Halt _ :: f => (None, set_wire f (sent c) (fin c) (broken c) c)
       end.

(** [m.await?; k] *)
Definition and_then (m k : IO bool) : IO bool := ok ← m; if (ok : bool) then k else mret false.

(** ** Local answers *)

Definition reason_phrase (status : Z) : str :=
  match status with
  | 200 => lit "OK"
  | 201 => lit "Created"
  | 202 => lit "Accepted"
  | 204 => lit "No Content"
  | 206 => lit "Partial Content"
  | 302 => lit "Found"
  | 304 => lit "Not Modified"
  | 400 => lit "Bad Request"
  | 401 => lit "Unauthorized"
  | 403 => lit "Forbidden"
  | 404 => lit "Not Found"
  | 405 => lit "Method Not Allowed"
  | 409 => lit "Conflict"
  | 410 => lit "Gone"
  | 413 => lit "Payload Too Large"
  | 417 => lit "Expectation Failed"
  | 429 => lit "Too Many Requests"
  | 500 => lit "Internal Server Error"
  | 502 => lit "Bad Gateway"
  | 503 => lit "Service Unavailable"
  | _ => lit "Status"
  end.

Definition safe_content_type (content_type : str) : str :=
  if bool_decide (CR ∈ content_type \/ LF ∈ content_type) then lit "application/octet-stream" else content_type.

(** The head [write_local] formats. *)
Definition local_head (status : Z) (content_length : Z) (content_type : str) : str :=
  lit "HTTP/1.1 " ++ to_string status ++ lit " " ++ reason_phrase status ++ CRLF
  ++ lit "Content-Type: " ++ content_type ++ CRLF
  ++ lit "Content-Length: " ++ to_string content_length ++ CRLF
  ++ lit "Connection: close" ++ CRLF ++ CRLF.

Definition write_local (status : Z) (body : list byte) (content_type : str) : IO unit :=
  _ ← write_all (into_bytes (local_head status (len body) content_type));
  _ ← write_all body;
  _ ← shutdown;
  mret tt.

(** The head [write_stream_head] and [write_upstream_response] format. *)
Definition stream_head (status : Z) (headers : list (str * str)) (content_length : option Z) : str :=
  lit "HTTP/1.1 " ++ to_string status ++ lit " " ++ reason_phrase status ++ CRLF
  ++ concat ((fun h => fst h ++ lit ": " ++ snd h ++ CRLF) <$> headers)
  ++ match content_length with Some n => lit "content-length: " ++ to_string n ++ CRLF | None => [] end
  ++ lit "connection: close" ++ CRLF ++ CRLF.

Definition write_upstream_response (status : Z) (headers : list (str * str)) (body : list byte)
  (content_length : option Z) : IO bool :=
  and_then (write_all (into_bytes (stream_head status headers content_length)))
    (and_then (write_all body) shutdown).

Definition write_stream_head (status : Z) (headers : list (str * str)) (content_length : option Z) : IO bool :=
  write_all (into_bytes (stream_head status headers content_length)).

Definition has_transfer_encoding (headers : list (str * str)) : bool :=
  existsb (fun h => eq_ignore_ascii_case (fst h) (lit "transfer-encoding")) headers.

Definition status_permits_body (status : Z) : bool :=
  negb (between 100 status 199 || (status =? 204) || (status =? 304)).

Definition upstream_content_length (headers : list (str * str)) : option Z :=
  h ← find_header (fun n => eq_ignore_ascii_case n (lit "content-length")) headers;
  parse_uint 10 64 (snd h).

(** ** Reading the request head *)

Inductive RequestReadError := ReadIo | ReadInvalid.

Definition find_header_end (bytes : list byte) : option Z := find_subsequence bytes bCRLF2.

(** The loop of [read_request_head].  Every read returns at least one byte, so
    the size limit bounds the number of rounds. *)
Fixpoint read_head_loop (fuel : nat) (received : list byte) : IO (res RequestReadError (list byte * list byte)) :=
  match fuel with
  | O => mret Panic
  | S fuel =>
      match checked_sub MAX_REQUEST_HEAD_BYTES (len received) with
      | None => mret Panic
      | Some remaining =>
          if remaining =? 0 then mret (Err ReadInvalid)
          else
            r ← read (Z.min remaining READ_BUF_BYTES);
            match r with
            | Ok [] => mret (Err ReadInvalid)
            | Ok bytes =>
                let received := received ++ bytes in
                match find_header_end received with
                | Some split =>
                    let body_start := split + 4 in
                    mret (Ok (ztake body_start received, zdrop body_start received))
                | None => read_head_loop fuel received
                end
            | Err _ => mret (Err ReadIo)
            | Panic => mret Panic
            end
      end
  end.

Definition head_fuel : nat := S (Z.to_nat MAX_REQUEST_HEAD_BYTES).
Definition read_request_head : IO (res RequestReadError (list byte * list byte)) := read_head_loop head_fuel [].

Definition framing_error_status (e : RequestFramingError) : Z :=
  match e with
  | HeadTooLarge | MissingTerminator | InvalidEncoding | InvalidRequestLine | InvalidHeader
  | TransferEncoding | DuplicateContentLength | InvalidContentLength => 400
  | Expectation => 417
  end.

Record ValidatedLocalRequestHead := mkValid {
  v_head : RequestHead;
  v_declared : Z;
  v_prefix : list byte
}.

Definition text_plain : str := lit "text/plain".
Definition refuse_head {A} (status : Z) (body : list byte) : IO (option A) :=
  _ ← write_local status body text_plain; mret None.

(** [read_validated_request_head]; [Panic] if a step panics. *)
Definition read_validated_request_head (max_body : Z) : IO (res unit (option ValidatedLocalRequestHead)) :=
  r ← read_request_head;
  match r with
  | Panic => mret Panic
  | Err ReadInvalid => Ok <$> refuse_head 400 (blit "bad request")
  | Err ReadIo => mret (Ok None)
  | Ok (head_bytes, body_prefix) =>
      match parse_request_head head_bytes with
      | Panic => mret Panic
      | Err error =>
          let status := framing_error_status error in
          Ok <$> refuse_head status (if status =? 417 then blit "expectation failed" else blit "bad request")
      | Ok validated =>
          if max_body <? Bridge.content_length validated
          then Ok <$> refuse_head 413 (blit "payload too large")
          else mret (Ok (Some (mkValid (head_of validated) (Bridge.content_length validated) body_prefix)))
      end
  end.

(** ** Uploading the request body *)

Record LocalBodyUpload := mkBody {
  b_active : bool;
  b_prefix : list byte;
  prefix_offset : Z;
  read_bytes : Z;
  declared_body_len : Z
}.

Definition body_new (prefix : list byte) (declared : Z) : LocalBodyUpload :=
  mkBody (negb (declared =? 0)) (ztake declared prefix) 0 0 declared.

Definition body_stop (u : LocalBodyUpload) : LocalBodyUpload :=
  mkBody false (b_prefix u) (prefix_offset u) (read_bytes u) (declared_body_len u).

Inductive BodyAdvance := Progress | Complete | Short.
Inductive BodyAdvanceError := BodyIo | BodyPipe.

(** How the reservation an advance asks the carrier for ends: granted in full,
    refused because the carrier closed the stream's budget, or overtaken by the
    local peer's end of stream or a socket error ([reserve_or_closed]). *)
Inductive Grant := Granted | Refused | HalfClosed | ReadyFault.

(** The end of [advance], after [count] bytes were accepted. *)
Definition advanced (u : LocalBodyUpload) : LocalBodyUpload * res BodyAdvanceError BodyAdvance :=
  if read_bytes u =? declared_body_len u then (body_stop u, Ok Complete) else (u, Ok Progress).

(** [LocalBodyUpload::advance]; [delivered] is whether [send_reserved] succeeds. *)
Definition advance (g : Grant) (delivered : bool) (u : LocalBodyUpload)
  : IO (LocalBodyUpload * res BodyAdvanceError BodyAdvance) :=
  match checked_sub (declared_body_len u) (read_bytes u) with
  | None => mret (u, Panic)
  | Some remaining =>
      if remaining =? 0 then mret (body_stop u, Ok Complete)
      else if negb (b_active u) then mret (u, Ok Complete)
      else if prefix_offset u <? len (b_prefix u) then
        let count := Z.min (len (b_prefix u) - prefix_offset u) remaining in
        match g with
        | Granted =>
            match get_range (b_prefix u) (prefix_offset u) (prefix_offset u + count) with
            | None => mret (u, Panic)
            | Some bytes =>
                if delivered then
                  _ ← modify (log_upload bytes);
                  mret (advanced (mkBody (b_active u) (b_prefix u) (prefix_offset u + count) (read_bytes u + count)
                                    (declared_body_len u)))
                else mret (u, Err BodyPipe)
            end
        | _ => mret (u, Err BodyPipe)
        end
      else
        let count := Z.min remaining READ_BUF_BYTES in
        match g with
        | Refused => mret (u, Err BodyPipe)
        | ReadyFault => mret (u, Err BodyIo)
        | HalfClosed => mret (body_stop u, Ok Short)
        | Granted =>
            r ← read count;
            match r with
            | Ok [] => mret (body_stop u, Ok Short)
            | Ok bytes =>
                if delivered then
                  _ ← modify (log_upload bytes);
                  mret (advanced (mkBody (b_active u) (b_prefix u) (prefix_offset u) (read_bytes u + len bytes)
                                    (declared_body_len u)))
                else mret (u, Err BodyPipe)
            | Err _ => mret (u, Err BodyIo)
            | Panic => mret (u, Panic)
            end
        end
  end.

(** An advance abandoned when the response wins the [select!]: it may have read
    up to [lost] bytes from the socket that it had not yet handed over. *)
Definition abandon (lost : nat) (u : LocalBodyUpload) : IO unit := fun c =>
  match lost, arrivals c with
  | S _, Chunk _ _ :: _ =>
      if b_active u && (len (b_prefix u) <=? prefix_offset u)
      then (Some tt, snd (read (Z.min (Z.of_nat lost) READ_BUF_BYTES) c))
      else (Some tt, c)
  | _, _ => (Some tt, c)
  end.

(** ** Forwarding the response *)

Inductive ResponseMode := Buffered | Streaming.

Record ResponseForwarder := mkForwarder {
  f_mode : ResponseMode;
  f_head : option HttpHead;
  f_body : list byte;
  head_written : bool;
  declared_len : option Z;
  received_len : Z;
  held_last : option byte;
  deferred_head : option (Z * list (str * str))
}.

Definition forwarder_new (m : ResponseMode) : ResponseForwarder := mkForwarder m None [] false None 0 None None.

Inductive ResponseControl := RContinue | RComplete | RIncomplete | RHandled.

(** [StreamRx::cancel] *)
Definition cancel : IO unit := fun c =>
  (Some tt, if rx_done c then c else set_rx true (S (resets c)) c).

Definition unreachable : IO unit := write_local 502 (blit "journal unreachable") text_plain.

(** [let _ = until_shutdown(..).await] *)
Definition ignore {A} (m : IO A) : IO unit := _ ← until_shutdown m; mret tt.

Definition is_head (h : RequestHead) : bool := bool_decide (method h = lit "HEAD").

Definition rewritten (rt : BridgeRuntime) (h : HttpHead) : list (str * str) :=
  response_headers (hh_headers h) (journal_hosts rt) (loopback_origin rt) (bridge_names rt).

Definition write_early_failure (rt : BridgeRuntime) (req : RequestHead) (h : HttpHead) : IO bool :=
  write_upstream_response (hh_status h) (rewritten rt h) []
    (Some (if is_head req then default 0 (upstream_content_length (hh_headers h)) else 0)).

(** The length header of a streamed response. *)
Definition streamed_length (req : RequestHead) (h : HttpHead) : option Z :=
  if is_head req then Some (default 0 (upstream_content_length (hh_headers h)))
  else if status_permits_body (hh_status h) && negb (has_transfer_encoding (hh_headers h))
  then upstream_content_length (hh_headers h)
  else None.

Definition keep_head (f : ResponseForwarder) (h : HttpHead) : ResponseForwarder :=
  mkForwarder (f_mode f) (Some h) (f_body f) (head_written f) (declared_len f) (received_len f) (held_last f) (deferred_head f).
Definition declare (f : ResponseForwarder) (n : option Z) (d : option (Z * list (str * str))) : ResponseForwarder :=
  mkForwarder (f_mode f) (f_head f) (f_body f) (head_written f) n (received_len f) (held_last f) d.
Definition set_written (f : ResponseForwarder) : ResponseForwarder :=
  mkForwarder (f_mode f) (f_head f) (f_body f) true (declared_len f) (received_len f) (held_last f) (deferred_head f).
Definition buffer (f : ResponseForwarder) (b : list byte) : ResponseForwarder :=
  mkForwarder (f_mode f) (f_head f) (f_body f ++ b) (head_written f) (declared_len f) (received_len f) (held_last f) (deferred_head f).
Definition receive (f : ResponseForwarder) (n : Z) (l : option byte) : ResponseForwarder :=
  mkForwarder (f_mode f) (f_head f) (f_body f) (head_written f) (declared_len f) n l (deferred_head f).

(** [slice::split_last] *)
Definition split_last (l : list byte) : option (byte * list byte) :=
  match reverse l with [] => None | b :: r => Some (b, reverse r) end.

Section Exchange.
Context (rt : BridgeRuntime) (req : RequestHead).

Definition handle_head (h : HttpHead) (early : bool) (u : LocalBodyUpload) (f : ResponseForwarder)
  : IO (LocalBodyUpload * ResponseForwarder * ResponseControl) :=
  if early then
    _ ← (if between 200 (hh_status h) 299 then ignore unreachable else ignore (write_early_failure rt req h));
    mret (body_stop u, f, RHandled)
  else
    match f_mode f with
    | Buffered => mret (u, keep_head f h, RContinue)
    | Streaming =>
        let headers := rewritten rt h in
        let content_length := streamed_length req h in
        let f' := if is_head req then f
                  else declare f content_length
                         (if bool_decide (content_length = Some 0) then Some (hh_status h, headers) else deferred_head f) in
        if negb (is_head req) && bool_decide (content_length = Some 0) then mret (u, f', RContinue)
        else
          w ← until_shutdown (write_stream_head (hh_status h) headers content_length);
          match w with
          | Some true => mret (u, set_written f', RContinue)
          | _ => _ ← cancel; mret (u, f', RHandled)
          end
    end.

Definition handle_body (bytes : list byte) (f : ResponseForwarder) : IO (ResponseForwarder * ResponseControl) :=
  match f_mode f with
  | Buffered => mret (buffer f bytes, RContinue)
  | Streaming =>
      match deferred_head f with
      | Some _ => mret (f, if bool_decide (bytes = []) then RContinue else RIncomplete)
      | None =>
          if negb (head_written f) then mret (f, RComplete)
          else if is_head req then mret (f, RContinue)
          else
            let received := saturating_add 64 (received_len f) (len bytes) in
            let overlong := match declared_len f with Some declared => declared <? received | None => false end in
            if overlong then
              _ ← cancel; _ ← ignore shutdown; mret (f, RHandled)
            else
              let '(f', writable) :=
                match declared_len f with
                | None => (f, bytes)
                | Some declared =>
                    match (if received =? declared then split_last bytes else None) with
                    | Some (b, rest) => (receive f received (Some b), rest)
                    | None => (receive f received (held_last f), bytes)
                    end
                end in
              if bool_decide (writable = []) then mret (f', RContinue)
              else
                w ← until_shutdown (write_all writable);
                match w with
                | Some true => mret (f', RContinue)
                | _ => _ ← cancel; mret (f', RHandled)
                end
      end
  end.

(** [ResponseForwarder::handle] *)
Definition handle (i : StreamItem) (early : bool) (u : LocalBodyUpload) (f : ResponseForwarder)
  : IO (LocalBodyUpload * ResponseForwarder * ResponseControl) :=
  match i with
  | ItemHead h => handle_head h early u f
  | ItemBody bytes => r ← handle_body bytes f; mret (u, fst r, snd r)
  | ItemEnd EndClose => mret (u, f, RComplete)
  | ItemEnd _ => mret (u, f, RIncomplete)
  end.

Definition finish (f : ResponseForwarder) : IO unit :=
  match f_mode f with
  | Streaming =>
      match deferred_head f with
      | Some (status, headers) => ignore (and_then (write_stream_head status headers (Some 0)) shutdown)
      | None =>
          if head_written f then
            let complete := match declared_len f with Some d => d =? received_len f | None => true end in
            _ ← match complete, held_last f with
                | true, Some b => ignore (write_all [b])
                | _, _ => mret tt
                end;
            ignore shutdown
          else ignore unreachable
      end
  | Buffered =>
      match f_head f with
      | None => ignore unreachable
      | Some h =>
          let declared := upstream_content_length (hh_headers h) in
          let mismatch := match declared with Some d => negb (d =? len (f_body f)) | None => false end in
          if negb (is_head req) && mismatch then ignore unreachable
          else
            let body := if is_head req then [] else f_body f in
            let content_length := if is_head req then default (len body) declared else len body in
            w ← until_shutdown (write_upstream_response (hh_status h) (rewritten rt h) body (Some content_length));
            match w with Some true => mret tt | _ => cancel end
      end
  end.

Definition fail (f : ResponseForwarder) : IO unit :=
  _ ← cancel;
  match f_mode f, head_written f with
  | Streaming, true => ignore shutdown
  | _, _ => ignore unreachable
  end.

(** ** The driver loop of [forward_upstream] *)

(** One [select!]: the shutdown signal, a delivery of the carrier ([None] when
    its channel is closed) that abandons an advance, or an advance that ends. *)
Inductive Input :=
| InShutdown
| InUpstream (d : option DeliveryEvent) (lost : nat)
| InBody (g : Grant) (delivered : bool).

(** [StreamRx::recv] *)
Definition recv (d : option DeliveryEvent) : IO (option StreamItem * bool) := fun c =>
  match d with
  | None | Some CertificateUnknown => (Some (None, false), set_rx true (resets c) c)
  | Some (EarlyFinal h) => (Some (Some (ItemHead h), true), set_rx true (resets c) c)
  | Some (DStream e) =>
      (Some (Some (item e), false),
       match item e with ItemEnd _ => set_rx true (resets c) c | _ => c end)
  end.

Inductive Turn :=
| Again (u : LocalBodyUpload) (f : ResponseForwarder)
| Leave
| Break (completed : bool) (f : ResponseForwarder)
| Crash.

Definition turn (i : Input) (u : LocalBodyUpload) (f : ResponseForwarder) : IO Turn := fun c =>
  match i with
  | InShutdown => (_ ← cancel; mret Leave) (set_halted c)
  | InBody g delivered =>
      if negb (b_active u) then (Some (Again u f), c) (* the arm is not polled *)
      else
        match advance g delivered u c with
        | (None, c) => (_ ← cancel; mret Leave) (set_halted c)
        | (Some (u, Ok (Progress | Complete)), c) => (Some (Again u f), c)
        | (Some (u, Ok Short), c) => (_ ← cancel; _ ← ignore (write_local 400 (blit "bad request") text_plain); mret Leave) c
        | (Some (u, Err BodyIo), c) => (_ ← cancel; mret Leave) c
        | (Some (u, Err BodyPipe), c) => (Some (Again (body_stop u) f), c)
        | (Some (u, Panic), c) => (Some Crash, c)
        end
  | InUpstream d lost =>
      (_ ← abandon lost u;
       r ← recv d;
       match r with
       | (None, _) => mret (Break false f)
       | (Some i, early) =>
           r ← handle i early u f;
           match r with
           | (u, f, RContinue) => mret (Again u f)
           | (_, f, RComplete) => mret (Break true f)
           | (_, f, RIncomplete) => mret (Break false f)
           | (_, f, RHandled) => mret Leave
           end
       end) c
  end.

Fixpoint drive (inputs : list Input) (u : LocalBodyUpload) (f : ResponseForwarder) : IO Turn :=
  match inputs with
  | [] => turn InShutdown u f
  | i :: rest =>
      t ← turn i u f;
      match t with
      | Again u f => drive rest u f
      | _ => mret t
      end
  end.
End Exchange.

(** What [MuxCarrier::open_stream] answers, or that the shutdown overtook it. *)
Inductive OpenResult := OpenOk | OpenErr | OpenHalted.

Definition open_stream (o : Opening) (r : OpenResult) : IO bool := fun c =>
  match r with
  | OpenOk => (Some true, log_opening o c)
  | OpenErr => (Some false, log_opening o c)
  | OpenHalted => (None, log_opening o c)
  end.

Record UpstreamRequest := mkRequest {
  u_head : RequestHead;
  u_headers : list (str * str);
  u_body_prefix : list byte;
  u_declared : Z;
  u_mode : ResponseMode
}.

(** [forward_upstream]; the result is [Panic] if a step panics. *)
Definition forward_upstream (rt : BridgeRuntime) (q : UpstreamRequest) (opening : OpenResult) (inputs : list Input)
  : IO (res unit unit) :=
  opened ← until_shutdown
    (open_stream (mkOpening (method (u_head q)) (target (u_head q)) (u_headers q) (u_declared q)) opening);
  match opened with
  | None => mret (Ok tt)
  | Some false => Ok <$> ignore unreachable
  | Some true =>
      t ← drive rt (u_head q) inputs (body_new (u_body_prefix q) (u_declared q)) (forwarder_new (u_mode q));
      match t with
      | Break true f => Ok <$> finish rt (u_head q) f
      | Break false f => Ok <$> fail f
      | Leave => mret (Ok tt)
      | _ => mret Panic
      end
  end.

(** ** One connection *)

Definition token_char (c : Z) : bool :=
  between 48 c 57 || between 65 c 90 || between 97 c 122 || bool_decide (c ∈ lit "!#$%&'*+-.^_`|~").

Definition valid_attribution_header (h : str * str) : bool :=
  negb (bool_decide (fst h = [])) && forallb token_char (fst h)
  && negb (existsb (fun c => bool_decide (c ∈ [13; 10; 0])) (snd h)).

Definition filtered_attribution_headers (req : RequestHead) (names : BridgeNames) (hs : list (str * str))
  : list (str * str) :=
  let hs := filter (fun h => valid_attribution_header h) hs in
  let hs := filter (fun h => negb (eq_ignore_ascii_case (fst h) (lit "cookie"))) hs in
  upstream_request_headers (mkHead (method req) (target req) hs) names.

(** The headers [handle_conn] sends upstream. *)
Definition forwarded_headers (rt : BridgeRuntime) (req : RequestHead) : list (str * str) :=
  let attribution := filtered_attribution_headers req (bridge_names rt) (attribution_headers rt req) in
  foldl (fun hs a => filter (fun h => negb (eq_ignore_ascii_case (fst h) (fst a))) hs)
    (upstream_request_headers req (bridge_names rt)) attribution
  ++ attribution.

Definition forbidden (status : Z) : IO unit := write_local status (blit "forbidden") text_plain.

Definition is_ok {E A} (r : res E A) : bool := match r with Ok _ => true | _ => false end.

(** The redirect that sets the capability cookie. *)
Definition bootstrap_response (cap : str) (names : BridgeNames) : str :=
  lit "HTTP/1.1 302 Found" ++ CRLF
  ++ lit "Set-Cookie: " ++ capability_cookie_name names ++ lit "=" ++ cap ++ lit "; " ++ bootstrap_cookie_attributes ++ CRLF
  ++ lit "Location: /" ++ CRLF ++ lit "Cache-Control: no-store" ++ CRLF ++ lit "Referrer-Policy: no-referrer" ++ CRLF
  ++ lit "Content-Length: 0" ++ CRLF ++ lit "Connection: close" ++ CRLF ++ CRLF.

(** The [consume] of the browser authorizer at the time [now]. *)
Definition redeem_token (token : str) (now : Z) : IO bool := fun c =>
  match consume (tokens c) token now with (b, ok) => (Some ok, set_tokens b c) end.

Definition handle_bootstrap (rt : BridgeRuntime) (req : RequestHead) (cap : str) (now : Z) : IO unit :=
  if negb (is_ok (check_loopback_host req (port rt))) then forbidden 403
  else if negb (bool_decide (method req = lit "GET")) then forbidden 405
  else
    cap_ok ← (if browser_authorizer rt then
                redeemed ← match bootstrap_token (target req) with Some t => redeem_token t now | None => mret false end;
                mret (redeemed || is_ok (check_capability_cookie req (into_bytes cap) (bridge_names rt)))
              else
                mret match bootstrap_cap (target req) with
                     | Some presented => ct_eq (into_bytes presented) (into_bytes cap)
                     | None => false
                     end);
    if negb cap_ok then forbidden 403
    else
      _ ← write_all (into_bytes (bootstrap_response cap (bridge_names rt)));
      _ ← shutdown;
      mret tt.

Definition authorization (rt : BridgeRuntime) (req : RequestHead) : res RejectReason unit :=
  match capability rt with
  | Enabled cap => authorize req (into_bytes cap) (port rt) (bridge_names rt)
  | Disabled => check_loopback_host req (port rt)
  end.

(** [handle_conn]: [now] is the time of the authorizer's clock, [snapshot] the
    status the local policy sees. *)
Definition handle_conn (rt : BridgeRuntime) (now : Z) (snapshot : JournalBridgeStatus)
  (opening : OpenResult) (inputs : list Input) : IO (res unit unit) :=
  validated ← until_shutdown (read_validated_request_head (max_request_body_bytes rt));
  match validated with
  | Some Panic => mret Panic
  | None | Some (Err _) | Some (Ok None) => mret (Ok tt)
  | Some (Ok (Some v)) =>
      let req := v_head v in
      match bootstrap_capability (capability rt) (path req) with
      | Some cap => Ok <$> ignore (handle_bootstrap rt req cap now)
      | None =>
          if negb (is_ok (authorization rt req)) then Ok <$> ignore (forbidden 403)
          else
            match local_response rt req snapshot with
            | Some r => Ok <$> ignore (write_local (lr_status r) (lr_body r) (safe_content_type (lr_content_type r)))
            | None =>
                forward_upstream rt
                  (mkRequest req (forwarded_headers rt req) (v_prefix v) (v_declared v)
                     (if stream_response rt req then Streaming else Buffered))
                  opening inputs
            end
      end
  end.

Definition conn_new (arr : list Arrival) (fs : list Fate) (b : BootstrapTokens) : Conn :=
  mkConn arr fs [] false false false [] [] false 0 b.

(** ** The accept loop *)

(** Changes of the status made by the carrier while the bridge runs. *)
Inductive status_op :=
| OpDenied
| OpAttempt
| OpAccepted (attempt : Z)
| OpFailed (attempt : Z) (f : HandshakeFailure) (now : Z)
| OpDead (h : Z).

Definition apply_status (o : status_op) (s : StatusRecord) : StatusRecord :=
  match o with
  | OpDenied => latch_tls_access_denied s
  | OpAttempt => fst (begin_carrier_attempt s)
  | OpAccepted a => record_carrier_accepted a s
  | OpFailed a f now => record_carrier_failure a f now s
  | OpDead h => mark_carrier_dead h s
  end.

(** Where [accept_loop] stands: accepting, waiting for the carrier to shut down,
    joining its connection tasks, or returned with its last snapshot. *)
Inductive AcceptPhase :=
| Accepting
| ClosingCarrier
| Joining
| Returned (last : JournalBridgeStatus).

(** [unfinished] counts the connection tasks whose guard is not dropped. *)
Record Acceptor := mkAcceptor {
  a_status : StatusRecord;
  unfinished : nat;
  told : bool;
  a_phase : AcceptPhase
}.

Definition accept_new : Acceptor := mkAcceptor (listener_starts new_status) 0 false Accepting.

Inductive accept_event :=
| AcceptOk
| AcceptErr
| ConnEnds
| ShutdownAsked
| CarrierClosed
| AllJoined
| StatusChanges (o : status_op).

Definition accept_step (e : accept_event) (s : Acceptor) : option Acceptor :=
  match e, a_phase s with
  | AcceptOk, Accepting => Some (mkAcceptor (request_begins (a_status s)) (S (unfinished s)) (told s) Accepting)
  | AcceptErr, Accepting => Some s
  | ConnEnds, Returned _ => None
  | ConnEnds, p =>
      match unfinished s with
      | S n => Some (mkAcceptor (request_ends (a_status s)) n (told s) p)
      | O => None
      end
  | ShutdownAsked, Accepting => Some (mkAcceptor (a_status s) (unfinished s) true ClosingCarrier)
  | CarrierClosed, ClosingCarrier => Some (mkAcceptor (a_status s) (unfinished s) (told s) Joining)
  | AllJoined, Joining =>
      match unfinished s with
      | O => let st := listener_ends (a_status s) in Some (mkAcceptor st 0 (told s) (Returned (snapshot st)))
      | S _ => None
      end
  | StatusChanges o, _ => Some (mkAcceptor (apply_status o (a_status s)) (unfinished s) (told s) (a_phase s))
  | _, _ => None
  end.

Fixpoint accept_run (es : list accept_event) (s : Acceptor) : option Acceptor :=
  match es with
  | [] => Some s
  | e :: es => s ← accept_step e s; accept_run es s
  end.
