(* ===== verification/ServerRun.v ===== *)
(** * What a connection of the loopback bridge guarantees

    Theorems about [Server]: the head reader is independent of how the request
    is cut into segments, only admitted requests reach the journal, the journal
    receives a prefix of the declared body, and what the local caller reads is a
    prefix of one response determined by what the journal delivered, in which a
    declared body is whole only after the journal ended the stream cleanly. *)

From S2P Require Import Prelude Text Http Upload Assembler Carrier Redial Bridge Server.

(** ** Writing *)

(** [c'] is [c] with [p] more bytes sent; nothing but the socket's write side,
    the response handle and the shutdown flag differs. *)
Record wrote (p : list byte) (c c' : Conn) : Prop := {
  w_sent : sent c' = sent c ++ p;
  w_arrivals : arrivals c' = arrivals c;
  w_openings : openings c' = openings c;
  w_uploaded : uploaded c' = uploaded c;
  w_tokens : tokens c' = tokens c
}.

(** A socket on which every write completes. *)
Definition healthy (c : Conn) : Prop := fates c = [] /\ broken c = false /\ fin c = false /\ halted c = false.
Definition blocked (c : Conn) : bool := broken c || fin c.

Lemma wrote_refl c : wrote [] c c.
Proof. constructor; by rewrite ?app_nil_r. Qed.

Lemma wrote_trans p q c c' c'' : wrote p c c' -> wrote q c' c'' -> wrote (p ++ q) c c''.
Proof. intros [] []. constructor; [rewrite app_assoc|..]; congruence. Qed.

(** A step that leaves all but the write side alone. *)
Lemma wrote_same c c' :
  sent c' = sent c -> arrivals c' = arrivals c -> openings c' = openings c -> uploaded c' = uploaded c ->
  tokens c' = tokens c -> wrote [] c c'.
Proof. intros. constructor; by rewrite ?app_nil_r. Qed.

Lemma partly_prefix n b : partly n b `prefix_of` b.
Proof. apply prefix_take. Qed.

(** [m] writes [b] from [c], or the prefix [p] of it when a write fails or is
    overtaken; [closes] when it leaves the write side shut. *)
Record emitted (b : list byte) (closes : bool) (m : IO bool) (c : Conn) (p : list byte) : Prop := {
  e_wrote : wrote p c (snd (m c));
  e_prefix : p `prefix_of` b;
  e_halted : halted (snd (m c)) = halted c;
  e_true : fst (m c) = Some true -> p = b;
  e_false : fst (m c) = Some false -> blocked (snd (m c)) = true;
  e_blocked : blocked c = true -> p = [] /\ blocked (snd (m c)) = true;
  e_healthy : healthy c -> fst (m c) = Some true /\ (closes = false -> healthy (snd (m c)))
}.
Definition emits (b : list byte) (closes : bool) (m : IO bool) : Prop := forall c, exists p, emitted b closes m c p.

Lemma emits_write_all b : emits b false (write_all b).
Proof.
  intros c. destruct (bool_decide_reflect (b = [])) as [Hb|Hb].
  { subst b. exists []. constructor; try done. apply wrote_refl. }
  assert (E : write_all b c =
    if broken c || fin c then (Some false, c)
    else match fates c with
         | [] => (Some true, set_wire [] (sent c ++ b) (fin c) (broken c) c)
         | Done :: f => (Some true, set_wire f (sent c ++ b) (fin c) (broken c) c)
         | Cut n :: f => (Some false, set_wire f (sent c ++ partly n b) (fin c) true c)
         | Halt n :: f => (None, set_wire f (sent c ++ partly n b) (fin c) (broken c) c)
         end) by (unfold write_all; by rewrite bool_decide_false).
  destruct (broken c || fin c) eqn:Ed.
  { exists []. constructor; rewrite ?E; try done; [apply wrote_refl|apply prefix_nil|].
    intros (?&?&?&?). exfalso. lia. }
  destruct (fates c) as [|[|n|n] f] eqn:Ef; eexists; constructor; rewrite ?E; cbn [fst snd];
    try (constructor; reflexivity); try apply partly_prefix; try (unfold blocked in *; congruence);
    try done; intros (?&?&?&?); unfold healthy, set_wire; cbn [halted broken fin fates]; [done|congruence..].
Qed.

Lemma emits_shutdown : emits [] true shutdown.
Proof.
  intros c. exists []. destruct (broken c) eqn:Eb.
  { assert (E : shutdown c = (Some false, c)) by (unfold shutdown; by rewrite Eb).
    constructor; rewrite ?E; unfold blocked; cbn; rewrite ?Eb; try done; [apply wrote_refl|].
    intros (?&?&?&?). congruence. }
  destruct (fates c) as [|[|n|n] f] eqn:Ef; constructor; unfold shutdown; rewrite ?Eb, ?Ef; cbn [fst snd];
    try (by apply wrote_same); try done; unfold blocked; cbn; rewrite ?Eb; try done.
  all: intros (?&?&?&?); congruence.
Qed.

Lemma emits_and_then a b cl m k : emits a false m -> emits b cl k -> emits (a ++ b) cl (and_then m k).
Proof.
  intros Hm Hk c. destruct (Hm c) as [p [Hw Hp Hh Ht Hf Hb Hc]].
  assert (E : and_then m k c = match m c with
    | (Some true, c1) => k c1 | (Some false, c1) => (Some false, c1) | (None, c1) => (None, c1) end).
  { unfold and_then, mbind, IO_bind. by destruct (m c) as [[[]|] ?]. }
  destruct (m c) as [[[]|] c1]; cbn [fst snd] in *.
  - destruct (Hk c1) as [q [Hw' Hp' Hh' Ht' Hf' Hb' Hc']]. specialize (Ht eq_refl) as ->.
    exists (a ++ q). constructor; rewrite ?E.
    + by eapply wrote_trans.
    + by apply prefix_app.
    + congruence.
    + intros Hs. by rewrite Ht'.
    + done.
    + intros [-> [-> Hd]%Hb']%Hb. done.
    + intros [_ Hok]%Hc. by apply Hc', Hok.
  - exists p. constructor; rewrite ?E; cbn [fst snd]; try done; [by apply prefix_app_r|]. by intros [? _]%Hc.
  - exists p. constructor; rewrite ?E; cbn [fst snd]; try done; [by apply prefix_app_r|]. by intros [? _]%Hc.
Qed.

(** [m] answers with [b] and returns, whatever happens to the socket. *)
Record spoke (b : list byte) (m : IO unit) (c : Conn) (p : list byte) : Prop := {
  s_returns : fst (m c) = Some tt;
  s_wrote : wrote p c (snd (m c));
  s_prefix : p `prefix_of` b;
  s_halted : halted c = true -> p = [] /\ halted (snd (m c)) = true;
  s_healthy : healthy c -> p = b /\ halted (snd (m c)) = false
}.
Definition speaks (b : list byte) (m : IO unit) : Prop := forall c, exists p, spoke b m c p.

Lemma until_shutdown_eq {A} (m : IO A) c :
  until_shutdown m c =
    if halted c then (Some None, c)
    else (Some (fst (m c)), match fst (m c) with Some _ => snd (m c) | None => set_halted (snd (m c)) end).
Proof. unfold until_shutdown. destruct (halted c); [done|]. by destruct (m c) as [[?|] ?]. Qed.

Lemma ignore_eq {A} (m : IO A) c :
  ignore m c =
    (Some tt, if halted c then c else match fst (m c) with Some _ => snd (m c) | None => set_halted (snd (m c)) end).
Proof. unfold ignore, mbind, IO_bind. rewrite until_shutdown_eq. by destruct (halted c). Qed.

Lemma wrote_halted p c c' : wrote p c c' -> wrote p c (set_halted c').
Proof. by intros []. Qed.

(** A computation that ignores the errors of its writes: it writes [b] unless it
    is overtaken or the socket fails, after which it writes nothing. *)
Record murmured {A} (b : list byte) (m : IO A) (c : Conn) (p : list byte) : Prop := {
  m_wrote : wrote p c (snd (m c));
  m_prefix : p `prefix_of` b;
  m_halted : halted (snd (m c)) = halted c;
  m_blocked : blocked c = true -> p = [];
  m_healthy : healthy c -> is_Some (fst (m c)) /\ p = b
}.
Definition murmurs {A} (b : list byte) (m : IO A) : Prop := forall c, exists p, murmured b m c p.

Lemma emits_murmurs b cl m : emits b cl m -> murmurs b m.
Proof.
  intros Hm c. destruct (Hm c) as [p [Hw Hp Hh Ht Hf Hb Hc]]. exists p. constructor; try done.
  - by intros [? _]%Hb.
  - intros [Hs _]%Hc. split; [by rewrite Hs|by apply Ht].
Qed.

Lemma murmurs_then {A} a b m (k : IO A) : emits a false m -> murmurs b k -> murmurs (a ++ b) (_ ← m; k).
Proof.
  intros Hm Hk c. destruct (Hm c) as [p [Hw Hp Hh Ht Hf Hb Hc]].
  assert (E : (_ ← m; k) c = match m c with (Some _, c1) => k c1 | (None, c1) => (None, c1) end).
  { unfold mbind, IO_bind. by destruct (m c) as [[[]|] ?]. }
  destruct (m c) as [[r|] c1]; cbn [fst snd] in *.
  - destruct (Hk c1) as [q [Hw' Hp' Hh' Hb' Hc']]. exists (p ++ q).
    destruct r.
    + specialize (Ht eq_refl) as ->. constructor; rewrite ?E; [by eapply wrote_trans|by apply prefix_app|congruence| |].
      * intros [-> ->%Hb']%Hb. done.
      * intros [_ Hok]%Hc. destruct Hc' as [? ->]; auto.
    + specialize (Hf eq_refl). rewrite (Hb' Hf), app_nil_r in *.
      constructor; rewrite ?E.
      * rewrite <- (app_nil_r p). by eapply wrote_trans.
      * by apply prefix_app_r.
      * congruence.
      * by intros [-> _]%Hb.
      * by intros [? _]%Hc.
  - exists p. constructor; rewrite ?E; cbn [fst snd]; try done; [by apply prefix_app_r|by intros [-> _]%Hb|].
    by intros [? _]%Hc.
Qed.

Lemma speaks_ignore {A} b (m : IO A) : murmurs b m -> speaks b (ignore m).
Proof.
  intros Hm c. destruct (Hm c) as [p [Hw Hp Hh Hb Hc]]. destruct (halted c) eqn:Eh.
  - exists []. constructor; rewrite ?ignore_eq, ?Eh; try done; [apply wrote_refl|apply prefix_nil|].
    intros (?&?&?&?). congruence.
  - exists p. constructor; rewrite ?ignore_eq, ?Eh; cbn [fst snd]; try done.
    + destruct (fst (m c)); [done|by apply wrote_halted].
    + intros [[x Hs] Hp']%Hc. rewrite Hs. done.
Qed.

(** *** The answers *)

(** What a local caller may read on one connection: nothing, an answer of the
    bridge itself, the bootstrap redirect, or an answer of the journal. *)
Inductive Reply :=
| NoReply
| LocalReply (status : Z) (body : list byte) (content_type : str)
| CookieReply (cap : str) (names : BridgeNames)
| Answer (status : Z) (headers : list (str * str)) (content_length : option Z) (body : list byte).

Definition render (r : Reply) : list byte :=
  match r with
  | NoReply => []
  | LocalReply st b ct => into_bytes (local_head st (len b) ct) ++ b
  | CookieReply cap names => into_bytes (bootstrap_response cap names)
  | Answer st hs n b => into_bytes (stream_head st hs n) ++ b
  end.

Definition bad_gateway : Reply := LocalReply 502 (blit "journal unreachable") text_plain.
Definition bad_request : Reply := LocalReply 400 (blit "bad request") text_plain.
Definition denied (status : Z) : Reply := LocalReply status (blit "forbidden") text_plain.

Lemma murmurs_mret {A} (a : A) : murmurs [] (mret a : IO A).
Proof. intros c. exists []. constructor; try done. apply wrote_refl. Qed.

Lemma murmurs_close {A} (m : IO bool) (a : A) : emits [] true m -> murmurs [] (_ ← m; mret a).
Proof.
  intros Hm c. destruct (Hm c) as [p [Hw Hp Hh Ht Hf Hb Hc]].
  assert (E : (_ ← m; mret a) c = (match fst (m c) with Some _ => Some a | None => None end, snd (m c))).
  { unfold mbind, IO_bind, mret, IO_ret. by destruct (m c) as [[[]|] ?]. }
  exists p. constructor; rewrite ?E; cbn [fst snd]; try done.
  - by intros [? _]%Hb.
  - intros [Hs _]%Hc. rewrite Hs. split; [done|by apply Ht].
Qed.

Lemma write_local_murmurs st b ct : murmurs (render (LocalReply st b ct)) (write_local st b ct).
Proof.
  unfold write_local. cbn [render]. apply murmurs_then; [apply emits_write_all|].
  rewrite <- (app_nil_r b) at 1. apply murmurs_then; [apply emits_write_all|].
  apply murmurs_close, emits_shutdown.
Qed.

Lemma write_upstream_response_emits st hs b n :
  emits (render (Answer st hs n b)) true (write_upstream_response st hs b n).
Proof.
  unfold write_upstream_response. cbn [render]. apply emits_and_then; [apply emits_write_all|].
  rewrite <- (app_nil_r b) at 1. apply emits_and_then; [apply emits_write_all|apply emits_shutdown].
Qed.

Lemma unreachable_speaks : speaks (render bad_gateway) (ignore unreachable).
Proof. apply speaks_ignore, write_local_murmurs. Qed.

(** ** Reading the request head *)

(** The bytes that arrive before the peer ends or the socket fails. *)
Fixpoint flat (l : list Arrival) : list byte :=
  match l with
  | Chunk b bs :: rest => b :: bs ++ flat rest
  | _ => []
  end.

Lemma flat_rest n b bs rest :
  0 <= n ->
  flat (match zdrop n (b :: bs) with [] => rest | b' :: bs' => Chunk b' bs' :: rest end)
  = zdrop n (b :: bs) ++ flat rest.
Proof. intros. by destruct (zdrop n (b :: bs)). Qed.

(** A read returns the next bytes, at most [n] and at least one, or finds the
    end of what arrives. *)
Lemma read_spec n c :
  1 <= n ->
  (exists bytes a, read n c = (Some (Ok bytes), set_arrivals a c) /\ bytes <> [] /\ len bytes <= n /\
     flat (arrivals c) = bytes ++ flat a) \/
  (flat (arrivals c) = [] /\ snd (read n c) = c /\
     (fst (read n c) = None \/ fst (read n c) = Some (Ok []) \/ fst (read n c) = Some (Err tt))).
Proof.
  intros Hn. unfold read. destruct (arrivals c) as [|[b bs| |] rest] eqn:E.
  - right. auto.
  - left. eexists _, _. split; [reflexivity|]. split; [by destruct (Z.to_nat n) eqn:?; [lia|]|].
    split; [rewrite length_take; lia|].
    rewrite flat_rest by lia. cbn [flat]. by rewrite app_assoc, take_drop.
  - right. auto.
  - right. auto.
Qed.

Lemma set_arrivals_twice a b c : set_arrivals a (set_arrivals b c) = set_arrivals a c.
Proof. done. Qed.

(** The outcome of the head reader when [total] is everything that arrives. *)
Definition head_outcome (total : list byte) (c : Conn)
  (o : option (res RequestReadError (list byte * list byte)) * Conn) : Prop :=
  match find_header_end total with
  | Some i =>
      if i + 4 <=? MAX_REQUEST_HEAD_BYTES then
        exists p a, o = (Some (Ok (ztake (i + 4) total, p)), set_arrivals a c) /\
          p ++ flat a = zdrop (i + 4) total /\ len p < READ_BUF_BYTES
      else exists a, o = (Some (Err ReadInvalid), set_arrivals a c)
  | None => exists r a, o = (r, set_arrivals a c) /\ (r = None \/ exists e, r = Some (Err e))
  end.

Lemma read_head_loop_spec fuel received c0 c :
  (exists a, c = set_arrivals a c0) ->
  find_header_end received = None -> len received <= MAX_REQUEST_HEAD_BYTES ->
  MAX_REQUEST_HEAD_BYTES - len received < Z.of_nat fuel ->
  head_outcome (received ++ flat (arrivals c)) c0 (read_head_loop fuel received c).
Proof.
  revert received c. induction fuel as [|fuel IH]; intros received c [a0 ->] Hnone Hmax Hfuel; [lia|].
  cbn [read_head_loop]. unfold checked_sub. replace (len received <=? MAX_REQUEST_HEAD_BYTES) with true by lia.
  set (c := set_arrivals a0 c0) in *.
  assert (Hlate : forall i, find_header_end (received ++ flat (arrivals c)) = Some i -> len received < i + 4).
  { intros i Hi. by apply (find_subsequence_late _ _ _ _ Hnone) in Hi. }
  destruct (_ =? 0) eqn:E0.
  { unfold head_outcome. destruct (find_header_end (received ++ flat (arrivals c))) as [i|] eqn:Ei.
    - specialize (Hlate i eq_refl). replace (i + 4 <=? _) with false by lia. by exists a0.
    - eexists _, a0. split; [done|]. eauto. }
  set (n := Z.min _ READ_BUF_BYTES). assert (1 <= n <= READ_BUF_BYTES /\ len received + n <= MAX_REQUEST_HEAD_BYTES)
    as ((Hn1&Hn2)&Hn3) by (unfold n, READ_BUF_BYTES; lia).
  change (mbind _ (read n)) with (fun c => match read n c with
    | (Some a, c') => (match a with
       | Ok [] => mret (Err ReadInvalid)
       | Ok bytes => match find_header_end (received ++ bytes) with
          | Some split => mret (Ok (ztake (split + 4) (received ++ bytes), zdrop (split + 4) (received ++ bytes)))
          | None => read_head_loop fuel (received ++ bytes) end
       | Err _ => mret (Err ReadIo) | Panic => mret Panic end : IO _) c'
    | (None, c') => (None, c') end).
  cbn beta.
  destruct (read_spec n c Hn1) as [(bytes&a&->&Hne&Hlen&Hflat)|(Hflat&Hc&Hr)].
  - destruct bytes as [|b bs] eqn:Eb; [done|]. rewrite <- Eb in *. clear Hne.
    rewrite Hflat, app_assoc.
    destruct (find_header_end (received ++ bytes)) as [i|] eqn:Ei.
    + unfold head_outcome. unfold find_header_end at 1. rewrite (find_subsequence_mono _ _ _ _ Ei).
      apply find_subsequence_Some in Ei as Hi. apply (find_subsequence_late _ _ _ _ Hnone) in Ei.
      cbn [length bCRLF2] in Hi, Ei. rewrite length_app in Hi.
      replace (i + 4 <=? _) with true by lia.
      exists (zdrop (i + 4) (received ++ bytes)), a. split_and!.
      * rewrite (take_app_le (received ++ bytes)) by (rewrite length_app; lia). by subst bytes.
      * by rewrite (drop_app_le (received ++ bytes)) by (rewrite length_app; lia).
      * rewrite length_drop, length_app. change (Z.of_nat 4) with 4 in *. lia.
    + apply (IH (received ++ bytes) (set_arrivals a c)); [by exists a|done|rewrite length_app; lia|].
      rewrite length_app. destruct bytes; [done|]. cbn [length]. lia.
  - rewrite Hflat, app_nil_r. unfold head_outcome. rewrite Hnone.
    destruct (read n c) as [r c'] eqn:Er. cbn [fst snd] in *. subst c'.
    destruct Hr as [-> | [-> | -> ]]; eexists _, a0; split; try reflexivity; eauto.
Qed.

(** ** Uploading *)

(** Everything but what was read and handed over is as it was. *)
Definition same_wire (c c' : Conn) : Prop :=
  exists a w, c' = mkConn a (fates c) (sent c) (fin c) (broken c) (halted c) (openings c) w (rx_done c) (resets c) (tokens c).

Lemma same_wire_refl c : same_wire c c.
Proof. exists (arrivals c), (uploaded c). by destruct c. Qed.

(** Of the body [prefix ++ flat0] the journal was sent the first [read_bytes]
    bytes, and the socket holds what follows. *)
Record body_inv (base prefix flat0 : list byte) (declared : Z) (u : LocalBodyUpload) (c : Conn) : Prop := {
  bi_prefix : b_prefix u = ztake declared prefix;
  bi_declared : declared_body_len u = declared;
  bi_read : 0 <= read_bytes u <= declared;
  bi_uploaded : exists w, uploaded c = base ++ w /\ w `prefix_of` ztake declared (prefix ++ flat0) /\
    (b_active u = true -> len w = read_bytes u /\
       if prefix_offset u <? len (b_prefix u)
       then prefix_offset u = 0 /\ read_bytes u = 0 /\ flat (arrivals c) = flat0
       else prefix_offset u = len (b_prefix u) /\
         (read_bytes u < declared -> prefix ++ flat0 = w ++ flat (arrivals c)))
}.

Lemma body_inv_stop base prefix flat0 declared u c :
  body_inv base prefix flat0 declared u c -> body_inv base prefix flat0 declared (body_stop u) c.
Proof. intros [H1 H2 H3 (w&H4&H5&_)]. constructor; try done. by exists w. Qed.

(** The invariant only looks at the arrivals while the upload is active. *)
Lemma body_inv_inactive base prefix flat0 declared u c c' :
  body_inv base prefix flat0 declared u c -> b_active u = false -> uploaded c' = uploaded c ->
  body_inv base prefix flat0 declared u c'.
Proof. intros [H1 H2 H3 (w&H4&H5&_)] Ha Hu. constructor; try done. exists w. split_and!; [congruence|done|congruence]. Qed.

Lemma body_inv_wire base prefix flat0 declared u c c' :
  body_inv base prefix flat0 declared u c -> uploaded c' = uploaded c -> arrivals c' = arrivals c ->
  body_inv base prefix flat0 declared u c'.
Proof. intros [H1 H2 H3 (w&H4&H5&H6)] Hu Ha. constructor; try done. exists w. rewrite Hu, Ha. done. Qed.

Lemma body_inv_new prefix declared c :
  0 <= declared -> body_inv (uploaded c) prefix (flat (arrivals c)) declared (body_new prefix declared) c.
Proof.
  intros Hd. constructor; try done. exists []. rewrite app_nil_r. split; [done|]. split; [apply prefix_nil|].
  intros _. cbn [prefix_offset b_prefix body_new read_bytes]. split; [done|].
  destruct (ztake declared prefix) as [|x l] eqn:E; cbn [length].
  - replace (0 <? Z.of_nat 0) with false by lia. split; [done|]. intros Hlt.
    destruct prefix; [done|]. by replace (Z.to_nat declared) with (S (Z.to_nat (declared - 1))) in E by lia.
  - by replace (0 <? Z.of_nat (S (length l))) with true by lia.
Qed.

(** The end of a successful advance. *)
Lemma body_inv_advanced base prefix flat0 declared u c :
  body_inv base prefix flat0 declared u c ->
  let (u', r) := advanced u in
  is_panic r = false /\
  (r = Err BodyPipe \/ r = Err BodyIo \/ exists x, r = Ok x) /\
  body_inv base prefix flat0 declared (match r with Err BodyPipe => body_stop u' | _ => u' end) c.
Proof. intros H. unfold advanced. destruct (_ =? _); eauto 8 using body_inv_stop. Qed.

(** Run what is left of an [IO] computation. *)
Ltac done_io := unfold mret, IO_ret; cbn [fst snd]; by eauto 8.

(** An advance uploads the next bytes of the body and never panics. *)
Lemma advance_spec base prefix flat0 declared g d u c :
  body_inv base prefix flat0 declared u c -> b_active u = true ->
  same_wire c (snd (advance g d u c)) /\
  match fst (advance g d u c) with
  | None => exists w, uploaded (snd (advance g d u c)) = base ++ w /\ w `prefix_of` ztake declared (prefix ++ flat0)
  | Some (u', r) => is_panic r = false /\
      (r = Err BodyPipe \/ r = Err BodyIo \/ exists x, r = Ok x) /\
      body_inv base prefix flat0 declared (match r with Err BodyPipe => body_stop u' | _ => u' end) (snd (advance g d u c))
  end.
Proof.
  intros H Hact. destruct H as [H1 H2 H3 (w&H4&H5&H6)]. destruct (H6 Hact) as [Hlen Hcase].
  assert (Hinv : body_inv base prefix flat0 declared u c) by (constructor; eauto 8).
  assert (Hstop : body_inv base prefix flat0 declared (body_stop u) c) by by apply body_inv_stop.
  assert (Hnow : same_wire c c) by apply same_wire_refl.
  unfold advance, checked_sub. rewrite H2, Hact. replace (read_bytes u <=? declared) with true by lia. cbn [negb].
  destruct (_ =? 0) eqn:E0; [done_io|].
  destruct (prefix_offset u <? len (b_prefix u)) eqn:Eo.
  - destruct Hcase as (Ho&Hr&Hf). rewrite Ho, Hr, H1 in *.
    assert (Hc : Z.min (len (ztake declared prefix) - 0) (declared - 0) = len (ztake declared prefix))
      by (rewrite length_take in *; lia).
    rewrite Hc. destruct g; try done_io.
    unfold get_range, slice. replace (_ && _) with true by lia. rewrite Z.add_0_l, Z.sub_0_r, drop_0, Nat2Z.id, firstn_all.
    destruct d; [|done_io]. unfold mbind, IO_bind, modify. cbn [fst snd mret IO_ret].
    assert (w = []) as -> by (destruct w; [done|cbn in Hlen; lia]). rewrite app_nil_r in H4.
    assert (Hw : same_wire c (log_upload (ztake declared prefix) c)) by (eexists _, _; reflexivity).
    split; [done|]. unfold mret, IO_ret. cbn [fst snd].
    apply body_inv_advanced.
    constructor; [done..|cbn [read_bytes]; rewrite length_take; lia|].
    exists (ztake declared prefix). cbn [uploaded log_upload]. split; [by rewrite H4|].
    split; [rewrite take_app; apply prefix_app_r; done|]. intros _. split; [done|]. cbn [prefix_offset b_prefix].
    replace (_ <? _) with false by lia. split; [done|]. cbn [read_bytes]. intros Hlt. cbn [arrivals log_upload].
    rewrite Hf. f_equal. symmetry. apply take_ge. rewrite length_take in Hlt. lia.
  - destruct Hcase as [Ho Hf]. specialize (Hf ltac:(lia)).
    destruct g; try done_io.
    destruct (read_spec (Z.min (declared - read_bytes u) READ_BUF_BYTES) c) as [(bytes&a&Er&Hne&Hle&Hfl)|(Hfl&Hc&Hr)];
      [unfold READ_BUF_BYTES; lia| |].
    + unfold mbind, IO_bind. rewrite Er. destruct bytes as [|b bs] eqn:Eb; [done|]. rewrite <- Eb in *.
      assert (Hw1 : same_wire c (set_arrivals a c)) by (eexists _, _; reflexivity).
      destruct d; cbn [fst snd modify mret IO_ret].
      * unfold modify, mret, IO_ret. cbn [fst snd].
        assert (Hw : same_wire c (log_upload bytes (set_arrivals a c))) by (eexists _, _; reflexivity).
        split; [done|]. apply body_inv_advanced.
        constructor; [done..|cbn [read_bytes]; lia|].
        exists (w ++ bytes). cbn [uploaded log_upload set_arrivals]. rewrite H4, app_assoc. split; [done|].
        assert (Hsplit : prefix ++ flat0 = (w ++ bytes) ++ flat a) by (by rewrite Hf, Hfl, app_assoc).
        split.
        { rewrite Hsplit, take_app_ge by (rewrite length_app; lia). by apply prefix_app_r. }
        intros _. cbn [read_bytes prefix_offset b_prefix arrivals]. rewrite length_app. split; [lia|]. by rewrite Eo.
      * split; [done|]. split; [done|]. split; [auto|].
        eapply body_inv_inactive; [exact Hstop|done|done].
    + unfold mbind, IO_bind. destruct (read _ c) as [r c'] eqn:Er. cbn [fst snd] in *. subst c'.
      destruct Hr as [-> | [-> | -> ]]; done_io.
Qed.

(** ** The reply the journal's deliveries determine *)

(** A delivery of the carrier, [None] when its channel was closed. *)
Abbreviation Log := (list (option DeliveryEvent)).

Definition delivered_item (d : option DeliveryEvent) : option StreamItem :=
  match d with Some (DStream e) => Some (item e) | _ => None end.

Definition head_of_delivery (d : option DeliveryEvent) : option HttpHead :=
  match delivered_item d with Some (ItemHead h) => Some h | _ => None end.
Definition early_of_delivery (d : option DeliveryEvent) : option HttpHead :=
  match d with Some (EarlyFinal h) => Some h | _ => None end.
Definition chunk_of_delivery (d : option DeliveryEvent) : option (list byte) :=
  match delivered_item d with Some (ItemBody b) => Some b | _ => None end.
Definition is_close (d : option DeliveryEvent) : bool :=
  match delivered_item d with Some (ItemEnd EndClose) => true | _ => false end.

Definition log_head (l : Log) : option HttpHead := head (omap head_of_delivery l).
Definition log_early (l : Log) : option HttpHead := head (omap early_of_delivery l).
Definition log_chunks (l : Log) : list (list byte) := omap chunk_of_delivery l.
Definition log_clean (l : Log) : bool := existsb is_close l.

(** The chunks that fit a declared length, taken until one exceeds it. *)
Fixpoint kept (room : Z) (chunks : list (list byte)) : list byte :=
  match chunks with
  | [] => []
  | x :: rest => if room <? len x then [] else x ++ kept (room - len x) rest
  end.

Section Replies.
Context (rt : BridgeRuntime) (req : RequestHead).

(** The answer to a request whose journal sent the head [h] and the body
    [chunks], and ended the stream cleanly or not. *)
Definition journal_answer (mode : ResponseMode) (h : HttpHead) (chunks : list (list byte)) (clean : bool) : Reply :=
  let st := hh_status h in
  let hs := rewritten rt h in
  let all := concat chunks in
  match mode with
  | Buffered =>
      let declared := upstream_content_length (hh_headers h) in
      if negb clean then bad_gateway
      else if is_head req then Answer st hs (Some (default 0 declared)) []
      else if match declared with Some d => negb (d =? len all) | None => false end then bad_gateway
      else Answer st hs (Some (len all)) all
  | Streaming =>
      if is_head req then Answer st hs (streamed_length req h) []
      else match streamed_length req h with
           | None => Answer st hs None all
           | Some d =>
               if d =? 0 then if clean && bool_decide (all = []) then Answer st hs (Some 0) [] else bad_gateway
               else if clean && (len all =? d) then Answer st hs (Some d) all
               else Answer st hs (Some d) (ztake (d - 1) (kept d chunks))
           end
  end.

(** The answer of a journal that refused the request before its body was sent. *)
Definition early_answer (h : HttpHead) : Reply :=
  if between 200 (hh_status h) 299 then bad_gateway
  else Answer (hh_status h) (rewritten rt h)
         (Some (if is_head req then default 0 (upstream_content_length (hh_headers h)) else 0)) [].

Definition reply_of (mode : ResponseMode) (l : Log) : Reply :=
  match log_early l, log_head l with
  | Some h, _ => early_answer h
  | None, Some h => journal_answer mode h (log_chunks l) (log_clean l)
  | None, None => bad_gateway
  end.

(** *** The forwarder's state once the journal sent the head [h] and the body
    bytes [all]: [p] was sent so far *)
Definition answering (mode : ResponseMode) (h : HttpHead) (all : list byte) (f : ResponseForwarder) (p : list byte) : Prop :=
  let st := hh_status h in
  let hs := rewritten rt h in
  match mode with
  | Buffered => p = [] /\ f_head f = Some h /\ f_body f = all
  | Streaming =>
      if is_head req then
        p = render (Answer st hs (streamed_length req h) []) /\ head_written f = true /\
        deferred_head f = None /\ declared_len f = None /\ held_last f = None
      else match streamed_length req h with
           | None =>
               p = render (Answer st hs None all) /\ head_written f = true /\
               deferred_head f = None /\ declared_len f = None /\ held_last f = None
           | Some d =>
               if d =? 0 then
                 p = [] /\ all = [] /\ deferred_head f = Some (st, hs) /\ head_written f = false
               else
                 p = render (Answer st hs (Some d) (ztake (d - 1) all)) /\ head_written f = true /\
                 deferred_head f = None /\ declared_len f = Some d /\ received_len f = len all /\ len all <= d /\
                 held_last f = if len all =? d then list.last all else None
           end
  end.

(** The same after the deliveries [l] of which none ended the exchange. *)
Definition fwd (mode : ResponseMode) (l : Log) (f : ResponseForwarder) (p : list byte) : Prop :=
  f_mode f = mode /\ log_early l = None /\ log_clean l = false /\
  match log_head l with
  | None => p = [] /\ f = forwarder_new mode /\ log_chunks l = []
  | Some h => answering mode h (concat (log_chunks l)) f p
  end.

Lemma kept_all room chunks : len (concat chunks) <= room -> kept room chunks = concat chunks.
Proof.
  revert room. induction chunks as [|x r IH]; intros room H; [done|]. cbn in *. rewrite length_app in H.
  replace (room <? len x) with false by lia. rewrite IH by lia. done.
Qed.

Lemma kept_over room chunks x :
  len (concat chunks) <= room -> room < len (concat chunks) + len x -> kept room (chunks ++ [x]) = concat chunks.
Proof.
  revert room. induction chunks as [|y r IH]; intros room H1 H2; cbn in *.
  - by replace (room <? len x) with true by lia.
  - rewrite length_app in *. replace (room <? len y) with false by lia. rewrite IH by lia. done.
Qed.

Lemma kept_prefix room chunks : kept room chunks `prefix_of` concat chunks.
Proof.
  revert room. induction chunks as [|x k IH]; intros room; [done|]. cbn.
  destruct (room <? len x); [apply prefix_nil|]. apply prefix_app, IH.
Qed.

Lemma streamed_length_range h d : streamed_length req h = Some d -> 0 <= d < 2 ^ 64.
Proof.
  assert (H : forall n, upstream_content_length (hh_headers h) = Some n -> 0 <= n < 2 ^ 64).
  { intros n. unfold upstream_content_length. destruct (find_header _ _) as [[]|]; cbn; [|done].
    intros Hn. by apply parse_uint_range in Hn. }
  unfold streamed_length. destruct (is_head req).
  - intros [= <-]. destruct (upstream_content_length _) as [n|] eqn:E; cbn; [by apply H|lia].
  - case_match; [apply H|done].
Qed.

Lemma log_head_app l d :
  log_head (l ++ [d]) = match log_head l with Some h => Some h | None => head_of_delivery d end.
Proof.
  unfold log_head. rewrite omap_app. destruct (omap head_of_delivery l); [|done]. cbn. by destruct (head_of_delivery d).
Qed.
Lemma log_early_app l d :
  log_early (l ++ [d]) = match log_early l with Some h => Some h | None => early_of_delivery d end.
Proof.
  unfold log_early. rewrite omap_app. destruct (omap early_of_delivery l); [|done]. cbn. by destruct (early_of_delivery d).
Qed.
Lemma log_chunks_app l d :
  log_chunks (l ++ [d]) = log_chunks l ++ match chunk_of_delivery d with Some x => [x] | None => [] end.
Proof. unfold log_chunks. rewrite omap_app. cbn. by destruct (chunk_of_delivery d). Qed.
Lemma log_clean_app l d : log_clean (l ++ [d]) = log_clean l || is_close d.
Proof. unfold log_clean. rewrite existsb_app. cbn. by rewrite orb_false_r. Qed.
Hint Rewrite log_head_app log_early_app log_chunks_app log_clean_app : logs.

(** Completing the answer: [m] adds to the [p] already sent what is missing of
    [r]; [healthy] sockets get all of it. *)
Definition completes (p : list byte) (r : Reply) (m : IO unit) : Prop := forall c, exists q,
  fst (m c) = Some tt /\ wrote q c (snd (m c)) /\ (p ++ q) `prefix_of` render r /\
  (healthy c -> p ++ q = render r /\ halted (snd (m c)) = false).

Lemma completes_speaks p b r m : speaks b m -> p ++ b = render r -> completes p r m.
Proof.
  intros Hm Hr c. destruct (Hm c) as [q [H1 H2 H3 _ H5]]. exists q. split_and!; try done.
  - rewrite <- Hr. by apply prefix_app.
  - intros [-> ?]%H5. done.
Qed.

(** The last byte and the end of the stream. *)
Lemma speaks_last b : speaks b (_ ← ignore (write_all b); ignore shutdown).
Proof.
  intros c. destruct (emits_write_all b c) as [p [Hw Hp Hh Ht Hf Hb Hc]].
  assert (E : (_ ← ignore (write_all b); ignore shutdown) c = ignore shutdown (snd (ignore (write_all b) c))).
  { unfold mbind, IO_bind at 1. by rewrite ignore_eq. }
  destruct (halted c) eqn:Eh.
  - exists []. rewrite (ignore_eq (write_all b)), Eh in E. cbn [snd] in E. rewrite ignore_eq, Eh in E.
    constructor; rewrite ?E; try done; [apply wrote_refl|apply prefix_nil|]. intros (?&?&?&?). congruence.
  - rewrite (ignore_eq (write_all b)), Eh in E. cbn [snd] in E.
    set (c1 := match fst (write_all b c) with Some _ => _ | None => _ end) in *.
    destruct (speaks_ignore [] shutdown (emits_murmurs _ _ _ emits_shutdown) c1) as [q [Hs1 Hs2 Hs3 Hs4 Hs5]].
    apply prefix_nil_inv in Hs3 as ->.
    assert (Hc1 : wrote p c c1) by (unfold c1; destruct (fst _); [done|by apply wrote_halted]).
    exists p. constructor; rewrite ?E; try done.
    + rewrite <- (app_nil_r p). by eapply wrote_trans.
    + congruence.
    + intros Hok. destruct (Hc Hok) as [Hs Hk]. split; [by apply Ht|]. apply Hs5.
      unfold c1. rewrite Hs. by apply Hk.
Qed.

Lemma speaks_shutdown : speaks [] (ignore shutdown).
Proof. eapply speaks_ignore, emits_murmurs, emits_shutdown. Qed.

Lemma last_split (l : list byte) : l <> [] -> exists b, list.last l = Some b /\ l = take (length l - 1) l ++ [b].
Proof.
  intros Hl. destruct (list.last l) as [b|] eqn:E; [|by apply last_None in E].
  exists b. split; [done|]. apply last_Some in E as [k ->].
  by rewrite length_app, Nat.add_sub, take_app_length.
Qed.

Lemma bad_gateway_completes : completes [] bad_gateway (ignore unreachable).
Proof. eapply completes_speaks; [apply unreachable_speaks|done]. Qed.

Lemma cancel_wrote c : wrote [] c (snd (cancel c)).
Proof. unfold cancel. cbn. destruct (rx_done c); [apply wrote_refl|by apply wrote_same]. Qed.
Lemma cancel_halted c : halted (snd (cancel c)) = halted c.
Proof. unfold cancel. cbn. by destruct (rx_done c). Qed.
Lemma cancel_healthy c : healthy c -> healthy (snd (cancel c)).
Proof. unfold cancel. cbn. by destruct (rx_done c). Qed.

(** A write that cancels the journal's stream when it does not complete. *)
Lemma speaks_or_cancel b cl m :
  emits b cl m -> speaks b (w ← until_shutdown m; match w with Some true => mret tt | _ => cancel end).
Proof.
  intros Hm c. destruct (Hm c) as [p [Hw Hp Hh Ht Hf Hb Hc]].
  set (body := w ← until_shutdown m; _).
  assert (E : body c = if halted c then (Some tt, snd (cancel c)) else
    match fst (m c) with
    | Some true => (Some tt, snd (m c))
    | Some false => (Some tt, snd (cancel (snd (m c))))
    | None => (Some tt, snd (cancel (set_halted (snd (m c)))))
    end).
  { unfold body, mbind, IO_bind. rewrite until_shutdown_eq. destruct (halted c); [done|].
    by destruct (fst (m c)) as [[]|]. }
  destruct (halted c) eqn:Eh.
  - exists []. constructor; rewrite ?E; cbn [fst snd]; try done.
    + apply cancel_wrote.
    + apply prefix_nil.
    + split; [done|]. by rewrite cancel_halted.
    + intros (?&?&?&?). congruence.
  - exists p. destruct (fst (m c)) as [[]|] eqn:Em; constructor; rewrite ?E; cbn [fst snd]; try done; try congruence.
    + intros _. by rewrite Hh, Ht.
    + rewrite <- (app_nil_r p). eapply wrote_trans; [done|apply cancel_wrote].
    + by intros [? _]%Hc.
    + rewrite <- (app_nil_r p). eapply wrote_trans; [by apply wrote_halted|apply cancel_wrote].
    + by intros [? _]%Hc.
Qed.

(** The same with different results. *)
Lemma guarded_write {A} b cl m (ok ko : A) c :
  emits b cl m ->
  (exists c', (w ← until_shutdown m; match w with Some true => mret ok | _ => _ ← cancel; mret ko end : IO A) c
       = (Some ok, c') /\ wrote b c c' /\ (healthy c -> cl = false -> healthy c')) \/
  (exists q c', (w ← until_shutdown m; match w with Some true => mret ok | _ => _ ← cancel; mret ko end : IO A) c
       = (Some ko, c') /\ wrote q c c' /\ q `prefix_of` b /\ ~ healthy c).
Proof.
  intros Hm. destruct (Hm c) as [p [Hw Hp Hh Ht Hf Hb Hc]].
  unfold mbind, IO_bind. rewrite until_shutdown_eq. destruct (halted c) eqn:Eh.
  { right. exists [], (snd (cancel c)). split_and!; [done|apply cancel_wrote|apply prefix_nil|].
    intros (?&?&?&?). congruence. }
  destruct (fst (m c)) as [[]|] eqn:Em.
  - left. exists (snd (m c)). rewrite <- (Ht eq_refl). split_and!; try done. intros Hok. by apply Hc.
  - right. exists p, (snd (cancel (snd (m c)))). split_and!; try done; [|by intros [? _]%Hc].
    rewrite <- (app_nil_r p). eapply wrote_trans; [done|apply cancel_wrote].
  - right. exists p, (snd (cancel (set_halted (snd (m c))))). split_and!; try done; [|by intros [? _]%Hc].
    rewrite <- (app_nil_r p). eapply wrote_trans; [by apply wrote_halted|apply cancel_wrote].
Qed.

(** Deliveries that add neither a head nor a body. *)
Lemma log_end l d :
  head_of_delivery d = None -> early_of_delivery d = None -> chunk_of_delivery d = None ->
  log_early l = None -> log_clean l = false ->
  forall mode, reply_of mode (l ++ [d]) = match log_head l with
    | Some h => journal_answer mode h (log_chunks l) (is_close d)
    | None => bad_gateway
    end.
Proof.
  intros H1 H2 H3 H4 H5 mode. unfold reply_of. autorewrite with logs. rewrite H1, H2, H3, H4, H5, app_nil_r.
  by destruct (log_head l).
Qed.

(** A clean end completes the reply. *)
Lemma server_finish_spec mode l f p d :
  fwd mode l f p -> is_close d = true -> completes p (reply_of mode (l ++ [d])) (finish rt req f).
Proof.
  intros (Hm&He&Hcl&Hf) Hd.
  rewrite log_end, Hd; [|by destruct d as [[e| |]|]; cbn in *; try done; unfold head_of_delivery, chunk_of_delivery, is_close in *; cbn in *; destruct (item e)..|done|done].
  unfold finish. rewrite Hm. destruct (log_head l) as [h|].
  2:{ destruct Hf as (->&->&_). cbn. destruct mode; apply bad_gateway_completes. }
  unfold answering in Hf. destruct mode; cbn [journal_answer negb].
  - destruct Hf as (->&->&->). destruct (is_head req) eqn:Eh; cbn [negb andb].
    + eapply completes_speaks; [eapply speaks_or_cancel, write_upstream_response_emits|done].
    + destruct (match upstream_content_length _ with Some _ => _ | None => _ end); [apply bad_gateway_completes|].
      eapply completes_speaks; [eapply speaks_or_cancel, write_upstream_response_emits|done].
  - destruct (is_head req).
    { destruct Hf as (->&->&->&->&->). cbn [andb].
      eapply completes_speaks; [|apply app_nil_r]. apply speaks_shutdown. }
    destruct (streamed_length req h) as [n|] eqn:En.
    2:{ destruct Hf as (->&->&->&->&->). eapply completes_speaks; [|apply app_nil_r]. apply speaks_shutdown. }
    apply streamed_length_range in En. destruct (n =? 0) eqn:E0.
    + destruct Hf as (->&->&->&_). rewrite bool_decide_true by done. cbn [andb].
      eapply completes_speaks; [eapply speaks_ignore, emits_murmurs, emits_and_then;
        [apply emits_write_all|apply emits_shutdown]|done].
    + destruct Hf as (->&->&->&->&->&Hle&->). rewrite kept_all by done. cbn [andb].
      rewrite (Z.eqb_sym n). destruct (_ =? n) eqn:Ec.
      * destruct (last_split (concat (log_chunks l))) as (b&->&Hb); [intros Hnil; rewrite Hnil in Ec; cbn in Ec; lia|].
        eapply completes_speaks; [apply speaks_last|]. cbn [render]. rewrite <- app_assoc. f_equal.
        rewrite Hb at 2. f_equal. f_equal. lia.
      * eapply completes_speaks; [apply speaks_shutdown|apply app_nil_r].
Qed.

(** An end that is not clean. *)
Lemma fail_spec mode l f p d :
  fwd mode l f p -> head_of_delivery d = None -> early_of_delivery d = None -> chunk_of_delivery d = None ->
  is_close d = false -> completes p (reply_of mode (l ++ [d])) (fail f).
Proof.
  intros (Hm&He&Hcl&Hf) H1 H2 H3 H4. rewrite log_end, H4 by done.
  assert (Hgo : forall m r, completes p r m -> completes p r (_ ← cancel; m)).
  { intros m r Hmr c. destruct (Hmr (snd (cancel c))) as (q&?&?&?&Hh).
    exists q. unfold mbind, IO_bind. cbn [cancel fst snd] in *. split_and!; try done.
    - rewrite <- (app_nil_l q). eapply wrote_trans; [apply cancel_wrote|done].
    - intros Hc. by apply Hh, cancel_healthy. }
  apply Hgo. rewrite Hm. destruct (log_head l) as [h|].
  2:{ destruct Hf as (->&->&_). cbn. destruct mode; apply bad_gateway_completes. }
  unfold answering in Hf. destruct mode; cbn [journal_answer negb].
  - destruct Hf as (->&_). apply bad_gateway_completes.
  - destruct (is_head req).
    { destruct Hf as (->&->&_). eapply completes_speaks; [apply speaks_shutdown|apply app_nil_r]. }
    destruct (streamed_length req h) as [n|] eqn:En.
    2:{ destruct Hf as (->&->&_). eapply completes_speaks; [apply speaks_shutdown|apply app_nil_r]. }
    destruct (n =? 0) eqn:E0.
    + destruct Hf as (->&->&_&->). apply bad_gateway_completes.
    + destruct Hf as (->&->&_&_&_&Hle&_). rewrite kept_all by done.
      eapply completes_speaks; [apply speaks_shutdown|apply app_nil_r].
Qed.

(** *** One turn of the driver *)

(** [c'] is [c] with [q] more bytes sent; nothing was uploaded or opened. *)
Record grew (q : list byte) (c c' : Conn) : Prop := {
  g_sent : sent c' = sent c ++ q;
  g_openings : openings c' = openings c;
  g_uploaded : uploaded c' = uploaded c;
  g_tokens : tokens c' = tokens c
}.

Lemma wrote_grew q c c' : wrote q c c' -> grew q c c'.
Proof. by intros []. Qed.
Lemma grew_trans p q c c' c'' : grew p c c' -> grew q c' c'' -> grew (p ++ q) c c''.
Proof. intros [] []. constructor; [rewrite app_assoc|..]; congruence. Qed.
Lemma grew_nil_l q c c' c'' : grew [] c c' -> grew q c' c'' -> grew q c c''.
Proof. apply (grew_trans []). Qed.

Lemma fwd_prefix mode l f p : fwd mode l f p -> p `prefix_of` render (reply_of mode l).
Proof.
  intros (Hm&He&Hcl&Hf). unfold reply_of. rewrite He, Hcl. destruct (log_head l) as [h|].
  2:{ destruct Hf as (->&_). apply prefix_nil. }
  unfold answering in Hf. destruct mode; cbn [journal_answer negb]; [destruct Hf as (->&_); apply prefix_nil|].
  destruct (is_head req); [by destruct Hf as (->&_)|].
  destruct (streamed_length req h) as [n|]; [|by destruct Hf as (->&_)].
  destruct (n =? 0); [destruct Hf as (->&_); apply prefix_nil|].
  destruct Hf as (->&_&_&_&_&Hle&_). by rewrite kept_all.
Qed.

(** The end of [forward_upstream]. *)
Definition conclude (t : Turn) : IO unit :=
  match t with
  | Break true f => finish rt req f
  | Break false f => fail f
  | _ => mret tt
  end.

(** The driver left the loop and what is left of [forward_upstream] gives a
    reply of which [p] had been sent before. *)
Definition settled (p : list byte) (r : Reply) (c : Conn) (o : option Turn * Conn) : Prop :=
  exists t c1 q, o = (Some t, c1) /\ match t with Again _ _ | Crash => False | _ => True end /\
    fst (conclude t c1) = Some tt /\ grew q c (snd (conclude t c1)) /\ (p ++ q) `prefix_of` render r /\
    (healthy c -> p ++ q = render r).

Definition proceeds (mode : ResponseMode) (p : list byte) (l : Log) (u : LocalBodyUpload) (c : Conn)
  (o : option Turn * Conn) : Prop :=
  exists f c' q, o = (Some (Again u f), c') /\ grew q c c' /\ fwd mode l f (p ++ q) /\ (healthy c -> healthy c').

Lemma settled_completes p r c c1 t :
  completes p r (conclude t) -> match t with Again _ _ | Crash => False | _ => True end ->
  grew [] c c1 -> (healthy c -> healthy c1) -> settled p r c (Some t, c1).
Proof.
  intros Hc Ht Hg Hh. destruct (Hc c1) as (q&H1&H2&H3&H4). exists t, c1, q. split_and!; try done.
  - eapply grew_nil_l; [done|by apply wrote_grew].
  - intros Hok. by apply H4, Hh.
Qed.

Lemma settled_leave p q r c c1 :
  grew q c c1 -> (p ++ q) `prefix_of` render r -> (healthy c -> p ++ q = render r) -> settled p r c (Some Leave, c1).
Proof. intros. by exists Leave, c1, q. Qed.

(** Receiving a delivery only marks the end of the stream. *)
Lemma recv_spec d c :
  exists c1, recv d c = (Some (match d with
      | Some (EarlyFinal h) => (Some (ItemHead h), true)
      | _ => (delivered_item d, false)
      end), c1) /\ wrote [] c c1 /\ (healthy c -> healthy c1).
Proof.
  unfold recv. destruct d as [[e|h|]|]; eexists; (split; [reflexivity|]); try by split; [apply wrote_same|].
  destruct (item e); (split; [|done]); [apply wrote_refl..|by apply wrote_same].
Qed.

Lemma abandon_spec lost u c :
  exists a, abandon lost u c = (Some tt, set_arrivals a c) /\ (b_active u = false -> a = arrivals c).
Proof.
  unfold abandon. assert (E : c = set_arrivals (arrivals c) c) by by destruct c.
  destruct lost; [by exists (arrivals c); rewrite <- E|].
  destruct (arrivals c) as [|[b bs| |] rest] eqn:Ea; try (eexists; split; [by rewrite <- E|done]).
  destruct (b_active u) eqn:Eb; cbn [andb]; [|eexists; split; [by rewrite <- E|done]].
  destruct (_ <=? _); [|eexists; split; [by rewrite <- E|done]].
  unfold read. rewrite Ea. cbn [snd]. by eexists.
Qed.

(** The head of an answer. *)
Lemma handle_head_spec mode p l u f c h d :
  fwd mode l f p -> log_head l = None -> head_of_delivery d = Some h ->
  (exists f' c' q, handle_head rt req h false u f c = (Some (u, f', RContinue), c') /\ grew q c c' /\
     fwd mode (l ++ [d]) f' (p ++ q) /\ (healthy c -> healthy c')) \/
  (exists f' c' q, handle_head rt req h false u f c = (Some (u, f', RHandled), c') /\ grew q c c' /\
     (p ++ q) `prefix_of` render (reply_of mode (l ++ [d])) /\ ~ healthy c).
Proof.
  intros (Hm&He&Hcl&Hf) Hl Hd. rewrite Hl in Hf. destruct Hf as (->&->&Hch).
  assert (Hd' : early_of_delivery d = None /\ chunk_of_delivery d = None /\ is_close d = false).
  { unfold head_of_delivery, early_of_delivery, chunk_of_delivery, is_close in *.
    destruct d as [[e| |]|]; cbn in *; try done. by destruct (item e). }
  destruct Hd' as (Hd1&Hd2&Hd3).
  assert (Hfwd : forall f' q, f_mode f' = mode -> answering mode h [] f' q -> fwd mode (l ++ [d]) f' q).
  { intros f' q Hm' Hq. unfold fwd. autorewrite with logs. rewrite He, Hcl, Hl, Hch, Hd, Hd1, Hd2, Hd3. done. }
  assert (Hreply : reply_of mode (l ++ [d]) = journal_answer mode h [] false).
  { unfold reply_of. autorewrite with logs. by rewrite He, Hcl, Hl, Hch, Hd, Hd1, Hd2, Hd3. }
  unfold handle_head. cbn [f_mode forwarder_new] in *. destruct mode.
  { left. eexists _, c, []. split; [reflexivity|]. split; [by apply wrote_grew, wrote_refl|]. split; [|done].
    by apply Hfwd. }
  set (n := streamed_length req h) in *.
  destruct (negb (is_head req) && bool_decide (n = Some 0)) eqn:E0.
  { apply andb_true_iff in E0 as [E1 E2]. apply negb_true_iff in E1. apply bool_decide_eq_true in E2.
    left. eexists _, c, []. split; [reflexivity|]. split; [by apply wrote_grew, wrote_refl|]. split; [|done].
    apply Hfwd; rewrite E1; [done|]. unfold answering. fold n. by rewrite E1, E2. }
  set (f' := if is_head req then _ else _).
  assert (Hm' : f_mode f' = Streaming) by (unfold f'; by destruct (is_head req)).
  destruct (guarded_write (into_bytes (stream_head (hh_status h) (rewritten rt h) n)) false
    (write_stream_head (hh_status h) (rewritten rt h) n) (u, set_written f', RContinue) (u, f', RHandled) c)
    as [(c'&->&Hw&Hok)|(q&c'&->&Hw&Hq&Hno)]; [apply emits_write_all| |].
  - left. eexists _, c', _. split; [reflexivity|]. split; [by apply wrote_grew|]. split; [|auto].
    apply Hfwd; [done|]. unfold answering. fold n. cbn [app]. unfold f' in *.
    destruct (is_head req) eqn:Eh; [by cbn; rewrite app_nil_r|].
    cbn [negb andb] in E0. rewrite E0. destruct n as [k|] eqn:En.
    + apply streamed_length_range in En as Hk. apply bool_decide_eq_false in E0.
      destruct (k =? 0) eqn:Ek; [exfalso; apply E0; f_equal; lia|].
      cbn. rewrite take_nil, app_nil_r. split_and!; try done; [lia|]. by destruct k.
    + cbn. by rewrite app_nil_r.
  - right. eexists _, c', q. split; [reflexivity|]. split; [by apply wrote_grew|]. split; [|done].
    rewrite Hreply. cbn [app journal_answer]. fold n.
    assert (Hpre : forall b, q `prefix_of` render (Answer (hh_status h) (rewritten rt h) n b)) by (intros; by apply prefix_app_r).
    destruct (is_head req) eqn:Eh; [done|]. cbn [negb andb] in E0. destruct n as [k|] eqn:En; [|done].
    apply bool_decide_eq_false in E0. destruct (k =? 0) eqn:Ek; [exfalso; apply E0; f_equal; lia|]. apply Hpre.
Qed.

Lemma write_piece {A} (ok ko : A) w c :
  let m := (if bool_decide (w = []) then mret ok
            else r ← until_shutdown (write_all w); match r with Some true => mret ok | _ => _ ← cancel; mret ko end) : IO A in
  (exists c', m c = (Some ok, c') /\ grew w c c' /\ (healthy c -> healthy c')) \/
  (exists q c', m c = (Some ko, c') /\ grew q c c' /\ q `prefix_of` w /\ ~ healthy c).
Proof.
  cbn zeta. case_bool_decide as Hw.
  - left. exists c. subst w. split; [done|]. split; [by apply wrote_grew, wrote_refl|done].
  - destruct (guarded_write w false (write_all w) ok ko c) as [(c'&->&?&?)|(q&c'&->&?&?&?)]; [apply emits_write_all|left|right].
    + exists c'. split; [done|]. split; [by apply wrote_grew|auto].
    + exists q, c'. split; [done|]. split; [by apply wrote_grew|done].
Qed.

(** What a piece of a body with a declared length adds to the wire: all of it
    but the last declared byte, which is held. *)
Lemma hold_last (d : Z) (all bytes : list byte) (held : option byte) :
  0 < d -> len all + len bytes <= d -> held = (if len all =? d then list.last all else None) ->
  let total := len all + len bytes in
  exists w hl, match (if total =? d then split_last bytes else None) with
               | Some (b, rest) => (rest, Some b)
               | None => (bytes, held)
               end = (w, hl) /\
    ztake (d - 1) all ++ w = ztake (d - 1) (all ++ bytes) /\
    hl = (if total =? d then list.last (all ++ bytes) else None).
Proof.
  intros Hd Hle Hheld total. destruct (total =? d) eqn:Et; unfold total in *.
  - unfold split_last. destruct (reverse bytes) as [|b r] eqn:Er.
    + apply (f_equal reverse) in Er. rewrite reverse_involutive in Er. cbn in Er. subst bytes.
      eexists _, _. split; [reflexivity|]. rewrite !app_nil_r. split; [done|]. rewrite Hheld.
      by replace (len all =? d) with true by (cbn in Et; lia).
    + apply (f_equal reverse) in Er. rewrite reverse_involutive, reverse_cons in Er. subst bytes.
      eexists _, _. split; [reflexivity|]. rewrite length_app in *. cbn [length] in *.
      rewrite app_assoc, last_snoc. split; [|done].
      rewrite take_ge by lia. rewrite take_app_ge by (rewrite length_app; lia).
      rewrite length_app. replace (Z.to_nat (d - 1) - _)%nat with 0%nat by lia. cbn. by rewrite app_nil_r.
  - eexists _, _. split; [reflexivity|]. split; [|rewrite Hheld; by replace (len all =? d) with false by lia].
    rewrite !take_ge; [done|rewrite length_app; lia|lia].
Qed.

(** A piece of the body. *)
Lemma handle_body_spec mode p l f c bytes d :
  fwd mode l f p -> is_Some (log_head l) -> chunk_of_delivery d = Some bytes ->
  len (concat (log_chunks (l ++ [d]))) < 2 ^ 64 ->
  (exists f' c' q, handle_body req bytes f c = (Some (f', RContinue), c') /\ grew q c c' /\
     fwd mode (l ++ [d]) f' (p ++ q) /\ (healthy c -> healthy c')) \/
  (exists f' c' q, handle_body req bytes f c = (Some (f', RHandled), c') /\ grew q c c' /\
     (p ++ q) `prefix_of` render (reply_of mode (l ++ [d])) /\ (healthy c -> p ++ q = render (reply_of mode (l ++ [d])))) \/
  (handle_body req bytes f c = (Some (f, RIncomplete), c) /\
     completes p (reply_of mode (l ++ [d])) (fail f)).
Proof.
  intros (Hm&He&Hcl&Hf) [h Hl] Hd. autorewrite with logs. rewrite Hl in Hf. rewrite Hd, concat_app, length_app.
  change (concat [bytes]) with (bytes ++ []). rewrite app_nil_r. intros Hlen.
  assert (Hd' : early_of_delivery d = None /\ head_of_delivery d = None /\ is_close d = false).
  { unfold head_of_delivery, early_of_delivery, chunk_of_delivery, is_close in *.
    destruct d as [[e| |]|]; cbn in *; try done. by destruct (item e). }
  destruct Hd' as (Hd1&Hd2&Hd3). set (all := concat (log_chunks l)) in *.
  assert (Hall : concat (log_chunks (l ++ [d])) = all ++ bytes).
  { autorewrite with logs. rewrite Hd, concat_app. cbn. by rewrite app_nil_r. }
  assert (Hfwd : forall f' q, f_mode f' = mode -> answering mode h (all ++ bytes) f' q -> fwd mode (l ++ [d]) f' q).
  { intros f' q Hm' Hq. unfold fwd. rewrite Hall. autorewrite with logs. rewrite He, Hcl, Hl, Hd1, Hd3. done. }
  assert (Hreply : reply_of mode (l ++ [d]) = journal_answer mode h (log_chunks l ++ [bytes]) false).
  { unfold reply_of. autorewrite with logs. by rewrite He, Hcl, Hl, Hd, Hd1, Hd3. }
  unfold handle_body. rewrite Hm. unfold answering in Hf, Hfwd. rewrite Hreply. cbn [journal_answer].
  destruct mode.
  { left. destruct Hf as (->&Hh&Hb). eexists _, c, []. split; [reflexivity|].
    split; [by apply wrote_grew, wrote_refl|]. split; [|done]. apply Hfwd; [done|]. cbn. by rewrite Hb. }
  cbn [journal_answer]. destruct (is_head req).
  { left. destruct Hf as (->&Hw&Hdf&Hdl&Hh). rewrite Hdf, Hw. cbn [negb]. eexists _, c, []. split; [reflexivity|].
    split; [by apply wrote_grew, wrote_refl|]. split; [|done]. rewrite app_nil_r. by apply Hfwd. }
  destruct (streamed_length req h) as [n|] eqn:En.
  2:{ destruct Hf as (->&Hw&Hdf&Hdl&Hh). rewrite Hdf, Hw, Hdl. cbn [negb].
    destruct (write_piece (f, RContinue) (f, RHandled) bytes c) as [(c'&->&Hg&Hok)|(q&c'&->&Hg&Hq&Hno)].
    - left. eexists _, c', bytes. split; [reflexivity|]. split; [done|]. split; [|done].
      cbn [render]. rewrite <- app_assoc. by apply Hfwd.
    - right. left. eexists _, c', q. split; [reflexivity|]. split; [done|]. split; [|done].
      cbn [render]. rewrite concat_app. cbn. rewrite app_nil_r, <- app_assoc. by apply prefix_app, prefix_app. }
  apply streamed_length_range in En as Hn. destruct (n =? 0) eqn:E0.
  { destruct Hf as (->&Ha&Hdf&Hw). rewrite Hdf. case_bool_decide as Hb.
    - left. subst bytes. eexists _, c, []. split; [reflexivity|]. split; [by apply wrote_grew, wrote_refl|].
      split; [|done]. cbn [app]. apply Hfwd; [done|]. by rewrite app_nil_r.
    - right. right. split; [done|]. cbn [andb].
      intros c1. destruct (bad_gateway_completes (snd (cancel c1))) as (q&H1&H2&H3&H4). exists q.
      unfold fail, mbind, IO_bind. cbn [fst snd cancel] in *. rewrite Hm, Hw. split_and!; try done.
      + rewrite <- (app_nil_l q). eapply wrote_trans; [apply cancel_wrote|done].
      + intros Hc. by apply H4, cancel_healthy. }
  destruct Hf as (->&Hw&Hdf&Hdl&Hr&Hle&Hh). rewrite Hdf, Hw, Hdl, Hr. cbn [negb andb].
  unfold saturating_add. rewrite Z.min_r by lia. destruct (n <? _) eqn:Eo.
  - right. left. eexists _, (snd (ignore shutdown (snd (cancel c)))), [].
    split; [unfold mbind, IO_bind; cbn [cancel]; rewrite !ignore_eq; reflexivity|]. rewrite app_nil_r. rewrite kept_over by (fold all; lia).
    fold all. split; [|done].
    destruct (speaks_shutdown (snd (cancel c))) as [q [_ H2 H3%prefix_nil_inv _ _]]. subst q.
    rewrite <- (app_nil_r []). eapply grew_trans; apply wrote_grew; [apply cancel_wrote|done].
  - destruct (hold_last n all bytes (held_last f)) as (w&hl&Es&Hw'&Hhl); [lia..|done|].
    rewrite kept_all by (rewrite concat_app; cbn; rewrite app_nil_r, length_app; fold all; lia).
    rewrite concat_app. cbn [concat]. rewrite app_nil_r. fold all.
    assert (Epair : (match (if len all + len bytes =? n then split_last bytes else None) with
        | Some (b, rest) => (receive f (len all + len bytes) (Some b), rest)
        | None => (receive f (len all + len bytes) (held_last f), bytes)
        end) = (receive f (len all + len bytes) hl, w)).
    { revert Es. destruct (if _ =? n then split_last bytes else None) as [[]|]; by intros [= <- <-]. }
    rewrite Epair.
    destruct (write_piece (receive f (len all + len bytes) hl, RContinue) (receive f (len all + len bytes) hl, RHandled) w c)
      as [(c'&->&Hg&Hok)|(q&c'&->&Hg&Hq&Hno)].
    + left. eexists _, c', w. split; [reflexivity|]. split; [done|]. split; [|done]. apply Hfwd; [done|].
      cbn. rewrite <- app_assoc, Hw', length_app. split_and!; try done; [lia|lia|].
      rewrite Hhl. by replace (Z.of_nat (length all + length bytes)) with (len all + len bytes) by lia.
    + right. left. eexists _, c', q. split; [reflexivity|]. split; [done|]. split; [|done].
      cbn [render]. rewrite <- app_assoc, <- Hw'. by apply prefix_app, prefix_app.
Qed.

(** *** What the carrier promises

    An early final head comes only instead of an ordinary one; an ordinary head
    comes once, after the upload has ended; body pieces follow it. *)
Definition delivery_ok (u : LocalBodyUpload) (l : Log) (i : Input) : Prop :=
  match i with
  | InUpstream (Some (EarlyFinal _)) _ => log_head l = None
  | InUpstream (Some (DStream e)) _ =>
      match item e with
      | ItemHead _ => log_head l = None /\ b_active u = false
      | ItemBody _ => is_Some (log_head l)
      | ItemEnd _ => True
      end
  | _ => True
  end.

Definition taken (i : Input) : Log := match i with InUpstream d _ => [d] | _ => [] end.

Lemma early_spec mode p l f u c h d :
  fwd mode l f p -> log_head l = None -> early_of_delivery d = Some h ->
  exists c' q, handle_head rt req h true u f c = (Some (body_stop u, f, RHandled), c') /\ grew q c c' /\
    (p ++ q) `prefix_of` render (reply_of mode (l ++ [d])) /\ (healthy c -> p ++ q = render (reply_of mode (l ++ [d]))).
Proof.
  intros (Hm&He&Hcl&Hf) Hl Hd. rewrite Hl in Hf. destruct Hf as (->&_&_).
  assert (reply_of mode (l ++ [d]) = early_answer h) as ->.
  { unfold reply_of. autorewrite with logs. by rewrite He, Hd. }
  assert (Hs : speaks (render (early_answer h))
    (if between 200 (hh_status h) 299 then ignore unreachable else ignore (write_early_failure rt req h))).
  { unfold early_answer. destruct (between _ _ _); [apply unreachable_speaks|].
    eapply speaks_ignore, emits_murmurs, write_upstream_response_emits. }
  unfold handle_head. set (m := if between _ _ _ then _ else _) in *.
  destruct (Hs c) as [q [H1 H2 H3 _ H5]]. exists (snd (m c)), q. split_and!.
  - unfold mbind, IO_bind. destruct (m c) as [r ?]. cbn in H1. by subst r.
  - by apply wrote_grew.
  - done.
  - by intros [-> _]%H5.
Qed.

(** One delivery: the exchange goes on with the reply so far, or ends with the
    reply the deliveries determine. *)
Lemma upstream_turn mode p l u f c d lost :
  fwd mode l f p -> delivery_ok u l (InUpstream d lost) ->
  (is_Some (log_head l) -> b_active u = false) ->
  len (concat (log_chunks (l ++ [d]))) < 2 ^ 64 ->
  let o := turn rt req (InUpstream d lost) u f c in
  (proceeds mode p (l ++ [d]) u c o /\ b_active u = false) \/ settled p (reply_of mode (l ++ [d])) c o.
Proof.
  intros Hf Hok Hact Hlen. cbn zeta. unfold turn.
  destruct (abandon_spec lost u c) as (a&Ea&_). destruct (recv_spec d (set_arrivals a c)) as (c1&Er&Hw1&Hh1).
  set (k := fun r : option StreamItem * bool => match r with
       | (None, _) => mret (Break false f)
       | (Some i, early) =>
           r ← handle rt req i early u f;
           match r with
           | (u, f, RContinue) => mret (Again u f)
           | (_, f, RComplete) => mret (Break true f)
           | (_, f, RIncomplete) => mret (Break false f)
           | (_, f, RHandled) => mret Leave
           end
       end : IO Turn).
  assert (E : ((_ ← abandon lost u; r ← recv d; k r) c) = k (match d with
      | Some (EarlyFinal h) => (Some (ItemHead h), true) | _ => (delivered_item d, false) end) c1).
  { unfold mbind, IO_bind at 1. rewrite Ea. unfold IO_bind. by rewrite Er. }
  change (proceeds mode p (l ++ [d]) u c ((_ ← abandon lost u; r ← recv d; k r) c) /\ b_active u = false \/
    settled p (reply_of mode (l ++ [d])) c ((_ ← abandon lost u; r ← recv d; k r) c)).
  rewrite E. clear E Er Ea.
  assert (Hg1 : grew [] c c1) by (by destruct Hw1).
  assert (Hc1 : healthy c -> healthy c1) by (intros Hc; by apply Hh1).
  destruct d as [[e|h|]|]; cbn [delivered_item k].
  - cbn in Hok. destruct (item e) as [h|b|x] eqn:Ei.
    + destruct Hok as [Hl Hin]. assert (Hd : head_of_delivery (Some (DStream e)) = Some h).
      { unfold head_of_delivery. cbn. by rewrite Ei. }
      unfold mbind, IO_bind. cbn [handle].
      destruct (handle_head_spec mode p l u f c1 h _ Hf Hl Hd) as [(f'&c'&q&->&Hg&Hf'&Hh)|(f'&c'&q&->&Hg&Hpre&Hno)].
      * left. split; [|done]. exists f', c', q. split; [done|]. split; [by eapply grew_nil_l|]. split; [done|auto].
      * right. eapply (settled_leave p q); [by eapply grew_nil_l|done|]. intros Hc. by apply Hc1 in Hc.
    + specialize (Hact Hok). assert (Hd : chunk_of_delivery (Some (DStream e)) = Some b).
      { unfold chunk_of_delivery. cbn. by rewrite Ei. }
      unfold mbind, IO_bind at 1. cbn [handle]. unfold mbind, IO_bind.
      destruct (handle_body_spec mode p l f c1 b _ Hf Hok Hd Hlen)
        as [(f'&c'&q&->&Hg&Hf'&Hh)|[(f'&c'&q&->&Hg&Hpre&Heq)|(->&Hcomp)]]; cbn [fst snd mret].
      * left. split; [|done]. exists f', c', q. split; [done|]. split; [by eapply grew_nil_l|]. split; [done|auto].
      * right. eapply (settled_leave p q); [by eapply grew_nil_l|done|auto].
      * right. by apply settled_completes.
    + right. set (d := Some (DStream e)) in *.
      assert (Hd : head_of_delivery d = None /\ early_of_delivery d = None /\ chunk_of_delivery d = None)
        by (unfold head_of_delivery, chunk_of_delivery; cbn; by rewrite Ei).
      destruct Hd as (?&?&?). unfold mbind, IO_bind. cbn [handle].
      assert (Hx : is_close d = match x with EndClose => true | _ => false end) by (unfold is_close; cbn; by rewrite Ei).
      destruct x; apply settled_completes; try done; [by eapply server_finish_spec|by eapply fail_spec..].
  - right. cbn in Hok. unfold mbind, IO_bind. cbn [handle].
    destruct (early_spec mode p l f u c1 h (Some (EarlyFinal h)) Hf Hok eq_refl) as (c'&q&->&Hg&Hpre&Heq).
    eapply (settled_leave p q); [by eapply grew_nil_l|done|auto].
  - right. apply settled_completes; [|done..]. by eapply fail_spec.
  - right. apply settled_completes; [|done..]. by eapply fail_spec.
Qed.

(** *** The whole exchange *)

(** The deliveries a run of the driver takes. *)
Fixpoint journal_log (inputs : list Input) (u : LocalBodyUpload) (f : ResponseForwarder) (c : Conn) : Log :=
  match inputs with
  | [] => []
  | i :: rest => taken i ++ match turn rt req i u f c with
                            | (Some (Again u f), c) => journal_log rest u f c
                            | _ => []
                            end
  end.

(** The carrier keeps its promise along the run. *)
Fixpoint carrier_ok (inputs : list Input) (l : Log) (u : LocalBodyUpload) (f : ResponseForwarder) (c : Conn) : Prop :=
  match inputs with
  | [] => True
  | i :: rest => delivery_ok u l i /\ match turn rt req i u f c with
                                      | (Some (Again u f), c) => carrier_ok rest (l ++ taken i) u f c
                                      | _ => True
                                      end
  end.

(** The reply to a caller whose own body fails at input [i]: its socket ends
    (400) or breaks (nothing) where body bytes are still due. *)
Definition body_fails (i : Input) (u : LocalBodyUpload) (c : Conn) : option Reply :=
  match i with
  | InBody g _ =>
      if b_active u && (len (b_prefix u) <=? prefix_offset u) && (read_bytes u <? declared_body_len u) then
        match g, arrivals c with
        | HalfClosed, _ | Granted, Fin :: _ => Some bad_request
        | ReadyFault, _ | Granted, Fault :: _ => Some NoReply
        | _, _ => None
        end
      else None
  | _ => None
  end.

(** Whether the caller's body fails in the course of the run. *)
Fixpoint own_failure (inputs : list Input) (u : LocalBodyUpload) (f : ResponseForwarder) (c : Conn) : option Reply :=
  match inputs with
  | [] => None
  | i :: rest =>
      match body_fails i u c with
      | Some r => Some r
      | None => match turn rt req i u f c with (Some (Again u f), c) => own_failure rest u f c | _ => None end
      end
  end.

Lemma advance_verdict g d u c :
  read_bytes u <= declared_body_len u -> b_active u = true ->
  match fst (advance g d u c) with
  | Some (_, Ok Short) => body_fails (InBody g d) u c = Some bad_request
  | Some (_, Err BodyIo) => body_fails (InBody g d) u c = Some NoReply
  | _ => body_fails (InBody g d) u c = None
  end.
Proof.
  intros Hr Ha. unfold advance, checked_sub, body_fails. rewrite Ha. replace (read_bytes u <=? _) with true by lia. cbn [negb andb].
  destruct (declared_body_len u - read_bytes u =? 0) eqn:E0.
  { replace (read_bytes u <? _) with false by lia. rewrite andb_false_r. done. }
  replace (read_bytes u <? declared_body_len u) with true by lia. rewrite andb_true_r.
  destruct (prefix_offset u <? len (b_prefix u)) eqn:Eo.
  - replace (len (b_prefix u) <=? prefix_offset u) with false by lia.
    destruct g; try done. destruct (get_range _ _ _); [|done]. destruct d; [|done]. unfold mbind, IO_bind, modify, mret, IO_ret, advanced. cbn.
    by match goal with |- context [if ?b then _ else _] => destruct b end.
  - replace (len (b_prefix u) <=? prefix_offset u) with true by lia. destruct g; try done.
    unfold mbind, IO_bind, read. destruct (arrivals c) as [|[b bs| |] rest]; try done. cbn [fst].
    assert (Hn : 1 <= Z.min (declared_body_len u - read_bytes u) READ_BUF_BYTES) by (unfold READ_BUF_BYTES; lia).
    destruct (ztake _ (b :: bs)) as [|b' bs'] eqn:Et.
    { apply (f_equal (fun l : list byte => len l)) in Et. rewrite length_take in Et. cbn [length] in Et. lia. }
    destruct d; [|done]. unfold modify, mret, IO_ret, advanced. cbn.
    by match goal with |- context [if ?b then _ else _] => destruct b end.
Qed.

(** The driver and what follows it upload a prefix of the declared body and
    complete one reply: the one the deliveries [l] determine, unless the
    request's own body failed, before any head, which determines it then. *)
Definition exchanged (mode : ResponseMode) (base prefix flat0 : list byte) (declared : Z) (p : list byte) (l : Log)
  (failure : option Reply) (c : Conn) (o : option Turn * Conn) : Prop :=
  exists t c1 q r w, o = (Some t, c1) /\ match t with Again _ _ | Crash => False | _ => True end /\
    fst (conclude t c1) = Some tt /\
    let c' := snd (conclude t c1) in
    sent c' = sent c ++ q /\ openings c' = openings c /\ tokens c' = tokens c /\
    uploaded c' = base ++ w /\ w `prefix_of` ztake declared (prefix ++ flat0) /\
    (p ++ q) `prefix_of` render r /\ (healthy c -> halted c' = false -> p ++ q = render r) /\
    r = default (reply_of mode l) failure /\ (is_Some failure -> log_head l = None).

(** Leaving the loop without an answer. *)
Lemma leave_exchanged mode base prefix flat0 declared p l f u c c1 :
  fwd mode l f p -> body_inv base prefix flat0 declared u c -> same_wire c c1 ->
  (exists w, uploaded c1 = base ++ w /\ w `prefix_of` ztake declared (prefix ++ flat0)) ->
  exchanged mode base prefix flat0 declared p l None c ((_ ← cancel; mret Leave : IO Turn) (set_halted c1)).
Proof.
  intros Hf Hb (a&w0&->) (w&Hw&Hpre). cbn in Hw. subst w0.
  eexists Leave, _, [], (reply_of mode l), w. split; [reflexivity|]. split; [done|]. split; [done|].
  cbn [conclude mret IO_ret fst snd cancel]. rewrite !app_nil_r.
  assert (H : forall x : Conn, forall y, sent (if rx_done x then x else set_rx true y x) = sent x /\
    openings (if rx_done x then x else set_rx true y x) = openings x /\
    tokens (if rx_done x then x else set_rx true y x) = tokens x /\
    uploaded (if rx_done x then x else set_rx true y x) = uploaded x /\
    halted (if rx_done x then x else set_rx true y x) = halted x) by (intros x y; by destruct (rx_done x)).
  unfold mret, IO_ret. cbn [snd].
  match goal with |- context[if rx_done ?x then ?x else set_rx true ?y ?x] => destruct (H x y) as (->&->&->&->&->) end.
  cbn. split_and!; try done. by eapply fwd_prefix.
Qed.

Lemma cancel_eq c : cancel c = (Some tt, snd (cancel c)).
Proof. done. Qed.

Lemma cancel_then (m : IO unit) c :
  fst (m (snd (cancel c))) = Some tt -> (_ ← cancel; _ ← m; mret Leave : IO Turn) c = (Some Leave, snd (m (snd (cancel c)))).
Proof. intros H. unfold mbind, IO_bind. rewrite cancel_eq. destruct (m _) as [x ?]. cbn in H. by subst x. Qed.

Lemma same_wire_healthy c c' : same_wire c c' -> healthy c -> healthy c'.
Proof. by intros (a&w&->). Qed.

Lemma same_wire_fields c c' : same_wire c c' -> sent c' = sent c /\ openings c' = openings c /\ tokens c' = tokens c.
Proof. by intros (a&w&->). Qed.

(** The request's body failed before the journal answered. *)
Lemma body_failed mode base prefix flat0 declared p l f c c1 r (m : IO unit) b :
  fwd mode l f p -> log_head l = None -> same_wire c c1 ->
  (exists w, uploaded c1 = base ++ w /\ w `prefix_of` ztake declared (prefix ++ flat0)) ->
  speaks b m -> b = render r ->
  exchanged mode base prefix flat0 declared p l (Some r) c (Some Leave, snd (m (snd (cancel c1)))).
Proof.
  intros (_&_&_&Hf) Hl Hsw (w&Hw&Hpre) Hm ->. rewrite Hl in Hf. destruct Hf as (->&_).
  destruct (Hm (snd (cancel c1))) as [q [H1 H2 H3 _ H5]].
  exists Leave, (snd (m (snd (cancel c1)))), q, r, w. split; [done|].
  pose proof (wrote_trans _ _ _ _ _ (cancel_wrote c1) H2) as [G1 G2 G3 G4 G5].
  pose proof (same_wire_healthy _ _ Hsw) as Hh. apply same_wire_fields in Hsw as (?&?&?). cbn [app conclude mret IO_ret fst snd] in *.
  unfold mret, IO_ret. cbn [fst snd]. split_and!; try done; try congruence. intros Hc _. by apply H5, cancel_healthy, Hh.
Qed.

Lemma drive_spec mode base prefix flat0 declared inputs : forall l u f p c,
  fwd mode l f p -> body_inv base prefix flat0 declared u c -> (is_Some (log_head l) -> b_active u = false) ->
  carrier_ok inputs l u f c -> len (concat (log_chunks (l ++ journal_log inputs u f c))) < 2 ^ 64 ->
  exchanged mode base prefix flat0 declared p (l ++ journal_log inputs u f c) (own_failure inputs u f c) c (drive rt req inputs u f c).
Proof.
  assert (Hshut : forall l u f p c, fwd mode l f p -> body_inv base prefix flat0 declared u c ->
    exchanged mode base prefix flat0 declared p l None c (turn rt req InShutdown u f c)).
  { intros l u f p c Hf Hb. cbn [turn]. eapply leave_exchanged; [done|done|apply same_wire_refl|].
    destruct Hb as [_ _ _ (w&?&?&_)]. by exists w. }
  induction inputs as [|i rest IH]; intros l u f p c Hf Hb Hact Hok Hlen.
  { cbn [journal_log drive own_failure]. rewrite app_nil_r. by apply Hshut. }
  cbn [drive]. unfold mbind at 1, IO_bind at 1. cbn [carrier_ok journal_log own_failure] in Hok, Hlen |- *. destruct Hok as [Hdel Hok].
  destruct i as [|d lost|g delivered]; cbn [taken] in *; [cbn [body_fails]..|].
  - cbn [turn] in *. cbn [app] in *. rewrite app_nil_r in *. by apply (Hshut l u f p c).
  - assert (Hlen' : len (concat (log_chunks (l ++ [d]))) < 2 ^ 64).
    { rewrite app_assoc in Hlen. unfold log_chunks in *. rewrite omap_app in Hlen. rewrite concat_app, length_app in Hlen. lia. }
    destruct (upstream_turn mode p l u f c d lost Hf Hdel Hact Hlen') as [[(f'&c'&q&Et&Hg&Hf'&Hh) Hin]|(t&c1&q&Et&Ht&Hfst&Hg&Hpre&Heq)];
      cbn zeta in Et; rewrite Et in *.
    + rewrite app_assoc in *.
      destruct (IH (l ++ [d]) u f' (p ++ q) c') as (t&c1&q'&r&w&->&Ht&Hfst&Hs&Ho&Htok&Hu&Hw&Hpre&Heq&Hr&Hno); try done.
      { eapply body_inv_inactive; [done|done|apply Hg]. }
      destruct Hg. exists t, c1, (q ++ q'), r, w. cbv zeta. rewrite <- app_assoc in Hpre. split_and!; try done; try congruence.
      * rewrite app_assoc. congruence.
      * intros Hc. rewrite app_assoc. by apply Heq, Hh.
    + replace (match t with Again u f => journal_log rest u f c1 | _ => [] end) with (@nil (option DeliveryEvent))
        by (by destruct t). cbn [app].
      replace (match t with Again u f => own_failure rest u f c1 | _ => None end) with (@None Reply) by (by destruct t).
      exists t, c1, q, (reply_of mode (l ++ [d])). destruct Hb as [_ _ _ (w&Hu&Hw&_)]. exists w. destruct Hg.
      split; [by destruct t|]. cbv zeta. split_and!; try done; try congruence. by intros Hc _; apply Heq.
  - pose proof (advance_verdict g delivered u c) as Hv. cbn [turn] in *. destruct (b_active u) eqn:Ea; cbn [negb] in *.
    2:{ cbn [app] in *. rewrite app_nil_r in *. unfold body_fails. rewrite Ea. cbn [andb]. apply IH; try done. }
    assert (Hl : log_head l = None) by (destruct (log_head l); [by discriminate Hact|done]).
    specialize (Hv ltac:(destruct Hb; lia) eq_refl).
    destruct (advance_spec base prefix flat0 declared g delivered u c Hb Ea) as [Hsw Hadv].
    destruct (advance g delivered u c) as [[[u' r]|] c1]; cbn [fst snd] in *.
    2:{ rewrite Hv. rewrite app_nil_r in *. by eapply leave_exchanged. }
    destruct Hadv as (Hnp&_&Hb').
    assert (Hup : exists w, uploaded c1 = base ++ w /\ w `prefix_of` ztake declared (prefix ++ flat0)).
    { destruct Hb' as [_ _ _ (w&?&?&_)]. by exists w. }
    assert (Hgo : forall u1, body_inv base prefix flat0 declared u1 c1 ->
      carrier_ok rest (l ++ []) u1 f c1 -> len (concat (log_chunks (l ++ [] ++ journal_log rest u1 f c1))) < 2 ^ 64 ->
      exchanged mode base prefix flat0 declared p (l ++ [] ++ journal_log rest u1 f c1) (own_failure rest u1 f c1) c (drive rt req rest u1 f c1)).
    { intros u1 Hb1 Hok1 Hlen1. cbn [app] in *. rewrite app_nil_r in *.
      destruct (IH l u1 f p c1) as (t&c2&q'&r'&w&->&Ht&Hfst&Hs&Ho&Htok&Hu&Hw&Hpre&Heq&Hr&Hno); try done.
      { rewrite Hl. by intros [? [=]]. }
      pose proof (same_wire_healthy _ _ Hsw) as Hh. destruct Hsw as (a&w0&->). cbn in Hs, Ho, Htok.
      exists t, c2, q', r', w. cbv zeta. split_and!; try done. }
    destruct r as [[| |]|[|]|]; cbn [is_panic] in *; try done; rewrite Hv; cbn [app] in *; rewrite ?app_nil_r in *; try by apply Hgo.
    + rewrite cancel_then in * by by rewrite ignore_eq. rewrite app_nil_r.
      apply (body_failed _ _ _ _ _ _ _ f _ _ bad_request _ _ Hf Hl Hsw Hup (speaks_ignore _ _ (write_local_murmurs _ _ _)) eq_refl).
    + change (exchanged mode base prefix flat0 declared p l (Some NoReply) c (Some Leave, snd ((mret tt : IO unit) (snd (cancel c1))))).
      apply (body_failed _ _ _ _ _ _ _ f _ _ NoReply (mret tt) [] Hf Hl Hsw Hup); [|done].
      intros x. exists []. constructor; try done; [apply wrote_refl|]. intros (?&?&?&?). done.
Qed.
End Replies.

(** ** Admission *)

(** Computations that open no stream. *)
Definition opens_nothing {A} (m : IO A) : Prop := forall c, openings (snd (m c)) = openings c.

Lemma opens_bind {A B} (m : IO A) (k : A -> IO B) :
  opens_nothing m -> (forall a, opens_nothing (k a)) -> opens_nothing (m ≫= k).
Proof.
  intros Hm Hk c. unfold mbind, IO_bind. pose proof (Hm c) as H. destruct (m c) as [[a|] c1]; cbn in *; [|done].
  by rewrite Hk.
Qed.
Lemma opens_fmap {A B} (g : A -> B) (m : IO A) : opens_nothing m -> opens_nothing (g <$> m).
Proof. intros Hm c. unfold fmap, IO_fmap. pose proof (Hm c) as H. by destruct (m c) as [[a|] c1]. Qed.
Lemma opens_ret {A} (a : A) : opens_nothing (mret a : IO A).
Proof. done. Qed.
Lemma opens_until {A} (m : IO A) : opens_nothing m -> opens_nothing (until_shutdown m).
Proof.
  intros Hm c. rewrite until_shutdown_eq. destruct (halted c); [done|]. pose proof (Hm c) as H.
  by destruct (fst (m c)).
Qed.
Lemma opens_ignore {A} (m : IO A) : opens_nothing m -> opens_nothing (ignore m).
Proof. intros. unfold ignore. apply opens_bind; [by apply opens_until|]. intros. apply opens_ret. Qed.
Lemma opens_murmurs {A} b (m : IO A) : murmurs b m -> opens_nothing m.
Proof. intros Hm c. by destruct (Hm c) as [p [[] _ _ _ _]]. Qed.
Lemma opens_emits b cl m : emits b cl m -> opens_nothing m.
Proof. intros. by eapply opens_murmurs, emits_murmurs. Qed.
Lemma opens_read n : opens_nothing (read n).
Proof. intros c. unfold read. by destruct (arrivals c) as [|[]]. Qed.
Lemma opens_cancel : opens_nothing cancel.
Proof. intros c. unfold cancel. cbn. by destruct (rx_done c). Qed.
Lemma opens_abandon n u : opens_nothing (abandon n u).
Proof. intros c. destruct (abandon_spec n u c) as (a&->&_). done. Qed.
Lemma opens_recv d : opens_nothing (recv d).
Proof. intros c. destruct (recv_spec d c) as (c1&->&[]&_). done. Qed.
Lemma opens_write_local st b ct : opens_nothing (write_local st b ct).
Proof. eapply opens_murmurs, write_local_murmurs. Qed.
Lemma opens_write b : opens_nothing (write_all b).
Proof. eapply opens_emits, emits_write_all. Qed.
Lemma opens_shutdown : opens_nothing shutdown.
Proof. eapply opens_emits, emits_shutdown. Qed.
Lemma opens_response st hs b n : opens_nothing (write_upstream_response st hs b n).
Proof. eapply opens_emits, write_upstream_response_emits. Qed.
Lemma opens_upload b : opens_nothing (modify (log_upload b)).
Proof. done. Qed.
Lemma opens_redeem t now : opens_nothing (redeem_token t now).
Proof. intros c. unfold redeem_token. by destruct (consume _ _ _). Qed.

Create HintDb opens discriminated.
#[local] Hint Resolve opens_ret opens_read opens_cancel opens_abandon opens_recv opens_write_local opens_write
  opens_shutdown opens_response opens_upload opens_redeem : opens.

(** Walk through a computation's binds and matches. *)
Ltac opens :=
  repeat (first [ solve [eauto with opens] | apply opens_bind; [|intros] | apply opens_fmap | apply opens_ignore
                | apply opens_until | case_match ]).

Lemma opens_and_then m k : opens_nothing m -> opens_nothing k -> opens_nothing (and_then m k).
Proof. intros. unfold and_then. opens. Qed.
#[local] Hint Resolve opens_and_then : opens.

Lemma opens_head_loop fuel received : opens_nothing (read_head_loop fuel received).
Proof. revert received. induction fuel; intros; cbn [read_head_loop]; opens. Qed.
#[local] Hint Resolve opens_head_loop : opens.

Lemma opens_handle rt req i e u f : opens_nothing (handle rt req i e u f).
Proof. destruct i; cbn [handle]; unfold handle_head, handle_body, write_early_failure, unreachable, write_stream_head; opens. Qed.
Lemma opens_finish rt req f : opens_nothing (finish rt req f).
Proof. unfold finish, unreachable, write_stream_head. opens. Qed.
Lemma opens_fail f : opens_nothing (fail f).
Proof. unfold fail, unreachable. opens. Qed.
Lemma opens_advance g d u : opens_nothing (advance g d u).
Proof. unfold advance. opens. Qed.
#[local] Hint Resolve opens_handle opens_finish opens_fail opens_advance : opens.

Lemma opens_turn rt req i u f : opens_nothing (turn rt req i u f).
Proof.
  assert (Hl : opens_nothing (_ ← cancel; mret Leave : IO Turn)) by opens.
  assert (Hs : opens_nothing (_ ← cancel; _ ← ignore (write_local 400 (blit "bad request") text_plain); mret Leave : IO Turn)) by opens.
  intros c. destruct i as [|d lost|g dl]; cbn [turn].
  - by rewrite Hl.
  - revert c. change (opens_nothing (_ ← abandon lost u; r ← recv d; match r with
       | (None, _) => mret (Break false f)
       | (Some i, early) => r ← handle rt req i early u f;
           match r with
           | (u, f, RContinue) => mret (Again u f)
           | (_, f, RComplete) => mret (Break true f)
           | (_, f, RIncomplete) => mret (Break false f)
           | (_, f, RHandled) => mret Leave
           end
       end : IO Turn)). opens.
  - destruct (negb (b_active u)); [done|]. pose proof (opens_advance g dl u c) as H.
    destruct (advance g dl u c) as [[[u' [[| |]|[|]|]]|] c1]; cbn [snd] in *; rewrite ?Hl, ?Hs; done.
Qed.
#[local] Hint Resolve opens_turn : opens.

Lemma opens_drive rt req inputs : forall u f, opens_nothing (drive rt req inputs u f).
Proof. induction inputs as [|i rest IH]; intros; cbn [drive]; [apply opens_turn|]. opens. Qed.
#[local] Hint Resolve opens_drive : opens.

(** A forwarded request opens its stream, unless the bridge is shutting down. *)
Lemma forward_opens rt q opening inputs c :
  openings (snd (forward_upstream rt q opening inputs c)) =
    openings c ++ (if halted c then [] else [mkOpening (method (u_head q)) (target (u_head q)) (u_headers q) (u_declared q)]).
Proof.
  unfold forward_upstream, mbind, IO_bind at 1. rewrite until_shutdown_eq. destruct (halted c); [by rewrite app_nil_r|].
  set (o := mkOpening _ _ _ _).
  assert (Hrest : forall r : option bool, opens_nothing (match r with
      | None => mret (Ok tt)
      | Some false => Ok <$> ignore unreachable
      | Some true =>
        t ← drive rt (u_head q) inputs (body_new (u_body_prefix q) (u_declared q)) (forwarder_new (u_mode q));
        match t with
        | Break true f => Ok <$> finish rt (u_head q) f
        | Break false f => Ok <$> fail f
        | Leave => mret (Ok tt)
        | _ => mret Panic
        end
      end : IO (res unit unit))) by (unfold unreachable; intros; opens).
  unfold open_stream. destruct opening; cbn [fst snd];
    [exact (Hrest (Some true) (log_opening o c))|exact (Hrest (Some false) (log_opening o c))|done].
Qed.

(** What a parsed head that is let through must satisfy. *)
Lemma authorization_spec rt req :
  authorization rt req = Ok tt ->
  host req = Some (lit "127.0.0.1:" ++ to_string (port rt)) /\
  forall cap, capability rt = Enabled cap ->
    exists v, cookie req (capability_cookie_name (bridge_names rt)) = Some v /\ into_bytes v = into_bytes cap.
Proof.
  assert (Hh : check_loopback_host req (port rt) = Ok tt -> host req = Some (lit "127.0.0.1:" ++ to_string (port rt))).
  { unfold check_loopback_host. by case_bool_decide. }
  unfold authorization, authorize. destruct (capability rt) as [cap|]; [|by intros Ho%Hh].
  destruct (check_loopback_host _ _) as [[]| |] eqn:Ec; cbn [mbind res_bind]; try done. intros Hc.
  split; [by apply Hh|]. intros cap' [= <-]. unfold check_capability_cookie in Hc.
  destruct (cookie _ _) as [v|]; [|done]. destruct (ct_eq _ _) eqn:Ect; [|done]. apply ct_eq_spec in Ect. by exists v.
Qed.

(** Every forwarded header is the request's or the policy's, and none is
    reserved. *)
Lemma forwarded_not_reserved rt req n v :
  (n, v) ∈ forwarded_headers rt req -> n = lit "cookie" \/ is_reserved_request_header n (bridge_names rt) = false.
Proof.
  assert (Hup : forall h, (n, v) ∈ upstream_request_headers h (bridge_names rt) ->
    n = lit "cookie" \/ is_reserved_request_header n (bridge_names rt) = false).
  { intros h. unfold upstream_request_headers. rewrite list_elem_of_omap. intros ([n' w]&_&Hf). unfold upstream_header in Hf.
    case_bool_decide as Hc; [left|right; destruct (is_reserved_request_header n' _) eqn:E; by simplify_eq].
    destruct (upstream_cookie_header _ _); by simplify_eq/=. }
  unfold forwarded_headers. rewrite elem_of_app. intros [Hin|Hin]; [|by eapply Hup].
  revert Hin. set (attrs := filtered_attribution_headers _ _ _). generalize (Hup req).
  generalize (upstream_request_headers req (bridge_names rt)). induction attrs as [|a attrs IH]; intros l Hl Hin; [by apply Hl|].
  cbn in Hin. eapply IH; [|done]. intros Hf. apply Hl. by apply list_elem_of_filter in Hf as [_ ?].
Qed.

(** A caller cannot speak under an attributed name: of the names the policy
    attributes only the policy's headers are forwarded. *)
Lemma attributed_only rt req n v a w :
  let attrs := filtered_attribution_headers req (bridge_names rt) (attribution_headers rt req) in
  (a, w) ∈ attrs -> eq_ignore_ascii_case n a = true -> (n, v) ∈ forwarded_headers rt req -> (n, v) ∈ attrs.
Proof.
  cbn zeta. unfold forwarded_headers. set (attrs := filtered_attribution_headers _ _ _).
  rewrite elem_of_app. intros Ha Hn [Hin|Hin]; [|done]. exfalso. revert Ha Hin.
  generalize (upstream_request_headers req (bridge_names rt)). clearbody attrs.
  induction attrs as [|x attrs IH]; intros l Ha Hin; [by apply elem_of_nil in Ha|].
  cbn in Hin. apply elem_of_cons in Ha as [<-|Ha]; [|by eapply IH].
  assert (Hsub : forall k : Headers, (n, v) ∈ foldl (fun (hs : Headers) (a : str * str) =>
      filter (fun h => negb (eq_ignore_ascii_case (fst h) (fst a))) hs) k attrs -> (n, v) ∈ k).
  { clear. induction attrs as [|y attrs IH]; intros k Hk; [done|]. cbn in Hk. apply IH in Hk. by apply list_elem_of_filter in Hk as [_ ?]. }
  apply Hsub, list_elem_of_filter in Hin as [Hneg _]. cbn in Hneg. by rewrite Hn in Hneg.
Qed.

Lemma head_fuel_enough : MAX_REQUEST_HEAD_BYTES - len (@nil byte) < Z.of_nat head_fuel.
Proof. unfold head_fuel. rewrite Nat2Z.inj_succ, Z2Nat.id by done. cbn [length]. lia. Qed.

Lemma read_request_head_spec c : head_outcome (flat (arrivals c)) c (read_request_head c).
Proof.
  unfold read_request_head. apply (read_head_loop_spec head_fuel [] c c); [|done|done|apply head_fuel_enough].
  exists (arrivals c). by destruct c.
Qed.

Lemma refuse_none {A} st b c : exists c', (Ok <$> refuse_head st b : IO (res unit (option A))) c = (Some (Ok None), c')
  \/ (Ok <$> refuse_head st b : IO (res unit (option A))) c = (None, c').
Proof.
  unfold refuse_head, fmap, IO_fmap, mbind, IO_bind. destruct (write_local st b text_plain c) as [[]  c']; exists c'; auto.
Qed.

(** A validated head is the one the bytes before the first empty line spell. *)
Lemma validated_spec max c v c' :
  read_validated_request_head max c = (Some (Ok (Some v)), c') ->
  exists i w a, find_header_end (flat (arrivals c)) = Some i /\ i + 4 <= MAX_REQUEST_HEAD_BYTES /\
    parse_request_head (ztake (i + 4) (flat (arrivals c))) = Ok w /\ Bridge.content_length w <= max /\
    v_head v = head_of w /\ v_declared v = Bridge.content_length w /\
    v_prefix v ++ flat a = zdrop (i + 4) (flat (arrivals c)) /\ len (v_prefix v) < READ_BUF_BYTES /\
    c' = set_arrivals a c.
Proof.
  unfold read_validated_request_head, mbind, IO_bind. pose proof (read_request_head_spec c) as Hr.
  unfold head_outcome in Hr. destruct (find_header_end _) as [i|].
  2:{ destruct Hr as (r&a&->&Hr). destruct Hr as [->|[e ->]]; [done|]. destruct e; [done|].
    destruct (refuse_none (A := ValidatedLocalRequestHead) 400 (blit "bad request") (set_arrivals a c)) as (?&[-> | -> ]); done. }
  destruct (i + 4 <=? MAX_REQUEST_HEAD_BYTES) eqn:Ei.
  2:{ destruct Hr as (a&->).
    destruct (refuse_none (A := ValidatedLocalRequestHead) 400 (blit "bad request") (set_arrivals a c)) as (?&[-> | -> ]); done. }
  destruct Hr as (p&a&->&Hp&Hlen). destruct (parse_request_head _) as [w|e|] eqn:Ew; [|intros H; exfalso|done].
  - destruct (max <? _) eqn:Em.
    + destruct (refuse_none (A := ValidatedLocalRequestHead) 413 (blit "payload too large") (set_arrivals a c)) as (?&[-> | -> ]); done.
    + unfold mret, IO_ret. intros [= <- <-]. exists i, w, a. cbn [v_prefix]. split_and!; try done; lia.
  - revert H. destruct (refuse_none (A := ValidatedLocalRequestHead) (framing_error_status e)
      (if framing_error_status e =? 417 then blit "expectation failed" else blit "bad request") (set_arrivals a c)) as (?&[-> | -> ]); done.
Qed.

(** A connection that opens a stream does so for the head it read. *)
Lemma handle_conn_head rt now snap opening inputs c0 :
  halted c0 = false ->
  let c' := snd (handle_conn rt now snap opening inputs c0) in
  openings c' = openings c0 \/
  exists i v p a, find_header_end (flat (arrivals c0)) = Some i /\ i + 4 <= MAX_REQUEST_HEAD_BYTES /\
    parse_request_head (ztake (i + 4) (flat (arrivals c0))) = Ok v /\
    Bridge.content_length v <= max_request_body_bytes rt /\
    p ++ flat a = zdrop (i + 4) (flat (arrivals c0)) /\
    bootstrap_capability (capability rt) (path (head_of v)) = None /\
    authorization rt (head_of v) = Ok tt /\ local_response rt (head_of v) snap = None /\
    c' = snd (forward_upstream rt
           (mkRequest (head_of v) (forwarded_headers rt (head_of v)) p (Bridge.content_length v)
              (if stream_response rt (head_of v) then Streaming else Buffered)) opening inputs (set_arrivals a c0)).
Proof.
  intros Hh. cbn zeta. set (m := read_validated_request_head (max_request_body_bytes rt)).
  remember (snd (handle_conn rt now snap opening inputs c0)) as c' eqn:Hc'.
  unfold handle_conn, mbind, IO_bind at 1 in Hc'. fold m in Hc'. rewrite until_shutdown_eq, Hh in Hc'.
  assert (Hm : opens_nothing m) by (unfold m, read_validated_request_head, refuse_head, read_request_head; opens).
  assert (Hbs : forall req cap, opens_nothing (handle_bootstrap rt req cap now)) by (intros; unfold handle_bootstrap, forbidden; opens).
  assert (Hq : opens_nothing (Ok <$> ignore (forbidden 403) : IO (res unit unit))) by (unfold forbidden; opens).
  specialize (Hm c0). destruct (m c0) as [r c1] eqn:Em. cbn [fst snd] in *.
  destruct r as [[[v|]| |]|]; try (left; by rewrite Hc').
  apply validated_spec in Em as (i&w&a&Hi&Hmax&Hw&Hcl&Hvh&Hvd&Hp&Hlen&->). rewrite Hvh, Hvd in Hc'.
  destruct (bootstrap_capability _ _) as [cap|] eqn:Eb.
  { left. rewrite Hc'. exact (opens_fmap Ok _ (opens_ignore _ (Hbs (head_of w) cap)) (set_arrivals a c0)). }
  destruct (authorization rt (head_of w)) as [[]|e|] eqn:Ea; cbn [is_ok negb] in Hc';
    try (left; rewrite Hc'; exact (Hq (set_arrivals a c0))).
  destruct (local_response rt (head_of w) snap) as [r|] eqn:El.
  { left. rewrite Hc'. exact (opens_fmap Ok _ (opens_ignore _ (opens_write_local _ _ _)) (set_arrivals a c0)). }
  right. exists i, w, (v_prefix v), a. split_and!; done.
Qed.

(** ** The exchange, from the opened stream *)

Section Forward.
Context (rt : BridgeRuntime) (q : UpstreamRequest) (inputs : list Input) (c : Conn).

Definition opening_of : Opening := mkOpening (method (u_head q)) (target (u_head q)) (u_headers q) (u_declared q).
Definition upload0 : LocalBodyUpload := body_new (u_body_prefix q) (u_declared q).
Definition forwarder0 : ResponseForwarder := forwarder_new (u_mode q).

(** What the journal delivered during the exchange. *)
Definition deliveries : Log := journal_log rt (u_head q) inputs upload0 forwarder0 (log_opening opening_of c).

(** The reply the caller's own body determines, when it fails. *)
Definition caller_failure : option Reply := own_failure rt (u_head q) inputs upload0 forwarder0 (log_opening opening_of c).

(** The carrier kept its promise, and no exchange moves 2^64 bytes. *)
Definition carrier_promise : Prop :=
  carrier_ok rt (u_head q) inputs [] upload0 forwarder0 (log_opening opening_of c) /\
  len (concat (log_chunks deliveries)) < 2 ^ 64.

Lemma forward_spec :
  halted c = false -> 0 <= u_declared q -> carrier_promise ->
  exists p r w, let o := forward_upstream rt q OpenOk inputs c in
    fst o = Some (Ok tt) /\ sent (snd o) = sent c ++ p /\ tokens (snd o) = tokens c /\
    uploaded (snd o) = uploaded c ++ w /\ w `prefix_of` ztake (u_declared q) (u_body_prefix q ++ flat (arrivals c)) /\
    p `prefix_of` render r /\ (healthy c -> halted (snd o) = false -> p = render r) /\
    r = default (reply_of rt (u_head q) (u_mode q) deliveries) caller_failure /\
    (is_Some caller_failure -> log_head deliveries = None).
Proof.
  intros Hh Hd [Hok Hlen]. cbn zeta.
  destruct (drive_spec rt (u_head q) (u_mode q) (uploaded c) (u_body_prefix q) (flat (arrivals c)) (u_declared q) inputs
    [] upload0 forwarder0 [] (log_opening opening_of c))
    as (t&c1&p&r&w&Et&Ht&Hf&Hs&Ho&Htok&Hu&Hw&Hp&Heq&Hr&Hno); try done.
  { by apply (body_inv_new (u_body_prefix q) (u_declared q) (log_opening opening_of c)). }
  { by intros [? [=]]. }
  exists p, r, w.
  assert (E : forward_upstream rt q OpenOk inputs c = (Some (Ok tt), snd (conclude rt (u_head q) t c1))).
  { unfold forward_upstream, mbind, IO_bind at 1. rewrite until_shutdown_eq, Hh.
    cbn [open_stream fst snd]. unfold IO_bind. fold opening_of upload0 forwarder0. rewrite Et.
    destruct t as [| |[] f|]; try done; cbn [conclude] in *; unfold fmap, IO_fmap;
      [destruct (finish _ _ _ _) as [x ?]|destruct (fail _ _) as [x ?]]; cbn in Hf; by subst x. }
  rewrite E. cbn [fst snd]. split_and!; done.
Qed.
End Forward.

(** ** The bootstrap route *)

(** Whether a bootstrap request is good for the cookie, with the tokens [b]. *)
Definition bootstrap_ok (rt : BridgeRuntime) (req : RequestHead) (cap : str) (b : BootstrapTokens) (now : Z) : bool :=
  if browser_authorizer rt then
    match bootstrap_token (target req) with Some t => snd (consume b t now) | None => false end
    || is_ok (check_capability_cookie req (into_bytes cap) (bridge_names rt))
  else match bootstrap_cap (target req) with
       | Some presented => ct_eq (into_bytes presented) (into_bytes cap)
       | None => false
       end.

Definition bootstrap_reply (rt : BridgeRuntime) (req : RequestHead) (cap : str) (b : BootstrapTokens) (now : Z) : Reply :=
  if negb (is_ok (check_loopback_host req (port rt))) then denied 403
  else if negb (bool_decide (method req = lit "GET")) then denied 405
  else if bootstrap_ok rt req cap b now then CookieReply cap (bridge_names rt) else denied 403.

(** The tokens after a bootstrap request: a presented token is spent. *)
Definition bootstrap_spent (rt : BridgeRuntime) (req : RequestHead) (b : BootstrapTokens) (now : Z) : BootstrapTokens :=
  if is_ok (check_loopback_host req (port rt)) && bool_decide (method req = lit "GET") && browser_authorizer rt
  then match bootstrap_token (target req) with Some t => fst (consume b t now) | None => b end
  else b.

Lemma forbidden_murmurs st : murmurs (render (denied st)) (forbidden st).
Proof. apply write_local_murmurs. Qed.

Lemma cookie_murmurs cap names :
  murmurs (render (CookieReply cap names)) (_ ← write_all (into_bytes (bootstrap_response cap names)); _ ← shutdown; mret tt).
Proof.
  rewrite <- (app_nil_r (render _)). apply murmurs_then; [apply emits_write_all|apply murmurs_close, emits_shutdown].
Qed.

Lemma handle_bootstrap_eq rt req cap now c :
  handle_bootstrap rt req cap now c =
    (if negb (is_ok (check_loopback_host req (port rt))) then forbidden 403
     else if negb (bool_decide (method req = lit "GET")) then forbidden 405
     else if bootstrap_ok rt req cap (tokens c) now
     then _ ← write_all (into_bytes (bootstrap_response cap (bridge_names rt))); _ ← shutdown; mret tt
     else forbidden 403) (set_tokens (bootstrap_spent rt req (tokens c) now) c).
Proof.
  unfold handle_bootstrap, bootstrap_ok, bootstrap_spent.
  assert (E : c = set_tokens (tokens c) c) by by destruct c.
  destruct (is_ok _); cbn [negb andb]; [|by rewrite <- E].
  destruct (bool_decide _); cbn [negb andb]; [|by rewrite <- E].
  unfold mbind, IO_bind. destruct (browser_authorizer rt).
  - destruct (bootstrap_token _) as [t|]; unfold redeem_token, mret, IO_ret.
    + destruct (consume (tokens c) t now) as [b ok]; cbn [fst snd]. by destruct (ok || _).
    + rewrite <- E. by destruct (false || _).
  - unfold mret, IO_ret. rewrite <- E. by destruct (match bootstrap_cap _ with Some _ => _ | None => _ end).
Qed.

Lemma bootstrap_spec rt req cap now c :
  halted c = false ->
  let c' := snd (ignore (handle_bootstrap rt req cap now) c) in
  exists p, sent c' = sent c ++ p /\ p `prefix_of` render (bootstrap_reply rt req cap (tokens c) now) /\
    (healthy c -> p = render (bootstrap_reply rt req cap (tokens c) now)) /\
    tokens c' = bootstrap_spent rt req (tokens c) now.
Proof.
  intros Hh. cbn zeta. rewrite ignore_eq, Hh. cbn [snd]. rewrite handle_bootstrap_eq.
  set (m := if negb _ then _ else _). set (c1 := set_tokens _ c).
  assert (Hm : murmurs (render (bootstrap_reply rt req cap (tokens c) now)) m).
  { unfold m, bootstrap_reply. repeat case_match; first [apply forbidden_murmurs|apply cookie_murmurs]. }
  destruct (Hm c1) as [p [[Hs _ _ _ Ht] Hp _ _ Hok]]. exists p.
  assert (Hc : forall x : option unit, sent (match x with Some _ => snd (m c1) | None => set_halted (snd (m c1)) end) = sent (snd (m c1)) /\
    tokens (match x with Some _ => snd (m c1) | None => set_halted (snd (m c1)) end) = tokens (snd (m c1))) by (by intros []).
  destruct (Hc (fst (m c1))) as [-> ->]. split_and!; try done. intros Hc'. by apply Hok.
Qed.

(** ** The accept loop *)

Record acceptor_inv (s : Acceptor) : Prop := {
  ai_count : active_requests (snapshot (a_status s)) = Z.of_nat (unfinished s);
  ai_listener : listener_active (snapshot (a_status s)) = match a_phase s with Returned _ => false | _ => true end;
  ai_last : forall v, a_phase s = Returned v -> unfinished s = 0%nat /\ active_requests v = 0 /\ listener_active v = false
}.

Lemma apply_status_requests o s :
  active_requests (snapshot (apply_status o s)) = active_requests (snapshot s) /\
  listener_active (snapshot (apply_status o s)) = listener_active (snapshot s).
Proof.
  destruct o; cbn; unfold latch_tls_access_denied, record_carrier_accepted, record_carrier_failure, mark_carrier_dead,
    under_lock, publish_refusals, set_tracker, set_carrier; cbn; repeat case_match; done.
Qed.

Lemma accept_step_inv e s s' :
  acceptor_inv s -> accept_step e s = Some s' -> Z.of_nat (unfinished s') < 2 ^ 64 -> acceptor_inv s'.
Proof.
  intros [H1 H2 H3] Hs Hb. destruct s as [st n t p], s' as [st' n' t' p']; cbn in *.
  destruct e, p; cbn in Hs; simplify_eq; try (by constructor); try (destruct n as [|n]; cbn in *; simplify_eq);
    try (constructor; cbn; [unfold saturating_add, saturating_sub in *; lia|done|done]).
  1: { constructor; cbn; [lia|done|]. intros v [= <-]. cbn. split_and!; [done|lia|done]. }
  all: destruct (apply_status_requests o st) as [E1 E2]; constructor; cbn; rewrite ?E1, ?E2; try done.
Qed.

Lemma accept_run_inv es : forall s s',
  acceptor_inv s -> accept_run es s = Some s' -> Z.of_nat (unfinished s) + len es < 2 ^ 64 -> acceptor_inv s'.
Proof.
  induction es as [|e es IH]; intros s s' Hi Hr Hb; cbn in Hr; [by simplify_eq|].
  destruct (accept_step e s) as [s1|] eqn:E; [|done]. cbn in Hr.
  assert (Hu : (unfinished s1 <= S (unfinished s))%nat).
  { destruct s as [st n t p]. destruct e, p; cbn in E; simplify_eq; cbn; try lia; destruct n; simplify_eq; cbn; lia. }
  cbn [length] in Hb. eapply IH; [|exact Hr|lia]. eapply accept_step_inv; [done|exact E|lia].
Qed.

(** ** Properties *)

(** The request head does not depend on how it is cut into segments.  For
    every sequence of arrivals whose bytes contain an empty line, the reader
    returns exactly the bytes up to the first one when they fit 64 KiB and
    refuses the request when they do not; what it read beyond the head and what
    is still to arrive are the bytes after it, and what it holds of them is less
    than one read, so its reservation fits the upload stage. *)
Theorem request_head_read c i :
  find_header_end (flat (arrivals c)) = Some i ->
  exists a, if i + 4 <=? MAX_REQUEST_HEAD_BYTES then
    exists p, read_request_head c = (Some (Ok (ztake (i + 4) (flat (arrivals c)), p)), set_arrivals a c) /\
      p ++ flat a = zdrop (i + 4) (flat (arrivals c)) /\ len p < READ_BUF_BYTES <= UPLOAD_BODY_STAGE_CAPACITY
  else read_request_head c = (Some (Err ReadInvalid), set_arrivals a c).
Proof.
  intros Hi. pose proof (read_request_head_spec c) as H. unfold head_outcome in H. rewrite Hi in H.
  destruct (_ <=? _); [|done]. destruct H as (p&a&?&?&?). exists a, p. split_and!; try done.
Qed.

(** C7. Only admitted requests reach the journal: a connection opens at most
    one stream, and then the head it read parses with a declared body within the
    limit, names the bridge's own address as its host, is not answered locally,
    and is forwarded under its own method and target with no reserved header;
    and when the capability gate is enabled, it is not the bootstrap route and
    carries the capability cookie.  (With the gate disabled that route is
    forwarded like any other.) *)
Theorem admitted_requests_only rt now snap opening inputs c :
  halted c = false -> openings c = [] ->
  let c' := snd (handle_conn rt now snap opening inputs c) in
  openings c' = [] \/
  exists i v, find_header_end (flat (arrivals c)) = Some i /\
    parse_request_head (ztake (i + 4) (flat (arrivals c))) = Ok v /\
    openings c' = [mkOpening (method (head_of v)) (target (head_of v)) (forwarded_headers rt (head_of v))
                     (Bridge.content_length v)] /\
    Bridge.content_length v <= max_request_body_bytes rt /\
    host (head_of v) = Some (lit "127.0.0.1:" ++ to_string (port rt)) /\
    local_response rt (head_of v) snap = None /\
    (forall cap, capability rt = Enabled cap -> path (head_of v) <> BOOTSTRAP_ROUTE /\
       exists k, cookie (head_of v) (capability_cookie_name (bridge_names rt)) = Some k /\ into_bytes k = into_bytes cap) /\
    (forall n x, (n, x) ∈ forwarded_headers rt (head_of v) ->
       n = lit "cookie" \/ is_reserved_request_header n (bridge_names rt) = false).
Proof.
  intros Hh Ho. cbn zeta.
  destruct (handle_conn_head rt now snap opening inputs c Hh) as [H|(i&v&p&a&Hi&_&Hv&Hmax&Hp&Hb&Ha&Hl&Hc)]; [left; congruence|].
  right. exists i, v. apply authorization_spec in Ha as [Hhost Hcap]. split_and!; try done.
  - rewrite Hc, forward_opens. cbn [openings set_arrivals halted u_head u_headers u_declared]. by rewrite Hh, Ho.
  - intros cap Hcap'. split; [|by apply Hcap]. intros Hpath. unfold bootstrap_capability in Hb.
    rewrite Hcap', bool_decide_true in Hb by done. done.
  - apply forwarded_not_reserved.
Qed.

(** C6. One reply per exchange.  Whatever the carrier delivers within its
    promise and however the local socket fails, an exchange returns, and the
    caller reads a prefix of a single reply.  It is the reply the deliveries
    determine: the journal's answer, the answer that overtook the upload, or 502
    when neither came; except when the caller's own socket ended or broke while
    bytes of its declared body were still due and no head had come: then it is
    400, or nothing.  On a socket whose writes complete the caller reads the
    whole reply unless the bridge shut down. *)
Theorem exchange_one_reply rt q inputs c :
  halted c = false -> 0 <= u_declared q -> carrier_promise rt q inputs c ->
  let o := forward_upstream rt q OpenOk inputs c in
  let r := default (reply_of rt (u_head q) (u_mode q) (deliveries rt q inputs c)) (caller_failure rt q inputs c) in
  fst o = Some (Ok tt) /\
  (exists p, sent (snd o) = sent c ++ p /\ p `prefix_of` render r /\
    (healthy c -> halted (snd o) = false -> p = render r)) /\
  (is_Some (caller_failure rt q inputs c) -> log_head (deliveries rt q inputs c) = None).
Proof.
  intros Hh Hd Hok. destruct (forward_spec rt q inputs c Hh Hd Hok) as (p&r&w&H1&H2&_&_&_&H3&H4&->&H5).
  split_and!; [done| |done]. by exists p.
Qed.

(** The journal receives the caller's body and nothing else: what is
    uploaded is, in order and without gaps, a prefix of the declared number of
    bytes of what followed the head. *)
Theorem upload_is_declared_prefix rt q inputs c :
  halted c = false -> 0 <= u_declared q -> carrier_promise rt q inputs c ->
  exists w, uploaded (snd (forward_upstream rt q OpenOk inputs c)) = uploaded c ++ w /\
    w `prefix_of` ztake (u_declared q) (u_body_prefix q ++ flat (arrivals c)).
Proof.
  intros Hh Hd Hok. destruct (forward_spec rt q inputs c Hh Hd Hok) as (p&r&w&_&_&_&H1&H2&_). by exists w.
Qed.

(** A streamed body is never whole by accident: when the journal's head
    declares [d > 0] body bytes to a method other than [HEAD], the caller reads
    the rewritten head and then bytes the journal sent, all [d] of them only if
    the journal sent exactly [d] and then closed the stream. *)
Theorem whole_body_needs_clean_close rt q inputs c h d :
  halted c = false -> 0 <= u_declared q -> carrier_promise rt q inputs c ->
  u_mode q = Streaming -> is_head (u_head q) = false ->
  let l := deliveries rt q inputs c in
  log_early l = None -> log_head l = Some h -> streamed_length (u_head q) h = Some d -> 0 < d ->
  let head := into_bytes (stream_head (hh_status h) (rewritten rt h) (Some d)) in
  exists p, sent (snd (forward_upstream rt q OpenOk inputs c)) = sent c ++ p /\
    p `prefix_of` head ++ concat (log_chunks l) /\
    (len head + d <= len p -> log_clean l = true /\ len (concat (log_chunks l)) = d).
Proof.
  intros Hh Hd Hok Hm Hnh l He Hl Hs Hpos head.
  destruct (forward_spec rt q inputs c Hh Hd Hok) as (p&r&w&_&Hsent&_&_&_&Hp&_&->&Hno).
  destruct (caller_failure rt q inputs c) as [x|]; [specialize (Hno ltac:(eauto)); fold l in Hno; congruence|]. cbn [default] in Hp.
  fold l in Hp. unfold reply_of in Hp. rewrite He, Hl, Hm in Hp. cbn [journal_answer] in Hp. rewrite Hnh, Hs in Hp.
  replace (d =? 0) with false in Hp by lia. exists p. split; [done|].
  destruct (log_clean l && (len (concat (log_chunks l)) =? d)) eqn:Ec; cbn [render] in Hp; fold head in Hp.
  - split; [done|]. intros _. lia.
  - split.
    + etrans; [exact Hp|]. apply prefix_app. etrans; [apply prefix_take|apply kept_prefix].
    + intros Hlen. exfalso. apply prefix_length in Hp. rewrite length_app, length_take in Hp. lia.
Qed.

(** A browser link works once: on a bridge with one-time links, a [GET] of
    the bootstrap route that presents a token issued at [t0], with the bridge's
    own host and no valid cookie, is answered with the capability cookie exactly
    when it comes within thirty seconds and no earlier request presented the
    token, and with 403 otherwise; the token is spent either way. *)
Theorem browser_link_once rt req cap tok t0 t before after c b :
  Forall op_ok (before ++ Issue tok t0 :: after) ->
  Forall (fun o => ~ is_issue tok o) (before ++ after) ->
  ordered 0 (before ++ Issue tok t0 :: after) t ->
  token_run tokens_default (before ++ Issue tok t0 :: after) = Ok b ->
  tokens c = b -> healthy c ->
  browser_authorizer rt = true -> is_ok (check_loopback_host req (port rt)) = true -> method req = lit "GET" ->
  bootstrap_token (target req) = Some tok ->
  is_ok (check_capability_cookie req (into_bytes cap) (bridge_names rt)) = false ->
  let c' := snd (ignore (handle_bootstrap rt req cap t) c) in
  sent c' = sent c ++ render
    (if bool_decide (t < t0 + 30000 /\ Forall (fun o => ~ is_redeem tok o) after)
     then CookieReply cap (bridge_names rt) else denied 403) /\
  token_run tokens_default ((before ++ Issue tok t0 :: after) ++ [Redeem tok t]) = Ok (tokens c').
Proof.
  intros H1 H2 H3 H4 Hb Hc Hau Hho Hme Ht Hck. cbn zeta.
  destruct (redeem_issued tok t0 t before after H1 H2 H3) as (b'&Hb'&Hcons). rewrite H4 in Hb'. simplify_eq.
  destruct (bootstrap_spec rt req cap t c (proj2 (proj2 (proj2 Hc)))) as (p&->&_&Hp&->). rewrite Hp by done. clear Hp.
  unfold bootstrap_reply, bootstrap_spent, bootstrap_ok.
  rewrite Hau, Hho, Hck, Ht, Hcons, orb_false_r, bool_decide_true by done. cbn [negb andb]. split; [done|].
  rewrite token_run_app, H4. done.
Qed.

(** Attribution cannot be forged or widened: of a header name the policy
    attributes to a request only the policy's own values are forwarded, whatever
    the caller sent under it in any case, and an attributed header is neither a
    cookie nor reserved. *)
Theorem attribution_not_forged rt req n v a w :
  (a, w) ∈ filtered_attribution_headers req (bridge_names rt) (attribution_headers rt req) ->
  (n, v) ∈ forwarded_headers rt req -> eq_ignore_ascii_case n a = true ->
  (n, v) ∈ attribution_headers rt req /\ valid_attribution_header (n, v) = true /\
  is_reserved_request_header n (bridge_names rt) = false /\ n <> lit "cookie".
Proof.
  intros Ha Hin Hn. pose proof (attributed_only rt req n v a w Ha Hn Hin) as Hf.
  unfold filtered_attribution_headers, upstream_request_headers in Hf. cbn [req_headers] in Hf.
  apply list_elem_of_omap in Hf as ([n' v']&Hf&Hup).
  apply list_elem_of_filter in Hf as [Hck Hf]. apply list_elem_of_filter in Hf as [Hval Hf].
  unfold upstream_header in Hup. cbn in Hck. case_bool_decide as Hc.
  { exfalso. subst n'. by vm_compute in Hck. }
  destruct (is_reserved_request_header n' _) eqn:Er; [done|]. simplify_eq. split_and!; try done. by apply Is_true_eq_true.
Qed.

(** The bridge's request count is exact and its shutdown quiescent: in
    every run of the accept loop the published number of active requests is the
    number of connections whose task has not finished, and the snapshot the loop
    returns has none and no active listener, so the loop never reports a
    shutdown with requests left. *)
Theorem shutdown_quiescent es s :
  accept_run es accept_new = Some s -> len es < 2 ^ 64 ->
  active_requests (snapshot (a_status s)) = Z.of_nat (unfinished s) /\
  forall v, a_phase s = Returned v -> unfinished s = 0%nat /\ active_requests v = 0 /\ listener_active v = false.
Proof.
  intros Hr Hlen. assert (Hi : acceptor_inv accept_new) by by constructor.
  pose proof (accept_run_inv es _ _ Hi Hr Hlen) as [H1 _ H3]. done.
Qed.

(** *** Witnesses *)

Definition ex_rt : BridgeRuntime :=
  mkRuntime (Enabled (lit "k")) true 8080 [lit "spl.local"] (lit "http://127.0.0.1:8080") sample_names
    (fun _ => true) (fun _ _ => None) (fun _ => [(lit "x-user", lit "me")]) 100.
Definition ex_chunk (l : list byte) : list Arrival := match l with [] => [] | b :: r => [Chunk b r] end.
Definition ex_head_bytes : list byte :=
  blit "POST /a HTTP/1.1" ++ bCRLF ++ blit "Host: 127.0.0.1:8080" ++ bCRLF ++ blit "Cookie: cap=k" ++ bCRLF
  ++ blit "X-User: you" ++ bCRLF ++ blit "Content-Length: 3" ++ bCRLF2.
Definition ex_arrivals : list Arrival :=
  ex_chunk (take 70 ex_head_bytes) ++ ex_chunk (drop 70 ex_head_bytes ++ blit "ab") ++ ex_chunk (blit "cd").
Definition ex_conn : Conn := conn_new ex_arrivals [] tokens_default.
Definition ex_up (i : StreamItem) : Input := InUpstream (Some (DStream (uncosted i))) 0.
Definition ex_inputs : list Input :=
  [InBody Granted true; InBody Granted true;
   ex_up (ItemHead (mkHttpHead 200 [(lit "content-length", lit "4")]));
   ex_up (ItemBody (blit "xy")); ex_up (ItemBody (blit "zw")); ex_up (ItemEnd EndClose)].
Definition ex_req : RequestHead :=
  mkHead (lit "POST") (lit "/a")
    [(lit "host", lit "127.0.0.1:8080"); (lit "cookie", lit "cap=k"); (lit "x-user", lit "you"); (lit "content-length", lit "3")].
Definition ex_request : UpstreamRequest := mkRequest ex_req (forwarded_headers ex_rt ex_req) (blit "ab") 3 Streaming.
Definition ex_start : Conn := conn_new (ex_chunk (blit "cd")) [] tokens_default.

Lemma ex_promise : carrier_promise ex_rt ex_request ex_inputs ex_start.
Proof. split; [vm_compute; by eauto 20|vm_compute; reflexivity]. Qed.

Lemma request_head_read_witness :
  find_header_end (flat (arrivals ex_conn)) = Some 85 /\
  exists a p, read_request_head ex_conn = (Some (Ok (ex_head_bytes, p)), set_arrivals a ex_conn) /\
    p ++ flat a = blit "abcd".
Proof.
  assert (Hi : find_header_end (flat (arrivals ex_conn)) = Some 85) by (vm_compute; reflexivity).
  split; [exact Hi|]. destruct (request_head_read ex_conn 85 Hi) as (a&p&H1&H2&_). exists a, p. split.
  - rewrite H1. vm_compute. reflexivity.
  - rewrite H2. vm_compute. reflexivity.
Defined.

Lemma admitted_requests_only_witness :
  let c' := snd (handle_conn ex_rt 0 (snapshot new_status) OpenOk ex_inputs ex_conn) in
  openings c' <> [] /\
  exists v, host (head_of v) = Some (lit "127.0.0.1:8080") /\ Bridge.content_length v <= 100 /\
    openings c' = [mkOpening (method (head_of v)) (target (head_of v)) (forwarded_headers ex_rt (head_of v)) (Bridge.content_length v)].
Proof.
  cbn zeta.
  assert (Hne : openings (snd (handle_conn ex_rt 0 (snapshot new_status) OpenOk ex_inputs ex_conn)) <> []) by (vm_compute; done).
  split; [exact Hne|].
  destruct (admitted_requests_only ex_rt 0 (snapshot new_status) OpenOk ex_inputs ex_conn eq_refl eq_refl)
    as [H|(i&v&_&_&Ho&Hl&Hh&_)]; [destruct (Hne H)|]. exists v. exact (conj Hh (conj Hl Ho)).
Defined.

Lemma exchange_one_reply_witness :
  let c' := snd (forward_upstream ex_rt ex_request OpenOk ex_inputs ex_start) in
  sent c' = render (reply_of ex_rt ex_req Streaming (deliveries ex_rt ex_request ex_inputs ex_start)) /\
  sent c' = into_bytes (stream_head 200 [] (Some 4)) ++ blit "xyzw".
Proof.
  cbn zeta. split; [|vm_compute; reflexivity].
  destruct (exchange_one_reply ex_rt ex_request ex_inputs ex_start eq_refl) as (_&(p&Hs&_&Heq)&_);
    [discriminate|exact ex_promise|].
  replace (caller_failure ex_rt ex_request ex_inputs ex_start) with (@None Reply) in Heq by (vm_compute; reflexivity).
  rewrite Hs, Heq; [reflexivity|by repeat split|]. vm_compute. reflexivity.
Defined.

Lemma upload_is_declared_prefix_witness :
  uploaded (snd (forward_upstream ex_rt ex_request OpenOk ex_inputs ex_start)) = blit "abc" /\
  exists w, uploaded (snd (forward_upstream ex_rt ex_request OpenOk ex_inputs ex_start)) = [] ++ w /\ w `prefix_of` blit "abc".
Proof.
  split; [vm_compute; reflexivity|].
  destruct (upload_is_declared_prefix ex_rt ex_request ex_inputs ex_start eq_refl) as (w&Hw&Hp);
    [discriminate|exact ex_promise|]. exists w. split; [exact Hw|exact Hp].
Defined.

Lemma whole_body_needs_clean_close_witness :
  len (concat (log_chunks (deliveries ex_rt ex_request ex_inputs ex_start))) = 4 /\
  exists p, sent (snd (forward_upstream ex_rt ex_request OpenOk ex_inputs ex_start)) = [] ++ p /\
    p `prefix_of` into_bytes (stream_head 200 (rewritten ex_rt (mkHttpHead 200 [(lit "content-length", lit "4")])) (Some 4)) ++ blit "xyzw".
Proof.
  split; [vm_compute; reflexivity|].
  destruct (whole_body_needs_clean_close ex_rt ex_request ex_inputs ex_start (mkHttpHead 200 [(lit "content-length", lit "4")]) 4
    eq_refl) as (p&Hs&Hp&_); [discriminate|exact ex_promise|reflexivity|vm_compute; reflexivity..|].
  exists p. split; [exact Hs|]. replace (blit "xyzw") with (concat (log_chunks (deliveries ex_rt ex_request ex_inputs ex_start)))
    by (vm_compute; reflexivity). exact Hp.
Defined.

Definition ex_link : RequestHead :=
  mkHead (lit "GET") (lit "/_bridge/bootstrap?token=tok") [(lit "host", lit "127.0.0.1:8080")].
Definition ex_tokens : BootstrapTokens := match token_run tokens_default [Issue (lit "tok") 5] with Ok b => b | _ => tokens_default end.

Lemma browser_link_once_witness :
  sent (snd (ignore (handle_bootstrap ex_rt ex_link (lit "k") 6) (conn_new [] [] ex_tokens)))
  = render (CookieReply (lit "k") sample_names).
Proof.
  assert (H1 : Forall op_ok [Issue (lit "tok") 5]).
  { constructor; [|constructor]. split; [repeat constructor|split; [discriminate|reflexivity]]. }
  assert (H4 : token_run tokens_default [Issue (lit "tok") 5] = Ok ex_tokens) by (vm_compute; reflexivity).
  assert (H5 : is_ok (check_loopback_host ex_link (port ex_rt)) = true) by (vm_compute; reflexivity).
  assert (H6 : bootstrap_token (target ex_link) = Some (lit "tok")) by (vm_compute; reflexivity).
  assert (H7 : is_ok (check_capability_cookie ex_link (into_bytes (lit "k")) (bridge_names ex_rt)) = false) by (vm_compute; reflexivity).
  assert (H8 : healthy (conn_new [] [] ex_tokens)) by (repeat split).
  assert (H9 : ordered 0 [Issue (lit "tok") 5] 6) by (repeat split; discriminate).
  destruct (browser_link_once ex_rt ex_link (lit "k") (lit "tok") 5 6 [] [] (conn_new [] [] ex_tokens) ex_tokens
    H1 (Forall_nil_2 _) H9 H4 eq_refl H8 eq_refl H5 eq_refl H6 H7) as [H _].
  rewrite H, bool_decide_true by (split; [reflexivity|constructor]). reflexivity.
Defined.

Lemma attribution_not_forged_witness :
  forwarded_headers ex_rt ex_req = [(lit "x-user", lit "me")] /\
  (lit "x-user", lit "me") ∈ attribution_headers ex_rt ex_req.
Proof.
  assert (E : forwarded_headers ex_rt ex_req = [(lit "x-user", lit "me")]) by (vm_compute; reflexivity).
  split; [exact E|].
  destruct (attribution_not_forged ex_rt ex_req (lit "x-user") (lit "me") (lit "x-user") (lit "me")) as [H _].
  - replace (filtered_attribution_headers _ _ _) with [(lit "x-user", lit "me")] by (vm_compute; reflexivity). left.
  - rewrite E. left.
  - reflexivity.
  - exact H.
Defined.

Definition ex_accepts : list accept_event :=
  [AcceptOk; AcceptOk; StatusChanges OpAttempt; ConnEnds; AcceptErr; ShutdownAsked; CarrierClosed; ConnEnds; AllJoined].
Definition ex_acceptor : Acceptor := default accept_new (accept_run ex_accepts accept_new).

Lemma shutdown_quiescent_witness :
  accept_run ex_accepts accept_new = Some ex_acceptor /\
  exists v, a_phase ex_acceptor = Returned v /\ active_requests v = 0.
Proof.
  assert (Hr : accept_run ex_accepts accept_new = Some ex_acceptor) by (vm_compute; reflexivity).
  split; [exact Hr|].
  assert (Hp : exists v, a_phase ex_acceptor = Returned v) by (eexists; vm_compute; reflexivity).
  destruct Hp as [v Hv]. exists v. split; [exact Hv|].
  apply (shutdown_quiescent ex_accepts ex_acceptor Hr eq_refl). exact Hv.
Defined.
